(* ===== verification/_CoqProject ===== *)
-Q . S2P
Prelude.v
Json.v
ErrorText.v
Apportion.v
Float64.v
Candidates.v
Planner.v
Pipeline.v
Worklist.v
Graph.v
Lineage.v
Validate.v
Wire.v
FanInMap.v
Routing.v
Cohort.v
CohortInv.v
CohortLineage.v
Turnstile.v
Peers.v
Piston.v
PistonLoop.v
Keys.v
Latch.v
Resolver.v
Reducers.v
State.v
Staterefs.v
FanInState.v
Flow.v
Mermaid.v
FlowDiagram.v
GraphDiagram.v
StepRow.v
Dispatch.v
LeaseInv.v
Lease.v
Cancel.v
Tree.v
Loss.v
FinalState.v
Settle.v
Resume.v
Caches.v
Doorbell.v
Fork.v
ForkClone.v
Crew.v
Query.v
Thread.v
View.v
Sizing.v
Reconcile.v
Lifecycle.v
