(* ===== verification/Prelude.v ===== *)
(** * dwarf: a verification development of the workflow engine (root file)

    dwarf runs workflow graphs.  A flow is a row of a SQL database and a step of it another; replicas
    of the engine scan the database for due steps, claim them under a lease, run the host's task, and
    write what it left: the step is completed, and its successors are inserted in the same transaction
    that counts the branches arriving at a fan-in.  Callers wait for a flow to stop.

    ** The program's parts and the files that model them

    - The workflow library ([src/workflow]).  [Graph] is the graph value, its builders and [Validate]
      with its three passes; [Lineage] and [Validate] say what the passes decide.  [Reducers], [State]
      and [Flow] are the reducers, the field map with its merges and tombstones, and the carrier a task
      reads and writes.  [Json] is JSON text as [encoding/json] writes and reads it, [Wire] the form in
      which a graph is frozen into its flow's row.  [Mermaid] has what both diagram renderers share,
      [GraphDiagram] the diagram of a graph and [FlowDiagram] that of a flow's history.  [Worklist] holds the search that [Validate] and the
      fan-in map share, [Float64] Go's [float64].
    - Routing and cohorts ([engine/transitions.go], [internal/faninmap], the transition half of
      [engine/execution.go], [failStep] and [propagateCohortFailure] of [engine/completion.go]).
      [FanInMap] is the map from a fan-out to its fan-in, [Routing] the choice of successors and of the
      four ways a completed step moves its flow on ([route]), [Cohort] the step rows of one flow and the
      transactions on them.  [CohortInv] holds the accounting invariant of every reachable table,
      [CohortLineage] the refinement that ties run-time cohorts to the validator's stacks.
    - State at a fan-in and across hops ([internal/staterefs], [insertFanInStep], [fireFanInDirect],
      [mergeCohortState]).  [Staterefs] mints and resolves references to earlier rows, [FanInState]
      merges a cohort's branches and mints the fan-in's row.  [FinalState] is the state a flow ends with
      ([computeFinalState] of [engine/completion.go]), converged or not.
    - The life of a step ([processStep], [engine/persist.go], [failAndReturn], the statements of
      [engine/wedge.go], [engine/operations.go] and [engine/completion.go] that write a step).
      [StepRow] has one function per [UPDATE]; [Dispatch] composes them into a machine in which any
      number of dispatches work the same step next to the lease sweep, Terminate, Cancel, Resume and
      the subgraph child; [LeaseInv] and [Lease] hold what every interleaving respects.  [Cancel] has
      the two statements of a Cancel next to the steps of its flow and the mark a step hands on.
    - The subgraph tree ([engine/completion.go], [handleInterrupt], [Terminate], the creation of a flow
      and of a child, the retry's discard, the sweeps of [engine/wedge.go]).  [Tree] has the tables of
      flows and steps, the walks up and down, every operation that follows them and the well-formedness
      all of them keep; [Settle] is Terminate and the two sweeps, [Resume] the interrupt and its Resume.
      [Loss] is the transaction by which a failing step resolves its flow and tells the caller, and [ErrorText]
      what an error's text is stored as.
      The statements on one row are [StepRow]'s, the breadth-first walk is [Worklist]'s.  [Fork] is the
      copy of a stopped tree up to a step ([engine/fork.go]), [ForkClone] what that copy is worth.
    - Flows from outside.  [Thread] has [Create] and [Continue] and the threads they chain flows into
      ([engine/operations.go], [engine/history.go]), [Query] what ranges over the flows of all shards:
      [List], [Purge], [Delete] and the reaper ([engine/reaper.go]).  [View] has what one reads of a
      single flow over the tables of [Tree]: [Snapshot], [Await] and [Poll], [Run], [History] and the
      neighbours of a step.
    - Supply ([internal/planner], [internal/pipeline], [internal/candidates], [internal/piston],
      [internal/peers], [internal/turnstile], [internal/workers]).  [Apportion] and [Planner] share a batch fairly between
      keys and shards, [Pipeline] runs the tally and supply cycles, [Candidates] is the cache the
      workers pop, [Piston] the selection queries and the partition of the steps between replicas,
      [PistonLoop] the two loops that run them and publish their evidence next to everything else,
      [Peers] the registry the partition is computed from, [Turnstile] the admission to the database,
      [Crew] the goroutines that pop the cache and run the steps, [Doorbell] the way past the cache by
      which a step just made due reaches a worker ([enqueueStep] and [enqueueStepDue] of the engine).
    - Capacity ([engine/poolsize.go], [engine/scheduling.go], the sizing of [Startup] and the live setters
      of [engine/engine.go]).  [Sizing] has what is derived from the facts of a shard: budgets, slots,
      pools, ceilings, periods and the placement of flows.  [Reconcile] is the engine that keeps them in
      step with the fleet: which shards a replica dispatches, and the writes that follow.
    - The engine's life ([internal/database], [Startup], [Shutdown] and [drainRuntime] of
      [engine/engine.go]).  [Lifecycle] has the opening and closing of the shards, what a Startup takes
      and a Shutdown gives back, and the order of the drain.
    - Waiting and keys ([internal/latch], [engine/latch.go], [internal/keys]).  [Latch] is the board
      callers park on, [Resolver] the sweep that answers them from the tables, [Keys] the external keys.
      [Caches] holds the replica's claims tracker and its LRU of parsed graphs.

    The supply side hands a step id to a worker and the worker to [Dispatch]; [Dispatch] completes the
    step and takes the transition that [Routing.route] chose, which [Cohort] commits.  [Cohort] assumes
    that a step is completed once and moves on once: that is what [LeaseInv.forward_progress_once]
    proves of the dispatches.  [FanInState] gives the state of the row [Cohort] inserts.

    ** How the code is modelled

    State is passed explicitly.  A statement of SQL is a function on the row that returns [None] where
    its [WHERE] matches nothing; a transaction is the composition of its statements and is atomic.
    What runs concurrently is a transition system: [Turnstile], [Latch], [Candidates] and [Crew] take one
    step per critical section, [Dispatch] and [Thread] one per database call, [Reconcile] one per write,
    and theorems quantify over all interleavings ([reach], or lists of operations).  A label carries what the outside answers: whether
    the statement came through, what the task returned, whether the engine drains.  Errors are values
    of [result] or of an error type with the code's cases.  Go's integers that can wrap are wrapped
    where they do ([Flow.wrap64], the 64-bit hash of [Peers]), times are whole units of one clock.

    Code that is not in the repository is a parameter: the expression language of [when]
    conditions, the random source of the planner, the database's clock; so are [math.Pow], [math.Log],
    [math.Exp], the conversion of a float that no integer holds and the table of printable runes that
    [strconv.Quote] consults.  A connection pool is what [database/sql] documents of its two bounds.

    ** The theorems

    - Graphs: [Validate] accepts exactly the declaratively valid graphs; its one-pass lineage check
      decides a property of all paths; the fan-in map agrees with it, where fan-ins are entered by plain
      edges; a frozen graph reads back as itself; the diagram of a graph has its paths, and that of a history
      every step.
    - Cohorts: arrivals and members under way add up to each cohort's size in every reachable state, a
      running flow can always move, a stopped one has left nothing pending, and run-time cohorts are the
      validator's stacks.
    - Steps: a lease generation is granted once and runs its task at most once, a dispatch that lost its
      lease writes nothing, the unfenced transition still commits once, a lease excludes other
      dispatches, and every dispatch returns.
    - Trees: the walks are complete and end; Terminate settles a tree and nothing else; Resume undoes an
      interrupt at any depth; a retry deletes what its step called and nothing else; the sweeps leave
      neither a wedged caller nor an orphan; a Cancel is delivered once on every path; a loss is told one way
      by the flow's row, its caller and the sweep that repairs.
    - Forks: a fork leaves its origin alone and makes a tree of its own with one step to run.
    - Flows from outside: a creation adds one root or nothing; a thread stays linear while its first flow
      is there; the pages of a listing cover what matches, purging to zero marks all of it, and the reaper
      removes the trees of marked roots and nothing else; a history shows each step of the tree once and
      the walk from step to step goes forth and back.
    - State: reducers compute what they document and refuse the rest by name, one merge over a cohort is the fold of its deltas, a state
      resolves to itself across any number of hops and through a fan-in, and a task's recorded changes
      are what it saw itself change; a flow's final state is the merge of its open branches, without
      tombstones.
    - Supply: what a plan grants is what the slices hand out and what the candidates receive; the cache
      serves the most urgent band; replicas that read one registry cover every step; the turnstile
      neither loses a pass nor lets anyone overtake; a step that is rung is run; the crew accounts for its workers and drains; a piston that goes idle leaves nothing of its shard
      in the shared tables, and its evidence is as old as the slower of its loops.
    - Capacity: the dispatchers of a shard share its budget; after a tick everything sized is what the
      fleet as read implies, idle connections under a live pin apart, and no shard is ever dispatched through a
      reader's pool; flows are placed in
      proportion to the shards' capacity.
    - Life: a drain is never stuck and ends, with the replica registered as long as a worker runs, and
      a Shutdown gives back what its Startup took.
    - Waiting: no wake is lost, an answer is earned, keys round-trip.

    Some theorems state where the code departs from what it says it does: control edges into a fan-in,
    a claim that fails on contention, branches of mixed types, a scalar seed behind a reference, the
    overflow of a retry's delay, respelled keys, stealing past the own class, a second interrupt in one
    child, a Cancel whose mark failed, a fork past an arrival or a fan-in it does not see, a reserve that
    retires, a thread whose first flow is gone, a purge by a negative age, a [Run] that returns nothing
    when the engine's own budget runs out, a walk that leaves one subgraph only, a cache that stays a
    reader's after a promotion, a failing fetch that reads as a dispatch, the branches a final state
    leaves out, what a Startup that fails leaves behind, pushes past the test cap, a live pin that
    leaves the idle connections behind, names that are not UTF-8 in a frozen graph or an error's text.

    ** Fuel and bounds

    The graph searches are fuelled by one unit per node they can visit, and [Worklist] proves that this
    is enough, so [Validate_iff_valid] has no fuel in it.  The walks of [Tree] are fuelled by the number
    of flows, or by the flow's own id on the way up, and the theorems show that this suffices on every
    reachable table; those of [Fork] by the rows of a flow, which [ForkClone] shows is enough.
    Every other recursion is structural.  The turns of a dispatch are bounded by
    [Lease.pc_rank].

    ** Not modelled

    The reflection of [NewState] and [State.Parse] and the JSON form of flows and states: their fields
    hold decoded values.  Metrics, tracing, logging and fault seams do not change what is stored.  Nor are the
    sweep that only raises an alarm, the fingerprints, which hash a count and a time, the probes of a
    database server (round trip, processor count, connection limit), the
    SQL of the migrations, or the fixtures, the benchmark and the
    command-line tools: what they do is I/O, text or measurement. *)

From Stdlib Require Export Lia.
From stdpp Require Export sorting functions.
From stdpp Require Export base tactics numbers list gmap sets strings.

#[export] Set Warnings "-clear-no-such-hyp".

Declare Scope dwarf_scope.
Delimit Scope dwarf_scope with dwarf.
#[global] Open Scope dwarf_scope.

(** ** Results: a value or one of the errors the code returns *)

Inductive result (E A : Type) : Type :=
| Ok (a : A)
| Err (e : E).
Arguments Ok {E A} a.
Arguments Err {E A} e.

#[export] Instance result_eq_dec {E A} `{!EqDecision E, !EqDecision A} :
  EqDecision (result E A).
Proof. solve_decision. Defined.

Definition rbind {E A B} (k : A → result E B) (m : result E A) : result E B :=
  match m with Ok a => k a | Err e => Err e end.

Lemma Ok_inj {E A} (a b : A) : @Ok E A a = Ok b → a = b.
Proof. by intros [= ->]. Qed.

Notation "x ←? m ; k" := (rbind (λ x, k) m)
  (at level 20, m at level 100, k at level 200, right associativity,
   format "x  ←?  m ;  '/' k") : dwarf_scope.

Notation "' x ←? m ; k" := (rbind (λ x : _, k) m)
  (at level 20, x pattern, m at level 100, k at level 200, right associativity,
   format "' x  ←?  m ;  '/' k") : dwarf_scope.

(** [check b e k]: the early return [if b { return e }] in front of [k]. *)
Definition check {E A} (b : bool) (e : E) (k : result E A) : result E A :=
  if b then Err e else k.

Lemma check_Ok {E A} (b : bool) (e : E) (k : result E A) a :
  check b e k = Ok a ↔ b = false ∧ k = Ok a.
Proof. destruct b; simpl; intuition congruence. Qed.

Lemma rbind_Ok {E A B} (k : A → result E B) m b :
  rbind k m = Ok b ↔ ∃ a, m = Ok a ∧ k a = Ok b.
Proof.
  destruct m as [a|e]; simpl; split; try done.
  - intros ?; by exists a.
  - by intros (? & [= ->] & ?).
  - by intros (? & ? & ?).
Qed.

(** [run_checks f l]: the loop [for x := range l { if err := f x ... return err }]. *)
Fixpoint run_checks {E A} (f : A → result E unit) (l : list A) : result E unit :=
  match l with
  | [] => Ok tt
  | x :: l => _ ←? f x; run_checks f l
  end.

Lemma run_checks_Ok {E A} (f : A → result E unit) l :
  run_checks f l = Ok tt ↔ Forall (λ x, f x = Ok tt) l.
Proof.
  induction l as [|x l IH]; simpl.
  - split; [constructor | done].
  - rewrite rbind_Ok, Forall_cons, <-IH.
    split; [intros ([] & ? & ?); done | intros [? ?]; by exists tt].
Qed.

Lemma run_checks_Err {E A} (f : A → result E unit) l e :
  run_checks f l = Err e → ∃ x, x ∈ l ∧ f x = Err e.
Proof.
  induction l as [|x l IH]; simpl; [done|]. destruct (f x) as [[]|e'] eqn:Hx; simpl.
  - intros (y & Hy & He)%IH. exists y. split; [by right|done].
  - intros [= <-]. exists x. split; [by left|done].
Qed.

(** Splits every early return of a successful run into its negated guard. *)
Ltac split_checks :=
  repeat match goal with
  | H : check _ _ _ = Ok _ |- _ => apply check_Ok in H as [? H]
  | H : rbind _ _ = Ok _ |- _ => apply rbind_Ok in H as (? & ? & H)
  | H : run_checks _ _ = Ok _ |- _ => apply run_checks_Ok in H
  | H : _ || _ = false |- _ => apply orb_false_iff in H as [? ?]
  | H : negb _ = false |- _ => apply negb_false_iff in H
  | x : unit |- _ => destruct x
  end.

(** [math.MaxInt] on a 64-bit platform. *)
Definition MaxInt : Z := (2 ^ 63 - 1)%Z.

(** ** Booleans and decisions *)

Ltac bool_decide_all :=
  repeat match goal with
  | H : bool_decide _ = true |- _ => apply bool_decide_eq_true in H
  | H : bool_decide _ = false |- _ => apply bool_decide_eq_false in H
  end.

(** Decides a closed proposition by evaluating its decision procedure. *)
Ltac vm_decide := apply (bool_decide_unpack _); vm_compute; exact I.

Create HintDb dwarf discriminated.
#[export] Hint Extern 1 (_ ≤ _) => lia : dwarf.
#[export] Hint Extern 1 (_ < _) => lia : dwarf.

(** ** Sums and counts over lists *)

Lemma sum_list_with_ext {A} (f g : A → nat) l :
  (∀ x, x ∈ l → f x = g x) → sum_list_with f l = sum_list_with g l.
Proof.
  induction l as [|x l IH]; intros Hfg; simpl; [done|].
  rewrite Hfg, IH; [done| |]; intros; try apply Hfg; set_solver.
Qed.

Lemma sum_list_with_le {A} (f g : A → nat) l :
  (∀ x, x ∈ l → f x ≤ g x) → sum_list_with f l ≤ sum_list_with g l.
Proof.
  induction l as [|x l IH]; intros Hfg; simpl; [done|].
  specialize (Hfg x) as Hx.
  assert (sum_list_with f l ≤ sum_list_with g l) by (apply IH; set_solver).
  assert (f x ≤ g x) by (apply Hfg; set_solver). lia.
Qed.

Lemma sum_list_with_add {A} (f g : A → nat) l :
  sum_list_with (λ x, f x + g x) l = sum_list_with f l + sum_list_with g l.
Proof. induction l as [|x l IH]; simpl; lia. Qed.

Lemma sum_list_with_zero {A} (f : A → nat) l :
  (∀ x, x ∈ l → f x = 0) → sum_list_with f l = 0.
Proof.
  induction l as [|x l IH]; intros Hf; simpl; [done|].
  rewrite IH by set_solver. rewrite (Hf x) by set_solver. done.
Qed.

Lemma sum_list_with_Permutation {A} (f : A → nat) l1 l2 :
  l1 ≡ₚ l2 → sum_list_with f l1 = sum_list_with f l2.
Proof. induction 1; simpl; lia. Qed.

Lemma sum_list_with_elem {A} (f : A → nat) l x :
  x ∈ l → f x ≤ sum_list_with f l.
Proof. induction 1 as [|? ? ? ? IH]; simpl; lia. Qed.

(** Updating a function at one key of a duplicate-free list moves the sum by the difference. *)
Lemma sum_list_with_insert {K} `{EqDecision K} (t : K → nat) k v l :
  NoDup l → k ∈ l →
  sum_list_with (<[k := v]> t) l + t k = sum_list_with t l + v.
Proof.
  intros Hnd Hk. induction l as [|x l IH]; [set_solver|].
  apply NoDup_cons in Hnd as [Hx Hnd]. simpl.
  destruct (decide (x = k)) as [->|Hne].
  - rewrite fn_lookup_insert.
    rewrite (sum_list_with_ext (<[k:=v]> t) t l); [lia|].
    intros y Hy. apply fn_lookup_insert_ne. set_solver.
  - rewrite fn_lookup_insert_ne by done.
    assert (k ∈ l) as Hk' by set_solver. specialize (IH Hnd Hk'). lia.
Qed.

(** Occurrences of a value in a list. *)
Definition occ {A} `{EqDecision A} (x : A) (l : list A) : nat :=
  length (filter (x =.) l).

Section occ.
Context {A : Type} `{EqDecision A}.
Implicit Types (x y : A) (l : list A).

Lemma occ_cons x y l : occ x (y :: l) = (if decide (x = y) then 1 else 0) + occ x l.
Proof. unfold occ. rewrite filter_cons. case_decide; simpl; done. Qed.

Lemma occ_app x l1 l2 : occ x (l1 ++ l2) = occ x l1 + occ x l2.
Proof. unfold occ. by rewrite filter_app, length_app. Qed.

Lemma occ_replicate x y n :
  occ x (replicate n y) = if decide (x = y) then n else 0.
Proof.
  induction n as [|n IH]; simpl; [by case_decide|].
  rewrite occ_cons, IH. case_decide; lia.
Qed.

Lemma occ_pos x l : 0 < occ x l ↔ x ∈ l.
Proof.
  induction l as [|y l IH]; [split; [cbn; lia | set_solver]|].
  rewrite occ_cons, elem_of_cons, <-IH. case_decide; [naive_solver lia|].
  split; [right; lia | intros [?|?]; [done|lia]].
Qed.

Lemma occ_notin x l : x ∉ l → occ x l = 0.
Proof. rewrite <-occ_pos. lia. Qed.

Lemma occ_le_length x l : occ x l ≤ length l.
Proof. unfold occ. apply length_filter. Qed.
End occ.

(** Every element is counted under exactly one key: lengths are sums of occurrences. *)
Lemma length_sum_occ {A} `{EqDecision A} (l ks : list A) :
  NoDup ks → (∀ x, x ∈ l → x ∈ ks) →
  length l = sum_list_with (λ k, occ k l) ks.
Proof.
  intros Hks. induction l as [|x l IH]; intros Hin.
  - simpl. clear Hin Hks. induction ks as [|k ks IH]; simpl; [done|].
    rewrite <-IH. done.
  - simpl. rewrite (IH ltac:(set_solver)).
    assert (x ∈ ks) as Hx by set_solver. clear IH Hin.
    induction ks as [|k ks IH]; [set_solver|].
    apply NoDup_cons in Hks as [Hk Hks]. simpl. rewrite occ_cons.
    apply elem_of_cons in Hx as [->|Hx].
    + rewrite decide_True by done.
      assert (sum_list_with (λ k0, occ k0 (k :: l)) ks
              = sum_list_with (λ k0, occ k0 l) ks) as ->; [|lia].
      apply sum_list_with_ext. intros y Hy. rewrite occ_cons, decide_False; [done|set_solver].
    + rewrite decide_False by set_solver. specialize (IH Hks Hx). lia.
Qed.

(** ** Sums over finite maps *)

Section map_sum.
#[local] Open Scope Z_scope.
Context {K A : Type} `{Countable K}.
Implicit Types (m : gmap K A) (w : K → A → Z).

Definition map_sum w m : Z := map_fold (λ k a n, w k a + n) 0 m.

Lemma map_sum_empty w : map_sum w ∅ = 0.
Proof. apply map_fold_empty. Qed.

Lemma map_sum_insert_new w m k a : m !! k = None → map_sum w (<[k := a]> m) = w k a + map_sum w m.
Proof.
  intros Hk. unfold map_sum. rewrite (map_fold_insert_L (λ k a n, w k a + n)); [done|intros; lia|done].
Qed.

Lemma map_sum_insert w m k a a' :
  m !! k = Some a → map_sum w (<[k := a']> m) = map_sum w m - w k a + w k a'.
Proof.
  intros Hk. rewrite <-(insert_delete_id m k a) at 2 by done. rewrite <-insert_delete_eq.
  rewrite !map_sum_insert_new by apply lookup_delete_eq. lia.
Qed.

Lemma map_sum_nonneg w m : (∀ k a, 0 ≤ w k a) → 0 ≤ map_sum w m.
Proof.
  intros Hw. induction m as [|k a m Hk IH] using map_ind; [by rewrite map_sum_empty|].
  rewrite map_sum_insert_new by done. specialize (Hw k a). lia.
Qed.

Lemma map_sum_zero w m : (∀ k a, m !! k = Some a → w k a = 0) → map_sum w m = 0.
Proof.
  induction m as [|k a m Hk IH] using map_ind; [by rewrite map_sum_empty|]. intros Hw.
  rewrite map_sum_insert_new by done. rewrite (Hw k a) by apply lookup_insert_eq.
  rewrite IH; [done|]. intros k' a' Hk'. apply (Hw k'). rewrite lookup_insert_ne; congruence.
Qed.

Lemma map_sum_elem w m k a : (∀ k a, 0 ≤ w k a) → m !! k = Some a → w k a ≤ map_sum w m.
Proof.
  intros Hw Hk. rewrite <-(insert_delete_id m k a), map_sum_insert_new by (done || apply lookup_delete_eq).
  pose proof (map_sum_nonneg w (delete k m) Hw). lia.
Qed.

Lemma map_sum_pos w m : (∀ k a, 0 ≤ w k a) → 0 < map_sum w m → ∃ k a, m !! k = Some a ∧ 0 < w k a.
Proof.
  intros Hw. induction m as [|k a m Hk IH] using map_ind; [rewrite map_sum_empty; lia|].
  rewrite map_sum_insert_new by done. intros Hs. destruct (decide (0 < w k a)) as [Hp|Hn].
  - exists k, a. by rewrite lookup_insert_eq.
  - destruct IH as (k' & a' & Hk' & ?); [specialize (Hw k a); lia|].
    exists k', a'. rewrite lookup_insert_ne by congruence. done.
Qed.

Lemma map_sum_ext w w' m : (∀ k a, m !! k = Some a → w k a = w' k a) → map_sum w m = map_sum w' m.
Proof.
  induction m as [|k a m Hk IH] using map_ind; [by rewrite !map_sum_empty|]. intros Hw.
  rewrite !map_sum_insert_new by done. rewrite IH, (Hw k a); [done|apply lookup_insert_eq|].
  intros k' a' Hk'. apply Hw. rewrite lookup_insert_ne; congruence.
Qed.

Lemma map_sum_fmap w (h : A → A) m : map_sum w (h <$> m) = map_sum (λ k a, w k (h a)) m.
Proof.
  induction m as [|k a m Hk IH] using map_ind; [by rewrite fmap_empty, !map_sum_empty|].
  rewrite fmap_insert, !map_sum_insert_new, IH; [done|done|]. by rewrite lookup_fmap, Hk.
Qed.
End map_sum.
