(* ===== verification/Json.v ===== *)
(** * JSON text, as [encoding/json] writes and reads it

    The text form of a JSON value and its scanner, byte by byte: Go's escaping of strings (with HTML
    escaping on, as [json.Marshal] has it), its replacement of what is not UTF-8, the grammar of
    numbers, whose literals stay text, and white space.  Written text reads back as the value it came
    from ([parse_print]).  The limit on nesting, ten thousand levels, is left out. *)

From Stdlib Require Import Ascii.
From S2P Require Import Prelude.

#[local] Arguments String.append !_ _ / : simpl nomatch.

Inductive json :=
| JNull
| JBool (b : bool)
| JNum (lit : string)
| JStr (s : string)
| JArr (l : list json)
| JObj (m : list (string * json)).

Section json_ind.
Context (P : json → Prop).
Context (Hnull : P JNull) (Hbool : ∀ b, P (JBool b)) (Hnum : ∀ l, P (JNum l)) (Hstr : ∀ s, P (JStr s)).
Context (Harr : ∀ l, Forall P l → P (JArr l)) (Hobj : ∀ m, Forall (λ e, P e.2) m → P (JObj m)).

Fixpoint json_nested_ind (j : json) : P j :=
  match j with
  | JNull => Hnull
  | JBool b => Hbool b
  | JNum l => Hnum l
  | JStr s => Hstr s
  | JArr l => Harr l ((fix go l : Forall P l :=
      match l with [] => Forall_nil_2 _ | x :: l => Forall_cons_2 _ _ _ (json_nested_ind x) (go l) end) l)
  | JObj m => Hobj m ((fix go m : Forall (λ e, P e.2) m :=
      match m with [] => Forall_nil_2 _ | e :: m => Forall_cons_2 _ _ _ (json_nested_ind e.2) (go m) end) m)
  end.
End json_ind.

(** ** UTF-8 *)

Definition code (c : ascii) : N := N_of_ascii c.
Definition is_ch (n : N) (c : ascii) : bool := (code c =? n)%N.
Definition within (lo hi : N) (c : ascii) : bool := (lo <=? code c)%N && (code c <=? hi)%N.
Definition tail_byte : ascii → bool := within 128 191.

(** What [utf8.DecodeRune] accepts, by the number of bytes. *)
Definition two (c c2 : ascii) : bool := within 194 223 c && tail_byte c2.
Definition three (c c2 c3 : ascii) : bool :=
  ((is_ch 224 c && within 160 191 c2) || ((within 225 236 c || within 238 239 c) && tail_byte c2) || (is_ch 237 c && within 128 159 c2))
  && tail_byte c3.
Definition four (c c2 c3 c4 : ascii) : bool :=
  ((is_ch 240 c && within 144 191 c2) || (within 241 243 c && tail_byte c2) || (is_ch 244 c && within 128 143 c2))
  && tail_byte c3 && tail_byte c4.

(** A one-byte rune, a longer one, and a byte that begins no rune. *)
Inductive rune := RByte (c : ascii) | RSeq (s : string) | RBad.

Fixpoint runes (s : string) : list rune :=
  match s with
  | EmptyString => []
  | String c s1 =>
      if (code c <? 128)%N then RByte c :: runes s1 else
      let bad := RBad :: runes s1 in
      match s1 with
      | EmptyString => bad
      | String c2 s2 =>
          if two c c2 then RSeq (String c (String c2 EmptyString)) :: runes s2 else
          match s2 with
          | EmptyString => bad
          | String c3 s3 =>
              if three c c2 c3 then RSeq (String c (String c2 (String c3 EmptyString))) :: runes s3 else
              match s3 with
              | EmptyString => bad
              | String c4 s4 =>
                  if four c c2 c3 c4 then RSeq (String c (String c2 (String c3 (String c4 EmptyString)))) :: runes s4 else bad
              end
          end
      end
  end.

Definition str (codes : list N) : string := foldr (λ n s, String (ascii_of_N n) s) EmptyString codes.

(** U+FFFD. *)
Definition replacement : string := str [239; 191; 189]%N.
Definition rune_text (r : rune) : string := match r with RByte c => String c EmptyString | RSeq s => s | RBad => replacement end.
Definition flat (l : list string) : string := foldr String.append EmptyString l.
(** A string with what is not UTF-8 replaced. *)
Definition coerce (s : string) : string := flat (rune_text <$> runes s).
Definition good_rune (r : rune) : bool := match r with RBad => false | _ => true end.
Definition valid_utf8 (s : string) : bool := forallb good_rune (runes s).

(** ** Writing *)

Definition hex_digit (n : N) : ascii := ascii_of_N (if (n <? 10)%N then 48 + n else 87 + n).
Definition backslash : ascii := ascii_of_N 92.
Definition dquote : ascii := ascii_of_N 34.
Definition escaped (c : ascii) : string := String backslash (String c EmptyString).
Definition u_escape (digits : string) : string := String backslash (String "u" digits).

(** [appendString] on one byte below 128. *)
Definition quote_byte (c : ascii) : string :=
  if is_ch 34 c || is_ch 92 c then escaped c else
  if is_ch 8 c then escaped "b" else if is_ch 12 c then escaped "f" else if is_ch 10 c then escaped "n" else
  if is_ch 13 c then escaped "r" else if is_ch 9 c then escaped "t" else
  if (code c <? 32)%N || is_ch 60 c || is_ch 62 c || is_ch 38 c
  then u_escape (String "0" (String "0" (String (hex_digit (code c / 16)) (String (hex_digit (code c mod 16)) EmptyString))))
  else String c EmptyString.

(** U+2028 and U+2029 are escaped. *)
Definition line_separator : string := str [226; 128; 168]%N.
Definition paragraph_separator : string := str [226; 128; 169]%N.

Definition quote_rune (r : rune) : string :=
  match r with
  | RByte c => quote_byte c
  | RSeq s => if bool_decide (s = line_separator) then u_escape "2028" else
              if bool_decide (s = paragraph_separator) then u_escape "2029" else s
  | RBad => u_escape "fffd"
  end.

Definition quoted (s : string) : string := String dquote (flat (quote_rune <$> runes s) +:+ String dquote EmptyString).

Fixpoint print_json (j : json) : string :=
  match j with
  | JNull => "null"
  | JBool b => if b then "true" else "false"
  | JNum lit => lit
  | JStr s => quoted s
  | JArr l => "[" +:+ String.concat "," (print_json <$> l) +:+ "]"
  | JObj m => "{" +:+ String.concat "," ((λ e, let '(k, v) := e in quoted k +:+ ":" +:+ print_json v) <$> m) +:+ "}"
  end.

(** ** Reading *)

Definition is_space (c : ascii) : bool := is_ch 32 c || is_ch 9 c || is_ch 13 c || is_ch 10 c.
Fixpoint skip_ws (s : string) : string :=
  match s with String c r => if is_space c then skip_ws r else s | EmptyString => EmptyString end.

Definition hex_value (c : ascii) : option N :=
  if within 48 57 c then Some (code c - 48)%N else
  if within 97 102 c then Some (code c - 87)%N else
  if within 65 70 c then Some (code c - 55)%N else None.
(** The four digits of [\u]. *)
Definition hex4 (a b c d : ascii) : option N :=
  match hex_value a, hex_value b, hex_value c, hex_value d with
  | Some a, Some b, Some c, Some d => Some (((a * 16 + b) * 16 + c) * 16 + d)%N
  | _, _, _, _ => None
  end.

(** [utf8.EncodeRune] of what is no surrogate. *)
Definition encode_rune (r : N) : string :=
  str (if (r <? 128)%N then [r] else
       if (r <? 2048)%N then [192 + r / 64; 128 + r mod 64]%N else
       if (r <? 65536)%N then [224 + r / 4096; 128 + (r / 64) mod 64; 128 + r mod 64]%N
       else [240 + r / 262144; 128 + (r / 4096) mod 64; 128 + (r / 64) mod 64; 128 + r mod 64]%N).

Definition high_surrogate (r : N) : bool := (55296 <=? r)%N && (r <? 56320)%N.
Definition low_surrogate (r : N) : bool := (56320 <=? r)%N && (r <? 57344)%N.
(** [utf16.DecodeRune]. *)
Definition surrogate_pair (r r2 : N) : option N :=
  if high_surrogate r && low_surrogate r2 then Some ((r - 55296) * 1024 + (r2 - 56320) + 65536)%N else None.

(** The escapes of one letter. *)
Definition unescape (c : ascii) : option ascii :=
  if is_ch 34 c || is_ch 92 c || is_ch 47 c then Some c else
  if is_ch 98 c then Some (ascii_of_N 8) else if is_ch 102 c then Some (ascii_of_N 12) else
  if is_ch 110 c then Some (ascii_of_N 10) else if is_ch 114 c then Some (ascii_of_N 13) else
  if is_ch 116 c then Some (ascii_of_N 9) else None.

Definition push (p : string) (o : option (string * string)) : option (string * string) :=
  match o with Some (t, r) => Some (p +:+ t, r) | None => None end.

(** The bytes of a string literal whose opening quote has been read, and the text after its closing one. *)
Fixpoint unquote (s : string) : option (string * string) :=
  match s with
  | EmptyString => None
  | String c s1 =>
      if is_ch 34 c then Some (EmptyString, s1) else
      if is_ch 92 c then
        match s1 with
        | EmptyString => None
        | String e s2 =>
            if is_ch 117 e then
              match s2 with
              | String h1 (String h2 (String h3 (String h4 s6))) =>
                  match hex4 h1 h2 h3 h4 with
                  | None => None
                  | Some r =>
                      if high_surrogate r || low_surrogate r then
                        match s6 with
                        | String b (String u (String g1 (String g2 (String g3 (String g4 s12))))) =>
                            match (if is_ch 92 b && is_ch 117 u then hex4 g1 g2 g3 g4 else None) ≫= surrogate_pair r with
                            | Some p => push (encode_rune p) (unquote s12)
                            | None => push replacement (unquote s6)
                            end
                        | _ => push replacement (unquote s6)
                        end
                      else push (encode_rune r) (unquote s6)
                  end
              | _ => None
              end
            else match unescape e with Some d => push (String d EmptyString) (unquote s2) | None => None end
        end
      else if (code c <? 32)%N then None
      else push (String c EmptyString) (unquote s1)
  end.

Definition string_lit (s : string) : option (string * string) :=
  match unquote s with Some (t, r) => Some (coerce t, r) | None => None end.

(** The scanner of a number. *)
Inductive nstate := NStart | NMinus | NZero | NInt | NDot | NFrac | NExp | NExpSign | NExpDigits.
Definition digit : ascii → bool := within 48 57.
Definition exponent (c : ascii) : bool := is_ch 101 c || is_ch 69 c.
Definition nstep (st : nstate) (c : ascii) : option nstate :=
  match st with
  | NStart => if is_ch 45 c then Some NMinus else if is_ch 48 c then Some NZero else if digit c then Some NInt else None
  | NMinus => if is_ch 48 c then Some NZero else if digit c then Some NInt else None
  | NZero => if is_ch 46 c then Some NDot else if exponent c then Some NExp else None
  | NInt => if digit c then Some NInt else if is_ch 46 c then Some NDot else if exponent c then Some NExp else None
  | NDot => if digit c then Some NFrac else None
  | NFrac => if digit c then Some NFrac else if exponent c then Some NExp else None
  | NExp => if is_ch 43 c || is_ch 45 c then Some NExpSign else if digit c then Some NExpDigits else None
  | NExpSign | NExpDigits => if digit c then Some NExpDigits else None
  end.
Fixpoint nrun (st : nstate) (s : string) : bool :=
  match s with
  | EmptyString => match st with NZero | NInt | NFrac | NExpDigits => true | _ => false end
  | String c s => match nstep st c with Some st => nrun st s | None => false end
  end.
Definition is_number : string → bool := nrun NStart.

Definition num_char (c : ascii) : bool := digit c || exponent c || is_ch 43 c || is_ch 45 c || is_ch 46 c.
Fixpoint span_num (s : string) : string * string :=
  match s with
  | String c r => if num_char c then let '(l, r) := span_num r in (String c l, r) else (EmptyString, s)
  | EmptyString => (EmptyString, EmptyString)
  end.

Fixpoint strip_word (w s : string) : option string :=
  match w, s with
  | EmptyString, _ => Some s
  | String a w, String b s => if Ascii.eqb a b then strip_word w s else None
  | _, EmptyString => None
  end.
Definition literal (w : string) (j : json) (s : string) : option (json * string) :=
  match strip_word w s with Some r => Some (j, r) | None => None end.

(** One value at the front of a text; the elements and the members that follow an opening bracket.  The
    fuel goes down at each call, and of two calls one at least consumes a byte. *)
Fixpoint scan_value (fuel : nat) (s : string) : option (json * string) :=
  match fuel with
  | O => None
  | S fuel =>
      match skip_ws s with
      | EmptyString => None
      | String c r =>
          if is_ch 123 c then
            match skip_ws r with
            | String d r' => if is_ch 125 d then Some (JObj [], r') else
                match scan_members fuel (String d r') with Some (m, r) => Some (JObj m, r) | None => None end
            | EmptyString => None
            end
          else if is_ch 91 c then
            match skip_ws r with
            | String d r' => if is_ch 93 d then Some (JArr [], r') else
                match scan_elements fuel (String d r') with Some (l, r) => Some (JArr l, r) | None => None end
            | EmptyString => None
            end
          else if is_ch 34 c then match string_lit r with Some (t, r) => Some (JStr t, r) | None => None end
          else if is_ch 110 c then literal "null" JNull (String c r)
          else if is_ch 116 c then literal "true" (JBool true) (String c r)
          else if is_ch 102 c then literal "false" (JBool false) (String c r)
          else let '(l, r) := span_num (String c r) in if is_number l then Some (JNum l, r) else None
      end
  end
with scan_elements (fuel : nat) (s : string) : option (list json * string) :=
  match fuel with
  | O => None
  | S fuel =>
      match scan_value fuel s with
      | None => None
      | Some (j, r) =>
          match skip_ws r with
          | String c r => if is_ch 44 c then match scan_elements fuel r with Some (l, r) => Some (j :: l, r) | None => None end
                          else if is_ch 93 c then Some ([j], r) else None
          | EmptyString => None
          end
      end
  end
with scan_members (fuel : nat) (s : string) : option (list (string * json) * string) :=
  match fuel with
  | O => None
  | S fuel =>
      match skip_ws s with
      | EmptyString => None
      | String c r =>
          if negb (is_ch 34 c) then None else
          match string_lit r with
          | None => None
          | Some (k, r) =>
              match skip_ws r with
              | EmptyString => None
              | String c r =>
                  if negb (is_ch 58 c) then None else
                  match scan_value fuel r with
                  | None => None
                  | Some (j, r) =>
                      match skip_ws r with
                      | String c r => if is_ch 44 c then match scan_members fuel r with Some (m, r) => Some ((k, j) :: m, r) | None => None end
                                      else if is_ch 125 c then Some ([(k, j)], r) else None
                      | EmptyString => None
                      end
                  end
              end
          end
      end
  end.

(** A whole document. *)
Definition parse (s : string) : option json :=
  match scan_value (2 * String.length s + 1) s with
  | Some (j, r) => match skip_ws r with EmptyString => Some j | _ => None end
  | None => None
  end.

(** ** Strings *)

Lemma sapp_assoc (a b c : string) : (a +:+ b) +:+ c = a +:+ (b +:+ c).
Proof. induction a as [|x a IH]; simpl; [done|]. by rewrite IH. Qed.
Lemma sapp_nil_r (a : string) : a +:+ EmptyString = a.
Proof. induction a as [|x a IH]; simpl; [done|]. by rewrite IH. Qed.
Lemma slength_app (a b : string) : String.length (a +:+ b) = (String.length a + String.length b)%nat.
Proof. induction a as [|x a IH]; simpl; [done|]. by rewrite IH. Qed.

Fixpoint all_ch (p : ascii → bool) (s : string) : bool :=
  match s with String c s => p c && all_ch p s | EmptyString => true end.

Definition high (c : ascii) : bool := negb (code c <? 128)%N.
Definition rune_ok (r : rune) : Prop :=
  match r with RByte c => high c = false | RSeq s => all_ch high s = true | RBad => True end.

Lemma within_high lo hi c : (128 <= lo)%N → within lo hi c = true → high c = true.
Proof.
  unfold within, high. intros Hlo [H _]%andb_true_iff. apply N.leb_le in H.
  apply negb_true_iff, N.ltb_ge. lia.
Qed.

Lemma tail_high c : tail_byte c = true → high c = true.
Proof. by apply within_high. Qed.

Lemma runes_cases s :
  match s with
  | EmptyString => runes s = []
  | String c s1 =>
      ∃ r rest, runes s = r :: runes rest ∧ rune_ok r ∧ (String.length rest < String.length s)%nat ∧
                (good_rune r = true → rune_text r +:+ rest = s)
  end.
Proof.
  destruct s as [|c s1]; [done|]. simpl. destruct (code c <? 128)%N eqn:Hc.
  { exists (RByte c), s1. split_and!; [done| |simpl; lia|done]. unfold rune_ok, high. by rewrite Hc. }
  assert (high c = true) as Hh by (unfold high; by rewrite Hc).
  assert (∀ rest, (String.length rest < S (String.length s1))%nat → ∃ r rest', RBad :: runes rest = r :: runes rest' ∧ rune_ok r ∧
    (String.length rest' < S (String.length s1))%nat ∧ (good_rune r = true → rune_text r +:+ rest' = String c s1)) as Hbad
    by (intros rest Hr; by exists RBad, rest).
  destruct s1 as [|c2 s2]; [apply (Hbad EmptyString); simpl; lia|].
  destruct (two c c2) eqn:H2.
  { exists (RSeq (String c (String c2 EmptyString))), s2. split_and!; [done| |simpl; lia|done].
    unfold two in H2. apply andb_true_iff in H2 as [_ H2%tail_high]. simpl. by rewrite Hh, H2. }
  destruct s2 as [|c3 s3]; [apply (Hbad (String c2 EmptyString)); simpl; lia|].
  destruct (three c c2 c3) eqn:H3.
  { exists (RSeq (String c (String c2 (String c3 EmptyString)))), s3. split_and!; [done| |simpl; lia|done].
    unfold three in H3. apply andb_true_iff in H3 as [H3 Ht%tail_high]. simpl. rewrite Hh, Ht.
    rewrite !orb_true_iff, !andb_true_iff in H3. destruct H3 as [[[_ H]|[_ H%tail_high]]|[_ H]]; [|by rewrite H|];
      apply within_high in H; try done; by rewrite H. }
  destruct s3 as [|c4 s4]; [apply (Hbad (String c2 (String c3 EmptyString))); simpl; lia|].
  destruct (four c c2 c3 c4) eqn:H4; [|apply (Hbad (String c2 (String c3 (String c4 s4)))); simpl; lia].
  exists (RSeq (String c (String c2 (String c3 (String c4 EmptyString))))), s4. split_and!; [done| |simpl; lia|done].
  unfold four in H4. rewrite !andb_true_iff in H4. destruct H4 as [[H4 Ht3%tail_high] Ht4%tail_high]. simpl. rewrite Hh, Ht3, Ht4.
  rewrite !orb_true_iff, !andb_true_iff in H4. destruct H4 as [[[_ H]|[_ H%tail_high]]|[_ H]]; [|by rewrite H|];
    apply within_high in H; try done; by rewrite H.
Qed.

Lemma flat_cons x l : flat (x :: l) = x +:+ flat l.
Proof. done. Qed.

Lemma runes_spec s : Forall rune_ok (runes s) ∧ (valid_utf8 s = true → flat (rune_text <$> runes s) = s).
Proof.
  remember (String.length s) as n eqn:Hn. revert s Hn. induction (lt_wf n) as [n _ IH]. intros s ->.
  pose proof (runes_cases s) as H. destruct s as [|c s1]; [by rewrite H|].
  destruct H as (r & rest & Hr & Hok & Hlt & Ht). destruct (IH _ Hlt rest eq_refl) as [IH1 IH2].
  unfold valid_utf8 in *. rewrite Hr. split; [by constructor|]. cbn [forallb]. intros [Hg Hv]%andb_true_iff.
  rewrite fmap_cons, flat_cons, (IH2 Hv). by apply Ht.
Qed.

Lemma coerce_valid s : valid_utf8 s = true → coerce s = s.
Proof. apply runes_spec. Qed.

(** *** Reading back what was quoted *)

Lemma push_push a b o : push a (push b o) = push (a +:+ b) o.
Proof. destruct o as [[t r]|]; [|done]. simpl. by rewrite sapp_assoc. Qed.

Lemma unquote_high s t : all_ch high s = true → unquote (s +:+ t) = push s (unquote t).
Proof.
  induction s as [|c s IH]; simpl; [by destruct (unquote t) as [[]|]|]. intros [Hc Hs]%andb_true_iff.
  unfold high in Hc. apply negb_true_iff, N.ltb_ge in Hc.
  unfold is_ch. rewrite !(proj2 (N.eqb_neq _ _)) by lia. rewrite (proj2 (N.ltb_ge _ _)) by lia.
  by rewrite IH, push_push.
Qed.

Lemma unquote_byte c t : high c = false → unquote (quote_byte c +:+ t) = push (String c EmptyString) (unquote t).
Proof. by destruct c as [[] [] [] [] [] [] [] []]. Qed.

Lemma unquote_rune r t : rune_ok r → good_rune r = true → unquote (quote_rune r +:+ t) = push (rune_text r) (unquote t).
Proof.
  destruct r as [c|s|]; simpl; intros Hok Hg; [by apply unquote_byte| |done].
  case_bool_decide as H1; [by subst|]. case_bool_decide as H2; [by subst|]. by apply unquote_high.
Qed.

Lemma unquote_runes rs t : Forall rune_ok rs → forallb good_rune rs = true →
  unquote (flat (quote_rune <$> rs) +:+ t) = push (flat (rune_text <$> rs)) (unquote t).
Proof.
  intros Hok. induction Hok as [|r rs Hr _ IH]; [by simpl; destruct (unquote t) as [[]|]|].
  cbn [forallb]. intros [Hg Hv]%andb_true_iff. rewrite !fmap_cons, !flat_cons, sapp_assoc, unquote_rune by done.
  by rewrite (IH Hv), push_push.
Qed.

Lemma string_lit_quoted s t : valid_utf8 s = true →
  string_lit (flat (quote_rune <$> runes s) +:+ String dquote t) = Some (s, t).
Proof.
  intros Hv. destruct (runes_spec s) as [Hok Ht]. unfold string_lit.
  rewrite unquote_runes by done. rewrite (Ht Hv). simpl. by rewrite sapp_nil_r, coerce_valid.
Qed.

(** ** Documents *)

Fixpoint jok (j : json) : bool :=
  match j with
  | JNum lit => is_number lit
  | JStr s => valid_utf8 s
  | JArr l => forallb jok l
  | JObj m => forallb (λ e, let '(k, v) := e in valid_utf8 k && jok v) m
  | _ => true
  end.

(** The fuel a value takes. *)
Fixpoint cost (j : json) : nat :=
  match j with
  | JArr l => 1 + list_sum ((λ x, S (cost x)) <$> l)
  | JObj m => 1 + list_sum ((λ e, let '(_, v) := e in S (cost v)) <$> m)
  | _ => 1
  end.

(** What may follow a number. *)
Definition delim (s : string) : Prop := match s with String c _ => num_char c = false | EmptyString => True end.

Lemma digit_num c : digit c = true → num_char c = true.
Proof. unfold num_char. by intros ->. Qed.

Lemma nstep_num st c st' : nstep st c = Some st' → num_char c = true.
Proof.
  unfold num_char. intros H. destruct st; simpl in H; unfold is_ch, exponent, is_ch, digit, within in *; repeat case_match; try done;
    rewrite ?orb_true_iff, ?andb_true_iff, ?N.eqb_eq, ?N.leb_le in *; lia.
Qed.

Lemma nrun_chars s : ∀ st, nrun st s = true → all_ch num_char s = true.
Proof.
  induction s as [|c s IH]; intros st; simpl; [done|]. destruct (nstep st c) as [st'|] eqn:H; [|done].
  intros Hr. by rewrite (nstep_num _ _ _ H), (IH _ Hr).
Qed.

Lemma span_num_spec s rest : all_ch num_char s = true → delim rest → span_num (s +:+ rest) = (s, rest).
Proof.
  induction s as [|c s IH]; simpl.
  - intros _ Hd. destruct rest as [|c rest]; simpl; [done|]. simpl in Hd. by rewrite Hd.
  - intros [-> Hs]%andb_true_iff Hd. by rewrite (IH Hs Hd).
Qed.

Lemma skip_ws_at c s : is_space c = false → skip_ws (String c s) = String c s.
Proof. simpl. by intros ->. Qed.

(** The byte a number starts with is none that another value starts with. *)
Definition num_start (c : ascii) : bool := is_ch 45 c || digit c.
Lemma number_start s : is_number s = true → ∃ c r, s = String c r ∧ num_start c = true.
Proof.
  unfold is_number. destruct s as [|c r]; [done|]. simpl. intros H. exists c, r. split; [done|]. unfold num_start.
  destruct (is_ch 45 c) eqn:H1; [done|]. destruct (is_ch 48 c) eqn:H2; [|by destruct (digit c)].
  unfold is_ch, digit, within in *. apply N.eqb_eq in H2. by rewrite H2.
Qed.

Definition starts (c : ascii) : Prop := is_space c = false ∧ is_ch 93 c = false.
Lemma num_start_starts c : num_start c = true →
  is_space c = false ∧ is_ch 93 c = false ∧ is_ch 123 c = false ∧ is_ch 91 c = false ∧ is_ch 34 c = false ∧ is_ch 110 c = false ∧
  is_ch 116 c = false ∧ is_ch 102 c = false.
Proof. destruct c as [[] [] [] [] [] [] [] []]; vm_compute; intros; by split_and!. Qed.

Lemma print_start j : jok j = true → ∃ c r, print_json j = String c r ∧ starts c.
Proof.
  destruct j as [|b|lit|s|l|m]; simpl; intros H.
  1,4,5,6: by do 2 eexists.
  - by destruct b; do 2 eexists.
  - destruct (number_start _ H) as (c & r & -> & (? & ? & _)%num_start_starts). by exists c, r.
Qed.

Definition reads (j : json) : Prop := ∀ fuel rest, jok j = true → delim rest → (cost j < fuel)%nat → scan_value fuel (print_json j +:+ rest) = Some (j, rest).

Lemma concat_cons sep x l : l ≠ [] → String.concat sep (x :: l) = x +:+ sep +:+ String.concat sep l.
Proof. by destruct l. Qed.

Lemma skip_comma s : skip_ws ("," +:+ s) = String "," s.
Proof. done. Qed.

Lemma skip_colon s : skip_ws (":" +:+ s) = String ":" s.
Proof. done. Qed.

Lemma quoted_app s t : quoted s +:+ t = String dquote (flat (quote_rune <$> runes s) +:+ String dquote t).
Proof. unfold quoted. cbn [String.append]. by rewrite sapp_assoc. Qed.

Lemma sum_fmap_cons {A} (f : A → nat) x l : list_sum (f <$> x :: l) = (f x + list_sum (f <$> l))%nat.
Proof. done. Qed.

Lemma elements_read l : Forall reads l → l ≠ [] → ∀ fuel rest, forallb jok l = true →
  (list_sum ((λ x, S (cost x)) <$> l) < fuel)%nat →
  scan_elements fuel (String.concat "," (print_json <$> l) +:+ String "]" rest) = Some (l, rest).
Proof.
  intros HF. induction HF as [|j l Hj _ IH]; [done|]. intros _ [|fuel] rest Hok Hc; [lia|].
  cbn [forallb] in Hok. apply andb_true_iff in Hok as [Hok1 Hok2]. rewrite sum_fmap_cons in Hc. rewrite fmap_cons.
  destruct l as [|j2 l].
  - cbn [scan_elements fmap list_fmap String.concat]. rewrite Hj; [done|done|done|lia].
  - rewrite concat_cons, !sapp_assoc by done. cbn [scan_elements].
    rewrite Hj; [|done|done|lia]. rewrite skip_comma. change (is_ch 44 ",") with true. cbn iota. rewrite IH; [done|done|done|lia].
Qed.

Lemma members_read m : Forall (λ e, reads e.2) m → m ≠ [] → ∀ fuel rest,
  forallb (λ e, let '(k, v) := e in valid_utf8 k && jok v) m = true →
  (list_sum ((λ e, let '(_, v) := e in S (cost v)) <$> m) < fuel)%nat →
  scan_members fuel (String.concat "," ((λ e, let '(k, v) := e in quoted k +:+ ":" +:+ print_json v) <$> m) +:+ String "}" rest) = Some (m, rest).
Proof.
  intros HF. induction HF as [|[k j] m Hj _ IH]; [done|]. intros _ [|fuel] rest Hok Hc; [lia|].
  cbn [forallb] in Hok. apply andb_true_iff in Hok as [[Hk Hok1]%andb_true_iff Hok2]. rewrite sum_fmap_cons in Hc. rewrite fmap_cons.
  simpl in Hj.
  assert (∀ tail, delim tail → scan_members (S fuel) ((quoted k +:+ ":" +:+ print_json j) +:+ tail) =
    match skip_ws tail with
    | String c r => if is_ch 44 c then match scan_members fuel r with Some (m, r) => Some ((k, j) :: m, r) | None => None end
                    else if is_ch 125 c then Some ([(k, j)], r) else None
    | EmptyString => None
    end) as Hone.
  { intros tail Hd. rewrite !sapp_assoc, quoted_app. cbn [scan_members]. rewrite skip_ws_at by done.
    change (negb (is_ch 34 dquote)) with false. cbn iota. rewrite string_lit_quoted by done. rewrite skip_colon.
    change (negb (is_ch 58 ":")) with false. cbn iota. rewrite Hj; [done|done|done|lia]. }
  destruct m as [|[k2 j2] m].
  - cbn [fmap list_fmap String.concat]. by rewrite Hone.
  - rewrite concat_cons, sapp_assoc, (sapp_assoc ","), Hone by done.
    rewrite skip_comma. change (is_ch 44 ",") with true. cbn iota. rewrite IH; [done|done|done|lia].
Qed.

Lemma value_reads j : reads j.
Proof.
  induction j as [|b|lit|s|l IH|m IH] using json_nested_ind; intros [|fuel] rest Hok Hd Hc; try lia.
  - done.
  - by destruct b.
  - simpl in Hok. destruct (number_start _ Hok) as (c & r & -> & Hs).
    destruct (num_start_starts _ Hs) as (H1 & _ & H2 & H3 & H4 & H5 & H6 & H7).
    cbn [print_json scan_value String.append]. rewrite skip_ws_at by done. rewrite H2, H3, H4, H5, H6, H7.
    change (String c (r +:+ rest)) with (String c r +:+ rest). rewrite span_num_spec; [|by eapply nrun_chars|done]. by rewrite Hok.
  - cbn [print_json]. rewrite quoted_app. cbn [scan_value]. rewrite skip_ws_at by done.
    change (is_ch 34 dquote) with true. cbn. by rewrite string_lit_quoted.
  - destruct l as [|j l]; [done|]. cbn [cost] in Hc. cbn [jok] in Hok.
    pose proof (elements_read (j :: l) IH ltac:(done) fuel rest Hok ltac:(lia)) as He.
    destruct (print_start j) as (c & r & Hr & Hsp & Hb); [cbn [forallb] in Hok; by apply andb_true_iff in Hok as [? _]|].
    assert (∃ r', String.concat "," (print_json <$> j :: l) +:+ String "]" rest = String c r') as [r' Hr'].
    { rewrite fmap_cons, Hr. destruct l; eexists; reflexivity. }
    cbn [print_json]. rewrite !sapp_assoc. change ("]" +:+ rest) with (String "]" rest). rewrite Hr' in *.
    cbn [scan_value]. change ("[" +:+ String c r') with (String "[" (String c r')). rewrite skip_ws_at by done.
    change (is_ch 123 "[") with false. change (is_ch 91 "[") with true. cbn iota. rewrite skip_ws_at by done. rewrite Hb, He. done.
  - destruct m as [|[k j] m]; [done|]. cbn [cost] in Hc. cbn [jok] in Hok.
    pose proof (members_read ((k, j) :: m) IH ltac:(done) fuel rest Hok ltac:(lia)) as He.
    cbn [print_json]. rewrite !sapp_assoc. change ("}" +:+ rest) with (String "}" rest).
    assert (∃ r', String.concat "," ((λ e, let '(k, v) := e in quoted k +:+ ":" +:+ print_json v) <$> (k, j) :: m) +:+ String "}" rest = String dquote r') as [r' Hr'].
    { rewrite fmap_cons. destruct m; eexists; reflexivity. }
    rewrite Hr' in *. cbn [scan_value]. change ("{" +:+ String dquote r') with (String "{" (String dquote r')). rewrite skip_ws_at by done.
    change (is_ch 123 "{") with true. cbn iota. rewrite skip_ws_at by done. change (is_ch 125 dquote) with false. cbn iota. by rewrite He.
Qed.

Lemma cost_length j : jok j = true → (cost j ≤ String.length (print_json j))%nat.
Proof.
  induction j as [|b|lit|s|l IH|m IH] using json_nested_ind; intros Hok.
  - simpl. lia.
  - by destruct b; simpl; lia.
  - destruct (number_start _ Hok) as (c & r & -> & _). simpl. lia.
  - simpl. lia.
  - cbn [cost print_json jok] in *. rewrite !slength_app. change (String.length "[") with 1%nat. change (String.length "]") with 1%nat.
    enough (list_sum ((λ x, S (cost x)) <$> l) ≤ String.length (String.concat "," (print_json <$> l)) + 1)%nat by lia.
    induction IH as [|j l Hj _ IH]; [simpl; lia|]. cbn [forallb] in Hok. apply andb_true_iff in Hok as [Hok1 Hok2].
    specialize (IH Hok2). specialize (Hj Hok1). rewrite sum_fmap_cons, fmap_cons.
    destruct l as [|j2 l]; [simpl in *; lia|]. rewrite concat_cons, !slength_app by done. change (String.length ",") with 1%nat. lia.
  - cbn [cost print_json jok] in *. rewrite !slength_app. change (String.length "{") with 1%nat. change (String.length "}") with 1%nat.
    enough (list_sum ((λ e, let '(_, v) := e in S (cost v)) <$> m) ≤ String.length (String.concat "," ((λ e, let '(k, v) := e in quoted k +:+ ":" +:+ print_json v) <$> m)) + 1)%nat by lia.
    induction IH as [|[k j] m Hj _ IH]; [simpl; lia|]. cbn [forallb] in Hok. apply andb_true_iff in Hok as [[_ Hok1]%andb_true_iff Hok2].
    specialize (IH Hok2). specialize (Hj Hok1). rewrite sum_fmap_cons, fmap_cons. simpl in Hj.
    destruct m as [|e m]; [cbn [fmap list_fmap list_sum foldr String.concat]; rewrite !slength_app; lia|].
    rewrite concat_cons, !slength_app by done. change (String.length ",") with 1%nat. lia.
Qed.

(** What is written reads back, where its strings are UTF-8 and its numbers are numbers. *)
Lemma parse_print j : jok j = true → parse (print_json j) = Some j.
Proof.
  intros Hok. unfold parse. pose proof (cost_length j Hok) as Hc.
  pose proof (value_reads j (2 * String.length (print_json j) + 1)%nat EmptyString Hok I ltac:(lia)) as Hv.
  rewrite sapp_nil_r in Hv. by rewrite Hv.
Qed.
