(* ===== verification/ErrorText.v ===== *)
(** * Error messages bound for a text column ([sanitizeErrorMessage] of [engine/persist.go])

    A message is a string of bytes; a text column takes UTF-8 without the control characters the
    databases reject.  Where the message has a control character, [strings.Map] rewrites all of it, and
    what is not UTF-8 goes the same way; where it has none, the message goes out as it came. *)

From Stdlib Require Import Ascii.
From S2P Require Import Prelude Json.

#[local] Arguments String.append !_ _ / : simpl nomatch.

Definition control (c : ascii) : bool := (code c <? 32)%N && negb (is_ch 10 c) && negb (is_ch 9 c).
Definition control_rune (r : rune) : bool := match r with RByte c => control c | _ => false end.
(** [strings.ContainsFunc] with the predicate of the code. *)
Definition has_control (msg : string) : bool := existsb control_rune (runes msg).
Definition strip_rune (r : rune) : string := if control_rune r then replacement else rune_text r.
Definition sanitizeErrorMessage (msg : string) : string :=
  if negb (has_control msg) then msg else flat (strip_rune <$> runes msg).

(** What a text column takes. *)
Definition storable (msg : string) : bool := valid_utf8 msg && negb (has_control msg).

(** ** Runes of written text *)

Definition rune_shape (r : rune) : Prop :=
  match r with
  | RByte c => (code c <? 128)%N = true
  | RSeq (String c (String c2 EmptyString)) => (code c <? 128)%N = false ∧ two c c2 = true
  | RSeq (String c (String c2 (String c3 EmptyString))) =>
      (code c <? 128)%N = false ∧ two c c2 = false ∧ three c c2 c3 = true
  | RSeq (String c (String c2 (String c3 (String c4 EmptyString)))) =>
      (code c <? 128)%N = false ∧ two c c2 = false ∧ three c c2 c3 = false ∧ four c c2 c3 c4 = true
  | RSeq _ => False
  | RBad => True
  end.

Lemma runes_shape s : Forall rune_shape (runes s).
Proof.
  remember (String.length s) as n eqn:Hn. revert s Hn. induction (lt_wf n) as [n _ IH]. intros s ->.
  assert (∀ t, (String.length t < String.length s)%nat → Forall rune_shape (runes t)) as H by (intros t Ht; by apply (IH _ Ht)).
  clear IH. destruct s as [|c s1]; [constructor|]. simpl in H |- *.
  destruct (code c <? 128)%N eqn:Hc; [constructor; [done|apply H; lia]|].
  destruct s1 as [|c2 s2]; [by repeat constructor|].
  destruct (two c c2) eqn:H2; [constructor; [done|apply H; simpl; lia]|].
  destruct s2 as [|c3 s3]; [constructor; [done|apply H; simpl; lia]|].
  destruct (three c c2 c3) eqn:H3; [constructor; [done|apply H; simpl; lia]|].
  destruct s3 as [|c4 s4]; [constructor; [done|apply H; simpl; lia]|].
  destruct (four c c2 c3 c4) eqn:H4; constructor; [done|apply H; simpl; lia|done|apply H; simpl; lia].
Qed.

Lemma runes_app r rest : good_rune r = true → rune_shape r → runes (rune_text r +:+ rest) = r :: runes rest.
Proof.
  destruct r as [c|s|]; [| |done]; intros _ Hr.
  { change (runes (String c rest) = RByte c :: runes rest). cbn [runes]. simpl in Hr. by rewrite Hr. }
  destruct s as [|c [|c2 [|c3 [|c4 [|c5 s]]]]]; try done.
  - destruct Hr as [Hc H2]. change (runes (String c (String c2 rest)) = RSeq (String c (String c2 EmptyString)) :: runes rest).
    cbn [runes]. by rewrite Hc, H2.
  - destruct Hr as (Hc & H2 & H3).
    change (runes (String c (String c2 (String c3 rest))) = RSeq (String c (String c2 (String c3 EmptyString))) :: runes rest).
    cbn [runes]. by rewrite Hc, H2, H3.
  - destruct Hr as (Hc & H2 & H3 & H4).
    change (runes (String c (String c2 (String c3 (String c4 rest))))
            = RSeq (String c (String c2 (String c3 (String c4 EmptyString)))) :: runes rest).
    cbn [runes]. by rewrite Hc, H2, H3, H4.
Qed.

Definition written_rune (r : rune) : rune := if control_rune r then RSeq replacement else match r with RBad => RSeq replacement | _ => r end.

Lemma written_rune_spec r : rune_shape r →
  strip_rune r = rune_text (written_rune r) ∧ rune_shape (written_rune r) ∧ good_rune (written_rune r) = true
  ∧ control_rune (written_rune r) = false.
Proof. unfold strip_rune, written_rune. intros Hr. destruct (control_rune r) eqn:Hc; [done|]. by destruct r. Qed.

Lemma runes_stripped l : Forall rune_shape l → runes (flat (strip_rune <$> l)) = written_rune <$> l.
Proof.
  induction 1 as [|r l Hr _ IH]; [done|]. destruct (written_rune_spec r Hr) as (Ht & Hs & Hg & _).
  rewrite fmap_cons, flat_cons, Ht, runes_app by done. by rewrite IH.
Qed.

(** ** The message that is stored *)

Lemma sanitize_clean msg : has_control (sanitizeErrorMessage msg) = false.
Proof.
  unfold sanitizeErrorMessage. destruct (has_control msg) eqn:Hc; [|done]. cbn [negb]. unfold has_control.
  rewrite runes_stripped by apply runes_shape. pose proof (runes_shape msg) as Hs.
  induction Hs as [|r l Hr _ IH]; [done|]. rewrite fmap_cons. cbn [existsb].
  destruct (written_rune_spec r Hr) as (_ & _ & _ & ->). apply IH.
Qed.

Lemma sanitize_idempotent msg : sanitizeErrorMessage (sanitizeErrorMessage msg) = sanitizeErrorMessage msg.
Proof. unfold sanitizeErrorMessage at 1. by rewrite sanitize_clean. Qed.

Lemma stripped_valid l : Forall rune_shape l → valid_utf8 (flat (strip_rune <$> l)) = true.
Proof.
  intros Hl. unfold valid_utf8. rewrite runes_stripped by done. induction Hl as [|r l Hr _ IH]; [done|].
  rewrite fmap_cons. cbn [forallb]. destruct (written_rune_spec r Hr) as (_ & _ & -> & _). apply IH.
Qed.

(** A message is kept as it is exactly when it has no control character, so what is stored is text iff the
    message was UTF-8 or had one. *)
Theorem sanitized_is_storable msg :
  storable (sanitizeErrorMessage msg) = valid_utf8 msg || has_control msg.
Proof.
  unfold storable. rewrite sanitize_clean, andb_true_r. unfold sanitizeErrorMessage.
  destruct (has_control msg) eqn:Hc; cbn [negb]; [|by rewrite orb_false_r].
  by rewrite stripped_valid, orb_true_r by apply runes_shape.
Qed.

(** A driver's message that echoes a broken byte and no control character stays broken. *)
Example broken_message_kept : ∃ msg, sanitizeErrorMessage msg = msg ∧ storable msg = false.
Proof. by exists (str [105; 110; 118; 97; 108; 105; 100; 32; 255]%N). Qed.
