(* ===== verification/Apportion.v ===== *)
(** * Largest-remainder apportionment

    [internal/candidates.Cache.Resize] trims partitions in proportion to their depths, and
    [internal/planner.slice] splits a key's slots over shards in proportion to their counts.
    Both floor the proportional shares and then hand the leftover out one at a time in order of
    the largest remainder.  This file holds the shared loop and the arithmetic that shows the
    shares add up to the total. *)

From S2P Require Import Prelude.

Section hand_out.
Context {K : Type} `{EqDecision K}.

(** The loop that hands out the leftover: one unit to each key of [order] that still has room,
    stopping as soon as [size] units are assigned. *)
Fixpoint hand_out (cap : K → nat) (size : nat) (order : list K)
    (assigned : nat) (t : K → nat) : nat * (K → nat) :=
  match order with
  | [] => (assigned, t)
  | s :: order =>
      if decide (size ≤ assigned) then (assigned, t)
      else if decide (t s < cap s)
      then hand_out cap size order (S assigned) (<[s := S (t s)]> t)
      else hand_out cap size order assigned t
  end.
End hand_out.

Section hand_out_facts.
Context {K : Type} `{EqDecision K}.
Implicit Types (t cap : K → nat) (order l : list K).

(** How many keys of [l] still have room. *)
Definition room cap t l : nat :=
  sum_list_with (λ k, if decide (t k < cap k) then 1 else 0) l.

Lemma room_insert_notin cap t s v l :
  s ∉ l → room cap (<[s := v]> t) l = room cap t l.
Proof.
  intros Hs. apply sum_list_with_ext. intros k Hk.
  by rewrite fn_lookup_insert_ne by set_solver.
Qed.

Lemma hand_out_bounds cap size order assigned t :
  ∀ k, t k ≤ (hand_out cap size order assigned t).2 k ≤ max (t k) (cap k).
Proof.
  revert assigned t. induction order as [|s order IH]; intros a t k; simpl; [lia|].
  repeat case_decide; simpl; [lia| |apply IH].
  specialize (IH (S a) (<[s := S (t s)]> t) k).
  destruct (decide (s = k)) as [->|Hne].
  - rewrite fn_lookup_insert in IH. lia.
  - by rewrite fn_lookup_insert_ne in IH by done.
Qed.

Lemma hand_out_outside cap size order assigned t k :
  k ∉ order → (hand_out cap size order assigned t).2 k = t k.
Proof.
  revert assigned t. induction order as [|s order IH]; intros a t Hk; simpl; [done|].
  repeat case_decide; simpl; [done| |apply IH; set_solver].
  rewrite IH by set_solver. apply fn_lookup_insert_ne. set_solver.
Qed.

Lemma hand_out_sum cap size order assigned t l :
  NoDup l → order ⊆ l →
  sum_list_with (hand_out cap size order assigned t).2 l + assigned
  = sum_list_with t l + (hand_out cap size order assigned t).1.
Proof.
  intros Hl. revert assigned t.
  induction order as [|s order IH]; intros a t Ho; simpl; [lia|].
  repeat case_decide; simpl; [lia| |apply IH; set_solver].
  specialize (IH (S a) (<[s := S (t s)]> t) ltac:(set_solver)).
  pose proof (sum_list_with_insert t s (S (t s)) l Hl ltac:(set_solver)). lia.
Qed.

Lemma hand_out_assigned cap size order assigned t :
  NoDup order → assigned ≤ size →
  (hand_out cap size order assigned t).1
  = min size (assigned + room cap t order).
Proof.
  revert assigned t. induction order as [|s order IH]; intros a t Hnd Ha.
  - cbn. lia.
  - apply NoDup_cons in Hnd as [Hs Hnd]. simpl. unfold room. simpl.
    fold (room cap t order).
    case_decide; [simpl; lia|]. case_decide.
    + rewrite IH by (done || lia). rewrite room_insert_notin by done. lia.
    + rewrite IH by (done || lia). lia.
Qed.
End hand_out_facts.

(** ** Shares of a total *)

Section shares.
Context {K : Type} `{EqDecision K}.
Context (w : K → nat) (keys : list K) (size : nat).

Definition total : nat := sum_list_with w keys.

(** The floored proportional share, and the remainder that orders the leftover. *)
Definition floor_share (k : K) : nat := (w k * size) `div` total.
Definition remainder (k : K) : nat := (w k * size) `mod` total.

Context (Hsize : size ≤ total) (Hpos : 0 < total).

Lemma share_split k : w k * size = total * floor_share k + remainder k.
Proof. apply Nat.div_mod_eq. Qed.

Lemma remainder_lt k : remainder k < total.
Proof. apply Nat.mod_upper_bound. lia. Qed.

Lemma floor_share_le k : floor_share k ≤ w k.
Proof. pose proof (share_split k). nia. Qed.

Lemma floor_share_room k : 0 < remainder k → floor_share k < w k.
Proof. intros. pose proof (share_split k). nia. Qed.

Lemma sum_shares l :
  sum_list_with w l * size
  = total * sum_list_with floor_share l + sum_list_with remainder l.
Proof.
  induction l as [|k l IH]; simpl; [lia|]. pose proof (share_split k). nia.
Qed.

Lemma sum_remainder_room l :
  sum_list_with remainder l ≤ total * room w floor_share l.
Proof.
  induction l as [|k l IH]; simpl; [lia|]. unfold room. simpl.
  fold (room w floor_share l). pose proof (remainder_lt k).
  case_decide as Hd; [nia|].
  assert (remainder k = 0); [|nia].
  destruct (decide (remainder k = 0)) as [|Hne]; [done|].
  destruct Hd. apply floor_share_room. lia.
Qed.

Lemma sum_floor_le : sum_list_with floor_share keys ≤ size.
Proof. pose proof (sum_shares keys). fold total in *. nia. Qed.

(** The leftover never exceeds the number of keys with room: one pass hands all of it out. *)
Lemma leftover_room :
  size ≤ sum_list_with floor_share keys + room w floor_share keys.
Proof.
  pose proof (sum_shares keys). pose proof (sum_remainder_room keys).
  fold total in *. nia.
Qed.

(** Handing out in any order that lists the keys once gives shares that sum to [size]. *)
Lemma apportion_sum order :
  NoDup keys → order ≡ₚ keys →
  sum_list_with
    (hand_out w size order (sum_list_with floor_share keys) floor_share).2 keys
  = size.
Proof.
  intros Hnd Hperm.
  assert (NoDup order) as Ho by by rewrite Hperm.
  pose proof (hand_out_sum w size order (sum_list_with floor_share keys)
    floor_share keys Hnd ltac:(intros k; by rewrite Hperm)) as Hsum.
  rewrite hand_out_assigned in Hsum by (done || apply sum_floor_le).
  assert (room w floor_share order = room w floor_share keys) as Hroom
    by by apply sum_list_with_Permutation.
  pose proof leftover_room. pose proof sum_floor_le. lia.
Qed.

Lemma apportion_le order k :
  (hand_out w size order (sum_list_with floor_share keys) floor_share).2 k ≤ w k.
Proof.
  pose proof (hand_out_bounds w size order (sum_list_with floor_share keys)
    floor_share k). pose proof (floor_share_le k). lia.
Qed.
End shares.
