(* ===== verification/Float64.v ===== *)
(** * IEEE-754 binary64 values as Go's [float64]

    The engine folds numbers, orders ages and weighs tenants with [float64].  Values are the
    standard library's [spec_float] (no primitive floats, so everything reduces in the kernel);
    arithmetic is binary64 rounding to nearest even.  The lemmas give the order that comparisons
    on non-NaN values follow, and what the division and the rounding of integers come to. *)

From Stdlib Require Export Floats.SpecFloat.
From S2P Require Import Prelude.

#[local] Open Scope Z_scope.

Abbreviation float64 := spec_float.

#[export] Instance spec_float_eq_dec : EqDecision spec_float.
Proof. solve_decision. Defined.

Definition fadd : float64 → float64 → float64 := SFadd 53 1024.
Definition fsub : float64 → float64 → float64 := SFsub 53 1024.
Definition fmul : float64 → float64 → float64 := SFmul 53 1024.
Definition fdiv : float64 → float64 → float64 := SFdiv 53 1024.
Definition flt : float64 → float64 → bool := SFltb.
Definition fle : float64 → float64 → bool := SFleb.

(** [float64(z)] for an integer [z]. *)
Definition of_int (z : Z) : float64 := binary_normalize 53 1024 z 0 false.

Definition f0 : float64 := of_int 0.
Definition f1 : float64 := of_int 1.

Definition is_nan (x : float64) : bool := match x with S754_nan => true | _ => false end.
(** A decimal constant [n / d]: the nearest float64. *)
Definition dec (n d : Z) : float64 := fdiv (of_int n) (of_int d).

Definition is_zero (x : float64) : bool := match x with S754_zero _ => true | _ => false end.
Definition sign_bit (x : float64) : bool :=
  match x with S754_zero s | S754_infinity s | S754_finite s _ _ => s | S754_nan => false end.

#[global] Arguments fadd : simpl never.
#[global] Arguments fsub : simpl never.
#[global] Arguments fmul : simpl never.
#[global] Arguments dec : simpl never.
#[global] Arguments fdiv : simpl never.
#[global] Arguments flt : simpl never.
#[global] Arguments fle : simpl never.
#[global] Arguments of_int : simpl never.
#[global] Arguments f0 : simpl never.
#[global] Arguments f1 : simpl never.

(** [math.Round]: to the nearest integer, halves away from zero. *)
Definition fround (x : float64) : float64 :=
  match x with
  | S754_finite s m e =>
      if 0 <=? e then x else
      let n := (Z.pos m + 2 ^ (- e - 1)) / 2 ^ (- e) in
      if n =? 0 then S754_zero s else of_int (if s then - n else n)
  | _ => x
  end.

#[global] Arguments fround : simpl never.

(** Go's built-in [min] and [max]: NaN is contagious and negative zero is below zero. *)
Definition fmin (a b : float64) : float64 :=
  if is_nan a || is_nan b then S754_nan
  else if is_zero a && is_zero b then (if sign_bit a then a else b)
  else if flt b a then b else a.
Definition fmax (a b : float64) : float64 :=
  if is_nan a || is_nan b then S754_nan
  else if is_zero a && is_zero b then (if sign_bit a then b else a)
  else if flt a b then b else a.

(** ** The order of non-NaN values *)

(** A lexicographic key: class, then exponent, then mantissa. *)
Definition fkey (x : float64) : Z * Z * Z :=
  match x with
  | S754_nan => (0, 0, 0)
  | S754_zero _ => (0, 0, 0)
  | S754_infinity s => if s then (-2, 0, 0) else (2, 0, 0)
  | S754_finite s m e => if s then (-1, - e, Z.neg m) else (1, e, Z.pos m)
  end.

Definition key_lt (a b : Z * Z * Z) : Prop :=
  let '(c1, e1, m1) := a in let '(c2, e2, m2) := b in
  c1 < c2 ∨ (c1 = c2 ∧ (e1 < e2 ∨ (e1 = e2 ∧ m1 < m2))).

Lemma flt_key x y :
  is_nan x = false → is_nan y = false →
  flt x y = true ↔ key_lt (fkey x) (fkey y).
Proof.
  intros Hx Hy. unfold flt, SFltb, SFcompare, fkey, key_lt.
  destruct x as [sx|sx| |sx mx ex], y as [sy|sy| |sy my ey]; try done;
    try destruct sx; try destruct sy; simpl; try (split; [done|lia]); try (split; [lia|done]).
  - destruct (Z.compare_spec ex ey); simpl; [|split; [done|lia]|split; [lia|done]].
    change (Pos.compare_cont Eq mx my) with (Pos.compare mx my).
    destruct (Pos.compare_spec mx my); simpl; (split; [try done; lia|try done; lia]).
  - destruct (Z.compare_spec ex ey); simpl; [|split; [lia|done]|split; [done|lia]].
    change (Pos.compare_cont Eq mx my) with (Pos.compare mx my).
    destruct (Pos.compare_spec mx my); simpl; (split; [try done; lia|try done; lia]).
Qed.

Lemma key_lt_irrefl a : ¬ key_lt a a.
Proof. destruct a as [[c e] m]. unfold key_lt. lia. Qed.

Lemma key_lt_trans a b c : key_lt a b → key_lt b c → key_lt a c.
Proof.
  destruct a as [[c1 e1] m1], b as [[c2 e2] m2], c as [[c3 e3] m3]. unfold key_lt. lia.
Qed.

Lemma key_lt_negtrans a b c : ¬ key_lt a b → ¬ key_lt b c → ¬ key_lt a c.
Proof.
  destruct a as [[c1 e1] m1], b as [[c2 e2] m2], c as [[c3 e3] m3]. unfold key_lt. lia.
Qed.

Lemma flt_nan_l x y : is_nan x = true → flt x y = false.
Proof. by destruct x. Qed.

Lemma flt_nan_r x y : is_nan y = true → flt x y = false.
Proof. destruct y; try done. by destruct x as [| | |[]]. Qed.

Lemma flt_irrefl x : flt x x = false.
Proof.
  destruct (is_nan x) eqn:Hx; [by apply flt_nan_l|].
  apply not_true_iff_false. rewrite flt_key by done. apply key_lt_irrefl.
Qed.

(** [<] on floats is transitive, NaN included: a comparison that holds involves no NaN. *)
Lemma flt_trans x y z : flt x y = true → flt y z = true → flt x z = true.
Proof.
  intros H1 H2. destruct (is_nan x) eqn:Hx; [by rewrite flt_nan_l in H1|].
  destruct (is_nan y) eqn:Hy; [by rewrite flt_nan_r in H1|].
  destruct (is_nan z) eqn:Hz; [by rewrite flt_nan_r in H2|].
  rewrite flt_key in H1, H2 |- * by done. eauto using key_lt_trans.
Qed.

Lemma flt_negtrans x y z :
  is_nan y = false → flt x y = false → flt y z = false → flt x z = false.
Proof.
  intros Hy H1 H2. destruct (is_nan x) eqn:Hx; [by rewrite flt_nan_l|].
  destruct (is_nan z) eqn:Hz; [by rewrite flt_nan_r|].
  rewrite <-not_true_iff_false, flt_key in H1, H2 |- * by done. eauto using key_lt_negtrans.
Qed.

Lemma fle_flt x y : is_nan x = false → is_nan y = false → fle x y = negb (flt y x).
Proof.
  intros Hx Hy. apply eq_true_iff_eq. rewrite negb_true_iff, <-not_true_iff_false, flt_key by done.
  unfold fle, SFleb, SFcompare, fkey, key_lt.
  destruct x as [sx|sx| |sx mx ex], y as [sy|sy| |sy my ey]; try done;
    try destruct sx; try destruct sy; simpl; try (split; [done|lia]); try (split; [lia|done]).
  - destruct (Z.compare_spec ex ey); simpl; [|split; [done|lia]|split; [lia|done]].
    change (Pos.compare_cont Eq mx my) with (Pos.compare mx my).
    destruct (Pos.compare_spec mx my); simpl; (split; [try done; lia|try done; lia]).
  - destruct (Z.compare_spec ex ey); simpl; [|split; [lia|done]|split; [done|lia]].
    change (Pos.compare_cont Eq mx my) with (Pos.compare mx my).
    destruct (Pos.compare_spec mx my); simpl; (split; [try done; lia|try done; lia]).
Qed.

(** ** A running maximum, as the code's [if x > best { best = x }] loops keep one *)
Section argmax.
Context {A : Type} (val : A → float64).

Definition keep_max (best : A) (x : A) : A := if flt (val best) (val x) then x else best.

Lemma keep_max_spec l b :
  let r := fold_left keep_max l b in
  (r = b ∨ r ∈ l) ∧
  (is_nan (val b) = false → (∀ x, x ∈ l → is_nan (val x) = false) →
   ∀ x, x = b ∨ x ∈ l → flt (val r) (val x) = false).
Proof.
  revert b. induction l as [|y l IH]; intros b; simpl.
  { split; [by left|]. intros _ _ x [->|Hx]; [apply flt_irrefl|set_solver]. }
  destruct (IH (keep_max b y)) as [Hor Hmax]. unfold keep_max in *.
  destruct (flt (val b) (val y)) eqn:Hlt; split.
  - set_solver.
  - intros Hb Hl x Hx. specialize (Hmax ltac:(set_solver) ltac:(set_solver)).
    destruct Hx as [->|[->|Hx]%elem_of_cons]; [|by apply Hmax; left|by apply Hmax; right].
    apply flt_negtrans with (val y); [set_solver|by apply Hmax; left|].
    apply not_true_iff_false. intros H. pose proof (flt_trans _ _ _ Hlt H).
    by rewrite flt_irrefl in *.
  - set_solver.
  - intros Hb Hl x Hx. specialize (Hmax Hb ltac:(set_solver)).
    destruct Hx as [->|[->|Hx]%elem_of_cons]; [by apply Hmax; left| |by apply Hmax; right].
    apply flt_negtrans with (val b); [done|by apply Hmax; left|done].
Qed.
End argmax.

(** ** Integers and their quotients *)

Lemma digits_log2 p : Z.pos (digits2_pos p) = Z.log2 (Z.pos p) + 1.
Proof.
  induction p as [p IH|p IH|]; [| |done]; cbn [digits2_pos]; rewrite Pos2Z.inj_succ, IH.
  - change (Z.pos p~1) with (2 * Z.pos p + 1). rewrite Z.log2_succ_double by lia. lia.
  - change (Z.pos p~0) with (2 * Z.pos p). rewrite Z.log2_double by lia. lia.
Qed.

Lemma digits_unique n d : 0 < d → 2 ^ (d - 1) ≤ n < 2 ^ d → Zdigits2 n = d.
Proof.
  intros Hd Hn. destruct n as [|p|p]; [pose proof (Z.pow_pos_nonneg 2 (d - 1)); lia| |lia].
  cbn [Zdigits2]. rewrite digits_log2, (Z.log2_unique (Z.pos p) (d - 1)); [lia|lia|].
  by replace (Z.succ (d - 1)) with d by lia.
Qed.

Lemma digits_bounds n : 0 < n → 2 ^ (Zdigits2 n - 1) ≤ n < 2 ^ Zdigits2 n.
Proof.
  intros Hn. destruct n as [|p|p]; [lia| |lia]. cbn [Zdigits2]. rewrite digits_log2.
  pose proof (Z.log2_spec (Z.pos p) Hn). replace (Z.log2 (Z.pos p) + 1 - 1) with (Z.log2 (Z.pos p)) by lia.
  by replace (Z.log2 (Z.pos p) + 1) with (Z.succ (Z.log2 (Z.pos p))) by lia.
Qed.

Lemma iter_xO d m : Z.pos (Pos.iter xO m d) = Z.pos m * 2 ^ Z.pos d.
Proof.
  induction d as [|d IH] using Pos.peano_ind; [simpl; lia|].
  rewrite Pos.iter_succ. change (Z.pos (Pos.iter xO m d)~0) with (2 * Z.pos (Pos.iter xO m d)).
  rewrite IH, Pos2Z.inj_succ, Z.pow_succ_r by lia. lia.
Qed.

(** Rounding a mantissa of 53 digits in the normal range changes nothing but what the location says. *)
Lemma shr_fexp_53 m e l : 2 ^ 52 ≤ m < 2 ^ 53 → -1074 ≤ e →
  shr_fexp 53 1024 m e l = (shr_record_of_loc m l, e).
Proof.
  intros Hm He. unfold shr_fexp. rewrite (digits_unique m 53) by lia. unfold fexp, emin.
  by replace (Z.max (53 + e - 53) (3 - 1024 - 53) - e) with 0 by lia.
Qed.

Lemma of_int_pos n : 0 < n < 2 ^ 53 → let d := Zdigits2 n in
  0 < d ≤ 53 ∧ 2 ^ 52 ≤ n * 2 ^ (53 - d) < 2 ^ 53 ∧
  of_int n = S754_finite false (Z.to_pos (n * 2 ^ (53 - d))) (d - 53).
Proof.
  intros Hn d. pose proof (digits_bounds n ltac:(lia)) as Hb. fold d in Hb.
  assert (0 < d) as Hd by (subst d; destruct n; cbn; lia).
  assert (d ≤ 53) as Hd'.
  { destruct (decide (d ≤ 53)) as [|Hgt]; [done|]. pose proof (Z.pow_le_mono_r 2 53 (d - 1)). lia. }
  assert (2 ^ 52 ≤ n * 2 ^ (53 - d) < 2 ^ 53) as Hm.
  { replace (2 ^ 52) with (2 ^ (d - 1) * 2 ^ (53 - d)) by (rewrite <-Z.pow_add_r by lia; f_equal; lia).
    replace (2 ^ 53) with (2 ^ d * 2 ^ (53 - d)) by (rewrite <-Z.pow_add_r by lia; f_equal; lia). nia. }
  split_and!; [lia..|].
  destruct n as [|p|p]; [lia| |lia]. unfold of_int, binary_normalize, binary_round, shl_align.
  cbn [Zdigits2] in d. fold d. unfold fexp, emin. replace (Z.max (d + 0 - 53) (3 - 1024 - 53) - 0) with (d - 53) by lia.
  assert (match d - 53 with Z.neg k => (Pos.iter xO p k, Z.max (d + 0 - 53) (3 - 1024 - 53)) | _ => (p, 0) end
    = (Z.to_pos (Z.pos p * 2 ^ (53 - d)), d - 53)) as ->.
  { destruct (d - 53) as [|k|k] eqn:Hk; [| lia|].
    - replace (53 - d) with 0 by lia. by rewrite Z.mul_1_r.
    - f_equal; [|lia]. apply Pos2Z.inj. rewrite iter_xO, Z2Pos.id by nia. do 2 f_equal. lia. }
  unfold binary_round_aux. rewrite Z2Pos.id, shr_fexp_53 by lia. cbn [shr_record_of_loc loc_of_shr_record shr_m round_nearest_even].
  rewrite shr_fexp_53 by lia. cbn [shr_record_of_loc shr_m].
  destruct (Z.pos p * 2 ^ (53 - d)) as [|m|m] eqn:Hv; [lia| |lia]. cbn [Z.to_pos].
  by destruct (Z.leb_spec (d - 53) (1024 - 53)); [|lia].
Qed.

(** Where [r] lies between two steps of [den]. *)
Lemma new_location_spec den r : 0 < den → 0 ≤ r < den →
  new_location den r = if r =? 0 then loc_Exact else loc_Inexact (2 * r ?= den).
Proof.
  intros Hd Hr. unfold new_location, new_location_even, new_location_odd. destruct (Z.even den) eqn:He; [done|].
  destruct (Z.eqb_spec r 0); [done|]. f_equal.
  assert (2 * r ≠ den) as Hne by (intros <-; by rewrite Z.even_mul in He).
  destruct (Z.compare_spec (2 * r + 1) den), (Z.compare_spec (2 * r) den); (done || lia).
Qed.

(** The second normalisation of a rounded mantissa: only [2 ^ 53] has a digit too many. *)
Lemma renormalize M e : 2 ^ 52 ≤ M ≤ 2 ^ 53 → -1074 ≤ e → e + 1 ≤ 971 →
  ∃ m j, (let '(mrs, e') := shr_fexp 53 1024 M e loc_Exact in
          match shr_m mrs with
          | 0 => S754_zero false
          | Z.pos m => if e' <=? 1024 - 53 then S754_finite false m e' else S754_infinity false
          | Z.neg _ => S754_nan
          end) = S754_finite false m (e + j) ∧ 0 ≤ j ≤ 1 ∧ 2 ^ 52 ≤ Z.pos m ∧ Z.pos m * 2 ^ j = M.
Proof.
  intros HM He He'. destruct (decide (M = 2 ^ 53)) as [->|Hne].
  - exists (Z.to_pos (2 ^ 52)), 1. unfold shr_fexp. rewrite (digits_unique (2 ^ 53) 54) by lia. unfold fexp, emin.
    replace (Z.max (54 + e - 53) (3 - 1024 - 53) - e) with 1 by lia. cbn [shr_record_of_loc shr Pos.iter shr_1 shr_m].
    replace (2 ^ 53) with (Z.pos (2 ^ 52)~0) by done. cbn [orb shr_m].
    destruct (Z.leb_spec (e + 1) (1024 - 53)); [|lia]. split_and!; [done|lia..|done].
  - exists (Z.to_pos M), 0. rewrite shr_fexp_53 by lia. cbn [shr_record_of_loc shr_m].
    destruct M as [|m|m]; [lia| |lia]. cbn [Z.to_pos]. destruct (Z.leb_spec e (1024 - 53)); [|lia].
    rewrite Z.add_0_r. split_and!; [done|lia..].
Qed.

(** Rounding the quotient [num / den], of which [q] is the whole part: the result is within half a unit in the
    last place. *)
Lemma round_quotient q r num den e : num = q * den + r → 0 < den → 0 ≤ r < den → 2 ^ 52 ≤ q < 2 ^ 54 →
  -1074 ≤ e → e + 2 ≤ 971 →
  ∃ m k, binary_round_aux 53 1024 false q e (new_location den r) = S754_finite false m (e + k) ∧ 0 ≤ k ≤ 2
    ∧ 2 ^ 52 ≤ Z.pos m ∧ 2 * Z.abs (Z.pos m * 2 ^ k * den - num) ≤ 2 ^ k * den.
Proof.
  intros -> Hd Hr Hq He He'. rewrite new_location_spec by done. unfold binary_round_aux.
  destruct (decide (q < 2 ^ 53)) as [Hs|Hs].
  - rewrite shr_fexp_53 by lia.
    set (M := round_nearest_even _ _).
    assert ((M = q ∧ 2 * r ≤ den) ∨ (M = q + 1 ∧ den ≤ 2 * r)) as HM.
    { subst M. destruct (Z.eqb_spec r 0); [left; split; [done|lia]|]. cbn [shr_record_of_loc].
      destruct (Z.compare_spec (2 * r) den); cbn; [|left; split; [done|lia]|right; split; [done|lia]].
      destruct (Z.even q); [left|right]; split; (done || lia). }
    clearbody M. destruct (renormalize M e) as (m & j & -> & Hj & Hm & Hv); [lia..|].
    exists m, j. split_and!; [done|lia|lia|done|]. rewrite Hv.
    assert (1 ≤ 2 ^ j) by (pose proof (Z.pow_pos_nonneg 2 j); lia). nia.
  - unfold shr_fexp at 1. rewrite (digits_unique q 54) by lia. unfold fexp, emin.
    replace (Z.max (54 + e - 53) (3 - 1024 - 53) - e) with 1 by lia. cbn [shr].
    match goal with |- context [SpecFloat.iter_pos shr_1 1 ?x] => change (SpecFloat.iter_pos shr_1 1 x) with (shr_1 x) end.
    match goal with |- context [shr_1 ?x] => set (mrs := shr_1 x) end.
    assert (∃ h b, q = 2 * h + Z.b2z b ∧ shr_m mrs = h ∧
      loc_of_shr_record mrs = if b then (if r =? 0 then loc_Inexact Eq else loc_Inexact Gt)
                              else (if r =? 0 then loc_Exact else loc_Inexact Lt)) as (h & b & Hq' & Hh & Hloc).
    { subst mrs. destruct q as [|[p|p|]|]; [lia| | |lia|lia].
      - exists (Z.pos p), true. split; [cbn [Z.b2z]; lia|]. destruct (Z.eqb_spec r 0); [done|].
        by destruct (2 * r ?= den).
      - exists (Z.pos p), false. split; [cbn [Z.b2z]; lia|]. destruct (Z.eqb_spec r 0); [done|].
        by destruct (2 * r ?= den). }
    rewrite Hh, Hloc. clear Hh Hloc. clearbody mrs. set (M := round_nearest_even _ _).
    assert ((M = h ∧ (b = false ∨ r = 0)) ∨ (M = h + 1 ∧ b = true)) as HM.
    { subst M. destruct b, (Z.eqb_spec r 0); cbn; [|by right|by left; auto|by left; auto].
      destruct (Z.even h); [left|right]; auto. }
    clearbody M. destruct (renormalize M (e + 1)) as (m & j & -> & Hj & Hm & Hv); [destruct b; cbn in Hq'; lia|lia..|].
    exists m, (1 + j). rewrite Z.add_assoc. split_and!; [done|lia|lia|done|].
    replace (Z.pos m * 2 ^ (1 + j)) with (2 * M) by (rewrite Z.pow_add_r by lia; lia).
    replace (2 ^ (1 + j)) with (2 * 2 ^ j) by (by rewrite Z.pow_add_r by lia).
    assert (1 ≤ 2 ^ j) by (pose proof (Z.pow_pos_nonneg 2 j); lia). subst q.
    destruct HM as [[-> Hb]|[-> ->]]; [destruct Hb as [->| ->]|]; cbn [Z.b2z]; try destruct b; cbn [Z.b2z]; nia.
Qed.

(** A quotient of integers, as [float64] division has it: with [D] binary places, within half of the last. *)
Lemma fdiv_ints n d : 0 < n < 2 ^ 51 → 0 < d < 2 ^ 53 →
  ∃ m D, fdiv (of_int n) (of_int d) = S754_finite false m (- D) ∧ 0 < D ∧ 2 ^ 52 ≤ Z.pos m
    ∧ 2 * Z.abs (Z.pos m * d - n * 2 ^ D) ≤ d.
Proof.
  intros Hn Hd. destruct (of_int_pos n) as (Hdn & Hmn & ->); [lia|]. destruct (of_int_pos d) as (Hdd & Hmd & ->); [lia|].
  assert (Zdigits2 n ≤ 51) as Hn51.
  { destruct (decide (Zdigits2 n ≤ 51)) as [|Hgt]; [done|]. pose proof (digits_bounds n ltac:(lia)).
    pose proof (Z.pow_le_mono_r 2 51 (Zdigits2 n - 1)). lia. }
  set (dn := Zdigits2 n) in *. set (dd := Zdigits2 d) in *. set (mn := n * 2 ^ (53 - dn)) in *. set (md := d * 2 ^ (53 - dd)) in *.
  unfold fdiv, SFdiv, SFdiv_core_binary. rewrite !Z2Pos.id by lia. rewrite (digits_unique mn 53), (digits_unique md 53) by lia.
  unfold fexp, emin. replace (Z.min _ _) with (dn - dd - 53) by lia.
  replace (dn - 53 - (dd - 53) - (dn - dd - 53)) with 53 by lia. cbv beta iota. rewrite Z.shiftl_mul_pow2 by lia.
  pose proof (Z.div_eucl_eq (mn * 2 ^ 53) md ltac:(lia)) as Heq.
  pose proof (Z.mod_pos_bound (mn * 2 ^ 53) md ltac:(lia)) as Hr. unfold Z.modulo in Hr.
  destruct (Z.div_eucl (mn * 2 ^ 53) md) as [q r]. cbn [xorb].
  destruct (round_quotient q r (mn * 2 ^ 53) md (dn - dd - 53)) as (m & k & -> & Hk & Hm & Hv); [lia|lia|lia|nia|lia|lia|].
  exists m, (53 + dd - dn - k). split_and!; [f_equal; lia|lia|done|].
  subst mn md. revert Hv. set (D := 53 + dd - dn - k).
  replace (n * 2 ^ (53 - dn) * 2 ^ 53) with (n * 2 ^ D * (2 ^ k * 2 ^ (53 - dd)));
    [|rewrite <-!Z.mul_assoc, <-!Z.pow_add_r by lia; do 2 f_equal; lia].
  replace (Z.pos m * 2 ^ k * (d * 2 ^ (53 - dd))) with (Z.pos m * d * (2 ^ k * 2 ^ (53 - dd))) by lia.
  rewrite <-Z.mul_sub_distr_r, Z.abs_mul. pose proof (Z.pow_pos_nonneg 2 k). pose proof (Z.pow_pos_nonneg 2 (53 - dd)).
  set (a := Z.abs (Z.pos m * d - n * 2 ^ D)). set (b := 2 ^ k * 2 ^ (53 - dd)).
  replace (2 ^ k * (d * 2 ^ (53 - dd))) with (d * b) by lia. assert (0 < b) by (subst b; nia). rewrite (Z.abs_eq b) by lia. nia.
Qed.

(** [math.Round(float64(n) / float64(d))] is the rounded quotient: the quotient's rounding never crosses a half. *)
Lemma fround_ints n d : 0 ≤ n < 2 ^ 51 → 0 < d < 2 ^ 53 →
  fround (fdiv (of_int n) (of_int d)) = of_int ((2 * n + d) / (2 * d)).
Proof.
  intros Hn Hd. destruct (decide (n = 0)) as [->|Hn0].
  { rewrite Z.div_small by lia. destruct (of_int_pos d) as (_ & _ & ->); [lia|]. reflexivity. }
  destruct (fdiv_ints n d) as (m & D & -> & HD & Hm & Hv); [lia..|]. unfold fround.
  destruct (Z.leb_spec 0 (- D)); [lia|]. rewrite Z.opp_involutive.
  set (k := (2 * n + d) / (2 * d)).
  assert (2 * d * k ≤ 2 * n + d < 2 * d * (k + 1)) as Hk.
  { pose proof (Z.mul_div_le (2 * n + d) (2 * d)). pose proof (Z.mul_succ_div_gt (2 * n + d) (2 * d)). subst k. lia. }
  assert (0 ≤ k) as Hk0 by (subst k; apply Z.div_pos; lia).
  assert (2 ^ D = 2 * 2 ^ (D - 1)) as HD2 by (rewrite <-Z.pow_succ_r by lia; f_equal; lia).
  assert (0 < 2 ^ (D - 1)) by (apply Z.pow_pos_nonneg; lia). set (u := 2 ^ (D - 1)) in *.
  assert ((Z.pos m + u) / 2 ^ D = k) as ->.
  { symmetry. apply Z.div_unique with (Z.pos m + u - 2 ^ D * k); [left|lia]. rewrite HD2 in *.
    assert (d < 2 * u) by nia.
    assert ((2 * k - 1) * u ≤ Z.pos m). { assert ((2 * k - 1) * u * d ≤ n * (2 * u)) by nia. nia. }
    assert (Z.pos m < (2 * k + 1) * u). { assert (n * (2 * u) + u ≤ (2 * k + 1) * u * d) by nia. nia. }
    lia. }
  destruct (Z.eqb_spec k 0) as [->|]; [done|]. done.
Qed.
