(* ===== verification/Candidates.v ===== *)
(** * The candidate cache ([internal/candidates/candidates.go])

    A bounded per-replica set of step candidates, partitioned by shard.  [Cache] models the Go
    struct under its mutex: every operation below is one critical section, and the two calls that
    block on the condition variable ([Pop], [WaitForWork]) return an explicit "parked" outcome
    which the caller re-evaluates when it is signalled.  A Go [int] that counts buffered
    candidates is a [nat]; [offered] is kept as a [Z] because the code subtracts from it. *)

From S2P Require Import Prelude Apportion.

#[local] Open Scope Z_scope.

Record Job := mkJob { StepID : Z; Shard : Z; Priority : Z }.
#[export] Instance Job_eq_dec : EqDecision Job.
Proof. solve_decision. Defined.

Record partition := mkPartition {
  items : list Job;
  lastFill : nat;
  offered : Z;
  band : Z
}.

Record Cache := mkCache {
  parts : gmap Z partition;
  size : nat;
  waiting : nat;
  closed : bool
}.

(** [&partition{}] *)
Definition new_partition : partition := mkPartition [] 0 0 0.

Definition floor (p : partition) : Z :=
  if bool_decide (items p = []) then MaxInt else band p.

Definition lowWater (p : partition) : nat := Nat.max 1 (lastFill p / 2).

Definition bound_of (workers : Z) : nat := Z.to_nat (Z.max 1 (2 * workers)).

Definition Init (workers : Z) (c : Cache) : Cache :=
  mkCache ∅ (bound_of workers) (waiting c) false.

Definition Capacity (c : Cache) : nat := size c.

Definition depth (ps : gmap Z partition) (s : Z) : nat :=
  match ps !! s with Some p => length (items p) | None => 0%nat end.

Definition shards_of (ps : gmap Z partition) : list Z := (map_to_list ps).*1.

Definition totalLen (ps : gmap Z partition) : nat :=
  sum_list_with (depth ps) (shards_of ps).

(** ** Resize *)

(** The comparator of [sort.SliceStable]: larger remainder first, lower shard on a tie. *)
Definition trim_before (rem : Z → nat) (a b : Z) : Prop :=
  (rem b < rem a)%nat ∨ (rem a = rem b ∧ a ≤ b).
#[export] Instance trim_before_dec rem a b : Decision (trim_before rem a b).
Proof. unfold trim_before. apply _. Defined.

Definition trim (n : nat) (p : partition) : partition :=
  if decide (n < length (items p))%nat
  then mkPartition (take n (items p)) (lastFill p) (offered p) (band p)
  else p.

(** The target depth of every partition when the sum overflows the bound. *)
Definition resize_targets (ps : gmap Z partition) (sz : nat) : Z → nat :=
  let shards := merge_sort Z.le (shards_of ps) in
  let t := floor_share (depth ps) (shards_of ps) sz in
  let assigned := sum_list_with t shards in
  let order :=
    merge_sort (trim_before (remainder (depth ps) (shards_of ps) sz)) shards in
  (hand_out (depth ps) sz order assigned t).2.

Definition Resize (workers : Z) (c : Cache) : Cache :=
  if closed c then c else
  let sz := bound_of workers in
  if decide (totalLen (parts c) ≤ sz)%nat
  then mkCache (parts c) sz (waiting c) (closed c)
  else
    let targets := resize_targets (parts c) sz in
    mkCache (map_imap (λ s p, Some (trim (targets s) p)) (parts c))
      sz (waiting c) (closed c).

(** ** Selection *)

(** The three arms of [bestPartition]'s switch: does [(s, p)] displace [best]? *)
Definition displaces (best : Z * partition) (sp : Z * partition) : bool :=
  let bf := floor best.2 in let pf := floor sp.2 in
  let bl := length (items best.2) in let pl := length (items sp.2) in
  bool_decide (pf < bf)
  || (bool_decide (pf = bf) && bool_decide (bl < pl)%nat)
  || (bool_decide (pf = bf) && bool_decide (pl = bl) && bool_decide (sp.1 < best.1)).

Definition pick_best (best : option (Z * partition)) (sp : Z * partition)
  : option (Z * partition) :=
  if bool_decide (items sp.2 = []) then best
  else match best with
       | None => Some sp
       | Some b => if displaces b sp then Some sp else best
       end.

Definition bestPartition (ps : gmap Z partition) : option (Z * partition) :=
  fold_left pick_best (map_to_list ps) None.

(** Removing the front candidate, as both pops do. *)
Definition take_front (p : partition) : option (Job * partition) :=
  match items p with
  | [] => None
  | j :: rest =>
      let o := if bool_decide (Z.of_nat (length (items p)) ≤ offered p)
               then offered p - 1 else offered p in
      Some (j, mkPartition rest (lastFill p) o (band p))
  end.

Definition needRefill (p : partition) : bool :=
  bool_decide (length (items p) ≤ lowWater p)%nat.

Definition put_part (s : Z) (p : partition) (c : Cache) : Cache :=
  mkCache (<[s := p]> (parts c)) (size c) (waiting c) (closed c).

Inductive pop_outcome :=
| PopParked
| PopDrained
| PopJob (j : Job) (refill : bool) (c : Cache).

Definition Pop (c : Cache) : pop_outcome :=
  if bool_decide (totalLen (parts c) = 0%nat) && negb (closed c) then PopParked
  else match bestPartition (parts c) with
       | None => PopDrained
       | Some (s, p) =>
           match take_front p with
           | None => PopDrained
           | Some (j, p') => PopJob j (needRefill p') (put_part s p' c)
           end
       end.

Inductive wait_outcome := WaitParked | WaitClosed | WaitShard (s : Z).

Definition WaitForWork (c : Cache) : wait_outcome :=
  if bool_decide (totalLen (parts c) = 0%nat) && negb (closed c) then WaitParked
  else if closed c then WaitClosed
  else WaitShard (match bestPartition (parts c) with Some (s, _) => s | None => 0 end).

Definition TryPopFrom (s : Z) (c : Cache) : option (Job * bool * Cache) :=
  if closed c then None else
  match parts c !! s with
  | None => None
  | Some p =>
      match take_front p with
      | None => None
      | Some (j, p') => Some (j, needRefill p', put_part s p' c)
      end
  end.

Definition PeekShard (c : Cache) : option Z :=
  if closed c then None else fst <$> bestPartition (parts c).

(** ** Refill and Offer *)

Definition part_of (s : Z) (c : Cache) : partition :=
  default new_partition (parts c !! s).

Definition with_priority (f : Z) (j : Job) : Job := mkJob (StepID j) (Shard j) f.

(** Returns the discard count, how many waiters are signalled, and the cache. *)
Definition Refill (s : Z) (batch : list Job) (fl : Z) (c : Cache) : Z * nat * Cache :=
  if closed c then (0, 0%nat, c) else
  let p := part_of s c in
  let discarded := Z.of_nat (length (items p)) - offered p in
  let p' := mkPartition (with_priority fl <$> batch) (length batch) 0 fl in
  (discarded, Nat.min (length batch) (waiting c), put_part s p' c).

Definition Offer (j : Job) (priority : Z) (c : Cache) : bool * Cache :=
  if closed c then (false, c) else
  let p := part_of (Shard j) c in
  let j' := with_priority priority j in
  if bool_decide (items p = []) then
    (true, put_part (Shard j)
       (mkPartition [j'] (lastFill p) (offered p + 1) priority) c)
  else if bool_decide (floor p < priority) then
    (false, put_part (Shard j) p c)
  else if bool_decide (totalLen (parts c) < size c)%nat then
    (true, put_part (Shard j)
       (mkPartition (items p ++ [j']) (lastFill p) (offered p + 1) (band p)) c)
  else (false, put_part (Shard j) p c).

Definition Len (c : Cache) : nat := totalLen (parts c).

Definition Close (c : Cache) : Cache := mkCache (parts c) (size c) (waiting c) true.

(** ** Facts about selection *)

Lemma displaces_spec b sp :
  displaces b sp = true ↔
  floor sp.2 < floor b.2 ∨
  (floor sp.2 = floor b.2 ∧ (length (items b.2) < length (items sp.2))%nat) ∨
  (floor sp.2 = floor b.2 ∧ length (items sp.2) = length (items b.2) ∧ sp.1 < b.1).
Proof.
  unfold displaces. rewrite !orb_true_iff, !andb_true_iff, !bool_decide_eq_true. tauto.
Qed.

Lemma displaces_false b sp :
  displaces b sp = false ↔ ¬ displaces b sp = true.
Proof. by rewrite not_true_iff_false. Qed.

(** What one pass over the partitions has established. *)
Definition best_so_far (l : list (Z * partition)) (init r : option (Z * partition)) : Prop :=
  match r with
  | None => init = None ∧ ∀ sp, sp ∈ l → items sp.2 = []
  | Some b =>
      items b.2 ≠ [] ∧ (init = Some b ∨ b ∈ l) ∧
      (∀ sp, sp ∈ l → items sp.2 ≠ [] → displaces b sp = false) ∧
      (∀ b0, init = Some b0 → displaces b b0 = false)
  end.

Lemma displaces_irrefl b : displaces b b = false.
Proof. rewrite displaces_false, displaces_spec. lia. Qed.

Lemma displaces_negtrans a b c :
  displaces b a = false → displaces c b = false → displaces c a = false.
Proof. rewrite !displaces_false, !displaces_spec. lia. Qed.

Lemma displaces_asym a b : displaces a b = true → displaces b a = false.
Proof. rewrite displaces_false, !displaces_spec. lia. Qed.

Lemma fold_pick_best l init :
  (∀ b, init = Some b → items b.2 ≠ []) →
  best_so_far l init (fold_left pick_best l init).
Proof.
  revert init. induction l as [|sp l IH]; intros init Hinit; simpl.
  { destruct init as [b|]; simpl; [|set_solver].
    repeat split; [by apply Hinit | by left | set_solver |].
    intros ? [= ->]. apply displaces_irrefl. }
  unfold pick_best at 2. case_bool_decide as Hne.
  { specialize (IH init Hinit).
    destruct (fold_left pick_best l init) as [b|]; simpl in *; [|set_solver].
    set_solver. }
  destruct init as [b0|].
  - destruct (displaces b0 sp) eqn:Hd.
    + specialize (IH (Some sp) ltac:(naive_solver)).
      destruct (fold_left pick_best l (Some sp)) as [b|]; simpl in *; [|naive_solver].
      destruct IH as (Hb & Hor & Hl & Hi).
      assert (displaces b sp = false) by by apply Hi.
      split_and!; [done | set_solver | |].
      * intros sp' [->|?]%elem_of_cons ?; [done | by apply Hl].
      * intros ? [= ->]. eauto using displaces_negtrans, displaces_asym.
    + specialize (IH (Some b0) Hinit).
      destruct (fold_left pick_best l (Some b0)) as [b|]; simpl in *; [|naive_solver].
      destruct IH as (Hb & Hor & Hl & Hi). split_and!; [done | set_solver | | done].
      intros sp' [->|?]%elem_of_cons ?; [|by apply Hl].
      eauto using displaces_negtrans.
  - specialize (IH (Some sp) ltac:(naive_solver)).
    destruct (fold_left pick_best l (Some sp)) as [b|]; simpl in *; [|naive_solver].
    destruct IH as (Hb & Hor & Hl & Hi). split_and!; [done | set_solver | | done].
    intros sp' [->|?]%elem_of_cons ?; [by apply Hi | by apply Hl].
Qed.

Lemma bestPartition_best ps s p :
  bestPartition ps = Some (s, p) →
  ps !! s = Some p ∧ items p ≠ [] ∧
  ∀ s' p', ps !! s' = Some p' → items p' ≠ [] → displaces (s, p) (s', p') = false.
Proof.
  intros Hb. pose proof (fold_pick_best (map_to_list ps) None ltac:(done)) as H.
  fold (bestPartition ps) in H. rewrite Hb in H. destruct H as (? & [?|Hin] & Hl & _); [done|].
  apply elem_of_map_to_list in Hin. split_and!; [done..|].
  intros s' p' Hs'. by apply (Hl (s', p')), elem_of_map_to_list.
Qed.

Lemma bestPartition_none ps :
  bestPartition ps = None ↔ ∀ s p, ps !! s = Some p → items p = [].
Proof.
  pose proof (fold_pick_best (map_to_list ps) None ltac:(done)) as H.
  fold (bestPartition ps) in H. destruct (bestPartition ps) as [[s p]|]; simpl in *.
  - destruct H as (Hne & [?|Hin] & _); [done|]. split; [done|].
    intros Hall. apply elem_of_map_to_list in Hin. by destruct Hne; eapply Hall.
  - split; [|done]. intros _ s p Hsp. destruct H as [_ H].
    by apply (H (s, p)), elem_of_map_to_list.
Qed.

Lemma elem_of_shards_of ps s : s ∈ shards_of ps ↔ is_Some (ps !! s).
Proof.
  unfold shards_of. rewrite list_elem_of_fmap. split.
  - intros ([s' p] & -> & Hin%elem_of_map_to_list). by exists p.
  - intros [p Hp]. exists (s, p). by rewrite elem_of_map_to_list.
Qed.

Lemma NoDup_shards_of ps : NoDup (shards_of ps).
Proof. apply NoDup_fst_map_to_list. Qed.

Lemma totalLen_zero ps :
  totalLen ps = 0%nat ↔ ∀ s p, ps !! s = Some p → items p = [].
Proof.
  unfold totalLen. split.
  - intros H s p Hp. pose proof (sum_list_with_elem (depth ps) (shards_of ps) s
      (proj2 (elem_of_shards_of ps s) ltac:(by exists p))) as Hd.
    unfold depth in Hd at 1. rewrite Hp in Hd. apply nil_length_inv. lia.
  - intros H. apply sum_list_with_zero. intros s _. unfold depth.
    destruct (ps !! s) as [p|] eqn:Hp; [|done]. by rewrite (H s p Hp).
Qed.

(** ** The cache as a state machine *)

Inductive cache_op :=
| OpOffer (j : Job) (priority : Z)
| OpRefill (s : Z) (batch : list Job) (fl : Z)
| OpPop
| OpTryPop (s : Z)
| OpResize (workers : Z)
| OpClose.

(** The batch a supplier pushes for a shard holds that shard's jobs. *)
Definition op_pre (o : cache_op) : Prop :=
  match o with
  | OpRefill s batch _ => Forall (λ j, Shard j = s) batch
  | _ => True
  end.

Definition apply_op (o : cache_op) (c : Cache) : Cache :=
  match o with
  | OpOffer j priority => (Offer j priority c).2
  | OpRefill s batch fl => (Refill s batch fl c).2
  | OpPop => match Pop c with PopJob _ _ c' => c' | _ => c end
  | OpTryPop s => match TryPopFrom s c with Some (_, _, c') => c' | None => c end
  | OpResize workers => Resize workers c
  | OpClose => Close c
  end.

Definition is_resize (o : cache_op) : bool :=
  match o with OpResize _ => true | _ => false end.

Definition apply_ops : list cache_op → Cache → Cache := fold_left (flip apply_op).

(** A pop takes the head of one partition. *)
Lemma take_front_Some p j p' :
  take_front p = Some (j, p') →
  items p = j :: items p' ∧ lastFill p' = lastFill p ∧ band p' = band p ∧
  offered p' = (if decide (Z.of_nat (length (items p)) ≤ offered p)
                then offered p - 1 else offered p).
Proof.
  unfold take_front. destruct (items p) as [|j' rest] eqn:Hi; [done|].
  intros [= <- <-]. simpl. split_and!; [done..|].
  case_bool_decide; by case_decide.
Qed.

Lemma pop_inv c j r c' :
  Pop c = PopJob j r c' →
  ∃ s p p', bestPartition (parts c) = Some (s, p) ∧ parts c !! s = Some p ∧
    take_front p = Some (j, p') ∧ r = needRefill p' ∧ c' = put_part s p' c.
Proof.
  unfold Pop. destruct (_ && _); [done|].
  destruct (bestPartition (parts c)) as [[s p]|] eqn:Hb; [|done].
  destruct (take_front p) as [[j' p']|] eqn:Ht; [|done]. intros [= <- <- <-].
  destruct (bestPartition_best _ _ _ Hb) as [? _]. by exists s, p, p'.
Qed.

Lemma try_pop_inv s c j r c' :
  TryPopFrom s c = Some (j, r, c') →
  closed c = false ∧ ∃ p p', parts c !! s = Some p ∧
    take_front p = Some (j, p') ∧ r = needRefill p' ∧ c' = put_part s p' c.
Proof.
  unfold TryPopFrom. destruct (closed c); [done|].
  destruct (parts c !! s) as [p|]; [|done].
  destruct (take_front p) as [[j' p']|] eqn:Ht; [|done]. intros [= <- <- <-]. eauto 10.
Qed.

Section partition_invariant.
(** A predicate on partitions, indexed by shard, that every operation preserves locally. *)
Context (P : Z → partition → Prop).

Definition all_parts (c : Cache) : Prop := ∀ s p, parts c !! s = Some p → P s p.

Lemma all_parts_put s p c : P s p → all_parts c → all_parts (put_part s p c).
Proof.
  intros Hp Hc s' p'. simpl. rewrite lookup_insert. case_decide; naive_solver.
Qed.

Context (P_new : ∀ s, P s new_partition).

Lemma part_of_ok s c : all_parts c → P s (part_of s c).
Proof. intros Hc. unfold part_of. destruct (parts c !! s) eqn:?; simpl; auto. Qed.

Context (P_take : ∀ s p j p', take_front p = Some (j, p') → P s p → P s p').
Context (P_fill : ∀ s batch fl, Forall (λ j, Shard j = s) batch →
  P s (mkPartition (with_priority fl <$> batch) (length batch) 0 fl)).
Context (P_first : ∀ j p priority, items p = [] → P (Shard j) p →
  P (Shard j) (mkPartition [with_priority priority j] (lastFill p) (offered p + 1) priority)).
Context (P_append : ∀ j p priority, priority ≤ floor p → items p ≠ [] → P (Shard j) p →
  P (Shard j) (mkPartition (items p ++ [with_priority priority j]) (lastFill p)
                 (offered p + 1) (band p))).

Lemma all_parts_offer j priority c : all_parts c → all_parts (Offer j priority c).2.
Proof.
  intros Hc. unfold Offer. destruct (closed c); [done|].
  pose proof (part_of_ok (Shard j) c Hc) as Hp.
  repeat case_bool_decide; simpl; apply all_parts_put; auto.
  apply P_append; [lia|done..].
Qed.

Lemma all_parts_step o c :
  is_resize o = false → op_pre o → all_parts c → all_parts (apply_op o c).
Proof.
  intros Hr Hpre Hc. destruct o as [j pr|s b fl| |s|w|]; simpl in *.
  - by apply all_parts_offer.
  - unfold Refill. destruct (closed c); [done|]. apply all_parts_put; auto.
  - destruct (Pop c) eqn:Hp; [done..|].
    apply pop_inv in Hp as (s & p & p' & _ & ? & ? & _ & ->). apply all_parts_put; eauto.
  - destruct (TryPopFrom s c) as [[[j r] c']|] eqn:Hp; [|done].
    apply try_pop_inv in Hp as (_ & p & p' & ? & ? & _ & ->). apply all_parts_put; eauto.
  - done.
  - exact Hc.
Qed.

Context (P_trim : ∀ s n p, P s p → P s (trim n p)).

Lemma all_parts_resize w c : all_parts c → all_parts (Resize w c).
Proof.
  intros Hc. unfold Resize. destruct (closed c); [done|]. case_decide; [done|].
  intros s p. simpl. rewrite map_lookup_imap.
  destruct (parts c !! s) as [p0|] eqn:Hp; simpl; [|done]. intros [= <-]. eauto.
Qed.
End partition_invariant.

(** *** Routing and strict priority inside a partition *)

(** Every candidate sits in its own shard's partition, at a band no worse than the one the
    partition advertises. *)
Definition part_served (s : Z) (p : partition) : Prop :=
  Forall (λ j, Shard j = s ∧ Priority j ≤ band p) (items p).

Lemma floor_nonempty p : items p ≠ [] → floor p = band p.
Proof. intros. unfold floor. by rewrite bool_decide_false by done. Qed.

Lemma part_served_take s p j p' :
  take_front p = Some (j, p') → part_served s p → part_served s p'.
Proof.
  intros (Hi & _ & Hb & _)%take_front_Some. unfold part_served. rewrite Hi, Hb.
  by intros [_ ?]%Forall_cons.
Qed.

Lemma part_served_append s p j priority :
  s = Shard j → priority ≤ band p → part_served s p →
  part_served s (mkPartition (items p ++ [with_priority priority j]) (lastFill p)
                   (offered p + 1) (band p)).
Proof.
  intros -> Hp Hs. unfold part_served. simpl.
  apply Forall_app. split; [done|]. by apply Forall_singleton.
Qed.

Lemma part_served_trim s n p : part_served s p → part_served s (trim n p).
Proof.
  unfold part_served, trim. case_decide; simpl; [|done]. apply Forall_take.
Qed.

Lemma served_step o c :
  op_pre o → all_parts part_served c → all_parts part_served (apply_op o c).
Proof.
  intros Hpre Hc.
  destruct (is_resize o) eqn:Hno.
  { destruct o; try done. simpl. by apply all_parts_resize; [apply part_served_trim|]. }
  apply all_parts_step; [by constructor | by apply part_served_take | | | | done..].
  - intros s b fl Hb. unfold part_served. simpl. apply Forall_fmap.
    eapply Forall_impl; [done|]. simpl. intros j <-. split; [done|lia].
  - intros j p pr _ _. unfold part_served. simpl. by apply Forall_singleton.
  - intros j p pr Hle Hne Hp. apply part_served_append; [done| |done].
    by rewrite <-floor_nonempty.
Qed.

(** *** The offered count *)

(** [offered] counts resident candidates: the invariant the discard signal relies on. *)
Definition part_counted (s : Z) (p : partition) : Prop :=
  0 ≤ offered p ≤ Z.of_nat (length (items p)).

Lemma counted_step o c :
  is_resize o = false → op_pre o →
  all_parts part_counted c → all_parts part_counted (apply_op o c).
Proof.
  intros Hno Hpre Hc. unfold part_counted in *.
  apply all_parts_step; simpl; [done| | | | |done..].
  - intros _ p j p' (Hi & _ & _ & Ho)%take_front_Some. rewrite Hi in *.
    simpl in *. rewrite Ho. case_decide; lia.
  - intros ? b ? ?. lia.
  - intros j p ? Hi Hp. rewrite Hi in Hp. simpl in *. lia.
  - intros j p ? ? ? Hp. rewrite length_app. simpl. lia.
Qed.

Lemma all_parts_init P w c : all_parts P (Init w c).
Proof. intros s p. simpl. by rewrite lookup_empty. Qed.

Lemma apply_ops_ind (Q : Cache → Prop) (R : cache_op → Prop) ops c :
  (∀ o c, R o → Q c → Q (apply_op o c)) → Forall R ops → Q c → Q (apply_ops ops c).
Proof.
  intros Hstep Hops. revert c. unfold apply_ops.
  induction Hops as [|o ops Ho _ IH]; simpl; [done|]. intros c Hc. apply IH, Hstep; done.
Qed.

Lemma totalLen_put ps s p p' :
  ps !! s = Some p →
  (totalLen (<[s := p']> ps) + length (items p) = totalLen ps + length (items p'))%nat.
Proof.
  intros Hp. unfold totalLen.
  assert (shards_of (<[s:=p']> ps) ≡ₚ shards_of ps) as Hperm.
  { apply NoDup_Permutation; [apply NoDup_shards_of..|]. intros s'.
    rewrite !elem_of_shards_of, lookup_insert_is_Some'.
    split; [intros [->|]; [by exists p|done] | by right]. }
  rewrite (sum_list_with_Permutation _ _ _ Hperm).
  rewrite (sum_list_with_ext _ (<[s := length (items p')]> (depth ps))).
  2:{ intros s' _. unfold depth. destruct (decide (s = s')) as [->|].
      - by rewrite lookup_insert_eq, fn_lookup_insert.
      - by rewrite lookup_insert_ne, fn_lookup_insert_ne. }
  pose proof (sum_list_with_insert (depth ps) s (length (items p')) (shards_of ps)
    (NoDup_shards_of ps) ltac:(by apply elem_of_shards_of; exists p)) as H.
  unfold depth in H at 2. rewrite Hp in H. lia.
Qed.

Lemma pop_blocks c :
  Pop c = (if bool_decide (totalLen (parts c) = 0%nat)
           then if closed c then PopDrained else PopParked
           else Pop c).
Proof.
  case_bool_decide as H; [|done]. unfold Pop. rewrite bool_decide_true by done.
  destruct (closed c); simpl; [|done].
  by rewrite (proj2 (bestPartition_none _) (proj1 (totalLen_zero _) H)).
Qed.

Lemma pop_some c :
  totalLen (parts c) ≠ 0%nat → ∃ j r c', Pop c = PopJob j r c'.
Proof.
  intros Hne. unfold Pop. rewrite bool_decide_false by done. simpl.
  destruct (bestPartition (parts c)) as [[s p]|] eqn:Hb.
  - apply bestPartition_best in Hb as (_ & Hi & _). unfold take_front.
    destruct (items p); [done|]. eauto.
  - destruct Hne. by apply totalLen_zero, bestPartition_none.
Qed.

(** Trimming to the targets keeps, in every partition, a prefix of at most its depth, and the
    prefixes add up to the bound. *)
Lemma resize_targets_le ps sz s :
  (sz ≤ totalLen ps)%nat → (0 < totalLen ps)%nat → (resize_targets ps sz s ≤ depth ps s)%nat.
Proof.
  intros Hsz Hpos. unfold resize_targets.
  rewrite (sum_list_with_Permutation _ (merge_sort _ _) (shards_of ps))
    by apply merge_sort_Permutation.
  by apply apportion_le.
Qed.

Lemma resize_targets_sum ps sz :
  (sz ≤ totalLen ps)%nat → (0 < totalLen ps)%nat →
  sum_list_with (resize_targets ps sz) (shards_of ps) = sz.
Proof.
  intros Hsz Hpos. unfold resize_targets.
  rewrite (sum_list_with_Permutation _ (merge_sort Z.le (shards_of ps)) (shards_of ps))
    by apply merge_sort_Permutation.
  apply apportion_sum; [done..|apply NoDup_shards_of|].
  by rewrite !merge_sort_Permutation.
Qed.

Lemma length_trim n p : (n ≤ length (items p))%nat → length (items (trim n p)) = n.
Proof. intros. unfold trim. case_decide; simpl; [rewrite length_take|]; lia. Qed.

Lemma items_trim n p : (n ≤ length (items p))%nat → items (trim n p) = take n (items p).
Proof. intros. unfold trim. case_decide; simpl; [done|]. by rewrite take_ge by lia. Qed.

Lemma depth_trim_all ps (t : Z → nat) s :
  (∀ s, t s ≤ depth ps s)%nat →
  depth (map_imap (λ s p, Some (trim (t s) p)) ps) s = t s.
Proof.
  intros Ht. specialize (Ht s). unfold depth in *. rewrite map_lookup_imap.
  destruct (ps !! s) as [p|]; simpl in *; [by apply length_trim | lia].
Qed.

Lemma totalLen_trim_all ps (t : Z → nat) :
  (∀ s, t s ≤ depth ps s)%nat →
  totalLen (map_imap (λ s p, Some (trim (t s) p)) ps) = sum_list_with t (shards_of ps).
Proof.
  intros Ht. unfold totalLen.
  assert (shards_of (map_imap (λ s p, Some (trim (t s) p)) ps) ≡ₚ shards_of ps) as Hperm.
  { apply NoDup_Permutation; [apply NoDup_shards_of..|]. intros s.
    rewrite !elem_of_shards_of, map_lookup_imap. destruct (ps !! s); simpl.
    - split; eauto.
    - by split; intros [? ?]. }
  rewrite (sum_list_with_Permutation _ _ _ Hperm). apply sum_list_with_ext.
  intros s _. by apply depth_trim_all.
Qed.

Lemma bound_of_pos w : (0 < bound_of w)%nat.
Proof. unfold bound_of. lia. Qed.

(** ** Properties *)

(** [Pop] serves strict priority: it parks exactly when nothing is buffered and the cache is
    open, and otherwise takes the head of a partition whose floor no other non-empty partition
    beats (deeper partitions first on a tie), leaving every other partition alone. *)
Theorem pop_serves_lowest_floor (c : Cache) :
  match Pop c with
  | PopParked => totalLen (parts c) = 0%nat ∧ closed c = false
  | PopDrained => totalLen (parts c) = 0%nat ∧ closed c = true
  | PopJob j _ c' =>
      ∃ s p p', parts c !! s = Some p ∧ parts c' = <[s := p']> (parts c) ∧
        items p = j :: items p' ∧ totalLen (parts c) = S (totalLen (parts c')) ∧
        ∀ s' q, parts c !! s' = Some q → items q ≠ [] →
          floor p ≤ floor q ∧
          (floor p = floor q → length (items q) ≤ length (items p))%nat
  end.
Proof.
  destruct (decide (totalLen (parts c) = 0%nat)) as [Hz|Hnz].
  { rewrite pop_blocks, bool_decide_true by done. by destruct (closed c). }
  destruct (pop_some c Hnz) as (j & r & c' & Hp). rewrite Hp.
  apply pop_inv in Hp as (s & p & p' & Hb & Hs & Ht & _ & ->).
  apply take_front_Some in Ht as (Hi & _). exists s, p, p'. split_and!; [done..| |].
  - pose proof (totalLen_put (parts c) s p p' Hs) as H. rewrite Hi in H. simpl in *. lia.
  - intros s' q Hq Hne. apply bestPartition_best in Hb as (_ & _ & Hb).
    specialize (Hb s' q Hq Hne). rewrite displaces_false, displaces_spec in Hb.
    simpl in Hb. lia.
Qed.

(** From [Init], whatever sequence of offers, refills, pops, resizes and closes ran, a popped
    candidate is never worse than the band any partition advertises, and it is a job of the
    shard whose partition it came from. *)
Theorem popped_job_respects_bands (w : Z) (c0 : Cache) (ops : list cache_op) j r c' :
  Forall op_pre ops →
  Pop (apply_ops ops (Init w c0)) = PopJob j r c' →
  let c := apply_ops ops (Init w c0) in
  is_Some (parts c !! Shard j) ∧
  ∀ s q, parts c !! s = Some q → items q ≠ [] → Priority j ≤ floor q.
Proof.
  intros Hops Hp. simpl.
  assert (all_parts part_served (apply_ops ops (Init w c0))) as Hc.
  { eapply apply_ops_ind; [|exact Hops|apply all_parts_init]. intros. by apply served_step. }
  set (c := apply_ops ops (Init w c0)) in *.
  apply pop_inv in Hp as (s & p & p' & Hb & Hs & Ht & _ & _).
  pose proof (Hc s p Hs) as Hsv. unfold part_served in Hsv.
  apply take_front_Some in Ht as (Hi & _). rewrite Hi in Hsv.
  apply Forall_cons in Hsv as [[<- Hpr] _]. split; [by exists p|].
  intros s' q Hq Hne. apply bestPartition_best in Hb as (_ & Hpne & Hb).
  specialize (Hb s' q Hq Hne). rewrite displaces_false, displaces_spec in Hb.
  simpl in Hb. rewrite (floor_nonempty p Hpne) in Hb. lia.
Qed.

Lemma popped_job_respects_bands_witness :
  Forall op_pre [OpRefill 1 [mkJob 7 1 0] 5; OpOffer (mkJob 9 2 0) 3] ∧
  Priority (mkJob 9 2 3) ≤ 5.
Proof.
  assert (Forall op_pre [OpRefill 1 [mkJob 7 1 0] 5; OpOffer (mkJob 9 2 0) 3]) as H.
  { repeat constructor. }
  split; [exact H|].
  refine (proj2 (popped_job_respects_bands 2 (mkCache ∅ 0 0 false)
    [OpRefill 1 [mkJob 7 1 0] 5; OpOffer (mkJob 9 2 0) 3] (mkJob 9 2 3) _ _ H _)
    1 (mkPartition [mkJob 7 1 5] 1 0 5) _ _).
  - vm_compute. reflexivity.
  - vm_compute. reflexivity.
  - discriminate.
Defined.

(** [Resize] below the buffered total trims to exactly the new bound: the depths add up to
    it, every partition keeps a prefix of its candidates in order, and no partition is added,
    dropped or grown.  An open cache within the bound only has its bound changed. *)
Theorem resize_trims_to_bound (w : Z) (c : Cache) :
  closed c = false →
  let c' := Resize w c in
  size c' = bound_of w ∧
  totalLen (parts c') = Nat.min (totalLen (parts c)) (bound_of w) ∧
  ∀ s, match parts c !! s, parts c' !! s with
       | Some p, Some p' => band p' = band p ∧ ∃ n, items p' = take n (items p)
       | None, None => True
       | _, _ => False
       end.
Proof.
  intros Hcl. unfold Resize. rewrite Hcl. pose proof (bound_of_pos w).
  case_decide as Hle; simpl.
  { split_and!; [done|lia|]. intros s. destruct (parts c !! s) as [p|]; [|done].
    split; [done|]. exists (length (items p)). by rewrite firstn_all. }
  assert (∀ s, resize_targets (parts c) (bound_of w) s ≤ depth (parts c) s)%nat as Hle'
    by (intros; apply resize_targets_le; lia).
  split_and!; [done| |].
  - rewrite totalLen_trim_all, resize_targets_sum by (done || lia). lia.
  - intros s. rewrite map_lookup_imap. specialize (Hle' s). unfold depth in Hle'.
    destruct (parts c !! s) as [p|]; simpl in *; [|done].
    split; [unfold trim; by case_decide|]. eexists. by apply items_trim.
Qed.

Lemma resize_trims_to_bound_witness :
  closed (mkCache {[ 1 := mkPartition [mkJob 1 1 0; mkJob 2 1 0; mkJob 3 1 0] 3 0 0 ]} 8 0 false)
    = false ∧
  totalLen (parts (Resize 1
    (mkCache {[ 1 := mkPartition [mkJob 1 1 0; mkJob 2 1 0; mkJob 3 1 0] 3 0 0 ]} 8 0 false)))
    = 2%nat.
Proof.
  split; [reflexivity|].
  rewrite (proj1 (proj2 (resize_trims_to_bound 1
    (mkCache {[ 1 := mkPartition [mkJob 1 1 0; mkJob 2 1 0; mkJob 3 1 0] 3 0 0 ]} 8 0 false)
    eq_refl))).
  vm_compute. reflexivity.
Defined.

(** As long as the cache is not resized, the discard count a refill reports is the number of
    the refiller's own candidates left un-popped: it is never negative and never exceeds the
    depth of the partition it replaces. *)
Theorem refill_discard_bounds (w : Z) (c0 : Cache) (ops : list cache_op) s batch fl :
  Forall (λ o, op_pre o ∧ is_resize o = false) ops →
  let c := apply_ops ops (Init w c0) in
  0 ≤ (Refill s batch fl c).1.1 ≤ Z.of_nat (length (items (part_of s c))).
Proof.
  intros Hops. simpl.
  assert (all_parts part_counted (apply_ops ops (Init w c0))) as Hc.
  { eapply apply_ops_ind; [|exact Hops|apply all_parts_init].
    simpl. intros ? ? [? ?]. by apply counted_step. }
  pose proof (part_of_ok part_counted ltac:(done) s _ Hc) as [? ?].
  unfold Refill. destruct (closed _); simpl; lia.
Qed.

Lemma refill_discard_bounds_witness :
  Forall (λ o, op_pre o ∧ is_resize o = false)
    [OpRefill 1 [mkJob 7 1 0; mkJob 8 1 0] 5; OpOffer (mkJob 9 1 0) 3] ∧
  0 ≤ (Refill 1 [] 5 (apply_ops
    [OpRefill 1 [mkJob 7 1 0; mkJob 8 1 0] 5; OpOffer (mkJob 9 1 0) 3]
    (Init 2 (mkCache ∅ 0 0 false)))).1.1.
Proof.
  assert (Forall (λ o, op_pre o ∧ is_resize o = false)
    [OpRefill 1 [mkJob 7 1 0; mkJob 8 1 0] 5; OpOffer (mkJob 9 1 0) 3]) as H.
  { repeat constructor. }
  split; [exact H|].
  exact (proj1 (refill_discard_bounds 2 (mkCache ∅ 0 0 false) _ 1 [] 5 H)).
Defined.

(** The code's claim that the count is exact does not survive [Resize]: trimming drops
    offered candidates from the tail without lowering [offered], so a later refill reports a
    negative discard count. *)
Theorem resize_breaks_discard_count :
  ∃ w ops s, Forall op_pre ops ∧
    (Refill s [] 0 (apply_ops ops (Init w (mkCache ∅ 0 0 false)))).1.1 < 0.
Proof.
  exists 2, [OpOffer (mkJob 1 1 0) 5; OpOffer (mkJob 2 1 0) 5; OpOffer (mkJob 3 1 0) 5;
    OpOffer (mkJob 4 1 0) 5; OpResize 1], 1.
  split; [repeat constructor|]. vm_compute. reflexivity.
Qed.

(** [Offer] on an open cache, branch by branch: an empty partition always admits and takes
    the offered band; a worse band is declined; otherwise the job is appended exactly when a
    slot is free.  An admission adds exactly one candidate, a decline none. *)
Theorem offer_admission (j : Job) (priority : Z) (c : Cache) :
  closed c = false →
  let p := part_of (Shard j) c in
  let p' := part_of (Shard j) (Offer j priority c).2 in
  (Offer j priority c).1 =
    (bool_decide (items p = [])
     || (bool_decide (priority ≤ floor p) && bool_decide (totalLen (parts c) < size c)%nat)) ∧
  items p' = items p ++
    (if (Offer j priority c).1 then [with_priority priority j] else []) ∧
  band p' = (if bool_decide (items p = []) then priority else band p) ∧
  (∀ s, s ≠ Shard j → parts (Offer j priority c).2 !! s = parts c !! s).
Proof.
  intros Hcl. simpl. unfold Offer. rewrite Hcl.
  set (p := part_of (Shard j) c).
  assert (∀ q, part_of (Shard j) (put_part (Shard j) q c) = q) as Hput.
  { intros q. unfold part_of. simpl. by rewrite lookup_insert_eq. }
  assert (∀ q s, s ≠ Shard j → parts (put_part (Shard j) q c) !! s = parts c !! s) as Hne.
  { intros q s Hs. simpl. by rewrite lookup_insert_ne. }
  case_bool_decide as Hi; simpl.
  { rewrite Hput, Hi. split_and!; first [done | apply Hne]. }
  destruct (decide (floor p < priority)) as [Hlt|Hge].
  { rewrite bool_decide_true by done. simpl. rewrite Hput, (bool_decide_false (priority ≤ _))
      by lia. simpl. rewrite app_nil_r.
    split_and!; first [done | apply Hne]. }
  rewrite bool_decide_false by done. rewrite (bool_decide_true (priority ≤ _)) by lia. simpl.
  case_bool_decide; simpl; rewrite Hput; split_and!; try apply Hne; try done.
  by rewrite app_nil_r.
Qed.

Lemma offer_admission_witness :
  closed (mkCache ∅ 0 0 false) = false ∧ (Offer (mkJob 1 1 0) 5 (mkCache ∅ 0 0 false)).1 = true.
Proof.
  split; [reflexivity|].
  rewrite (proj1 (offer_admission (mkJob 1 1 0) 5 (mkCache ∅ 0 0 false) eq_refl)).
  vm_compute. reflexivity.
Defined.
