(* ===== verification/Planner.v ===== *)
(** * The planner ([internal/planner/planner.go], [internal/planner/pick.go])

    Merges every shard's last report into the global priority band, runs the weighted fairness
    lottery over its keys, and routes the resulting order to shards.  A [Tally]'s [Count] counts
    due steps and is a [nat]; ages and weights are [float64].  [math.Pow] and the random source
    are parameters of the lottery. *)

From S2P Require Import Prelude Apportion Float64.

#[local] Open Scope Z_scope.

Record Tally := mkTally { Key : string; Weight : float64; AgeMs : float64; Count : nat }.

(** One shard's last report. *)
Record shardTally := mkShardTally {
  st_band : Z;
  tallies : list Tally;
  byKey : gmap string nat  (* key -> index into [tallies] *)
}.

Definition entry : Type := Z * shardTally.

Record keyAgg := mkKeyAgg { key : string; weight : float64; ageMs : float64; count : nat }.

(** ** merge *)

(** The globally minimal band among shards with due work. *)
Definition lower_band (b : Z) (e : entry) : Z :=
  if bool_decide (0 < length (tallies e.2))%nat && bool_decide (st_band e.2 < b)
  then st_band e.2 else b.
Definition merge_band (entries : list entry) : Z := fold_left lower_band entries MaxInt.

(** Folding one tally into the per-key aggregates, which remember their insertion order. *)
Definition merge_tally (acc : list string * gmap string keyAgg) (t : Tally)
  : list string * gmap string keyAgg :=
  match acc.2 !! Key t with
  | None => (acc.1 ++ [Key t],
             <[Key t := mkKeyAgg (Key t) (Weight t) (AgeMs t) (Count t)]> acc.2)
  | Some agg =>
      let older := flt (ageMs agg) (AgeMs t) in
      (acc.1,
       <[Key t := mkKeyAgg (key agg) (if older then Weight t else weight agg)
                    (if older then AgeMs t else ageMs agg) (count agg + Count t)]> acc.2)
  end.

Definition at_band (band : Z) (entries : list entry) : list Tally :=
  concat ((λ e, if bool_decide (st_band e.2 = band) then tallies e.2 else []) <$> entries).

Definition merge (entries : list entry) : Z * list keyAgg :=
  let band := merge_band entries in
  if bool_decide (band = MaxInt) then (band, []) else
  let acc := fold_left merge_tally (at_band band entries) ([], ∅) in
  (band, omap (λ k, acc.2 !! k) acc.1).

(** ** pick *)

Section pick.
(** [math.Pow] and the stream of [randFloat()] results. *)
Context (pow : float64 → float64 → float64) (rnd : nat → float64).

(** One slot: draw for every key that has steps left and keep the highest score. *)
Fixpoint draw (krs : list (keyAgg * nat)) (i pos : nat) (best : option nat)
    (bestScore : float64) : nat * option nat :=
  match krs with
  | [] => (pos, best)
  | (k, r) :: krs =>
      if decide (r ≤ 0)%nat then draw krs (S i) pos best bestScore else
      let score := pow (rnd pos) (fdiv f1 (weight k)) in
      if flt bestScore score then draw krs (S i) (S pos) (Some i) score
      else draw krs (S i) (S pos) best bestScore
  end.

(** [for len(order) < capacity]: every iteration appends one key or breaks. *)
Fixpoint pick_loop (slots : nat) (keys : list keyAgg) (remaining : list nat) (pos : nat)
  : list string :=
  match slots with
  | O => []
  | S slots =>
      match draw (zip keys remaining) 0 pos None (of_int (-1)) with
      | (pos, Some best) =>
          match keys !! best with
          | Some k => key k :: pick_loop slots keys (alter Nat.pred best remaining) pos
          | None => []
          end
      | (_, None) => []
      end
  end.

Definition pick (keys : list keyAgg) (capacity : nat) : list string :=
  pick_loop capacity keys (count <$> keys) 0.
End pick.

(** ** slice *)

Record holder := mkHolder { h_shard : Z; h_count : nat; h_age : float64 }.

(** The shards holding key [k] at the band, in shard order. *)
Definition holders_of (k : string) (band : Z) (entries : list entry) : list holder :=
  omap (λ e : entry,
    if bool_decide (st_band e.2 = band) then
      i ← byKey e.2 !! k;
      t ← tallies e.2 !! i;
      Some (mkHolder e.1 (Count t) (AgeMs t))
    else None) entries.

(** The index of the oldest holder: a strict comparison keeps the lower shard on a tie. *)
Definition oldest_holder (hs : list holder) : nat :=
  fold_left (λ best i,
    match hs !! best, hs !! i with
    | Some b, Some h => if flt (h_age b) (h_age h) then i else best
    | _, _ => best
    end) (seq 1 (length hs - 1)) 0%nat.

(** The comparator of [sort.SliceStable] over indices. *)
Definition share_before (rem : nat → nat) (a b : nat) : Prop :=
  (rem b < rem a)%nat ∨ (rem a = rem b ∧ (a ≤ b)%nat).
#[export] Instance share_before_dec rem a b : Decision (share_before rem a b).
Proof. unfold share_before. apply _. Defined.

Section quotas.
Context (n : nat) (hs : list holder).

Definition idx : list nat := seq 0 (length hs).
Definition count_at (i : nat) : nat := default 0%nat (h_count <$> hs !! i).
Definition head_quota (i : nat) : nat := if decide (i = oldest_holder hs) then 1 else 0.
Definition avail (i : nat) : nat := (count_at i - head_quota i)%nat.
Definition totalAvail : nat := sum_list_with avail idx.
Definition rem : nat := Nat.min (n - 1) totalAvail.

(** The proportional split of the slots after the first. *)
Definition base : nat → nat :=
  if decide (0 < rem)%nat then
    let t := floor_share avail idx rem in
    let order := merge_sort (share_before (remainder avail idx rem)) idx in
    (hand_out avail rem order (sum_list_with t idx) t).2
  else λ _, 0%nat.

Definition quota (i : nat) : nat := (head_quota i + base i)%nat.

(** Per-occurrence assignment: the oldest holder first, then the rest in shard order. *)
Definition key_seq : list Z :=
  match hs !! oldest_holder hs with
  | None => []
  | Some o =>
      h_shard o :: concat (imap (λ i h, replicate (quota i - head_quota i) (h_shard h)) hs)
  end.
End quotas.

(** The sequence of shards that own a key's occurrences in [order]. *)
Definition assign (order : list string) (entries : list entry) (band : Z) (k : string) : list Z :=
  key_seq (occ k order) (holders_of k band entries).

(** Replays the global order keeping one shard's occurrences. *)
Fixpoint replay (asg : string → list Z) (shard : Z) (order : list string)
    (taken : string → nat) (seen : gset string) : list string * list string :=
  match order with
  | [] => ([], [])
  | k :: order =>
      let o := taken k in
      let taken := <[k := S o]> taken in
      if bool_decide (asg k !! o = Some shard) then
        let '(slots, keys) := replay asg shard order taken ({[k]} ∪ seen) in
        (k :: slots, if bool_decide (k ∈ seen) then keys else k :: keys)
      else replay asg shard order taken seen
  end.

Definition slice (order : list string) (entries : list entry) (band shard : Z)
  : list string * list string * nat :=
  let needed := remove_dups order in
  let asg := assign order entries band in
  let mine k := occ shard (asg k) in
  let perKeyCap := max_list (mine <$> needed) in
  if bool_decide (sum_list_with mine needed = 0%nat) then ([], [], 0%nat) else
  let '(slots, keys) := replay asg shard order (λ _, 0%nat) ∅ in
  (slots, keys, perKeyCap).

(** ** The planner *)

Record Planner := mkPlanner { shards : gmap Z shardTally; lastBand : Z; lastKeys : nat }.

Definition Reset (p : Planner) : Planner := mkPlanner ∅ (-1) 0.

(** A non-positive weight is normalized to 1. *)
Definition normalize_tally (t : Tally) : Tally :=
  if fle (Weight t) f0 then mkTally (Key t) f1 (AgeMs t) (Count t) else t.

Definition index_tallies (ts : list Tally) : gmap string nat :=
  fold_left (λ m it, <[Key it.2 := it.1]> m) (imap pair ts) ∅.

Definition Planner_Tally (shard bnd : Z) (ts : list Tally) (p : Planner) : Planner :=
  let ts := normalize_tally <$> ts in
  mkPlanner (<[shard := mkShardTally bnd ts (index_tallies ts)]> (shards p))
    (lastBand p) (lastKeys p).

Definition Planner_Clear (shard : Z) (p : Planner) : Planner :=
  mkPlanner (delete shard (shards p)) (lastBand p) (lastKeys p).

Definition entry_before (a b : entry) : Prop := a.1 ≤ b.1.
#[export] Instance entry_before_dec a b : Decision (entry_before a b).
Proof. unfold entry_before. apply _. Defined.

Definition snapshot (p : Planner) : list entry :=
  merge_sort entry_before (map_to_list (shards p)).

Definition tallied (entries : list entry) (shard : Z) : bool :=
  bool_decide (shard ∈ entries.*1).

Record Plan := mkPlan {
  Tallied : bool;
  GlobalBand : Z;
  Slots : list string;
  Keys : list string;
  PerKeyCap : nat
}.

Definition Planner_Plan (pow : float64 → float64 → float64) (rnd : nat → float64)
    (shard capacity : Z) (p : Planner) : Plan * Planner :=
  let entries := snapshot p in
  let '(globalBand, keys) := merge entries in
  let observed := if bool_decide (keys = []) then -1 else globalBand in
  let p := mkPlanner (shards p) observed (length keys) in
  if bool_decide (keys = []) || bool_decide (capacity ≤ 0)
  then (mkPlan (tallied entries shard) globalBand [] [] 0, p)
  else
    let '(slots, ks, cap) :=
      slice (pick pow rnd keys (Z.to_nat capacity)) entries globalBand shard in
    (mkPlan (tallied entries shard) globalBand slots ks cap, p).

Definition LastBand (p : Planner) : Z * nat := (lastBand p, lastKeys p).

(** ** Facts about merge *)

Lemma lower_band_cases b e :
  (tallies e.2 ≠ [] ∧ st_band e.2 < b ∧ lower_band b e = st_band e.2) ∨
  (lower_band b e = b ∧ (tallies e.2 ≠ [] → b ≤ st_band e.2)).
Proof.
  unfold lower_band. destruct (tallies e.2) as [|t ts]; simpl; [by right|].
  case_bool_decide; [left|right]; split_and!; try done. lia.
Qed.

Lemma merge_band_spec entries :
  (∀ e, e ∈ entries → tallies e.2 ≠ [] → merge_band entries ≤ st_band e.2) ∧
  (merge_band entries = MaxInt ∨
   ∃ e, e ∈ entries ∧ tallies e.2 ≠ [] ∧ st_band e.2 = merge_band entries) ∧
  merge_band entries ≤ MaxInt.
Proof.
  unfold merge_band. induction entries as [|e entries (Hle & Hor & Hmax)] using rev_ind.
  { simpl. split_and!; [set_solver|by left|lia]. }
  rewrite fold_left_app. simpl.
  destruct (lower_band_cases (fold_left lower_band entries MaxInt) e)
    as [(Hne & Hlt & ->)|(-> & Hge)].
  - split_and!; [|right; exists e; set_solver|lia].
    intros e' [Hin| ->%list_elem_of_singleton]%elem_of_app ?; [|lia].
    specialize (Hle e' Hin ltac:(done)). lia.
  - split_and!; [|destruct Hor as [?|(? & ? & ?)]; [by left|right; set_solver]|lia].
    intros e' [Hin| ->%list_elem_of_singleton]%elem_of_app ?; [by apply Hle|by apply Hge].
Qed.

(** The tallies of one key, and what an aggregate says about them. *)
Definition of_key (k : string) (ts : list Tally) : list Tally := filter (λ t, Key t = k) ts.

Definition agg_of (ts : list Tally) (k : string) (a : keyAgg) : Prop :=
  key a = k ∧
  count a = sum_list_with Count (of_key k ts) ∧
  ∃ t, t ∈ of_key k ts ∧ weight a = Weight t ∧ ageMs a = AgeMs t ∧
    ((∀ t', t' ∈ of_key k ts → is_nan (AgeMs t') = false) →
     ∀ t', t' ∈ of_key k ts → flt (AgeMs t) (AgeMs t') = false).

Definition merge_inv (ts : list Tally) (acc : list string * gmap string keyAgg) : Prop :=
  NoDup acc.1 ∧ (∀ k, k ∈ acc.1 ↔ is_Some (acc.2 !! k)) ∧
  (∀ k, k ∈ acc.1 ↔ k ∈ Key <$> ts) ∧
  (∀ k a, acc.2 !! k = Some a → agg_of ts k a).

Lemma of_key_snoc k ts t :
  of_key k (ts ++ [t]) = of_key k ts ++ (if decide (Key t = k) then [t] else []).
Proof. unfold of_key. rewrite filter_app, filter_cons, filter_nil. by case_decide. Qed.

Lemma agg_of_other ts t k a : Key t ≠ k → agg_of ts k a → agg_of (ts ++ [t]) k a.
Proof. intros Hne. unfold agg_of. by rewrite of_key_snoc, decide_False, app_nil_r. Qed.

Lemma agg_of_first ts t :
  of_key (Key t) ts = [] →
  agg_of (ts ++ [t]) (Key t) (mkKeyAgg (Key t) (Weight t) (AgeMs t) (Count t)).
Proof.
  intros Hnil. unfold agg_of. rewrite of_key_snoc, decide_True, Hnil by done. simpl.
  split_and!; [done|lia|]. exists t. split_and!; [set_solver|done..|].
  intros _ t' ->%list_elem_of_singleton. apply flt_irrefl.
Qed.

Lemma agg_of_again ts t a :
  agg_of ts (Key t) a →
  agg_of (ts ++ [t]) (Key t)
    (let older := flt (ageMs a) (AgeMs t) in
     mkKeyAgg (key a) (if older then Weight t else weight a)
       (if older then AgeMs t else ageMs a) (count a + Count t)).
Proof.
  intros (Hk & Hc & t0 & Ht0 & Hw & Ha & Hmax). unfold agg_of.
  rewrite of_key_snoc, decide_True by done. simpl.
  split_and!; [done|rewrite sum_list_with_app; simpl; lia|]. rewrite Ha.
  destruct (flt (AgeMs t0) (AgeMs t)) eqn:Hlt.
  - exists t. split_and!; [set_solver|done..|]. intros Hnan t' Ht'.
    apply elem_of_app in Ht' as [Ht'| ->%list_elem_of_singleton]; [|apply flt_irrefl].
    apply flt_negtrans with (AgeMs t0);
      [apply Hnan; set_solver| |apply Hmax; [|done]; intros; apply Hnan; set_solver].
    apply not_true_iff_false. intros H. pose proof (flt_trans _ _ _ Hlt H).
    by rewrite flt_irrefl in *.
  - exists t0. split_and!; [set_solver|done..|]. intros Hnan t' Ht'.
    apply elem_of_app in Ht' as [Ht'| ->%list_elem_of_singleton]; [|done].
    apply Hmax; [|done]. intros; apply Hnan; set_solver.
Qed.

Lemma merge_tally_inv ts acc t : merge_inv ts acc → merge_inv (ts ++ [t]) (merge_tally acc t).
Proof.
  intros (Hnd & Hdom & Hkeys & Hagg). unfold merge_tally.
  destruct (acc.2 !! Key t) as [a|] eqn:Ha; simpl.
  - assert (Key t ∈ acc.1) as Hin by (apply Hdom; by exists a).
    split_and!; [done| | |]; simpl.
    + intros k. rewrite Hdom, lookup_insert_is_Some'. naive_solver.
    + intros k. rewrite fmap_app, elem_of_app. simpl. rewrite list_elem_of_singleton.
      rewrite <-Hkeys. naive_solver.
    + intros k b. rewrite lookup_insert. case_decide as Hk.
      * subst k. intros [= <-]. by apply agg_of_again, Hagg.
      * intros Hb. by apply agg_of_other; [|apply Hagg].
  - assert (Key t ∉ acc.1) as Hnin by (rewrite Hdom, Ha; by intros [? ?]).
    split_and!; simpl.
    + apply NoDup_app. split_and!; [done|set_solver|apply NoDup_singleton].
    + intros k. rewrite elem_of_app, list_elem_of_singleton, lookup_insert_is_Some', Hdom.
      naive_solver.
    + intros k. rewrite fmap_app, !elem_of_app. simpl. by rewrite Hkeys.
    + intros k b. rewrite lookup_insert. case_decide as Hk.
      * subst k. intros [= <-]. apply agg_of_first.
        destruct (of_key (Key t) ts) as [|t' l] eqn:Hof; [done|]. destruct Hnin.
        assert (t' ∈ of_key (Key t) ts) as [<- Ht']%list_elem_of_filter
          by (rewrite Hof; by left).
        apply Hkeys. by apply list_elem_of_fmap_2.
      * intros Hb. by apply agg_of_other; [|apply Hagg].
Qed.

Lemma merge_fold_inv ts : merge_inv ts (fold_left merge_tally ts ([], ∅)).
Proof.
  induction ts as [|t ts IH] using rev_ind; simpl.
  - split_and!; simpl; [constructor| | |set_solver].
    + intros k. rewrite lookup_empty. split; [set_solver|by intros [? ?]].
    + set_solver.
  - rewrite fold_left_app. by apply merge_tally_inv.
Qed.

(** ** Facts about the lottery *)

Section pick_facts.
Context (pow : float64 → float64 → float64) (rnd : nat → float64).
(** [math.Pow] never goes below zero on a non-negative base: every score beats the initial
    [-1.0]. *)
Context (pow_nonneg : ∀ x w, flt (of_int (-1)) (pow x w) = true).

Lemma draw_spec krs i pos best bs :
  let r := draw pow rnd krs i pos best bs in
  (r.2 = best ∨ ∃ j k c, r.2 = Some (i + j)%nat ∧ krs !! j = Some (k, S c)) ∧
  (is_Some best ∨ bs = of_int (-1) →
   r.2 = None → best = None ∧ Forall (λ kr, kr.2 = 0%nat) krs).
Proof.
  revert i pos best bs. induction krs as [|[k c] krs IH]; intros i pos best bs; simpl.
  { split; [by left|]. intros _ ?. by split. }
  case_decide as Hc.
  { destruct (IH (S i) pos best bs) as [Hor Hnone]. split.
    - destruct Hor as [?|(j & k' & c' & Hr & Hj)]; [by left|].
      right. exists (S j), k', c'. split; [rewrite Hr; f_equal; lia|done].
    - intros Hbs Hn. destruct (Hnone Hbs Hn) as [-> ?]. split; [done|].
      constructor; [simpl; lia|done]. }
  set (score := pow (rnd pos) (fdiv f1 (weight k))).
  destruct c as [|c]; [lia|].
  destruct (flt bs score) eqn:Hlt.
  - destruct (IH (S i) (S pos) (Some i) score) as [Hor Hnone]. split.
    + right. destruct Hor as [Hr|(j & k' & c' & Hr & Hj)].
      * exists 0%nat, k, c. split; [rewrite Hr; f_equal; lia|done].
      * exists (S j), k', c'. split; [rewrite Hr; f_equal; lia|done].
    + intros _ Hn. by destruct (Hnone (or_introl (ex_intro _ i eq_refl)) Hn).
  - destruct (IH (S i) (S pos) best bs) as [Hor Hnone]. split.
    + destruct Hor as [?|(j & k' & c' & Hr & Hj)]; [by left|].
      right. exists (S j), k', c'. split; [rewrite Hr; f_equal; lia|done].
    + intros [[b ->]| ->] Hn; [by destruct (Hnone (or_introl (ex_intro _ b eq_refl)) Hn)|].
      unfold score in Hlt. by rewrite pow_nonneg in Hlt.
Qed.

Lemma sum_alter_pred (l : list nat) j c :
  l !! j = Some (S c) → S (sum_list (alter Nat.pred j l)) = sum_list l.
Proof.
  revert j. induction l as [|x l IH]; intros [|j] Hj; simplify_eq/=; [lia|].
  specialize (IH j Hj). lia.
Qed.

Lemma pick_loop_length slots keys remaining pos :
  length remaining = length keys →
  length (pick_loop pow rnd slots keys remaining pos) = Nat.min slots (sum_list remaining).
Proof.
  revert remaining pos. induction slots as [|slots IH]; intros remaining pos Hlen; [done|].
  simpl. destruct (draw_spec (zip keys remaining) 0 pos None (of_int (-1))) as [Hor Hnone].
  destruct (draw pow rnd (zip keys remaining) 0 pos None (of_int (-1))) as [pos' [b|]] eqn:Hd;
    simpl in *.
  - destruct Hor as [?|(j & k & c & [= ->] & Hj)]; [done|].
    apply lookup_zip_Some in Hj as [Hk Hr]. rewrite Hk. simpl.
    rewrite IH by (by rewrite length_alter).
    by rewrite <-(sum_alter_pred _ _ _ Hr).
  - destruct (Hnone ltac:(by right) eq_refl) as [_ Hall].
    assert (sum_list remaining = 0%nat) as ->; [|lia].
    clear -Hall Hlen. revert keys Hlen Hall.
    induction remaining as [|x l IHl]; intros [|k keys] Hlen Hall; simplify_eq/=; [done|].
    apply Forall_cons in Hall as [Hx Hall]. simpl in *.
    specialize (IHl keys ltac:(done) Hall). lia.
Qed.

(** A key is never drawn more often than it has steps. *)
Lemma pick_loop_occ slots keys remaining pos i k :
  NoDup (key <$> keys) → keys !! i = Some k →
  (occ (key k) (pick_loop pow rnd slots keys remaining pos)
   ≤ default 0 (remaining !! i))%nat.
Proof.
  intros Hnd Hi. revert remaining pos.
  induction slots as [|slots IH]; intros remaining pos; [cbn; lia|]. simpl.
  destruct (draw_spec (zip keys remaining) 0 pos None (of_int (-1))) as [Hor _].
  destruct (draw pow rnd (zip keys remaining) 0 pos None (of_int (-1))) as [pos' [b|]];
    simpl in *; [|cbn; lia].
  destruct Hor as [?|(j & kj & c & [= ->] & Hj)]; [done|].
  apply lookup_zip_Some in Hj as [Hk Hr]. rewrite Hk, occ_cons.
  specialize (IH (alter Nat.pred j remaining) pos').
  destruct (decide (i = j)) as [->|Hne].
  - rewrite list_lookup_alter_eq, Hr in IH. rewrite Hr. simpl in *. case_decide; lia.
  - rewrite list_lookup_alter_ne in IH by done. rewrite decide_False; [done|].
    intros Heq. apply Hne. eapply (NoDup_lookup (key <$> keys)); [done| |].
    + by rewrite list_lookup_fmap, Hi.
    + by rewrite list_lookup_fmap, Hk, Heq.
Qed.

Lemma pick_loop_in slots keys remaining pos s :
  s ∈ pick_loop pow rnd slots keys remaining pos → s ∈ key <$> keys.
Proof.
  revert remaining pos. induction slots as [|slots IH]; intros remaining pos; simpl;
    [set_solver|].
  destruct (draw _ _ _ _ _ _ _) as [pos' [b|]]; [|set_solver].
  destruct (keys !! b) as [k|] eqn:Hk; [|set_solver].
  intros [->|?]%elem_of_cons; [|by eapply IH].
  apply list_elem_of_fmap_2. by eapply list_elem_of_lookup_2.
Qed.
End pick_facts.

(** ** Facts about the slice rule *)

Lemma sum_list_with_seq_S (f : nat → nat) a n :
  sum_list_with f (seq (S a) n) = sum_list_with (f ∘ S) (seq a n).
Proof. revert a. induction n as [|n IH]; intros a; simpl; [done|]. by rewrite IH. Qed.

Lemma length_spread (f : nat → nat) (hs : list holder) :
  length (concat (imap (λ i h, replicate (f i) (h_shard h)) hs))
  = sum_list_with f (seq 0 (length hs)).
Proof.
  revert f. induction hs as [|h hs IH]; intros f; simpl; [done|].
  rewrite length_app, length_replicate. rewrite sum_list_with_seq_S, <-IH. done.
Qed.

Lemma occ_spread_notin (f : nat → nat) (hs : list holder) s :
  s ∉ h_shard <$> hs → occ s (concat (imap (λ i h, replicate (f i) (h_shard h)) hs)) = 0%nat.
Proof.
  revert f. induction hs as [|h hs IH]; intros f Hs; simpl; [done|].
  rewrite occ_app, occ_replicate, decide_False by set_solver. simpl.
  apply (IH (f ∘ S)). set_solver.
Qed.

Lemma occ_spread (f : nat → nat) (hs : list holder) i h :
  NoDup (h_shard <$> hs) → hs !! i = Some h →
  occ (h_shard h) (concat (imap (λ i h, replicate (f i) (h_shard h)) hs)) = f i.
Proof.
  revert f i. induction hs as [|h' hs IH]; intros f [|i] Hnd Hi; simplify_eq/=;
    apply NoDup_cons in Hnd as [Hh Hnd]; rewrite occ_app, occ_replicate.
  - rewrite decide_True by done. rewrite (occ_spread_notin (f ∘ S)) by done. lia.
  - rewrite decide_False.
    + simpl. by apply (IH (f ∘ S)).
    + intros Heq. apply Hh. rewrite <-Heq. apply list_elem_of_fmap_2.
      by eapply list_elem_of_lookup_2.
Qed.

Lemma sum_count_at hs : sum_list_with (count_at hs) (idx hs) = sum_list_with h_count hs.
Proof.
  unfold idx, count_at. induction hs as [|h hs IH]; simpl; [done|].
  rewrite sum_list_with_seq_S. unfold compose. simpl. lia.
Qed.

(** The running choice of the oldest holder, as a running maximum over indices. *)
Definition age_at (hs : list holder) (i : nat) : float64 :=
  default (S754_zero false) (h_age <$> hs !! i).

Lemma oldest_holder_fold hs l b :
  (b < length hs)%nat → (∀ i, i ∈ l → i < length hs)%nat →
  fold_left (λ best i,
    match hs !! best, hs !! i with
    | Some b, Some h => if flt (h_age b) (h_age h) then i else best
    | _, _ => best
    end) l b = fold_left (keep_max (age_at hs)) l b.
Proof.
  revert b. induction l as [|i l IH]; intros b Hb Hl; [done|].
  destruct (lookup_lt_is_Some_2 hs b Hb) as [hb Hhb].
  destruct (lookup_lt_is_Some_2 hs i (Hl i ltac:(set_solver))) as [hi Hhi].
  cbn [fold_left]. rewrite Hhb, Hhi.
  assert (keep_max (age_at hs) b i = if flt (h_age hb) (h_age hi) then i else b) as Hk.
  { unfold keep_max, age_at. by rewrite Hhb, Hhi. }
  rewrite Hk. apply IH; [|set_solver].
  destruct (flt _ _); [apply Hl; set_solver|done].
Qed.

Lemma oldest_holder_spec hs :
  hs ≠ [] →
  (oldest_holder hs < length hs)%nat ∧
  (Forall (λ h, is_nan (h_age h) = false) hs →
   ∀ i, (i < length hs)%nat → flt (age_at hs (oldest_holder hs)) (age_at hs i) = false).
Proof.
  intros Hne. assert (0 < length hs)%nat as Hlen by (destruct hs; [done|simpl; lia]).
  assert (∀ i, i ∈ seq 1 (length hs - 1) ↔ (1 ≤ i < length hs)%nat) as Hseq.
  { intros i. rewrite elem_of_seq. lia. }
  unfold oldest_holder. rewrite oldest_holder_fold by (try lia; intros ? ?%Hseq; lia).
  destruct (keep_max_spec (age_at hs) (seq 1 (length hs - 1)) 0%nat) as [Hor Hmax].
  split; [destruct Hor as [->|?%Hseq]; lia|].
  intros Hnan i Hi.
  assert (∀ j, (j < length hs)%nat → is_nan (age_at hs j) = false) as Hnan'.
  { intros j Hj. destruct (lookup_lt_is_Some_2 hs j Hj) as [h Hh].
    unfold age_at. rewrite Hh. simpl. exact (Forall_lookup_1 _ _ _ _ Hnan Hh). }
  apply Hmax; [by apply Hnan'|intros ? ?%Hseq; apply Hnan'; lia|].
  destruct i; [by left|right]. apply Hseq. lia.
Qed.

Section quota_facts.
Context (n : nat) (hs : list holder) (Hne : hs ≠ [])
  (Hcount : Forall (λ h, 1 ≤ h_count h)%nat hs).

Lemma count_at_oldest : (1 ≤ count_at hs (oldest_holder hs))%nat.
Proof.
  destruct (oldest_holder_spec hs Hne) as [Hlt _].
  destruct (lookup_lt_is_Some_2 hs _ Hlt) as [h Hh]. unfold count_at. rewrite Hh. simpl.
  exact (Forall_lookup_1 _ _ _ _ Hcount Hh).
Qed.

Lemma totalAvail_counts : S (totalAvail hs) = sum_list_with h_count hs.
Proof.
  rewrite <-sum_count_at. unfold totalAvail.
  destruct (oldest_holder_spec hs Hne) as [Hlt _]. pose proof count_at_oldest as Hc.
  pose proof (sum_list_with_insert (count_at hs) (oldest_holder hs)
    (count_at hs (oldest_holder hs) - 1) (idx hs) (NoDup_seq _ _)
    ltac:(apply elem_of_seq; lia)) as Hins.
  rewrite (sum_list_with_ext (avail hs) (<[oldest_holder hs :=
    (count_at hs (oldest_holder hs) - 1)%nat]> (count_at hs))); [lia|].
  intros i _. unfold avail, head_quota. case_decide as Hi.
  - subst i. by rewrite fn_lookup_insert.
  - rewrite fn_lookup_insert_ne by done. lia.
Qed.

Lemma base_sum : sum_list_with (base n hs) (idx hs) = rem n hs.
Proof.
  unfold base. case_decide as Hr.
  - assert (rem n hs ≤ total (avail hs) (idx hs))%nat
      by (change (total (avail hs) (idx hs)) with (totalAvail hs); unfold rem; lia).
    apply apportion_sum; [done|lia|apply NoDup_seq|apply merge_sort_Permutation].
  - rewrite sum_list_with_zero by done. lia.
Qed.

Lemma base_le i : (base n hs i ≤ avail hs i)%nat.
Proof.
  unfold base. case_decide as Hr; [|lia].
  assert (rem n hs ≤ total (avail hs) (idx hs))%nat
    by (change (total (avail hs) (idx hs)) with (totalAvail hs); unfold rem; lia).
  apply apportion_le; [done|lia].
Qed.
End quota_facts.

Lemma key_seq_nil n : key_seq n [] = [].
Proof. done. Qed.

Section key_seq_facts.
Context (n : nat) (hs : list holder) (Hne : hs ≠ []).

Lemma quota_extra i : (quota n hs i - head_quota hs i = base n hs i)%nat.
Proof. unfold quota. lia. Qed.

Lemma key_seq_eq :
  ∃ o, hs !! oldest_holder hs = Some o ∧
    key_seq n hs = h_shard o ::
      concat (imap (λ i h, replicate (base n hs i) (h_shard h)) hs).
Proof.
  destruct (oldest_holder_spec hs Hne) as [Hlt _].
  destruct (lookup_lt_is_Some_2 hs _ Hlt) as [o Ho]. exists o. split; [done|].
  unfold key_seq. rewrite Ho. do 2 f_equal. apply imap_ext. intros i h _.
  by rewrite quota_extra.
Qed.

Context (Hcount : Forall (λ h, 1 ≤ h_count h)%nat hs).

Lemma length_key_seq :
  (1 ≤ n)%nat → length (key_seq n hs) = Nat.min n (sum_list_with h_count hs).
Proof.
  intros Hn. destruct key_seq_eq as (o & _ & ->). simpl.
  rewrite length_spread. fold (idx hs). rewrite base_sum.
  pose proof (totalAvail_counts hs Hne Hcount). unfold rem. lia.
Qed.

Context (Hnd : NoDup (h_shard <$> hs)).

Lemma occ_key_seq_le i h :
  hs !! i = Some h → (occ (h_shard h) (key_seq n hs) ≤ h_count h)%nat.
Proof.
  intros Hi. destruct key_seq_eq as (o & Ho & ->). rewrite occ_cons.
  rewrite (occ_spread _ hs i h Hnd Hi). pose proof (base_le n hs i) as Hb.
  unfold avail, count_at, head_quota in Hb. rewrite Hi in Hb. simpl in Hb.
  pose proof (Forall_lookup_1 _ _ _ _ Hcount Hi). simpl in *.
  destruct (decide (i = oldest_holder hs)) as [_|Hio]; [case_decide; lia|].
  rewrite decide_False; [lia|]. intros Hs. apply Hio.
  eapply (NoDup_lookup (h_shard <$> hs)); [done| |].
  - by rewrite list_lookup_fmap, Hi.
  - rewrite list_lookup_fmap, Ho. simpl. by rewrite Hs.
Qed.

Lemma key_seq_shards s : s ∈ key_seq n hs → s ∈ h_shard <$> hs.
Proof.
  destruct key_seq_eq as (o & Ho & ->). intros [->|Hs]%elem_of_cons.
  - apply list_elem_of_fmap_2. by eapply list_elem_of_lookup_2.
  - destruct (decide (s ∈ h_shard <$> hs)) as [|Hn]; [done|].
    pose proof (occ_spread_notin (base n hs) hs s Hn).
    apply occ_pos in Hs. lia.
Qed.
End key_seq_facts.

(** [holders_of] lists each shard at most once, in shard order. *)
Lemma elem_of_holders_of k b entries h :
  h ∈ holders_of k b entries →
  ∃ e i t, e ∈ entries ∧ st_band e.2 = b ∧ byKey e.2 !! k = Some i ∧
    tallies e.2 !! i = Some t ∧ h = mkHolder e.1 (Count t) (AgeMs t).
Proof.
  unfold holders_of. intros (e & He & Hh)%list_elem_of_omap.
  case_bool_decide; [|done].
  destruct (byKey e.2 !! k) as [i|] eqn:Hi; [|done]. simpl in Hh.
  destruct (tallies e.2 !! i) as [t|] eqn:Ht; [|done]. simpl in Hh. naive_solver.
Qed.

Lemma holders_of_shards k b entries :
  (h_shard <$> holders_of k b entries) `sublist_of` entries.*1.
Proof.
  unfold holders_of. induction entries as [|e entries IH]; simpl; [constructor|].
  case_bool_decide; [|by constructor].
  destruct (byKey e.2 !! k) as [i|]; simpl; [|by constructor].
  destruct (tallies e.2 !! i) as [t|]; simpl; by constructor.
Qed.

(** ** Facts about the replay *)

Lemma replay_occ asg s order taken seen k :
  occ k (replay asg s order taken seen).1
  = occ s (take (occ k order) (drop (taken k) (asg k))).
Proof.
  revert taken seen. induction order as [|k' order IH]; intros taken seen; simpl; [done|].
  rewrite occ_cons. destruct (decide (k = k')) as [<-|Hne]; simpl.
  - destruct (asg k !! taken k) as [s'|] eqn:Hs'.
    + rewrite (drop_S _ s' (taken k)) by done. simpl. rewrite occ_cons.
      assert (∀ sn, occ k (replay asg s order (<[k:=S (taken k)]> taken) sn).1
        = occ s (take (occ k order) (drop (S (taken k)) (asg k)))) as Hrec.
      { intros sn. by rewrite IH, fn_lookup_insert. }
      case_bool_decide as Hb.
      * simplify_eq. specialize (Hrec ({[k]} ∪ seen)).
        destruct (replay asg s order _ _) as [sl ks]. simpl in *.
        rewrite occ_cons, !decide_True by done. by rewrite Hrec.
      * rewrite Hrec, decide_False by naive_solver. done.
    + rewrite bool_decide_false by done. rewrite IH, fn_lookup_insert.
      rewrite !drop_ge by (apply lookup_ge_None in Hs'; lia). by rewrite !take_nil.
  - case_bool_decide.
    + specialize (IH (<[k':=S (taken k')]> taken) ({[k']} ∪ seen)).
      destruct (replay asg s order _ _) as [sl ks]. simpl in *.
      rewrite occ_cons, decide_False by done. by rewrite IH, fn_lookup_insert_ne.
    + by rewrite IH, fn_lookup_insert_ne.
Qed.

Lemma replay_sublist asg s order taken seen :
  (replay asg s order taken seen).1 `sublist_of` order.
Proof.
  revert taken seen. induction order as [|k order IH]; intros taken seen; simpl; [constructor|].
  case_bool_decide; [|by constructor].
  specialize (IH (<[k:=S (taken k)]> taken) ({[k]} ∪ seen)).
  destruct (replay asg s order _ _). by constructor.
Qed.

Lemma replay_keys asg s order taken seen :
  let r := replay asg s order taken seen in
  NoDup r.2 ∧ ∀ k, k ∈ r.2 ↔ k ∈ r.1 ∧ k ∉ seen.
Proof.
  revert taken seen. induction order as [|k order IH]; intros taken seen; simpl.
  { split; [constructor|set_solver]. }
  case_bool_decide; [|apply IH].
  specialize (IH (<[k:=S (taken k)]> taken) ({[k]} ∪ seen)).
  destruct (replay asg s order _ _) as [sl ks]. simpl in *. destruct IH as [Hnd Hin].
  case_bool_decide as Hk.
  - split; [done|]. intros k'. rewrite Hin. set_solver.
  - split; [apply NoDup_cons; split; [rewrite Hin; set_solver|done]|]. intros k'.
    rewrite !elem_of_cons, Hin, not_elem_of_union, not_elem_of_singleton.
    destruct (decide (k' = k)) as [->|]; tauto.
Qed.

(** ** What a slice promises *)

Lemma slice_slots_eq order entries b s :
  (slice order entries b s).1.1
  = (replay (assign order entries b) s order (λ _, 0%nat) ∅).1.
Proof.
  unfold slice. set (asg := assign order entries b).
  pose proof (replay_occ asg s order (λ _, 0%nat) ∅) as Hocc.
  case_bool_decide as Hz.
  - simpl. destruct (replay asg s order (λ _, 0%nat) ∅).1 as [|k l] eqn:Hr; [done|].
    pose proof (replay_sublist asg s order (λ _, 0%nat) ∅) as Hsub. rewrite Hr in Hsub.
    assert (k ∈ order) as Hk
      by (apply (elem_of_sublist (k :: l)); [left|done]).
    pose proof (sum_list_with_elem (λ k, occ s (asg k)) (remove_dups order) k
      ltac:(by apply elem_of_remove_dups)) as Hle. simpl in Hle.
    specialize (Hocc k). rewrite occ_cons, decide_True, drop_0 in Hocc by done.
    assert (occ s (take (occ k order) (asg k)) ≤ occ s (asg k))%nat; [|lia].
    rewrite <-(take_drop (occ k order) (asg k)) at 2. rewrite occ_app. lia.
  - by destruct (replay asg s order _ _).
Qed.

Lemma slice_occ order entries b s k :
  occ k (slice order entries b s).1.1
  = occ s (take (occ k order) (key_seq (occ k order) (holders_of k b entries))).
Proof. by rewrite slice_slots_eq, replay_occ, drop_0. Qed.

Lemma slice_keys order entries b s :
  NoDup (slice order entries b s).1.2 ∧
  (∀ k, k ∈ (slice order entries b s).1.2 ↔ k ∈ (slice order entries b s).1.1) ∧
  (∀ k, occ k (slice order entries b s).1.1 ≤ (slice order entries b s).2)%nat.
Proof.
  assert (∀ k, occ k (slice order entries b s).1.1
    ≤ occ s (assign order entries b k))%nat as Hocc.
  { intros k. rewrite slice_occ. unfold assign.
    rewrite <-(take_drop (occ k order) (key_seq _ _)) at 2. rewrite occ_app. lia. }
  assert (∀ k, k ∈ (slice order entries b s).1.1 → k ∈ order) as Hsub.
  { intros k. rewrite slice_slots_eq. apply sublist_subseteq, replay_sublist. }
  pose proof (replay_keys (assign order entries b) s order (λ _, 0%nat) ∅) as Hkeys.
  unfold slice in *. case_bool_decide; simpl in *.
  { split_and!; [constructor|done|intros; cbn; lia]. }
  destruct (replay _ s order _ _) as [sl ks]. simpl in *. destruct Hkeys as [Hnd Hin].
  split_and!; [done|intros k; rewrite Hin; set_solver|]. intros k.
  destruct (decide (k ∈ sl)) as [Hk|Hk].
  - etrans; [apply Hocc|]. apply max_list_elem_of_le,
      (list_elem_of_fmap_2 (λ k, occ s (assign order entries b k))).
    apply elem_of_remove_dups. by apply Hsub.
  - rewrite occ_notin by done. lia.
Qed.

Lemma occ_pos_S k (l : list string) : k ∈ l → (1 ≤ occ k l)%nat.
Proof. rewrite <-occ_pos. lia. Qed.

(** Every occurrence of a key in the order is owned by the shard its sequence names. *)
Lemma slice_occ_seq order entries b s k :
  Forall (λ h, 1 ≤ h_count h)%nat (holders_of k b entries) → k ∈ order →
  occ k (slice order entries b s).1.1
  = occ s (key_seq (occ k order) (holders_of k b entries)).
Proof.
  intros Hc Hk%occ_pos_S. rewrite slice_occ.
  destruct (decide (holders_of k b entries = [])) as [->|Hne]; [by rewrite key_seq_nil, take_nil|].
  rewrite take_ge; [done|]. rewrite length_key_seq by done. lia.
Qed.

Lemma slice_occ_notin order entries b s k :
  k ∉ order → occ k (slice order entries b s).1.1 = 0%nat.
Proof.
  intros Hk. by rewrite slice_occ, (occ_notin k order).
Qed.

(** ** Snapshots *)

#[export] Instance entry_before_trans : Transitive entry_before.
Proof. intros [] [] []. unfold entry_before. simpl. lia. Qed.
#[export] Instance entry_before_total : Total entry_before.
Proof. intros [] []. unfold entry_before. simpl. lia. Qed.

Lemma snapshot_perm p : snapshot p ≡ₚ map_to_list (shards p).
Proof. apply merge_sort_Permutation. Qed.

Lemma elem_of_snapshot p s st : (s, st) ∈ snapshot p ↔ shards p !! s = Some st.
Proof. by rewrite snapshot_perm, elem_of_map_to_list. Qed.

Lemma NoDup_snapshot p : NoDup (snapshot p).*1.
Proof. rewrite snapshot_perm. apply NoDup_fst_map_to_list. Qed.

Lemma tallied_spec p s : tallied (snapshot p) s = true ↔ is_Some (shards p !! s).
Proof.
  unfold tallied. rewrite bool_decide_eq_true, list_elem_of_fmap. split.
  - intros ([s' st] & -> & Hin%elem_of_snapshot). by exists st.
  - intros [st Hst]. exists (s, st). by rewrite elem_of_snapshot.
Qed.

(** *** The invariant reports establish *)

(** A stored report counts at least one step per tally, never has a non-positive weight, lists a
    key once, and its index finds exactly the tally of that key. *)
Definition report_ok (st : shardTally) : Prop :=
  Forall (λ t, 1 ≤ Count t ∧ fle (Weight t) f0 = false)%nat (tallies st) ∧
  NoDup (Key <$> tallies st) ∧
  ∀ k i, byKey st !! k = Some i ↔ ∃ t, tallies st !! i = Some t ∧ Key t = k.

(** What a shard may report: the tallies of distinct keys, each standing for some steps. *)
Definition reportable (ts : list Tally) : Prop :=
  Forall (λ t, 1 ≤ Count t)%nat ts ∧ NoDup (Key <$> ts).

Definition planner_ok (p : Planner) : Prop := ∀ s st, shards p !! s = Some st → report_ok st.

Lemma index_tallies_spec ts k i :
  NoDup (Key <$> ts) →
  index_tallies ts !! k = Some i ↔ ∃ t, ts !! i = Some t ∧ Key t = k.
Proof.
  unfold index_tallies. revert i. induction ts as [|t ts IH] using rev_ind; intros i Hnd.
  { simpl. rewrite lookup_empty. split; [done|by intros (? & ? & _)]. }
  rewrite fmap_app in Hnd. apply NoDup_app in Hnd as (Hnd & Hdisj & _).
  rewrite imap_app, fold_left_app. simpl. rewrite lookup_insert, Nat.add_0_r.
  case_decide as Hk.
  - subst k. split.
    + intros [= <-]. exists t. by rewrite list_lookup_middle.
    + intros (t' & Ht' & Heq). f_equal.
      apply lookup_app_Some in Ht' as [Ht'|[Hlen Ht']].
      * destruct (Hdisj (Key t)); [|set_solver]. rewrite <-Heq. apply list_elem_of_fmap_2.
        by eapply list_elem_of_lookup_2.
      * apply list_lookup_singleton_Some in Ht' as [? _]. lia.
  - rewrite IH by done. split; intros (t' & Ht' & Heq); exists t'; (split; [|done]).
    + by apply lookup_app_l_Some.
    + apply lookup_app_Some in Ht' as [?|[_ Ht']]; [done|].
      apply list_lookup_singleton_Some in Ht' as [_ <-]. done.
Qed.

Lemma Key_normalize t : Key (normalize_tally t) = Key t.
Proof. unfold normalize_tally. by destruct (fle _ _). Qed.

Lemma report_ok_tally b ts :
  reportable ts →
  report_ok (mkShardTally b (normalize_tally <$> ts) (index_tallies (normalize_tally <$> ts))).
Proof.
  intros [Hts Hnd].
  assert (Key <$> (normalize_tally <$> ts) = Key <$> ts) as Heq.
  { rewrite <-list_fmap_compose. apply list_fmap_ext. intros ? ? _. apply Key_normalize. }
  split_and!; simpl; [|by rewrite Heq|intros; apply index_tallies_spec; by rewrite Heq].
  apply Forall_fmap. eapply Forall_impl; [done|]. simpl. intros t Ht.
  unfold normalize_tally. destruct (fle (Weight t) f0) eqn:Hw; simpl; [|done].
  split; [done|]. vm_compute. reflexivity.
Qed.

Lemma planner_ok_tally s b ts p :
  reportable ts → planner_ok p → planner_ok (Planner_Tally s b ts p).
Proof.
  intros Hts Hp s' st. simpl. rewrite lookup_insert. case_decide; [|by apply Hp].
  intros [= <-]. by apply report_ok_tally.
Qed.

Lemma planner_ok_reset p : planner_ok (Reset p).
Proof. intros s st. simpl. by rewrite lookup_empty. Qed.

#[export] Instance reportable_dec ts : Decision (reportable ts).
Proof. unfold reportable. apply _. Defined.

Lemma holders_counts k b p :
  planner_ok p → Forall (λ h, 1 ≤ h_count h)%nat (holders_of k b (snapshot p)).
Proof.
  intros Hp. apply Forall_forall. intros h Hh.
  apply elem_of_holders_of in Hh as ([s st] & i & t & Hin & _ & _ & Ht & ->). simpl in *.
  apply elem_of_snapshot in Hin. destruct (Hp s st Hin) as (Hts & _).
  by destruct (Forall_lookup_1 _ _ _ _ Hts Ht).
Qed.

(** A report's tallies of one key, as the merge sees them, are what the slice rule finds. *)
Lemma of_key_lookup ts k t i :
  NoDup (Key <$> ts) → ts !! i = Some t → Key t = k → of_key k ts = [t].
Proof.
  revert i. induction ts as [|t' ts IH]; intros [|i] Hnd Hi Hk; simplify_eq/=;
    apply NoDup_cons in Hnd as [Hn Hnd]; unfold of_key; rewrite filter_cons.
  - rewrite decide_True by done. f_equal. fold (of_key (Key t) ts).
    destruct (of_key (Key t) ts) as [|t'' l] eqn:E; [done|]. destruct Hn.
    assert (t'' ∈ of_key (Key t) ts) as [<- Hin]%list_elem_of_filter by (rewrite E; by left).
    by apply list_elem_of_fmap_2.
  - rewrite decide_False; [by apply IH with i|]. intros Heq. apply Hn. rewrite Heq.
    apply list_elem_of_fmap_2. by eapply list_elem_of_lookup_2.
Qed.

Lemma of_key_none ts k : k ∉ Key <$> ts → of_key k ts = [].
Proof.
  intros Hk. destruct (of_key k ts) as [|t l] eqn:E; [done|]. destruct Hk.
  assert (t ∈ of_key k ts) as [<- Hin]%list_elem_of_filter by (rewrite E; by left).
  by apply list_elem_of_fmap_2.
Qed.

Lemma of_key_app k l1 l2 : of_key k (l1 ++ l2) = of_key k l1 ++ of_key k l2.
Proof. apply filter_app. Qed.

Lemma at_band_cons b e entries :
  at_band b (e :: entries)
  = (if bool_decide (st_band e.2 = b) then tallies e.2 else []) ++ at_band b entries.
Proof. done. Qed.

Lemma holder_counts_merge k b entries :
  (∀ e, e ∈ entries → report_ok e.2) →
  sum_list_with h_count (holders_of k b entries)
  = sum_list_with Count (of_key k (at_band b entries)).
Proof.
  induction entries as [|[s st] entries IH]; intros Hok; [done|].
  rewrite at_band_cons, of_key_app, sum_list_with_app, <-IH by set_solver. simpl.
  destruct (Hok (s, st) ltac:(left)) as (_ & Hnd & Hidx). simpl in Hnd, Hidx.
  case_bool_decide as Hb; [|done].
  destruct (byKey st !! k) as [i|] eqn:Hi; simpl.
  - destruct (proj1 (Hidx k i) Hi) as (t & Ht & Hk). rewrite Ht. simpl.
    rewrite (of_key_lookup _ k t i) by done. simpl. lia.
  - rewrite of_key_none; [done|].
    intros (t & -> & Hin)%list_elem_of_fmap.
    apply list_elem_of_lookup in Hin as [i Ht].
    rewrite (proj2 (Hidx (Key t) i)) in Hi by eauto. done.
Qed.

(** ** The contract a plan offers to its consumer *)

Class SlotPlan (pl : Plan) : Prop := {
  slot_keys_nodup : NoDup (Keys pl);
  slot_keys : ∀ k, k ∈ Keys pl ↔ k ∈ Slots pl;
  slot_cap : ∀ k, (occ k (Slots pl) ≤ PerKeyCap pl)%nat
}.

Lemma plan_unfold pow rnd s cap p :
  let b := (merge (snapshot p)).1 in let keys := (merge (snapshot p)).2 in
  let sl := slice (pick pow rnd keys (Z.to_nat cap)) (snapshot p) b s in
  (Planner_Plan pow rnd s cap p).1
  = (if bool_decide (keys = []) || bool_decide (cap ≤ 0)
     then mkPlan (tallied (snapshot p) s) b [] [] 0
     else mkPlan (tallied (snapshot p) s) b sl.1.1 sl.1.2 sl.2).
Proof.
  unfold Planner_Plan. destruct (merge (snapshot p)) as [b keys]. simpl.
  destruct (_ || _); [done|]. by destruct (slice _ _ _ _) as [[? ?] ?].
Qed.

#[export] Instance plan_slot_plan pow rnd s cap p : SlotPlan (Planner_Plan pow rnd s cap p).1.
Proof.
  rewrite plan_unfold. destruct (_ || _).
  - split; simpl; [constructor|done|intros; cbn; lia].
  - pose proof (slice_keys (pick pow rnd (merge (snapshot p)).2 (Z.to_nat cap)) (snapshot p)
      (merge (snapshot p)).1 s) as (? & ? & ?). by split.
Qed.

Lemma merge_keys entries :
  (merge entries).1 = merge_band entries ∧
  (merge_band entries = MaxInt → (merge entries).2 = []) ∧
  (merge_band entries ≠ MaxInt →
   NoDup (key <$> (merge entries).2) ∧
   (∀ k, k ∈ key <$> (merge entries).2 ↔ k ∈ Key <$> at_band (merge_band entries) entries) ∧
   (∀ a, a ∈ (merge entries).2 → agg_of (at_band (merge_band entries) entries) (key a) a)).
Proof.
  unfold merge. case_bool_decide as Hm; simpl; [done|]. split_and!; [done..|]. intros _.
  pose proof (merge_fold_inv (at_band (merge_band entries) entries)) as (Hnd & Hdom & Hk & Ha).
  set (acc := fold_left merge_tally _ _) in *.
  assert (∀ l : list string, (∀ k, k ∈ l → is_Some (acc.2 !! k)) →
    key <$> omap (λ k, acc.2 !! k) l = l) as Hkeys.
  { induction l as [|k l IH]; intros Hl; [done|]. simpl.
    destruct (Hl k ltac:(left)) as [a Hak]. rewrite Hak. simpl.
    f_equal; [by destruct (Ha k a Hak)|]. apply IH. set_solver. }
  rewrite Hkeys by (intros; by apply Hdom). split_and!; [done|done|].
  intros a (k & _ & Hka)%list_elem_of_omap. destruct (Ha k a Hka) as [<- ?]. by apply Ha.
Qed.

(** ** Properties *)

(** The merge computes the globally minimal due band, and one aggregate per fairness key at
    it: counts sum over shards, and the weight and age are those of a step no other reported
    step of the key is older than. *)
Theorem merge_is_global (entries : list entry) :
  let b := (merge entries).1 in
  let keys := (merge entries).2 in
  (∀ e, e ∈ entries → tallies e.2 ≠ [] → b ≤ st_band e.2) ∧
  (b = MaxInt ∨ ∃ e, e ∈ entries ∧ tallies e.2 ≠ [] ∧ st_band e.2 = b) ∧
  (b = MaxInt → keys = []) ∧
  (b ≠ MaxInt →
    NoDup (key <$> keys) ∧
    (∀ k, k ∈ key <$> keys ↔ k ∈ Key <$> at_band b entries) ∧
    (∀ a, a ∈ keys → agg_of (at_band b entries) (key a) a)).
Proof.
  simpl. destruct (merge_keys entries) as (-> & Hmax & Hk).
  pose proof (merge_band_spec entries) as (? & ? & _). by split_and!.
Qed.

(** The lottery fills the batch: it returns [capacity] slots, or every step there is when
    fewer are due, draws only known keys, and never draws a key more often than it has steps -
    whatever the random source, as long as a score is never below zero. *)
Theorem pick_fills_batch (pow : float64 → float64 → float64) (rnd : nat → float64)
    (keys : list keyAgg) (capacity : nat) :
  (∀ x w, flt (of_int (-1)) (pow x w) = true) →
  NoDup (key <$> keys) →
  length (pick pow rnd keys capacity) = Nat.min capacity (sum_list_with count keys) ∧
  (∀ k, k ∈ keys → occ (key k) (pick pow rnd keys capacity) ≤ count k)%nat ∧
  (∀ s, s ∈ pick pow rnd keys capacity → s ∈ key <$> keys).
Proof.
  intros Hpow Hnd. unfold pick. split_and!.
  - rewrite (pick_loop_length pow rnd Hpow) by apply length_fmap. f_equal.
    clear Hnd. induction keys as [|k keys IH]; simpl; [done|]. by f_equal.
  - intros k Hk. apply list_elem_of_lookup in Hk as [i Hi].
    pose proof (pick_loop_occ pow rnd Hpow capacity keys (count <$> keys) 0 i k Hnd Hi) as H.
    rewrite list_lookup_fmap, Hi in H. done.
  - intros s. by apply (pick_loop_in pow rnd Hpow).
Qed.

Lemma pick_fills_batch_witness :
  length (pick (λ _ _, f1) (λ _, f0)
    [mkKeyAgg "a" f1 f0 2; mkKeyAgg "b" f1 f0 1] 5) = 3%nat.
Proof.
  refine (proj1 (pick_fills_batch (λ _ _, f1) (λ _, f0)
    [mkKeyAgg "a" f1 f0 2; mkKeyAgg "b" f1 f0 1] 5 _ _)).
  - intros _ _. vm_compute. reflexivity.
  - vm_decide.
Defined.

(** Every operation keeps the planner's reports well formed: a non-positive weight never
    reaches the lottery, and a key's index finds exactly its tally. *)
Theorem planner_ok_preserved (p : Planner) (s : Z) pow rnd cap :
  planner_ok p →
  (∀ b ts, reportable ts → planner_ok (Planner_Tally s b ts p)) ∧
  planner_ok (Planner_Clear s p) ∧ planner_ok (Reset p) ∧
  planner_ok (Planner_Plan pow rnd s cap p).2.
Proof.
  intros Hp. split_and!.
  - intros b ts Hts. by apply planner_ok_tally.
  - intros s' st. simpl. rewrite lookup_delete_Some. intros [_ ?]. by eapply Hp.
  - apply planner_ok_reset.
  - unfold Planner_Plan. destruct (merge _) as [b keys]. destruct (_ || _); [done|].
    by destruct (slice _ _ _ _) as [[? ?] ?].
Qed.

Lemma planner_ok_preserved_witness :
  planner_ok (mkPlanner ∅ (-1) 0) ∧
  planner_ok (Planner_Tally 1 5 [mkTally "a" f0 f1 3] (mkPlanner ∅ (-1) 0)).
Proof.
  assert (planner_ok (mkPlanner ∅ (-1) 0)) as H.
  { exact (planner_ok_reset (mkPlanner ∅ 0 0)). }
  split; [exact H|].
  apply (proj1 (planner_ok_preserved (mkPlanner ∅ (-1) 0) 1 (λ x _, x) (λ _, f0) 1 H)).
  vm_decide.
Defined.

Lemma pick_counts pow rnd p cap k :
  (∀ x w, flt (of_int (-1)) (pow x w) = true) → planner_ok p →
  let b := (merge (snapshot p)).1 in
  (occ k (pick pow rnd (merge (snapshot p)).2 cap)
   ≤ sum_list_with h_count (holders_of k b (snapshot p)))%nat.
Proof.
  intros Hpow Hp b.
  destruct (decide (k ∈ pick pow rnd (merge (snapshot p)).2 cap)) as [Hin|Hn];
    [|rewrite occ_notin by done; lia].
  destruct (merge_keys (snapshot p)) as (Hb' & Hmax & Hkeys).
  rewrite <-Hb' in Hmax, Hkeys. fold b in Hmax, Hkeys.
  destruct (decide (b = MaxInt)) as [Hb|Hb].
  { rewrite (Hmax Hb) in Hin. by destruct cap; apply elem_of_nil in Hin. }
  destruct (Hkeys Hb) as (Hnd & _ & Hagg).
  apply (pick_loop_in pow rnd Hpow) in Hin as (a & -> & Ha)%list_elem_of_fmap.
  destruct (Hagg a Ha) as (_ & Hcount & _). rewrite holder_counts_merge, <-Hcount.
  { apply list_elem_of_lookup in Ha as [i Hi].
    pose proof (pick_loop_occ pow rnd Hpow cap _ (count <$> (merge (snapshot p)).2) 0 i a Hnd Hi)
      as Hocc. by rewrite list_lookup_fmap, Hi in Hocc. }
  intros [s st] Hin%elem_of_snapshot. by apply (Hp s).
Qed.

(** Shards agree on a plan without talking: replaying one order over one snapshot, every
    shard keeps a subsequence, every occurrence of every key is kept by exactly one shard, and no
    shard is handed more of a key than it reported. *)
Theorem slice_covers_plan pow rnd (p : Planner) (cap : nat) (k : string) :
  (∀ x w, flt (of_int (-1)) (pow x w) = true) → planner_ok p →
  let b := (merge (snapshot p)).1 in
  let order := pick pow rnd (merge (snapshot p)).2 cap in
  let slots s := (slice order (snapshot p) b s).1.1 in
  (∀ s, slots s `sublist_of` order) ∧
  sum_list_with (λ s, occ k (slots s)) (snapshot p).*1 = occ k order ∧
  (∀ h, h ∈ holders_of k b (snapshot p) → occ k (slots (h_shard h)) ≤ h_count h)%nat.
Proof.
  intros Hpow Hp b order slots.
  pose proof (holders_counts k b p Hp) as Hc.
  pose proof (holders_of_shards k b (snapshot p)) as Hsub.
  pose proof (NoDup_snapshot p) as Hnd.
  assert (NoDup (h_shard <$> holders_of k b (snapshot p))) as Hndh
    by (eapply sublist_NoDup; done).
  split_and!.
  - intros s. unfold slots. rewrite slice_slots_eq. apply replay_sublist.
  - destruct (decide (k ∈ order)) as [Hk|Hk].
    2:{ rewrite (occ_notin k order) by done. unfold slots.
        apply sum_list_with_zero. intros. by apply slice_occ_notin. }
    pose proof (pick_counts pow rnd p cap k Hpow Hp) as Hle. simpl in Hle. fold b order in Hle.
    pose proof (occ_pos_S k order Hk).
    assert (holders_of k b (snapshot p) ≠ []) as Hne
      by (intros Heq; rewrite Heq in Hle; simpl in Hle; lia).
    unfold slots. rewrite (sum_list_with_ext _
      (λ s, occ s (key_seq (occ k order) (holders_of k b (snapshot p)))))
      by (intros; by apply slice_occ_seq).
    rewrite <-length_sum_occ; [rewrite length_key_seq by done; lia|done|].
    intros s Hs%key_seq_shards; [|done]. by eapply elem_of_sublist.
  - intros h [i Hi]%list_elem_of_lookup. unfold slots.
    destruct (decide (k ∈ order)) as [Hk|Hk]; [|rewrite slice_occ_notin by done; lia].
    rewrite slice_occ_seq by done. eapply occ_key_seq_le; [|done..].
    by intros Heq; rewrite Heq in Hi.
Qed.

Definition demo_planner : Planner :=
  Planner_Tally 2 5 [mkTally "a" f1 f0 1]
    (Planner_Tally 1 5 [mkTally "a" f1 f1 2; mkTally "b" f1 f0 1] (mkPlanner ∅ (-1) 0)).

Lemma demo_planner_ok : planner_ok demo_planner.
Proof.
  unfold demo_planner. apply planner_ok_tally; [by vm_decide|].
  apply planner_ok_tally; [by vm_decide|]. exact (planner_ok_reset (mkPlanner ∅ 0 0)).
Qed.

Lemma slice_covers_plan_witness :
  planner_ok demo_planner ∧
  sum_list_with (λ s, occ "a" (slice (pick (λ _ _, f1) (λ _, f0) (merge (snapshot demo_planner)).2 8)
      (snapshot demo_planner) (merge (snapshot demo_planner)).1 s).1.1)
    (snapshot demo_planner).*1 = 3%nat.
Proof.
  split; [apply demo_planner_ok|].
  rewrite (proj1 (proj2 (slice_covers_plan (λ _ _, f1) (λ _, f0) demo_planner 8 "a"
    ltac:(intros; vm_compute; reflexivity) demo_planner_ok))).
  vm_compute. reflexivity.
Defined.

(** No starvation inside a tenant: the first occurrence of a planned key goes to a shard
    holding one of its oldest steps, however small that shard's share of the key is. *)
Theorem first_slot_to_oldest (p : Planner) (b : Z) (order : list string) (k : string) :
  planner_ok p → holders_of k b (snapshot p) ≠ [] →
  (∀ h, h ∈ holders_of k b (snapshot p) → is_nan (h_age h) = false) →
  ∃ o, o ∈ holders_of k b (snapshot p) ∧
    assign order (snapshot p) b k !! 0%nat = Some (h_shard o) ∧
    ∀ h, h ∈ holders_of k b (snapshot p) → flt (h_age o) (h_age h) = false.
Proof.
  intros Hp Hne Hnan. set (hs := holders_of k b (snapshot p)) in *.
  destruct (key_seq_eq (occ k order) hs Hne) as (o & Ho & Heq).
  exists o. split_and!; [by eapply list_elem_of_lookup_2|by unfold assign; fold hs; rewrite Heq|].
  intros h [i Hi]%list_elem_of_lookup.
  destruct (oldest_holder_spec hs Hne) as [_ Hmax].
  specialize (Hmax ltac:(by apply Forall_forall) i ltac:(by eapply lookup_lt_Some)).
  unfold age_at in Hmax. by rewrite Ho, Hi in Hmax.
Qed.

Lemma first_slot_to_oldest_witness :
  holders_of "a" 5 (snapshot demo_planner) = [mkHolder 1 2 f1; mkHolder 2 1 f0] ∧
  ∃ o, o ∈ holders_of "a" 5 (snapshot demo_planner) ∧
    assign ["a"] (snapshot demo_planner) 5 "a" !! 0%nat = Some (h_shard o).
Proof.
  split; [vm_compute; reflexivity|].
  destruct (first_slot_to_oldest demo_planner 5 ["a"] "a" demo_planner_ok) as (o & ? & ? & _).
  - vm_compute. discriminate.
  - intros h Hh. assert (h ∈ [mkHolder 1 2 f1; mkHolder 2 1 f0]) as Hh' by exact Hh.
    apply elem_of_cons in Hh' as [->|Hh']; [vm_compute; reflexivity|].
    apply elem_of_cons in Hh' as [->|Hh']; [vm_compute; reflexivity|].
    by apply elem_of_nil in Hh'.
  - exists o. split; assumption.
Defined.

(** Strict priority: a shard is handed slots only when it has a live report at the global
    band, no shard with due work has a better band, and only for keys it reported there.  An
    untallied shard is reported as unknown and handed nothing. *)
Theorem plan_respects_band pow rnd (s cap : Z) (p : Planner) :
  planner_ok p →
  let pl := (Planner_Plan pow rnd s cap p).1 in
  Tallied pl = bool_decide (is_Some (shards p !! s)) ∧
  (∀ s' st, shards p !! s' = Some st → tallies st ≠ [] → GlobalBand pl ≤ st_band st) ∧
  (∀ k, k ∈ Slots pl → ∃ st t, shards p !! s = Some st ∧ st_band st = GlobalBand pl ∧
     t ∈ tallies st ∧ Key t = k).
Proof.
  intros Hp. simpl. rewrite plan_unfold.
  set (b := (merge (snapshot p)).1). set (keys := (merge (snapshot p)).2).
  assert (tallied (snapshot p) s = bool_decide (is_Some (shards p !! s))) as Ht.
  { apply eq_bool_prop_intro. rewrite bool_decide_spec, <-tallied_spec. by rewrite Is_true_true. }
  assert (∀ s' st, shards p !! s' = Some st → tallies st ≠ [] → b ≤ st_band st) as Hle.
  { intros s' st Hst Hne. unfold b. rewrite (proj1 (merge_keys _)).
    apply (proj1 (merge_band_spec (snapshot p)) (s', st)); [|done]. by apply elem_of_snapshot. }
  destruct (_ || _); simpl; (split_and!; [done|done|]); [set_solver|].
  set (order := pick pow rnd keys (Z.to_nat cap)). intros k Hk.
  assert (k ∈ order) as Hko.
  { revert Hk. rewrite slice_slots_eq. apply sublist_subseteq, replay_sublist. }
  apply occ_pos in Hk. rewrite slice_occ_seq in Hk by (by apply holders_counts || done).
  apply occ_pos in Hk.
  destruct (decide (holders_of k b (snapshot p) = [])) as [Hnil|Hne];
    [rewrite Hnil, key_seq_nil in Hk; set_solver|].
  apply key_seq_shards in Hk as (h & -> & Hh)%list_elem_of_fmap; [|done].
  apply elem_of_holders_of in Hh as ([s' st] & i & t & Hin & Hb & Hi & Hit & ->).
  apply elem_of_snapshot in Hin. simpl in *. exists st, t. split_and!; [done..| |].
  - by eapply list_elem_of_lookup_2.
  - destruct (Hp s' st Hin) as (_ & _ & Hidx). apply Hidx in Hi as (t' & Ht' & <-). congruence.
Qed.

Lemma plan_respects_band_witness :
  planner_ok demo_planner ∧
  Tallied (Planner_Plan (λ _ _, f1) (λ _, f0) 2 8 demo_planner).1 = true.
Proof.
  split; [apply demo_planner_ok|].
  rewrite (proj1 (plan_respects_band (λ _ _, f1) (λ _, f0) 2 8 demo_planner demo_planner_ok)).
  vm_compute. reflexivity.
Defined.
