(* ===== verification/Pipeline.v ===== *)
(** * The supply pipeline ([internal/pipeline])

    Two independently paced loops per shard: the Tallier publishes what the shard has due into the
    planner, and the Supplier turns the fleet-wide plan into candidates in the shard's cache
    partition.  The database queries ([BandSource.ScanBand], [StepSource.FetchSteps]) are
    parameters: [None] is a failed query.  Wall-clock readings used only for log lines and metrics
    are left out of the results. *)

From S2P Require Import Prelude Float64 Candidates Planner.

#[local] Open Scope Z_scope.

Definition NoBand : Z := MaxInt.

(** ** The pacer ([pacer.go]) *)

Definition Millisecond : Z := 1000000.
Definition DefaultInterval : Z := 50 * Millisecond.
Definition DefaultMinGap : Z := 20 * Millisecond.

(** A [time.Time] that may be the zero time; [Sub] from the zero time saturates. *)
Abbreviation time := (option Z).
Definition maxDuration : Z := 2 ^ 63 - 1.
Definition since (now : Z) (t : time) : Z :=
  match t with Some t => now - t | None => maxDuration end.

Record pacer := mkPacer {
  interval : Z;
  minGap : Z;
  lastStart : time;
  lastEnd : time;
  workStart : Z
}.

Definition pacer_init (p : pacer) : pacer :=
  mkPacer DefaultInterval DefaultMinGap (lastStart p) (lastEnd p) (workStart p).

Definition SetInterval (d : Z) (p : pacer) : pacer :=
  mkPacer (Z.max 0 d) (minGap p) (lastStart p) (lastEnd p) (workStart p).

Definition SetMinGap (d : Z) (p : pacer) : pacer :=
  mkPacer (interval p) (Z.max 0 d) (lastStart p) (lastEnd p) (workStart p).

Definition Period (p : pacer) : Z := Z.max (Z.max (interval p) (minGap p)) DefaultMinGap.

Definition WorkingFor (now : Z) (p : pacer) : Z :=
  if bool_decide (workStart p = 0) then 0 else Z.max 0 (now - workStart p).

(** How long the cadence still owes at [now]. *)
Definition wait (now : Z) (p : pacer) : Z :=
  match lastStart p with
  | None => 0
  | Some _ =>
      let w := Z.max (interval p - since now (lastStart p)) (minGap p - since now (lastEnd p)) in
      if bool_decide (w ≤ 0) then 0 else w
  end.

Definition pacer_begin (now : Z) (p : pacer) : pacer :=
  mkPacer (interval p) (minGap p) (Some now) (lastEnd p) now.

Definition pacer_end (now : Z) (p : pacer) : pacer :=
  mkPacer (interval p) (minGap p) (lastStart p) (Some now) 0.

(** ** The Tallier ([tallier.go]) *)

Inductive pipeline_error := ErrCancelled | ErrTallying | ErrFetching | ErrBadShard.

Record TallyResult := mkTallyResult { tr_band : Z; tr_err : option pipeline_error }.

Definition NewTallier (shard : Z) : result pipeline_error Z :=
  if bool_decide (shard < 1) then Err ErrBadShard else Ok shard.

(** [scan] is what the one query of the cycle returned. *)
Definition Tallier_Cycle (shard : Z) (cancelled : bool) (scan : option (Z * list Tally))
    (p : Planner) : TallyResult * Planner :=
  if cancelled then (mkTallyResult NoBand (Some ErrCancelled), p) else
  match scan with
  | None => (mkTallyResult NoBand (Some ErrTallying), Planner_Clear shard p)
  | Some (b, ts) => (mkTallyResult b None, Planner_Tally shard b ts p)
  end.

(** ** The Supplier ([supplier.go]) *)

(** Walks the slots in order, taking each key's next fetched step. *)
Fixpoint assemble_loop (slots : list string) (steps : gmap string (list Z)) (shard : Z)
    (taken : string → nat) : list Job :=
  match slots with
  | [] => []
  | k :: slots =>
      match default [] (steps !! k) !! taken k with
      | None => assemble_loop slots steps shard taken
      | Some id =>
          mkJob id shard 0 :: assemble_loop slots steps shard (<[k := S (taken k)]> taken)
      end
  end.

Definition assemble (slots : list string) (steps : gmap string (list Z)) (shard : Z) : list Job :=
  assemble_loop slots steps shard (λ _, 0%nat).

Record SupplyResult := mkSupplyResult {
  sr_GlobalBand : Z;
  sr_Selected : nat;
  sr_Discarded : Z;
  sr_Reconciled : bool;
  sr_Err : option pipeline_error
}.

Section supplier.
Context (pow : float64 → float64 → float64) (rnd : nat → float64).
(** [FetchSteps(shard, band, keys, perKey)]. *)
Context (FetchSteps : Z → Z → list string → nat → option (gmap string (list Z))).

Definition push (shard band : Z) (batch : list Job) (floor : Z) (c : Cache)
  : SupplyResult * Cache :=
  let '(discarded, _, c) := Refill shard batch floor c in
  (mkSupplyResult band (length batch) discarded true None, c).

Definition Supplier_run (shard : Z) (p : Planner) (c : Cache)
  : SupplyResult * Planner * Cache :=
  let '(plan, p) := Planner_Plan pow rnd shard (Z.of_nat (Capacity c)) p in
  let band := GlobalBand plan in
  if negb (Tallied plan) then (mkSupplyResult band 0 0 false None, p, c) else
  if bool_decide (Slots plan = []) then
    let '(r, c) := push shard band [] NoBand c in (r, p, c)
  else
    match FetchSteps shard band (Keys plan) (PerKeyCap plan) with
    | None => (mkSupplyResult band 0 0 false (Some ErrFetching), p, c)
    | Some steps =>
        let '(r, c) := push shard band (assemble (Slots plan) steps shard) band c in (r, p, c)
    end.

Definition Supplier_Cycle (shard : Z) (cancelled : bool) (p : Planner) (c : Cache)
  : SupplyResult * Planner * Cache :=
  if cancelled then (mkSupplyResult NoBand 0 0 false (Some ErrCancelled), p, c)
  else Supplier_run shard p c.
End supplier.

(** ** The order a batch comes out in *)

(** What one slot of the plan resolves to, independently of the walk: the [i]-th slot takes the
    step of its key whose rank is the number of earlier slots of the same key. *)
Definition slot_job (slots : list string) (steps : gmap string (list Z)) (shard : Z) (i : nat)
    : option Job :=
  k ← slots !! i;
  id ← default [] (steps !! k) !! occ k (take i slots);
  Some (mkJob id shard 0).

(** The walk's counter stops at the end of a short list; ranks do not.  Both miss from then on. *)
Definition counts (steps : gmap string (list Z)) (seen : list string) (taken : string → nat) : Prop :=
  ∀ k, taken k = Nat.min (occ k seen) (length (default [] (steps !! k))).

Lemma counts_lookup steps seen taken k :
  counts steps seen taken →
  default [] (steps !! k) !! taken k = default [] (steps !! k) !! occ k seen.
Proof.
  intros ->. destruct (Nat.min_spec (occ k seen) (length (default [] (steps !! k)))) as [[? ->]|[? ->]];
    [done|]. rewrite !lookup_ge_None_2; [done|lia..].
Qed.

Lemma assemble_loop_eq steps shard slots seen taken :
  counts steps seen taken →
  assemble_loop slots steps shard taken
  = omap (slot_job (seen ++ slots) steps shard) (seq (length seen) (length slots)).
Proof.
  revert seen taken. induction slots as [|k slots IH]; intros seen taken Hc; [done|].
  assert (slot_job (seen ++ k :: slots) steps shard (length seen)
          = id ← default [] (steps !! k) !! taken k; Some (mkJob id shard 0)) as Hjob.
  { unfold slot_job. rewrite list_lookup_middle by done. simpl.
    by rewrite take_app_length, (counts_lookup steps seen). }
  simpl. rewrite Hjob.
  replace (seen ++ k :: slots) with ((seen ++ [k]) ++ slots) by by rewrite <-app_assoc.
  replace (S (length seen)) with (length (seen ++ [k])) by (rewrite length_app; simpl; lia).
  destruct (default [] (steps !! k) !! taken k) as [id|] eqn:Hid; simpl.
  - f_equal. apply IH. intros k'. rewrite occ_app. unfold occ at 2. rewrite filter_cons.
    apply lookup_lt_Some in Hid. pose proof (Hc k') as Hk'. destruct (decide (k' = k)) as [->|Hne]; simpl.
    + rewrite fn_lookup_insert. lia.
    + rewrite fn_lookup_insert_ne by done. change (length (filter (eq k') [])) with 0%nat. lia.
  - apply IH. intros k'. rewrite occ_app. unfold occ at 2. rewrite filter_cons.
    apply lookup_ge_None_1 in Hid. pose proof (Hc k') as Hk'.
    destruct (decide (k' = k)) as [->|Hne]; simpl; [lia|].
    change (length (filter (eq k') [])) with 0%nat. lia.
Qed.

Lemma assemble_eq slots steps shard :
  assemble slots steps shard = omap (slot_job slots steps shard) (seq 0 (length slots)).
Proof. apply (assemble_loop_eq steps shard slots []). intros k. done. Qed.

Lemma assemble_job slots steps shard j :
  j ∈ assemble slots steps shard →
  Shard j = shard ∧ ∃ k, k ∈ slots ∧ StepID j ∈ default [] (steps !! k).
Proof.
  rewrite assemble_eq. intros (i & _ & Hi)%list_elem_of_omap. unfold slot_job in Hi. simplify_option_eq.
  split; [done|]. eexists. split; by eapply list_elem_of_lookup_2.
Qed.

(** With enough steps for every key, the batch has one job per slot, in slot order. *)
Lemma assemble_full slots steps shard :
  (∀ k, k ∈ slots → (occ k slots ≤ length (default [] (steps !! k)))%nat) →
  Some <$> assemble slots steps shard = slot_job slots steps shard <$> seq 0 (length slots).
Proof.
  intros Hlen. rewrite assemble_eq.
  assert (Forall (λ i, is_Some (slot_job slots steps shard i)) (seq 0 (length slots))) as Hall.
  { apply Forall_forall. intros i [_ Hi]%elem_of_seq. simpl in Hi.
    destruct (lookup_lt_is_Some_2 slots i Hi) as [k Hk]. unfold slot_job. rewrite Hk. simpl.
    destruct (lookup_lt_is_Some_2 (default [] (steps !! k)) (occ k (take i slots))) as [id ->];
      [|by eexists].
    specialize (Hlen k (list_elem_of_lookup_2 _ _ _ Hk)).
    rewrite <-(take_drop_middle _ _ _ Hk), occ_app, occ_cons, decide_True in Hlen by done. lia. }
  induction Hall as [|i l [j Hj] _ IH]; [done|]. csimpl. rewrite Hj. csimpl. by f_equal.
Qed.

(** The [i]-th job of a full batch. *)
Lemma assemble_lookup slots steps shard i k :
  Some <$> assemble slots steps shard = slot_job slots steps shard <$> seq 0 (length slots) →
  slots !! i = Some k →
  ∃ id, default [] (steps !! k) !! occ k (take i slots) = Some id ∧
        assemble slots steps shard !! i = Some (mkJob id shard 0).
Proof.
  intros Hfull Hi.
  assert ((Some <$> assemble slots steps shard) !! i = Some (slot_job slots steps shard i)) as Hb.
  { rewrite Hfull, list_lookup_fmap, lookup_seq_lt by (by eapply lookup_lt_Some). done. }
  rewrite list_lookup_fmap in Hb. unfold slot_job in Hb. rewrite Hi in Hb. simpl in Hb.
  destruct (assemble slots steps shard !! i) as [j|]; [|done]. simpl in Hb.
  destruct (default [] (steps !! k) !! _) as [id|]; [|done]. simplify_eq/=. by exists id.
Qed.

Lemma occ_take_lt (k : string) slots i j :
  slots !! i = Some k → (i < j)%nat → (occ k (take i slots) < occ k (take j slots))%nat.
Proof.
  intros Hi Hlt.
  assert (take j slots = take i slots ++ k :: drop (S i) (take j slots)) as ->.
  { rewrite <-(take_drop_middle (take j slots) i k) at 1 by (by rewrite lookup_take_lt).
    by rewrite take_take, Nat.min_l by lia. }
  rewrite occ_app, occ_cons, decide_True by done. lia.
Qed.

(** A full batch names no step twice. *)
Lemma assemble_NoDup (due : string → list Z) slots steps shard :
  Some <$> assemble slots steps shard = slot_job slots steps shard <$> seq 0 (length slots) →
  length (assemble slots steps shard) = length slots →
  (∀ k, k ∈ slots → NoDup (default [] (steps !! k)) ∧ ∀ id, id ∈ default [] (steps !! k) → id ∈ due k) →
  (∀ k k' id, id ∈ due k → id ∈ due k' → k = k') →
  NoDup (StepID <$> assemble slots steps shard).
Proof.
  intros Hfull Hlen Hst Hkey. apply NoDup_alt. intros i j id Hi Hj.
  rewrite !list_lookup_fmap in Hi, Hj.
  assert (∀ n, StepID <$> assemble slots steps shard !! n = Some id →
            ∃ k, slots !! n = Some k ∧ default [] (steps !! k) !! occ k (take n slots) = Some id) as Hslot.
  { intros n Hn. destruct (slots !! n) as [k|] eqn:Hk.
    - exists k. split; [done|]. destruct (assemble_lookup _ _ _ _ _ Hfull Hk) as (id' & Hid & Hja).
      rewrite Hja in Hn. simpl in Hn. by simplify_eq.
    - apply lookup_ge_None in Hk. rewrite lookup_ge_None_2 in Hn; [done|lia]. }
  destruct (Hslot i Hi) as (k & Hik & Hidk), (Hslot j Hj) as (k' & Hjk & Hidk').
  destruct (Hst k ltac:(by eapply list_elem_of_lookup_2)) as [Hnd Hin].
  destruct (Hst k' ltac:(by eapply list_elem_of_lookup_2)) as [_ Hin'].
  assert (k' = k) as ->.
  { apply (Hkey _ _ id); [apply Hin'|apply Hin]; by eapply list_elem_of_lookup_2. }
  pose proof (NoDup_lookup _ _ _ _ Hnd Hidk Hidk') as Heq.
  destruct (Nat.lt_trichotomy i j) as [H|[H|H]]; [|done|].
  - pose proof (occ_take_lt k slots i j Hik H). lia.
  - pose proof (occ_take_lt k slots j i Hjk H). lia.
Qed.

(** ** The sources the loops read *)

(** What the supplier relies on: for each of the distinct keys it asks for, as many different steps as asked for or as the key
    has due at the band on the shard, all of them due; and a step belongs to one key. *)
Class StepSource (FetchSteps : Z → Z → list string → nat → option (gmap string (list Z)))
    (due : Z → Z → string → list Z) : Prop := {
  fetch_sound : ∀ s b ks n m, NoDup ks → FetchSteps s b ks n = Some m →
    ∀ k, k ∈ ks → NoDup (default [] (m !! k)) ∧ ∀ id, id ∈ default [] (m !! k) → id ∈ due s b k;
  fetch_length : ∀ s b ks n m, NoDup ks → FetchSteps s b ks n = Some m →
    ∀ k, k ∈ ks → length (default [] (m !! k)) = Nat.min n (length (due s b k));
  due_key : ∀ s b k k' id, id ∈ due s b k → id ∈ due s b k' → k = k'
}.

Lemma part_of_put s p c : part_of s (put_part s p c) = p.
Proof. unfold part_of, put_part. simpl. by rewrite lookup_insert_eq. Qed.

Lemma refill_part s batch fl c :
  closed c = false →
  part_of s (Refill s batch fl c).2 = mkPartition (with_priority fl <$> batch) (length batch) 0 fl.
Proof. intros Hc. unfold Refill. rewrite Hc. apply part_of_put. Qed.

Lemma refill_other s s' batch fl c : s' ≠ s → part_of s' (Refill s batch fl c).2 = part_of s' c.
Proof.
  intros Hne. unfold Refill. destruct (closed c); [done|].
  unfold part_of, put_part. simpl. by rewrite lookup_insert_ne.
Qed.

(** ** Properties *)

(** C25. A supply cycle turns the plan into candidates slot for slot.  When the source answers and
    every planned key still has as many steps due as it has slots, the shard's partition ends up
    holding exactly one job per slot, in slot order at the global band: the [i]-th job is a due step
    of the [i]-th slot's key, the fetched one whose rank is the number of earlier slots of that key.
    No step is handed out twice.  The partitions of the other shards are untouched. *)
Theorem supply_fills_plan pow rnd FetchSteps due `{!StepSource FetchSteps due}
    (s : Z) (p : Planner) (c : Cache) steps :
  let pl := (Planner_Plan pow rnd s (Z.of_nat (Capacity c)) p).1 in
  closed c = false → Tallied pl = true → Slots pl ≠ [] →
  FetchSteps s (GlobalBand pl) (Keys pl) (PerKeyCap pl) = Some steps →
  (∀ k, k ∈ Slots pl → (occ k (Slots pl) ≤ length (due s (GlobalBand pl) k))%nat) →
  let '(r, _, c') := Supplier_run pow rnd FetchSteps s p c in
  sr_Reconciled r = true ∧ sr_Err r = None ∧ sr_Selected r = length (Slots pl) ∧
  band (part_of s c') = GlobalBand pl ∧ offered (part_of s c') = 0 ∧
  length (items (part_of s c')) = length (Slots pl) ∧
  (∀ i k, Slots pl !! i = Some k →
     ∃ id, default [] (steps !! k) !! occ k (take i (Slots pl)) = Some id ∧ id ∈ due s (GlobalBand pl) k ∧
       items (part_of s c') !! i = Some (mkJob id s (GlobalBand pl))) ∧
  NoDup (StepID <$> items (part_of s c')) ∧
  ∀ s', s' ≠ s → part_of s' c' = part_of s' c.
Proof.
  pose proof (plan_slot_plan pow rnd s (Z.of_nat (Capacity c)) p) as Hsp.
  unfold Supplier_run. destruct (Planner_Plan _ _ _ _ _) as [pl p']. simpl in *.
  intros Hcl Ht Hne Hf Hdue. rewrite Ht, bool_decide_eq_false_2, Hf by done. simpl.
  assert (∀ k, k ∈ Slots pl → NoDup (default [] (steps !! k)) ∧
            ∀ id, id ∈ default [] (steps !! k) → id ∈ due s (GlobalBand pl) k) as Hst
    by (intros k Hk; apply (fetch_sound _ _ _ _ _ slot_keys_nodup Hf), slot_keys, Hk).
  assert (∀ k, k ∈ Slots pl → (occ k (Slots pl) ≤ length (default [] (steps !! k)))%nat) as Hlen.
  { intros k Hk. rewrite (fetch_length _ _ _ _ _ slot_keys_nodup Hf) by (apply slot_keys, Hk).
    pose proof (slot_cap k). pose proof (Hdue k Hk). lia. }
  pose proof (assemble_full (Slots pl) steps s Hlen) as Hfull.
  set (batch := assemble (Slots pl) steps s) in *.
  assert (length batch = length (Slots pl)) as Hlb
    by (rewrite <-(length_fmap Some), Hfull, length_fmap, length_seq; done).
  unfold push. pose proof (refill_part s batch (GlobalBand pl) c Hcl) as Hp.
  assert (∀ s', s' ≠ s → part_of s' (Refill s batch (GlobalBand pl) c).2 = part_of s' c) as Ho
    by (intros; by apply refill_other).
  destruct (Refill _ _ _ c) as [[d w] c']. simpl in *. rewrite Hp. simpl. rewrite length_fmap.
  split_and!; [done..| | |done].
  2: { rewrite <-list_fmap_compose. apply (assemble_NoDup (due s (GlobalBand pl)) _ _ _ Hfull Hlb Hst).
       intros k k' id. apply due_key. }
  intros i k Hi. destruct (assemble_lookup _ _ _ _ _ Hfull Hi) as (id & Hid & Hj).
  fold batch in Hj.
  exists id. split_and!; [done| |by rewrite list_lookup_fmap, Hj].
  apply Hst; eapply list_elem_of_lookup_2; done.
Qed.

Definition demo_due (s b : Z) (k : string) : list Z :=
  if bool_decide (k = "a") then [11; 12; 13] else if bool_decide (k = "b") then [21] else [].

Definition demo_fetch (s b : Z) (ks : list string) (n : nat) : option (gmap string (list Z)) :=
  Some (list_to_map ((λ k, (k, take n (demo_due s b k))) <$> ks)).

#[export] Instance demo_source : StepSource demo_fetch demo_due.
Proof.
  assert (∀ s b ks n m, demo_fetch s b ks n = Some m →
            ∀ k, k ∈ ks → default [] (m !! k) = take n (demo_due s b k)) as Hd.
  { unfold demo_fetch. intros s b ks n m [= <-] k Hk.
    assert ((list_to_map ((λ k, (k, take n (demo_due s b k))) <$> ks) : gmap string (list Z)) !! k
      = Some (take n (demo_due s b k))) as ->; [|done].
    induction ks as [|k' ks IH]; [set_solver|]. simpl. destruct (decide (k' = k)) as [->|Hne].
    - by rewrite lookup_insert_eq.
    - rewrite lookup_insert_ne by done. apply IH. set_solver. }
  split.
  - intros s b ks n m _ Hm k Hk. rewrite (Hd _ _ _ _ _ Hm k Hk). split.
    + eapply sublist_NoDup; [|apply sublist_take]. unfold demo_due. repeat case_bool_decide; repeat constructor; set_solver.
    + intros id (i & Hi & _)%elem_of_take. by eapply list_elem_of_lookup_2.
  - intros s b ks n m _ Hm k Hk. by rewrite (Hd _ _ _ _ _ Hm k Hk), length_take.
  - intros s b k k' id. unfold demo_due. repeat case_bool_decide; subst; try done; set_solver.
Qed.

Definition demo_cache : Cache := Init 2 (mkCache ∅ 0 0 false).

Lemma supply_fills_plan_witness :
  let c' := (Supplier_run (λ _ _, f1) (λ _, f0) demo_fetch 1 demo_planner demo_cache).2 in
  length (items (part_of 1 c')) = 3%nat ∧ band (part_of 1 c') = 5.
Proof.
  set (pl := (Planner_Plan (λ _ _, f1) (λ _, f0) 1 (Z.of_nat (Capacity demo_cache)) demo_planner).1).
  pose proof (supply_fills_plan (λ _ _, f1) (λ _, f0) demo_fetch demo_due 1 demo_planner demo_cache
    (default ∅ (demo_fetch 1 (GlobalBand pl) (Keys pl) (PerKeyCap pl)))) as H.
  cbv zeta in H. fold pl in H.
  assert (Slots pl = ["a"; "a"; "b"]) as Hsl by (vm_compute; reflexivity).
  specialize (H eq_refl ltac:(vm_compute; reflexivity) ltac:(rewrite Hsl; discriminate) eq_refl).
  rewrite Hsl in H. destruct (Supplier_run _ _ _ _ _ _) as [[r p'] c']. simpl in *.
  destruct H as (_ & _ & _ & Hb & _ & Hl & _).
  - intros k Hk. repeat (apply elem_of_cons in Hk as [->|Hk]; [vm_compute; lia|]).
    by apply elem_of_nil in Hk.
  - split; [exact Hl | rewrite Hb; vm_compute; reflexivity].
Defined.

Lemma plan_shards pow rnd s cap p : shards (Planner_Plan pow rnd s cap p).2 = shards p.
Proof.
  unfold Planner_Plan. destruct (merge _) as [b keys]. destruct (_ || _); [done|].
  by destruct (slice _ _ _ _) as [[? ?] ?].
Qed.

(** What a cycle may lose.  A cancelled cycle changes nothing at all.  Otherwise the shard's
    report in the planner always survives, and: an untallied shard and a failed fetch leave every
    partition exactly as it was (nothing is discarded, the result says the cache was not
    reconciled); an empty plan for a tallied shard empties the partition, whose floor becomes
    [NoBand], and counts what it threw away. *)
Theorem supply_outcomes pow rnd FetchSteps (s : Z) (cancelled : bool) (p : Planner) (c : Cache) :
  let pl := (Planner_Plan pow rnd s (Z.of_nat (Capacity c)) p).1 in
  let '(r, p', c') := Supplier_Cycle pow rnd FetchSteps s cancelled p c in
  shards p' = shards p ∧
  (cancelled = true → p' = p ∧ c' = c ∧ sr_Err r = Some ErrCancelled) ∧
  (cancelled = false → Tallied pl = false →
     c' = c ∧ sr_Reconciled r = false ∧ sr_Err r = None) ∧
  (cancelled = false → Tallied pl = true → Slots pl ≠ [] →
     FetchSteps s (GlobalBand pl) (Keys pl) (PerKeyCap pl) = None →
     c' = c ∧ sr_Reconciled r = false ∧ sr_Discarded r = 0 ∧ sr_Err r = Some ErrFetching) ∧
  (cancelled = false → Tallied pl = true → Slots pl = [] → closed c = false →
     part_of s c' = mkPartition [] 0 0 NoBand ∧ sr_Reconciled r = true ∧ sr_Err r = None ∧
     sr_Discarded r = Z.of_nat (length (items (part_of s c))) - offered (part_of s c)).
Proof.
  pose proof (plan_shards pow rnd s (Z.of_nat (Capacity c)) p) as Hsh.
  unfold Supplier_Cycle, Supplier_run. destruct (Planner_Plan _ _ _ _ p) as [pl p']. simpl in *.
  destruct cancelled; [by naive_solver|].
  destruct (Tallied pl); simpl; [|by naive_solver].
  case_bool_decide as Hsl; [|destruct (FetchSteps _ _ _ _)]; unfold push;
    pose proof (refill_part s [] NoBand c) as Hp; unfold Refill in *;
    destruct (closed c); simpl in *; naive_solver.
Qed.

Lemma supply_outcomes_witness :
  let fails _ _ _ _ := None in
  let p := demo_planner in
  let '(r, _, c') := Supplier_Cycle (λ _ _, f1) (λ _, f0) fails 1 false p demo_cache in
  c' = demo_cache ∧ sr_Err r = Some ErrFetching.
Proof.
  intros fails p.
  pose proof (supply_outcomes (λ _ _, f1) (λ _, f0) fails 1 false p demo_cache) as H.
  cbv zeta in H. destruct (Supplier_Cycle _ _ _ _ _ _ _) as [[r p'] c'].
  destruct H as (_ & _ & _ & H & _).
  destruct (H eq_refl ltac:(vm_compute; reflexivity) ltac:(vm_compute; discriminate) eq_refl)
    as (? & _ & _ & ?). by split.
Defined.

(** A tally cycle reports for its own shard only.  A failed scan makes the shard unknown (it
    drops out of planning) instead of due-nothing; a successful scan replaces the shard's report;
    no cycle changes what another shard has published, and a cancelled one changes nothing. *)
Theorem tally_cycle_outcomes (s s' : Z) (cancelled : bool) (scan : option (Z * list Tally)) (p : Planner) :
  let '(r, p') := Tallier_Cycle s cancelled scan p in
  (s' ≠ s → shards p' !! s' = shards p !! s') ∧
  match cancelled, scan with
  | true, _ => p' = p ∧ tr_err r = Some ErrCancelled
  | false, None => tallied (snapshot p') s = false ∧ tr_band r = NoBand ∧ tr_err r = Some ErrTallying
  | false, Some (b, ts) =>
      tr_band r = b ∧ tr_err r = None ∧ tallied (snapshot p') s = true ∧
      ∃ st, shards p' !! s = Some st ∧ st_band st = b ∧ tallies st = normalize_tally <$> ts
  end.
Proof.
  unfold Tallier_Cycle. destruct cancelled; [done|]. destruct scan as [[b ts]|]; simpl.
  - split; [intros; by rewrite lookup_insert_ne|]. split_and!; [done..| |].
    + apply tallied_spec. simpl. rewrite lookup_insert_eq. by eexists.
    + rewrite lookup_insert_eq. by eexists.
  - split; [intros; by rewrite lookup_delete_ne|]. split_and!; [|done..].
    apply not_true_is_false. rewrite tallied_spec. simpl. rewrite lookup_delete_eq. by intros [? ?].
Qed.

Lemma tally_cycle_outcomes_witness :
  shards (Tallier_Cycle 1 false None demo_planner).2 !! 2 = shards demo_planner !! 2.
Proof.
  pose proof (tally_cycle_outcomes 1 2 false None demo_planner) as H.
  destruct (Tallier_Cycle _ _ _ _) as [r p']. apply (proj1 H). lia.
Defined.

(** The cadence is self-correcting: after the wait a new cycle starts at the latest of now,
    one interval after the previous start and one gap after the previous end, so time a caller
    spends between cycles is absorbed and an overrunning cycle still leaves the gap.  The first
    cycle waits for nothing. *)
Theorem pacer_cadence (now start fin : Z) (p : pacer) :
  let p' := pacer_end fin (pacer_begin start p) in
  now + wait now p' = Z.max now (Z.max (start + interval p) (fin + minGap p)) ∧
  wait now (pacer_init (mkPacer (interval p) (minGap p) None None 0)) = 0 ∧
  WorkingFor now p' = 0 ∧
  (start ≠ 0 → WorkingFor now (pacer_begin start p) = Z.max 0 (now - start)) ∧
  DefaultMinGap ≤ Period p.
Proof.
  unfold wait, WorkingFor, Period, since, pacer_begin, pacer_end. simpl. split_and!.
  - case_bool_decide; lia.
  - done.
  - done.
  - intros. by rewrite bool_decide_eq_false_2.
  - lia.
Qed.

Lemma pacer_cadence_witness :
  WorkingFor 30 (pacer_begin 10 (pacer_init (mkPacer 0 0 None None 0))) = 20.
Proof.
  destruct (pacer_cadence 30 10 20 (pacer_init (mkPacer 0 0 None None 0))) as (_ & _ & _ & H & _).
  rewrite H by lia. reflexivity.
Defined.
