(* ===== verification/Worklist.v ===== *)
(** * Worklist searches

    The graph walks of the program share one loop, [for len(queue) > 0 { v := queue[0]; ... }].
    [search] is that loop with the body as a parameter, and [search_spec] is its total-correctness
    rule: a measure that no visit increases bounds the fuel, so the search never runs out. *)

From S2P Require Import Prelude.

(** [for x := range l { st, err = f(st, x); if err != nil { return err } }] *)
Fixpoint fold_err {S A E} (f : S → A → result E S) (st : S) (l : list A) : result E S :=
  match l with
  | [] => Ok st
  | x :: l => st ←? f st x; fold_err f st l
  end.

(** The rule for [fold_err]: [P] talks about the elements visited so far. *)
Lemma fold_err_spec {S A E} (f : S → A → result E S) (P : list A → S → Prop) (Bad : E → Prop) l st :
  P [] st →
  (∀ pre x post st, l = pre ++ x :: post → P pre st →
     match f st x with Ok st' => P (pre ++ [x]) st' | Err e => Bad e end) →
  match fold_err f st l with Ok st' => P l st' | Err e => Bad e end.
Proof.
  intros H0 Hstep.
  assert (∀ pre post st, l = pre ++ post → P pre st →
    match fold_err f st post with Ok st' => P l st' | Err e => Bad e end) as Hgen;
    [|by apply (Hgen [] l st)].
  intros pre post. revert pre. induction post as [|x post IH]; intros pre st' Hl HP; simpl.
  - by rewrite Hl, app_nil_r.
  - specialize (Hstep pre x post st' Hl HP). destruct (f st' x) as [st2|e]; simpl; [|done].
    apply (IH (pre ++ [x])); [by rewrite <-app_assoc|done].
Qed.

Section search.
Context {V S E : Type}.
Context (visit : V → S → list V → result E (S * list V)) (out_of_fuel : E).

(** [queue[0]] is popped before the visit, which appends what it discovers. *)
Fixpoint search (fuel : nat) (st : S) (queue : list V) : result E S :=
  match queue with
  | [] => Ok st
  | v :: queue =>
      match fuel with
      | O => Err out_of_fuel
      | Datatypes.S fuel => '(st, queue) ←? visit v st queue; search fuel st queue
      end
  end.

Context (Inv : S → list V → Prop) (Bad : E → Prop) (μ : S → nat).

Lemma search_spec fuel st queue :
  (∀ v st queue, Inv st (v :: queue) →
     match visit v st queue with
     | Ok (st', queue') => Inv st' queue' ∧ μ st' + length queue' ≤ μ st + length queue
     | Err e => Bad e
     end) →
  Inv st queue → μ st + length queue ≤ fuel →
  match search fuel st queue with Ok st' => Inv st' [] | Err e => Bad e end.
Proof using Type.
  intros Hvisit. revert st queue.
  induction fuel as [|fuel IH]; intros st [|v queue] Hinv Hfuel; simpl in *; try done; [lia|].
  specialize (Hvisit v st queue Hinv).
  destruct (visit v st queue) as [[st' queue']|e]; simpl; [|done].
  destruct Hvisit as [Hinv' Hle]. apply IH; [done|lia].
Qed.
End search.

(** The measure of a search whose queue holds each target once: the targets not seen yet. *)
Definition unseen (targets seen : gset string) : nat := size (targets ∖ seen).

Lemma unseen_insert (targets seen : gset string) x :
  x ∈ targets → x ∉ seen → S (unseen targets ({[x]} ∪ seen)) = unseen targets seen.
Proof.
  intros Hin Hnew. unfold unseen.
  assert (targets ∖ seen = {[x]} ∪ targets ∖ ({[x]} ∪ seen)) as ->.
  { apply set_eq. intros y. destruct (decide (y = x)); set_solver. }
  rewrite (size_union {[x]} (targets ∖ ({[x]} ∪ seen))) by set_solver. rewrite size_singleton. lia.
Qed.

Lemma unseen_le_size targets seen : unseen targets seen ≤ size targets.
Proof. apply subseteq_size. set_solver. Qed.

Lemma size_list_to_set_le (l : list string) : size (list_to_set l : gset string) ≤ length l.
Proof.
  induction l as [|x l IH]; [done|]. simpl. destruct (decide (x ∈ (list_to_set l : gset string))).
  - replace ({[x]} ∪ list_to_set l : gset string) with (list_to_set l : gset string); [lia|set_solver].
  - rewrite (size_union {[x]} (list_to_set l)) by set_solver. rewrite size_singleton. lia.
Qed.
