(* ===== verification/Graph.v ===== *)
(** * Workflow graphs ([workflow/graph.go])

    The graph value and its builders, [IsFanOutSource], and [Validate] with its three passes: the
    per-edge rules, reachability, and the lineage check that makes every fan-out converge.  The
    declarative side ([lineage], [well_scoped]) says over all paths what [validateLineage] decides
    with one breadth-first walk.

    [boolexp.Validate] is a parameter.  A [map[string]bool] that only ever stores [true] is the set
    of its keys; where the code ranges over a map the order is the one of [elements], which only
    decides which of several offending nodes an error names. *)

From S2P Require Import Prelude Worklist.

Definition END : string := "END".

Record Node := mkNode { Name : string; URL : string }.

Record Transition := mkTransition {
  tr_From : string;
  tr_To : string;
  When : string;
  WithGoto : bool;
  ForEach : string;
  As : string;
  OnError : bool;
  Switch : bool
}.

#[export] Instance Node_eq_dec : EqDecision Node.
Proof. solve_decision. Defined.
#[export] Instance Transition_eq_dec : EqDecision Transition.
Proof. solve_decision. Defined.

Definition Reducer : Type := string.

Record Graph := mkGraph {
  name : string;
  entryPoint : string;
  nodes : list Node;
  transitions : list Transition;
  reducers : gmap string Reducer;
  fanInNodes : gset string
}.

(** ** Builders *)

Definition NewGraph (nm : string) : Graph := mkGraph nm "" [] [] ∅ ∅.

Definition registered (nm : string) (g : Graph) : bool :=
  existsb (λ n, bool_decide (Name n = nm)) (nodes g).

(** The loop that updates the first node of that name in place. *)
Fixpoint set_url (nm url : string) (ns : list Node) : list Node :=
  match ns with
  | [] => []
  | n :: ns => if bool_decide (Name n = nm) then mkNode (Name n) url :: ns else n :: set_url nm url ns
  end.

Definition SetEndpoint (nm url : string) (g : Graph) : Graph :=
  if bool_decide (nm = END) then g else
  if registered nm g then
    mkGraph (name g) (entryPoint g) (set_url nm url (nodes g)) (transitions g) (reducers g) (fanInNodes g)
  else
    mkGraph (name g) (if bool_decide (entryPoint g = "") then nm else entryPoint g)
      (nodes g ++ [mkNode nm url]) (transitions g) (reducers g) (fanInNodes g).

Definition URLOf (nm : string) (g : Graph) : string :=
  if bool_decide (nm = END) then END else
  match find (λ n, bool_decide (Name n = nm)) (nodes g) with Some n => URL n | None => "" end.

Definition SetEntryPoint (nm : string) (g : Graph) : Graph :=
  mkGraph (name g) nm (nodes g) (transitions g) (reducers g) (fanInNodes g).

Definition autoRegister (nm : string) (g : Graph) : Graph :=
  if bool_decide (nm = END) then g else if registered nm g then g else SetEndpoint nm nm g.

(** Common tail of the [AddTransition*] methods. *)
Definition add_edge (tr : Transition) (g : Graph) : Graph :=
  let g := autoRegister (tr_To tr) (autoRegister (tr_From tr) g) in
  mkGraph (name g) (entryPoint g) (nodes g) (transitions g ++ [tr]) (reducers g) (fanInNodes g).

Definition AddTransition (from to : string) : Graph → Graph :=
  add_edge (mkTransition from to "" false "" "" false false).
Definition AddTransitionWhen (from to when : string) : Graph → Graph :=
  add_edge (mkTransition from to when false "" "" false false).
Definition AddTransitionSwitch (from to when : string) : Graph → Graph :=
  add_edge (mkTransition from to when false "" "" false true).
Definition AddTransitionGoto (from to : string) : Graph → Graph :=
  add_edge (mkTransition from to "" true "" "" false false).
Definition AddTransitionForEach (from to forEach as_ : string) : Graph → Graph :=
  add_edge (mkTransition from to "" false forEach
    (if bool_decide (as_ = "") then "item" else as_) false false).
Definition AddTransitionOnError (from to : string) : Graph → Graph :=
  add_edge (mkTransition from to "" false "" "" true false).

Fixpoint AddTransitionChain (names : list string) (g : Graph) : Graph :=
  match names with
  | a :: (b :: _) as rest => AddTransitionChain rest (AddTransition a b g)
  | _ => g
  end.

Definition AddTransitionFanOut (from : string) (to : list string) (g : Graph) : Graph :=
  fold_left (λ g dest, AddTransition from dest g) to g.

Definition SetFanIn (nm : string) (g : Graph) : Graph :=
  mkGraph (name g) (entryPoint g) (nodes g) (transitions g) (reducers g) ({[nm]} ∪ fanInNodes g).

Definition SetReducer (field : string) (r : Reducer) (g : Graph) : Graph :=
  mkGraph (name g) (entryPoint g) (nodes g) (transitions g) (<[field := r]> (reducers g)) (fanInNodes g).

(** ** Queries *)

Definition IsFanIn (g : Graph) (nm : string) : bool := bool_decide (nm ∈ fanInNodes g).

Definition ErrorTransition (nm : string) (g : Graph) : option Transition :=
  find (λ tr, bool_decide (tr_From tr = nm) && OnError tr) (transitions g).

(** An edge the task body chooses at run time, which neither spawns nor is a branch of a cohort. *)
Definition control_edge (tr : Transition) : bool := WithGoto tr || OnError tr || Switch tr.

Fixpoint fan_out_loop (nm : string) (normalCount : nat) (trs : list Transition) : bool :=
  match trs with
  | [] => false
  | tr :: trs =>
      if negb (bool_decide (tr_From tr = nm)) || control_edge tr then fan_out_loop nm normalCount trs
      else if negb (bool_decide (ForEach tr = "")) then true
      else if bool_decide (2 ≤ normalCount + 1) then true
      else fan_out_loop nm (normalCount + 1) trs
  end.

Definition IsFanOutSource (g : Graph) (nm : string) : bool := fan_out_loop nm 0 (transitions g).

(** ** Names *)

Definition is_letter (c : Ascii.ascii) : bool :=
  let n := Ascii.nat_of_ascii c in
  bool_decide (n = 95) || bool_decide (97 ≤ n ∧ n ≤ 122) || bool_decide (65 ≤ n ∧ n ≤ 90).

Definition is_digit (c : Ascii.ascii) : bool :=
  let n := Ascii.nat_of_ascii c in bool_decide (48 ≤ n ∧ n ≤ 57).

Fixpoint field_name_loop (i : nat) (s : string) : bool :=
  match s with
  | EmptyString => true
  | String c s =>
      if is_letter c then field_name_loop (S i) s
      else if is_digit c && bool_decide (0 < i) then field_name_loop (S i) s
      else false
  end.

Definition isFieldName (nm : string) : bool :=
  if bool_decide (nm = "") then false else field_name_loop 0 nm.

(** What [strings.Cut(s, sep)] leaves after the first occurrence of [sep], "" if there is none. *)
Fixpoint cut_after (sep s : string) : string :=
  if String.prefix sep s then String.substring (String.length sep) (String.length s) s else
  match s with EmptyString => "" | String _ s => cut_after sep s end.

Definition stripProto (s : string) : string :=
  let x := cut_after "://" s in if bool_decide (x = "") then s else x.

(** ** Validate *)

Inductive graph_error :=
| ErrNoName
| ErrNoTasks
| ErrDuplicateNode (nm : string)
| ErrNoURL (nm : string)
| ErrEntryPoint (nm : string)
| ErrFanInUnknown (nm : string)
| ErrFanInEnd
| ErrOutOfEnd (to : string)
| ErrFromUnknown (from to : string)
| ErrToUnknown (from to : string)
| ErrForEachGoto (from to : string)
| ErrAsWithoutForEach (from to : string)
| ErrOnErrorCombined (from to : string)
| ErrOnErrorWhen (from to : string)
| ErrOnErrorTwice (from : string)
| ErrSwitchCombined (from to : string)
| ErrSwitchNoWhen (from to : string)
| ErrOnErrorSelf (from : string)
| ErrWhen (from to : string)
| ErrForEachName (from to field : string)
| ErrAsName (from to field : string)
| ErrReducerName (field : string)
| ErrMixesSwitch (from to : string)
| ErrUnreachable (nm : string)
| ErrNoEnd
| ErrNoFrame (from to : string)
| ErrDivergent (source prior to : string)
| ErrUnpopped (from : string) (frames : list string)
| ErrTwoStacks (nm : string) (prior next : list string)
| ErrNoFanIn (source : string)
| ErrOutOfFuel.

Definition validate_nodes (ns : list Node) : result graph_error (gset string) :=
  fold_err (λ nodeSet n,
    check (bool_decide (Name n ∈ nodeSet)) (ErrDuplicateNode (Name n)) $
    check (bool_decide (URL n = "")) (ErrNoURL (Name n)) $
    Ok ({[Name n]} ∪ nodeSet)) {[END]} ns.

Definition validate_fan_in (nodeSet : gset string) (nm : string) : result graph_error unit :=
  check (bool_decide (nm ∉ nodeSet)) (ErrFanInUnknown nm) $
  check (bool_decide (nm = END)) ErrFanInEnd $ Ok tt.

Definition nonempty (s : string) : bool := negb (bool_decide (s = "")).

Section Validate.
(** [boolexp.Validate(when) == nil] *)
Context (boolexp_Validate : string → bool).

Definition validate_transition (nodeSet onErrorFrom : gset string) (tr : Transition)
    : result graph_error (gset string) :=
  let from := tr_From tr in let to := tr_To tr in
  let from' := stripProto from in let to' := stripProto to in
  check (bool_decide (from = END)) (ErrOutOfEnd to) $
  check (bool_decide (from ∉ nodeSet)) (ErrFromUnknown from to) $
  check (bool_decide (to ∉ nodeSet)) (ErrToUnknown from to) $
  check (nonempty (ForEach tr) && WithGoto tr) (ErrForEachGoto from to) $
  check (nonempty (As tr) && negb (nonempty (ForEach tr))) (ErrAsWithoutForEach from to) $
  check (OnError tr && (nonempty (ForEach tr) || WithGoto tr)) (ErrOnErrorCombined from to) $
  check (OnError tr && nonempty (When tr)) (ErrOnErrorWhen from' to') $
  check (OnError tr && bool_decide (from ∈ onErrorFrom)) (ErrOnErrorTwice from') $
  let onErrorFrom := if OnError tr then {[from]} ∪ onErrorFrom else onErrorFrom in
  check (Switch tr && (nonempty (ForEach tr) || WithGoto tr || OnError tr)) (ErrSwitchCombined from' to') $
  check (Switch tr && negb (nonempty (When tr))) (ErrSwitchNoWhen from' to') $
  check (OnError tr && bool_decide (from = to)) (ErrOnErrorSelf from') $
  check (nonempty (When tr) && negb (boolexp_Validate (When tr))) (ErrWhen from' to') $
  check (nonempty (ForEach tr) && negb (isFieldName (ForEach tr))) (ErrForEachName from' to' (ForEach tr)) $
  check (nonempty (As tr) && negb (isFieldName (As tr))) (ErrAsName from' to' (As tr)) $
  Ok onErrorFrom.

Definition validate_reducer (field : string) : result graph_error unit :=
  check (negb (isFieldName field)) (ErrReducerName field) $ Ok tt.

Definition validate_switch (hasSwitchFrom : gset string) (tr : Transition) : result graph_error unit :=
  if bool_decide (tr_From tr ∉ hasSwitchFrom) || Switch tr || OnError tr || WithGoto tr then Ok tt
  else Err (ErrMixesSwitch (stripProto (tr_From tr)) (stripProto (tr_To tr))).

(** One dequeued node of the reachability walk: marks and queues its unseen targets. *)
Definition reach_visit (trs : list Transition) (current : string) (reachable : gset string)
    (queue : list string) : result graph_error (gset string * list string) :=
  fold_err (λ '(reachable, queue) tr,
    if bool_decide (tr_From tr = current ∧ tr_To tr ≠ END ∧ tr_To tr ∉ reachable)
    then Ok ({[tr_To tr]} ∪ reachable, queue ++ [tr_To tr]) else Ok (reachable, queue))
    (reachable, queue) trs.

Definition reachable_from (g : Graph) : result graph_error (gset string) :=
  search (reach_visit (transitions g)) ErrOutOfFuel (S (length (transitions g)))
    {[entryPoint g]} [entryPoint g].

(** *** The lineage check *)

Record lineage_state := mkLineage {
  stacks : gmap string (list string);
  fanOutToFanIn : gmap string string
}.

(** The [switch] of the walk: the stack at the edge's target and the fan-out source it pops.
    The last frame of a stack is its end. *)
Definition next_stack (g : Graph) (fromIsFanOut : bool) (from : string) (fromStack : list string)
    (tr : Transition) : result graph_error (list string * option string) :=
  if IsFanIn g (tr_To tr) then
    if fromIsFanOut then Ok (fromStack, Some from)
    else match last fromStack with
         | None => Err (ErrNoFrame (stripProto from) (stripProto (tr_To tr)))
         | Some top => Ok (removelast fromStack, Some top)
         end
  else if control_edge tr then Ok (fromStack, None)
  else if fromIsFanOut then Ok (fromStack ++ [from], None)
  else Ok (fromStack, None).

(** [fanOutToFanIn[source] = to], unless another fan-in is already recorded. *)
Definition converge (source : option string) (to : string) (f2f : gmap string string)
    : result graph_error (gmap string string) :=
  match source with
  | None => Ok f2f
  | Some src =>
      match f2f !! src with
      | Some prior =>
          check (bool_decide (prior ≠ to)) (ErrDivergent (stripProto src) (stripProto prior) (stripProto to))
            (Ok (<[src := to]> f2f))
      | None => Ok (<[src := to]> f2f)
      end
  end.

Definition lineage_edge (g : Graph) (fromIsFanOut : bool) (from : string) (fromStack : list string)
    (st : lineage_state * list string) (tr : Transition)
    : result graph_error (lineage_state * list string) :=
  let '(mkLineage stks f2f, queue) := st in
  if bool_decide (tr_From tr ≠ from) then Ok st else
  '(nextStack, source) ←? next_stack g fromIsFanOut from fromStack tr;
  f2f ←? converge source (tr_To tr) f2f;
  if bool_decide (tr_To tr = END) then
    check (bool_decide (nextStack ≠ [])) (ErrUnpopped (stripProto from) nextStack) $
    Ok (mkLineage stks f2f, queue)
  else match stks !! tr_To tr with
       | Some prior =>
           check (bool_decide (prior ≠ nextStack)) (ErrTwoStacks (stripProto (tr_To tr)) prior nextStack) $
           Ok (mkLineage stks f2f, queue)
       | None => Ok (mkLineage (<[tr_To tr := nextStack]> stks) f2f, queue ++ [tr_To tr])
       end.

Definition fan_out_sources (g : Graph) : gset string :=
  list_to_set (filter (λ n, IsFanOutSource g n = true) (Name <$> nodes g)).

Definition lineage_visit (g : Graph) (from : string) (st : lineage_state) (queue : list string)
    : result graph_error (lineage_state * list string) :=
  fold_err (lineage_edge g (bool_decide (from ∈ fan_out_sources g)) from (default [] (stacks st !! from)))
    (st, queue) (transitions g).

Definition lineage_walk (g : Graph) : result graph_error lineage_state :=
  search (lineage_visit g) ErrOutOfFuel (S (length (transitions g)))
    (mkLineage {[entryPoint g := []]} ∅) [entryPoint g].

Definition validateLineage (g : Graph) : result graph_error unit :=
  st ←? lineage_walk g;
  run_checks (λ source,
    check (bool_decide (fanOutToFanIn st !! source = None)) (ErrNoFanIn (stripProto source)) $ Ok tt)
    (elements (fan_out_sources g)).

Definition Validate (g : Graph) : result graph_error unit :=
  check (bool_decide (name g = "")) ErrNoName $
  check (bool_decide (nodes g = [])) ErrNoTasks $
  nodeSet ←? validate_nodes (nodes g);
  check (bool_decide (entryPoint g ∉ nodeSet)) (ErrEntryPoint (entryPoint g)) $
  _ ←? run_checks (validate_fan_in nodeSet) (elements (fanInNodes g));
  _ ←? fold_err (validate_transition nodeSet) ∅ (transitions g);
  _ ←? run_checks validate_reducer (merge_sort String.le (elements (dom (reducers g))));
  let hasSwitchFrom := list_to_set (tr_From <$> filter (λ tr, Switch tr = true) (transitions g)) in
  _ ←? run_checks (validate_switch hasSwitchFrom) (transitions g);
  reachable ←? reachable_from g;
  _ ←? run_checks (λ n, check (bool_decide (Name n ∉ reachable)) (ErrUnreachable (Name n)) (Ok tt)) (nodes g);
  check (negb (existsb (λ tr, bool_decide (tr_To tr = END)) (transitions g))) ErrNoEnd $
  validateLineage g.
End Validate.
