(* ===== verification/Lineage.v ===== *)
(** * What the lineage check decides ([workflow/graph.go], [validateLineage])

    [lineage g v s]: some path from the entry point arrives at [v] with the fan-out frames [s] still
    open.  [well_scoped] states fan-out discipline over all such paths; [validateLineage] decides it
    by looking at each edge once. *)

From S2P Require Import Prelude Worklist Graph.

Section lineage.
Context (g : Graph).

Definition frames_of (v : string) (s : list string) (tr : Transition)
    : result graph_error (list string * option string) :=
  next_stack g (bool_decide (v ∈ fan_out_sources g)) v s tr.

Inductive lineage : string → list string → Prop :=
| lineage_entry : lineage (entryPoint g) []
| lineage_step v s tr s' src :
    lineage v s → tr ∈ transitions g → tr_From tr = v → tr_To tr ≠ END →
    frames_of v s tr = Ok (s', src) → lineage (tr_To tr) s'.

(** A reachable edge into the fan-in [f] closes the fan-out opened at [u]. *)
Definition closes (u f : string) : Prop :=
  ∃ v s tr s', lineage v s ∧ tr ∈ transitions g ∧ tr_From tr = v ∧
    frames_of v s tr = Ok (s', Some u) ∧ tr_To tr = f.

Record well_scoped : Prop := {
  ws_pops : ∀ v s tr, lineage v s → tr ∈ transitions g → tr_From tr = v → ∃ r, frames_of v s tr = Ok r;
  ws_unique : ∀ v s1 s2, lineage v s1 → lineage v s2 → s1 = s2;
  ws_end : ∀ v s tr s' src, lineage v s → tr ∈ transitions g → tr_From tr = v → tr_To tr = END →
    frames_of v s tr = Ok (s', src) → s' = [];
  ws_converge : ∀ u f1 f2, closes u f1 → closes u f2 → f1 = f2;
  ws_closed : ∀ u, u ∈ fan_out_sources g → ∃ f, closes u f
}.

(** An explored edge agrees with what the walk has recorded. *)
Definition edge_ok (st : lineage_state) (v : string) (s : list string) (tr : Transition) : Prop :=
  ∃ s' src, frames_of v s tr = Ok (s', src) ∧
    (∀ u, src = Some u → fanOutToFanIn st !! u = Some (tr_To tr)) ∧
    (tr_To tr = END → s' = []) ∧
    (tr_To tr ≠ END → stacks st !! tr_To tr = Some s').

Definition extends (st st' : lineage_state) : Prop :=
  stacks st ⊆ stacks st' ∧ fanOutToFanIn st ⊆ fanOutToFanIn st'.

#[local] Instance extends_refl : Reflexive extends.
Proof. by split. Qed.
#[local] Instance extends_trans : Transitive extends.
Proof. intros ??? [??] [??]. split; by etrans. Qed.

Lemma edge_ok_extends st st' v s tr : extends st st' → edge_ok st v s tr → edge_ok st' v s tr.
Proof.
  intros [Hst Hf] (s' & src & Hfr & Hsrc & Hend & Hto). exists s', src. split_and!; [done| |done|].
  - intros u Hu. eapply lookup_weaken; [by apply Hsrc|done].
  - intros Hne. eapply lookup_weaken; [by apply Hto|done].
Qed.

(** What the walk has recorded is real: stacks are lineages, pairs are closings. *)
Record sound (st : lineage_state) : Prop := {
  sound_stacks : ∀ v s, stacks st !! v = Some s → lineage v s;
  sound_pairs : ∀ u f, fanOutToFanIn st !! u = Some f → closes u f;
  sound_entry : stacks st !! entryPoint g = Some []
}.

Definition explored (st : lineage_state) (v : string) (trs : list Transition) : Prop :=
  ∀ s tr, stacks st !! v = Some s → tr ∈ trs → tr_From tr = v → edge_ok st v s tr.

Record walk_inv (st : lineage_state) (queue : list string) : Prop := {
  walk_sound : sound st;
  walk_queue : ∀ v, v ∈ queue → is_Some (stacks st !! v);
  walk_explored : ∀ v, v ∉ queue → explored st v (transitions g)
}.

Definition targets : gset string := list_to_set (tr_To <$> transitions g).
Definition measure (st : lineage_state) : nat := unseen targets (dom (stacks st)).

Lemma converge_spec source to f2f :
  match converge source to f2f with
  | Ok f2f' => f2f ⊆ f2f' ∧ (∀ u, source = Some u → f2f' !! u = Some to) ∧
      ∀ u f, f2f' !! u = Some f → f2f !! u = Some f ∨ source = Some u ∧ f = to
  | Err _ => ∃ u f, source = Some u ∧ f2f !! u = Some f ∧ f ≠ to
  end.
Proof.
  destruct source as [src|]; simpl; [|by naive_solver].
  assert (∀ u f, <[src:=to]> f2f !! u = Some f → f2f !! u = Some f ∨ Some src = Some u ∧ f = to) as Hnew.
  { intros u f. destruct (decide (src = u)) as [->|?].
    - rewrite lookup_insert_eq. naive_solver.
    - rewrite lookup_insert_ne by done. by left. }
  assert (∀ u, Some src = Some u → <[src:=to]> f2f !! u = Some to) as Hat
    by (intros u [= <-]; by rewrite lookup_insert_eq).
  destruct (f2f !! src) as [prior|] eqn:Hp; simpl.
  - unfold check. case_bool_decide as Hne; [by exists src, prior|].
    subst prior. split_and!; [|done|done]. by rewrite insert_id.
  - split_and!; [by apply insert_subseteq|done|done].
Qed.

(** One edge of a node the walk is visiting. *)
Lemma lineage_edge_spec v s st queue tr :
  sound st → stacks st !! v = Some s → tr ∈ transitions g →
  match lineage_edge g (bool_decide (v ∈ fan_out_sources g)) v s (st, queue) tr with
  | Ok (st', queue') =>
      sound st' ∧ extends st st' ∧ (tr_From tr = v → edge_ok st' v s tr) ∧
      measure st' + length queue' = measure st + length queue ∧
      (∀ x, x ∈ queue' ↔ x ∈ queue ∨ x ∈ dom (stacks st') ∖ dom (stacks st))
  | Err e => e ≠ ErrOutOfFuel ∧ ¬ well_scoped
  end.
Proof.
  intros Hso Hv Hin. destruct st as [stks f2f]. unfold lineage_edge.
  case_bool_decide as Hfrom; [split_and!; [done|done|done|done|set_solver]|].
  subst v. change (next_stack _ _ _ _ _) with (frames_of (tr_From tr) s tr).
  pose proof (sound_stacks _ Hso _ _ Hv) as Hlin.
  destruct (frames_of (tr_From tr) s tr) as [[s' src]|e] eqn:Hfr; simpl; [|split].
  - pose proof (converge_spec src (tr_To tr) f2f) as Hc.
    destruct (converge src (tr_To tr) f2f) as [f2f'|e] eqn:Hce; simpl.
    + destruct Hc as (Hsub & Hat & Hold).
      assert (sound (mkLineage stks f2f')) as Hso'.
      { destruct Hso as [H1 H2 H3]. split; [done| |done]. intros u f Hf. simpl in *.
        apply Hold in Hf as [Hf|[-> ->]]; [by apply H2|]. exists (tr_From tr), s, tr, s'. done. }
      case_bool_decide as Hend.
      { unfold check. case_bool_decide as Hs'.
        - split; [done|]. intros Hws. apply Hs', (ws_end Hws _ _ _ _ _ Hlin Hin eq_refl Hend Hfr).
        - split_and!; [done|by split| |done|set_solver].
          intros _. exists s', src. by split_and!. }
      destruct (stks !! tr_To tr) as [prior|] eqn:Hto.
      { unfold check. case_bool_decide as Hs'.
        - split; [done|]. intros Hws.
          apply Hs', (ws_unique Hws (tr_To tr)); [by apply (sound_stacks _ Hso)|by econstructor].
        - subst prior. split_and!; [done|by split| |done|set_solver].
          intros _. exists s', src. by split_and!. }
      split_and!.
      * destruct Hso' as [H1 H2 H3]. split; simpl in *; [|done|].
        -- intros v' s'' Hl. destruct (decide (tr_To tr = v')) as [<-|Hne].
           ++ rewrite lookup_insert_eq in Hl. simplify_eq. by econstructor.
           ++ rewrite lookup_insert_ne in Hl by done. by apply H1.
        -- rewrite lookup_insert_ne; [done|]. intros Heq. rewrite Heq in Hto. congruence.
      * split; simpl; [by apply insert_subseteq|done].
      * intros _. exists s', src. split_and!; simpl; [done..|by rewrite lookup_insert_eq].
      * unfold measure. simpl. rewrite length_app, dom_insert_L. simpl.
        rewrite <-(unseen_insert targets (dom stks) (tr_To tr)); [lia| |by apply not_elem_of_dom].
        unfold targets. rewrite elem_of_list_to_set. by apply list_elem_of_fmap_2.
      * intros x. simpl. rewrite dom_insert_L. apply not_elem_of_dom in Hto. set_solver.
    + destruct Hc as (u & f & -> & Hf & Hne).
      assert (∃ x y z, e = ErrDivergent x y z) as (?&?&?&->).
      { simpl in Hce. rewrite Hf in Hce. unfold check in Hce. case_bool_decide; simplify_eq. eauto. }
      split; [done|]. intros Hws. apply Hne, (ws_converge Hws u); [by apply (sound_pairs _ Hso)|].
      exists (tr_From tr), s, tr, s'. done.
  - unfold frames_of, next_stack in Hfr. repeat case_match; simplify_eq; done.
  - intros Hws. destruct (ws_pops Hws _ _ _ Hlin Hin eq_refl) as [r Hr]. congruence.
Qed.
#[local] Hint Extern 1 (extends _ _) => etrans; eassumption : core.
#[local] Arguments lineage_edge : simpl never.

Lemma lineage_visit_spec v st queue :
  walk_inv st (v :: queue) →
  match lineage_visit g v st queue with
  | Ok (st', queue') =>
      walk_inv st' queue' ∧ measure st' + length queue' ≤ measure st + length queue
  | Err e => e ≠ ErrOutOfFuel ∧ ¬ well_scoped
  end.
Proof.
  intros [Hso Hq Hex]. destruct (Hq v ltac:(by left)) as [s Hs].
  unfold lineage_visit. rewrite Hs. simpl.
  pose (P := λ (pre : list Transition) (stq : lineage_state * list string),
    sound stq.1 ∧ extends st stq.1 ∧ explored stq.1 v pre ∧
    measure stq.1 + length stq.2 = measure st + length queue ∧
    (∀ x, x ∈ stq.2 ↔ x ∈ queue ∨ x ∈ dom (stacks stq.1) ∖ dom (stacks st))).
  assert (match fold_err (lineage_edge g (bool_decide (v ∈ fan_out_sources g)) v s)
                  (st, queue) (transitions g) with
          | Ok stq => P (transitions g) stq
          | Err e => e ≠ ErrOutOfFuel ∧ ¬ well_scoped
          end) as Hfold.
  { apply fold_err_spec; [split_and!; simpl; [done|done|intros ?? _ Htr; set_solver|done|set_solver]|].
    intros pre tr post [st1 q1] Hl (Hso1 & He1 & Hex1 & Hm1 & Hq1). simpl in *.
    assert (tr ∈ transitions g) as Htr by (rewrite Hl; set_solver).
    assert (stacks st1 !! v = Some s) as Hs1 by (eapply lookup_weaken; [done|apply He1]).
    pose proof (lineage_edge_spec v s st1 q1 tr Hso1 Hs1 Htr) as Hedge.
    destruct (lineage_edge _ _ _ _ _ _) as [[st2 q2]|e]; [|done].
    destruct Hedge as (Hso2 & He2 & Hok2 & Hm2 & Hq2). unfold P. simpl.
    split_and!; [done|eauto| |lia|].
    - intros s0 tr0 Hs0 Htr0 Hfrom0. assert (s0 = s) as ->.
      { pose proof (lookup_weaken _ _ _ _ Hs1 (proj1 He2)). congruence. }
      apply elem_of_app in Htr0 as [Htr0|Htr0%list_elem_of_singleton].
      + eapply edge_ok_extends; [done|]. by apply Hex1.
      + subst tr0. by apply Hok2.
    - intros x. rewrite Hq2, Hq1.
      pose proof (subseteq_dom _ _ (proj1 He1)). pose proof (subseteq_dom _ _ (proj1 He2)).
      rewrite !elem_of_difference. destruct (decide (x ∈ dom (stacks st1))); set_solver. }
  destruct (fold_err _ _ _) as [[st' queue']|e]; [|done].
  destruct Hfold as (Hso' & He & Hexv & Hm & Hq'). simpl in *. split; [|lia]. split; [done| |].
  - intros x [Hx|[Hx _]%elem_of_difference]%Hq'; [|by apply elem_of_dom].
    destruct (Hq x ltac:(by right)) as [sx Hsx]. exists sx. eapply lookup_weaken; [done|apply He].
  - intros x Hx s0 tr Hs0 Htr Hfrom. destruct (decide (x = v)) as [->|Hne]; [by apply Hexv|].
    rewrite Hq' in Hx. eapply edge_ok_extends; [done|]. apply (Hex x); [set_solver| |done..].
    assert (x ∈ dom (stacks st)) as [sx Hsx]%elem_of_dom.
    { apply elem_of_dom_2 in Hs0. destruct (decide (x ∈ dom (stacks st))); [done|]. set_solver. }
    pose proof (lookup_weaken _ _ _ _ Hsx (proj1 He)). congruence.
Qed.

Lemma walk_inv_init : walk_inv (mkLineage {[entryPoint g := []]} ∅) [entryPoint g].
Proof.
  split.
  - split; simpl; [|done|by rewrite lookup_singleton_eq].
    intros v s [<- <-]%lookup_singleton_Some. constructor.
  - simpl. intros v ->%list_elem_of_singleton. rewrite lookup_singleton_eq. by eexists.
  - intros v Hv s tr Hs. simpl in Hs. apply lookup_singleton_Some in Hs as [<- _]. set_solver.
Qed.

Lemma lineage_walk_spec :
  match lineage_walk g with
  | Ok st => walk_inv st []
  | Err e => e ≠ ErrOutOfFuel ∧ ¬ well_scoped
  end.
Proof.
  unfold lineage_walk. apply (search_spec _ _ walk_inv _ measure).
  - intros v st queue Hinv. pose proof (lineage_visit_spec v st queue Hinv).
    by destruct (lineage_visit _ _ _ _) as [[??]|].
  - apply walk_inv_init.
  - simpl. pose proof (unseen_le_size targets (dom (stacks (mkLineage {[entryPoint g := []]} ∅)))).
    pose proof (size_list_to_set_le (tr_To <$> transitions g)) as Hlen. rewrite length_fmap in Hlen.
    unfold measure, targets in *. simpl in *. lia.
Qed.

(** Everything the finished walk recorded is all there is. *)
Lemma walk_complete st v s : walk_inv st [] → lineage v s → stacks st !! v = Some s.
Proof.
  intros [Hso _ Hex]. induction 1 as [|v s tr s' src _ IH Htr Hfrom Hend Hfr]; [apply Hso|].
  destruct (Hex v ltac:(set_solver) s tr IH Htr Hfrom) as (s2 & src2 & Hfr2 & _ & _ & Hto).
  rewrite Hfr in Hfr2. simplify_eq. by apply Hto.
Qed.

Lemma walk_closes st u f : walk_inv st [] → closes u f → fanOutToFanIn st !! u = Some f.
Proof.
  intros Hinv (v & s & tr & s' & Hl & Htr & Hfrom & Hfr & <-).
  pose proof (walk_complete st v s Hinv Hl) as Hs.
  destruct (walk_explored _ _ Hinv v ltac:(set_solver) s tr Hs Htr Hfrom) as (s2 & src2 & Hfr2 & Hsrc & _).
  rewrite Hfr in Hfr2. simplify_eq. by apply Hsrc.
Qed.

Lemma walk_well_scoped st :
  walk_inv st [] → (∀ u, u ∈ fan_out_sources g → is_Some (fanOutToFanIn st !! u)) → well_scoped.
Proof.
  intros Hinv Hall. pose proof (λ v s, walk_complete st v s Hinv) as Hl.
  assert (∀ v s tr, lineage v s → tr ∈ transitions g → tr_From tr = v → edge_ok st v s tr) as Hok
    by (intros v s tr H; apply (walk_explored _ _ Hinv v ltac:(set_solver) s tr (Hl v s H))).
  split.
  - intros v s tr Hv Htr Hfrom. destruct (Hok v s tr Hv Htr Hfrom) as (? & ? & ? & _). eauto.
  - intros v s1 s2 H1%Hl H2%Hl. congruence.
  - intros v s tr s' src Hv Htr Hfrom Hend Hfr.
    destruct (Hok v s tr Hv Htr Hfrom) as (? & ? & Hfr2 & _ & He & _).
    rewrite Hfr in Hfr2. simplify_eq. by apply He.
  - intros u f1 f2 H1%(walk_closes st _ _ Hinv) H2%(walk_closes st _ _ Hinv). congruence.
  - intros u [f Hf]%Hall. exists f. by apply (sound_pairs _ (walk_sound _ _ Hinv)).
Qed.

Lemma validateLineage_spec :
  match validateLineage g with
  | Ok _ => well_scoped ∧ ∃ st, lineage_walk g = Ok st ∧ walk_inv st []
  | Err e => e ≠ ErrOutOfFuel ∧ ¬ well_scoped
  end.
Proof.
  unfold validateLineage. pose proof lineage_walk_spec as Hwalk.
  destruct (lineage_walk g) as [st|e]; simpl; [|done].
  destruct (run_checks _ _) as [[]|e] eqn:Hrun.
  - split; [|by eauto]. apply (walk_well_scoped st Hwalk). intros u Hu.
    apply run_checks_Ok in Hrun. rewrite Forall_forall in Hrun.
    specialize (Hrun u ltac:(by apply elem_of_elements)). apply check_Ok in Hrun as [Hn _].
    apply bool_decide_eq_false in Hn. by apply not_eq_None_Some.
  - destruct (run_checks_Err _ _ _ Hrun) as (u & Hu%elem_of_elements & He). unfold check in He.
    case_bool_decide as Hn; [|done]. simplify_eq. split; [done|]. intros Hws.
    destruct (ws_closed Hws u Hu) as [f Hf]. apply (walk_closes st _ _ Hwalk) in Hf. congruence.
Qed.

(** The shape of one edge. *)
Lemma frames_of_cases v s tr s' src :
  frames_of v s tr = Ok (s', src) →
  (∃ top, src = Some top ∧ IsFanIn g (tr_To tr) = true ∧
     (v ∈ fan_out_sources g ∧ top = v ∧ s' = s ∨ (v ∉ fan_out_sources g) ∧ s = s' ++ [top])) ∨
  (src = None ∧ IsFanIn g (tr_To tr) = false ∧
     (v ∈ fan_out_sources g ∧ control_edge tr = false ∧ s' = s ++ [v] ∨
      ((v ∉ fan_out_sources g) ∨ control_edge tr = true) ∧ s' = s)).
Proof.
  unfold frames_of, next_stack. destruct (IsFanIn g (tr_To tr)).
  - case_bool_decide; [intros [= <- <-]; left; by eauto 10|].
    destruct (last s) as [top|] eqn:Hl; [|done]. intros [= <- <-]. left. exists top.
    apply last_Some in Hl as [l ->]. rewrite removelast_last. by eauto 10.
  - destruct (control_edge tr); [intros [= <- <-]; by eauto 10|].
    case_bool_decide; intros [= <- <-]; by eauto 10.
Qed.

Lemma lineage_frames v s : lineage v s → ∀ u, u ∈ s → u ∈ fan_out_sources g.
Proof.
  induction 1 as [|v s tr s' src _ IH _ _ _ Hfr]; [set_solver|].
  apply frames_of_cases in Hfr as [(top & _ & _ & [(? & _ & ->)|[? ->]])|(_ & _ & [(? & _ & ->)|[? ->]])];
    set_solver.
Qed.

Lemma closes_source u f : closes u f → u ∈ fan_out_sources g.
Proof.
  intros (v & s & tr & s' & Hl & _ & _ & Hfr & _). pose proof (lineage_frames _ _ Hl).
  apply frames_of_cases in Hfr as [(top & [= <-] & _ & [(? & -> & _)|[? ->]])|(? & _)]; set_solver.
Qed.
End lineage.

(** ** Property *)

(** The lineage check looks at every edge once, yet decides a statement about all paths: no
    path closes a fan-out that is not open, every node is reached with one stack of open fan-outs,
    END is reached with none, all branches of a fan-out close at one fan-in, and every fan-out
    source has one. *)
Theorem validateLineage_iff_well_scoped (g : Graph) :
  (validateLineage g = Ok () ↔ well_scoped g) ∧ validateLineage g ≠ Err ErrOutOfFuel.
Proof.
  pose proof (validateLineage_spec g) as H. destruct (validateLineage g) as [[]|e]; naive_solver.
Qed.
