(* ===== verification/Validate.v ===== *)
(** * What [Validate] accepts ([workflow/graph.go])

    [valid g] lists, as independent conditions on the graph value, everything the early returns of
    [Validate] enforce; the theorems show the function decides it, always with an answer. *)

From S2P Require Import Prelude Worklist Graph Lineage.

(** ** Reachability *)

Inductive reaches (g : Graph) : string → Prop :=
| reaches_entry : reaches g (entryPoint g)
| reaches_step tr : tr ∈ transitions g → reaches g (tr_From tr) → tr_To tr ≠ END →
    reaches g (tr_To tr).

Section reach.
Context (g : Graph).

Definition reach_targets : gset string := list_to_set (tr_To <$> transitions g).

Record reach_inv (R : gset string) (queue : list string) : Prop := {
  reach_sound : ∀ x, x ∈ R → reaches g x;
  reach_entry : entryPoint g ∈ R;
  reach_queue : ∀ x, x ∈ queue → x ∈ R;
  reach_closed : ∀ tr, tr ∈ transitions g → tr_From tr ∈ R → tr_From tr ∉ queue →
    tr_To tr ≠ END → tr_To tr ∈ R
}.

Lemma reach_visit_spec v R queue :
  reach_inv R (v :: queue) →
  match reach_visit (transitions g) v R queue with
  | Ok (R', queue') => reach_inv R' queue' ∧
      unseen reach_targets R' + length queue' ≤ unseen reach_targets R + length queue
  | Err e => False
  end.
Proof.
  intros [Hs He Hq Hc]. unfold reach_visit.
  pose (P := λ (pre : list Transition) (Rq : gset string * list string),
    R ⊆ Rq.1 ∧ (∀ x, x ∈ Rq.1 → reaches g x) ∧
    (∀ tr, tr ∈ pre → tr_From tr = v → tr_To tr ≠ END → tr_To tr ∈ Rq.1) ∧
    unseen reach_targets Rq.1 + length Rq.2 = unseen reach_targets R + length queue ∧
    (∀ x, x ∈ Rq.2 ↔ x ∈ queue ∨ x ∈ Rq.1 ∖ R)).
  match goal with |- match fold_err ?f ?i ?l with _ => _ end =>
    assert (match fold_err f i l with Ok Rq => P l Rq | Err e => False end) as Hfold end.
  { apply fold_err_spec; [split_and!; simpl; [done|done|set_solver|done|set_solver]|].
    intros pre tr post [R1 q1] Hl (H1 & H2 & H3 & H4 & H5). simpl in *.
    assert (tr ∈ transitions g) as Htr by (rewrite Hl; set_solver).
    case_bool_decide as Hcond; unfold P; simpl; split_and!.
    - set_solver.
    - intros x [->%elem_of_singleton|Hx]%elem_of_union; [|by apply H2].
      destruct Hcond as (Hf & Hend & _). apply reaches_step; [done| |done].
      rewrite Hf. apply Hs, Hq. by left.
    - intros tr0 [Htr0| ->%list_elem_of_singleton]%elem_of_app Hf Hend; set_solver.
    - rewrite length_app. simpl. destruct Hcond as (_ & _ & Hnew).
      rewrite <-(unseen_insert reach_targets R1 (tr_To tr)) in H4; [lia| |done].
      unfold reach_targets. rewrite elem_of_list_to_set. by apply list_elem_of_fmap_2.
    - intros x. set_solver.
    - done.
    - done.
    - intros tr0 [Htr0| ->%list_elem_of_singleton]%elem_of_app Hf Hend; [by apply H3|].
      destruct (decide (tr_To tr ∈ R1)); [done|]. by destruct Hcond.
    - done.
    - done. }
  destruct (fold_err _ _ _) as [[R' queue']|]; [|done].
  destruct Hfold as (H1 & H2 & H3 & H4 & H5). simpl in *. split; [|lia]. split; [done|set_solver| |].
  - intros x [Hx|Hx]%H5; set_solver.
  - intros tr Htr Hf Hnq Hend. destruct (decide (tr_From tr = v)) as [Heq|Hne]; [by apply H3|].
    rewrite H5 in Hnq. apply H1, Hc; [done| | |done]; [|set_solver].
    destruct (decide (tr_From tr ∈ R)); [done|]. set_solver.
Qed.

Lemma reachable_from_spec : ∃ R, reachable_from g = Ok R ∧ ∀ x, x ∈ R ↔ reaches g x.
Proof.
  unfold reachable_from.
  assert (match search (reach_visit (transitions g)) ErrOutOfFuel (S (length (transitions g)))
                  {[entryPoint g]} [entryPoint g] with
          | Ok R => reach_inv R [] | Err _ => False end) as Hsearch.
  { apply (search_spec _ _ reach_inv _ (unseen reach_targets)).
    - intros v st queue Hinv. pose proof (reach_visit_spec v st queue Hinv).
      by destruct (reach_visit _ _ _ _) as [[??]|].
    - split; [|set_solver..]. intros x ->%elem_of_singleton. constructor.
    - simpl. pose proof (unseen_le_size reach_targets {[entryPoint g]}).
      pose proof (size_list_to_set_le (tr_To <$> transitions g)) as Hlen.
      rewrite length_fmap in Hlen. unfold reach_targets in *. lia. }
  destruct (search _ _ _ _ _) as [R|e]; [|done]. destruct Hsearch as [Hs He _ Hc].
  exists R. split; [done|]. intros x. split; [apply Hs|].
  induction 1; [done|]. apply Hc; [done..|set_solver|done].
Qed.
End reach.

(** ** Deciding by early returns *)

(** [r] answers whether [P] holds, with a value satisfying [V] when it does. *)
Definition decides {A} (r : result graph_error A) (P : Prop) (V : A → Prop) : Prop :=
  match r with Ok a => P ∧ V a | Err e => e ≠ ErrOutOfFuel ∧ ¬ P end.

Lemma decides_bind {A B} (m : result graph_error A) (k : A → result graph_error B) P Q V W :
  decides m P V → (∀ a, P → V a → decides (k a) Q W) → decides (rbind k m) (P ∧ Q) W.
Proof.
  unfold decides. destruct m as [a|e]; simpl; [|naive_solver].
  intros [HP HV] Hk. specialize (Hk a HP HV). destruct (k a); naive_solver.
Qed.

Lemma decides_check {A} b e (k : result graph_error A) P Q V :
  (b = false ↔ P) → e ≠ ErrOutOfFuel → (P → decides k Q V) → decides (check b e k) (P ∧ Q) V.
Proof.
  unfold decides. destruct b; simpl; intros HP He Hk.
  - split; [done|]. intros [HP' _]. apply HP in HP'. done.
  - assert P as H by (by apply HP). specialize (Hk H). destruct k; naive_solver.
Qed.

Lemma decides_run_checks {A} (f : A → result graph_error unit) l (P : A → Prop) :
  (∀ x, x ∈ l → decides (f x) (P x) (λ _, True)) →
  decides (run_checks f l) (∀ x, x ∈ l → P x) (λ _, True).
Proof.
  intros Hf. unfold decides. destruct (run_checks f l) as [[]|e] eqn:Hr.
  - split; [|done]. intros x Hx. apply run_checks_Ok in Hr. rewrite Forall_forall in Hr.
    specialize (Hf x Hx). rewrite (Hr x Hx) in Hf. apply Hf.
  - destruct (run_checks_Err _ _ _ Hr) as (x & Hx & He). specialize (Hf x Hx).
    rewrite He in Hf. destruct Hf as [? HP]. split; [done|]. by auto.
Qed.

Lemma decides_iff {A} (r : result graph_error A) P Q V : (P ↔ Q) → decides r P V → decides r Q V.
Proof. unfold decides. destruct r; tauto. Qed.

(** ** Validity *)

Section valid.
Context (boolexp_Validate : string → bool).

Definition names (g : Graph) : list string := Name <$> nodes g.

Record edge_valid (tr : Transition) : Prop := {
  ev_from_end : tr_From tr ≠ END;
  ev_forEach : ForEach tr ≠ "" → WithGoto tr = false ∧ isFieldName (ForEach tr) = true;
  ev_as : As tr ≠ "" → ForEach tr ≠ "" ∧ isFieldName (As tr) = true;
  ev_onError : OnError tr = true →
    ForEach tr = "" ∧ WithGoto tr = false ∧ When tr = "" ∧ tr_From tr ≠ tr_To tr;
  ev_switch : Switch tr = true →
    ForEach tr = "" ∧ WithGoto tr = false ∧ OnError tr = false ∧ When tr ≠ "";
  ev_when : When tr ≠ "" → boolexp_Validate (When tr) = true
}.

Definition onErrorFrom (trs : list Transition) : list string :=
  tr_From <$> filter (λ tr, OnError tr = true) trs.

Record valid (g : Graph) : Prop := {
  va_name : name g ≠ "";
  va_nodes : nodes g ≠ [];
  va_distinct : NoDup (names g);
  va_no_end : END ∉ names g;
  va_urls : ∀ n, n ∈ nodes g → URL n ≠ "";
  va_entry : entryPoint g ∈ names g;
  va_fanIn : ∀ f, f ∈ fanInNodes g → f ∈ names g;
  va_ends : ∀ tr, tr ∈ transitions g → tr_From tr ∈ names g ∧ (tr_To tr = END ∨ tr_To tr ∈ names g);
  va_edges : ∀ tr, tr ∈ transitions g → edge_valid tr;
  va_onError : NoDup (onErrorFrom (transitions g));
  va_reducers : ∀ f, is_Some (reducers g !! f) → isFieldName f = true;
  va_switch : ∀ tr sw, tr ∈ transitions g → sw ∈ transitions g → Switch sw = true →
    tr_From tr = tr_From sw → control_edge tr = true;
  va_reach : ∀ n, n ∈ names g → reaches g n;
  va_end : ∃ tr, tr ∈ transitions g ∧ tr_To tr = END;
  va_scoped : well_scoped g
}.

Definition nodes_valid (ns : list Node) : Prop :=
  NoDup (Name <$> ns) ∧ (END ∉ Name <$> ns) ∧ (∀ n, n ∈ ns → URL n ≠ "").

Lemma validate_nodes_spec ns :
  match validate_nodes ns with
  | Ok nodeSet => nodeSet = {[END]} ∪ list_to_set (Name <$> ns) ∧ nodes_valid ns
  | Err e => e ≠ ErrOutOfFuel ∧ ¬ nodes_valid ns
  end.
Proof.
  unfold validate_nodes.
  apply (fold_err_spec _ (λ pre nodeSet,
    nodeSet = {[END]} ∪ list_to_set (Name <$> pre) ∧ nodes_valid pre)); unfold nodes_valid.
  - split_and!; [set_solver|constructor|set_solver|set_solver].
  - intros pre n post nodeSet -> (-> & Hnd & Hend & Hurl). rewrite !fmap_app, !fmap_cons.
    unfold check. case_bool_decide as Hin.
    { split; [done|]. rewrite elem_of_union, elem_of_singleton, elem_of_list_to_set in Hin.
      intros ([_ [Hdis _]]%NoDup_app & Hne & _). set_solver. }
    case_bool_decide as Hu; [split; [done|]; intros (_ & _ & Hall); apply (Hall n); set_solver|].
    split_and!.
    + simpl. rewrite list_to_set_app_L. set_solver.
    + apply NoDup_app. split_and!; [done|set_solver|apply NoDup_singleton].
    + set_solver.
    + set_solver.
Qed.

Lemma nonempty_true s : nonempty s = true ↔ s ≠ "".
Proof. unfold nonempty. rewrite negb_true_iff, bool_decide_eq_false. done. Qed.
Lemma nonempty_false s : nonempty s = false ↔ s = "".
Proof. unfold nonempty. rewrite negb_false_iff, bool_decide_eq_true. done. Qed.

(** A guard [b && c] that did not fire, read as an implication. *)
Lemma guard_bool b (P : Prop) : b = false ∨ P ↔ (b = true → P).
Proof. destruct b; naive_solver. Qed.
Lemma guard_string s (P : Prop) : s = "" ∨ P ↔ (s ≠ "" → P).
Proof. destruct (decide (s = "")); naive_solver. Qed.

Definition transition_valid (nodeSet seen : gset string) (tr : Transition) : Prop :=
  tr_From tr ∈ nodeSet ∧ tr_To tr ∈ nodeSet ∧ edge_valid tr ∧
  (OnError tr = true → tr_From tr ∉ seen).

Lemma validate_transition_Ok nodeSet seen tr seen' :
  validate_transition boolexp_Validate nodeSet seen tr = Ok seen' ↔
  transition_valid nodeSet seen tr ∧
  seen' = if OnError tr then {[tr_From tr]} ∪ seen else seen.
Proof.
  unfold validate_transition, transition_valid. rewrite !check_Ok.
  rewrite !andb_false_iff, !orb_false_iff, !negb_false_iff, !bool_decide_eq_false, !nonempty_false,
    !nonempty_true, !guard_bool, !guard_string.
  split.
  - intros (?&?&?&?&Has&Herr&Herr2&Hseen&Hsw&Hsw2&?&?&?&?&[= <-]). split; [|done].
    split_and!; [by apply dec_stable..| |done].
    split; [done|by auto|by auto| | |done].
    + intros Ht. destruct (Herr Ht). by auto.
    + intros Ht. destruct (Hsw Ht) as [[??]?]. by auto.
  - intros [(?&?&[? Hfe Has Herr Hsw Hwh]&?) ->].
    split_and!; try done; intros Ht; try (destruct (Hfe Ht)); try (destruct (Has Ht));
      try (destruct (Herr Ht) as (?&?&?&?)); try (destruct (Hsw Ht) as (?&?&?&?)); by auto.
Qed.

Definition transitions_valid (nodeSet : gset string) (trs : list Transition) : Prop :=
  (∀ tr, tr ∈ trs → tr_From tr ∈ nodeSet ∧ tr_To tr ∈ nodeSet ∧ edge_valid tr) ∧
  NoDup (onErrorFrom trs).

Lemma onErrorFrom_cons tr trs :
  onErrorFrom (tr :: trs) = if OnError tr then tr_From tr :: onErrorFrom trs else onErrorFrom trs.
Proof. unfold onErrorFrom. rewrite filter_cons. destruct (OnError tr); by case_decide. Qed.

Lemma onErrorFrom_app l1 l2 : onErrorFrom (l1 ++ l2) = onErrorFrom l1 ++ onErrorFrom l2.
Proof. unfold onErrorFrom. by rewrite filter_app, fmap_app. Qed.

Lemma validate_transition_Err nodeSet seen tr e :
  validate_transition boolexp_Validate nodeSet seen tr = Err e →
  e ≠ ErrOutOfFuel ∧ ¬ transition_valid nodeSet seen tr.
Proof.
  intros He. split.
  - intros ->. unfold validate_transition, check in He. by repeat case_match.
  - intros Hv. rewrite (proj2 (validate_transition_Ok nodeSet seen tr _) (conj Hv eq_refl)) in He. done.
Qed.

Lemma validate_transitions_spec nodeSet trs :
  match fold_err (validate_transition boolexp_Validate nodeSet) ∅ trs with
  | Ok _ => transitions_valid nodeSet trs
  | Err e => e ≠ ErrOutOfFuel ∧ ¬ transitions_valid nodeSet trs
  end.
Proof.
  assert (match fold_err (validate_transition boolexp_Validate nodeSet) ∅ trs with
          | Ok seen => seen = list_to_set (onErrorFrom trs) ∧ transitions_valid nodeSet trs
          | Err e => e ≠ ErrOutOfFuel ∧ ¬ transitions_valid nodeSet trs
          end) as H; [|destruct (fold_err _ _ _); tauto].
  apply (fold_err_spec _ (λ pre seen,
    seen = list_to_set (onErrorFrom pre) ∧ transitions_valid nodeSet pre));
    [split_and!; [done|split; [set_solver|constructor]]|].
  intros pre tr post seen -> (-> & Hall & Hnd).
  destruct (validate_transition _ _ _ _) as [seen'|e] eqn:Hv.
  - apply validate_transition_Ok in Hv as [(Hf & Ht & Hev & Hseen) ->].
    unfold transitions_valid. rewrite onErrorFrom_app, onErrorFrom_cons. split; [|split].
    + destruct (OnError tr); rewrite list_to_set_app_L; set_solver.
    + intros tr' [Htr'| ->%list_elem_of_singleton]%elem_of_app; [by apply Hall|done].
    + apply NoDup_app. split; [done|]. destruct (OnError tr); [|by split; [set_solver|constructor]].
      specialize (Hseen eq_refl). split; [set_solver|apply NoDup_singleton].
  - destruct (validate_transition_Err _ _ _ _ Hv) as [Hne Hnv]. split; [done|].
    intros [Hall' Hnd']. apply Hnv. destruct (Hall' tr ltac:(set_solver)) as (?&?&?).
    split_and!; [done..|]. intros Hon.
    rewrite onErrorFrom_app, onErrorFrom_cons, Hon in Hnd'. apply NoDup_app in Hnd' as (_ & Hd & _).
    rewrite elem_of_list_to_set. intros Hin. apply (Hd _ Hin). by left.
Qed.

Definition switch_unmixed (trs : list Transition) : Prop :=
  ∀ tr sw, tr ∈ trs → sw ∈ trs → Switch sw = true → tr_From tr = tr_From sw → control_edge tr = true.

Lemma validate_switch_spec trs :
  let hasSwitchFrom := list_to_set (tr_From <$> filter (λ tr, Switch tr = true) trs) in
  match run_checks (validate_switch hasSwitchFrom) trs with
  | Ok _ => switch_unmixed trs
  | Err e => e ≠ ErrOutOfFuel ∧ ¬ switch_unmixed trs
  end.
Proof.
  intros hasSwitchFrom.
  assert (∀ tr, tr_From tr ∈ hasSwitchFrom ↔ ∃ sw, sw ∈ trs ∧ Switch sw = true ∧ tr_From tr = tr_From sw) as Hsw.
  { intros tr. unfold hasSwitchFrom. rewrite elem_of_list_to_set, list_elem_of_fmap.
    setoid_rewrite list_elem_of_filter. naive_solver. }
  destruct (run_checks _ _) as [[]|e] eqn:Hr.
  - apply run_checks_Ok in Hr. rewrite Forall_forall in Hr. intros tr sw Htr Hin Hs Hf.
    specialize (Hr tr Htr). unfold validate_switch in Hr. case_match eqn:Hc; [|done].
    unfold control_edge. apply orb_true_iff in Hc as [Hc| ->]; [|done].
    apply orb_true_iff in Hc as [Hc| ->]; [|by rewrite orb_true_r].
    apply orb_true_iff in Hc as [Hc| ->]; [|by rewrite orb_true_r].
    apply bool_decide_eq_true in Hc. destruct Hc. apply Hsw. by exists sw.
  - destruct (run_checks_Err _ _ _ Hr) as (tr & Htr & He). unfold validate_switch in He.
    case_match eqn:Hc; [done|]. simplify_eq. split; [done|]. intros Hu.
    rewrite !orb_false_iff, bool_decide_eq_false in Hc. destruct Hc as [[[Hc H1] H2] H3].
    apply dec_stable in Hc. apply Hsw in Hc as (sw & Hin & Hs & Hf).
    specialize (Hu tr sw Htr Hin Hs Hf). unfold control_edge in Hu. rewrite H1, H2, H3 in Hu. done.
Qed.

Definition node_set (g : Graph) : gset string := {[END]} ∪ list_to_set (names g).

Lemma elem_of_node_set g x : x ∈ node_set g ↔ x = END ∨ x ∈ names g.
Proof. unfold node_set. rewrite elem_of_union, elem_of_singleton, elem_of_list_to_set. done. Qed.

(** The conditions in the order the code tests them. *)
Definition tested (g : Graph) : Prop :=
  name g ≠ "" ∧ nodes g ≠ [] ∧ nodes_valid (nodes g) ∧ entryPoint g ∈ node_set g ∧
  (∀ f, f ∈ elements (fanInNodes g) → f ∈ node_set g ∧ f ≠ END ∧ True) ∧
  transitions_valid (node_set g) (transitions g) ∧
  (∀ f, f ∈ merge_sort String.le (elements (dom (reducers g))) → isFieldName f = true ∧ True) ∧
  switch_unmixed (transitions g) ∧ True ∧
  (∀ n, n ∈ nodes g → reaches g (Name n) ∧ True) ∧
  (∃ tr, tr ∈ transitions g ∧ tr_To tr = END) ∧ well_scoped g.

Lemma decides_unit_iff r P : match r with Ok _ => P | Err e => e ≠ ErrOutOfFuel ∧ ¬ P end →
  decides (A:=unit) r P (λ _, True).
Proof. unfold decides. destruct r; tauto. Qed.

Lemma Validate_tested g : decides (Validate boolexp_Validate g) (tested g) (λ _, True).
Proof.
  unfold Validate, tested.
  apply decides_check; [by rewrite bool_decide_eq_false|done|intros _].
  apply decides_check; [by rewrite bool_decide_eq_false|done|intros _].
  apply (decides_bind _ _ _ _ (λ S, S = node_set g)).
  { pose proof (validate_nodes_spec (nodes g)). unfold decides. destruct (validate_nodes _); tauto. }
  intros ? (_ & Hend & _) ->.
  apply decides_check; [rewrite bool_decide_eq_false; split; [apply dec_stable|tauto]|done|intros _].
  apply (decides_bind _ _ _ _ (λ _, True)).
  { apply decides_run_checks. intros f _. unfold validate_fan_in.
    apply decides_check; [rewrite bool_decide_eq_false; split; [apply dec_stable|tauto]|done|intros _].
    apply decides_check; [by rewrite bool_decide_eq_false|done|done]. }
  intros _ _ _. apply (decides_bind _ _ _ _ (λ _, True)).
  { pose proof (validate_transitions_spec (node_set g) (transitions g)). unfold decides.
    destruct (fold_err _ _ _); tauto. }
  intros _ _ _. apply (decides_bind _ _ _ _ (λ _, True)).
  { apply decides_run_checks. intros f _. unfold validate_reducer.
    apply decides_check; [by rewrite negb_false_iff|done|done]. }
  intros _ _ _. apply (decides_bind _ _ _ _ (λ _, True)).
  { apply decides_unit_iff, validate_switch_spec. }
  intros _ _ _. apply (decides_bind _ _ _ _ (λ R, ∀ x, x ∈ R ↔ reaches g x)).
  { destruct (reachable_from_spec g) as (R & -> & HR). by split. }
  intros R _ HR. apply (decides_bind _ _ _ _ (λ _, True)).
  { apply decides_run_checks. intros n _.
    apply decides_check; [|done|done]. rewrite bool_decide_eq_false, <-HR.
    split; [apply dec_stable|tauto]. }
  intros _ _ _. apply decides_check; [|done|intros _].
  - rewrite negb_false_iff, existsb_exists. setoid_rewrite bool_decide_eq_true.
    setoid_rewrite list_elem_of_In. done.
  - apply decides_unit_iff. pose proof (validateLineage_spec g). destruct (validateLineage g); tauto.
Qed.

Lemma tested_valid g : tested g ↔ valid g.
Proof.
  unfold tested, nodes_valid, transitions_valid. split.
  - intros (H1 & H2 & (H3 & H4 & H5) & H6 & H7 & (H8 & H9) & H10 & H11 & _ & H12 & H13 & H14).
    assert (∀ tr, tr ∈ transitions g → tr_From tr ∈ names g ∧ (tr_To tr = END ∨ tr_To tr ∈ names g)) as He.
    { intros tr Htr. destruct (H8 tr Htr) as (Hf & Ht & Hev). split; [|by apply elem_of_node_set].
      apply elem_of_node_set in Hf as [Hf|Hf]; [by destruct (ev_from_end _ Hev)|done]. }
    assert (∀ n, n ∈ names g → reaches g n) as Hr.
    { intros n (n' & -> & Hn)%list_elem_of_fmap. apply H12, Hn. }
    split; try done.
    + apply elem_of_node_set in H6 as [H6|H6]; [exfalso|done].
      destruct (nodes g) as [|n ns] eqn:Hns; [done|].
      assert (∀ x, reaches g x → x = END) as Honly.
      { intros x Hx. induction Hx as [|tr Htr _ IH]; [done|].
        destruct (H8 tr Htr) as (_ & _ & Hev). by destruct (ev_from_end _ Hev). }
      apply H4. rewrite <-(Honly (Name n)); [simpl; by left|]. apply H12. by left.
    + intros f Hf%elem_of_elements. destruct (H7 f Hf) as (Hs & Hne & _).
      apply elem_of_node_set in Hs. tauto.
    + intros tr Htr. apply H8, Htr.
    + intros f Hf%elem_of_dom. apply H10. rewrite merge_sort_Permutation. by apply elem_of_elements.
  - intros []. split_and!; try done.
    + apply elem_of_node_set. by right.
    + intros f Hf%elem_of_elements. pose proof (va_fanIn0 f Hf). split_and!; [|by intros ->|done].
      apply elem_of_node_set. by right.
    + intros tr Htr. destruct (va_ends0 tr Htr). split_and!; [| |by auto]; apply elem_of_node_set; tauto.
    + intros f. rewrite merge_sort_Permutation. intros Hf%elem_of_elements%elem_of_dom. by auto.
    + intros n Hn. split; [|done]. apply va_reach0. by apply list_elem_of_fmap_2.
Qed.

Lemma Validate_decides g : decides (Validate boolexp_Validate g) (valid g) (λ _, True).
Proof. eapply decides_iff; [apply tested_valid|apply Validate_tested]. Qed.
End valid.

(** ** Properties *)

(** C6. [Validate] decides validity: it answers [nil] exactly on the graphs that satisfy every
    condition of [valid] (names, endpoints, edge rules, one onError edge per node, unmixed switches,
    reachability over paths, an edge to END and the fan-out discipline of [well_scoped]), and both of
    its graph walks always run to the end within their fuel. *)
Theorem Validate_iff_valid (boolexp_Validate : string → bool) (g : Graph) :
  (Validate boolexp_Validate g = Ok () ↔ valid boolexp_Validate g) ∧
  Validate boolexp_Validate g ≠ Err ErrOutOfFuel.
Proof.
  pose proof (Validate_decides boolexp_Validate g) as H. unfold decides in H.
  destruct (Validate _ g) as [[]|e]; naive_solver.
Qed.
