(* ===== verification/Wire.v ===== *)
(** * The JSON form of a graph ([workflow/graph.go])

    [Graph.MarshalJSON] and [Graph.UnmarshalJSON] over the text of [Json].  A graph is frozen into a
    column when its flow is created and every step reads it from there, so what the engine executes is
    the graph as it reads back.  The column is a JSON type on some databases, which hand the document
    back with its members in an order of their own.

    Decoding into a struct is [encoding/json]'s: a key matches a field up to case, the last of several
    members wins, a null leaves the field as it is, unknown members are skipped, and a slice is decoded into
    the array it has.  Of several mismatched types the first is reported. *)

From Stdlib Require Import Ascii.
From S2P Require Import Prelude Json Graph Validate.

Inductive json_error := SyntaxError | UnmarshalTypeError.

(** ** Decoding into Go values *)

Definition upper (c : ascii) : ascii := if within 97 122 c then ascii_of_N (code c - 32) else c.
(** [foldName]: of the runes that are not ASCII only the long s and the Kelvin sign fold to a letter that is. *)
Definition fold_rune (r : rune) : string :=
  match r with
  | RByte c => String (upper c) EmptyString
  | RSeq s => if bool_decide (s = str [197; 191]%N) then "S" else if bool_decide (s = str [226; 132; 170]%N) then "K" else s
  | RBad => replacement
  end.
Definition fold_key (k : string) : string := flat (fold_rune <$> runes k).
Definition field_is (field key : string) : bool := bool_decide (fold_key key = fold_key field).

Definition dec_string (j : json) (cur : string) : option string :=
  match j with JStr s => Some s | JNull => Some cur | _ => None end.
Definition dec_bool (j : json) (cur : bool) : option bool :=
  match j with JBool b => Some b | JNull => Some cur | _ => None end.

Fixpoint dec_members {A} (field : string → json → A → option A) (m : list (string * json)) (a : A) : option A :=
  match m with [] => Some a | (k, j) :: m => a ← field k j a; dec_members field m a end.
Definition dec_struct {A} (field : string → json → A → option A) (j : json) (a : A) : option A :=
  match j with JObj m => dec_members field m a | JNull => Some a | _ => None end.

(** A Go slice: its array, with what an earlier and longer value left beyond the length, and its length. *)
Definition gslice (A : Type) : Type := list A * nat.
Definition items {A} (s : gslice A) : list A := take s.2 s.1.

Fixpoint dec_items {A} (zero : A) (dec : json → A → option A) (l : list json) (array : list A) : option (list A) :=
  match l with
  | [] => Some array
  | j :: l => x ← dec j (default zero (head array)); rest ← dec_items zero dec l (tail array); Some (x :: rest)
  end.
Definition dec_slice {A} (zero : A) (dec : json → A → option A) (j : json) (cur : gslice A) : option (gslice A) :=
  match j with
  | JNull | JArr [] => Some ([], 0%nat)
  | JArr l => array ← dec_items zero dec l cur.1; Some (array, length l)
  | _ => None
  end.

Fixpoint dec_entries (m : list (string * json)) (cur : gmap string string) : option (gmap string string) :=
  match m with [] => Some cur | (k, j) :: m => v ← dec_string j ""; dec_entries m (<[k := v]> cur) end.
Definition dec_map (j : json) (cur : gmap string string) : option (gmap string string) :=
  match j with JObj m => dec_entries m cur | JNull => Some ∅ | _ => None end.

(** ** The wire format *)

Record jsonTask := mkJsonTask { jt_Name : string; jt_URL : string; jt_FanIn : bool }.
Record jsonGraph := mkJsonGraph {
  jg_Name : string;
  jg_EntryPoint : string;
  jg_Tasks : gslice jsonTask;
  jg_Transitions : gslice Transition;
  jg_Reducers : gmap string string
}.

Definition zero_task : jsonTask := mkJsonTask "" "" false.
Definition zero_transition : Transition := mkTransition "" "" "" false "" "" false false.
Definition zero_graph : jsonGraph := mkJsonGraph "" "" ([], 0%nat) ([], 0%nat) ∅.

Definition task_field (k : string) (j : json) (t : jsonTask) : option jsonTask :=
  if field_is "name" k then s ← dec_string j (jt_Name t); Some (mkJsonTask s (jt_URL t) (jt_FanIn t)) else
  if field_is "url" k then s ← dec_string j (jt_URL t); Some (mkJsonTask (jt_Name t) s (jt_FanIn t)) else
  if field_is "fanIn" k then b ← dec_bool j (jt_FanIn t); Some (mkJsonTask (jt_Name t) (jt_URL t) b) else Some t.

Definition transition_field (k : string) (j : json) (t : Transition) : option Transition :=
  let '(mkTransition from to when withGoto forEach as_ onError switch) := t in
  if field_is "from" k then s ← dec_string j from; Some (mkTransition s to when withGoto forEach as_ onError switch) else
  if field_is "to" k then s ← dec_string j to; Some (mkTransition from s when withGoto forEach as_ onError switch) else
  if field_is "when" k then s ← dec_string j when; Some (mkTransition from to s withGoto forEach as_ onError switch) else
  if field_is "withGoto" k then b ← dec_bool j withGoto; Some (mkTransition from to when b forEach as_ onError switch) else
  if field_is "forEach" k then s ← dec_string j forEach; Some (mkTransition from to when withGoto s as_ onError switch) else
  if field_is "as" k then s ← dec_string j as_; Some (mkTransition from to when withGoto forEach s onError switch) else
  if field_is "onError" k then b ← dec_bool j onError; Some (mkTransition from to when withGoto forEach as_ b switch) else
  if field_is "switch" k then b ← dec_bool j switch; Some (mkTransition from to when withGoto forEach as_ onError b) else Some t.

Definition graph_field (k : string) (j : json) (g : jsonGraph) : option jsonGraph :=
  let '(mkJsonGraph nm entry tasks trs reds) := g in
  if field_is "name" k then s ← dec_string j nm; Some (mkJsonGraph s entry tasks trs reds) else
  if field_is "entryPoint" k then s ← dec_string j entry; Some (mkJsonGraph nm s tasks trs reds) else
  if field_is "tasks" k then ts ← dec_slice zero_task (dec_struct task_field) j tasks; Some (mkJsonGraph nm entry ts trs reds) else
  if field_is "transitions" k then ts ← dec_slice zero_transition (dec_struct transition_field) j trs; Some (mkJsonGraph nm entry tasks ts reds) else
  if field_is "reducers" k then rs ← dec_map j reds; Some (mkJsonGraph nm entry tasks trs rs) else Some g.

(** A node without a URL is given its name; a fan-in mark is a node's. *)
Definition of_json (jg : jsonGraph) : Graph :=
  mkGraph (jg_Name jg) (jg_EntryPoint jg)
    ((λ t, mkNode (jt_Name t) (if bool_decide (jt_URL t = "") then jt_Name t else jt_URL t)) <$> items (jg_Tasks jg))
    (items (jg_Transitions jg)) (jg_Reducers jg)
    (list_to_set (jt_Name <$> filter (λ t, jt_FanIn t = true) (items (jg_Tasks jg)))).

Definition UnmarshalJSON (data : string) : result json_error Graph :=
  match parse data with
  | None => Err SyntaxError
  | Some doc => match dec_struct graph_field doc zero_graph with None => Err UnmarshalTypeError | Some jg => Ok (of_json jg) end
  end.

(** [omitzero]. *)
Definition opt_str (k v : string) : list (string * json) := if bool_decide (v = "") then [] else [(k, JStr v)].
Definition opt_bool (k : string) (b : bool) : list (string * json) := if b then [(k, JBool true)] else [].

Definition task_json (fanIn : gset string) (n : Node) : json :=
  JObj (("name", JStr (Name n)) :: opt_str "url" (URL n) ++ opt_bool "fanIn" (bool_decide (Name n ∈ fanIn))).

Definition transition_json (t : Transition) : json :=
  JObj ([("from", JStr (tr_From t)); ("to", JStr (tr_To t))] ++ opt_str "when" (When t) ++ opt_bool "withGoto" (WithGoto t) ++
    opt_str "forEach" (ForEach t) ++ opt_str "as" (As t) ++ opt_bool "onError" (OnError t) ++ opt_bool "switch" (Switch t)).

(** The members of a map are sorted by key.  A nil map is omitted, and [SetReducer] makes one only to
    write to it, so an empty one is nil. *)
Definition reducers_json (rs : gmap string string) : list (string * json) :=
  if bool_decide (rs = ∅) then [] else
  [("reducers", JObj ((λ k, (k, JStr (default "" (rs !! k)))) <$> merge_sort String.le (elements (dom rs))))].

Definition graph_json (g : Graph) : json :=
  JObj (opt_str "name" (name g) ++ [("entryPoint", JStr (entryPoint g)); ("tasks", JArr (task_json (fanInNodes g) <$> nodes g));
    ("transitions", JArr (transition_json <$> transitions g))] ++ reducers_json (reducers g)).

Definition MarshalJSON (g : Graph) : string := print_json (graph_json g).

(** ** Documents up to the order of their members *)

Inductive reordered : json → json → Prop :=
| re_null : reordered JNull JNull
| re_bool b : reordered (JBool b) (JBool b)
| re_num lit : reordered (JNum lit) (JNum lit)
| re_str s : reordered (JStr s) (JStr s)
| re_arr l l' : Forall2 reordered l l' → reordered (JArr l) (JArr l')
| re_obj m m1 m' : m ≡ₚ m1 → Forall2 (λ e e', e.1 = e'.1 ∧ reordered e.2 e'.2) m1 m' → reordered (JObj m) (JObj m').

Lemma reordered_refl j : reordered j j.
Proof.
  induction j as [|b|lit|s|l IH|m IH] using json_nested_ind; try constructor.
  - by apply Forall_Forall2_diag.
  - apply (re_obj m m m); [done|]. apply Forall_Forall2_diag. eapply Forall_impl; [exact IH|]. intros e He. by split.
Qed.

Definition scalar (j : json) : Prop := match j with JStr _ | JBool _ => True | _ => False end.

Lemma reordered_scalar j j' : scalar j → reordered j j' → j' = j.
Proof. intros Hs Hr. by destruct Hr. Qed.

Lemma reordered_scalars m j' : Forall (λ e, scalar e.2) m → reordered (JObj m) j' → ∃ m', j' = JObj m' ∧ m ≡ₚ m'.
Proof.
  intros Hm Hr. inversion Hr as [| | | | |m0 m1 m' Hp HF]; subst. exists m'. split; [done|]. rewrite Hp. rewrite Hp in Hm.
  assert (m1 = m') as ->; [|done]. clear Hp Hr. induction HF as [|[k j] [k' j'] m1 m' [Hk Hj] _ IH]; [done|].
  apply Forall_cons in Hm as [Hs Hm]. simpl in *. subst k'. rewrite (reordered_scalar _ _ Hs Hj). f_equal. by apply IH.
Qed.

(** ** Decoding does not depend on that order *)

Definition commutes {A} (field : string → json → A → option A) : Prop := ∀ k1 j1 k2 j2 a, fold_key k1 ≠ fold_key k2 →
  field k1 j1 a ≫= field k2 j2 = field k2 j2 a ≫= field k1 j1.

Definition distinct_keys {B} (m : list (string * B)) : Prop := NoDup ((λ e, fold_key e.1) <$> m).

Lemma dec_members_perm {A} (field : string → json → A → option A) m m' : commutes field → m ≡ₚ m' → distinct_keys m →
  ∀ a, dec_members field m a = dec_members field m' a.
Proof.
  intros Hc Hp. induction Hp as [|[k j] m m' _ IH|[k j] [k2 j2] m|m m1 m' Hp1 IH1 Hp2 IH2]; intros Hd a; [done| | |].
  - simpl. apply NoDup_cons in Hd as [_ Hd]. destruct (field k j a); [|done]. by apply IH.
  - simpl. apply NoDup_cons in Hd as [Hk _]. simpl in Hk. rewrite elem_of_cons in Hk.
    specialize (Hc k2 j2 k j a ltac:(naive_solver)).
    destruct (field k2 j2 a) as [b|], (field k j a) as [c|]; simpl in *; first [done|by rewrite Hc|by rewrite <-Hc].
  - rewrite IH1 by done. apply IH2. unfold distinct_keys. by rewrite <-Hp1.
Qed.

(** Both orders test the same keys and decode the same values. *)
Ltac fields_commute :=
  unfold field_is; repeat case_bool_decide; simpl; try congruence;
  repeat match goal with
  | |- context [dec_string ?j ?c] => destruct (dec_string j c) eqn:?; simpl
  | |- context [dec_bool ?j ?c] => destruct (dec_bool j c) eqn:?; simpl
  | |- context [dec_map ?j ?c] => destruct (dec_map j c) eqn:?; simpl
  | |- context [dec_slice ?z ?d ?j ?c] => destruct (dec_slice z d j c) eqn:?; simpl
  end; congruence.

Lemma task_commutes : commutes task_field.
Proof. intros k1 j1 k2 j2 [nm url fanIn] Hk. unfold task_field. fields_commute. Qed.

Lemma transition_commutes : commutes transition_field.
Proof. intros k1 j1 k2 j2 [from to when withGoto forEach as_ onError switch] Hk. unfold transition_field. fields_commute. Qed.

Lemma graph_commutes : commutes graph_field.
Proof. intros k1 j1 k2 j2 [nm entry tasks trs reds] Hk. unfold graph_field. fields_commute. Qed.

(** Of one member at a time. *)
Lemma dec_members_related {A} (field : string → json → A → option A) m m' :
  Forall2 (λ e e', e.1 = e'.1 ∧ ∀ a, field e.1 e.2 a = field e.1 e'.2 a) m m' → ∀ a, dec_members field m a = dec_members field m' a.
Proof.
  intros HF. induction HF as [|[k j] [k' j'] m m' [Hk Hj] _ IH]; intros a; [done|]. simpl in *. subst k'. rewrite Hj.
  destruct (field k j' a); simpl; [apply IH|done].
Qed.

Definition flat_doc (m : list (string * json)) : Prop := Forall (λ e, scalar e.2) m ∧ distinct_keys m.

Lemma dec_struct_reordered {A} (field : string → json → A → option A) m j' : commutes field → flat_doc m →
  reordered (JObj m) j' → ∀ a, dec_struct field j' a = dec_struct field (JObj m) a.
Proof.
  intros Hc [Hs Hd] Hr a. destruct (reordered_scalars m j' Hs Hr) as (m' & -> & Hp). simpl. symmetry. by apply dec_members_perm.
Qed.

Lemma dec_items_ext {A} (zero : A) (dec : json → A → option A) l l' : Forall2 (λ j j', ∀ a, dec j a = dec j' a) l l' →
  ∀ array, dec_items zero dec l array = dec_items zero dec l' array.
Proof.
  intros HF. induction HF as [|j j' l l' Hj _ IH]; intros array; [done|]. simpl. rewrite Hj.
  destruct (dec j' _); simpl; [|done]. by rewrite IH.
Qed.

Lemma dec_slice_reordered {A} (zero : A) (dec : json → A → option A) l j' :
  Forall (λ j, ∀ j2, reordered j j2 → ∀ a, dec j2 a = dec j a) l → reordered (JArr l) j' →
  ∀ cur, dec_slice zero dec j' cur = dec_slice zero dec (JArr l) cur.
Proof.
  intros Hl Hr cur. inversion Hr as [| | | |l0 l' HF|]; subst.
  assert (Forall2 (λ j j', ∀ a, dec j a = dec j' a) l' l) as He.
  { clear Hr. induction HF as [|j j2 l l' Hj _ IH]; [done|]. apply Forall_cons in Hl as [Hj1 Hl]. constructor; [by apply Hj1|by apply IH]. }
  destruct HF as [|j j2 l l' Hj HF]; [done|]. unfold dec_slice. rewrite (dec_items_ext _ _ _ _ He). by rewrite (Forall2_length _ _ _ He).
Qed.

(** *** The parts of a graph *)

Definition as_task (fanIn : gset string) (n : Node) : jsonTask := mkJsonTask (Name n) (URL n) (bool_decide (Name n ∈ fanIn)).

Lemma flat_docP m : forallb (λ e, match e.2 with JStr _ | JBool _ => true | _ => false end) m = true →
  bool_decide (NoDup ((λ e, fold_key e.1) <$> m)) = true → flat_doc m.
Proof.
  intros Hs Hd%bool_decide_eq_true. split; [|done]. clear Hd.
  induction m as [|[k j] m IH]; [constructor|]. simpl in Hs. apply andb_true_iff in Hs as [H Hs]. constructor; [by destruct j|by apply IH].
Qed.

Lemma task_flat (fanIn : gset string) n : flat_doc (("name", JStr (Name n)) :: opt_str "url" (URL n) ++ opt_bool "fanIn" (bool_decide (Name n ∈ fanIn))).
Proof. unfold opt_str, opt_bool. repeat case_bool_decide; by apply flat_docP. Qed.

Lemma task_reads (fanIn : gset string) n : dec_struct task_field (task_json fanIn n) zero_task = Some (as_task fanIn n).
Proof. destruct n as [nm url]. unfold task_json, as_task, opt_str, opt_bool. simpl. repeat case_bool_decide; by subst. Qed.

Lemma transition_flat t : flat_doc ([("from", JStr (tr_From t)); ("to", JStr (tr_To t))] ++ opt_str "when" (When t) ++ opt_bool "withGoto" (WithGoto t) ++
    opt_str "forEach" (ForEach t) ++ opt_str "as" (As t) ++ opt_bool "onError" (OnError t) ++ opt_bool "switch" (Switch t)).
Proof.
  unfold opt_str, opt_bool. destruct (WithGoto t), (OnError t), (Switch t); repeat case_bool_decide; by apply flat_docP.
Qed.

Lemma transition_reads t : dec_struct transition_field (transition_json t) zero_transition = Some t.
Proof.
  destruct t as [from to when [] forEach as_ [] []]; unfold transition_json, opt_str, opt_bool; simpl; repeat case_bool_decide; by subst.
Qed.

(** The sorted entries of the reducers. *)
Lemma dec_entries_lookup (rs : gmap string string) ks : NoDup ks → ∀ cur, ∃ m, dec_entries ((λ k, (k, JStr (default "" (rs !! k)))) <$> ks) cur = Some m ∧
  ∀ k, m !! k = if bool_decide (k ∈ ks) then Some (default "" (rs !! k)) else cur !! k.
Proof.
  intros Hks. induction Hks as [|k ks Hk _ IH]; intros cur; simpl; [by exists cur|].
  destruct (IH (<[k := default "" (rs !! k)]> cur)) as (m & Hm & Hl). exists m. split; [done|]. intros k'. rewrite Hl.
  destruct (decide (k' = k)) as [->|Hne].
  - rewrite bool_decide_eq_false_2, lookup_insert_eq, bool_decide_eq_true_2; [done|by left|done].
  - rewrite lookup_insert_ne by done. rewrite (bool_decide_ext (k' ∈ k :: ks) (k' ∈ ks)); [done|]. rewrite elem_of_cons. tauto.
Qed.

Lemma dec_entries_perm m m' : m ≡ₚ m' → NoDup m.*1 → ∀ cur, dec_entries m cur = dec_entries m' cur.
Proof.
  intros Hp. induction Hp as [|[k j] m m' _ IH|[k j] [k2 j2] m|m m1 m' Hp1 IH1 Hp2 IH2]; intros Hd cur; [done| | |].
  - simpl. apply NoDup_cons in Hd as [_ Hd]. destruct (dec_string j ""); [|done]. by apply IH.
  - simpl. apply NoDup_cons in Hd as [Hk _]. simpl in Hk. rewrite elem_of_cons in Hk.
    assert (k ≠ k2) by naive_solver.
    destruct (dec_string j2 ""), (dec_string j ""); simpl; try done. by rewrite insert_insert_ne.
  - rewrite IH1 by done. apply IH2. by rewrite <-Hp1.
Qed.

Definition sorted_keys (rs : gmap string string) : list string := merge_sort String.le (elements (dom rs)).

Lemma sorted_keys_spec rs : NoDup (sorted_keys rs) ∧ ∀ k, k ∈ sorted_keys rs ↔ is_Some (rs !! k).
Proof.
  unfold sorted_keys. split; [rewrite merge_sort_Permutation; apply NoDup_elements|]. intros k.
  rewrite merge_sort_Permutation, elem_of_elements. apply elem_of_dom.
Qed.

Lemma reducers_read rs j' : reordered (JObj ((λ k, (k, JStr (default "" (rs !! k)))) <$> sorted_keys rs)) j' → dec_map j' ∅ = Some rs.
Proof.
  intros Hr. destruct (sorted_keys_spec rs) as [Hnd Hin].
  edestruct reordered_scalars as (m' & -> & Hp); [|exact Hr|]; [by apply Forall_fmap, Forall_true|]. simpl.
  rewrite <-(dec_entries_perm _ _ Hp); [|by rewrite <-list_fmap_compose, list_fmap_id].
  destruct (dec_entries_lookup rs _ Hnd ∅) as (m & -> & Hl). f_equal. apply map_eq. intros k. rewrite Hl.
  case_bool_decide as Hk; [|rewrite lookup_empty; symmetry; apply eq_None_not_Some; by rewrite <-Hin].
  apply Hin in Hk as [v ->]. done.
Qed.

(** ** The graph that was frozen is the graph that is read *)

(** What freezing makes of a graph: a node without a URL gets its name, and a fan-in mark on a name that is
    no node's is lost. *)
Definition as_frozen (g : Graph) : Graph :=
  mkGraph (name g) (entryPoint g) ((λ n, mkNode (Name n) (if bool_decide (URL n = "") then Name n else URL n)) <$> nodes g)
    (transitions g) (reducers g) (filter (λ n, n ∈ Name <$> nodes g) (fanInNodes g)).

Definition utf8_graph (g : Graph) : bool :=
  valid_utf8 (name g) && valid_utf8 (entryPoint g) && forallb (λ n, valid_utf8 (Name n) && valid_utf8 (URL n)) (nodes g)
  && forallb (λ t, valid_utf8 (tr_From t) && valid_utf8 (tr_To t) && valid_utf8 (When t) && valid_utf8 (ForEach t) && valid_utf8 (As t)) (transitions g)
  && forallb (λ k, valid_utf8 k && valid_utf8 (default "" (reducers g !! k))) (sorted_keys (reducers g)).

Lemma dec_items_fmap {A B} (zero : A) (dec : json → A → option A) (f : B → json) (h : B → A) l :
  (∀ x, x ∈ l → dec (f x) zero = Some (h x)) → dec_items zero dec (f <$> l) [] = Some (h <$> l).
Proof.
  induction l as [|x l IH]; intros H; [done|].
  change ((y ← dec (f x) zero; rest ← dec_items zero dec (f <$> l) []; Some (y :: rest)) = Some (h x :: (h <$> l))).
  rewrite H by (by left). cbn [mbind option_bind]. by rewrite IH by (intros; apply H; by right).
Qed.

Lemma dec_slice_fmap {A B} (zero : A) (dec : json → A → option A) (f : B → json) (h : B → A) l :
  (∀ x, x ∈ l → dec (f x) zero = Some (h x)) → dec_slice zero dec (JArr (f <$> l)) ([], 0%nat) = Some (h <$> l, length l).
Proof.
  intros H. destruct l as [|x l]; [done|]. unfold dec_slice. rewrite fmap_cons at 1. simpl fst.
  rewrite (dec_items_fmap _ _ _ h) by done. simpl. by rewrite length_fmap.
Qed.

Definition as_json (g : Graph) : jsonGraph :=
  mkJsonGraph (name g) (entryPoint g) (as_task (fanInNodes g) <$> nodes g, length (nodes g)) (transitions g, length (transitions g)) (reducers g).

Section graph_fields.
Context (nm entry : string) (tasks : gslice jsonTask) (trs : gslice Transition) (reds : gmap string string) (j : json).
Let jg := mkJsonGraph nm entry tasks trs reds.
Lemma gf_name : graph_field "name" j jg = (s ← dec_string j nm; Some (mkJsonGraph s entry tasks trs reds)).
Proof. done. Qed.
Lemma gf_entry : graph_field "entryPoint" j jg = (s ← dec_string j entry; Some (mkJsonGraph nm s tasks trs reds)).
Proof. done. Qed.
Lemma gf_tasks : graph_field "tasks" j jg =
  (ts ← dec_slice zero_task (dec_struct task_field) j tasks; Some (mkJsonGraph nm entry ts trs reds)).
Proof. done. Qed.
Lemma gf_transitions : graph_field "transitions" j jg =
  (ts ← dec_slice zero_transition (dec_struct transition_field) j trs; Some (mkJsonGraph nm entry tasks ts reds)).
Proof. done. Qed.
Lemma gf_reducers : graph_field "reducers" j jg = (rs ← dec_map j reds; Some (mkJsonGraph nm entry tasks trs rs)).
Proof. done. Qed.
End graph_fields.

Lemma graph_tree_reads g : dec_struct graph_field (graph_json g) zero_graph = Some (as_json g).
Proof.
  pose proof (dec_slice_fmap zero_task (dec_struct task_field) (task_json (fanInNodes g)) (as_task (fanInNodes g)) (nodes g)
    (λ n _, task_reads _ n)) as Ht.
  pose proof (dec_slice_fmap zero_transition (dec_struct transition_field) transition_json id (transitions g) (λ t _, transition_reads t)) as Htr.
  pose proof (reducers_read (reducers g) _ (reordered_refl _)) as Hr.
  destruct g as [nm entry ns trs reds fan]. cbn [name entryPoint nodes transitions reducers fanInNodes] in *. rewrite list_fmap_id in Htr.
  unfold graph_json, opt_str, reducers_json, as_json. cbn [name entryPoint nodes transitions reducers fanInNodes]. fold (sorted_keys reds).
  unfold zero_graph. cbn [dec_struct].
  repeat case_bool_decide; subst; cbn [app dec_members]; rewrite ?gf_name; cbn [dec_string mbind option_bind]; rewrite gf_entry;
    cbn [dec_string mbind option_bind]; rewrite gf_tasks, Ht; cbn [mbind option_bind]; rewrite gf_transitions, Htr; cbn [mbind option_bind];
    rewrite ?gf_reducers, ?Hr; done.
Qed.

Definition indifferent (e : string * json) : Prop := ∀ j', reordered e.2 j' → ∀ a, graph_field e.1 j' a = graph_field e.1 e.2 a.

Lemma scalar_indifferent k j : scalar j → indifferent (k, j).
Proof. intros Hs j' Hr a. simpl in *. by rewrite (reordered_scalar _ _ Hs Hr). Qed.

Lemma graph_members_indifferent g : ∃ m, graph_json g = JObj m ∧ Forall indifferent m ∧ distinct_keys m.
Proof.
  assert (indifferent ("tasks", JArr (task_json (fanInNodes g) <$> nodes g))) as Ht.
  { intros j' Hr [nm entry tasks trs reds]. cbn [fst snd] in *. rewrite !gf_tasks. erewrite dec_slice_reordered; [done| |exact Hr].
    apply Forall_fmap, Forall_true. intros n j2 Hj2 a. apply (dec_struct_reordered _ _ _ task_commutes (task_flat _ n) Hj2). }
  assert (indifferent ("transitions", JArr (transition_json <$> transitions g))) as Htr.
  { intros j' Hr [nm entry tasks trs reds]. cbn [fst snd] in *. rewrite !gf_transitions. erewrite dec_slice_reordered; [done| |exact Hr].
    apply Forall_fmap, Forall_true. intros t j2 Hj2 a. apply (dec_struct_reordered _ _ _ transition_commutes (transition_flat t) Hj2). }
  assert (indifferent ("reducers", JObj ((λ k, (k, JStr (default "" (reducers g !! k)))) <$> sorted_keys (reducers g)))) as Hrd.
  { intros j' Hr [nm entry tasks trs reds]. cbn [fst snd] in *. rewrite !gf_reducers.
    edestruct reordered_scalars as (m' & -> & Hp); [|exact Hr|]; [by apply Forall_fmap, Forall_true|]. cbn [dec_map].
    rewrite (dec_entries_perm _ _ Hp); [done|]. rewrite <-list_fmap_compose, list_fmap_id. apply sorted_keys_spec. }
  eexists. split; [reflexivity|]. unfold opt_str, reducers_json. fold (sorted_keys (reducers g)).
  repeat case_bool_decide; cbn [app]; (split; [by repeat first [apply Forall_nil_2|apply Forall_cons_2]; try done; try by apply scalar_indifferent|]);
    unfold distinct_keys; apply (bool_decide_unpack _); vm_compute; exact I.
Qed.

Lemma graph_reads g doc : reordered (graph_json g) doc → dec_struct graph_field doc zero_graph = Some (as_json g).
Proof.
  intros Hr. rewrite <-(graph_tree_reads g). destruct (graph_members_indifferent g) as (m & Hm & Hi & Hd). rewrite Hm in *.
  inversion Hr as [| | | | |m0 m1 m' Hp HF]; subst. cbn [dec_struct]. rewrite (dec_members_perm _ _ _ graph_commutes Hp Hd).
  symmetry. apply dec_members_related. rewrite Hp in Hi. clear Hr Hp Hd Hm. induction HF as [|e e' m1 m' [Hk Hj] _ IH]; [constructor|].
  apply Forall_cons in Hi as [He Hi]. constructor; [|by apply IH]. split; [done|]. intros a. symmetry. by apply He.
Qed.

Lemma of_as_json g : of_json (as_json g) = as_frozen g.
Proof.
  unfold of_json, as_json, as_frozen, items. cbn [jg_Name jg_EntryPoint jg_Tasks jg_Transitions jg_Reducers fst snd].
  rewrite (take_ge (transitions g)), (take_ge (as_task _ <$> _)) by (rewrite ?length_fmap; lia).
  f_equal; [by rewrite <-list_fmap_compose|]. apply set_eq. intros x. rewrite elem_of_list_to_set, elem_of_filter, !list_elem_of_fmap. split.
  - intros (t & -> & [Ht (n & -> & Hn)%list_elem_of_fmap]%list_elem_of_filter). simpl in *. apply bool_decide_eq_true in Ht.
    split; [by exists n|done].
  - intros [(n & -> & Hn) Hx]. exists (as_task (fanInNodes g) n). split; [done|]. apply list_elem_of_filter. split; [simpl; by apply bool_decide_eq_true|].
    apply list_elem_of_fmap. by exists n.
Qed.

Lemma frozen_valid boolexp g : Validate boolexp g = Ok () → as_frozen g = g.
Proof.
  intros Hv. pose proof (Validate_decides boolexp g) as Hd. unfold decides in Hd. rewrite Hv in Hd. destruct Hd as [Hd _]. unfold as_frozen.
  destruct g as [nm entry ns trs reds fan]. cbn [name entryPoint nodes transitions reducers fanInNodes]. f_equal.
  - pose proof (va_urls _ _ Hd) as Hu. cbn [nodes] in Hu. clear -Hu. induction ns as [|[n u] ns IH]; [done|]. rewrite fmap_cons. simpl.
    rewrite IH by (intros ? ?; apply Hu; by right). rewrite bool_decide_eq_false_2; [done|]. apply (Hu (mkNode n u)). by left.
  - pose proof (va_fanIn _ _ Hd) as Hf. unfold names in Hf. cbn [nodes fanInNodes] in Hf. apply set_eq. intros x. rewrite elem_of_filter.
    split; [tauto|]. intros Hx. split; [by apply Hf|done].
Qed.

Lemma graph_jok g : utf8_graph g = true → jok (graph_json g) = true.
Proof.
  unfold utf8_graph. rewrite !andb_true_iff. intros [[[[Hn He] Hns] Ht] Hr].
  assert (forallb jok (task_json (fanInNodes g) <$> nodes g) = true) as H1.
  { rewrite forallb_forall in *. intros j (n & <- & Hin)%in_map_iff. specialize (Hns n Hin). apply andb_true_iff in Hns as [Hn1 Hn2].
    unfold task_json, opt_str, opt_bool. repeat case_bool_decide; simpl; by rewrite ?Hn1, ?Hn2. }
  assert (forallb jok (transition_json <$> transitions g) = true) as H2.
  { rewrite forallb_forall in *. intros j (t & <- & Hin)%in_map_iff. specialize (Ht t Hin). rewrite !andb_true_iff in Ht.
    destruct Ht as [[[[Ht1 Ht2] Ht3] Ht4] Ht5]. unfold transition_json, opt_str, opt_bool.
    destruct (WithGoto t), (OnError t), (Switch t); repeat case_bool_decide; simpl; by rewrite Ht1, Ht2, ?Ht3, ?Ht4, ?Ht5. }
  assert (jok (JObj ((λ k, (k, JStr (default "" (reducers g !! k)))) <$> sorted_keys (reducers g))) = true) as H3.
  { cbn [jok]. rewrite forallb_forall in *. intros e (k & <- & Hin)%in_map_iff. by apply (Hr k). }
  unfold graph_json, opt_str, reducers_json. fold (sorted_keys (reducers g)).
  repeat case_bool_decide; cbn [app]; cbn [jok forallb] in *; rewrite !andb_true_iff; by split_and!.
Qed.

(** C7. The graph a step executes is the graph that was validated, where its names and texts are UTF-8 ([Validate] does
    not ask for that, and names that are not can collapse).  The text a graph is frozen into is a document
    that parses; and whatever text a database keeps for that document, escaped and spaced as it likes and with the members of
    every object in an order of its own, reads back as one and the same graph.  For a graph that [Validate] has accepted it is
    that graph.  For any other, a node that had no URL has its name for one, and the fan-in marks on
    names that are no node's are gone. *)
Theorem frozen_graph_reads_back boolexp g : utf8_graph g = true →
  parse (MarshalJSON g) = Some (graph_json g) ∧
  ∀ text doc, parse text = Some doc → reordered (graph_json g) doc →
    UnmarshalJSON text = Ok (as_frozen g) ∧ (Validate boolexp g = Ok () → UnmarshalJSON text = Ok g).
Proof.
  intros Hu. split; [by apply parse_print, graph_jok|]. intros text doc Hp Hr.
  assert (UnmarshalJSON text = Ok (as_frozen g)) as H by (unfold UnmarshalJSON; by rewrite Hp, (graph_reads _ _ Hr), of_as_json).
  split; [done|]. intros Hv. by rewrite H, (frozen_valid _ _ Hv).
Qed.

(** ** Documents *)

(** Whether two documents are the same up to the order of their members. *)
Fixpoint pick_member (k : string) (m : list (string * json)) : option (json * list (string * json)) :=
  match m with
  | [] => None
  | (k', v) :: m => if bool_decide (k' = k) then Some (v, m) else '(w, rest) ← pick_member k m; Some (w, (k', v) :: rest)
  end.

Fixpoint same_doc (j' j : json) : bool :=
  match j', j with
  | JNull, JNull => true
  | JBool b', JBool b => Bool.eqb b' b
  | JNum s', JNum s | JStr s', JStr s => bool_decide (s' = s)
  | JArr l', JArr l =>
      (fix go l' l := match l', l with [], [] => true | x' :: l', x :: l => same_doc x' x && go l' l | _, _ => false end) l' l
  | JObj m', JObj m =>
      (fix go m' m := match m', m with
         | [], [] => true
         | (k, v') :: m', m => match pick_member k m with Some (v, rest) => same_doc v' v && go m' rest | None => false end
         | [], _ => false
         end) m' m
  | _, _ => false
  end.

Lemma pick_member_perm k m v rest : pick_member k m = Some (v, rest) → m ≡ₚ (k, v) :: rest.
Proof.
  revert rest. induction m as [|[k' w] m IH]; intros rest; simpl; [done|]. case_bool_decide as Hk; [by intros [= -> ->]; subst|].
  destruct (pick_member k m) as [[w2 r2]|]; [|done]. simpl. intros [= -> <-]. rewrite (IH r2 eq_refl). apply perm_swap.
Qed.

Lemma same_doc_reordered j' : ∀ j, same_doc j' j = true → reordered j j'.
Proof.
  induction j' as [|b'|lit'|s'|l' IH|m' IH] using json_nested_ind; intros [|b|lit|s|l|m] H; try done.
  - constructor.
  - apply eqb_prop in H as ->. constructor.
  - apply bool_decide_eq_true in H as ->. constructor.
  - apply bool_decide_eq_true in H as ->. constructor.
  - constructor. revert l H. induction IH as [|x' l' Hx _ IH]; intros [|x l] H; try done.
    simpl in H. apply andb_true_iff in H as [H1 H2]. constructor; [by apply Hx|]. by apply IH.
  - assert (∃ m1, m ≡ₚ m1 ∧ Forall2 (λ e e', e.1 = e'.1 ∧ reordered e.2 e'.2) m1 m') as (m1 & Hp & HF); [|by apply (re_obj _ m1)].
    revert m H. induction IH as [|[k v'] m' Hx _ IH]; intros m H; [destruct m; [by exists []|done]|].
    simpl in H. destruct (pick_member k m) as [[v rest]|] eqn:Hpk; [|by destruct m]. assert (same_doc v' v = true ∧ same_doc (JObj m') (JObj rest) = true) as [H1 H2]
      by (destruct m; [done|]; by apply andb_true_iff in H).
    destruct (IH rest H2) as (m1 & Hp & HF). exists ((k, v) :: m1). rewrite (pick_member_perm _ _ _ _ Hpk), Hp. split; [done|].
    constructor; [|done]. split; [done|]. by apply Hx.
Qed.

(** Text with its quotes as apostrophes. *)
Fixpoint requote (s : string) : string :=
  match s with String c s => String (if is_ch 39 c then dquote else c) (requote s) | EmptyString => EmptyString end.

Definition review : Graph :=
  SetFanIn "Merge" (SetReducer "votes" "append" (AddTransition "Merge" "END" (AddTransition "Ask" "Merge" (AddTransition "Vote" "Merge"
    (AddTransitionForEach "Start" "Vote" "voters" "" (AddTransitionWhen "Start" "Ask" "risk > 1" (SetEndpoint "Start" "tasks/start" (NewGraph "review")))))))).

(** What a database might keep: members in another order, white space, other escapes, a null. *)
Definition review_text : string := requote
  "{ 'transitions': [ {'to':'Ask', 'from':'Start', 'when':'risk \u003e 1'}, {'from':'Start','to':'Vote','as':'item','forEach':'voters'},
     {'from':'Vote','to':'Merge'}, {'from':'\u0041sk','to':'Merge'}, {'from':'Merge','to':'END'} ],
     'tasks': [ {'url':'tasks/start','name':'Start'}, {'name':'Ask','url':'Ask'}, {'name':'Vote','url':'Vote'}, {'fanIn':true,'name':'Merge','url':'Merge'} ],
     'reducers': {'votes':'append'}, 'entryPoint': 'Start', 'name': 'review' }".

Definition review_doc : json := default JNull (parse review_text).


Lemma frozen_graph_reads_back_witness : utf8_graph review = true ∧ Validate (λ _, true) review = Ok () ∧
  parse review_text = Some review_doc ∧ UnmarshalJSON review_text = Ok review ∧ UnmarshalJSON (MarshalJSON review) = Ok review.
Proof.
  assert (utf8_graph review = true) as Hu by (by vm_compute).
  assert (Validate (λ _, true) review = Ok ()) as Hv by (by vm_compute).
  destruct (frozen_graph_reads_back (λ _, true) review Hu) as [Hp H].
  assert (parse review_text = Some review_doc) as Hd by (by vm_compute).
  split_and!; [done|done|done| |].
  - refine (proj2 (H review_text review_doc Hd _) Hv). apply same_doc_reordered. by vm_compute.
  - refine (proj2 (H _ _ Hp (reordered_refl _)) Hv).
Defined.

(** Names that are not UTF-8 collapse: [Validate] accepts the graph, and refuses what it is frozen into. *)
Definition latin1 : Graph :=
  AddTransition (str [255]%N) "END" (AddTransition (str [254]%N) (str [255]%N) (NewGraph "latin1")).

Theorem names_that_are_not_utf8_collapse : Validate (λ _, true) latin1 = Ok () ∧
  match UnmarshalJSON (MarshalJSON latin1) with
  | Ok g => Name <$> nodes g = [replacement; replacement] ∧ Validate (λ _, true) g = Err (ErrDuplicateNode replacement)
  | Err _ => False
  end.
Proof. by vm_compute. Qed.

(** A mark on a name that is no node does not survive the text, so a graph that comes from elsewhere as
    JSON is accepted where the one it was made from is refused. *)
Theorem json_drops_a_misspelt_fan_in :
  let g := SetFanIn "Mergee" (AddTransition "A" "END" (NewGraph "g")) in
  Validate (λ _, true) g = Err (ErrFanInUnknown "Mergee") ∧
  match UnmarshalJSON (MarshalJSON g) with Ok g' => Validate (λ _, true) g' = Ok () | Err _ => False end.
Proof. by vm_compute. Qed.

Example marshal_text : MarshalJSON (NewGraph "a<b") = requote "{'name':'a\u003cb','entryPoint':'','tasks':[],'transitions':[]}".
Proof. by vm_compute. Qed.
