(* ===== verification/FanInMap.v ===== *)
(** * The fan-in map ([internal/faninmap])

    [New] derives, for every fan-out source, the fan-in its branches converge on, with a walk of its
    own over the graph.  It is meant to agree with the bookkeeping [validateLineage] performs. *)

From S2P Require Import Prelude Worklist Graph Lineage Validate.

(** The [switch] of the walk.  [""] is the zero value of [source]. *)
Definition fim_next (g : Graph) (fromIsFanOut : bool) (from : string) (fromStack : list string)
    (tr : Transition) : list string * string :=
  if control_edge tr then (fromStack, "")
  else if IsFanIn g (tr_To tr) then
    if fromIsFanOut then (fromStack, from)
    else match last fromStack with
         | Some top => (removelast fromStack, top)
         | None => ([], "")
         end
  else if fromIsFanOut then (fromStack ++ [from], "")
  else (fromStack, "").

Definition fim_edge (g : Graph) (from : string) (fromStack : list string)
    (st : lineage_state * list string) (tr : Transition) : lineage_state * list string :=
  let '(mkLineage stks f2f, queue) := st in
  if bool_decide (tr_From tr ≠ from) then st else
  let '(nextStack, source) := fim_next g (IsFanOutSource g from) from fromStack tr in
  let f2f := if bool_decide (source = "") then f2f else <[source := tr_To tr]> f2f in
  if bool_decide (tr_To tr = END) then (mkLineage stks f2f, queue) else
  match stks !! tr_To tr with
  | Some _ => (mkLineage stks f2f, queue)
  | None => (mkLineage (<[tr_To tr := nextStack]> stks) f2f, queue ++ [tr_To tr])
  end.

Definition fim_visit (g : Graph) (from : string) (st : lineage_state) (queue : list string)
    : result unit (lineage_state * list string) :=
  Ok (fold_left (fim_edge g from (default [] (stacks st !! from))) (transitions g) (st, queue)).

Definition fim_walk (g : Graph) : result unit lineage_state :=
  search (fim_visit g) tt (S (length (transitions g)))
    (mkLineage {[entryPoint g := []]} ∅) [entryPoint g].

Definition New (g : Graph) : gmap string string :=
  match fim_walk g with Ok st => fanOutToFanIn st | Err _ => ∅ end.

Definition For (fim : gmap string string) (source : string) : string := default "" (fim !! source).

(** ** Agreement with the validator *)

(** No goto, onError or switch edge leads into a fan-in node. *)
Definition plain_fan_ins (g : Graph) : Prop :=
  ∀ tr, tr ∈ transitions g → control_edge tr = true → IsFanIn g (tr_To tr) = false.

Lemma fan_out_loop_edge nm c trs :
  fan_out_loop nm c trs = true → ∃ tr, tr ∈ trs ∧ tr_From tr = nm.
Proof.
  revert c. induction trs as [|tr trs IH]; intros c; simpl; [done|].
  destruct (decide (tr_From tr = nm)) as [Heq|Hne].
  - intros _. exists tr. split; [by left|done].
  - rewrite bool_decide_eq_false_2 by done. simpl. intros (tr' & ? & ?)%IH.
    exists tr'. split; [by right|done].
Qed.

Lemma fan_out_sources_spec g v :
  (∀ tr, tr ∈ transitions g → tr_From tr ∈ names g) →
  bool_decide (v ∈ fan_out_sources g) = IsFanOutSource g v.
Proof.
  intros Hends. unfold fan_out_sources. apply eq_bool_prop_intro.
  rewrite bool_decide_spec, elem_of_list_to_set, list_elem_of_filter, Is_true_true.
  split; [by intros [? _]|]. intros Hf. split; [done|].
  destruct (fan_out_loop_edge _ _ _ Hf) as (tr & Htr & <-). by apply Hends.
Qed.

Lemma fan_out_source_iff boolexp_Validate g v :
  valid boolexp_Validate g → v ∈ fan_out_sources g ↔ IsFanOutSource g v = true.
Proof.
  intros Hv. rewrite <-(fan_out_sources_spec g v); [by rewrite bool_decide_eq_true|].
  intros tr Htr. apply (va_ends _ _ Hv), Htr.
Qed.

Section agreement.
Context (g : Graph) (Hplain : plain_fan_ins g)
  (Hends : ∀ tr, tr ∈ transitions g → tr_From tr ∈ names g) (Hnames : "" ∉ names g).

Lemma fan_out_sources_names u : u ∈ fan_out_sources g → u ≠ "".
Proof using Hnames.
  unfold fan_out_sources. rewrite elem_of_list_to_set, list_elem_of_filter. by intros [_ ?] ->.
Qed.

Lemma fim_next_agrees v s tr s' src :
  tr ∈ transitions g → tr_From tr = v → lineage g v s →
  frames_of g v s tr = Ok (s', src) →
  fim_next g (IsFanOutSource g v) v s tr = (s', default "" src) ∧ src ≠ Some "".
Proof using Hplain Hends Hnames.
  intros Htr Hf Hl Hfr. split.
  - revert Hfr. unfold frames_of, next_stack, fim_next. rewrite fan_out_sources_spec by done.
    destruct (control_edge tr) eqn:Hc; [rewrite (Hplain tr Htr Hc); by intros [= <- <-]|].
    destruct (IsFanIn g (tr_To tr)), (IsFanOutSource g v); try (by intros [= <- <-]).
    destruct (last s); [by intros [= <- <-]|done].
  - intros ->. eapply (fan_out_sources_names ""); [|done]. eapply closes_source.
    exists v, s, tr, s'. done.
Qed.

(** One edge: where the validator accepts, the map records the same. *)
Lemma fim_edge_agrees v s st queue tr r :
  sound g st → stacks st !! v = Some s → tr ∈ transitions g →
  lineage_edge g (bool_decide (v ∈ fan_out_sources g)) v s (st, queue) tr = Ok r →
  fim_edge g v s (st, queue) tr = r.
Proof using Hplain Hends Hnames.
  intros Hso Hv Htr. destruct st as [stks f2f]. unfold lineage_edge, fim_edge.
  case_bool_decide as Hf; [by intros [= <-]|]. change (next_stack _ _ _ _ _) with (frames_of g v s tr).
  destruct (frames_of g v s tr) as [[s' src]|e] eqn:Hfr; simpl; [|done].
  destruct (fim_next_agrees v s tr s' src Htr Hf (sound_stacks _ _ Hso _ _ Hv) Hfr) as [-> Hsrc].
  assert (∀ f2f', converge src (tr_To tr) f2f = Ok f2f' →
    (if bool_decide (default "" src = "") then f2f else <[default "" src := tr_To tr]> f2f) = f2f') as Hconv.
  { intros f2f'. destruct src as [u|]; simpl; [|by intros [= <-]].
    rewrite bool_decide_eq_false_2 by congruence.
    unfold check. destruct (f2f !! u); [case_bool_decide|]; by intros [= <-]. }
  destruct (converge _ _ _) as [f2f'|e]; simpl; [|done]. rewrite (Hconv f2f' eq_refl). clear Hconv.
  unfold check. destruct (bool_decide (tr_To tr = END)); [|destruct (stks !! tr_To tr)];
    try case_bool_decide; intros ?; by simplify_eq.
Qed.

Lemma fim_fold_agrees v s l st queue r :
  sound g st → stacks st !! v = Some s → l ⊆ transitions g →
  fold_err (lineage_edge g (bool_decide (v ∈ fan_out_sources g)) v s) (st, queue) l = Ok r →
  fold_left (fim_edge g v s) l (st, queue) = r.
Proof using Hplain Hends Hnames.
  revert st queue. induction l as [|tr l IH]; intros st queue Hso Hv Hl; cbn [fold_err fold_left];
    [by intros [= <-]|].
  rewrite rbind_Ok. intros ([st' queue'] & Hedge & Hfold).
  assert (tr ∈ transitions g) as Htr by (apply Hl; by left).
  pose proof (lineage_edge_spec g v s st queue tr Hso Hv Htr) as Hspec.
  rewrite Hedge in Hspec. destruct Hspec as (Hso' & [Hsub _] & _).
  rewrite (fim_edge_agrees _ _ _ _ _ _ Hso Hv Htr Hedge).
  apply IH; [done|by eapply lookup_weaken|set_solver|done].
Qed.

Lemma fim_search_agrees fuel st queue st' :
  walk_inv g st queue →
  search (lineage_visit g) ErrOutOfFuel fuel st queue = Ok st' →
  search (fim_visit g) tt fuel st queue = Ok st'.
Proof using Hplain Hends Hnames.
  revert st queue. induction fuel as [|fuel IH]; intros st [|v queue] Hinv; simpl; try done;
    try (by intros [= ->]).
  rewrite rbind_Ok. intros ([st1 q1] & Hvisit & Hrest).
  pose proof (lineage_visit_spec g v st queue Hinv) as Hspec. rewrite Hvisit in Hspec.
  destruct Hspec as [Hinv' _]. destruct (walk_queue _ _ _ Hinv v ltac:(by left)) as [s Hs].
  unfold lineage_visit in Hvisit. rewrite Hs in Hvisit. simpl in Hvisit. rewrite Hs. simpl.
  rewrite (fim_fold_agrees v s _ _ _ _ (walk_sound _ _ _ Hinv) Hs ltac:(done) Hvisit).
  by apply IH.
Qed.

Lemma fim_walk_agrees st : lineage_walk g = Ok st → fim_walk g = Ok st.
Proof using Hplain Hends Hnames. apply fim_search_agrees, walk_inv_init. Qed.
End agreement.

(** Everything the map's own walk finds is found within its fuel. *)
Lemma fim_edge_measure g v s st queue tr :
  tr ∈ transitions g →
  let '(st', queue') := fim_edge g v s (st, queue) tr in
  measure g st' + length queue' = measure g st + length queue.
Proof.
  intros Htr. destruct st as [stks f2f]. unfold fim_edge. case_bool_decide; [done|].
  destruct (fim_next _ _ _ _ _) as [s' src]. case_bool_decide; [done|].
  destruct (stks !! tr_To tr) eqn:Hto; [done|]. unfold measure. simpl.
  rewrite length_app, dom_insert_L. simpl.
  rewrite <-(unseen_insert (targets g) (dom stks) (tr_To tr)); [lia| |by apply not_elem_of_dom].
  unfold targets. rewrite elem_of_list_to_set. by apply list_elem_of_fmap_2.
Qed.

Lemma fim_fold_measure g v s l st queue :
  l ⊆ transitions g →
  let '(st', queue') := fold_left (fim_edge g v s) l (st, queue) in
  measure g st' + length queue' = measure g st + length queue.
Proof.
  revert st queue. induction l as [|tr l IH]; intros st queue Hl; cbn [fold_left]; [done|].
  pose proof (fim_edge_measure g v s st queue tr (Hl tr ltac:(by left))) as Hm.
  destruct (fim_edge g v s (st, queue) tr) as [st1 q1]. specialize (IH st1 q1 ltac:(set_solver)).
  destruct (fold_left _ _ _) as [st2 q2]. lia.
Qed.

Lemma fim_walk_total g : ∃ st, fim_walk g = Ok st.
Proof.
  assert (match fim_walk g with Ok st => True | Err _ => False end) as H;
    [|destruct (fim_walk g) as [st|]; [by exists st|done]].
  unfold fim_walk. apply (search_spec _ _ (λ _ _, True) _ (measure g)); [|done|].
  - intros v st queue _. unfold fim_visit.
    pose proof (fim_fold_measure g v (default [] (stacks st !! v)) (transitions g) st queue ltac:(done)).
    destruct (fold_left _ _ _). split; [done|lia].
  - pose proof (unseen_le_size (targets g) (dom (stacks (mkLineage {[entryPoint g := []]} ∅)))).
    pose proof (size_list_to_set_le (tr_To <$> transitions g)) as Hlen. rewrite length_fmap in Hlen.
    unfold measure, targets in *. simpl in *. lia.
Qed.

(** ** Properties *)

(** On a validated graph with plain fan-ins the map holds the closings and nothing else. *)
Lemma fan_in_map_closings boolexp_Validate g :
  valid boolexp_Validate g → plain_fan_ins g → "" ∉ names g →
  ∀ u f, New g !! u = Some f ↔ closes g u f.
Proof.
  intros Hv Hplain Hne u f. pose proof (validateLineage_spec g) as Hval.
  pose proof (va_scoped _ _ Hv) as Hws.
  destruct (validateLineage g) as [|e]; [|by destruct Hval].
  destruct Hval as (_ & st & Hst & Hinv).
  assert (∀ tr, tr ∈ transitions g → tr_From tr ∈ names g) as Hends
    by (intros tr Htr; apply (va_ends _ _ Hv), Htr).
  assert (New g = fanOutToFanIn st) as ->
    by (unfold New; by rewrite (fim_walk_agrees g Hplain Hends Hne st Hst)).
  split; [apply (sound_pairs _ _ (walk_sound _ _ _ Hinv))|by apply walk_closes].
Qed.

Lemma fan_in_map_closes boolexp_Validate g u :
  valid boolexp_Validate g → plain_fan_ins g → "" ∉ names g →
  u ∈ fan_out_sources g → closes g u (For (New g) u).
Proof.
  intros Hv Hplain Hne [f Hc]%(ws_closed _ (va_scoped _ _ Hv)).
  unfold For. by rewrite (proj2 (fan_in_map_closings _ g Hv Hplain Hne u f) Hc).
Qed.

(** On a validated graph whose fan-in nodes are entered by plain, [when] and forEach edges only,
    the derived map is exactly the one the validator computed: [For] of a fan-out source is the
    fan-in where its branches close, and [""] for every other name.  The walk needs no more fuel
    than it is given on any graph. *)
Theorem fan_in_map_agrees (boolexp_Validate : string → bool) (g : Graph) (u f : string) :
  valid boolexp_Validate g → plain_fan_ins g → "" ∉ names g → f ≠ "" →
  (For (New g) u = f ↔ closes g u f) ∧
  (u ∈ fan_out_sources g → closes g u (For (New g) u)).
Proof.
  intros Hv Hplain Hne Hf. pose proof (fan_in_map_closings _ g Hv Hplain Hne u) as Hc. split; [split|].
  - unfold For. intros Hl. destruct (New g !! u) as [f'|] eqn:Hu; simpl in Hl; [|congruence].
    subst f'. by apply Hc.
  - intros H%Hc. unfold For. by rewrite H.
  - by apply (fan_in_map_closes boolexp_Validate).
Qed.

Definition demo_graph : Graph :=
  SetFanIn "F" $ AddTransition "F" END $ AddTransition "B" "F" $
  AddTransitionForEach "A" "B" "xs" "" $ NewGraph "demo".

Lemma demo_valid : valid (λ _, true) demo_graph.
Proof.
  pose proof (Validate_decides (λ _, true) demo_graph) as H.
  assert (Validate (λ _, true) demo_graph = Ok ()) as Hok by (vm_compute; reflexivity).
  rewrite Hok in H. apply H.
Qed.

Lemma demo_plain : plain_fan_ins demo_graph.
Proof.
  intros tr Htr Hc. assert (Forall (λ tr, control_edge tr = false) (transitions demo_graph)) as Hall
    by (vm_compute; repeat constructor).
  rewrite (proj1 (Forall_forall _ _) Hall tr Htr) in Hc. discriminate.
Qed.

Lemma demo_names : "" ∉ names demo_graph.
Proof. vm_decide. Qed.

Lemma fan_in_map_agrees_witness :
  For (New demo_graph) "A" = "F" ∧ closes demo_graph "A" "F".
Proof.
  assert (For (New demo_graph) "A" = "F") as Hf by (vm_compute; reflexivity).
  split; [exact Hf|].
  refine (proj1 (proj1 (fan_in_map_agrees (λ _, true) demo_graph "A" "F" demo_valid _ _ _)) Hf).
  - intros tr Htr Hc. assert (Forall (λ tr, control_edge tr = false) (transitions demo_graph)) as Hall
      by (vm_compute; repeat constructor).
    rewrite (proj1 (Forall_forall _ _) Hall tr Htr) in Hc. discriminate.
  - vm_decide.
  - discriminate.
Defined.

(** A branch that reaches its fan-in through a switch edge, which [Validate] accepts. *)
Definition switch_graph : Graph :=
  SetFanIn "F" $ AddTransition "F" END $ AddTransitionSwitch "B" "F" "true" $
  AddTransitionForEach "A" "B" "xs" "" $ NewGraph "switch".

(** An inner fan-out of that kind nested in an outer one. *)
Definition nested_graph : Graph :=
  SetFanIn "G" $ SetFanIn "F" $ AddTransition "G" END $ AddTransition "F" "G" $
  AddTransitionSwitch "B" "F" "true" $ AddTransitionForEach "A" "B" "ys" "" $
  AddTransitionForEach "O" "A" "xs" "" $ NewGraph "nested".

(** The two walks test the goto/onError/switch arm and the fan-in arm in opposite orders, so on
    validated graphs whose branches reach the fan-in through such an edge the map loses the fan-in
    ([For] answers [""], "converges nowhere"), and with nested fan-outs it names the outer fan-in
    for the inner source. *)
Theorem fan_in_map_misses_control_edges :
  Validate (λ _, true) switch_graph = Ok () ∧ closes switch_graph "A" "F" ∧
  For (New switch_graph) "A" = "" ∧
  Validate (λ _, true) nested_graph = Ok () ∧ closes nested_graph "A" "F" ∧
  For (New nested_graph) "A" = "G" ∧ For (New nested_graph) "O" = "".
Proof.
  assert (∀ g u f, match lineage_walk g with Ok st => fanOutToFanIn st !! u | Err _ => None end = Some f →
    closes g u f) as Hcl.
  { intros g u f H. pose proof (lineage_walk_spec g) as Hs. destruct (lineage_walk g); [|done].
    by apply (sound_pairs _ _ (walk_sound _ _ _ Hs)). }
  split_and!; try (apply Hcl); vm_compute; reflexivity.
Qed.
