(* ===== verification/Routing.v ===== *)
(** * Routing a completed step ([engine/transitions.go], [engine/execution.go])

    [evaluateTransitions] picks the successors of a completed task from the graph and the flow's
    state; [route] is the part of [processStep] between that call and the transition transaction,
    which decides how the flow goes on: complete, fail the step, converge directly on a fan-in, or
    insert successors and count fan-in arrivals.

    [boolexp.Eval] is a parameter, and the flow is seen through what the code reads of it: the
    requested goto, the normalized symbols ([None]: [boolexp.Normalize] failed) and the forEach
    fields ([None]: the field cannot be decoded). *)

From S2P Require Import Prelude Worklist Graph Lineage Validate FanInMap.

#[local] Open Scope Z_scope.

(** The Go value a forEach field decodes to, by the [switch v := val.(type)]. *)
Inductive any_value (item : Type) := VNil | VArray (items : list item) | VOther.
Arguments VNil {item}.
Arguments VArray {item} items.
Arguments VOther {item}.

Record nextStep (item : Type) := mkNext {
  taskName : string;
  n_item : option item;
  itemKey : string;
  forEachKey : string;
  cohortIndex : nat;
  cohortCount : nat
}.
Arguments mkNext {item}.
Arguments taskName {item}.
Arguments n_item {item}.
Arguments itemKey {item}.
Arguments forEachKey {item}.
Arguments cohortIndex {item}.
Arguments cohortCount {item}.

Inductive transition_error :=
| ErrNoGoto (task target : string)
| ErrNormalize
| ErrEval
| ErrDecode
| ErrNotArray (field : string).

Section evaluate.
Context {item symbols : Type}.
(** [boolexp.Eval(when, symbols)]; [None] is an error. *)
Context (boolexp_Eval : string → symbols → option bool).

Record flow_view := mkFlowView {
  GotoRequested : string;
  Normalized : option symbols;
  GetField : string → option (option (any_value item))
}.

Definition plain (to : string) : nextStep item := mkNext to None "" "" 0 0.

Definition eval_when (f : flow_view) (when : string) : result transition_error bool :=
  match Normalized f with
  | None => Err ErrNormalize
  | Some s => match boolexp_Eval when s with None => Err ErrEval | Some b => Ok b end
  end.

Definition goto_edge (cur target : string) (tr : Transition) : bool :=
  bool_decide (tr_From tr = cur) && WithGoto tr && bool_decide (tr_To tr = target).

Definition switch_edge (cur : string) (tr : Transition) : bool :=
  bool_decide (tr_From tr = cur) && Switch tr.

(** First match wins; no match is no successor. *)
Fixpoint switch_loop (f : flow_view) (cur : string) (trs : list Transition)
    : result transition_error (list (nextStep item)) :=
  match trs with
  | [] => Ok []
  | sw :: trs =>
      if negb (switch_edge cur sw) then switch_loop f cur trs else
      b ←? eval_when f (When sw);
      if b : bool then Ok [plain (tr_To sw)] else switch_loop f cur trs
  end.

Definition forEach_steps (tr : Transition) (items : list item) : list (nextStep item) :=
  let key := if bool_decide (As tr = "") then "item" else As tr in
  imap (λ idx it, mkNext (tr_To tr) (Some it) key (ForEach tr) idx (length items)) items.

(** What one taken edge adds to the candidates. *)
Definition edge_candidates (f : flow_view) (tr : Transition)
    : result transition_error (list (nextStep item)) :=
  taken ←? (if bool_decide (When tr = "") then Ok true else eval_when f (When tr));
  if negb taken then Ok [] else
  if bool_decide (ForEach tr = "") then Ok [plain (tr_To tr)] else
  match GetField f (ForEach tr) with
  | None => Err ErrDecode
  | Some None => Ok []
  | Some (Some VNil) => Ok []
  | Some (Some (VArray items)) => Ok (forEach_steps tr items)
  | Some (Some VOther) => Err (ErrNotArray (ForEach tr))
  end.

Definition evaluateTransitions (g : Graph) (cur : string) (f : flow_view)
    : result transition_error (list (nextStep item)) :=
  if negb (bool_decide (GotoRequested f = "")) then
    match find (goto_edge cur (GotoRequested f)) (transitions g) with
    | Some tr => Ok [plain (tr_To tr)]
    | None => Err (ErrNoGoto (stripProto cur) (stripProto (GotoRequested f)))
    end
  else if existsb (switch_edge cur) (transitions g) then switch_loop f cur (transitions g)
  else
    fold_err (λ candidates tr,
      if negb (bool_decide (tr_From tr = cur)) || WithGoto tr || OnError tr then Ok candidates else
      more ←? edge_candidates f tr; Ok (candidates ++ more)) [] (transitions g).
End evaluate.
Arguments flow_view : clear implicits.

(** The distinct sources of plain, [when], forEach and switch edges into a fan-in node. *)
Definition fanInPredecessorTasks (g : Graph) (fanInTask : string) : list string :=
  fold_left (λ names tr,
    if bool_decide (tr_To tr = fanInTask) && negb (WithGoto tr) && negb (OnError tr)
       && bool_decide (tr_From tr ∉ names)
    then names ++ [tr_From tr] else names) (transitions g) [].

(** ** The decision *)

Inductive fail_reason :=
| FailNoFanIn (task : string) (routedToEnd : bool)
| FailDeadEnd (task : string)
| FailOutsideCohort (task fanIn : string).

Inductive decision (item : Type) :=
| DFail (r : fail_reason)
| DComplete
| DFanInDirect (fanIn : string)
| DAdvance (push : bool) (normalNexts : list (nextStep item)) (fanInTask : string) (fanInArrivals cohortSize : nat).
Arguments DFail {item}.
Arguments DComplete {item}.
Arguments DFanInDirect {item}.
Arguments DAdvance {item}.

Section route.
Context {item : Type}.
Implicit Types (n : nextStep item).

Definition is_real (n : nextStep item) : bool :=
  negb (bool_decide (taskName n = "")) && negb (bool_decide (taskName n = END)).

Definition real_tasks (next : list (nextStep item)) : list (nextStep item) :=
  filter (λ n, is_real n = true) next.

(** [errorTarget] is the onError target when the step's error was routed to a handler, and
    [gotoTask] the goto the task requested ("" for none). *)
Definition route (g : Graph) (fim : gmap string string) (task : string) (stepID lineageID : Z)
    (errorTarget : option string) (gotoTask : string) (nextTasks : list (nextStep item))
    : decision item :=
  let nextTasks := match errorTarget with Some t => [plain t] | None => nextTasks end in
  let realTasks := real_tasks nextTasks in
  let routedToEnd := existsb (λ n, bool_decide (taskName n = END)) nextTasks in
  let isFanOutSource := IsFanOutSource g task in
  let isPushTransition :=
    isFanOutSource && bool_decide (errorTarget = None) && bool_decide (gotoTask = "") in
  let cohortSize := length realTasks in
  let fanInOfSource := if isFanOutSource then For fim task else "" in
  if isFanOutSource && negb (bool_decide (fanInOfSource = "")) &&
     (bool_decide (cohortSize = 0%nat) && negb routedToEnd ||
      bool_decide (taskName <$> realTasks = [fanInOfSource]))
  then DFanInDirect fanInOfSource
  else if isFanOutSource && bool_decide (cohortSize = 0%nat) then
    if bool_decide (lineageID ≠ 0) then DFail (FailNoFanIn task routedToEnd) else DComplete
  else if bool_decide (cohortSize = 0%nat) then
    if bool_decide (lineageID ≠ 0) then DFail (FailDeadEnd task) else DComplete
  else
    let cohortSpawnID := if isPushTransition then stepID else lineageID in
    let fanIns := filter (λ n, IsFanIn g (taskName n) = true) realTasks in
    let normalNexts := filter (λ n, IsFanIn g (taskName n) = false) realTasks in
    let fanInTaskName := default "" (last (taskName <$> fanIns)) in
    let fanInArrivals := length fanIns in
    if bool_decide (0 < fanInArrivals)%nat && bool_decide (cohortSpawnID = 0)
    then DFail (FailOutsideCohort task fanInTaskName)
    else DAdvance isPushTransition normalNexts fanInTaskName fanInArrivals cohortSize.
End route.

(** ** Lemmas *)

Section evaluate_facts.
Context {item symbols : Type} (boolexp_Eval : string → symbols → option bool).

Lemma edge_candidates_to f tr ns n :
  edge_candidates (item:=item) boolexp_Eval f tr = Ok ns → n ∈ ns → taskName n = tr_To tr.
Proof.
  unfold edge_candidates, forEach_steps. intros (taken & _ & H)%rbind_Ok Hn.
  repeat case_match; simplify_eq; try (by apply elem_of_nil in Hn).
  1: by apply list_elem_of_singleton in Hn as ->.
  all: by apply elem_of_lookup_imap in Hn as (i & it & -> & _).
Qed.

Lemma switch_loop_spec f cur trs ns :
  switch_loop (item:=item) boolexp_Eval f cur trs = Ok ns →
  ns = [] ∧ Forall (λ sw, switch_edge cur sw = true → eval_when boolexp_Eval f (When sw) = Ok false) trs ∨
  ∃ pre sw post, trs = pre ++ sw :: post ∧ switch_edge cur sw = true ∧
    eval_when boolexp_Eval f (When sw) = Ok true ∧ ns = [plain (tr_To sw)] ∧
    Forall (λ sw, switch_edge cur sw = true → eval_when boolexp_Eval f (When sw) = Ok false) pre.
Proof.
  induction trs as [|sw trs IH]; simpl; [intros [= <-]; left; by split; [|constructor]|].
  destruct (switch_edge cur sw) eqn:Hsw; simpl.
  - intros (b & Hb & H)%rbind_Ok. destruct b.
    + simplify_eq. right. exists [], sw, trs. by split_and!; [..|constructor].
    + apply IH in H as [[-> Hall]|(pre & sw' & post & -> & H1 & H2 & H3 & H4)].
      * left. split; [done|]. by constructor.
      * right. exists (sw :: pre), sw', post. by split_and!; [..|constructor].
  - intros [[-> Hall]|(pre & sw' & post & -> & H1 & H2 & H3 & H4)]%IH.
    + left. split; [done|]. constructor; [congruence|done].
    + right. exists (sw :: pre), sw', post. split_and!; [done..|]. constructor; [congruence|done].
Qed.

(** The edges the success path considers when the task uses no switch. *)
Definition success_edges (cur : string) (trs : list Transition) : list Transition :=
  filter (λ tr, tr_From tr = cur ∧ WithGoto tr = false ∧ OnError tr = false) trs.

Lemma success_fold_spec f cur trs acc ns :
  fold_err (λ candidates tr,
    if negb (bool_decide (tr_From tr = cur)) || WithGoto tr || OnError tr then Ok candidates else
    more ←? edge_candidates (item:=item) boolexp_Eval f tr; Ok (candidates ++ more)) acc trs = Ok ns →
  ∃ parts, Forall2 (λ tr part, edge_candidates boolexp_Eval f tr = Ok part) (success_edges cur trs) parts ∧
    ns = acc ++ concat parts.
Proof.
  revert acc. induction trs as [|tr trs IH]; intros acc; simpl.
  - intros [= <-]. exists []. split; [constructor|by rewrite app_nil_r].
  - unfold success_edges. rewrite filter_cons. case_decide as Hd.
    + destruct Hd as (Hf & Hg & He). rewrite bool_decide_eq_true_2, Hg, He by done. simpl.
      intros (acc' & (more & Hmore & [= <-])%rbind_Ok & Hrest)%rbind_Ok.
      destruct (IH _ Hrest) as (parts & Hparts & ->). exists (more :: parts).
      split; [by constructor|]. simpl. by rewrite app_assoc.
    + assert (negb (bool_decide (tr_From tr = cur)) || WithGoto tr || OnError tr = true) as ->.
      { destruct (WithGoto tr) eqn:?, (OnError tr) eqn:?; rewrite ?orb_true_r; try done.
        rewrite bool_decide_eq_false_2; [done|naive_solver]. }
      simpl. apply IH.
Qed.

Lemma edge_candidates_single f tr ns :
  edge_candidates (item:=item) boolexp_Eval f tr = Ok ns → ForEach tr = "" → (length ns ≤ 1)%nat.
Proof.
  unfold edge_candidates. intros (taken & _ & H)%rbind_Ok Hf. rewrite bool_decide_eq_true_2 in H by done.
  destruct taken; simpl in H; simplify_eq; simpl; lia.
Qed.
End evaluate_facts.

(** The edges that make a node a fan-out source. *)
Definition spawning_edges (nm : string) (trs : list Transition) : list Transition :=
  filter (λ tr, tr_From tr = nm ∧ control_edge tr = false) trs.

Lemma fan_out_loop_spec nm c trs :
  fan_out_loop nm c trs = true ↔
  (∃ tr, tr ∈ spawning_edges nm trs ∧ ForEach tr ≠ "") ∨
  spawning_edges nm trs ≠ [] ∧ (2 ≤ c + length (spawning_edges nm trs))%nat.
Proof.
  revert c. induction trs as [|tr trs IH]; intros c; simpl.
  - split; [done|]. intros [(?&?&?)|[? ?]]; [set_solver|done].
  - unfold spawning_edges in *. rewrite filter_cons. case_decide as Hd.
    + destruct Hd as [Hf Hc]. rewrite bool_decide_eq_true_2, Hc by done. simpl.
      destruct (decide (ForEach tr = "")) as [He|He].
      * rewrite (bool_decide_eq_true_2 (ForEach tr = "")) by done. simpl. case_bool_decide as Hn.
        -- split; [right; split; [done|lia]|done].
        -- rewrite IH. split.
           ++ intros [(tr' & ? & ?)|[? ?]]; [left; exists tr'; set_solver|right; split; [done|lia]].
           ++ intros [(tr' & [->|?]%elem_of_cons & ?)|[_ ?]]; [done|left; by exists tr'|right].
              split; [|lia]. intros Hnil. rewrite Hnil in *. simpl in *. lia.
      * rewrite (bool_decide_eq_false_2 (ForEach tr = "")) by done. simpl.
        split; [|done]. intros _. left. exists tr. split; [by left|done].
    + assert (negb (bool_decide (tr_From tr = nm)) || control_edge tr = true) as ->.
      { destruct (control_edge tr); rewrite ?orb_true_r; [done|].
        rewrite bool_decide_eq_false_2; [done|naive_solver]. }
      apply IH.
Qed.

Lemma IsFanOutSource_false g nm :
  IsFanOutSource g nm = false →
  (length (spawning_edges nm (transitions g)) ≤ 1)%nat ∧
  ∀ tr, tr ∈ spawning_edges nm (transitions g) → ForEach tr = "".
Proof.
  unfold IsFanOutSource. intros Hf. assert (¬ (fan_out_loop nm 0 (transitions g) = true)) as Hn by congruence.
  rewrite fan_out_loop_spec in Hn. split.
  - destruct (spawning_edges _ _) as [|? [|]] eqn:He; simpl; try lia.
    exfalso. apply Hn. right. split; [done|simpl; lia].
  - intros tr Htr. destruct (decide (ForEach tr = "")); [done|]. exfalso. apply Hn. left. by exists tr.
Qed.

Lemma success_edges_spawning g cur :
  existsb (switch_edge cur) (transitions g) = false →
  success_edges cur (transitions g) = spawning_edges cur (transitions g).
Proof.
  unfold success_edges, spawning_edges, switch_edge.
  induction (transitions g) as [|tr trs IH]; [done|]. simpl. intros [Hs Hrest]%orb_false_iff.
  rewrite !filter_cons, IH by done. unfold control_edge.
  destruct (decide (tr_From tr = cur)) as [Hf|Hf].
  - rewrite bool_decide_eq_true_2 in Hs by done. simpl in Hs. rewrite Hs, orb_false_r.
    do 2 case_decide; try done; destruct (WithGoto tr), (OnError tr); naive_solver.
  - do 2 case_decide; naive_solver.
Qed.

Section evaluate_single.
Context {item symbols : Type} (boolexp_Eval : string → symbols → option bool).

(** Why an edge is taken: the goto the task asked for, a switch, or an edge that makes branches. *)
Definition taken_edge (g : Graph) (cur gotoTask : string) (tr : Transition) : Prop :=
  tr ∈ transitions g ∧ tr_From tr = cur ∧
  (gotoTask ≠ "" ∧ WithGoto tr = true ∨ gotoTask = "" ∧ Switch tr = true ∨
   gotoTask = "" ∧ control_edge tr = false).

Lemma evaluateTransitions_edge g cur f ns (n : nextStep item) :
  evaluateTransitions boolexp_Eval g cur f = Ok ns → n ∈ ns →
  ∃ tr, taken_edge g cur (GotoRequested f) tr ∧ tr_To tr = taskName n.
Proof.
  unfold evaluateTransitions. case_bool_decide as Hg; simpl.
  - destruct (existsb _ _) eqn:Hsw.
    + intros [[-> _]|(pre & sw & post & Htrs & Hcur & _ & -> & _)]%switch_loop_spec Hn; [set_solver|].
      apply list_elem_of_singleton in Hn as ->. exists sw. split; [|done].
      apply andb_true_iff in Hcur as [Hf%bool_decide_eq_true Hs].
      split_and!; [rewrite Htrs; set_solver|done|by auto].
    + intros (parts & Hparts & ->)%success_fold_spec Hn. simpl in Hn.
      rewrite success_edges_spawning in Hparts by done.
      apply list_elem_of_In, in_concat in Hn as (part & Hpart & Hn).
      apply list_elem_of_In in Hn. apply list_elem_of_In, list_elem_of_lookup in Hpart as [i Hi].
      destruct (Forall2_lookup_r _ _ _ _ _ Hparts Hi) as (tr & Htr & Hc).
      apply list_elem_of_lookup_2 in Htr. apply list_elem_of_filter in Htr as [[Hf Hctl] Htr].
      exists tr. split; [by split_and!; auto|]. by rewrite (edge_candidates_to _ _ _ _ _ Hc Hn).
  - destruct (find _ _) as [tr|] eqn:Hfind; [|done]. intros [= <-] ->%list_elem_of_singleton.
    apply find_some in Hfind as [Htr He]. exists tr. split; [|done].
    unfold goto_edge in He. rewrite !andb_true_iff, !bool_decide_eq_true in He.
    split_and!; [by apply list_elem_of_In|tauto|left; tauto].
Qed.

(** A node that is not a fan-out source never gets more than one successor. *)
Lemma evaluateTransitions_single g cur f (ns : list (nextStep item)) :
  evaluateTransitions boolexp_Eval g cur f = Ok ns → IsFanOutSource g cur = false → (length ns ≤ 1)%nat.
Proof.
  unfold evaluateTransitions. intros H [Hlen Hfe]%IsFanOutSource_false. revert H.
  case_bool_decide as Hg; simpl.
  - destruct (existsb _ _) eqn:Hsw.
    + intros [[-> _]|(?&?&?&_&_&_&->&_)]%switch_loop_spec; simpl; lia.
    + intros (parts & Hparts & ->)%success_fold_spec. simpl.
      rewrite success_edges_spawning in Hparts by done.
      destruct Hparts as [|tr part l parts Hc Hparts]; [simpl; lia|].
      destruct Hparts; [|simpl in Hlen; lia]. simpl. rewrite app_nil_r.
      eapply edge_candidates_single; [done|]. apply Hfe. by left.
  - destruct (find _ _); intros ?; simplify_eq; simpl; lia.
Qed.
End evaluate_single.

(** ** Properties *)

(** What a completed task's successors are, in full.  A requested goto follows an edge declared
    with [AddTransitionGoto] and nothing else.  With switches the first one in registration order
    whose condition holds fires alone, and none firing means no successor.  Otherwise every success
    edge is evaluated independently and contributes its target once, or once per array element, in
    registration order.  Only a fan-out source can ever get more than one successor. *)
Theorem evaluateTransitions_outcomes {item symbols : Type} boolexp_Eval (g : Graph) (cur : string)
    (f : flow_view item symbols) (ns : list (nextStep item)) :
  evaluateTransitions boolexp_Eval g cur f = Ok ns →
  (GotoRequested f ≠ "" →
     ns = [plain (GotoRequested f)] ∧
     ∃ tr, tr ∈ transitions g ∧ goto_edge cur (GotoRequested f) tr = true) ∧
  (GotoRequested f = "" → existsb (switch_edge cur) (transitions g) = true →
     ns = [] ∧ (∀ sw, sw ∈ transitions g → switch_edge cur sw = true →
                  eval_when boolexp_Eval f (When sw) = Ok false) ∨
     ∃ pre sw post, transitions g = pre ++ sw :: post ∧ switch_edge cur sw = true ∧
       eval_when boolexp_Eval f (When sw) = Ok true ∧ ns = [plain (tr_To sw)] ∧
       Forall (λ sw, switch_edge cur sw = true → eval_when boolexp_Eval f (When sw) = Ok false) pre) ∧
  (GotoRequested f = "" → existsb (switch_edge cur) (transitions g) = false →
     ∃ parts, Forall2 (λ tr part, edge_candidates boolexp_Eval f tr = Ok part)
                (success_edges cur (transitions g)) parts ∧ ns = concat parts) ∧
  (IsFanOutSource g cur = false → (length ns ≤ 1)%nat).
Proof.
  intros Hev. split_and!; [..|by eapply evaluateTransitions_single];
    unfold evaluateTransitions in Hev.
  - intros Hg. rewrite bool_decide_eq_false_2 in Hev by done. simpl in Hev.
    destruct (find _ _) as [tr|] eqn:Hfind; [|done]. simplify_eq.
    apply find_some in Hfind as [Htr He]. split; [|by exists tr; split; [apply list_elem_of_In|]].
    unfold goto_edge in He. rewrite !andb_true_iff, !bool_decide_eq_true in He. by destruct He as [_ ->].
  - intros Hg Hsw. rewrite bool_decide_eq_true_2, Hsw in Hev by done.
    apply switch_loop_spec in Hev as [[-> Hall]|?]; [left|by right].
    split; [done|]. intros sw. by rewrite Forall_forall in Hall; apply Hall.
  - intros Hg Hsw. rewrite bool_decide_eq_true_2, Hsw in Hev by done. by apply success_fold_spec in Hev.
Qed.

Definition demo_view : flow_view nat unit :=
  mkFlowView "" (Some tt) (λ field, Some (Some (VArray [7%nat; 8%nat]))).

Lemma evaluateTransitions_outcomes_witness :
  evaluateTransitions (λ _ _, Some true) demo_graph "A" demo_view
  = Ok [mkNext "B" (Some 7%nat) "item" "xs" 0 2; mkNext "B" (Some 8%nat) "item" "xs" 1 2] ∧
  IsFanOutSource demo_graph "B" = false ∧
  (length [@plain nat "F"] ≤ 1)%nat.
Proof.
  split_and!; [vm_compute; reflexivity..|].
  apply (evaluateTransitions_outcomes (λ _ _, Some true) demo_graph "B" demo_view);
    vm_compute; reflexivity.
Defined.

(** [IsFanOutSource], with its two early returns, is "some branch edge is a forEach, or there
    are at least two branch edges", where goto, onError and switch edges are not branches. *)
Theorem IsFanOutSource_iff (g : Graph) (nm : string) :
  IsFanOutSource g nm = true ↔
  (∃ tr, tr ∈ transitions g ∧ tr_From tr = nm ∧ control_edge tr = false ∧ ForEach tr ≠ "") ∨
  (2 ≤ length (spawning_edges nm (transitions g)))%nat.
Proof.
  unfold IsFanOutSource. rewrite fan_out_loop_spec. simpl.
  unfold spawning_edges. setoid_rewrite list_elem_of_filter.
  split; (intros [(tr & H)|H]; [left; exists tr; tauto|right]).
  - tauto.
  - split; [|done]. intros Hnil. rewrite Hnil in H. simpl in H. lia.
Qed.

(** An empty cohort converges.  On a validated graph with plain fan-ins, a fan-out source whose
    task produced no successor at all (an empty or absent forEach array, no [when] holding) is routed
    straight to the one fan-in its branches close at, from the trunk and inside a cohort alike. *)
Theorem empty_cohort_converges {item : Type} (bv : string → bool) (g : Graph) (task : string) (id l : Z) :
  valid bv g → plain_fan_ins g → "" ∉ names g → IsFanOutSource g task = true →
  ∃ f, closes g task f ∧ (∀ f', closes g task f' → f' = f) ∧
    route (item:=item) g (New g) task id l None "" [] = DFanInDirect f.
Proof.
  intros Hv Hplain Hne Hsrc.
  pose proof (fan_in_map_closes bv g task Hv Hplain Hne (proj2 (fan_out_source_iff bv g task Hv) Hsrc)) as Hc.
  exists (For (New g) task). split_and!; [done|intros f' Hc'; by apply (ws_converge _ (va_scoped _ _ Hv) task)|].
  assert (For (New g) task ≠ "") as Hf.
  { intros He. rewrite He in Hc. destruct Hc as (v & s & tr & s' & _ & Htr & _ & Hfr & Hto).
    apply frames_of_cases in Hfr as [(? & _ & Hfan & _)|(? & _)]; [|done].
    apply Hne. rewrite <-Hto. apply (va_fanIn _ _ Hv). by apply bool_decide_eq_true in Hfan. }
  unfold route. rewrite Hsrc. cbn [existsb real_tasks]. by rewrite (bool_decide_eq_false_2 (For (New g) task = "")).
Qed.

Lemma empty_cohort_converges_witness :
  ∃ f, closes demo_graph "A" f ∧ route (item:=nat) demo_graph (New demo_graph) "A" 1 0 None "" [] = DFanInDirect f.
Proof.
  destruct (empty_cohort_converges (item:=nat) (λ _, true) demo_graph "A" 1 0 demo_valid demo_plain demo_names
    ltac:(vm_compute; reflexivity)) as (f & H1 & _ & H2).
  exists f. split; [exact H1|exact H2].
Defined.
