(* ===== verification/Cohort.v ===== *)
(** * Cohorts: the step rows of one flow ([engine/execution.go], [engine/completion.go])

    The rows of [dwarf_steps] and the flow's status as one value, and the transactions that move a
    flow on as functions over it: the transition ([processStep] after [route], [insertFanInStep],
    [fireFanInDirect], [completeFlow]) and the failure of a step ([failStep],
    [propagateCohortFailure]).

    [Pending] stands for every status in which a step still owes its outcome (pending, running,
    interrupted, parked).  A row that a statement expects and does not find aborts the transaction:
    [None].  State payloads, timestamps, parking and the lease fence are not part of this model:
    a transaction here is one whose dispatch still holds its lease on a flow no peer has terminated. *)

From S2P Require Import Prelude Worklist Graph Lineage Validate FanInMap Routing.

#[local] Open Scope Z_scope.

Inductive step_status := Pending | Completed | Failed | Cancelled.
Inductive flow_status := FRunning | FCompleted | FFailed | FCancelled.

#[export] Instance step_status_eq_dec : EqDecision step_status.
Proof. solve_decision. Defined.
#[export] Instance flow_status_eq_dec : EqDecision flow_status.
Proof. solve_decision. Defined.

Record step := mkStep {
  task_name : string;
  lineage_id : Z;
  fan_out_ordinal : nat;
  step_depth : nat;
  predecessor_id : Z;
  successor_id : Z;
  status : step_status;
  cohort_size : nat;
  cohort_arrivals : nat;
  cohort_failures : nat;
  cohort_cancellations : nat
}.

Abbreviation rows := (gmap Z step).

Record flow := mkFlow { steps : rows; next_id : Z; f_status : flow_status }.

Definition new_step (task : string) (lineage : Z) (ordinal depth : nat) (predecessor : Z) : step :=
  mkStep task lineage ordinal depth predecessor 0 Pending 0 0 0 0.

Definition set_status (st : step_status) (s : step) : step :=
  mkStep (task_name s) (lineage_id s) (fan_out_ordinal s) (step_depth s) (predecessor_id s)
    (successor_id s) st (cohort_size s) (cohort_arrivals s) (cohort_failures s) (cohort_cancellations s).
Definition set_successor (id : Z) (s : step) : step :=
  mkStep (task_name s) (lineage_id s) (fan_out_ordinal s) (step_depth s) (predecessor_id s)
    id (status s) (cohort_size s) (cohort_arrivals s) (cohort_failures s) (cohort_cancellations s).
Definition set_cohort_size (n : nat) (s : step) : step :=
  mkStep (task_name s) (lineage_id s) (fan_out_ordinal s) (step_depth s) (predecessor_id s)
    (successor_id s) (status s) n (cohort_arrivals s) (cohort_failures s) (cohort_cancellations s).
Definition bump (arrivals failures cancellations : nat) (s : step) : step :=
  mkStep (task_name s) (lineage_id s) (fan_out_ordinal s) (step_depth s) (predecessor_id s)
    (successor_id s) (status s) (cohort_size s) (cohort_arrivals s + arrivals)
    (cohort_failures s + failures) (cohort_cancellations s + cancellations).

(** [INSERT INTO dwarf_steps], with the row id the insert returns. *)
Definition insert_step (s : step) (f : flow) : Z * flow :=
  (next_id f, mkFlow (<[next_id f := s]> (steps f)) (next_id f + 1) (f_status f)).

Definition with_steps (ss : rows) (f : flow) : flow := mkFlow ss (next_id f) (f_status f).
Definition with_status (st : flow_status) (f : flow) : flow := mkFlow (steps f) (next_id f) st.

(** The entry step of a new flow. *)
Definition start (g : Graph) : flow :=
  mkFlow {[1 := new_step (entryPoint g) 0 0 0 0]} 2 FRunning.

(** ** Failure *)

(** Walks the enclosing cohorts: [Some cancelled] when the flow fails.  Row ids decrease along the
    walk, so the row's id is fuel enough. *)
Fixpoint propagateCohortFailure (fuel : nat) (current : Z) (cancelled : bool) (ss : rows)
    : option (rows * option bool) :=
  match fuel with
  | O => None
  | S fuel =>
      p ← ss !! current;
      let p := bump 1 1 (if cancelled then 1 else 0)%nat p in
      let ss := <[current := p]> ss in
      if bool_decide (cohort_arrivals p < cohort_size p)%nat then Some (ss, None) else
      let cancelled := bool_decide (cohort_cancellations p = cohort_failures p) in
      if bool_decide (lineage_id p = 0) then Some (ss, Some cancelled)
      else propagateCohortFailure fuel (lineage_id p) cancelled ss
  end.

Definition propagate (spawn : Z) (cancelled : bool) (ss : rows) : option (rows * option bool) :=
  propagateCohortFailure (Z.to_nat spawn) spawn cancelled ss.

Definition loss_status (cancelled : bool) : flow_status := if cancelled then FCancelled else FFailed.

Definition failStep (id : Z) (cancelled : bool) (f : flow) : option flow :=
  s ← steps f !! id;
  let ss := <[id := set_status (if cancelled then Cancelled else Failed) s]> (steps f) in
  if bool_decide (lineage_id s = 0) then Some (with_status (loss_status cancelled) (with_steps ss f))
  else
    '(ss, failFlow) ← propagate (lineage_id s) cancelled ss;
    Some (match failFlow with
          | Some c => with_status (loss_status c) (with_steps ss f)
          | None => with_steps ss f
          end).

(** ** The transition *)

Section transition.
Context {item : Type}.
Implicit Types (n : nextStep item).

(** The loop that inserts the successors; returns the id of the first one. *)
Fixpoint insert_nexts (i : nat) (push : bool) (src : step) (stepID childLineage : Z)
    (nexts : list (nextStep item)) (f : flow) : list Z * flow :=
  match nexts with
  | [] => ([], f)
  | n :: nexts =>
      let ordinal := if push then i else fan_out_ordinal src in
      let '(id, f) :=
        insert_step (new_step (taskName n) childLineage ordinal (step_depth src + 1) stepID) f in
      let '(ids, f) := insert_nexts (S i) push src stepID childLineage nexts f in
      (id :: ids, f)
  end.

(** The deepest row of the cohort. *)
Definition max_depth (spawn : Z) (ss : rows) : nat :=
  map_fold (λ _ s d, if bool_decide (lineage_id s = spawn) then Nat.max (step_depth s) d else d) 0%nat ss.

Definition insertFanInStep (g : Graph) (spawn : Z) (predecessor : Z) (nextDepth : nat) (fanInTask : string)
    (f : flow) : option flow :=
  p ← steps f !! spawn;
  let depth := Nat.max (max_depth spawn (steps f) + 1) nextDepth in
  let exits := fanInPredecessorTasks g fanInTask in
  let is_exit s := bool_decide (lineage_id s = spawn ∧ task_name s ∈ exits ∧ successor_id s = 0) in
  let f := with_steps ((λ s, if is_exit s then set_successor (next_id f) s else s) <$> steps f) f in
  Some (insert_step (new_step fanInTask (lineage_id p) (fan_out_ordinal p) depth predecessor) f).2.

(** The arrivals of one transition at a cohort's fan-in. *)
Definition arrive (g : Graph) (spawn : Z) (arrivals : nat) (stepID : Z) (nextDepth : nat)
    (fanInTask : string) (f : flow) : option flow :=
  p ← steps f !! spawn;
  let p := bump arrivals 0 0 p in
  let f := with_steps (<[spawn := p]> (steps f)) f in
  let fullyResolved := bool_decide (0 < cohort_size p ∧ cohort_size p ≤ cohort_arrivals p)%nat in
  if negb fullyResolved then Some f else
  if bool_decide (cohort_failures p = 0%nat) then insertFanInStep g spawn stepID nextDepth fanInTask f
  else
    let cancelled := bool_decide (cohort_cancellations p = cohort_failures p) in
    if bool_decide (lineage_id p = 0) then Some (with_status (loss_status cancelled) f)
    else
      '(ss, failFlow) ← propagate (lineage_id p) cancelled (steps f);
      Some (match failFlow with
            | Some c => with_status (loss_status c) (with_steps ss f)
            | None => with_steps ss f
            end).

Definition fireFanInDirect (id : Z) (fanIn : string) (f : flow) : option flow :=
  s ← steps f !! id;
  let '(newID, f) :=
    insert_step (new_step fanIn (lineage_id s) (fan_out_ordinal s) (step_depth s + 1) id) f in
  Some (with_steps (<[id := set_successor newID (set_cohort_size 0 s)]> (steps f)) f).

Definition completeFlow (f : flow) : flow := with_status FCompleted f.

(** The transition transaction of [processStep]. *)
Definition transition (g : Graph) (id : Z) (push : bool) (normalNexts : list (nextStep item))
    (fanInTask : string) (fanInArrivals cohortSize : nat) (f : flow) : option flow :=
  s ← steps f !! id;
  let spawn := if push then id else lineage_id s in
  let '(newIDs, f) := insert_nexts 0 push s id spawn normalNexts f in
  let s := match newIDs with first :: _ => set_successor first s | [] => s end in
  let s := if push then set_cohort_size cohortSize s else s in
  let f := with_steps (<[id := s]> (steps f)) f in
  if bool_decide (0 < fanInArrivals)%nat
  then arrive g spawn fanInArrivals id (step_depth s + 1) fanInTask f else Some f.

Definition apply_decision (g : Graph) (id : Z) (d : decision item) (f : flow) : option flow :=
  match d with
  | DFail _ => failStep id false f
  | DComplete => Some (completeFlow f)
  | DFanInDirect fanIn => fireFanInDirect id fanIn f
  | DAdvance push nexts fanInTask arrivals size => transition g id push nexts fanInTask arrivals size f
  end.

(** A task that ran: its step is marked completed, then the flow is moved on. *)
Definition complete_step (g : Graph) (fim : gmap string string) (id : Z) (errorTarget : option string)
    (gotoTask : string) (nextTasks : list (nextStep item)) (f : flow) : option flow :=
  s ← steps f !! id;
  let f := with_steps (<[id := set_status Completed s]> (steps f)) f in
  apply_decision g id (route g fim (task_name s) id (lineage_id s) errorTarget gotoTask nextTasks) f.
End transition.

(** ** Property *)

(** Without plain fan-ins the same task ends the flow: on a graph [Validate] accepts, whose
    branches close at [F] through a switch edge, an empty array at the trunk fan-out source completes
    the flow instead of running [F], and inside a cohort it fails the step for having "no fan-in". *)
Theorem control_edges_skip_fan_in :
  valid (λ _, true) switch_graph ∧ closes switch_graph "A" "F" ∧
  (f_status <$> complete_step (item:=nat) switch_graph (New switch_graph) 1 None "" [] (start switch_graph))
    = Some FCompleted ∧
  route (item:=nat) switch_graph (New switch_graph) "A" 2 1 None "" [] = DFail (FailNoFanIn "A" false).
Proof.
  split_and!; [..|vm_compute; reflexivity|vm_compute; reflexivity].
  - pose proof (Validate_decides (λ _, true) switch_graph) as H.
    assert (Validate (λ _, true) switch_graph = Ok ()) as Hok by (vm_compute; reflexivity).
    rewrite Hok in H. apply H.
  - pose proof (lineage_walk_spec switch_graph) as Hs.
    destruct (lineage_walk switch_graph) as [st|] eqn:Hst; [|vm_compute in Hst; discriminate].
    apply (sound_pairs _ _ (walk_sound _ _ _ Hs)). revert Hst. vm_compute. by intros [= <-].
Qed.
