(* ===== verification/CohortInv.v ===== *)
(** * Cohort accounting: every branch arrives exactly once

    The invariant of the step rows of a flow.  A row is [live] while it owes its outcome or its
    cohort is still open.  For every spawn row, the live members plus the recorded arrivals add up to
    the cohort's size, and exactly one trunk row is live while the flow runs.  Inside a transaction
    the balance is off by a known amount, the [deficit]; each statement moves it. *)

From S2P Require Import Prelude Worklist Graph FanInMap Routing Cohort.

#[local] Open Scope Z_scope.

Definition live (s : step) : Prop :=
  status s = Pending ∨ (cohort_arrivals s < cohort_size s)%nat.
#[export] Instance live_dec s : Decision (live s).
Proof. unfold live. apply _. Defined.

Definition live01 (s : step) : Z := if bool_decide (live s) then 1 else 0.
Definition weight (p : Z) (_ : Z) (s : step) : Z := if bool_decide (lineage_id s = p) then live01 s else 0.
Definition tokens (p : Z) (ss : rows) : Z := map_sum (weight p) ss.

Definition at_ (p : Z) (v : Z) (x : Z) : Z := if bool_decide (x = p) then v else 0.

(** The outstanding count of a cohort. *)
Definition owed (s : step) : Z := Z.of_nat (cohort_size s) - Z.of_nat (cohort_arrivals s).

Record rows_ok (nid : Z) (ss : rows) : Prop := {
  ro_next : 0 < nid;
  ro_id : ∀ id s, ss !! id = Some s → 0 < id < nid;
  ro_lineage : ∀ id s, ss !! id = Some s →
    0 ≤ lineage_id s < id ∧ (lineage_id s ≠ 0 → is_Some (ss !! lineage_id s));
  ro_pending : ∀ id s, ss !! id = Some s → status s = Pending →
    cohort_size s = 0%nat ∧ cohort_arrivals s = 0%nat
}.

Definition Bal (ss : rows) (d : Z → Z) : Prop :=
  (∀ id s, ss !! id = Some s → tokens id ss + d id = owed s) ∧ tokens 0 ss + d 0 = 1.

Record Inv (f : flow) (d : Z → Z) : Prop := {
  inv_rows : rows_ok (next_id f) (steps f);
  inv_bal : Bal (steps f) d
}.

Lemma live01_range s : 0 ≤ live01 s ≤ 1.
Proof. unfold live01. case_bool_decide; lia. Qed.

Lemma weight_nonneg p k s : 0 ≤ weight p k s.
Proof. unfold weight. pose proof (live01_range s). case_bool_decide; lia. Qed.

Lemma tokens_nonneg p ss : 0 ≤ tokens p ss.
Proof. apply map_sum_nonneg. intros. apply weight_nonneg. Qed.

Lemma tokens_update p ss id s s' :
  ss !! id = Some s → lineage_id s' = lineage_id s →
  tokens p (<[id := s']> ss) = tokens p ss + at_ (lineage_id s) (live01 s' - live01 s) p.
Proof.
  intros Hs Hl. unfold tokens. rewrite (map_sum_insert _ _ _ _ _ Hs). unfold weight, at_.
  rewrite Hl. do 2 case_bool_decide; simplify_eq; lia.
Qed.

Lemma tokens_insert p ss id s' :
  ss !! id = None → tokens p (<[id := s']> ss) = tokens p ss + at_ (lineage_id s') (live01 s') p.
Proof.
  intros Hs. unfold tokens. rewrite map_sum_insert_new by done. unfold weight, at_.
  do 2 case_bool_decide; simplify_eq; lia.
Qed.

Lemma rows_ok_fresh nid ss : rows_ok nid ss → ss !! nid = None ∧ tokens nid ss = 0.
Proof.
  intros [_ Hid Hlin _]. split.
  - destruct (ss !! nid) as [s|] eqn:Hs; [|done]. specialize (Hid _ _ Hs). lia.
  - apply map_sum_zero. intros id s Hs. unfold weight. rewrite bool_decide_eq_false_2; [done|].
    intros Heq. destruct (Hlin _ _ Hs) as [? _]. specialize (Hid _ _ Hs). lia.
Qed.

(** Rewriting one row in place. *)
Lemma Inv_update f d id s s' d' :
  Inv f d → steps f !! id = Some s → lineage_id s' = lineage_id s →
  (status s' = Pending → cohort_size s' = 0%nat ∧ cohort_arrivals s' = 0%nat) →
  (∀ x, d' x = d x + at_ (lineage_id s) (live01 s - live01 s') x + at_ id (owed s' - owed s) x) →
  Inv (with_steps (<[id := s']> (steps f)) f) d'.
Proof.
  intros [Hro [Hbal Htrunk]] Hs Hl Hp Hd. pose proof (ro_lineage _ _ Hro _ _ Hs) as [Hlid Hlex].
  pose proof (ro_id _ _ Hro _ _ Hs) as Hid. split; simpl.
  - destruct Hro as [Hn Hids Hlin Hpend]. split; [done|..]; intros x sx; destruct (decide (id = x)) as [<-|Hne];
      rewrite ?lookup_insert_eq, ?lookup_insert_ne by done.
    + done.
    + apply Hids.
    + intros [= <-]. rewrite Hl. split; [done|]. intros Hne0. rewrite lookup_insert_ne by lia. by apply Hlex.
    + intros Hx. destruct (Hlin _ _ Hx) as [? Hex]. split; [done|]. intros Hne0.
      destruct (decide (id = lineage_id sx)) as [<-|]; [rewrite lookup_insert_eq; by eexists|].
      rewrite lookup_insert_ne by done. by apply Hex.
    + by intros [= <-].
    + apply Hpend.
  - split.
    + intros x sx. rewrite (tokens_update _ _ _ _ _ Hs Hl), Hd. unfold at_.
      destruct (decide (id = x)) as [<-|Hne].
      * rewrite lookup_insert_eq. intros [= <-]. specialize (Hbal _ _ Hs).
        repeat case_bool_decide; lia.
      * rewrite lookup_insert_ne by done. intros Hx. specialize (Hbal _ _ Hx).
        repeat case_bool_decide; simplify_eq; lia.
    + rewrite (tokens_update _ _ _ _ _ Hs Hl), Hd. unfold at_. repeat case_bool_decide; lia.
Qed.

(** Inserting a row under the next id. *)
Lemma Inv_insert f d s' d' :
  Inv f d → 0 ≤ lineage_id s' → (lineage_id s' ≠ 0 → is_Some (steps f !! lineage_id s')) →
  status s' = Pending → cohort_size s' = 0%nat → cohort_arrivals s' = 0%nat →
  d (next_id f) = 0 → (∀ x, d' x = d x - at_ (lineage_id s') 1 x) →
  Inv (insert_step s' f).2 d'.
Proof.
  intros [Hro [Hbal Htrunk]] Hl0 Hlex Hst Hsz Har Hdn Hd.
  destruct (rows_ok_fresh _ _ Hro) as [Hnone Htok].
  assert (live01 s' = 1) as Hlive by (unfold live01; rewrite bool_decide_eq_true_2; [done|by left]).
  assert (lineage_id s' < next_id f) as Hlt.
  { destruct (decide (lineage_id s' = 0)) as [->|Hne]; [apply (ro_next _ _ Hro)|].
    destruct (Hlex Hne) as [sl Hsl]. pose proof (ro_id _ _ Hro _ _ Hsl). lia. }
  split; simpl.
  - destruct Hro as [Hn Hids Hlin Hpend]. split; [lia|..]; intros x sx;
      destruct (decide (next_id f = x)) as [<-|Hne]; rewrite ?lookup_insert_eq, ?lookup_insert_ne by done.
    + intros _. lia.
    + intros Hx. specialize (Hids _ _ Hx). lia.
    + intros [= <-]. split; [lia|]. intros Hne0. rewrite lookup_insert_ne by lia. by apply Hlex.
    + intros Hx. destruct (Hlin _ _ Hx) as [? Hex]. split; [done|]. intros Hne0.
      rewrite lookup_insert_ne; [by apply Hex|]. specialize (Hids _ _ Hx). lia.
    + by intros [= <-].
    + apply Hpend.
  - split.
    + intros x sx. rewrite tokens_insert, Hlive, Hd by done. unfold at_.
      destruct (decide (next_id f = x)) as [<-|Hne].
      * rewrite lookup_insert_eq. intros [= <-]. rewrite Htok, Hdn. unfold owed. rewrite Hsz, Har.
        case_bool_decide; lia.
      * rewrite lookup_insert_ne by done. intros Hx. specialize (Hbal _ _ Hx). case_bool_decide; lia.
    + rewrite tokens_insert, Hlive, Hd by done. unfold at_. case_bool_decide; lia.
Qed.

Lemma Inv_ext f d d' : (∀ x, d' x = d x) → Inv f d → Inv f d'.
Proof. intros Hd [? [Hb Ht]]. split; [done|]. split; intros; rewrite Hd; auto. Qed.

(** Statements that touch no count leave the balance alone. *)
Definition same_counts (s s' : step) : Prop :=
  lineage_id s' = lineage_id s ∧ status s' = status s ∧ cohort_size s' = cohort_size s ∧
  cohort_arrivals s' = cohort_arrivals s.

Lemma same_counts_live s s' : same_counts s s' → live01 s' = live01 s ∧ owed s' = owed s.
Proof.
  intros (_ & Hst & Hsz & Har). unfold owed, live01. rewrite Hsz, Har. split; [|done].
  rewrite (bool_decide_ext (live s') (live s)); [done|]. unfold live. by rewrite Hst, Hsz, Har.
Qed.

Lemma Inv_fmap f d (h : step → step) :
  (∀ s, same_counts s (h s)) → Inv f d → Inv (with_steps (h <$> steps f) f) d.
Proof.
  intros Hh [Hro [Hbal Htrunk]].
  assert (∀ p, tokens p (h <$> steps f) = tokens p (steps f)) as Htok.
  { intros p. unfold tokens. rewrite map_sum_fmap. apply map_sum_ext. intros k s _. unfold weight.
    destruct (same_counts_live _ _ (Hh s)) as [-> _]. by destruct (Hh s) as (-> & _). }
  split; simpl.
  - destruct Hro as [Hn Hids Hlin Hpend]. split; [done|..]; intros x sx;
      rewrite lookup_fmap, fmap_Some; intros (s & Hs & ->); destruct (Hh s) as (H1 & H2 & H3 & H4).
    + by eapply Hids.
    + rewrite H1, lookup_fmap, fmap_is_Some. by apply Hlin.
    + rewrite H2, H3, H4. by eapply Hpend.
  - split; [|by rewrite Htok]. intros x sx. rewrite lookup_fmap, fmap_Some. intros (s & Hs & ->).
    rewrite Htok. destruct (same_counts_live _ _ (Hh s)) as [_ ->]. by apply Hbal.
Qed.

(** ** The statements of the transactions *)

Definition none_owed : Z → Z := λ _, 0.

(** A step that stopped owing its outcome: its place in the enclosing cohort is now vacant. *)
Lemma Inv_retire f id s st :
  Inv f none_owed → steps f !! id = Some s → status s = Pending → st ≠ Pending →
  Inv (with_steps (<[id := set_status st s]> (steps f)) f) (at_ (lineage_id s) 1).
Proof.
  intros Hinv Hs Hp Hst. destruct (ro_pending _ _ (inv_rows _ _ Hinv) _ _ Hs Hp) as [Hsz Har].
  eapply Inv_update; [done..| |]; simpl; [done|]. intros x. unfold at_, owed, none_owed, live01. simpl.
  rewrite (bool_decide_eq_true_2 (live s)) by (by left).
  rewrite (bool_decide_eq_false_2 (live _)); [repeat case_bool_decide; lia|].
  unfold live. simpl. intros [?|?]; [done|lia].
Qed.

(** Marking a settled row differently. *)
Lemma Inv_mark f d id s s' :
  Inv f d → steps f !! id = Some s → status s ≠ Pending → status s' ≠ Pending →
  lineage_id s' = lineage_id s → cohort_size s' = cohort_size s → cohort_arrivals s' = cohort_arrivals s →
  Inv (with_steps (<[id := s']> (steps f)) f) d.
Proof.
  intros Hinv Hs Hst Hst' Hl Hsz Har. eapply Inv_update; [done..|].
  intros x. unfold at_, owed, live01. rewrite Hsz, Har.
  rewrite (bool_decide_ext (live s') (live s)); [repeat case_bool_decide; lia|].
  unfold live. rewrite Hsz, Har. tauto.
Qed.

(** An arrival of [k] branches that were owed: either the cohort stays open and everything balances,
    or it closes and its own place in the enclosing cohort becomes vacant. *)
Lemma Inv_arrive f p s k fl cc :
  Inv f (at_ p (Z.of_nat k)) → (0 < k)%nat → p ≠ 0 → steps f !! p = Some s →
  let s' := bump k fl cc s in
  let f' := with_steps (<[p := s']> (steps f)) f in
  (cohort_arrivals s' ≤ cohort_size s')%nat ∧
  Inv f' (if bool_decide (cohort_arrivals s' < cohort_size s')%nat then none_owed else at_ (lineage_id s) 1).
Proof.
  intros Hinv Hk Hp0 Hs s' f'.
  pose proof (proj1 (inv_bal _ _ Hinv) _ _ Hs) as Hb. unfold at_ in Hb.
  rewrite bool_decide_eq_true_2 in Hb by done. pose proof (tokens_nonneg p (steps f)) as Ht.
  pose proof (ro_lineage _ _ (inv_rows _ _ Hinv) _ _ Hs) as [Hlt _].
  assert (status s ≠ Pending) as Hst.
  { intros Hpend. destruct (ro_pending _ _ (inv_rows _ _ Hinv) _ _ Hs Hpend). unfold owed in Hb. lia. }
  assert (cohort_arrivals s' ≤ cohort_size s')%nat as Hle by (unfold owed in Hb; simpl; lia).
  split; [done|]. eapply Inv_update; [done..|].
  intros x. unfold owed, live01 in *. simpl in *.
  rewrite (bool_decide_eq_true_2 (live s)) by (right; lia).
  destruct (decide (cohort_arrivals s + k < cohort_size s)%nat) as [Hlt'|Hge].
  - rewrite bool_decide_eq_true_2 by done. rewrite (bool_decide_eq_true_2 (live _)) by (by right).
    unfold none_owed, at_. repeat case_bool_decide; lia.
  - rewrite bool_decide_eq_false_2 by done. rewrite (bool_decide_eq_false_2 (live _)).
    + unfold at_. repeat case_bool_decide; lia.
    + unfold live. simpl. intros [?|?]; done.
Qed.

(** A new row in the vacant place of cohort [p]. *)
Lemma Inv_fill f p s' :
  Inv f (at_ p 1) → lineage_id s' = p → 0 ≤ p → (p ≠ 0 → is_Some (steps f !! p)) →
  status s' = Pending → cohort_size s' = 0%nat → cohort_arrivals s' = 0%nat →
  Inv (insert_step s' f).2 none_owed.
Proof.
  intros Hinv Hl H0 Hex Hst Hsz Har. subst p.
  eapply Inv_insert; [done..| |].
  - unfold at_. rewrite bool_decide_eq_false_2; [done|]. intros Heq.
    destruct (decide (lineage_id s' = 0)) as [He|Hne].
    + pose proof (ro_next _ _ (inv_rows _ _ Hinv)). lia.
    + destruct (Hex Hne) as [sl Hsl]. pose proof (ro_id _ _ (inv_rows _ _ Hinv) _ _ Hsl). lia.
  - intros x. unfold none_owed. lia.
Qed.

(** The walk over the enclosing cohorts never misses a row and never runs out of fuel. *)
Lemma propagate_spec fuel f p c :
  Inv f (at_ p 1) → 0 < p → is_Some (steps f !! p) → (Z.to_nat p ≤ fuel)%nat →
  ∃ ss r, propagateCohortFailure fuel p c (steps f) = Some (ss, r) ∧
    Inv (with_steps ss f) (match r with None => none_owed | Some _ => at_ 0 1 end).
Proof.
  revert f p c. induction fuel as [|fuel IH]; intros f p c Hinv Hp [s Hs] Hfuel; [lia|]. simpl.
  rewrite Hs. simpl.
  destruct (Inv_arrive f p s 1 1 (if c then 1 else 0)%nat Hinv ltac:(lia) ltac:(lia) Hs) as [Hle Hinv'].
  simpl in Hle, Hinv'. case_bool_decide as Hopen; simpl in *.
  - eexists _, _. split; [done|]. done.
  - destruct (ro_lineage _ _ (inv_rows _ _ Hinv) _ _ Hs) as [Hlt Hex].
    destruct (decide (lineage_id s = 0)) as [Hl|Hl].
    + rewrite bool_decide_eq_true_2 by done. rewrite Hl in Hinv'. by eexists _, _.
    + rewrite bool_decide_eq_false_2 by done.
      match goal with |- ∃ _ _, propagateCohortFailure _ _ ?c' (<[_ := ?s']> _) = _ ∧ _ =>
        destruct (IH (with_steps (<[p := s']> (steps f)) f) (lineage_id s) c' Hinv')
          as (ss & r & Heq & Hr) end.
      * lia.
      * simpl. rewrite lookup_insert_ne by lia. by apply Hex.
      * lia.
      * by exists ss, r.
Qed.

(** ** Whole transactions *)

(** Between transactions: one trunk row is live while the flow runs, none once it is terminal. *)
Definition settled_debt (f : flow) : Z → Z :=
  if bool_decide (f_status f = FRunning) then none_owed else at_ 0 1.
Definition Settled (f : flow) : Prop := Inv f (settled_debt f).

Lemma Settled_running f : f_status f = FRunning → Inv f none_owed → Settled f.
Proof. intros Hr. unfold Settled, settled_debt. by rewrite bool_decide_eq_true_2. Qed.

Lemma Settled_stopped f st : st ≠ FRunning → Inv f (at_ 0 1) → Settled (with_status st f).
Proof.
  intros Hst [??]. unfold Settled, settled_debt. simpl. rewrite bool_decide_eq_false_2 by done. by split.
Qed.

Lemma loss_status_stopped c : loss_status c ≠ FRunning.
Proof. by destruct c. Qed.

(** A cohort's loss, carried outwards. *)
Lemma propagate_settles f p c :
  Inv f (at_ p 1) → f_status f = FRunning → 0 < p → is_Some (steps f !! p) →
  ∃ ss r, propagate p c (steps f) = Some (ss, r) ∧
    Settled (match r with Some c => with_status (loss_status c) (with_steps ss f) | None => with_steps ss f end).
Proof.
  intros Hinv Hr Hp Hex. unfold propagate.
  destruct (propagate_spec (Z.to_nat p) f p c Hinv Hp Hex ltac:(lia)) as (ss & r & Heq & Hinv').
  exists ss, r. split; [done|]. destruct r.
  - apply Settled_stopped; [apply loss_status_stopped|done].
  - by apply Settled_running.
Qed.

Lemma failStep_settles f id s (c : bool) :
  Inv (with_steps (<[id := set_status (if c then Cancelled else Failed) s]> (steps f)) f) (at_ (lineage_id s) 1) →
  steps f !! id = Some s → f_status f = FRunning →
  ∃ f', failStep id c f = Some f' ∧ Settled f'.
Proof.
  intros Hinv Hs Hr. unfold failStep. rewrite Hs. simpl. case_bool_decide as Hl.
  - rewrite Hl in Hinv. eexists. split; [done|]. apply Settled_stopped; [apply loss_status_stopped|done].
  - destruct (ro_lineage _ _ (inv_rows _ _ Hinv) id (set_status (if c then Cancelled else Failed) s))
      as [Hlt Hex]; [simpl; apply lookup_insert_eq|].
    destruct (propagate_settles _ _ c Hinv Hr) as (ss & r & Heq & Hset); [simpl in Hlt; lia|by apply Hex|].
    simpl in Heq. rewrite Heq. simpl. eexists. split; [done|]. by destruct r.
Qed.

Section transitions.
Context {item : Type}.
Implicit Types (nexts : list (nextStep item)).

Lemma insert_nexts_spec i push src id cl nexts f d :
  Inv f d → 0 ≤ cl → (cl ≠ 0 → is_Some (steps f !! cl)) → (∀ x, next_id f ≤ x → d x = 0) →
  let '(ids, f') := insert_nexts i push src id cl nexts f in
  Inv f' (λ x, d x - at_ cl (Z.of_nat (length nexts)) x) ∧ f_status f' = f_status f ∧
  next_id f ≤ next_id f' ∧ ∀ x s, steps f !! x = Some s → steps f' !! x = Some s.
Proof.
  revert i f d. induction nexts as [|n nexts IH]; intros i f d Hinv H0 Hex Hd.
  - simpl. split_and!; [|done|done|done]. eapply Inv_ext; [|done]. intros x. unfold at_. case_bool_decide; lia.
  - cbn [insert_nexts].
    set (s' := new_step (taskName n) cl (if push then i else fan_out_ordinal src) (step_depth src + 1) id).
    assert (Inv (insert_step s' f).2 (λ x, d x - at_ cl 1 x)) as Hinv1.
    { eapply (Inv_insert f d s'); simpl; try done. apply Hd. done. }
    assert (∀ x s, steps f !! x = Some s → steps (insert_step s' f).2 !! x = Some s) as Hold.
    { intros x s Hx. simpl. rewrite lookup_insert_ne; [done|].
      pose proof (ro_id _ _ (inv_rows _ _ Hinv) _ _ Hx). lia. }
    assert (cl < next_id f) as Hcl.
    { destruct (decide (cl = 0)) as [->|Hne]; [apply (ro_next _ _ (inv_rows _ _ Hinv))|].
      destruct (Hex Hne) as [sl Hsl]. apply (ro_id _ _ (inv_rows _ _ Hinv) _ _ Hsl). }
    specialize (IH (S i) (insert_step s' f).2 (λ x, d x - at_ cl 1 x) Hinv1 H0).
    destruct (insert_step s' f) as [nid f1] eqn:Hf1. simpl in *. injection Hf1 as <- <-.
    destruct (insert_nexts (S i) push src id cl nexts _) as [ids f'].
    destruct IH as (IH1 & IH2 & IH3 & IH4).
    + intros Hne. destruct (Hex Hne) as [sl Hsl]. exists sl. by apply Hold.
    + simpl. intros x Hx. rewrite Hd by lia. unfold at_. rewrite bool_decide_eq_false_2; lia.
    + simpl in *. split_and!; [|done|lia|by auto].
      eapply Inv_ext; [|done]. intros x. simpl. unfold at_. case_bool_decide; lia.
Qed.

Lemma insertFanInStep_settles g p s pred depth task f :
  Inv f (at_ (lineage_id s) 1) → f_status f = FRunning → steps f !! p = Some s →
  ∃ f', insertFanInStep g p pred depth task f = Some f' ∧ Settled f'.
Proof.
  intros Hinv Hr Hs. unfold insertFanInStep. rewrite Hs. cbn [mbind option_bind].
  eexists. split; [done|]. apply Settled_running; [done|].
  destruct (ro_lineage _ _ (inv_rows _ _ Hinv) _ _ Hs) as [Hlt Hex].
  eapply (Inv_fill _ (lineage_id s)); [apply Inv_fmap; [|done]|done|lia| |done..].
  - intros s0. by destruct (bool_decide _).
  - intros Hne. simpl. rewrite lookup_fmap, fmap_is_Some. by apply Hex.
Qed.

Lemma arrive_settles g p k id depth task f s :
  Inv f (at_ p (Z.of_nat k)) → (0 < k)%nat → p ≠ 0 → steps f !! p = Some s → f_status f = FRunning →
  ∃ f', arrive g p k id depth task f = Some f' ∧ Settled f'.
Proof.
  intros Hinv Hk Hp Hs Hr. unfold arrive. rewrite Hs. cbn [mbind option_bind].
  destruct (Inv_arrive f p s k 0 0 Hinv Hk Hp Hs) as [Hle Hinv'].
  set (s' := bump k 0 0 s) in *. set (f' := with_steps (<[p := s']> (steps f)) f) in *.
  assert (bool_decide (0 < cohort_size s' ∧ cohort_size s' ≤ cohort_arrivals s')%nat
          = negb (bool_decide (cohort_arrivals s' < cohort_size s')%nat)) as ->.
  { subst s'. simpl in *. repeat case_bool_decide; simpl; try done; lia. }
  case_bool_decide as Hopen; simpl.
  - exists f'. split; [done|]. by apply Settled_running.
  - case_bool_decide as Hfail.
    + eapply (insertFanInStep_settles _ _ s'); [done|done|]. subst f'. simpl. apply lookup_insert_eq.
    + case_bool_decide as Hl.
      * rewrite Hl in Hinv'. eexists. split; [done|].
        apply Settled_stopped; [apply loss_status_stopped|done].
      * assert (steps f' !! p = Some s') as Hs' by (subst f'; simpl; apply lookup_insert_eq).
        destruct (ro_lineage _ _ (inv_rows _ _ Hinv') _ _ Hs') as [Hlt Hex]. simpl in Hlt, Hex.
        match goal with |- ∃ _, (propagate _ ?c _ ≫= _) = _ ∧ _ =>
          destruct (propagate_settles f' (lineage_id s) c Hinv' Hr) as (ss & r & Heq & Hset) end;
          [simpl in Hl; lia|by apply Hex|].
        simpl in Heq. rewrite Heq. simpl. eexists. split; [done|]. by destruct r.
Qed.
End transitions.

(** ** From a decision to a settled flow *)

Section decisions.
Context {item : Type}.
Implicit Types (nexts : list (nextStep item)) (d : decision item).

(** What [route] guarantees of its decision for a step of lineage [l]. *)
Definition decision_ok (l : Z) d : Prop :=
  match d with
  | DFail _ | DFanInDirect _ => True
  | DComplete => l = 0
  | DAdvance push nexts _ k size =>
      size = (length nexts + k)%nat ∧ (0 < size)%nat ∧
      (push = false → size = 1%nat ∧ (k = 1%nat → l ≠ 0))
  end.

Lemma length_split_filter (P : nextStep item → bool) l :
  length l = (length (filter (λ n, P n = false) l) + length (filter (λ n, P n = true) l))%nat.
Proof.
  induction l as [|n l IH]; [done|]. rewrite !filter_cons. destruct (P n); simpl; lia.
Qed.

Lemma route_ok g fim task id l errT goto_ nexts :
  (IsFanOutSource g task = false → (length nexts ≤ 1)%nat) →
  (goto_ ≠ "" → (length nexts ≤ 1)%nat) →
  decision_ok l (route g fim task id l errT goto_ nexts).
Proof.
  intros Hsrc Hgoto. unfold route. cbv zeta.
  set (next' := match errT with Some t => [plain t] | None => nexts end).
  assert (length (real_tasks next') ≤ length next')%nat as Hlen by apply length_filter.
  assert (∀ r, decision_ok l (if bool_decide (l ≠ 0) then DFail r else DComplete)) as Hend.
  { intros r. destruct (bool_decide (l ≠ 0)) eqn:Hl; [done|].
    apply bool_decide_eq_false in Hl. simpl. lia. }
  match goal with |- context [if ?b then DFanInDirect _ else _] => destruct b; [done|] end.
  destruct (IsFanOutSource g task && bool_decide (length (real_tasks next') = 0%nat)); [apply Hend|].
  destruct (decide (length (real_tasks next') = 0%nat)) as [Hz|Hz];
    [rewrite bool_decide_eq_true_2 by done; apply Hend|rewrite bool_decide_eq_false_2 by done].
  set (push := _ && _ && _).
  destruct (bool_decide _ && bool_decide _) eqn:Hguard; [done|]. simpl.
  set (fanIns := filter (λ n, IsFanIn g (taskName n) = true) (real_tasks next')) in *.
  split_and!.
  - apply length_split_filter.
  - lia.
  - intros Hpush. assert (length next' ≤ 1)%nat as Hone.
    { subst next' push. destruct errT as [t|]; [simpl; lia|]. simpl in Hpush.
      rewrite andb_true_r in Hpush.
      apply andb_false_iff in Hpush as [?|Hg%bool_decide_eq_false]; auto. }
    split; [lia|]. intros Hk ->. rewrite Hpush, Hk in Hguard. done.
Qed.

Lemma transition_settles g id s push nexts task k size f :
  Inv f (at_ (lineage_id s) 1) → f_status f = FRunning → steps f !! id = Some s →
  status s = Completed → cohort_size s = 0%nat → cohort_arrivals s = 0%nat →
  size = (length nexts + k)%nat → (0 < size)%nat →
  (push = false → size = 1%nat ∧ (k = 1%nat → lineage_id s ≠ 0)) →
  ∃ f', transition g id push nexts task k size f = Some f' ∧ Settled f'.
Proof.
  intros Hinv Hr Hs Hst Hsz Har Hsize Hpos Hpush. unfold transition. rewrite Hs. cbn [mbind option_bind].
  destruct (ro_lineage _ _ (inv_rows _ _ Hinv) _ _ Hs) as [Hlt Hex].
  pose proof (ro_id _ _ (inv_rows _ _ Hinv) _ _ Hs) as Hid.
  set (spawn := if push then id else lineage_id s).
  pose proof (insert_nexts_spec 0 push s id spawn nexts f _ Hinv) as Hins.
  destruct (insert_nexts 0 push s id spawn nexts f) as [ids f1].
  destruct Hins as (Hinv1 & Hr1 & Hn1 & Hold1).
  { subst spawn. destruct push; lia. }
  { subst spawn. destruct push; [by eexists|done]. }
  { intros x Hx. unfold at_. rewrite bool_decide_eq_false_2; [done|lia]. }
  set (s2 := match ids with first :: _ => set_successor first s | [] => s end).
  set (s3 := if push then set_cohort_size size s2 else s2).
  set (f2 := with_steps (<[id := s3]> (steps f1)) f1).
  assert (Inv f2 (at_ spawn (Z.of_nat k))) as Hinv2.
  { assert (same_counts s s2) as (Hl2 & Hst2 & Hsz2 & Har2) by (subst s2; by destruct ids).
    eapply Inv_update; [exact Hinv1|by apply Hold1|subst s3; destruct push; simpl; congruence| |].
    - subst s3. destruct push; simpl; congruence.
    - intros x. unfold owed, live01. subst s3 spawn.
      rewrite (bool_decide_eq_false_2 (live s)) by (unfold live; rewrite Hst, Hsz, Har; intros [?|?]; [done|lia]).
      destruct push; simpl; rewrite ?Hsz2, ?Har2, Hsz, Har.
      + rewrite (bool_decide_eq_true_2 (live _)) by (right; simpl; lia).
        unfold at_. repeat case_bool_decide; lia.
      + rewrite (bool_decide_eq_false_2 (live _))
          by (unfold live; rewrite Hst2, Hsz2, Har2, Hst, Hsz, Har; intros [?|?]; [done|lia]).
        destruct (Hpush eq_refl) as [? _]. unfold at_. repeat case_bool_decide; lia. }
  case_bool_decide as Hk.
  - destruct (decide (spawn = id)) as [Heq|Hne].
    + rewrite Heq in *. eapply (arrive_settles g id k _ _ _ f2 s3); [done|done|lia| |by rewrite <-Hr, <-Hr1].
      subst f2. simpl. apply lookup_insert_eq.
    + assert (push = false) as -> by (subst spawn; by destruct push). simpl in *.
      destruct (Hpush eq_refl) as [? Hl]. destruct Hex as [sl Hsl]; [apply Hl; lia|].
      eapply (arrive_settles g spawn k _ _ _ f2 sl); [done|done|apply Hl; lia| |by rewrite <-Hr, <-Hr1].
      subst f2. simpl. rewrite lookup_insert_ne by done. by apply Hold1.
  - exists f2. split; [done|]. apply Settled_running; [by rewrite <-Hr, <-Hr1|].
    eapply Inv_ext; [|done]. intros x. unfold none_owed, at_. case_bool_decide; lia.
Qed.

Lemma fireFanInDirect_settles id s task f :
  Inv f (at_ (lineage_id s) 1) → f_status f = FRunning → steps f !! id = Some s →
  status s = Completed → cohort_size s = 0%nat → cohort_arrivals s = 0%nat →
  ∃ f', fireFanInDirect id task f = Some f' ∧ Settled f'.
Proof.
  intros Hinv Hr Hs Hst Hsz Har. unfold fireFanInDirect. rewrite Hs. cbn [mbind option_bind].
  destruct (ro_lineage _ _ (inv_rows _ _ Hinv) _ _ Hs) as [Hlt Hex].
  pose proof (ro_id _ _ (inv_rows _ _ Hinv) _ _ Hs) as Hid.
  eexists. split; [done|]. apply Settled_running; [done|].
  set (s' := new_step task (lineage_id s) (fan_out_ordinal s) (step_depth s + 1) id).
  assert (Inv (insert_step s' f).2 none_owed) as Hinv'
    by (eapply (Inv_fill _ (lineage_id s)); [done|done|lia|done..]).
  apply (Inv_mark _ _ id s (set_successor (next_id f) (set_cohort_size 0 s)) Hinv'); simpl;
    try congruence. by rewrite lookup_insert_ne by lia.
Qed.

Lemma apply_decision_settles g id s d f :
  Inv f (at_ (lineage_id s) 1) → f_status f = FRunning → steps f !! id = Some s →
  status s = Completed → cohort_size s = 0%nat → cohort_arrivals s = 0%nat →
  decision_ok (lineage_id s) d →
  ∃ f', apply_decision g id d f = Some f' ∧ Settled f'.
Proof.
  intros Hinv Hr Hs Hst Hsz Har Hd. destruct d as [r| |fanIn|push nexts task k size]; simpl in *.
  - eapply failStep_settles; [|done|done].
    by apply (Inv_mark f _ id s); simpl; rewrite ?Hst.
  - eexists. split; [done|]. rewrite Hd in Hinv. by apply Settled_stopped.
  - by eapply fireFanInDirect_settles.
  - destruct Hd as (? & ? & ?). by eapply transition_settles.
Qed.

(** Completing a pending step settles the flow again, whatever its task decided. *)
Lemma complete_step_settles g fim id s errT goto_ nexts f :
  Settled f → f_status f = FRunning → steps f !! id = Some s → status s = Pending →
  (IsFanOutSource g (task_name s) = false → (length nexts ≤ 1)%nat) →
  (goto_ ≠ "" → (length nexts ≤ 1)%nat) →
  ∃ f', complete_step g fim id errT goto_ nexts f = Some f' ∧ Settled f'.
Proof.
  intros Hset Hr Hs Hp Hsrc Hgoto. unfold complete_step. rewrite Hs. cbn [mbind option_bind].
  unfold Settled, settled_debt in Hset. rewrite bool_decide_eq_true_2 in Hset by done.
  destruct (ro_pending _ _ (inv_rows _ _ Hset) _ _ Hs Hp) as [Hsz Har].
  pose proof (Inv_retire f id s Completed Hset Hs Hp ltac:(done)) as Hinv.
  eapply (apply_decision_settles _ _ (set_status Completed s)); simpl; try done.
  - apply lookup_insert_eq.
  - by apply route_ok.
Qed.

Lemma fail_pending_settles id s c f :
  Settled f → f_status f = FRunning → steps f !! id = Some s → status s = Pending →
  ∃ f', failStep id c f = Some f' ∧ Settled f'.
Proof.
  intros Hset Hr Hs Hp. unfold Settled, settled_debt in Hset. rewrite bool_decide_eq_true_2 in Hset by done.
  eapply failStep_settles; [|done|done]. apply Inv_retire; [done..|by destruct c].
Qed.
End decisions.

(** ** Runs of a flow *)

Section runs.
Context {item symbols : Type}.

(** What a task that ran can ask for: its error was routed to its onError handler, or it succeeded
    and [evaluateTransitions] produced the successors under the goto it requested, if any. *)
Definition task_outcome (g : Graph) (task : string) (errT : option string) (goto_ : string)
    (nexts : list (nextStep item)) : Prop :=
  match errT with
  | Some t => nexts = [] ∧ ∃ tr, ErrorTransition task g = Some tr ∧ tr_To tr = t
  | None => ∃ (Eval : string → symbols → option bool) (f : flow_view item symbols),
      GotoRequested f = goto_ ∧ evaluateTransitions Eval g task f = Ok nexts
  end.

Inductive flow_step (g : Graph) (fim : gmap string string) : flow → flow → Prop :=
| flow_ran id s errT goto_ nexts f f' :
    f_status f = FRunning → steps f !! id = Some s → status s = Pending →
    task_outcome g (task_name s) errT goto_ nexts →
    complete_step g fim id errT goto_ nexts f = Some f' → flow_step g fim f f'
| flow_failed id s c f f' :
    f_status f = FRunning → steps f !! id = Some s → status s = Pending →
    failStep id c f = Some f' → flow_step g fim f f'.

Definition reachable (g : Graph) (fim : gmap string string) : flow → Prop :=
  rtc (flow_step g fim) (start g).

Lemma task_outcome_single g task errT goto_ nexts :
  task_outcome g task errT goto_ nexts →
  (IsFanOutSource g task = false → (length nexts ≤ 1)%nat) ∧ (goto_ ≠ "" → (length nexts ≤ 1)%nat).
Proof.
  destruct errT as [t|]; simpl.
  - intros [-> _]. simpl. split; lia.
  - intros (Eval & f & <- & Hev). split.
    + by eapply evaluateTransitions_single.
    + intros Hg. unfold evaluateTransitions in Hev. rewrite bool_decide_eq_false_2 in Hev by done.
      simpl in Hev. destruct (find _ _); simplify_eq. simpl. lia.
Qed.

Lemma Settled_start g : Settled (start g).
Proof.
  split; simpl.
  - split; [done|..]; intros id s [<- <-]%lookup_singleton_Some; simpl; done || lia.
  - assert (∀ p, tokens p {[1 := new_step (entryPoint g) 0 0 0 0]} = at_ 0 1 p) as Htok.
    { intros p. rewrite <-insert_empty, tokens_insert by done. unfold tokens. rewrite map_sum_empty. done. }
    split; [|rewrite Htok; done].
    intros id s [<- <-]%lookup_singleton_Some. rewrite Htok. done.
Qed.

Lemma Settled_reachable g fim f : reachable g fim f → Settled f.
Proof.
  intros Hr. remember (start g) as f0 eqn:Hf0. unfold reachable in Hr. rewrite <-Hf0 in Hr.
  assert (Settled f0) as H0 by (rewrite Hf0; apply Settled_start). clear Hf0.
  induction Hr as [|f0 f1 f2 Hstep _ IH]; [done|]. apply IH.
  destruct Hstep as [id s errT goto_ nexts f f' Hr Hs Hp Hout Hc|id s c f f' Hr Hs Hp Hc].
  - destruct (task_outcome_single _ _ _ _ _ Hout) as [Hsrc Hgoto].
    destruct (complete_step_settles g fim id s errT goto_ nexts f H0 Hr Hs Hp Hsrc Hgoto) as (f2' & Heq & ?).
    congruence.
  - destruct (fail_pending_settles id s c f H0 Hr Hs Hp) as (f2' & Heq & ?). congruence.
Qed.
End runs.

Lemma live_member_open f d id s p :
  Inv f d → (∀ x, 0 ≤ d x) → steps f !! id = Some s → live s → lineage_id s = p → steps f !! p = None ∨
  ∃ sp, steps f !! p = Some sp ∧ (cohort_arrivals sp < cohort_size sp)%nat.
Proof.
  intros Hinv Hd Hs Hlive Hl. destruct (steps f !! p) as [sp|] eqn:Hp; [right|by left].
  exists sp. split; [done|]. pose proof (proj1 (inv_bal _ _ Hinv) _ _ Hp) as Hb. specialize (Hd p).
  pose proof (map_sum_elem (weight p) (steps f) id s (weight_nonneg p) Hs) as He.
  unfold weight at 1, live01 in He. rewrite !bool_decide_eq_true_2 in He by done.
  unfold tokens, owed in Hb. lia.
Qed.

(** An open cohort has a live member, younger than its spawn. *)
Lemma open_has_member f id s :
  Inv f none_owed → steps f !! id = Some s → (cohort_arrivals s < cohort_size s)%nat →
  ∃ id' s', steps f !! id' = Some s' ∧ lineage_id s' = id ∧ live s' ∧ id < id'.
Proof.
  intros Hinv Hs Hopen. pose proof (proj1 (inv_bal _ _ Hinv) _ _ Hs) as Hb. unfold none_owed, owed in Hb.
  destruct (map_sum_pos (weight id) (steps f)) as (id' & s' & Hs' & Hw);
    [apply weight_nonneg|unfold tokens in Hb; lia|].
  unfold weight, live01 in Hw. case_bool_decide as Hl; [|lia]. case_bool_decide; [|lia].
  exists id', s'. split_and!; [done..|]. rewrite <-Hl. by apply (ro_lineage _ _ (inv_rows _ _ Hinv)).
Qed.

Lemma live_leads_to_pending f id s :
  Inv f none_owed → steps f !! id = Some s → live s → ∃ id' s', steps f !! id' = Some s' ∧ status s' = Pending.
Proof.
  intros Hinv. remember (Z.to_nat (next_id f - id)) as n eqn:Hn. revert id s Hn.
  induction n as [n IH] using lt_wf_ind. intros id s Hn Hs [Hp|Hopen]; [by exists id, s|].
  destruct (open_has_member f id s Hinv Hs Hopen) as (id' & s' & Hs' & _ & Hlive & Hlt).
  pose proof (ro_id _ _ (inv_rows _ _ Hinv) _ _ Hs') as Hid'.
  eapply (IH (Z.to_nat (next_id f - id'))); [lia|done..].
Qed.

Lemma live_leads_to_trunk f d id s :
  Inv f d → (∀ x, 0 ≤ d x) → steps f !! id = Some s → live s → 1 ≤ tokens 0 (steps f).
Proof.
  intros Hinv Hd. remember (Z.to_nat id) as n eqn:Hn. revert id s Hn.
  induction n as [n IH] using lt_wf_ind. intros id s Hn Hs Hlive.
  destruct (ro_lineage _ _ (inv_rows _ _ Hinv) _ _ Hs) as [Hlt Hex].
  destruct (decide (lineage_id s = 0)) as [Hl|Hl].
  - pose proof (map_sum_elem (weight 0) (steps f) id s (weight_nonneg 0) Hs) as He.
    unfold weight at 1, live01 in He. rewrite !bool_decide_eq_true_2 in He by done. done.
  - destruct (live_member_open f d id s (lineage_id s) Hinv Hd Hs Hlive eq_refl) as [Hnone|(sp & Hsp & Hopen)].
    + destruct (Hex Hl) as [? ?]. congruence.
    + eapply (IH (Z.to_nat (lineage_id s))); [lia|done|done|by right].
Qed.

(** ** A concrete run *)

Definition demo_fim : gmap string string := New demo_graph.
Definition demo_branch (i : nat) : nextStep nat := mkNext "B" (Some (7 + i)%nat) "item" "xs" i 2.

(** The source spawned its two branches and the first of them has arrived. *)
Definition demo_half : flow :=
  default (start demo_graph)
    (f ← complete_step demo_graph demo_fim 1 None "" [demo_branch 0; demo_branch 1] (start demo_graph);
     complete_step demo_graph demo_fim 2 None "" [@plain nat "F"] f).

(** The second one too, and the fan-in ran and reached END. *)
Definition demo_done : flow :=
  default demo_half
    (f ← complete_step demo_graph demo_fim 3 None "" [@plain nat "F"] demo_half;
     complete_step demo_graph demo_fim 4 None "" [@plain nat END] f).

Lemma demo_outcome (task : string) (nexts : list (nextStep nat)) :
  evaluateTransitions (λ _ (_ : unit), Some true) demo_graph task demo_view = Ok nexts →
  task_outcome (symbols:=unit) demo_graph task None "" nexts.
Proof. intros H. exists (λ _ _, Some true), demo_view. by split. Qed.

Definition row (id : Z) (f : flow) : step := default (new_step "" 0 0 0 0) (steps f !! id).

Lemma demo_half_reachable : reachable (item:=nat) (symbols:=unit) demo_graph demo_fim demo_half.
Proof.
  eapply rtc_l; [|eapply rtc_once].
  - eapply (flow_ran _ _ 1 _ None "" [demo_branch 0; demo_branch 1]);
      [reflexivity|vm_compute; reflexivity|reflexivity|apply demo_outcome; vm_compute; reflexivity|].
    vm_compute. reflexivity.
  - eapply (flow_ran _ _ 2 _ None "" [@plain nat "F"]);
      [reflexivity|vm_compute; reflexivity|reflexivity|apply demo_outcome; vm_compute; reflexivity|].
    vm_compute. reflexivity.
Qed.

Lemma demo_done_reachable : reachable (item:=nat) (symbols:=unit) demo_graph demo_fim demo_done.
Proof.
  unfold reachable. etrans; [exact demo_half_reachable|]. eapply rtc_l; [|eapply rtc_once].
  - eapply (flow_ran _ _ 3 _ None "" [@plain nat "F"]);
      [vm_compute; reflexivity|vm_compute; reflexivity|reflexivity|apply demo_outcome; vm_compute; reflexivity|].
    vm_compute. reflexivity.
  - eapply (flow_ran _ _ 4 _ None "" [@plain nat END]);
      [vm_compute; reflexivity|vm_compute; reflexivity|reflexivity|apply demo_outcome; vm_compute; reflexivity|].
    vm_compute. reflexivity.
Qed.

(** ** Properties *)

(** The members of a cohort that have not arrived yet. *)
Definition live_members (p : Z) (f : flow) : Z := tokens p (steps f).

(** C1. Exactly-once arrival, on any graph.  In every state a flow can reach, each spawn row's
    recorded arrivals and its members still under way add up to the size of the cohort it spawned,
    so arrivals never exceed the size and a cohort that is complete has nobody left who could
    arrive again; and the trunk has exactly one row under way while the flow runs, none after. *)
Theorem cohort_accounting {item symbols : Type} (g : Graph) (fim : gmap string string) (f : flow) :
  reachable (item:=item) (symbols:=symbols) g fim f →
  (∀ id s, steps f !! id = Some s →
     live_members id f + Z.of_nat (cohort_arrivals s) = Z.of_nat (cohort_size s) ∧
     (cohort_arrivals s ≤ cohort_size s)%nat ∧
     (cohort_arrivals s = cohort_size s →
      ∀ id' m, steps f !! id' = Some m → lineage_id m = id → ¬ live m)) ∧
  live_members 0 f = (if bool_decide (f_status f = FRunning) then 1 else 0).
Proof.
  intros Hr. pose proof (Settled_reachable _ _ _ Hr) as Hset.
  destruct (inv_bal _ _ Hset) as [Hbal Htrunk]. unfold settled_debt in *. split.
  - intros id s Hs. pose proof (Hbal _ _ Hs) as Hb. pose proof (tokens_nonneg id (steps f)).
    pose proof (ro_id _ _ (inv_rows _ _ Hset) _ _ Hs).
    assert (tokens id (steps f) = owed s) as Heq.
    { destruct (bool_decide (f_status f = FRunning)); unfold none_owed, at_ in Hb; [lia|].
      rewrite bool_decide_eq_false_2 in Hb by lia. lia. }
    unfold live_members, owed in *. split_and!; [lia|lia|].
    intros Hfull id' m Hm Hl Hlive.
    pose proof (map_sum_elem (weight id) (steps f) id' m (weight_nonneg id) Hm) as He.
    unfold weight at 1, live01 in He. rewrite !bool_decide_eq_true_2 in He by done.
    unfold tokens in *. lia.
  - unfold live_members. destruct (bool_decide (f_status f = FRunning)); unfold none_owed, at_ in *; simpl in *; lia.
Qed.

Lemma cohort_accounting_witness :
  live_members 1 demo_half = 1 ∧ live_members 0 demo_done = 0.
Proof.
  split.
  - assert (steps demo_half !! 1 = Some (row 1 demo_half)) as Hs by (vm_compute; reflexivity).
    pose proof (proj1 (proj1 (cohort_accounting demo_graph demo_fim demo_half demo_half_reachable) 1 _ Hs)) as H.
    assert (cohort_arrivals (row 1 demo_half) = 1%nat ∧ cohort_size (row 1 demo_half) = 2%nat) as [Ha Hz]
      by (vm_compute; split; reflexivity).
    rewrite Ha, Hz in H. lia.
  - rewrite (proj2 (cohort_accounting demo_graph demo_fim demo_done demo_done_reachable)).
    vm_compute. reflexivity.
Defined.

(** C3. A running flow is never stuck: some step is pending, and whatever its task comes back with -
    any successors [evaluateTransitions] can produce, an error routed to a handler, or a failure -
    the transaction that records it finds every row it needs and commits. *)
Theorem running_flow_progresses {item symbols : Type} (g : Graph) (fim : gmap string string) (f : flow) :
  reachable (item:=item) (symbols:=symbols) g fim f → f_status f = FRunning →
  (∃ id s, steps f !! id = Some s ∧ status s = Pending) ∧
  ∀ id s, steps f !! id = Some s → status s = Pending →
    (∀ errT goto_ nexts, task_outcome (item:=item) (symbols:=symbols) g (task_name s) errT goto_ nexts →
       ∃ f', complete_step g fim id errT goto_ nexts f = Some f') ∧
    (∀ cancelled, ∃ f', failStep id cancelled f = Some f').
Proof.
  intros Hr Hrun. pose proof (Settled_reachable _ _ _ Hr) as Hset. split.
  - pose proof Hset as Hinv. unfold Settled, settled_debt in Hinv.
    rewrite bool_decide_eq_true_2 in Hinv by done.
    destruct (map_sum_pos (weight 0) (steps f)) as (id & s & Hs & Hw).
    { apply weight_nonneg. }
    { pose proof (proj2 (inv_bal _ _ Hinv)). unfold tokens, none_owed in *. lia. }
    unfold weight, live01 in Hw. case_bool_decide; [|lia]. case_bool_decide as Hlive; [|lia].
    by eapply live_leads_to_pending.
  - intros id s Hs Hp. split.
    + intros errT goto_ nexts [Hsrc Hgoto]%task_outcome_single.
      destruct (complete_step_settles g fim id s errT goto_ nexts f) as (f' & Hf' & _); [done..|by exists f'].
    + intros c. destruct (fail_pending_settles id s c f) as (f' & Hf' & _); [done..|by exists f'].
Qed.

Lemma running_flow_progresses_witness :
  f_status demo_half = FRunning ∧ ∃ id s, steps demo_half !! id = Some s ∧ status s = Pending.
Proof.
  assert (f_status demo_half = FRunning) as Hr by (vm_compute; reflexivity). split; [exact Hr|].
  exact (proj1 (running_flow_progresses demo_graph demo_fim demo_half demo_half_reachable Hr)).
Defined.

(** C5. A flow that has stopped has left nothing behind: when it completes, fails or is cancelled, no
    step is pending and no cohort is still open, however deeply the fan-outs were nested. *)
Theorem stopped_flow_leaves_nothing {item symbols : Type} (g : Graph) (fim : gmap string string) (f : flow) :
  reachable (item:=item) (symbols:=symbols) g fim f → f_status f ≠ FRunning →
  ∀ id s, steps f !! id = Some s → status s ≠ Pending ∧ cohort_arrivals s = cohort_size s.
Proof.
  intros Hr Hst id s Hs. pose proof (Settled_reachable _ _ _ Hr) as Hset.
  unfold Settled, settled_debt in Hset. rewrite bool_decide_eq_false_2 in Hset by done.
  assert (∀ x, 0 ≤ at_ 0 1 x) as Hd by (intros x; unfold at_; case_bool_decide; lia).
  assert (¬ live s) as Hdead.
  { intros Hlive. pose proof (live_leads_to_trunk f _ id s Hset Hd Hs Hlive).
    pose proof (proj2 (inv_bal _ _ Hset)) as Ht. unfold at_ in Ht. simpl in Ht. lia. }
  unfold live in Hdead. split; [tauto|].
  pose proof (proj1 (inv_bal _ _ Hset) _ _ Hs) as Hb. pose proof (tokens_nonneg id (steps f)).
  pose proof (ro_id _ _ (inv_rows _ _ Hset) _ _ Hs). unfold owed, at_ in Hb.
  rewrite bool_decide_eq_false_2 in Hb by lia. lia.
Qed.

Lemma stopped_flow_leaves_nothing_witness :
  f_status demo_done = FCompleted ∧
  cohort_arrivals (row 1 demo_done) = 2%nat.
Proof.
  assert (f_status demo_done = FCompleted) as Hst by (vm_compute; reflexivity). split; [exact Hst|].
  assert (steps demo_done !! 1 = Some (row 1 demo_done)) as Hs by (vm_compute; reflexivity).
  rewrite (proj2 (stopped_flow_leaves_nothing demo_graph demo_fim demo_done demo_done_reachable
    ltac:(rewrite Hst; discriminate) 1 _ Hs)).
  vm_compute. reflexivity.
Defined.
