(* ===== verification/CohortLineage.v ===== *)
(** * The validator's stacks are the run time's cohorts

    [validateLineage] assigns every node a stack of open fan-outs; the engine keeps, for every step
    row, the chain of spawn rows it descends from.  On a validated graph the two agree at every
    step of every run, which is why the engine's "not part of a fan-out cohort" guards are
    unreachable. *)

From S2P Require Import Prelude Worklist Graph Lineage Validate FanInMap Routing Cohort CohortInv.

#[local] Open Scope Z_scope.

(** The names of the spawns enclosing a row of lineage [l], outermost first. *)
Inductive spawn_stack (ss : rows) : Z → list string → Prop :=
| spawn_trunk : spawn_stack ss 0 []
| spawn_frame p s st : p ≠ 0 → ss !! p = Some s → spawn_stack ss (lineage_id s) st →
    spawn_stack ss p (st ++ [task_name s]).

Definition ext (ss ss' : rows) : Prop :=
  ∀ id s, ss !! id = Some s →
    ∃ s', ss' !! id = Some s' ∧ lineage_id s' = lineage_id s ∧ task_name s' = task_name s.

#[export] Instance ext_refl : Reflexive ext.
Proof. intros ss id s Hs. by exists s. Qed.
#[export] Instance ext_trans : Transitive ext.
Proof.
  intros s1 s2 s3 H12 H23 id s (s' & Hs' & ? & ?)%H12. destruct (H23 _ _ Hs') as (s'' & ? & ? & ?).
  exists s''. split_and!; congruence.
Qed.

Lemma spawn_stack_ext ss ss' l st : ext ss ss' → spawn_stack ss l st → spawn_stack ss' l st.
Proof.
  intros Hext. induction 1 as [|p s st Hp Hs _ IH]; [constructor|].
  destruct (Hext _ _ Hs) as (s' & Hs' & Hl & <-). econstructor; [done..|by rewrite Hl].
Qed.

Lemma spawn_stack_inv ss l st top :
  spawn_stack ss l (st ++ [top]) → ∃ s, l ≠ 0 ∧ ss !! l = Some s ∧ task_name s = top ∧ spawn_stack ss (lineage_id s) st.
Proof.
  intros H. inversion H as [Hz Hn|p s st' Hp Hs Hst Hpl Heq]; [by destruct st|].
  apply app_inj_tail in Heq as [<- <-]. by exists s.
Qed.

Lemma spawn_stack_zero ss st : spawn_stack ss 0 st → st = [].
Proof. inversion 1; done. Qed.

Lemma spawn_stack_trunk ss l : spawn_stack ss l [] → l = 0.
Proof. intros H. inversion H as [Hz Hn|p s st Hp Hs Hst Hpl Heq]; [done|]. by destruct st. Qed.

Section static.
Context (g : Graph).

Definition ok_row (ss : rows) (l : Z) (task : string) : Prop :=
  ∃ st, spawn_stack ss l st ∧ lineage g task st.

Record Static (f : flow) : Prop := {
  st_below : ∀ id s, steps f !! id = Some s → id < next_id f;
  st_rows : ∀ id s, steps f !! id = Some s → ok_row (steps f) (lineage_id s) (task_name s)
}.

Lemma ok_row_ext ss ss' l t : ext ss ss' → ok_row ss l t → ok_row ss' l t.
Proof. intros He (st & Hst & Hl). exists st. split; [by eapply spawn_stack_ext|done]. Qed.

Lemma ext_set ss id s s' :
  ss !! id = Some s → lineage_id s' = lineage_id s → task_name s' = task_name s → ext ss (<[id := s']> ss).
Proof.
  intros Hs Hl Ht x sx Hx. destruct (decide (id = x)) as [<-|Hne].
  - exists s'. rewrite lookup_insert_eq. split_and!; congruence.
  - exists sx. by rewrite lookup_insert_ne.
Qed.

Lemma Static_set f id s s' :
  Static f → steps f !! id = Some s → lineage_id s' = lineage_id s → task_name s' = task_name s →
  Static (with_steps (<[id := s']> (steps f)) f).
Proof.
  intros [Hb Hr] Hs Hl Ht. pose proof (ext_set _ _ _ _ Hs Hl Ht) as He.
  split; simpl; intros x sx; (destruct (decide (id = x)) as [<-|Hne];
    [rewrite lookup_insert_eq; intros [= <-]|rewrite lookup_insert_ne by done; intros Hx]).
  - by eapply Hb.
  - by eapply Hb.
  - eapply ok_row_ext; [done|]. rewrite Hl, Ht. by eapply Hr.
  - eapply ok_row_ext; [done|]. by eapply Hr.
Qed.

Lemma ext_new f s' : Static f → ext (steps f) (steps (insert_step s' f).2).
Proof.
  intros [Hb _] x sx Hx. exists sx. simpl. rewrite lookup_insert_ne; [done|].
  specialize (Hb _ _ Hx). lia.
Qed.

Lemma Static_new f s' :
  Static f → ok_row (steps f) (lineage_id s') (task_name s') → Static (insert_step s' f).2.
Proof.
  intros HS Hok. pose proof (ext_new f s' HS) as He. destruct HS as [Hb Hr].
  split; intros x sx; simpl; (destruct (decide (next_id f = x)) as [<-|Hne];
    [rewrite lookup_insert_eq; intros [= <-]|rewrite lookup_insert_ne by done; intros Hx]).
  - lia.
  - specialize (Hb _ _ Hx). lia.
  - eapply ok_row_ext; [exact He|done].
  - eapply ok_row_ext; [exact He|]. by eapply Hr.
Qed.

Lemma ext_fmap ss (h : step → step) :
  (∀ s, lineage_id (h s) = lineage_id s ∧ task_name (h s) = task_name s) → ext ss (h <$> ss).
Proof. intros Hh x s Hs. exists (h s). rewrite lookup_fmap, Hs. split; [done|apply Hh]. Qed.

Lemma Static_fmap f (h : step → step) :
  (∀ s, lineage_id (h s) = lineage_id s ∧ task_name (h s) = task_name s) →
  Static f → Static (with_steps (h <$> steps f) f).
Proof.
  intros Hh [Hb Hr]. split; simpl; intros x sx; rewrite lookup_fmap, fmap_Some; intros (s & Hs & ->).
  - by eapply Hb.
  - destruct (Hh s) as [-> ->]. eapply ok_row_ext; [by apply ext_fmap|]. by eapply Hr.
Qed.

Lemma Static_propagate fuel f p c ss r :
  Static f → propagateCohortFailure fuel p c (steps f) = Some (ss, r) → Static (with_steps ss f).
Proof.
  revert f p c. induction fuel as [|fuel IH]; intros f p c HS; simpl; [done|].
  destruct (steps f !! p) as [s|] eqn:Hs; simpl; [|done].
  pose proof (Static_set f p s (bump 1 1 (if c then 1 else 0)%nat s) HS Hs eq_refl eq_refl) as HS'.
  case_bool_decide; [by intros [= <- <-]|]. case_bool_decide; [by intros [= <- <-]|].
  intros Hp. by apply (IH _ _ _ HS') in Hp.
Qed.

Lemma Static_status f st : Static f → Static (with_status st f).
Proof. by intros [??]. Qed.

Lemma Static_loss f p c f' :
  Static f →
  ('(ss, failFlow) ← propagate p c (steps f);
   Some (match failFlow with
         | Some c => with_status (loss_status c) (with_steps ss f)
         | None => with_steps ss f
         end)) = Some f' → Static f'.
Proof.
  intros HS. destruct (propagate _ _ _) as [[ss r]|] eqn:Hp; simpl; [|done]. intros [= <-].
  apply (Static_propagate _ _ _ _ _ _ HS) in Hp. destruct r; [by apply Static_status|done].
Qed.

Lemma Static_fail f id c f' : Static f → failStep id c f = Some f' → Static f'.
Proof.
  intros HS. unfold failStep. destruct (steps f !! id) as [s|] eqn:Hs; simpl; [|done].
  pose proof (Static_set f id s (set_status (if c then Cancelled else Failed) s) HS Hs eq_refl eq_refl) as HS'.
  case_bool_decide; [intros [= <-]; by apply Static_status|]. by apply (Static_loss _ _ _ _ HS').
Qed.

Lemma Static_arrive p k id depth task f f' s :
  Static f → steps f !! p = Some s → ok_row (steps f) (lineage_id s) task →
  arrive g p k id depth task f = Some f' → Static f'.
Proof.
  intros HS Hs Hok. unfold arrive. rewrite Hs. cbn [mbind option_bind].
  pose proof (Static_set f p s (bump k 0 0 s) HS Hs eq_refl eq_refl) as HS'.
  pose proof (ext_set _ _ _ (bump k 0 0 s) Hs eq_refl eq_refl) as He.
  destruct (negb _); [by intros [= <-]|]. case_bool_decide.
  - unfold insertFanInStep. cbn [steps with_steps next_id].
    rewrite lookup_insert_eq. cbn [mbind option_bind]. intros Heq%(inj Some). subst f'.
    match goal with |- context [?h0 <$> _] => set (h := h0) end.
    assert (∀ s, lineage_id (h s) = lineage_id s ∧ task_name (h s) = task_name s) as Hh
      by (intros s0; subst h; cbn beta; by destruct (bool_decide _)).
    apply (Static_new (with_steps (h <$> <[p := bump k 0 0 s]> (steps f)) f)).
    + exact (Static_fmap (with_steps (<[p := bump k 0 0 s]> (steps f)) f) h Hh HS').
    + eapply ok_row_ext; [|exact Hok]. etrans; [exact He|]. by apply ext_fmap.
  - case_bool_decide; [intros [= <-]; by apply Static_status|]. by apply (Static_loss _ _ _ _ HS').
Qed.

Section transitions.
Context {item : Type}.
Implicit Types (nexts : list (nextStep item)).

Lemma Static_insert_nexts i push src id cl nexts f :
  Static f → (∀ n, n ∈ nexts → ok_row (steps f) cl (taskName n)) →
  let f' := (insert_nexts i push src id cl nexts f).2 in Static f' ∧ ext (steps f) (steps f').
Proof.
  revert i f. induction nexts as [|n nexts IH]; intros i f HS Hok; [done|]. cbn [insert_nexts].
  set (s' := new_step (taskName n) cl (if push then i else fan_out_ordinal src) (step_depth src + 1) id).
  assert (Static (insert_step s' f).2) as HS' by (apply Static_new; [done|apply Hok; by left]).
  pose proof (ext_new f s' HS) as He.
  destruct (insert_step s' f) as [nid f1]. simpl in HS', He.
  destruct (IH (S i) f1 HS') as [HS2 He2].
  { intros n' Hn'. eapply ok_row_ext; [done|]. apply Hok. by right. }
  destruct (insert_nexts (S i) push src id cl nexts f1) as [ids f2]. simpl in *.
  split; [done|]. by etrans.
Qed.

Lemma Static_transition id s (push : bool) nexts task k size f f' :
  Static f → steps f !! id = Some s →
  let spawn := if push then id else lineage_id s in
  (∀ n, n ∈ nexts → ok_row (steps f) spawn (taskName n)) →
  ((0 < k)%nat → ∃ sp, steps f !! spawn = Some sp ∧ ok_row (steps f) (lineage_id sp) task) →
  transition g id push nexts task k size f = Some f' → Static f'.
Proof.
  intros HS Hs spawn Hn Hk. unfold transition. rewrite Hs. cbn [mbind option_bind].
  destruct (Static_insert_nexts 0 push s id spawn nexts f HS Hn) as [HS1 He1]. fold spawn.
  destruct (insert_nexts 0 push s id spawn nexts f) as [ids f1]. simpl in HS1, He1.
  set (s2 := match ids with first :: _ => set_successor first s | [] => s end).
  set (s3 := if push then set_cohort_size size s2 else s2).
  destruct (He1 _ _ Hs) as (s1 & Hs1 & Hl1 & Ht1).
  assert (lineage_id s3 = lineage_id s1 ∧ task_name s3 = task_name s1) as [Hl3 Ht3]
    by (rewrite Hl1, Ht1; subst s3 s2; by destruct push, ids).
  pose proof (Static_set f1 id s1 s3 HS1 Hs1 Hl3 Ht3) as HS2.
  pose proof (ext_set _ _ _ s3 Hs1 Hl3 Ht3) as He2.
  case_bool_decide as Hpos; [|by intros [= <-]].
  destruct (Hk Hpos) as (sp & Hsp & Hok). destruct ((ext_trans _ _ _ He1 He2) _ _ Hsp) as (sp' & Hsp' & Hlp & _).
  eapply (Static_arrive _ _ _ _ _ _ _ sp' HS2); [done|]. rewrite Hlp.
  eapply ok_row_ext; [|done]. by etrans.
Qed.

Lemma Static_direct id s task f f' :
  Static f → steps f !! id = Some s → ok_row (steps f) (lineage_id s) task →
  fireFanInDirect id task f = Some f' → Static f'.
Proof.
  intros HS Hs Hok. unfold fireFanInDirect. rewrite Hs. cbn [mbind option_bind].
  set (s' := new_step task (lineage_id s) (fan_out_ordinal s) (step_depth s + 1) id).
  assert (Static (insert_step s' f).2) as HS' by (by apply Static_new).
  destruct (ext_new f s' HS _ _ Hs) as (s1 & Hs1 & Hl & Ht).
  destruct (insert_step s' f) as [nid f1]. simpl in *. intros [= <-].
  eapply (Static_set f1 id s1); [done|done|by rewrite Hl|by rewrite Ht].
Qed.
End transitions.
End static.

(** ** What a validated graph adds *)

Section valid_graph.
Context (bv : string → bool) (g : Graph).
Context (Hv : valid bv g) (Hplain : plain_fan_ins g) (Hne : "" ∉ names g).

(** The fan-outs below a frame are the stack of the frame's own node. *)
Lemma lineage_prefix v s s1 u s2 : lineage g v s → s = s1 ++ u :: s2 → lineage g u s1.
Proof using Type.
  intros Hl. revert s1 u s2. induction Hl as [|v s tr s' src Hl IH Htr Hf Hend Hfr]; intros s1 u s2 Heq.
  - by destruct s1.
  - apply frames_of_cases in Hfr as [(top & _ & _ & [(_ & _ & ->)|[_ ->]])|(_ & _ & [(_ & _ & ->)|[_ ->]])].
    + by eapply IH.
    + apply (IH s1 u (s2 ++ [top])). by rewrite Heq, <-app_assoc.
    + destruct s2 as [|x s2 _] using rev_ind.
      * by apply app_inj_tail in Heq as [-> ->].
      * rewrite app_comm_cons, app_assoc in Heq. apply app_inj_tail in Heq as [-> _]. by eapply IH.
    + by eapply IH.
Qed.

Lemma fan_in_not_end f : IsFanIn g f = true → f ≠ END.
Proof using Hv.
  unfold IsFanIn. intros Hf%bool_decide_eq_true ->. by apply (va_no_end _ _ Hv), (va_fanIn _ _ Hv).
Qed.

(** The fan-in that closes a fan-out carries the stack of its source. *)
Lemma closes_lineage u f st : closes g u f → lineage g u st → lineage g f st.
Proof using Hv.
  intros (v & s & tr & s' & Hl & Htr & Hf & Hfr & <-) Hu.
  assert (s' = st) as <-.
  { pose proof (va_scoped _ _ Hv) as Hws.
    apply frames_of_cases in Hfr as [(top & [= <-] & _ & [(_ & -> & ->)|[_ ->]])|(? & _)]; [..|done].
    - by eapply (ws_unique _ Hws v).
    - eapply (ws_unique _ Hws u); [|done]. by eapply (lineage_prefix v _ s' u []). }
  apply (lineage_step g v s tr s' (Some u)); [done..| |done]. apply fan_in_not_end.
  by apply frames_of_cases in Hfr as [(top & _ & ? & _)|(? & _)].
Qed.

Definition pushes (task : string) (errT : option string) (goto_ : string) : bool :=
  IsFanOutSource g task && bool_decide (errT = None) && bool_decide (goto_ = "").

Context {item symbols : Type}.
Implicit Types (nexts : list (nextStep item)) (n : nextStep item).

Definition next_of (errT : option string) nexts : list (nextStep item) :=
  match errT with Some t => [plain t] | None => nexts end.

Lemma source_has_branch task : IsFanOutSource g task = true → ∃ tr, tr ∈ spawning_edges task (transitions g).
Proof using Type.
  unfold IsFanOutSource. rewrite fan_out_loop_spec. intros [(tr & ? & _)|[? _]]; [by exists tr|].
  destruct (spawning_edges _ _) as [|tr l]; [done|]. exists tr. by left.
Qed.

(** Every successor comes over an edge of the graph that is a branch exactly when the engine spawns. *)
Lemma successor_edge task errT goto_ nexts n :
  task_outcome (symbols:=symbols) g task errT goto_ nexts → n ∈ next_of errT nexts →
  ∃ tr, tr ∈ transitions g ∧ tr_From tr = task ∧ tr_To tr = taskName n ∧
    (IsFanOutSource g task = true → pushes task errT goto_ = negb (control_edge tr)).
Proof using Hv.
  unfold pushes, control_edge. destruct errT as [t|]; simpl.
  - intros (_ & tr & Herr & <-) ->%list_elem_of_singleton. unfold ErrorTransition in Herr.
    apply find_some in Herr as [Htr He]. apply andb_true_iff in He as [Hf%bool_decide_eq_true Ho].
    exists tr. split_and!; [by apply list_elem_of_In|done|done|]. intros ->. by rewrite Ho, orb_true_r.
  - intros (Eval & f & <- & Hev) Hn.
    destruct (evaluateTransitions_edge _ _ _ _ _ _ Hev Hn) as (tr & (Htr & Hf & Hkind) & Hto).
    exists tr. split_and!; [done..|]. intros Hsrc. rewrite Hsrc. simpl.
    destruct Hkind as [[Hg Hgo]|[[-> Hsw]|[-> Hc]]].
    + by rewrite Hgo, bool_decide_eq_false_2.
    + destruct (source_has_branch _ Hsrc) as (tr' & [[Hf' Hc'] Htr']%list_elem_of_filter).
      pose proof (va_switch _ _ Hv tr' tr Htr' Htr Hsw ltac:(congruence)). congruence.
    + unfold control_edge in Hc. by rewrite Hc.
Qed.

(** One successor, seen by the validator. *)
Lemma successor_lineage task errT goto_ nexts n st :
  task_outcome (symbols:=symbols) g task errT goto_ nexts → n ∈ next_of errT nexts → lineage g task st →
  let push := pushes task errT goto_ in
  taskName n ≠ "" ∧
  (taskName n = END → st = []) ∧
  (taskName n ≠ END → IsFanIn g (taskName n) = false →
     lineage g (taskName n) (if push then st ++ [task] else st)) ∧
  (IsFanIn g (taskName n) = true →
     if push then lineage g (taskName n) st
     else ∃ s' top, st = s' ++ [top] ∧ lineage g (taskName n) s').
Proof using Hv Hplain Hne.
  intros Hout Hn Hl push.
  destruct (successor_edge _ _ _ _ _ Hout Hn) as (tr & Htr & Hf & Hto & Hpush). fold push in Hpush.
  assert (IsFanOutSource g task = false → push = false) as Hnsrc by (subst push; unfold pushes; by intros ->).
  destruct (ws_pops _ (va_scoped _ _ Hv) _ _ _ Hl Htr Hf) as [[s' src] Hfr].
  pose proof (frames_of_cases _ _ _ _ _ _ Hfr) as Hcases.
  rewrite <-Hto in *. split_and!.
  - intros He. destruct (proj2 (va_ends _ _ Hv tr Htr)) as [Hend|Hin]; [by rewrite He in Hend|]. by rewrite He in Hin.
  - intros He. pose proof (ws_end _ (va_scoped _ _ Hv) _ _ _ _ _ Hl Htr Hf He Hfr) as ->.
    destruct Hcases as [(top & _ & Hfan & _)|(_ & _ & [(_ & _ & Hs)|[_ Hs]])]; [|by destruct st|done].
    by destruct (fan_in_not_end _ Hfan).
  - intros Hend Hfan. destruct Hcases as [(top & _ & ? & _)|(-> & _ & Hs)]; [congruence|].
    assert (lineage g (tr_To tr) s') as Hl' by (by apply (lineage_step g task st tr s' None)).
    destruct Hs as [(Hsrc & Hc & ->)|[Hor ->]].
    + rewrite Hpush, Hc by (by apply (fan_out_source_iff bv g)). done.
    + assert (push = false) as ->; [|done].
      destruct (IsFanOutSource g task) eqn:Hsrc; [|by apply Hnsrc].
      rewrite Hpush by done. destruct Hor as [Hno|Hc]; [|by rewrite Hc].
      by destruct Hno; apply (fan_out_source_iff bv g).
  - intros Hfan. assert (lineage g (tr_To tr) s') 
      as Hl' by (apply (lineage_step g task st tr s' src); [done..|by apply fan_in_not_end|done]).
    destruct Hcases as [(top & _ & _ & [(Hsrc & _ & ->)|[Hno ->]])|(_ & ? & _)]; [..|congruence].
    + assert (control_edge tr = false) as Hc.
      { destruct (control_edge tr) eqn:Hc; [|done]. pose proof (Hplain tr Htr Hc). congruence. }
      rewrite Hpush, Hc by (by apply (fan_out_source_iff bv g)). done.
    + rewrite Hnsrc; [by eauto|]. apply not_true_is_false. by rewrite <-(fan_out_source_iff bv g).
Qed.

Definition real_next errT nexts := real_tasks (next_of errT nexts).

Lemma elem_of_real errT nexts n :
  n ∈ real_next errT nexts ↔ n ∈ next_of errT nexts ∧ taskName n ≠ "" ∧ taskName n ≠ END.
Proof using Type.
  unfold real_next, real_tasks. rewrite list_elem_of_filter. unfold is_real.
  rewrite andb_true_iff, !negb_true_iff, !bool_decide_eq_false. tauto.
Qed.

(** No successor left to insert: the task asked for none, or it routed to END from the trunk. *)
Lemma no_real_next task errT goto_ nexts st :
  task_outcome (symbols:=symbols) g task errT goto_ nexts → lineage g task st →
  real_next errT nexts = [] →
  next_of errT nexts = [] ∨ existsb (λ n, bool_decide (taskName n = END)) (next_of errT nexts) = true ∧ st = [].
Proof using Hv Hplain Hne.
  intros Hout Hl Hnil. destruct (next_of errT nexts) as [|n ns] eqn:Hnext; [by left|right].
  assert (n ∈ next_of errT nexts) as Hn by (rewrite Hnext; by left).
  destruct (successor_lineage _ _ _ _ _ _ Hout Hn Hl) as (Hne' & Hend & _).
  assert (taskName n = END) as He.
  { destruct (decide (taskName n = END)); [done|]. exfalso.
    apply (not_elem_of_nil n). rewrite <-Hnil. by apply elem_of_real. }
  split; [|by apply Hend]. simpl. by rewrite bool_decide_eq_true_2.
Qed.

Lemma last_fan_in (l : list (nextStep item)) :
  l ≠ [] → ∃ n, n ∈ l ∧ taskName n = default "" (last (taskName <$> l)).
Proof using Type.
  induction l as [|n l _] using rev_ind; [done|]. intros _. exists n.
  rewrite fmap_app. change (taskName <$> [n]) with [taskName n]. rewrite last_snoc.
  split; [apply elem_of_app; right; by left|done].
Qed.

(** The decision, read against the stacks: the row inserted for a node gets the node's own stack,
    and the only failure left is a branch that matched no edge at all. *)
Definition decision_static (task : string) (errT : option string) (st : list string) nexts (d : decision item) : Prop :=
  match d with
  | DFail r => r = FailDeadEnd task ∧ errT = None ∧ nexts = []
  | DComplete => True
  | DFanInDirect f => lineage g f st
  | DAdvance push nexts f k _ =>
      (∀ n, n ∈ nexts → lineage g (taskName n) (if push then st ++ [task] else st)) ∧
      ((0 < k)%nat → if push then lineage g f st else ∃ s' top, st = s' ++ [top] ∧ lineage g f s')
  end.

Lemma route_static ss id l task errT goto_ nexts st :
  id ≠ 0 → spawn_stack ss l st → lineage g task st →
  task_outcome (symbols:=symbols) g task errT goto_ nexts →
  decision_static task errT st nexts (route g (New g) task id l errT goto_ nexts).
Proof using Hv Hplain Hne.
  intros Hid Hst Hl Hout. unfold route. cbv zeta. fold (next_of errT nexts).
  fold (real_next errT nexts). fold (pushes task errT goto_).
  set (fanIn := if IsFanOutSource g task then For (New g) task else "").
  assert (IsFanOutSource g task = true → fanIn ≠ "" ∧ lineage g fanIn st) as Hfim.
  { intros Hsrc. subst fanIn. rewrite Hsrc. apply (fan_out_source_iff bv g _ Hv) in Hsrc.
    pose proof (fan_in_map_closes bv g task Hv Hplain Hne Hsrc) as Hc.
    split; [|by eapply closes_lineage]. intros He. rewrite He in Hc.
    destruct Hc as (v & s & tr & s' & _ & Htr & _ & Hfr & Hto).
    apply frames_of_cases in Hfr as [(? & _ & Hf & _)|(? & _)]; [|done].
    apply Hne. rewrite <-Hto. apply (va_fanIn _ _ Hv). by apply bool_decide_eq_true in Hf. }
  destruct (decide (real_next errT nexts = [])) as [Hnil|Hsome].
  - rewrite Hnil, (bool_decide_eq_false_2 (taskName <$> [] = [fanIn])), orb_false_r by done.
    change (length []) with 0%nat. rewrite (bool_decide_eq_true_2 (0%nat = 0%nat)) by done.
    destruct (no_real_next _ _ _ _ _ Hout Hl Hnil) as [Hno|[Hend ->]].
    + rewrite Hno. simpl. destruct (IsFanOutSource g task) eqn:Hsrc; simpl.
      * destruct (Hfim eq_refl) as [Hfne Hlf]. by rewrite bool_decide_eq_false_2.
      * destruct (bool_decide (l ≠ 0)); [|done]. simpl. split; [done|].
        unfold next_of in Hno. by destruct errT.
    + apply spawn_stack_trunk in Hst as ->. rewrite Hend. simpl. rewrite andb_false_r.
      by destruct (IsFanOutSource g task && true).
  - match goal with |- context [if ?b then DFanInDirect _ else _] => destruct b eqn:Hdirect end.
    { simpl. destruct (IsFanOutSource g task); [by apply Hfim|done]. }
    assert (length (real_next errT nexts) ≠ 0%nat) as Hlen by (by destruct (real_next errT nexts)).
    rewrite (bool_decide_eq_false_2 (length _ = 0%nat)), andb_false_r by done. simpl.
    set (fanIns := filter (λ n, IsFanIn g (taskName n) = true) (real_next errT nexts)).
    assert ((0 < length fanIns)%nat → let f := default "" (last (taskName <$> fanIns)) in
      if pushes task errT goto_ then lineage g f st else ∃ s' top, st = s' ++ [top] ∧ lineage g f s') as Harr.
    { intros Hpos. destruct (last_fan_in fanIns) as (n & Hn & <-);
        [intros He; rewrite He in Hpos; simpl in Hpos; lia|].
      apply list_elem_of_filter in Hn as [Hfan (Hn & _ & _)%elem_of_real].
      by apply (successor_lineage _ _ _ _ _ _ Hout Hn Hl). }
    destruct (bool_decide (0 < length fanIns)%nat && _) eqn:Hguard.
    + exfalso. apply andb_true_iff in Hguard as [Hpos%bool_decide_eq_true Hz%bool_decide_eq_true].
      specialize (Harr Hpos). cbv zeta in Harr. destruct (pushes task errT goto_); [done|].
      destruct Harr as (s' & top & -> & _). subst l. by destruct (spawn_stack_inv _ _ _ _ Hst) as (? & ? & _).
    + simpl. split; [|exact Harr]. intros n Hn.
      apply list_elem_of_filter in Hn as [Hfan (Hn & _ & Hend)%elem_of_real].
      by apply (successor_lineage _ _ _ _ _ _ Hout Hn Hl).
Qed.
End valid_graph.

(** ** Along a run *)

Section along_a_run.
Context (bv : string → bool) (g : Graph).
Context (Hv : valid bv g) (Hplain : plain_fan_ins g) (Hne : "" ∉ names g).
Context {item symbols : Type}.

Lemma Static_start : Static g (start g).
Proof using Type.
  split; simpl; intros id s [<- <-]%lookup_singleton_Some; [lia|].
  exists []. split; constructor.
Qed.

Lemma Static_complete id s errT goto_ (nexts : list (nextStep item)) f f' :
  Static g f → id ≠ 0 → steps f !! id = Some s →
  task_outcome (symbols:=symbols) g (task_name s) errT goto_ nexts →
  complete_step g (New g) id errT goto_ nexts f = Some f' → Static g f'.
Proof using Hv Hplain Hne.
  intros HS Hid Hs Hout. unfold complete_step. rewrite Hs. cbn [mbind option_bind].
  destruct (st_rows _ _ HS _ _ Hs) as (st & Hst & Hl).
  pose proof (Static_set g f id s (set_status Completed s) HS Hs eq_refl eq_refl) as HS'.
  pose proof (ext_set _ _ _ (set_status Completed s) Hs eq_refl eq_refl) as He.
  set (f1 := with_steps _ f) in *.
  pose proof (spawn_stack_ext _ _ _ _ He Hst : spawn_stack (steps f1) (lineage_id s) st) as Hst1.
  assert (steps f1 !! id = Some (set_status Completed s)) as Hs1 by apply lookup_insert_eq.
  pose proof (route_static bv g Hv Hplain Hne (steps f1) id (lineage_id s) (task_name s) errT goto_ nexts st
    Hid Hst1 Hl Hout) as Hd.
  destruct (route _ _ _ _ _ _ _ _) as [r| |fanIn|push ns task k size]; simpl in *.
  - by apply Static_fail.
  - intros [= <-]. by apply Static_status.
  - eapply Static_direct; [done|done|]. by exists st.
  - destruct Hd as [Hns Hk].
    assert (spawn_stack (steps f1) id (st ++ [task_name s])) as Hframe.
    { by apply (spawn_frame _ id (set_status Completed s) st). }
    eapply Static_transition; [done|done|simpl..].
    + intros n Hn. exists (if push then st ++ [task_name s] else st).
      split; [destruct push; [exact Hframe|exact Hst1]|by apply Hns].
    + intros Hpos. specialize (Hk Hpos). destruct push.
      * exists (set_status Completed s). split; [done|]. by exists st.
      * destruct Hk as (s' & top & -> & Hl'). destruct (spawn_stack_inv _ _ _ _ Hst1) as (sp & _ & Hsp & _ & Hsp').
        exists sp. split; [done|]. by exists s'.
Qed.

Lemma Static_reachable f : reachable (item:=item) (symbols:=symbols) g (New g) f → Static g f.
Proof using Hv Hplain Hne.
  intros Hr. unfold reachable in Hr.
  assert (∀ f0, rtc (flow_step (item:=item) (symbols:=symbols) g (New g)) f0 f →
    reachable (item:=item) (symbols:=symbols) g (New g) f0 → Static g f0 → Static g f) as Hgen;
    [|apply (Hgen (start g) Hr); [constructor|apply Static_start]].
  clear Hr. intros f0 Hrun. induction Hrun as [|f0 f1 f2 Hstep _ IH]; [done|]. intros Hr0 HS. apply IH.
  - exact (rtc_r _ _ _ Hr0 Hstep).
  - pose proof (Settled_reachable _ _ _ Hr0) as Hset.
    destruct Hstep as [id s errT goto_ nexts f0 f' Hrun Hs Hp Hout Hc|id s c f0 f' Hrun Hs Hp Hc].
    + eapply Static_complete; [done| |done..].
      pose proof (ro_id _ _ (inv_rows _ _ Hset) _ _ Hs). lia.
    + by eapply Static_fail.
Qed.
End along_a_run.

(** ** Properties *)

(** C12. The static discipline is what happens at run time.  On a validated graph with plain fan-ins,
    in every state a flow can reach: the names of the spawn rows enclosing a step, outermost first,
    are exactly the fan-out stack the validator computed for the step's node; and completing a
    pending step can never trip the guards for a fan-in outside a cohort or for a fan-out source
    without a fan-in - the only failure [route] can answer is a cohort branch that matched no edge. *)
Theorem runtime_cohorts_match_lineage {item symbols : Type} (bv : string → bool) (g : Graph) (f : flow) :
  valid bv g → plain_fan_ins g → "" ∉ names g →
  reachable (item:=item) (symbols:=symbols) g (New g) f →
  ∀ id s, steps f !! id = Some s →
    (∃ st, spawn_stack (steps f) (lineage_id s) st ∧ lineage g (task_name s) st ∧
       ∀ st', lineage g (task_name s) st' → st' = st) ∧
    (∀ errT goto_ nexts r,
       task_outcome (item:=item) (symbols:=symbols) g (task_name s) errT goto_ nexts →
       route g (New g) (task_name s) id (lineage_id s) errT goto_ nexts = DFail r →
       r = FailDeadEnd (task_name s) ∧ errT = None ∧ nexts = []).
Proof.
  intros Hv Hplain Hne Hr id s Hs. pose proof (Static_reachable bv g Hv Hplain Hne f Hr) as HS.
  pose proof (ro_id _ _ (inv_rows _ _ (Settled_reachable _ _ _ Hr)) _ _ Hs) as Hid.
  destruct (st_rows _ _ HS _ _ Hs) as (st & Hst & Hl). split.
  - exists st. split_and!; [done..|]. intros st' Hl'. by apply (ws_unique _ (va_scoped _ _ Hv) (task_name s)).
  - intros errT goto_ nexts r Hout Hroute.
    pose proof (route_static bv g Hv Hplain Hne (steps f) id (lineage_id s) (task_name s) errT goto_ nexts st
      ltac:(lia) Hst Hl Hout) as Hd.
    by rewrite Hroute in Hd.
Qed.

Lemma runtime_cohorts_match_lineage_witness :
  ∃ st, spawn_stack (steps demo_half) 1 st ∧ lineage demo_graph "B" st.
Proof.
  assert (steps demo_half !! 3 = Some (row 3 demo_half)) as Hs by (vm_compute; reflexivity).
  destruct (proj1 (runtime_cohorts_match_lineage (λ _, true) demo_graph demo_half demo_valid demo_plain
    demo_names demo_half_reachable 3 _ Hs)) as (st & H1 & H2 & _).
  exists st. split; [exact H1|exact H2].
Defined.
