(* ===== verification/Turnstile.v ===== *)
(** * The turnstile ([internal/turnstile])

    Bounded admission to one shard's resource, in the order of the waiting jobs' claims.  Each
    critical section of the code (what runs under [t.mu]) is one operation on the state; a blocked
    caller is a waiter in the queue, and what it finds when it wakes is its token's status.
    [container/heap] is the multiset of the waiters: [heap_pop] takes the least one by [Less]. *)

From S2P Require Import Prelude.

#[local] Open Scope Z_scope.

Record Claim := mkClaim { Priority : Z; Since : Z; Seq : Z }.

#[export] Instance Claim_eq_dec : EqDecision Claim.
Proof. solve_decision. Defined.

(** A blocked caller: the token it waits to be issued, its claim and its arrival number. *)
Record waiter := mkWaiter { w_tok : nat; w_claim : Claim; w_arrival : nat }.

#[export] Instance waiter_eq_dec : EqDecision waiter.
Proof. solve_decision. Defined.

(** [THeld]: the pass is issued and not returned.  [TReleased]: woken empty-handed by [Close]. *)
Inductive tok_status := TWaiting | THeld | TReturned | TReleased | TCancelled.
#[export] Instance tok_status_eq_dec : EqDecision tok_status.
Proof. solve_decision. Defined.

Record Turnstile := mkTurnstile {
  avail : Z;
  size : Z;
  arrival : nat;
  q : list waiter;
  closed : bool;
  toks : gmap nat tok_status;
  next_tok : nat
}.

Definition Less (x y : waiter) : bool :=
  let a := w_claim x in let b := w_claim y in
  if bool_decide (Priority a ≠ Priority b) then bool_decide (Priority a < Priority b)
  else if bool_decide (Since a ≠ Since b) then bool_decide (Since a < Since b)
  else if bool_decide (Seq a ≠ Seq b) then bool_decide (Seq a < Seq b)
  else bool_decide (w_arrival x < w_arrival y)%nat.

Fixpoint heap_pop (ws : list waiter) : option (waiter * list waiter) :=
  match ws with
  | [] => None
  | w :: ws =>
      match heap_pop ws with
      | None => Some (w, [])
      | Some (m, rest) => if Less m w then Some (m, w :: rest) else Some (w, m :: rest)
      end
  end.

Definition New (concurrency : Z) : Turnstile :=
  let c := Z.max 0 concurrency in mkTurnstile c c 0 [] false ∅ 0.

(** One turn of [grantLocked]'s loop hands a pass to the best waiter. *)
Fixpoint grant_loop (fuel : nat) (t : Turnstile) : Turnstile :=
  match fuel with
  | O => t
  | S fuel =>
      if bool_decide (avail t ≤ 0) then t else
      match heap_pop (q t) with
      | None => t
      | Some (e, rest) =>
          grant_loop fuel
            (mkTurnstile (avail t - 1) (size t) (arrival t) rest (closed t) (<[w_tok e := THeld]> (toks t)) (next_tok t))
      end
  end.

Definition grantLocked (t : Turnstile) : Turnstile := grant_loop (length (q t)) t.

Definition releaseLocked (t : Turnstile) : Turnstile :=
  grantLocked (mkTurnstile (avail t + 1) (size t) (arrival t) (q t) (closed t) (toks t) (next_tok t)).

Definition set_tok (tok : nat) (st : tok_status) (t : Turnstile) : Turnstile :=
  mkTurnstile (avail t) (size t) (arrival t) (q t) (closed t) (<[tok := st]> (toks t)) (next_tok t).

(** The entry of [WaitTurn]: refused by a closed turnstile, served at once, or queued.  The token is
    the caller's handle from here on. *)
Definition WaitTurn (c : Claim) (t : Turnstile) : option nat * Turnstile :=
  if closed t then (None, t) else
  let tok := next_tok t in
  if bool_decide (0 < avail t) && bool_decide (q t = []) then
    (Some tok, mkTurnstile (avail t - 1) (size t) (arrival t) (q t) (closed t) (<[tok := THeld]> (toks t)) (S tok))
  else
    (Some tok, mkTurnstile (avail t) (size t) (S (arrival t)) (mkWaiter tok c (arrival t) :: q t) (closed t)
                 (<[tok := TWaiting]> (toks t)) (S tok)).

(** The [ctx.Done()] branch of [WaitTurn]. *)
Definition Cancel (tok : nat) (t : Turnstile) : Turnstile :=
  match toks t !! tok with
  | Some THeld => releaseLocked (set_tok tok TReturned t)
  | Some TWaiting =>
      set_tok tok TCancelled
        (mkTurnstile (avail t) (size t) (arrival t) (filter (λ w, w_tok w ≠ tok) (q t)) (closed t) (toks t) (next_tok t))
  | _ => t
  end.

Definition Return (tok : nat) (t : Turnstile) : Turnstile :=
  match toks t !! tok with
  | Some THeld => releaseLocked (set_tok tok TReturned t)
  | _ => t
  end.

Definition Resize (concurrency : Z) (t : Turnstile) : Turnstile :=
  let c := Z.max 0 concurrency in
  grantLocked (mkTurnstile (avail t + (c - size t)) c (arrival t) (q t) (closed t) (toks t) (next_tok t)).

Definition Snapshot (t : Turnstile) : Z * nat := (avail t, length (q t)).

Definition Close (t : Turnstile) : Turnstile :=
  if closed t then t else
  mkTurnstile (avail t) (size t) (arrival t) [] true
    (fold_right (λ w, <[w_tok w := TReleased]>) (toks t) (q t)) (next_tok t).

Inductive turnstile_op :=
| OWait (c : Claim) | OCancel (tok : nat) | OReturn (tok : nat) | OResize (n : Z) | OClose.

Definition run_op (o : turnstile_op) (t : Turnstile) : Turnstile :=
  match o with
  | OWait c => (WaitTurn c t).2
  | OCancel tok => Cancel tok t
  | OReturn tok => Return tok t
  | OResize n => Resize n t
  | OClose => Close t
  end.

(** ** The set of turnstiles and the claims of contexts ([context.go], [gate.go]) *)

Definition seqCeiling : Z := 1000000.

Record Set_ := mkSet { ts : gmap Z Turnstile; set_closed : bool }.

Definition NewSet : Set_ := mkSet ∅ false.

Definition Set_Resize (shard concurrency : Z) (s : Set_) : Set_ :=
  if set_closed s then s else
  let t := match ts s !! shard with None => New concurrency | Some t => Resize concurrency t end in
  mkSet (<[shard := t]> (ts s)) (set_closed s).

Definition Set_Close (s : Set_) : Set_ := mkSet (Close <$> ts s) true.

(** What a context carries: the shard whose turnstile it is bound for, if that shard has one, and the
    claim.  [now] and [job] are the clock reading and the process-wide job counter's next value. *)
Record stamp := mkStamp { st_shard : option Z; st_claim : Claim }.

Definition ContextWithPriority (s : Set_) (shard priority now job : Z) (ctx : option stamp) : option stamp :=
  let target := match ts s !! shard with Some _ => Some shard | None => None end in
  Some (match ctx with
        | Some prev => mkStamp target (mkClaim priority (Since (st_claim prev)) (Seq (st_claim prev)))
        | None => mkStamp target (mkClaim priority now ((job mod 2 ^ 32) mod seqCeiling))
        end).

Definition ClaimFrom (ctx : option stamp) : option Claim := st_claim <$> ctx.

(** [turnstile.WaitTurn(ctx)]: a context without a turnstile goes unordered. *)
Definition WaitTurn_ctx (ctx : option stamp) (s : Set_) : option (Z * nat) * Set_ :=
  match ctx with
  | Some (mkStamp (Some shard) c) =>
      match ts s !! shard with
      | None => (None, s)
      | Some t =>
          let '(tok, t) := WaitTurn c t in
          (match tok with Some k => Some (shard, k) | None => None end, mkSet (<[shard := t]> (ts s)) (set_closed s))
      end
  | _ => (None, s)
  end.

(** Handing back what [WaitTurn] returned; the zero [Pass] is [None]. *)
Definition Pass_Return (p : option (Z * nat)) (s : Set_) : Set_ :=
  match p with
  | None => s
  | Some (shard, tok) => mkSet (alter (Return tok) shard (ts s)) (set_closed s)
  end.

(** [Gate.Acquire], up to the wait and from the wait on: other callers run in between. *)
Definition Gate_Acquire_enter (priority shard now job : Z) (ctx : option stamp) (s : Set_)
    : option (option stamp * option (Z * nat)) * Set_ :=
  if set_closed s then (None, s) else
  let gated := ContextWithPriority s shard priority now job ctx in
  let '(pass, s) := WaitTurn_ctx gated s in (Some (gated, pass), s).

Definition Gate_Acquire_leave (pass : option (Z * nat)) (s : Set_) : bool * Set_ :=
  if set_closed s then (false, Pass_Return pass s) else (true, s).

Inductive set_op :=
| SResize (shard concurrency : Z)
| SWait (ctx : option stamp)
| SCancel (shard : Z) (tok : nat)
| SReturn (pass : option (Z * nat))
| SClose.

Definition run_set_op (o : set_op) (s : Set_) : Set_ :=
  match o with
  | SResize shard n => Set_Resize shard n s
  | SWait ctx => (WaitTurn_ctx ctx s).2
  | SCancel shard tok => mkSet (alter (Cancel tok) shard (ts s)) (set_closed s)
  | SReturn pass => Pass_Return pass s
  | SClose => Set_Close s
  end.

Definition run_ops : list turnstile_op → Turnstile → Turnstile := fold_left (flip run_op).
Definition run_set_ops : list set_op → Set_ → Set_ := fold_left (flip run_set_op).

(** ** The queue order *)

Lemma Less_spec x y :
  Less x y = true ↔
  Priority (w_claim x) < Priority (w_claim y) ∨
  Priority (w_claim x) = Priority (w_claim y) ∧
    (Since (w_claim x) < Since (w_claim y) ∨
     Since (w_claim x) = Since (w_claim y) ∧
       (Seq (w_claim x) < Seq (w_claim y) ∨
        Seq (w_claim x) = Seq (w_claim y) ∧ (w_arrival x < w_arrival y)%nat)).
Proof. unfold Less. repeat case_bool_decide; intuition (try discriminate; try lia). Qed.

Lemma Less_trans x y z : Less x y = true → Less y z = true → Less x z = true.
Proof. rewrite !Less_spec. lia. Qed.

Lemma Less_irrefl x : Less x x = false.
Proof. apply not_true_is_false. rewrite Less_spec. lia. Qed.

Lemma Less_total x y : w_arrival x ≠ w_arrival y → Less x y = false → Less y x = true.
Proof. intros Ha Hn. apply not_true_iff_false in Hn. rewrite Less_spec in *. lia. Qed.

Lemma heap_pop_None ws : heap_pop ws = None ↔ ws = [].
Proof. destruct ws as [|w ws]; simpl; [done|]. destruct (heap_pop ws) as [[m rest]|]; [case_match|]; done. Qed.

Lemma heap_pop_spec ws e rest :
  heap_pop ws = Some (e, rest) → ws ≡ₚ e :: rest ∧ ∀ w, w ∈ rest → Less w e = false.
Proof.
  revert e rest. induction ws as [|w ws IH]; intros e rest; simpl; [done|].
  destruct (heap_pop ws) as [[m r]|] eqn:Hpop.
  - destruct (IH m r eq_refl) as [Hperm Hmin]. destruct (Less m w) eqn:Hl; intros [= <- <-].
    + split; [by rewrite Hperm, Permutation_swap|]. intros x [->|Hx]%elem_of_cons; [|by apply Hmin].
      apply not_true_is_false. intros Hw. pose proof (Less_trans _ _ _ Hl Hw). by rewrite Less_irrefl in *.
    + split; [by rewrite Hperm|]. intros x [->|Hx]%elem_of_cons; [done|].
      apply not_true_is_false. intros Hw. specialize (Hmin _ Hx). apply not_true_iff_false in Hmin, Hl.
      rewrite Less_spec in *. lia.
  - intros [= <- <-]. apply heap_pop_None in Hpop as ->. split; [done|set_solver].
Qed.

(** ** The invariant *)

Definition is_held (_ : nat) (st : tok_status) : Z := if bool_decide (st = THeld) then 1 else 0.
Definition held (t : Turnstile) : Z := map_sum is_held (toks t).

Record queue_ok (t : Turnstile) : Prop := {
  qo_count : avail t + held t = size t;
  qo_size : 0 ≤ size t;
  qo_toks : NoDup (w_tok <$> q t);
  qo_waiting : ∀ tok, toks t !! tok = Some TWaiting ↔ tok ∈ w_tok <$> q t;
  qo_fresh : ∀ tok, is_Some (toks t !! tok) → (tok < next_tok t)%nat;
  qo_arrivals : NoDup (w_arrival <$> q t);
  qo_arrival : ∀ w, w ∈ q t → (w_arrival w < arrival t)%nat;
  qo_closed : closed t = true → q t = []
}.

(** No pass lies idle while somebody waits. *)
Definition served (t : Turnstile) : Prop := q t = [] ∨ avail t ≤ 0.

Lemma is_held_nonneg k st : 0 ≤ is_held k st.
Proof. unfold is_held. case_bool_decide; lia. Qed.

Lemma held_nonneg t : 0 ≤ held t.
Proof. apply map_sum_nonneg, is_held_nonneg. Qed.

Lemma held_set m tok st st' :
  m !! tok = Some st →
  map_sum is_held (<[tok := st']> m) = map_sum is_held m - is_held tok st + is_held tok st'.
Proof. apply map_sum_insert. Qed.

(** Taking one waiter off the queue and issuing it a pass. *)
Lemma grant_one_ok t e rest :
  queue_ok t → q t ≡ₚ e :: rest →
  queue_ok (mkTurnstile (avail t - 1) (size t) (arrival t) rest (closed t) (<[w_tok e := THeld]> (toks t)) (next_tok t)).
Proof.
  intros [Hc Hs Ht Hw Hf Ha Hlt Hcl] Hq.
  assert (NoDup (w_tok <$> e :: rest)) as Hnd by (by rewrite <-Hq).
  apply NoDup_cons in Hnd as [Hnew Hnd].
  assert (NoDup (w_arrival <$> e :: rest)) as Hnda by (by rewrite <-Hq).
  apply NoDup_cons in Hnda as [_ Hnda].
  assert (toks t !! w_tok e = Some TWaiting) as He by (apply Hw; rewrite Hq; set_solver).
  split; simpl; try done.
  - unfold held in *. simpl. rewrite (held_set _ _ _ _ He). unfold is_held at 2 3. simpl. lia.
  - intros tok. destruct (decide (w_tok e = tok)) as [<-|Hne].
    + rewrite lookup_insert_eq. split; [done|]. intros Hin. by destruct Hnew.
    + rewrite lookup_insert_ne, Hw, Hq by done. set_solver.
  - intros tok. destruct (decide (w_tok e = tok)) as [<-|Hne]; [intros _; apply Hf; by eexists|].
    rewrite lookup_insert_ne by done. apply Hf.
  - intros w Hin. apply Hlt. rewrite Hq. by right.
  - intros Hclosed. specialize (Hcl Hclosed). rewrite Hcl in Hq. by apply Permutation_nil_cons in Hq.
Qed.

(** What granting does: a prefix of the queue order is issued, as long as passes last. *)
Record granted_spec (t t' : Turnstile) (gs : list waiter) : Prop := {
  gr_perm : q t ≡ₚ gs ++ q t';
  gr_avail : avail t' = avail t - Z.of_nat (length gs);
  gr_best : ∀ x y, x ∈ gs → y ∈ q t' → Less y x = false;
  gr_toks : ∀ tok, toks t' !! tok = if bool_decide (tok ∈ w_tok <$> gs) then Some THeld else toks t !! tok;
  gr_same : size t' = size t ∧ closed t' = closed t ∧ arrival t' = arrival t ∧ next_tok t' = next_tok t
}.

Lemma in_toks_cons tok e gs :
  bool_decide (tok ∈ w_tok <$> e :: gs)
  = if decide (w_tok e = tok) then true else bool_decide (tok ∈ w_tok <$> gs).
Proof.
  case_decide as He.
  - apply bool_decide_eq_true_2. rewrite fmap_cons, He. by left.
  - apply bool_decide_ext. rewrite fmap_cons, elem_of_cons. naive_solver.
Qed.

Lemma granted_none t : granted_spec t t [].
Proof. split; simpl; [done|lia|intros x y Hx; by apply elem_of_nil in Hx|done|done]. Qed.

Lemma grant_loop_spec fuel t :
  queue_ok t → (length (q t) ≤ fuel)%nat →
  queue_ok (grant_loop fuel t) ∧ served (grant_loop fuel t) ∧ ∃ gs, granted_spec t (grant_loop fuel t) gs.
Proof.
  revert t. induction fuel as [|fuel IH]; intros t Hok Hlen.
  - split; [done|]. split; [left; by apply nil_length_inv, Nat.le_0_r|].
    exists []. apply granted_none.
  - pose proof (granted_none t) as Hnone. simpl. case_bool_decide as Hav; [split_and!; [done|by right|by eexists]|].
    destruct (heap_pop (q t)) as [[e rest]|] eqn:Hpop.
    + destruct (heap_pop_spec _ _ _ Hpop) as [Hperm Hmin].
      pose proof (grant_one_ok t e rest Hok Hperm) as Hok'.
      set (t1 := mkTurnstile _ _ _ _ _ _ _) in *.
      destruct (IH t1 Hok') as (Hok2 & Hsv & gs & [Hp Ha Hb Ht Hs]).
      { simpl. rewrite Hperm in Hlen. simpl in Hlen. lia. }
      split_and!; [done|done|]. exists (e :: gs). simpl in Hp, Ha, Hb, Ht, Hs. split.
      * by rewrite Hperm, Hp.
      * rewrite Ha. simpl. lia.
      * intros x y [->|Hx]%elem_of_cons Hy; [|by apply Hb]. apply Hmin. rewrite Hp. set_solver.
      * intros tok. rewrite Ht, in_toks_cons. destruct (decide (w_tok e = tok)) as [<-|Hne].
        -- rewrite lookup_insert_eq. by case_bool_decide.
        -- by rewrite lookup_insert_ne.
      * done.
    + apply heap_pop_None in Hpop. split_and!; [done|by left|by eexists].
Qed.

Lemma queue_ok_avail t a s :
  queue_ok t → a - avail t = s - size t → 0 ≤ s →
  queue_ok (mkTurnstile a s (arrival t) (q t) (closed t) (toks t) (next_tok t)).
Proof. intros [] Heq Hs. split; simpl; try done. unfold held in *. simpl in *. lia. Qed.

(** Returning a held pass, before it is handed on. *)
Lemma return_ok t tok :
  queue_ok t → toks t !! tok = Some THeld →
  let t1 := set_tok tok TReturned t in
  queue_ok (mkTurnstile (avail t1 + 1) (size t1) (arrival t1) (q t1) (closed t1) (toks t1) (next_tok t1)).
Proof.
  intros [Hc Hs Ht Hw Hf Ha Hlt Hcl] Htok. split; simpl; try done.
  - unfold held in *. simpl. rewrite (held_set _ _ _ _ Htok). unfold is_held at 2 3. simpl. lia.
  - intros k. destruct (decide (tok = k)) as [<-|Hne].
    + rewrite lookup_insert_eq. split; [done|]. intros Hin%Hw. congruence.
    + by rewrite lookup_insert_ne.
  - intros k. destruct (decide (tok = k)) as [<-|Hne]; [intros _; apply Hf; by eexists|].
    rewrite lookup_insert_ne by done. apply Hf.
Qed.

Lemma close_toks ws (m : gmap nat tok_status) tok :
  fold_right (λ w, <[w_tok w := TReleased]>) m ws !! tok
  = if bool_decide (tok ∈ w_tok <$> ws) then Some TReleased else m !! tok.
Proof.
  induction ws as [|w ws IH]; [done|]. rewrite in_toks_cons. simpl.
  destruct (decide (w_tok w = tok)) as [<-|Hne]; [by rewrite lookup_insert_eq|].
  by rewrite lookup_insert_ne, IH.
Qed.

Lemma close_held ws (m : gmap nat tok_status) :
  (∀ w, w ∈ ws → m !! w_tok w = Some TWaiting) → NoDup (w_tok <$> ws) →
  map_sum is_held (fold_right (λ w, <[w_tok w := TReleased]>) m ws) = map_sum is_held m.
Proof.
  induction ws as [|w ws IH]; [done|]. intros Hw [Hnew Hnd]%NoDup_cons. simpl.
  assert (fold_right (λ w, <[w_tok w := TReleased]>) m ws !! w_tok w = Some TWaiting) as Hl.
  { rewrite close_toks, bool_decide_eq_false_2 by done. apply Hw. by left. }
  rewrite (held_set _ _ _ _ Hl), IH; [unfold is_held; simpl; lia| |done].
  intros w' Hw'. apply Hw. by right.
Qed.

(** ** Every operation preserves it *)

Definition good (t : Turnstile) : Prop := queue_ok t ∧ served t.

Lemma grant_good t : queue_ok t → good (grantLocked t) ∧ ∃ gs, granted_spec t (grantLocked t) gs.
Proof. intros Hok. destruct (grant_loop_spec (length (q t)) t Hok ltac:(lia)) as (? & ? & ?). done. Qed.

Lemma return_good t tok :
  queue_ok t → toks t !! tok = Some THeld →
  good (releaseLocked (set_tok tok TReturned t)) ∧
  ∃ gs, granted_spec (mkTurnstile (avail t + 1) (size t) (arrival t) (q t) (closed t)
                        (<[tok := TReturned]> (toks t)) (next_tok t))
          (releaseLocked (set_tok tok TReturned t)) gs.
Proof. intros Hok Htok. exact (grant_good _ (return_ok t tok Hok Htok)). Qed.

Lemma resize_good n t :
  queue_ok t →
  good (Resize n t) ∧
  ∃ gs, granted_spec (mkTurnstile (avail t + (Z.max 0 n - size t)) (Z.max 0 n) (arrival t) (q t) (closed t)
                        (toks t) (next_tok t)) (Resize n t) gs.
Proof. intros Hok. apply grant_good, queue_ok_avail; [done|lia|lia]. Qed.

Lemma wait_good c t : good t → good (WaitTurn c t).2.
Proof.
  intros Hg. pose proof Hg as [[Hc Hs Ht Hw Hf Ha Hlt Hcl] Hsv]. unfold WaitTurn.
  destruct (closed t) eqn:Hclosed; [done|].
  assert (toks t !! next_tok t = None) as Hnew.
  { destruct (toks t !! next_tok t) eqn:He; [|done]. specialize (Hf (next_tok t) ltac:(by eexists)). lia. }
  assert (next_tok t ∉ w_tok <$> q t) as Hnq by (rewrite <-Hw; congruence).
  destruct (bool_decide (0 < avail t) && bool_decide (q t = [])) eqn:Hfast; simpl.
  - apply andb_true_iff in Hfast as [_ Hq%bool_decide_eq_true]. split; [|by left].
    split; simpl; try done.
    + unfold held in *. simpl. rewrite map_sum_insert_new by done. unfold is_held at 1. simpl. lia.
    + intros tok. destruct (decide (next_tok t = tok)) as [<-|Hne].
      * rewrite lookup_insert_eq. split; [done|]. by intros ?%Hnq.
      * by rewrite lookup_insert_ne.
    + intros tok. destruct (decide (next_tok t = tok)) as [<-|Hne]; [lia|].
      rewrite lookup_insert_ne by done. intros ?%Hf. lia.
  - split; [split; simpl; try done|right; simpl].
    + unfold held in *. simpl. rewrite map_sum_insert_new by done. unfold is_held at 1. simpl. lia.
    + rewrite NoDup_cons. done.
    + intros tok. rewrite elem_of_cons. destruct (decide (next_tok t = tok)) as [<-|Hne].
      * rewrite lookup_insert_eq. naive_solver.
      * rewrite lookup_insert_ne, Hw by done. naive_solver.
    + intros tok. destruct (decide (next_tok t = tok)) as [<-|Hne]; [lia|].
      rewrite lookup_insert_ne by done. intros ?%Hf. lia.
    + rewrite NoDup_cons. split; [|done]. intros (w & Hwa & Hin)%list_elem_of_fmap.
      specialize (Hlt w Hin). lia.
    + intros w [->|Hin]%elem_of_cons; simpl; [lia|]. specialize (Hlt w Hin). lia.
    + destruct Hsv as [Hnil|?]; [|done]. rewrite (bool_decide_eq_true_2 (q t = [])), andb_true_r in Hfast by done.
      apply bool_decide_eq_false in Hfast. lia.
Qed.

Lemma cancel_waiting_good tok t :
  good t → toks t !! tok = Some TWaiting →
  good (set_tok tok TCancelled
          (mkTurnstile (avail t) (size t) (arrival t) (filter (λ w, w_tok w ≠ tok) (q t)) (closed t) (toks t) (next_tok t))).
Proof.
  intros [[Hc Hs Ht Hw Hf Ha Hlt Hcl] Hsv] Htok.
  assert (filter (λ w, w_tok w ≠ tok) (q t) `sublist_of` q t) as Hsub by apply sublist_filter.
  split; [split; simpl; try done|].
  - unfold held in *. simpl. rewrite (held_set _ _ _ _ Htok). unfold is_held at 2 3. simpl. lia.
  - eapply sublist_NoDup; [exact Ht|]. by apply fmap_sublist.
  - intros k. destruct (decide (tok = k)) as [<-|Hne].
    + rewrite lookup_insert_eq. split; [done|]. intros (w & -> & [? _]%list_elem_of_filter)%list_elem_of_fmap. done.
    + rewrite lookup_insert_ne, Hw by done. rewrite !list_elem_of_fmap.
      split; intros (w & -> & Hin); exists w; (split; [done|]).
      * by apply list_elem_of_filter.
      * by apply list_elem_of_filter in Hin as [_ ?].
  - intros k. destruct (decide (tok = k)) as [<-|Hne]; [intros _; apply Hf; by eexists|].
    rewrite lookup_insert_ne by done. apply Hf.
  - eapply sublist_NoDup; [exact Ha|]. by apply fmap_sublist.
  - intros w [_ Hin]%list_elem_of_filter. by apply Hlt.
  - intros Hclosed. by rewrite (Hcl Hclosed).
  - destruct Hsv as [Hnil|?]; [left|by right]. simpl. by rewrite Hnil.
Qed.

Lemma close_good t : good t → good (Close t).
Proof.
  intros [Hok Hsv]. unfold Close. destruct (closed t); [by split|]. destruct Hok as [Hc Hs Ht Hw Hf Ha Hlt Hcl].
  assert (∀ w, w ∈ q t → toks t !! w_tok w = Some TWaiting) as Hq by (intros w Hin; apply Hw; set_solver).
  split; [split; simpl; try done|by left].
  - unfold held in *. simpl. by rewrite close_held.
  - constructor.
  - intros tok. rewrite close_toks. case_bool_decide as Hin; [set_solver|]. rewrite Hw. set_solver.
  - intros tok. rewrite close_toks. case_bool_decide as Hin; [|apply Hf]. intros _. apply Hf.
    apply Hw in Hin. by eexists.
  - constructor.
  - set_solver.
Qed.

Lemma run_op_good o t : good t → good (run_op o t).
Proof.
  intros Hg. destruct o as [c|tok|tok|n|]; simpl.
  - by apply wait_good.
  - unfold Cancel. destruct (toks t !! tok) as [[]|] eqn:Htok; try done.
    + by apply cancel_waiting_good.
    + by apply return_good, Htok; destruct Hg.
  - unfold Return. destruct (toks t !! tok) as [[]|] eqn:Htok; try done.
    by apply return_good, Htok; destruct Hg.
  - by apply resize_good; destruct Hg.
  - by apply close_good.
Qed.

Lemma New_good n : good (New n).
Proof.
  split; [|by left]. split; simpl; [|lia|constructor| | |constructor|set_solver|done].
  - unfold held. simpl. rewrite map_sum_empty. lia.
  - intros tok. rewrite lookup_empty. split; [done|]. by intros ?%elem_of_nil.
  - intros tok [? H]. by rewrite lookup_empty in H.
Qed.

Lemma run_ops_good ops t : good t → good (run_ops ops t).
Proof. revert t. induction ops as [|o ops IH]; intros t Hg; simpl; [done|]. by apply IH, run_op_good. Qed.

Lemma granted_issued t t' gs tok w :
  granted_spec t t' gs → queue_ok t → w ∈ q t → w_tok w = tok → toks t' !! tok = Some THeld → w ∈ gs.
Proof.
  intros [Hp _ _ Ht _] Hok Hw <-. rewrite Ht. case_bool_decide as Hin; [intros _|].
  - apply list_elem_of_fmap in Hin as (w' & Heq & Hin).
    assert (w' ∈ q t) as Hw' by (rewrite Hp; set_solver).
    assert (w = w') as ->; [|done].
    apply list_elem_of_lookup in Hw as [i Hi]. apply list_elem_of_lookup in Hw' as [j Hj].
    assert (i = j) as ->; [|congruence].
    eapply (NoDup_lookup (w_tok <$> q t)); [apply (qo_toks _ Hok)|by rewrite list_lookup_fmap, Hi|].
    rewrite list_lookup_fmap, Hj. simpl. by rewrite Heq.
  - intros Hh. assert (toks t !! w_tok w = Some TWaiting) by (apply (qo_waiting _ Hok); set_solver). congruence.
Qed.

(** ** What an operation does to the waiters and to the holders *)

Lemma grant_loop_avail fuel t : Z.min 0 (avail t) ≤ avail (grant_loop fuel t).
Proof.
  revert t. induction fuel as [|fuel IH]; intros t; simpl; [lia|]. case_bool_decide; [lia|].
  destruct (heap_pop (q t)) as [[e rest]|]; [|lia]. etransitivity; [|apply IH]. simpl. lia.
Qed.

Lemma grantLocked_avail t : Z.min 0 (avail t) ≤ avail (grantLocked t).
Proof. apply grant_loop_avail. Qed.

Lemma release_avail t : Z.min 0 (avail t + 1) ≤ avail (releaseLocked t).
Proof.
  exact (grantLocked_avail (mkTurnstile (avail t + 1) (size t) (arrival t) (q t) (closed t) (toks t) (next_tok t))).
Qed.

Lemma granted_size t t' gs : granted_spec t t' gs → size t' = size t.
Proof. by intros [_ _ _ _ (? & _)]. Qed.

(** A token that is neither waiting nor held keeps its status, whatever is granted. *)
Lemma granted_keeps t t' gs tok st :
  granted_spec t t' gs → queue_ok t → toks t !! tok = Some st → st ≠ TWaiting → toks t' !! tok = Some st.
Proof.
  intros [Hp _ _ Ht _] Hok Htok Hne. rewrite Ht, bool_decide_eq_false_2; [done|]. intros Hin.
  assert (toks t !! tok = Some TWaiting); [|congruence].
  apply (qo_waiting _ Hok). rewrite Hp, fmap_app. set_solver.
Qed.

(** Either the operation grants from the queue [t] has, or no waiter of [t] is issued a pass. *)
Lemma run_op_cases o t :
  good t →
  (∃ t0 gs, queue_ok t0 ∧ q t0 = q t ∧ granted_spec t0 (run_op o t) gs) ∨
  (∀ w, w ∈ q t → toks (run_op o t) !! w_tok w ≠ Some THeld).
Proof.
  intros Hg. pose proof Hg as [Hok _].
  assert (∀ w, w ∈ q t → toks t !! w_tok w = Some TWaiting) as Hq by (intros w Hw; apply (qo_waiting _ Hok); set_solver).
  destruct o as [c|tok|tok|n|]; simpl.
  - right. intros w Hw. unfold WaitTurn. destruct (closed t); simpl; [by rewrite Hq|].
    assert (next_tok t ≠ w_tok w).
    { pose proof (qo_fresh _ Hok (w_tok w) ltac:(by rewrite Hq)). lia. }
    destruct (_ && _); simpl; by rewrite lookup_insert_ne, Hq.
  - unfold Cancel. destruct (toks t !! tok) as [[]|] eqn:Htok; try (right; intros w Hw; by rewrite Hq).
    + right. intros w Hw. simpl. destruct (decide (tok = w_tok w)) as [->|Hne]; [by rewrite lookup_insert_eq|].
      by rewrite lookup_insert_ne, Hq.
    + left. destruct (return_good t tok Hok Htok) as [_ [gs Hgs]].
      eexists _, gs. split; [by apply return_ok|]. split; [|exact Hgs]. done.
  - unfold Return. destruct (toks t !! tok) as [[]|] eqn:Htok; try (right; intros w Hw; by rewrite Hq).
    left. destruct (return_good t tok Hok Htok) as [_ [gs Hgs]].
    eexists _, gs. split; [by apply return_ok|]. split; [|exact Hgs]. done.
  - left. destruct (resize_good n t Hok) as [_ [gs Hgs]].
    eexists _, gs. split; [|split; [|exact Hgs]; done].
    apply (queue_ok_avail t (avail t + (Z.max 0 n - size t)) (Z.max 0 n)); [done|lia|lia].
  - right. intros w Hw. unfold Close. destruct (closed t); [by rewrite Hq|]. simpl.
    rewrite close_toks, bool_decide_eq_true_2 by set_solver. done.
Qed.

(** A waiter that was issued a pass stands before every waiter left behind. *)
Lemma admitted_is_best o t w w' :
  good t → w ∈ q t → toks (run_op o t) !! w_tok w = Some THeld → w' ∈ q t → w' ∈ q (run_op o t) → Less w w' = true.
Proof.
  intros Hg Hw Hh Hw' Hleft. destruct (run_op_cases o t Hg) as [(t0 & gs & Hok & Hq & Hgs)|Hno]; [|by destruct (Hno w)].
  rewrite <-Hq in *. pose proof (granted_issued t0 _ gs _ w Hgs Hok Hw eq_refl Hh) as Hin.
  destruct Hgs as [Hp _ Hb _ _]. apply Less_total; [|by apply Hb].
  pose proof (qo_arrivals _ Hok) as Hnd. rewrite Hp, fmap_app, NoDup_app in Hnd. destruct Hnd as (_ & Hd & _).
  intros Heq. apply (Hd (w_arrival w)); [set_solver|]. rewrite <-Heq. set_solver.
Qed.

Lemma held_bound o t : good t → held (run_op o t) ≤ Z.max (held t) (size (run_op o t)).
Proof.
  intros Hg. pose proof (run_op_good o t Hg) as [[Hc' _ _ _ _ _ _ _] _]. pose proof Hg as [Hok Hsv].
  pose proof (qo_count _ Hok) as Hc. pose proof (held_nonneg t) as Hh.
  enough (Z.min 0 (avail (run_op o t)) = 0 ∨ size (run_op o t) - avail (run_op o t) ≤ size t - avail t) by lia.
  destruct o as [c|tok|tok|n|]; simpl.
  - unfold WaitTurn. destruct (closed t); simpl; [lia|]. destruct (bool_decide (0 < avail t)) eqn:Ha; simpl.
    + apply bool_decide_eq_true in Ha. case_bool_decide; simpl; lia.
    + lia.
  - unfold Cancel. destruct (toks t !! tok) as [[]|] eqn:Htok; simpl; try lia.
    destruct (return_good t tok Hok Htok) as [_ [gs Hgs]]. rewrite (granted_size _ _ _ Hgs). simpl.
    pose proof (release_avail (set_tok tok TReturned t)) as Hav. simpl in Hav. lia.
  - unfold Return. destruct (toks t !! tok) as [[]|] eqn:Htok; simpl; try lia.
    destruct (return_good t tok Hok Htok) as [_ [gs Hgs]]. rewrite (granted_size _ _ _ Hgs). simpl.
    pose proof (release_avail (set_tok tok TReturned t)) as Hav. simpl in Hav. lia.
  - destruct (resize_good n t Hok) as [_ [gs Hgs]]. rewrite (granted_size _ _ _ Hgs). simpl. unfold Resize.
    pose proof (grantLocked_avail (mkTurnstile (avail t + (Z.max 0 n - size t)) (Z.max 0 n) (arrival t) (q t)
      (closed t) (toks t) (next_tok t))) as Hav. simpl in *. lia.
  - unfold Close. destruct (closed t); simpl; lia.
Qed.

Lemma Return_twice t tok : good t → Return tok (Return tok t) = Return tok t.
Proof.
  intros [Hok _]. unfold Return at 2 3. destruct (toks t !! tok) as [[]|] eqn:Htok;
    try (unfold Return; by rewrite Htok).
  destruct (return_good t tok Hok Htok) as [_ [gs Hgs]]. unfold Return.
  rewrite (granted_keeps _ _ _ tok TReturned Hgs (return_ok t tok Hok Htok)); [done| |done].
  simpl. apply lookup_insert_eq.
Qed.

(** ** The set *)

Lemma run_op_closed o t : closed t = true → closed (run_op o t) = true.
Proof.
  assert (∀ fuel t, closed (grant_loop fuel t) = closed t) as Hg.
  { intros fuel. induction fuel as [|fuel IH]; intros u; simpl; [done|]. case_bool_decide; [done|].
    destruct (heap_pop (q u)) as [[e rest]|]; [|done]. by rewrite IH. }
  intros Hc. destruct o as [c|tok|tok|n|]; simpl.
  - unfold WaitTurn. by rewrite Hc.
  - unfold Cancel. destruct (toks t !! tok) as [[]|]; try done. unfold releaseLocked, grantLocked. by rewrite Hg.
  - unfold Return. destruct (toks t !! tok) as [[]|]; try done. unfold releaseLocked, grantLocked. by rewrite Hg.
  - unfold Resize, grantLocked. by rewrite Hg.
  - unfold Close. by rewrite Hc.
Qed.

Definition set_ok (s : Set_) : Prop :=
  ∀ shard t, ts s !! shard = Some t → good t ∧ (set_closed s = true → closed t = true).

Lemma alter_op_ok o shard s :
  set_ok s → set_ok (mkSet (alter (run_op o) shard (ts s)) (set_closed s)).
Proof.
  intros Hs sh t. simpl. rewrite lookup_alter_Some.
  intros [(<- & t0 & Ht & ->)|[_ Ht]]; [|by apply (Hs sh)].
  destruct (Hs _ _ Ht) as [Hg Hc]. split; [by apply run_op_good|]. intros Hcl. by apply run_op_closed, Hc.
Qed.

Lemma insert_op_ok o shard t s :
  set_ok s → ts s !! shard = Some t → set_ok (mkSet (<[shard := run_op o t]> (ts s)) (set_closed s)).
Proof.
  intros Hs Ht sh u. simpl. rewrite lookup_insert_Some. intros [[<- <-]|[_ Hu]]; [|by apply (Hs sh)].
  destruct (Hs _ _ Ht) as [Hg Hc]. split; [by apply run_op_good|]. intros Hcl. by apply run_op_closed, Hc.
Qed.

Lemma run_set_op_ok o s : set_ok s → set_ok (run_set_op o s).
Proof.
  intros Hs. destruct o as [shard n|ctx|shard tok|[[shard tok]|]|]; simpl; [| | | |done|].
  - unfold Set_Resize. destruct (set_closed s) eqn:Hcl; [done|]. destruct (ts s !! shard) as [t|] eqn:Ht.
    + rewrite <-Hcl. by apply (insert_op_ok (OResize n)).
    + intros sh u. simpl. rewrite lookup_insert_Some. intros [[<- <-]|[_ Hu]].
      * split; [apply New_good|done].
      * destruct (Hs _ _ Hu) as [Hg _]. by split.
  - unfold WaitTurn_ctx. destruct ctx as [[[shard|] c]|]; simpl; try done. destruct (ts s !! shard) as [t|] eqn:Ht; [|done].
    pose proof (insert_op_ok (OWait c) shard t s Hs Ht) as H. simpl in H. by destruct (WaitTurn c t) as [tok t'].
  - by apply (alter_op_ok (OCancel tok)).
  - by apply (alter_op_ok (OReturn tok)).
  - intros sh t. simpl. rewrite lookup_fmap_Some. intros (u & <- & Hu). destruct (Hs _ _ Hu) as [Hg _].
    split; [by apply close_good|]. intros _. unfold Close. by destruct (closed u) eqn:?.
Qed.

Lemma run_set_ops_ok ops s : set_ok s → set_ok (run_set_ops ops s).
Proof. revert s. induction ops as [|o ops IH]; intros s Hs; simpl; [done|]. by apply IH, run_set_op_ok. Qed.

Lemma NewSet_ok : set_ok NewSet.
Proof. intros sh t. simpl. by rewrite lookup_empty. Qed.

Lemma run_set_op_closed o s : set_closed s = true → set_closed (run_set_op o s) = true.
Proof.
  intros Hc. destruct o as [shard n|[[[shard|] c]|]|shard tok|[[shard tok]|]|]; simpl; try done.
  - unfold Set_Resize. by rewrite Hc.
  - destruct (ts s !! shard); [|done]. by destruct (WaitTurn c _).
Qed.

Lemma run_set_ops_closed ops s : set_closed s = true → set_closed (run_set_ops ops s) = true.
Proof. revert s. induction ops as [|o ops IH]; intros s Hs; simpl; [done|]. by apply IH, run_set_op_closed. Qed.

Lemma Return_not_held t tok : good t → toks (Return tok t) !! tok ≠ Some THeld.
Proof.
  intros [Hok _]. unfold Return. destruct (toks t !! tok) as [[]|] eqn:Htok; try by rewrite Htok.
  destruct (return_good t tok Hok Htok) as [_ [gs Hgs]].
  rewrite (granted_keeps _ _ _ tok TReturned Hgs (return_ok t tok Hok Htok)); [done| |done].
  simpl. apply lookup_insert_eq.
Qed.

(** Three callers queue behind one holder; the second pass goes to the best claim, not the oldest call. *)
Example best_claim_first :
  toks (run_ops [OWait (mkClaim 5 10 1); OWait (mkClaim 5 20 2); OWait (mkClaim 5 10 3); OWait (mkClaim 3 90 4); OReturn 0]
          (New 1)) !! 3%nat = Some THeld.
Proof. vm_compute. reflexivity. Qed.

(** ** Properties *)

(** C20. Passes are conserved.  After any sequence of arrivals, cancellations, returns, resizes and
    closes, in any interleaving, the free passes and the held ones add up to the configured size, a
    pass is never left free while somebody waits, and a closed turnstile has nobody waiting; the next
    operation never pushes the number of holders above the size then in force (a shrink can only find
    them there), and returning a pass a second time changes nothing. *)
Theorem turnstile_conserves_passes n ops o tok :
  let t := run_ops ops (New n) in
  avail t + held t = size t ∧
  (q t = [] ∨ avail t ≤ 0) ∧
  (closed t = true → q t = []) ∧
  held (run_op o t) ≤ Z.max (held t) (size (run_op o t)) ∧
  Return tok (Return tok t) = Return tok t.
Proof.
  intros t. pose proof (run_ops_good ops (New n) (New_good n)) as Hg. fold t in Hg. pose proof Hg as [Hok Hsv].
  split_and!; [apply Hok|apply Hsv|apply Hok|by apply held_bound|by apply Return_twice].
Qed.

(** Admission is by claim.  Whatever operation issues passes to waiters, every waiter it admits
    precedes every waiter it leaves behind, in the order of band, age of the job, job and arrival;
    and a caller is served without queueing only when nobody is queued. *)
Theorem turnstile_admits_in_order n ops o c :
  let t := run_ops ops (New n) in
  (∀ w w', w ∈ q t → toks (run_op o t) !! w_tok w = Some THeld → w' ∈ q t → w' ∈ q (run_op o t) → Less w w' = true) ∧
  (∀ tok, (WaitTurn c t).1 = Some tok → toks (WaitTurn c t).2 !! tok = Some THeld → q t = [] ∧ 0 < avail t).
Proof.
  intros t. pose proof (run_ops_good ops (New n) (New_good n)) as Hg. fold t in Hg. split.
  - intros w w'. by apply admitted_is_best.
  - intros tok. unfold WaitTurn. destruct (closed t); [done|].
    destruct (bool_decide (0 < avail t)) eqn:Ha, (bool_decide (q t = [])) eqn:Hq; simpl;
      intros ?%(inj Some); subst tok; rewrite lookup_insert_eq; try done.
    intros _. by apply bool_decide_eq_true in Ha, Hq.
Qed.

(** A closed set is closed for good.  Once a set has been closed, and whatever operations come
    after, resizes included, every turnstile in it is closed with nobody waiting, no context is issued
    a place in line, the gate refuses at its entry, and a caller whose pass was granted while the set
    was closing is refused after the wait with its pass given back. *)
Theorem closed_set_admits_nobody before after ctx priority shard now job tok :
  let s := run_set_ops after (Set_Close (run_set_ops before NewSet)) in
  (∀ sh t, ts s !! sh = Some t → closed t = true ∧ q t = []) ∧
  (WaitTurn_ctx ctx s).1 = None ∧
  Gate_Acquire_enter priority shard now job ctx s = (None, s) ∧
  (∀ t, let r := Gate_Acquire_leave (Some (shard, tok)) s in
        r.1 = false ∧ (ts r.2 !! shard = Some t → toks t !! tok ≠ Some THeld)).
Proof.
  intros s. assert (set_closed s = true) as Hc by (by apply run_set_ops_closed).
  assert (set_ok s) as Hs by (apply run_set_ops_ok, (run_set_op_ok SClose), run_set_ops_ok, NewSet_ok).
  split_and!.
  - intros sh t Ht. destruct (Hs _ _ Ht) as [[Hok _] Hcl]. split; [by apply Hcl|]. by apply Hok, Hcl.
  - destruct ctx as [[[sh|] c]|]; simpl; try done. destruct (ts s !! sh) as [t|] eqn:Ht; [|done].
    destruct (Hs _ _ Ht) as [_ Hcl]. unfold WaitTurn. by rewrite (Hcl Hc).
  - unfold Gate_Acquire_enter. by rewrite Hc.
  - intros t. unfold Gate_Acquire_leave. rewrite Hc. simpl. split; [done|].
    rewrite lookup_alter_eq. intros (u & Hu & ->)%fmap_Some. destruct (Hs _ _ Hu) as [Hg _]. by apply Return_not_held.
Qed.
