(* ===== verification/Peers.v ===== *)
(** * The peer registry ([internal/peers])

    One shard's registry of replicas, what a reading of it implies about the fleet ([policy.go]), and
    how a replica publishes what it read ([sonar.go]).  The database is the table of rows with its own
    clock; [DATE_DIFF_MILLIS] is the database's, a parameter.  Times and durations of the process are
    nanoseconds.  Logging, the fault seams and the pass turn are left out. *)

From S2P Require Import Prelude Float64.

#[local] Open Scope Z_scope.

(** ** Policy *)

Record peer := mkPeer {
  engineID : Z;
  seenAgeMs : float64;
  dispatchAgeMs : float64;
  working : bool
}.

Record windows := mkWindows { w_fresh : float64; w_dispatch : float64; w_straggler : float64 }.

Record view := mkView {
  v_replicas : Z;
  v_dispatchers : Z;
  v_ordinal : Z;
  v_candidates : Z;
  v_rank : Z;
  selfSeen : bool;
  dead : list Z
}.

Definition u64 (x : Z) : Z := x mod 2 ^ 64.
(** [z ^ (z >> k)] *)
Definition xorshift (k z : Z) : Z := Z.lxor z (Z.shiftr z k).
Definition golden : Z := 0x9e3779b97f4a7c15.

Definition rendezvousScore (id shard : Z) : Z :=
  let z := Z.lxor (u64 id) (u64 (u64 shard * golden)) in
  let z := u64 (z + golden) in
  let z := u64 (xorshift 30 z * 0xbf58476d1ce4e5b9) in
  let z := u64 (xorshift 27 z * 0x94d049bb133111eb) in
  xorshift 31 z.

Definition outranks (a aID b bID : Z) : bool :=
  if bool_decide (a ≠ b) then bool_decide (b < a) else bool_decide (aID < bID).

(** One row of the loop: the view so far and whether a fresh row of our own was met. *)
Definition classify_row (self shard : Z) (w : windows) (st : view * bool) (p : peer) : view * bool :=
  let '(v, selfFresh) := st in
  let seen := selfSeen v || bool_decide (engineID p = self) in
  let selfFresh := if bool_decide (engineID p = self) then fle (seenAgeMs p) (w_fresh w) else selfFresh in
  let dead' := if flt (w_straggler w) (seenAgeMs p) && bool_decide (engineID p ≠ self)
               then dead v ++ [engineID p] else dead v in
  if flt (w_fresh w) (seenAgeMs p) then
    (mkView (v_replicas v) (v_dispatchers v) (v_ordinal v) (v_candidates v) (v_rank v) seen dead', selfFresh)
  else
    let candidates := if working p then v_candidates v + 1 else v_candidates v in
    let rank :=
      if working p && bool_decide (engineID p ≠ self)
         && outranks (rendezvousScore (engineID p) shard) (engineID p) (rendezvousScore self shard) self
      then v_rank v + 1 else v_rank v in
    if flt (w_dispatch w) (dispatchAgeMs p) then
      (mkView (v_replicas v + 1) (v_dispatchers v) (v_ordinal v) candidates rank seen dead', selfFresh)
    else
      let ordinal := if bool_decide (engineID p = self) then v_dispatchers v else v_ordinal v in
      (mkView (v_replicas v + 1) (v_dispatchers v + 1) ordinal candidates rank seen dead', selfFresh).

Definition classify (rows : list peer) (self : Z) (selfWorking : bool) (shard : Z) (w : windows) : view :=
  let '(v, selfFresh) := fold_left (classify_row self shard w) rows (mkView 0 0 (-1) 0 0 false [], false) in
  if selfFresh then v else
  mkView (v_replicas v + 1) (v_dispatchers v) (v_ordinal v)
    (if selfWorking then v_candidates v + 1 else v_candidates v) (v_rank v) (selfSeen v) (dead v).

(** ** The registry table

    One shard's [dwarf_peers], keyed by [engine_id].  A statement that fails ([ok = false]) changes
    nothing. *)

Record row := mkRow { seen_at : Z; dispatched_at : Z; r_working : bool; rtt_us : Z }.
Abbreviation registry := (gmap Z row).

(** The column's default, ['2000-01-01 00:00:00'], in milliseconds of the Unix epoch. *)
Definition never_dispatched : Z := 946684800000.

(** ** The Sonar *)

Definition ms : Z := 1000000.
Definition second : Z := 1000 * ms.
Definition Cadence : Z := 250 * ms.
Definition maxPruneBatch : nat := 64.

(** What [New] fixes for good. *)
Record sonar_config := mkConfig {
  s_engineID : Z; s_shard : Z;
  scan : Z; beat : Z; fresh : Z; dispatch : Z; straggler : Z; pruneAfter : Z
}.

Definition default_config (engineID shard : Z) : sonar_config :=
  mkConfig engineID shard Cadence second (40 * second) (5 * second) (80 * second) (300 * second).

Record Profile := mkProfile { RTT : Z; Working : bool }.

(** [None] is the zero [time.Time]. *)
Record Sonar := mkSonar {
  config : sonar_config;
  replicas : Z;
  standing : Z * Z;
  profile : Profile;
  part : Z * Z;
  lastGood : Z;
  lastTurns : Z;
  beatDispatched : bool;
  nextBeat : option Z;
  healthySince : option Z;
  lastRaw : Z * Z;
  lastPass : option Z
}.

Inductive sonar_error := ErrEngineID | ErrShard.

Definition New (engineID shard now : Z) : result sonar_error Sonar :=
  check (bool_decide (engineID ≤ 0)) ErrEngineID $
  check (bool_decide (shard < 1)) ErrShard $
  Ok (mkSonar (default_config engineID shard) 1 (0, 1) (mkProfile 0 true) (0, -1) now 0 false None None (0, 1) None).

Definition SetCadence (d : Z) (s : Sonar) : Sonar :=
  let d := if bool_decide (d ≤ 0) then Cadence else d in
  let c := config s in
  mkSonar (mkConfig (s_engineID c) (s_shard c) d (beat c) (fresh c) (dispatch c) (straggler c) (pruneAfter c))
    (replicas s) (standing s) (profile s) (part s) (lastGood s) (lastTurns s) (beatDispatched s) (nextBeat s)
    (healthySince s) (lastRaw s) (lastPass s).

Definition SetProfile (p : Profile) (s : Sonar) : Sonar :=
  mkSonar (config s) (replicas s) (standing s) p (part s) (lastGood s) (lastTurns s) (beatDispatched s)
    (nextBeat s) (healthySince s) (lastRaw s) (lastPass s).

Definition Replicas (s : Sonar) : Z := Z.max 1 (replicas s).
Definition Rank (s : Sonar) : Z * Z := ((standing s).1, Z.max 1 (standing s).2).
Definition BlindFor (now : Z) (s : Sonar) : Z := Z.max 0 (now - lastGood s).
Definition blind (now : Z) (s : Sonar) : bool := bool_decide (2 * scan (config s) < now - lastGood s).

Definition Partition (now : Z) (s : Sonar) : Z * Z * bool :=
  let '(dispatchers, ordinal) := part s in
  if blind now s || bool_decide (dispatchers < 2) || bool_decide (ordinal < 0) || bool_decide (dispatchers ≤ ordinal)
  then (dispatchers, 0, false) else (dispatchers, ordinal, true).

Definition untilNextPass (now : Z) (s : Sonar) : Z :=
  match lastPass s with
  | None => 0
  | Some t => Z.max (scan (config s) - (now - t)) (Z.quot (scan (config s)) 4)
  end.

Definition to_ms (d : Z) : float64 := fdiv (of_int d) (of_int ms).
Definition windows_of (c : sonar_config) : windows :=
  mkWindows (to_ms (fresh c)) (to_ms (dispatch c)) (to_ms (straggler c)).

(** [int32(x)] *)
Definition int32 (x : Z) : Z := (x + 2 ^ 31) mod 2 ^ 32 - 2 ^ 31.

(** *** The statements *)

Definition register (update_ok insert_ok : bool) (db_now : Z) (s : Sonar) (reg : registry) : registry :=
  let p := profile s in
  if negb update_ok then reg else
  match reg !! s_engineID (config s) with
  | Some r => <[s_engineID (config s) := mkRow db_now (dispatched_at r) (Working p) (Z.quot (RTT p) 1000)]> reg
  | None =>
      if negb insert_ok then reg
      else <[s_engineID (config s) := mkRow db_now never_dispatched (Working p) (Z.quot (RTT p) 1000)]> reg
  end.

Definition publishBeat (ok dispatched : bool) (db_now : Z) (s : Sonar) (reg : registry) : registry :=
  if negb ok then reg else
  alter (λ r, mkRow db_now (if dispatched then db_now else dispatched_at r) (r_working r) (rtt_us r))
    (s_engineID (config s)) reg.

Definition Withdraw (ok : bool) (s : Sonar) (reg : registry) : Sonar * registry :=
  (SetProfile (mkProfile (RTT (profile s)) false) s,
   if negb ok then reg
   else alter (λ r, mkRow (seen_at r) (dispatched_at r) false (rtt_us r)) (s_engineID (config s)) reg).

Definition Leave (ok : bool) (s : Sonar) (reg : registry) : registry :=
  if negb ok then reg else delete (s_engineID (config s)) reg.

Definition by_id (x y : Z * row) : Prop := x.1 ≤ y.1.
#[export] Instance by_id_dec : RelDecision by_id.
Proof. intros x y. unfold by_id. apply _. Defined.

Section sonar.
(** [DATE_DIFF_MILLIS(a, b)]. *)
Context (DATE_DIFF_MILLIS : Z → Z → float64).

Definition read (db_now : Z) (reg : registry) : list peer :=
  (λ '(id, r), mkPeer id (DATE_DIFF_MILLIS db_now (seen_at r)) (DATE_DIFF_MILLIS db_now (dispatched_at r)) (r_working r))
  <$> merge_sort by_id (map_to_list reg).
End sonar.

Definition prune (ok : bool) (now : Z) (dead : list Z) (s : Sonar) (reg : registry) : registry :=
  match healthySince s with
  | None => reg
  | Some h =>
      if bool_decide (now - h < pruneAfter (config s)) || negb ok then reg
      else foldr delete reg (take maxPruneBatch dead)
  end.

(** Which of the statements of one pass go through. *)
Record outcomes := mkOutcomes { beat_ok : bool; update_ok : bool; insert_ok : bool; prune_ok : bool }.

(** [rows = None]: the read failed. *)
Definition observe (o : outcomes) (now db_now : Z) (rows : option (list peer)) (s : Sonar) (reg : registry)
    : Sonar * registry :=
  match rows with
  | None => (s, reg)
  | Some rows =>
      let gapped := blind now s in
      let healthy := if gapped || bool_decide (healthySince s = None) then Some now else healthySince s in
      let v := classify rows (s_engineID (config s)) (Working (profile s)) (s_shard (config s)) (windows_of (config s)) in
      let replicas' :=
        if negb gapped || bool_decide (Replicas s ≤ v_replicas v) then int32 (Z.max 1 (v_replicas v)) else replicas s in
      let raw := (v_rank v, v_candidates v) in
      let next := if gapped then (Z.max (lastRaw s).1 raw.1, Z.max (lastRaw s).2 raw.2) else raw in
      let s := mkSonar (config s) replicas' next (profile s) (v_dispatchers v, v_ordinal v) now (lastTurns s)
                 (beatDispatched s) (nextBeat s) healthy raw (lastPass s) in
      let reg := if negb (selfSeen v) then register (update_ok o) (insert_ok o) db_now s reg else reg in
      (s, if bool_decide (dead v = []) then reg else prune (prune_ok o) now (dead v) s reg)
  end.

(** [evidence]: [(turns, busy, idle)] of the owner's dispatcher, if it supplied one. *)
Definition dispatchEvidence (evidence : option (Z * bool * bool)) (s : Sonar) : Z * bool :=
  match evidence with
  | None => (0, false)
  | Some (turns, busy, idle) => (turns, negb idle && (bool_decide (turns ≠ lastTurns s) || busy))
  end.

(** The first half of [pass]: the beat, when one is due or the evidence changed. *)
Definition pass_beat (o : outcomes) (now db_now : Z) (evidence : option (Z * bool * bool)) (s : Sonar) (reg : registry)
    : Sonar * registry :=
  let '(turns, dispatched) := dispatchEvidence evidence s in
  let due := match nextBeat s with None => true | Some t => bool_decide (t ≤ now) end in
  if due || negb (eqb dispatched (beatDispatched s)) then
    (mkSonar (config s) (replicas s) (standing s) (profile s) (part s) (lastGood s) turns dispatched
       (Some (now + beat (config s))) (healthySince s) (lastRaw s) (Some now),
     publishBeat (beat_ok o) dispatched db_now s reg)
  else
    (mkSonar (config s) (replicas s) (standing s) (profile s) (part s) (lastGood s) (lastTurns s) (beatDispatched s)
       (nextBeat s) (healthySince s) (lastRaw s) (Some now), reg).

Section pass.
Context (DATE_DIFF_MILLIS : Z → Z → float64).

Definition pass (o : outcomes) (read_ok : bool) (now db_now : Z) (evidence : option (Z * bool * bool))
    (s : Sonar) (reg : registry) : Sonar * registry :=
  let '(s, reg) := pass_beat o now db_now evidence s reg in
  observe o now db_now (if read_ok then Some (read DATE_DIFF_MILLIS db_now reg) else None) s reg.
End pass.

(** ** Scores never tie *)

Lemma u64_bits x : 0 ≤ x < 2 ^ 64 → ∀ i, 64 ≤ i → Z.testbit x i = false.
Proof.
  intros Hx i Hi. destruct (decide (x = 0)) as [->|Hne]; [apply Z.bits_0|].
  apply Z.bits_above_log2; [lia|]. assert (Z.log2 x < 64) by (apply Z.log2_lt_pow2; lia). lia.
Qed.

(** Undone from the top bit down: bit [i] of the input is bit [i] of the output xor a higher bit. *)
Lemma xorshift_inj k x y :
  0 < k → 0 ≤ x < 2 ^ 64 → 0 ≤ y < 2 ^ 64 → xorshift k x = xorshift k y → x = y.
Proof.
  intros Hk Hx Hy Heq. apply Z.bits_inj'. intros i Hi.
  assert (∀ n : nat, ∀ i, 0 ≤ i → 64 - Z.of_nat n ≤ i → Z.testbit x i = Z.testbit y i) as H.
  { clear i Hi. induction n as [|n IH]; intros i Hi Hn.
    - by rewrite !u64_bits by (try done; lia).
    - assert (Z.testbit x (i + k) = Z.testbit y (i + k)) as Hup.
      { destruct (decide (64 - Z.of_nat n ≤ i + k)); [apply IH; lia|lia]. }
      assert (Z.testbit (xorshift k x) i = Z.testbit (xorshift k y) i) as Hb by (by rewrite Heq).
      unfold xorshift in Hb. rewrite !Z.lxor_spec, !Z.shiftr_spec, Hup in Hb by done.
      by destruct (Z.testbit x i), (Z.testbit y i), (Z.testbit y (i + k)). }
  apply (H 64%nat); lia.
Qed.

Lemma xorshift_range k x : 0 ≤ k → 0 ≤ x < 2 ^ 64 → 0 ≤ xorshift k x < 2 ^ 64.
Proof.
  intros Hk Hx. assert (0 ≤ Z.shiftr x k) as Hs by (apply Z.shiftr_nonneg; lia).
  assert (0 ≤ xorshift k x) as H0 by (apply Z.lxor_nonneg; lia). split; [done|].
  destruct (decide (xorshift k x = 0)) as [->|Hne]; [lia|].
  apply Z.log2_lt_pow2; [lia|]. apply (Z.le_lt_trans _ 63); [|lia].
  apply Z.nlt_ge. intros Hl. assert (Z.testbit (xorshift k x) (Z.log2 (xorshift k x)) = true) as Hb
    by (apply Z.bit_log2; lia).
  unfold xorshift in Hb at 1. rewrite Z.lxor_spec, Z.shiftr_spec, !(u64_bits x) in Hb by lia. done.
Qed.

(** Multiplication by an odd constant is undone by its inverse. *)
Lemma mul_odd_inj a a' x y :
  (a * a') mod 2 ^ 64 = 1 → 0 ≤ x < 2 ^ 64 → 0 ≤ y < 2 ^ 64 → u64 (x * a) = u64 (y * a) → x = y.
Proof.
  unfold u64. intros Ha Hx Hy Heq.
  assert (∀ z, 0 ≤ z < 2 ^ 64 → ((z * a) mod 2 ^ 64 * a') mod 2 ^ 64 = z) as Hinv.
  { intros z Hz. rewrite Z.mul_mod_idemp_l, <-Z.mul_assoc, <-Z.mul_mod_idemp_r, Ha, Z.mul_1_r by lia.
    by apply Z.mod_small. }
  rewrite <-(Hinv x Hx), <-(Hinv y Hy). by rewrite Heq.
Qed.

Lemma u64_range x : 0 ≤ u64 x < 2 ^ 64.
Proof. apply Z.mod_pos_bound. lia. Qed.

(** The score is a bijection of the id: no two replicas tie on a shard. *)
Lemma rendezvousScore_inj id id' shard :
  0 ≤ id < 2 ^ 63 → 0 ≤ id' < 2 ^ 63 → rendezvousScore id shard = rendezvousScore id' shard → id = id'.
Proof.
  intros Hid Hid' Heq. unfold rendezvousScore in Heq. set (c := u64 (u64 shard * golden)) in *.
  assert (0 ≤ c < 2 ^ 64) as Hc by apply u64_range.
  assert (∀ x, 0 ≤ x < 2 ^ 64 → 0 ≤ Z.lxor x c < 2 ^ 64) as Hxc.
  { intros x Hx. assert (0 ≤ Z.lxor x c) by (apply Z.lxor_nonneg; lia). split; [done|].
    destruct (decide (Z.lxor x c = 0)) as [->|Hne]; [lia|]. apply Z.log2_lt_pow2; [lia|].
    apply (Z.le_lt_trans _ (Z.max (Z.log2 x) (Z.log2 c))); [apply Z.log2_lxor; lia|].
    destruct (decide (x = 0)) as [->|], (decide (c = 0)) as [->|];
      apply Z.max_lub_lt; try (simpl; lia); apply Z.log2_lt_pow2; lia. }
  apply xorshift_inj in Heq; [|lia|apply u64_range..].
  eapply mul_odd_inj with (a' := 0x319642b2d24d8ec3) in Heq;
    [|vm_compute; reflexivity|apply xorshift_range; [lia|apply u64_range]..].
  apply xorshift_inj in Heq; [|lia|apply u64_range..].
  eapply mul_odd_inj with (a' := 0x96de1b173f119089) in Heq;
    [|vm_compute; reflexivity|apply xorshift_range; [lia|apply u64_range]..].
  apply xorshift_inj in Heq; [|lia|apply u64_range..].
  assert (Z.lxor (u64 id) c = Z.lxor (u64 id') c) as Hx.
  { pose proof (Hxc _ (u64_range id)) as H1. pose proof (Hxc _ (u64_range id')) as H2.
    revert Heq. unfold u64 at 1 3. set (a := Z.lxor (u64 id) c) in *. set (b := Z.lxor (u64 id') c) in *.
    intros Heq. assert ((a - b) mod 2 ^ 64 = 0) as Hm.
    { replace (a - b) with (a + golden - (b + golden)) by lia. rewrite Zminus_mod, Heq, Z.sub_diag. done. }
    apply Z.mod_divide in Hm as [q Hq]; [|lia]. destruct (decide (q = 0)) as [->|]; [lia|]. nia. }
  apply (f_equal (λ z, Z.lxor z c)) in Hx. rewrite !Z.lxor_assoc, Z.lxor_nilpotent, !Z.lxor_0_r in Hx.
  unfold u64 in Hx. by rewrite !Z.mod_small in Hx by lia.
Qed.

(** ** What a classification says *)

Definition fresh_row (w : windows) (p : peer) : bool := negb (flt (w_fresh w) (seenAgeMs p)).
Definition dispatching (w : windows) (p : peer) : bool :=
  fresh_row w p && negb (flt (w_dispatch w) (dispatchAgeMs p)).
Definition candidate (w : windows) (p : peer) : bool := fresh_row w p && working p.
Definition ahead (self shard : Z) (p : peer) : bool :=
  bool_decide (engineID p ≠ self)
  && outranks (rendezvousScore (engineID p) shard) (engineID p) (rendezvousScore self shard) self.
Definition straggling (w : windows) (self : Z) (p : peer) : bool :=
  flt (w_straggler w) (seenAgeMs p) && bool_decide (engineID p ≠ self).

Definition ids (f : peer → bool) (rows : list peer) : list Z := engineID <$> filter (λ p, f p = true) rows.

Lemma ids_snoc f rows p : ids f (rows ++ [p]) = ids f rows ++ (if f p then [engineID p] else []).
Proof. unfold ids. rewrite filter_app, fmap_app, filter_cons, filter_nil. by destruct (f p). Qed.

Lemma elem_of_ids f rows i : i ∈ ids f rows ↔ ∃ p, p ∈ rows ∧ f p = true ∧ engineID p = i.
Proof.
  unfold ids. rewrite list_elem_of_fmap. setoid_rewrite list_elem_of_filter. naive_solver.
Qed.

Lemma ids_NoDup f rows : NoDup (engineID <$> rows) → NoDup (ids f rows).
Proof. intros H. eapply sublist_NoDup; [exact H|]. apply fmap_sublist, sublist_filter. Qed.

(** One row changes each field by its own condition. *)
Lemma classify_row_fields self shard w v sf p :
  let '(v', sf') := classify_row self shard w (v, sf) p in
  v_replicas v' = v_replicas v + Z.b2z (fresh_row w p) ∧
  v_dispatchers v' = v_dispatchers v + Z.b2z (dispatching w p) ∧
  v_candidates v' = v_candidates v + Z.b2z (candidate w p) ∧
  v_rank v' = v_rank v + Z.b2z (candidate w p && ahead self shard p) ∧
  v_ordinal v' = (if dispatching w p && bool_decide (engineID p = self) then v_dispatchers v else v_ordinal v) ∧
  selfSeen v' = selfSeen v || bool_decide (engineID p = self) ∧
  dead v' = dead v ++ (if straggling w self p then [engineID p] else []) ∧
  sf' = (if bool_decide (engineID p = self) then fle (seenAgeMs p) (w_fresh w) else sf).
Proof.
  unfold classify_row, straggling, candidate, ahead, dispatching, fresh_row.
  rewrite !andb_assoc.
  destruct (flt (w_fresh w) _); [|destruct (flt (w_dispatch w) _)]; simpl;
    split_and!; repeat case_match; simpl in *; try done; try lia; by rewrite ?app_nil_r.
Qed.

Definition count (f : peer → bool) (rows : list peer) : Z := Z.of_nat (length (ids f rows)).

Lemma count_snoc f rows p : count f (rows ++ [p]) = count f rows + Z.b2z (f p).
Proof. unfold count. rewrite ids_snoc, length_app. destruct (f p); simpl; lia. Qed.

(** The loop over all rows, field by field. *)
Record loop_spec (self shard : Z) (w : windows) (rows : list peer) (v : view) (selfFresh : bool) : Prop := {
  ls_replicas : v_replicas v = count (fresh_row w) rows;
  ls_dispatchers : v_dispatchers v = count (dispatching w) rows;
  ls_candidates : v_candidates v = count (candidate w) rows;
  ls_rank : v_rank v = count (λ p, candidate w p && ahead self shard p) rows;
  ls_seen : selfSeen v = bool_decide (self ∈ engineID <$> rows);
  ls_dead : dead v = ids (straggling w self) rows;
  ls_ordinal : ∀ i, ids (dispatching w) rows !! i = Some self → v_ordinal v = Z.of_nat i;
  ls_outside : self ∉ ids (dispatching w) rows → v_ordinal v = -1;
  ls_fresh : ∀ p, p ∈ rows → engineID p = self → selfFresh = fle (seenAgeMs p) (w_fresh w);
  ls_absent : self ∉ engineID <$> rows → selfFresh = false
}.

Lemma classify_loop self shard w rows :
  NoDup (engineID <$> rows) →
  let st := fold_left (classify_row self shard w) rows (mkView 0 0 (-1) 0 0 false [], false) in
  loop_spec self shard w rows st.1 st.2.
Proof.
  induction rows as [|p rows IH] using rev_ind; intros Hnd.
  { simpl. split; try done; simpl; intros p Hp; by apply elem_of_nil in Hp. }
  rewrite fmap_app in Hnd. apply NoDup_app in Hnd as (Hnd & Hnew & _).
  rewrite fold_left_app. simpl. specialize (IH Hnd). simpl in IH.
  destruct (fold_left _ rows _) as [v sf]. simpl in IH. destruct IH as [Hr Hd Hc Hk Hs Hdead Ho Hno Hf Hnf].
  pose proof (classify_row_fields self shard w v sf p) as Hrow.
  destruct (classify_row self shard w (v, sf) p) as [v' sf']. simpl.
  destruct Hrow as (Rr & Rd & Rc & Rk & Ro & Rs & Rdead & Rf).
  assert (engineID p ∉ engineID <$> rows) as Hp by (intros Hin; apply (Hnew _ Hin); set_solver).
  assert (∀ f, engineID p ∉ ids f rows) as Hpi.
  { intros f (q & Hq & _ & He)%elem_of_ids. apply Hp. rewrite <-He. set_solver. }
  split; rewrite ?count_snoc; try lia.
  - rewrite Rs, Hs. apply eq_true_iff_eq. rewrite orb_true_iff, !bool_decide_eq_true, fmap_app. set_solver.
  - by rewrite ids_snoc, Rdead, Hdead.
  - intros i. rewrite ids_snoc, Ro. intros Hi. apply lookup_app_Some in Hi as [Hi|[Hlen Hi]].
    + rewrite (bool_decide_eq_false_2 (engineID p = self)), andb_false_r; [by apply Ho|].
      intros He. apply (Hpi (dispatching w)). rewrite He. by eapply list_elem_of_lookup_2.
    + destruct (dispatching w p); [|by rewrite lookup_nil in Hi].
      apply list_lookup_singleton_Some in Hi as [Hz ->]. rewrite bool_decide_eq_true_2 by done. simpl.
      rewrite Hd. unfold count. f_equal. lia.
  - rewrite ids_snoc, Ro. intros Hn. destruct (dispatching w p); simpl.
    + rewrite bool_decide_eq_false_2 by set_solver. apply Hno. set_solver.
    + apply Hno. set_solver.
  - intros q Hq He. rewrite Rf. apply elem_of_app in Hq as [Hq|Hq].
    + rewrite bool_decide_eq_false_2; [by apply Hf|]. intros Hp2. apply Hp. rewrite Hp2, <-He. set_solver.
    + apply list_elem_of_singleton in Hq as ->. by rewrite bool_decide_eq_true_2.
  - rewrite fmap_app. intros Hn. rewrite Rf, bool_decide_eq_false_2 by set_solver. apply Hnf. set_solver.
Qed.

(** ** The roster of candidates and its ranking *)

Definition ahead_of (shard self j : Z) : bool :=
  bool_decide (j ≠ self) && outranks (rendezvousScore j shard) j (rendezvousScore self shard) self.

Lemma ids_filter f g rows :
  ids (λ p, f p && g (engineID p)) rows = filter (λ i, g i = true) (ids f rows).
Proof.
  unfold ids. induction rows as [|p rows IH]; [done|]. rewrite !filter_cons.
  destruct (f p); simpl; [|exact IH]. rewrite filter_cons.
  destruct (g (engineID p)); simpl; [f_equal; exact IH|exact IH].
Qed.

Lemma outranks_total a i b j : i ≠ j → outranks a i b j = negb (outranks b j a i).
Proof. intros Hne. unfold outranks. repeat case_bool_decide; simpl; try done; lia. Qed.

Lemma outranks_trans a i b j c k :
  outranks a i b j = true → outranks b j c k = true → outranks a i c k = true.
Proof. unfold outranks. repeat case_bool_decide; try done; lia. Qed.

Definition before (shard i j : Z) : Prop := i = j ∨ ahead_of shard j i = true.

#[export] Instance before_dec shard : RelDecision (before shard).
Proof. intros i j. unfold before. apply _. Defined.

#[export] Instance before_total shard : Total (before shard).
Proof.
  intros i j. unfold before, ahead_of. destruct (decide (i = j)) as [->|Hne]; [by left; left|].
  rewrite !bool_decide_eq_true_2 by done. simpl.
  rewrite (outranks_total (rendezvousScore i shard) i) by done.
  destruct (outranks (rendezvousScore j shard) j _ i); [right|left]; by right.
Qed.

#[export] Instance before_trans shard : Transitive (before shard).
Proof.
  intros i j k. unfold before, ahead_of.
  intros [->|Hij] [->|Hjk]; [by left|by right|by right|].
  destruct (decide (i = k)) as [->|Hne]; [by left|]. right.
  rewrite bool_decide_eq_true_2 by done. apply andb_true_iff in Hij as [_ Hij], Hjk as [_ Hjk]. simpl.
  by eapply outranks_trans.
Qed.

Lemma ahead_of_asym shard i j : ahead_of shard i j = true → ahead_of shard j i = false.
Proof.
  unfold ahead_of. intros [Hne%bool_decide_eq_true H]%andb_true_iff.
  rewrite (outranks_total (rendezvousScore i shard)), H by done. simpl. apply andb_false_r.
Qed.

Lemma ahead_of_irrefl shard i : ahead_of shard i i = false.
Proof. unfold ahead_of. by rewrite (bool_decide_eq_false_2 (i ≠ i)) by auto. Qed.

(** In ranking order, the [i]-th replica has exactly [i] ahead of it. *)
Lemma sorted_rank shard L i x :
  Sorted (before shard) L → NoDup L → L !! i = Some x →
  length (filter (λ j, ahead_of shard x j = true) L) = i.
Proof.
  intros Hs%(Sorted_StronglySorted _).
  revert i. induction Hs as [|y L Hs IH Hy]; intros i Hnd Hi; [done|].
  apply NoDup_cons in Hnd as [Hnew Hnd]. rewrite filter_cons. pose proof (proj1 (Forall_forall _ _) Hy) as Hy'. clear Hy.
  destruct i as [|i]; simpl in Hi.
  - simplify_eq. rewrite ahead_of_irrefl. simpl.
    enough (filter (λ j, ahead_of shard x j = true) L = []) as -> by done.
    assert (∀ z, z ∈ L → ahead_of shard x z = false) as Hno.
    { intros z Hz. destruct (Hy' z Hz) as [<-|Hz']; [done|]. by apply ahead_of_asym. }
    clear -Hno. induction L as [|z L IH]; [done|]. rewrite filter_cons, Hno by set_solver. simpl.
    apply IH. set_solver.
  - assert (x ∈ L) as Hx by by eapply list_elem_of_lookup_2.
    destruct (Hy' x Hx) as [->|Ha]; [done|]. rewrite Ha. simpl. f_equal. by apply IH.
Qed.

Lemma ranks_permutation shard C :
  NoDup C →
  (λ x, length (filter (λ j, ahead_of shard x j = true) C)) <$> C ≡ₚ seq 0 (length C).
Proof.
  intros Hnd. pose proof (merge_sort_Permutation (before shard) C) as Hp.
  pose proof (Sorted_merge_sort (before shard) C) as Hs. set (L := merge_sort _ C) in *.
  transitivity ((λ x, length (filter (λ j, ahead_of shard x j = true) L)) <$> L).
  { rewrite <-Hp. apply Permutation_refl'. apply list_fmap_ext. intros _ x _. by rewrite Hp. }
  assert ((λ x, length (filter (λ j, ahead_of shard x j = true) L)) <$> L = seq 0 (length L)) as ->;
    [|by rewrite (Permutation_length Hp)].
  apply list_eq. intros i.
  rewrite list_lookup_fmap. destruct (L !! i) as [x|] eqn:Hi; simpl.
  - rewrite lookup_seq_lt by by eapply lookup_lt_Some. f_equal.
    apply sorted_rank; [done|by rewrite Hp|done].
  - symmetry. apply lookup_seq_ge. by apply lookup_ge_None.
Qed.

(** ** The view *)

(** The rows the theorems speak of: one per replica, identified as [New] requires, ages that are numbers. *)
Record reading_ok (w : windows) (rows : list peer) : Prop := {
  ro_ids : NoDup (engineID <$> rows);
  ro_int64 : ∀ p, p ∈ rows → 0 < engineID p < 2 ^ 63;
  ro_ages : ∀ p, p ∈ rows → is_nan (seenAgeMs p) = false;
  ro_fresh : is_nan (w_fresh w) = false
}.

Definition others (self : Z) (f : peer → bool) (p : peer) : bool := f p && bool_decide (engineID p ≠ self).

Lemma count_others self f rows :
  NoDup (engineID <$> rows) →
  count f rows = count (others self f) rows + (if bool_decide (self ∈ ids f rows) then 1 else 0).
Proof.
  induction rows as [|p rows IH] using rev_ind; intros Hnd; [done|].
  rewrite fmap_app in Hnd. apply NoDup_app in Hnd as (Hnd & Hnew & _). rewrite !count_snoc, IH, ids_snoc by done.
  change (others self f p) with (f p && bool_decide (engineID p ≠ self)). destruct (decide (engineID p = self)) as [He|He].
  - assert (self ∉ ids f rows) as Hni.
    { intros (q & Hq & _ & Hqe)%elem_of_ids. apply (Hnew (engineID q)); [set_solver|]. rewrite Hqe, <-He. set_solver. }
    rewrite (bool_decide_eq_false_2 (engineID p ≠ self)), (bool_decide_eq_false_2 (self ∈ ids f rows)) by naive_solver.
    rewrite andb_false_r. destruct (f p); simpl.
    + rewrite bool_decide_eq_true_2 by set_solver. lia.
    + rewrite bool_decide_eq_false_2 by set_solver. lia.
  - rewrite (bool_decide_eq_true_2 (engineID p ≠ self)), andb_true_r by done.
    assert (bool_decide (self ∈ ids f rows ++ (if f p then [engineID p] else [])) = bool_decide (self ∈ ids f rows)) as ->.
    { apply bool_decide_ext. destruct (f p); set_solver. }
    lia.
Qed.

Section view.
Context (rows : list peer) (self : Z) (selfWorking : bool) (shard : Z) (w : windows) (Hok : reading_ok w rows).
Let v := classify rows self selfWorking shard w.

Lemma classify_unfold :
  ∃ u sf, loop_spec self shard w rows u sf ∧
    v = if sf then u else
        mkView (v_replicas u + 1) (v_dispatchers u) (v_ordinal u)
          (if selfWorking then v_candidates u + 1 else v_candidates u) (v_rank u) (selfSeen u) (dead u).
Proof using Hok.
  pose proof (classify_loop self shard w rows (ro_ids _ _ Hok)) as H. simpl in H.
  unfold v, classify. destruct (fold_left _ rows _) as [u sf]. by exists u, sf.
Qed.

Lemma loop_self u sf : loop_spec self shard w rows u sf → sf = bool_decide (self ∈ ids (fresh_row w) rows).
Proof using Hok.
  intros [_ _ _ _ _ _ _ _ Hf Hn].
  assert (∀ p, p ∈ rows → fle (seenAgeMs p) (w_fresh w) = fresh_row w p) as Hle.
  { intros p Hp. apply fle_flt; [by apply (ro_ages _ _ Hok)|apply Hok]. }
  case_bool_decide as Hin.
  - apply elem_of_ids in Hin as (p & Hp & Hfr & He). by rewrite (Hf p Hp He), Hle.
  - destruct (decide (self ∈ engineID <$> rows)) as [Hs|Hs]; [|by apply Hn].
    apply list_elem_of_fmap in Hs as (p & He & Hp). rewrite (Hf p Hp (eq_sym He)), Hle by done.
    apply not_true_is_false. intros Hfr. apply Hin, elem_of_ids. by exists p.
Qed.

Lemma view_replicas : v_replicas v = 1 + count (others self (fresh_row w)) rows.
Proof using Hok.
  destruct classify_unfold as (u & sf & Hu & ->). rewrite (loop_self _ _ Hu).
  pose proof (ls_replicas _ _ _ _ _ _ Hu) as Hr. rewrite (count_others self) in Hr by apply Hok.
  case_bool_decide; simpl; lia.
Qed.

Lemma view_dispatchers : v_dispatchers v = count (dispatching w) rows.
Proof using Hok. destruct classify_unfold as (u & sf & Hu & ->). destruct sf; by rewrite <-(ls_dispatchers _ _ _ _ _ _ Hu). Qed.

Lemma view_ordinal :
  (∀ i, ids (dispatching w) rows !! i = Some self → v_ordinal v = Z.of_nat i) ∧
  (self ∉ ids (dispatching w) rows → v_ordinal v = -1).
Proof using Hok.
  destruct classify_unfold as (u & sf & Hu & ->).
  destruct sf; split; (apply (ls_ordinal _ _ _ _ _ _ Hu) || apply (ls_outside _ _ _ _ _ _ Hu)).
Qed.

Lemma view_rank : v_rank v = Z.of_nat (length (filter (λ j, ahead_of shard self j = true) (ids (candidate w) rows))).
Proof using Hok.
  destruct classify_unfold as (u & sf & Hu & ->). rewrite <-ids_filter.
  destruct sf; simpl; apply (ls_rank _ _ _ _ _ _ Hu).
Qed.

Lemma view_candidates : self ∈ ids (fresh_row w) rows → v_candidates v = count (candidate w) rows.
Proof using Hok.
  intros Hin. destruct classify_unfold as (u & sf & Hu & ->). rewrite (loop_self _ _ Hu).
  rewrite bool_decide_eq_true_2 by done. apply (ls_candidates _ _ _ _ _ _ Hu).
Qed.

Lemma view_dead : dead v = ids (straggling w self) rows.
Proof using Hok. destruct classify_unfold as (u & sf & Hu & ->). destruct sf; apply (ls_dead _ _ _ _ _ _ Hu). Qed.

Lemma view_seen : selfSeen v = bool_decide (self ∈ engineID <$> rows).
Proof using Hok. destruct classify_unfold as (u & sf & Hu & ->). destruct sf; apply (ls_seen _ _ _ _ _ _ Hu). Qed.
End view.

Lemma count_nonneg f rows : 0 ≤ count f rows.
Proof. unfold count. lia. Qed.

(** ** What a reading publishes *)

Lemma foldr_delete_lookup (l : list Z) (reg : registry) id :
  foldr delete reg l !! id = if bool_decide (id ∈ l) then None else reg !! id.
Proof.
  induction l as [|x l IH]; simpl; [done|]. destruct (decide (x = id)) as [->|Hne].
  - rewrite lookup_delete_eq, bool_decide_eq_true_2; [done|set_solver].
  - rewrite lookup_delete_ne, IH by done. by rewrite (bool_decide_ext (id ∈ x :: l) (id ∈ l)) by set_solver.
Qed.

Lemma register_keeps u i db_now s reg id : is_Some (reg !! id) → is_Some (register u i db_now s reg !! id).
Proof.
  intros Hs. unfold register. destruct u; [|done]. simpl. destruct (reg !! s_engineID _) eqn:He.
  - destruct (decide (s_engineID (config s) = id)) as [<-|]; [rewrite lookup_insert_eq; by eexists|by rewrite lookup_insert_ne].
  - destruct i; [|done]. simpl.
    destruct (decide (s_engineID (config s) = id)) as [<-|]; [rewrite lookup_insert_eq; by eexists|by rewrite lookup_insert_ne].
Qed.

Lemma prune_lookup ok now dd s reg id :
  is_Some (reg !! id) → prune ok now dd s reg !! id = None →
  id ∈ take maxPruneBatch dd ∧ ∃ h, healthySince s = Some h ∧ pruneAfter (config s) ≤ now - h.
Proof.
  intros [r Hr]. unfold prune. intros Hn. destruct (healthySince s) as [h|]; [|congruence].
  destruct (bool_decide _) eqn:Hb; simpl in Hn; [congruence|]. destruct ok; simpl in Hn; [|congruence].
  rewrite foldr_delete_lookup in Hn. case_bool_decide as Hin; [|congruence].
  apply bool_decide_eq_false in Hb. split; [done|]. exists h. split; [done|lia].
Qed.

(** ** Properties *)

(** Every replica ranks itself consistently with every other, without talking.  Over one reading of
    the registry, the ranks the candidate replicas compute for themselves are exactly [0 .. n-1], each
    taken once, against the same count [n]: so for every [k] the replicas that find themselves ranked
    below [k] are [k] replicas that all agree on.  No two of them tie on a score: the score is a
    bijection of the id. *)
Theorem ranks_are_agreed rows (working_of : Z → bool) shard w :
  reading_ok w rows →
  let C := ids (candidate w) rows in
  let v self := classify rows self (working_of self) shard w in
  (λ self, v_rank (v self)) <$> C ≡ₚ Z.of_nat <$> seq 0 (length C) ∧
  (∀ self, self ∈ C → v_candidates (v self) = Z.of_nat (length C)) ∧
  (∀ i j, i ∈ C → j ∈ C → rendezvousScore i shard = rendezvousScore j shard → i = j).
Proof.
  intros Hok C v. assert (NoDup C) as Hnd by apply ids_NoDup, Hok. split_and!.
  - rewrite <-(ranks_permutation shard C Hnd), <-list_fmap_compose. apply Permutation_refl', list_fmap_ext.
    intros _ self _. by apply view_rank.
  - intros self (p & Hp & Hc & He)%elem_of_ids. apply view_candidates; [done|]. apply elem_of_ids. exists p.
    split_and!; [done| |done]. unfold candidate in Hc. by destruct (fresh_row w p).
  - intros i j (p & Hp & _ & <-)%elem_of_ids (q & Hq & _ & <-)%elem_of_ids. pose proof (ro_int64 _ _ Hok p Hp).
    pose proof (ro_int64 _ _ Hok q Hq). apply rendezvousScore_inj; lia.
Qed.

Definition row_at (id seen dispatched : Z) (wk : bool) : peer := mkPeer id (of_int seen) (of_int dispatched) wk.
Definition demo_windows : windows := windows_of (default_config 1 1).
(** Five rows: a dispatcher, a candidate that does not dispatch yet, a draining replica, a stale one, a dead one. *)
Definition demo_rows : list peer :=
  [row_at 3 200 100 true; row_at 5 900 90000 true; row_at 8 700 600 false; row_at 9 60000 70000 true;
   row_at 12 100000 100000 true].

Lemma demo_rows_ok : reading_ok demo_windows demo_rows.
Proof.
  split; [|intros p Hp|intros p Hp|vm_compute; reflexivity].
  - apply (bool_decide_eq_true_1 _). vm_compute. reflexivity.
  - assert (Forall (λ p, 0 < engineID p < 2 ^ 63) demo_rows) as H by (repeat constructor; vm_compute; reflexivity || (intros ?; done)).
    by apply (proj1 (Forall_forall _ _) H).
  - assert (Forall (λ p, is_nan (seenAgeMs p) = false) demo_rows) as H by (repeat constructor).
    by apply (proj1 (Forall_forall _ _) H).
Qed.

Theorem ranks_are_agreed_witness :
  (λ self, v_rank (classify demo_rows self true 1 demo_windows)) <$> [3; 5] ≡ₚ [0; 1].
Proof. exact (proj1 (ranks_are_agreed demo_rows (λ _, true) 1 demo_windows demo_rows_ok)). Defined.

(** A reading is believed in the safe direction only.  A failed read publishes nothing and touches
    nothing.  A reading counts this replica exactly once, whether its row is there or not, so the fleet
    is never empty; it is published as it is, except that the one which ends a blind spell never lowers
    the replica count, the rank or the count ranked among - and even then the previous reading's
    standing is believed once a second reading agrees with it.  A missing row of its own is written
    again.  The hygiene delete drops at most [maxPruneBatch] rows per reading, never its own, only rows
    this reading shows past the straggler age, and only after the registry was readable without a gap
    for [pruneAfter]. *)
Theorem reading_is_conservative o now db_now rows s (reg : registry) :
  let self := s_engineID (config s) in
  let w := windows_of (config s) in
  let v := classify rows self (Working (profile s)) (s_shard (config s)) w in
  reading_ok w rows → Z.of_nat (length rows) < 2 ^ 31 - 1 →
  let '(s', reg') := observe o now db_now (Some rows) s reg in
  observe o now db_now None s reg = (s, reg) ∧
  v_replicas v = 1 + count (others self (fresh_row w)) rows ∧
  part s' = (v_dispatchers v, v_ordinal v) ∧
  (if blind now s then
     Replicas s' = Z.max (Replicas s) (v_replicas v) ∧ healthySince s' = Some now ∧
     (lastRaw s).1 ≤ (standing s').1 ∧ (lastRaw s).2 ≤ (standing s').2
   else Replicas s' = v_replicas v) ∧
  (blind now s = false ∨ lastRaw s = (v_rank v, v_candidates v) → standing s' = (v_rank v, v_candidates v)) ∧
  (self ∉ engineID <$> rows → update_ok o = true → insert_ok o = true → is_Some (reg' !! self)) ∧
  (∀ id, is_Some (reg !! id) → reg' !! id = None →
     id ≠ self ∧ id ∈ take maxPruneBatch (ids (straggling w self) rows) ∧
     ∃ h, healthySince s' = Some h ∧ pruneAfter (config s) ≤ now - h).
Proof.
  intros self w v Hok Hlen. destruct (observe o now db_now (Some rows) s reg) as [s' reg'] eqn:Hobs.
  assert (v_replicas v = 1 + count (others self (fresh_row w)) rows) as Hr by by apply view_replicas.
  assert (count (others self (fresh_row w)) rows ≤ Z.of_nat (length rows)) as Hcnt.
  { unfold count, ids. rewrite length_fmap. pose proof (length_filter (λ p, others self (fresh_row w) p = true) rows). lia. }
  pose proof (count_nonneg (others self (fresh_row w)) rows) as Hnn.
  assert (int32 (Z.max 1 (v_replicas v)) = v_replicas v) as H32.
  { unfold int32. rewrite Z.mod_small; lia. }
  assert (self ∉ ids (straggling w self) rows) as Hself.
  { intros (p & _ & Hst & He)%elem_of_ids. unfold straggling in Hst.
    rewrite (bool_decide_eq_false_2 (engineID p ≠ self)), andb_false_r in Hst by naive_solver. done. }
  unfold observe in Hobs. fold self w v in Hobs. cbv zeta in Hobs.
  set (s1 := mkSonar _ _ _ _ _ _ _ _ _ _ _ _) in Hobs.
  set (reg1 := if negb (selfSeen v) then _ else reg) in Hobs.
  injection Hobs as <- Hreg.
  assert (dead v = ids (straggling w self) rows) as Hdead by by apply view_dead. rewrite Hdead in Hreg.
  split_and!; [done|done|done| | | |].
  - unfold Replicas, s1. simpl. rewrite H32. destruct (blind now s); simpl; [|lia].
    split_and!; [|done|lia|lia]. clear Hreg s1 reg1. case_bool_decide as Hle; unfold Replicas in Hle; lia.
  - unfold s1. simpl. intros Hb. destruct (blind now s); [|done]. destruct Hb as [?|Heq]; [done|]. rewrite Heq. simpl.
    by rewrite !Z.max_id.
  - intros Hns Hu Hi. assert (is_Some (reg1 !! self)) as [r1 Hr1].
    { assert (selfSeen v = false) as Hsv by (unfold v; by rewrite view_seen, bool_decide_eq_false_2).
      unfold reg1. rewrite Hsv. simpl. unfold register. rewrite Hu, Hi. simpl.
      fold self. destruct (reg !! self); rewrite lookup_insert_eq; by eexists. }
    destruct (reg' !! self) eqn:He; [by eexists|]. exfalso. case_bool_decide; [congruence|]. rewrite <-Hreg in He.
    apply prune_lookup in He as [Hin _]; [|by eexists]. apply Hself. apply elem_of_take in Hin as (k & Hk & _). by eapply list_elem_of_lookup_2.
  - intros id Hs Hn. assert (is_Some (reg1 !! id)) as Hs1.
    { unfold reg1. destruct (selfSeen v); simpl; [done|by apply register_keeps]. }
    case_bool_decide; [subst; rewrite Hn in Hs1; by destruct Hs1|]. rewrite <-Hreg in Hn.
    destruct (prune_lookup _ _ _ _ _ _ Hs1 Hn) as [Hin Hh]. split_and!; [|done|done].
    intros ->. apply Hself. apply elem_of_take in Hin as (k & Hk & _). by eapply list_elem_of_lookup_2.
Qed.

Definition demo_sonar : Sonar :=
  mkSonar (default_config 3 1) 5 (2, 4) (mkProfile 0 true) (0, -1) 0 0 false None (Some 0) (2, 4) None.

(** Read after ten blind seconds: three replicas are seen, five are still published. *)
Theorem reading_is_conservative_witness :
  v_replicas (classify demo_rows 3 true 1 demo_windows) = 3 ∧
  Replicas (observe (mkOutcomes true true true true) (10 * second) 0 (Some demo_rows) demo_sonar ∅).1 = 5.
Proof.
  pose proof (reading_is_conservative (mkOutcomes true true true true) (10 * second) 0 demo_rows demo_sonar ∅
                demo_rows_ok ltac:(vm_compute; reflexivity)) as H.
  destruct (observe _ _ _ _ _ _) as [s' reg'].
  destruct H as (_ & Hr & _ & Hb & _). split; [exact Hr|].
  change (blind _ _) with true in Hb. destruct Hb as [Hb _]. simpl. rewrite Hb. reflexivity.
Defined.
