(* ===== verification/Piston.v ===== *)
(** * The piston ([internal/piston])

    One shard's band source and step source: the two selection queries over the shard's step table,
    the residue partition that splits them across the fleet, and the fill order for the steps taken
    from other replicas' classes.  The queries are read off their SQL text, which is the same on every
    dialect up to row order; [DATE_ADD_MILLIS] and [DATE_DIFF_MILLIS] are the database layer's and
    stay parameters.  The loops that
    issue them are in [PistonLoop]; metrics and fault seams are not modelled. *)

From S2P Require Import Prelude Float64 Candidates Planner Pipeline.
From S2P Require Peers.

#[local] Open Scope Z_scope.

(** What the queries read of a row of [dwarf_steps]; times are milliseconds of the database clock. *)
Record step_row := mkStepRow {
  step_id : Z;
  priority : Z;
  fairness_key : string;
  fairness_weight : float64;
  created_at : Z;
  not_before : Z;
  lease_expires : Z;
  pending : bool;
  parked : bool
}.

#[export] Instance step_row_eq_dec : EqDecision step_row.
Proof. solve_decision. Defined.

Abbreviation table := (list step_row).

(** ** The partition *)

(** [fn]: the owner's [PartitionFunc], read once. *)
Definition resolvePartition (fn : option (Z * Z * bool)) : Z * Z :=
  match fn with
  | None => (0, 0)
  | Some (r, o, ok) =>
      if negb ok || bool_decide (r < 2) || bool_decide (o < 0) || bool_decide (r ≤ o) then (0, 0) else (r, o)
  end.

Definition residueTier (stepID replicas ordinal : Z) : nat :=
  if bool_decide (replicas < 2) then 0%nat else
  let m := Z.rem stepID replicas in
  if bool_decide (m = ordinal) then 0%nat
  else if bool_decide (m = Z.rem (ordinal + 1) replicas) then 1%nat else 2%nat.

(** [stealAfter] cycle periods of the slower of the two loops. *)
Definition stealGrace (stealAfter : Z) (tallier supplier : pacer) : Z :=
  if bool_decide (stealAfter ≤ 0) then 0 else stealAfter * Z.max (Period tallier) (Period supplier).

Section queries.
Context (DATE_ADD_MILLIS : Z → Z → Z) (DATE_DIFF_MILLIS : Z → Z → float64).

(** The clause the predicate adds to [WHERE]. *)
Definition partitionPredicate (replicas ordinal grace now : Z) (r : step_row) : bool :=
  if bool_decide (replicas < 2) then true
  else if bool_decide (0 < grace) then
    let ms := Z.quot grace Millisecond in
    bool_decide (Z.rem (step_id r) replicas = ordinal)
    || (bool_decide (Z.rem (step_id r) replicas = Z.rem (ordinal + 1) replicas)
        && bool_decide (not_before r ≤ DATE_ADD_MILLIS now (- ms)))
    || bool_decide (not_before r ≤ DATE_ADD_MILLIS now (-2 * ms))
  else bool_decide (Z.rem (step_id r) replicas = ordinal).

Definition dueSteps (now : Z) (r : step_row) : bool :=
  pending r && negb (parked r) && bool_decide (not_before r ≤ now) && bool_decide (lease_expires r ≤ now).

Definition older (x y : step_row) : Prop :=
  created_at x < created_at y ∨ (created_at x = created_at y ∧ step_id x ≤ step_id y).

#[export] Instance older_dec : RelDecision older.
Proof. intros x y. unfold older. apply _. Defined.

(** [ROW_NUMBER() OVER (PARTITION BY fairness_key ORDER BY created_at, step_id)]: the rows of one key
    that pass the clauses of the query, oldest first. *)
Definition ranked (replicas ordinal grace now band : Z) (key : string) (tab : table) : list step_row :=
  merge_sort older
    (filter (λ r, dueSteps now r && partitionPredicate replicas ordinal grace now r
                  && bool_decide (priority r = band) && bool_decide (fairness_key r = key) = true) tab).

(** ** [ScanBand] *)

(** [SELECT MIN(priority)]: over every due step, of any class. *)
Definition min_priority (now : Z) (tab : table) : option Z :=
  fold_right (λ r m, if dueSteps now r then Some (match m with Some p => Z.min (priority r) p | None => priority r end) else m)
    None tab.

Definition tally_of (cap now : Z) (key : string) (rows : list step_row) : option Tally :=
  match rows with
  | [] => None
  | r :: _ =>
      if bool_decide (cap < 1) then None
      else Some (mkTally key (fairness_weight r) (DATE_DIFF_MILLIS now (created_at r)) (Nat.min (length rows) (Z.to_nat cap)))
  end.

(** [fail]: the query failed. *)
Definition ScanBand (fail : bool) (partition : option (Z * Z * bool)) (grace capacity now : Z) (tab : table)
    : option (Z * list Tally) :=
  if fail then None else
  let '(replicas, ordinal) := resolvePartition partition in
  match min_priority now tab with
  | None => Some (NoBand, [])
  | Some p =>
      let tallies := omap (λ k, tally_of capacity now k (ranked replicas ordinal grace now p k tab))
                       (remove_dups (fairness_key <$> tab)) in
      Some (if bool_decide (tallies = []) then NoBand else p, tallies)
  end.

(** ** [FetchSteps] *)

(** [sort.Stable] by tier. *)
Fixpoint insert_tier (tier : Z → nat) (x : Z) (l : list Z) : list Z :=
  match l with
  | [] => [x]
  | y :: l => if bool_decide (tier x ≤ tier y)%nat then x :: y :: l else y :: insert_tier tier x l
  end.
Definition residueSort (tier : Z → nat) (l : list Z) : list Z := fold_right (insert_tier tier) [] l.

Definition rank_key (perKey : nat) (replicas ordinal : Z) (list_ : list Z) : list Z :=
  take perKey (if bool_decide (1 < replicas) then residueSort (λ id, residueTier id replicas ordinal) list_ else list_).

(** The kept steps that came from outside this replica's class. *)
Definition stolen (replicas ordinal : Z) (list_ : list Z) : nat :=
  if bool_decide (1 < replicas) then length (filter (λ id, Z.rem id replicas ≠ ordinal) list_) else 0%nat.

Definition rankByResidue (out : gmap string (list Z)) (perKey : nat) (replicas ordinal : Z)
    : gmap string (list Z) * nat :=
  let out := rank_key perKey replicas ordinal <$> out in
  (out, map_fold (λ _ l n, stolen replicas ordinal l + n)%nat 0%nat out).

(** The rows the statement returns: per chosen key its [perKey] oldest, as [(fairness_key, step_id)]. *)
Definition fetchQuery (replicas ordinal grace now band : Z) (keys : list string) (perKey : nat) (tab : table)
    : list (string * Z) :=
  keys ≫= λ k, (λ r, (k, step_id r)) <$> take perKey (ranked replicas ordinal grace now band k tab).

(** [out[key] = append(out[key], stepID)] over the rows. *)
Definition group_rows (rows : list (string * Z)) : gmap string (list Z) :=
  fold_left (λ out '(k, id), <[k := default [] (out !! k) ++ [id]]> out) rows ∅.

Definition overFetch (replicas grace : Z) : Z :=
  if bool_decide (0 < grace) then Z.max 1 (Z.min replicas 4) else 1.

Definition FetchSteps (fail : bool) (partition : option (Z * Z * bool)) (grace now : Z) (tab : table)
    (band : Z) (keys : list string) (perKey : nat) : option (gmap string (list Z) * nat) :=
  if bool_decide (keys = []) || bool_decide (perKey = 0%nat) then Some (∅, 0%nat) else
  if fail then None else
  let '(replicas, ordinal) := resolvePartition partition in
  let rows := fetchQuery replicas ordinal grace now band keys (perKey * Z.to_nat (overFetch replicas grace)) tab in
  Some (rankByResidue (group_rows rows) perKey replicas ordinal).
End queries.

(** ** The fill order *)

Section tiers.
Context (tier : Z → nat).

Lemma insert_tier_perm x l : insert_tier tier x l ≡ₚ x :: l.
Proof.
  induction l as [|y l IH]; [done|]. simpl. case_bool_decide; [done|].
  by rewrite IH, Permutation_swap.
Qed.

Lemma residueSort_perm l : residueSort tier l ≡ₚ l.
Proof. induction l as [|x l IH]; [done|]. simpl. by rewrite insert_tier_perm, IH. Qed.

Definition of_tier (t : nat) (l : list Z) : list Z := filter (λ id, tier id = t) l.

Lemma of_tier_app t l l' : of_tier t (l ++ l') = of_tier t l ++ of_tier t l'.
Proof. apply filter_app. Qed.

Lemma insert_tier_skip x l l' :
  (∀ y, y ∈ l → tier y < tier x)%nat → insert_tier tier x (l ++ l') = l ++ insert_tier tier x l'.
Proof.
  induction l as [|y l IH]; intros Hl; [done|]. simpl. specialize (Hl y) as Hy.
  rewrite bool_decide_eq_false_2 by (assert (tier y < tier x)%nat by set_solver; lia). rewrite IH by set_solver. done.
Qed.

Lemma insert_tier_front x l : (∀ y, y ∈ l → tier x ≤ tier y)%nat → insert_tier tier x l = x :: l.
Proof. destruct l as [|y l]; intros Hl; [done|]. simpl. rewrite bool_decide_eq_true_2; [done|]. apply Hl. by left. Qed.

(** Stable: each tier keeps its order, and the tiers follow one another. *)
Lemma residueSort_tiers l :
  (∀ x, tier x ≤ 2)%nat → residueSort tier l = of_tier 0 l ++ of_tier 1 l ++ of_tier 2 l.
Proof.
  intros Ht. induction l as [|x l IH]; [done|]. simpl. rewrite IH. clear IH. unfold of_tier. rewrite !filter_cons.
  assert (∀ t y, y ∈ filter (λ id, tier id = t) l → tier y = t) as Hin by (intros t y [? _]%list_elem_of_filter; done).
  destruct (tier x) as [|[|[|n]]] eqn:Hx; simpl; [| | |specialize (Ht x); lia].
  - apply insert_tier_front. intros y _. lia.
  - rewrite insert_tier_skip by (intros y Hy%Hin; lia). f_equal. apply insert_tier_front.
    intros y [Hy%Hin|Hy%Hin]%elem_of_app; lia.
  - rewrite insert_tier_skip by (intros y Hy%Hin; lia). f_equal.
    rewrite insert_tier_skip by (intros y Hy%Hin; lia). f_equal. apply insert_tier_front. intros y Hy%Hin. lia.
Qed.
End tiers.

Lemma residueTier_le id replicas ordinal : (residueTier id replicas ordinal ≤ 2)%nat.
Proof. unfold residueTier. repeat case_bool_decide; lia. Qed.

(** ** What a fetch returns *)

Section fetch.
Context (DATE_ADD_MILLIS : Z → Z → Z).

Lemma group_rows_app rows rows' out :
  fold_left (λ (out : gmap string (list Z)) '(k, id), <[k := default [] (out !! k) ++ [id]]> out) (rows ++ rows') out
  = fold_left (λ out '(k, id), <[k := default [] (out !! k) ++ [id]]> out) rows'
      (fold_left (λ out '(k, id), <[k := default [] (out !! k) ++ [id]]> out) rows out).
Proof. apply fold_left_app. Qed.

(** Grouping appends, per key, the ids of the rows of that key. *)
Lemma group_rows_lookup rows k :
  default [] (group_rows rows !! k) = (filter (λ p, p.1 = k) rows).*2.
Proof.
  induction rows as [|[k' id] rows IH] using rev_ind; [done|].
  unfold group_rows in *. rewrite fold_left_app, filter_app, fmap_app. simpl. rewrite filter_cons, filter_nil. simpl.
  destruct (decide (k' = k)) as [->|Hne].
  - rewrite lookup_insert_eq. simpl. by rewrite IH.
  - rewrite lookup_insert_ne by done. by rewrite app_nil_r.
Qed.

Lemma fetchQuery_key replicas ordinal grace now band keys n tab k :
  NoDup keys → k ∈ keys →
  (filter (λ p, p.1 = k) (fetchQuery DATE_ADD_MILLIS replicas ordinal grace now band keys n tab)).*2
  = step_id <$> take n (ranked DATE_ADD_MILLIS replicas ordinal grace now band k tab).
Proof.
  assert (∀ k' (l : list step_row), (filter (λ p, p.1 = k) ((λ r, (k', step_id r)) <$> l)).*2
            = if decide (k' = k) then step_id <$> l else []) as Hone.
  { intros k' l. induction l as [|r l IH]; [by case_decide|]. rewrite fmap_cons, filter_cons. simpl.
    destruct (decide (k' = k)); csimpl; by rewrite IH. }
  unfold fetchQuery. induction keys as [|k' keys IH]; intros Hnd Hk; [by apply elem_of_nil in Hk|].
  apply NoDup_cons in Hnd as [Hnew Hnd]. rewrite bind_cons, filter_app, fmap_app, Hone.
  destruct (decide (k' = k)) as [->|Hne].
  - enough ((filter (λ p, p.1 = k) (keys ≫= λ k0, (λ r, (k0, step_id r)) <$> take n
              (ranked DATE_ADD_MILLIS replicas ordinal grace now band k0 tab))).*2 = []) as -> by by rewrite app_nil_r.
    clear -Hnew Hone. induction keys as [|k' keys IH]; [done|]. rewrite bind_cons, filter_app, fmap_app, Hone.
    rewrite decide_False by set_solver. apply IH. set_solver.
  - simpl. apply IH; [done|set_solver].
Qed.

Lemma elem_of_ranked replicas ordinal grace now band k tab r :
  r ∈ ranked DATE_ADD_MILLIS replicas ordinal grace now band k tab ↔
  r ∈ tab ∧ dueSteps now r = true ∧ partitionPredicate DATE_ADD_MILLIS replicas ordinal grace now r = true ∧
  priority r = band ∧ fairness_key r = k.
Proof.
  unfold ranked. rewrite merge_sort_Permutation, list_elem_of_filter, !andb_true_iff, !bool_decide_eq_true. tauto.
Qed.

Lemma ranked_NoDup replicas ordinal grace now band k tab :
  NoDup (step_id <$> tab) → NoDup (step_id <$> ranked DATE_ADD_MILLIS replicas ordinal grace now band k tab).
Proof.
  intros Hnd. unfold ranked. rewrite merge_sort_Permutation.
  eapply sublist_NoDup; [exact Hnd|]. apply fmap_sublist, sublist_filter.
Qed.
End fetch.

(** ** The piston is a step source *)

Section source.
Context (DATE_ADD_MILLIS : Z → Z → Z) (partition : option (Z * Z * bool)) (grace now : Z) (tab : table).
Let replicas := (resolvePartition partition).1.
Let ordinal := (resolvePartition partition).2.

(** What a key has for this replica at a band, oldest first. *)
Definition due_steps (band : Z) (k : string) : list Z :=
  step_id <$> ranked DATE_ADD_MILLIS replicas ordinal grace now band k tab.

Definition piston_source (fail : bool) : Z → Z → list string → nat → option (gmap string (list Z)) :=
  λ _ band keys perKey, fst <$> FetchSteps DATE_ADD_MILLIS fail partition grace now tab band keys perKey.

(** The rows of the statement for one key, before the fill order. *)
Definition window (band : Z) (perKey : nat) (k : string) : list Z :=
  take (perKey * Z.to_nat (overFetch replicas grace)) (due_steps band k).

Lemma overFetch_pos : (1 ≤ Z.to_nat (overFetch replicas grace))%nat.
Proof using. unfold overFetch. case_bool_decide; lia. Qed.

Lemma fetch_key fail band keys perKey m st k :
  NoDup keys → k ∈ keys → FetchSteps DATE_ADD_MILLIS fail partition grace now tab band keys perKey = Some (m, st) →
  default [] (m !! k) = rank_key perKey replicas ordinal (window band perKey k).
Proof using.
  intros Hnd Hk. unfold FetchSteps. rewrite (bool_decide_eq_false_2 (keys = [])) by (intros ->; by apply elem_of_nil in Hk). simpl.
  case_bool_decide as Hp; [|destruct fail; [done|]].
  - intros [= <- <-]. subst perKey. rewrite lookup_empty. unfold rank_key. by rewrite take_0.
  - unfold window, due_steps, replicas, ordinal.
    destruct (resolvePartition partition) as [R o]. unfold rankByResidue. intros [= <- _]. simpl.
    rewrite lookup_fmap.
    pose proof (group_rows_lookup (fetchQuery DATE_ADD_MILLIS R o grace now band keys
                  (perKey * Z.to_nat (overFetch R grace)) tab) k) as Hg.
    rewrite fetchQuery_key in Hg by done. rewrite <-fmap_take, <-Hg.
    destruct (group_rows _ !! k); simpl; [done|]. unfold rank_key.
    case_bool_decide; simpl; by rewrite take_nil.
Qed.

Lemma rank_key_perm perKey l :
  ∃ l', l' ≡ₚ l ∧ rank_key perKey replicas ordinal l = take perKey l'.
Proof using.
  unfold rank_key. case_bool_decide; [|by exists l]. eexists. split; [apply residueSort_perm|done].
Qed.

#[export] Instance piston_step_source fail :
  NoDup (step_id <$> tab) → StepSource (piston_source fail) (λ _, due_steps).
Proof using.
  intros Hnd. unfold piston_source. split.
  - intros s b ks n m Hks Hm k Hk. destruct (FetchSteps _ _ _ _ _ _ _ _ _) as [[m' st]|] eqn:Hf; [|done].
    simpl in Hm. simplify_eq. rewrite (fetch_key _ _ _ _ _ _ _ Hks Hk Hf).
    destruct (rank_key_perm n (window b n k)) as (l' & Hp & ->).
    assert (NoDup l') as Hnd'.
    { rewrite Hp. unfold window. eapply sublist_NoDup; [|apply sublist_take]. by apply ranked_NoDup. }
    split; [eapply sublist_NoDup; [exact Hnd'|apply sublist_take]|].
    intros id (i & Hi & _)%elem_of_take. apply list_elem_of_lookup_2 in Hi. rewrite Hp in Hi.
    apply elem_of_take in Hi as (j & Hj & _). by eapply list_elem_of_lookup_2.
  - intros s b ks n m Hks Hm k Hk. destruct (FetchSteps _ _ _ _ _ _ _ _ _) as [[m' st]|] eqn:Hf; [|done].
    simpl in Hm. simplify_eq. rewrite (fetch_key _ _ _ _ _ _ _ Hks Hk Hf).
    destruct (rank_key_perm n (window b n k)) as (l' & Hp & ->). rewrite length_take, Hp.
    unfold window. rewrite length_take. pose proof overFetch_pos. nia.
  - intros s b k k' id. unfold due_steps.
    intros (r & -> & Hr)%list_elem_of_fmap (r' & Hid & Hr')%list_elem_of_fmap.
    apply elem_of_ranked in Hr as (Ht & _ & _ & _ & <-), Hr' as (Ht' & _ & _ & _ & <-). f_equal.
    apply list_elem_of_lookup in Ht as [i Hi]. apply list_elem_of_lookup in Ht' as [j Hj].
    assert (i = j) as ->; [|congruence].
    eapply (NoDup_lookup (step_id <$> tab)); [done|by rewrite list_lookup_fmap, Hi|].
    rewrite list_lookup_fmap, Hj. simpl. by rewrite Hid.
Qed.

(** When the window holds all the key has, foreign work is taken for spare slots only. *)
Lemma spare_slots_only band perKey k id own :
  (length (due_steps band k) ≤ perKey * Z.to_nat (overFetch replicas grace))%nat →
  id ∈ rank_key perKey replicas ordinal (window band perKey k) → residueTier id replicas ordinal ≠ 0%nat →
  own ∈ due_steps band k → residueTier own replicas ordinal = 0%nat →
  own ∈ rank_key perKey replicas ordinal (window band perKey k).
Proof using.
  intros Hlen Hid Ht Hown Hot. unfold window in *. rewrite take_ge in * by done.
  unfold rank_key in *. case_bool_decide as HR.
  - rewrite residueSort_tiers in * by (intros; apply residueTier_le).
    set (tier := λ id, residueTier id replicas ordinal) in *.
    rewrite take_app in Hid |- *. apply elem_of_app in Hid as [Hid|Hid].
    + apply elem_of_take in Hid as (i & Hi & _). apply list_elem_of_lookup_2 in Hi.
      by apply list_elem_of_filter in Hi as [? _].
    + assert (length (of_tier tier 0 (due_steps band k)) < perKey)%nat.
      { apply elem_of_take in Hid as (i & _ & Hi). lia. }
      apply elem_of_app. left. rewrite take_ge by lia. by apply list_elem_of_filter.
  - exfalso. apply Ht. unfold residueTier. rewrite bool_decide_eq_true_2 by lia. done.
Qed.
End source.

(** ** What a scan reports *)

Lemma min_priority_le now tab r :
  r ∈ tab → dueSteps now r = true → ∃ p, min_priority now tab = Some p ∧ p ≤ priority r.
Proof.
  induction tab as [|r' tab IH]; intros Hr Hd; [by apply elem_of_nil in Hr|]. simpl.
  apply elem_of_cons in Hr as [<-|Hr].
  - rewrite Hd. eexists. split; [done|]. destruct (min_priority now tab); lia.
  - destruct (IH Hr Hd) as (p & -> & Hp). destruct (dueSteps now r'); eexists; (split; [done|lia]).
Qed.

Lemma scan_tally DAM DDM partition grace cap now tab band ts t :
  ScanBand DAM DDM false partition grace cap now tab = Some (band, ts) → t ∈ ts →
  min_priority now tab = Some band ∧ 1 ≤ cap ∧
  Count t = Nat.min (length (due_steps DAM partition grace now tab band (Key t))) (Z.to_nat cap) ∧
  ∃ r rest, ranked DAM (resolvePartition partition).1 (resolvePartition partition).2 grace now band (Key t) tab = r :: rest ∧
            Weight t = fairness_weight r ∧ AgeMs t = DDM now (created_at r).
Proof.
  unfold ScanBand, due_steps. destruct (resolvePartition partition) as [R o].
  destruct (min_priority now tab) as [p|]; [|intros [= <- <-] Ht; by apply elem_of_nil in Ht].
  set (f := λ k, tally_of _ _ _ _ _). intros [= Hband <-] Ht. pose proof Ht as (k & _ & Hk)%list_elem_of_omap.
  rewrite bool_decide_eq_false_2 in Hband by (intros Hn; rewrite Hn in Ht; by apply elem_of_nil in Ht). subst p.
  unfold f, tally_of in Hk. destruct (ranked DAM R o grace now band k tab) as [|r rest] eqn:Hr; [done|].
  case_bool_decide as Hc; [done|]. apply (inj Some) in Hk. subst t. simpl. rewrite Hr, length_fmap.
  split_and!; [done|lia|done|]. by exists r, rest.
Qed.

(** ** Properties *)

(** What a scan counts, the fetch delivers.  Over one state of the table and one reading of the
    partition and the grace, whatever shape the fill order gives the rows: for a key the scan reported,
    the fetch returns as many steps as asked for or as many as the scan counted, exactly that many when
    the count was below the capacity; they are different steps of that key, due at the scanned band and
    admitted by the partition; no due step of the shard has a better band; and as long as the window
    holds all the key's admitted steps, a step of another replica's class is taken only when every due
    step of this replica's own class is. *)
Theorem fetch_delivers_scan DAM DDM partition grace cap now tab band ts t fail keys perKey m st :
  NoDup (step_id <$> tab) →
  ScanBand DAM DDM false partition grace cap now tab = Some (band, ts) → t ∈ ts →
  FetchSteps DAM fail partition grace now tab band keys perKey = Some (m, st) → NoDup keys → Key t ∈ keys →
  let l := default [] (m !! Key t) in
  let '(R, o) := resolvePartition partition in
  (Nat.min perKey (Count t) ≤ length l ≤ perKey)%nat ∧
  (Z.of_nat (Count t) < cap → length l = Nat.min perKey (Count t)) ∧
  NoDup l ∧
  (∀ id, id ∈ l → ∃ r, r ∈ tab ∧ step_id r = id ∧ fairness_key r = Key t ∧ priority r = band ∧
     dueSteps now r = true ∧ partitionPredicate DAM R o grace now r = true) ∧
  (∀ r, r ∈ tab → dueSteps now r = true → band ≤ priority r) ∧
  ((length (due_steps DAM partition grace now tab band (Key t)) ≤ perKey * Z.to_nat (overFetch R grace))%nat →
     ∀ id own, id ∈ l → residueTier id R o ≠ 0%nat →
       own ∈ due_steps DAM partition grace now tab band (Key t) → residueTier own R o = 0%nat → own ∈ l).
Proof.
  intros Hnd Hscan Ht Hf Hks Hk l. destruct (scan_tally _ _ _ _ _ _ _ _ _ _ Hscan Ht) as (Hmin & Hcap & Hcnt & _).
  pose proof (fetch_sound (StepSource := piston_step_source DAM partition grace now tab fail Hnd) 0 band keys perKey m) as Hsound.
  pose proof (fetch_length (StepSource := piston_step_source DAM partition grace now tab fail Hnd) 0 band keys perKey m) as Hlen.
  unfold piston_source in Hsound, Hlen. rewrite Hf in Hsound, Hlen.
  specialize (Hsound Hks eq_refl (Key t) Hk) as [Hndl Hdue]. specialize (Hlen Hks eq_refl (Key t) Hk).
  pose proof (fetch_key DAM partition grace now tab fail band keys perKey m st (Key t) Hks Hk Hf) as Hkey.
  pose proof (spare_slots_only DAM partition grace now tab band perKey (Key t)) as Hspare. fold l in Hndl, Hdue, Hlen, Hkey.
  rewrite <-Hkey in Hspare.
  assert (∀ id, id ∈ l → ∃ r, r ∈ tab ∧ step_id r = id ∧ fairness_key r = Key t ∧ priority r = band ∧
     dueSteps now r = true ∧
     partitionPredicate DAM (resolvePartition partition).1 (resolvePartition partition).2 grace now r = true) as Hrow.
  { intros id (r & -> & Hr)%Hdue%list_elem_of_fmap. apply elem_of_ranked in Hr as (? & ? & ? & ? & ?). by exists r. }
  destruct (resolvePartition partition) as [R o]. simpl in *.
  split_and!; [lia|lia|lia|done|done| |].
  - intros r Hr Hd. destruct (min_priority_le now tab r Hr Hd) as (p & Hp & Hle). simplify_eq. lia.
  - intros Hw id own. by apply Hspare.
Qed.

Definition demo_row (id key_created nb : Z) (k : string) : step_row :=
  mkStepRow id 3 k f1 key_created nb 0 true false.
Definition demo_table : table :=
  [demo_row 4 10 10 "a"; demo_row 6 20 20 "a"; demo_row 7 15 15 "b"; demo_row 9 5 5 "b"; demo_row 8 30 30 "a"].
Definition demo_part : option (Z * Z * bool) := Some (2, 0, true).

Lemma fetch_delivers_scan_witness :
  length (default [] ((default (∅, 0%nat) (FetchSteps Z.add false demo_part 0 100 demo_table 3 ["a"] 2)).1 !! "a")) = 2%nat.
Proof.
  set (scan := default (0, []) (ScanBand Z.add (λ _ _, f0) false demo_part 0 10 100 demo_table)).
  set (res := default (∅, 0%nat) (FetchSteps Z.add false demo_part 0 100 demo_table 3 ["a"] 2)).
  pose proof (fetch_delivers_scan Z.add (λ _ _, f0) demo_part 0 10 100 demo_table scan.1 scan.2
    (mkTally "a" f1 f0 3) false ["a"] 2 res.1 res.2) as H.
  destruct H as (_ & Hl & _).
  - apply (bool_decide_eq_true_1 _). vm_compute. reflexivity.
  - vm_compute. reflexivity.
  - assert (scan.2 = [mkTally "a" f1 f0 3]) as -> by (vm_compute; reflexivity). by left.
  - vm_compute. reflexivity.
  - apply NoDup_singleton.
  - by left.
  - exact (Hl eq_refl).
Defined.

(** Beyond the window the fill order is not exact.  Two replicas, one slot asked for: the own class
    has a due step (6), but the two oldest admitted rows are an abandoned peer's, they fill the
    over-fetched window, and the fetch takes one of them (1). *)
Theorem fetch_steals_past_own_class :
  let tab := [demo_row 1 0 0 "a"; demo_row 3 1 1 "a"; demo_row 6 900 900 "a"] in
  let grace := 100 * Millisecond in
  resolvePartition demo_part = (2, 0) ∧
  due_steps Z.add demo_part grace 1000 tab 3 "a" = [1; 3; 6] ∧
  residueTier 6 2 0 = 0%nat ∧
  FetchSteps Z.add false demo_part grace 1000 tab 3 ["a"] 1 = Some ({["a" := [1]]}, 1%nat).
Proof. vm_compute. split_and!; reflexivity. Qed.

Lemma next_ordinal n o : 0 ≤ o < n → Z.rem (o + 1) n = if bool_decide (o = n - 1) then 0 else o + 1.
Proof.
  intros Ho. case_bool_decide as He; [|by apply Z.rem_small; lia].
  subst o. replace (n - 1 + 1) with n by lia. apply Z.rem_same. lia.
Qed.

(** What the predicate says once the step's class [m] is known. *)
Lemma predicate_spec DAM n o grace db_now r :
  2 ≤ n → 0 ≤ o < n →
  partitionPredicate DAM n o grace db_now r = true ↔
  Z.rem (step_id r) n = o ∨
  0 < grace ∧
    ((Z.rem (step_id r) n = Z.rem (o + 1) n ∧ not_before r ≤ DAM db_now (- Z.quot grace Millisecond)) ∨
     not_before r ≤ DAM db_now (-2 * Z.quot grace Millisecond)).
Proof.
  intros Hn Ho. unfold partitionPredicate. rewrite (bool_decide_eq_false_2 (n < 2)) by lia.
  destruct (decide (0 < grace)) as [Hg|Hg].
  - rewrite (bool_decide_eq_true_2 (0 < grace)) by done. cbv zeta.
    rewrite !orb_true_iff, andb_true_iff, !bool_decide_eq_true. tauto.
  - rewrite (bool_decide_eq_false_2 (0 < grace)), bool_decide_eq_true by done. tauto.
Qed.

(** C24. Every step has a server, and while its owner serves it, only one.  Take one reading of a
    shard's registry and the dispatchers it shows, each holding the partition its own Sonar published
    from that reading.  With fewer than two of them, and for a replica that is not among them, the
    partition restricts nothing.  With two or more, each step has one owner and one designated stealer,
    two different dispatchers: without stealing exactly the owner may select it; with a grace [ms] the
    owner always may, the stealer too once the step was due for [ms], and everybody once it was due for
    twice that, so no class can be stranded. *)
Theorem fleet_serves_every_step DAM rows w shard working_of (sonar_of : Z → Peers.Sonar) now :
  Peers.reading_ok w rows →
  (∀ self, let v := Peers.classify rows self (working_of self) shard w in
     Peers.part (sonar_of self) = (Peers.v_dispatchers v, Peers.v_ordinal v) ∧ Peers.blind now (sonar_of self) = false) →
  let D := Peers.ids (Peers.dispatching w) rows in
  let admits self grace db_now r :=
    let '(R, o) := resolvePartition (Some (Peers.Partition now (sonar_of self))) in
    partitionPredicate DAM R o grace db_now r in
  (∀ self grace db_now r, (length D < 2)%nat ∨ self ∉ D → admits self grace db_now r = true) ∧
  ∀ r, 0 ≤ step_id r → (2 ≤ length D)%nat →
    ∃ owner stealer, owner ∈ D ∧ stealer ∈ D ∧ owner ≠ stealer ∧
      ∀ self db_now, self ∈ D →
        (admits self 0 db_now r = true ↔ self = owner) ∧
        ∀ grace, 0 < grace → let ms := Z.quot grace Millisecond in
          admits self grace db_now r = true ↔
          self = owner ∨ (self = stealer ∧ not_before r ≤ DAM db_now (- ms)) ∨ not_before r ≤ DAM db_now (-2 * ms).
Proof.
  intros Hok Hson D admits. assert (NoDup D) as Hnd by apply Peers.ids_NoDup, Hok.
  assert (∀ self, self ∉ D ∨ (length D < 2)%nat → resolvePartition (Some (Peers.Partition now (sonar_of self))) = (0, 0)) as Hopen.
  { intros self Hout. destruct (Hson self) as [Hp Hb]. unfold Peers.Partition. rewrite Hp, Hb.
    rewrite Peers.view_dispatchers by done. fold D. destruct (Peers.view_ordinal rows self (working_of self) shard w Hok) as [_ Hno].
    change (Peers.count (Peers.dispatching w) rows) with (Z.of_nat (length D)).
    destruct Hout as [Hout|Hlt].
    - rewrite Hno by done. simpl. rewrite orb_true_r. done.
    - rewrite (bool_decide_eq_true_2 (Z.of_nat (length D) < 2)) by lia. done. }
  assert (∀ self i, (2 ≤ length D)%nat → D !! i = Some self →
            resolvePartition (Some (Peers.Partition now (sonar_of self))) = (Z.of_nat (length D), Z.of_nat i)) as Hres.
  { intros self i Hlen Hi. destruct (Hson self) as [Hp Hb]. unfold Peers.Partition. rewrite Hp, Hb.
    rewrite Peers.view_dispatchers by done.
    destruct (Peers.view_ordinal rows self (working_of self) shard w Hok) as [Ho _]. rewrite (Ho i Hi).
    change (Peers.count (Peers.dispatching w) rows) with (Z.of_nat (length D)).
    pose proof (lookup_lt_Some _ _ _ Hi).
    rewrite !bool_decide_eq_false_2 by lia. simpl. rewrite !bool_decide_eq_false_2 by lia. done. }
  split.
  - intros self grace db_now r Hout. unfold admits. rewrite Hopen by tauto. done.
  - intros r Hr Hlen. set (n := Z.of_nat (length D)). set (m := Z.rem (step_id r) n).
    assert (0 ≤ m < n) as Hm by (apply Z.rem_bound_pos; lia).
    set (o := if bool_decide (m = 0) then n - 1 else m - 1).
    assert (0 ≤ o < n ∧ o ≠ m ∧ ∀ k, 0 ≤ k < n → (m = Z.rem (k + 1) n ↔ k = o)) as (Hob & Hom & Hnext).
    { unfold o. case_bool_decide; (split_and!; [lia..|]); intros k Hk; rewrite next_ordinal by done;
        case_bool_decide; lia. }
    destruct (lookup_lt_is_Some_2 D (Z.to_nat m)) as [owner Hown]; [lia|].
    destruct (lookup_lt_is_Some_2 D (Z.to_nat o)) as [stealer Hst]; [lia|].
    exists owner, stealer. split_and!; [by eapply list_elem_of_lookup_2..| |].
    { intros ->. pose proof (NoDup_lookup _ _ _ _ Hnd Hown Hst). lia. }
    intros self db_now (k & Hk)%list_elem_of_lookup. pose proof (lookup_lt_Some _ _ _ Hk) as Hkn.
    assert (∀ j x, 0 ≤ j < n → D !! Z.to_nat j = Some x → self = x ↔ Z.of_nat k = j) as Hidx.
    { intros j x Hj Hx. split; [intros ->; pose proof (NoDup_lookup _ _ _ _ Hnd Hk Hx); lia|].
      intros <-. rewrite Nat2Z.id in Hx. congruence. }
    pose proof (Hidx m owner Hm Hown) as Ho. pose proof (Hidx o stealer Hob Hst) as Hs.
    unfold admits. rewrite (Hres self k Hlen Hk). fold n.
    split; [|intros grace Hg]; rewrite predicate_spec by lia; fold m; rewrite ?Ho, ?Hs.
    + split; [intros [?|[? _]]; lia|by left].
    + rewrite (Hnext (Z.of_nat k)) by lia. intuition lia.
Qed.

(** The demonstration reading of the registry, two replicas of it dispatching. *)
Definition fleet_rows : list Peers.peer := [Peers.row_at 3 200 100 true; Peers.row_at 8 700 600 true].
Definition fleet_sonar (self : Z) : Peers.Sonar :=
  let v := Peers.classify fleet_rows self true 1 Peers.demo_windows in
  Peers.mkSonar (Peers.default_config self 1) 2 (0, 2) (Peers.mkProfile 0 true)
    (Peers.v_dispatchers v, Peers.v_ordinal v) 0 0 false None None (0, 2) None.

Lemma fleet_rows_ok : Peers.reading_ok Peers.demo_windows fleet_rows.
Proof.
  split; [|intros p Hp|intros p Hp|vm_compute; reflexivity].
  - apply (bool_decide_eq_true_1 _). vm_compute. reflexivity.
  - repeat (apply elem_of_cons in Hp as [->|Hp]; [simpl; lia|]). by apply elem_of_nil in Hp.
  - repeat (apply elem_of_cons in Hp as [->|Hp]; [vm_compute; reflexivity|]). by apply elem_of_nil in Hp.
Qed.

Lemma fleet_serves_every_step_witness :
  Peers.ids (Peers.dispatching Peers.demo_windows) fleet_rows = [3; 8] ∧
  ∃ owner stealer : Z, owner ∈ [3; 8] ∧ stealer ∈ [3; 8] ∧ owner ≠ stealer.
Proof.
  split; [vm_compute; reflexivity|].
  destruct (fleet_serves_every_step Z.add fleet_rows Peers.demo_windows 1 (λ _, true) fleet_sonar 0) as [_ H].
  - exact fleet_rows_ok.
  - intros self. split; [reflexivity|vm_compute; reflexivity].
  - destruct (H (demo_row 5 0 0 "a")) as (owner & stealer & Ho & Hs & Hne & _); [simpl; lia|vm_compute; lia|].
    exists owner, stealer. split_and!; [exact Ho|exact Hs|exact Hne].
Defined.
