(* ===== verification/PistonLoop.v ===== *)
(** * A piston's two loops ([internal/piston/piston.go])

    [New], the live setters, [SetIdle], [Liveness] and the bodies of [runTallier] and
    [runSupplier].  The loops run beside each other and beside everything else on the replica, so
    the program is a step relation: a step is one atomic action of one goroutine, which is an
    atomic load or store, one critical section of the shared planner or of the shared cache, or
    one query's answer.  [ScanBand] and [FetchSteps] are in [Piston.v]; here the answer of a query
    is an input of the step that receives it, because the table changes between the cycles.
    The end of a cycle's work window is in the same step as the cycle's last action. *)

From S2P Require Import Prelude Float64 Candidates Planner Pipeline Peers Piston.

#[local] Open Scope Z_scope.

(** ** The piston *)

Record motor := mkMotor {
  m_shard : Z;
  m_idle : bool;
  m_stealAfter : Z;
  m_tallier : pacer;
  m_supplier : pacer;
  tallyTurns : Z;
  supplyTurns : Z
}.

Inductive motor_error := ShardNotPositive | DbRequired | PlannerRequired | CacheRequired | BadLoop (e : pipeline_error).

Definition defaultStealAfter : Z := 4.

(** A loop as it is built: [pacer.init] over the zero timestamps. *)
Definition built_pacer : pacer := pacer_init (mkPacer 0 0 None None 0).

Definition New (shard : Z) (db plan cache : bool) : result motor_error motor :=
  if bool_decide (shard < 1) then Err ShardNotPositive else
  if negb db then Err DbRequired else
  if negb plan then Err PlannerRequired else
  if negb cache then Err CacheRequired else
  match NewTallier shard with
  | Err e => Err (BadLoop e)
  | Ok shard => Ok (mkMotor shard false defaultStealAfter built_pacer built_pacer 0 0)
  end.

Definition set_idle (b : bool) (m : motor) : motor :=
  mkMotor (m_shard m) b (m_stealAfter m) (m_tallier m) (m_supplier m) (tallyTurns m) (supplyTurns m).
Definition set_pacers (t s : pacer) (m : motor) : motor :=
  mkMotor (m_shard m) (m_idle m) (m_stealAfter m) t s (tallyTurns m) (supplyTurns m).
Definition put_turns (t s : Z) (m : motor) : motor :=
  mkMotor (m_shard m) (m_idle m) (m_stealAfter m) (m_tallier m) (m_supplier m) t s.

(** [int32(periods)] wraps; a negative count of periods is stored as none. *)
Definition SetStealAfter (periods : Z) (m : motor) : motor :=
  mkMotor (m_shard m) (m_idle m) (int32 (Z.max 0 periods)) (m_tallier m) (m_supplier m) (tallyTurns m) (supplyTurns m).

Definition SetTallyCadence (interval gap : Z) (m : motor) : motor :=
  set_pacers (SetMinGap gap (SetInterval interval (m_tallier m))) (m_supplier m) m.
Definition SetSupplyCadence (interval gap : Z) (m : motor) : motor :=
  set_pacers (m_tallier m) (SetMinGap gap (SetInterval interval (m_supplier m))) m.

(** The statement an empty plan makes: no report in the planner, no candidate in the partition. *)
Definition empty_partition (shard : Z) (c : Cache) : Cache := (Refill shard [] NoBand c).2.

Definition SetIdle (b : bool) (m : motor) (p : Planner) (c : Cache) : motor * Planner * Cache :=
  (set_idle b m, if b then Planner_Clear (m_shard m) p else p, if b then empty_partition (m_shard m) c else c).

Definition Liveness (now : Z) (m : motor) : Z * bool * bool :=
  (Z.min (tallyTurns m) (supplyTurns m),
   bool_decide (Period (m_tallier m) < WorkingFor now (m_tallier m))
   || bool_decide (Period (m_supplier m) < WorkingFor now (m_supplier m)),
   m_idle m).

(** ** The two goroutines *)

(** Where [runTallier] stands: the test of the context, the load of [idle], the withdrawal on the
    way into idle, the idle poll, the pace of a cycle, its scan, the count of its turn. *)
Inductive tally_at := THead | TIdle | TClear | TSleep | TPace | TScan | TTurn | TStopped.

Inductive supply_at :=
| SHead | SIdle | SEmpty | SSleep | SPace | SPlan
| SFetch (plan : Plan)
| SPush (batch : list Job) (floor : Z)
| STurn | SStopped.

(** [w_live]: the context of [Run] has not ended.  The two flags are the loops' locals. *)
Record world := mkWorld {
  w_motor : motor;
  w_plan : Planner;
  w_cache : Cache;
  w_live : bool;
  w_tally : tally_at;
  t_withdrawn : bool;
  w_supply : supply_at;
  s_withdrawn : bool
}.

(** [Run] with both goroutines just started: each loop begins as withdrawn. *)
Definition Run (m : motor) (p : Planner) (c : Cache) : world := mkWorld m p c true THead true SHead true.

Definition shared (m : motor) (p : Planner) (c : Cache) (w : world) : world :=
  mkWorld m p c (w_live w) (w_tally w) (t_withdrawn w) (w_supply w) (s_withdrawn w).
Definition tally_to (pc : tally_at) (out : bool) (w : world) : world :=
  mkWorld (w_motor w) (w_plan w) (w_cache w) (w_live w) pc out (w_supply w) (s_withdrawn w).
Definition supply_to (pc : supply_at) (out : bool) (w : world) : world :=
  mkWorld (w_motor w) (w_plan w) (w_cache w) (w_live w) (w_tally w) (t_withdrawn w) pc out.

Definition tally_pacer (f : pacer → pacer) (m : motor) : motor := set_pacers (f (m_tallier m)) (m_supplier m) m.
Definition supply_pacer (f : pacer → pacer) (m : motor) : motor := set_pacers (m_tallier m) (f (m_supplier m)) m.

(** What a step of [runTallier] learns from outside: the clock and the answer of the scan. *)
Record tally_in := mkTallyIn { ti_now : Z; ti_scan : option (Z * list Tally) }.

Definition tally_step (i : tally_in) (w : world) : world :=
  let m := w_motor w in
  match w_tally w with
  | THead => tally_to (if w_live w then TIdle else TStopped) (t_withdrawn w) w
  | TIdle =>
      if m_idle m then tally_to (if t_withdrawn w then TSleep else TClear) (t_withdrawn w) w
      else tally_to TPace false w
  | TClear => shared m (Planner_Clear (m_shard m) (w_plan w)) (w_cache w) (tally_to TSleep true w)
  | TSleep => tally_to (if w_live w then THead else TStopped) (t_withdrawn w) w
  | TPace =>
      if w_live w
      then shared (tally_pacer (pacer_begin (ti_now i)) m) (w_plan w) (w_cache w) (tally_to TScan (t_withdrawn w) w)
      else tally_to THead (t_withdrawn w) w
  | TScan =>
      let '(r, p) := Tallier_Cycle (m_shard m) false (ti_scan i) (w_plan w) in
      shared (tally_pacer (pacer_end (ti_now i)) m) p (w_cache w)
        (tally_to (match tr_err r with Some _ => THead | None => TTurn end) (t_withdrawn w) w)
  | TTurn =>
      shared (put_turns (u64 (tallyTurns m + 1)) (supplyTurns m) m) (w_plan w) (w_cache w)
        (tally_to THead (t_withdrawn w) w)
  | TStopped => w
  end.

(** [si_rnd]: the random numbers the plan draws; [si_steps]: the answer of the fetch. *)
Record supply_in := mkSupplyIn {
  si_now : Z;
  si_rnd : nat → float64;
  si_steps : option (gmap string (list Z))
}.

Section loops.
Context (pow : float64 → float64 → float64).

Definition supply_step (i : supply_in) (w : world) : world :=
  let m := w_motor w in
  let out := s_withdrawn w in
  match w_supply w with
  | SHead => supply_to (if w_live w then SIdle else SStopped) out w
  | SIdle =>
      if m_idle m then supply_to (if out then SSleep else SEmpty) out w
      else supply_to SPace false w
  | SEmpty => shared m (w_plan w) (empty_partition (m_shard m) (w_cache w)) (supply_to SSleep true w)
  | SSleep => supply_to (if w_live w then SHead else SStopped) out w
  | SPace =>
      if w_live w
      then shared (supply_pacer (pacer_begin (si_now i)) m) (w_plan w) (w_cache w) (supply_to SPlan out w)
      else supply_to SHead out w
  | SPlan =>
      let '(plan, p) := Planner_Plan pow (si_rnd i) (m_shard m) (Z.of_nat (Capacity (w_cache w))) (w_plan w) in
      if negb (Tallied plan) then
        shared (supply_pacer (pacer_end (si_now i)) m) p (w_cache w) (supply_to STurn out w)
      else if bool_decide (Slots plan = []) then shared m p (w_cache w) (supply_to (SPush [] NoBand) out w)
      else shared m p (w_cache w) (supply_to (SFetch plan) out w)
  | SFetch plan =>
      match si_steps i with
      | None => shared (supply_pacer (pacer_end (si_now i)) m) (w_plan w) (w_cache w) (supply_to SHead out w)
      | Some steps => supply_to (SPush (assemble (Slots plan) steps (m_shard m)) (GlobalBand plan)) out w
      end
  | SPush batch floor =>
      shared (supply_pacer (pacer_end (si_now i)) m) (w_plan w) (Refill (m_shard m) batch floor (w_cache w)).2
        (supply_to STurn out w)
  | STurn =>
      shared (put_turns (tallyTurns m) (u64 (supplyTurns m + 1)) m) (w_plan w) (w_cache w) (supply_to SHead out w)
  | SStopped => w
  end.

(** ** Everything else on the replica *)

(** What the other pistons, and the owner at shutdown, do to the shared planner. *)
Inductive planner_op :=
| PTally (s band : Z) (ts : list Tally)
| PClear (s : Z)
| PPlan (rnd : nat → float64) (s capacity : Z)
| PReset.

Definition apply_planner (o : planner_op) (p : Planner) : Planner :=
  match o with
  | PTally s b ts => Planner_Tally s b ts p
  | PClear s => Planner_Clear s p
  | PPlan rnd s cap => (Planner_Plan pow rnd s cap p).2
  | PReset => Reset p
  end.

(** One step of somebody.  [SetIdle] is the store and then, when going idle, the two withdrawals,
    each a step of its own: any number of goroutines may be inside it. *)
Inductive label :=
| LTally (i : tally_in)
| LSupply (i : supply_in)
| LStore (b : bool)
| LClear
| LEmpty
| LTallyCadence (interval gap : Z)
| LSupplyCadence (interval gap : Z)
| LStealAfter (periods : Z)
| LEnd
| LPlanner (o : planner_op)
| LCache (o : cache_op).

Definition act (l : label) (w : world) : world :=
  let m := w_motor w in
  match l with
  | LTally i => tally_step i w
  | LSupply i => supply_step i w
  | LStore b => shared (set_idle b m) (w_plan w) (w_cache w) w
  | LClear => shared m (Planner_Clear (m_shard m) (w_plan w)) (w_cache w) w
  | LEmpty => shared m (w_plan w) (empty_partition (m_shard m) (w_cache w)) w
  | LTallyCadence d g => shared (SetTallyCadence d g m) (w_plan w) (w_cache w) w
  | LSupplyCadence d g => shared (SetSupplyCadence d g m) (w_plan w) (w_cache w) w
  | LStealAfter n => shared (SetStealAfter n m) (w_plan w) (w_cache w) w
  | LEnd => mkWorld m (w_plan w) (w_cache w) false (w_tally w) (t_withdrawn w) (w_supply w) (s_withdrawn w)
  | LPlanner o => shared m (apply_planner o (w_plan w)) (w_cache w) w
  | LCache o => shared m (w_plan w) (apply_op o (w_cache w)) w
  end.

(** Only this piston reports for its shard or refills its shard's partition. *)
Definition foreign (shard : Z) (l : label) : Prop :=
  match l with
  | LPlanner (PTally s _ _) => s ≠ shard
  | LCache (OpRefill s _ _) => s ≠ shard
  | _ => True
  end.

Inductive runs (w : world) : list label → world → Prop :=
| runs_nil : runs w [] w
| runs_snoc ls w' l : runs w ls w' → foreign (m_shard (w_motor w')) l → runs w (ls ++ [l]) (act l w').

(** The loops' starting point: a piston whose shard nobody has reported for. *)
Record fresh (m : motor) (p : Planner) (c : Cache) : Prop := {
  fresh_plan : shards p !! m_shard m = None;
  fresh_cache : parts c !! m_shard m = None
}.

Definition reachable (w : world) : Prop := ∃ m p c ls, fresh m p c ∧ runs (Run m p c) ls w.

(** ** A withdrawn loop has left nothing behind *)

(** Every candidate left is one the doorbell admitted; a closed cache takes no refill at all. *)
Definition none_selected (s : Z) (c : Cache) : Prop :=
  closed c = false → all_parts (λ s' p, s' = s → Z.of_nat (length (items p)) ≤ offered p) c.

Definition tally_idle (pc : tally_at) : bool :=
  match pc with THead | TIdle | TSleep | TStopped => true | _ => false end.
Definition supply_idle (pc : supply_at) : bool :=
  match pc with SHead | SIdle | SSleep | SStopped => true | _ => false end.

Definition tally_ok (s : Z) (p : Planner) (live : bool) (pc : tally_at) (out : bool) : Prop :=
  (out = true → tally_idle pc = true ∧ shards p !! s = None) ∧
  (pc = TSleep → out = true) ∧ (pc = TStopped → live = false).

Definition supply_ok (s : Z) (c : Cache) (live : bool) (pc : supply_at) (out : bool) : Prop :=
  (out = true → supply_idle pc = true ∧ none_selected s c) ∧
  (pc = SSleep → out = true) ∧ (pc = SStopped → live = false).

Definition Inv (w : world) : Prop :=
  let s := m_shard (w_motor w) in
  tally_ok s (w_plan w) (w_live w) (w_tally w) (t_withdrawn w) ∧
  supply_ok s (w_cache w) (w_live w) (w_supply w) (s_withdrawn w).

Lemma none_selected_refill s s' batch fl c :
  (s' = s → batch = []) → none_selected s c → none_selected s (Refill s' batch fl c).2.
Proof.
  intros Hb Hc. unfold none_selected, Refill in *. destruct (closed c) eqn:Hcl; simpl; [by rewrite Hcl|].
  intros _. apply all_parts_put; [|by apply Hc]. intros ->. by rewrite (Hb eq_refl).
Qed.

Lemma none_selected_emptied s c : none_selected s (empty_partition s c).
Proof.
  unfold empty_partition, none_selected, Refill. destruct (closed c) eqn:Hcl; simpl; [by rewrite Hcl|].
  intros _ s' p Hp ->. simpl in Hp. rewrite lookup_insert_eq in Hp. by injection Hp as <-.
Qed.

Lemma closed_step o c : closed c = true → closed (apply_op o c) = true.
Proof.
  intros Hcl. destruct o as [j pr|s' b fl| |s'|n|]; simpl.
  - unfold Offer. by rewrite Hcl.
  - unfold Refill. by rewrite Hcl.
  - destruct (Pop c) eqn:Hp; [done..|]. by apply pop_inv in Hp as (? & ? & ? & _ & _ & _ & _ & ->).
  - unfold TryPopFrom. by rewrite Hcl.
  - unfold Resize. by rewrite Hcl.
  - done.
Qed.

Lemma none_selected_step s o c : foreign s (LCache o) → none_selected s c → none_selected s (apply_op o c).
Proof.
  intros Hf Hc. destruct (closed c) eqn:Hcl.
  { apply (closed_step o) in Hcl. intros Hcl'. congruence. }
  specialize (Hc Hcl). destruct o as [j pr|s' b fl| |s'|n|]; simpl in *.
  - intros _. apply all_parts_offer; [done| | |done].
    + intros j' p ? Hi Hp Hs. specialize (Hp Hs). rewrite Hi in Hp. simpl in *. lia.
    + intros j' p ? _ _ Hp Hs. specialize (Hp Hs). simpl. rewrite length_app. simpl. lia.
  - apply none_selected_refill; [intros; congruence|by intros ?].
  - destruct (Pop c) eqn:Hp; [by intros ?..|].
    apply pop_inv in Hp as (s' & p & p' & _ & Hs & (Hi & _ & _ & Ho)%take_front_Some & _ & ->).
    intros _. apply all_parts_put; [|done]. intros ->. specialize (Hc _ _ Hs eq_refl).
    rewrite Hi in Hc, Ho. simpl in *. case_decide; lia.
  - destruct (TryPopFrom s' c) as [[[j r] c']|] eqn:Hp; [|by intros ?].
    apply try_pop_inv in Hp as (_ & p & p' & Hs & (Hi & _ & _ & Ho)%take_front_Some & _ & ->).
    intros _. apply all_parts_put; [|done]. intros ->. specialize (Hc _ _ Hs eq_refl).
    rewrite Hi in Hc, Ho. simpl in *. case_decide; lia.
  - intros _. apply all_parts_resize; [|done]. intros s' k p Hp Hs. specialize (Hp Hs).
    unfold trim. case_decide; simpl; [rewrite length_take|]; lia.
  - by intros ?.
Qed.

Lemma act_shard l w : m_shard (w_motor (act l w)) = m_shard (w_motor w).
Proof.
  destruct l as [i|i|b| | |d g|d g|n| |o|o]; simpl; try done.
  - unfold tally_step.
    destruct (w_tally w); try destruct (w_live w); try destruct (m_idle _); try destruct (Tallier_Cycle _ _ _ _); done.
  - unfold supply_step. repeat case_match; done.
Qed.

Lemma runs_shard w ls w' : runs w ls w' → m_shard (w_motor w') = m_shard (w_motor w).
Proof. induction 1; [done|]. by rewrite act_shard. Qed.

Lemma plan_reports rnd s cap p : shards (Planner_Plan pow rnd s cap p).2 = shards p.
Proof. apply plan_shards. Qed.

Lemma apply_planner_report s o p :
  foreign s (LPlanner o) → shards p !! s = None → shards (apply_planner o p) !! s = None.
Proof.
  intros Hf Hp. destruct o as [s' b ts|s'|rnd s' cap|]; simpl in *.
  - by rewrite lookup_insert_ne.
  - by rewrite lookup_delete_None; right.
  - by rewrite plan_reports.
  - apply lookup_empty.
Qed.

(** What one loop's step leaves alone. *)
Lemma tally_step_frame i w :
  let w' := tally_step i w in
  w_cache w' = w_cache w ∧ w_live w' = w_live w ∧ w_supply w' = w_supply w ∧ s_withdrawn w' = s_withdrawn w.
Proof.
  unfold tally_step.
  destruct (w_tally w); try destruct (w_live w) eqn:?; try destruct (m_idle _); try destruct (Tallier_Cycle _ _ _ _);
    simpl; split_and!; congruence || done.
Qed.

Lemma supply_step_frame i w :
  let w' := supply_step i w in
  shards (w_plan w') = shards (w_plan w) ∧ w_live w' = w_live w ∧ w_tally w' = w_tally w ∧ t_withdrawn w' = t_withdrawn w.
Proof.
  unfold supply_step. destruct (w_supply w); try (repeat case_match; simpl; split_and!; congruence || done).
  destruct (Planner_Plan _ _ _ _ _) as [pl q] eqn:Hp.
  pose proof (plan_reports (si_rnd i) (m_shard (w_motor w)) (Z.of_nat (Capacity (w_cache w))) (w_plan w)) as Hq.
  rewrite Hp in Hq. simpl in Hq.
  destruct (Tallied pl); simpl; [case_bool_decide|]; simpl; split_and!; done.
Qed.

Lemma tally_step_ok i w :
  let ok w := tally_ok (m_shard (w_motor w)) (w_plan w) (w_live w) (w_tally w) (t_withdrawn w) in
  ok w → ok (tally_step i w).
Proof.
  unfold tally_ok. simpl. intros (Ho & Hs & Hp). unfold tally_step.
  destruct (w_tally w) eqn:Hpc; [destruct (w_live w) eqn:Hl|destruct (m_idle _); [destruct (t_withdrawn w)|]| |
    destruct (w_live w) eqn:Hl|destruct (w_live w) eqn:Hl|destruct (Tallier_Cycle _ _ _ _) as [[b [e|]] q]| |]; simpl;
    split_and!; try done; try (intros H; by destruct (Ho H)); try (by rewrite Hpc); auto.
  intros _. split; [done|apply lookup_delete_eq].
Qed.

Lemma supply_step_ok i w :
  let ok w := supply_ok (m_shard (w_motor w)) (w_cache w) (w_live w) (w_supply w) (s_withdrawn w) in
  ok w → ok (supply_step i w).
Proof.
  unfold supply_ok. simpl. intros (Ho & Hs & Hp). unfold supply_step.
  destruct (w_supply w) eqn:Hpc; [destruct (w_live w) eqn:Hl|destruct (m_idle _); [destruct (s_withdrawn w)|]| |
    destruct (w_live w) eqn:Hl|destruct (w_live w) eqn:Hl|destruct (Planner_Plan _ _ _ _ _) as [pl q];
      destruct (Tallied pl); [destruct (bool_decide _)|]|destruct (si_steps i)| | |]; simpl;
    split_and!; try done; try (intros H; by destruct (Ho H)); try (by rewrite Hpc); auto.
  intros _. split; [done|apply none_selected_emptied].
Qed.

Lemma tally_ok_mono s p p' live pc out :
  (shards p !! s = None → shards p' !! s = None) → tally_ok s p live pc out → tally_ok s p' live pc out.
Proof. intros Hp (Ho & Hr). split; [|done]. intros H. destruct (Ho H). auto. Qed.

Lemma supply_ok_mono s c c' live pc out :
  (none_selected s c → none_selected s c') → supply_ok s c live pc out → supply_ok s c' live pc out.
Proof. intros Hp (Ho & Hr). split; [|done]. intros H. destruct (Ho H). auto. Qed.

Lemma act_Inv l w : foreign (m_shard (w_motor w)) l → Inv w → Inv (act l w).
Proof.
  intros Hf [Ht Hs]. unfold Inv. rewrite act_shard. destruct l as [i|i|b| | |d g|d g|n| |o|o]; simpl.
  - pose proof (tally_step_ok i w Ht) as Ht'. pose proof (act_shard (LTally i) w) as Hsh. simpl in *.
    destruct (tally_step_frame i w) as (-> & Hl & -> & ->). rewrite Hsh in Ht'. rewrite Hl in *. done.
  - pose proof (supply_step_ok i w Hs) as Hs'. pose proof (act_shard (LSupply i) w) as Hsh. simpl in *.
    destruct (supply_step_frame i w) as (Hp & Hl & -> & ->). rewrite Hsh in Hs'. rewrite Hl in *.
    split; [|done]. unfold tally_ok in *. by rewrite Hp.
  - done.
  - split; [|done]. eapply tally_ok_mono, Ht. intros ?. simpl. apply lookup_delete_None. by right.
  - split; [done|]. eapply supply_ok_mono, Hs. intros _. apply none_selected_emptied.
  - done.
  - done.
  - done.
  - split; split; [apply Ht|split; [apply Ht|done]|apply Hs|split; [apply Hs|done]].
  - split; [|done]. eapply tally_ok_mono, Ht. by apply apply_planner_report.
  - split; [done|]. eapply supply_ok_mono, Hs. by apply none_selected_step.
Qed.

Lemma loop_runs_Inv w ls w' : Inv w → runs w ls w' → Inv w'.
Proof. intros Hw. induction 1; [done|]. by apply act_Inv. Qed.

Lemma reachable_Inv w : reachable w → Inv w.
Proof.
  intros (m & p & c & ls & [Hp Hc] & Hr). eapply loop_runs_Inv, Hr. split; (split; [|done]); intros _; (split; [done|]); [done|].
  intros _ s' q Hq ->. simpl in Hq. congruence.
Qed.

(** ** How long a loop takes to withdraw *)

(** The steps a loop has left before it sleeps, the shard withdrawn, when it keeps finding [idle]. *)
Definition tally_left (out : bool) (pc : tally_at) : nat :=
  if out then 0%nat else
  match pc with
  | TPace => 6 | TScan => 5 | TTurn | TSleep => 4 | THead => 3 | TIdle => 2 | TClear => 1 | TStopped => 0
  end.

Definition supply_left (out : bool) (pc : supply_at) : nat :=
  if out then 0%nat else
  match pc with
  | SPace => 8 | SPlan => 7 | SFetch _ => 6 | SPush _ _ => 5 | STurn | SSleep => 4 | SHead => 3 | SIdle => 2 | SEmpty => 1
  | SStopped => 0
  end.

Definition by_tally (l : label) : bool := match l with LTally _ => true | _ => false end.
Definition by_supply (l : label) : bool := match l with LSupply _ => true | _ => false end.
Definition count_of (f : label → bool) (ls : list label) : nat := length (filter (λ l, f l = true) ls).

Lemma loop_count_snoc f ls l : count_of f (ls ++ [l]) = (count_of f ls + (if f l then 1 else 0))%nat.
Proof.
  unfold count_of. rewrite filter_app, length_app, filter_cons, filter_nil. by destruct (f l).
Qed.

(** Nobody takes the piston out of idle and its context goes on. *)
Definition stays_idle (l : label) : Prop :=
  match l with LStore b => b = true | LEnd => False | _ => True end.

Lemma tally_step_left i w :
  m_idle (w_motor w) = true → w_live w = true →
  (tally_left (t_withdrawn (tally_step i w)) (w_tally (tally_step i w)) ≤
   Nat.pred (tally_left (t_withdrawn w) (w_tally w)))%nat.
Proof.
  intros Hi Hl. unfold tally_step. rewrite Hi, Hl.
  destruct (w_tally w) eqn:Hpc; try destruct (Tallier_Cycle _ _ _ _) as [[b [e|]] q];
    destruct (t_withdrawn w) eqn:Ho; simpl; rewrite ?Hpc, ?Ho; simpl; lia.
Qed.

Lemma supply_step_left i w :
  m_idle (w_motor w) = true → w_live w = true →
  (supply_left (s_withdrawn (supply_step i w)) (w_supply (supply_step i w)) ≤
   Nat.pred (supply_left (s_withdrawn w) (w_supply w)))%nat.
Proof.
  intros Hi Hl. unfold supply_step. rewrite Hi, Hl.
  destruct (w_supply w) eqn:Hpc;
    try (destruct (Planner_Plan _ _ _ _ _) as [pl q]; destruct (Tallied pl); [destruct (bool_decide _)|]);
    try destruct (si_steps i); destruct (s_withdrawn w) eqn:Ho; simpl; rewrite ?Hpc, ?Ho; simpl; lia.
Qed.

(** What the steps of others leave of a loop's own state. *)
Lemma act_idle l w : stays_idle l → m_idle (w_motor w) = true → w_live w = true →
  m_idle (w_motor (act l w)) = true ∧ w_live (act l w) = true.
Proof.
  intros Hs Hi Hl. destruct l as [i|i|b| | |d g|d g|n| |o|o]; simpl in *; try done.
  - destruct (tally_step_frame i w) as (_ & -> & _). split; [|done]. unfold tally_step.
    repeat case_match; simpl; congruence || done.
  - destruct (supply_step_frame i w) as (_ & -> & _). split; [|done]. unfold supply_step.
    repeat case_match; simpl; congruence || done.
Qed.

Lemma act_left l w : stays_idle l → m_idle (w_motor w) = true → w_live w = true →
  (tally_left (t_withdrawn (act l w)) (w_tally (act l w)) ≤
     tally_left (t_withdrawn w) (w_tally w) - (if by_tally l then 1 else 0))%nat ∧
  (supply_left (s_withdrawn (act l w)) (w_supply (act l w)) ≤
     supply_left (s_withdrawn w) (w_supply w) - (if by_supply l then 1 else 0))%nat.
Proof.
  intros Hs Hi Hl. destruct l as [i|i|b| | |d g|d g|n| |o|o]; simpl; try (split; lia).
  - destruct (tally_step_frame i w) as (_ & _ & -> & ->). pose proof (tally_step_left i w Hi Hl). split; lia.
  - destruct (supply_step_frame i w) as (_ & _ & -> & ->). pose proof (supply_step_left i w Hi Hl). split; lia.
Qed.

Lemma idle_run w ls w' :
  runs w ls w' → Forall stays_idle ls → m_idle (w_motor w) = true → w_live w = true →
  m_idle (w_motor w') = true ∧ w_live w' = true ∧
  (tally_left (t_withdrawn w') (w_tally w') ≤ tally_left (t_withdrawn w) (w_tally w) - count_of by_tally ls)%nat ∧
  (supply_left (s_withdrawn w') (w_supply w') ≤ supply_left (s_withdrawn w) (w_supply w) - count_of by_supply ls)%nat.
Proof.
  intros Hr. induction Hr as [|ls w' l Hr IH Hf]; intros Hs Hi Hl.
  { unfold count_of. rewrite !filter_nil. simpl. split_and!; [done..|lia|lia]. }
  apply Forall_app in Hs as [Hs [Hsl _]%Forall_cons].
  destruct (IH Hs Hi Hl) as (Hi' & Hl' & Ht & Hu). destruct (act_idle l w' Hsl Hi' Hl').
  destruct (act_left l w' Hsl Hi' Hl'). rewrite !loop_count_snoc. split_and!; [done..|lia|lia].
Qed.

Lemma left_bounds w : (tally_left (t_withdrawn w) (w_tally w) ≤ 6 ∧ supply_left (s_withdrawn w) (w_supply w) ≤ 8)%nat.
Proof. split; [destruct (t_withdrawn w), (w_tally w)|destruct (s_withdrawn w), (w_supply w)]; simpl; lia. Qed.

Lemma withdrawn_when_done w : Inv w → w_live w = true →
  tally_left (t_withdrawn w) (w_tally w) = 0%nat → supply_left (s_withdrawn w) (w_supply w) = 0%nat →
  t_withdrawn w = true ∧ s_withdrawn w = true.
Proof.
  intros [(_ & Hts & Htp) (_ & Hss & Hsp)] Hl Ht Hs. split.
  - destruct (t_withdrawn w) eqn:E; [done|]. destruct (w_tally w); simpl in Ht; try lia.
    rewrite Htp in Hl; done.
  - destruct (s_withdrawn w) eqn:E; [done|]. destruct (w_supply w); simpl in Hs; try lia.
    rewrite Hsp in Hl; done.
Qed.

Lemma loop_runs_app w ls w' ls' w'' : runs w ls w' → runs w' ls' w'' → runs w (ls ++ ls') w''.
Proof.
  intros H1 H2. induction H2 as [|ls' w'' l H2 IH Hf]; [by rewrite app_nil_r|].
  rewrite app_assoc. by constructor.
Qed.

(** C37. Going idle withdraws the shard whatever was in flight.  From any reachable state in which the
    piston is idle, and in every interleaving with the other loop, with calls of [SetIdle], with the
    other pistons, the workers and the doorbell: once the tally loop has made six steps and the
    supply loop eight, the planner holds no report of the shard, and every candidate left in its
    partition is one the doorbell admitted (a closed cache is left as it is).  So no other piston
    plans for the shard, and this stays so for as long as the piston idles. *)
Theorem idle_leaves_nothing_claimed w ls w' :
  reachable w → m_idle (w_motor w) = true → w_live w = true →
  runs w ls w' → Forall stays_idle ls →
  (6 ≤ count_of by_tally ls)%nat → (8 ≤ count_of by_supply ls)%nat →
  let s := m_shard (w_motor w) in
  tallied (snapshot (w_plan w')) s = false ∧
  (closed (w_cache w') = false → Z.of_nat (length (items (part_of s (w_cache w')))) ≤ offered (part_of s (w_cache w'))).
Proof.
  intros Hre Hi Hl Hr Hs Ht Hu. simpl.
  pose proof (loop_runs_Inv _ _ _ (reachable_Inv _ Hre) Hr) as HI.
  destruct (idle_run _ _ _ Hr Hs Hi Hl) as (_ & Hl' & Ht' & Hu'). destruct (left_bounds w).
  destruct (withdrawn_when_done w' HI Hl') as [Hto Hso]; [lia..|].
  destruct HI as [(HT & _) (HS & _)]. destruct (HT Hto) as [_ Hp], (HS Hso) as [_ Hc].
  rewrite (runs_shard _ _ _ Hr) in Hp, Hc. split.
  - apply not_true_is_false. rewrite tallied_spec. rewrite Hp. by intros [? ?].
  - intros Hcl. unfold part_of. destruct (parts _ !! _) eqn:E; simpl; [|lia]. by eapply Hc.
Qed.

(** ** The steps of a cycle are the pipeline's cycle *)

Definition exec (ls : list label) (w : world) : world := fold_left (λ w l, act l w) ls w.

Lemma exec_snoc ls l w : exec (ls ++ [l]) w = act l (exec ls w).
Proof. unfold exec. by rewrite fold_left_app. Qed.

Lemma runs_exec w ls w' : runs w ls w' → w' = exec ls w.
Proof. induction 1 as [|ls w' l Hr -> Hf]; [done|]. by rewrite exec_snoc. Qed.

Lemma exec_runs ls w : Forall (foreign (m_shard (w_motor w))) ls → runs w ls (exec ls w).
Proof.
  induction ls as [|l ls IH] using rev_ind; [constructor|].
  intros [Hls [Hl _]%Forall_cons]%Forall_app. specialize (IH Hls). rewrite exec_snoc. constructor; [done|].
  by rewrite (runs_shard _ _ _ IH).
Qed.

(** The supplier left alone from the plan on: at most three steps, the planner, the cache and the
    error of [Supplier.Cycle], and the count of a turn exactly when there is no error. *)
Theorem supply_steps_are_the_cycle i w :
  w_supply w = SPlan →
  let s := m_shard (w_motor w) in
  let '(r, p, c) := Supplier_Cycle pow (si_rnd i) (λ _ _ _ _, si_steps i) s false (w_plan w) (w_cache w) in
  ∃ n, (n ≤ 3)%nat ∧
    let w' := Nat.iter n (supply_step i) w in
    w_plan w' = p ∧ w_cache w' = c ∧ w_supply w' = match sr_Err r with None => STurn | Some _ => SHead end ∧
    m_supplier (w_motor w') = pacer_end (si_now i) (m_supplier (w_motor w)).
Proof.
  intros Hpc. simpl. unfold Supplier_run.
  destruct (Planner_Plan _ _ _ _ _) as [pl q] eqn:Hp.
  destruct (Tallied pl) eqn:Ht; simpl.
  2: { exists 1%nat. split; [lia|]. simpl. unfold supply_step. rewrite Hpc, Hp, Ht. done. }
  case_bool_decide as Hsl.
  - unfold push. destruct (Refill _ _ _ _) as [[d k] c] eqn:Hr. simpl.
    exists 2%nat. split; [lia|]. simpl. unfold supply_step. rewrite Hpc, Hp, Ht. simpl.
    rewrite bool_decide_eq_true_2 by done. simpl. by rewrite Hr.
  - destruct (si_steps i) as [steps|] eqn:Hst.
    + unfold push. destruct (Refill _ _ _ _) as [[d k] c] eqn:Hr. simpl.
      exists 3%nat. split; [lia|]. simpl. unfold supply_step. rewrite Hpc, Hp, Ht. simpl.
      rewrite bool_decide_eq_false_2 by done. simpl. rewrite Hst. simpl. by rewrite Hr.
    + exists 2%nat. split; [lia|]. simpl. unfold supply_step. rewrite Hpc, Hp, Ht. simpl.
      rewrite bool_decide_eq_false_2 by done. simpl. by rewrite Hst.
Qed.

(** ** What the counts of turns say *)

(** The turns one step completes, of the tally loop and of the supply loop. *)
Definition made (l : label) (w : world) : Z * Z :=
  match l with
  | LTally _ => (match w_tally w with TTurn => 1 | _ => 0 end, 0)
  | LSupply _ => (0, match w_supply w with STurn => 1 | _ => 0 end)
  | _ => (0, 0)
  end.

Fixpoint completed (ls : list label) (w : world) : Z * Z :=
  match ls with
  | [] => (0, 0)
  | l :: ls => let n := completed ls (act l w) in ((made l w).1 + n.1, (made l w).2 + n.2)
  end.

Lemma completed_snoc ls l w :
  completed (ls ++ [l]) w = ((completed ls w).1 + (made l (exec ls w)).1, (completed ls w).2 + (made l (exec ls w)).2).
Proof.
  revert w. induction ls as [|l' ls IH]; intros w; simpl.
  - f_equal; lia.
  - rewrite IH. simpl. f_equal; lia.
Qed.

Lemma made_bound l w : 0 ≤ (made l w).1 ≤ 1 ∧ 0 ≤ (made l w).2 ≤ 1.
Proof. destruct l; simpl; repeat case_match; simpl; lia. Qed.

Lemma completed_pos ls w : 0 ≤ (completed ls w).1 ∧ 0 ≤ (completed ls w).2.
Proof.
  revert w. induction ls as [|l ls IH]; intros w; simpl; [lia|]. pose proof (made_bound l w). specialize (IH (act l w)). lia.
Qed.

Lemma u64_small x : 0 ≤ x < 2 ^ 64 → u64 x = x.
Proof. intros ?. unfold u64. by apply Z.mod_small. Qed.

Lemma act_turns l w :
  0 ≤ tallyTurns (w_motor w) → 0 ≤ supplyTurns (w_motor w) →
  tallyTurns (w_motor w) + (made l w).1 < 2 ^ 64 → supplyTurns (w_motor w) + (made l w).2 < 2 ^ 64 →
  tallyTurns (w_motor (act l w)) = tallyTurns (w_motor w) + (made l w).1 ∧
  supplyTurns (w_motor (act l w)) = supplyTurns (w_motor w) + (made l w).2.
Proof.
  intros H1 H2 H3 H4. destruct l as [i|i|b| | |d g|d g|n| |o|o]; simpl in *; try lia.
  - unfold tally_step. destruct (w_tally w) eqn:Hpc; try destruct (w_live w); try destruct (m_idle _);
      try destruct (Tallier_Cycle _ _ _ _); simpl in *; rewrite ?u64_small by lia; lia.
  - unfold supply_step. destruct (w_supply w) eqn:Hpc; try destruct (w_live w); try destruct (m_idle _);
      try (destruct (Planner_Plan _ _ _ _ _) as [pl q]; destruct (Tallied pl); [destruct (bool_decide _)|]);
      try destruct (si_steps i); simpl in *; rewrite ?u64_small by lia; lia.
Qed.

Lemma runs_turns w ls w' :
  runs w ls w' → 0 ≤ tallyTurns (w_motor w) → 0 ≤ supplyTurns (w_motor w) →
  tallyTurns (w_motor w) + (completed ls w).1 < 2 ^ 64 → supplyTurns (w_motor w) + (completed ls w).2 < 2 ^ 64 →
  tallyTurns (w_motor w') = tallyTurns (w_motor w) + (completed ls w).1 ∧
  supplyTurns (w_motor w') = supplyTurns (w_motor w) + (completed ls w).2.
Proof.
  intros Hr Ht Hs. induction Hr as [|ls w' l Hr IH Hf]; [simpl; lia|].
  rewrite completed_snoc. simpl. rewrite <- (runs_exec _ _ _ Hr).
  pose proof (made_bound l w'). pose proof (completed_pos ls w). intros H1 H2.
  destruct IH as [I1 I2]; [lia..|]. destruct (act_turns l w') as [A1 A2]; lia.
Qed.

Lemma min_moves t s a b :
  0 ≤ a → 0 ≤ b → (Z.min (t + a) (s + b) ≠ Z.min t s ↔ (t ≤ s → 0 < a) ∧ (s ≤ t → 0 < b)).
Proof. lia. Qed.

(** What a piston's peers are told.  Its owner reads [Liveness] and publishes that the piston
    dispatches when the count moved since the last publication, or when a loop has been in its work
    for longer than its own period; never while it idles.  Exactly: the count has moved iff the loop
    that is behind has completed a cycle, or both have when they are level.  A piston that completes
    a round trip between two readings is therefore never read as stalled; a loop that is ahead may
    fail every one of its cycles meanwhile without any effect on the reading. *)
Theorem evidence_follows_the_slower_loop w ls w' now s :
  let m := w_motor w in let m' := w_motor w' in
  let '(a, b) := completed ls w in
  runs w ls w' → 0 ≤ tallyTurns m → 0 ≤ supplyTurns m →
  tallyTurns m + a < 2 ^ 64 → supplyTurns m + b < 2 ^ 64 →
  lastTurns s = (Liveness now m).1.1 →
  (dispatchEvidence (Some (Liveness now m')) s).2 = true ↔
  m_idle m' = false ∧
  ((Liveness now m').1.2 = true ∨ ((tallyTurns m ≤ supplyTurns m → 0 < a) ∧ (supplyTurns m ≤ tallyTurns m → 0 < b))).
Proof.
  destruct (completed ls w) as [a b] eqn:Hc. simpl. intros Hr Ht Hs H1 H2 Hlast.
  destruct (runs_turns _ _ _ Hr Ht Hs) as [-> ->]; [rewrite Hc; simpl; lia..|]. rewrite Hc. simpl.
  pose proof (completed_pos ls w) as Hpos. rewrite Hc in Hpos. simpl in Hpos.
  rewrite <- (min_moves _ _ a b) by lia. rewrite Hlast.
  rewrite andb_true_iff, negb_true_iff, orb_true_iff, bool_decide_eq_true. tauto.
Qed.
End loops.

(** ** A piston whose fetches fail *)

Definition pow1 : float64 → float64 → float64 := λ _ _, f1.
Definition demo_motor (t s : Z) : motor := mkMotor 1 false defaultStealAfter built_pacer built_pacer t s.
Definition shared_cache : Cache := Init 2 (mkCache ∅ 0 0 false).
Definition no_reports : Planner := Reset (mkPlanner ∅ 0 0).

(** The readings of the clock and the random numbers do not matter here; every scan finds a due
    key and every fetch fails. *)
Definition scan_ok : label := LTally (mkTallyIn 0 (Some (7, [mkTally "k" f1 f0 3]))).
Definition fetch_fails : label := LSupply (mkSupplyIn 0 (λ _, f0) None).

Definition supply_round : list label := replicate 5 fetch_fails.
Definition full_round : list label := replicate 5 scan_ok ++ replicate 5 fetch_fails.

(** Before the first scan has returned, the supply loop turns on an untallied shard. *)
Definition paced : pacer := pacer_end 0 (pacer_begin 0 built_pacer).
Definition waiting_world (s : Z) : world :=
  mkWorld (set_pacers built_pacer paced (demo_motor 0 s)) (mkPlanner ∅ (-1) 0) shared_cache true THead true SHead false.
(** Afterwards the shard is tallied and its partition stays as it was. *)
Definition broken_world (t s : Z) : world :=
  mkWorld (set_pacers paced paced (demo_motor t s))
    (mkPlanner (shards (Planner_Tally 1 7 [mkTally "k" f1 f0 3] no_reports)) 7 1) shared_cache true THead false SHead false.

Lemma rounds_foreign s r k : Forall (foreign s) r → Forall (foreign s) (mjoin (replicate k r)).
Proof.
  intros Hr. induction k as [|k IH]; [constructor|].
  change (mjoin (replicate (S k) r)) with (r ++ mjoin (replicate k r)). by apply Forall_app.
Qed.

Lemma exec_app ls ls' w : exec pow1 (ls ++ ls') w = exec pow1 ls' (exec pow1 ls w).
Proof. apply fold_left_app. Qed.

Lemma start_waits : exec pow1 supply_round (Run (demo_motor 0 0) no_reports shared_cache) = waiting_world 1.
Proof. by vm_compute. Qed.

Lemma supply_round_waits s : exec pow1 supply_round (waiting_world s) = waiting_world (u64 (s + 1)).
Proof.
  change supply_round with (replicate 4 fetch_fails ++ [fetch_fails]). rewrite exec_app.
  replace (exec pow1 (replicate 4 fetch_fails) (waiting_world s)) with (supply_to STurn false (waiting_world s))
    by (by vm_compute).
  reflexivity.
Qed.

Lemma first_full_round s : exec pow1 full_round (waiting_world s) = broken_world 1 s.
Proof. by vm_compute. Qed.

Lemma full_round_breaks t s : exec pow1 full_round (broken_world t s) = broken_world (u64 (t + 1)) s.
Proof.
  change full_round with (replicate 4 scan_ok ++ [scan_ok] ++ replicate 5 fetch_fails). rewrite !exec_app.
  replace (exec pow1 (replicate 4 scan_ok) (broken_world t s)) with (tally_to TTurn false (broken_world t s))
    by (by vm_compute).
  change (exec pow1 [scan_ok] (tally_to TTurn false (broken_world t s))) with (broken_world (u64 (t + 1)) s).
  generalize (u64 (t + 1)). intros t'. by vm_compute.
Qed.

Lemma waiting_rounds k s :
  0 ≤ s → s + Z.of_nat k < 2 ^ 64 → exec pow1 (mjoin (replicate k supply_round)) (waiting_world s) = waiting_world (s + Z.of_nat k).
Proof.
  revert s. induction k as [|k IH]; intros s H1 H2; [by rewrite Z.add_0_r|].
  change (mjoin (replicate (S k) supply_round)) with (supply_round ++ mjoin (replicate k supply_round)).
  rewrite exec_app, supply_round_waits, u64_small, IH by lia. f_equal. lia.
Qed.

Lemma broken_rounds k t s :
  0 ≤ t → t + Z.of_nat k < 2 ^ 64 → exec pow1 (mjoin (replicate k full_round)) (broken_world t s) = broken_world (t + Z.of_nat k) s.
Proof.
  revert t. induction k as [|k IH]; intros t H1 H2; [by rewrite Z.add_0_r|].
  change (mjoin (replicate (S k) full_round)) with (full_round ++ mjoin (replicate k full_round)).
  rewrite exec_app, full_round_breaks, u64_small, IH by lia. f_equal. lia.
Qed.

Lemma broken_reachable k : Z.of_nat k + 1 < 2 ^ 64 → reachable pow1 (broken_world 1 (Z.of_nat k + 1)).
Proof.
  intros Hk. exists (demo_motor 0 0), no_reports, shared_cache, (supply_round ++ mjoin (replicate k supply_round) ++ full_round).
  split; [done|].
  replace (broken_world 1 (Z.of_nat k + 1)) with
    (exec pow1 (supply_round ++ mjoin (replicate k supply_round) ++ full_round) (Run (demo_motor 0 0) no_reports shared_cache)).
  - apply exec_runs. rewrite !Forall_app. split_and!; [repeat constructor|apply rounds_foreign; repeat constructor|repeat constructor].
  - rewrite !exec_app, start_waits, waiting_rounds, first_full_round by lia. f_equal. lia.
Qed.

(** [Liveness] is documented to stall when either loop does.  It does not while the loop that fails is
    ahead: for every [k] there is a reachable piston, neither idle nor stuck in a query, whose every
    fetch fails from there on, so that no cycle of its supply loop completes and its partition never
    changes, and which its owner nevertheless reads as dispatching in each of the next [k] rounds;
    only in the round after those is it read as stalled. *)
Theorem failing_fetch_reads_dispatching (k : nat) :
  Z.of_nat k + 2 < 2 ^ 64 →
  ∃ w, reachable pow1 w ∧ m_idle (w_motor w) = false ∧
    ∀ j, (j ≤ k)%nat → ∃ w1 w2,
      runs pow1 w (mjoin (replicate j full_round)) w1 ∧ runs pow1 w1 full_round w2 ∧
      completed pow1 full_round w1 = (1, 0) ∧ w_cache w2 = w_cache w1 ∧
      ∀ s, lastTurns s = (Liveness 0 (w_motor w1)).1.1 →
        (dispatchEvidence (Some (Liveness 0 (w_motor w2))) s).2 = bool_decide (j < k)%nat.
Proof.
  intros Hk. exists (broken_world 1 (Z.of_nat k + 1)). split; [apply broken_reachable; lia|]. split; [done|].
  intros j Hj. exists (broken_world (1 + Z.of_nat j) (Z.of_nat k + 1)), (broken_world (1 + Z.of_nat j + 1) (Z.of_nat k + 1)).
  split_and!; [| |by vm_compute|done|].
  - rewrite <- broken_rounds by lia. apply exec_runs, rounds_foreign. repeat constructor.
  - rewrite <- (u64_small (1 + Z.of_nat j + 1)) by lia. rewrite <- full_round_breaks. apply exec_runs. repeat constructor.
  - intros s Hs. unfold dispatchEvidence. simpl in *. rewrite Hs, orb_false_r.
    apply bool_decide_ext. lia.
Qed.

Lemma failing_fetch_reads_dispatching_witness :
  ∃ w, reachable pow1 w ∧ m_idle (w_motor w) = false ∧
    ∀ j, (j ≤ 1000)%nat → ∃ w1 w2,
      runs pow1 w (mjoin (replicate j full_round)) w1 ∧ runs pow1 w1 full_round w2 ∧
      completed pow1 full_round w1 = (1, 0) ∧ w_cache w2 = w_cache w1 ∧
      ∀ s, lastTurns s = (Liveness 0 (w_motor w1)).1.1 →
        (dispatchEvidence (Some (Liveness 0 (w_motor w2))) s).2 = bool_decide (j < 1000)%nat.
Proof. apply (failing_fetch_reads_dispatching 1000). lia. Defined.

(** A scan in flight when the piston goes idle: its report comes after [SetIdle] has withdrawn. *)
Definition mid_scan : list label := replicate 3 scan_ok ++ [LStore true; LClear; LEmpty].
Definition winding_down : list label := replicate 6 scan_ok ++ replicate 8 fetch_fails.
Definition mid_world : world := exec pow1 mid_scan (Run (demo_motor 0 0) no_reports shared_cache).

Lemma idle_leaves_nothing_claimed_witness :
  tallied (snapshot (w_plan (exec pow1 [scan_ok] mid_world))) 1 = true ∧
  tallied (snapshot (w_plan (exec pow1 winding_down mid_world))) 1 = false.
Proof.
  split; [by vm_compute|].
  refine (proj1 (idle_leaves_nothing_claimed pow1 mid_world winding_down _ _ _ _ _ _ _ _)).
  - exists (demo_motor 0 0), no_reports, shared_cache, mid_scan. split; [done|]. apply exec_runs. repeat constructor.
  - done.
  - done.
  - apply exec_runs. repeat constructor.
  - repeat constructor.
  - vm_compute. lia.
  - vm_compute. lia.
Defined.

Lemma evidence_follows_the_slower_loop_witness :
  completed pow1 full_round (broken_world 0 2) = (1, 0) ∧
  (dispatchEvidence (Some (Liveness 0 (w_motor (broken_world 1 2)))) demo_sonar).2 = true.
Proof.
  split; [by vm_compute|].
  refine (proj2 (evidence_follows_the_slower_loop pow1 (broken_world 0 2) full_round (broken_world 1 2) 0 demo_sonar
    _ _ _ _ _ _) _).
  - change (broken_world 1 2) with (broken_world (u64 (0 + 1)) 2). rewrite <- full_round_breaks.
    apply exec_runs. repeat constructor.
  - done.
  - done.
  - by vm_compute.
  - by vm_compute.
  - by vm_compute.
  - split; [done|]. right. vm_compute. split; [done|]. intros H. by destruct H.
Defined.
