(* ===== verification/Keys.v ===== *)
(** * Flow and step keys ([internal/keys])

    A key is [{shard}-{id}-{token}]: its constructor, the two parsers (one format, so one definition
    up to the error they answer), the token-free correlation id, and what [strconv] and [strings]
    contribute.  [RandomIdentifier] only draws random bytes and is left out. *)

From Stdlib Require Import Ascii.
From S2P Require Import Prelude.

#[local] Open Scope Z_scope.

(** ** [strconv.Itoa] and [strconv.ParseInt(s, 10, 64)] *)

Definition digit (d : Z) : ascii := ascii_of_nat (Z.to_nat (48 + d)).

Fixpoint itoa_digits (fuel : nat) (n : Z) (acc : string) : string :=
  match fuel with
  | O => acc
  | S fuel =>
      let acc := String (digit (n mod 10)) acc in
      if bool_decide (n / 10 = 0) then acc else itoa_digits fuel (n / 10) acc
  end.

(** An [int] has at most nineteen digits. *)
Definition Itoa (z : Z) : string :=
  if bool_decide (z < 0) then String "-" (itoa_digits 20 (- z) "") else itoa_digits 20 z "".

Definition digit_value (c : ascii) : option Z :=
  let v := Z.of_nat (nat_of_ascii c) - 48 in
  if bool_decide (0 ≤ v ≤ 9) then Some v else None.

(** The value of a string of digits, after [acc]. *)
Fixpoint parse_digits (s : string) (acc : Z) : option Z :=
  match s with
  | EmptyString => Some acc
  | String c s => v ← digit_value c; parse_digits s (acc * 10 + v)
  end.

Definition parse_uint (s : string) : option Z :=
  match s with EmptyString => None | _ => parse_digits s 0 end.

(** A sign, digits, and the 64-bit range; [None] is any of its errors. *)
Definition ParseInt (s : string) : option Z :=
  match s with
  | EmptyString => None
  | String c rest =>
      let '(neg, body) :=
        if bool_decide (c = "+"%char) then (false, rest)
        else if bool_decide (c = "-"%char) then (true, rest) else (false, s) in
      un ← parse_uint body;
      if negb neg && bool_decide (2 ^ 63 ≤ un) then None
      else if neg && bool_decide (2 ^ 63 < un) then None
      else Some (if (neg : bool) then - un else un)
  end.

(** [strings.Cut(s, "-")] *)
Fixpoint cut (s : string) : option (string * string) :=
  match s with
  | EmptyString => None
  | String c s =>
      if bool_decide (c = "-"%char) then Some ("", s)
      else match cut s with Some (a, b) => Some (String c a, b) | None => None end
  end.

(** [strings.SplitN(s, "-", 3)] when it has three parts. *)
Definition SplitN3 (s : string) : option (string * string * string) :=
  match cut s with
  | None => None
  | Some (a, s) => match cut s with None => None | Some (b, c) => Some (a, b, c) end
  end.

(** ** The keys *)

Definition New (shardNum id : Z) (token : string) : string := Itoa shardNum +:+ "-" +:+ Itoa id +:+ "-" +:+ token.

Inductive key_error := ErrFlowKey | ErrStepKey.

Definition parse_key (e : key_error) (key : string) : result key_error (Z * Z * string) :=
  match SplitN3 key with
  | None => Err e
  | Some (p0, p1, p2) =>
      match ParseInt p0 with
      | None => Err e
      | Some shard =>
          check (bool_decide (shard < 1)) e $
          match ParseInt p1 with None => Err e | Some id => Ok (shard, id, p2) end
      end
  end.

Definition ParseFlowKey : string → result key_error (Z * Z * string) := parse_key ErrFlowKey.
Definition ParseStepKey : string → result key_error (Z * Z * string) := parse_key ErrStepKey.

Definition CorrelationID (shardNum flowID : Z) : string := Itoa shardNum +:+ "-" +:+ Itoa flowID.

(** ** Lemmas *)

Lemma digit_value_digit d : 0 ≤ d ≤ 9 → digit_value (digit d) = Some d.
Proof.
  intros Hd. unfold digit_value, digit. rewrite nat_ascii_embedding by lia.
  rewrite bool_decide_eq_true_2; [f_equal|]; lia.
Qed.

Lemma digit_not d c : 0 ≤ d ≤ 9 → digit_value c = None → digit d ≠ c.
Proof. intros Hd Hc <-. by rewrite digit_value_digit in Hc. Qed.

Fixpoint all_digits (s : string) : Prop :=
  match s with EmptyString => True | String c s => is_Some (digit_value c) ∧ all_digits s end.

Lemma itoa_digits_all fuel n acc : 0 ≤ n → all_digits acc → all_digits (itoa_digits fuel n acc).
Proof.
  revert n acc. induction fuel as [|fuel IH]; intros n acc Hn Hacc; [done|]. simpl.
  assert (all_digits (String (digit (n mod 10)) acc)).
  { split; [|done]. rewrite digit_value_digit by (pose proof (Z.mod_pos_bound n 10); lia). by eexists. }
  case_bool_decide; [done|]. apply IH; [|done]. apply Z.div_pos; lia.
Qed.

Lemma itoa_digits_cons fuel n acc : ∃ c s, itoa_digits (S fuel) n acc = String c s.
Proof.
  revert n acc. induction fuel as [|fuel IH]; intros n acc; [by simpl; case_bool_decide; eexists _, _|].
  change (itoa_digits (S (S fuel)) n acc) with
    (let acc := String (digit (n mod 10)) acc in if bool_decide (n / 10 = 0) then acc else itoa_digits (S fuel) (n / 10) acc).
  cbv zeta. case_bool_decide; [by eexists _, _|]. apply IH.
Qed.

(** The digits of [n] in front of [acc] read back as [n] and then [acc]. *)
Lemma parse_itoa fuel n acc a :
  0 ≤ n < 10 ^ Z.of_nat fuel → (0 < fuel)%nat →
  ∃ k, 0 < k ∧ parse_digits (itoa_digits fuel n acc) a = parse_digits acc (a * k + n).
Proof.
  revert n acc a. induction fuel as [|fuel IH]; intros n acc a Hn Hf; [lia|]. simpl.
  pose proof (Z.mod_pos_bound n 10) as Hm. pose proof (Z.div_mod n 10) as Hdm.
  case_bool_decide as Hz.
  - exists 10. split; [lia|]. simpl. rewrite digit_value_digit by lia. simpl. f_equal. lia.
  - assert (0 < fuel)%nat as Hf'.
    { destruct fuel; [|lia]. exfalso. apply Hz, Z.div_small. simpl in Hn. lia. }
    assert (0 ≤ n / 10 < 10 ^ Z.of_nat fuel) as Hq.
    { split; [apply Z.div_pos; lia|]. apply Z.div_lt_upper_bound; [lia|].
      rewrite Nat2Z.inj_succ, Z.pow_succ_r in Hn by lia. lia. }
    destruct (IH (n / 10) (String (digit (n mod 10)) acc) a Hq Hf') as (k & Hk & ->).
    exists (k * 10). split; [lia|]. simpl. rewrite digit_value_digit by lia. simpl. f_equal. lia.
Qed.

Lemma parse_uint_itoa n : 0 ≤ n < 2 ^ 63 → parse_uint (itoa_digits 20 n "") = Some n.
Proof.
  intros Hn. destruct (itoa_digits_cons 19 n "") as (c & s & He).
  destruct (parse_itoa 20 n "" 0) as (k & _ & Hp); [simpl; lia|lia|].
  unfold parse_uint. rewrite He in *. rewrite Hp. done.
Qed.

Lemma ParseInt_Itoa z : 0 ≤ z < 2 ^ 63 → ParseInt (Itoa z) = Some z.
Proof.
  intros Hz. unfold Itoa. rewrite bool_decide_eq_false_2 by lia. pose proof (parse_uint_itoa z Hz) as Hp.
  pose proof (itoa_digits_all 20 z "" ltac:(lia) I) as Hall. destruct (itoa_digits_cons 19 z "") as (c & s & He).
  rewrite He in *. simpl in Hall. destruct Hall as [[v Hv] _]. unfold ParseInt.
  rewrite (bool_decide_eq_false_2 (c = "+"%char)), (bool_decide_eq_false_2 (c = "-"%char)) by (intros ->; done).
  rewrite Hp. simpl. rewrite bool_decide_eq_false_2 by lia. done.
Qed.

Lemma cut_app s t : all_digits s → cut (s +:+ "-" +:+ t) = Some (s, t).
Proof.
  induction s as [|c s IH]; intros Hs; [done|]. destruct Hs as [[v Hv] Hs]. simpl.
  rewrite bool_decide_eq_false_2 by (intros ->; done). specialize (IH Hs). simpl in IH. by rewrite IH.
Qed.

Lemma cut_digits s : all_digits s → cut s = None.
Proof.
  induction s as [|c s IH]; intros Hs; [done|]. destruct Hs as [[v Hv] Hs]. simpl.
  rewrite bool_decide_eq_false_2 by (intros ->; done). by rewrite IH.
Qed.

Lemma Itoa_digits z : 0 ≤ z → all_digits (Itoa z).
Proof. intros Hz. unfold Itoa. rewrite bool_decide_eq_false_2 by lia. by apply itoa_digits_all. Qed.

Lemma Itoa_neg z : z < 0 → ∃ s, Itoa z = String "-" s ∧ all_digits s.
Proof. intros Hz. unfold Itoa. rewrite bool_decide_eq_true_2 by lia. eexists. split; [done|]. apply itoa_digits_all; [lia|done]. Qed.

Lemma parse_digits_nonneg s a v : 0 ≤ a → parse_digits s a = Some v → 0 ≤ v.
Proof.
  revert a. induction s as [|c s IH]; intros a Ha; simpl; [by intros [= <-]|].
  destruct (digit_value c) as [d|] eqn:Hd; simpl; [|done]. apply IH.
  unfold digit_value in Hd. case_bool_decide; simplify_eq. lia.
Qed.

Lemma parse_New e shard id token :
  1 ≤ shard < 2 ^ 63 → 0 ≤ id < 2 ^ 63 → parse_key e (New shard id token) = Ok (shard, id, token).
Proof.
  intros Hs Hid. unfold parse_key, SplitN3, New. rewrite cut_app by (apply Itoa_digits; lia).
  rewrite cut_app by (apply Itoa_digits; lia). rewrite !ParseInt_Itoa by lia.
  rewrite bool_decide_eq_false_2 by lia. done.
Qed.

(** No dash inside a part: the cut of a parsed key leaves none before the token. *)
Lemma cut_no_dash s a b : cut s = Some (a, b) → cut a = None.
Proof.
  revert a. induction s as [|c s IH]; intros a; simpl; [done|]. case_bool_decide as Hc; [by intros [= <- <-]|].
  destruct (cut s) as [[x y]|]; [|done]. intros [= <- <-]. simpl. rewrite bool_decide_eq_false_2 by done.
  by rewrite (IH x eq_refl).
Qed.

Lemma ParseInt_no_dash s v : cut s = None → ParseInt s = Some v → 0 ≤ v < 2 ^ 63.
Proof.
  destruct s as [|c s]; [done|]. intros Hcut.
  assert (c ≠ "-"%char) as Hc by (simpl in Hcut; by case_bool_decide).
  unfold ParseInt. rewrite (bool_decide_eq_false_2 (c = "-"%char)) by done.
  assert (∀ body un, parse_uint body = Some un → 0 ≤ un) as Hnn.
  { intros [|c' s'] un; [done|]. apply parse_digits_nonneg. lia. }
  destruct (bool_decide (c = "+"%char)); (destruct (parse_uint _) as [un|] eqn:Hp; [|done]);
    cbn [mbind option_bind negb andb]; apply Hnn in Hp; case_bool_decide; (done || (intros [= <-]; lia)).
Qed.

(** ** Property *)

(** A key parses back to the parts it was built from, and only keys parse.  For shards from 1 and
    row ids from 0, both parsers return exactly the shard, the id and the token, whatever the token
    holds; so two keys are equal only if their parts are.  What they accept is always in that range, and
    the correlation id of any pair is refused.  The converse does not hold: a key may also be spelled
    with a sign or leading zeros, and then it is not the key built from its own parts. *)
Theorem keys_round_trip :
  (∀ shard id token, 1 ≤ shard < 2 ^ 63 → 0 ≤ id < 2 ^ 63 →
     ParseFlowKey (New shard id token) = Ok (shard, id, token) ∧
     ParseStepKey (New shard id token) = Ok (shard, id, token)) ∧
  (∀ key shard id token, ParseFlowKey key = Ok (shard, id, token) → 1 ≤ shard < 2 ^ 63 ∧ 0 ≤ id < 2 ^ 63) ∧
  (∀ shard id, ParseFlowKey (CorrelationID shard id) = Err ErrFlowKey ∧
               ParseStepKey (CorrelationID shard id) = Err ErrStepKey) ∧
  ParseFlowKey "+1-05-t" = Ok (1, 5, "t") ∧ New 1 5 "t" = "1-5-t".
Proof.
  split_and!.
  - intros shard id token Hs Hid. split; by apply parse_New.
  - intros key shard id token. unfold ParseFlowKey, parse_key, SplitN3.
    destruct (cut key) as [[a s]|] eqn:Ha; [|done]. destruct (cut s) as [[b c]|] eqn:Hb; [|done].
    destruct (ParseInt a) as [v|] eqn:Hva; [|done]. intros [Hv Hr]%check_Ok.
    destruct (ParseInt b) as [w|] eqn:Hvb; [|done]. simplify_eq. apply bool_decide_eq_false in Hv.
    pose proof (ParseInt_no_dash _ _ (cut_no_dash _ _ _ Ha) Hva). pose proof (ParseInt_no_dash _ _ (cut_no_dash _ _ _ Hb) Hvb). lia.
  - assert (∀ e shard id, parse_key e (CorrelationID shard id) = Err e) as H; [|intros; split; apply H].
    intros e shard id. unfold parse_key, SplitN3, CorrelationID.
    destruct (decide (shard < 0)) as [Hs|Hs].
    + destruct (Itoa_neg shard Hs) as (t & -> & _). simpl. by destruct (cut (t +:+ _)) as [[? ?]|].
    + rewrite cut_app by (apply Itoa_digits; lia). destruct (decide (id < 0)) as [Hid|Hid].
      * destruct (Itoa_neg id Hid) as (t & -> & _). simpl. destruct (ParseInt _); [|done].
        unfold check. by case_bool_decide.
      * by rewrite cut_digits by (apply Itoa_digits; lia).
  - reflexivity.
  - reflexivity.
Qed.
