(* ===== verification/Latch.v ===== *)
(** * The latch board ([internal/latch])

    Callers parked on keys and the ways they wake.  Everything the code does under [b.lock] is one
    step; what it does outside the lock - the sends of a release, a caller's select, its unlatching on
    the way out - is a step of its own, so that every interleaving is a sequence of steps.  A channel
    is a one-slot buffer named by a number.  The resolver is a parameter; the park callback and the
    durations of a sweep are left out. *)

From S2P Require Import Prelude.

Inductive wake := WStatus (status : string) | WClosed.

#[export] Instance wake_eq_dec : EqDecision wake.
Proof. solve_decision. Defined.

(** How a call of [Latch] ends. *)
Inductive outcome := Woken (w : wake) | CtxDone.

(** A call of [Latch] that got on the board: blocked in its select, past it and about to unlatch, or
    returned. *)
Inductive caller := Parked (key : string) | Leaving (key : string) (o : outcome) | Gone (key : string) (o : outcome).

#[export] Instance outcome_eq_dec : EqDecision outcome.
Proof. solve_decision. Defined.
#[export] Instance caller_eq_dec : EqDecision caller.
Proof. solve_decision. Defined.

Record Board := mkBoard {
  waiters : gmap string (list nat);
  closed : bool;
  chans : gmap nat (option wake);  (* the buffers *)
  callers : gmap nat caller;       (* the calls, by their channel *)
  sends : list (nat * wake);       (* the sends releases still have to make *)
  next_chan : nat
}.

Definition New : Board := mkBoard ∅ false ∅ ∅ [] 0.

Inductive latch_error := ErrNoKey | ErrClosed.

(** The part of [Latch] before the select; answers the channel. *)
Definition Latch (key : string) (b : Board) : result latch_error (nat * Board) :=
  check (bool_decide (key = "")) ErrNoKey $
  check (closed b) ErrClosed $
  let ch := next_chan b in
  Ok (ch, mkBoard (<[key := default [] (waiters b !! key) ++ [ch]]> (waiters b)) (closed b)
            (<[ch := None]> (chans b)) (<[ch := Parked key]> (callers b)) (sends b) (S ch)).

(** [select { case ch <- w: default: }] *)
Definition try_send (ch : nat) (w : wake) (m : gmap nat (option wake)) : gmap nat (option wake) :=
  match m !! ch with Some None => <[ch := Some w]> m | _ => m end.

(** [Release] up to its unlock: the snapshot it will send to.  The count it reports is its length. *)
Definition Release (key status : string) (b : Board) : nat * Board :=
  let parked := default [] (waiters b !! key) in
  (length parked,
   mkBoard (waiters b) (closed b) (chans b) (callers b) (sends b ++ ((λ ch, (ch, WStatus status)) <$> parked)) (next_chan b)).

Definition Close (b : Board) : Board :=
  if closed b then b else
  let parked := concat (map_to_list (waiters b)).*2 in
  mkBoard (waiters b) true (fold_right (λ ch, try_send ch WClosed) (chans b) parked) (callers b) (sends b) (next_chan b).

Fixpoint index_of (ch : nat) (l : list nat) : option nat :=
  match l with
  | [] => None
  | c :: l => if bool_decide (c = ch) then Some O else S <$> index_of ch l
  end.

(** [parked[i] = parked[len(parked)-1]; parked[:len(parked)-1]] for the first [i] holding the channel. *)
Definition swap_remove (ch : nat) (l : list nat) : list nat :=
  match index_of ch l with
  | None => l
  | Some i => removelast (match last l with Some z => <[i := z]> l | None => l end)
  end.

Definition unlatch (key : string) (ch : nat) (m : gmap string (list nat)) : gmap string (list nat) :=
  match m !! key with
  | None => m
  | Some l => let l := swap_remove ch l in if bool_decide (l = []) then delete key m else <[key := l]> m
  end.

Definition Latched (b : Board) : nat := size (waiters b).
Definition Waiting (key : string) (b : Board) : nat := length (default [] (waiters b !! key)).

(** [slices.Sort] of the latched keys. *)
Definition keys (b : Board) : list string := merge_sort String.le (map_to_list (waiters b)).*1.

(** ** The steps *)

Inductive event :=
| ELatch (key : string) (ch : nat)
| ERelease (key status : string)
| EClose
| ESend (ch : nat) (w : wake)
| EReturn (ch : nat) (o : outcome)
| EUnlatch (ch : nat).

(** The select of a caller: a wake in its buffer is taken, or its context ends first. *)
Definition select_done (ch : nat) (o : outcome) (b : Board) : option Board :=
  match callers b !! ch with
  | Some (Parked key) =>
      let done chans := Some (mkBoard (waiters b) (closed b) chans (<[ch := Leaving key o]> (callers b)) (sends b) (next_chan b)) in
      match o with
      | CtxDone => done (chans b)
      | Woken w => if bool_decide (chans b !! ch = Some (Some w)) then done (<[ch := None]> (chans b)) else None
      end
  | _ => None
  end.

Inductive step : event → Board → Board → Prop :=
| step_latch b b' key ch : Latch key b = Ok (ch, b') → step (ELatch key ch) b b'
| step_release b key status : step (ERelease key status) b (Release key status b).2
| step_close b : step EClose b (Close b)
| step_send b ch w pre post :
    sends b = pre ++ (ch, w) :: post →
    step (ESend ch w) b
      (mkBoard (waiters b) (closed b) (try_send ch w (chans b)) (callers b) (pre ++ post) (next_chan b))
| step_select b b' ch o : select_done ch o b = Some b' → step (EReturn ch o) b b'
| step_unlatch b ch key o :
    callers b !! ch = Some (Leaving key o) →
    step (EUnlatch ch) b
      (mkBoard (unlatch key ch (waiters b)) (closed b) (chans b) (<[ch := Gone key o]> (callers b)) (sends b) (next_chan b)).

Inductive steps : list event → Board → Board → Prop :=
| steps_nil b : steps [] b b
| steps_snoc tr e b b' b'' : steps tr b b' → step e b' b'' → steps (tr ++ [e]) b b''.

Definition reachable (tr : list event) (b : Board) : Prop := steps tr New b.

(** [Sweep]: what it asks, and the releases it makes of the answer, in the order it ranges over it. *)
Definition Sweep (resolve : list string → gmap string string) (b : Board) : list event :=
  let ks := keys b in
  if bool_decide (ks = []) then [] else (λ '(k, st), ERelease k st) <$> map_to_list (resolve ks).

(** ** Lemmas on the operations *)

Lemma try_send_lookup ch w m ch' :
  try_send ch w m !! ch' = if decide (ch = ch' ∧ m !! ch' = Some None) then Some (Some w) else m !! ch'.
Proof.
  unfold try_send. destruct (decide (ch = ch')) as [<-|Hne].
  - destruct (m !! ch) as [[w'|]|] eqn:Hm; case_decide as Hd; try naive_solver. by rewrite lookup_insert_eq.
  - case_decide as Hd; [by destruct Hd|]. destruct (m !! ch) as [[w'|]|]; try done. by rewrite lookup_insert_ne.
Qed.

Lemma try_sends_lookup chs w m ch :
  fold_right (λ c, try_send c w) m chs !! ch
  = if decide (ch ∈ chs ∧ m !! ch = Some None) then Some (Some w) else m !! ch.
Proof.
  induction chs as [|c chs IH]; simpl.
  - done.
  - rewrite try_send_lookup, IH. repeat case_decide; try done; set_solver.
Qed.

Lemma index_of_split ch l :
  match index_of ch l with
  | Some i => ∃ l1 l2, l = l1 ++ ch :: l2 ∧ i = length l1
  | None => ch ∉ l
  end.
Proof.
  induction l as [|c l IH]; simpl; [by intros ?%elem_of_nil|]. case_bool_decide as Hc.
  - subst c. by exists [], l.
  - destruct (index_of ch l) as [i|]; simpl.
    + destruct IH as (l1 & l2 & -> & ->). by exists (c :: l1), l2.
    + set_solver.
Qed.

Lemma removelast_snoc {A} (l : list A) x : removelast (l ++ [x]) = l.
Proof. rewrite removelast_app by done. simpl. by rewrite app_nil_r. Qed.

(** The last waiter fills the hole. *)
Lemma swap_remove_perm ch l : ch ∈ l → l ≡ₚ ch :: swap_remove ch l.
Proof.
  intros Hin. unfold swap_remove. pose proof (index_of_split ch l) as H.
  destruct (index_of ch l) as [i|]; [|done]. destruct H as (l1 & l2 & -> & ->).
  destruct l2 as [|z l2 _] using rev_ind.
  - rewrite last_snoc, insert_app_r_alt, Nat.sub_diag by lia. simpl. rewrite removelast_snoc.
    by rewrite Permutation_app_comm.
  - rewrite app_comm_cons, app_assoc, last_snoc. rewrite <-app_assoc. rewrite insert_app_r_alt, Nat.sub_diag by lia. simpl.
    rewrite (app_comm_cons l2 [z] z), app_assoc, removelast_snoc.
    rewrite <-Permutation_middle. f_equiv. rewrite app_assoc, (Permutation_app_comm (l1 ++ l2)). simpl.
    by rewrite Permutation_middle.
Qed.

Lemma swap_remove_out ch l : ch ∉ l → swap_remove ch l = l.
Proof.
  intros Hout. unfold swap_remove. pose proof (index_of_split ch l) as H.
  destruct (index_of ch l) as [i|]; [|done]. destruct H as (l1 & l2 & -> & _). set_solver.
Qed.

Lemma elem_of_swap_remove ch l c : NoDup l → c ∈ swap_remove ch l ↔ c ∈ l ∧ c ≠ ch.
Proof.
  intros Hnd. destruct (decide (ch ∈ l)) as [Hin|Hout].
  - pose proof (swap_remove_perm ch l Hin) as Hp. rewrite Hp in Hnd. apply NoDup_cons in Hnd as [Hn _].
    assert (c ∈ l ↔ c ∈ ch :: swap_remove ch l) as -> by (by rewrite <-Hp). set_solver.
  - rewrite swap_remove_out by done. set_solver.
Qed.

Lemma NoDup_swap_remove ch l : NoDup l → NoDup (swap_remove ch l).
Proof.
  intros Hnd. destruct (decide (ch ∈ l)) as [Hin|Hout].
  - pose proof (swap_remove_perm ch l Hin) as Hp. rewrite Hp in Hnd. by apply NoDup_cons in Hnd as [_ ?].
  - by rewrite swap_remove_out.
Qed.

Lemma unlatch_lookup key ch m k :
  (∀ l, m !! key = Some l → NoDup l) →
  ∀ c, c ∈ default [] (unlatch key ch m !! k) ↔ c ∈ default [] (m !! k) ∧ ¬ (k = key ∧ c = ch).
Proof.
  intros Hnd c. unfold unlatch. destruct (m !! key) as [l|] eqn:Hl.
  - specialize (Hnd l eq_refl). pose proof (elem_of_swap_remove ch l c Hnd) as Hsw.
    destruct (decide (key = k)) as [<-|Hne].
    + rewrite Hl. simpl. case_bool_decide as He.
      * rewrite lookup_delete_eq. simpl. rewrite He in Hsw. set_solver.
      * rewrite lookup_insert_eq. simpl. rewrite Hsw. naive_solver.
    + case_bool_decide; [rewrite lookup_delete_ne by done|rewrite lookup_insert_ne by done]; naive_solver.
  - split; [|tauto]. intros Hc. split; [done|]. intros [-> ->]. rewrite Hl in Hc. by apply elem_of_nil in Hc.
Qed.

Lemma unlatch_some key ch m k l :
  unlatch key ch m !! k = Some l → (∀ l, m !! k = Some l → l ≠ [] ∧ NoDup l) → l ≠ [] ∧ NoDup l.
Proof.
  unfold unlatch. intros Hl Hm. destruct (m !! key) as [l0|] eqn:Hk; [|by apply Hm].
  case_bool_decide as He.
  - apply lookup_delete_Some in Hl as [_ Hl]. by apply Hm.
  - apply lookup_insert_Some in Hl as [[<- <-]|[_ Hl]]; [|by apply Hm]. split; [done|].
    by apply NoDup_swap_remove, Hm.
Qed.

(** ** The invariant *)

Definition caller_key (c : caller) : string := match c with Parked k | Leaving k _ | Gone k _ => k end.

(** On the board: not yet unlatched. *)
Definition on_board (key : string) (c : caller) : Prop := c = Parked key ∨ ∃ o, c = Leaving key o.

Definition justified (tr : list event) (key : string) (w : wake) : Prop :=
  match w with WStatus s => ERelease key s ∈ tr | WClosed => EClose ∈ tr end.

Definition outcome_ok (tr : list event) (c : caller) : Prop :=
  match c with Leaving k (Woken w) | Gone k (Woken w) => justified tr k w | _ => True end.

Record board_ok (tr : list event) (b : Board) : Prop := {
  bo_lists : ∀ key l, waiters b !! key = Some l → l ≠ [] ∧ NoDup l;
  bo_where : ∀ key ch, ch ∈ default [] (waiters b !! key) ↔ ∃ c, callers b !! ch = Some c ∧ on_board key c;
  bo_fresh : ∀ ch, is_Some (callers b !! ch) → (ch < next_chan b)%nat;
  bo_chans : ∀ ch, is_Some (callers b !! ch) ↔ is_Some (chans b !! ch);
  bo_closed : closed b = true → ∀ ch key, callers b !! ch = Some (Parked key) → ∃ w, chans b !! ch = Some (Some w);
  bo_buffer : ∀ ch c w, callers b !! ch = Some c → chans b !! ch = Some (Some w) → justified tr (caller_key c) w;
  bo_sends : ∀ ch w, (ch, w) ∈ sends b → ∃ c, callers b !! ch = Some c ∧ justified tr (caller_key c) w;
  bo_outcome : ∀ ch c, callers b !! ch = Some c → outcome_ok tr c
}.

Lemma justified_snoc tr e key w : justified tr key w → justified (tr ++ [e]) key w.
Proof. destruct w; simpl; set_solver. Qed.

Lemma outcome_ok_snoc tr e c : outcome_ok tr c → outcome_ok (tr ++ [e]) c.
Proof. destruct c as [|k [w|]|k [w|]]; simpl; try done; apply justified_snoc. Qed.

Lemma New_ok : board_ok [] New.
Proof.
  split; simpl.
  - intros key l. by rewrite lookup_empty.
  - intros key ch. rewrite !lookup_empty. simpl. split; [by intros ?%elem_of_nil|]. by intros (c & ? & _).
  - intros ch [? H]. by rewrite lookup_empty in H.
  - intros ch. rewrite !lookup_empty. split; intros [? ?]; done.
  - done.
  - intros ch c w H. by rewrite lookup_empty in H.
  - intros ch w H. by apply elem_of_nil in H.
  - intros ch c H. by rewrite lookup_empty in H.
Qed.

(** ** Each step keeps it *)

Lemma latch_ok tr b b' key ch : board_ok tr b → Latch key b = Ok (ch, b') → board_ok (tr ++ [ELatch key ch]) b'.
Proof.
  intros [Hl Hw Hf Hc Hcl Hb Hs Ho]. unfold Latch. intros [_ Hr]%check_Ok. apply check_Ok in Hr as [Hopen Hr].
  simplify_eq. set (ch := next_chan b).
  assert (callers b !! ch = None) as Hnew.
  { destruct (callers b !! ch) eqn:He; [|done]. pose proof (Hf ch ltac:(by eexists)). unfold ch in *. lia. }
  assert (∀ k, ch ∉ default [] (waiters b !! k)) as Hout by (intros k (c & Hc' & _)%Hw; congruence).
  split; simpl.
  - intros k l. rewrite lookup_insert_Some. intros [[<- <-]|[_ Hk]]; [|exact (Hl k l Hk)]. split; [by destruct (default _ _)|].
    apply NoDup_app. split_and!; [|set_solver|apply NoDup_singleton].
    destruct (waiters b !! key) eqn:He; simpl; [apply (Hl key _ He)|constructor].
  - intros k c. destruct (decide (c = ch)) as [->|Hne].
    + rewrite lookup_insert_eq. destruct (decide (key = k)) as [<-|Hk].
      * rewrite lookup_insert_eq. simpl. split; [|set_solver]. intros _. eexists. split; [done|by left].
      * rewrite lookup_insert_ne by done. split; [by intros ?%Hout|]. intros (? & [= <-] & [[= ->]|[? ?]]); done.
    + rewrite (lookup_insert_ne (callers b)), <-Hw by done. destruct (decide (key = k)) as [<-|Hk].
      * rewrite lookup_insert_eq. simpl. set_solver.
      * by rewrite lookup_insert_ne.
  - intros c. rewrite lookup_insert_is_Some. intros [<-|[_ Hx%Hf]]; unfold ch; lia.
  - intros c. rewrite !lookup_insert_is_Some. by rewrite Hc.
  - congruence.
  - intros c x w. rewrite !lookup_insert_Some. intros [[<- <-]|[? ?]] [[? ?]|[? ?]]; try done.
    apply justified_snoc. naive_solver.
  - intros c w Hin. destruct (Hs c w Hin) as (x & Hx & Hj). exists x. split; [|by apply justified_snoc].
    rewrite lookup_insert_ne; [done|]. congruence.
  - intros c x. rewrite lookup_insert_Some. intros [[<- <-]|[_ Hx]]; [done|]. by eapply outcome_ok_snoc, Ho.
Qed.

Lemma release_ok tr b key status : board_ok tr b → board_ok (tr ++ [ERelease key status]) (Release key status b).2.
Proof.
  intros [Hl Hw Hf Hc Hcl Hb Hs Ho]. split; simpl; try done.
  - intros ch c w Hch Hbuf. by eapply justified_snoc, Hb.
  - intros ch w [Hin|Hin]%elem_of_app.
    + destruct (Hs ch w Hin) as (x & Hx & Hj). exists x. split; [done|by apply justified_snoc].
    + apply list_elem_of_fmap in Hin as (? & [= -> ->] & (c & Hx & Hon)%Hw). exists c. split; [done|].
      simpl. destruct Hon as [->|[? ->]]; simpl; set_solver.
  - intros ch c Hx. by eapply outcome_ok_snoc, Ho.
Qed.

Lemma elem_of_parked b ch tr :
  board_ok tr b → ch ∈ concat (map_to_list (waiters b)).*2 ↔ ∃ key c, callers b !! ch = Some c ∧ on_board key c.
Proof.
  intros [_ Hw _ _ _ _ _ _]. rewrite list_elem_of_In, in_concat. split.
  - intros (l & Hl & Hch). apply list_elem_of_In, list_elem_of_fmap in Hl as ([k l'] & -> & Hk%elem_of_map_to_list).
    exists k. apply Hw. rewrite Hk. by apply list_elem_of_In.
  - intros (key & Hc). apply Hw in Hc. destruct (waiters b !! key) as [l|] eqn:Hk; [|by apply elem_of_nil in Hc].
    exists l. split; [|by apply list_elem_of_In]. apply list_elem_of_In, list_elem_of_fmap. exists (key, l).
    split; [done|by apply elem_of_map_to_list].
Qed.

Lemma close_lookup tr b ch c :
  board_ok tr b → closed b = false → callers b !! ch = Some c →
  chans (Close b) !! ch = match c, chans b !! ch with
                          | Gone _ _, x => x
                          | _, Some None => Some (Some WClosed)
                          | _, x => x
                          end.
Proof.
  intros Hok Hopen Hc. unfold Close. rewrite Hopen. simpl. rewrite try_sends_lookup.
  pose proof (elem_of_parked b ch tr Hok) as Hp. case_decide as Hd.
  - destruct Hd as [(k & c' & Hc' & Hon)%Hp ->]. simplify_eq. by destruct Hon as [->|[? ->]].
  - destruct c as [k|k o|k o]; [| |done]; (destruct (chans b !! ch) as [[w|]|] eqn:He; [done| |done]);
      exfalso; apply Hd; (split; [|done]); apply Hp; exists k; eexists; (split; [done|]); [by left|right; by eexists].
Qed.

Lemma close_same b : waiters (Close b) = waiters b ∧ callers (Close b) = callers b ∧ sends (Close b) = sends b ∧
  next_chan (Close b) = next_chan b ∧ closed (Close b) = true.
Proof. unfold Close. by destruct (closed b) eqn:?. Qed.

(** What the channels become; nothing else moves. *)
Lemma chans_ok tr tr' b b' :
  board_ok tr b → waiters b' = waiters b → callers b' = callers b → next_chan b' = next_chan b →
  (∀ e, e ∈ tr → e ∈ tr') → (∀ x, x ∈ sends b' → x ∈ sends b) →
  (∀ ch c, callers b !! ch = Some c →
     chans b' !! ch = chans b !! ch ∨
     (chans b !! ch = Some None ∧ ∃ w, chans b' !! ch = Some (Some w) ∧ justified tr' (caller_key c) w)) →
  (∀ ch, is_Some (chans b' !! ch) ↔ is_Some (chans b !! ch)) →
  (closed b' = true → ∀ ch key, callers b !! ch = Some (Parked key) → ∃ w, chans b' !! ch = Some (Some w)) →
  board_ok tr' b'.
Proof.
  intros [Hl Hw Hf Hc Hcl Hb Hs Ho] Ew Ec En Htr Hsnd Hch Hsame Hclosed.
  assert (∀ k w, justified tr k w → justified tr' k w) as Hj by (intros k [s|]; simpl; apply Htr).
  split; rewrite ?Ew, ?Ec, ?En; try done.
  - intros ch. by rewrite Hc, Hsame.
  - intros ch c w Hx Hbuf. destruct (Hch ch c Hx) as [He|(_ & w' & He & Hjw)].
    + rewrite He in Hbuf. by eapply Hj, Hb.
    + rewrite He in Hbuf. by simplify_eq.
  - intros ch w Hin%Hsnd. destruct (Hs ch w Hin) as (x & Hx & ?). exists x. split; [done|by apply Hj].
  - intros ch c Hx. specialize (Ho ch c Hx). destruct c as [|k [w|]|k [w|]]; simpl in *; try done; by apply Hj.
Qed.

Lemma close_ok tr b : board_ok tr b → board_ok (tr ++ [EClose]) (Close b).
Proof.
  intros Hok. destruct (close_same b) as (Ew & Ec & Es & En & Ecl).
  destruct (closed b) eqn:Hopen.
  - assert (Close b = b) as -> by (unfold Close; by rewrite Hopen).
    apply (chans_ok tr _ b _ Hok); try done; [set_solver|by intros; left|]. intros _. by apply (bo_closed _ _ Hok).
  - pose proof (close_lookup tr b) as Hlook.
    apply (chans_ok tr _ b _ Hok); try done; [set_solver|by rewrite Es| | |].
    + intros ch c Hc. rewrite (Hlook ch c Hok Hopen Hc).
      destruct c, (chans b !! ch) as [[w|]|]; try (by left); right; (split; [done|]); exists WClosed; simpl; set_solver.
    + intros ch. unfold Close. rewrite Hopen. simpl. rewrite try_sends_lookup. case_decide as Hd; [|done].
      destruct Hd as [_ ->]. split; intros _; by eexists.
    + intros _ ch key Hc. rewrite (Hlook ch _ Hok Hopen Hc).
      destruct (proj1 (bo_chans _ _ Hok ch) ltac:(by eexists)) as [[w|] ->]; by eexists.
Qed.

Lemma send_ok tr b ch w pre post :
  board_ok tr b → sends b = pre ++ (ch, w) :: post →
  board_ok (tr ++ [ESend ch w])
    (mkBoard (waiters b) (closed b) (try_send ch w (chans b)) (callers b) (pre ++ post) (next_chan b)).
Proof.
  intros Hok Hsnd. destruct (bo_sends _ _ Hok ch w ltac:(rewrite Hsnd; set_solver)) as (x & Hx & Hjx).
  apply (chans_ok tr _ b _ Hok); simpl; try done; [set_solver|rewrite Hsnd; set_solver| | |].
  - intros c y Hy. rewrite try_send_lookup. case_decide as Hd; [|by left]. destruct Hd as [<- Hn]. right. split; [done|].
    exists w. split; [done|]. simplify_eq. by apply justified_snoc.
  - intros c. rewrite try_send_lookup. case_decide as Hd; [|done]. destruct Hd as [_ ->]. split; intros _; by eexists.
  - intros Hcl c key Hc. destruct (bo_closed _ _ Hok Hcl c key Hc) as [w' Hw']. exists w'.
    rewrite try_send_lookup, decide_False; [done|]. rewrite Hw'. naive_solver.
Qed.

Lemma select_ok tr b b' ch o :
  board_ok tr b → select_done ch o b = Some b' → board_ok (tr ++ [EReturn ch o]) b'.
Proof.
  intros Hok. pose proof Hok as [Hl Hw Hf Hc Hcl Hb Hs Ho]. unfold select_done.
  destruct (callers b !! ch) as [[key| |]|] eqn:Hch; try done. intros Hdone.
  assert (∃ chans', b' = mkBoard (waiters b) (closed b) chans' (<[ch := Leaving key o]> (callers b)) (sends b) (next_chan b) ∧
            (∀ c, c ≠ ch → chans' !! c = chans b !! c) ∧ (is_Some (chans' !! ch)) ∧
            (∀ w, chans' !! ch = Some (Some w) → chans b !! ch = Some (Some w)) ∧
            (∀ w, o = Woken w → chans b !! ch = Some (Some w))) as (chans' & -> & Hother & Hsome & Hsub & Hwoke).
  { destruct o as [w|].
    - case_bool_decide as He; [|done]. simplify_eq. eexists. split; [done|]. split_and!.
      + intros c Hne. by rewrite lookup_insert_ne.
      + rewrite lookup_insert_eq. by eexists.
      + intros w'. by rewrite lookup_insert_eq.
      + by intros ? [= <-].
    - simplify_eq. eexists. split; [done|]. split_and!; try done. apply Hc. by eexists. }
  clear Hdone. split; simpl; try done.
  - intros k c. rewrite Hw. destruct (decide (c = ch)) as [->|Hne]; [|by rewrite lookup_insert_ne].
    rewrite lookup_insert_eq, Hch. unfold on_board. split; intros (x & [= <-] & [[= ->]|[? [= -> ?]]]); eauto.
  - intros c. rewrite lookup_insert_is_Some. intros [<-|[_ ?]]; apply Hf; [by eexists|done].
  - intros c. destruct (decide (c = ch)) as [->|Hne]; [rewrite lookup_insert_eq; split; [done|by eexists]|].
    by rewrite lookup_insert_ne, Hother.
  - intros Hclosed c k. rewrite lookup_insert_Some. intros [[_ ?]|[Hne ?]]; [done|]. rewrite Hother by done. by eapply Hcl.
  - intros c x w. rewrite lookup_insert_Some. intros [[<- <-]|[Hne Hx]] Hbuf; apply justified_snoc.
    + apply Hsub in Hbuf. exact (Hb ch _ w Hch Hbuf).
    + rewrite Hother in Hbuf by done. by eapply Hb.
  - intros c w Hin. destruct (Hs c w Hin) as (x & Hx & Hj). destruct (decide (c = ch)) as [->|Hne].
    + rewrite lookup_insert_eq. eexists. split; [done|]. apply justified_snoc. simplify_eq. done.
    + rewrite lookup_insert_ne by done. exists x. split; [done|by apply justified_snoc].
  - intros c x. rewrite lookup_insert_Some. intros [[<- <-]|[_ Hx]].
    + destruct o as [w|]; simpl; [|done]. apply justified_snoc. exact (Hb ch _ w Hch (Hwoke w eq_refl)).
    + by eapply outcome_ok_snoc, Ho.
Qed.

Lemma unlatch_ok tr b ch key o :
  board_ok tr b → callers b !! ch = Some (Leaving key o) →
  board_ok (tr ++ [EUnlatch ch])
    (mkBoard (unlatch key ch (waiters b)) (closed b) (chans b) (<[ch := Gone key o]> (callers b)) (sends b) (next_chan b)).
Proof.
  intros [Hl Hw Hf Hc Hcl Hb Hs Ho] Hch. split; simpl.
  - intros k l Hk. eapply unlatch_some; [exact Hk|apply Hl].
  - intros k c. rewrite unlatch_lookup by (intros l Hk; by apply (Hl key)). rewrite Hw.
    destruct (decide (c = ch)) as [->|Hne].
    + rewrite lookup_insert_eq, Hch. unfold on_board. split.
      * intros [(x & [= <-] & [?|[? [= ->]]]) Hn]; [done|]. by destruct Hn.
      * by intros (x & [= <-] & [?|[? ?]]).
    + rewrite lookup_insert_ne by done. naive_solver.
  - intros c. rewrite lookup_insert_is_Some. intros [<-|[_ ?]]; apply Hf; [by eexists|done].
  - intros c. destruct (decide (c = ch)) as [->|Hne]; [|by rewrite lookup_insert_ne].
    rewrite lookup_insert_eq, <-Hc, Hch. split; intros _; by eexists.
  - intros Hclosed c k. rewrite lookup_insert_Some. intros [[_ ?]|[Hne ?]]; [done|]. by eapply Hcl.
  - intros c x w. rewrite lookup_insert_Some. intros [[<- <-]|[Hne Hx]] Hbuf; apply justified_snoc.
    + exact (Hb ch _ w Hch Hbuf).
    + by eapply Hb.
  - intros c w Hin. destruct (Hs c w Hin) as (x & Hx & Hj). destruct (decide (c = ch)) as [->|Hne].
    + rewrite lookup_insert_eq. eexists. split; [done|]. apply justified_snoc. simplify_eq. done.
    + rewrite lookup_insert_ne by done. exists x. split; [done|by apply justified_snoc].
  - intros c x. rewrite lookup_insert_Some. intros [[<- <-]|[_ Hx]]; [|by eapply outcome_ok_snoc, Ho].
    specialize (Ho ch _ Hch). destruct o as [w|]; simpl in *; [|done]. by apply justified_snoc.
Qed.

Lemma step_ok tr e b b' : board_ok tr b → step e b b' → board_ok (tr ++ [e]) b'.
Proof.
  intros Hok Hst. destruct Hst.
  - by eapply latch_ok.
  - by apply release_ok.
  - by apply close_ok.
  - by apply send_ok.
  - by eapply select_ok.
  - by apply unlatch_ok.
Qed.

Lemma reachable_ok tr b : reachable tr b → board_ok tr b.
Proof.
  unfold reachable. remember New as b0. induction 1 as [|tr e b0 b b' Hs IH Hst]; subst; [apply New_ok|].
  eapply step_ok; [by apply IH|done].
Qed.

(** ** Wakes are never lost *)

(** A wake delivered to a parked caller is the one it finds. *)
Lemma step_keeps_wake tr e b b' ch key w :
  board_ok tr b → step e b b' →
  callers b !! ch = Some (Parked key) → callers b' !! ch = Some (Parked key) →
  chans b !! ch = Some (Some w) → chans b' !! ch = Some (Some w).
Proof.
  intros Hok Hst Hp Hp' Hbuf. destruct Hst as [b b' k c Hl|b k s|b|b c w' pre post Hsnd|b b' c o Hsel|b c k o Hc]; simpl in *.
  - unfold Latch in Hl. apply check_Ok in Hl as [_ Hl]. apply check_Ok in Hl as [_ Hl]. simplify_eq. simpl.
    rewrite lookup_insert_ne; [done|]. intros Heq. pose proof (bo_fresh _ _ Hok ch ltac:(by eexists)). lia.
  - done.
  - destruct (closed b) eqn:Hopen; [unfold Close; by rewrite Hopen|].
    by rewrite (close_lookup _ _ _ _ Hok Hopen Hp), Hbuf.
  - rewrite try_send_lookup, decide_False; [done|]. rewrite Hbuf. naive_solver.
  - unfold select_done in Hsel. destruct (callers b !! c) as [[k| |]|] eqn:Hc; try done.
    destruct (decide (c = ch)) as [->|Hne].
    + destruct o; [case_bool_decide; [|done]|]; simplify_eq; simpl in Hp'; by rewrite lookup_insert_eq in Hp'.
    + destruct o; [case_bool_decide; [|done]|]; simplify_eq; simpl; [by rewrite lookup_insert_ne|done].
  - done.
Qed.

(** Either the wake is there, or the send that brings it is still to be made. *)
Definition woken (ch : nat) (b : Board) : Prop :=
  (∃ w, chans b !! ch = Some (Some w)) ∨ (∃ w, (ch, w) ∈ sends b).

Lemma select_callers ch o b b' :
  select_done ch o b = Some b' →
  ∃ key, callers b !! ch = Some (Parked key) ∧ callers b' = <[ch := Leaving key o]> (callers b) ∧ sends b' = sends b ∧
    ∀ c, c ≠ ch → chans b' !! c = chans b !! c.
Proof.
  unfold select_done. destruct (callers b !! ch) as [[k| |]|]; try done. destruct o; [case_bool_decide; [|done]|];
    intros [= <-]; exists k; split_and!; try done. intros c Hne. simpl. by rewrite lookup_insert_ne.
Qed.

Lemma latch_callers key ch b b' :
  Latch key b = Ok (ch, b') →
  ch = next_chan b ∧ callers b' = <[ch := Parked key]> (callers b) ∧ chans b' = <[ch := None]> (chans b) ∧ sends b' = sends b.
Proof. unfold Latch. intros [_ Hl]%check_Ok. apply check_Ok in Hl as [_ Hl]. by simplify_eq. Qed.

(** A call that is parked after a step and was there before was parked before. *)
Lemma parked_before tr e b b' ch key :
  board_ok tr b → step e b b' → is_Some (callers b !! ch) →
  callers b' !! ch = Some (Parked key) → callers b !! ch = Some (Parked key).
Proof.
  intros Hok Hst Hx Hp. destruct Hst as [b b' k c Hl|b k s|b|b c w' pre post Hsnd|b b' c o Hsel|b c k o Hc]; simpl in *; try done.
  - apply latch_callers in Hl as (-> & Ec & _). rewrite Ec, lookup_insert_ne in Hp; [done|].
    pose proof (bo_fresh _ _ Hok ch Hx). lia.
  - destruct (close_same b) as (_ & Ec & _). by rewrite Ec in Hp.
  - apply select_callers in Hsel as (k & _ & Ec & _). rewrite Ec in Hp. by apply lookup_insert_Some in Hp as [[_ ?]|[_ ?]].
  - by apply lookup_insert_Some in Hp as [[_ ?]|[_ ?]].
Qed.

Lemma callers_persist e b b' ch : step e b b' → is_Some (callers b !! ch) → is_Some (callers b' !! ch).
Proof.
  intros Hst Hx. destruct Hst as [b b' k c Hl|b k s|b|b c w' pre post Hsnd|b b' c o Hsel|b c k o Hc]; simpl in *; try done.
  - apply latch_callers in Hl as (_ & Ec & _). rewrite Ec, lookup_insert_is_Some'. by right.
  - destruct (close_same b) as (_ & Ec & _). by rewrite Ec.
  - apply select_callers in Hsel as (k & _ & Ec & _). rewrite Ec, lookup_insert_is_Some'. by right.
  - rewrite lookup_insert_is_Some'. by right.
Qed.

Lemma step_keeps_woken tr e b b' ch key :
  board_ok tr b → step e b b' → callers b !! ch = Some (Parked key) → callers b' !! ch = Some (Parked key) →
  woken ch b → woken ch b'.
Proof.
  intros Hok Hst Hp Hp' [[w Hw]|[w Hw]]; [left; exists w; by eapply step_keeps_wake|].
  destruct Hst as [b b' k c Hl|b k s|b|b c w' pre post Hsnd|b b' c o Hsel|b c k o Hc]; unfold woken; simpl in *.
  - apply latch_callers in Hl as (_ & _ & _ & ->). eauto.
  - right. exists w. set_solver.
  - destruct (close_same b) as (_ & _ & -> & _). eauto.
  - rewrite Hsnd in Hw. destruct (decide (c = ch)) as [->|Hne].
    + left. rewrite try_send_lookup. destruct (proj1 (bo_chans _ _ Hok ch) ltac:(by eexists)) as [[x|] Hx]; rewrite Hx.
      * rewrite decide_False by naive_solver. by eexists.
      * rewrite decide_True by done. by eexists.
    + right. exists w. set_solver.
  - apply select_callers in Hsel as (k & _ & _ & -> & _). eauto.
  - eauto.
Qed.

Lemma steps_keep_woken tr0 tr b b' ch key :
  board_ok tr0 b → steps tr b b' → callers b !! ch = Some (Parked key) → woken ch b →
  board_ok (tr0 ++ tr) b' ∧ is_Some (callers b' !! ch) ∧
  ∀ key', callers b' !! ch = Some (Parked key') → key' = key ∧ woken ch b'.
Proof.
  intros Hok Hst Hp Hw. induction Hst as [b|tr e b b' b'' Hs IH Hst].
  - rewrite app_nil_r. split_and!; [done|by eexists|]. intros key' ?. by simplify_eq.
  - destruct (IH Hok Hp Hw) as (Hok' & Hx & Hkey). rewrite app_assoc. split_and!.
    + by eapply step_ok.
    + by eapply callers_persist.
    + intros key' Hp'. pose proof (parked_before _ _ _ _ _ _ Hok' Hst Hx Hp') as Hpb.
      destruct (Hkey key' Hpb) as [-> Hwk]. split; [done|]. by eapply step_keeps_woken.
Qed.

(** ** Properties *)

(** C26. No wakeup is lost, in any interleaving of callers, releases, sends and closes.  A caller on the
    board when a key is released has a wake in its channel as soon as that release's sends are made,
    unless it has left; a closed board has no parked caller without one; a wake once delivered to a
    parked caller is the one it finds, whatever is sent or closed later; and a caller with a wake is
    never blocked. *)
Theorem latch_loses_no_wakeup tr b :
  reachable tr b →
  (∀ key status tr' b' ch, callers b !! ch = Some (Parked key) →
     steps tr' (Release key status b).2 b' → callers b' !! ch = Some (Parked key) →
     (∀ w, (ch, w) ∉ sends b') → ∃ w, chans b' !! ch = Some (Some w)) ∧
  (closed b = true → ∀ ch key, callers b !! ch = Some (Parked key) → ∃ w, chans b !! ch = Some (Some w)) ∧
  (∀ e b' ch key w, step e b b' → callers b !! ch = Some (Parked key) → callers b' !! ch = Some (Parked key) →
     chans b !! ch = Some (Some w) → chans b' !! ch = Some (Some w)) ∧
  (∀ ch key w, callers b !! ch = Some (Parked key) → chans b !! ch = Some (Some w) →
     ∃ b', step (EReturn ch (Woken w)) b b' ∧ callers b' !! ch = Some (Leaving key (Woken w))).
Proof.
  intros Hr. pose proof (reachable_ok _ _ Hr) as Hok. split_and!.
  - intros key status tr' b' ch Hp Hst Hp' Hsent.
    assert (ch ∈ default [] (waiters b !! key)) as Hin.
    { apply (bo_where _ _ Hok). eexists. split; [done|by left]. }
    destruct (steps_keep_woken _ _ _ _ ch key (release_ok tr b key status Hok) Hst Hp) as (_ & _ & Hk).
    { right. exists (WStatus status). simpl. apply elem_of_app. right. apply list_elem_of_fmap. by exists ch. }
    destruct (Hk key Hp') as [_ [?|[w Hw]]]; [done|]. by destruct (Hsent w).
  - apply (bo_closed _ _ Hok).
  - intros e b' ch key w. by eapply step_keeps_wake.
  - intros ch key w Hp Hw. eexists. split; [apply step_select; unfold select_done; rewrite Hp, bool_decide_eq_true_2 by done; done|].
    simpl. apply lookup_insert_eq.
Qed.

(** What a call answers, and what the board keeps.  A status a caller returns with was released on
    the caller's own key, and the closed error comes only from a close.  The board holds a key exactly
    while some caller that parked on it has not left the board: the keys a sweep asks about are those,
    once each and sorted, and with nobody on the board it asks about nothing; [Latch] turns a caller
    away only for an empty key or on a closed board. *)
Theorem latch_answers_are_earned tr b :
  reachable tr b →
  (∀ ch key s, callers b !! ch = Some (Gone key (Woken (WStatus s))) → ERelease key s ∈ tr) ∧
  (∀ ch key, callers b !! ch = Some (Gone key (Woken WClosed)) → EClose ∈ tr) ∧
  (∀ key, key ∈ keys b ↔ ∃ ch c, callers b !! ch = Some c ∧ on_board key c) ∧
  NoDup (keys b) ∧ Sorted String.le (keys b) ∧ length (keys b) = Latched b ∧
  (keys b = [] → ∀ resolve, Sweep resolve b = []) ∧
  (∀ key e, Latch key b = Err e ↔ (key = "" ∧ e = ErrNoKey) ∨ (key ≠ "" ∧ closed b = true ∧ e = ErrClosed)).
Proof.
  intros Hr. pose proof (reachable_ok _ _ Hr) as Hok. split_and!.
  - intros ch key s Hc. exact (bo_outcome _ _ Hok ch _ Hc).
  - intros ch key Hc. exact (bo_outcome _ _ Hok ch _ Hc).
  - intros key. unfold keys. rewrite merge_sort_Permutation, list_elem_of_fmap. split.
    + intros ([k l] & -> & Hk%elem_of_map_to_list). destruct (bo_lists _ _ Hok _ _ Hk) as [Hne _].
      destruct l as [|ch l]; [done|]. exists ch. apply (proj1 (bo_where _ _ Hok k ch)). rewrite Hk. by left.
    + intros (ch & Hc). apply (bo_where _ _ Hok) in Hc. destruct (waiters b !! key) as [l|] eqn:Hk; [|by apply elem_of_nil in Hc].
      exists (key, l). split; [done|by apply elem_of_map_to_list].
  - unfold keys. rewrite merge_sort_Permutation. apply NoDup_fst_map_to_list.
  - apply Sorted_merge_sort. apply _.
  - unfold keys, Latched. by rewrite merge_sort_Permutation, length_fmap, length_map_to_list.
  - intros He resolve. unfold Sweep. by rewrite He.
  - intros key e. unfold Latch, check. case_bool_decide as Hk; [|destruct (closed b)].
    + split; [intros [= <-]; by left|]. intros [[_ ->]|[? _]]; done.
    + split; [intros [= <-]; by right|]. intros [[? _]|(_ & _ & ->)]; done.
    + split; [done|]. intros [[? _]|(_ & ? & _)]; done.
Qed.

(** One caller parks, its key is released, the release sends, the board closes, the caller wakes and leaves. *)
Definition demo_events : list event :=
  [ELatch "k" 0; ERelease "k" "completed"; ESend 0 (WStatus "completed"); EClose].
Definition demo_closed : Board :=
  mkBoard {["k" := [0%nat]]} true {[0%nat := Some (WStatus "completed")]} {[0%nat := Parked "k"]} [] 1.

Lemma demo_reachable : reachable demo_events demo_closed.
Proof.
  assert (reachable [ELatch "k" 0] (mkBoard {["k" := [0%nat]]} false {[0%nat := None]} {[0%nat := Parked "k"]} [] 1)) as H1.
  { apply (steps_snoc []  _ _ New); [constructor|]. apply step_latch. vm_compute. reflexivity. }
  pose proof (steps_snoc _ _ _ _ _ H1 (step_release _ "k" "completed")) as H2.
  set (b2 := (Release _ _ _).2) in H2.
  pose proof (steps_snoc _ _ _ _ _ H2 (step_send b2 0 (WStatus "completed") [] [] eq_refl)) as H3.
  exact (steps_snoc _ _ _ _ _ H3 (step_close _)).
Qed.

Lemma latch_loses_no_wakeup_witness : ∃ w, chans demo_closed !! 0%nat = Some (Some w).
Proof.
  destruct (latch_loses_no_wakeup demo_events demo_closed demo_reachable) as (_ & H & _).
  apply (H eq_refl 0%nat "k"). reflexivity.
Defined.

Lemma latch_answers_are_earned_witness : length (keys demo_closed) = 1%nat ∧ "k" ∈ keys demo_closed.
Proof.
  destruct (latch_answers_are_earned demo_events demo_closed demo_reachable) as (_ & _ & H & _ & _ & Hl & _).
  split; [rewrite Hl; reflexivity|]. apply H. exists 0%nat, (Parked "k"). split; [reflexivity|by left].
Defined.
