(* ===== verification/Resolver.v ===== *)
(** * The await latch's status resolver ([engine/latch.go])

    What a sweep of the latch board asks the shards, and what it reads out of the answer.  A shard's
    database is its flow table together with which of the pass's statements fail and after how many
    rows; shards are visited in order (the code visits them at once, but each writes only keys that
    name it). *)

From S2P Require Import Prelude Keys.

#[local] Open Scope Z_scope.

Record flow_row := mkFlowRow { flow_id : Z; flow_token : string; f_status : string; updated_at : Z }.

#[export] Instance flow_row_eq_dec : EqDecision flow_row.
Proof. solve_decision. Defined.

Definition latchResolveChunk : nat := 512.
Definition flowUnresolved : string := "unresolved".

Definition isStoppedStatus (status : string) : bool :=
  negb (bool_decide (status = "")) && negb (bool_decide (status = "created"))
  && negb (bool_decide (status = "pending")) && negb (bool_decide (status = "running")).

(** The statuses the pre-scan's statement lists. *)
Definition recent_statuses : list string := ["completed"; "failed"; "terminated"; "cancelled"; "interrupted"].

(** The bind arguments: the ids, the last one repeated up to the bucket. *)
Definition latchPadBinds (ids : list Z) : list Z :=
  let n := length ids in
  let size := default n (head (filter (λ b, (n ≤ b)%nat) [1; 2; 4; 8; 16; 32; 64; 128; 256; latchResolveChunk]%nat)) in
  ids ++ replicate (size - n) (default 0 (last ids)).

(** [slices.Chunk] *)
Fixpoint chunks {A} (fuel n : nat) (l : list A) : list (list A) :=
  match fuel, l with
  | S fuel, _ :: _ => take n l :: chunks fuel n (drop n l)
  | _, _ => []
  end.
Definition Chunk {A} (n : nat) (l : list A) : list (list A) := chunks (length l) n l.

(** A statement's result: the rows read, and whether it and all of them came through. *)
Definition read_rows (fail : option nat) (rows : list flow_row) : list flow_row * bool :=
  match fail with None => (rows, true) | Some n => (take n rows, false) end.

(** A shard during one pass: its rows, where its pre-scan fails, and where its [i]-th lookup fails. *)
Record shard_db := mkShardDb { tab : list flow_row; fail_recent : option nat; fail_chunk : nat → option nat }.

Section resolver.
(** [DATE_ADD_MILLIS]. *)
Context (DATE_ADD_MILLIS : Z → Z → Z).

Definition recent_rows (interval_ms now : Z) (db : shard_db) : list flow_row :=
  filter (λ r, f_status r ∈ recent_statuses ∧ DATE_ADD_MILLIS now (-2 * interval_ms) ≤ updated_at r) (tab db).

(** The pre-scan: each row's own key, if somebody is parked on it. *)
Definition apply_recent (shard : Z) (rows : list flow_row) (st : gmap string string * gset string)
    : gmap string string * gset string :=
  fold_left (λ '(settled, wanted) r,
    let flowKey := New shard (flow_id r) (flow_token r) in
    if bool_decide (flowKey ∈ wanted) then (<[flowKey := f_status r]> settled, wanted ∖ {[flowKey]})
    else (settled, wanted)) rows st.

Definition key_id (flowKey : string) : Z := match ParseFlowKey flowKey with Ok (_, id, _) => id | Err _ => 0 end.

(** [found]: the rows by the key each one spells. *)
Definition found_map (shard : Z) (rows : list flow_row) : gmap string string :=
  fold_left (λ m r, <[New shard (flow_id r) (flow_token r) := f_status r]> m) rows ∅.

Definition settle_chunk (chunk : list string) (found settled : gmap string string) : gmap string string :=
  fold_left (λ settled flowKey,
    match found !! flowKey with
    | None => <[flowKey := flowUnresolved]> settled
    | Some status => if isStoppedStatus status then <[flowKey := status]> settled else settled
    end) chunk settled.

Definition resolve_chunk (shard : Z) (db : shard_db) (i : nat) (chunk : list string) (settled : gmap string string)
    : gmap string string * nat :=
  let binds := latchPadBinds (key_id <$> chunk) in
  let '(rows, complete) := read_rows (fail_chunk db i) (filter (λ r, flow_id r ∈ binds) (tab db)) in
  if negb complete then (settled, 1%nat) else (settle_chunk chunk (found_map shard rows) settled, 0%nat).

Fixpoint resolve_chunks (shard : Z) (db : shard_db) (i : nat) (cs : list (list string)) (settled : gmap string string)
    : gmap string string * nat :=
  match cs with
  | [] => (settled, 0%nat)
  | c :: cs =>
      let '(settled, n) := resolve_chunk shard db i c settled in
      let '(settled, m) := resolve_chunks shard db (S i) cs settled in (settled, (n + m)%nat)
  end.

(** One shard's part of the pass; the second component counts the failures. *)
Definition resolve_shard (interval_ms now shard : Z) (db : shard_db) (wanted : gset string) (settled : gmap string string)
    : gmap string string * nat :=
  if bool_decide (wanted = ∅) then (settled, 0%nat) else
  let '(rows, ok) := read_rows (fail_recent db) (recent_rows interval_ms now db) in
  let '(settled, wanted) := apply_recent shard rows (settled, wanted) in
  let parked := merge_sort String.le (elements wanted) in
  let '(settled, n) := resolve_chunks shard db 0 (Chunk latchResolveChunk parked) settled in
  (settled, ((if (ok : bool) then 0 else 1) + n)%nat).

Definition key_shard (flowKey : string) : option Z :=
  match ParseFlowKey flowKey with Ok (shard, _, _) => Some shard | Err _ => None end.

(** [byShard[shard]] *)
Definition wanted_of (shard : Z) (flowKeys : list string) : gset string :=
  list_to_set (filter (λ k, key_shard k = Some shard) flowKeys).

Definition malformed (flowKeys : list string) : gmap string string :=
  list_to_map ((λ k, (k, flowUnresolved)) <$> filter (λ k, key_shard k = None) flowKeys).

Definition resolveStoppedFlows (interval_ms now : Z) (shards : list (Z * shard_db)) (flowKeys : list string)
    : gmap string string * nat :=
  fold_left (λ '(settled, failures) '(shard, db),
    let '(settled, n) := resolve_shard interval_ms now shard db (wanted_of shard flowKeys) settled in
    (settled, (failures + n)%nat)) shards (malformed flowKeys, 0%nat).
End resolver.

(** ** The verdict on a key *)

(** The row that spells the key, if the shard has one: what a caller holding it may be told. *)
Definition verdict (shard : Z) (rows : list flow_row) (k : string) : option string :=
  match find (λ r, bool_decide (New shard (flow_id r) (flow_token r) = k)) rows with
  | None => Some flowUnresolved
  | Some r => if isStoppedStatus (f_status r) then Some (f_status r) else None
  end.

(** A shard number and the rows of its flow table: the primary key, and ids from 0. *)
Record shard_ok (shard : Z) (rows : list flow_row) : Prop := {
  so_shard : 1 ≤ shard < 2 ^ 63;
  so_ids : NoDup (flow_id <$> rows);
  so_range : ∀ r, r ∈ rows → 0 ≤ flow_id r < 2 ^ 63
}.

Section verdicts.
Context (shard : Z) (rows : list flow_row) (Hok : shard_ok shard rows).

Let spells (r : flow_row) (k : string) : Prop := New shard (flow_id r) (flow_token r) = k.

Lemma spells_parse r k : r ∈ rows → spells r k → ParseFlowKey k = Ok (shard, flow_id r, flow_token r).
Proof using Hok. intros Hr <-. apply parse_New; [apply Hok|by apply (so_range _ _ Hok)]. Qed.

Lemma spells_unique r r' k : r ∈ rows → r' ∈ rows → spells r k → spells r' k → r = r'.
Proof using Hok.
  intros Hr Hr' Hk Hk'. pose proof (spells_parse r k Hr Hk) as H1. rewrite (spells_parse r' k Hr' Hk') in H1.
  injection H1 as Hid _. apply list_elem_of_lookup in Hr as [i Hi]. apply list_elem_of_lookup in Hr' as [j Hj].
  assert (i = j) as ->; [|congruence].
  eapply (NoDup_lookup (flow_id <$> rows)); [apply Hok|by rewrite list_lookup_fmap, Hi|].
  rewrite list_lookup_fmap, Hj. simpl. by rewrite Hid.
Qed.

Lemma verdict_row r k :
  r ∈ rows → spells r k → verdict shard rows k = if isStoppedStatus (f_status r) then Some (f_status r) else None.
Proof using Hok.
  intros Hr Hk. unfold verdict. destruct (find _ rows) as [r'|] eqn:Hf.
  - apply find_some in Hf as [Hr' He%bool_decide_eq_true]. apply list_elem_of_In in Hr'.
    by rewrite (spells_unique r' r k Hr' Hr He Hk).
  - apply list_elem_of_In in Hr. pose proof (find_none _ _ Hf r Hr) as Hn. apply bool_decide_eq_false in Hn. done.
Qed.

Lemma verdict_none k : (∀ r, r ∈ rows → ¬ spells r k) → verdict shard rows k = Some flowUnresolved.
Proof using.
  intros Hno. unfold verdict. destruct (find _ rows) as [r|] eqn:Hf; [|done].
  apply find_some in Hf as [Hr He%bool_decide_eq_true]. apply list_elem_of_In in Hr. by destruct (Hno r).
Qed.

(** What the lookup's rows say of a key, once they are all the rows with its id. *)
Lemma found_map_lookup rs k :
  (∀ r, r ∈ rs → r ∈ rows) → 
  match found_map shard rs !! k with
  | Some st => ∃ r, r ∈ rs ∧ spells r k ∧ f_status r = st
  | None => ∀ r, r ∈ rs → ¬ spells r k
  end.
Proof using.
  intros Hsub. unfold found_map. induction rs as [|r rs IH] using rev_ind.
  - simpl. rewrite lookup_empty. intros r Hr. by apply elem_of_nil in Hr.
  - rewrite fold_left_app. simpl. destruct (decide (New shard (flow_id r) (flow_token r) = k)) as [<-|Hne].
    + rewrite lookup_insert_eq. exists r. split_and!; [|done|done]. apply elem_of_app. right. by apply list_elem_of_singleton.
    + rewrite lookup_insert_ne by done.
      assert (∀ x, x ∈ rs → x ∈ rows) as Hsub' by (intros x Hx; apply Hsub, elem_of_app; by left).
      specialize (IH Hsub'). destruct (_ !! k) as [st|].
      * destruct IH as (x & Hx & ? & ?). exists x. split_and!; [apply elem_of_app; by left|done|done].
      * intros x [Hx|Hx]%elem_of_app; [by apply IH|]. apply list_elem_of_singleton in Hx as ->. done.
Qed.

Lemma lookup_covers (binds : list Z) k :
  key_id k ∈ binds →
  match found_map shard (filter (λ r, flow_id r ∈ binds) rows) !! k with
  | Some st => verdict shard rows k = if isStoppedStatus st then Some st else None
  | None => verdict shard rows k = Some flowUnresolved
  end.
Proof using Hok.
  intros Hin. pose proof (found_map_lookup (filter (λ r, flow_id r ∈ binds) rows) k) as Hf.
  assert (∀ r, r ∈ filter (λ r, flow_id r ∈ binds) rows → r ∈ rows) as Hsub by (by intros r [_ ?]%list_elem_of_filter).
  specialize (Hf Hsub). destruct (found_map _ _ !! k) as [st|].
  - destruct Hf as (r & Hr & Hs & <-). by apply verdict_row; [apply Hsub|].
  - apply verdict_none. intros r Hr Hs. apply (Hf r); [|done]. apply list_elem_of_filter. split; [|done].
    revert Hin. unfold key_id. by rewrite (spells_parse r k Hr Hs).
Qed.

Lemma settle_chunk_lookup (binds : list Z) (chunk : list string) settled k :
  (∀ x, x ∈ chunk → key_id x ∈ binds) → (k ∈ chunk → settled !! k = None) →
  settle_chunk chunk (found_map shard (filter (λ r, flow_id r ∈ binds) rows)) settled !! k
  = if bool_decide (k ∈ chunk) then verdict shard rows k else settled !! k.
Proof using Hok.
  intros Hb. unfold settle_chunk. induction chunk as [|x chunk IH] using rev_ind; intros Hn; [done|].
  rewrite fold_left_app. simpl. set (found := found_map _ _) in *.
  assert (∀ y, y ∈ chunk → key_id y ∈ binds) as Hb' by (intros y Hy; apply Hb, elem_of_app; by left).
  pose proof (lookup_covers binds x) as Hc. fold found in Hc.
  specialize (Hc ltac:(apply Hb, elem_of_app; right; by apply list_elem_of_singleton)).
  assert (k ∈ chunk → settled !! k = None) as Hn' by (intros Hk; apply Hn, elem_of_app; by left).
  specialize (IH Hb' Hn'). destruct (decide (x = k)) as [->|Hne].
  - rewrite (bool_decide_eq_true_2 (k ∈ chunk ++ [k])) by (apply elem_of_app; right; by apply list_elem_of_singleton).
    specialize (Hn ltac:(apply elem_of_app; right; by apply list_elem_of_singleton)). rewrite Hn in IH.
    destruct (found !! k) as [st|]; [destruct (isStoppedStatus st)|]; rewrite ?lookup_insert_eq; try done.
    rewrite IH, Hc. by case_bool_decide.
  - assert (bool_decide (k ∈ chunk ++ [x]) = bool_decide (k ∈ chunk)) as ->.
    { apply bool_decide_ext. rewrite elem_of_app, list_elem_of_singleton. naive_solver. }
    destruct (found !! x) as [st|]; [destruct (isStoppedStatus st)|]; rewrite ?lookup_insert_ne by done; done.
Qed.
End verdicts.

Lemma recent_stopped r : f_status r ∈ recent_statuses → isStoppedStatus (f_status r) = true.
Proof.
  unfold recent_statuses. intros H. repeat (apply elem_of_cons in H as [->|H]; [reflexivity|]). by apply elem_of_nil in H.
Qed.

Lemma chunks_concat {A} fuel n (l : list A) : (0 < n)%nat → (length l ≤ fuel)%nat → concat (chunks fuel n l) = l.
Proof.
  intros Hn. revert l. induction fuel as [|fuel IH]; intros l Hl; [by destruct l; simpl in *; [|lia]|].
  destruct l as [|x l]; [done|]. cbn [chunks concat]. rewrite IH; [apply take_drop|].
  rewrite length_drop. simpl in *. lia.
Qed.

Section shard.
Context (DATE_ADD_MILLIS : Z → Z → Z) (shard : Z) (db : shard_db) (Hok : shard_ok shard (tab db)).

Let spells (r : flow_row) (k : string) : Prop := New shard (flow_id r) (flow_token r) = k.

(** One key through the pre-scan: settled by its verdict and no longer wanted, or left alone. *)
Lemma apply_recent_key rs settled wanted k :
  (∀ r, r ∈ rs → r ∈ tab db ∧ f_status r ∈ recent_statuses) →
  let '(settled', wanted') := apply_recent shard rs (settled, wanted) in
  (k ∈ wanted' ∧ k ∈ wanted ∧ settled' !! k = settled !! k) ∨
  (k ∉ wanted' ∧ k ∉ wanted ∧ settled' !! k = settled !! k) ∨
  (k ∉ wanted' ∧ k ∈ wanted ∧ settled' !! k = verdict shard (tab db) k).
Proof using Hok.
  clear DATE_ADD_MILLIS. unfold apply_recent. induction rs as [|r rs IH] using rev_ind; intros Hrs.
  - simpl. destruct (decide (k ∈ wanted)); auto.
  - rewrite fold_left_app. simpl.
    assert (∀ x, x ∈ rs → x ∈ tab db ∧ f_status x ∈ recent_statuses) as Hrs' by (intros x Hx; apply Hrs, elem_of_app; by left).
    specialize (IH Hrs'). destruct (fold_left _ rs _) as [settled' wanted'].
    destruct (Hrs r ltac:(apply elem_of_app; right; by apply list_elem_of_singleton)) as [Hr Hst].
    case_bool_decide as Hw; [|done]. destruct (decide (New shard (flow_id r) (flow_token r) = k)) as [<-|Hne].
    + right. right. destruct IH as [(_ & Hin & _)|[(? & _)|(? & _)]]; [|done..].
      rewrite lookup_insert_eq, (verdict_row shard (tab db) Hok r) by done. rewrite (recent_stopped r Hst). set_solver.
    + rewrite lookup_insert_ne by done. set_solver.
Qed.

Lemma resolve_chunk_key i chunk settled k :
  (k ∈ chunk → settled !! k = None) →
  let '(settled', n) := resolve_chunk shard db i chunk settled in
  (k ∉ chunk → settled' !! k = settled !! k) ∧
  (k ∈ chunk → settled' !! k = None ∨ settled' !! k = verdict shard (tab db) k) ∧
  (fail_chunk db i = None → n = 0%nat ∧ (k ∈ chunk → settled' !! k = verdict shard (tab db) k)).
Proof using Hok.
  intros Hn. unfold resolve_chunk, read_rows. destruct (fail_chunk db i); simpl; [split_and!; [done|intros Hk; left; by apply Hn|done]|].
  rewrite (settle_chunk_lookup shard (tab db) Hok); [|intros x Hx|done].
  - case_bool_decide; split_and!; auto; done.
  - unfold latchPadBinds. apply elem_of_app. left. apply list_elem_of_fmap. by exists x.
Qed.

Lemma resolve_chunks_key i cs settled k :
  NoDup (concat cs) → (k ∈ concat cs → settled !! k = None) →
  let '(settled', n) := resolve_chunks shard db i cs settled in
  (k ∉ concat cs → settled' !! k = settled !! k) ∧
  (k ∈ concat cs → settled' !! k = None ∨ settled' !! k = verdict shard (tab db) k) ∧
  ((∀ j, fail_chunk db j = None) → n = 0%nat ∧ (k ∈ concat cs → settled' !! k = verdict shard (tab db) k)).
Proof using Hok.
  clear DATE_ADD_MILLIS. revert i settled. induction cs as [|c cs IH]; intros i settled Hnd Hn; simpl.
  - split_and!; [done|by intros ?%elem_of_nil|]. intros _. split; [done|]. by intros ?%elem_of_nil.
  - simpl in Hnd, Hn. apply NoDup_app in Hnd as (_ & Hdisj & Hnd).
    assert (k ∈ c → settled !! k = None) as Hnc by (intros Hk; apply Hn, elem_of_app; by left).
    pose proof (resolve_chunk_key i c settled k Hnc) as Hc.
    destruct (resolve_chunk shard db i c settled) as [settled1 n]. destruct Hc as (C1 & C2 & C3).
    assert (k ∈ concat cs → settled1 !! k = None) as Hn1.
    { intros Hk. rewrite C1; [apply Hn, elem_of_app; by right|]. intros Hkc. by apply (Hdisj k). }
    specialize (IH (S i) settled1 Hnd Hn1). destruct (resolve_chunks shard db (S i) cs settled1) as [settled2 m].
    destruct IH as (D1 & D2 & D3). rewrite elem_of_app. split_and!.
    + intros Hout. rewrite D1, C1; tauto.
    + intros [Hk|Hk]; [|by apply D2]. rewrite D1; [by apply C2|]. intros Hk2. by apply (Hdisj k).
    + intros Hfail. destruct (C3 (Hfail i)) as [-> C4]. destruct (D3 Hfail) as [-> D4]. split; [done|].
      intros [Hk|Hk]; [|by apply D4]. rewrite D1; [by apply C4|]. intros Hk2. by apply (Hdisj k).
Qed.

Lemma resolve_shard_key interval now wanted settled k :
  (k ∈ wanted → settled !! k = None) →
  let '(settled', n) := resolve_shard DATE_ADD_MILLIS interval now shard db wanted settled in
  (k ∉ wanted → settled' !! k = settled !! k) ∧
  (k ∈ wanted → settled' !! k = None ∨ settled' !! k = verdict shard (tab db) k) ∧
  ((∀ j, fail_chunk db j = None) →
     (fail_recent db = None → n = 0%nat) ∧ (k ∈ wanted → settled' !! k = verdict shard (tab db) k)).
Proof using Hok.
  intros Hn. unfold resolve_shard. case_bool_decide as He; [subst wanted; set_solver|].
  destruct (read_rows (fail_recent db) (recent_rows DATE_ADD_MILLIS interval now db)) as [rs ok] eqn:Hrd.
  assert (∀ r, r ∈ rs → r ∈ tab db ∧ f_status r ∈ recent_statuses) as Hrs.
  { intros r Hr. assert (r ∈ recent_rows DATE_ADD_MILLIS interval now db) as Hin.
    { unfold read_rows in Hrd. destruct (fail_recent db); simplify_eq; [|done].
      apply elem_of_take in Hr as (j & Hj & _). by eapply list_elem_of_lookup_2. }
    unfold recent_rows in Hin. by apply list_elem_of_filter in Hin as [[? _] ?]. }
  pose proof (apply_recent_key rs settled wanted k Hrs) as Hrec.
  destruct (apply_recent shard rs (settled, wanted)) as [settled1 wanted1].
  set (cs := Chunk latchResolveChunk (merge_sort String.le (elements wanted1))).
  assert (concat cs ≡ₚ elements wanted1) as Hcs.
  { unfold cs, Chunk. rewrite chunks_concat by (unfold latchResolveChunk; lia). apply merge_sort_Permutation. }
  assert (∀ x, x ∈ concat cs ↔ x ∈ wanted1) as Hin by (intros x; by rewrite Hcs, elem_of_elements).
  assert (NoDup (concat cs)) as Hnd by (rewrite Hcs; apply NoDup_elements).
  assert (k ∈ concat cs → settled1 !! k = None) as Hn1.
  { rewrite Hin. intros Hk. destruct Hrec as [(_ & ? & ->)|[(? & _)|(? & _)]]; [by apply Hn|done..]. }
  pose proof (resolve_chunks_key 0 cs settled1 k Hnd Hn1) as Hres.
  destruct (resolve_chunks shard db 0 cs settled1) as [settled2 m]. rewrite Hin in Hres.
  destruct Hres as (R1 & R2 & R3).
  assert (fail_recent db = None → ok = true) as Hokr by (unfold read_rows in Hrd; destruct (fail_recent db); by simplify_eq).
  split_and!.
  - intros Hk. destruct Hrec as [(_ & ? & _)|[(? & _ & <-)|(_ & ? & _)]]; [done|by apply R1|done].
  - intros Hk. destruct Hrec as [(? & _)|[(_ & ? & _)|(? & _ & <-)]]; [by apply R2|done|].
    right. by apply R1.
  - intros Hf. destruct (R3 Hf) as [-> R4]. split; [by intros ->%Hokr|]. intros Hk.
    destruct Hrec as [(? & _)|[(_ & ? & _)|(? & _ & <-)]]; [by apply R4|done|by apply R1].
Qed.
End shard.

(** ** The pass *)

Lemma elem_of_wanted shard flowKeys k : k ∈ wanted_of shard flowKeys ↔ k ∈ flowKeys ∧ key_shard k = Some shard.
Proof. unfold wanted_of. rewrite elem_of_list_to_set, list_elem_of_filter. tauto. Qed.

Lemma malformed_lookup flowKeys k :
  malformed flowKeys !! k = if bool_decide (k ∈ flowKeys ∧ key_shard k = None) then Some flowUnresolved else None.
Proof.
  unfold malformed. induction flowKeys as [|x l IH]; [done|]. rewrite filter_cons.
  destruct (decide (x = k)) as [->|Hne].
  - destruct (key_shard k) eqn:Hk.
    + rewrite decide_False by done. rewrite IH, !bool_decide_eq_false_2; naive_solver.
    + rewrite decide_True by done. simpl. rewrite lookup_insert_eq, bool_decide_eq_true_2; [done|]. split; [by left|done].
  - assert (bool_decide (k ∈ x :: l ∧ key_shard k = None) = bool_decide (k ∈ l ∧ key_shard k = None)) as ->.
    { apply bool_decide_ext. rewrite elem_of_cons. naive_solver. }
    destruct (decide (key_shard x = None)); [|exact IH]. rewrite fmap_cons. cbn [list_to_map foldr uncurry].
    rewrite lookup_insert_ne by done. exact IH.
Qed.

Definition shards_ok (shards : list (Z * shard_db)) : Prop :=
  NoDup shards.*1 ∧ ∀ s db, (s, db) ∈ shards → shard_ok s (tab db).

Lemma resolve_key DAM interval now shards flowKeys k :
  shards_ok shards →
  let '(settled, failures) := resolveStoppedFlows DAM interval now shards flowKeys in
  (∀ s db, key_shard k = Some s → (s, db) ∈ shards → k ∈ flowKeys →
     (settled !! k = None ∨ settled !! k = verdict s (tab db) k) ∧
     ((∀ j, fail_chunk db j = None) → settled !! k = verdict s (tab db) k)) ∧
  ((∀ s, key_shard k = Some s → s ∉ shards.*1 ∨ k ∉ flowKeys) → settled !! k = malformed flowKeys !! k) ∧
  ((∀ s db, (s, db) ∈ shards → fail_recent db = None ∧ ∀ j, fail_chunk db j = None) → failures = 0%nat).
Proof.
  unfold resolveStoppedFlows. induction shards as [|[s0 db0] shards IH] using rev_ind; intros [Hnd Hall].
  { simpl. split_and!; [intros s db _ Hin; by apply elem_of_nil in Hin|done|done]. }
  rewrite fmap_app in Hnd. apply NoDup_app in Hnd as (Hnd & Hnew & _).
  assert (shards_ok shards) as Hoks by (split; [done|intros s db Hin; apply Hall, elem_of_app; by left]).
  assert (s0 ∉ shards.*1) as Hs0 by (intros Hin; apply (Hnew s0 Hin); by left).
  specialize (IH Hoks). rewrite fold_left_app. simpl. destruct (fold_left _ shards _) as [settled failures].
  destruct IH as (I1 & I2 & I3).
  assert (shard_ok s0 (tab db0)) as Hok0 by (apply Hall, elem_of_app; right; by apply list_elem_of_singleton).
  pose proof (resolve_shard_key DAM s0 db0 Hok0 interval now (wanted_of s0 flowKeys) settled k) as Hr.
  assert (k ∈ wanted_of s0 flowKeys → settled !! k = None) as Hn.
  { intros [Hk Hks]%elem_of_wanted. rewrite I2, malformed_lookup.
    - rewrite bool_decide_eq_false_2; [done|]. intros [_ ?]. congruence.
    - intros s Hs. simplify_eq. by left. }
  specialize (Hr Hn). destruct (resolve_shard _ _ _ _ _ _ _) as [settled' n]. destruct Hr as (R1 & R2 & R3).
  rewrite elem_of_wanted in R1, R2, R3. split_and!.
  - intros s db Hs [Hin|Hin]%elem_of_app Hk.
    + assert (s ≠ s0) as Hne by (intros ->; apply Hs0, list_elem_of_fmap; by exists (s0, db)).
      rewrite R1 by (intros [_ ?]; congruence). by apply I1.
    + apply list_elem_of_singleton in Hin as [= -> ->]. split; [by apply R2|]. intros Hf. by apply (R3 Hf).
  - intros Hout. rewrite R1.
    + apply I2. intros s Hs. destruct (Hout s Hs) as [Hni|?]; [left|by right]. rewrite fmap_app, elem_of_app in Hni. tauto.
    + intros [Hk Hks]. destruct (Hout s0 Hks) as [Hni|?]; [|done]. apply Hni. rewrite fmap_app, elem_of_app. right. by left.
  - intros Hf. rewrite I3 by (intros s db Hin; apply (Hf s db), elem_of_app; by left).
    destruct (Hf s0 db0 ltac:(apply elem_of_app; right; by apply list_elem_of_singleton)) as [Hfr Hfc].
    destruct (R3 Hfc) as [Hz _]. by rewrite Hz.
Qed.

(** What the verdict says of a key built from its parts. *)
Lemma verdict_canonical s rows id token :
  shard_ok s rows → 0 ≤ id < 2 ^ 63 →
  verdict s rows (New s id token)
  = match find (λ r, bool_decide (flow_id r = id ∧ flow_token r = token)) rows with
    | None => Some flowUnresolved
    | Some r => if isStoppedStatus (f_status r) then Some (f_status r) else None
    end.
Proof.
  intros Hok Hid. destruct (find _ rows) as [r|] eqn:Hf.
  - apply find_some in Hf as [Hr [<- <-]%bool_decide_eq_true]. apply list_elem_of_In in Hr. by apply verdict_row.
  - apply verdict_none. intros r Hr He. pose proof (spells_parse s rows Hok r _ Hr He) as Hp.
    unfold ParseFlowKey in Hp. rewrite (parse_New ErrFlowKey s id token) in Hp by (apply Hok || done).
    apply list_elem_of_In in Hr. pose proof (find_none _ _ Hf r Hr) as Hn. apply bool_decide_eq_false in Hn. naive_solver.
Qed.

(** ** Properties *)

(** C27. A sweep's answer about a key is the key's verdict or silence.  For a flow key a caller is parked
    on, as the engine builds keys, whose shard is open: the pass either leaves it out or reports what
    the shard's row says - its status if the flow has stopped, nothing while it runs, "unresolved" when
    no row carries that id and token - however the statements of this shard or of any other fail; and
    if this shard's lookups come through it is reported exactly so, a failing pre-scan or a sick
    neighbour notwithstanding.  A malformed key is always reported, a key nobody asked about never. *)
Theorem resolver_answers_the_verdict DAM interval now shards flowKeys s db id token :
  shards_ok shards → (s, db) ∈ shards → 0 ≤ id < 2 ^ 63 → New s id token ∈ flowKeys →
  let '(settled, failures) := resolveStoppedFlows DAM interval now shards flowKeys in
  let truth := match find (λ r, bool_decide (flow_id r = id ∧ flow_token r = token)) (tab db) with
               | None => Some flowUnresolved
               | Some r => if isStoppedStatus (f_status r) then Some (f_status r) else None
               end in
  (settled !! New s id token = None ∨ settled !! New s id token = truth) ∧
  ((∀ j, fail_chunk db j = None) → settled !! New s id token = truth) ∧
  (∀ k, key_shard k = None → settled !! k = if bool_decide (k ∈ flowKeys) then Some flowUnresolved else None) ∧
  (∀ k, k ∉ flowKeys → settled !! k = None) ∧
  ((∀ s' db', (s', db') ∈ shards → fail_recent db' = None ∧ ∀ j, fail_chunk db' j = None) → failures = 0%nat).
Proof.
  intros Hok Hdb Hid Hk. pose proof (λ k, resolve_key DAM interval now shards flowKeys k Hok) as Hres.
  destruct (resolveStoppedFlows _ _ _ _ _) as [settled failures]. cbv zeta.
  assert (shard_ok s (tab db)) as Hoks by by apply Hok.
  rewrite <-(verdict_canonical s (tab db) id token Hoks Hid).
  assert (key_shard (New s id token) = Some s) as Hks.
  { unfold key_shard, ParseFlowKey. by rewrite parse_New by (apply Hoks || done). }
  destruct (Hres (New s id token)) as (H1 & _ & H3). destruct (H1 s db Hks Hdb Hk) as [Ha Hb].
  split_and!; [done|done| | |done].
  - intros k Hn. destruct (Hres k) as (_ & -> & _); [|intros ? ?; congruence]. rewrite malformed_lookup.
    erewrite bool_decide_ext; [reflexivity|]. tauto.
  - intros k Hn. destruct (Hres k) as (_ & -> & _); [|by right]. rewrite malformed_lookup, bool_decide_eq_false_2; tauto.
Qed.

Definition demo_db : shard_db :=
  mkShardDb [mkFlowRow 5 "t" "running" 0; mkFlowRow 6 "u" "completed" 0] None (λ _, None).

Lemma demo_shards_ok : shards_ok [(1, demo_db)].
Proof.
  split; [apply NoDup_singleton|]. intros s db Hin. apply list_elem_of_singleton in Hin as [= -> ->]. split; [lia| |].
  - apply (bool_decide_eq_true_1 _). vm_compute. reflexivity.
  - intros r Hr. repeat (apply elem_of_cons in Hr as [->|Hr]; [simpl; lia|]). by apply elem_of_nil in Hr.
Qed.

Lemma resolver_answers_the_verdict_witness :
  (resolveStoppedFlows Z.add 200 1000 [(1, demo_db)] ["1-6-u"; "1-5-t"]).1 !! "1-6-u" = Some "completed".
Proof.
  pose proof (resolver_answers_the_verdict Z.add 200 1000 [(1, demo_db)] ["1-6-u"; "1-5-t"] 1 demo_db 6 "u"
    demo_shards_ok ltac:(by left) ltac:(lia) ltac:(by left)) as H.
  destruct (resolveStoppedFlows _ _ _ _ _) as [settled failures]. destruct H as (_ & H & _).
  exact (H (λ _, eq_refl)).
Defined.

(** A key spelled otherwise is told the wrong thing.  "01-5-t" parses to the same shard, id and
    token as "1-5-t", so every read by its parts finds the running flow; the resolver reports it as
    naming no row and so releases its caller, while the canonical spelling stays parked. *)
Theorem resolver_misreads_respelled_keys :
  ParseFlowKey "01-5-t" = Ok (1, 5, "t") ∧
  let settled := (resolveStoppedFlows Z.add 200 1000 [(1, demo_db)] ["01-5-t"; "1-5-t"]).1 in
  settled !! "01-5-t" = Some flowUnresolved ∧ settled !! "1-5-t" = None.
Proof. vm_compute. split_and!; reflexivity. Qed.
