(* ===== verification/Reducers.v ===== *)
(** * Reducers ([workflow/reducers.go])

    The Go values a state field can hold once decoded, and the fold of each reducer on them.

    A value is what [encoding/json] decodes into an [any] (nil, bool, float64, string, []any and
    map[string]any), or a slice a reducer made itself: [appendInto] types its result by the first
    element it saw, so the element type of a slice is part of the value.  The other numeric kinds
    [combineNumeric] lists never come out of a decoded field and are not modelled. *)

From S2P Require Import Prelude Float64.

(** The [reflect.Type] of a value. *)
Inductive gtype := TAny | TBool | TFloat64 | TString | TMap | TSlice (elem : gtype).

#[export] Instance gtype_eq_dec : EqDecision gtype.
Proof. solve_decision. Defined.

Inductive val :=
| VNil
| VBool (b : bool)
| VNum (x : float64)
| VStr (s : string)
| VSlice (elem : gtype) (l : list val)
| VMap (m : list (string * val)).

(** [reflect.TypeOf]: none for a nil interface. *)
Definition type_of (v : val) : option gtype :=
  match v with
  | VNil => None
  | VBool _ => Some TBool
  | VNum _ => Some TFloat64
  | VStr _ => Some TString
  | VSlice t _ => Some (TSlice t)
  | VMap _ => Some TMap
  end.

(** [Type.AssignableTo]: the empty interface takes everything, the other types only themselves. *)
Definition assignable (src dst : gtype) : bool := bool_decide (dst = TAny ∨ src = dst).

(** ** Maps

    The entries of a Go map in some order, each key at most once. *)

Fixpoint obj_get (k : string) (m : list (string * val)) : option val :=
  match m with
  | [] => None
  | (k', v) :: m => if bool_decide (k = k') then Some v else obj_get k m
  end.

(** [SetMapIndex]. *)
Fixpoint obj_set (k : string) (v : val) (m : list (string * val)) : list (string * val) :=
  match m with
  | [] => [(k, v)]
  | (k', v') :: m => if bool_decide (k = k') then (k, v) :: m else (k', v') :: obj_set k v m
  end.

(** [reflect.DeepEqual] on two decoded values.  Numbers compare with [==]. *)
Fixpoint DeepEqual (a b : val) {struct a} : bool :=
  let fix list_eq (l1 l2 : list val) {struct l1} : bool :=
    match l1, l2 with
    | [], [] => true
    | x :: l1, y :: l2 => DeepEqual x y && list_eq l1 l2
    | _, _ => false
    end in
  let fix entries_in (m1 m2 : list (string * val)) {struct m1} : bool :=
    match m1 with
    | [] => true
    | (k, x) :: m1 =>
        match obj_get k m2 with Some y => DeepEqual x y | None => false end && entries_in m1 m2
    end in
  match a, b with
  | VNil, VNil => true
  | VBool x, VBool y => eqb x y
  | VNum x, VNum y => SFeqb x y
  | VStr x, VStr y => bool_decide (x = y)
  | VSlice t1 l1, VSlice t2 l2 => bool_decide (t1 = t2) && list_eq l1 l2
  | VMap m1, VMap m2 => Nat.eqb (length m1) (length m2) && entries_in m1 m2
  | _, _ => false
  end.

(** ** The folds *)

Abbreviation Reducer := string.
Definition ReducerReplace : Reducer := "replace".
Definition ReducerAppend : Reducer := "append".
Definition ReducerAdd : Reducer := "add".
Definition ReducerMin : Reducer := "min".
Definition ReducerMax : Reducer := "max".
Definition ReducerUnion : Reducer := "union".
Definition ReducerMerge : Reducer := "merge".
Definition ReducerAnd : Reducer := "and".
Definition ReducerOr : Reducer := "or".
Definition ReducerConcat : Reducer := "concat".

Inductive reduce_error :=
| ErrIncomingNil (reducer : string)
| ErrBaseNotList (reducer : string)
| ErrNotElement (reducer : string)
| ErrNotNumeric (reducer : string)
| ErrTypesDiffer (reducer : string)
| ErrUnsupported (reducer : string)
| ErrIncomingKind (reducer : string)
| ErrBaseKind (reducer : string)
| ErrUnknownReducer (reducer : string).

(** The closure [add] of [appendInto] over the result so far. *)
Definition append_elem (dedupe : bool) (out : list val) (v : val) : list val :=
  if dedupe && existsb (λ o, DeepEqual o v) out then out else out ++ [v].

Definition appendInto (name : string) (base incoming : val) (dedupe : bool) : result reduce_error val :=
  match type_of incoming with
  | None => Err (ErrIncomingNil name)
  | Some incType =>
      let inc_elems := match incoming with VSlice t l => Some (t, l) | _ => None end in
      let with_base (hasBase : bool) (elemType : gtype) (out : list val) : result reduce_error val :=
        let spread :=
          match inc_elems with
          | None => None
          | Some (t, l) =>
              if negb hasBase || bool_decide (t = elemType)
                 || (assignable t elemType && negb (assignable incType elemType))
              then Some l else None
          end in
        match spread with
        | Some l => Ok (VSlice elemType (fold_left (append_elem dedupe) l out))
        | None =>
            if assignable incType elemType then Ok (VSlice elemType (append_elem dedupe out incoming))
            else Err (ErrNotElement name)
        end in
      match base with
      | VNil => with_base false (match inc_elems with Some (t, _) => t | None => incType end) []
      | VSlice t out => with_base true t out
      | _ => Err (ErrBaseNotList name)
      end
  end.

Definition doAppend (base incoming : val) : result reduce_error val :=
  appendInto "append" base incoming false.
Definition doUnion (base incoming : val) : result reduce_error val :=
  appendInto "union" base incoming true.

Inductive numericOp := opAdd | opMin | opMax.

(** [numericApply] at [float64]. *)
Definition numericApply (op : numericOp) (a b : float64) : float64 :=
  match op with opAdd => fadd a b | opMin => fmin a b | opMax => fmax a b end.

Definition isNumeric (v : val) : bool := match v with VNum _ => true | _ => false end.

Definition combineNumeric (name : string) (op : numericOp) (base incoming : val)
    : result reduce_error val :=
  match incoming with
  | VNil => Err (ErrIncomingNil name)
  | _ =>
      match base with
      | VNil => if isNumeric incoming then Ok incoming else Err (ErrNotNumeric name)
      | _ =>
          if bool_decide (type_of base ≠ type_of incoming) then Err (ErrTypesDiffer name) else
          match base, incoming with
          | VNum b, VNum i => Ok (VNum (numericApply op b i))
          | _, _ => Err (ErrUnsupported name)
          end
      end
  end.

Definition doAdd : val → val → result reduce_error val := combineNumeric "add" opAdd.
Definition doMin : val → val → result reduce_error val := combineNumeric "min" opMin.
Definition doMax : val → val → result reduce_error val := combineNumeric "max" opMax.

Definition combineBool (name : string) (base incoming : val) (op : bool → bool → bool)
    : result reduce_error val :=
  match incoming with
  | VNil => Err (ErrIncomingNil name)
  | VBool ib =>
      match base with
      | VNil => Ok incoming
      | VBool bb => Ok (VBool (op bb ib))
      | _ => Err (ErrBaseKind name)
      end
  | _ => Err (ErrIncomingKind name)
  end.

Definition doAnd (base incoming : val) : result reduce_error val := combineBool "and" base incoming andb.
Definition doOr (base incoming : val) : result reduce_error val := combineBool "or" base incoming orb.

Definition doConcat (base incoming : val) : result reduce_error val :=
  match incoming with
  | VNil => Err (ErrIncomingNil "concat")
  | VStr is_ =>
      match base with
      | VNil => Ok incoming
      | VStr bs => Ok (VStr (bs +:+ is_))
      | _ => Err (ErrBaseKind "concat")
      end
  | _ => Err (ErrIncomingKind "concat")
  end.

Definition doMerge (base incoming : val) : result reduce_error val :=
  match incoming with
  | VNil => Err (ErrIncomingNil "merge")
  | VMap im =>
      match base with
      | VNil => Ok (VMap im)
      | VMap bm => Ok (VMap (fold_left (λ m e, obj_set e.1 e.2 m) im bm))
      | _ => Err (ErrBaseKind "merge")
      end
  | _ => Err (ErrIncomingKind "merge")
  end.

(** [Reducer.Reduce]. *)
Definition Reduce (r : Reducer) (base incoming : val) : result reduce_error val :=
  if bool_decide (r = ReducerAppend) then doAppend base incoming
  else if bool_decide (r = ReducerUnion) then doUnion base incoming
  else if bool_decide (r = ReducerAdd) then doAdd base incoming
  else if bool_decide (r = ReducerMin) then doMin base incoming
  else if bool_decide (r = ReducerMax) then doMax base incoming
  else if bool_decide (r = ReducerAnd) then doAnd base incoming
  else if bool_decide (r = ReducerOr) then doOr base incoming
  else if bool_decide (r = ReducerConcat) then doConcat base incoming
  else if bool_decide (r = ReducerMerge) then doMerge base incoming
  else if bool_decide (r = ReducerReplace ∨ r = "") then Ok incoming
  else Err (ErrUnknownReducer r).

(** ** What the folds return *)

Inductive kind := KList | KNumber | KBool | KString | KObject.

Definition has_kind (K : kind) (v : val) : bool :=
  match K, v with
  | KList, VSlice _ _ | KNumber, VNum _ | KBool, VBool _ | KString, VStr _ | KObject, VMap _ => true
  | _, _ => false
  end.

(** The combining reducers and the kind of field each is for. *)
Definition result_kind (r : Reducer) : option kind :=
  if bool_decide (r = ReducerAppend ∨ r = ReducerUnion) then Some KList
  else if bool_decide (r = ReducerAdd ∨ r = ReducerMin ∨ r = ReducerMax) then Some KNumber
  else if bool_decide (r = ReducerAnd ∨ r = ReducerOr) then Some KBool
  else if bool_decide (r = ReducerConcat) then Some KString
  else if bool_decide (r = ReducerMerge) then Some KObject
  else None.

(** Case analysis over the reducer names. *)
Ltac reducer_cases r :=
  repeat match goal with
  | H : context [bool_decide (r = ?x)] |- _ => destruct (bool_decide_reflect (r = x)) as [->|]; simpl in H
  | |- context [bool_decide (r = ?x)] => destruct (bool_decide_reflect (r = x)) as [->|]; simpl
  end.

(** A combining reducer is one of the nine folds. *)
Lemma Reduce_spec r K : result_kind r = Some K →
  (r = ReducerAppend ∧ K = KList ∧ Reduce r = doAppend) ∨ (r = ReducerUnion ∧ K = KList ∧ Reduce r = doUnion) ∨
  (r = ReducerAdd ∧ K = KNumber ∧ Reduce r = doAdd) ∨ (r = ReducerMin ∧ K = KNumber ∧ Reduce r = doMin) ∨
  (r = ReducerMax ∧ K = KNumber ∧ Reduce r = doMax) ∨ (r = ReducerAnd ∧ K = KBool ∧ Reduce r = doAnd) ∨
  (r = ReducerOr ∧ K = KBool ∧ Reduce r = doOr) ∨ (r = ReducerConcat ∧ K = KString ∧ Reduce r = doConcat) ∨
  (r = ReducerMerge ∧ K = KObject ∧ Reduce r = doMerge).
Proof.
  unfold result_kind. intros H.
  repeat match goal with
  | H : (if bool_decide ?P then _ else _) = Some _ |- _ =>
      destruct (bool_decide_reflect P) as [Hr|_]; [injection H as <-|]
  end; [..|done];
    repeat match goal with H : _ ∨ _ |- _ => destruct H as [H|H] end; subst r; naive_solver.
Qed.

Lemma Reduce_unknown r base inc v :
  result_kind r = None → Reduce r base inc = Ok v → r = ReducerReplace ∨ r = "".
Proof.
  unfold result_kind, Reduce. intros Hk H.
  repeat match type of H with
  | (if bool_decide (?a = ?b) then _ else _) = _ =>
      destruct (bool_decide_reflect (a = b)) as [->|]; [by vm_compute in Hk|]
  end.
  by case_bool_decide.
Qed.

Lemma Reduce_other r base inc : result_kind r = None →
  Reduce r base inc = if bool_decide (r = ReducerReplace ∨ r = "") then Ok inc else Err (ErrUnknownReducer r).
Proof.
  unfold result_kind, Reduce. intros Hk.
  repeat match goal with
  | |- (if bool_decide (?a = ?b) then _ else _) = _ => destruct (bool_decide_reflect (a = b)) as [->|]; [by vm_compute in Hk|]
  end. done.
Qed.

(** The shape of a successful append: what is added, and onto what. *)
Lemma appendInto_Ok name base inc dedupe v :
  appendInto name base inc dedupe = Ok v →
  inc ≠ VNil ∧ ∃ t out add,
    (base = VNil ∧ out = [] ∨ base = VSlice t out) ∧
    (add = [inc] ∨ ∃ t', inc = VSlice t' add) ∧
    v = VSlice t (fold_left (append_elem dedupe) add out).
Proof.
  unfold appendInto. destruct (type_of inc) as [ti|] eqn:Hti; [|done].
  intros H. split; [by intros ->|].
  destruct base as [| | | |t out|]; try done;
    (destruct inc as [| | | |t' l|]; simpl in H; try done;
     repeat case_match; simplify_eq; eexists _, _;
     match goal with |- context [append_elem dedupe _ ?i] => exists [i] | _ => eexists _ end;
     (split; [eauto|]); (split; [|reflexivity]); eauto).
Qed.

Lemma reduce_kind r K base inc v :
  result_kind r = Some K → Reduce r base inc = Ok v →
  has_kind K v = true ∧ (base = VNil ∨ has_kind K base = true).
Proof.
  intros HK H. destruct (Reduce_spec _ _ HK) as [HR|HR];
    repeat (destruct HR as [HR|HR]); destruct HR as (-> & -> & HR); rewrite HR in H.
  1,2: apply appendInto_Ok in H as (_ & t & out & add & Hb & _ & ->); naive_solver.
  all: unfold doAdd, doMin, doMax, doAnd, doOr, doConcat, doMerge, combineNumeric, combineBool in H;
    repeat case_match; simplify_eq; naive_solver.
Qed.

(** ** Union as a set *)

(** No element equals an earlier one. *)
Fixpoint distinct (l : list val) : bool :=
  match l with
  | [] => true
  | x :: l => forallb (λ y, negb (DeepEqual x y)) l && distinct l
  end.

Lemma distinct_snoc l v :
  distinct l = true → existsb (λ o, DeepEqual o v) l = false → distinct (l ++ [v]) = true.
Proof.
  induction l as [|x l IH]; simpl; [done|].
  rewrite !andb_true_iff, orb_false_iff, forallb_app. simpl. rewrite andb_true_r, !andb_true_iff.
  intros [Hx Hl] [Hv Hn]. rewrite Hv. auto.
Qed.

Lemma append_elem_distinct out v : distinct out = true → distinct (append_elem true out v) = true.
Proof.
  intros H. unfold append_elem. simpl. destruct existsb eqn:He; [done|by apply distinct_snoc].
Qed.

Lemma fold_append_distinct add out :
  distinct out = true → distinct (fold_left (append_elem true) add out) = true.
Proof. revert out. induction add; intros out H; simpl; auto using append_elem_distinct. Qed.

(** The elements already in the accumulator keep their places. *)
Lemma fold_append_prefix dedupe add out :
  ∃ more, fold_left (append_elem dedupe) add out = out ++ more.
Proof.
  revert out. induction add as [|v add IH]; intros out; simpl; [by exists []; rewrite app_nil_r|].
  destruct (IH (append_elem dedupe out v)) as [more ->]. unfold append_elem.
  destruct (dedupe && _); [by exists more|]. exists (v :: more). by rewrite <-app_assoc.
Qed.

(** Nothing but what was added, and nothing added is missing. *)
Lemma fold_append_elem dedupe add out x :
  x ∈ fold_left (append_elem dedupe) add out → x ∈ out ∨ x ∈ add.
Proof.
  revert out. induction add as [|v add IH]; intros out; simpl; [by left|].
  intros [H|H]%IH; [|by right; right]. revert H. unfold append_elem.
  destruct (dedupe && _); [by left|]. rewrite elem_of_app, list_elem_of_singleton. intros [?| ->]; [by left|].
  right. by left.
Qed.

Lemma fold_append_new add out more : fold_left (append_elem true) add out = out ++ more → ∀ x, x ∈ more → x ∈ add.
Proof.
  revert out more. induction add as [|v add IH]; intros out more; cbn [fold_left].
  - intros H x Hx. assert (more = []) as -> by (apply (app_inv_head out); by rewrite app_nil_r). by apply elem_of_nil in Hx.
  - unfold append_elem at 2. destruct (true && _); [intros H x Hx; right; by eapply IH|].
    intros H. destruct (fold_append_prefix true add (out ++ [v])) as [m Hm]. rewrite Hm, <- app_assoc in H. apply app_inv_head in H as <-.
    intros x [->|Hx]%elem_of_cons; [by left|]. right. by eapply IH.
Qed.

Lemma fold_append_covers dedupe add out x :
  x ∈ add → ∃ o, o ∈ fold_left (append_elem dedupe) add out ∧ (o = x ∨ DeepEqual o x = true).
Proof.
  revert out. induction add as [|v add IH]; intros out Hx; [by apply elem_of_nil in Hx|]. simpl.
  apply elem_of_cons in Hx as [->|Hx]; [|by apply IH].
  destruct (fold_append_prefix dedupe add (append_elem dedupe out v)) as [more ->].
  unfold append_elem. destruct (dedupe && existsb _ out) eqn:Hd.
  - apply andb_true_iff in Hd as [_ Hd]. apply existsb_exists in Hd as (o & Ho%list_elem_of_In & He).
    exists o. set_solver.
  - exists v. set_solver.
Qed.

Lemma fold_append_all add out : fold_left (append_elem false) add out = out ++ add.
Proof.
  revert out. induction add as [|v add IH]; intros out; simpl; [by rewrite app_nil_r|].
  rewrite IH. unfold append_elem. simpl. by rewrite <-app_assoc.
Qed.

(** What a reducer of kind [K] takes: a list reducer takes one element as well as a list. *)
Definition accepts (K : kind) (inc : val) : bool :=
  match K with KList => bool_decide (type_of inc ≠ None) | _ => has_kind K inc end.

(** A slice out of the decoder is a [[]any]. *)
Definition decoded (v : val) : Prop := match v with VSlice t _ => t = TAny | _ => True end.

Lemma appendInto_total name base inc dedupe :
  decoded base → base = VNil ∨ has_kind KList base = true → accepts KList inc = true →
  ∃ v, appendInto name base inc dedupe = Ok v.
Proof.
  unfold accepts. intros Hd Hb Hi%bool_decide_eq_true. unfold appendInto, assignable.
  destruct Hb as [->|Hb]; [|destruct base as [| | | |t out|]; try done; simpl in Hd; subst t];
    destruct inc; simpl in *; try done; repeat case_bool_decide; simpl; eauto; naive_solver.
Qed.

(** ** Folding a slice whose element type narrowed

    Re-encoding an accumulator forgets its element type; the folds give the same elements. *)

(** The element type of a slice is not part of its JSON. *)
Definition canon (v : val) : val := match v with VSlice _ l => VSlice TAny l | _ => v end.

(** The accumulators [appendInto] makes: never a slice of slices. *)
Definition flat (v : val) : Prop := match v with VSlice (TSlice _) _ => False | _ => True end.

Lemma appendInto_canon name base inc dedupe v :
  flat base → canon inc = inc → appendInto name base inc dedupe = Ok v →
  flat v ∧ ∃ v', appendInto name (canon base) inc dedupe = Ok v' ∧ canon v' = canon v.
Proof.
  unfold flat, appendInto, assignable. intros Hf Hc.
  destruct base as [| | | |[| | | | |t] out|], inc as [| | | |t' l|]; simpl in *; simplify_eq;
    try done; intros H; repeat case_bool_decide; simplify_eq/=; try naive_solver.
Qed.

Lemma Reduce_canon r K base inc v :
  result_kind r = Some K → flat base → canon inc = inc → Reduce r base inc = Ok v →
  flat v ∧ ∃ v', Reduce r (canon base) inc = Ok v' ∧ canon v' = canon v.
Proof.
  intros HK Hf Hc H. pose proof (reduce_kind _ _ _ _ _ HK H) as [HKv HKb].
  destruct (Reduce_spec _ _ HK) as [HR|HR]; repeat (destruct HR as [HR|HR]);
    destruct HR as (-> & -> & HR); rewrite HR in *; [by eapply appendInto_canon..| | | | | | |];
    (assert (canon base = base) as -> by (destruct HKb as [->|HKb]; [done|by destruct base]));
    (split; [by destruct v|eauto]).
Qed.

(** ** Property *)

(** What a list reducer adds: the elements of a list read as one, else the contribution as one element. *)
Definition items (v : val) : list val := match v with VSlice _ l => l | _ => [] end.
Definition is_nil (v : val) : bool := match v with VNil => true | _ => false end.
Definition added (base inc : val) : list val :=
  match inc with VSlice t l => if is_nil base || bool_decide (t = TAny) then l else [inc] | _ => [inc] end.

(** What the documentation of each reducer says of the folded value. *)
Record folded (r : Reducer) (base inc v : val) : Prop := {
  fold_append : r = ReducerAppend → items v = items base ++ added base inc;
  fold_union : r = ReducerUnion → ∃ more, items v = items base ++ more ∧ (∀ x, x ∈ more → x ∈ added base inc)
    ∧ (∀ x, x ∈ added base inc → ∃ o, o ∈ items v ∧ (o = x ∨ DeepEqual o x = true))
    ∧ (distinct (items base) = true → distinct (items v) = true);
  fold_seed : r ≠ ReducerAppend → r ≠ ReducerUnion → base = VNil → v = inc;
  fold_add : r = ReducerAdd → ∀ b i, base = VNum b → inc = VNum i → v = VNum (fadd b i);
  fold_min : r = ReducerMin → ∀ b i, base = VNum b → inc = VNum i → ∃ w, v = VNum w
    ∧ if is_nan b || is_nan i then is_nan w = true else (w = b ∨ w = i) ∧ flt b w = false ∧ flt i w = false;
  fold_max : r = ReducerMax → ∀ b i, base = VNum b → inc = VNum i → ∃ w, v = VNum w
    ∧ if is_nan b || is_nan i then is_nan w = true else (w = b ∨ w = i) ∧ flt w b = false ∧ flt w i = false;
  fold_and : r = ReducerAnd → ∀ b i, base = VBool b → inc = VBool i → v = VBool (b && i);
  fold_or : r = ReducerOr → ∀ b i, base = VBool b → inc = VBool i → v = VBool (b || i);
  fold_concat : r = ReducerConcat → ∀ b i, base = VStr b → inc = VStr i → v = VStr (b +:+ i);
  fold_merge : r = ReducerMerge → ∀ b i, base = VMap b → inc = VMap i → NoDup i.*1 → ∃ m, v = VMap m
    ∧ ∀ k, obj_get k m = match obj_get k i with Some x => Some x | None => obj_get k b end
}.

(** The error of a reducer that refuses: a nil contribution first, then the contribution's kind, then the field's;
    a number is told apart from what only has the field's type. *)
Definition refusal (r : Reducer) (K : kind) (base inc : val) : reduce_error :=
  if is_nil inc then ErrIncomingNil r else
  match K with
  | KList => ErrBaseNotList r
  | KNumber => if is_nil base then ErrNotNumeric r
               else if bool_decide (type_of base = type_of inc) then ErrUnsupported r else ErrTypesDiffer r
  | _ => if has_kind K inc then ErrBaseKind r else ErrIncomingKind r
  end.

Lemma obj_get_set k k' x m : obj_get k (obj_set k' x m) = if bool_decide (k = k') then Some x else obj_get k m.
Proof.
  induction m as [|[k1 v1] m IH]; simpl; [by case_bool_decide|].
  destruct (decide (k' = k1)) as [->|Hne]; [rewrite (bool_decide_eq_true_2 (k1 = k1)) by done; simpl; by repeat case_bool_decide|].
  rewrite (bool_decide_eq_false_2 (k' = k1)) by done. simpl. rewrite IH. repeat case_bool_decide; congruence.
Qed.
Lemma obj_get_absent k m : k ∉ m.*1 → obj_get k m = None.
Proof.
  induction m as [|[k1 v1] m IH]; [done|]. rewrite fmap_cons, not_elem_of_cons. intros [H1 H2]. simpl in H1 |- *.
  rewrite bool_decide_eq_false_2 by done. by apply IH.
Qed.
Lemma merged_get k im : NoDup im.*1 → ∀ bm,
  obj_get k (fold_left (λ m e, obj_set e.1 e.2 m) im bm) = match obj_get k im with Some x => Some x | None => obj_get k bm end.
Proof.
  induction im as [|[k1 x] im IH]; intros Hnd bm; [done|]. rewrite fmap_cons in Hnd. apply NoDup_cons in Hnd as [Hn Hnd].
  cbn [fold_left fst snd]. rewrite (IH Hnd), obj_get_set. simpl. simpl in Hn. case_bool_decide as Hk; [subst k1|done].
  by rewrite (obj_get_absent k im Hn).
Qed.

Lemma appendInto_spec name base inc dedupe : decoded base →
  appendInto name base inc dedupe =
    if is_nil inc then Err (ErrIncomingNil name)
    else if is_nil base || has_kind KList base then
      Ok (VSlice (match base, inc with
                  | VSlice t _, _ => t
                  | _, VSlice t _ => t
                  | _, _ => default TAny (type_of inc)
                  end) (fold_left (append_elem dedupe) (added base inc) (items base)))
    else Err (ErrBaseNotList name).
Proof.
  unfold appendInto, added, assignable. intros Hd.
  destruct base as [| | | |t out|], inc as [| | | |t' l|]; simpl in Hd |- *; subst; try done; repeat case_bool_decide; simpl; try done; naive_solver.
Qed.

Lemma fmin_spec b i : if is_nan b || is_nan i then is_nan (fmin b i) = true
  else (fmin b i = b ∨ fmin b i = i) ∧ flt b (fmin b i) = false ∧ flt i (fmin b i) = false.
Proof.
  unfold fmin. destruct (is_nan b) eqn:Hb; [done|]. destruct (is_nan i) eqn:Hi; [done|]. cbn [orb].
  destruct (is_zero b && is_zero i) eqn:Hz.
  - apply andb_true_iff in Hz as [Hzb Hzi]. destruct b as [sb| | |], i as [si| | |]; try done. by destruct sb, si; auto.
  - destruct (flt i b) eqn:Hlt; [|by auto using flt_irrefl]. split_and!; [by right| |apply flt_irrefl].
    apply not_true_iff_false. intros Hbi. pose proof (flt_trans _ _ _ Hlt Hbi) as H. by rewrite flt_irrefl in H.
Qed.
Lemma fmax_spec b i : if is_nan b || is_nan i then is_nan (fmax b i) = true
  else (fmax b i = b ∨ fmax b i = i) ∧ flt (fmax b i) b = false ∧ flt (fmax b i) i = false.
Proof.
  unfold fmax. destruct (is_nan b) eqn:Hb; [done|]. destruct (is_nan i) eqn:Hi; [done|]. cbn [orb].
  destruct (is_zero b && is_zero i) eqn:Hz.
  - apply andb_true_iff in Hz as [Hzb Hzi]. destruct b as [sb| | |], i as [si| | |]; try done. by destruct sb, si; auto.
  - destruct (flt b i) eqn:Hlt; [|by auto using flt_irrefl]. split_and!; [by right| |apply flt_irrefl].
    apply not_true_iff_false. intros Hbi. pose proof (flt_trans _ _ _ Hlt Hbi) as H. by rewrite flt_irrefl in H.
Qed.

Lemma appended r base inc dedupe v : (r = ReducerAppend ∧ dedupe = false ∨ r = ReducerUnion ∧ dedupe = true) →
  items v = fold_left (append_elem dedupe) (added base inc) (items base) → folded r base inc v.
Proof.
  intros Hr Hv. split; try (intros ->; by destruct Hr as [[??]|[??]]); try (intros; by destruct Hr as [[-> _]|[-> _]]).
  - intros ->. destruct Hr as [[_ ->]|[? _]]; [|done]. by rewrite Hv, fold_append_all.
  - intros ->. destruct Hr as [[? _]|[_ ->]]; [done|]. destruct (fold_append_prefix true (added base inc) (items base)) as [more Hm].
    rewrite Hm in Hv. exists more. rewrite Hv. split_and!; [done| | |].
    + intros x Hx. pose proof (fold_append_new (added base inc) (items base) more Hm). auto.
    + rewrite <- Hm. apply fold_append_covers.
    + rewrite <- Hm. apply fold_append_distinct.
Qed.

(** C19. A reducer does what its documentation says and refuses the rest with the error that fits.  On a decoded field
    a combining reducer succeeds exactly when the field is absent or of the reducer's kind and the contribution is
    one it takes; the field is then of that kind and holds the fold - the sum, the smaller or the larger number,
    the conjunction or disjunction, the strings or lists joined, the set union, the objects merged with the
    contribution winning - and otherwise the error names the reducer and what was wrong.  Replace takes
    the contribution as it is, and a name that is no reducer's is refused. *)
Theorem reducers_are_typed r base inc : decoded base →
  match result_kind r with
  | Some K =>
      if (is_nil base || has_kind K base) && accepts K inc
      then ∃ v, Reduce r base inc = Ok v ∧ has_kind K v = true ∧ folded r base inc v
      else Reduce r base inc = Err (refusal r K base inc)
  | None => Reduce r base inc = if bool_decide (r = ReducerReplace ∨ r = "") then Ok inc else Err (ErrUnknownReducer r)
  end.
Proof.
  intros Hd. destruct (result_kind r) as [K|] eqn:HK; [|by apply Reduce_other].
  destruct (Reduce_spec _ _ HK) as [HR|HR]; repeat (destruct HR as [HR|HR]); destruct HR as (-> & -> & HR); rewrite HR; clear HR HK.
  1, 2: unfold doAppend, doUnion; rewrite appendInto_spec by done; destruct (is_nil base || has_kind KList base) eqn:Hb;
    (destruct inc; simpl; try done; rewrite ?Hb; try (by destruct base)); eexists; (split; [done|]); (split; [done|]);
    by eapply appended; [auto|].
  all: unfold doAdd, doMin, doMax, doAnd, doOr, doConcat, doMerge, combineNumeric, combineBool, refusal;
    destruct base, inc; simpl; try done; try (by repeat case_bool_decide; simplify_eq).
  all: eexists; (split; [done|]); (split; [done|]); split; try done; intros _ b' i' [= <-] [= <-]; try done.
  - eexists. split; [done|]. apply fmin_spec.
  - eexists. split; [done|]. apply fmax_spec.
  - intros Hn. eexists. split; [done|]. intros k. by apply merged_get.
Qed.

Lemma reducers_are_typed_witness :
  (∃ v, Reduce ReducerMin (VNum (of_int 3)) (VNum (of_int 2)) = Ok v ∧ has_kind KNumber v = true
     ∧ folded ReducerMin (VNum (of_int 3)) (VNum (of_int 2)) v)
  ∧ Reduce ReducerAnd (VBool true) (VStr "x") = Err (ErrIncomingKind "and").
Proof.
  split; [apply (reducers_are_typed ReducerMin (VNum (of_int 3)) (VNum (of_int 2)) I)|apply (reducers_are_typed ReducerAnd (VBool true) (VStr "x") I)].
Defined.

(** Union keeps a set: the elements already accumulated stay in place, every element of the
    contribution is then present up to [DeepEqual], nothing else is added, and a list without
    duplicates has none afterwards. *)
Theorem union_keeps_a_set t out inc v :
  Reduce ReducerUnion (VSlice t out) inc = Ok v →
  ∃ more add, v = VSlice t (out ++ more) ∧
    (add = [inc] ∨ ∃ t', inc = VSlice t' add) ∧
    (∀ x, x ∈ more → x ∈ add) ∧
    (∀ x, x ∈ add → ∃ o, o ∈ out ++ more ∧ (o = x ∨ DeepEqual o x = true)) ∧
    (distinct out = true → distinct (out ++ more) = true).
Proof.
  change (Reduce ReducerUnion (VSlice t out) inc) with (appendInto "union" (VSlice t out) inc true).
  intros (_ & t' & out' & add & [[??]|[= <- <-]] & Hadd & ->)%appendInto_Ok; [done|].
  assert (∀ add out, ∃ more, fold_left (append_elem true) add out = out ++ more ∧ ∀ x, x ∈ more → x ∈ add)
    as Hmore.
  { clear. induction add as [|v add IH]; intros out; simpl.
    - exists []. rewrite app_nil_r. set_solver.
    - destruct (IH (append_elem true out v)) as (more & -> & Hm). unfold append_elem.
      destruct (true && _); [exists more; set_solver|]. exists (v :: more). rewrite <-app_assoc.
      split; [done|set_solver]. }
  destruct (Hmore add out) as (more & Hf & Hm). exists more, add. rewrite Hf.
  split_and!; [done..| |]; rewrite <-Hf; eauto using fold_append_covers, fold_append_distinct.
Qed.

Lemma union_keeps_a_set_witness :
  ∃ more add, VSlice TAny [VBool true; VStr "a"; VBool false] = VSlice TAny ([VBool true; VStr "a"] ++ more) ∧
    (add = [VSlice TAny [VStr "a"; VBool false]]
     ∨ ∃ t', VSlice TAny [VStr "a"; VBool false] = VSlice t' add) ∧
    (∀ x, x ∈ more → x ∈ add) ∧
    (∀ x, x ∈ add → ∃ o, o ∈ [VBool true; VStr "a"] ++ more ∧ (o = x ∨ DeepEqual o x = true)) ∧
    (distinct [VBool true; VStr "a"] = true → distinct ([VBool true; VStr "a"] ++ more) = true).
Proof. apply union_keeps_a_set. reflexivity. Defined.
