(* ===== verification/State.v ===== *)
(** * State ([workflow/state.go], [workflow/statehelpers.go])

    The key/value carrier of workflow data: a map from field names to JSON.  A stored field is the
    value its bytes decode to, or bytes that do not parse ([SetJSON] does not validate).  A map is
    ranged over in no specified order, so a delta that is merged in comes as the list of its entries
    in the order the loop met them, and the write-back of [MergeReduceAll] takes its order as an
    argument.  The nil map of a zero [State] is the empty map here. *)

From S2P Require Import Prelude Float64 Reducers.

(** A [json.RawMessage]. *)
Inductive raw := Raw (v : val) | Malformed (b : string).

Abbreviation State := (gmap string raw).
Abbreviation entries := (list (string * raw)).
Abbreviation reducer_map := (gmap string Reducer).

(** A JSON null is the delete tombstone; [Malformed ""] is the nil slice, which marshals as null. *)
Definition isCleared (r : raw) : bool :=
  match r with Raw VNil => true | Malformed b => bool_decide (b = "") | _ => false end.

(** [encoding/json] refuses the two infinities and NaN. *)
Definition finite (x : float64) : bool :=
  match x with S754_infinity _ | S754_nan => false | _ => true end.

Fixpoint encodable (v : val) : bool :=
  match v with
  | VNum x => finite x
  | VSlice _ l => forallb encodable l
  | VMap m => forallb (λ e, encodable e.2) m
  | _ => true
  end.

Inductive state_error :=
| ErrReduce (field : string) (e : reduce_error)
| ErrDecode (field : string)
| ErrEncode (field : string).

(** [json.Marshal]. *)
Definition encode (k : string) (v : val) : result state_error raw :=
  if encodable v then Ok (Raw (canon v)) else Err (ErrEncode k).

(** [decodeValue], on the field [k] of a map. *)
Definition decodeValue (k : string) (r : option raw) : result state_error val :=
  match r with
  | None => Ok VNil
  | Some r => if isCleared r then Ok VNil else
              match r with Raw v => Ok v | Malformed _ => Err (ErrDecode k) end
  end.

(** ** Reading and writing fields *)

Definition Set_ (name : string) (v : val) (s : State) : result state_error State :=
  r ←? encode name v; Ok (<[name := r]> s).

Definition SetJSON (name : string) (r : raw) (s : State) : State := <[name := r]> s.

Definition Has (s : State) (name : string) : bool :=
  match s !! name with Some r => negb (isCleared r) | None => false end.

Definition IsDeleted (s : State) (name : string) : bool :=
  match s !! name with Some r => isCleared r | None => false end.

Fixpoint Del (names : list string) (s : State) : State :=
  match names with [] => s | n :: names => Del names (delete n s) end.

(** [Get] into an [any]: [None] when the field is absent or cleared. *)
Definition Get (s : State) (name : string) : result state_error (option val) :=
  match s !! name with
  | None => Ok None
  | Some r => if isCleared r then Ok None else
              match r with Raw v => Ok (Some v) | Malformed _ => Err (ErrDecode name) end
  end.

(** Enacts the tombstones a merge preserves. *)
Definition DelNils (s : State) : State := filter (λ e, isCleared e.2 = false) s.

(** ** Merging *)

Section merge.
Context (reducers : reducer_map).

Definition reducer_of (k : string) : Reducer := default "" (reducers !! k).
Definition replaces (k : string) : bool :=
  bool_decide (reducer_of k = "" ∨ reducer_of k = ReducerReplace).

(** Lifts a reducer's error to the field it names. *)
Definition fold_value (k : string) (base inc : val) : result state_error val :=
  match Reduce (reducer_of k) base inc with Ok v => Ok v | Err e => Err (ErrReduce k e) end.

(** One turn of the loop of [MergeReduce]. *)
Definition merge_field (k : string) (v : raw) (s : State) : result state_error State :=
  if replaces k then Ok (<[k := v]> s)
  else if isCleared v then Ok s
  else
    base ←? decodeValue k (s !! k);
    inc ←? decodeValue k (Some v);
    res ←? fold_value k base inc;
    r ←? encode k res;
    Ok (<[k := r]> s).

(** The receiver afterwards and the error, if any: the fields before it have been applied. *)
Fixpoint MergeReduce (incoming : entries) (s : State) : State * option state_error :=
  match incoming with
  | [] => (s, None)
  | (k, v) :: incoming =>
      match merge_field k v s with
      | Ok s => MergeReduce incoming s
      | Err e => (s, Some e)
      end
  end.

(** The decoded accumulators of [MergeReduceAll], next to the receiver. *)
Definition all_field (k : string) (v : raw) (st : State * gmap string val)
    : result state_error (State * gmap string val) :=
  let '(s, acc) := st in
  if replaces k then Ok (<[k := v]> s, acc)
  else if isCleared v then Ok (s, acc)
  else
    base ←? match acc !! k with Some a => Ok a | None => decodeValue k (s !! k) end;
    inc ←? decodeValue k (Some v);
    res ←? fold_value k base inc;
    Ok (s, <[k := res]> acc).

Fixpoint all_fields (incoming : entries) (st : State * gmap string val)
    : State * gmap string val * option state_error :=
  match incoming with
  | [] => (st, None)
  | (k, v) :: incoming =>
      match all_field k v st with
      | Ok st => all_fields incoming st
      | Err e => (st, Some e)
      end
  end.

Fixpoint write_back (ks : list string) (acc : gmap string val) (s : State) : State * option state_error :=
  match ks with
  | [] => (s, None)
  | k :: ks =>
      match acc !! k with
      | None => write_back ks acc s
      | Some v => match encode k v with
                  | Ok r => write_back ks acc (<[k := r]> s)
                  | Err e => (s, Some e)
                  end
      end
  end.

(** With no reducers the loop is one [Merge] per delta, which is what [all_field] does then. *)
Definition MergeReduceAll (order : gmap string val → list string) (incoming : list entries) (s : State)
    : State * option state_error :=
  match all_fields (concat incoming) (s, ∅) with
  | (s, acc, None) => write_back (order acc) acc s
  | (s, _, Some e) => (s, Some e)
  end.

(** Folding the deltas one at a time. *)
Definition merge_each (incoming : list entries) (s : State) : State * option state_error :=
  MergeReduce (concat incoming) s.
End merge.

(** Plain last-write-wins. *)
Definition Merge (incoming s : State) : State := incoming ∪ s.

(** The carrier's input, and the successors' base: the deltas accumulated on the state, then enacted. *)
Definition materialize (changes s : State) : State := DelNils (Merge changes s).

(** ** What encodes *)

Lemma finite_fadd a b : finite b = true → finite (fadd a b) = true → finite a = true.
Proof. destruct a, b; try done. Qed.

Lemma finite_fmin a b : finite a = true → finite b = true → finite (fmin a b) = true.
Proof.
  intros Ha Hb. unfold fmin. assert (is_nan a || is_nan b = false) as -> by (by destruct a, b).
  by repeat (destruct (_ && _) || destruct (sign_bit _) || destruct (flt _ _)).
Qed.

Lemma finite_fmax a b : finite a = true → finite b = true → finite (fmax a b) = true.
Proof.
  intros Ha Hb. unfold fmax. assert (is_nan a || is_nan b = false) as -> by (by destruct a, b).
  by repeat (destruct (_ && _) || destruct (sign_bit _) || destruct (flt _ _)).
Qed.

Lemma encodable_obj_set k v m :
  encodable v = true → forallb (λ e, encodable e.2) m = true →
  forallb (λ e, encodable e.2) (obj_set k v m) = true.
Proof.
  intros Hv. induction m as [|[k' v'] m IH]; simpl; [by rewrite Hv|]. intros [? ?]%andb_true_iff.
  case_bool_decide; simpl; apply andb_true_iff; auto.
Qed.

Lemma encodable_append dedupe add out :
  forallb encodable add = true → forallb encodable out = true →
  forallb encodable (fold_left (append_elem dedupe) add out) = true.
Proof.
  rewrite !forallb_forall. intros Ha Ho x Hx%list_elem_of_In%fold_append_elem.
  destruct Hx as [Hx|Hx]; apply list_elem_of_In in Hx; auto.
Qed.

Lemma encodable_merge im bm :
  forallb (λ e, encodable e.2) im = true → forallb (λ e, encodable e.2) bm = true →
  forallb (λ e, encodable e.2) (fold_left (λ m e, obj_set e.1 e.2 m) im bm) = true.
Proof.
  revert bm. induction im as [|[k v] im IH]; intros bm; simpl; [done|].
  intros [? ?]%andb_true_iff ?. auto using encodable_obj_set.
Qed.

(** A sum is encodable only if its accumulator was; the other folds keep encodable values encodable. *)
Lemma Reduce_encodable r K base inc v :
  result_kind r = Some K → Reduce r base inc = Ok v → encodable inc = true →
  (r ≠ ReducerAdd → encodable base = true → encodable v = true) ∧
  (r = ReducerAdd → encodable v = true → encodable base = true).
Proof.
  intros HK H Hi.
  destruct (Reduce_spec _ _ HK) as [HR|HR]; repeat (destruct HR as [HR|HR]);
    destruct HR as (-> & -> & HR); rewrite HR in H; (split; intros Hr Hb; [try done|try done]).
  1,2: apply appendInto_Ok in H as (_ & t & out & add & Hbase & Hadd & ->); simpl;
    apply encodable_append;
    [destruct Hadd as [->|[t' ->]]; simpl in *; by rewrite ?Hi
    |by destruct Hbase as [[-> ->]| ->]].
  all: unfold doAdd, doMin, doMax, doAnd, doOr, doConcat, doMerge, combineNumeric, combineBool in H;
    repeat case_match; simplify_eq; simpl in *; eauto using finite_fadd, finite_fmin, finite_fmax, encodable_merge.
Qed.

Lemma encode_Ok k v r : encode k v = Ok r ↔ encodable v = true ∧ r = Raw (canon v).
Proof. unfold encode. destruct encodable; naive_solver. Qed.

Lemma encodable_canon v : encodable (canon v) = encodable v.
Proof. by destruct v. Qed.

Lemma canon_canon v : canon (canon v) = canon v.
Proof. by destruct v. Qed.

(** Field values as the decoder leaves them. *)
Definition stored_ok (r : raw) : Prop :=
  match r with Raw v => canon v = v ∧ encodable v = true | Malformed _ => True end.

Lemma decodeValue_stored k r v :
  (∀ r', r = Some r' → stored_ok r') → decodeValue k r = Ok v →
  canon v = v ∧ flat v ∧ encodable v = true.
Proof.
  intros Hr. unfold decodeValue. destruct r as [r|]; [|by intros [= <-]].
  specialize (Hr _ eq_refl). case_match; [by intros [= <-]|]. destruct r as [w|]; [|done].
  intros [= <-]. destruct Hr as [Hc ?]. split_and!; [done| |done]. by destruct w as [| | | |[]|]; simplify_eq/=.
Qed.

(** ** Folding a cohort at once and one delta at a time *)

Section equivalence.
Context (reducers : reducer_map).
Abbreviation replaces := (replaces reducers).
Abbreviation reducer_of := (reducer_of reducers).

(** An accumulator kept decoded. *)
Definition acc_ok (k : string) (a : val) : Prop :=
  replaces k = false ∧ flat a ∧ a ≠ VNil ∧ (reducer_of k ≠ ReducerAdd → encodable a = true).

Definition acc_inv (s : State) (acc : gmap string val) : Prop :=
  (∀ k a, acc !! k = Some a → acc_ok k a) ∧ (∀ k r, s !! k = Some r → stored_ok r).

Lemma combining k base inc v :
  replaces k = false → Reduce (reducer_of k) base inc = Ok v → ∃ K, result_kind (reducer_of k) = Some K.
Proof.
  unfold replaces. intros Hr%bool_decide_eq_false H.
  destruct (result_kind (reducer_of k)) as [K|] eqn:HK; [by eauto|].
  apply Reduce_unknown in H; tauto.
Qed.

(** What one turn that folds does: the operands, and the result it stores. *)
Lemma all_field_fold k v s acc s' acc' :
  stored_ok v → acc_inv s acc → all_field reducers k v (s, acc) = Ok (s', acc') →
  replaces k = true ∧ acc' = acc ∧ s' = <[k := v]> s ∨
  replaces k = false ∧ isCleared v = true ∧ acc' = acc ∧ s' = s ∨
  ∃ K base inc res,
    replaces k = false ∧ isCleared v = false ∧ s' = s ∧ acc' = <[k := res]> acc ∧
    result_kind (reducer_of k) = Some K ∧ Reduce (reducer_of k) base inc = Ok res ∧
    match acc !! k with Some a => base = a | None => decodeValue k (s !! k) = Ok base end ∧
    decodeValue k (Some v) = Ok inc ∧ canon inc = inc ∧ encodable inc = true ∧
    flat base ∧ (reducer_of k ≠ ReducerAdd → encodable base = true) ∧
    (acc !! k = None → canon base = base ∧ encodable base = true).
Proof.
  intros Hv [Hacc Hs] H. unfold all_field in H.
  destruct (replaces k) eqn:Hrep; [simplify_eq; by left|].
  destruct (isCleared v) eqn:Hcl; [simplify_eq; by right; left|]. right; right.
  apply rbind_Ok in H as (base & Hbase & H). apply rbind_Ok in H as (inc & Hinc & H).
  apply rbind_Ok in H as (res & Hres & H). injection H as <- <-.
  unfold fold_value in Hres. destruct (Reduce (reducer_of k) base inc) as [w|] eqn:Hw; [|done].
  injection Hres as ->. destruct (combining _ _ _ _ Hrep Hw) as [K HK].
  destruct (decodeValue_stored k (Some v) inc) as (Hci & _ & Hei); [naive_solver|done|].
  exists K, base, inc, res. split_and!; try done.
  - destruct (acc !! k); [by injection Hbase as ->|done].
  - destruct (acc !! k) as [a|] eqn:Ha; [injection Hbase as ->; by apply (Hacc k)|].
    by eapply decodeValue_stored; [|done]; eauto.
  - destruct (acc !! k) as [a|] eqn:Ha; [injection Hbase as ->; by apply (Hacc k)|].
    intros _. by eapply decodeValue_stored; [|done]; eauto.
  - intros Ha. rewrite Ha in Hbase. split; eapply decodeValue_stored; eauto.
Qed.

Lemma all_field_inv k v s acc s' acc' :
  stored_ok v → acc_inv s acc → all_field reducers k v (s, acc) = Ok (s', acc') →
  acc_inv s' acc' ∧
  ((∀ k a, acc' !! k = Some a → encodable a = true) → ∀ k a, acc !! k = Some a → encodable a = true).
Proof.
  intros Hv Hinv H. pose proof Hinv as [Hacc Hs].
  destruct (all_field_fold _ _ _ _ _ _ Hv Hinv H) as
    [(_ & -> & ->)|[(_ & _ & -> & ->)|(K & base & inc & res & Hrep & _ & -> & -> & HK & Hw & Hbase & _ & Hci & Hei & Hfb & Heb & _)]].
  - split; [|done]. split; [done|]. intros k' r [[-> <-]|[? ?]]%lookup_insert_Some; eauto.
  - done.
  - destruct (Reduce_encodable _ _ _ _ _ HK Hw Hei) as [Hfw Hbw].
    destruct (Reduce_canon _ _ _ _ _ HK Hfb Hci Hw) as [Hfr _].
    pose proof (reduce_kind _ _ _ _ _ HK Hw) as [HKw _]. split.
    + split; [|done]. intros k' a [[<- <-]|[? ?]]%lookup_insert_Some; [|by apply Hacc].
      split_and!; [done..|by destruct K, res|by auto].
    + intros Henc k' a Ha. destruct (decide (k = k')) as [<-|Hne].
      * rewrite Ha in Hbase. subst base. destruct (decide (reducer_of k = ReducerAdd)); [|by auto].
        apply Hbw; [done|]. apply (Henc k). by rewrite lookup_insert_eq.
      * apply (Henc k'). by rewrite lookup_insert_ne.
Qed.

(** The receiver of the one-at-a-time fold, from the receiver and the accumulators of the other. *)
Definition related (s : State) (acc : gmap string val) (s2 : State) : Prop :=
  ∀ k, s2 !! k = match acc !! k with Some a => Some (Raw (canon a)) | None => s !! k end.

Lemma all_field_related k v s acc s' acc' s2 :
  stored_ok v → acc_inv s acc → related s acc s2 →
  all_field reducers k v (s, acc) = Ok (s', acc') →
  (∀ a, acc' !! k = Some a → encodable a = true) →
  ∃ s2', merge_field reducers k v s2 = Ok s2' ∧ related s' acc' s2'.
Proof.
  intros Hv Hinv Hs2 H Henc. pose proof Hinv as [Hacc Hs]. unfold merge_field.
  destruct (all_field_fold _ _ _ _ _ _ Hv Hinv H) as
    [(Hrep & -> & ->)|[(-> & -> & -> & ->)|(K & base & inc & res & -> & -> & -> & -> & HK & Hw & Hbase & Hinc & Hci & Hei & Hfb & Heb & Hcb)]].
  - rewrite Hrep. eexists. split; [done|]. intros k'. destruct (decide (k = k')) as [<-|Hne].
    + rewrite !lookup_insert_eq. destruct (acc !! k) as [a|] eqn:Ha; [|done].
      destruct (Hacc _ _ Ha) as [Hr _]. congruence.
    + by rewrite !lookup_insert_ne.
  - by exists s2.
  - rewrite lookup_insert_eq in Henc. specialize (Henc _ eq_refl).
    destruct (Reduce_canon _ _ _ _ _ HK Hfb Hci Hw) as (_ & w' & Hw' & Hcw).
    assert (decodeValue k (s2 !! k) = Ok (canon base)) as ->.
    { rewrite Hs2. destruct (acc !! k) as [a|] eqn:Ha; [subst a|destruct (Hcb eq_refl) as [Hcan _]; by rewrite Hcan].
      destruct (Hacc _ _ Ha) as (_ & _ & Hn & _). simpl. by destruct base. }
    cbn [rbind]. rewrite Hinc. cbn [rbind]. unfold fold_value. rewrite Hw'. cbn [rbind].
    unfold encode. rewrite <-encodable_canon, Hcw, encodable_canon, Henc. cbn [rbind].
    eexists. split; [done|]. intros k'. destruct (decide (k = k')) as [<-|Hne];
      [by rewrite !lookup_insert_eq|]. rewrite !lookup_insert_ne by done. apply Hs2.
Qed.

Lemma all_fields_inv incoming : ∀ s acc s' acc',
  Forall (λ e, stored_ok e.2) incoming → acc_inv s acc →
  all_fields reducers incoming (s, acc) = (s', acc', None) →
  acc_inv s' acc' ∧
  ((∀ k a, acc' !! k = Some a → encodable a = true) → ∀ k a, acc !! k = Some a → encodable a = true).
Proof.
  induction incoming as [|[k v] incoming IH]; intros s acc s' acc' Hok Hinv H; cbn [all_fields] in H.
  { by injection H as <- <-. }
  apply Forall_cons in Hok as [Hv Hok]. cbn in Hv. destruct (all_field reducers k v (s, acc)) as [[s1 acc1]|] eqn:Hf; [|done].
  destruct (all_field_inv _ _ _ _ _ _ Hv Hinv Hf) as [Hinv1 Hback].
  destruct (IH _ _ _ _ Hok Hinv1 H) as [Hinv' Hback']. split; [done|]. eauto.
Qed.

Lemma all_fields_related incoming : ∀ s acc s' acc' s2,
  Forall (λ e, stored_ok e.2) incoming → acc_inv s acc → related s acc s2 →
  all_fields reducers incoming (s, acc) = (s', acc', None) →
  (∀ k a, acc' !! k = Some a → encodable a = true) →
  ∃ s2', MergeReduce reducers incoming s2 = (s2', None) ∧ related s' acc' s2'.
Proof.
  induction incoming as [|[k v] incoming IH]; intros s acc s' acc' s2 Hok Hinv Hrel H Henc; cbn [all_fields MergeReduce] in H |- *.
  { injection H as <- <-. eauto. }
  apply Forall_cons in Hok as [Hv Hok]. cbn in Hv. destruct (all_field reducers k v (s, acc)) as [[s1 acc1]|] eqn:Hf; [|done].
  destruct (all_field_inv _ _ _ _ _ _ Hv Hinv Hf) as [Hinv1 _].
  destruct (all_fields_inv _ _ _ _ _ Hok Hinv1 H) as [_ Hback].
  destruct (all_field_related _ _ _ _ _ _ _ Hv Hinv Hrel Hf) as (s2' & -> & Hrel1); [eauto|].
  by eapply IH.
Qed.

(** A write-back that succeeds has encoded every accumulator it listed. *)
Lemma write_back_Ok ks acc : ∀ s s',
  write_back ks acc s = (s', None) →
  (∀ k a, k ∈ ks → acc !! k = Some a → encodable a = true) ∧
  ∀ k, s' !! k = match acc !! k with
                 | Some a => if bool_decide (k ∈ ks) then Some (Raw (canon a)) else s !! k
                 | None => s !! k
                 end.
Proof.
  induction ks as [|k0 ks IH]; intros s s' H; simpl in H.
  { injection H as <-. split; [set_solver|]. intros k. by destruct (acc !! k). }
  destruct (acc !! k0) as [a0|] eqn:Ha0.
  - destruct (encode k0 a0) as [r|] eqn:He; [|done]. apply encode_Ok in He as [He ->].
    destruct (IH _ _ H) as [Henc Hlook]. split.
    + intros k a [->|Hk]%elem_of_cons Ha; [congruence|eauto].
    + intros k. rewrite Hlook. destruct (acc !! k) as [a|] eqn:Ha.
      * destruct (decide (k = k0)) as [->|Hne].
        -- rewrite lookup_insert_eq, (bool_decide_eq_true_2 (k0 ∈ k0 :: ks)) by set_solver.
           simplify_eq. by case_bool_decide.
        -- rewrite lookup_insert_ne by done. repeat case_bool_decide; set_solver.
      * destruct (decide (k = k0)) as [->|Hne]; [congruence|]. by rewrite lookup_insert_ne.
  - destruct (IH _ _ H) as [Henc Hlook]. split.
    + intros k a [->|Hk]%elem_of_cons Ha; [congruence|eauto].
    + intros k. rewrite Hlook. destruct (acc !! k) as [a|] eqn:Ha; [|done].
      assert (k ≠ k0) by congruence. repeat case_bool_decide; set_solver.
Qed.

(** One pass over a cohort is the fold of its deltas one at a time: when [MergeReduceAll] succeeds,
    merging the deltas in order with [MergeReduce] succeeds with the same state, for whatever order
    the accumulators are written back in. *)
Theorem merge_all_is_the_fold order incoming s s' :
  (∀ acc, order acc ≡ₚ (map_to_list acc).*1) →
  (∀ k r, s !! k = Some r → stored_ok r) → Forall (Forall (λ e, stored_ok e.2)) incoming →
  MergeReduceAll reducers order incoming s = (s', None) → merge_each reducers incoming s = (s', None).
Proof.
  unfold MergeReduceAll, merge_each. intros Hord Hs Hin H.
  destruct (all_fields reducers (concat incoming) (s, ∅)) as [[s1 acc1] [e|]] eqn:Hf; [done|].
  destruct (write_back_Ok _ _ _ _ H) as [Henc Hlook].
  assert (∀ k, acc1 !! k ≠ None → k ∈ order acc1) as Hdom.
  { intros k Hk. rewrite Hord. destruct (acc1 !! k) as [a|] eqn:Ha; [|done].
    apply list_elem_of_fmap. exists (k, a). split; [done|]. by apply elem_of_map_to_list. }
  destruct (all_fields_related (concat incoming) s ∅ s1 acc1 s) as (s2 & -> & Hrel).
  - by apply Forall_concat.
  - done.
  - done.
  - done.
  - intros k a Ha. eapply Henc; [|done]. apply Hdom. by rewrite Ha.
  - f_equal. apply map_eq. intros k. rewrite Hrel, Hlook. destruct (acc1 !! k) as [a|] eqn:Ha; [|done].
    rewrite bool_decide_eq_true_2; [done|]. apply Hdom. by rewrite Ha.
Qed.
End equivalence.

(** ** [Merge] *)

(** [Merge] is [MergeReduce] without reducers, in whatever order the delta is ranged over. *)
Lemma Merge_spec l (incoming s : State) :
  l ≡ₚ map_to_list incoming → MergeReduce ∅ l s = (Merge incoming s, None).
Proof.
  intros Hl. assert (NoDup l.*1) as Hnd by (rewrite Hl; apply NoDup_fst_map_to_list).
  assert (list_to_map l = incoming) as <- by (by rewrite <-(list_to_map_to_list incoming); apply list_to_map_proper).
  clear Hl. revert s. induction l as [|[k v] l IH]; intros s.
  { cbn. unfold Merge. simpl. by rewrite (left_id_L ∅ (∪)). }
  apply NoDup_cons in Hnd as [Hk Hnd]. cbn [MergeReduce].
  assert (merge_field ∅ k v s = Ok (<[k := v]> s)) as -> by reflexivity. rewrite IH by done. f_equal. unfold Merge. simpl.
  rewrite <-insert_union_r by (by apply not_elem_of_list_to_map). by rewrite insert_union_l.
Qed.

(** Deltas accumulate: merging two changes into one first makes no difference to the state. *)
Lemma Merge_assoc c1 c2 s : Merge c2 (Merge c1 s) = Merge (Merge c2 c1) s.
Proof. unfold Merge. by rewrite (assoc_L (∪)). Qed.

Lemma lookup_materialize c s k r :
  materialize c s !! k = Some r ↔
  isCleared r = false ∧ (c !! k = Some r ∨ c !! k = None ∧ s !! k = Some r).
Proof.
  unfold materialize, DelNils, Merge. rewrite map_lookup_filter_Some, lookup_union_Some_raw. naive_solver.
Qed.

(** ** Witness and a divergence *)

Definition by_key (acc : gmap string val) : list string := (map_to_list acc).*1.

Lemma merge_all_is_the_fold_witness :
  merge_each {["xs" := ReducerAppend]} [[("xs", Raw (VStr "a"))]; [("n", Raw (VBool true)); ("xs", Raw (VStr "b"))]] ∅
    = (<["n" := Raw (VBool true)]> {["xs" := Raw (VSlice TAny [VStr "a"; VStr "b"])]}, None).
Proof.
  apply (merge_all_is_the_fold _ by_key).
  - done.
  - intros k r H. by rewrite lookup_empty in H.
  - by repeat constructor.
  - vm_compute. reflexivity.
Defined.

(** The converse fails, although [MergeReduceAll] is documented to have the semantics of folding one
    delta at a time: when the spawn has no value for an append field, a branch that contributes one
    string fixes the accumulator's element type, and the next branch's list is refused; merged one at
    a time the same two deltas give the three-element list.  The refusal also drops the first branch's
    contribution, which the one-at-a-time fold would have kept. *)
Theorem merge_all_refuses_mixed_branches order :
  let reducers := {["xs" := ReducerAppend]} in
  let one := [("xs", Raw (VStr "a"))] in
  let many := [("xs", Raw (VSlice TAny [VStr "b"; VStr "c"]))] in
  merge_each reducers [one; many] ∅ = ({["xs" := Raw (VSlice TAny [VStr "a"; VStr "b"; VStr "c"])]}, None) ∧
  MergeReduceAll reducers order [one; many] ∅ = (∅, Some (ErrReduce "xs" (ErrNotElement "append"))).
Proof. split; vm_compute; reflexivity. Qed.
