(* ===== verification/Staterefs.v ===== *)
(** * State references ([internal/staterefs])

    A large state field is stored once, in the row of the step that anchors it, and carried by
    reference: [Mint] decides which fields of a successor's state become references, [Resolve] puts
    the bytes back.  The step rows a [Loader] reads are a map; the length of a field's JSON text is
    the parameter [size], and the cache of resolved bytes a partial map that agrees with the rows.
    A Go map is ranged over in no specified order, and none of these loops depends on it, so they are
    written as operations on finite maps. *)

From S2P Require Import Prelude Float64 Reducers State.

#[local] Open Scope Z_scope.

Abbreviation Refs := (gmap string Z).

Record Anchor := mkAnchor { a_State : State; a_Changes : State; a_Refs : Refs }.
Abbreviation anchors := (gmap Z Anchor).
Abbreviation cache := (gmap (Z * string) raw).

Inductive ref_error :=
| ErrMissingStep (field : string) (anchor : Z)
| ErrOneHop (field : string) (anchor : Z)
| ErrNotFound (field : string) (anchor : Z).

Definition Linear : Z := 1.
Definition floor : Z := 1024.
Definition threshold : Z := 4096.
Definition budget : Z := 23 * 1024.
Definition minField : Z := 64.
Definition postgresInflation : Z := 5.
Definition maxAnchors : nat := 4.

(** ** The size policy *)

Definition inflation (driver : string) (successors : Z) : Z :=
  if bool_decide (1 < successors) && bool_decide (driver = "pgx") then postgresInflation else 1.

Definition candidateFloor (successors : Z) : Z :=
  let successors := if bool_decide (successors < 1) then 1 else successors in
  Z.max minField (Z.quot floor successors).

Definition openThreshold (successors inflation : Z) : Z :=
  let successors := if bool_decide (successors < 1) then 1 else successors in
  let inflation := if bool_decide (inflation < 1) then 1 else inflation in
  Z.quot (Z.max minField (Z.min threshold (Z.quot budget successors))) inflation.

(** A delta speaks about a field: it holds a value, or records a delete. *)
Definition mentions (s : State) (field : string) : bool := Has s field || IsDeleted s field.

(** ** The read side *)

Section resolve.
Context (rows : anchors) (resolved : cache).

(** The bytes a reference names, out of the cache or out of the anchor's row. *)
Definition fetch_one (field : string) (anchor : Z) : result ref_error raw :=
  match resolved !! (anchor, field) with
  | Some v => Ok v
  | None =>
      match rows !! anchor with
      | None => Err (ErrMissingStep field anchor)
      | Some row =>
          match a_Changes row !! field with
          | Some v => Ok v
          | None =>
              match a_State row !! field with
              | Some v => Ok v
              | None => match a_Refs row !! field with
                        | Some _ => Err (ErrOneHop field anchor)
                        | None => Err (ErrNotFound field anchor)
                        end
              end
          end
      end
  end.

Fixpoint fetch_all (l : list (string * Z)) : result ref_error State :=
  match l with
  | [] => Ok ∅
  | (field, anchor) :: l =>
      v ←? fetch_one field anchor; vs ←? fetch_all l; Ok (<[field := v]> vs)
  end.

Definition selected (want : option (gset string)) (field : string) : bool :=
  match want with Some w => bool_decide (field ∈ w) | None => true end.

(** The selected references; [None] selects all. *)
Definition fetch (refs : Refs) (want : option (gset string)) : result ref_error State :=
  fetch_all (map_to_list (filter (λ e, selected want e.1 = true) refs)).

Definition Resolve (state : State) (refs : Refs) (want : option (gset string)) : result ref_error State :=
  values ←? fetch refs want; Ok (values ∪ state).

(** Only the fields a reducer will fold. *)
Definition ResolveReduced (state : State) (refs : Refs) (reducers : reducer_map) : result ref_error State :=
  let want := filter (λ field, is_Some (reducers !! field)) (dom refs) in
  if bool_decide (want = ∅) then Ok state else Resolve state refs (Some want).

(** [Flatten]: a reference shadows nothing, since a referenced field is not in the state column. *)
Definition Flatten (state : State) (refs : Refs) : result ref_error State :=
  if bool_decide (refs = ∅) then Ok state
  else values ←? fetch refs None; Ok (values ∪ state).
End resolve.

(** ** The write side *)

Section mint.
Context (len : raw → Z).

Definition sizes (s : State) : Z := map_fold (λ _ v n, len v + n) 0 s.

(** [bytesOf]: what the references to one anchor save. *)
Definition bytes_of (refs : Refs) (merged : State) (a : Z) : Z :=
  sizes (filter (λ e, refs !! e.1 = Some a) merged).

(** The distinct anchors. *)
Definition anchors_of (refs : Refs) : gset Z := list_to_set (map_to_list refs).*2.

(** Largest saving first, ties to the lower step id. *)
Definition saves_more (refs : Refs) (merged : State) (a b : Z) : Prop :=
  bytes_of refs merged b < bytes_of refs merged a ∨
  (bytes_of refs merged a = bytes_of refs merged b ∧ a ≤ b).
#[local] Instance saves_more_dec refs merged a b : Decision (saves_more refs merged a b).
Proof. unfold saves_more. solve_decision. Defined.

(** An anchor is pinned when a field it holds is not in [merged]: there is no literal to inline. *)
Definition pinned (refs : Refs) (merged : State) : gset Z :=
  anchors_of (filter (λ e, mentions merged e.1 = false) refs).

(** The anchors over the cap. *)
Definition excess_anchors (refs : Refs) (merged : State) : gset Z :=
  if bool_decide (size (anchors_of refs) ≤ maxAnchors)%nat then ∅ else
  let droppable := merge_sort (saves_more refs merged) (elements (anchors_of refs ∖ pinned refs merged)) in
  list_to_set (drop (maxAnchors - size (pinned refs merged)) droppable).

Definition refs_into (dropped : gset Z) (refs : Refs) (k : string) : bool :=
  match refs !! k with Some a => bool_decide (a ∈ dropped) | None => false end.

Definition inlineExcessAnchors (raws : State) (refs : Refs) (merged : State) : State * Refs :=
  let dropped := excess_anchors refs merged in
  (filter (λ e, refs_into dropped refs e.1 = true) merged ∪ raws,
   filter (λ e, e.2 ∉ dropped) refs).

(** An inherited reference the task did not rewrite, to a field of [merged]. *)
Definition carried (merged changes : State) (inherited : Refs) (inlineOnly : gset string) : Refs :=
  filter (λ e, is_Some (merged !! e.1) ∧ (e.1 ∉ inlineOnly) ∧ mentions changes e.1 = false) inherited.

(** An inherited reference to a field [merged] does not have: carried on all the same. *)
Definition forwarded (merged changes : State) (inherited : Refs) (inlineOnly : gset string) : Refs :=
  filter (λ e, mentions merged e.1 = false ∧ (e.1 ∉ inlineOnly) ∧ mentions changes e.1 = false) inherited.

(** The fields big enough to be worth a reference. *)
Definition candidates (raws : State) (inlineOnly : gset string) (successors : Z) : State :=
  filter (λ e, (e.1 ∉ inlineOnly) ∧ (candidateFloor successors ≤ len e.2)) raws.

Definition Mint (driver : string) (merged changes : State) (inherited : Refs) (anchorID successors : Z)
    (inlineOnly : gset string) : State * Refs :=
  let kept := carried merged changes inherited inlineOnly in
  let raws := filter (λ e, kept !! e.1 = None) merged in
  let cands := candidates raws inlineOnly successors in
  let opened := bool_decide (openThreshold successors (inflation driver successors) ≤ sizes cands) in
  let minted : Refs := if opened then (λ _, anchorID) <$> cands else ∅ in
  let raws := if opened then filter (λ e, cands !! e.1 = None) raws else raws in
  let refs := (minted ∪ kept) ∪ forwarded merged changes inherited inlineOnly in
  inlineExcessAnchors raws refs merged.
End mint.

(** The keys whose merged value came from folding a delta onto a base the same step held. *)
Definition CombinedReducerFields (state changes : State) (reducers : reducer_map) : gset string :=
  dom (filter (λ e, replaces reducers e.1 = false ∧ mentions state e.1 = true) changes).

(** ** Reading back *)

(** The value a step's row holds for a field: what its task produced, else what it received. *)
Definition value_at (rows : anchors) (k : string) (a : Z) : option raw :=
  row ← rows !! a; match a_Changes row !! k with Some v => Some v | None => a_State row !! k end.

(** Cached bytes are the row's: a settled step's row does not change. *)
Definition coherent (rows : anchors) (resolved : cache) : Prop :=
  ∀ a k v, resolved !! (a, k) = Some v → value_at rows k a = Some v.

(** Every reference names a row that holds a value of the field itself. *)
Definition one_hop (rows : anchors) (refs : Refs) : Prop :=
  ∀ k a, refs !! k = Some a → ∃ v, value_at rows k a = Some v ∧ isCleared v = false.

Lemma fetch_one_Ok rows resolved k a v :
  coherent rows resolved → value_at rows k a = Some v → fetch_one rows resolved k a = Ok v.
Proof.
  intros Hc Hv. unfold fetch_one. destruct (resolved !! (a, k)) as [w|] eqn:Hw.
  { apply Hc in Hw. congruence. }
  unfold value_at in Hv. destruct (rows !! a); simpl in Hv; [|done]. by repeat case_match; simplify_eq.
Qed.

Lemma fetch_all_Ok rows resolved l :
  coherent rows resolved → NoDup l.*1 → (∀ k a, (k, a) ∈ l → is_Some (value_at rows k a)) →
  ∃ vs, fetch_all rows resolved l = Ok vs ∧
    ∀ k, vs !! k = (a ← (list_to_map l : Refs) !! k; value_at rows k a).
Proof.
  intros Hc. induction l as [|[k a] l IH]; intros Hnd Hl; [by exists ∅|].
  apply NoDup_cons in Hnd as [_ Hnd]. destruct IH as (vs & Hvs & Hlook); [done|set_solver|].
  destruct (Hl k a) as [v Hv]; [by left|]. simpl. rewrite (fetch_one_Ok _ _ _ _ v), Hvs by done. simpl.
  eexists. split; [done|]. intros k'. destruct (decide (k = k')) as [<-|Hne].
  - by rewrite !lookup_insert_eq.
  - by rewrite !lookup_insert_ne.
Qed.

Lemma fetch_Ok rows resolved refs want :
  coherent rows resolved → (∀ k a, refs !! k = Some a → selected want k = true → is_Some (value_at rows k a)) →
  ∃ vs, fetch rows resolved refs want = Ok vs ∧
    ∀ k, vs !! k = (a ← refs !! k; if selected want k then value_at rows k a else None).
Proof.
  intros Hc Hh. unfold fetch.
  destruct (fetch_all_Ok rows resolved (map_to_list (filter (λ e, selected want e.1 = true) refs)))
    as (vs & -> & Hvs).
  - done.
  - apply NoDup_fst_map_to_list.
  - intros k a [? ?]%elem_of_map_to_list%map_lookup_filter_Some. by apply Hh.
  - exists vs. split; [done|]. intros k. rewrite Hvs, list_to_map_to_list, map_lookup_filter.
    destruct (refs !! k); [|done]. simpl. by destruct (selected want k).
Qed.

(** A resolved state reads through its references. *)
Lemma Resolve_Ok rows resolved state refs want :
  coherent rows resolved → (∀ k a, refs !! k = Some a → selected want k = true → is_Some (value_at rows k a)) →
  ∃ full, Resolve rows resolved state refs want = Ok full ∧
    ∀ k, full !! k = match refs !! k with
                     | Some a => if selected want k then value_at rows k a else state !! k
                     | None => state !! k
                     end.
Proof.
  intros Hc Hh. unfold Resolve. destruct (fetch_Ok rows resolved refs want Hc Hh) as (vs & -> & Hvs).
  eexists. split; [done|]. intros k. rewrite lookup_union, Hvs.
  destruct (refs !! k) as [a|] eqn:Ha; simpl; [|by rewrite (left_id_L None _)].
  destruct (selected want k) eqn:Hs; [|by rewrite (left_id_L None _)].
  destruct (Hh _ _ Ha Hs) as [v ->]. by destruct (state !! k).
Qed.

(** ** What [Mint] stores *)

Lemma mentions_true s k : mentions s k = true ↔ is_Some (s !! k).
Proof.
  unfold mentions, Has, IsDeleted. destruct (s !! k) as [r|]; [|by split; [|intros []]].
  split; [by eauto|]. by destruct (isCleared r).
Qed.

Lemma mentions_false s k : mentions s k = false ↔ s !! k = None.
Proof. rewrite <-not_true_iff_false, mentions_true, eq_None_not_Some. done. Qed.

Lemma elem_of_anchors_of refs a : a ∈ anchors_of refs ↔ ∃ k, refs !! k = Some a.
Proof.
  unfold anchors_of. rewrite elem_of_list_to_set, list_elem_of_fmap. split.
  - intros ([k a'] & -> & ?%elem_of_map_to_list). by exists k.
  - intros [k Hk]. exists (k, a). split; [done|]. by apply elem_of_map_to_list.
Qed.

Section mint_facts.
Context (len : raw → Z) (driver : string) (merged changes : State) (inherited : Refs).
Context (anchorID successors : Z) (inlineOnly : gset string).

Abbreviation minted := (Mint len driver merged changes inherited anchorID successors inlineOnly).

(** An anchor over the cap is one whose fields are all at hand. *)
Lemma excess_not_pinned refs a :
  a ∈ excess_anchors len refs merged → a ∉ pinned refs merged.
Proof.
  unfold excess_anchors. case_bool_decide; [set_solver|].
  rewrite elem_of_list_to_set. intros Ha%(subseteq_drop _ _ _). rewrite merge_sort_Permutation in Ha.
  apply elem_of_elements in Ha. set_solver.
Qed.

Lemma inlineExcess_spec raws refs raws' refs' :
  (∀ k a, refs !! k = Some a → raws !! k = None) →
  (∀ k v, merged !! k = Some v → refs !! k = None → raws !! k = Some v) →
  (∀ k v, raws !! k = Some v → merged !! k = Some v) →
  inlineExcessAnchors len raws refs merged = (raws', refs') →
  (∀ k a, refs' !! k = Some a → refs !! k = Some a) ∧
  (∀ k a, refs !! k = Some a → merged !! k = None → refs' !! k = Some a) ∧
  (∀ k, raws' !! k = match refs' !! k with Some _ => None | None => merged !! k end).
Proof.
  intros Href Hin Hraw [= <- <-]. split_and!.
  - by intros k a [? _]%map_lookup_filter_Some.
  - intros k a Hk Hm. apply map_lookup_filter_Some. split; [done|]. simpl. intros Ha.
    apply (excess_not_pinned refs a Ha). apply elem_of_anchors_of. exists k.
    apply map_lookup_filter_Some. split; [done|]. by apply mentions_false.
  - intros k. rewrite lookup_union, !map_lookup_filter.
    destruct (refs !! k) as [a|] eqn:Hk; simpl.
    + rewrite (Href _ _ Hk). destruct (merged !! k) as [v|] eqn:Hm; simpl.
      * unfold refs_into. rewrite Hk. destruct (decide (a ∈ excess_anchors len refs merged)) as [Hd|Hd].
        -- rewrite bool_decide_eq_true_2, option_guard_True, option_guard_False by tauto. done.
        -- by rewrite bool_decide_eq_false_2, option_guard_False, option_guard_True by done.
      * by destruct (decide (a ∉ excess_anchors len refs merged)); rewrite ?option_guard_True, ?option_guard_False by done.
    + assert (raws !! k = merged !! k) as ->.
      { destruct (merged !! k) as [v|] eqn:Hm; [by apply Hin|].
        destruct (raws !! k) eqn:Hr; [|done]. apply Hraw in Hr. congruence. }
      destruct (merged !! k); simpl; [|done]. unfold refs_into. rewrite Hk.
      by rewrite option_guard_False.
Qed.

(** A reference [Mint] wrote is one it kept, or one to the minting step itself. *)
Lemma Mint_spec raws' refs' :
  minted = (raws', refs') →
  (∀ k a, refs' !! k = Some a →
     (k ∉ inlineOnly) ∧
     (inherited !! k = Some a ∧ changes !! k = None ∨
      a = anchorID ∧ is_Some (merged !! k) ∧ (inherited !! k = None ∨ is_Some (changes !! k)))) ∧
  (∀ k a, inherited !! k = Some a → merged !! k = None → k ∉ inlineOnly → changes !! k = None →
     refs' !! k = Some a) ∧
  (∀ k, raws' !! k = match refs' !! k with Some _ => None | None => merged !! k end).
Proof.
  unfold Mint. set (kept := carried merged changes inherited inlineOnly).
  set (raws0 := filter (λ e, kept !! e.1 = None) merged).
  set (cands := candidates len raws0 inlineOnly successors).
  set (opened := bool_decide _). set (fwd := forwarded merged changes inherited inlineOnly).
  set (refs := ((if opened then _ else _) ∪ kept) ∪ fwd). set (raws := if opened then _ else raws0).
  assert (∀ k a, kept !! k = Some a ↔
    inherited !! k = Some a ∧ is_Some (merged !! k) ∧ (k ∉ inlineOnly) ∧ changes !! k = None) as Hkept.
  { intros k a. unfold kept, carried. by rewrite map_lookup_filter_Some, mentions_false. }
  assert (∀ k a, fwd !! k = Some a ↔
    inherited !! k = Some a ∧ merged !! k = None ∧ (k ∉ inlineOnly) ∧ changes !! k = None) as Hfwd.
  { intros k a. unfold fwd, forwarded. by rewrite map_lookup_filter_Some, !mentions_false. }
  assert (∀ k v, cands !! k = Some v → merged !! k = Some v ∧ kept !! k = None ∧ k ∉ inlineOnly) as Hcands.
  { intros k v [[? ?]%map_lookup_filter_Some [? _]]%map_lookup_filter_Some. done. }
  assert (∀ k a, refs !! k = Some a →
    (opened = true ∧ a = anchorID ∧ is_Some (cands !! k)) ∨ kept !! k = Some a ∨ fwd !! k = Some a) as Hrefs.
  { intros k a. unfold refs. rewrite !lookup_union_Some_raw. intros [[H|[_ H]]|[_ H]]; [|auto..].
    destruct opened; [|by rewrite lookup_empty in H]. left.
    rewrite lookup_fmap in H. destruct (cands !! k); naive_solver. }
  intros H. eapply (inlineExcess_spec raws refs) in H as (H1 & H2 & H3).
  - split_and!; [|intros k a Hi Hm Hk Hc; apply H2; [|done]|done].
    + intros k a Hk%H1%Hrefs. destruct Hk as [(_ & -> & v & Hv)|[Hk|Hk]].
      * apply Hcands in Hv as (Hm & Hn & Hi). split; [done|]. right. split_and!; [done|by eauto|].
        destruct (inherited !! k) as [a|] eqn:Ha; [right|by left].
        destruct (changes !! k) as [c|] eqn:Hc; [by eauto|].
        exfalso. rewrite (proj2 (Hkept k a)) in Hn; [done|]. by rewrite Hm.
      * apply Hkept in Hk. tauto.
      * apply Hfwd in Hk. tauto.
    + unfold refs. rewrite lookup_union_r; [by apply Hfwd|].
      destruct (((if opened then _ else _) ∪ kept) !! k) as [b|] eqn:Hb; [|done].
      apply lookup_union_Some_raw in Hb as [Hb|[_ Hb%Hkept]]; [|destruct Hb as (_ & [] & _); congruence].
      destruct opened; [|by rewrite lookup_empty in Hb]. rewrite lookup_fmap in Hb.
      destruct (cands !! k) eqn:Hcd; [|done]. apply Hcands in Hcd as [? _]. congruence.
  - intros k a Hk%Hrefs. unfold raws.
    assert (kept !! k = Some a ∨ fwd !! k = Some a → raws0 !! k = None) as Hr0.
    { intros [Hk'|Hk']; apply map_lookup_filter_None; [right|left].
      - intros v _. simpl. congruence.
      - by apply Hfwd in Hk' as (_ & ? & _). }
    destruct opened; [|destruct Hk as [[? _]|?]; [done|auto]].
    apply map_lookup_filter_None. destruct Hk as [(_ & _ & v & Hv)|Hk]; [|left; auto].
    right. intros w _. simpl. congruence.
  - intros k v Hm Hk. unfold refs in Hk. apply lookup_union_None in Hk as [Hk _].
    apply lookup_union_None in Hk as [Hk Hkn].
    assert (raws0 !! k = Some v) as Hr0 by (apply map_lookup_filter_Some; done).
    unfold raws. destruct opened; [|done]. apply map_lookup_filter_Some. split; [done|].
    simpl. rewrite lookup_fmap in Hk. by destruct (cands !! k).
  - intros k v. unfold raws, raws0. destruct opened.
    + by intros [[? _]%map_lookup_filter_Some _]%map_lookup_filter_Some.
    + by intros [? _]%map_lookup_filter_Some.
Qed.

(** Outside [inlineOnly], a field of [merged] is what the row its reference would name holds. *)
Definition sourced (rows : anchors) : Prop :=
  ∀ k v, merged !! k = Some v → k ∉ inlineOnly →
    isCleared v = false ∧
    match inherited !! k, changes !! k with
    | Some a, None => value_at rows k a = Some v
    | _, _ => value_at rows k anchorID = Some v
    end.

(** Reading back what was minted gives [merged], and the fields it did not have to materialize. *)
Lemma Mint_resolves rows resolved raws' refs' :
  coherent rows resolved → one_hop rows inherited → sourced rows → minted = (raws', refs') →
  one_hop rows refs' ∧
  ∃ full, Resolve rows resolved raws' refs' None = Ok full ∧
    ∀ k, full !! k = match merged !! k with
                     | Some v => Some v
                     | None => if bool_decide (k ∈ inlineOnly ∨ is_Some (changes !! k)) then None
                               else a ← inherited !! k; value_at rows k a
                     end.
Proof.
  intros Hc Hh Hs Hm. destruct (Mint_spec _ _ Hm) as (Href & Hfwd & Hraw).
  assert (one_hop rows refs') as Hh'.
  { intros k a Hk. destruct (Href _ _ Hk) as [Hin [[Hi Hch]|(-> & [v Hv] & Hor)]]; [by eapply Hh|].
    destruct (Hs _ _ Hv Hin) as [Hcl Hs']. destruct (inherited !! k) as [a|] eqn:Ha; [|by eauto].
    destruct (changes !! k); [by eauto|]. destruct Hor as [|[]]; congruence. }
  split; [done|].
  destruct (Resolve_Ok rows resolved raws' refs' None Hc) as (full & -> & Hfull).
  { intros k a Hk _. destruct (Hh' _ _ Hk) as (v & ? & _). by eauto. }
  exists full. split; [done|]. intros k. rewrite Hfull, Hraw. simpl.
  destruct (refs' !! k) as [a|] eqn:Hk.
  - destruct (Href _ _ Hk) as [Hin Hor]. destruct (merged !! k) as [v|] eqn:Hv.
    + destruct (Hs _ _ Hv Hin) as [_ Hs']. clear Hs. rename Hs' into Hs. destruct Hor as [[Hi Hch]|(-> & _ & Hor)]; [by rewrite Hi, Hch in Hs|].
      destruct (inherited !! k) as [a|] eqn:Ha; [|done]. destruct (changes !! k); [done|].
      destruct Hor as [|[]]; congruence.
    + destruct Hor as [[Hi Hch]|(_ & [] & _)]; [|congruence].
      rewrite bool_decide_eq_false_2, Hi; [done|]. rewrite Hch. intros [?|[]]; done.
  - destruct (merged !! k) as [v|] eqn:Hv; [done|]. case_bool_decide as Hd; [done|].
    destruct (inherited !! k) as [a|] eqn:Ha; [|done]. simpl.
    rewrite (Hfwd k a) in Hk; [done|done|done|tauto|].
    destruct (changes !! k) eqn:Hch; [|done]. exfalso. eauto.
Qed.
End mint_facts.

(** ** A hop: from a dispatched step to its successors *)

(** The row of a settled step: a referenced field is not in its state column. *)
Definition step_row (rows : anchors) (id : Z) (state changes : State) (refs : Refs) : Prop :=
  rows !! id = Some (mkAnchor state changes refs) ∧ (∀ k, is_Some (refs !! k) → state !! k = None) ∧
  one_hop rows refs.

Lemma value_at_row rows id state changes refs k :
  step_row rows id state changes refs →
  value_at rows k id = match changes !! k with Some v => Some v | None => state !! k end.
Proof. intros (Hr & _). unfold value_at. by rewrite Hr. Qed.

(** The state a step of that row was dispatched with. *)
Lemma step_row_resolved rows resolved id state changes refs want :
  coherent rows resolved → step_row rows id state changes refs →
  ∃ full, Resolve rows resolved state refs want = Ok full ∧
    ∀ k, full !! k = match refs !! k with
                     | Some a => if selected want k then value_at rows k a else None
                     | None => state !! k
                     end.
Proof.
  intros Hc (Hr & Hd & Hh). destruct (Resolve_Ok rows resolved state refs want Hc) as (full & -> & Hf).
  { intros k a Hk _. destruct (Hh _ _ Hk) as (v & ? & _). by eauto. }
  exists full. split; [done|]. intros k. rewrite Hf. destruct (refs !! k) eqn:Hk; [|done].
  destruct (selected want k); [done|]. apply Hd. by rewrite Hk.
Qed.

(** C14. A state survives a hop through references.  A step dispatched with the state [S] its row stands
    for ran and left the changes [c] in its row; whatever the size policy decides for however many
    successors, each successor reads back the state [c] makes of [S], with the branch's own fields
    [inject] on top, and its references again name rows that hold the bytes themselves. *)
Theorem state_survives_a_hop len driver rows resolved id state c refs S successors inject inlineOnly raws' refs' :
  coherent rows resolved → step_row rows id state c refs → Resolve rows resolved state refs None = Ok S →
  dom inject = inlineOnly →
  Mint len driver (inject ∪ materialize c S) c refs id successors inlineOnly = (raws', refs') →
  Resolve rows resolved raws' refs' None = Ok (inject ∪ materialize c S) ∧ one_hop rows refs' ∧
  (∀ k, is_Some (refs' !! k) → raws' !! k = None).
Proof.
  intros Hc Hrow HS Hinj HM. pose proof Hrow as (Hr & Hd & Hh).
  destruct (step_row_resolved rows resolved id state c refs None Hc Hrow) as (S' & HS' & Hlook).
  rewrite HS' in HS. injection HS as ->. simpl in Hlook.
  assert (∀ k, k ∉ inlineOnly → inject !! k = None) as Hno by (intros k; rewrite <-Hinj; apply not_elem_of_dom).
  assert (sourced (inject ∪ materialize c S) c refs id inlineOnly rows) as Hsrc.
  { intros k v Hm Hk. rewrite lookup_union, (Hno _ Hk), (left_id_L None _) in Hm.
    apply lookup_materialize in Hm as [Hcl [Hck|[Hck HSk]]]; (split; [done|]).
    - rewrite Hck, (value_at_row _ _ _ _ _ _ Hrow), Hck. by destruct (refs !! k).
    - rewrite Hck. rewrite Hlook in HSk. destruct (refs !! k); [done|].
      by rewrite (value_at_row _ _ _ _ _ _ Hrow), Hck. }
  destruct (Mint_resolves _ _ _ _ _ _ _ _ _ _ _ _ Hc Hh Hsrc HM) as (Hh' & full & Hf & Hfull).
  split_and!; [|done|].
  - rewrite Hf. f_equal. apply map_eq. intros k. rewrite Hfull.
    destruct ((inject ∪ materialize c S) !! k) as [v|] eqn:Hm; [done|].
    case_bool_decide as Hb; [done|]. destruct (refs !! k) as [a|] eqn:Ha; [|done]. simpl.
    destruct (Hh _ _ Ha) as (v & Hv & Hcl). exfalso.
    apply lookup_union_None in Hm as [_ Hm]. rewrite (proj2 (lookup_materialize c S k v)) in Hm; [done|].
    split; [done|]. right. rewrite Hlook, Ha. split; [|done]. destruct (c !! k) eqn:Hck; [|done]. exfalso. eauto.
  - intros k [a Ha]. destruct (Mint_spec _ _ _ _ _ _ _ _ _ _ HM) as (_ & _ & Hraw). by rewrite Hraw, Ha.
Qed.

(** ** Witness *)

Definition big (_ : raw) : Z := 5000.

Definition entry_rows : anchors :=
  {[1 := mkAnchor {["doc" := Raw (VStr "text"); "n" := Raw (VBool true)]} {["n" := Raw VNil]} ∅]}.

Lemma entry_row : step_row entry_rows 1 {["doc" := Raw (VStr "text"); "n" := Raw (VBool true)]} {["n" := Raw VNil]} ∅.
Proof. split_and!; [done|by intros k []|by intros k a ?]. Qed.

Lemma state_survives_a_hop_witness :
  Resolve entry_rows ∅ {["item" := Raw (VStr "x")]} {["doc" := 1]} None
    = Ok ({["item" := Raw (VStr "x")]} ∪ materialize {["n" := Raw VNil]} {["doc" := Raw (VStr "text"); "n" := Raw (VBool true)]})
  ∧ one_hop entry_rows {["doc" := 1]}
  ∧ (∀ k, is_Some (({["doc" := 1]} : Refs) !! k) → ({["item" := Raw (VStr "x")]} : State) !! k = None).
Proof.
  apply (state_survives_a_hop big "pgx" entry_rows ∅ 1 {["doc" := Raw (VStr "text"); "n" := Raw (VBool true)]}
           {["n" := Raw VNil]} ∅ {["doc" := Raw (VStr "text"); "n" := Raw (VBool true)]} 2
           {["item" := Raw (VStr "x")]} {["item"]}).
  - intros a k v H. by rewrite lookup_empty in H.
  - exact entry_row.
  - vm_compute. reflexivity.
  - by rewrite dom_singleton_L.
  - vm_compute. reflexivity.
Defined.
