(* ===== verification/FanInState.v ===== *)
(** * The state of a fan-in step ([engine/execution.go], [engine/completion.go])

    The data side of [insertFanInStep], [fireFanInDirect] and [mergeCohortState]: the spawn's state
    with its own delta folded in, every completed member's delta folded in branch order, the pending
    deletes enacted, the cohort's forEach bookkeeping stripped, and the result minted against the
    spawn's row.  The rows that move the flow on are in [Cohort]. *)

From S2P Require Import Prelude Float64 Graph Reducers State Staterefs.

#[local] Open Scope Z_scope.

(** [stripForEachBookkeeping]: the fields one spawn injected into its branches. *)
Definition bookkeeping (g : Graph) (spawnTask : string) : list string :=
  transitions g ≫= λ tr,
    if bool_decide (tr_From tr = spawnTask) && negb (bool_decide (ForEach tr = ""))
       && negb (bool_decide (As tr = ""))
    then [As tr; As tr +:+ "Index"; As tr +:+ "Count"] else [].

Definition stripForEachBookkeeping (g : Graph) (spawnTask : string) (state : State) : State :=
  if bool_decide (spawnTask = "") then state else Del (bookkeeping g spawnTask) state.

(** A cohort row as the fan-in's scan reads it, in [fan_out_ordinal, step_depth, step_id] order. *)
Record member := mkMember { completed : bool; m_changes : entries }.

Definition contributions (ms : list member) : list entries :=
  m_changes <$> filter (λ m, completed m = true) ms.

Section fan_in.
Context (g : Graph) (order : gmap string val → list string).
Abbreviation reducers := (Graph.reducers g).

(** [insertFanInStep]'s merge: the errors of both folds are discarded. *)
Definition fan_in_merge (spawnTask : string) (spawnState : State) (spawnChanges : entries)
    (ms : list member) : State :=
  let merged := (MergeReduce reducers spawnChanges spawnState).1 in
  let merged := (MergeReduceAll reducers order (contributions ms) merged).1 in
  stripForEachBookkeeping g spawnTask (DelNils merged).

(** [mergeCohortState]: the same merge where the cohort failed; here the errors are returned. *)
Definition mergeCohortState (spawnState : State) (spawnChanges : entries) (ms : list member)
    : result state_error State :=
  match MergeReduce reducers spawnChanges spawnState with
  | (_, Some e) => Err e
  | (merged, None) =>
      match MergeReduceAll reducers order (contributions ms) merged with
      | (_, Some e) => Err e
      | (merged, None) => Ok (DelNils merged)
      end
  end.

(** [memberWrites], and the spawn's own combined fields. *)
Definition fan_in_inline (spawnState : State) (spawnChanges : entries) (ms : list member) : gset string :=
  list_to_set (concat (contributions ms)).*1
  ∪ CombinedReducerFields spawnState (list_to_map spawnChanges) reducers.

Definition insertFanInState (len : raw → Z) (driver : string) (rows : anchors) (resolved : cache)
    (spawnID : Z) (spawnTask : string) (spawnState : State) (spawnChanges : entries) (spawnRefs : Refs)
    (ms : list member) : result ref_error (State * Refs) :=
  spawnState ←? ResolveReduced rows resolved spawnState spawnRefs reducers;
  Ok (Mint len driver (fan_in_merge spawnTask spawnState spawnChanges ms)
        (list_to_map spawnChanges) spawnRefs spawnID Linear (fan_in_inline spawnState spawnChanges ms)).

(** [fireFanInDirect]: an empty cohort is the fold of the source's own delta, not stripped. *)
Definition fireFanInDirectState (len : raw → Z) (driver : string) (rows : anchors) (resolved : cache)
    (stepID : Z) (ourState : State) (ourChanges : entries) (ourRefs : Refs)
    : result ref_error (State * Refs) :=
  ourState ←? ResolveReduced rows resolved ourState ourRefs reducers;
  let merged := DelNils (MergeReduce reducers ourChanges ourState).1 in
  let changes : State := list_to_map ourChanges in
  Ok (Mint len driver merged changes ourRefs stepID Linear (CombinedReducerFields ourState changes reducers)).
End fan_in.

(** ** What each fold leaves alone *)

Lemma lookup_Del names s k : Del names s !! k = if bool_decide (k ∈ names) then None else s !! k.
Proof.
  revert s. induction names as [|n names IH]; intros s; [done|]. simpl. rewrite IH.
  destruct (decide (n = k)) as [->|Hne].
  - rewrite lookup_delete_eq, (bool_decide_eq_true_2 (k ∈ k :: _)) by set_solver. by case_bool_decide.
  - rewrite lookup_delete_ne by done. repeat case_bool_decide; set_solver.
Qed.

Section folds.
Context (rd : reducer_map).

Lemma merge_field_other k v s s' k' :
  merge_field rd k v s = Ok s' → k' ≠ k → s' !! k' = s !! k'.
Proof.
  unfold merge_field. intros H Hne. repeat case_match; simplify_eq; [by rewrite lookup_insert_ne|done|].
  split_checks. simplify_eq. by rewrite lookup_insert_ne.
Qed.

Lemma merge_field_local k v s t s2 :
  merge_field rd k v s = Ok t → s !! k = s2 !! k →
  ∃ t2, merge_field rd k v s2 = Ok t2 ∧ t !! k = t2 !! k.
Proof.
  unfold merge_field. intros H Heq. rewrite <-Heq. repeat case_match; simplify_eq.
  - eexists. split; [done|]. by rewrite !lookup_insert_eq.
  - eauto.
  - apply rbind_Ok in H as (b & -> & H). cbn [rbind]. apply rbind_Ok in H as (i & -> & H). cbn [rbind].
    apply rbind_Ok in H as (w & -> & H). cbn [rbind]. apply rbind_Ok in H as (r & -> & [= <-]).
    eexists. split; [done|]. by rewrite !lookup_insert_eq.
Qed.

(** A field after a fold that met it once. *)
Lemma MergeReduce_lookup l : ∀ s s',
  NoDup l.*1 → MergeReduce rd l s = (s', None) →
  ∀ k, match (list_to_map l : State) !! k with
       | None => s' !! k = s !! k
       | Some v => ∃ t, merge_field rd k v s = Ok t ∧ s' !! k = t !! k
       end.
Proof.
  induction l as [|[k0 v0] l IH]; intros s s' Hnd H k; cbn [MergeReduce] in H.
  { by injection H as <-. }
  apply NoDup_cons in Hnd as [Hk0 Hnd]. simpl in Hk0. destruct (merge_field rd k0 v0 s) as [s1|] eqn:Hf; [|done].
  specialize (IH _ _ Hnd H k). simpl. destruct (decide (k0 = k)) as [<-|Hne].
  - rewrite lookup_insert_eq. apply not_elem_of_list_to_map in Hk0. rewrite Hk0 in IH. eauto.
  - rewrite lookup_insert_ne by done. destruct ((list_to_map l : State) !! k) as [v|].
    + destruct IH as (t & Ht & ->). eapply merge_field_local; [done|].
      by eapply merge_field_other.
    + rewrite IH. by eapply merge_field_other.
Qed.
End folds.

Section cohort_fold.
Context (rd : reducer_map) (order : gmap string val → list string).

Lemma all_fields_other incoming : ∀ s acc s' acc' e k,
  all_fields rd incoming (s, acc) = (s', acc', e) → k ∉ incoming.*1 →
  s' !! k = s !! k ∧ acc' !! k = acc !! k.
Proof.
  induction incoming as [|[k0 v0] incoming IH]; intros s acc s' acc' e k H Hk; cbn [all_fields] in H.
  { by injection H as <- <- <-. }
  apply not_elem_of_cons in Hk as [Hne Hk]. simpl in Hne.
  destruct (all_field rd k0 v0 (s, acc)) as [[s1 acc1]|] eqn:Hf; [|by simplify_eq].
  destruct (IH _ _ _ _ _ _ H Hk) as [-> ->]. unfold all_field in Hf.
  destruct (replaces rd k0); [simplify_eq; by rewrite lookup_insert_ne|].
  destruct (isCleared v0); [by simplify_eq|].
  split_checks. simplify_eq. by rewrite lookup_insert_ne.
Qed.

Lemma write_back_other ks acc : ∀ s s' e k,
  write_back ks acc s = (s', e) → acc !! k = None → s' !! k = s !! k.
Proof.
  induction ks as [|k0 ks IH]; intros s s' e k H Hk; simpl in H; [by simplify_eq|].
  destruct (acc !! k0) as [a|] eqn:Ha; [|by eauto].
  assert (k ≠ k0) by congruence.
  destruct (encode k0 a); [|by simplify_eq]. rewrite (IH _ _ _ _ H Hk). by rewrite lookup_insert_ne.
Qed.

(** A field no member mentions keeps the value the spawn gave it, errors or not. *)
Lemma MergeReduceAll_other incoming s k :
  k ∉ (concat incoming).*1 → (MergeReduceAll rd order incoming s).1 !! k = s !! k.
Proof.
  intros Hk. unfold MergeReduceAll.
  destruct (all_fields rd (concat incoming) (s, ∅)) as [[s1 acc1] e] eqn:Hf.
  destruct (all_fields_other _ _ _ _ _ _ _ Hf Hk) as [Hs Ha].
  destruct e as [e|]; [done|]. destruct (write_back (order acc1) acc1 s1) as [s2 e2] eqn:Hw. simpl.
  rewrite (write_back_other _ _ _ _ _ _ Hw); [done|]. by rewrite Ha, lookup_empty.
Qed.
End cohort_fold.

(** ** Reading the fan-in step's state back *)

(** The base a fan-in folds onto, field by field. *)
Lemma resolved_reduced rows resolved id state changes refs rd S :
  coherent rows resolved → step_row rows id state changes refs → ResolveReduced rows resolved state refs rd = Ok S →
  ∀ k, S !! k = match refs !! k with
                | Some a => if bool_decide (is_Some (rd !! k)) then value_at rows k a else None
                | None => state !! k
                end.
Proof.
  intros Hc Hrow HS. pose proof Hrow as (_ & Hd & _). revert HS. unfold ResolveReduced. case_bool_decide as Hw.
  - intros [= ->] k. destruct (refs !! k) as [a|] eqn:Ha; [|done].
    rewrite bool_decide_eq_false_2; [by apply Hd; rewrite Ha|]. intros Hk.
    apply (not_elem_of_empty (C:=gset string) k). rewrite <-Hw. apply elem_of_filter.
    split; [done|]. by apply elem_of_dom_2 in Ha.
  - intros HS k. set (want := filter _ _) in HS, Hw.
    destruct (step_row_resolved rows resolved id state _ refs (Some want) Hc Hrow) as (S' & HS' & Hlook).
    rewrite HS' in HS. injection HS as ->. rewrite Hlook. destruct (refs !! k) as [a|] eqn:Ha; [|done].
    simpl. rewrite (bool_decide_ext _ (is_Some (rd !! k))); [done|].
    unfold want. rewrite elem_of_filter, elem_of_dom, Ha. split; [tauto|by eauto].
Qed.

(** The first contribution of a combining field is stored as it came. *)
Definition seeds_verbatim (rd : reducer_map) (state : State) (changes : entries) : Prop :=
  ∀ k v, (k, v) ∈ changes → replaces rd k = false → isCleared v = false → state !! k = None →
    ∀ t, merge_field rd k v state = Ok t → t !! k = Some v.

(** What the row of the fan-in step resolves to. *)
Lemma fan_in_resolves len driver g order rows resolved spawnID task state cs refs ms S M raws' refs' :
  coherent rows resolved → step_row rows spawnID state (list_to_map cs) refs → NoDup cs.*1 →
  ResolveReduced rows resolved state refs (Graph.reducers g) = Ok S →
  MergeReduce (Graph.reducers g) cs S = (M, None) → seeds_verbatim (Graph.reducers g) S cs →
  insertFanInState g order len driver rows resolved spawnID task state cs refs ms = Ok (raws', refs') →
  one_hop rows refs' ∧
  ∃ full, Resolve rows resolved raws' refs' None = Ok full ∧
    ∀ k, full !! k = match fan_in_merge g order task S cs ms !! k with
                     | Some v => Some v
                     | None => if bool_decide (k ∈ fan_in_inline g S cs ms ∨ k ∈ cs.*1) then None
                               else a ← refs !! k; value_at rows k a
                     end.
Proof.
  intros Hc Hrow Hnd HS HM Hseed HI. unfold insertFanInState in HI. rewrite HS in HI.
  cbn [rbind] in HI. apply Ok_inj in HI. pose proof Hrow as (Hr & Hd & Hh).
  pose proof (resolved_reduced _ _ _ _ _ _ _ _ Hc Hrow HS) as HSk.
  assert (sourced (fan_in_merge g order task S cs ms) (list_to_map cs) refs spawnID
            (fan_in_inline g S cs ms) rows) as Hsrc.
  { intros k v Hm Hk. unfold fan_in_merge in Hm. rewrite HM in Hm. cbn [fst] in Hm.
    assert (M !! k = Some v ∧ isCleared v = false) as [HMk Hcl].
    { assert (DelNils (MergeReduceAll (Graph.reducers g) order (contributions ms) M).1 !! k = Some v) as Hm'.
      { revert Hm. unfold stripForEachBookkeeping. case_bool_decide; [done|]. rewrite lookup_Del. by case_bool_decide. }
      apply map_lookup_filter_Some in Hm' as [Hm' ?]. split; [|done]. rewrite <-Hm'. symmetry.
      apply MergeReduceAll_other. unfold fan_in_inline in Hk.
      apply not_elem_of_union in Hk as [Hk _]. by rewrite elem_of_list_to_set in Hk. }
    split; [done|]. pose proof (MergeReduce_lookup _ _ _ _ Hnd HM k) as Hfold.
    rewrite (value_at_row _ _ _ _ _ _ Hrow).
    destruct ((list_to_map cs : State) !! k) as [w|] eqn:Hw.
    - enough (w = v) as -> by (by destruct (refs !! k)).
      destruct Hfold as (t & Ht & HMt). destruct (replaces (Graph.reducers g) k) eqn:Hrep.
      { unfold merge_field in Ht. rewrite Hrep in Ht. simplify_eq. rewrite lookup_insert_eq in HMt. congruence. }
      assert (S !! k = None) as HSn.
      { apply mentions_false. apply not_true_iff_false. intros Hme. apply Hk. unfold fan_in_inline.
        apply elem_of_union_r, elem_of_dom. exists w. by apply map_lookup_filter_Some. }
      destruct (isCleared w) eqn:Hclw.
      { unfold merge_field in Ht. rewrite Hrep, Hclw in Ht. simplify_eq. congruence. }
      rewrite (Hseed k w) with (t := t) in HMt; [congruence| |done..].
      by apply elem_of_list_to_map_2 in Hw.
    - rewrite Hfold, HSk in HMk. destruct (refs !! k) as [a|]; [by case_bool_decide|done]. }
  destruct (Mint_resolves _ _ _ _ _ _ _ _ _ _ _ _ Hc Hh Hsrc HI) as (Hh' & full & Hf & Hfull).
  split; [done|]. exists full. split; [done|]. intros k. rewrite Hfull.
  destruct (fan_in_merge g order task S cs ms !! k); [done|].
  rewrite (bool_decide_ext _ (k ∈ fan_in_inline g S cs ms ∨ k ∈ cs.*1)); [done|].
  rewrite <-not_eq_None_Some, <-not_elem_of_list_to_map. destruct (decide (k ∈ cs.*1)); tauto.
Qed.

(** C15. A fan-in step reads back the state the cohort was merged into.  Only the fields a reducer folds
    are materialized; the step's row is minted against the spawn's; and resolving it gives every
    merged field its merged value and every field the cohort merely carried the value the spawn's
    reference stood for, provided the spawn did not itself start a combining field with something
    its reducer rewrites. *)
Theorem fan_in_state_reads_back len driver g order rows resolved spawnID task state cs refs ms S M raws' refs' :
  coherent rows resolved → step_row rows spawnID state (list_to_map cs) refs → NoDup cs.*1 →
  ResolveReduced rows resolved state refs (Graph.reducers g) = Ok S →
  MergeReduce (Graph.reducers g) cs S = (M, None) → seeds_verbatim (Graph.reducers g) S cs →
  insertFanInState g order len driver rows resolved spawnID task state cs refs ms = Ok (raws', refs') →
  one_hop rows refs' ∧
  ∃ full, Resolve rows resolved raws' refs' None = Ok full ∧
    ∀ k, full !! k = match fan_in_merge g order task S cs ms !! k with
                     | Some v => Some v
                     | None => if bool_decide (k ∈ fan_in_inline g S cs ms ∨ k ∈ cs.*1) then None
                               else a ← refs !! k; value_at rows k a
                     end.
Proof. intros. by eapply (fan_in_resolves len driver g order rows resolved spawnID task state cs refs ms S M). Qed.

(** ** Witness and a defect *)

Definition append_graph : Graph :=
  SetReducer "docs" ReducerAppend (SetFanIn "J" (AddTransition "B" "J" (AddTransitionForEach "A" "B" "xs" "x" (NewGraph "w")))).

(** A spawn that was handed a large document by reference and appended a list to [docs]. *)
Definition spawn_rows : anchors :=
  {[1 := mkAnchor {["pdf" := Raw (VStr "text")]} ∅ ∅;
    2 := mkAnchor ∅ {["docs" := Raw (VSlice TAny [VStr "a"])]} {["pdf" := 1]}]}.

Lemma spawn_row : step_row spawn_rows 2 ∅ (list_to_map [("docs", Raw (VSlice TAny [VStr "a"]))]) {["pdf" := 1]}.
Proof.
  split_and!; [done|done|]. intros k a [<- <-]%lookup_singleton_Some. by exists (Raw (VStr "text")).
Qed.

Lemma fan_in_state_reads_back_witness :
  one_hop spawn_rows {["pdf" := 1]} ∧
  ∃ full, Resolve spawn_rows ∅ {["docs" := Raw (VSlice TAny [VStr "a"; VStr "b"])]} {["pdf" := 1]} None = Ok full ∧
    ∀ k, full !! k =
      match fan_in_merge append_graph by_key "A" ∅ [("docs", Raw (VSlice TAny [VStr "a"]))]
              [mkMember true [("docs", Raw (VStr "b"))]; mkMember false [("docs", Raw (VStr "lost"))]] !! k with
      | Some v => Some v
      | None => if bool_decide (k ∈ fan_in_inline append_graph ∅ [("docs", Raw (VSlice TAny [VStr "a"]))]
                                   [mkMember true [("docs", Raw (VStr "b"))]; mkMember false [("docs", Raw (VStr "lost"))]]
                                ∨ k ∈ ["docs"]) then None
                else a ← ({["pdf" := 1]} : Refs) !! k; value_at spawn_rows k a
      end.
Proof.
  apply (fan_in_state_reads_back big "pgx" append_graph by_key spawn_rows ∅ 2 "A" ∅
           [("docs", Raw (VSlice TAny [VStr "a"]))] {["pdf" := 1]}
           [mkMember true [("docs", Raw (VStr "b"))]; mkMember false [("docs", Raw (VStr "lost"))]] ∅
           {["docs" := Raw (VSlice TAny [VStr "a"])]}).
  - intros a k v H. by rewrite lookup_empty in H.
  - exact spawn_row.
  - repeat constructor. set_solver.
  - vm_compute. reflexivity.
  - vm_compute. reflexivity.
  - intros k v [= -> ->]%list_elem_of_singleton _ _ _ t. vm_compute. by intros [= <-].
  - vm_compute. reflexivity.
Defined.

(** Without that proviso the merged value is lost: where the spawn starts an append field with one
    large string, the fan-in step's merged state is the one-element list, but the field is minted as
    a reference to the spawn's delta, as if the two were equal, and the fan-in step reads the bare
    string back. *)
Theorem fan_in_reference_unwraps_seed :
  let rows : anchors := {[2 := mkAnchor ∅ {["docs" := Raw (VStr "text")]} ∅]} in
  let cs := [("docs", Raw (VStr "text"))] in
  fan_in_merge append_graph by_key "A" ∅ cs [mkMember true []] = {["docs" := Raw (VSlice TAny [VStr "text"])]} ∧
  insertFanInState append_graph by_key big "sqlite" rows ∅ 2 "A" ∅ cs ∅ [mkMember true []] = Ok (∅, {["docs" := 2]}) ∧
  Resolve rows ∅ ∅ {["docs" := 2]} None = Ok {["docs" := Raw (VStr "text")]}.
Proof. split_and!; vm_compute; reflexivity. Qed.
