(* ===== verification/Flow.v ===== *)
(** * The flow carrier handed to a task ([workflow/flow.go], [workflow/rawflow.go])

    A task reads and writes its state and arms control signals through a [Flow]; the engine reads
    both back.  Durations and instants are nanoseconds.  Converting a [float64] outside the range of
    an [int64] is left to the platform, so it is a parameter. *)

From S2P Require Import Prelude Float64 Reducers State.

#[local] Open Scope Z_scope.

Definition MinInt64 : Z := - 2 ^ 63.
Definition MaxInt64 : Z := 2 ^ 63 - 1.

(** [int64(x)] truncates towards zero where the result fits. *)
Definition truncate (x : float64) : option Z :=
  match x with
  | S754_zero _ => Some 0
  | S754_finite s m e =>
      let n := if 0 <=? e then Z.pos m * 2 ^ e else Z.pos m / 2 ^ (- e) in
      Some (if s then - n else n)
  | _ => None
  end.

Definition to_int64 (overflow : float64 → Z) (x : float64) : Z :=
  match truncate x with
  | Some n => if bool_decide (MinInt64 ≤ n ≤ MaxInt64) then n else overflow x
  | None => overflow x
  end.

(** Signed 64-bit wrap-around. *)
Definition wrap64 (z : Z) : Z := (z + 2 ^ 63) mod 2 ^ 64 - 2 ^ 63.

Record Flow := mkFlow {
  fl_state : State;
  fl_changes : State;
  gotoNext : string;
  retry : bool;
  sleepDuration : Z;
  interrupt : bool;
  interruptPayload : State;
  subgraphURL : string;
  subgraphInput : State;
  interruptDone : bool;
  resumeData : State;
  subgraphDone : bool;
  subgraphResult : State;
  subgraphError : string;
  attempt : Z;
  backoffInitialDelay : Z;
  backoffDelayMultiplier : float64;
  backoffMaxDelay : Z;
  stepCreatedAt : option Z
}.

(** ** State access and mutation *)

Definition NewFlow : Flow :=
  mkFlow ∅ ∅ "" false 0 false ∅ "" ∅ false ∅ false ∅ "" 0 0 f0 0 None.

Definition with_data (state changes : State) (f : Flow) : Flow :=
  mkFlow state changes (gotoNext f) (retry f) (sleepDuration f) (interrupt f) (interruptPayload f)
    (subgraphURL f) (subgraphInput f) (interruptDone f) (resumeData f) (subgraphDone f)
    (subgraphResult f) (subgraphError f) (attempt f) (backoffInitialDelay f)
    (backoffDelayMultiplier f) (backoffMaxDelay f) (stepCreatedAt f).

(** Both maps are written with the same encoding, or neither. *)
Definition flow_set (name : string) (v : val) (f : Flow) : result state_error Flow :=
  st ←? Set_ name v (fl_state f);
  ch ←? Set_ name v (fl_changes f);
  Ok (with_data st ch f).

Definition tombstone : raw := Malformed "".

Definition deleteOne (name : string) (f : Flow) : Flow :=
  with_data (Del [name] (fl_state f)) (<[name := tombstone]> (fl_changes f)) f.

Definition flow_del (names : list string) (f : Flow) : Flow :=
  fold_left (λ f n, deleteOne n f) names f.

Definition flow_clear (f : Flow) : Flow :=
  with_data ∅ ((const tombstone <$> fl_state f) ∪ fl_changes f) f.

Definition Snapshot (f : Flow) : State := fl_state f.

(** [SetChanges] over the marshalled fields of the struct, in field order: a field is recorded unless
    its bytes are the snapshot's, which [same] compares. *)
Definition SetChanges (same : raw → raw → bool) (fields : list (string * raw)) (snap : State) (f : Flow) : Flow :=
  fold_left (λ f e,
    if match snap !! e.1 with Some prev => same prev e.2 | None => false end then f
    else with_data (<[e.1 := e.2]> (fl_state f)) (<[e.1 := e.2]> (fl_changes f)) f) fields f.

(** ** Control *)

Definition Goto (task : string) (f : Flow) : Flow :=
  mkFlow (fl_state f) (fl_changes f) task (retry f) (sleepDuration f) (interrupt f) (interruptPayload f)
    (subgraphURL f) (subgraphInput f) (interruptDone f) (resumeData f) (subgraphDone f)
    (subgraphResult f) (subgraphError f) (attempt f) (backoffInitialDelay f)
    (backoffDelayMultiplier f) (backoffMaxDelay f) (stepCreatedAt f).

Definition Sleep (duration : Z) (f : Flow) : Flow :=
  mkFlow (fl_state f) (fl_changes f) (gotoNext f) (retry f) duration (interrupt f) (interruptPayload f)
    (subgraphURL f) (subgraphInput f) (interruptDone f) (resumeData f) (subgraphDone f)
    (subgraphResult f) (subgraphError f) (attempt f) (backoffInitialDelay f)
    (backoffDelayMultiplier f) (backoffMaxDelay f) (stepCreatedAt f).

Inductive park_error :=
| ErrParkedForSubgraph | ErrInterruptArmed | ErrParkedForInterrupt | ErrSubgraphArmed.

(** What a parking call returns: [Yield] to park, or the value the park was resolved with. *)
Inductive park_result := Yield | Resolved (data : State) (err : string).

Definition Interrupt (payload : State) (f : Flow) : result park_error (park_result * Flow) :=
  if interruptDone f then Ok (Resolved (resumeData f) "", f)
  else if subgraphDone f || negb (bool_decide (subgraphURL f = "")) then Err ErrParkedForSubgraph
  else if interrupt f then Err ErrInterruptArmed
  else Ok (Yield, mkFlow (fl_state f) (fl_changes f) (gotoNext f) (retry f) (sleepDuration f) true payload
    (subgraphURL f) (subgraphInput f) (interruptDone f) (resumeData f) (subgraphDone f)
    (subgraphResult f) (subgraphError f) (attempt f) (backoffInitialDelay f)
    (backoffDelayMultiplier f) (backoffMaxDelay f) (stepCreatedAt f)).

Definition Subgraph (url : string) (input : State) (f : Flow) : result park_error (park_result * Flow) :=
  if subgraphDone f then Ok (Resolved (subgraphResult f) (subgraphError f), f)
  else if interruptDone f || interrupt f then Err ErrParkedForInterrupt
  else if negb (bool_decide (subgraphURL f = "")) then Err ErrSubgraphArmed
  else Ok (Yield, mkFlow (fl_state f) (fl_changes f) (gotoNext f) (retry f) (sleepDuration f)
    (interrupt f) (interruptPayload f) url input (interruptDone f) (resumeData f) (subgraphDone f)
    (subgraphResult f) (subgraphError f) (attempt f) (backoffInitialDelay f)
    (backoffDelayMultiplier f) (backoffMaxDelay f) (stepCreatedAt f)).

(** The backoff loop, [for range attempt]: it stops multiplying once the cap is reached. *)
Fixpoint backoff_loop (n : nat) (multiplier : float64) (maxDelay : Z) (delay : float64) : float64 :=
  match n with
  | O => delay
  | S n =>
      if bool_decide (0 < maxDelay) && fle (of_int maxDelay) delay then delay
      else backoff_loop n multiplier maxDelay (fmul delay multiplier)
  end.

Definition backoff_delay (initialDelay : Z) (multiplier : float64) (maxDelay attempt : Z) : float64 :=
  let delay := of_int initialDelay in
  let delay := if flt f0 multiplier then backoff_loop (Z.to_nat attempt) multiplier maxDelay delay else delay in
  if bool_decide (0 < maxDelay) && flt (of_int maxDelay) delay then of_int maxDelay else delay.

(** [Retry] at the instant [now]. *)
Definition Retry (overflow : float64 → Z) (now initialDelay : Z) (multiplier : float64)
    (maxIntervalDelay giveUpAfter : Z) (f : Flow) : bool * Flow :=
  let set_retry b i m d :=
    mkFlow (fl_state f) (fl_changes f) (gotoNext f) b (sleepDuration f) (interrupt f) (interruptPayload f)
      (subgraphURL f) (subgraphInput f) (interruptDone f) (resumeData f) (subgraphDone f)
      (subgraphResult f) (subgraphError f) (attempt f) i m d (stepCreatedAt f) in
  let gives_up :=
    match stepCreatedAt f with
    | Some created =>
        bool_decide (0 < giveUpAfter) &&
        let nextDelay := backoff_delay initialDelay multiplier maxIntervalDelay (attempt f) in
        bool_decide (giveUpAfter ≤ wrap64 (now - created + to_int64 overflow nextDelay))
    | None => false
    end in
  if gives_up
  then (false, set_retry false (backoffInitialDelay f) (backoffDelayMultiplier f) (backoffMaxDelay f))
  else (true, set_retry true initialDelay multiplier maxIntervalDelay).

(** ** What the engine reads back *)

Definition InterruptRequested (f : Flow) : option State := if interrupt f then Some (interruptPayload f) else None.
Definition SubgraphRequested (f : Flow) : option (string * State) :=
  if bool_decide (subgraphURL f = "") then None else Some (subgraphURL f, subgraphInput f).
Definition RetryRequested (f : Flow) : option (Z * float64 * Z) :=
  if retry f then Some (backoffInitialDelay f, backoffDelayMultiplier f, backoffMaxDelay f) else None.
Definition GotoRequested (f : Flow) : string := gotoNext f.
Definition SleepRequested (f : Flow) : Z := Z.max (sleepDuration f) 0.

(** [RawFlow]'s setters, as dispatch uses them on a new flow: the input state, the changes of the
    step's earlier attempts, and the resolution of the park it may be returning from. *)
Definition dispatched (state changes : State) (attempt : Z) (created : option Z)
    (resume : option State) (child : option (State * string)) : Flow :=
  mkFlow state changes "" false 0 false ∅ "" ∅
    (match resume with Some _ => true | None => false end) (default ∅ resume)
    (match child with Some _ => true | None => false end) (default ∅ (fst <$> child)) (default "" (snd <$> child))
    attempt 0 f0 0 created.

(** ** What a task can do to its flow *)

Inductive task_op :=
| OpSet (name : string) (v : val)
| OpDel (names : list string)
| OpClear
| OpSetChanges (fields : list (string * raw)) (snap : State)
| OpGoto (task : string)
| OpSleep (duration : Z)
| OpInterrupt (payload : State)
| OpSubgraph (url : string) (input : State)
| OpRetry (now initialDelay : Z) (multiplier : float64) (maxIntervalDelay giveUpAfter : Z).

Section task.
Context (same : raw → raw → bool) (overflow : float64 → Z).

(** A call that returns an error leaves the flow as it was. *)
Definition do_op (op : task_op) (f : Flow) : Flow :=
  match op with
  | OpSet name v => match flow_set name v f with Ok f => f | Err _ => f end
  | OpDel names => flow_del names f
  | OpClear => flow_clear f
  | OpSetChanges fields snap => SetChanges same fields snap f
  | OpGoto task => Goto task f
  | OpSleep d => Sleep d f
  | OpInterrupt payload => match Interrupt payload f with Ok (_, f) => f | Err _ => f end
  | OpSubgraph url input => match Subgraph url input f with Ok (_, f) => f | Err _ => f end
  | OpRetry now i m d g => (Retry overflow now i m d g f).2
  end.

Definition run_task (ops : list task_op) (f : Flow) : Flow := fold_left (λ f op, do_op op f) ops f.

(** Lifts an invariant of every operation to a task body. *)
Lemma run_task_ind (P : Flow → Prop) :
  (∀ op f, P f → P (do_op op f)) → ∀ ops f, P f → P (run_task ops f).
Proof. intros Hop ops. induction ops; simpl; auto. Qed.

(** *** The working copy and the output agree *)

Definition mirrors (base : State) (f : Flow) : Prop :=
  ∀ k r, isCleared r = false → fl_state f !! k = Some r ↔ materialize (fl_changes f) base !! k = Some r.

Lemma mirrors_set base k r f :
  mirrors base f → mirrors base (with_data (<[k := r]> (fl_state f)) (<[k := r]> (fl_changes f)) f).
Proof.
  intros Hm k' r' Hr'. specialize (Hm k' r' Hr'). rewrite lookup_materialize in *. simpl.
  destruct (decide (k = k')) as [<-|Hne].
  - rewrite !lookup_insert_eq. naive_solver.
  - by rewrite !lookup_insert_ne.
Qed.

Lemma mirrors_delete base n f : mirrors base f → mirrors base (deleteOne n f).
Proof.
  intros Hm k' r' Hr'. specialize (Hm k' r' Hr'). rewrite lookup_materialize in *. simpl.
  destruct (decide (n = k')) as [<-|Hne].
  - rewrite lookup_delete_eq, lookup_insert_eq. split; [done|]. intros (Hc & [[= <-]|[? _]]); done.
  - by rewrite lookup_delete_ne, lookup_insert_ne.
Qed.

Lemma mirrors_clear base f : mirrors base f → mirrors base (flow_clear f).
Proof.
  intros Hm k r Hr. specialize (Hm k r Hr). rewrite lookup_materialize in *. simpl.
  rewrite lookup_empty, lookup_union, lookup_fmap. split; [done|]. intros (_ & H). exfalso.
  destruct (fl_state f !! k) as [r'|] eqn:Hk; simpl in H.
  - destruct (fl_changes f !! k); simpl in H; destruct H as [[= <-]|[? _]]; done.
  - rewrite (left_id_L None _) in H. naive_solver.
Qed.

Lemma mirrors_op base op f : mirrors base f → mirrors base (do_op op f).
Proof.
  intros Hm. destruct op as [name v|names| |fields snap| | |payload|url input|now i m d g]; simpl.
  - unfold flow_set, Set_. destruct (encode name v) as [r|] eqn:He; simpl; [by apply mirrors_set|done].
  - unfold flow_del. revert f Hm. induction names; simpl; auto using mirrors_delete.
  - by apply mirrors_clear.
  - unfold SetChanges. revert f Hm. induction fields as [|e fields IH]; simpl; [done|].
    intros f Hm. apply IH. destruct (match snap !! e.1 with Some _ => _ | None => _ end); [done|by apply mirrors_set].
  - done.
  - done.
  - destruct (Interrupt payload f) as [[p f']|] eqn:H; [|done].
    unfold Interrupt in H. by repeat case_match; simplify_eq.
  - destruct (Subgraph url input f) as [[p f']|] eqn:H; [|done].
    unfold Subgraph in H. by repeat case_match; simplify_eq.
  - unfold Retry. by destruct (match stepCreatedAt f with Some _ => _ | None => _ end).
Qed.

Lemma changes_grow op f k : is_Some (fl_changes f !! k) → is_Some (fl_changes (do_op op f) !! k).
Proof.
  intros Hk. destruct op as [name v|names| |fields snap| | |payload|url input|now i m d g]; simpl.
  - unfold flow_set, Set_. destruct (encode name v) as [r|]; simpl; [|done]. by apply lookup_insert_is_Some'; right.
  - unfold flow_del. revert f Hk. induction names as [|n names IH]; simpl; [done|]. intros f Hk. apply IH. simpl.
    by apply lookup_insert_is_Some'; right.
  - rewrite lookup_union. destruct Hk as [r ->]. rewrite lookup_fmap. destruct (fl_state f !! k); simpl; eauto.
  - unfold SetChanges. revert f Hk. induction fields as [|e fields IH]; simpl; [done|]. intros f Hk. apply IH.
    destruct (match snap !! e.1 with Some _ => _ | None => _ end); [done|]. simpl.
    by apply lookup_insert_is_Some'; right.
  - done.
  - done.
  - destruct (Interrupt payload f) as [[p f']|] eqn:H; [|done].
    unfold Interrupt in H. by repeat case_match; simplify_eq.
  - destruct (Subgraph url input f) as [[p f']|] eqn:H; [|done].
    unfold Subgraph in H. by repeat case_match; simplify_eq.
  - unfold Retry. by destruct (match stepCreatedAt f with Some _ => _ | None => _ end).
Qed.

(** A task's output is what it saw.  Whatever a task does to the flow it was dispatched with - the
    row's state overlaid with the changes of its earlier attempts - the changes the engine persists,
    merged over those, make of the row's state exactly the state the task ended up reading. *)
Theorem task_output_is_what_it_saw base prior n created resume child ops k r :
  isCleared r = false →
  let f := run_task ops (dispatched (materialize prior base) prior n created resume child) in
  fl_state f !! k = Some r ↔ materialize (Merge (fl_changes f) prior) base !! k = Some r.
Proof.
  intros Hr f. assert (mirrors base f ∧ ∀ k, is_Some (prior !! k) → is_Some (fl_changes f !! k)) as [Hm Hg].
  { unfold f. apply run_task_ind.
    - intros op f' [Hm Hg]. split; [by apply mirrors_op|]. intros k' Hk'. by apply changes_grow, Hg.
    - split; [|done]. intros k' r' Hr'. by rewrite !lookup_materialize; simpl; rewrite lookup_materialize. }
  rewrite (Hm _ _ Hr), !lookup_materialize. unfold Merge.
  rewrite lookup_union. specialize (Hg k).
  destruct (fl_changes f !! k), (prior !! k) as [p|]; simpl; try done.
  destruct Hg; [by eauto|done].
Qed.
End task.

(** Witness: a second attempt that finds what the first one changed, changes it and clears the rest. *)
Lemma task_output_is_what_it_saw_witness :
  let base : State := {["a" := Raw (VBool true); "b" := Raw (VStr "x")]} in
  let prior : State := {["b" := Raw (VStr "y")]} in
  let ops := [OpDel ["a"]; OpSet "b" (VStr "z"); OpGoto "next"] in
  let f := run_task (λ _ _, false) (λ _, 0) ops (dispatched (materialize prior base) prior 1 None None None) in
  fl_state f !! "b" = Some (Raw (VStr "z"))
  ↔ materialize (Merge (fl_changes f) prior) base !! "b" = Some (Raw (VStr "z")).
Proof. intros base prior ops. apply task_output_is_what_it_saw. reflexivity. Defined.

(** ** Parking *)

(** The park signals, and which parks were resolved. *)
Definition parks (f : Flow) : bool * string * bool * bool :=
  (interrupt f, subgraphURL f, interruptDone f, subgraphDone f).

Lemma parks_del names f : parks (flow_del names f) = parks f.
Proof. unfold flow_del. revert f. induction names as [|n names IH]; intros f; simpl; [done|by rewrite IH]. Qed.

Lemma parks_set_changes same fields snap f : parks (SetChanges same fields snap f) = parks f.
Proof.
  unfold SetChanges. revert f. induction fields as [|e fields IH]; intros f; simpl; [done|]. rewrite IH.
  by destruct (match snap !! e.1 with Some _ => _ | None => _ end).
Qed.

Lemma parks_set name v f f' : flow_set name v f = Ok f' → parks f' = parks f.
Proof. unfold flow_set, Set_. destruct (encode name v); simpl; [by intros [= <-]|done]. Qed.

Lemma parks_retry overflow now i m d g f : parks (Retry overflow now i m d g f).2 = parks f.
Proof. unfold Retry. by destruct (match stepCreatedAt f with Some _ => _ | None => _ end). Qed.

(** At most one park is armed, and none once one is resolved. *)
Definition parks_ok (p : bool * string * bool * bool) : Prop :=
  let '(int, url, idone, sdone) := p in
  (int = true → idone = false ∧ sdone = false ∧ url = "") ∧
  (url ≠ "" → idone = false ∧ sdone = false ∧ int = false).

Lemma do_op_parks same overflow op f :
  parks_ok (parks f) →
  parks_ok (parks (do_op same overflow op f)) ∧
  interruptDone (do_op same overflow op f) = interruptDone f ∧
  subgraphDone (do_op same overflow op f) = subgraphDone f.
Proof.
  intros Hok.
  assert (∀ f', parks f' = parks f → parks_ok (parks f') ∧ interruptDone f' = interruptDone f
            ∧ subgraphDone f' = subgraphDone f) as Hsame by (intros f' Hf; rewrite Hf; unfold parks in Hf; by simplify_eq).
  destruct op as [name v|names| |fields snap| | |payload|url input|now i m d g]; simpl; try done.
  - destruct (flow_set name v f) eqn:H; [|done]. by eapply Hsame, parks_set.
  - by apply Hsame, parks_del.
  - by apply Hsame, parks_set_changes.
  - destruct (Interrupt payload f) as [[p f']|] eqn:H; [|done]. unfold Interrupt in H.
    destruct (interruptDone f) eqn:?; [by simplify_eq|]. destruct (subgraphDone f) eqn:?; [done|].
    destruct (bool_decide_reflect (subgraphURL f = "")) as [Hu|]; [|done]. simpl in H.
    destruct (interrupt f); [done|]. simplify_eq. unfold parks_ok, parks. simpl. naive_solver.
  - destruct (Subgraph url input f) as [[p f']|] eqn:H; [|done]. unfold Subgraph in H.
    destruct (subgraphDone f) eqn:?; [by simplify_eq|]. destruct (interruptDone f) eqn:?; [done|].
    destruct (interrupt f) eqn:?; [done|]. simpl in H.
    destruct (bool_decide_reflect (subgraphURL f = "")) as [Hu|]; [|done]. simplify_eq.
    unfold parks_ok, parks. simpl. naive_solver.
  - by apply Hsame, parks_retry.
Qed.

(** A step parks at most once: however often a task asks, it comes out with at most one park armed,
    an interrupt or a subgraph, and with none once a park of either kind was resolved for it; the
    engine's own guards against a second park are for flows that were decoded off the wire. *)
Theorem a_step_parks_once same overflow base prior n created resume child ops :
  let f := run_task same overflow ops (dispatched base prior n created resume child) in
  (InterruptRequested f = None ∨ SubgraphRequested f = None) ∧
  (is_Some (InterruptRequested f) ∨ is_Some (SubgraphRequested f) → resume = None ∧ child = None).
Proof.
  intros f. assert (parks_ok (parks f) ∧
    interruptDone f = match resume with Some _ => true | None => false end ∧
    subgraphDone f = match child with Some _ => true | None => false end) as ([Hint Hsub] & Hi & Hs).
  { unfold f. apply run_task_ind; [|done]. clear f. intros op f (Hok & <- & <-). by apply do_op_parks. }
  unfold InterruptRequested, SubgraphRequested. split.
  - destruct (interrupt f); [|by left]. right. by destruct (Hint eq_refl) as (_ & _ & ->).
  - intros Harm. assert (interruptDone f = false ∧ subgraphDone f = false) as [Hid Hsd].
    { destruct Harm as [H|H]; [destruct (interrupt f); [|by destruct H]; by destruct (Hint eq_refl) as (? & ? & _)|].
      case_bool_decide as Hu; [by destruct H|]. by destruct (Hsub Hu) as (? & ? & _). }
    rewrite Hid in Hi. rewrite Hsd in Hs. by destruct resume, child.
Qed.

(** ** The backoff *)

(** The cap does not keep a retry's delay inside an [int64], as the comment on the clamp says it
    does: doubling one second without a cap, which the API offers as a cap of zero, leaves the range
    at the thirty-fourth attempt, and a cap of [MaxInt64] is itself rounded to 2^63.  What the
    conversion then gives is up to the platform; where it gives the smallest integer the delay is
    negative and the step is due at once. *)
Theorem backoff_overflows overflow :
  let two := of_int 2 in
  to_int64 overflow (backoff_delay 1000000000 two 0 33) = 8589934592000000000 ∧
  to_int64 overflow (backoff_delay 1000000000 two 0 34) = overflow (backoff_delay 1000000000 two 0 34) ∧
  to_int64 overflow (backoff_delay 1000000000 two MaxInt64 34) = overflow (of_int MaxInt64) ∧
  (to_int64 (λ _, MinInt64) (backoff_delay 1000000000 two 0 34) < 0).
Proof. split_and!; vm_compute; reflexivity. Qed.
