(* ===== verification/Mermaid.v ===== *)
(** * What the two diagram renderers share ([workflow/flowrenderer.go], [workflow/graphrenderer.go])

    The escaping of labels, the durations of a label, and the facts about names that both renderers need: two
    labels never render alike, and the names the diagram gives its nodes are as distinct as the numbers
    they are made of. *)

From Stdlib Require Import Ascii.
From S2P Require Import Prelude Json Float64 Flow Keys.

#[local] Open Scope Z_scope.
#[local] Arguments String.append !_ _ / : simpl nomatch.

(** ** [escapeMermaid] *)

(** The pairs of [strings.NewReplacer]: every old string is one byte, so each byte is looked up once. *)
Definition mermaidEscaper : list (ascii * string) :=
  [("#"%char, "#35;"); (dquote, "#quot;"); ("'"%char, "#39;"); ("<"%char, "#lt;"); (">"%char, "#gt;");
   ("`"%char, "#96;"); ("["%char, "#91;"); ("]"%char, "#93;"); ("{"%char, "#123;"); ("}"%char, "#125;");
   ("("%char, "#40;"); (")"%char, "#41;"); ("|"%char, "#124;")].

Definition escape_byte (c : ascii) : string :=
  match find (λ e, Ascii.eqb e.1 c) mermaidEscaper with Some (_, code) => code | None => String c EmptyString end.
Fixpoint escapeMermaid (s : string) : string :=
  match s with EmptyString => EmptyString | String c s => escape_byte c +:+ escapeMermaid s end.

(** ** Durations *)

Definition Millisecond : Z := 1000000.
Definition Second : Z := 1000000000.
Definition Minute : Z := 60 * Second.
Definition Hour : Z := 60 * Minute.

(** [Duration.Seconds], [Minutes] and [Hours]: whole units plus the fraction of one. *)
Definition in_units (unit d : Z) : float64 := fadd (of_int (d / unit)) (fdiv (of_int (d mod unit)) (of_int unit)).
(** [int(x)] of such a number, which always fits. *)
Definition int_of (x : float64) : Z := default 0 (truncate x).

(** [%.3g] of a number from 1 to 100: rounded to three digits, halves to even, without trailing zeros. *)
Definition round_half_even (num den : Z) : Z :=
  let q := num / den in let r := num mod den in
  if bool_decide (2 * r < den) then q else if bool_decide (den < 2 * r) then q + 1
  else if Z.even q then q else q + 1.
Fixpoint trim_zeros (places : nat) (n : Z) : Z * nat :=
  match places with
  | O => (n, O)
  | S p => if bool_decide (n mod 10 = 0) then trim_zeros p (n / 10) else (n, places)
  end.
Definition pad (places : nat) (s : string) : string :=
  foldr (λ _ s, String "0" s) s (seq 0 (places - String.length s)).
Definition fmt_3g (x : float64) : string :=
  match x with
  | S754_finite _ m e =>
      let '(num, den) := if 0 <=? e then (Z.pos m * 2 ^ e, 1) else (Z.pos m, 2 ^ (- e)) in
      let places := if bool_decide (num < 10 * den) then 2%nat else 1%nat in
      let '(n, places) := trim_zeros places (round_half_even (num * 10 ^ Z.of_nat places) den) in
      let unit := 10 ^ Z.of_nat places in
      Itoa (n / unit) +:+ (match places with O => EmptyString | _ => "." +:+ pad places (Itoa (n mod unit)) end)
  | _ => "0"
  end.

Definition flowFormatDuration (d : Z) : string :=
  let d := Z.max d 0 in
  if bool_decide (d < Second) then Itoa (d / Millisecond) +:+ "ms" else
  if bool_decide (d < Minute) then fmt_3g (in_units Second d) +:+ "s" else
  if bool_decide (d < Hour) then
    let m := int_of (in_units Minute d) in let s := int_of (in_units Second d) mod 60 in
    if bool_decide (s = 0) then Itoa m +:+ "m" else Itoa m +:+ "m" +:+ Itoa s +:+ "s"
  else if bool_decide (d < 24 * Hour) then
    let h := int_of (in_units Hour d) in let m := int_of (in_units Minute d) mod 60 in
    if bool_decide (m = 0) then Itoa h +:+ "h" else Itoa h +:+ "h" +:+ Itoa m +:+ "m"
  else
    let days := int_of (fdiv (in_units Hour d) (of_int 24)) in let h := int_of (in_units Hour d) mod 24 in
    if bool_decide (h = 0) then Itoa days +:+ "d" else Itoa days +:+ "d" +:+ Itoa h +:+ "h".

Example durations :
  flowFormatDuration (-5) = "0ms" ∧ flowFormatDuration 1500000000 = "1.5s" ∧ flowFormatDuration 12345000000 = "12.3s"
  ∧ flowFormatDuration 59990000000 = "60s" ∧ flowFormatDuration 1004000000 = "1s" ∧ flowFormatDuration 1055000000 = "1.05s"
  ∧ flowFormatDuration 60000000000 = "1m" ∧ flowFormatDuration 3725000000000 = "1h2m" ∧ flowFormatDuration 90000000000000 = "1d1h".
Proof. split_and!; by vm_compute. Qed.

(** ** Labels *)

Definition is_meta (c : ascii) : bool := existsb (λ e, Ascii.eqb e.1 c) mermaidEscaper.
Definition mark : ascii := "#"%char.

Lemma escape_plain c : is_meta c = false → escape_byte c = String c EmptyString ∧ c ≠ mark.
Proof.
  intros Hc. split; [|by intros ->]. unfold escape_byte. destruct (find _ _) as [[a code]|] eqn:Hf; [|done].
  apply find_some in Hf as [Hin He]. exfalso. apply not_true_iff_false in Hc. apply Hc, existsb_exists. eauto.
Qed.

Lemma escape_meta c : is_meta c = true → (c, escape_byte c) ∈ mermaidEscaper.
Proof.
  intros Hc. unfold escape_byte. destruct (find _ _) as [[a code]|] eqn:Hf.
  - apply find_some in Hf as [Hin He]. simpl in He. apply Ascii.eqb_eq in He as ->. by apply list_elem_of_In.
  - apply existsb_exists in Hc as (e & Hin & He). pose proof (find_none _ _ Hf _ Hin) as Hn. simpl in Hn. congruence.
Qed.

(** Each code begins with the mark, and no code is the start of another. *)
Fixpoint starts_with (p s : string) : bool :=
  match p, s with
  | EmptyString, _ => true
  | String a p, String b s => Ascii.eqb a b && starts_with p s
  | _, _ => false
  end.
Lemma starts_with_app p q s t : p +:+ s = q +:+ t → starts_with p q = true ∨ starts_with q p = true.
Proof.
  revert q. induction p as [|a p IH]; intros q H; [by left|]. destruct q as [|b q]; [by right|].
  simpl in H. injection H as -> H. simpl. rewrite Ascii.eqb_refl. by apply IH.
Qed.
Lemma codes_apart : forallb (λ e, forallb (λ e', Ascii.eqb e.1 e'.1 || negb (starts_with e.2 e'.2)) mermaidEscaper) mermaidEscaper = true.
Proof. by vm_compute. Qed.
Lemma codes_marked : forallb (λ e, starts_with "#" e.2) mermaidEscaper = true.
Proof. by vm_compute. Qed.

Lemma code_unique c c' s t : is_meta c = true → is_meta c' = true → escape_byte c +:+ s = escape_byte c' +:+ t → c = c'.
Proof.
  intros H%escape_meta%list_elem_of_In H'%escape_meta%list_elem_of_In Heq. pose proof codes_apart as Ha.
  rewrite forallb_forall in Ha.
  pose proof (Ha _ H) as H1. rewrite forallb_forall in H1. specialize (H1 _ H').
  pose proof (Ha _ H') as H2. rewrite forallb_forall in H2. specialize (H2 _ H). cbn [fst snd] in H1, H2.
  rewrite orb_true_iff, Ascii.eqb_eq, negb_true_iff in H1, H2.
  destruct (starts_with_app _ _ _ _ Heq); destruct H1, H2; congruence.
Qed.

Lemma code_marked c s : is_meta c = true → ∃ t, escape_byte c +:+ s = String mark t.
Proof.
  intros H%escape_meta%list_elem_of_In. pose proof codes_marked as Ha. rewrite forallb_forall in Ha. specialize (Ha _ H).
  cbn [snd] in Ha. destruct (escape_byte c) as [|a code]; [done|]. cbn [starts_with] in Ha.
  apply andb_true_iff in Ha as [Ha%Ascii.eqb_eq _]. subst a. simpl. by eexists.
Qed.

Lemma sapp_inj_l (p s t : string) : p +:+ s = p +:+ t → s = t.
Proof. induction p as [|a p IH]; [done|]. simpl. intros [= H]. by apply IH. Qed.

(** Two labels never render alike. *)
Lemma escapeMermaid_inj s t : escapeMermaid s = escapeMermaid t → s = t.
Proof.
  revert t. induction s as [|c s IH]; intros [|c' t]; cbn [escapeMermaid]; [done| | |].
  1, 2: intros H; exfalso.
  - destruct (is_meta c') eqn:Hc; [destruct (code_marked c' (escapeMermaid t) Hc) as [u Hu]; congruence|].
    destruct (escape_plain c' Hc) as [He _]. by rewrite He in H.
  - destruct (is_meta c) eqn:Hc; [destruct (code_marked c (escapeMermaid s) Hc) as [u Hu]; congruence|].
    destruct (escape_plain c Hc) as [He _]. by rewrite He in H.
  - intros H. destruct (is_meta c) eqn:Hc, (is_meta c') eqn:Hc'.
    + pose proof (code_unique _ _ _ _ Hc Hc' H) as ->. f_equal. apply IH. by apply sapp_inj_l in H.
    + destruct (code_marked c (escapeMermaid s) Hc) as [u Hu], (escape_plain c' Hc') as [He Hm]. rewrite He, Hu in H. simpl in H. congruence.
    + destruct (code_marked c' (escapeMermaid t) Hc') as [u Hu], (escape_plain c Hc) as [He Hm]. rewrite He, Hu in H. simpl in H. congruence.
    + destruct (escape_plain c Hc) as [He _], (escape_plain c' Hc') as [He' _]. rewrite He, He' in H. simpl in H.
      injection H as -> H. f_equal. by apply IH.
Qed.

(** Nothing in an escaped label closes its quotes or opens a shape: of the metacharacters only the mark is left. *)
Definition inert (c : ascii) : bool := Ascii.eqb c mark || negb (is_meta c).
Lemma all_ch_app p s t : all_ch p (s +:+ t) = all_ch p s && all_ch p t.
Proof. induction s as [|c s IH]; [done|]. simpl. by rewrite IH, andb_assoc. Qed.
Lemma codes_inert : forallb (λ e, all_ch inert e.2) mermaidEscaper = true.
Proof. by vm_compute. Qed.
Lemma escapeMermaid_inert s : all_ch inert (escapeMermaid s) = true.
Proof.
  induction s as [|c s IH]; [done|]. cbn [escapeMermaid]. rewrite all_ch_app, IH, andb_true_r. destruct (is_meta c) eqn:Hc.
  - pose proof codes_inert as H. rewrite forallb_forall in H. by apply (H (c, escape_byte c)), list_elem_of_In, escape_meta.
  - destruct (escape_plain c Hc) as [-> _]. simpl. unfold inert. by rewrite Hc, orb_true_r.
Qed.

(** ** Names made of numbers *)

Definition stops (s : string) : Prop := match s with EmptyString => True | String c _ => digit_value c = None end.

Lemma digits_munch a b s t : all_digits a → all_digits b → stops s → stops t → a +:+ s = b +:+ t → a = b ∧ s = t.
Proof.
  revert b. induction a as [|c a IH]; intros [|c' b] Ha Hb Hs Ht H; simpl in H.
  - done.
  - subst s. destruct Hb as [[v Hv] _]. simpl in Hs. congruence.
  - subst t. destruct Ha as [[v Hv] _]. simpl in Ht. congruence.
  - injection H as -> H. destruct Ha as [_ Ha], Hb as [_ Hb]. by destruct (IH b Ha Hb Hs Ht H) as [-> ->].
Qed.

Lemma Itoa_munch i j s t : 0 ≤ i < 2 ^ 63 → 0 ≤ j < 2 ^ 63 → stops s → stops t → Itoa i +:+ s = Itoa j +:+ t → i = j ∧ s = t.
Proof.
  intros Hi Hj Hs Ht H. destruct (digits_munch (Itoa i) (Itoa j) s t) as [He ->]; [by apply Itoa_digits; lia..|done|done|done|].
  split; [|done]. pose proof (ParseInt_Itoa i Hi) as H1. rewrite He, (ParseInt_Itoa j Hj) in H1. congruence.
Qed.

(** A name without the byte that separates the two ends of an edge. *)
Definition nul : ascii := ascii_of_nat 0.
Definition nul_free (s : string) : bool := all_ch (λ c, negb (Ascii.eqb c nul)) s.
Lemma plain_app s t : nul_free (s +:+ t) = nul_free s && nul_free t.
Proof. apply all_ch_app. Qed.
Lemma digits_plain s : all_digits s → nul_free s = true.
Proof.
  induction s as [|c s IH]; [done|]. intros [[v Hv] Hs]. unfold nul_free in *. simpl. rewrite IH, andb_true_r by done.
  apply negb_true_iff, Ascii.eqb_neq. by intros ->.
Qed.
Lemma Itoa_plain i : 0 ≤ i → nul_free (Itoa i) = true.
Proof. intros Hi. by apply digits_plain, Itoa_digits. Qed.

Lemma separated a b s t : nul_free a = true → nul_free b = true → a +:+ String nul s = b +:+ String nul t → a = b ∧ s = t.
Proof.
  revert b. induction a as [|c a IH]; intros [|c' b] Ha Hb H; simpl in H.
  - by injection H as ->.
  - injection H as <- _. by unfold nul_free in Hb.
  - injection H as -> _. by unfold nul_free in Ha.
  - injection H as -> H. unfold nul_free in Ha, Hb. simpl in Ha, Hb. apply andb_true_iff in Ha as [_ Ha], Hb as [_ Hb].
    by destruct (IH b Ha Hb H) as [-> ->].
Qed.

(** ** Tables filled by a loop *)

Lemma foldl_keyed `{Countable K} {A B} (key : A → K) (f : gmap K B → A → gmap K B) (val : A → option B) :
  (∀ m e i, f m e !! i = if decide (i = key e) then match val e with Some v => Some v | None => m !! i end else m !! i) →
  ∀ l m x, NoDup (key <$> l) → (x ∈ l → foldl f m l !! key x = match val x with Some v => Some v | None => m !! key x end)
    ∧ (∀ i, i ∉ key <$> l → foldl f m l !! i = m !! i).
Proof.
  intros Hf l. induction l as [|e l IH]; intros m x Hnd; [by split; [intros ?%elem_of_nil|]|].
  rewrite fmap_cons in Hnd. apply NoDup_cons in Hnd as [Hn Hnd]. destruct (IH (f m e) x Hnd) as [H1 H2]. split; cbn [foldl].
  - intros [->|Hx]%elem_of_cons.
    + rewrite H2 by done. rewrite Hf. by rewrite decide_True.
    + rewrite H1 by done. rewrite Hf. rewrite decide_False; [done|]. intros Heq. apply Hn. rewrite <- Heq. by apply list_elem_of_fmap_2.
  - intros i Hi. rewrite fmap_cons, not_elem_of_cons in Hi. destruct Hi as [Hi1 Hi2]. rewrite H2 by done. by rewrite Hf, decide_False.
Qed.

Lemma foldl_insert `{Countable K} {A B} (key : A → K) (val : A → B) l (m : gmap K B) : NoDup (key <$> l) →
  (∀ x, x ∈ l → foldl (λ m e, <[key e := val e]> m) m l !! key x = Some (val x))
  ∧ (∀ i, i ∉ key <$> l → foldl (λ m e, <[key e := val e]> m) m l !! i = m !! i).
Proof.
  intros Hnd. assert (∀ (m : gmap K B) e i, <[key e := val e]> m !! i
    = if decide (i = key e) then match Some (val e) with Some v => Some v | None => m !! i end else m !! i) as Hf
    by (intros m' e i; case_decide; subst; [by rewrite lookup_insert_eq|by rewrite lookup_insert_ne]).
  pose proof (foldl_keyed key (λ m e, <[key e := val e]> m) (λ e, Some (val e)) Hf l m) as Hk.
  split; [intros x; by apply Hk|]. destruct l as [|x l]; [done|]. by apply (Hk x).
Qed.

Lemma mjoin_cons {A} (x : list A) l : mjoin (x :: l) = x ++ mjoin l.
Proof. done. Qed.
Lemma bind_one {A B} (f : A → list B) x : [x] ≫= f = f x.
Proof. simpl. by rewrite app_nil_r. Qed.
