(* ===== verification/FlowDiagram.v ===== *)
(** * The diagram of a flow's history ([workflow/flowrenderer.go])

    [FlowRenderer] draws the steps of a history as a Mermaid flowchart: a node per step, a block per
    subgraph and per set of siblings, arrows from predecessor to successor.  The renderer writes lines; a
    [line] here is one of the formats it prints, and [line_text] prints it.  A step's subgraph is rendered
    before the lines around it, as in the code, and its lines are the body of its block.

    The theorem says what a reader of the diagram relies on: every step of the history, at every depth, has
    one node; arrows join drawn nodes only; every node can be reached from the start, and from it the
    end, where the flow has stopped; and blocks nest. *)

From Stdlib Require Import Ascii.
From S2P Require Import Prelude Json Keys Graph Mermaid.

#[local] Open Scope Z_scope.
#[local] Arguments String.append !_ _ / : simpl nomatch.

(** ** Steps *)

(** A [time.Time] is its nanoseconds since the zero time. *)
Inductive FlowStep := mkFlowStep {
  StepKey : string;
  StepID : Z;
  TaskName : string;
  PredecessorID : Z;
  SuccessorID : Z;
  Subgraph : bool;
  SubWorkflowName : string;
  SubHistory : list FlowStep;
  Status : string;
  CreatedAt : Z;
  StartedAt : Z;
  UpdatedAt : Z
}.

Definition IsZero (t : Z) : bool := bool_decide (t = 0).
(** [Time.Sub] stops at the largest and the smallest duration. *)
Definition time_sub (a b : Z) : Z := Z.max (- 2 ^ 63) (Z.min (2 ^ 63 - 1) (a - b)).

Definition HasStarted (s : FlowStep) : bool :=
  bool_decide (Status s ∈ ["running"; "completed"; "failed"; "terminated"; "cancelled"; "interrupted"]).
Definition isTerminalStepStatus (status : string) : bool :=
  bool_decide (status ∈ ["completed"; "failed"; "terminated"; "cancelled"]).

Fixpoint inflight (s : FlowStep) : bool :=
  bool_decide (Status s ∈ ["pending"; "running"; "interrupted"; ""]) || (Subgraph s && existsb inflight (SubHistory s)).
Definition hasInflightStep (steps : list FlowStep) : bool := existsb inflight steps.

(** The walk of [subgraphWallTime] over one step, with the earliest creation and the latest update so far. *)
Fixpoint wall_walk (s : FlowStep) (bounds : Z * Z) : option (Z * Z) :=
  if negb (isTerminalStepStatus (Status s)) then None else
  let minCreated := if IsZero bounds.1 || bool_decide (CreatedAt s < bounds.1) then CreatedAt s else bounds.1 in
  let maxUpdated := if bool_decide (bounds.2 < UpdatedAt s) then UpdatedAt s else bounds.2 in
  if Subgraph s then
    (fix walk (l : list FlowStep) (bounds : Z * Z) : option (Z * Z) :=
       match l with
       | [] => Some bounds
       | x :: l => match wall_walk x bounds with None => None | Some bounds => walk l bounds end
       end) (SubHistory s) (minCreated, maxUpdated)
  else Some (minCreated, maxUpdated).
Definition subgraphWallTime (history : list FlowStep) : option Z :=
  match history with
  | [] => None
  | _ => '(minCreated, maxUpdated) ← foldl (λ b s, b ≫= wall_walk s) (Some (0, 0)) history;
         Some (time_sub maxUpdated minCreated)
  end.

(** ** Lines *)

Inductive line :=
| Header (direction : string)
| ClassDef (name style : string)
| LinkStyle (fill : string)
| Blank
| Title (text : string)
| Terminal (id : string)
| StepNode (id label class : string)
| Click (id param key : string)
| Open (id label : string)
| Close
| Style (id style : string)
| Edge (src label dst : string).

Definition newline : string := String (ascii_of_nat 10) EmptyString.
Definition q (s : string) : string := String dquote (s +:+ String dquote EmptyString).

Definition line_text (l : line) : string :=
  match l with
  | Header direction => "flowchart " +:+ direction
  | ClassDef name style => "    classDef " +:+ name +:+ " " +:+ style
  | LinkStyle fill => "    linkStyle default stroke:" +:+ fill
  | Blank => ""
  | Title text => "    _title{{" +:+ q (escapeMermaid text) +:+ "}}:::term -.-> _start"
  | Terminal id => "    " +:+ id +:+ "((" +:+ q " " +:+ ")):::term"
  | StepNode id label class => "    " +:+ id +:+ "[" +:+ q (escapeMermaid label) +:+ "]:::" +:+ class
  | Click id param key => "    click " +:+ id +:+ " " +:+ q ("?" +:+ param +:+ "=" +:+ key)
  | Open id label => "    subgraph " +:+ id +:+ " [" +:+ q (escapeMermaid label) +:+ "]"
  | Close => "    end"
  | Style id style => "    style " +:+ id +:+ " " +:+ style
  | Edge src label dst =>
      if bool_decide (label = "") then "    " +:+ src +:+ " --> " +:+ dst
      else "    " +:+ src +:+ " -- " +:+ q (escapeMermaid label) +:+ " --> " +:+ dst
  end +:+ newline.

(** ** The renderer *)

Record FlowRenderer := mkFlowRenderer {
  steps : list FlowStep;
  primaryFill : string; primaryText : string;
  secondaryFill : string; secondaryText : string;
  errorFill : string; errorText : string;
  attentionFill : string; attentionText : string;
  direction : string;
  title : string;
  linkParam : string
}.

Definition NewFlowRenderer (steps : list FlowStep) : FlowRenderer :=
  mkFlowRenderer steps "#32a7c1" "#f4f2ef" "#e5f4f3" "#434343" "#f15922" "#f4f2ef" "#ed2e92" "#f4f2ef" "TD" "" "".
Definition WithPrimaryColors (fill text : string) (r : FlowRenderer) : FlowRenderer :=
  mkFlowRenderer (steps r) fill text (secondaryFill r) (secondaryText r) (errorFill r) (errorText r) (attentionFill r) (attentionText r)
    (direction r) (title r) (linkParam r).
Definition WithSecondaryColors (fill text : string) (r : FlowRenderer) : FlowRenderer :=
  mkFlowRenderer (steps r) (primaryFill r) (primaryText r) fill text (errorFill r) (errorText r) (attentionFill r) (attentionText r)
    (direction r) (title r) (linkParam r).
Definition WithErrorColors (fill text : string) (r : FlowRenderer) : FlowRenderer :=
  mkFlowRenderer (steps r) (primaryFill r) (primaryText r) (secondaryFill r) (secondaryText r) fill text (attentionFill r) (attentionText r)
    (direction r) (title r) (linkParam r).
Definition WithAttentionColors (fill text : string) (r : FlowRenderer) : FlowRenderer :=
  mkFlowRenderer (steps r) (primaryFill r) (primaryText r) (secondaryFill r) (secondaryText r) (errorFill r) (errorText r) fill text
    (direction r) (title r) (linkParam r).
Definition set_look (dir title_ param : string) (r : FlowRenderer) : FlowRenderer :=
  mkFlowRenderer (steps r) (primaryFill r) (primaryText r) (secondaryFill r) (secondaryText r) (errorFill r) (errorText r)
    (attentionFill r) (attentionText r) dir title_ param.
Definition WithTopDown (r : FlowRenderer) : FlowRenderer := set_look "TD" (title r) (linkParam r) r.
Definition WithLeftRight (r : FlowRenderer) : FlowRenderer := set_look "LR" (title r) (linkParam r) r.
Definition WithTitle (text : string) (r : FlowRenderer) : FlowRenderer := set_look (direction r) text (linkParam r) r.
Definition WithLinks (paramName : string) (r : FlowRenderer) : FlowRenderer := set_look (direction r) (title r) paramName r.

Definition part (key value : string) : list string := if bool_decide (value = "") then [] else [key +:+ value].
Definition flowClassDefLine (name fill text stroke extra : string) : line :=
  ClassDef name (String.concat "," (part "fill:" fill ++ part "color:" text ++ part "stroke:" stroke ++ part "" extra)).
Definition clusterStyle (r : FlowRenderer) : string :=
  String.concat "," (part "fill:" (primaryFill r) ++ ["fill-opacity:0.06"; "stroke:none"]
    ++ (if bool_decide (primaryText r ≠ "" ∧ primaryFill r ≠ "") then ["color:" +:+ primaryFill r] else [])).

(** ** [renderSteps] *)

Record subBlock := mkSub {
  blockID : string; label : string; body : list line;
  innerHeads : list string; innerTails : list string; callEdgeLabel : string
}.

(** How long the first started entry step of a subgraph waited. *)
Fixpoint call_label (history : list FlowStep) : string :=
  match history with
  | [] => ""
  | sub :: history =>
      if bool_decide (PredecessorID sub = 0) && HasStarted sub && negb (IsZero (StartedAt sub)) && negb (IsZero (CreatedAt sub))
      then let d := time_sub (StartedAt sub) (CreatedAt sub) in if bool_decide (0 < d) then flowFormatDuration d else ""
      else call_label history
  end.

Definition node_id (prefix : string) (id : Z) : string := prefix +:+ "s" +:+ Itoa id.

(** The edges written so far, the pairs already seen, and the steps an arrow enters or leaves. *)
Record edges := mkEdges { e_out : list line; e_emitted : gset string; e_in : gset Z; e_from : gset Z }.

Definition edge_key (src dst : string) : string := src +:+ String nul dst.
Definition emitEdge (src dst label : string) (st : edges) : edges :=
  if bool_decide (src = dst) then st else
  if bool_decide (edge_key src dst ∈ e_emitted st) then st else
  mkEdges (e_out st ++ [Edge src label dst]) ({[edge_key src dst]} ∪ e_emitted st) (e_in st) (e_from st).

Section level.
Context (r : FlowRenderer) (prefix : string).

(** The steps of one level, each with the block of its subgraph; the entries without an id are skipped. *)
Context (rows : list (FlowStep * option subBlock)).
Definition shown : list (FlowStep * option subBlock) := filter (λ e, StepID e.1 ≠ 0) rows.
Definition order : list Z := StepID ∘ fst <$> shown.
Definition stepByID : gmap Z FlowStep := foldl (λ m e, <[StepID e.1 := e.1]> m) ∅ shown.
Definition subBlocks : gmap Z subBlock :=
  foldl (λ m e, match e.2 with Some b => <[StepID e.1 := b]> m | None => m end) ∅ shown.
Definition exits : gmap Z (list string) :=
  foldl (λ m e, <[StepID e.1 := match e.2 with
                                | Some b => if bool_decide (innerTails b = []) then [node_id prefix (StepID e.1)] else innerTails b
                                | None => [node_id prefix (StepID e.1)]
                                end]> m) ∅ shown.

Definition timed (s : FlowStep) : bool := HasStarted s && isTerminalStepStatus (Status s) && negb (IsZero (UpdatedAt s)) && negb (IsZero (StartedAt s)).
Definition step_label (s : FlowStep) (caller : bool) : string :=
  stripProto (TaskName s) +:+
  (if timed s then
     if caller then
       match subgraphWallTime (SubHistory s) with
       | Some subDur => newline +:+ flowFormatDuration (Z.max (time_sub (UpdatedAt s) (StartedAt s) - subDur) 0)
       | None => ""
       end
     else newline +:+ flowFormatDuration (time_sub (UpdatedAt s) (StartedAt s))
   else "").

Definition emitClick (nodeID stepKey : string) : list line :=
  if bool_decide (linkParam r = "" ∨ stepKey = "") then [] else [Click nodeID (linkParam r) stepKey].
Definition emitStep (stepID : Z) : list line :=
  match stepByID !! stepID with
  | None => []
  | Some s =>
      let nodeID := node_id prefix stepID in
      let blk := subBlocks !! stepID in
      [StepNode nodeID (step_label s (bool_decide (is_Some blk))) (if bool_decide (Status s = "") then "pending" else Status s)]
      ++ emitClick nodeID (StepKey s)
      ++ match blk with
         | Some b => [Open (blockID b) (label b)] ++ body b ++ [Close; Style (blockID b) (clusterStyle r)]
         | None => []
         end
  end.

Definition pred_of (id : Z) : Z := match stepByID !! id with Some s => PredecessorID s | None => 0 end.
Definition succ_of (id : Z) : Z := match stepByID !! id with Some s => SuccessorID s | None => 0 end.
Definition childrenOf : gmap Z (list Z) :=
  foldl (λ m id, if bool_decide (pred_of id = 0) then m
                 else <[pred_of id := default [] (m !! pred_of id) ++ [id]]> m) ∅ order.
(** A step has one predecessor, so the order in which the code ranges over [childrenOf] does not matter. *)
Definition cohortOf (id : Z) : option Z :=
  let parentID := pred_of id in
  if bool_decide (parentID ≠ 0 ∧ (2 ≤ length (default [] (childrenOf !! parentID)))%nat) then Some parentID else None.

(** The loop that writes the nodes, the siblings of a step with it. *)
Definition emit_row (st : list line * gset Z) (id : Z) : list line * gset Z :=
  let '(out, emittedSteps) := st in
  if bool_decide (id ∈ emittedSteps) then st else
  match cohortOf id with
  | None => (out ++ emitStep id, {[id]} ∪ emittedSteps)
  | Some pid =>
      let kids := default [] (childrenOf !! pid) in
      let block := prefix +:+ "fo_s" +:+ Itoa pid in
      (out ++ [Open block " "] ++ mjoin (emitStep <$> kids) ++ [Close; Style block "fill:none,stroke:none"],
       list_to_set kids ∪ emittedSteps)
  end.
Definition node_lines : list line := (foldl emit_row ([], ∅) order).1.

Definition edgeLabel (from to : FlowStep) : string :=
  if IsZero (UpdatedAt from) || negb (HasStarted to) || IsZero (StartedAt to) then ""
  else flowFormatDuration (Z.max (time_sub (StartedAt to) (UpdatedAt from)) 0).

Definition addEdge (fromID toID : Z) (st : edges) : edges :=
  match stepByID !! fromID, stepByID !! toID with
  | Some from, Some to =>
      if bool_decide (fromID = toID) then st else
      let st := foldl (λ st src, emitEdge src (node_id prefix toID) (edgeLabel from to) st) st (default [] (exits !! fromID)) in
      mkEdges (e_out st) (e_emitted st) ({[toID]} ∪ e_in st) ({[fromID]} ∪ e_from st)
  | _, _ => st
  end.
Definition row_edges (st : edges) (id : Z) : edges :=
  let st := if bool_decide (pred_of id = 0) then st else addEdge (pred_of id) id st in
  if bool_decide (succ_of id = 0) then st else addEdge id (succ_of id) st.
Definition call_edges (st : edges) (id : Z) : edges :=
  match subBlocks !! id with
  | None => st
  | Some b => foldl (λ st h, emitEdge (node_id prefix id) h (callEdgeLabel b) st) st (innerHeads b)
  end.
Definition all_edges : edges := foldl call_edges (foldl row_edges (mkEdges [] ∅ ∅ ∅) order) order.

Definition level_heads : list string :=
  mjoin ((λ id, if bool_decide (id ∈ e_in all_edges) then [] else [node_id prefix id]) <$> order).
Definition level_tails : list string :=
  mjoin ((λ id, if bool_decide (id ∈ e_from all_edges) then [] else default [] (exits !! id)) <$> order).
Definition level_lines : list line := node_lines ++ e_out all_edges.
End level.

(** The block of a step: its subgraph's steps rendered under a prefix of their own. *)
Fixpoint sub_block (r : FlowRenderer) (prefix : string) (s : FlowStep) {struct s} : option subBlock :=
  match SubHistory s with
  | [] => None
  | _ =>
      if negb (Subgraph s) then None else
      let subPrefix := node_id prefix (StepID s) +:+ "_sub" in
      let rows := map (λ x, (x, sub_block r subPrefix x)) (SubHistory s) in
      Some (mkSub (node_id prefix (StepID s) +:+ "_sg") (SubWorkflowName s) (level_lines r subPrefix rows)
              (level_heads subPrefix rows) (level_tails subPrefix rows) (call_label (SubHistory s)))
  end.

Definition rows_of (r : FlowRenderer) (prefix : string) (steps : list FlowStep) : list (FlowStep * option subBlock) :=
  map (λ x, (x, sub_block r prefix x)) steps.
Definition renderSteps (r : FlowRenderer) (prefix : string) (steps : list FlowStep) : list line * list string * list string :=
  let rows := rows_of r prefix steps in (level_lines r prefix rows, level_heads prefix rows, level_tails prefix rows).

Definition render_lines (r : FlowRenderer) : list line :=
  let chromeStroke := if bool_decide (secondaryText r = "") then secondaryFill r else secondaryText r in
  let showEnd := negb (hasInflightStep (steps r)) in
  let '(out, level_heads, level_tails) := renderSteps r "" (steps r) in
  [Header (direction r);
   flowClassDefLine "completed" (primaryFill r) (primaryText r) (primaryFill r) "";
   flowClassDefLine "running" (primaryFill r) (primaryText r) (primaryFill r) "stroke-dasharray:4 2";
   flowClassDefLine "pending" (secondaryFill r) (secondaryText r) chromeStroke "";
   flowClassDefLine "failed" (errorFill r) (errorText r) (errorFill r) "";
   flowClassDefLine "terminated" (errorFill r) (errorText r) (errorFill r) "";
   flowClassDefLine "cancelled" (errorFill r) (errorText r) (errorFill r) "";
   flowClassDefLine "interrupted" (attentionFill r) (attentionText r) (attentionFill r) "";
   flowClassDefLine "term" (secondaryFill r) (secondaryText r) chromeStroke "";
   LinkStyle (primaryFill r); Blank]
  ++ (if bool_decide (title r = "") then [] else [Title (title r)])
  ++ [Terminal "_start"] ++ (if showEnd then [Terminal "_end"] else [])
  ++ out
  ++ ((λ h, Edge "_start" "" h) <$> level_heads) ++ (if showEnd then (λ t, Edge t "" "_end") <$> level_tails else []).

Definition Render (r : FlowRenderer) : string := flat (line_text <$> render_lines r).

(** ** What a level's tables hold *)

Section tables.
Context (r : FlowRenderer) (prefix : string) (rows : list (FlowStep * option subBlock)).
Context (Hnd : NoDup (StepID ∘ fst <$> rows)) (Hnz : ∀ e, e ∈ rows → StepID e.1 ≠ 0).

Lemma shown_all : shown rows = rows.
Proof using Hnz.
  unfold shown. revert Hnz. generalize rows. intros l. induction l as [|e l IH]; intros H; [done|].
  rewrite filter_cons_True by (apply H; by left). f_equal. apply IH. intros x Hx. apply H. by right.
Qed.
Lemma order_all : order rows = StepID ∘ fst <$> rows.
Proof using Hnz. unfold order. by rewrite shown_all. Qed.

Lemma elem_of_order id : id ∈ order rows ↔ ∃ s b, (s, b) ∈ rows ∧ StepID s = id.
Proof using Hnz.
  rewrite order_all, list_elem_of_fmap. split.
  - intros ([s b] & -> & H). by exists s, b.
  - intros (s & b & H & <-). by exists (s, b).
Qed.
Lemma order_NoDup : NoDup (order rows).
Proof using Hnd Hnz. by rewrite order_all. Qed.

Lemma stepByID_lookup s b : (s, b) ∈ rows → stepByID rows !! StepID s = Some s.
Proof using Hnd Hnz. intros H. unfold stepByID. rewrite shown_all. exact (proj1 (foldl_insert (StepID ∘ fst) fst rows ∅ Hnd) (s, b) H). Qed.
Lemma stepByID_none id : id ∉ order rows → stepByID rows !! id = None.
Proof using Hnd Hnz.
  rewrite order_all. intros H. unfold stepByID. rewrite shown_all. exact (proj2 (foldl_insert (StepID ∘ fst) fst rows ∅ Hnd) id H).
Qed.
Lemma subBlocks_lookup s b : (s, b) ∈ rows → subBlocks rows !! StepID s = b.
Proof using Hnd Hnz.
  intros H. unfold subBlocks. rewrite shown_all.
  pose proof (foldl_keyed (StepID ∘ fst) (λ (m : gmap Z subBlock) (e : FlowStep * option subBlock), match e.2 with Some b => <[StepID e.1 := b]> m | None => m end) snd) as Hk.
  rewrite (proj1 (Hk ltac:(intros m [e [x|]] i; simpl; case_decide; subst;
    [by rewrite lookup_insert_eq|by rewrite lookup_insert_ne|done|done]) rows ∅ (s, b) Hnd) H). by destruct b.
Qed.

(** The nodes a step is left through: itself, or the tails of its block. *)
Definition exits_of (e : FlowStep * option subBlock) : list string :=
  match e.2 with
  | Some b => if bool_decide (innerTails b = []) then [node_id prefix (StepID e.1)] else innerTails b
  | None => [node_id prefix (StepID e.1)]
  end.
Lemma exits_lookup e : e ∈ rows → exits prefix rows !! StepID e.1 = Some (exits_of e).
Proof using Hnd Hnz. intros H. unfold exits. rewrite shown_all. exact (proj1 (foldl_insert (StepID ∘ fst) exits_of rows ∅ Hnd) e H). Qed.

Lemma pred_of_row s b : (s, b) ∈ rows → pred_of rows (StepID s) = PredecessorID s.
Proof using Hnd Hnz. intros H. unfold pred_of. by rewrite (stepByID_lookup s b). Qed.
Lemma succ_of_row s b : (s, b) ∈ rows → succ_of rows (StepID s) = SuccessorID s.
Proof using Hnd Hnz. intros H. unfold succ_of. by rewrite (stepByID_lookup s b). Qed.

(** ** Siblings *)

Lemma childrenOf_spec pid : pid ≠ 0 →
  default [] (childrenOf rows !! pid) = filter (λ id, pred_of rows id = pid) (order rows).
Proof using Type.
  intros Hp. unfold childrenOf. generalize (order rows) as l.
  assert (∀ l (m : gmap Z (list Z)), default [] (foldl (λ (m : gmap Z (list Z)) id, if bool_decide (pred_of rows id = 0) then m
    else <[pred_of rows id := default [] (m !! pred_of rows id) ++ [id]]> m) m l !! pid)
    = default [] (m !! pid) ++ filter (λ id, pred_of rows id = pid) l) as H; [|intros l; by rewrite H].
  induction l as [|x l IH]; intros m; [by rewrite app_nil_r|]. cbn [foldl]. rewrite IH.
  destruct (decide (pred_of rows x = pid)) as [Heq|Hne].
  - rewrite filter_cons_True, bool_decide_eq_false_2 by congruence. rewrite Heq, lookup_insert_eq. simpl. by rewrite <- app_assoc.
  - rewrite filter_cons_False by done. case_bool_decide; [done|]. by rewrite lookup_insert_ne.
Qed.

Lemma cohortOf_spec id pid : cohortOf rows id = Some pid → pid ≠ 0 ∧ pred_of rows id = pid.
Proof using Type. unfold cohortOf. case_bool_decide as H; [|done]. intros [= <-]. tauto. Qed.
Lemma cohortOf_sibling id id' pid : cohortOf rows id = Some pid → pred_of rows id' = pid → cohortOf rows id' = Some pid.
Proof using Type. unfold cohortOf. intros H ->. revert H. case_bool_decide as H; [|done]. intros [= <-]. by rewrite bool_decide_eq_true_2. Qed.
End tables.

(** ** Reading the lines *)

(** The nodes a line declares and the arrows it draws. *)
Definition declares (l : line) : list string :=
  match l with StepNode id _ _ => [id] | Terminal id => [id] | Title _ => ["_title"] | _ => [] end.
Definition arrows (l : line) : list (string * string) :=
  match l with Edge src _ dst => [(src, dst)] | Title _ => [("_title", "_start")] | _ => [] end.
Definition nodes_of (L : list line) : list string := L ≫= declares.
Definition arrows_of (L : list line) : list (string * string) := L ≫= arrows.
(** The nesting of the blocks after the lines, [None] where one is closed that is not open. *)
Fixpoint depth (n : nat) (L : list line) : option nat :=
  match L with
  | [] => Some n
  | Open _ _ :: L => depth (S n) L
  | Close :: L => match n with O => None | S n => depth n L end
  | _ :: L => depth n L
  end.

Lemma depth_app n L L' : depth n (L ++ L') = depth n L ≫= λ n, depth n L'.
Proof. revert n. induction L as [|l L IH]; intros n; [done|]. destruct l; simpl; try apply IH. destruct n; [done|apply IH]. Qed.

(** A block's frame neither declares nor draws. *)
Definition frame_free {A} (f : line → list A) : Prop := ∀ i l s, f (Open i l) = [] ∧ f Close = [] ∧ f (Style i s) = [].

Section emission.
Context (r : FlowRenderer) (prefix : string) (rows : list (FlowStep * option subBlock)).
Context (Hnd : NoDup (StepID ∘ fst <$> rows)) (Hnz : ∀ e, e ∈ rows → StepID e.1 ≠ 0).

(** What the loop has written when the steps [ids] have been. *)
Record written (ids : list Z) (st : list line * gset Z) : Prop := {
  wr_set : ∀ id, id ∈ st.2 ↔ id ∈ ids;
  wr_NoDup : NoDup ids;
  wr_order : ∀ id, id ∈ ids → id ∈ order rows;
  wr_cohort : ∀ id pid k, id ∈ ids → cohortOf rows id = Some pid → k ∈ order rows → pred_of rows k = pid → k ∈ ids;
  wr_lines : ∀ A (f : line → list A), frame_free f → st.1 ≫= f = ids ≫= λ id, emitStep r prefix rows id ≫= f;
  wr_depth : (∀ id n, depth n (emitStep r prefix rows id) = Some n) → ∀ n, depth n st.1 = Some n
}.

Lemma join_bind {A} (f : line → list A) l : mjoin (emitStep r prefix rows <$> l) ≫= f = l ≫= λ id, emitStep r prefix rows id ≫= f.
Proof using Type. induction l as [|x l IH]; [done|]. rewrite fmap_cons, mjoin_cons. by rewrite bind_app, IH. Qed.

Lemma depth_join l : (∀ id n, depth n (emitStep r prefix rows id) = Some n) → ∀ n, depth n (mjoin (emitStep r prefix rows <$> l)) = Some n.
Proof using Type. intros H. induction l as [|x l IH]; intros n; [done|]. rewrite fmap_cons, mjoin_cons. by rewrite depth_app, H; simpl. Qed.

Lemma written_row ids st id : written ids st → id ∈ order rows →
  ∃ ids', written ids' (emit_row r prefix rows st id) ∧ id ∈ ids' ∧ ∀ x, x ∈ ids → x ∈ ids'.
Proof using Hnd Hnz.
  intros W Hid. unfold emit_row. destruct st as [out em]. case_bool_decide as Hem.
  { exists ids. split_and!; [done|by apply (wr_set _ _ W)|done]. }
  assert (id ∉ ids) as Hni by (intros H; apply Hem, (wr_set _ _ W), H).
  destruct (cohortOf rows id) as [pid|] eqn:Hc.
  - destruct (cohortOf_spec rows id pid Hc) as [Hp Hpid]. rewrite childrenOf_spec by done.
    generalize (prefix +:+ "fo_s" +:+ Itoa pid) as block. intros block.
    set (kids := filter (λ id, pred_of rows id = pid) (order rows)).
    assert (∀ k, k ∈ kids ↔ k ∈ order rows ∧ pred_of rows k = pid) as Hk by (intros k; unfold kids; rewrite list_elem_of_filter; tauto).
    exists (ids ++ kids). split_and!; [|apply elem_of_app; right; by apply Hk|intros x Hx; apply elem_of_app; by left].
    split.
    + intros x. simpl. rewrite elem_of_union, elem_of_list_to_set, elem_of_app, (wr_set _ _ W). tauto.
    + apply NoDup_app. split_and!; [apply W| |by apply NoDup_filter, order_NoDup].
      intros x Hx [Hxo Hxp]%Hk. apply Hni. apply (wr_cohort _ _ W x pid); [done|by apply (cohortOf_sibling rows id)|done|done].
    + intros x [Hx|[Hx _]%Hk]%elem_of_app; [by apply (wr_order _ _ W)|done].
    + intros x p k [Hx|[Hxo Hxp]%Hk]%elem_of_app Hcx Hko Hkp; apply elem_of_app.
      * left. by apply (wr_cohort _ _ W x p).
      * right. apply Hk. destruct (cohortOf_spec rows x p Hcx). split; congruence.
    + intros A f Hf. simpl. destruct (Hf block " " "fill:none,stroke:none") as (H1 & H2 & H3).
      rewrite !bind_app, (wr_lines _ _ W) by done. simpl. rewrite bind_app, join_bind. simpl. rewrite H1, H2, H3. by rewrite app_nil_r.
    + intros Hd n. simpl. rewrite depth_app, (wr_depth _ _ W) by done. simpl. rewrite depth_app, depth_join by done. done.
  - exists (ids ++ [id]). split_and!; [|apply elem_of_app; right; by left|intros x Hx; apply elem_of_app; by left].
    split.
    + intros x. simpl. rewrite elem_of_union, elem_of_singleton, elem_of_app, list_elem_of_singleton, (wr_set _ _ W). tauto.
    + apply NoDup_app. split_and!; [apply W| |apply NoDup_singleton]. intros x Hx ->%list_elem_of_singleton. done.
    + intros x [Hx| ->%list_elem_of_singleton]%elem_of_app; [by apply (wr_order _ _ W)|done].
    + intros x p k [Hx| ->%list_elem_of_singleton]%elem_of_app Hcx; [|congruence]. intros Hko Hkp. apply elem_of_app. left.
      by apply (wr_cohort _ _ W x p).
    + intros A f Hf. simpl. rewrite !bind_app, (wr_lines _ _ W) by done. simpl. by rewrite app_nil_r.
    + intros Hd n. simpl. by rewrite depth_app, (wr_depth _ _ W); simpl.
Qed.

Lemma written_all l : ∀ ids st, written ids st → (∀ id, id ∈ l → id ∈ order rows) →
  ∃ ids', written ids' (foldl (emit_row r prefix rows) st l) ∧ (∀ x, x ∈ ids → x ∈ ids') ∧ ∀ x, x ∈ l → x ∈ ids'.
Proof using Hnd Hnz.
  induction l as [|id l IH]; intros ids st W Hl; [exists ids; split_and!; [done|done|by intros x ?%elem_of_nil]|]. cbn [foldl].
  destruct (written_row ids st id W) as (ids1 & W1 & Hin & Hsub); [apply Hl; by left|].
  destruct (IH ids1 _ W1) as (ids2 & W2 & Hsub2 & Hl2); [intros x Hx; apply Hl; by right|].
  exists ids2. split_and!; [done|auto|]. intros x [->|Hx]%elem_of_cons; auto.
Qed.

(** Every step is written once. *)
Lemma node_lines_spec : ∃ ids, ids ≡ₚ order rows
  ∧ (∀ A (f : line → list A), frame_free f → node_lines r prefix rows ≫= f = ids ≫= λ id, emitStep r prefix rows id ≫= f)
  ∧ ((∀ id n, depth n (emitStep r prefix rows id) = Some n) → ∀ n, depth n (node_lines r prefix rows) = Some n).
Proof using Hnd Hnz.
  destruct (written_all (order rows) [] ([], ∅)) as (ids & W & _ & Hall); [|done|].
  { split; [set_solver|constructor|by intros id ?%elem_of_nil|by intros id pid k ?%elem_of_nil|done|done]. }
  exists ids. split_and!; [|apply W|apply W].
  apply NoDup_Permutation; [apply W|by apply order_NoDup|]. intros x. split; [apply W|apply Hall].
Qed.
End emission.

(** ** The arrows of a level *)

Definition pairs (st : edges) : list (string * string) := arrows_of (e_out st).
(** What is marked as seen was drawn. *)
Definition marks_ok (st : edges) : Prop :=
  ∀ k, k ∈ e_emitted st → ∃ a b, nul_free a = true ∧ k = edge_key a b ∧ (a, b) ∈ pairs st.

(** Arrows alone: no node is declared and no block opened. *)
Definition quiet (st : edges) : Prop := nodes_of (e_out st) = [] ∧ ∀ n, depth n (e_out st) = Some n.

(** [st'] has the arrows and the marks of [st] and those given. *)
Record grows (st : edges) (P : string * string → Prop) (I F : Z → Prop) (st' : edges) : Prop := {
  gr_ok : marks_ok st';
  gr_pairs : ∀ x, x ∈ pairs st' ↔ x ∈ pairs st ∨ P x;
  gr_in : ∀ i, i ∈ e_in st' ↔ i ∈ e_in st ∨ I i;
  gr_from : ∀ i, i ∈ e_from st' ↔ i ∈ e_from st ∨ F i;
  gr_quiet : quiet st → quiet st'
}.

Lemma grows_refl st : marks_ok st → grows st (λ _, False) (λ _, False) (λ _, False) st.
Proof. intros H. split; [done|tauto..|done]. Qed.
Lemma grows_trans st st1 st2 P I F P' I' F' : grows st P I F st1 → grows st1 P' I' F' st2 →
  grows st (λ x, P x ∨ P' x) (λ i, I i ∨ I' i) (λ i, F i ∨ F' i) st2.
Proof.
  intros [_ HP HI HF Hd] [Hok HP' HI' HF' Hd']. split; [done|intros x|intros i|intros i|by auto].
  - rewrite HP', HP. tauto.
  - rewrite HI', HI. tauto.
  - rewrite HF', HF. tauto.
Qed.
Lemma grows_iff st st' (P P' : string * string → Prop) (I I' F F' : Z → Prop) : grows st P I F st' →
  (∀ x, P x ↔ P' x) → (∀ i, I i ↔ I' i) → (∀ i, F i ↔ F' i) → grows st P' I' F' st'.
Proof.
  intros [Hok HP HI HF Hd] H1 H2 H3. split; [done|intros x; by rewrite HP, H1|intros i; by rewrite HI, H2|intros i; by rewrite HF, H3|done].
Qed.

Lemma emitEdge_grows src dst label st : marks_ok st → nul_free src = true →
  grows st (λ x, x = (src, dst) ∧ src ≠ dst) (λ _, False) (λ _, False) (emitEdge src dst label st).
Proof.
  intros Hok Hp. unfold emitEdge. case_bool_decide as Hne; [by apply (grows_iff _ _ _ _ _ _ _ _ (grows_refl st Hok)); [split|..]; naive_solver|].
  case_bool_decide as Hk.
  - split; [done|intros x|intros i; tauto|intros i; tauto|done]. split; [by left|]. intros [Hx|[-> _]]; [done|].
    destruct (Hok _ Hk) as (a & b & Ha & Heq & Hin). unfold edge_key in Heq. by destruct (separated src a dst b Hp Ha Heq) as [-> ->].
  - assert (pairs (mkEdges (e_out st ++ [Edge src label dst]) ({[edge_key src dst]} ∪ e_emitted st) (e_in st) (e_from st))
      = pairs st ++ [(src, dst)]) as Hpairs by (unfold pairs, arrows_of; simpl; by rewrite bind_app).
    split; [|intros x; rewrite Hpairs, elem_of_app, list_elem_of_singleton; naive_solver|simpl; tauto|simpl; tauto|].
    + intros k. simpl. rewrite elem_of_union, elem_of_singleton, Hpairs. intros [->|Hin].
      * exists src, dst. split_and!; [done..|]. apply elem_of_app. right. by left.
      * destruct (Hok _ Hin) as (a & b & Ha & Heq & Hin'). exists a, b. split_and!; [done..|]. apply elem_of_app. by left.
    + intros [Hno Hd]. split; [unfold nodes_of in *; simpl; by rewrite bind_app, Hno|]. intros n. simpl. by rewrite depth_app, Hd.
Qed.

Lemma emit_all_grows {A} (src dst : A → string) label l : ∀ st, marks_ok st → (∀ y, y ∈ l → nul_free (src y) = true) →
  grows st (λ x, ∃ y, y ∈ l ∧ x = (src y, dst y) ∧ src y ≠ dst y) (λ _, False) (λ _, False)
    (foldl (λ st y, emitEdge (src y) (dst y) label st) st l).
Proof.
  induction l as [|y l IH]; intros st Hok Hp.
  { apply (grows_iff _ _ _ _ _ _ _ _ (grows_refl st Hok)); [|done|done]. intros x. split; [done|]. by intros (y & ?%elem_of_nil & _). }
  cbn [foldl]. pose proof (emitEdge_grows (src y) (dst y) label st Hok ltac:(apply Hp; by left)) as H1.
  pose proof (IH _ (gr_ok _ _ _ _ _ H1) ltac:(intros z Hz; apply Hp; by right)) as H2.
  apply (grows_iff _ _ _ _ _ _ _ _ (grows_trans _ _ _ _ _ _ _ _ _ H1 H2)); [|tauto|tauto].
  intros x. setoid_rewrite elem_of_cons. split; [|naive_solver]. intros [[-> Hn]|(z & Hz & H)]; [exists y|exists z]; naive_solver.
Qed.

Section arrows.
Context (r : FlowRenderer) (prefix : string) (rows : list (FlowStep * option subBlock)).
Context (Hnd : NoDup (StepID ∘ fst <$> rows)) (Hnz : ∀ e, e ∈ rows → StepID e.1 ≠ 0).
Context (Hnode : ∀ e, e ∈ rows → nul_free (node_id prefix (StepID e.1)) = true).
Context (Hexit : ∀ e x, e ∈ rows → x ∈ exits_of prefix e → nul_free x = true).

Definition exit_nodes (id : Z) : list string := default [] (exits prefix rows !! id).
Definition both (a b : Z) : Prop := a ∈ order rows ∧ b ∈ order rows ∧ a ≠ b.
Definition drawn_between (a b : Z) (x : string * string) : Prop :=
  ∃ src, src ∈ exit_nodes a ∧ x = (src, node_id prefix b) ∧ src ≠ node_id prefix b.

Lemma addEdge_grows a b st : marks_ok st →
  grows st (λ x, both a b ∧ drawn_between a b x) (λ i, both a b ∧ i = b) (λ i, both a b ∧ i = a) (addEdge prefix rows a b st).
Proof using Hnd Hnz Hexit.
  intros Hok. unfold addEdge.
  assert (¬ both a b → grows st (λ x, both a b ∧ drawn_between a b x) (λ i, both a b ∧ i = b) (λ i, both a b ∧ i = a) st) as Hno
    by (intros Hn; apply (grows_iff _ _ _ _ _ _ _ _ (grows_refl st Hok)); intros ?; tauto).
  destruct (stepByID rows !! a) as [from|] eqn:Ha; [destruct (stepByID rows !! b) as [to|] eqn:Hb|].
  2, 3: apply Hno; intros (Hao & Hbo & _).
  2: apply (elem_of_order rows Hnz) in Hbo as (s & bl & Hin & <-); by rewrite (stepByID_lookup rows Hnd Hnz s bl) in Hb.
  2: apply (elem_of_order rows Hnz) in Hao as (s & bl & Hin & <-); by rewrite (stepByID_lookup rows Hnd Hnz s bl) in Ha.
  case_bool_decide as Hne; [apply Hno; intros (_ & _ & H); done|].
  assert (both a b) as Hbo.
  { split_and!; [destruct (decide (a ∈ order rows)) as [|Hn]|destruct (decide (b ∈ order rows)) as [|Hn]|done]; try done;
      apply (stepByID_none rows Hnd Hnz) in Hn; congruence. }
  assert (∀ y, y ∈ exit_nodes a → nul_free y = true) as Hpl.
  { unfold exit_nodes. destruct (proj1 (elem_of_order rows Hnz a) (proj1 Hbo)) as (s & bl & Hin & <-).
    pose proof (exits_lookup prefix rows Hnd Hnz (s, bl) Hin) as He. simpl in He. rewrite He. intros y. by apply Hexit. }
  destruct (emit_all_grows id (λ _, node_id prefix b) (edgeLabel from to) (exit_nodes a) st Hok Hpl) as [H1 H2 H3 H4 H5].
  split; [exact H1| | | |exact H5].
  - intros x. rewrite (H2 x). unfold drawn_between. naive_solver.
  - intros i. simpl. rewrite elem_of_union, elem_of_singleton, (H3 i). tauto.
  - intros i. simpl. rewrite elem_of_union, elem_of_singleton, (H4 i). tauto.
Qed.

(** The links of the steps in [l] that have both ends in the level. *)
Definition links (l : list Z) (a b : Z) : Prop :=
  both a b ∧ ((b ∈ l ∧ pred_of rows b = a ∧ a ≠ 0) ∨ (a ∈ l ∧ succ_of rows a = b ∧ b ≠ 0)).

Lemma maybe_grows (c : bool) a b st : marks_ok st →
  grows st (λ x, c = false ∧ both a b ∧ drawn_between a b x) (λ i, c = false ∧ both a b ∧ i = b) (λ i, c = false ∧ both a b ∧ i = a)
    (if c then st else addEdge prefix rows a b st).
Proof using Hnd Hnz Hexit.
  intros Hok. destruct c.
  - by apply (grows_iff _ _ _ _ _ _ _ _ (grows_refl st Hok)); intros ?; naive_solver.
  - by apply (grows_iff _ _ _ _ _ _ _ _ (addEdge_grows a b st Hok)); intros ?; naive_solver.
Qed.

Lemma links_cons id l a b : links (id :: l) a b ↔
  (pred_of rows id ≠ 0 ∧ both a b ∧ a = pred_of rows id ∧ b = id) ∨ (succ_of rows id ≠ 0 ∧ both a b ∧ a = id ∧ b = succ_of rows id) ∨ links l a b.
Proof using Type.
  unfold links. rewrite !elem_of_cons. split.
  - intros [Hb [[[->|Hl] [<- Hn]]|[[->|Hl] [<- Hn]]]]; [by left|right; right; tauto|right; left; tauto|right; right; tauto].
  - intros [(Hn & Hb & -> & ->)|[(Hn & Hb & -> & ->)|[Hb H]]]; (split; [done|]); tauto.
Qed.

Lemma row_edges_grows l : ∀ st, marks_ok st →
  grows st (λ x, ∃ a b, links l a b ∧ drawn_between a b x) (λ i, ∃ a, links l a i) (λ i, ∃ b, links l i b)
    (foldl (row_edges prefix rows) st l).
Proof using Hnd Hnz Hexit.
  induction l as [|id l IH]; intros st Hok.
  { apply (grows_iff _ _ _ _ _ _ _ _ (grows_refl st Hok)); intros x; (split; [done|]);
      [intros (a & b & [_ [[H _]|[H _]]] & _)|intros (a & [_ [[H _]|[H _]]])|intros (a & [_ [[H _]|[H _]]])]; by apply elem_of_nil in H. }
  cbn [foldl]. unfold row_edges at 2.
  pose proof (maybe_grows (bool_decide (pred_of rows id = 0)) (pred_of rows id) id st Hok) as H1.
  pose proof (maybe_grows (bool_decide (succ_of rows id = 0)) id (succ_of rows id) _ (gr_ok _ _ _ _ _ H1)) as H2.
  pose proof (IH _ (gr_ok _ _ _ _ _ H2)) as H3.
  apply (grows_iff _ _ _ _ _ _ _ _ (grows_trans _ _ _ _ _ _ _ _ _ (grows_trans _ _ _ _ _ _ _ _ _ H1 H2) H3));
    intros x; rewrite !bool_decide_eq_false; setoid_rewrite links_cons.
  - split; [|intros (a & b & [(Hn & Hb & -> & ->)|[(Hn & Hb & -> & ->)|Hl]] & Hd); [left; left; tauto|left; right; tauto|right; by exists a, b]].
    intros [[(Hn & Hb & Hd)|(Hn & Hb & Hd)]|(a & b & Hl & Hd)]; [exists (pred_of rows id), id|exists id, (succ_of rows id)|exists a, b]; tauto.
  - split; [|intros (a & [(Hn & Hb & -> & ->)|[(Hn & Hb & -> & ->)|Hl]]); [left; left; tauto|left; right; tauto|right; by exists a]].
    intros [[(Hn & Hb & ->)|(Hn & Hb & ->)]|(a & Hl)]; [exists (pred_of rows id)|exists id|exists a]; tauto.
  - split; [|intros (b & [(Hn & Hb & -> & ->)|[(Hn & Hb & -> & ->)|Hl]]); [left; left; tauto|left; right; tauto|right; by exists b]].
    intros [[(Hn & Hb & ->)|(Hn & Hb & ->)]|(b & Hl)]; [exists id|exists (succ_of rows id)|exists b]; tauto.
Qed.

Definition call_arrow (l : list Z) (x : string * string) : Prop :=
  ∃ id b h, id ∈ l ∧ subBlocks rows !! id = Some b ∧ h ∈ innerHeads b ∧ x = (node_id prefix id, h) ∧ node_id prefix id ≠ h.

Lemma call_edges_grows l : ∀ st, marks_ok st → (∀ id, id ∈ l → id ∈ order rows) →
  grows st (call_arrow l) (λ _, False) (λ _, False) (foldl (call_edges prefix rows) st l).
Proof using Hnz Hnode.
  induction l as [|id l IH]; intros st Hok Hl.
  { apply (grows_iff _ _ _ _ _ _ _ _ (grows_refl st Hok)); [|done|done]. intros x. split; [done|]. by intros (id & b & h & ?%elem_of_nil & _). }
  cbn [foldl].
  assert (grows st (call_arrow [id]) (λ _, False) (λ _, False) (call_edges prefix rows st id)) as H1.
  { unfold call_edges. destruct (subBlocks rows !! id) as [b|] eqn:Hb.
    - destruct (proj1 (elem_of_order rows Hnz id) (Hl id ltac:(by left))) as (s & bl & Hin & Heq).
      pose proof (Hnode _ Hin) as Hpl. simpl in Hpl. rewrite Heq in Hpl.
      apply (grows_iff _ _ _ _ _ _ _ _ (emit_all_grows (λ _, node_id prefix id) (λ h, h) (callEdgeLabel b) (innerHeads b) st Hok (λ _ _, Hpl)));
        [|done|done]. intros x. unfold call_arrow. setoid_rewrite list_elem_of_singleton. split; naive_solver.
    - apply (grows_iff _ _ _ _ _ _ _ _ (grows_refl st Hok)); [|done|done]. intros x. unfold call_arrow.
      setoid_rewrite list_elem_of_singleton. split; naive_solver. }
  pose proof (IH _ (gr_ok _ _ _ _ _ H1) ltac:(intros x Hx; apply Hl; by right)) as H2.
  apply (grows_iff _ _ _ _ _ _ _ _ (grows_trans _ _ _ _ _ _ _ _ _ H1 H2)); [|tauto|tauto].
  intros x. unfold call_arrow. setoid_rewrite elem_of_cons. setoid_rewrite elem_of_nil. split; naive_solver.
Qed.

Definition linked : Z → Z → Prop := links (order rows).

(** The arrows of a level: those between linked steps and those into the blocks. *)
Lemma all_edges_spec :
  grows (mkEdges [] ∅ ∅ ∅) (λ x, (∃ a b, linked a b ∧ drawn_between a b x) ∨ call_arrow (order rows) x)
    (λ i, ∃ a, linked a i) (λ i, ∃ b, linked i b) (all_edges prefix rows).
Proof using Hnd Hnz Hnode Hexit.
  pose proof (row_edges_grows (order rows) (mkEdges [] ∅ ∅ ∅) ltac:(intros k Hk; by apply not_elem_of_empty in Hk)) as H1.
  pose proof (call_edges_grows (order rows) _ (gr_ok _ _ _ _ _ H1) ltac:(done)) as H2.
  apply (grows_iff _ _ _ _ _ _ _ _ (grows_trans _ _ _ _ _ _ _ _ _ H1 H2)); intros x; unfold linked; tauto.
Qed.
End arrows.

(** ** What is drawn of a step, and how a level hangs together *)

(** The nodes of a step's subgraph, and all that is drawn of a step. *)
Fixpoint drawn_names (prefix : string) (s : FlowStep) {struct s} : list string :=
  node_id prefix (StepID s) ::
  (if Subgraph s then mjoin (map (drawn_names (node_id prefix (StepID s) +:+ "_sub")) (SubHistory s)) else []).
Definition inner (prefix : string) (s : FlowStep) : list string :=
  if Subgraph s then mjoin (map (drawn_names (node_id prefix (StepID s) +:+ "_sub")) (SubHistory s)) else [].
Lemma drawn_inner prefix s : drawn_names prefix s = node_id prefix (StepID s) :: inner prefix s.
Proof. by destruct s. Qed.

Definition arrow (L : list line) (a b : string) : Prop := (a, b) ∈ arrows_of L.
(** There is a path of arrows. *)
Definition reach (L : list line) : string → string → Prop := rtc (arrow L).
Lemma reach_sub L L' a b : (∀ x y, arrow L x y → arrow L' x y) → reach L a b → reach L' a b.
Proof. intros H. apply rtc_subrel. intros x y. apply H. Qed.

Record well_drawn (names : list string) (L : list line) (hs ts : list string) : Prop := {
  wd_nodes : nodes_of L ≡ₚ names;
  wd_heads : ∀ h, h ∈ hs → h ∈ names;
  wd_tails : ∀ t, t ∈ ts → t ∈ names;
  wd_arrows : ∀ a b, arrow L a b → a ∈ names ∧ b ∈ names;
  wd_from : ∀ x, x ∈ names → ∃ h, h ∈ hs ∧ reach L h x;
  wd_to : ∀ x, x ∈ names → ∃ t, t ∈ ts ∧ reach L x t;
  wd_depth : ∀ n, depth n L = Some n
}.

Definition in_range (id : Z) : Prop := 0 < id < 2 ^ 63.

(** A name of a step begins with the step's number. *)
Definition names_under (prefix : string) (id : Z) (x : string) : Prop := ∃ t, stops t ∧ x = node_id prefix id +:+ t.
Lemma names_under_inj prefix i j x : in_range i → in_range j → names_under prefix i x → names_under prefix j x → i = j.
Proof.
  unfold in_range. intros Hi Hj (t & Ht & ->) (t' & Ht' & Heq). unfold node_id in Heq. rewrite !sapp_assoc in Heq.
  apply sapp_inj_l, (sapp_inj_l "s") in Heq. by destruct (Itoa_munch i j t t') as [-> _]; [lia|lia|..].
Qed.
Lemma names_under_sub prefix id x j : names_under (node_id prefix id +:+ "_sub") j x → ∃ t, x = node_id prefix id +:+ "_" +:+ t.
Proof. intros (t & _ & ->). exists ("subs" +:+ Itoa j +:+ t). unfold node_id. by rewrite !sapp_assoc. Qed.

(** Steps by their subgraphs. *)
Section deep.
Context (P : FlowStep → Prop) (H : ∀ s, Forall P (SubHistory s) → P s).
Fixpoint FlowStep_nested (s : FlowStep) : P s :=
  match s return P s with
  | mkFlowStep key id task p sc sg nm hist st c u v =>
      H (mkFlowStep key id task p sc sg nm hist st c u v)
        ((fix go l : Forall P l := match l with [] => Forall_nil_2 _ | x :: l => Forall_cons_2 _ _ _ (FlowStep_nested x) (go l) end) hist)
  end.
End deep.
Lemma FlowStep_deep (P : FlowStep → Prop) : (∀ s, (∀ x, x ∈ SubHistory s → P x) → P s) → ∀ s, P s.
Proof. intros H. apply FlowStep_nested. intros s Hs. apply H. by apply Forall_forall. Qed.

Lemma elem_of_inner prefix s x : x ∈ inner prefix s ↔
  Subgraph s = true ∧ ∃ y, y ∈ SubHistory s ∧ x ∈ drawn_names (node_id prefix (StepID s) +:+ "_sub") y.
Proof.
  unfold inner. destruct (Subgraph s); [|rewrite elem_of_nil; naive_solver]. rewrite list_elem_of_join. split.
  - intros (l & Hx & (y & -> & Hy)%list_elem_of_fmap). naive_solver.
  - intros (_ & y & Hy & Hx). exists (drawn_names (node_id prefix (StepID s) +:+ "_sub") y). split; [done|]. by apply list_elem_of_fmap_2.
Qed.

Lemma drawn_under s : ∀ prefix x, x ∈ drawn_names prefix s → names_under prefix (StepID s) x.
Proof.
  induction s as [s IH] using FlowStep_deep. intros prefix x. rewrite drawn_inner. intros [->|Hx]%elem_of_cons.
  { exists EmptyString. split; [done|by rewrite sapp_nil_r]. }
  apply elem_of_inner in Hx as (_ & y & Hy & Hx). apply (IH y Hy), names_under_sub in Hx as [t ->]. by exists ("_" +:+ t).
Qed.
Lemma inner_fresh prefix s : node_id prefix (StepID s) ∉ inner prefix s.
Proof.
  intros (_ & y & _ & Hx)%elem_of_inner. apply drawn_under, names_under_sub in Hx as [t Ht].
  rewrite <- (sapp_nil_r (node_id prefix (StepID s))) in Ht at 1. by apply sapp_inj_l in Ht.
Qed.

(** ** Histories a database can hold *)

(** At every depth: distinct positive ids, and links that go forward. *)
Definition tidy_level (l : list FlowStep) : Prop :=
  NoDup (StepID <$> l)
  ∧ ∀ s, s ∈ l → in_range (StepID s) ∧ PredecessorID s < StepID s ∧ (SuccessorID s = 0 ∨ StepID s < SuccessorID s).
Inductive tidy (l : list FlowStep) : Prop :=
| tidy_intro : tidy_level l → (∀ s, s ∈ l → tidy (SubHistory s)) → tidy l.

Lemma join_NoDup {A B} (f : A → list B) (key : A → Z) l : NoDup (key <$> l) → (∀ a, a ∈ l → NoDup (f a)) →
  (∀ a b x, a ∈ l → b ∈ l → x ∈ f a → x ∈ f b → key a = key b) → NoDup (mjoin (map f l)).
Proof.
  induction l as [|a l IH]; intros Hk Hf Hd; [constructor|]. rewrite fmap_cons in Hk. apply NoDup_cons in Hk as [Hn Hk]. cbn [map].
  rewrite mjoin_cons. apply NoDup_app. split_and!; [apply Hf; by left| |apply IH; [done|intros b Hb; apply Hf; by right|intros b c x Hb Hc; apply Hd; by right]].
  intros x Hx (l' & Hx' & (b & -> & Hb)%list_elem_of_fmap)%list_elem_of_join. apply Hn.
  rewrite (Hd a b x); [by apply list_elem_of_fmap_2|by left|by right|done|done].
Qed.

Lemma drawn_NoDup l : tidy l → ∀ prefix, NoDup (mjoin (map (drawn_names prefix) l)).
Proof.
  induction 1 as [l [Hnd Hlev] _ IH]. intros prefix. apply (join_NoDup _ StepID); [done| |].
  - intros s Hs. rewrite drawn_inner. apply NoDup_cons. split; [apply inner_fresh|]. unfold inner.
    destruct (Subgraph s); [by apply IH|constructor].
  - intros a b x Ha Hb Hxa%drawn_under Hxb%drawn_under. apply (names_under_inj prefix _ _ x); [by apply Hlev|by apply Hlev|done|done].
Qed.

Lemma drawn_plain l : tidy l → ∀ prefix s x, nul_free prefix = true → s ∈ l → x ∈ drawn_names prefix s → nul_free x = true.
Proof.
  induction 1 as [l [_ Hlev] _ IH]. intros prefix s x Hp Hs. rewrite drawn_inner.
  assert (nul_free (node_id prefix (StepID s)) = true) as Hn.
  { unfold node_id. rewrite !plain_app, Hp. destruct (Hlev s Hs) as [Hr _]. unfold in_range in Hr. by rewrite Itoa_plain by lia. }
  intros [->|(_ & y & Hy & Hx)%elem_of_inner]%elem_of_cons; [done|]. apply (IH s Hs (node_id prefix (StepID s) +:+ "_sub") y x); [|done|done]. by rewrite plain_app, Hn.
Qed.

(** ** One level *)


Section reaching.
Context (r : FlowRenderer) (prefix : string) (rows : list (FlowStep * option subBlock)).
Context (Hnd : NoDup (StepID ∘ fst <$> rows)).
Context (Hrange : ∀ e, e ∈ rows → in_range (StepID e.1) ∧ PredecessorID e.1 < StepID e.1
  ∧ (SuccessorID e.1 = 0 ∨ StepID e.1 < SuccessorID e.1)).
Context (Hprefix : nul_free prefix = true) (Hplain : ∀ e x, e ∈ rows → x ∈ drawn_names prefix e.1 → nul_free x = true).
(** The blocks are drawn well, and the steps without one have no subgraph to draw. *)
Context (Hblock : ∀ e, e ∈ rows → match e.2 with
  | Some b => well_drawn (inner prefix e.1) (body b) (innerHeads b) (innerTails b) ∧ inner prefix e.1 ≠ []
  | None => inner prefix e.1 = [] end).

Let L := level_lines r prefix rows.
Let Hnz : ∀ e, e ∈ rows → StepID e.1 ≠ 0.
Proof. intros e He. destruct (Hrange e He) as [H _]. unfold in_range in H. lia. Qed.

Lemma node_plain e : e ∈ rows → nul_free (node_id prefix (StepID e.1)) = true.
Proof using Hplain. intros He. apply (Hplain e); [done|]. rewrite drawn_inner. by left. Qed.

Lemma exits_drawn e x : e ∈ rows → x ∈ exits_of prefix e → x ∈ drawn_names prefix e.1.
Proof using Hblock.
  intros He. specialize (Hblock e He). unfold exits_of. rewrite drawn_inner. destruct e as [s [b|]]; simpl in *.
  - destruct Hblock as [W _]. case_bool_decide; [intros ->%list_elem_of_singleton; by left|]. intros Hx. right. by apply (wd_tails _ _ _ _ W).
  - intros ->%list_elem_of_singleton. by left.
Qed.
Lemma exits_plain e x : e ∈ rows → x ∈ exits_of prefix e → nul_free x = true.
Proof using Hblock Hplain. intros He Hx. by apply (Hplain e), exits_drawn. Qed.

Lemma row_of id : id ∈ order rows → ∃ e, e ∈ rows ∧ StepID e.1 = id.
Proof using Hrange. intros (s & b & H & <-)%(elem_of_order rows Hnz). by exists (s, b). Qed.
Lemma order_row e : e ∈ rows → StepID e.1 ∈ order rows.
Proof using Hrange. intros He. apply (elem_of_order rows Hnz). by exists e.1, e.2; destruct e. Qed.

Lemma emit_row_lines {A} (f : line → list A) e : e ∈ rows → frame_free f → (∀ i p k, f (Click i p k) = []) →
  ∃ label class, emitStep r prefix rows (StepID e.1) ≫= f
    = f (StepNode (node_id prefix (StepID e.1)) label class) ++ match e.2 with Some b => body b ≫= f | None => [] end.
Proof using Hnd Hrange.
  destruct e as [s b]. intros He Hf Hc. unfold emitStep.
  pose proof (stepByID_lookup rows Hnd Hnz s b He) as Hs. pose proof (subBlocks_lookup rows Hnd Hnz s b He) as Hb. cbn [fst] in *.
  rewrite Hs, Hb. eexists _, _. cbn [snd]. rewrite !bind_app, bind_one. f_equal.
  unfold emitClick. transitivity (match b with Some b => body b ≫= f | None => [] end); [|done].
  assert (∀ X : list A, ((if bool_decide (linkParam r = "" ∨ StepKey s = "") then []
    else [Click (node_id prefix (StepID s)) (linkParam r) (StepKey s)]) ≫= f) ++ X = X) as Hcl
    by (intros X; case_bool_decide; [done|]; rewrite bind_one, Hc; done).
  rewrite Hcl. destruct b as [b|]; [|done]. destruct (Hf (blockID b) (label b) (clusterStyle r)) as (H1 & H2 & H3).
  rewrite !bind_app, bind_one, H1, bind_cons, bind_one, H2, H3. by rewrite app_nil_r.
Qed.

Lemma arrows_level x : x ∈ arrows_of L ↔
  (∃ e b, e ∈ rows ∧ e.2 = Some b ∧ x ∈ arrows_of (body b)) ∨ x ∈ pairs (all_edges prefix rows).
Proof using Hnd Hrange.
  unfold L, level_lines, arrows_of. rewrite bind_app, elem_of_app. apply or_iff_compat_r.
  destruct (node_lines_spec r prefix rows Hnd Hnz) as (ids & Hp & Hl & _). rewrite (Hl _ arrows) by done.
  rewrite list_elem_of_bind. split.
  - intros (id & Hx & Hid). rewrite Hp in Hid. destruct (row_of id Hid) as (e & He & <-).
    destruct (emit_row_lines arrows e He) as (lb & cl & Heq); [done|done|]. rewrite Heq in Hx. simpl in Hx.
    destruct e as [s [b|]]; [|by apply elem_of_nil in Hx]. by exists (s, Some b), b.
  - intros (e & b & He & Hb & Hx). exists (StepID e.1). destruct (emit_row_lines arrows e He) as (lb & cl & Heq); [done|done|].
    rewrite Heq, Hb. split; [done|]. rewrite Hp. by apply order_row.
Qed.

Lemma spec : grows (mkEdges [] ∅ ∅ ∅) (λ x, (∃ a b, linked rows a b ∧ drawn_between prefix rows a b x) ∨ call_arrow prefix rows (order rows) x)
  (λ i, ∃ a, linked rows a i) (λ i, ∃ b, linked rows i b) (all_edges prefix rows).
Proof using Hnd Hrange Hblock Hplain. apply all_edges_spec; [done|exact Hnz|exact node_plain|exact exits_plain]. Qed.

Lemma nodes_level : nodes_of L ≡ₚ mjoin (map (drawn_names prefix ∘ fst) rows).
Proof using Hnd Hrange Hblock Hplain.
  unfold L, level_lines, nodes_of. rewrite bind_app.
  destruct (gr_quiet _ _ _ _ _ spec) as [Hq _]; [done|]. unfold nodes_of in Hq. rewrite Hq, app_nil_r.
  destruct (node_lines_spec r prefix rows Hnd Hnz) as (ids & Hp & Hl & _). rewrite (Hl _ declares) by done. rewrite Hp.
  rewrite (order_all rows Hnz).
  assert (∀ l, (∀ e, e ∈ l → e ∈ rows) → (StepID ∘ fst <$> l) ≫= (λ id, emitStep r prefix rows id ≫= declares) ≡ₚ mjoin (map (drawn_names prefix ∘ fst) l)) as H;
    [|by apply H].
  induction l as [|e l IH]; intros Hsub; [done|]. rewrite fmap_cons, bind_cons. cbn [map]. rewrite mjoin_cons, IH by (intros x Hx; apply Hsub; by right).
  apply Permutation_app_tail. assert (e ∈ rows) as He by (apply Hsub; by left).
  destruct (emit_row_lines declares e He) as (lb & cl & Heq); [done|done|]. simpl in *. rewrite Heq, drawn_inner. simpl. apply perm_skip.
  specialize (Hblock e He). destruct (e.2) as [b|]; [apply Hblock|by rewrite Hblock].
Qed.

Lemma body_arrow e b x y : e ∈ rows → e.2 = Some b → arrow (body b) x y → arrow L x y.
Proof using Hnd Hrange. intros He Hb Hx. apply arrows_level. left. by exists e, b. Qed.

Lemma call_into e b h : e ∈ rows → e.2 = Some b → h ∈ innerHeads b → arrow L (node_id prefix (StepID e.1)) h.
Proof using Hnd Hrange Hblock Hplain.
  intros He Hb Hh. pose proof (Hblock e He) as Hw. rewrite Hb in Hw. destruct Hw as [W _].
  apply arrows_level. right. apply (gr_pairs _ _ _ _ _ spec). right. right.
  exists (StepID e.1), b, h. split_and!; [by apply order_row| |done|done|].
  - destruct e as [s b']. simpl in *. subst b'. by apply (subBlocks_lookup rows Hnd Hnz).
  - intros Heq. apply (inner_fresh prefix e.1). rewrite Heq. by apply (wd_heads _ _ _ _ W).
Qed.

(** Inside a step: its node leads to everything drawn of it, and everything drawn of it to a way out. *)
Lemma reach_inside e x : e ∈ rows → x ∈ drawn_names prefix e.1 → reach L (node_id prefix (StepID e.1)) x.
Proof using Hnd Hrange Hblock Hplain.
  intros He. rewrite drawn_inner. intros [->|Hx]%elem_of_cons; [done|]. pose proof (Hblock e He) as Hw.
  destruct (e.2) as [b|] eqn:Hb; [|by rewrite Hw in Hx; apply elem_of_nil in Hx]. destruct Hw as [W _].
  destruct (wd_from _ _ _ _ W x Hx) as (h & Hh & Hr). eapply rtc_l; [by apply (call_into e b h)|].
  eapply reach_sub; [|exact Hr]. intros u v. by apply (body_arrow e b).
Qed.

Lemma reach_exit e x : e ∈ rows → x ∈ drawn_names prefix e.1 → ∃ t, t ∈ exits_of prefix e ∧ reach L x t.
Proof using Hnd Hrange Hblock Hplain.
  intros He Hx. pose proof (Hblock e He) as Hw. unfold exits_of. destruct (e.2) as [b|] eqn:Hb.
  - destruct Hw as [W Hne]. assert (∀ y, y ∈ inner prefix e.1 → ∃ t, t ∈ innerTails b ∧ reach L y t) as Hin.
    { intros y Hy. destruct (wd_to _ _ _ _ W y Hy) as (t & Ht & Hr). exists t. split; [done|].
      eapply reach_sub; [|exact Hr]. intros u v. by apply (body_arrow e b). }
    assert (∃ y, y ∈ inner prefix e.1 ∧ reach L x y) as (y & Hy & Hxy).
    { rewrite drawn_inner in Hx. apply elem_of_cons in Hx as [->|Hx]; [|by exists x].
      destruct (inner prefix e.1) as [|y l] eqn:Hl; [done|]. exists y. split; [by left|]. apply reach_inside; [done|].
      rewrite drawn_inner, Hl. right. by left. }
    destruct (Hin y Hy) as (t & Ht & Hr). case_bool_decide as Hnil; [rewrite Hnil in Ht; by apply elem_of_nil in Ht|].
    exists t. split; [done|]. by trans y.
  - exists (node_id prefix (StepID e.1)). split; [by apply list_elem_of_singleton|]. rewrite drawn_inner, Hw in Hx.
    by apply list_elem_of_singleton in Hx as ->.
Qed.

(** From step to step: links go forward, and every way out of the first leads to the second. *)
Lemma linked_forward a b : linked rows a b → a < b.
Proof using Hnd Hrange.
  intros [(Ha & Hb & Hne) [(_ & Hp & Hn)|(_ & Hs & Hn)]].
  - destruct (row_of b Hb) as ([s bl] & He & <-). simpl in *. rewrite (pred_of_row rows Hnd Hnz s bl He) in Hp. subst a.
    by apply (Hrange (s, bl)).
  - destruct (row_of a Ha) as ([s bl] & He & <-). simpl in *. rewrite (succ_of_row rows Hnd Hnz s bl He) in Hs. subst b.
    destruct (Hrange (s, bl) He) as (_ & _ & [H|H]); simpl in H; [done|lia].
Qed.

Lemma same_row e e' x : e ∈ rows → e' ∈ rows → x ∈ drawn_names prefix e.1 → x ∈ drawn_names prefix e'.1 → StepID e.1 = StepID e'.1.
Proof using Hrange.
  intros He He' Hx%drawn_under Hx'%drawn_under. apply (names_under_inj prefix _ _ x); [by apply Hrange|by apply Hrange|done|done].
Qed.

Lemma linked_arrow e e' t : e ∈ rows → e' ∈ rows → linked rows (StepID e.1) (StepID e'.1) → t ∈ exits_of prefix e →
  arrow L t (node_id prefix (StepID e'.1)).
Proof using Hnd Hrange Hblock Hplain.
  intros He He' Hl Ht. apply arrows_level. right. apply (gr_pairs _ _ _ _ _ spec). right. left.
  exists (StepID e.1), (StepID e'.1). split; [done|]. exists t. split_and!; [|done|].
  - unfold exit_nodes. by rewrite (exits_lookup prefix rows Hnd Hnz e He).
  - intros ->. pose proof (linked_forward _ _ Hl) as Hlt.
    assert (StepID e.1 = StepID e'.1) as Heq; [|lia]. apply (same_row e e' (node_id prefix (StepID e'.1)) He He'); [by apply exits_drawn|].
    rewrite drawn_inner. by left.
Qed.

Lemma heads_spec h : h ∈ level_heads prefix rows ↔ ∃ e, e ∈ rows ∧ h = node_id prefix (StepID e.1) ∧ ¬ ∃ a, linked rows a (StepID e.1).
Proof using Hnd Hrange Hblock Hplain.
  unfold level_heads. rewrite list_elem_of_join. setoid_rewrite list_elem_of_fmap. split.
  - intros (l & Hh & id & -> & Hid). destruct (row_of id Hid) as (e & He & <-). case_bool_decide as Hin; [by apply elem_of_nil in Hh|].
    apply list_elem_of_singleton in Hh as ->. exists e. split_and!; [done|done|]. intros Hl. apply Hin, (gr_in _ _ _ _ _ spec). by right.
  - intros (e & He & -> & Hn). eexists. split; [|exists (StepID e.1); split; [done|by apply order_row]].
    rewrite bool_decide_eq_false_2; [by apply list_elem_of_singleton|]. intros [H%elem_of_empty|H]%(gr_in _ _ _ _ _ spec); done.
Qed.
Lemma tails_spec t : t ∈ level_tails prefix rows ↔ ∃ e, e ∈ rows ∧ t ∈ exits_of prefix e ∧ ¬ ∃ b, linked rows (StepID e.1) b.
Proof using Hnd Hrange Hblock Hplain.
  unfold level_tails. rewrite list_elem_of_join. setoid_rewrite list_elem_of_fmap. split.
  - intros (l & Ht & id & -> & Hid). destruct (row_of id Hid) as (e & He & <-). case_bool_decide as Hin; [by apply elem_of_nil in Ht|].
    rewrite (exits_lookup prefix rows Hnd Hnz e He) in Ht. exists e. split_and!; [done|done|]. intros Hl. apply Hin, (gr_from _ _ _ _ _ spec). by right.
  - intros (e & He & Ht & Hn). eexists. split; [|exists (StepID e.1); split; [done|by apply order_row]].
    rewrite bool_decide_eq_false_2; [by rewrite (exits_lookup prefix rows Hnd Hnz e He)|].
    intros [H%elem_of_empty|H]%(gr_from _ _ _ _ _ spec); done.
Qed.

Lemma reach_from_heads : ∀ e, e ∈ rows → ∃ h, h ∈ level_heads prefix rows ∧ reach L h (node_id prefix (StepID e.1)).
Proof using Hnd Hrange Hblock Hplain.
  intros e. remember (Z.to_nat (StepID e.1)) as n eqn:Hn. revert e Hn. induction (lt_wf n) as [n _ IH]. intros e -> He.
  destruct (decide (StepID e.1 ∈ e_in (all_edges prefix rows))) as [Hin|Hin].
  - apply (gr_in _ _ _ _ _ spec) in Hin as [Hin%elem_of_empty|[a Ha]]; [done|]. destruct (row_of a (proj1 (proj1 Ha))) as (p & Hp & <-).
    pose proof (linked_forward _ _ Ha) as Hlt. destruct (Hrange p Hp) as [Hpr _], (Hrange e He) as [Her _]. unfold in_range in *.
    destruct (IH (Z.to_nat (StepID p.1)) ltac:(lia) p eq_refl Hp) as (h & Hh & Hr).
    destruct (reach_exit p (node_id prefix (StepID p.1)) Hp) as (t & Ht & Hrt); [rewrite drawn_inner; by left|].
    exists h. split; [done|]. eapply rtc_r; [trans (node_id prefix (StepID p.1)); [exact Hr|exact Hrt]|]. by apply (linked_arrow p e).
  - exists (node_id prefix (StepID e.1)). split; [|done]. apply heads_spec. exists e. split_and!; [done|done|].
    intros Hl. apply Hin, (gr_in _ _ _ _ _ spec). by right.
Qed.

Lemma reach_to_tails : ∀ e x, e ∈ rows → x ∈ drawn_names prefix e.1 → ∃ t, t ∈ level_tails prefix rows ∧ reach L x t.
Proof using Hnd Hrange Hblock Hplain.
  intros e. remember (Z.to_nat (2 ^ 63 - StepID e.1)) as n eqn:Hn. revert e Hn. induction (lt_wf n) as [n _ IH]. intros e -> x He Hx.
  destruct (reach_exit e x He Hx) as (t & Ht & Hrt).
  destruct (decide (StepID e.1 ∈ e_from (all_edges prefix rows))) as [Hin|Hin].
  - apply (gr_from _ _ _ _ _ spec) in Hin as [Hin%elem_of_empty|[b Hb]]; [done|]. destruct (row_of b (proj1 (proj2 (proj1 Hb)))) as (p & Hp & <-).
    pose proof (linked_forward _ _ Hb) as Hlt. destruct (Hrange p Hp) as [Hpr _], (Hrange e He) as [Her _]. unfold in_range in *.
    destruct (IH (Z.to_nat (2 ^ 63 - StepID p.1)) ltac:(lia) p eq_refl (node_id prefix (StepID p.1)) Hp) as (t' & Ht' & Hr);
      [rewrite drawn_inner; by left|].
    exists t'. split; [done|]. trans t; [exact Hrt|]. eapply rtc_l; [|exact Hr]. by apply (linked_arrow e p).
  - exists t. split; [|done]. apply tails_spec. exists e. split_and!; [done|done|]. intros Hl. apply Hin, (gr_from _ _ _ _ _ spec). by right.
Qed.

Lemma elem_of_names x : x ∈ mjoin (map (drawn_names prefix ∘ fst) rows) ↔ ∃ e, e ∈ rows ∧ x ∈ drawn_names prefix e.1.
Proof using Type.
  rewrite list_elem_of_join. split.
  - intros (l & Hx & (e & -> & He)%list_elem_of_fmap). by exists e.
  - intros (e & He & Hx). exists (drawn_names prefix e.1). split; [done|]. by apply (list_elem_of_fmap_2 (drawn_names prefix ∘ fst)).
Qed.

Lemma level_arrows a b : arrow L a b → (∃ e, e ∈ rows ∧ a ∈ drawn_names prefix e.1) ∧ ∃ e, e ∈ rows ∧ b ∈ drawn_names prefix e.1.
Proof using Hnd Hrange Hblock Hplain.
  assert (∀ e x, e ∈ rows → x ∈ inner prefix e.1 → ∃ e, e ∈ rows ∧ x ∈ drawn_names prefix e.1) as Hinner
    by (intros e x He Hx; exists e; split; [done|]; rewrite drawn_inner; by right).
  assert (∀ e, e ∈ rows → ∃ e', e' ∈ rows ∧ node_id prefix (StepID e.1) ∈ drawn_names prefix e'.1) as Hnode
    by (intros e He; exists e; split; [done|]; rewrite drawn_inner; by left).
  intros [(e & bl & He & Hb & Hx)|Hx]%arrows_level.
  - pose proof (Hblock e He) as Hw. rewrite Hb in Hw. destruct Hw as [W _]. apply (wd_arrows _ _ _ _ W) in Hx as [Ha Hb'].
    split; by eapply Hinner.
  - apply (gr_pairs _ _ _ _ _ spec) in Hx as [Hx%elem_of_nil|[(i & j & Hl & src & Hs & [= -> ->] & _)|(i & bl & h & Hi & Hb & Hh & [= -> ->] & _)]]; [done| |].
    + destruct (row_of i (proj1 (proj1 Hl))) as (e & He & <-), (row_of j (proj1 (proj2 (proj1 Hl)))) as (e' & He' & <-).
      split; [|by apply Hnode]. exists e. split; [done|]. apply exits_drawn; [done|].
      unfold exit_nodes in Hs. by rewrite (exits_lookup prefix rows Hnd Hnz e He) in Hs.
    + destruct (row_of i Hi) as ([s bl'] & He & <-). split; [by apply (Hnode (s, bl'))|]. simpl in Hb.
      rewrite (subBlocks_lookup rows Hnd Hnz s bl' He) in Hb. subst bl'. pose proof (Hblock _ He) as [W _].
      apply (Hinner (s, Some bl)); [done|]. by apply (wd_heads _ _ _ _ W).
Qed.

Lemma level_depth n : depth n L = Some n.
Proof using Hnd Hrange Hblock Hplain.
  unfold L, level_lines. destruct (gr_quiet _ _ _ _ _ spec) as [_ Hq]; [done|].
  destruct (node_lines_spec r prefix rows Hnd Hnz) as (ids & _ & _ & Hd). rewrite depth_app, Hd; [apply Hq|]. clear n.
  intros id n. unfold emitStep. destruct (stepByID rows !! id) as [s|] eqn:Hs; [|done].
  assert (id ∈ order rows) as Hid by (destruct (decide (id ∈ order rows)) as [|Hn]; [done|]; apply (stepByID_none rows Hnd Hnz) in Hn; congruence).
  destruct (row_of id Hid) as ([s' bl] & He & <-). simpl in *. rewrite (subBlocks_lookup rows Hnd Hnz s' bl He).
  unfold emitClick. case_bool_decide; simpl; (destruct bl as [b|]; [|done]); pose proof (Hblock _ He) as [W _]; simpl;
    by rewrite depth_app, (wd_depth _ _ _ _ W).
Qed.

(** A level is drawn well when its blocks are. *)
Lemma level_well_drawn : well_drawn (mjoin (map (drawn_names prefix ∘ fst) rows)) L (level_heads prefix rows) (level_tails prefix rows).
Proof using Hnd Hrange Hblock Hplain.
  split.
  - apply nodes_level.
  - intros h (e & He & -> & _)%heads_spec. apply elem_of_names. exists e. split; [done|]. rewrite drawn_inner. by left.
  - intros t (e & He & Ht & _)%tails_spec. apply elem_of_names. exists e. split; [done|]. by apply exits_drawn.
  - intros a b H%level_arrows. by rewrite !elem_of_names.
  - intros x (e & He & Hx)%elem_of_names. destruct (reach_from_heads e He) as (h & Hh & Hr). exists h. split; [done|].
    trans (node_id prefix (StepID e.1)); [exact Hr|]. by apply reach_inside.
  - intros x (e & He & Hx)%elem_of_names. by apply (reach_to_tails e).
  - apply level_depth.
Qed.
End reaching.

(** ** The whole history *)

Lemma level_of_history r l : tidy l → ∀ prefix, nul_free prefix = true →
  well_drawn (mjoin (map (drawn_names prefix) l)) (level_lines r prefix (rows_of r prefix l)) (level_heads prefix (rows_of r prefix l)) (level_tails prefix (rows_of r prefix l)).
Proof.
  induction 1 as [l Hlev Hsub IH]. intros prefix Hp. destruct Hlev as [Hnd Hlev].
  assert (∀ e, e ∈ rows_of r prefix l → e.1 ∈ l ∧ e.2 = sub_block r prefix e.1) as Hrow by (by intros e (s & -> & Hs)%list_elem_of_fmap).
  assert (map (drawn_names prefix) l = map (drawn_names prefix ∘ fst) (rows_of r prefix l)) as -> by (unfold rows_of; by rewrite map_map).
  apply level_well_drawn.
  - unfold rows_of. change (map (λ x, (x, sub_block r prefix x)) l) with ((λ x, (x, sub_block r prefix x)) <$> l). by rewrite <- list_fmap_compose.
  - intros e [He _]%Hrow. by apply Hlev.
  - intros e x [He _]%Hrow Hx. by apply (drawn_plain l (tidy_intro l (conj Hnd Hlev) Hsub) prefix e.1 x).
  - intros e [He ->]%Hrow. assert (nul_free (node_id prefix (StepID e.1) +:+ "_sub") = true) as Hps.
    { rewrite plain_app, andb_true_iff. split; [|done].
      apply (drawn_plain l (tidy_intro l (conj Hnd Hlev) Hsub) prefix e.1); [done|done|]. rewrite drawn_inner. by left. }
    pose proof (IH (e.1) He _ Hps) as W. destruct (e.1) as [key id task p sc sg nm hist st c u v]. simpl in *. unfold inner. simpl.
    destruct sg; simpl; destruct hist as [|s hist]; simpl; try done. split; [exact W|].
    cbn [map]. rewrite drawn_inner. simpl. done.
Qed.

Section whole.
Context (r : FlowRenderer) (Htidy : tidy (steps r)).
Let names := mjoin (map (drawn_names "") (steps r)).
Let showEnd := negb (hasInflightStep (steps r)).

(** The nodes that are no steps. *)
Definition chrome : list string :=
  (if bool_decide (title r = "") then [] else ["_title"]) ++ ["_start"] ++ (if negb (hasInflightStep (steps r)) then ["_end"] else []).

Lemma whole_level : well_drawn names (level_lines r "" (rows_of r "" (steps r))) (level_heads "" (rows_of r "" (steps r))) (level_tails "" (rows_of r "" (steps r))).
Proof using Htidy. by apply level_of_history. Qed.

Lemma edges_declare {A} (f : A → line) l : (∀ x, declares (f x) = []) → nodes_of (f <$> l) = [].
Proof using Type. intros H. unfold nodes_of. induction l as [|x l IH]; [done|]. rewrite fmap_cons, bind_cons, H. exact IH. Qed.
Lemma nodes_of_app l l' : nodes_of (l ++ l') = nodes_of l ++ nodes_of l'.
Proof using Type. apply bind_app. Qed.
Lemma arrows_of_app l l' : arrows_of (l ++ l') = arrows_of l ++ arrows_of l'.
Proof using Type. apply bind_app. Qed.

Lemma render_nodes : nodes_of (render_lines r) ≡ₚ chrome ++ names.
Proof using Htidy.
  unfold render_lines, renderSteps. rewrite !nodes_of_app. rewrite (wd_nodes _ _ _ _ whole_level). simpl nodes_of at 1.
  rewrite (edges_declare (λ h, Edge "_start" "" h)) by done.
  assert (nodes_of (if negb (hasInflightStep (steps r)) then (λ t, Edge t "" "_end") <$> level_tails "" (rows_of r "" (steps r)) else []) = []) as ->
    by (destruct (negb _); [by apply edges_declare|done]).
  rewrite !app_nil_r, app_nil_l. unfold chrome. rewrite <- !app_assoc. f_equiv; [by case_bool_decide|].
  simpl. f_equiv. f_equiv. by destruct (negb _).
Qed.

Lemma names_start x : x ∈ names → ∃ t, x = String "s" t.
Proof using Type.
  unfold names. intros (l & Hx & (s & -> & Hs)%list_elem_of_fmap)%list_elem_of_join.
  apply drawn_under in Hx as (t & _ & ->). by eexists.
Qed.
Lemma chrome_NoDup : NoDup (chrome ++ names).
Proof using Htidy.
  apply NoDup_app. split_and!; [unfold chrome; case_bool_decide; destruct (negb _); apply (bool_decide_unpack _); by vm_compute| |by apply drawn_NoDup].
  intros x Hx [t ->]%names_start. revert Hx. unfold chrome. case_bool_decide; destruct (negb _); simpl; rewrite ?elem_of_cons, ?elem_of_nil; naive_solver.
Qed.

Lemma render_arrows x : x ∈ arrows_of (render_lines r) ↔
  (title r ≠ "" ∧ x = ("_title", "_start")) ∨ x ∈ arrows_of (level_lines r "" (rows_of r "" (steps r)))
  ∨ (∃ h, h ∈ level_heads "" (rows_of r "" (steps r)) ∧ x = ("_start", h))
  ∨ (showEnd = true ∧ ∃ t, t ∈ level_tails "" (rows_of r "" (steps r)) ∧ x = (t, "_end")).
Proof using Type.
  unfold render_lines, renderSteps. rewrite !arrows_of_app, !elem_of_app.
  assert (∀ (f : string → line) (g : string → string * string) l, (∀ y, arrows (f y) = [g y]) → (x ∈ arrows_of (f <$> l) ↔ ∃ y, y ∈ l ∧ x = g y)) as Hmap.
  { intros f g l H. unfold arrows_of. rewrite list_elem_of_bind. setoid_rewrite list_elem_of_fmap. split.
    - intros (ln & Hx & y & -> & Hy). rewrite H in Hx. apply list_elem_of_singleton in Hx. eauto.
    - intros (y & Hy & ->). exists (f y). rewrite H. split; [by apply list_elem_of_singleton|eauto]. }
  rewrite (Hmap _ (λ h, ("_start", h))) by done. fold showEnd.
  assert (x ∈ arrows_of (if showEnd then (λ t, Edge t "" "_end") <$> level_tails "" (rows_of r "" (steps r)) else [])
    ↔ showEnd = true ∧ ∃ t, t ∈ level_tails "" (rows_of r "" (steps r)) ∧ x = (t, "_end")) as ->.
  { destruct showEnd; [rewrite (Hmap _ (λ t, (t, "_end"))) by done; tauto|]. split; [by intros ?%elem_of_nil|by intros [? _]]. }
  simpl. rewrite !elem_of_nil.
  assert (x ∈ arrows_of (if bool_decide (title r = "") then [] else [Title (title r)]) ↔ title r ≠ "" ∧ x = ("_title", "_start")) as ->.
  { case_bool_decide; simpl; [rewrite elem_of_nil|rewrite list_elem_of_singleton]; tauto. }
  assert (x ∈ arrows_of (if showEnd then [Terminal "_end"] else []) ↔ False) as -> by (destruct showEnd; simpl; apply elem_of_nil).
  tauto.
Qed.

Lemma render_depth : depth 0 (render_lines r) = Some 0%nat.
Proof using Htidy.
  assert (∀ (f : string → line) l n, (∀ y n, depth n [f y] = Some n) → depth n (f <$> l) = Some n) as Hflat.
  { intros f l n H. revert n. induction l as [|y l IH]; intros n; [done|]. rewrite fmap_cons. change (f y :: (f <$> l)) with ([f y] ++ (f <$> l)).
    by rewrite depth_app, H; simpl. }
  unfold render_lines, renderSteps. cbn [app]. cbn [depth flowClassDefLine]. rewrite !depth_app.
  assert (depth 0 (if bool_decide (title r = "") then [] else [Title (title r)]) = Some 0%nat) as -> by by case_bool_decide.
  cbn [mbind option_bind]. cbn [depth]. rewrite !depth_app.
  assert (depth 0 (if negb (hasInflightStep (steps r)) then [Terminal "_end"] else []) = Some 0%nat) as -> by by destruct (negb _).
  cbn [mbind option_bind]. rewrite !depth_app, (wd_depth _ _ _ _ whole_level). cbn [mbind option_bind]. rewrite !depth_app, Hflat by done.
  cbn [mbind option_bind]. destruct (negb _); [by apply Hflat|done].
Qed.
End whole.

(** C39. The diagram of a flow shows the flow: every step of the history, at every depth of its subgraphs, is
    one node; an arrow joins two nodes of the diagram; every step is reached from the start, and reaches
    the end where nothing is in flight; the blocks are closed in the order they are opened. *)
Theorem diagram_shows_the_flow r : tidy (steps r) →
  let L := render_lines r in let names := mjoin (map (drawn_names "") (steps r)) in
  NoDup (nodes_of L) ∧ nodes_of L ≡ₚ chrome r ++ names
  ∧ (∀ a b, arrow L a b → a ∈ nodes_of L ∧ b ∈ nodes_of L)
  ∧ (∀ x, x ∈ names → reach L "_start" x)
  ∧ (hasInflightStep (steps r) = false → ∀ x, x ∈ names → reach L x "_end")
  ∧ depth 0 L = Some 0%nat.
Proof.
  intros Ht L names. pose proof (render_nodes r Ht) as Hn. fold L names in Hn. pose proof (whole_level r Ht) as W. fold names in W.
  assert (∀ a b, arrow (level_lines r "" (rows_of r "" (steps r))) a b → arrow L a b) as Hin
    by (intros a b H; apply render_arrows; right; by left).
  assert ("_start" ∈ chrome r) as Hs by (unfold chrome; case_bool_decide; set_solver).
  split_and!.
  - rewrite Hn. by apply chrome_NoDup.
  - exact Hn.
  - intros a b H. rewrite Hn, !elem_of_app.
    apply render_arrows in H as [[Ht' [= -> ->]]|[H|[(h & Hh & [= -> ->])|(He & t & Ht' & [= -> ->])]]].
    + split; left; [|done]. unfold chrome. rewrite bool_decide_eq_false_2 by done. by left.
    + apply (wd_arrows _ _ _ _ W) in H. tauto.
    + split; [by left|right; by apply (wd_heads _ _ _ _ W)].
    + split; [right; by apply (wd_tails _ _ _ _ W)|]. left. unfold chrome. rewrite He. set_solver.
  - intros x Hx. destruct (wd_from _ _ _ _ W x Hx) as (h & Hh & Hr). eapply rtc_l; [|by eapply reach_sub].
    apply render_arrows. right. right. left. by exists h.
  - intros He x Hx. destruct (wd_to _ _ _ _ W x Hx) as (t & Ht' & Hr). eapply rtc_r; [by eapply reach_sub|].
    apply render_arrows. right. right. right. rewrite He. split; [done|]. by exists t.
  - by apply render_depth.
Qed.

(** A fan-out of two, one of whose branches called a subgraph of two steps. *)
Definition sample_step (id pred succ : Z) (sub : bool) (hist : list FlowStep) : FlowStep :=
  mkFlowStep "key" id "https://host/task" pred succ sub "child" hist "completed" 1 1 1500000001.
Definition sample_history : list FlowStep :=
  [sample_step 1 0 0 false []; sample_step 2 1 4 true [sample_step 5 0 6 false []; sample_step 6 5 0 false []];
   sample_step 3 1 4 false []; sample_step 4 2 0 false []].
Lemma sample_history_tidy : tidy sample_history.
Proof.
  assert (∀ l, tidy_level l → (∀ s, s ∈ l → SubHistory s = []) → tidy l) as Hflat.
  { intros l Hl H. split; [done|]. intros s Hs. rewrite (H s Hs). split; [|by intros x ?%elem_of_nil].
    split; [constructor|by intros x ?%elem_of_nil]. }
  assert (∀ l : list FlowStep, Forall (λ s, in_range (StepID s) ∧ PredecessorID s < StepID s ∧ (SuccessorID s = 0 ∨ StepID s < SuccessorID s)) l →
    NoDup (StepID <$> l) → tidy_level l) as Hlev by (intros l H Hn; split; [done|]; by apply Forall_forall).
  assert (∀ s, s ∈ [sample_step 5 0 6 false []; sample_step 6 5 0 false []] → SubHistory s = []) as Hleaf
    by (intros s; rewrite !elem_of_cons, elem_of_nil; naive_solver).
  assert (tidy []) as Hnil by (apply Hflat; [apply Hlev; constructor|by intros s ?%elem_of_nil]).
  split; [apply Hlev; [|apply (bool_decide_unpack _); by vm_compute]|].
  - unfold in_range. repeat constructor; simpl; lia.
  - intros s. unfold sample_history. rewrite !elem_of_cons, elem_of_nil. intros [->|[->|[->|[->|[]]]]]; [done| |done|done].
    apply Hflat; [|exact Hleaf]. apply Hlev; [unfold in_range; repeat constructor; simpl; lia|apply (bool_decide_unpack _); by vm_compute].
Qed.

Lemma diagram_shows_the_flow_witness :
  let r := WithTitle "a [flow]" (NewFlowRenderer sample_history) in
  reach (render_lines r) "_start" "s2_subs6" ∧ reach (render_lines r) "s2_subs5" "_end" ∧ nodes_of (render_lines r) ≡ₚ chrome r ++ mjoin (map (drawn_names "") (steps r)).
Proof.
  destruct (diagram_shows_the_flow (WithTitle "a [flow]" (NewFlowRenderer sample_history)) sample_history_tidy) as (_ & Hn & _ & Hs & He & _).
  split_and!; [apply Hs; apply (bool_decide_unpack _); by vm_compute|apply He; [by vm_compute|apply (bool_decide_unpack _); by vm_compute]|exact Hn].
Defined.
