(* ===== verification/GraphDiagram.v ===== *)
(** * The diagram of a workflow graph ([workflow/graphrenderer.go])

    [GraphRenderer] draws a graph as a Mermaid flowchart: a node per task, a circle in front of every
    fan-in, a diamond behind every task with switch arms or conditions, and an arrow per transition,
    those between the same two tasks joined into one.  As in [FlowDiagram] a [line] is one of the formats
    the renderer prints.  The table of printable runes that [strconv.Quote] consults is an argument.

    The theorem: a task can be reached from the start of the diagram exactly when it can be reached from
    the entry point of the graph, and the end exactly when some reachable task has a transition to it. *)

From Stdlib Require Import Ascii.
From S2P Require Import Prelude Json Keys Graph Mermaid.

#[local] Open Scope Z_scope.
#[local] Arguments String.append !_ _ / : simpl nomatch.

(** ** Text *)

(** [strings.Cut]. *)
Fixpoint Cut (sep s : string) : option (string * string) :=
  if String.prefix sep s then Some (EmptyString, String.substring (String.length sep) (String.length s) s) else
  match s with
  | EmptyString => None
  | String c s => match Cut sep s with Some (a, b) => Some (String c a, b) | None => None end
  end.

Definition hostOf (s : string) : string :=
  match Cut "://" s with
  | None => ""
  | Some (_, after) => match Cut "/" after with Some (before, _) => before | None => after end
  end.
Definition stripHostPort (s ownHost : string) : string :=
  match Cut "://" s with
  | None => s
  | Some (_, after) =>
      let '(host, path) := match Cut "/" after with Some (before, after0) => (before, after0) | None => (after, "") end in
      if bool_decide (ownHost = "" ∨ host = ownHost) then path else after
  end.

Example own_host_stripped :
  hostOf "https://orders:443/check" = "orders:443" ∧ stripHostPort "https://orders:443/check" "orders:443" = "check"
  ∧ stripHostPort "https://orders:443/check" "stock" = "orders:443/check" ∧ stripHostPort "check" "orders" = "check".
Proof. done. Qed.

(** [url.QueryEscape]. *)
Definition upper_hex (n : N) : ascii := ascii_of_N (if (n <? 10)%N then 48 + n else 55 + n).
Definition query_byte (c : ascii) : string :=
  if within 97 122 c || within 65 90 c || within 48 57 c || is_ch 45 c || is_ch 95 c || is_ch 46 c || is_ch 126 c
  then String c EmptyString
  else if is_ch 32 c then "+"
  else String "%" (String (upper_hex (code c / 16)) (String (upper_hex (code c mod 16)) EmptyString)).
Fixpoint QueryEscape (s : string) : string :=
  match s with EmptyString => EmptyString | String c s => query_byte c +:+ QueryEscape s end.

(** [strconv.Quote]; [IsPrint] answers for the runes past ASCII. *)
Definition low_bits (n : N) (c : ascii) : N := (code c mod n)%N.
Definition code_point (s : string) : N :=
  match s with
  | String a (String b EmptyString) => (low_bits 32 a * 64 + low_bits 64 b)%N
  | String a (String b (String c EmptyString)) => ((low_bits 16 a * 64 + low_bits 64 b) * 64 + low_bits 64 c)%N
  | String a (String b (String c (String d EmptyString))) =>
      (((low_bits 8 a * 64 + low_bits 64 b) * 64 + low_bits 64 c) * 64 + low_bits 64 d)%N
  | _ => 0%N
  end.
Definition hex_digits (places : nat) (n : N) : string :=
  foldl (λ s i, String (hex_digit ((n / 16 ^ N.of_nat i) mod 16)) s) EmptyString (seq 0 places).
Definition quote_ascii (c : ascii) : string :=
  if is_ch 34 c || is_ch 92 c then escaped c else if within 32 126 c then String c EmptyString else
  if is_ch 7 c then escaped "a" else if is_ch 8 c then escaped "b" else if is_ch 12 c then escaped "f" else
  if is_ch 10 c then escaped "n" else if is_ch 13 c then escaped "r" else if is_ch 9 c then escaped "t" else
  if is_ch 11 c then escaped "v" else escaped "x" +:+ hex_digits 2 (code c).
(** The runes with the bytes they stand for: a byte that begins no rune is quoted in hexadecimal. *)
Fixpoint quote_runes (IsPrint : N → bool) (l : list rune) (s : string) : string :=
  match l, s with
  | RByte c :: l, String _ s => quote_ascii c +:+ quote_runes IsPrint l s
  | RBad :: l, String c s => escaped "x" +:+ hex_digits 2 (code c) +:+ quote_runes IsPrint l s
  | RSeq t :: l, s =>
      let n := code_point t in
      (if IsPrint n then t else if (n <? 65536)%N then escaped "u" +:+ hex_digits 4 n else escaped "U" +:+ hex_digits 8 n)
      +:+ quote_runes IsPrint l (String.substring (String.length t) (String.length s) s)
  | _, _ => EmptyString
  end.
Definition q (s : string) : string := String dquote (s +:+ String dquote EmptyString).
Definition Quote (IsPrint : N → bool) (s : string) : string := q (quote_runes IsPrint (runes s) s).

(** ** Lines *)

Inductive line :=
| Front (title themeCSS : string)
| Header (direction : string)
| ClassDef (name fill text stroke : string)
| LinkStyle (fill : string)
| Blank
| Task (id label : string)
| Click (id param name : string)
| Reduce (id : string)
| Diamond (id kind : string)
| Edge (src label dst : string)
| ArmEdge (src label dst : string)
| Start (head : option string)
| EndEdge (src label : string).

Definition newline : string := String (ascii_of_nat 10) EmptyString.
Definition with_label (src label dst : string) : string :=
  "    " +:+ src +:+ " -->|" +:+ q (escapeMermaid label) +:+ "| " +:+ dst.
Definition labelled (src label dst : string) : string :=
  if bool_decide (label = "") then "    " +:+ src +:+ " --> " +:+ dst else with_label src label dst.
Definition line_text (IsPrint : N → bool) (l : line) : string :=
  match l with
  | Front title themeCSS =>
      "---" +:+ newline +:+ "title: " +:+ q (escapeMermaid title) +:+ newline +:+ "config:" +:+ newline
      +:+ "  themeCSS: " +:+ Quote IsPrint themeCSS +:+ newline +:+ "---"
  | Header direction => "graph " +:+ direction
  | ClassDef name fill text stroke => "    classDef " +:+ name +:+ " fill:" +:+ fill +:+ ",color:" +:+ text +:+ ",stroke:" +:+ stroke
  | LinkStyle fill => "    linkStyle default stroke:" +:+ fill
  | Blank => ""
  | Task id label => "    " +:+ id +:+ "[" +:+ q (escapeMermaid label) +:+ "]:::task"
  | Click id param name => "    click " +:+ id +:+ " " +:+ q ("?" +:+ param +:+ "=" +:+ QueryEscape name)
  | Reduce id => "    " +:+ id +:+ "((" +:+ q "reduce" +:+ ")):::term"
  | Diamond id kind => "    " +:+ id +:+ "{" +:+ q kind +:+ "}:::term"
  | Edge src label dst => labelled src label dst
  | ArmEdge src label dst => with_label src label dst
  | Start None => "    _start(( )):::term"
  | Start (Some h) => "    _start(( )):::term --> " +:+ h
  | EndEdge src label => labelled src label "_end(( )):::term"
  end +:+ newline.

(** ** The renderer *)

Record GraphRenderer := mkGraphRenderer {
  graph : option Graph;
  primaryFill : string; primaryText : string; secondaryFill : string; secondaryText : string;
  direction : string; titleLabel : bool; linkParam : string
}.

Definition NewGraphRenderer (g : option Graph) : GraphRenderer :=
  mkGraphRenderer g "#32a7c1" "#f4f2ef" "#e5f4f3" "#434343" "LR" true "".
Definition WithPrimaryColors (fill text : string) (r : GraphRenderer) : GraphRenderer :=
  mkGraphRenderer (graph r) fill text (secondaryFill r) (secondaryText r) (direction r) (titleLabel r) (linkParam r).
Definition WithSecondaryColors (fill text : string) (r : GraphRenderer) : GraphRenderer :=
  mkGraphRenderer (graph r) (primaryFill r) (primaryText r) fill text (direction r) (titleLabel r) (linkParam r).
Definition set_look (dir : string) (title : bool) (param : string) (r : GraphRenderer) : GraphRenderer :=
  mkGraphRenderer (graph r) (primaryFill r) (primaryText r) (secondaryFill r) (secondaryText r) dir title param.
Definition WithTopDown (r : GraphRenderer) : GraphRenderer := set_look "TD" (titleLabel r) (linkParam r) r.
Definition WithLeftRight (r : GraphRenderer) : GraphRenderer := set_look "LR" (titleLabel r) (linkParam r) r.
Definition WithTitleLabel (show : bool) (r : GraphRenderer) : GraphRenderer := set_look (direction r) show (linkParam r) r.
Definition WithLinks (paramName : string) (r : GraphRenderer) : GraphRenderer := set_look (direction r) (titleLabel r) paramName r.

(** ** [renderBody] *)

Section body.
Context (param : string) (prefix : string) (g : Graph).

Definition ids : gmap string string :=
  foldl (λ m p, <[Name p.2 := prefix +:+ "t" +:+ Itoa (Z.of_nat p.1)]> m) ∅ (imap pair (nodes g)).
Definition ownHost : string := hostOf (URLOf (entryPoint g) g).
Definition id_of (nm : string) : string := default "" (ids !! nm).

Definition entries : gmap string (list string) :=
  foldl (λ m t, <[Name t := [if IsFanIn g (Name t) then id_of (Name t) +:+ "_reduce" else id_of (Name t)]]> m) ∅ (nodes g).
Definition exits : gmap string (list string) := foldl (λ m t, <[Name t := [id_of (Name t)]]> m) ∅ (nodes g).

(** The arms of the diamonds: target and label. *)
Abbreviation arms := (gmap string (list (string * string))).
Definition add_arm (from to label : string) (m : arms) : arms := <[from := default [] (m !! from) ++ [(to, label)]]> m.
Definition arm_step (st : arms * arms) (tr : Transition) : arms * arms :=
  let '(switchArms, whenArms) := st in
  if WithGoto tr || OnError tr then st else
  if Switch tr then (add_arm (tr_From tr) (tr_To tr) (if bool_decide (When tr = "true") then "default" else When tr) switchArms, whenArms)
  else if nonempty (When tr) && bool_decide (ForEach tr = "") then (switchArms, add_arm (tr_From tr) (tr_To tr) (When tr) whenArms)
  else st.
Definition all_arms : arms * arms := foldl arm_step (∅, ∅) (transitions g).
Definition switch_arms (nm : string) : list (string * string) := default [] (all_arms.1 !! nm).
Definition when_arms (nm : string) : list (string * string) := default [] (all_arms.2 !! nm).

Definition emitNodeBody (nm : string) : list line :=
  [Task (id_of nm) (stripHostPort nm ownHost)]
  ++ (if bool_decide (param = "") then [] else [Click (id_of nm) param nm]).
Definition emitOneNode (nm : string) : list line :=
  emitNodeBody nm
  ++ (if IsFanIn g nm then [Reduce (id_of nm +:+ "_reduce"); Edge (id_of nm +:+ "_reduce") "" (id_of nm)] else [])
  ++ (if bool_decide (switch_arms nm = []) then [] else [Diamond (id_of nm +:+ "_switch") "switch"])
  ++ (if bool_decide (when_arms nm = []) then [] else [Diamond (id_of nm +:+ "_when") "when"]).

(** The transitions that are arrows, in the order of their first mention, with the labels of each. *)
Definition edge_label (tr : Transition) : string :=
  let label := if nonempty (ForEach tr) then "for each" else if Switch tr then "case " +:+ When tr
               else if nonempty (When tr) then "when " +:+ When tr else "" in
  let label := if WithGoto tr then if bool_decide (label = "") then "goto" else "goto; " +:+ label else label in
  if OnError tr then if bool_decide (label = "") then "onError" else "onError; " +:+ label else label.
Definition is_arm (tr : Transition) : bool :=
  (Switch tr && negb (WithGoto tr) && negb (OnError tr))
  || (nonempty (When tr) && bool_decide (ForEach tr = "") && negb (WithGoto tr) && negb (OnError tr) && negb (Switch tr)).
Abbreviation edge_table := (list (string * string) * gmap (string * string) (list string))%type.
Definition edge_step (st : edge_table) (tr : Transition) : edge_table :=
  let '(edgeOrder, edgeLabels) := st in
  if is_arm tr then st else
  let e := (tr_From tr, tr_To tr) in
  let '(edgeOrder, edgeLabels) := if bool_decide (is_Some (edgeLabels !! e)) then st else (edgeOrder ++ [e], <[e := []]> edgeLabels) in
  let label := edge_label tr in
  (edgeOrder, if bool_decide (label = "") then edgeLabels else <[e := default [] (edgeLabels !! e) ++ [label]]> edgeLabels).
Definition all_arrows : edge_table := foldl edge_step ([], ∅) (transitions g).

(** What one arrow, and one diamond, write; the arrows to END are kept for last. *)
Definition write_edge (e : string * string) : list line * list (string * string) :=
  let label := String.concat " | " (default [] (all_arrows.2 !! e)) in
  let srcExits := default [] (exits !! e.1) in
  if bool_decide (e.2 = END) then ([], (λ src, (src, label)) <$> srcExits)
  else (mjoin ((λ src, (λ dst, Edge src label dst) <$> default [] (entries !! e.2)) <$> srcExits), []).
Definition write_arm (diamondID : string) (arm : string * string) : list line * list (string * string) :=
  if bool_decide (arm.1 = END) then ([], [(diamondID, arm.2)])
  else ((λ dst, ArmEdge diamondID arm.2 dst) <$> default [] (entries !! arm.1), []).
Definition joined {A} (f : A → list line * list (string * string)) (l : list A) : list line * list (string * string) :=
  (mjoin (fst ∘ f <$> l), mjoin (snd ∘ f <$> l)).
Definition emitDiamond (from suffix : string) (arms : list (string * string)) : list line * list (string * string) :=
  if bool_decide (arms = []) then ([], []) else
  let diamondID := id_of from +:+ suffix in
  let '(out, ends) := joined (write_arm diamondID) arms in
  (((λ src, Edge src "" diamondID) <$> default [] (exits !! from)) ++ out, ends).
Definition emitDiamonds (nm : string) : list line * list (string * string) :=
  let '(out1, ends1) := emitDiamond nm "_switch" (switch_arms nm) in
  let '(out2, ends2) := emitDiamond nm "_when" (when_arms nm) in (out1 ++ out2, ends1 ++ ends2).

(** Lines, heads, and the arrows to the end. *)
Definition renderBody : list line * list string * list (string * string) :=
  let names := Name <$> nodes g in
  let '(out1, ends1) := joined write_edge all_arrows.1 in
  let '(out2, ends2) := joined emitDiamonds names in
  (mjoin (emitOneNode <$> names) ++ out1 ++ out2,
   if bool_decide (is_Some (ids !! entryPoint g)) then default [] (entries !! entryPoint g) else [],
   ends1 ++ ends2).
End body.

Definition render_lines (r : GraphRenderer) (g : Graph) : list line :=
  let '(body, heads, endEdges) := renderBody (linkParam r) "" g in
  (if titleLabel r then [Front (name g) (".flowchartTitleText { fill: " +:+ primaryFill r +:+ "; }")] else [])
  ++ [Header (direction r);
      ClassDef "task" (primaryFill r) (primaryText r) (primaryFill r);
      ClassDef "term" (secondaryFill r) (secondaryText r) (primaryFill r);
      LinkStyle (primaryFill r); Blank]
  ++ body
  ++ match heads with [] => [Start None] | _ => (λ h, Start (Some h)) <$> heads end
  ++ ((λ e, EndEdge e.1 e.2) <$> endEdges).

Definition Render (IsPrint : N → bool) (r : GraphRenderer) : string :=
  match graph r with None => "" | Some g => flat (line_text IsPrint <$> render_lines r g) end.

(** ** Reading the lines *)

Definition declares (l : line) : list string :=
  match l with Task id _ => [id] | Reduce id => [id] | Diamond id _ => [id] | _ => [] end.
Definition arrows (l : line) : list (string * string) :=
  match l with
  | Edge src _ dst | ArmEdge src _ dst => [(src, dst)]
  | Start (Some h) => [("_start", h)]
  | EndEdge src _ => [(src, "_end")]
  | _ => []
  end.
Definition arrow (L : list line) (a b : string) : Prop := (a, b) ∈ L ≫= arrows.
(** There is a path of arrows. *)
Definition reach (L : list line) : string → string → Prop := rtc (arrow L).

(** A path of transitions between nodes of the graph. *)
Definition is_node (g : Graph) (nm : string) : Prop := nm ∈ Name <$> nodes g.
#[export] Instance is_node_dec g nm : Decision (is_node g nm).
Proof. unfold is_node. apply _. Defined.
Definition edge (g : Graph) (a b : string) : Prop :=
  ∃ tr, tr ∈ transitions g ∧ tr_From tr = a ∧ tr_To tr = b ∧ is_node g a ∧ is_node g b.
Definition leads_to (g : Graph) : string → string → Prop := rtc (edge g).

(** ** Arms and arrows *)

Lemma elem_of_add_arm from to lb m nm x :
  x ∈ default [] (add_arm from to lb m !! nm) ↔ x ∈ default [] (m !! nm) ∨ (nm = from ∧ x = (to, lb)).
Proof.
  unfold add_arm. destruct (decide (nm = from)) as [->|Hne].
  - rewrite lookup_insert_eq. simpl. rewrite elem_of_app, list_elem_of_singleton. tauto.
  - rewrite lookup_insert_ne by done. naive_solver.
Qed.

Section tables.
Context (g : Graph).

(** Every arm comes from a transition that is one, and every such transition is an arm. *)
Lemma arms_from nm to lb : (to, lb) ∈ switch_arms g nm ∨ (to, lb) ∈ when_arms g nm →
  ∃ tr, tr ∈ transitions g ∧ tr_From tr = nm ∧ tr_To tr = to.
Proof using Type.
  unfold switch_arms, when_arms, all_arms.
  assert (∀ l st, (to, lb) ∈ default [] ((foldl arm_step st l).1 !! nm) ∨ (to, lb) ∈ default [] ((foldl arm_step st l).2 !! nm) →
    ((to, lb) ∈ default [] (st.1 !! nm) ∨ (to, lb) ∈ default [] (st.2 !! nm)) ∨ ∃ tr, tr ∈ l ∧ tr_From tr = nm ∧ tr_To tr = to) as H.
  { induction l as [|tr l IH]; intros st Hin; [by left|]. cbn [foldl] in Hin.
    apply IH in Hin as [Hin|(tr' & Ht & H1 & H2)]; [|right; exists tr'; split; [by right|done]].
    unfold arm_step in Hin. destruct st as [sw wh]. destruct (WithGoto tr || OnError tr); [by left|].
    destruct (Switch tr); [|destruct (nonempty (When tr) && _); [|by left]]; cbn [fst snd] in Hin |- *; rewrite elem_of_add_arm in Hin;
      destruct Hin as [[Hin|[-> [= -> _]]]|Hin] || destruct Hin as [Hin|[Hin|[-> [= -> _]]]]; try tauto; right; exists tr; (split; [by left|done]). }
  intros Hin. apply H in Hin as [[Hin|Hin]|Hin]; [by apply elem_of_nil in Hin..|done].
Qed.

Lemma arm_step_mono st tr nm x :
  (x ∈ default [] (st.1 !! nm) → x ∈ default [] ((arm_step st tr).1 !! nm)) ∧ (x ∈ default [] (st.2 !! nm) → x ∈ default [] ((arm_step st tr).2 !! nm)).
Proof using Type.
  unfold arm_step. destruct st as [sw wh]. destruct (WithGoto tr || OnError tr); [done|].
  destruct (Switch tr); [|destruct (nonempty (When tr) && _); [|done]]; cbn [fst snd]; split; rewrite ?elem_of_add_arm; tauto.
Qed.
Lemma arms_mono l : ∀ st nm x,
  (x ∈ default [] (st.1 !! nm) → x ∈ default [] ((foldl arm_step st l).1 !! nm))
  ∧ (x ∈ default [] (st.2 !! nm) → x ∈ default [] ((foldl arm_step st l).2 !! nm)).
Proof using Type.
  induction l as [|tr l IH]; intros st nm x; [done|]. cbn [foldl]. destruct (IH (arm_step st tr) nm x), (arm_step_mono st tr nm x). tauto.
Qed.
Lemma arms_all tr : tr ∈ transitions g → is_arm tr = true →
  ∃ lb, (tr_To tr, lb) ∈ switch_arms g (tr_From tr) ∨ (tr_To tr, lb) ∈ when_arms g (tr_From tr).
Proof using Type.
  unfold switch_arms, when_arms, all_arms. intros Hin Harm.
  assert (∀ l st, tr ∈ l → ∃ lb, (tr_To tr, lb) ∈ default [] ((foldl arm_step st l).1 !! tr_From tr)
    ∨ (tr_To tr, lb) ∈ default [] ((foldl arm_step st l).2 !! tr_From tr)) as H; [|by apply H].
  induction l as [|x l IH]; intros st Hx; [by apply elem_of_nil in Hx|]. cbn [foldl].
  apply elem_of_cons in Hx as [<-|Hx]; [|by apply IH].
  assert (∃ lb, (tr_To tr, lb) ∈ default [] ((arm_step st tr).1 !! tr_From tr) ∨ (tr_To tr, lb) ∈ default [] ((arm_step st tr).2 !! tr_From tr)) as [lb Hlb].
  { unfold arm_step. destruct st as [sw wh]. unfold is_arm in Harm. destruct (WithGoto tr), (OnError tr), (Switch tr); simpl in Harm |- *;
      rewrite ?andb_false_r in Harm; try done; try (eexists; left; apply elem_of_add_arm; by right).
    rewrite !andb_true_r in Harm. rewrite Harm. eexists. right. apply elem_of_add_arm. by right. }
  exists lb. destruct (arms_mono l (arm_step st tr) (tr_From tr) (tr_To tr, lb)). tauto.
Qed.

(** The other transitions are the arrows. *)
Lemma edge_steps l : ∀ st, (∀ e, is_Some (st.2 !! e) ↔ e ∈ st.1) →
  let st' := foldl edge_step st l in
  (∀ e, is_Some (st'.2 !! e) ↔ e ∈ st'.1)
  ∧ ∀ e, e ∈ st'.1 ↔ e ∈ st.1 ∨ ∃ tr, tr ∈ l ∧ is_arm tr = false ∧ e = (tr_From tr, tr_To tr).
Proof using Type.
  induction l as [|tr l IH]; intros st Hst; cbn [foldl].
  { split; [done|]. intros e. setoid_rewrite elem_of_nil. naive_solver. }
  assert ((∀ e, is_Some ((edge_step st tr).2 !! e) ↔ e ∈ (edge_step st tr).1)
    ∧ ∀ e, e ∈ (edge_step st tr).1 ↔ e ∈ st.1 ∨ (is_arm tr = false ∧ e = (tr_From tr, tr_To tr))) as [H1 H2].
  { unfold edge_step. destruct st as [ord lbs]. cbn [fst snd] in Hst |- *. destruct (is_arm tr); [split; [done|naive_solver]|].
    generalize (edge_label tr) as lab. set (e := (tr_From tr, tr_To tr)). intros lab.
    assert (∀ m : gmap (string * string) (list string), is_Some (m !! e) → ∀ v e',
      is_Some ((if bool_decide (lab = "") then m else <[e := v]> m) !! e') ↔ is_Some (m !! e')) as Hm.
    { intros m Hs v e'. case_bool_decide; [done|]. destruct (decide (e' = e)) as [->|]; [by rewrite lookup_insert_eq|by rewrite lookup_insert_ne]. }
    destruct (decide (is_Some (lbs !! e))) as [Hs|Hs]; [rewrite (bool_decide_eq_true_2 _ Hs)|rewrite (bool_decide_eq_false_2 _ Hs)]; cbn [fst snd].
    - split; [intros e'; by rewrite Hm, Hst|]. intros e'. split; [tauto|]. intros [?|[_ ->]]; [done|by apply Hst].
    - assert (∀ e', is_Some (<[e := []]> lbs !! e') ↔ e' = e ∨ is_Some (lbs !! e')) as Hi.
      { intros e'. destruct (decide (e' = e)) as [->|]; [rewrite lookup_insert_eq; split; [by left|by eexists]|rewrite lookup_insert_ne by done; tauto]. }
      split; [intros e'; rewrite Hm by (rewrite lookup_insert_eq; by eexists); rewrite Hi, Hst, elem_of_app, list_elem_of_singleton; tauto|].
      intros e'. rewrite elem_of_app, list_elem_of_singleton. naive_solver. }
  destruct (IH _ H1) as [H3 H4]. split; [exact H3|]. intros e. rewrite H4, H2. setoid_rewrite elem_of_cons. naive_solver.
Qed.
Lemma all_arrows_spec e : e ∈ (all_arrows g).1 ↔ ∃ tr, tr ∈ transitions g ∧ is_arm tr = false ∧ e = (tr_From tr, tr_To tr).
Proof using Type.
  destruct (edge_steps (transitions g) ([], ∅)) as [_ H].
  - intros e'. cbn [fst snd]. rewrite lookup_empty. split; [by intros [? ?]|by intros ?%elem_of_nil].
  - unfold all_arrows. rewrite H, elem_of_nil. tauto.
Qed.
End tables.

(** ** The names of the diagram *)

Section named.
Context (g : Graph) (param : string).
Context (Hnd : NoDup (Name <$> nodes g)) (Hend : ¬ is_node g END) (Hlen : Z.of_nat (length (nodes g)) < 2 ^ 63).

Definition numbered (i : nat) : string := "t" +:+ Itoa (Z.of_nat i).

Lemma id_lookup i n : nodes g !! i = Some n → ids "" g !! Name n = Some (numbered i).
Proof using Hnd.
  intros Hi. unfold ids.
  assert (NoDup ((λ p : nat * Node, Name p.2) <$> imap pair (nodes g))) as Hk.
  { rewrite fmap_imap. replace (imap _ (nodes g)) with (Name <$> nodes g); [done|]. rewrite <- (imap_const Name). by apply imap_ext. }
  apply (proj1 (foldl_insert (λ p : nat * Node, Name p.2) (λ p, "" +:+ "t" +:+ Itoa (Z.of_nat p.1)) (imap pair (nodes g)) ∅ Hk) (i, n)).
  apply elem_of_lookup_imap. by exists i, n.
Qed.
Lemma id_absent nm : ¬ is_node g nm → ids "" g !! nm = None.
Proof using Hnd.
  intros Hn. unfold ids.
  assert ((λ p : nat * Node, Name p.2) <$> imap pair (nodes g) = Name <$> nodes g) as Hk
    by (rewrite fmap_imap, <- (imap_const Name); by apply imap_ext).
  rewrite (proj2 (foldl_insert (λ p : nat * Node, Name p.2) (λ p, "" +:+ "t" +:+ Itoa (Z.of_nat p.1)) (imap pair (nodes g)) ∅ ltac:(by rewrite Hk)));
    [done|by rewrite Hk].
Qed.

Definition nid (nm : string) : string := id_of "" g nm.
Definition entry_node (nm : string) : string := if IsFanIn g nm then nid nm +:+ "_reduce" else nid nm.

Lemma nid_numbered nm : is_node g nm → ∃ i n, nodes g !! i = Some n ∧ Name n = nm ∧ nid nm = numbered i.
Proof using Hnd.
  intros (n & -> & (i & Hi)%list_elem_of_lookup)%list_elem_of_fmap. exists i, n. split_and!; [done|done|].
  unfold nid, id_of. by rewrite (id_lookup i n).
Qed.

(** A node's names are those that begin with its number. *)
Lemma nid_inj a b s t : is_node g a → is_node g b → stops s → stops t → nid a +:+ s = nid b +:+ t → a = b ∧ s = t.
Proof using Hnd Hlen.
  intros (i & n & Hi & <- & Hn)%nid_numbered (j & m & Hj & <- & Hm)%nid_numbered Hs Ht. rewrite Hn, Hm. unfold numbered.
  rewrite !sapp_assoc. intros H%sapp_inj_l. apply lookup_lt_Some in Hi as Hil, Hj as Hjl.
  apply Itoa_munch in H as [H ->]; [|lia|lia|done|done]. apply Nat2Z.inj in H as ->. split; [congruence|done].
Qed.
Lemma nid_start a s t : is_node g a → nid a +:+ s ≠ String "_" t.
Proof using Hnd. intros (i & n & _ & _ & ->)%nid_numbered. done. Qed.

Lemma entries_lookup nm : default [] (entries "" g !! nm) = if decide (is_node g nm) then [entry_node nm] else [].
Proof using Hnd.
  unfold entries.
  pose proof (foldl_insert Name (λ t, [if IsFanIn g (Name t) then id_of "" g (Name t) +:+ "_reduce" else id_of "" g (Name t)]) (nodes g) ∅ Hnd) as [H1 H2].
  destruct (decide (is_node g nm)) as [Hin|Hn]; [|by rewrite H2].
  apply list_elem_of_fmap in Hin as (t & -> & Ht). by rewrite H1.
Qed.
Lemma exits_node nm : default [] (exits "" g !! nm) = if decide (is_node g nm) then [nid nm] else [].
Proof using Hnd.
  unfold exits. pose proof (foldl_insert Name (λ t, [id_of "" g (Name t)]) (nodes g) ∅ Hnd) as [H1 H2].
  destruct (decide (is_node g nm)) as [Hin|Hn]; [|by rewrite H2].
  apply list_elem_of_fmap in Hin as (t & -> & Ht). by rewrite H1.
Qed.

(** ** The arrows of each part *)

Lemma elem_of_joined {A} (f : A → list line) l x : x ∈ mjoin (f <$> l) ≫= arrows ↔ ∃ a, a ∈ l ∧ x ∈ f a ≫= arrows.
Proof using Type.
  induction l as [|a l IH]; [setoid_rewrite elem_of_nil; naive_solver|].
  rewrite fmap_cons, mjoin_cons, bind_app, elem_of_app, IH. setoid_rewrite elem_of_cons. naive_solver.
Qed.

Lemma node_arrows nm x : x ∈ emitOneNode param "" g nm ≫= arrows ↔ IsFanIn g nm = true ∧ x = (nid nm +:+ "_reduce", nid nm).
Proof using Type.
  unfold emitOneNode, emitNodeBody. rewrite !bind_app, !elem_of_app.
  assert (∀ c : bool, x ∈ (if c then [] else [Click (id_of "" g nm) param nm]) ≫= arrows ↔ False) as -> by (intros []; simpl; apply elem_of_nil).
  assert (∀ (c : bool) i k, x ∈ (if c then [] else [Diamond i k]) ≫= arrows ↔ False) as Hd by (intros [] i k; simpl; apply elem_of_nil).
  rewrite !Hd. simpl. rewrite elem_of_nil. destruct (IsFanIn g nm); simpl; rewrite ?list_elem_of_singleton, ?elem_of_nil; unfold nid; naive_solver.
Qed.

Lemma write_edge_arrows e x : x ∈ (write_edge "" g e).1 ≫= arrows ↔
  e.2 ≠ END ∧ is_node g e.1 ∧ is_node g e.2 ∧ x = (nid e.1, entry_node e.2).
Proof using Hnd.
  unfold write_edge. case_bool_decide as He; cbn [fst]; [rewrite elem_of_nil; naive_solver|].
  rewrite entries_lookup, exits_node. destruct (decide (is_node g e.1)), (decide (is_node g e.2)); simpl; rewrite ?list_elem_of_singleton, ?elem_of_nil; naive_solver.
Qed.
Lemma write_edge_ends e y : y ∈ (write_edge "" g e).2 → e.2 = END ∧ is_node g e.1 ∧ y.1 = nid e.1.
Proof using Hnd.
  unfold write_edge. case_bool_decide as He; cbn [snd]; [|by intros ?%elem_of_nil].
  rewrite exits_node. destruct (decide (is_node g e.1)); simpl; [|by intros ?%elem_of_nil]. by intros ->%list_elem_of_singleton.
Qed.
Lemma write_edge_end e : e.2 = END → is_node g e.1 → ∃ lb, (nid e.1, lb) ∈ (write_edge "" g e).2.
Proof using Hnd.
  intros He Hn. unfold write_edge. rewrite bool_decide_eq_true_2 by done. cbn [snd]. rewrite exits_node, decide_True by done.
  eexists. by left.
Qed.

Lemma write_arm_arrows d arm x : x ∈ (write_arm "" g d arm).1 ≫= arrows ↔ arm.1 ≠ END ∧ is_node g arm.1 ∧ x = (d, entry_node arm.1).
Proof using Hnd.
  unfold write_arm. case_bool_decide as He; cbn [fst]; [rewrite elem_of_nil; naive_solver|].
  rewrite entries_lookup. destruct (decide (is_node g arm.1)); simpl; rewrite ?list_elem_of_singleton, ?elem_of_nil; naive_solver.
Qed.

Lemma diamond_arrows nm suffix arms x : is_node g nm → x ∈ (emitDiamond "" g nm suffix arms).1 ≫= arrows ↔
  (arms ≠ [] ∧ x = (nid nm, nid nm +:+ suffix))
  ∨ ∃ arm, arm ∈ arms ∧ arm.1 ≠ END ∧ is_node g arm.1 ∧ x = (nid nm +:+ suffix, entry_node arm.1).
Proof using Hnd.
  intros Hn. unfold emitDiamond. case_bool_decide as Ha; cbn [fst].
  { subst. simpl. setoid_rewrite elem_of_nil. naive_solver. }
  unfold joined. cbn [fst]. rewrite exits_node, decide_True by done. rewrite bind_app, elem_of_app.
  setoid_rewrite elem_of_joined. simpl. setoid_rewrite write_arm_arrows. rewrite list_elem_of_singleton. naive_solver.
Qed.
Lemma diamond_ends nm suffix arms y : y ∈ (emitDiamond "" g nm suffix arms).2 ↔ ∃ lb, (END, lb) ∈ arms ∧ y = (nid nm +:+ suffix, lb).
Proof using Type.
  unfold emitDiamond. case_bool_decide as Ha; cbn [snd]; [subst; setoid_rewrite elem_of_nil; naive_solver|].
  unfold joined. cbn [snd]. rewrite list_elem_of_join. setoid_rewrite list_elem_of_fmap. unfold write_arm. split.
  - intros (l & Hy & [to lb] & -> & Hin). simpl in Hy. case_bool_decide as He; simpl in *; [|by apply elem_of_nil in Hy].
    apply list_elem_of_singleton in Hy as ->. subst. by exists lb.
  - intros (lb & Hin & ->). exists [(nid nm +:+ suffix, lb)]. split; [by left|]. exists (END, lb). by split.
Qed.

(** ** All the arrows *)

Definition has_arm (nm suffix to lb : string) : Prop :=
  (suffix = "_switch" ∧ (to, lb) ∈ switch_arms g nm) ∨ (suffix = "_when" ∧ (to, lb) ∈ when_arms g nm).

Inductive shown : string → string → Prop :=
| sh_reduce nm : is_node g nm → IsFanIn g nm = true → shown (nid nm +:+ "_reduce") (nid nm)
| sh_edge tr : tr ∈ transitions g → is_arm tr = false → is_node g (tr_From tr) → is_node g (tr_To tr) → shown (nid (tr_From tr)) (entry_node (tr_To tr))
| sh_into nm suffix to lb : is_node g nm → has_arm nm suffix to lb → shown (nid nm) (nid nm +:+ suffix)
| sh_arm nm suffix to lb : is_node g nm → has_arm nm suffix to lb → is_node g to → shown (nid nm +:+ suffix) (entry_node to)
| sh_start : is_node g (entryPoint g) → shown "_start" (entry_node (entryPoint g))
| sh_end tr : tr ∈ transitions g → is_arm tr = false → is_node g (tr_From tr) → tr_To tr = END → shown (nid (tr_From tr)) "_end"
| sh_arm_end nm suffix lb : is_node g nm → has_arm nm suffix END lb → shown (nid nm +:+ suffix) "_end".

Lemma node_not_end nm : is_node g nm → nm ≠ END.
Proof using Hend. intros H ->. done. Qed.

Lemma joined_lines {A} (f : A → list line * list (string * string)) l x :
  x ∈ (joined f l).1 ≫= arrows ↔ ∃ a, a ∈ l ∧ x ∈ (f a).1 ≫= arrows.
Proof using Type. unfold joined. cbn [fst]. by rewrite elem_of_joined. Qed.
Lemma joined_ends {A} (f : A → list line * list (string * string)) l y : y ∈ (joined f l).2 ↔ ∃ a, a ∈ l ∧ y ∈ (f a).2.
Proof using Type.
  unfold joined. cbn [snd]. rewrite list_elem_of_join. setoid_rewrite list_elem_of_fmap. split.
  - intros (l' & Hy & a & -> & Ha). by exists a.
  - intros (a & Ha & Hy). exists ((f a).2). split; [done|]. by exists a.
Qed.

Lemma diamonds_arrows nm x : is_node g nm → x ∈ (emitDiamonds "" g nm).1 ≫= arrows ↔
  ∃ suffix to lb, has_arm nm suffix to lb ∧ (x = (nid nm, nid nm +:+ suffix) ∨ (is_node g to ∧ x = (nid nm +:+ suffix, entry_node to))).
Proof using Hnd Hend.
  intros Hn. unfold emitDiamonds.
  pose proof (diamond_arrows nm "_switch" (switch_arms g nm) x Hn) as H1. pose proof (diamond_arrows nm "_when" (when_arms g nm) x Hn) as H2.
  destruct (emitDiamond "" g nm "_switch" _) as [o1 e1], (emitDiamond "" g nm "_when" _) as [o2 e2]. cbn [fst] in *.
  rewrite bind_app, elem_of_app, H1, H2. unfold has_arm.
  assert (∀ arms : list (string * string), arms ≠ [] → ∃ to lb, (to, lb) ∈ arms) as Hne
    by (intros [|[to lb] arms] H; [done|]; exists to, lb; by left).
  split.
  - intros [[[Ha ->]|([to lb] & Ha & _ & Ht & ->)]|[[Ha ->]|([to lb] & Ha & _ & Ht & ->)]].
    + destruct (Hne _ Ha) as (to & lb & Hin). exists "_switch", to, lb. tauto.
    + exists "_switch", to, lb. tauto.
    + destruct (Hne _ Ha) as (to & lb & Hin). exists "_when", to, lb. tauto.
    + exists "_when", to, lb. tauto.
  - intros (suffix & to & lb & [[-> Ha]|[-> Ha]] & [->|[Ht ->]]); [left|left|right|right].
    1, 3: left; split; [intros Heq; rewrite Heq in Ha; by apply elem_of_nil in Ha|done].
    all: right; exists (to, lb); by pose proof (node_not_end to Ht).
Qed.
Lemma diamonds_ends nm y : y ∈ (emitDiamonds "" g nm).2 ↔ ∃ suffix lb, has_arm nm suffix END lb ∧ y = (nid nm +:+ suffix, lb).
Proof using Type.
  unfold emitDiamonds. pose proof (diamond_ends nm "_switch" (switch_arms g nm) y) as H1. pose proof (diamond_ends nm "_when" (when_arms g nm) y) as H2.
  destruct (emitDiamond "" g nm "_switch" _) as [o1 e1], (emitDiamond "" g nm "_when" _) as [o2 e2]. cbn [snd] in *.
  rewrite elem_of_app, H1, H2. unfold has_arm. naive_solver.
Qed.

Lemma arrow_shown r a b : linkParam r = param → arrow (render_lines r g) a b ↔ shown a b.
Proof using Hnd Hend.
  intros Hpar. unfold arrow, render_lines, renderBody. rewrite Hpar.
  pose proof (joined_lines (write_edge "" g) (all_arrows g).1) as Hw. pose proof (joined_ends (write_edge "" g) (all_arrows g).1) as Hwe.
  pose proof (joined_lines (emitDiamonds "" g) (Name <$> nodes g)) as Hd. pose proof (joined_ends (emitDiamonds "" g) (Name <$> nodes g)) as Hde.
  destruct (joined (write_edge "" g) _) as [o1 e1], (joined (emitDiamonds "" g) _) as [o2 e2]. cbn [fst snd] in *.
  rewrite !bind_app, !elem_of_app, elem_of_joined, Hw, Hd.
  assert ((a, b) ∈ (if titleLabel r then [Front (name g) (".flowchartTitleText { fill: " +:+ primaryFill r +:+ "; }")] else []) ≫= arrows ↔ False) as ->
    by (destruct (titleLabel r); simpl; apply elem_of_nil).
  assert ((a, b) ∈ (match (if bool_decide (is_Some (ids "" g !! entryPoint g)) then default [] (entries "" g !! entryPoint g) else []) with
    [] => [Start None] | _ => (λ h, Start (Some h)) <$> (if bool_decide (is_Some (ids "" g !! entryPoint g)) then default [] (entries "" g !! entryPoint g) else []) end) ≫= arrows
    ↔ is_node g (entryPoint g) ∧ (a, b) = ("_start", entry_node (entryPoint g))) as ->.
  { destruct (decide (is_node g (entryPoint g))) as [Hn|Hn].
    - rewrite bool_decide_eq_true_2. { rewrite entries_lookup, decide_True by done. simpl. rewrite list_elem_of_singleton. tauto. }
      apply list_elem_of_fmap in Hn as (n & -> & (i & Hi)%list_elem_of_lookup). rewrite (id_lookup i n Hi). by eexists.
    - rewrite bool_decide_eq_false_2 by (rewrite id_absent by done; by intros [? ?]). simpl. rewrite elem_of_nil. tauto. }
  assert (∀ l : list (string * string), (a, b) ∈ ((λ e, EndEdge e.1 e.2) <$> l) ≫= arrows ↔ b = "_end" ∧ ∃ lb, (a, lb) ∈ l) as ->.
  { induction l as [|[s lb] l IH]; [setoid_rewrite elem_of_nil; naive_solver|]. rewrite fmap_cons, bind_cons, elem_of_app, IH. simpl.
    rewrite list_elem_of_singleton. setoid_rewrite elem_of_cons. naive_solver. }
  setoid_rewrite elem_of_app. simpl. rewrite elem_of_nil. setoid_rewrite node_arrows. setoid_rewrite Hwe. setoid_rewrite Hde.
  setoid_rewrite diamonds_ends. setoid_rewrite write_edge_arrows. setoid_rewrite all_arrows_spec. split.
  - intros [[]|[[[]|[]]|[[(nm & Hn & [H%elem_of_nil|[Hf [= -> ->]]])|[(e & (tr & Ht & Ha & ->) & He & H1 & H2 & [= -> ->])|(nm & Hn & H)]]
      |[[He [= -> ->]]|[-> (lb & [(e & (tr & Ht & Ha & ->) & H)|(nm & Hn & suffix & lb' & H & [= -> ->])])]]]]]; [done| | | | | |].
    + by constructor.
    + by apply (sh_edge tr).
    + apply diamonds_arrows in H as (suffix & to & lb & Harm & [[= -> ->]|[Hto [= -> ->]]]); [| |exact Hn];
        [by apply (sh_into nm suffix to lb)|by apply (sh_arm nm suffix to lb)].
    + by constructor.
    + apply write_edge_ends in H as (He & Hn & Heq). cbn [fst snd] in *. subst a. by apply sh_end.
    + by apply (sh_arm_end nm suffix lb').
  - assert (∀ nm, is_node g nm → nm ∈ Name <$> nodes g) as Hin by done.
    intros [nm Hn Hf|tr Ht Ha H1 H2|nm suffix to lb Hn Harm|nm suffix to lb Hn Harm Hto|He|tr Ht Ha H1 He|nm suffix lb Hn Harm].
    + right. right. left. left. exists nm. split; [done|]. by right.
    + right. right. left. right. left. exists (tr_From tr, tr_To tr). split; [by exists tr|]. by pose proof (node_not_end _ H2).
    + right. right. left. right. right. exists nm. split; [done|]. apply diamonds_arrows; [done|]. exists suffix, to, lb. split; [done|by left].
    + right. right. left. right. right. exists nm. split; [done|]. apply diamonds_arrows; [done|]. exists suffix, to, lb. split; [done|by right].
    + right. right. right. left. done.
    + right. right. right. right. split; [done|]. destruct (write_edge_end (tr_From tr, tr_To tr) He H1) as [lb Hlb]. exists lb. left.
      exists (tr_From tr, tr_To tr). split; [by exists tr|done].
    + right. right. right. right. split; [done|]. exists lb. right. exists nm. split; [done|]. by exists suffix, lb.
Qed.

(** ** Paths *)

Lemma has_arm_stops nm suffix to lb : has_arm nm suffix to lb → stops suffix.
Proof using Type. by intros [[-> _]|[-> _]]. Qed.
Lemma has_arm_edge nm suffix to lb : has_arm nm suffix to lb → ∃ tr, tr ∈ transitions g ∧ tr_From tr = nm ∧ tr_To tr = to.
Proof using Type. intros [[_ H]|[_ H]]; apply (arms_from g nm to lb); tauto. Qed.

Lemma entry_node_of nm : ∃ s, stops s ∧ entry_node nm = nid nm +:+ s.
Proof using Type.
  unfold entry_node. destruct (IsFanIn g nm); [by exists "_reduce"|]. exists EmptyString. by rewrite sapp_nil_r.
Qed.

(** Where a path from the start can be: at the end, or at a node of a task the graph leads to. *)
Definition reached (x : string) : Prop :=
  x = "_start"
  ∨ (x = "_end" ∧ ∃ tr, tr ∈ transitions g ∧ tr_To tr = END ∧ leads_to g (entryPoint g) (tr_From tr))
  ∨ ∃ nm s, is_node g nm ∧ leads_to g (entryPoint g) nm ∧ stops s ∧ x = nid nm +:+ s.

Lemma reached_entry tr : tr ∈ transitions g → is_node g (tr_From tr) → is_node g (tr_To tr) →
  leads_to g (entryPoint g) (tr_From tr) → reached (entry_node (tr_To tr)).
Proof using Type.
  intros Ht H1 H2 Hl. right. right. destruct (entry_node_of (tr_To tr)) as (s & Hs & ->). exists (tr_To tr), s. split_and!; [done| |done|done].
  eapply rtc_r; [exact Hl|]. by exists tr.
Qed.

Lemma reached_step x y : reached x → shown x y → reached y.
Proof using Hnd Hlen.
  intros Hx Hs.
  assert (∀ nm s, is_node g nm → stops s → x = nid nm +:+ s → leads_to g (entryPoint g) nm) as Hsrc.
  { intros nm s Hn Hst ->. destruct Hx as [H|[[H _]|(nm' & s' & Hn' & Hl & Hs' & H)]];
      [by apply nid_start in H|by apply nid_start in H|]. by destruct (nid_inj nm nm' s s' Hn Hn' Hst Hs' H) as [-> _]. }
  assert (∀ nm, is_node g nm → x = nid nm → leads_to g (entryPoint g) nm) as Hsrc0
    by (intros nm Hn ->; apply (Hsrc nm EmptyString); [done|done|by rewrite sapp_nil_r]).
  assert (∀ nm s, is_node g nm → leads_to g (entryPoint g) nm → stops s → reached (nid nm +:+ s)) as Hto
    by (intros nm s H1 H2 H3; right; right; by exists nm, s).
  inversion Hs as [nm Hn Hf|tr Ht Ha H1 H2|nm suffix to lb Hn Harm|nm suffix to lb Hn Harm Hto'|He|tr Ht Ha H1 He|nm suffix lb Hn Harm]; subst.
  - rewrite <- (sapp_nil_r (nid nm)). apply Hto; [done|by apply (Hsrc nm "_reduce")|done].
  - apply reached_entry; [done|done|done|by apply Hsrc0].
  - apply Hto; [done|by apply Hsrc0|by apply has_arm_stops in Harm].
  - destruct (has_arm_edge _ _ _ _ Harm) as (tr & Ht & <- & <-). apply reached_entry; [done|done|done|].
    apply (Hsrc _ suffix); [done|by apply has_arm_stops in Harm|done].
  - destruct (entry_node_of (entryPoint g)) as (s & Hst & ->). by apply Hto.
  - right. left. split; [done|]. exists tr. split_and!; [done|done|by apply Hsrc0].
  - destruct (has_arm_edge _ _ _ _ Harm) as (tr & Ht & <- & Hto'). right. left. split; [done|]. exists tr. split_and!; [done|done|].
    apply (Hsrc _ suffix); [done|by apply has_arm_stops in Harm|done].
Qed.

Context (r : GraphRenderer) (Hparam : linkParam r = param).
Let L := render_lines r g.

Lemma reach_reached x : reach L "_start" x → reached x.
Proof using Hnd Hend Hlen Hparam.
  apply (rtc_ind_r reached "_start"); [by left|]. intros y z _ Hyz IH. apply (reached_step y); [exact IH|]. by apply (arrow_shown r y z).
Qed.

Lemma shown_arrow a b : shown a b → arrow L a b.
Proof using Hnd Hend Hparam. by apply arrow_shown. Qed.

Lemma reach_node nm : is_node g nm → reach L (entry_node nm) (nid nm).
Proof using Hnd Hend Hparam.
  intros Hn. unfold entry_node. destruct (IsFanIn g nm) eqn:Hf; [|done]. apply rtc_once, shown_arrow. by constructor.
Qed.

Lemma reach_arm tr : tr ∈ transitions g → is_arm tr = true → is_node g (tr_From tr) →
  ∃ suffix lb, has_arm (tr_From tr) suffix (tr_To tr) lb ∧ arrow L (nid (tr_From tr)) (nid (tr_From tr) +:+ suffix).
Proof using Hnd Hend Hparam.
  intros Ht Ha Hn. destruct (arms_all g tr Ht Ha) as (lb & Hlb).
  assert (∃ suffix, has_arm (tr_From tr) suffix (tr_To tr) lb) as [suffix H]
    by (destruct Hlb as [Hlb|Hlb]; [exists "_switch"; by left|exists "_when"; by right]).
  exists suffix, lb. split; [done|]. by apply shown_arrow, (sh_into _ suffix (tr_To tr) lb).
Qed.

Lemma reach_edge a b : edge g a b → reach L (nid a) (nid b).
Proof using Hnd Hend Hparam.
  intros (tr & Ht & <- & <- & H1 & H2). destruct (is_arm tr) eqn:Ha.
  - destruct (reach_arm tr Ht Ha H1) as (suffix & lb & Harm & Hinto). eapply rtc_l; [exact Hinto|].
    eapply rtc_l; [|by apply reach_node]. apply shown_arrow. by apply (sh_arm _ suffix _ lb).
  - eapply rtc_l; [|by apply reach_node]. apply shown_arrow. by apply sh_edge.
Qed.

Lemma leads_reach nm : is_node g (entryPoint g) → leads_to g (entryPoint g) nm → reach L "_start" (nid nm).
Proof using Hnd Hend Hparam.
  intros Hn Hl. eapply rtc_l; [by apply shown_arrow, sh_start|]. trans (nid (entryPoint g)); [by apply reach_node|].
  clear Hn. induction Hl as [|a b c Hab _ IH]; [done|]. trans (nid b); [by apply reach_edge|exact IH].
Qed.

Lemma leads_node nm : is_node g (entryPoint g) → leads_to g (entryPoint g) nm → is_node g nm.
Proof using Type. intros Hn Hl. induction Hl as [|a b c (tr & _ & _ & _ & _ & Hb) _ IH]; auto. Qed.
End named.

(** C40. The diagram of a graph shows the graph: with distinct task names its nodes are distinct, a task can be reached from
    the start of the diagram exactly when it can be reached from the entry point, whatever the transitions on the
    way, and the end can be reached exactly when some task so reached has a transition to it. *)
Theorem diagram_shows_the_graph r g : NoDup (Name <$> nodes g) → ¬ is_node g END → Z.of_nat (length (nodes g)) < 2 ^ 63 →
  is_node g (entryPoint g) →
  (∀ a b, is_node g a → is_node g b → nid g a = nid g b → a = b)
  ∧ (∀ nm, is_node g nm → reach (render_lines r g) "_start" (nid g nm) ↔ leads_to g (entryPoint g) nm)
  ∧ (reach (render_lines r g) "_start" "_end" ↔ ∃ tr, tr ∈ transitions g ∧ tr_To tr = END ∧ leads_to g (entryPoint g) (tr_From tr)).
Proof.
  intros Hnd Hend Hlen He. pose proof (reach_reached g (linkParam r) Hnd Hend Hlen r eq_refl) as Hr. split_and!.
  - intros a b Ha Hb Heq. apply (nid_inj g Hnd Hlen a b EmptyString EmptyString Ha Hb I I). by rewrite !sapp_nil_r.
  - intros nm Hn. split; [|by apply (leads_reach g (linkParam r))]. intros [H|[[H _]|(nm' & s & Hn' & Hl & Hs & H)]]%Hr.
    + rewrite <- (sapp_nil_r (nid g nm)) in H. by apply nid_start in H.
    + rewrite <- (sapp_nil_r (nid g nm)) in H. by apply nid_start in H.
    + rewrite <- (sapp_nil_r (nid g nm)) in H. by destruct (nid_inj g Hnd Hlen nm nm' EmptyString s Hn Hn' I Hs H) as [-> _].
  - split.
    + intros [H|[[_ H]|(nm & s & Hn & _ & _ & H)]]%Hr; [done|done|]. symmetry in H. by apply nid_start in H.
    + intros (tr & Ht & Hto & Hl). pose proof (leads_node g _ He Hl) as Hn.
      trans (nid g (tr_From tr)); [by apply (leads_reach g (linkParam r))|]. destruct (is_arm tr) eqn:Ha.
      * destruct (reach_arm g (linkParam r) Hnd Hend r eq_refl tr Ht Ha Hn) as (suffix & lb & Harm & Hinto). eapply rtc_l; [exact Hinto|].
        apply rtc_once, (shown_arrow g (linkParam r)); [done..|]. rewrite Hto in Harm. by apply (sh_arm_end g _ suffix lb).
      * apply rtc_once, (shown_arrow g (linkParam r)); [done..|]. by apply sh_end.
Qed.

(** A switch of two arms into a fan-in, one of them through another task. *)
Definition sample_graph : Graph :=
  AddTransitionSwitch "a" "b" "x>1" $ AddTransitionSwitch "a" "c" "true" $ SetFanIn "c" $ AddTransition "b" "c" $ AddTransition "c" END $
  SetEndpoint "a" "https://h/a" $ NewGraph "G".
Lemma diagram_shows_the_graph_witness :
  let L := render_lines (NewGraphRenderer (Some sample_graph)) sample_graph in
  reach L "_start" (nid sample_graph "b") ∧ nid sample_graph "b" = "t2" ∧ reach L "_start" "_end".
Proof.
  destruct (diagram_shows_the_graph (NewGraphRenderer (Some sample_graph)) sample_graph) as (_ & H1 & H2);
    [apply (bool_decide_unpack _); by vm_compute|intros H; apply (bool_decide_pack _) in H; by vm_compute in H|by vm_compute
    |apply (bool_decide_unpack _); by vm_compute|].
  split_and!.
  - apply H1; [apply (bool_decide_unpack _); by vm_compute|]. apply rtc_once.
    exists (mkTransition "a" "b" "x>1" false "" "" false true). split_and!; try done; apply (bool_decide_unpack _); by vm_compute.
  - by vm_compute.
  - apply H2. exists (mkTransition "c" END "" false "" "" false false). split_and!; [apply (bool_decide_unpack _); by vm_compute|done|].
    apply rtc_once. exists (mkTransition "a" "c" "true" false "" "" false true). split_and!; try done; apply (bool_decide_unpack _); by vm_compute.
Defined.
