(* ===== verification/StepRow.v ===== *)
(** * A step row and the statements that write it

    The lifecycle columns of [dwarf_steps] and, as one function each, the [UPDATE] statements of
    [engine/execution.go], [engine/persist.go], [engine/completion.go], [engine/operations.go] and
    [engine/wedge.go] that change them.  [None] is a statement whose [WHERE] matches no row.

    Times are milliseconds of the database's clock ([NOW_UTC()]), which is one clock for all
    replicas and does not run backwards. *)

From S2P Require Import Prelude State.

#[local] Open Scope Z_scope.

(** [workflow/status.go]. *)
Inductive status_t :=
| StatusCreated | StatusPending | StatusRunning | StatusInterrupted
| StatusCompleted | StatusFailed | StatusTerminated | StatusCancelled.

#[export] Instance status_t_eq_dec : EqDecision status_t.
Proof. solve_decision. Defined.

Definition TerminalStatuses : list status_t :=
  [StatusCompleted; StatusFailed; StatusTerminated; StatusCancelled].
Definition terminal (st : status_t) : bool := bool_decide (st ∈ TerminalStatuses).

(** The [parked] column. *)
Inductive park := parkedNone | parkedSubgraph.
#[export] Instance park_eq_dec : EqDecision park.
Proof. solve_decision. Defined.

Record row := mkRow {
  r_status : status_t;
  r_parked : park;
  r_attempt : Z;
  r_not_before : Z;
  r_lease_expires : Z;
  r_lease_seq : Z;
  r_time_budget_ms : Z;
  r_started_at : Z;
  r_updated_at : Z;
  r_interrupt_done : bool;
  r_subgraph_done : bool;
  r_cancelling : bool;
  r_changes : State;
  r_resume_data : State;
  r_subgraph_result : State;
  r_subgraph_error : string;
  r_interrupt_payload : State;
  r_error : string
}.

(** ** Column updates *)

Definition set_status (st : status_t) (r : row) : row :=
  mkRow st (r_parked r) (r_attempt r) (r_not_before r) (r_lease_expires r) (r_lease_seq r)
    (r_time_budget_ms r) (r_started_at r) (r_updated_at r) (r_interrupt_done r) (r_subgraph_done r)
    (r_cancelling r) (r_changes r) (r_resume_data r) (r_subgraph_result r) (r_subgraph_error r)
    (r_interrupt_payload r) (r_error r).
Definition set_parked (p : park) (r : row) : row :=
  mkRow (r_status r) p (r_attempt r) (r_not_before r) (r_lease_expires r) (r_lease_seq r)
    (r_time_budget_ms r) (r_started_at r) (r_updated_at r) (r_interrupt_done r) (r_subgraph_done r)
    (r_cancelling r) (r_changes r) (r_resume_data r) (r_subgraph_result r) (r_subgraph_error r)
    (r_interrupt_payload r) (r_error r).
Definition set_schedule (attempt not_before : Z) (r : row) : row :=
  mkRow (r_status r) (r_parked r) attempt not_before (r_lease_expires r) (r_lease_seq r)
    (r_time_budget_ms r) (r_started_at r) (r_updated_at r) (r_interrupt_done r) (r_subgraph_done r)
    (r_cancelling r) (r_changes r) (r_resume_data r) (r_subgraph_result r) (r_subgraph_error r)
    (r_interrupt_payload r) (r_error r).
Definition set_expires (e : Z) (r : row) : row :=
  mkRow (r_status r) (r_parked r) (r_attempt r) (r_not_before r) e (r_lease_seq r)
    (r_time_budget_ms r) (r_started_at r) (r_updated_at r) (r_interrupt_done r) (r_subgraph_done r)
    (r_cancelling r) (r_changes r) (r_resume_data r) (r_subgraph_result r) (r_subgraph_error r)
    (r_interrupt_payload r) (r_error r).
Definition set_claimed (seq started : Z) (r : row) : row :=
  mkRow (r_status r) (r_parked r) (r_attempt r) (r_not_before r) (r_lease_expires r) seq
    (r_time_budget_ms r) started (r_updated_at r) (r_interrupt_done r) (r_subgraph_done r)
    (r_cancelling r) (r_changes r) (r_resume_data r) (r_subgraph_result r) (r_subgraph_error r)
    (r_interrupt_payload r) (r_error r).
Definition set_updated (now : Z) (r : row) : row :=
  mkRow (r_status r) (r_parked r) (r_attempt r) (r_not_before r) (r_lease_expires r) (r_lease_seq r)
    (r_time_budget_ms r) (r_started_at r) now (r_interrupt_done r) (r_subgraph_done r)
    (r_cancelling r) (r_changes r) (r_resume_data r) (r_subgraph_result r) (r_subgraph_error r)
    (r_interrupt_payload r) (r_error r).
Definition set_cancelling (r : row) : row :=
  mkRow (r_status r) (r_parked r) (r_attempt r) (r_not_before r) (r_lease_expires r) (r_lease_seq r)
    (r_time_budget_ms r) (r_started_at r) (r_updated_at r) (r_interrupt_done r) (r_subgraph_done r)
    true (r_changes r) (r_resume_data r) (r_subgraph_result r) (r_subgraph_error r)
    (r_interrupt_payload r) (r_error r).
Definition set_changes (c : State) (r : row) : row :=
  mkRow (r_status r) (r_parked r) (r_attempt r) (r_not_before r) (r_lease_expires r) (r_lease_seq r)
    (r_time_budget_ms r) (r_started_at r) (r_updated_at r) (r_interrupt_done r) (r_subgraph_done r)
    (r_cancelling r) c (r_resume_data r) (r_subgraph_result r) (r_subgraph_error r)
    (r_interrupt_payload r) (r_error r).
(** The interrupt park's slot: resolved or not, and the data it was resolved with. *)
Definition set_interrupt (done : bool) (data : State) (r : row) : row :=
  mkRow (r_status r) (r_parked r) (r_attempt r) (r_not_before r) (r_lease_expires r) (r_lease_seq r)
    (r_time_budget_ms r) (r_started_at r) (r_updated_at r) done (r_subgraph_done r)
    (r_cancelling r) (r_changes r) data (r_subgraph_result r) (r_subgraph_error r)
    (r_interrupt_payload r) (r_error r).
(** The subgraph park's slot: resolved or not, with what result or error. *)
Definition set_subgraph (done : bool) (res : State) (err : string) (r : row) : row :=
  mkRow (r_status r) (r_parked r) (r_attempt r) (r_not_before r) (r_lease_expires r) (r_lease_seq r)
    (r_time_budget_ms r) (r_started_at r) (r_updated_at r) (r_interrupt_done r) done
    (r_cancelling r) (r_changes r) (r_resume_data r) res err (r_interrupt_payload r) (r_error r).
Definition set_payload (p : State) (r : row) : row :=
  mkRow (r_status r) (r_parked r) (r_attempt r) (r_not_before r) (r_lease_expires r) (r_lease_seq r)
    (r_time_budget_ms r) (r_started_at r) (r_updated_at r) (r_interrupt_done r) (r_subgraph_done r)
    (r_cancelling r) (r_changes r) (r_resume_data r) (r_subgraph_result r) (r_subgraph_error r) p (r_error r).
Definition set_error (e : string) (r : row) : row :=
  mkRow (r_status r) (r_parked r) (r_attempt r) (r_not_before r) (r_lease_expires r) (r_lease_seq r)
    (r_time_budget_ms r) (r_started_at r) (r_updated_at r) (r_interrupt_done r) (r_subgraph_done r)
    (r_cancelling r) (r_changes r) (r_resume_data r) (r_subgraph_result r) (r_subgraph_error r)
    (r_interrupt_payload r) e.

(** [UPDATE ... SET f WHERE p]. *)
Definition update_where (p : bool) (f : row → row) (r : row) : option row :=
  if p then Some (f r) else None.

Definition in_status (l : list status_t) (r : row) : bool := bool_decide (r_status r ∈ l).
Definition holds_lease (seq : Z) (r : row) : bool := bool_decide (r_lease_seq r = seq).

(** ** The dispatch's statements *)

Section statements.
Context (now : Z).

(** A step a worker may claim. *)
Definition claimable (r : row) : bool :=
  in_status [StatusPending] r && bool_decide (r_parked r = parkedNone)
  && bool_decide (r_not_before r ≤ now) && bool_decide (r_lease_expires r ≤ now).

(** The claim CAS. *)
Definition claim (leaseMarginMs : Z) (r : row) : option row :=
  update_where (claimable r)
    (λ r, set_updated now
            (set_claimed (r_lease_seq r + 1)
               (if bool_decide (0 < r_attempt r) || r_subgraph_done r || r_interrupt_done r
                then r_started_at r else now)
            (set_expires (now + (r_time_budget_ms r + leaseMarginMs)) (set_status StatusRunning r)))) r.

(** The claimed step of a flow that has already stopped takes the flow's status, unfenced. *)
Definition reap_step (flowStatus : status_t) (r : row) : row :=
  set_updated now (set_expires now (set_parked parkedNone (set_status flowStatus r))).

(** The subgraph caller's park. *)
Definition park_caller (changes : State) (leaseSeq : Z) (r : row) : option row :=
  update_where (in_status [StatusRunning] r && holds_lease leaseSeq r)
    (λ r, set_updated now (set_parked parkedSubgraph (set_changes changes r))) r.

(** The retry's rewind in place. *)
Definition rewind (changes : State) (attempt retrySleepMs leaseSeq : Z) (r : row) : option row :=
  update_where (in_status [StatusRunning] r && holds_lease leaseSeq r)
    (λ r, set_subgraph false ∅ "" (set_interrupt false ∅ (set_updated now
            (set_expires now (set_schedule (attempt + 1) (now + retrySleepMs)
               (set_changes changes (set_status StatusPending r))))))) r.

(** The completion write; the row it returns carries the Cancel mark the caller reads back. *)
Definition complete (changes : State) (leaseSeq : Z) (r : row) : option row :=
  update_where (negb (in_status [StatusTerminated; StatusCancelled] r) && holds_lease leaseSeq r)
    (λ r, set_updated now (set_changes changes (set_status StatusCompleted r))) r.

(** The extra write that records a cancellation routed to its handler. *)
Definition write_onErr (changes : State) (leaseSeq : Z) (r : row) : option row :=
  update_where (holds_lease leaseSeq r) (set_changes changes) r.

(** [failStep]'s write on the step. *)
Definition fail_row (cancelled : bool) (msg : string) (leaseSeq : Z) (r : row) : option row :=
  update_where (in_status [StatusRunning; StatusCompleted] r && holds_lease leaseSeq r)
    (λ r, set_updated now (set_error msg (set_parked parkedNone
            (set_status (if cancelled then StatusCancelled else StatusFailed) r)))) r.

(** [handleInterrupt]'s chain write on one row of the chain; [leaf] carries the leaf's changes. *)
Definition interrupt_row (leaf : option State) (r : row) : option row :=
  update_where (in_status [StatusRunning; StatusInterrupted] r)
    (λ r, set_updated now (set_expires now (set_parked parkedNone (set_status StatusInterrupted
            (match leaf with
             | Some changes => set_interrupt true (r_resume_data r) (set_changes changes r)
             | None => r
             end))))) r.

(** The payload goes to chain rows that have none yet. *)
Definition payload_row (payload : State) (r : row) : row :=
  if bool_decide (payload ≠ ∅) && bool_decide (r_interrupt_payload r = ∅) then set_payload payload r else r.

(** What [handleInterrupt] leaves on its own row when it commits: the chain write moved the leaf, and
    the lease is still ours.  Otherwise the transaction rolls back. *)
Definition interrupt_leaf (changes payload : State) (leaseSeq : Z) (r : row) : option row :=
  r' ← interrupt_row (Some changes) r;
  if holds_lease leaseSeq r' && in_status [StatusInterrupted] r' then Some (payload_row payload r') else None.

(** The recovery defer's reset; a lease generation of 0 was never captured and is not compared. *)
Definition recovery_reset (fromStatus : status_t) (leaseSeq : Z) (r : row) : option row :=
  update_where (in_status [fromStatus] r && (bool_decide (leaseSeq ≤ 0) || holds_lease leaseSeq r))
    (λ r, set_updated now (set_expires now (set_status StatusPending r))) r.

Definition persistLeaseExtensionMs : Z := 30000.

(** [persist]'s lease extension and [releaseLease]. *)
Definition extend_lease (leaseSeq : Z) (r : row) : option row :=
  update_where (holds_lease leaseSeq r && in_status [StatusRunning; StatusCompleted] r)
    (set_expires (now + persistLeaseExtensionMs)) r.
Definition release_lease (leaseSeq : Z) (r : row) : option row :=
  update_where (holds_lease leaseSeq r && in_status [StatusRunning; StatusCompleted] r)
    (λ r, set_updated now (set_expires now (set_status StatusPending r))) r.

(** ** Everyone else's statements *)

(** [recoverExpiredLeases]. *)
Definition recover_expired (r : row) : option row :=
  update_where (in_status [StatusRunning] r && bool_decide (r_parked r = parkedNone)
                && bool_decide (r_lease_expires r ≤ now))
    (λ r, set_updated now (set_status StatusPending r)) r.

(** [terminateSubtree]. *)
Definition terminate_row (r : row) : option row :=
  update_where (in_status [StatusCreated; StatusPending; StatusInterrupted; StatusRunning] r)
    (λ r, set_updated now (set_parked parkedNone (set_status StatusTerminated r))) r.

(** [cancel]'s mark; the watermark comparison is its caller's. *)
Definition mark_row (r : row) : option row :=
  update_where (in_status [StatusPending; StatusRunning; StatusInterrupted] r) set_cancelling r.

(** [resume]: the payload is cleared on the whole chain, the callers park again, the leaf is re-armed. *)
Definition clear_payload (r : row) : row := set_payload ∅ r.
Definition resume_caller (r : row) : option row :=
  update_where (in_status [StatusInterrupted] r)
    (λ r, set_updated now (set_parked parkedSubgraph (set_status StatusRunning r))) r.
Definition resume_leaf (data : State) (r : row) : option row :=
  update_where (in_status [StatusInterrupted] r)
    (λ r, set_updated now (set_expires now (set_interrupt (r_interrupt_done r) data (set_status StatusPending r)))) r.

(** [completeSurgraphFlow] and [deliverFlowFailureToParent]: a parked caller whose child has stopped. *)
Definition parked_caller (r : row) : bool :=
  in_status [StatusRunning] r && bool_decide (r_parked r = parkedSubgraph).
Definition revive_result (res : State) (r : row) : option row :=
  update_where (parked_caller r)
    (λ r, set_updated now (set_expires now (set_subgraph true res (r_subgraph_error r)
            (set_parked parkedNone (set_status StatusPending r))))) r.
Definition revive_error (err : string) (r : row) : option row :=
  update_where (parked_caller r)
    (λ r, set_updated now (set_expires now (set_subgraph true (r_subgraph_result r) err
            (set_parked parkedNone (set_status StatusPending r))))) r.
End statements.

Lemma update_where_Some p f r r' : update_where p f r = Some r' ↔ p = true ∧ r' = f r.
Proof. unfold update_where. destruct p; naive_solver. Qed.
