(* ===== verification/Dispatch.v ===== *)
(** * One step, its dispatches, and everyone else ([engine/execution.go], [engine/persist.go])

    [processStep] as a machine: a worker's program counter is the statement it is about to run, and
    every statement is one step that succeeds, fails on lock contention or fails otherwise.  Any
    number of workers work the same step row at once, next to the sweep that recovers expired leases
    and to Terminate, Cancel, Resume, and the step's subgraph child.  [exec] is that system, one step
    at a time: the label says who moves and what the database, the task or the drain answered.

    A statement that fails applied nothing.  Reads that decide nothing here (the parse of the graph,
    the resolution of references), metrics, turns and doorbells are left out; which transition a
    completed step takes is [Routing.route]'s and comes with the label, as does whether the write
    also stops the flow, which is [Cohort]'s to say. *)

From S2P Require Import Prelude Float64 Routing Reducers State Flow StepRow.

#[local] Open Scope Z_scope.

(** ** What a finished task asks for *)

(** The host's answer: the flow as the task left it, or an error - its cancellation marker, its
    message and its stackless JSON. *)
Inductive exec_result := ExecOk (f : Flow) | ExecErr (cancelled : bool) (msg : string) (onErr : raw).

Inductive disposition :=
| DispFail (cancelled : bool) (msg : string)
| DispInterrupt (changes payload : State)
| DispSubgraph (changes : State)
| DispRetry (changes : State) (retrySleepMs : Z)
| DispComplete (changes : State) (errorRouted : bool).

Definition bool_count (l : list bool) : nat := length (filter (λ b, b = true) l).
Definition some_true {A} (o : option A) : bool := match o with Some _ => true | None => false end.

Definition signalCount (f : Flow) : nat :=
  bool_count [some_true (InterruptRequested f); some_true (RetryRequested f);
              negb (bool_decide (GotoRequested f = "")); some_true (SubgraphRequested f)].

(** The changes accumulated over the attempts. *)
Definition accumulatedChanges (raws priorChanges : State) : State :=
  if bool_decide (size raws = 0%nat) then priorChanges else Merge raws priorChanges.

(** Nanoseconds to whole milliseconds, [Duration.Milliseconds]. *)
Definition Milliseconds (d : Z) : Z := Z.quot d 1000000.

Definition retrySleepMs (overflow : float64 → Z) (sleepDur initialDelay : Z) (multiplier : float64)
    (maxDelay attempt : Z) : Z :=
  Milliseconds sleepDur + Milliseconds (to_int64 overflow (backoff_delay initialDelay multiplier maxDelay attempt)).

(** The disposition of a dispatch, in the order the code checks the signals. *)
Definition dispose (overflow : float64 → Z) (hasErrorTransition : bool) (attempt : Z)
    (interruptDone subgraphDone : bool) (priorChanges : State) (res : exec_result) : disposition :=
  match res with
  | ExecErr cancelled msg onErr =>
      if hasErrorTransition then DispComplete (accumulatedChanges {["onErr" := onErr]} priorChanges) true
      else DispFail cancelled msg
  | ExecOk f =>
      let changes := accumulatedChanges (fl_changes f) priorChanges in
      if bool_decide (1 < signalCount f)%nat then DispFail false "multiple competing control signals"
      else if (some_true (InterruptRequested f) || some_true (SubgraphRequested f)) && (interruptDone || subgraphDone)
      then DispFail false "armed a second park on an already-resolved step"
      else match InterruptRequested f with
           | Some payload => DispInterrupt changes payload
           | None =>
               match SubgraphRequested f with
               | Some _ => DispSubgraph changes
               | None =>
                   match RetryRequested f with
                   | Some (initialDelay, multiplier, maxDelay) =>
                       DispRetry changes
                         (retrySleepMs overflow (SleepRequested f) initialDelay multiplier maxDelay attempt)
                   | None => DispComplete changes false
                   end
               end
           end
  end.

(** How the completed step moves the flow on. *)
Inductive next :=
| NextFail (msg : string)
| NextCompleteFlow
| NextFanInDirect
| NextAdvance (pureArrival : bool).

Definition next_of {item} (d : decision item) : next :=
  match d with
  | DFail _ => NextFail "no transition"
  | DComplete => NextCompleteFlow
  | DFanInDirect _ => NextFanInDirect
  | DAdvance push nexts _ arrivals _ =>
      NextAdvance (bool_decide (0 < arrivals)%nat && bool_decide (length nexts = 0%nat) && negb push)
  end.

(** ** Workers *)

(** What the claim CAS returned; [w_expires] is the lease it was granted, the workers' ghost. *)
Record worker := mkWorker {
  w_seq : Z;
  w_attempt : Z;
  w_interruptDone : bool;
  w_subgraphDone : bool;
  w_cancelling : bool;
  w_changes : State;
  w_expires : Z
}.

(** A database call that did not succeed. *)
Inductive db_error := Contention | OtherError.
Abbreviation db := (option db_error).

(** Where [persist] is in its ladder; the numbers are the backoffs left. *)
Inductive pos := PFirst | PExtend | PWait (n : nat) | PAgain (n : nat) | PRelease.

(** The two writes that go through [persist]: the completion and the transition. *)
Inductive outcome_write := WComplete (changes : State) (errorRouted : bool) | WTransition (nx : next).

Inductive pc :=
| PcReadFlow
| PcReap (flowStatus : status_t)
| PcExec
| PcInterrupt (changes payload : State)
| PcPark (changes : State)
| PcChild
| PcRewind (changes : State) (retrySleepMs : Z)
| PcPersist (p : pos) (w : outcome_write)
| PcReason (changes : State)
| PcOnErr (changes : State)
| PcDecide
| PcFail (cancelled : bool) (msg : string) (taskErr : db_error) (classify marked : bool)
| PcRecover (fromStatus : status_t)
| PcDone.

(** [stepMarkedComplete]. *)
Definition is_marked (w : outcome_write) : bool := match w with WTransition _ => true | _ => false end.

(** The recovery defer on an error return. *)
Definition exit_err (marked : bool) (err : db_error) : pc :=
  if marked then PcRecover StatusCompleted
  else match err with Contention => PcRecover StatusRunning | OtherError => PcDone end.

(** [failAndReturn]: the step is failed with this error. *)
Definition fail_and_return (cancelled : bool) (msg : string) (err : db_error) (marked : bool) : pc :=
  PcFail cancelled msg err false marked.

(** [persist]'s ladder ends in the classifier, [failOnPersistError]. *)
Definition ladder (n : nat) (w : outcome_write) : pc :=
  match n with
  | O => PcFail false "write failed" OtherError true (is_marked w)
  | S _ => PcPersist (PWait n) w
  end.

Inductive effect := OPark | ORetry | OInterrupt | OComplete | OFail | OProgress.
Inductive event := EvClaim (d : nat) (seq : Z) | EvRun (d : nat) (seq : Z) | EvEffect (d : nat) (seq : Z) (e : effect).

Record sys := mkSys {
  now : Z;
  the_row : row;
  flow_st : status_t;
  workers : gmap nat (worker * pc);
  log : list event
}.

Definition set_row (r : row) (s : sys) : sys := mkSys (now s) r (flow_st s) (workers s) (log s).
Definition set_pc (d : nat) (w : worker) (p : pc) (s : sys) : sys :=
  mkSys (now s) (the_row s) (flow_st s) (<[d := (w, p)]> (workers s)) (log s).
Definition add_event (e : event) (s : sys) : sys :=
  mkSys (now s) (the_row s) (flow_st s) (workers s) (log s ++ [e]).
(** A flow that has stopped stays as it is. *)
Definition set_flow (st : status_t) (s : sys) : sys :=
  mkSys (now s) (the_row s) (if terminal (flow_st s) then flow_st s else st) (workers s) (log s).
Definition stop_flow (stops : option status_t) (s : sys) : sys :=
  match stops with Some st => set_flow st s | None => s end.

Section dispatch.
Context (leaseMarginMs : Z) (persistBackoff : nat) (hasErrorTransition : bool) (overflow : float64 → Z).

(** The effect of a statement fenced on the worker's lease: abandon when it matched no row. *)
Definition fenced (d : nat) (w : worker) (r : option row) (e : effect) (p : row → pc) (s : sys) : sys :=
  match r with
  | None => set_pc d w PcDone s
  | Some r => add_event (EvEffect d (w_seq w) e) (set_pc d w (p r) (set_row r s))
  end.

(** A successful write of the outcome. *)
Definition outcome_ok (d : nat) (w : worker) (o : outcome_write) (stops : option status_t) (s : sys) : sys :=
  match o with
  | WComplete changes errorRouted =>
      fenced d w (complete (now s) changes (w_seq w) (the_row s)) OComplete
        (λ r, if r_cancelling r && negb errorRouted then PcReason changes else PcDecide) s
  | WTransition nx =>
      let pure := match nx with NextAdvance b => b | _ => false end in
      if terminal (flow_st s) && negb pure then set_pc d w PcDone s
      else
        let s := match nx with
                 | NextCompleteFlow => set_flow StatusCompleted s
                 | _ => stop_flow stops s
                 end in
        add_event (EvEffect d (w_seq w) OProgress) (set_pc d w PcDone s)
  end.

(** A failed write of the outcome, at rung [n] of the ladder. *)
Definition outcome_err (d : nat) (w : worker) (o : outcome_write) (next_pc : pc) (err : db_error) (s : sys) : sys :=
  match err with
  | Contention => set_pc d w (exit_err (is_marked o) Contention) s
  | OtherError => set_pc d w next_pc s
  end.

(** One database call of worker [d]; [stops] says whether the same transaction stops the flow. *)
Definition db_step (d : nat) (w : worker) (p : pc) (res : db) (stops : option status_t) (s : sys) : option sys :=
  let seq := w_seq w in
  let row := the_row s in
  let t := now s in
  match p, res with
  | PcReadFlow, None => Some (set_pc d w (if terminal (flow_st s) then PcReap (flow_st s) else PcExec) s)
  | PcReadFlow, Some err => Some (set_pc d w (exit_err false err) s)
  | PcReap st, None => Some (set_pc d w PcDone (set_row (reap_step t st row) s))
  | PcReap _, Some err => Some (set_pc d w (exit_err false err) s)
  | PcInterrupt changes payload, None =>
      Some (match interrupt_leaf t changes payload seq row with
            | None => set_pc d w PcDone s
            | Some r => set_flow StatusInterrupted
                          (add_event (EvEffect d seq OInterrupt) (set_pc d w PcDone (set_row r s)))
            end)
  | PcInterrupt _ _, Some err => Some (set_pc d w (exit_err false err) s)
  | PcPark changes, None =>
      Some (fenced d w (park_caller t changes seq row) OPark (λ _, PcChild) s)
  | PcPark _, Some err => Some (set_pc d w (fail_and_return false "park" err false) s)
  | PcChild, None => Some (set_pc d w PcDone s)
  | PcChild, Some err => Some (set_pc d w (fail_and_return false "create subgraph" err false) s)
  | PcRewind changes sleep, None =>
      Some (fenced d w (rewind t changes (w_attempt w) sleep seq row) ORetry (λ _, PcDone) s)
  | PcRewind _ _, Some err => Some (set_pc d w (fail_and_return false "retry" err false) s)
  | PcPersist PFirst o, None | PcPersist (PAgain _) o, None => Some (outcome_ok d w o stops s)
  | PcPersist PFirst o, Some err => Some (outcome_err d w o (PcPersist PExtend o) err s)
  | PcPersist (PAgain n) o, Some err => Some (outcome_err d w o (ladder (pred n) o) err s)
  | PcPersist PExtend o, None =>
      Some (match extend_lease t seq row with
            | None => set_pc d w PcDone s
            | Some r => set_pc d w (ladder persistBackoff o) (set_row r s)
            end)
  | PcPersist PExtend o, Some _ => Some (set_pc d w (ladder persistBackoff o) s)
  | PcPersist PRelease _, None =>
      Some (set_pc d w PcDone (set_row (default row (release_lease t seq row)) s))
  | PcPersist PRelease _, Some _ => Some (set_pc d w PcDone s)
  | PcPersist (PWait _) _, _ => None
  | PcReason changes, None =>
      Some (set_pc d w (if hasErrorTransition then PcOnErr changes
                        else fail_and_return true "flow cancelled" OtherError true) s)
  | PcReason _, Some err => Some (set_pc d w (exit_err true err) s)
  | PcOnErr changes, None =>
      Some (set_pc d w PcDecide (set_row (default row (write_onErr changes seq row)) s))
  | PcOnErr _, Some err => Some (set_pc d w (exit_err true err) s)
  | PcFail cancelled msg taskErr classify marked, None =>
      Some (match fail_row t cancelled msg seq row with
            | None => set_pc d w PcDone s
            | Some r =>
                stop_flow stops (add_event (EvEffect d seq OFail)
                  (set_pc d w (if classify then PcDone else exit_err marked taskErr) (set_row r s)))
            end)
  | PcFail _ _ _ classify marked, Some err =>
      Some (set_pc d w (exit_err marked (if classify then OtherError else err)) s)
  | PcRecover from, None =>
      Some (set_pc d w PcDone (set_row (default row (recovery_reset t from seq row)) s))
  | PcRecover _, Some _ => Some (set_pc d w PcDone s)
  | PcExec, _ | PcDecide, _ | PcDone, _ => None
  end.

(** The task has returned (or, marked by Cancel before it started, was never run). *)
Definition run_step (d : nat) (w : worker) (res : exec_result) (loaded : bool) (s : sys) : sys :=
  let preempted := w_cancelling w && negb (w_subgraphDone w) in
  let res := if preempted
             then ExecErr true "flow cancelled" match res with ExecErr _ _ e => e | _ => tombstone end
             else res in
  let s := if preempted then s else add_event (EvRun d (w_seq w)) s in
  let p := match dispose overflow hasErrorTransition (w_attempt w) (w_interruptDone w) (w_subgraphDone w)
                   (w_changes w) res with
           | DispFail cancelled msg => fail_and_return cancelled msg OtherError false
           | DispInterrupt changes payload => PcInterrupt changes payload
           | DispSubgraph changes =>
               if loaded then PcPark changes else fail_and_return false "load graph" OtherError false
           | DispRetry changes sleep => PcRewind changes sleep
           | DispComplete changes errorRouted => PcPersist PFirst (WComplete changes errorRouted)
           end in
  set_pc d w p s.

(** ** The system *)

Inductive label :=
| LTick (dt : Z)
| LClaim (d : nat)
| LClaimErr (d : nat) (applied : bool) (err : db_error)
| LRun (d : nat) (res : exec_result) (loaded : bool)
| LDecide (d : nat) (nx : next)
| LDb (d : nat) (res : db) (stops : option status_t)
| LReviveLost (d : nat) (err : db_error)
| LWaited (d : nat) (drained : bool)
| LSweep
| LTerminate
| LMark
| LChainInterrupt
| LChainResume
| LResume (data : State)
| LReviveResult (res : State)
| LReviveError (err : string)
| LFlow (st : status_t).

Definition idle (d : nat) (s : sys) : bool :=
  match workers s !! d with None | Some (_, PcDone) => true | _ => false end.

(** What the claim's [RETURNING] hands the worker. *)
Definition claimed_worker (r : row) : worker :=
  mkWorker (r_lease_seq r) (r_attempt r) (r_interrupt_done r) (r_subgraph_done r) (r_cancelling r)
    (r_changes r) (r_lease_expires r).
(** A dispatch that failed before it captured its lease generation. *)
Definition uncaptured : worker := mkWorker 0 0 false false false ∅ 0.

Definition env_row (r : option row) (s : sys) : option sys := r' ← r; Some (set_row r' s).

Definition exec (s : sys) (l : label) : option sys :=
  match l with
  | LTick dt =>
      if bool_decide (0 ≤ dt) then Some (mkSys (now s + dt) (the_row s) (flow_st s) (workers s) (log s)) else None
  | LClaim d =>
      if idle d s then
        Some (match claim (now s) leaseMarginMs (the_row s) with
              | None => s
              | Some r => add_event (EvClaim d (r_lease_seq r)) (set_pc d (claimed_worker r) PcReadFlow (set_row r s))
              end)
      else None
  | LClaimErr d applied err =>
      if idle d s then
        let s := match claim (now s) leaseMarginMs (the_row s) with
                 | Some r => if applied then add_event (EvClaim d (r_lease_seq r)) (set_row r s) else s
                 | None => s
                 end in
        Some (set_pc d uncaptured (exit_err false err) s)
      else None
  | LRun d res loaded =>
      match workers s !! d with Some (w, PcExec) => Some (run_step d w res loaded s) | _ => None end
  | LDecide d nx =>
      match workers s !! d with
      | Some (w, PcDecide) =>
          Some (set_pc d w match nx with
                           | NextFail msg => fail_and_return false msg OtherError true
                           | _ => PcPersist PFirst (WTransition nx)
                           end s)
      | _ => None
      end
  | LDb d res stops =>
      match workers s !! d with Some (w, p) => db_step d w p res stops s | None => None end
  | LReviveLost d err =>
      match workers s !! d with
      | Some (w, PcPersist p (WTransition NextCompleteFlow)) =>
          match p with
          | PFirst => Some (outcome_err d w (WTransition NextCompleteFlow) (PcPersist PExtend (WTransition NextCompleteFlow)) err
                              (if terminal (flow_st s) then s
                               else add_event (EvEffect d (w_seq w) OProgress) (set_flow StatusCompleted s)))
          | PAgain n => Some (outcome_err d w (WTransition NextCompleteFlow) (ladder (pred n) (WTransition NextCompleteFlow)) err
                              (if terminal (flow_st s) then s
                               else add_event (EvEffect d (w_seq w) OProgress) (set_flow StatusCompleted s)))
          | _ => None
          end
      | _ => None
      end
  | LWaited d drained =>
      match workers s !! d with
      | Some (w, PcPersist (PWait n) o) => Some (set_pc d w (PcPersist (if drained then PRelease else PAgain n) o) s)
      | _ => None
      end
  | LSweep => env_row (recover_expired (now s) (the_row s)) s
  | LTerminate =>
      Some (set_flow StatusTerminated (set_row (default (the_row s) (terminate_row (now s) (the_row s))) s))
  | LMark => env_row (mark_row (the_row s)) s
  | LChainInterrupt => env_row (interrupt_row (now s) None (the_row s)) s
  | LChainResume => env_row (resume_caller (now s) (clear_payload (the_row s))) s
  | LResume data => env_row (resume_leaf (now s) data (clear_payload (the_row s))) s
  | LReviveResult res => env_row (revive_result (now s) res (the_row s)) s
  | LReviveError err => env_row (revive_error (now s) err (the_row s)) s
  | LFlow st => Some (set_flow st s)
  end.

(** A run of the labels, and reachability along labels of some class. *)
Fixpoint run (ls : list label) (s : sys) : option sys :=
  match ls with [] => Some s | l :: ls => s' ← exec s l; run ls s' end.

Inductive reach (ok : sys → label → Prop) (s0 : sys) : sys → Prop :=
| reach_refl : reach ok s0 s0
| reach_step s l s' : reach ok s0 s → ok s l → exec s l = Some s' → reach ok s0 s'.
End dispatch.
