(* ===== verification/LeaseInv.v ===== *)
(** * Lease fencing: what any interleaving of dispatches does to a step

    The invariants of the system of [Dispatch]: each lease generation is granted once and its task
    runs at most once, a worker whose lease was re-granted writes nothing, a step moves its flow on
    at most once, and a dispatch always comes to an end. *)

From S2P Require Import Prelude Float64 Routing Reducers State Flow StepRow Dispatch.

#[local] Open Scope Z_scope.

(** ** The moves of one worker *)

(** The pcs reached after the step was marked completed. *)
Definition marked_pc (p : pc) : bool :=
  match p with
  | PcPersist _ o => is_marked o
  | PcReason _ | PcOnErr _ | PcDecide => true
  | PcFail _ _ _ _ m => m
  | PcRecover from => bool_decide (from = StatusCompleted)
  | _ => false
  end.

Definition active (p : pc) : bool := match p with PcDone => false | _ => true end.

(** The pcs before the task has run. *)
Definition early_pc (p : pc) : bool := match p with PcReadFlow | PcReap _ | PcExec => true | _ => false end.

(** The pcs that write what the task asked for, other than to complete. *)
Definition task_pc (p : pc) : bool :=
  match p with PcInterrupt _ _ | PcPark _ | PcChild | PcRewind _ _ => true | _ => false end.

(** A row whose status and lease generation did not change. *)
Definition same_hold (r r' : row) : Prop := r_status r' = r_status r ∧ r_lease_seq r' = r_lease_seq r.

Definition pure_next (nx : next) : bool := match nx with NextAdvance b => b | _ => false end.

(** One database call of a worker holding [w], by what it does to the row, the flow and the log. *)
Inductive pc_move (w : worker) (d : nat) :
    pc → pc → row → row → status_t → status_t → list event → Prop :=
| mv_abandon p r f : active p = true → pc_move w d p PcDone r r f f []
| mv_exit p err r f :
    active p = true → pc_move w d p (exit_err (marked_pc p) err) r r f f []
| mv_read r f :
    pc_move w d PcReadFlow (if terminal f then PcReap f else PcExec) r r f f []
| mv_reap st r r' f :
    r_status r' = st → r_lease_seq r' = r_lease_seq r → pc_move w d (PcReap st) PcDone r r' f f []
| mv_own p p' r r' f f' e :
    task_pc p = true →
    (p' = PcDone ∨ p' = PcChild) → w_seq w = r_lease_seq r → r_lease_seq r' = r_lease_seq r →
    terminal (r_status r) = false → (f' = f ∨ terminal f = false) → e ≠ OProgress →
    pc_move w d p p' r r' f f' [EvEffect d (w_seq w) e]
| mv_fail_and_return p c msg err r f :
    task_pc p = true → pc_move w d p (fail_and_return c msg err false) r r f f []
| mv_complete p c b p' r r' f :
    (p' = PcDecide ∨ ∃ c, p' = PcReason c) → w_seq w = r_lease_seq r → r_lease_seq r' = r_lease_seq r →
    r_status r' = StatusCompleted →
    pc_move w d (PcPersist p (WComplete c b)) p' r r' f f [EvEffect d (w_seq w) OComplete]
| mv_progress p nx r f f' :
    terminal f && negb (pure_next nx) = false → (terminal f = true → f' = f) →
    pc_move w d (PcPersist p (WTransition nx)) PcDone r r f f' [EvEffect d (w_seq w) OProgress]
| mv_ladder p o p' r r' f :
    (∃ q, p' = PcPersist q o) ∨ p' = PcFail false "write failed" OtherError true (is_marked o) →
    same_hold r r' → (r' = r ∨ w_seq w = r_lease_seq r) →
    pc_move w d (PcPersist p o) p' r r' f f []
| mv_give_back p r r' f :
    (∃ o, p = PcPersist PRelease o) ∨ (∃ from, p = PcRecover from) →
    (w_seq w = r_lease_seq r ∨ w_seq w ≤ 0 ∧ p = PcRecover (r_status r)) →
    r_lease_seq r' = r_lease_seq r →
    pc_move w d p PcDone r r' f f []
| mv_reason c p' r f :
    (p' = PcOnErr c ∨ p' = fail_and_return true "flow cancelled" OtherError true) →
    pc_move w d (PcReason c) p' r r f f []
| mv_onErr c r r' f :
    same_hold r r' → (r' = r ∨ w_seq w = r_lease_seq r) → pc_move w d (PcOnErr c) PcDecide r r' f f []
| mv_fail c msg err b m p' r r' f f' :
    (p' = PcDone ∨ p' = exit_err m err) → w_seq w = r_lease_seq r → r_lease_seq r' = r_lease_seq r →
    terminal (r_status r') = true → (terminal f = true → f' = f) →
    pc_move w d (PcFail c msg err b m) p' r r' f f' [EvEffect d (w_seq w) OFail].

Lemma holds_lease_true seq r : holds_lease seq r = true ↔ r_lease_seq r = seq.
Proof. unfold holds_lease. by rewrite bool_decide_eq_true. Qed.

Lemma in_status_true l r : in_status l r = true ↔ r_status r ∈ l.
Proof. unfold in_status. by rewrite bool_decide_eq_true. Qed.

Lemma set_flow_flow st s : flow_st (set_flow st s) = if terminal (flow_st s) then flow_st s else st.
Proof. done. Qed.

(** Splits a statement that matched the row into its guard and its effect. *)
Ltac matched H :=
  let Hp := fresh "Hp" in
  apply update_where_Some in H as [Hp ->];
  repeat match goal with
  | H : _ && _ = true |- _ => apply andb_true_iff in H as [? ?]
  | H : holds_lease _ _ = true |- _ => apply holds_lease_true in H
  end.

Lemma in_status_terminal l r :
  in_status l r = true → Forall (λ st, terminal st = false) l → terminal (r_status r) = false.
Proof. rewrite in_status_true, Forall_forall. auto. Qed.

Lemma payload_row_hold p r : same_hold r (payload_row p r).
Proof. unfold payload_row. by destruct (_ && _). Qed.

Lemma interrupt_leaf_Some t c p seq r r' :
  interrupt_leaf t c p seq r = Some r' →
  seq = r_lease_seq r ∧ r_lease_seq r' = r_lease_seq r ∧ terminal (r_status r) = false.
Proof.
  unfold interrupt_leaf. intros (r1 & H1 & H)%bind_Some. matched H1.
  destruct (_ && _) eqn:Hl in H; [|done]. apply andb_true_iff in Hl as [Hl _]. simplify_eq.
  apply holds_lease_true in Hl. cbn in Hl. rewrite <- Hl.
  split_and!; [done| |].
  - by rewrite (proj2 (payload_row_hold _ _)).
  - eapply in_status_terminal; [done|]. by repeat constructor.
Qed.

Lemma ladder_or n o : (∃ q, ladder n o = PcPersist q o) ∨ ladder n o = PcFail false "write failed" OtherError true (is_marked o).
Proof. destruct n; simpl; eauto. Qed.

Section moves.
Context (leaseMarginMs : Z) (persistBackoff : nat) (hasErrorTransition : bool) (overflow : float64 → Z).
Abbreviation db_step := (db_step persistBackoff hasErrorTransition).
Abbreviation exec := (exec leaseMarginMs persistBackoff hasErrorTransition overflow).

(** Worker [d], at [p], took one step. *)
Definition moved (d : nat) (w : worker) (p : pc) (s s' : sys) : Prop :=
  ∃ p' evs, now s' = now s ∧ workers s' = <[d := (w, p')]> (workers s) ∧ log s' = log s ++ evs ∧
    pc_move w d p p' (the_row s) (the_row s') (flow_st s) (flow_st s') evs.

Lemma fenced_move d w p stmt e p' s :
  (∀ r, stmt = Some r →
    pc_move w d p (p' r) (the_row s) r (flow_st s) (flow_st s) [EvEffect d (w_seq w) e]) →
  active p = true →
  moved d w p s (fenced d w stmt e p' s).
Proof.
  intros Hs Ha. unfold moved. unfold fenced. destruct stmt as [r|].
  - eexists _, _. split_and!; [done..|]. by apply Hs.
  - eexists _, []. rewrite app_nil_r. split_and!; [done..|]. by constructor.
Qed.

(** The moves that leave the row, the flow and the log alone. *)
Lemma stay_move d w p p' s :
  pc_move w d p p' (the_row s) (the_row s) (flow_st s) (flow_st s) [] →
  moved d w p s (set_pc d w p' s).
Proof. intros Hm. exists p', []. by rewrite app_nil_r. Qed.

Lemma outcome_ok_move d w p o stops s :
  moved d w (PcPersist p o) s (outcome_ok d w o stops s).
Proof.
  destruct o as [c b|nx]; simpl.
  - apply fenced_move; [|done..]. intros r [Hp ->]%update_where_Some.
    apply andb_true_iff in Hp as [_ Hl%holds_lease_true]. apply mv_complete; [destruct (_ && _); eauto|done..].
  - destruct (terminal (flow_st s) && negb _) eqn:Ht; [by apply stay_move; constructor|].
    eexists PcDone, _. destruct nx as [| | |pure]; [..|destruct pure]; try (destruct stops);
    split_and!; try done; simpl; (apply mv_progress; [done|]); simpl; try done; by intros ->.
Qed.

Lemma outcome_err_move d w p o q err s :
  (∃ p', q = PcPersist p' o) ∨ q = PcFail false "write failed" OtherError true (is_marked o) →
  moved d w (PcPersist p o) s (outcome_err d w o q err s).
Proof.
  intros Hq. destruct err; apply stay_move.
  - by apply (mv_exit w d (PcPersist p o)).
  - apply mv_ladder; [done|done|by left].
Qed.

Lemma row_if_move d w p q stmt s :
  (pc_move w d p q (the_row s) (the_row s) (flow_st s) (flow_st s) []) →
  (∀ r, stmt = Some r → pc_move w d p q (the_row s) r (flow_st s) (flow_st s) []) →
  moved d w p s (set_pc d w q (set_row (default (the_row s) stmt) s)).
Proof.
  intros H0 Hr. exists q, []. rewrite app_nil_r. split_and!; [done..|]. destruct stmt; simpl; auto.
Qed.

Lemma db_step_move d w p res stops s s' :
  db_step d w p res stops s = Some s' → moved d w p s s'.
Proof.
  intros H.
  destruct p as [|st| |c pl|c| |c sl|ps o|c|c| |c msg err b m|from|]; simpl in H; try done.
  - destruct res; simplify_eq; apply stay_move; [by apply (mv_exit w d PcReadFlow)|constructor].
  - destruct res; simplify_eq; [by apply stay_move, (mv_exit w d (PcReap st))|].
    exists PcDone, []. rewrite app_nil_r. split_and!; [done..|]. by constructor.
  - destruct res; simplify_eq; [by apply stay_move, (mv_exit w d (PcInterrupt c pl))|].
    destruct (interrupt_leaf _ _ _ _ _) as [r'|] eqn:Hi; [|by apply stay_move; constructor].
    exists PcDone, [EvEffect d (w_seq w) OInterrupt]. split_and!; [done..|].
    apply interrupt_leaf_Some in Hi as (? & ? & ?). simpl.
    apply mv_own; auto. destruct (terminal (flow_st s)); auto.
  - destruct res; simplify_eq; [by apply stay_move, mv_fail_and_return|].
    apply fenced_move; [|done..]. intros r [Hp ->]%update_where_Some.
    apply andb_true_iff in Hp as [Hs Hl%holds_lease_true].
    eapply in_status_terminal in Hs; [|by repeat constructor]. apply mv_own; auto.
  - destruct res; simplify_eq; apply stay_move; [by apply mv_fail_and_return|by constructor].
  - destruct res; simplify_eq; [by apply stay_move, mv_fail_and_return|].
    apply fenced_move; [|done..]. intros r [Hp ->]%update_where_Some.
    apply andb_true_iff in Hp as [Hs Hl%holds_lease_true].
    eapply in_status_terminal in Hs; [|by repeat constructor]. apply mv_own; auto.
  - destruct ps, res; simplify_eq; try apply outcome_ok_move;
      try (apply outcome_err_move; eauto using ladder_or; fail).
    + apply stay_move, mv_ladder; [apply ladder_or|done|by left].
    + unfold extend_lease in *.
      destruct (update_where _ _ _) as [r|] eqn:Hu; [|by apply stay_move; constructor].
      apply update_where_Some in Hu as [Hp ->]. apply andb_true_iff in Hp as [Hl%holds_lease_true _].
      exists (ladder persistBackoff o), []. rewrite app_nil_r. split_and!; [done..|].
      apply mv_ladder; [apply ladder_or|done|by right].
    + by apply stay_move; constructor.
    + apply row_if_move; [by constructor|]. intros r [Hp ->]%update_where_Some.
      apply andb_true_iff in Hp as [Hl%holds_lease_true _]. apply mv_give_back; eauto.
  - destruct res; simplify_eq; apply stay_move; [by apply (mv_exit w d (PcReason c) OtherError)|].
    apply mv_reason. destruct hasErrorTransition; auto.
  - destruct res; simplify_eq; [by apply stay_move, (mv_exit w d (PcOnErr c) OtherError)|].
    apply row_if_move; [by apply mv_onErr; [done|left]|]. intros r [Hp ->]%update_where_Some.
    apply holds_lease_true in Hp. by apply mv_onErr; [done|right].
  - destruct res; simplify_eq.
    { apply stay_move. by eapply (mv_exit w d (PcFail c msg err b m)). }
    destruct (fail_row _ _ _ _ _) as [r|] eqn:Hu; [|by apply stay_move; constructor].
    apply update_where_Some in Hu as [Hp ->]. apply andb_true_iff in Hp as [_ Hl%holds_lease_true].
    exists (if b then PcDone else exit_err m err), [EvEffect d (w_seq w) OFail].
    split_and!; try by destruct stops.
    apply mv_fail; [destruct b; auto|done|by destruct stops|destruct stops, c; done|].
    destruct stops; simpl; by try intros ->.
  - destruct res; simplify_eq; [by apply stay_move; constructor|].
    apply row_if_move; [by constructor|]. intros r [Hp ->]%update_where_Some.
    apply andb_true_iff in Hp as [Hs Hl].
    assert (r_status (the_row s) = from) by (apply in_status_true in Hs; by apply list_elem_of_singleton in Hs).
    apply mv_give_back; [by eauto| |done].
    apply orb_true_iff in Hl as [Hl%bool_decide_eq_true|Hl%holds_lease_true]; [right|left]; by subst.
Qed.
End moves.

(** ** What every move respects *)

(** The pcs that can still be met once the step has moved its flow on: they only clean up. *)
Definition spent_pc (p : pc) : bool :=
  match p with
  | PcReadFlow | PcReap _ | PcFail _ _ _ _ _ | PcRecover _ | PcPersist _ (WTransition NextCompleteFlow) => true
  | _ => false
  end.

Definition progressed (e : event) : bool := match e with EvEffect _ _ OProgress => true | _ => false end.

(** One case per constructor, the targets of the branching ones included. *)
Ltac move_cases H :=
  destruct H as [q r0 f0 Ha|q err r0 f0 Ha|r0 f0|st r0 r1 f0 Hst Hq|q q' r0 r1 f0 f1 e Ht Hq' Hs Hq Hnt Hf He
    |q c msg err r0 f0 Ht|ps c b q' r0 r1 f0 Hq' Hs Hq Hst|ps nx r0 f0 f1 Hnx Hf|ps o q' r0 r1 f0 Hq' Hh Hr
    |q r0 r1 f0 Hp Hs Hq|c q' r0 f0 Hq'|c r0 r1 f0 Hh Hr|c msg err b m q' r0 r1 f0 f1 Hq' Hs Hq Ht Hf];
  try match goal with
  | H : _ = PcDone ∨ _ |- _ => destruct H as [->| ->]
  | H : _ = PcDecide ∨ _ |- _ => destruct H as [->|[? ->]]
  | H : (∃ _, _) ∨ _ = PcFail _ _ _ _ _ |- _ => destruct H as [[? ->]| ->]
  | H : _ = PcOnErr _ ∨ _ |- _ => destruct H as [->| ->]
  end.

Lemma exit_err_cases m err : exit_err m err = PcDone ∧ m = false ∨ ∃ from, exit_err m err = PcRecover from ∧ m = bool_decide (from = StatusCompleted).
Proof. destruct m, err; simpl; eauto 6. Qed.

Section respects.
Context {w : worker} {d : nat} {p p' : pc} {r r' : row} {f f' : status_t} {evs : list event}.
Context (Hm : pc_move w d p p' r r' f f' evs).

Lemma pc_move_active : active p = true.
Proof. move_cases Hm; try done; [by destruct q..|]. naive_solver. Qed.

Lemma pc_move_seq : r_lease_seq r' = r_lease_seq r.
Proof. move_cases Hm; try done; apply Hh. Qed.

Lemma pc_move_flow : terminal f = true → f' = f.
Proof. move_cases Hm; try done; auto. all: intros H; destruct Hf; congruence. Qed.

Lemma pc_move_terminal :
  (∀ st, p = PcReap st → terminal st = true) → (w_seq w ≤ 0 → p = PcRecover StatusRunning) →
  terminal (r_status r) = true →
  terminal (r_status r') = true ∨ p' = PcDone ∧ w_seq w = r_lease_seq r.
Proof.
  intros Hreap Huncap Hr'.
  move_cases Hm; try (by left); try (left; first [rewrite (proj1 Hh)|rewrite Hst]; by auto); [by rewrite Hnt in Hr'..|].
  destruct Hs as [Hs|[Hs ->]]; [by right|]. specialize (Huncap Hs) as [= Hx]. by rewrite Hx in Hr'.
Qed.

Lemma pc_move_marked :
  marked_pc p' = true →
  marked_pc p = true ∨ w_seq w = r_lease_seq r ∧ terminal (r_status r') = true.
Proof.
  move_cases Hm; simpl; try done; auto.
  - destruct (marked_pc q); [by auto|]. by destruct err.
  - by destruct (terminal _).
  - intros _. right. by rewrite Hst.
  - intros _. right. by rewrite Hst.
Qed.

Lemma pc_move_early : early_pc p' = true → p = PcReadFlow ∧ p' = (if terminal f then PcReap f else PcExec).
Proof.
  move_cases Hm; simpl; try done.
  - by destruct (exit_err_cases (marked_pc q) err) as [[-> _]|[? [-> _]]].
  - by destruct (exit_err_cases m err) as [[-> _]|[? [-> _]]].
Qed.

Lemma pc_move_uncaptured : p = PcRecover StatusRunning → (active p' = true → p' = p) ∧ evs = [].
Proof.
  move_cases Hm; intros Hp'; simplify_eq; try done.
  by destruct err.
Qed.

(** Only the holder of a marked step moves the flow on, and it is done then. *)
Lemma pc_move_progress :
  evs = [EvEffect d (w_seq w) OProgress] ∧ marked_pc p = true ∧ p' = PcDone ∧ r' = r ∨
  Forall (λ e, ∃ e', e = EvEffect d (w_seq w) e' ∧ e' ≠ OProgress) evs.
Proof. move_cases Hm; auto; right; repeat constructor; eauto. Qed.

Lemma pc_move_spent :
  terminal f = true → spent_pc p = true →
  (active p' = true → spent_pc p' = true) ∧ Forall (λ e, progressed e = false) evs.
Proof.
  intros Hf' Hs'. move_cases Hm; simpl in *; try done; try (by destruct q).
  - split; [|done]. by destruct (marked_pc _), err.
  - by rewrite Hf'.
  - destruct nx; simpl in *; try done. by rewrite Hf' in Hnx.
  - by repeat constructor.
  - split; [by destruct m, err|by repeat constructor].
Qed.

(** A dispatch whose generation is not the row's touches nothing, the reap apart. *)
Lemma pc_move_zombie :
  0 < w_seq w → w_seq w ≠ r_lease_seq r → marked_pc p = false →
  r' = r ∧ f' = f ∧ evs = [] ∨ ∃ st, p = PcReap st ∧ r_status r' = st.
Proof.
  intros Hpos Hne Hmf. move_cases Hm; auto; try congruence; try (by eauto).
  all: left; split; [|done].
  all: try (destruct Hr; [done|congruence]).
  destruct Hs as [|[]]; [congruence|lia].
Qed.
End respects.

(** ** The invariant of every interleaving *)

Definition claims (l : list event) : list Z := omap (λ e, match e with EvClaim _ q => Some q | _ => None end) l.
Definition runs (l : list event) : list Z := omap (λ e, match e with EvRun _ q => Some q | _ => None end) l.
Definition progresses (l : list event) : nat := length (filter (λ e, progressed e = true) l).

(** Dispatch [d] is under way. *)
Definition live (s : sys) (d : nat) (w : worker) (p : pc) : Prop :=
  workers s !! d = Some (w, p) ∧ active p = true.

Definition lease_seq (s : sys) : Z := r_lease_seq (the_row s).
Definition row_terminal (s : sys) : bool := terminal (r_status (the_row s)).

(** What holds of one dispatch under way. *)
Record worker_ok (s : sys) (w : worker) (p : pc) : Prop := {
  wok_seq : 0 ≤ w_seq w ≤ lease_seq s;
  wok_uncaptured : w_seq w ≤ 0 → p = PcRecover StatusRunning;
  wok_marked : marked_pc p = true → w_seq w = lease_seq s ∧ row_terminal s = true;
  wok_reap : ∀ st, p = PcReap st → terminal st = true;
  wok_early : early_pc p = true → w_seq w ∉ runs (log s)
}.

(** The flow has been moved on: what is left under this generation only cleans up. *)
Definition moved_on (s : sys) : Prop :=
  0 < lease_seq s ∧ (terminal (flow_st s) = true ∨ row_terminal s = true) ∧
  ∀ d w p, live s d w p → w_seq w = lease_seq s → terminal (flow_st s) = true ∧ spent_pc p = true.

Record Inv (s : sys) : Prop := {
  inv_seq : 0 ≤ lease_seq s;
  inv_worker : ∀ d w p, live s d w p → worker_ok s w p;
  inv_distinct : ∀ d w p d' w' p', live s d w p → live s d' w' p' → 0 < w_seq w → w_seq w = w_seq w' → d = d';
  inv_claims : StronglySorted Z.lt (claims (log s)) ∧ Forall (λ q, q ≤ lease_seq s) (claims (log s));
  inv_runs : NoDup (runs (log s)) ∧ Forall (λ q, q ≤ lease_seq s) (runs (log s));
  inv_progress : progresses (log s) = 0%nat ∨ progresses (log s) = 1%nat ∧ moved_on s
}.

Lemma claims_app l l' : claims (l ++ l') = claims l ++ claims l'.
Proof. apply omap_app. Qed.
Lemma runs_app l l' : runs (l ++ l') = runs l ++ runs l'.
Proof. apply omap_app. Qed.
Lemma progresses_app l l' : progresses (l ++ l') = (progresses l + progresses l')%nat.
Proof. unfold progresses. by rewrite filter_app, length_app. Qed.

(** Events that are neither claims nor runs. *)
Lemma effects_silent d q evs :
  Forall (λ e, ∃ e', e = EvEffect d q e') evs → claims evs = [] ∧ runs evs = [].
Proof. induction 1 as [|? ? [? ->] ? [IH1 IH2]]; done. Qed.

Lemma progresses_none evs : Forall (λ e, progressed e = false) evs → progresses evs = 0%nat.
Proof.
  induction 1 as [|e l He _ IH]; [done|]. unfold progresses in *.
  rewrite filter_cons_False; [done|]. by rewrite He.
Qed.

Lemma live_insert s d w p s' d' w' p' :
  workers s' = <[d := (w, p)]> (workers s) → live s' d' w' p' →
  (d' = d ∧ w' = w ∧ p' = p ∧ active p = true) ∨ (d' ≠ d ∧ live s d' w' p').
Proof.
  intros Hw [Hl Ha]. rewrite Hw in Hl. destruct (decide (d' = d)) as [->|Hne].
  - rewrite lookup_insert_eq in Hl. simplify_eq. by left.
  - rewrite lookup_insert_ne in Hl by done. by right.
Qed.

(** A step of dispatch [d], by what it does to the row, the flow and the log. *)
Record worker_step (d : nat) (w : worker) (p p' : pc) (evs : list event) (s s' : sys) : Prop := {
  ws_workers : workers s' = <[d := (w, p')]> (workers s);
  ws_seq : lease_seq s' = lease_seq s;
  ws_flow : terminal (flow_st s) = true → flow_st s' = flow_st s;
  ws_row : row_terminal s = true → row_terminal s' = true ∨ p' = PcDone ∧ w_seq w = lease_seq s;
  ws_ok : active p' = true → worker_ok s' w p';
  ws_log : log s' = log s ++ evs;
  ws_claims : claims evs = [];
  ws_runs : runs evs = [] ∨ runs evs = [w_seq w] ∧ early_pc p = true;
  ws_progress :
    progresses evs = 0%nat ∨
    progresses evs = 1%nat ∧ marked_pc p = true ∧
      (p' = PcDone ∧ the_row s' = the_row s ∨
       terminal (flow_st s) = false ∧ terminal (flow_st s') = true ∧ (active p' = true → spent_pc p' = true));
  ws_spent :
    terminal (flow_st s) = true → spent_pc p = true →
    (active p' = true → spent_pc p' = true) ∧ progresses evs = 0%nat
}.

Section invariant.
Context {s : sys} (HI : Inv s).

Lemma live_captured d w p : live s d w p → marked_pc p = true ∨ early_pc p = true → 0 < w_seq w.
Proof.
  intros Hl Hp. destruct (inv_worker s HI _ _ _ Hl) as [_ Hu _ _ _].
  destruct (decide (0 < w_seq w)); [done|]. rewrite Hu in Hp by lia. by destruct Hp.
Qed.

Section step.
Context {s' : sys} {d : nat} {w : worker} {p p' : pc} {evs : list event}.
Context (Hl : live s d w p) (Hs : worker_step d w p p' evs s s').

Lemma other_worker_ok d' w' q : d' ≠ d → live s d' w' q → worker_ok s' w' q.
Proof.
  intros Hne Hl'. pose proof (inv_worker s HI _ _ _ Hl') as [Hq Hu Hm Hr He]. split.
  - by rewrite (ws_seq _ _ _ _ _ _ _ Hs).
  - done.
  - intros Hq'. destruct (Hm Hq') as [Hseq Ht]. rewrite (ws_seq _ _ _ _ _ _ _ Hs). split; [done|].
    destruct (ws_row _ _ _ _ _ _ _ Hs Ht) as [|[_ Heq]]; [done|]. destruct Hne.
    apply (inv_distinct s HI _ _ _ _ _ _ Hl' Hl); [eapply live_captured; eauto|congruence].
  - done.
  - intros Hq'. rewrite (ws_log _ _ _ _ _ _ _ Hs), runs_app.
    destruct (ws_runs _ _ _ _ _ _ _ Hs) as [->|[-> Hp]]; [rewrite app_nil_r; auto|].
    intros [Hin|Hin%list_elem_of_singleton]%elem_of_app; [by apply He|]. destruct Hne.
    apply (inv_distinct s HI _ _ _ _ _ _ Hl' Hl); [eapply live_captured; eauto|done].
Qed.

Lemma step_runs : NoDup (runs (log s')) ∧ Forall (λ q, q ≤ lease_seq s') (runs (log s')).
Proof.
  rewrite (ws_log _ _ _ _ _ _ _ Hs), (ws_seq _ _ _ _ _ _ _ Hs), runs_app.
  destruct (inv_runs s HI) as [Hnd Hle].
  destruct (inv_worker s HI _ _ _ Hl) as [Hq _ _ _ He].
  destruct (ws_runs _ _ _ _ _ _ _ Hs) as [->|[-> Hp]]; [by rewrite app_nil_r|]. specialize (He Hp). split.
  - apply NoDup_app. split; [done|]. split; [|apply NoDup_singleton].
    intros x Hx ->%list_elem_of_singleton. done.
  - apply Forall_app. split; [done|]. constructor; [lia|done].
Qed.

Lemma step_progress : progresses (log s') = 0%nat ∨ progresses (log s') = 1%nat ∧ moved_on s'.
Proof.
  rewrite (ws_log _ _ _ _ _ _ _ Hs), progresses_app.
  assert (∀ d' w' q, live s d' w' q → w_seq w' = w_seq w → 0 < w_seq w → d' = d) as Hdist.
  { intros d' w' q Hl' Heq H0. by apply (inv_distinct s HI _ _ _ _ _ _ Hl' Hl); [rewrite Heq|]. }
  destruct (inv_worker s HI _ _ _ Hl) as [Hq _ Hmk _ _].
  pose proof (ws_workers _ _ _ _ _ _ _ Hs) as Hw. pose proof (ws_seq _ _ _ _ _ _ _ Hs) as Hseq.
  destruct (inv_progress s HI) as [H0|[H1 (Hpos & Hstop & Hspent)]].
  - rewrite H0. destruct (ws_progress _ _ _ _ _ _ _ Hs) as [->|(-> & Hm & Hcase)]; [by left|].
    right. split; [done|]. destruct (Hmk Hm) as [Heq Ht].
    assert (0 < w_seq w) by eauto using live_captured.
    split; [lia|]. destruct Hcase as [[-> Hr]|(_ & Hf & Hsp)]; split.
    + right. unfold row_terminal. by rewrite Hr.
    + intros d' w' q [(_&_&->&?)|[Hne Hl']]%(live_insert _ _ _ _ _ _ _ _ Hw) Hq'; [done|].
      destruct Hne. eapply Hdist; [done|congruence|done].
    + by left.
    + intros d' w' q [(->&->&->&Ha)|[Hne Hl']]%(live_insert _ _ _ _ _ _ _ _ Hw) Hq'; [by auto|].
      destruct Hne. eapply Hdist; [done|congruence|done].
  - assert (progresses evs = 0%nat) as He.
    { destruct (ws_progress _ _ _ _ _ _ _ Hs) as [?|(_ & Hm & _)]; [done|].
      destruct (Hspent _ _ _ Hl (proj1 (Hmk Hm))). by apply (ws_spent _ _ _ _ _ _ _ Hs). }
    right. rewrite He, H1. split; [done|]. split; [lia|].
    assert (terminal (flow_st s) = true → terminal (flow_st s') = true) as Hf.
    { intros Hf. by rewrite (ws_flow _ _ _ _ _ _ _ Hs Hf). }
    split.
    + destruct Hstop as [?|Ht]; [by auto|].
      destruct (ws_row _ _ _ _ _ _ _ Hs Ht) as [?|[_ Heq]]; [by auto|].
      left. apply Hf, (Hspent _ _ _ Hl Heq).
    + intros d' w' q [(->&->&->&Ha)|[Hne Hl']]%(live_insert _ _ _ _ _ _ _ _ Hw) Hq'; rewrite Hseq in Hq'.
      * destruct (Hspent _ _ _ Hl Hq') as [Hft Hsp]. split; [by auto|].
        by apply (ws_spent _ _ _ _ _ _ _ Hs).
      * destruct (Hspent _ _ _ Hl' Hq'). auto.
Qed.

Lemma Inv_worker_step : Inv s'.
Proof.
  pose proof (ws_workers _ _ _ _ _ _ _ Hs) as Hw. split.
  - rewrite (ws_seq _ _ _ _ _ _ _ Hs). apply HI.
  - intros d' w' q [(->&->&->&Ha)|[Hne Hl']]%(live_insert _ _ _ _ _ _ _ _ Hw).
    + by apply (ws_ok _ _ _ _ _ _ _ Hs).
    + by eapply other_worker_ok.
  - intros d1 w1 q1 d2 w2 q2 [(->&->&->&_)|[_ Hl1]]%(live_insert _ _ _ _ _ _ _ _ Hw)
      [(->&->&->&_)|[_ Hl2]]%(live_insert _ _ _ _ _ _ _ _ Hw); eauto using inv_distinct.
  - rewrite (ws_log _ _ _ _ _ _ _ Hs), claims_app, (ws_claims _ _ _ _ _ _ _ Hs), app_nil_r,
      (ws_seq _ _ _ _ _ _ _ Hs). apply HI.
  - apply step_runs.
  - apply step_progress.
Qed.
End step.
End invariant.

(** ** Every label keeps it *)

Section labels.
Context (leaseMarginMs : Z) (persistBackoff : nat) (hasErrorTransition : bool) (overflow : float64 → Z).
Abbreviation exec := (exec leaseMarginMs persistBackoff hasErrorTransition overflow).

Lemma moved_worker_step s s' d w p :
  Inv s → live s d w p → moved d w p s s' → ∃ p' evs, worker_step d w p p' evs s s'.
Proof.
  intros HI Hl (p' & evs & _ & Hw & Hlog & Hm). exists p', evs.
  pose proof (inv_worker s HI _ _ _ Hl) as [Hq Hu Hmk Hr He].
  pose proof (pc_move_seq Hm) as Hseq. pose proof (pc_move_terminal Hm Hr Hu) as Hterm.
  assert (claims evs = [] ∧ runs evs = []) as [Hc Hru].
  { apply (effects_silent d (w_seq w)).
    destruct (pc_move_progress Hm) as [(-> & _)|Hall]; [repeat constructor; eauto|].
    eapply Forall_impl; [exact Hall|]. simpl. naive_solver. }
  split; try done.
  - apply (pc_move_flow Hm).
  - intros Ha. split.
    + by unfold lease_seq in *; rewrite Hseq.
    + intros H0. specialize (Hu H0). destruct (pc_move_uncaptured Hm Hu) as [Hp _]. by rewrite Hp.
    + intros Hp'. unfold lease_seq, row_terminal in *. rewrite Hseq.
      destruct (pc_move_marked Hm Hp') as [[Hs Ht]%Hmk|?]; [|done].
      destruct (Hterm Ht) as [?|[-> _]]; done.
    + intros st ->. destruct (pc_move_early Hm eq_refl) as [_ Hp].
      destruct (terminal (flow_st s)) eqn:?; by simplify_eq.
    + intros Hp'. destruct (pc_move_early Hm Hp') as [Hp _].
      rewrite Hlog, runs_app, Hru, app_nil_r. apply He. by rewrite Hp.
  - by left.
  - destruct (pc_move_progress Hm) as [(-> & Hp & -> & Hr')|Hall].
    + right. split_and!; [done..|]. by left.
    + left. apply progresses_none. eapply Forall_impl; [exact Hall|].
      intros e (e' & -> & Hne). by destruct e'.
  - intros Hf Hs. destruct (pc_move_spent Hm Hf Hs) as [? ?%progresses_none]. done.
Qed.

(** What everyone but the dispatches does to the row and the flow. *)
Lemma Inv_env s s' :
  Inv s → workers s' = workers s → log s' = log s → lease_seq s' = lease_seq s →
  (terminal (flow_st s) = true → terminal (flow_st s') = true) →
  (row_terminal s = true → row_terminal s' = true) → Inv s'.
Proof.
  intros HI Hw Hlog Hseq Hf Hr.
  assert (∀ d w p, live s' d w p ↔ live s d w p) as Hlive by (unfold live; by rewrite Hw).
  split; rewrite ?Hlog, ?Hseq; [apply HI| |intros ??????; rewrite !Hlive; apply HI|apply HI|apply HI|].
  - intros d w p Hl%Hlive. destruct (inv_worker s HI _ _ _ Hl) as [? ? Hm ? ?].
    split; rewrite ?Hlog, ?Hseq; try done. intros [? ?]%Hm; auto.
  - destruct (inv_progress s HI) as [?|[? (? & Hs & Hsp)]]; [by left|right]. split; [done|].
    unfold moved_on. rewrite Hseq. split; [done|]. split; [naive_solver|].
    intros d w p Hl%Hlive Hq. destruct (Hsp _ _ _ Hl Hq). auto.
Qed.

Lemma Forall_le_mono (n m : Z) l : n ≤ m → Forall (λ q, q ≤ n) l → Forall (λ q, q ≤ m) l.
Proof. intros ? H. eapply Forall_impl; [exact H|]. simpl. lia. Qed.

Lemma Inv_claimed s r d :
  Inv s → claim (now s) leaseMarginMs (the_row s) = Some r →
  Inv (add_event (EvClaim d (r_lease_seq r)) (set_row r s)).
Proof.
  intros HI [Hp ->]%update_where_Some. simpl.
  assert (row_terminal s = false) as Hr.
  { unfold row_terminal. unfold claimable in Hp. rewrite !andb_true_iff in Hp. destruct Hp as [[[Hp _] _] _].
    eapply in_status_terminal; [done|]. by repeat constructor. }
  set (s' := add_event _ _).
  assert (lease_seq s' = lease_seq s + 1) as Hseq by done.
  assert (claims (log s') = claims (log s) ++ [lease_seq s + 1]) as Hc by apply claims_app.
  assert (runs (log s') = runs (log s)) as Hru by (simpl; by rewrite runs_app, app_nil_r).
  assert (progresses (log s') = progresses (log s)) as Hpr by (simpl; rewrite progresses_app; apply Nat.add_0_r).
  assert (∀ d w p, live s' d w p ↔ live s d w p) as Hlive by done.
  destruct HI as [H0 Hwk Hd [Hcs Hcl] [Hrn Hrl] Hpg].
  split; rewrite ?Hseq, ?Hc, ?Hru, ?Hpr; [lia| |done| | |].
  - intros d' w p Hl%Hlive. destruct (Hwk _ _ _ Hl) as [? ? Hm ? ?].
    split; rewrite ?Hseq, ?Hru; try done; [lia|]. intros [_ ?]%Hm. congruence.
  - rewrite Forall_app. split_and!; [|eapply Forall_le_mono; [|done]; lia|by constructor; [lia|]].
    apply StronglySorted_app. split_and!; [|done|by repeat constructor].
    intros x y Hx ->%list_elem_of_singleton.
    pose proof (proj1 (Forall_forall _ _) Hcl x Hx). simpl in *. lia.
  - split; [done|]. eapply Forall_le_mono; [|done]; lia.
  - destruct Hpg as [?|[? (? & [Hs|Hs] & Hsp)]]; [by left| |congruence].
    right. split; [done|]. unfold moved_on. rewrite Hseq. split_and!; [lia|by left|].
    intros d' w p Hl%Hlive Hq. destruct (Hwk _ _ _ Hl). lia.
Qed.

(** A dispatch starts at a free worker. *)
Lemma Inv_start s d w p :
  Inv s → (active p = true → worker_ok s w p) →
  (0 < w_seq w → progresses (log s) = 0%nat ∨ terminal (flow_st s) = true ∧ spent_pc p = true) →
  (∀ d' w' p', live s d' w' p' → 0 < w_seq w → w_seq w' ≠ w_seq w) →
  Inv (set_pc d w p s).
Proof.
  intros HI Hok Hprog Hfresh.
  assert (workers (set_pc d w p s) = <[d := (w, p)]> (workers s)) as Hw by done.
  split; [apply HI| | |apply HI|apply HI|].
  - intros d' w' q [(->&->&->&a)|[_ Hl]]%(live_insert _ _ _ _ _ _ _ _ Hw).
    + destruct (Hok a). by split.
    + destruct (inv_worker s HI _ _ _ Hl). by split.
  - intros d1 w1 q1 d2 w2 q2 [(->&->&->&_)|[_ Hl1]]%(live_insert _ _ _ _ _ _ _ _ Hw)
      [(->&->&->&_)|[_ Hl2]]%(live_insert _ _ _ _ _ _ _ _ Hw) H0 Heq; [done|..].
    + by destruct (Hfresh _ _ _ Hl2 H0).
    + destruct (Hfresh _ _ _ Hl1); [lia|done].
    + by eapply (inv_distinct s HI).
  - destruct (inv_progress s HI) as [?|[H1 (Hpos & Hs & Hsp)]]; [by left|].
    right. split; [done|]. split; [done|]. split; [done|].
    intros d' w' q [(->&->&->&_)|[_ Hl]]%(live_insert _ _ _ _ _ _ _ _ Hw) Hq; [|by eauto].
    change (w_seq w = lease_seq s) in Hq. destruct Hprog as [H0|?]; [lia|congruence|done].
Qed.

(** A dispatch goes on without the database. *)
Lemma Inv_go s d w p p' evs s' :
  Inv s → live s d w p → workers s' = <[d := (w, p')]> (workers s) →
  the_row s' = the_row s → flow_st s' = flow_st s → log s' = log s ++ evs →
  claims evs = [] → progresses evs = 0%nat → runs evs = [] ∨ runs evs = [w_seq w] ∧ early_pc p = true →
  early_pc p' = false → (marked_pc p' = true → marked_pc p = true) → (∀ from, p ≠ PcRecover from) →
  (spent_pc p = true → active p' = true → spent_pc p' = true) →
  Inv s'.
Proof.
  intros HI Hl Hw Hr Hf Hlog Hc Hp Hru Hearly Hm Hrec Hsp.
  destruct (inv_worker s HI _ _ _ Hl) as [Hq Hu Hmk _ _].
  assert (lease_seq s' = lease_seq s) as Hseq by (unfold lease_seq; by rewrite Hr).
  assert (row_terminal s' = row_terminal s) as Hrt by (unfold row_terminal; by rewrite Hr).
  apply (Inv_worker_step HI Hl (p' := p') (evs := evs)). split; rewrite ?Hrt; try done; auto.
  intros _. split; rewrite ?Hseq, ?Hrt; try done.
  - intros ?%Hu. by destruct (Hrec StatusRunning).
  - intros ?%Hm. auto.
  - intros st ->. done.
  - congruence.
Qed.

Lemma dispose_pc w d res loaded s :
  ∃ p' evs, run_step hasErrorTransition overflow d w res loaded s = set_pc d w p' (mkSys (now s) (the_row s) (flow_st s) (workers s) (log s ++ evs)) ∧
    (evs = [] ∨ evs = [EvRun d (w_seq w)]) ∧ early_pc p' = false ∧ marked_pc p' = false.
Proof.
  unfold run_step. set (pre := w_cancelling w && negb (w_subgraphDone w)).
  exists (match dispose overflow hasErrorTransition (w_attempt w) (w_interruptDone w) (w_subgraphDone w)
                   (w_changes w) (if pre then ExecErr true "flow cancelled" match res with ExecErr _ _ e => e | _ => tombstone end else res) with
           | DispFail cancelled msg => fail_and_return cancelled msg OtherError false
           | DispInterrupt changes payload => PcInterrupt changes payload
           | DispSubgraph changes =>
               if loaded then PcPark changes else fail_and_return false "load graph" OtherError false
           | DispRetry changes sleep => PcRewind changes sleep
           | DispComplete changes errorRouted => PcPersist PFirst (WComplete changes errorRouted)
           end), (if pre then [] else [EvRun d (w_seq w)]).
  split_and!.
  - destruct pre; [|done]. rewrite app_nil_r. by destruct s.
  - destruct pre; auto.
  - destruct (dispose _ _ _ _ _ _ _); try done. by destruct loaded.
  - destruct (dispose _ _ _ _ _ _ _); try done. by destruct loaded.
Qed.

Lemma Inv_granted s r d :
  Inv s → claim (now s) leaseMarginMs (the_row s) = Some r →
  Inv (set_pc d (claimed_worker r) PcReadFlow (add_event (EvClaim d (r_lease_seq r)) (set_row r s))).
Proof.
  intros HI Hc. pose proof (Inv_claimed _ _ d HI Hc) as HI'.
  apply update_where_Some in Hc as [Hp ->]. pose proof (inv_seq s HI) as H0. unfold lease_seq in H0.
  apply Inv_start; [done|intros _; split; try done| |]; simpl.
  - unfold lease_seq. simpl. lia.
  - lia.
  - intros _. rewrite runs_app, app_nil_r. intros Hin.
    pose proof (proj1 (Forall_forall _ _) (proj2 (inv_runs s HI)) _ Hin). unfold lease_seq in *. simpl in *. lia.
  - intros _. destruct (inv_progress _ HI') as [?|[_ (_ & [?|Hr] & _)]]; auto. done.
  - intros d' w' p' Hl _. destruct (inv_worker s HI d' w' p' Hl) as [Hq _ _ _ _]. unfold lease_seq in Hq. lia.
Qed.

(** A worker that never captured its lease. *)
Lemma Inv_uncaptured s d err : Inv s → Inv (set_pc d uncaptured (exit_err false err) s).
Proof.
  intros HI. destruct err; simpl.
  - apply Inv_start; [done| |done|done]. intros _. split; try done. split; [done|]. apply (inv_seq s HI).
  - by apply Inv_start.
Qed.

(** The completion of the flow committed, the revival of its caller did not. *)
Lemma Inv_revive_lost s d w ps q err :
  let o := WTransition NextCompleteFlow in
  Inv s → live s d w (PcPersist ps o) → (∃ p', q = PcPersist p' o) ∨ q = PcFail false "write failed" OtherError true true →
  Inv (outcome_err d w o q err (if terminal (flow_st s) then s
         else add_event (EvEffect d (w_seq w) OProgress) (set_flow StatusCompleted s))).
Proof.
  intros o HI Hl Hq. set (s1 := if terminal (flow_st s) then s else _).
  set (p' := match err with Contention => PcRecover StatusCompleted | OtherError => q end).
  assert (outcome_err d w o q err s1 = set_pc d w p' s1) as -> by (by destruct err).
  assert (spent_pc p' = true ∧ early_pc p' = false ∧ ∀ st, p' ≠ PcReap st) as (Hsp & Hea & Hre).
  { subst p'. destruct err; [done|]. destruct Hq as [[? ->]| ->]; done. }
  destruct (inv_worker s HI _ _ _ Hl) as [Hs Hu Hm _ _]. specialize (Hm eq_refl).
  apply (Inv_worker_step HI Hl (p' := p')
    (evs := if terminal (flow_st s) then [] else [EvEffect d (w_seq w) OProgress])).
  assert (the_row (set_pc d w p' s1) = the_row s) as Hr by (subst s1; by destruct (terminal _)).
  assert (lease_seq (set_pc d w p' s1) = lease_seq s) as Hseq by (unfold lease_seq; by rewrite Hr).
  assert (row_terminal (set_pc d w p' s1) = row_terminal s) as Hrt by (unfold row_terminal; by rewrite Hr).
  split; rewrite ?Hseq, ?Hrt; auto.
  - subst s1. by destruct (terminal _).
  - subst s1. intros Hf. by rewrite Hf.
  - intros _. split; rewrite ?Hseq, ?Hrt; auto.
    + intros ?%Hu. done.
    + intros st Hst. by destruct (Hre st).
    + congruence.
  - subst s1. destruct (terminal _); [by rewrite app_nil_r|done].
  - by destruct (terminal _).
  - left. by destruct (terminal _).
  - destruct (terminal (flow_st s)) eqn:Hf; [by left|]. right. split_and!; [done..|]. right.
    subst s1. simpl. rewrite Hf. done.
  - intros Hf _. rewrite Hf. done.
Qed.

Lemma env_row_Inv s stmt s' :
  Inv s → env_row stmt s = Some s' →
  (∀ r, stmt = Some r → r_lease_seq r = lease_seq s ∧ (row_terminal s = true → terminal (r_status r) = true)) →
  Inv s'.
Proof.
  intros HI (r & -> & [= <-])%bind_Some Hr. destruct (Hr r eq_refl) as [Hq Ht].
  by apply (Inv_env s).
Qed.

(** A statement of the environment fires on rows that are not terminal, or leaves the status alone. *)
Lemma env_stmt s pre l f p r :
  update_where p f pre = Some r → r_lease_seq (f pre) = r_lease_seq (the_row s) → r_status pre = r_status (the_row s) →
  (p = true → in_status l pre = true) → Forall (λ st, terminal st = false) l →
  r_lease_seq r = lease_seq s ∧ (row_terminal s = true → terminal (r_status r) = true).
Proof.
  intros [Hp ->]%update_where_Some Hq Hst Hl Hall. split; [done|].
  unfold row_terminal. rewrite <- Hst, (in_status_terminal l); auto. done.
Qed.

Lemma exec_Inv s l s' : Inv s → exec s l = Some s' → Inv s'.
Proof.
  intros HI H. destruct l; simpl in H.
  - case_bool_decide; [|done]. simplify_eq. by apply (Inv_env s).
  - destruct (idle d s); [|done]. destruct (claim _ _ _) as [r|] eqn:Hc; simplify_eq; [|done].
    exact (Inv_granted _ _ d HI Hc).
  - destruct (idle d s); [|done]. simplify_eq. apply Inv_uncaptured.
    destruct (claim _ _ _) as [r|] eqn:Hc; [|done]. destruct applied; [|done]. by apply Inv_claimed.
  - destruct (workers s !! d) as [[w []]|] eqn:Hl; simplify_eq.
    destruct (dispose_pc w d res loaded s) as (p' & evs & -> & Hevs & He & Hm).
    eapply (Inv_go s d w PcExec p' evs); try done; try (by destruct Hevs; simplify_eq); [|by rewrite Hm].
    destruct Hevs; simplify_eq; auto.
  - destruct (workers s !! d) as [[w []]|] eqn:Hl; simplify_eq.
    eapply (Inv_go s d w PcDecide _ []); try done; [by rewrite app_nil_r|by left|by destruct nx].
  - destruct (workers s !! d) as [[w p]|] eqn:Hl; [|done].
    pose proof (db_step_move _ _ _ _ _ _ _ _ _ H) as Hmv.
    assert (live s d w p) as Hlive.
    { split; [done|]. destruct Hmv as (?&?&?&?&?&Hm). apply (pc_move_active Hm). }
    destruct (moved_worker_step _ _ _ _ _ HI Hlive Hmv) as (p' & evs & Hs).
    by apply (Inv_worker_step HI Hlive Hs).
  - destruct (workers s !! d) as [[w p]|] eqn:Hl; [|done].
    destruct p as [| | | | | | |ps [|[]]| | | | | |]; try done.
    destruct ps; simplify_eq; eapply Inv_revive_lost; try done; [by eauto|]. destruct n as [|[]]; simpl; eauto.
  - destruct (workers s !! d) as [[w p]|] eqn:Hl; [|done].
    destruct p as [| | | | | | |ps o| | | | | |]; try done. destruct ps; simplify_eq.
    eapply (Inv_go s d w (PcPersist (PWait n) o) _ []); try done; [by rewrite app_nil_r|by left].
  - eapply env_row_Inv; [done|exact H|]. intros r Hr.
    eapply (env_stmt s (the_row s) [StatusRunning]); [exact Hr|done..| |]; [|by repeat constructor].
    rewrite !andb_true_iff. by intros [[? _] _].
  - simplify_eq. destruct (terminate_row _ _) as [r|] eqn:Hr.
    + destruct (env_stmt s (the_row s) [StatusCreated; StatusPending; StatusInterrupted; StatusRunning] _ _ _ Hr)
        as [? ?]; [done..|by repeat constructor|].
      apply (Inv_env s); try done. simpl. intros Hf. by rewrite Hf.
    + apply (Inv_env s); try done. simpl. intros Hf. by rewrite Hf.
  - eapply env_row_Inv; [done|exact H|]. intros r Hr.
    eapply (env_stmt s (the_row s) [StatusPending; StatusRunning; StatusInterrupted]); [exact Hr|done..| |]; [|by repeat constructor]. done.
  - eapply env_row_Inv; [done|exact H|]. intros r Hr.
    eapply (env_stmt s (the_row s) [StatusRunning; StatusInterrupted]); [exact Hr|done..| |]; [|by repeat constructor]. done.
  - eapply env_row_Inv; [done|exact H|]. intros r Hr.
    eapply (env_stmt s (clear_payload (the_row s)) [StatusInterrupted]); [exact Hr|done..| |]; [|by repeat constructor]. done.
  - eapply env_row_Inv; [done|exact H|]. intros r Hr.
    eapply (env_stmt s (clear_payload (the_row s)) [StatusInterrupted]); [exact Hr|done..| |]; [|by repeat constructor]. done.
  - eapply env_row_Inv; [done|exact H|]. intros r Hr.
    eapply (env_stmt s (the_row s) [StatusRunning]); [exact Hr|done..| |]; [|by repeat constructor].
    unfold parked_caller. rewrite !andb_true_iff. by intros [? _].
  - eapply env_row_Inv; [done|exact H|]. intros r Hr.
    eapply (env_stmt s (the_row s) [StatusRunning]); [exact Hr|done..| |]; [|by repeat constructor].
    unfold parked_caller. rewrite !andb_true_iff. by intros [? _].
  - simplify_eq. apply (Inv_env s); try done. simpl. intros Hf. by rewrite Hf.
Qed.

(** A step row nobody works on yet. *)
Definition fresh_sys (now : Z) (r : row) (f : status_t) : sys := mkSys now r f ∅ [].

Lemma Inv_fresh t r f : 0 ≤ r_lease_seq r → Inv (fresh_sys t r f).
Proof.
  intros Hr. split; [done| | | | |by left].
  - intros d w p [Hl _]. done.
  - intros d w p d' w' p' [Hl _]. done.
  - split; constructor.
  - split; constructor.
Qed.

Lemma reach_Inv ok s0 s : reach leaseMarginMs persistBackoff hasErrorTransition overflow ok s0 s → Inv s0 → Inv s.
Proof. induction 1; eauto using exec_Inv. Qed.
End labels.

(** ** What it gives *)

Definition any_label (s : sys) (l : label) : Prop := True.

Lemma run_reach leaseMarginMs persistBackoff hasErrorTransition overflow ls s0 s s' :
  reach leaseMarginMs persistBackoff hasErrorTransition overflow any_label s0 s →
  run leaseMarginMs persistBackoff hasErrorTransition overflow ls s = Some s' →
  reach leaseMarginMs persistBackoff hasErrorTransition overflow any_label s0 s'.
Proof.
  revert s. induction ls as [|l ls IH]; intros s Hs H; simpl in H; [by simplify_eq|].
  apply bind_Some in H as (s1 & H1 & H). eapply IH; [|exact H]. by eapply reach_step.
Qed.

(** A pending step with a one-second budget; the leases below carry a half-second margin. *)
Definition demo_row : row :=
  mkRow StatusPending parkedNone 0 0 0 0 1000 0 0 false false false ∅ ∅ ∅ "" ∅ "".
Definition demo_sys : sys := fresh_sys 0 demo_row StatusRunning.
Definition demo_run (ls : list label) : sys := default demo_sys (run 500 4 false (λ _, MinInt64) ls demo_sys).
Definition demo_exec : list label := [LClaim 0; LDb 0 None None; LRun 0 (ExecOk NewFlow) true].

Lemma demo_reach ls :
  is_Some (run 500 4 false (λ _, MinInt64) ls demo_sys) →
  reach 500 4 false (λ _, MinInt64) any_label demo_sys (demo_run ls).
Proof. intros [s Hs]. unfold demo_run. rewrite Hs. eapply run_reach; [constructor|exact Hs]. Qed.

(** C2. However the dispatches of a step, the lease sweep, Terminate, Cancel, Resume and the step's
    subgraph child interleave, and whichever statements fail, the step moves its flow on at most once:
    its transition write commits at most one time, although that write carries no lease fence. *)
Theorem forward_progress_once leaseMarginMs persistBackoff hasErrorTransition overflow t r f s :
  0 ≤ r_lease_seq r →
  reach leaseMarginMs persistBackoff hasErrorTransition overflow any_label (fresh_sys t r f) s →
  (progresses (log s) ≤ 1)%nat.
Proof.
  intros Hr Hs. destruct (inv_progress s) as [H|[H _]]; [|lia..]. eapply reach_Inv; [exact Hs|]. by apply Inv_fresh.
Qed.

(** Each lease generation is granted by one claim only, generations are granted in increasing
    order, and under one generation the task runs at most once. *)
Theorem lease_generations_are_single_use leaseMarginMs persistBackoff hasErrorTransition overflow t r f s :
  0 ≤ r_lease_seq r →
  reach leaseMarginMs persistBackoff hasErrorTransition overflow any_label (fresh_sys t r f) s →
  StronglySorted Z.lt (claims (log s)) ∧ NoDup (runs (log s)) ∧
  Forall (λ q, q ≤ r_lease_seq (the_row s)) (claims (log s) ++ runs (log s)).
Proof.
  intros Hr Hs. assert (Inv s) as HI by (eapply reach_Inv; [exact Hs|]; by apply Inv_fresh).
  destruct (inv_claims s HI), (inv_runs s HI). rewrite Forall_app. auto.
Qed.

(** C4. A dispatch whose lease has been re-granted writes nothing: whatever database call it makes
    next, the step row, the flow and the record of effects stay as they are.  The one exception is
    the reap of a step whose flow had already stopped. *)
Theorem zombie_writes_nothing leaseMarginMs persistBackoff hasErrorTransition overflow t r f s d w p res stops s' :
  0 ≤ r_lease_seq r →
  reach leaseMarginMs persistBackoff hasErrorTransition overflow any_label (fresh_sys t r f) s →
  live s d w p → (∀ st, p ≠ PcReap st) → 0 < w_seq w → w_seq w ≠ r_lease_seq (the_row s) →
  exec leaseMarginMs persistBackoff hasErrorTransition overflow s (LDb d res stops) = Some s' →
  the_row s' = the_row s ∧ flow_st s' = flow_st s ∧ log s' = log s.
Proof.
  intros H0 Hreach Hl Hnr Hpos Hne H. simpl in H. rewrite (proj1 Hl) in H.
  assert (Inv s) as HI by (eapply reach_Inv; [exact Hreach|]; by apply Inv_fresh).
  destruct (inv_worker s HI _ _ _ Hl) as [_ _ Hmk _ _].
  apply db_step_move in H as (p' & evs & _ & _ & Hlog & Hm).
  assert (marked_pc p = false) as Hmf by (destruct (marked_pc p); [destruct Hne; by apply Hmk|done]).
  rewrite Hlog. destruct (pc_move_zombie Hm Hpos Hne Hmf) as [(-> & -> & ->)|(st & -> & _)].
  - by rewrite app_nil_r.
  - by destruct (Hnr st).
Qed.

(** The completion, then the transition write fails once, is tried again, and lands. *)
Definition demo_progress : list label :=
  demo_exec ++ [LDb 0 None None; LDecide 0 (NextAdvance false); LDb 0 (Some OtherError) None;
                LDb 0 None None; LWaited 0 false; LDb 0 None None].

Lemma forward_progress_once_witness :
  progresses (log (demo_run demo_progress)) = 1%nat ∧ (progresses (log (demo_run demo_progress)) ≤ 1)%nat.
Proof.
  split; [by vm_compute|].
  apply (forward_progress_once 500 4 false (λ _, MinInt64) 0 demo_row StatusRunning); [done|].
  apply demo_reach. by eexists; vm_compute.
Defined.

(** The lease lapses while the task runs, and the step is claimed and run again. *)
Definition demo_lapse : list label :=
  demo_exec ++ [LTick 1500; LSweep; LClaim 1; LDb 1 None None; LRun 1 (ExecOk NewFlow) true].

Lemma lease_generations_are_single_use_witness :
  claims (log (demo_run demo_lapse)) = [1; 2] ∧ runs (log (demo_run demo_lapse)) = [1; 2] ∧
  StronglySorted Z.lt (claims (log (demo_run demo_lapse))).
Proof.
  split; [by vm_compute|]. split; [by vm_compute|].
  apply (lease_generations_are_single_use 500 4 false (λ _, MinInt64) 0 demo_row StatusRunning); [done|].
  apply demo_reach. by eexists; vm_compute.
Defined.

Lemma zombie_writes_nothing_witness :
  ∃ s' w o, live (demo_run demo_lapse) 0 w (PcPersist PFirst o) ∧ w_seq w = 1 ∧
    exec 500 4 false (λ _, MinInt64) (demo_run demo_lapse) (LDb 0 None None) = Some s' ∧
    the_row s' = the_row (demo_run demo_lapse).
Proof.
  destruct (workers (demo_run demo_lapse) !! 0%nat) as [[w p]|] eqn:Hw; [|by vm_compute in Hw].
  destruct (exec 500 4 false (λ _, MinInt64) (demo_run demo_lapse) (LDb 0 None None)) as [s'|] eqn:Hs;
    [|by vm_compute in Hs].
  assert (w_seq w = 1 ∧ ∃ o, p = PcPersist PFirst o) as [Hq [o ->]].
  { vm_compute in Hw. injection Hw as <- <-. eauto. }
  assert (live (demo_run demo_lapse) 0 w (PcPersist PFirst o)) as Hl by exact (conj Hw eq_refl).
  exists s', w, o. split; [exact Hl|]. split; [exact Hq|]. split; [reflexivity|].
  apply (zombie_writes_nothing 500 4 false (λ _, MinInt64) 0 demo_row StatusRunning
    (demo_run demo_lapse) 0 w (PcPersist PFirst o) None None s').
  - done.
  - apply demo_reach. by eexists; vm_compute.
  - exact Hl.
  - by intros st.
  - by rewrite Hq.
  - rewrite Hq. by vm_compute.
  - exact Hs.
Defined.
