(* ===== verification/Lease.v ===== *)
(** * Leases: exclusion, termination, and two ways around them

    While a dispatch's lease has not lapsed nobody else can claim its step, as long as no claim
    statement fails on lock contention; a failed claim resets the step without the lease fence, and
    then two dispatches execute it at once.  Every dispatch comes to an end, whatever the database,
    the task and everyone else do. *)

From S2P Require Import Prelude Float64 Routing Reducers State Flow StepRow Dispatch LeaseInv.

#[local] Open Scope Z_scope.

(** ** Exclusion *)

(** No claim fails on contention, and the interrupt chain reaches only parked callers and steps that
    are interrupted already. *)
Definition careful (s : sys) (l : label) : Prop :=
  match l with
  | LClaimErr _ _ Contention => False
  | LChainInterrupt => r_parked (the_row s) = parkedSubgraph ∨ r_status (the_row s) = StatusInterrupted
  | _ => True
  end.

(** The row is under the lease of [w]: running, not parked, expiring when [w] was told. *)
Definition holds (s : sys) (w : worker) : Prop :=
  w_seq w = lease_seq s ∧
  (row_terminal s = true ∨
   r_status (the_row s) = StatusRunning ∧ r_parked (the_row s) = parkedNone ∧ r_lease_expires (the_row s) = w_expires w).

(** A dispatch that has not run its task yet, under a lease that has not lapsed. *)
Definition pre_run (s : sys) (d : nat) (w : worker) : Prop :=
  ∃ p, live s d w p ∧ early_pc p = true ∧ now s < w_expires w.

Record Excl (s : sys) : Prop := {
  excl_captured : ∀ d w p, live s d w p → 0 < w_seq w;
  excl_holds : ∀ d w, pre_run s d w → holds s w
}.

(** The columns a lease is about, the same in both rows. *)
Definition same_lease (r r' : row) : Prop :=
  r_lease_seq r' = r_lease_seq r ∧ r_status r' = r_status r ∧ r_parked r' = r_parked r ∧ r_lease_expires r' = r_lease_expires r.

Lemma holds_same s s' w : same_lease (the_row s) (the_row s') → holds s w → holds s' w.
Proof.
  unfold holds, row_terminal, lease_seq. intros (-> & -> & -> & ->). done.
Qed.

Lemma holds_terminal s s' w :
  lease_seq s' = lease_seq s → row_terminal s' = true → holds s w → holds s' w.
Proof. unfold holds. intros -> ? []. auto. Qed.

(** A held row is neither claimed nor recovered, and only a parked or interrupted one is resumed. *)
Lemma holds_status s w : holds s w → r_status (the_row s) = StatusRunning ∨ row_terminal s = true.
Proof. intros [_ [?|[? _]]]; auto. Qed.

Lemma status_matches l r st : in_status l r = true → r_status r = st → bool_decide (st ∈ l) = true.
Proof. unfold in_status. by intros H <-. Qed.

Lemma holds_not_in s w l :
  holds s w → in_status l (the_row s) = true → StatusRunning ∉ l → Forall (λ st, terminal st = false) l → False.
Proof.
  intros [H|H]%holds_status Hl Hn Ht.
  - apply in_status_true in Hl. by rewrite H in Hl.
  - pose proof (in_status_terminal _ _ Hl Ht). unfold row_terminal in H. congruence.
Qed.

(** A held row that matches a guard on [running] is held in earnest. *)
Lemma holds_running s w :
  holds s w → in_status [StatusRunning] (the_row s) = true →
  r_parked (the_row s) = parkedNone ∧ r_lease_expires (the_row s) = w_expires w.
Proof.
  intros [_ [H|(_&?&?)]] Hl; [|done].
  pose proof (in_status_terminal _ _ Hl). unfold row_terminal in H. rewrite H in *.
  assert (Forall (λ st, terminal st = false) [StatusRunning]) as Hf by (by repeat constructor). naive_solver.
Qed.

Section exclusion.
Context (leaseMarginMs : Z) (persistBackoff : nat) (hasErrorTransition : bool) (overflow : float64 → Z).
Abbreviation exec := (exec leaseMarginMs persistBackoff hasErrorTransition overflow).

Lemma holds_no_claim s w : holds s w → claim (now s) leaseMarginMs (the_row s) = None.
Proof.
  intros H. destruct (claim _ _ _) as [r|] eqn:Hc; [|done].
  apply update_where_Some in Hc as [Hp _]. unfold claimable in Hp. rewrite !andb_true_iff in Hp.
  destruct Hp as [[[Hp _] _] _]. destruct (holds_not_in _ _ _ H Hp); [set_solver|by repeat constructor].
Qed.

(** Everyone who is not a dispatch leaves a held row held. *)
Definition env_label (l : label) : bool :=
  match l with
  | LTick _ | LSweep | LTerminate | LMark | LChainInterrupt | LChainResume | LResume _ | LReviveResult _
  | LReviveError _ | LFlow _ => true
  | _ => false
  end.

Lemma env_holds s l s' w :
  env_label l = true → careful s l → exec s l = Some s' → holds s w → now s < w_expires w → holds s' w.
Proof.
  intros He Hc H Hh Hnow. destruct l; try done; simpl in H.
  - case_bool_decide; [|done]. simplify_eq. by eapply holds_same; [|done].
  - apply bind_Some in H as (r & [Hp ->]%update_where_Some & [= <-]). rewrite !andb_true_iff in Hp.
    destruct Hp as [[Hp _] Hx%bool_decide_eq_true]. destruct (holds_running _ _ Hh Hp). lia.
  - simplify_eq. destruct (terminate_row _ _) as [r|] eqn:Hr.
    + apply update_where_Some in Hr as [_ ->]. by apply (holds_terminal s).
    + by apply (holds_same s).
  - apply bind_Some in H as (r & [Hp ->]%update_where_Some & [= <-]). by apply (holds_same s).
  - apply bind_Some in H as (r & [Hp ->]%update_where_Some & [= <-]). exfalso. simpl in Hc.
    destruct Hh as [_ [Ht|(Hs & Hpk & _)]]; [|destruct Hc; congruence].
    eapply in_status_terminal in Hp; [|by repeat constructor]. unfold row_terminal in Ht. congruence.
  - apply bind_Some in H as (r & [Hp ->]%update_where_Some & [= <-]). exfalso.
    eapply (holds_not_in s w); [done|exact Hp|set_solver|by repeat constructor].
  - apply bind_Some in H as (r & [Hp ->]%update_where_Some & [= <-]). exfalso.
    eapply (holds_not_in s w); [done|exact Hp|set_solver|by repeat constructor].
  - apply bind_Some in H as (r & [Hp ->]%update_where_Some & [= <-]). unfold parked_caller in Hp.
    rewrite andb_true_iff, bool_decide_eq_true in Hp. destruct Hp as [Hp Hpk].
    destruct (holds_running _ _ Hh Hp). congruence.
  - apply bind_Some in H as (r & [Hp ->]%update_where_Some & [= <-]). unfold parked_caller in Hp.
    rewrite andb_true_iff, bool_decide_eq_true in Hp. destruct Hp as [Hp Hpk].
    destruct (holds_running _ _ Hh Hp). congruence.
  - simplify_eq. by apply (holds_same s).
Qed.

Lemma env_workers s l s' :
  env_label l = true → exec s l = Some s' → workers s' = workers s ∧ now s ≤ now s'.
Proof.
  intros He H. destruct l; try done; simpl in H;
    try (apply bind_Some in H as (r & _ & [= <-]); done); try (by simplify_eq).
  case_bool_decide; simplify_eq. simpl. split; [done|lia].
Qed.

Lemma Excl_worker s s' d w p p' :
  Excl s → live s d w p → workers s' = <[d := (w, p')]> (workers s) → now s' = now s →
  (early_pc p' = true → early_pc p = true ∧ the_row s' = the_row s) →
  (∀ d' w', d' ≠ d → pre_run s d' w' → holds s w' → holds s' w') →
  Excl s'.
Proof.
  intros [Hcap Hh] Hl Hw Hnow He Hoth. split.
  - intros d' w' q [(->&->&->&_)|[_ Hl']]%(live_insert _ _ _ _ _ _ _ _ Hw); by eauto.
  - intros d' w' (q & Hq & Hea & Hlt). rewrite Hnow in Hlt.
    apply (live_insert _ _ _ _ _ _ _ _ Hw) in Hq as [(->&->&->&_)|[Hne Hl']].
    + destruct (He Hea) as [Hep Hr]. apply (holds_same s); [by rewrite Hr|]. apply (Hh d). by exists p.
    + assert (pre_run s d' w') by (by exists q). apply (Hoth d'); eauto.
Qed.

(** A dispatch that moves without touching the row. *)
Lemma Excl_go s s' d w p p' :
  Excl s → live s d w p → workers s' = <[d := (w, p')]> (workers s) → now s' = now s →
  the_row s' = the_row s → early_pc p' = false → Excl s'.
Proof.
  intros HE Hl Hw Hn Hr He. eapply Excl_worker; try done; [congruence|].
  intros d' w' _ _. apply holds_same. by rewrite Hr.
Qed.

Lemma Excl_db s s' d w p : Inv s → Excl s → live s d w p → moved d w p s s' → Excl s'.
Proof.
  intros HI HE Hl (p' & evs & Hn & Hw & _ & Hm). eapply Excl_worker; [done..| |].
  - intros He. destruct (pc_move_early Hm He) as [-> _]. split; [done|]. clear He Hw.
    inversion Hm; try done; simplify_eq/=; destruct_or?; naive_solver.
  - intros d' w' Hne (q & Hl' & Hq & _) [Hseq Hh].
    pose proof (inv_worker s HI _ _ _ Hl) as [_ _ Hmk _ Hre].
    pose proof (excl_captured s HE _ _ _ Hl) as Hpos.
    assert (w_seq w ≠ lease_seq s) as Hns.
    { intros Heq. destruct Hne. apply (inv_distinct s HI _ _ _ _ _ _ Hl' Hl); [|congruence].
      by apply (excl_captured s HE _ _ _ Hl'). }
    assert (marked_pc p = false) as Hmf by (destruct (marked_pc p); [by destruct Hns; apply Hmk|done]).
    destruct (pc_move_zombie Hm Hpos Hns Hmf) as [(Hr & _)|(st & -> & Hst)].
    + apply (holds_same s); [by rewrite Hr|by split].
    + apply (holds_terminal s); [apply (pc_move_seq Hm)| |by split]. unfold row_terminal. rewrite Hst.
      by apply (inv_worker s HI _ _ _ Hl).
Qed.

(** The flow completed and its caller's revival did not. *)
Lemma Excl_lost s s1 d w p o q err :
  Excl s → live s d w p → workers s1 = workers s → now s1 = now s → the_row s1 = the_row s → early_pc q = false →
  Excl (outcome_err d w o q err s1).
Proof.
  intros HE Hl Hw Hn Hr Hq.
  destruct err; simpl.
  - apply (Excl_go s _ d w p (exit_err (is_marked o) Contention)); try done; [by simpl; rewrite Hw|].
    by destruct (is_marked o).
  - apply (Excl_go s _ d w p q); try done. by simpl; rewrite Hw.
Qed.

(** A free worker starts. *)
Lemma Excl_start s d w p :
  Excl s → (active p = true → 0 < w_seq w) → (early_pc p = true → holds s w) → Excl (set_pc d w p s).
Proof.
  intros [Hcap Hh] Hpos Hw. assert (workers (set_pc d w p s) = <[d := (w, p)]> (workers s)) as Hws by done. split.
  - intros d' w' q [(->&->&->&?)|[_ Hl]]%(live_insert _ _ _ _ _ _ _ _ Hws); eauto.
  - intros d' w' (q & Hl & Hea & Hlt).
    apply (live_insert _ _ _ _ _ _ _ _ Hws) in Hl as [(->&->&->&_)|[_ Hl]].
    + by apply (holds_same s), Hw.
    + apply (holds_same s); [done|]. apply (Hh d'). by exists q.
Qed.

(** A claim is granted only when no lease is live. *)
Lemma Excl_claimed s r d :
  Excl s → claim (now s) leaseMarginMs (the_row s) = Some r →
  Excl (add_event (EvClaim d (r_lease_seq r)) (set_row r s)).
Proof.
  intros [Hcap Hh] Hc. split; [done|].
  intros d' w (p & Hl & Hp). assert (holds s w) as Hw by (apply (Hh d'); by exists p).
  rewrite (holds_no_claim _ _ Hw) in Hc. done.
Qed.

Lemma holds_granted s r d :
  claim (now s) leaseMarginMs (the_row s) = Some r →
  holds (add_event (EvClaim d (r_lease_seq r)) (set_row r s)) (claimed_worker r).
Proof.
  intros [Hp ->]%update_where_Some. unfold claimable in Hp. rewrite !andb_true_iff in Hp.
  destruct Hp as [[[_ Hp%bool_decide_eq_true] _] _]. split; [done|]. right. by split_and!.
Qed.

Lemma Excl_exec s l s' : Inv s → Excl s → careful s l → exec s l = Some s' → Excl s'.
Proof.
  intros HI HE Hc H. destruct (env_label l) eqn:He.
  { destruct (env_workers _ _ _ He H) as [Hw Hn]. split.
    - intros d w p [Hl Ha]. apply (excl_captured s HE d w p). split; [by rewrite <- Hw|done].
    - intros d w (p & [Hl Ha] & Hea & Hlt). rewrite Hw in Hl.
      apply (env_holds s l); [done..| |lia]. apply (excl_holds s HE d). exists p. split; [done|]. split; [done|lia]. }
  destruct l; try done; simpl in H.
  - destruct (idle d s); [|done]. destruct (claim _ _ _) as [r|] eqn:Hcl; simplify_eq; [|done].
    pose proof (inv_seq s HI) as H0.
    apply (Excl_start (add_event (EvClaim d (r_lease_seq r)) (set_row r s)) d (claimed_worker r) PcReadFlow);
      [by eapply Excl_claimed| |].
    + intros _. apply update_where_Some in Hcl as [_ ->]. unfold lease_seq in *. simpl. lia.
    + intros _. by apply (holds_granted s).
  - destruct (idle d s); [|done]. destruct err; [done|]. simplify_eq. apply Excl_start; [|done|done].
    destruct (claim _ _ _) as [r|] eqn:Hcl; [|done]. destruct applied; [by eapply Excl_claimed|done].
  - destruct (workers s !! d) as [[w []]|] eqn:Hl; simplify_eq.
    destruct (dispose_pc hasErrorTransition overflow w d res loaded s) as (p' & evs & -> & _ & Hea & _).
    by eapply (Excl_go s _ d w PcExec p').
  - destruct (workers s !! d) as [[w []]|] eqn:Hl; simplify_eq.
    eapply (Excl_go s _ d w PcDecide); try done. by destruct nx.
  - destruct (workers s !! d) as [[w p]|] eqn:Hl; [|done].
    pose proof (db_step_move _ _ _ _ _ _ _ _ _ H) as Hmv.
    eapply Excl_db; [done|done| |exact Hmv].
    split; [done|]. destruct Hmv as (?&?&?&?&?&Hm). apply (pc_move_active Hm).
  - destruct (workers s !! d) as [[w p]|] eqn:Hl; [|done].
    destruct p as [| | | | | | |ps [|[]]| | | | | |]; try done.
    destruct ps as [| | |n|]; simplify_eq; eapply (Excl_lost s); try done; try (by destruct (terminal _)).
    by destruct n as [|[]].
  - destruct (workers s !! d) as [[w p]|] eqn:Hl; [|done].
    destruct p as [| | | | | | |ps o| | | | | |]; try done. destruct ps; simplify_eq.
    by eapply (Excl_go s _ d w (PcPersist (PWait n) o)).
Qed.
End exclusion.

(** C11. While a dispatch runs its task under a lease that has not lapsed, no claim on the step is
    granted and no other dispatch runs the task under an unlapsed lease - provided no claim statement
    fails on lock contention and the chain of an interrupt below reaches the row only while it is parked or
    interrupted already. *)
Theorem lease_is_exclusive leaseMarginMs persistBackoff hasErrorTransition overflow t r f s d w :
  0 ≤ r_lease_seq r →
  reach leaseMarginMs persistBackoff hasErrorTransition overflow careful (fresh_sys t r f) s →
  workers s !! d = Some (w, PcExec) → now s < w_expires w →
  claim (now s) leaseMarginMs (the_row s) = None ∧
  ∀ d' w', workers s !! d' = Some (w', PcExec) → now s < w_expires w' → d' = d.
Proof.
  intros Hr Hs Hw Hlt.
  assert (Inv s) as HI by (eapply reach_Inv; [exact Hs|]; by apply Inv_fresh).
  assert (Excl s) as HE.
  { clear Hw Hlt. induction Hs as [|s l s' Hs IH Hc He]; [by split; [intros ??? []|intros ?? (?&[]&_)]|].
    assert (Inv s) as HIs by (eapply reach_Inv; [exact Hs|]; by apply Inv_fresh).
    by apply (Excl_exec _ _ _ _ s l s' HIs (IH HIs) Hc He). }
  assert (∀ d w, workers s !! d = Some (w, PcExec) → now s < w_expires w → holds s w) as Hh.
  { intros d1 w1 H1 H2. apply (excl_holds s HE d1). by exists PcExec. }
  split; [by eapply holds_no_claim, Hh|]. intros d' w' Hw' Hlt'.
  destruct (Hh _ _ Hw Hlt) as [H1 _], (Hh _ _ Hw' Hlt') as [H2 _].
  apply (inv_distinct s HI d' w' PcExec d w PcExec); [done..| |congruence].
  by apply (excl_captured s HE d' w' PcExec).
Qed.

(** One replica runs the step; another asks for it, and finds it taken. *)
Definition demo_peer : list label := [LClaim 0; LDb 0 None None; LClaim 1; LTick 100; LMark].

Lemma careful_run leaseMarginMs persistBackoff hasErrorTransition overflow ls s0 s s' :
  reach leaseMarginMs persistBackoff hasErrorTransition overflow careful s0 s →
  Forall (λ l, l ≠ LChainInterrupt ∧ ∀ d b, l ≠ LClaimErr d b Contention) ls →
  run leaseMarginMs persistBackoff hasErrorTransition overflow ls s = Some s' →
  reach leaseMarginMs persistBackoff hasErrorTransition overflow careful s0 s'.
Proof.
  intros Hs Hls. revert s Hs. induction Hls as [|l ls [Hl Hl'] _ IH]; intros s Hs H; simpl in H; [by simplify_eq|].
  apply bind_Some in H as (s1 & H1 & H). eapply IH; [|exact H]. eapply reach_step; [done| |done].
  destruct l; try done. destruct err; [by destruct (Hl' d applied)|done].
Qed.

Lemma lease_is_exclusive_witness :
  ∃ w, workers (demo_run demo_peer) !! 0%nat = Some (w, PcExec) ∧ now (demo_run demo_peer) < w_expires w ∧
    claim (now (demo_run demo_peer)) 500 (the_row (demo_run demo_peer)) = None.
Proof.
  destruct (workers (demo_run demo_peer) !! 0%nat) as [[w p]|] eqn:Hw; [|by vm_compute in Hw].
  assert (p = PcExec ∧ w_expires w = 1500) as [-> He] by (by vm_compute in Hw; injection Hw as <- <-).
  assert (now (demo_run demo_peer) < w_expires w) as Hlt by (rewrite He; by vm_compute).
  exists w. split; [reflexivity|]. split; [exact Hlt|].
  apply (lease_is_exclusive 500 4 false (λ _, MinInt64) 0 demo_row StatusRunning (demo_run demo_peer) 0 w);
    [done| |exact Hw|exact Hlt].
  apply (careful_run 500 4 false (λ _, MinInt64) demo_peer demo_sys demo_sys); [constructor| |by vm_compute].
  by repeat constructor.
Defined.

(** ** Two ways around the rules *)

(** Dispatch 0 runs the step when the claim of dispatch 1 loses to a lock, and dispatch 2 follows. *)
Definition contended_claim : list label :=
  [LClaim 0; LDb 0 None None; LClaimErr 1 false Contention; LDb 1 None None; LClaim 2; LDb 2 None None].

(** The write fails on contention, then the failure lands. *)
Definition contended_write (d : nat) : list label := [LDb d (Some Contention) None; LDb d None (Some StatusFailed)].

(** A claim statement that fails on lock contention before it captured a lease generation resets
    the step without the lease fence, so it hands a peer's running step to a third claim: two
    dispatches then run the task at the same time, neither lease having lapsed. *)
Theorem contended_claim_steals_a_live_step :
  let s := demo_run contended_claim in
  ∃ w w', workers s !! 0%nat = Some (w, PcExec) ∧ workers s !! 2%nat = Some (w', PcExec) ∧
    now s < w_expires w ∧ now s < w_expires w' ∧ w_seq w ≠ w_seq w'.
Proof.
  eexists _, _. split; [by vm_compute|]. split; [by vm_compute|]. by vm_compute.
Qed.

(** Lock contention on the write that parks a subgraph caller or rewinds a retried step fails the
    step, and with it a flow that stops on that failure; the same contention on the completion write
    hands the step back to be dispatched again. *)
Theorem contention_fails_a_park leaseMarginMs persistBackoff hasErrorTransition overflow s d w p :
  (∃ changes, p = PcPark changes) ∨ (∃ changes sleep, p = PcRewind changes sleep) →
  workers s !! d = Some (w, p) → r_status (the_row s) = StatusRunning → r_lease_seq (the_row s) = w_seq w →
  terminal (flow_st s) = false →
  ∃ s', run leaseMarginMs persistBackoff hasErrorTransition overflow
          (contended_write d) s = Some s' ∧
    r_status (the_row s') = StatusFailed ∧ flow_st s' = StatusFailed.
Proof.
  intros Hp Hw Hst Hq Hf. simpl. rewrite Hw.
  assert (∃ msg, db_step persistBackoff hasErrorTransition d w p (Some Contention) None s =
    Some (set_pc d w (PcFail false msg Contention false false) s)) as [msg ->].
  { destruct Hp as [[c ->]|(c & sl & ->)]; by eexists. }
  simpl. rewrite lookup_insert_eq. simpl. unfold fail_row, update_where, in_status, holds_lease.
  rewrite Hst, Hq. rewrite !bool_decide_eq_true_2 by (done || set_solver). simpl.
  eexists. split; [done|]. simpl. by rewrite Hf.
Qed.

(** A retried task, about to be rewound. *)
Definition demo_retry : Flow := snd (Retry (λ _, MinInt64) 0 0 f0 0 0 NewFlow).

Lemma contention_fails_a_park_witness :
  ∃ s', run 500 4 false (λ _, MinInt64) (contended_write 0)
          (demo_run [LClaim 0; LDb 0 None None; LRun 0 (ExecOk demo_retry) true]) = Some s' ∧
    r_status (the_row s') = StatusFailed ∧ flow_st s' = StatusFailed.
Proof.
  set (s := demo_run _).
  destruct (workers s !! 0%nat) as [[w p]|] eqn:Hw; [|by vm_compute in Hw].
  assert (w_seq w = 1 ∧ ∃ c sl, p = PcRewind c sl) as [Hq Hp] by (vm_compute in Hw; injection Hw as <- <-; eauto).
  apply (contention_fails_a_park 500 4 false (λ _, MinInt64) s 0 w p); [by right|exact Hw|by vm_compute| |by vm_compute].
  rewrite Hq. by vm_compute.
Defined.

(** ** Every dispatch ends *)

(** What the database, the task, the transition and the drain answer at one step of a dispatch. *)
Record answers := mkAnswers {
  a_db : db;
  a_stops : option status_t;
  a_lost : bool;
  a_task : exec_result;
  a_loaded : bool;
  a_next : next;
  a_drained : bool
}.

(** The step of dispatch [d] at [p] under those answers. *)
Definition own_label (d : nat) (p : pc) (a : answers) : label :=
  match p with
  | PcExec => LRun d (a_task a) (a_loaded a)
  | PcDecide => LDecide d (a_next a)
  | PcPersist (PWait _) _ => LWaited d (a_drained a)
  | PcPersist (PFirst | PAgain _) (WTransition NextCompleteFlow) =>
      match a_db a with
      | Some err => if a_lost a then LReviveLost d err else LDb d (a_db a) (a_stops a)
      | None => LDb d (a_db a) (a_stops a)
      end
  | _ => LDb d (a_db a) (a_stops a)
  end.

(** The labels that do not move dispatch [d]. *)
Definition others (d : nat) (l : label) : bool :=
  match l with
  | LClaim d' | LClaimErr d' _ _ | LRun d' _ _ | LDecide d' _ | LDb d' _ _ | LReviveLost d' _ | LWaited d' _ =>
      negb (bool_decide (d' = d))
  | _ => true
  end.

(** How many steps are left at most. *)
Definition pos_rank (persistBackoff : nat) (p : pos) : nat :=
  match p with
  | PFirst => 2 * persistBackoff + 3
  | PExtend => 2 * persistBackoff + 2
  | PWait n => 2 * n + 1
  | PAgain n => 2 * n
  | PRelease => 0
  end.

Definition pc_rank (persistBackoff : nat) (p : pc) : nat :=
  let transition := (2 * persistBackoff + 6)%nat in
  let completion := (transition + 4)%nat in
  match p with
  | PcReadFlow => completion + 2 * persistBackoff + 5
  | PcExec => completion + 2 * persistBackoff + 4
  | PcPersist q (WComplete _ _) => completion + pos_rank persistBackoff q
  | PcReason _ => transition + 3
  | PcOnErr _ => transition + 2
  | PcDecide => transition + 1
  | PcPersist q (WTransition _) => 3 + pos_rank persistBackoff q
  | PcPark _ => 4
  | PcChild | PcRewind _ _ => 3
  | PcReap _ | PcInterrupt _ _ | PcFail _ _ _ _ _ => 2
  | PcRecover _ => 1
  | PcDone => 0
  end.

(** A schedule: turns of dispatch [d] with its answers, and steps of everyone else. *)
Fixpoint drive (exec : sys → label → option sys) (d : nat) (sched : list (answers + label)) (s : sys) : sys :=
  match sched with
  | [] => s
  | inl a :: sched =>
      drive exec d sched match workers s !! d with
                         | Some (_, p) => default s (exec s (own_label d p a))
                         | None => s
                         end
  | inr l :: sched => drive exec d sched (if others d l then default s (exec s l) else s)
  end.

Definition turns (sched : list (answers + label)) : nat := length (omap (λ x, match x with inl a => Some a | inr _ => None end) sched).

Section termination.
Context (leaseMarginMs : Z) (persistBackoff : nat) (hasErrorTransition : bool) (overflow : float64 → Z).
Abbreviation exec := (exec leaseMarginMs persistBackoff hasErrorTransition overflow).
Abbreviation rank := (pc_rank persistBackoff).

(** The dispatch moved, to a pc of lower rank. *)
Definition descends (d : nat) (w : worker) (p : pc) (s' : sys) : Prop :=
  ∃ p', workers s' !! d = Some (w, p') ∧ (rank p' < rank p)%nat.

Lemma descends_set_pc d w p p' s : (rank p' < rank p)%nat → descends d w p (set_pc d w p' s).
Proof. intros. exists p'. simpl. by rewrite lookup_insert_eq. Qed.

Lemma descends_keep d w p s s' : workers s' = workers s → descends d w p s → descends d w p s'.
Proof. unfold descends. by intros ->. Qed.

Lemma fenced_descends d w p r e p' s :
  (0 < rank p)%nat → (∀ r, (rank (p' r) < rank p)%nat) → descends d w p (fenced d w r e p' s).
Proof.
  intros H0 Hp. unfold fenced. destruct r.
  - eapply descends_keep; [|apply descends_set_pc, Hp]. done.
  - by apply descends_set_pc.
Qed.

Lemma exit_err_rank m err : (rank (exit_err m err) ≤ 1)%nat.
Proof. destruct m, err; simpl; lia. Qed.

Lemma again_rank n o : (rank (ladder (pred n) o) < rank (PcPersist (PAgain n) o))%nat.
Proof. destruct n as [|[|n]], o; simpl; lia. Qed.

Lemma extend_rank o : (rank (ladder persistBackoff o) < rank (PcPersist PExtend o))%nat.
Proof. destruct persistBackoff, o; simpl; lia. Qed.

Lemma outcome_ok_descends d w q o stops s : descends d w (PcPersist q o) (outcome_ok d w o stops s).
Proof.
  destruct o as [c b|nx]; simpl.
  - apply fenced_descends; [simpl; lia|]. intros r. destruct (_ && _); simpl; lia.
  - destruct (_ && _); [apply descends_set_pc; simpl; lia|].
    eapply descends_keep; [|eapply (descends_set_pc d w (PcPersist q (WTransition nx)) PcDone); simpl; lia].
    destruct nx; [..|destruct pureArrival]; try (destruct stops); done.
Qed.

Lemma outcome_err_descends d w q o p' err s :
  (rank p' < rank (PcPersist q o))%nat → descends d w (PcPersist q o) (outcome_err d w o p' err s).
Proof.
  intros H. destruct err; simpl; apply descends_set_pc; [|done].
  pose proof (exit_err_rank (is_marked o) Contention). destruct o; simpl in *; lia.
Qed.

Lemma db_descends d w p res stops s :
  match p with PcExec | PcDecide | PcDone | PcPersist (PWait _) _ => False | _ => True end →
  ∃ s', db_step persistBackoff hasErrorTransition d w p res stops s = Some s' ∧ descends d w p s'.
Proof.
  intros Hp.
  assert (∀ p', (rank p' < rank p)%nat → ∀ s0, workers s0 = workers s →
    descends d w p (set_pc d w p' s0)) as Hset by (intros; by apply descends_set_pc).
  assert (∀ m err, (1 < rank p)%nat → descends d w p (set_pc d w (exit_err m err) s)) as Hexit.
  { intros m err H. apply Hset; [|done]. pose proof (exit_err_rank m err). lia. }
  destruct p as [|st| |c pl|c| |c sl|ps o|c|c| |c msg err b m|from|]; try done.
  - destruct res; eexists; (split; [reflexivity|]); [apply Hexit; simpl; lia|].
    apply Hset; [|done]. destruct (terminal _); simpl; lia.
  - destruct res; eexists; (split; [reflexivity|]); [apply Hexit; simpl; lia|].
    eapply (descends_keep _ _ _ (set_pc d w PcDone s)); [done|]. apply Hset; [simpl; lia|done].
  - destruct res; eexists; (split; [reflexivity|]); [apply Hexit; simpl; lia|].
    destruct (interrupt_leaf _ _ _ _ _); [eapply (descends_keep _ _ _ (set_pc d w PcDone s)); [done|]|];
      (apply Hset; [simpl; lia|done]).
  - destruct res; eexists; (split; [reflexivity|]); [apply Hset; [simpl; lia|done]|].
    apply fenced_descends; simpl; intros; lia.
  - destruct res; eexists; (split; [reflexivity|]); (apply Hset; [simpl; lia|done]).
  - destruct res; eexists; (split; [reflexivity|]); [apply Hset; [simpl; lia|done]|].
    apply fenced_descends; simpl; intros; lia.
  - destruct ps, res; try done; eexists; (split; [reflexivity|]);
      try apply outcome_ok_descends; try (apply outcome_err_descends; first [apply again_rank|destruct o; simpl; lia]).
    + apply Hset; [apply extend_rank|done].
    + destruct (extend_lease _ _ _).
      * eapply (descends_keep _ _ _ (set_pc d w (ladder persistBackoff o) s)); [done|].
        apply Hset; [apply extend_rank|done].
      * apply Hset; [destruct o; simpl; lia|done].
    + apply Hset; [destruct o; simpl; lia|done].
    + eapply (descends_keep _ _ _ (set_pc d w PcDone s)); [done|]. apply Hset; [destruct o; simpl; lia|done].
  - destruct res; eexists; (split; [reflexivity|]); [apply Hexit; simpl; lia|].
    apply Hset; [|done]. destruct hasErrorTransition; simpl; lia.
  - destruct res; eexists; (split; [reflexivity|]); [apply Hexit; simpl; lia|].
    eapply (descends_keep _ _ _ (set_pc d w PcDecide s)); [done|]. apply Hset; [simpl; lia|done].
  - destruct res; eexists; (split; [reflexivity|]); [apply Hexit; simpl; lia|].
    destruct (fail_row _ _ _ _ _); [|apply Hset; [simpl; lia|done]].
    eapply (descends_keep _ _ _ (set_pc d w (if b then PcDone else exit_err m err) s)); [by destruct stops|].
    apply Hset; [|done]. pose proof (exit_err_rank m err). destruct b; simpl in *; lia.
  - destruct res; eexists; (split; [reflexivity|]); [apply Hset; [simpl; lia|done]|].
    eapply (descends_keep _ _ _ (set_pc d w PcDone s)); [done|]. apply Hset; [simpl; lia|done].
Qed.

(** A turn of a dispatch under way always fires, and brings it closer to its end. *)
Lemma own_descends s d w p a :
  workers s !! d = Some (w, p) → active p = true →
  ∃ s', exec s (own_label d p a) = Some s' ∧ descends d w p s'.
Proof.
  intros Hw Ha.
  assert (∀ res stops, match p with PcExec | PcDecide | PcDone | PcPersist (PWait _) _ => False | _ => True end →
    ∃ s', exec s (LDb d res stops) = Some s' ∧ descends d w p s') as Hdb.
  { intros. simpl. rewrite Hw. by apply db_descends. }
  destruct p as [|st| |c pl|c| |c sl|ps o|c|c| |c msg err b m|from|]; try done; try (by apply Hdb); simpl own_label.
  - simpl. rewrite Hw. eexists. split; [reflexivity|].
    unfold run_step. apply descends_set_pc.
    destruct (dispose _ _ _ _ _ _ _); [..|destruct (a_loaded a)| |]; simpl; lia.
  - destruct ps as [| |n|n|]; try (by apply Hdb).
    1, 3: destruct o as [|[]]; try (by apply Hdb); destruct (a_db a) as [err|]; [|by apply Hdb];
      destruct (a_lost a); [|by apply Hdb]; simpl; rewrite Hw; eexists; (split; [reflexivity|]).
    + eapply (descends_keep _ _ _ (outcome_err d w (WTransition NextCompleteFlow) (PcPersist PExtend (WTransition NextCompleteFlow)) err s));
        [by destruct err, (terminal _)|]. apply outcome_err_descends. simpl. lia.
    + eapply (descends_keep _ _ _ (outcome_err d w (WTransition NextCompleteFlow) (ladder (pred n) (WTransition NextCompleteFlow)) err s));
        [by destruct err, (terminal _)|]. apply outcome_err_descends, again_rank.
    + simpl. rewrite Hw. eexists. split; [reflexivity|].
      apply descends_set_pc. destruct (a_drained a), o; simpl; lia.
  - simpl. rewrite Hw. eexists. split; [reflexivity|].
    apply descends_set_pc. destruct (a_next a); simpl; lia.
Qed.

(** Everyone else leaves the dispatch where it is. *)
Lemma others_keep s l s' d : others d l = true → exec s l = Some s' → workers s' !! d = workers s !! d.
Proof.
  intros Ho H. destruct l; simpl in Ho, H;
    try (apply bind_Some in H as (r & _ & [= <-]); done); try (by simplify_eq);
    try (apply negb_true_iff, bool_decide_eq_false in Ho).
  - case_bool_decide; by simplify_eq.
  - destruct (idle _ s); [|done]. destruct (claim _ _ _); simplify_eq; [|done]. simpl. by rewrite lookup_insert_ne.
  - destruct (idle _ s); [|done]. simplify_eq. simpl. rewrite lookup_insert_ne by done.
    destruct (claim _ _ _); [|done]. by destruct applied.
  - destruct (workers s !! d0) as [[w []]|]; simplify_eq. unfold run_step. simpl. rewrite lookup_insert_ne by done.
    by destruct (_ && _).
  - destruct (workers s !! d0) as [[w []]|]; simplify_eq. simpl. by rewrite lookup_insert_ne.
  - destruct (workers s !! d0) as [[w p]|]; [|done]. apply db_step_move in H as (p' & _ & _ & -> & _).
    by rewrite lookup_insert_ne.
  - destruct (workers s !! d0) as [[w p]|]; [|done]. destruct p as [| | | | | | |ps [|[]]| | | | | |]; try done.
    destruct ps; simplify_eq; destruct err, (terminal _); simpl; by rewrite lookup_insert_ne.
  - destruct (workers s !! d0) as [[w p]|]; [|done]. destruct p as [| | | | | | |ps o| | | | | |]; try done.
    destruct ps; simplify_eq. simpl. by rewrite lookup_insert_ne.
Qed.

Lemma drive_done d sched : ∀ s w p,
  workers s !! d = Some (w, p) → (rank p ≤ turns sched)%nat →
  workers (drive exec d sched s) !! d = Some (w, PcDone).
Proof.
  induction sched as [|[a|l] sched IH]; intros s w p Hw Hr.
  - cbn in Hr. simpl. rewrite Hw. destruct p as [| | | | | | |q []| | | | | |]; simpl in Hr; try lia. done.
  - simpl. rewrite Hw. destruct (active p) eqn:Ha.
    + destruct (own_descends s d w p a Hw Ha) as (s' & -> & p' & Hw' & Hlt). simpl.
      apply (IH s' w p' Hw'). change (turns (inl a :: sched)) with (S (turns sched)) in Hr. lia.
    + destruct p; try done. simpl. rewrite Hw. simpl. apply (IH s w PcDone Hw). simpl. lia.
  - simpl. unfold turns in Hr. simpl in Hr. destruct (others d l) eqn:Ho; [|by eapply IH].
    destruct (exec s l) as [s'|] eqn:He; [|by eapply IH]. simpl.
    eapply IH; [|exact Hr]. by rewrite (others_keep _ _ _ _ Ho He).
Qed.
End termination.

(** C13. A dispatch ends: given [4 * n + 15] turns, [n] the backoffs of the write ladder, a claimed
    dispatch returns, whatever the database, the task, the transition and the drain answer and
    whatever every other dispatch, sweep and operation does in between. *)
Theorem dispatch_terminates leaseMarginMs persistBackoff hasErrorTransition overflow s d w sched :
  workers s !! d = Some (w, PcReadFlow) → (4 * persistBackoff + 15 ≤ turns sched)%nat →
  workers (drive (exec leaseMarginMs persistBackoff hasErrorTransition overflow) d sched s) !! d = Some (w, PcDone).
Proof. intros Hw Ht. eapply drive_done; [exact Hw|]. simpl. lia. Qed.

(** Every write fails, every wait runs out, and the step is never settled. *)
Definition demo_outage : answers := mkAnswers (Some OtherError) None true (ExecOk NewFlow) true NextCompleteFlow false.
Definition demo_answers : answers := mkAnswers None None false (ExecOk NewFlow) true NextCompleteFlow false.
Definition demo_sched : list (answers + label) :=
  inl demo_answers :: inr (LTick 5000) :: inr LSweep :: replicate 30 (inl demo_outage).

Lemma dispatch_terminates_witness :
  (31 ≤ turns demo_sched)%nat ∧
  snd <$> workers (drive (exec 500 4 false (λ _, MinInt64)) 0 demo_sched (demo_run [LClaim 0])) !! 0%nat = Some PcDone.
Proof.
  assert (31 ≤ turns demo_sched)%nat as Ht by (by vm_compute; lia).
  split; [exact Ht|].
  destruct (workers (demo_run [LClaim 0]) !! 0%nat) as [[w p]|] eqn:Hw; [|by vm_compute in Hw].
  assert (p = PcReadFlow) as -> by (by vm_compute in Hw; injection Hw as <- <-).
  by rewrite (dispatch_terminates 500 4 false (λ _, MinInt64) (demo_run [LClaim 0]) 0 w demo_sched Hw Ht).
Defined.
