(* ===== verification/Cancel.v ===== *)
(** * Cancelling a flow ([engine/operations.go], [engine/execution.go])

    Cancel is two statements: one raises the flow's watermark to its newest step and records the
    reason, the next marks the steps at or below it that are still under way.  A step hands its mark on
    through the statement that inserts its successors ([successorInsertSQL]).  The machine below runs
    any number of Cancel calls next to the steps of one flow; each label is one statement.

    What the flow's graph does with a cancellation - a handler, or failing the flow - is the caller's
    choice of the successors; the walk over the subgraph tree repeats the same statements per flow. *)

From S2P Require Import Prelude.

#[local] Open Scope Z_scope.

(** ** The rows *)

(** Where a step is; [covered] is its own mark as of its completion write ([inheritCancel] is its
    negation), and an advanced step has had its transition committed. *)
Inductive phase :=
| Pending | Running | Interrupted
| Completed (covered : bool)
| Advanced (covered : bool)
| Stopped.

Record cstep := mkCStep { c_source : Z; c_phase : phase; c_cancelling : bool }.

(** Where one Cancel call is: it has read a watermark of zero, it has raised it, it has returned. *)
Inductive call := CallRaise | CallMark | CallDone (ok : bool).

Record flow_rows := mkRows {
  steps : gmap Z cstep;
  next_id : Z;
  watermark : Z;
  cancel_reason : option string;
  stopped : bool;
  calls : gmap nat call
}.

Definition set_steps (m : gmap Z cstep) (s : flow_rows) : flow_rows :=
  mkRows m (next_id s) (watermark s) (cancel_reason s) (stopped s) (calls s).
Definition set_call (c : nat) (p : call) (s : flow_rows) : flow_rows :=
  mkRows (steps s) (next_id s) (watermark s) (cancel_reason s) (stopped s) (<[c := p]> (calls s)).
Definition set_phase (p : phase) (r : cstep) : cstep := mkCStep (c_source r) p (c_cancelling r).
Definition set_mark (r : cstep) : cstep := mkCStep (c_source r) (c_phase r) true.

(** ** The statements *)

(** The guarded write of the reason and the watermark; [MAX(step_id)] is the newest step's id. *)
Definition raise_watermark (reason : string) (s : flow_rows) : flow_rows :=
  if stopped s || negb (bool_decide (watermark s = 0)) then s
  else mkRows (steps s) (next_id s) (next_id s - 1) (Some reason) (stopped s) (calls s).

Definition under_way (p : phase) : bool := match p with Pending | Running | Interrupted => true | _ => false end.

(** The mark. *)
Definition mark_steps (s : flow_rows) : flow_rows :=
  set_steps (map_imap (λ id r, Some (if under_way (c_phase r) && bool_decide (id ≤ watermark s) then set_mark r else r))
    (steps s)) s.

(** [successorInsertSQL]: the successor is marked when its source was there at the Cancel and was not
    covered itself. *)
Definition inherits (covered : bool) (source : Z) (s : flow_rows) : bool :=
  negb covered && bool_decide (source ≤ watermark s).

Fixpoint insert_successors (source : Z) (mark : bool) (n : nat) (s : flow_rows) : flow_rows :=
  match n with
  | O => s
  | S n =>
      insert_successors source mark n
        (mkRows (<[next_id s := mkCStep source Pending mark]> (steps s)) (next_id s + 1) (watermark s)
           (cancel_reason s) (stopped s) (calls s))
  end.

(** A step's status moves by one of the engine's writes. *)
Definition move (from : phase → bool) (to : cstep → phase) (id : Z) (s : flow_rows) : option flow_rows :=
  r ← steps s !! id;
  if from (c_phase r) then Some (set_steps (<[id := set_phase (to r) r]> (steps s)) s) else None.

Inductive clabel :=
| CStart (c : nat)
| CRaise (c : nat) (reason : string) (ok : bool)
| CMark (c : nat) (ok : bool)
| CClaim (id : Z)
| CInterrupt (id : Z)
| CRepend (id : Z)
| CComplete (id : Z)
| CRewind (id : Z)
| CAdvance (id : Z) (successors : nat)
| CSettle (id : Z)
| CStopFlow.

Definition is_completed (p : phase) : bool := match p with Completed _ => true | _ => false end.

(** A statement that fails leaves the rows alone, and the call returns the error. *)
Definition cexec (s : flow_rows) (l : clabel) : option flow_rows :=
  match l with
  | CStart c =>
      match calls s !! c with
      | None | Some (CallDone _) =>
          Some (set_call c (if bool_decide (watermark s = 0) then CallRaise else CallDone true) s)
      | _ => None
      end
  | CRaise c reason ok =>
      match calls s !! c with
      | Some CallRaise => Some (if ok then set_call c CallMark (raise_watermark reason s) else set_call c (CallDone false) s)
      | _ => None
      end
  | CMark c ok =>
      match calls s !! c with
      | Some CallMark => Some (set_call c (CallDone ok) (if ok then mark_steps s else s))
      | _ => None
      end
  | CClaim id => move (λ p, match p with Pending => true | _ => false end) (λ _, Running) id s
  | CInterrupt id => move (λ p, match p with Running => true | _ => false end) (λ _, Interrupted) id s
  | CRepend id => move (λ p, match p with Running | Interrupted => true | _ => false end) (λ _, Pending) id s
  | CComplete id => move (λ p, match p with Running => true | _ => false end) (λ r, Completed (c_cancelling r)) id s
  | CRewind id => move is_completed (λ _, Pending) id s
  | CAdvance id n =>
      r ← steps s !! id;
      match c_phase r with
      | Completed covered =>
          if stopped s && bool_decide (0 < n)%nat then None
          else s' ← move is_completed (λ _, Advanced covered) id s;
               Some (insert_successors id (inherits covered id s) n s')
      | _ => None
      end
  | CSettle id => move (λ p, under_way p || is_completed p) (λ _, Stopped) id s
  | CStopFlow => Some (mkRows (steps s) (next_id s) (watermark s) (cancel_reason s) true (calls s))
  end.

(** A flow starts with its entry step, and nothing cancelled. *)
Definition entry_rows : flow_rows := mkRows {[1 := mkCStep 0 Pending false]} 2 0 None false ∅.

Inductive creach : flow_rows → Prop :=
| creach_entry : creach entry_rows
| creach_step s l s' : creach s → cexec s l = Some s' → creach s'.

Fixpoint crun (ls : list clabel) (s : flow_rows) : option flow_rows :=
  match ls with [] => Some s | l :: ls => s' ← cexec s l; crun ls s' end.

Lemma crun_reach ls s s' : creach s → crun ls s = Some s' → creach s'.
Proof.
  revert s. induction ls as [|l ls IH]; intros s Hs H; simpl in H; [by simplify_eq|].
  apply bind_Some in H as (s1 & H1 & H). eapply IH; [|exact H]. by eapply creach_step.
Qed.

(** ** The invariant *)

Definition was_covered (r : cstep) : Prop := match c_phase r with Completed b | Advanced b => b = true | _ => False end.

(** What a step was completed with is its mark. *)
Definition mark_settled (r : cstep) : Prop :=
  match c_phase r with Completed b | Advanced b => b = c_cancelling r | _ => True end.

Lemma covered_marked r : mark_settled r → was_covered r → c_cancelling r = true.
Proof. unfold mark_settled, was_covered. destruct (c_phase r); congruence || done. Qed.

(** The source chain: [anc s x y] when [x] is a proper ancestor of [y]. *)
Inductive anc (s : flow_rows) : Z → Z → Prop :=
| anc_source id r : steps s !! id = Some r → is_Some (steps s !! c_source r) → anc s (c_source r) id
| anc_trans x y z : anc s x y → anc s y z → anc s x z.

Definition covered_at (s : flow_rows) (id : Z) : Prop := ∃ r, steps s !! id = Some r ∧ was_covered r.

Record CInv (s : flow_rows) : Prop := {
  cinv_ids : ∀ id r, steps s !! id = Some r → 0 < id < next_id s ∧ c_source r < id;
  cinv_next : 1 < next_id s;
  cinv_water : 0 ≤ watermark s < next_id s;
  (** A successor's source has advanced. *)
  cinv_source : ∀ id r, steps s !! id = Some r →
    c_source r = 0 ∨ ∃ src b, steps s !! c_source r = Some src ∧ c_phase src = Advanced b;
  (** Only a Cancel marks, and a covered step carries its mark. *)
  cinv_marked : ∀ id r, steps s !! id = Some r → c_cancelling r = true ∨ was_covered r → 0 < watermark s;
  cinv_covered : ∀ id r, steps s !! id = Some r → mark_settled r;
  cinv_reason : 0 < watermark s → is_Some (cancel_reason s);
  (** A step at or below the watermark was there before the Cancel: its source was not covered. *)
  cinv_below : ∀ id r src, 0 < watermark s → steps s !! id = Some r → id ≤ watermark s →
    steps s !! c_source r = Some src → ¬ was_covered src;
  (** Above it, a marked step comes from an uncovered step below it, and the rest from covered steps or
      from steps above it. *)
  cinv_above : ∀ id r, 0 < watermark s → steps s !! id = Some r → watermark s < id →
    ∃ src, steps s !! c_source r = Some src ∧
      (if c_cancelling r then c_source r ≤ watermark s ∧ ¬ was_covered src
       else was_covered src ∨ watermark s < c_source r)
}.

Definition is_advanced (p : phase) : bool := match p with Advanced _ => true | _ => false end.

Lemma CInv_calls s s' :
  CInv s → steps s' = steps s → next_id s' = next_id s → watermark s' = watermark s →
  cancel_reason s' = cancel_reason s → CInv s'.
Proof. intros [] H1 H2 H3 H4. split; rewrite ?H1, ?H2, ?H3, ?H4; auto. Qed.

(** Updating rows in place: sources and ids stay, and no source's phase changes. *)
Record same_shape (s s' : flow_rows) : Prop := {
  ss_next : next_id s' = next_id s;
  ss_water : watermark s' = watermark s;
  ss_reason : cancel_reason s' = cancel_reason s;
  ss_back : ∀ id r', steps s' !! id = Some r' →
    ∃ r, steps s !! id = Some r ∧ c_source r' = c_source r ∧
      (is_advanced (c_phase r) = true → c_phase r' = c_phase r);
  ss_forth : ∀ id r, steps s !! id = Some r → is_advanced (c_phase r) = true →
    ∃ r', steps s' !! id = Some r' ∧ c_phase r' = c_phase r;
  ss_covered : ∀ id r', steps s' !! id = Some r' → mark_settled r';
  ss_marked : ∀ id r', steps s' !! id = Some r' → c_cancelling r' = true → 0 < watermark s';
  ss_above : ∀ id r r', steps s !! id = Some r → steps s' !! id = Some r' → watermark s < id →
    c_cancelling r' = c_cancelling r
}.

Lemma CInv_shape s s' : CInv s → same_shape s s' → CInv s'.
Proof.
  intros [Hid Hnx Hw Hsrc Hmk Hcov Hre Hbe Hab] [Sn Sw Sr Sb Sf Sc Sm Sa].
  assert (∀ r src, steps s !! c_source r = Some src → (∃ id, steps s !! id = Some r) → ∃ src', steps s' !! c_source r = Some src' ∧
    c_phase src' = c_phase src) as Hfor.
  { intros r src Hs [id Hr]. apply Sf; [done|].
    destruct (Hsrc _ _ Hr) as [H0|(src' & b & Hs' & Hp)]; [|simplify_eq; by rewrite Hp].
    rewrite H0 in Hs. destruct (Hid _ _ Hs). lia. }
  split; rewrite ?Sn, ?Sw, ?Sr; auto.
  - intros id r' Hr. destruct (Sb _ _ Hr) as (r & Hr0 & -> & _). eauto.
  - intros id r' Hr. destruct (Sb _ _ Hr) as (r & Hr0 & -> & _).
    destruct (Hsrc _ _ Hr0) as [?|(src & b & Hs & Hp)]; [by left|right].
    destruct (Hfor r src Hs) as (src' & -> & Hp'); [eauto|]. exists src', b. by rewrite Hp'.
  - intros id r' Hr [Hc|Hc]; rewrite <- Sw; [by eapply Sm|]. eapply Sm; [exact Hr|]. eapply covered_marked; [by eapply Sc|done].
  - intros id r' src' H0 Hr Hle Hs'. destruct (Sb _ _ Hr) as (r & Hr0 & Heq & _). rewrite Heq in Hs'.
    destruct (Sb _ _ Hs') as (src & Hs & _). destruct (Hfor r src Hs) as (src2 & Hs2 & Hp2); [eauto|]. simplify_eq.
    specialize (Hbe _ _ _ H0 Hr0 Hle Hs). unfold was_covered in *. by rewrite Hp2.
  - intros id r' H0 Hr Hlt. destruct (Sb _ _ Hr) as (r & Hr0 & Heq & _). rewrite Heq.
    destruct (Hab _ _ H0 Hr0 Hlt) as (src & Hs & Hc). destruct (Hfor r src Hs) as (src' & Hs' & Hp'); [eauto|].
    exists src'. split; [done|]. rewrite (Sa _ _ _ Hr0 Hr Hlt).
    unfold was_covered in *. rewrite Hp'. exact Hc.
Qed.

Lemma CInv_move s id r p :
  CInv s → steps s !! id = Some r → is_advanced (c_phase r) = false →
  mark_settled (set_phase p r) →
  CInv (set_steps (<[id := set_phase p r]> (steps s)) s).
Proof.
  intros HI Hr Hp Hcov. eapply CInv_shape; [exact HI|]. split; try done; simpl.
  - intros id' r'. destruct (decide (id' = id)) as [->|Hne].
    + rewrite lookup_insert_eq. intros [= <-]. exists r. split_and!; [done..|]. by rewrite Hp.
    + rewrite lookup_insert_ne by done. eauto.
  - intros id' r' Hr' Ha. rewrite lookup_insert_ne by congruence. eauto.
  - intros id' r'. destruct (decide (id' = id)) as [->|Hne].
    + rewrite lookup_insert_eq. intros [= <-]. auto.
    + rewrite lookup_insert_ne by done. apply (cinv_covered s HI).
  - intros id' r'. destruct (decide (id' = id)) as [->|Hne].
    + rewrite lookup_insert_eq. intros [= <-] Hc. apply (cinv_marked s HI _ _ Hr). by left.
    + rewrite lookup_insert_ne by done. intros Hr' Hc. apply (cinv_marked s HI _ _ Hr'). by left.
  - intros id' r1 r2 H1. destruct (decide (id' = id)) as [->|Hne].
    + rewrite lookup_insert_eq. intros [= <-]. by simplify_eq.
    + rewrite lookup_insert_ne by done. by intros; simplify_eq.
Qed.

Lemma CInv_mark s : CInv s → CInv (mark_steps s).
Proof.
  intros HI. unfold mark_steps.
  assert (∀ id r', steps (mark_steps s) !! id = Some r' ↔ ∃ r, steps s !! id = Some r ∧
    r' = if under_way (c_phase r) && bool_decide (id ≤ watermark s) then set_mark r else r) as Hl.
  { intros id r'. unfold mark_steps. simpl. rewrite map_lookup_imap. destruct (steps s !! id) as [r|]; simpl; naive_solver. }
  eapply CInv_shape; [exact HI|]. split; try done.
  - intros id r' (r & Hr & ->)%Hl. exists r. split; [done|]. by destruct (_ && _).
  - intros id r Hr Ha. eexists. split; [apply Hl; eauto|]. by destruct (_ && _).
  - intros id r' (r & Hr & ->)%Hl. pose proof (cinv_covered s HI _ _ Hr) as Hm.
    destruct (under_way (c_phase r)) eqn:Hu; [|done]. destruct (bool_decide _); [|done].
    unfold mark_settled. simpl. by destruct (c_phase r).
  - intros id r' (r & Hr & ->)%Hl. destruct (_ && _) eqn:Hm.
    + intros _. apply andb_true_iff in Hm as [_ Hm%bool_decide_eq_true].
      destruct (cinv_ids s HI _ _ Hr). simpl. lia.
    + intros Hc. apply (cinv_marked s HI _ _ Hr). by left.
  - intros id r r' Hr (r2 & Hr2 & ->)%Hl Hlt. simplify_eq.
    rewrite (bool_decide_eq_false_2 (id ≤ watermark s)) by lia. by rewrite andb_false_r.
Qed.

Lemma CInv_raise reason s : CInv s → CInv (raise_watermark reason s).
Proof.
  intros [Hid Hnx Hw Hsrc Hmk Hcov Hre Hbe Hab]. unfold raise_watermark.
  destruct (stopped s || _) eqn:Hg; [by split|].
  apply orb_false_iff in Hg as [_ Hg%negb_false_iff%bool_decide_eq_true].
  split; simpl; try done; try lia.
  - intros id r src _ Hr _ Hs Hc. assert (0 < watermark s) by (eapply Hmk; [exact Hs|by right]). lia.
  - intros id r _ Hr Hlt. destruct (Hid _ _ Hr). lia.
Qed.

Lemma CInv_insert s src r b mark n :
  CInv s → steps s !! src = Some r → c_phase r = Advanced b → mark = inherits b src s →
  CInv (insert_successors src mark n s).
Proof.
  revert s. induction n as [|n IH]; intros s HI Hr Hp Hm; [done|]. simpl. apply IH; [|simpl|done|done].
  2: { destruct (cinv_ids s HI _ _ Hr). by rewrite lookup_insert_ne by lia. }
  pose proof (cinv_ids s HI _ _ Hr) as [Hsrc Hsrc']. destruct HI as [Hid Hnx Hw Hso Hmk Hcov Hre Hbe Hab].
  set (new := mkCStep src Pending mark).
  assert (∀ x y, <[next_id s := new]> (steps s) !! x = Some y →
    (x = next_id s ∧ y = new) ∨ (x ≠ next_id s ∧ steps s !! x = Some y)) as Hl.
  { intros x y. destruct (decide (x = next_id s)) as [->|Hne];
      [rewrite lookup_insert_eq; intros [= <-]; by left|rewrite lookup_insert_ne by done; by right]. }
  assert (∀ x y, steps s !! x = Some y → <[next_id s := new]> (steps s) !! x = Some y) as Hold.
  { intros x y Hx. destruct (Hid _ _ Hx). by rewrite lookup_insert_ne by lia. }
  assert (∀ id r', steps s !! id = Some r' → c_source r' ≠ next_id s) as Hns.
  { intros id r' Hx. destruct (Hid _ _ Hx). lia. }
  split; simpl; [|lia|lia| | | |done| |].
  - intros id y [[-> ->]|[_ Hy]]%Hl; [simpl; lia|]. destruct (Hid _ _ Hy). lia.
  - intros id y [[-> ->]|[_ Hy]]%Hl; [right; eauto|].
    destruct (Hso _ _ Hy) as [?|(s0 & b0 & H1 & H2)]; [by left|right; eauto].
  - intros id y [[-> ->]|[_ Hy]]%Hl; [|by eapply Hmk].
    intros [Hc|[]]. simpl in Hc. subst mark. unfold inherits in Hc.
    apply andb_true_iff in Hc as [_ Hc%bool_decide_eq_true]. lia.
  - intros id y [[-> ->]|[_ Hy]]%Hl; [done|by eapply Hcov].
  - intros id y z H0 [[-> ->]|[_ Hy]]%Hl Hle Hz; [lia|].
    apply Hl in Hz as [[Heq _]|[_ Hz]]; [by destruct (Hns _ _ Hy)|]. by eapply (Hbe id).
  - intros id y H0 [[-> ->]|[_ Hy]]%Hl Hlt.
    + exists r. simpl. split; [by apply Hold|]. subst mark. unfold was_covered, inherits. rewrite Hp.
      destruct b; simpl; [by left|]. case_bool_decide; [done|right; lia].
    + destruct (Hab _ _ H0 Hy Hlt) as (z & Hz & Hc). exists z. split; [by apply Hold|done].
Qed.

Lemma cexec_CInv s l s' : CInv s → cexec s l = Some s' → CInv s'.
Proof.
  intros HI H. destruct l as [c|c reason ok|c ok|id|id|id|id|id|id n|id|]; simpl in H.
  - assert (CInv (set_call c (if bool_decide (watermark s = 0) then CallRaise else CallDone true) s)) by by apply (CInv_calls s).
    destruct (calls s !! c) as [[]|]; by simplify_eq.
  - destruct (calls s !! c) as [[]|]; simplify_eq. destruct ok.
    + by apply (CInv_calls (raise_watermark reason s)); [apply CInv_raise|..].
    + by apply (CInv_calls s).
  - destruct (calls s !! c) as [[]|]; simplify_eq. destruct ok.
    + by apply (CInv_calls (mark_steps s)); [apply CInv_mark|..].
    + by apply (CInv_calls s).
  - apply bind_Some in H as (r & Hr & H). destruct (c_phase r) eqn:Hp; simpl in H; simplify_eq. apply CInv_move; try done. by rewrite Hp.
  - apply bind_Some in H as (r & Hr & H). destruct (c_phase r) eqn:Hp; simpl in H; simplify_eq. apply CInv_move; try done. by rewrite Hp.
  - apply bind_Some in H as (r & Hr & H). destruct (c_phase r) eqn:Hp; simpl in H; simplify_eq; apply CInv_move; try done; by rewrite Hp.
  - apply bind_Some in H as (r & Hr & H). destruct (c_phase r) eqn:Hp; simpl in H; simplify_eq. apply CInv_move; try done. by rewrite Hp.
  - apply bind_Some in H as (r & Hr & H). destruct (c_phase r) eqn:Hp; simpl in H; simplify_eq. apply CInv_move; try done. by rewrite Hp.
  - apply bind_Some in H as (r & Hr & H). destruct (c_phase r) as [| | |b| |] eqn:Hp; simplify_eq.
    destruct (stopped s && _); [done|]. unfold move in H. rewrite Hr in H. simpl in H. rewrite Hp in H. simpl in H. simplify_eq.
    eapply (CInv_insert _ id (set_phase (Advanced b) r) b); [|simpl; by rewrite lookup_insert_eq|done|done].
    apply CInv_move; [done|done|by rewrite Hp|].
    pose proof (cinv_covered s HI _ _ Hr) as Hc. unfold mark_settled in *. by rewrite Hp in Hc.
  - apply bind_Some in H as (r & Hr & H). destruct (c_phase r) eqn:Hp; simpl in H; simplify_eq; apply CInv_move; try done; by rewrite Hp.
  - simplify_eq. by apply (CInv_calls s).
Qed.

Lemma creach_CInv s : creach s → CInv s.
Proof.
  induction 1; eauto using cexec_CInv.
  assert (∀ id r, steps entry_rows !! id = Some r → id = 1 ∧ r = mkCStep 0 Pending false) as Hl.
  { simpl. intros id r [<- <-]%lookup_singleton_Some. done. }
  split; simpl; try done; try lia.
  - intros id r [-> ->]%Hl. simpl. lia.
  - intros id r [-> ->]%Hl. by left.
  - intros id r [-> ->]%Hl [|[]]. done.
  - intros id r [-> ->]%Hl. done.
Qed.

(** ** What a cancellation reaches *)

Lemma anc_lt s x y : CInv s → anc s x y → x < y.
Proof.
  intros HI. induction 1 as [id r Hr _|]; [|lia]. by destruct (cinv_ids s HI _ _ Hr).
Qed.

(** The last link of a chain. *)
Lemma anc_last s x y : anc s x y →
  ∃ r, steps s !! y = Some r ∧ is_Some (steps s !! c_source r) ∧ (x = c_source r ∨ anc s x (c_source r)).
Proof.
  induction 1 as [id r Hr Hs|x y z Hxy _ _ (r & Hr & Hs & Hc)]; [by eauto|].
  exists r. split; [done|]. split; [done|]. right. destruct Hc as [<-|Hc]; [done|]. by eapply anc_trans.
Qed.

Lemma anc_below s x y : CInv s → 0 < watermark s → y ≤ watermark s → anc s x y → ¬ covered_at s x.
Proof.
  intros HI H0 Hy Ha [rx [Hrx Hc]]. 
  assert (∀ z, z ≤ watermark s → anc s x z → False) as Hno; [|by eapply Hno].
  clear y Hy Ha. intros z. induction (Z.lt_wf 0 z) as [z _ IH]. intros Hz Ha.
  destruct (anc_last _ _ _ Ha) as (r & Hr & [src Hs] & Hx).
  destruct (cinv_ids s HI _ _ Hr) as [Hzb Hzl]. destruct Hx as [->|Hx].
  - by eapply (cinv_below s HI z r rx).
  - destruct (cinv_ids s HI _ _ Hs). apply (IH (c_source r)); [lia|lia|done].
Qed.

(** C10. A cancellation is delivered once and reaches everything.  Of two steps the Cancel covered,
    neither descends from the other, so no handler that caught the cancellation, and nothing it led
    to, is cancelled again; every step started after the Cancel is marked, or descends from a step
    that was covered; and a marked step finds the Cancel's reason recorded. *)
Theorem cancel_is_delivered_once s :
  creach s →
  (∀ x y, covered_at s x → covered_at s y → ¬ anc s x y) ∧
  (∀ id r, 0 < watermark s → watermark s < id → steps s !! id = Some r →
     c_cancelling r = true ∨ (∃ x, covered_at s x ∧ anc s x id)) ∧
  (∀ id r, steps s !! id = Some r → c_cancelling r = true → is_Some (cancel_reason s)).
Proof.
  intros Hs. apply creach_CInv in Hs as HI. split_and!.
  - intros x y Hx [ry [Hy Hcy]] Ha.
    assert (0 < watermark s) as H0 by (eapply (cinv_marked s HI); [exact Hy|by right]).
    destruct (decide (y ≤ watermark s)) as [Hle|Hgt]; [by eapply anc_below|].
    destruct (cinv_above s HI _ _ H0 Hy) as (src & Hsrc & Hc); [lia|].
    rewrite (covered_marked _ (cinv_covered s HI _ _ Hy) Hcy) in Hc. destruct Hc as [Hle Hnc].
    destruct (anc_last _ _ _ Ha) as (r & Hr & _ & Hcase). rewrite Hy in Hr. injection Hr as <-.
    destruct Hcase as [->|Hcase].
    + destruct Hx as (rx & Hrx & Hcx). rewrite Hsrc in Hrx. by injection Hrx as <-.
    + by apply (anc_below s x (c_source ry)).
  - intros id r H0 Hlt Hr. destruct (c_cancelling r) eqn:Hc; [by left|right].
    revert r Hlt Hr Hc. induction (Z.lt_wf 0 id) as [id _ IH]. intros r Hlt Hr Hc.
    destruct (cinv_above s HI _ _ H0 Hr Hlt) as (src & Hsrc & Hor). rewrite Hc in Hor.
    assert (anc s (c_source r) id) as Ha by (eapply anc_source; eauto).
    destruct Hor as [Hcov|Hgt]; [by exists (c_source r); split; [by exists src|]|].
    destruct (c_cancelling src) eqn:Hm.
    + exists (c_source r). split; [|done]. exists src. split; [done|].
      destruct (cinv_source s HI _ _ Hr) as [H1|(src' & b & Hs' & Hp)]; [lia|]. simplify_eq.
      pose proof (cinv_covered s HI _ _ Hsrc) as Hset. unfold was_covered, mark_settled in *. rewrite Hp in *. congruence.
    + destruct (cinv_ids s HI _ _ Hr), (cinv_ids s HI _ _ Hsrc).
      destruct (IH (c_source r) ltac:(lia) src Hgt Hsrc Hm) as (x & Hx & Hxa).
      exists x. split; [done|]. by eapply anc_trans.
  - intros id r Hr Hc. apply (cinv_reason s HI). eapply (cinv_marked s HI); [exact Hr|by left].
Qed.

(** The entry step is cancelled while it runs; its handler and what follows are not. *)
Definition demo_cancel : list clabel :=
  [CClaim 1; CStart 0; CRaise 0 "stop" true; CMark 0 true; CComplete 1; CAdvance 1 1; CClaim 2; CComplete 2; CAdvance 2 2].

(** Cancelled between the completion and the transition, the step's successors are marked instead. *)
Definition demo_gap : list clabel :=
  [CClaim 1; CComplete 1; CStart 0; CRaise 0 "stop" true; CMark 0 true; CAdvance 1 2].

Lemma cancel_is_delivered_once_witness :
  ∃ s, crun demo_cancel entry_rows = Some s ∧ covered_at s 1 ∧ c_cancelling <$> steps s !! 3 = Some false ∧
    (∀ y, covered_at s y → ¬ anc s 1 y) ∧
    ∃ s', crun demo_gap entry_rows = Some s' ∧ c_cancelling <$> steps s' !! 3 = Some true.
Proof.
  destruct (crun demo_cancel entry_rows) as [s|] eqn:Hs; [|by vm_compute in Hs].
  assert (covered_at s 1 ∧ c_cancelling <$> steps s !! 3 = Some false) as [H1 H3].
  { vm_compute in Hs. injection Hs as <-. split; [by eexists|done]. }
  exists s. split; [reflexivity|]. split; [exact H1|]. split; [exact H3|]. split.
  - intros y Hy. apply (cancel_is_delivered_once s); [|exact H1|exact Hy].
    eapply crun_reach; [apply creach_entry|exact Hs].
  - destruct (crun demo_gap entry_rows) as [s'|] eqn:Hs'; [|by vm_compute in Hs'].
    exists s'. split; [reflexivity|]. vm_compute in Hs'. by injection Hs' as <-.
Defined.

(** Cancel fails at its second statement, and is called again. *)
Definition failed_mark : list clabel :=
  [CStart 0; CRaise 0 "stop" true; CMark 0 false; CStart 0; CClaim 1; CComplete 1].

(** A Cancel whose mark failed cannot be repaired by calling it again: the second call finds the
    watermark raised and reports success, and the pending step is claimed, runs its task and completes
    uncovered. *)
Theorem failed_mark_is_not_repaired :
  ∃ s, crun failed_mark entry_rows = Some s ∧ calls s !! 0%nat = Some (CallDone true) ∧
    steps s !! 1 = Some (mkCStep 0 (Completed false) false).
Proof. eexists. split; [by vm_compute|]. by vm_compute. Qed.
