(* ===== verification/Tree.v ===== *)
(** * The subgraph tree ([engine/completion.go], [engine/operations.go], [engine/wedge.go])

    A step that calls a subgraph is parked, and the child is a flow of its own that names the caller
    step; the flows so linked are a tree.  This file models the operations that walk it - the interrupt
    that propagates up, Resume that walks back down, the termination of a subtree, the delivery of a
    child's outcome, and the sweeps that repair a link that was lost - over the tables of flows and steps.
    A step row is [StepRow]'s, and the statements are [StepRow]'s too.

    A flow's rows of the query [WHERE root_flow_id = ...] come in the order of [map_to_list]; SQL
    promises none.  The merge that computes a final state is [FanInState]'s subject and an argument here. *)

From S2P Require Import Prelude Worklist State ErrorText StepRow.

#[local] Open Scope Z_scope.

(** ** The tables *)

Record tflow := mkTFlow {
  tf_status : status_t;
  tf_parent : Z;
  tf_caller : Z;
  tf_root : Z;
  tf_final : State;
  tf_error : string;
  tf_reason : string
}.

Record db := mkDb { tnow : Z; flows : gmap Z tflow; tsteps : gmap Z (Z * row) }.

Definition set_tstatus (st : status_t) (f : tflow) : tflow :=
  mkTFlow st (tf_parent f) (tf_caller f) (tf_root f) (tf_final f) (tf_error f) (tf_reason f).
Definition settle_flow (st : status_t) (final : State) (err reason : string) (f : tflow) : tflow :=
  mkTFlow st (tf_parent f) (tf_caller f) (tf_root f) final err reason.

(** [UPDATE dwarf_steps ... WHERE p]: rows the statement does not match stay. *)
Definition update_steps (p : Z → Z → bool) (stmt : row → option row) (d : db) : db :=
  mkDb (tnow d) (flows d)
    (map_imap (λ id '(f, r), Some (f, if p id f then default r (stmt r) else r)) (tsteps d)).
Definition update_flows (p : Z → tflow → bool) (g : Z → tflow → tflow) (d : db) : db :=
  mkDb (tnow d) (map_imap (λ id f, Some (if p id f then g id f else f)) (flows d)) (tsteps d).

Definition one_of (l : list Z) (id : Z) : bool := bool_decide (id ∈ l).

(** [strings.TrimSpace]: the white space runes in UTF-8, off the front and off the back. *)
Definition bytes (l : list nat) : string := foldr (λ n s, String (Ascii.ascii_of_nat n) s) "" l.
Definition spaces : list string :=
  map bytes ([[9]; [10]; [11]; [12]; [13]; [32]; [194; 133]; [194; 160]; [225; 154; 128]; [226; 128; 168];
    [226; 128; 169]; [226; 128; 175]; [226; 129; 159]; [227; 128; 128]]
    ++ map (λ n, [226; 128; 128 + n]%nat) (seq 0 11))%nat.
Fixpoint strip (p s : string) : option string :=
  match p, s with
  | "", _ => Some s
  | String a p, String b s => if Ascii.eqb a b then strip p s else None
  | _, _ => None
  end%string.
Fixpoint trim_front (l : list string) (fuel : nat) (s : string) : string :=
  match fuel with
  | O => s
  | S fuel => match head (omap (λ p, strip p s) l) with Some s => trim_front l fuel s | None => s end
  end.
Definition TrimSpace (s : string) : string :=
  let s := trim_front spaces (String.length s) s in
  String.rev (trim_front (map String.rev spaces) (String.length s) (String.rev s)).

(** ** Walking the tree *)

(** The rows with the flow's [root_flow_id]. *)
Definition same_tree (d : db) (flowID : Z) (fl : tflow) : bool :=
  match flows d !! flowID with Some f => bool_decide (tf_root fl = tf_root f) | None => false end.
Definition tree_rows (d : db) (flowID : Z) : list (Z * tflow) :=
  filter (λ e, same_tree d flowID e.2 = true) (map_to_list (flows d)).

(** [surgraphChain]: the flows and the caller steps from a flow up to its root.  Parents are older than
    their children, so a flow's own id bounds the walk. *)
Fixpoint chain_up (d : db) (tree : Z) (fuel : nat) (cur : Z) : list Z * list Z :=
  match fuel with
  | O => ([], [])
  | S fuel =>
      match flows d !! cur with
      | Some fl =>
          if negb (same_tree d tree fl) || bool_decide (tf_parent fl = 0) then ([], [])
          else let '(fs, ss) := chain_up d tree fuel (tf_parent fl) in (tf_parent fl :: fs, tf_caller fl :: ss)
      | None => ([], [])
      end
  end.

Definition surgraphChain (d : db) (flowID : Z) : list Z * list Z :=
  let '(fs, ss) := chain_up d flowID (Z.to_nat flowID) flowID in (flowID :: fs, ss).

(** The children of a flow, terminal ones left out. *)
Definition live_children (d : db) (tree cur : Z) : list Z :=
  (filter (λ e, tf_parent e.2 = cur ∧ terminal (tf_status e.2) = false) (tree_rows d tree)).*1.

(** [allSubgraphFlows]: breadth first, through flows that are not terminal. *)
Definition visit_children (d : db) (tree cur : Z) (collected queue : list Z) : result unit (list Z * list Z) :=
  let cs := live_children d tree cur in Ok (collected ++ cs, queue ++ cs).
Definition allSubgraphFlows (d : db) (flowID : Z) : list Z :=
  match search (visit_children d flowID) tt (S (size (flows d))) [] [flowID] with Ok l => l | Err _ => [] end.

(** The interrupted step of a flow that comes first by [updated_at], then by id. *)
Definition earlier (a b : Z * (Z * row)) : bool :=
  let ta := r_updated_at a.2.2 in
  let tb := r_updated_at b.2.2 in
  bool_decide (ta < tb) || bool_decide (ta = tb) && bool_decide (a.1 < b.1).
Definition pick_earliest (l : list (Z * (Z * row))) : option (Z * (Z * row)) :=
  foldr (λ e best, match best with
                   | Some b => Some (if earlier e b then e else b)
                   | None => Some e
                   end) None l.
Definition interrupted_steps (d : db) (flowID : Z) : list (Z * (Z * row)) :=
  filter (λ e, e.2.1 = flowID ∧ r_status e.2.2 = StatusInterrupted) (map_to_list (tsteps d)).
Definition interrupted_leaf (d : db) (flowID : Z) : option Z := fst <$> pick_earliest (interrupted_steps d flowID).

(** The interrupted child that names a step as its caller; of several, the last row wins. *)
Definition child_of (d : db) (tree step : Z) : option Z :=
  last (filter (λ e, tf_caller e.2 = step ∧ tf_caller e.2 ≠ 0 ∧ tf_status e.2 = StatusInterrupted) (tree_rows d tree)).*1.

(** [interruptedSubgraphChain]: down the interrupted callers to the leaf. *)
Fixpoint chain_down (d : db) (tree : Z) (fuel : nat) (cur : Z) : option (list Z * list Z) :=
  match fuel with
  | O => None
  | S fuel =>
      leaf ← interrupted_leaf d cur;
      match child_of d tree leaf with
      | None => Some ([], [leaf])
      | Some child => '(fs, ss) ← chain_down d tree fuel child; Some (child :: fs, leaf :: ss)
      end
  end.
Definition interruptedSubgraphChain (d : db) (flowID : Z) : option (list Z * list Z) :=
  '(fs, ss) ← chain_down d flowID (size (flows d)) flowID; Some (flowID :: fs, ss).

(** ** The operations *)

Inductive op_error := NotFound | BadRequest | Conflict.

(** [handleInterrupt]: the chain, the payload and the flows in one transaction, or nothing. *)
Definition handleInterrupt (stepID leaseSeq : Z) (changes payload : State) (d : db) : option db :=
  '(flowID, leaf) ← tsteps d !! stepID;
  let '(chainFlows, chainSteps) := surgraphChain d flowID in
  let d1 := update_steps (λ id _, bool_decide (id = stepID)) (interrupt_row (tnow d) (Some changes))
              (update_steps (λ id _, one_of chainSteps id && negb (bool_decide (id = stepID))) (interrupt_row (tnow d) None) d) in
  '(_, leaf') ← tsteps d1 !! stepID;
  if holds_lease leaseSeq leaf' && in_status [StatusInterrupted] leaf' then
    let d2 := update_steps (λ id _, one_of (stepID :: chainSteps) id) (λ r, Some (payload_row payload r)) d1 in
    Some (update_flows (λ id f, one_of chainFlows id && bool_decide (tf_status f ∈ [StatusRunning; StatusInterrupted]))
            (λ _, set_tstatus StatusInterrupted) d2)
  else None.

(** A flow runs again once none of its steps is interrupted. *)
Definition resume_flow (d : db) (id : Z) : db :=
  update_flows (λ id' f, bool_decide (id' = id) && bool_decide (tf_status f = StatusInterrupted)
                         && bool_decide (interrupted_steps d id = [])) (λ _, set_tstatus StatusRunning) d.

(** [resume]. *)
Definition resume (flowID : Z) (data : State) (d : db) : result op_error db :=
  match flows d !! flowID with
  | None => Err NotFound
  | Some fl =>
      if negb (bool_decide (tf_parent fl = 0)) then Err BadRequest
      else if negb (bool_decide (tf_status fl = StatusInterrupted)) then Err Conflict
      else
        let '(upFlows, upSteps) := surgraphChain d flowID in
        match interruptedSubgraphChain d flowID with
        | None => Err Conflict
        | Some (downFlows, downSteps) =>
            match last downSteps with
            | None => Err Conflict
            | Some leaf =>
                let parkSteps := upSteps ++ removelast downSteps in
                match tsteps d !! leaf with
                | Some (_, r) =>
                    if negb (r_interrupt_done r) then Err Conflict
                    else
                      let d := update_steps (λ id _, one_of (leaf :: parkSteps) id) (λ r, Some (clear_payload r)) d in
                      let d := update_steps (λ id _, one_of parkSteps id) (resume_caller (tnow d)) d in
                      let d := update_steps (λ id _, bool_decide (id = leaf)) (resume_leaf (tnow d) data) d in
                      Ok (foldl resume_flow d (upFlows ++ tail downFlows))
                | None => Err Conflict
                end
            end
        end
  end.

(** [terminateSubtree]; [final] is the final state of each flow, computed after the steps were stopped. *)
Definition terminateSubtree (final : db → Z → State) (flowID : Z) (reason : string) (conflictIfSettled : bool) (d : db)
    : result op_error db :=
  let ids := flowID :: allSubgraphFlows d flowID in
  let d1 := update_steps (λ _ f, one_of ids f) (terminate_row (tnow d)) d in
  let hits := λ id f, one_of ids id && negb (terminal (tf_status f)) in
  if conflictIfSettled && negb (existsb (λ e, hits e.1 e.2) (map_to_list (flows d1))) then Err Conflict
  else Ok (update_flows hits (λ id f, settle_flow StatusTerminated (final d1 id) (tf_error f) (TrimSpace reason) f) d1).

(** [Terminate]. *)
Definition terminate (final : db → Z → State) (flowID : Z) (reason : string) (d : db) : result op_error db :=
  match flows d !! flowID with
  | None => Err NotFound
  | Some fl =>
      if negb (bool_decide (tf_parent fl = 0)) then Err BadRequest
      else if terminal (tf_status fl) then Err Conflict
      else terminateSubtree final flowID reason true d
  end.

(** An error as it is delivered to a caller: its message, and whether it is the cancellation. *)
Record suberr := mkErr { err_msg : string; err_cancelled : bool }.

(** [cancelmarker.New]. *)
Definition cancelmarker_New (reason : string) : suberr :=
  mkErr ("flow cancelled" +:+ (if bool_decide (reason = "") then "" else ": " +:+ reason)) true.

(** [final] computes a flow's final state, [encode] is the errors package's JSON form. *)
Section delivery.
Context (final : db → Z → State) (encode : suberr → string).

(** [completeSurgraphFlow] and [deliverFlowFailureToParent]. *)
Definition completeSurgraphFlow (stepID : Z) (res : State) (d : db) : db :=
  update_steps (λ id _, bool_decide (id = stepID)) (revive_result (tnow d) res) d.
Definition deliverFlowFailureToParent (stepID : Z) (err : suberr) (d : db) : db :=
  if bool_decide (stepID = 0) then d
  else update_steps (λ id _, bool_decide (id = stepID)) (revive_error (tnow d) (encode err)) d.

(** [deliverSubgraphError]: a child that is not terminal fails first. *)
Definition deliverSubgraphError (child stepID : Z) (err : suberr) (d : db) : db :=
  let d := if bool_decide (child = 0) then d
           else update_flows (λ id f, bool_decide (id = child) && negb (terminal (tf_status f)))
                  (λ id f, settle_flow StatusFailed (final d id) (sanitizeErrorMessage (err_msg err)) (tf_reason f) f) d in
  deliverFlowFailureToParent stepID err d.
End delivery.

(** ** Creating and discarding flows *)

(** The entry step: pending and claimable at once. *)
Definition entry_row (now time_budget_ms : Z) : row :=
  mkRow StatusPending parkedNone 0 now now 0 time_budget_ms 0 now false false false ∅ ∅ ∅ "" ∅ "".

(** [insertFlowTx]; the ids are the database's. *)
Definition insertFlowTx (newFlowID newStepID surgraphFlowID surgraphStepID rootFlowID budget : Z) (d : db) : db :=
  let rfid := if bool_decide (rootFlowID = 0) then newFlowID else rootFlowID in
  mkDb (tnow d)
    (<[newFlowID := mkTFlow StatusRunning surgraphFlowID surgraphStepID rfid ∅ "" ""]> (flows d))
    (<[newStepID := (newFlowID, entry_row (tnow d) budget)]> (tsteps d)).

(** [createSubgraphFlow]: the child inherits its parent's root. *)
Definition createSubgraphFlow (newFlowID newStepID surgraphFlowID surgraphStepID budget : Z) (d : db) : option db :=
  p ← flows d !! surgraphFlowID;
  Some (insertFlowTx newFlowID newStepID surgraphFlowID surgraphStepID (tf_root p) budget d).

(** [deleteSubgraphFlowsRootedAt]: level by level below a caller step, then both tables. *)
Definition root_children (d : db) (stepID : Z) : list Z :=
  (filter (λ e, tf_caller e.2 = stepID) (map_to_list (flows d))).*1.
Definition nested_flows (d : db) (current : list Z) : list Z :=
  (filter (λ e, tf_parent e.2 ∈ current) (map_to_list (flows d))).*1.
Fixpoint delete_levels (d : db) (fuel : nat) (current all : list Z) : option (list Z) :=
  match current with
  | [] => Some all
  | _ => match fuel with
         | O => None
         | S fuel => let nested := nested_flows d current in delete_levels d fuel nested (all ++ nested)
         end
  end.
Definition deleteSubgraphFlowsRootedAt (stepID : Z) (d : db) : option db :=
  let rootChildren := root_children d stepID in
  all ← delete_levels d (S (size (flows d))) rootChildren rootChildren;
  Some (mkDb (tnow d) (filter (λ e, e.1 ∉ all) (flows d)) (filter (λ e, e.2.1 ∉ all) (tsteps d))).

(** ** Repairing a caller whose child has settled *)

(** The latest child decides: the newest flow that names the caller. *)
Definition latest_child (d : db) (stepID : Z) : option (Z * tflow) :=
  foldr (λ e best, if bool_decide (tf_caller e.2 = stepID)
                   then match best with Some b => Some (if bool_decide (b.1 < e.1) then e else b) | None => Some e end
                   else best) None (map_to_list (flows d)).

Definition status_name (st : status_t) : string :=
  match st with
  | StatusCreated => "created" | StatusPending => "pending" | StatusRunning => "running"
  | StatusInterrupted => "interrupted" | StatusCompleted => "completed" | StatusFailed => "failed"
  | StatusTerminated => "terminated" | StatusCancelled => "cancelled"
  end.

(** What the latest child leaves for its caller: its final state, or an error. *)
Definition outcome (child : option (Z * tflow)) : State + suberr :=
  match child with
  | None => inr (mkErr "subgraph flow not found (wedge recovery)" false)
  | Some (_, f) =>
      match tf_status f with
      | StatusCompleted => inl (tf_final f)
      | StatusCancelled => inr (cancelmarker_New (TrimSpace (tf_reason f)))
      | st => let msg := TrimSpace (tf_error f) in
              inr (mkErr (if bool_decide (msg = "") then "subgraph " +:+ status_name st else msg) false)
      end
  end.

Section repair.
Context (final : db → Z → State) (encode : suberr → string).

Definition unwedge (stepID : Z) (d : db) : db :=
  let child := latest_child d stepID in
  match outcome child with
  | inl res => completeSurgraphFlow stepID res d
  | inr err => deliverSubgraphError final encode (default 0 (fst <$> child)) stepID err d
  end.
End repair.

(** ** Lemmas on the statements *)

Lemma lookup_update_steps p stmt d id :
  tsteps (update_steps p stmt d) !! id
  = (λ '(f, r), (f, if p id f then default r (stmt r) else r)) <$> tsteps d !! id.
Proof. simpl. rewrite map_lookup_imap. by destruct (tsteps d !! id) as [[f r]|]. Qed.

Lemma lookup_update_flows p g d id :
  flows (update_flows p g d) !! id = (λ f, if p id f then g id f else f) <$> flows d !! id.
Proof. simpl. rewrite map_lookup_imap. by destruct (flows d !! id). Qed.

Lemma tsteps_update_flows p g d : tsteps (update_flows p g d) = tsteps d.
Proof. done. Qed.

Lemma one_of_spec l id : one_of l id = true ↔ id ∈ l.
Proof. apply bool_decide_eq_true. Qed.

Lemma terminal_settled r now :
  terminal (r_status (default r (terminate_row now r))) = true.
Proof.
  unfold terminate_row, update_where, in_status.
  case_bool_decide as H; [done|]. cbn [default from_option id]. by destruct (r_status r); set_solver.
Qed.

(** ** Well-formed trees *)

(** A child is younger than its parent, belongs to the same root and names a caller step of its parent;
    a step belongs to a flow; pending is a status of steps only. *)
Record tree_ok (d : db) : Prop := mkTreeOk {
  ok_parent : ∀ id f, flows d !! id = Some f → tf_parent f ≠ 0 →
    0 < tf_parent f < id ∧ ∃ p, flows d !! tf_parent f = Some p ∧ tf_root p = tf_root f;
  ok_root : ∀ id f, flows d !! id = Some f → tf_parent f = 0 → tf_root f = id;
  ok_caller : ∀ id f, flows d !! id = Some f → tf_parent f ≠ 0 →
    tf_caller f ≠ 0 ∧ ∃ r, tsteps d !! tf_caller f = Some (tf_parent f, r);
  ok_root_caller : ∀ id f, flows d !! id = Some f → tf_parent f = 0 → tf_caller f = 0;
  ok_positive : ∀ id f, flows d !! id = Some f → 0 < id;
  ok_status : ∀ id f, flows d !! id = Some f → tf_status f ≠ StatusPending;
  ok_step : ∀ s f r, tsteps d !! s = Some (f, r) → s ≠ 0 ∧ is_Some (flows d !! f)
}.

(** A live flow under a terminal parent: what a Terminate leaves that raced the creation of a child, and
    the orphan sweep repairs. *)
Definition under_settled (d : db) (f : tflow) : bool :=
  negb (terminal (tf_status f)) && match flows d !! tf_parent f with Some p => terminal (tf_status p) | None => false end.
Definition no_orphans (d : db) : Prop := map_Forall (λ _ f, under_settled d f = false) (flows d).

Lemma no_orphans_parent d id f p : no_orphans d → flows d !! id = Some f → terminal (tf_status f) = false →
  flows d !! tf_parent f = Some p → terminal (tf_status p) = false.
Proof. intros Hno Hf Hl Hp. specialize (Hno id f Hf). unfold under_settled in Hno. by rewrite Hl, Hp in Hno. Qed.

Lemma live_children_spec d tree cur x :
  x ∈ live_children d tree cur ↔
  ∃ f, flows d !! x = Some f ∧ same_tree d tree f = true ∧ tf_parent f = cur ∧ terminal (tf_status f) = false.
Proof.
  unfold live_children, tree_rows. rewrite list_elem_of_fmap. split.
  - intros ([id f] & -> & H). rewrite !list_elem_of_filter in H.
    destruct H as ((Hp & Hl) & Ht & Hin). apply elem_of_map_to_list in Hin. eauto.
  - intros (f & Hf & Ht & Hp & Hl). exists (x, f). split; [done|].
    rewrite !list_elem_of_filter. by rewrite elem_of_map_to_list.
Qed.

Lemma live_children_NoDup d tree cur : NoDup (live_children d tree cur).
Proof.
  unfold live_children, tree_rows.
  eapply sublist_NoDup; [apply (NoDup_fst_map_to_list (flows d))|]. apply fmap_sublist.
  etrans; apply sublist_filter.
Qed.

(** ** The breadth-first walk finds every live descendant *)

Section walk.
Context (d : db) (root : Z) (Hok : tree_ok d) (Hroot : is_Some (flows d !! root)).

Definition child (p x : Z) : Prop := x ∈ live_children d root p.

Lemma child_older p x : child p x → 0 < p → p < x.
Proof using Hok.
  intros (f & Hf & _ & <- & _)%live_children_spec Hp.
  destruct (ok_parent d Hok x f Hf) as [[_ Hlt] _]; lia.
Qed.
Lemma child_one_parent p p' x : child p x → child p' x → p = p'.
Proof using Type.
  intros (f & Hf & _ & <- & _)%live_children_spec (f' & Hf' & _ & <- & _)%live_children_spec. by simplify_eq.
Qed.

(** The flows visited so far have all their children collected, each once. *)
Definition walk_inv (collected queue : list Z) : Prop :=
  ∃ visited, root :: collected = visited ++ queue ∧ NoDup collected
    ∧ (∀ x, x ∈ collected ↔ ∃ p, p ∈ visited ∧ child p x) ∧ Forall (λ x, root < x) collected.

Lemma collected_fits collected :
  NoDup collected → (∀ x, x ∈ collected → ∃ p, child p x) → (length collected ≤ size (flows d))%nat.
Proof using Type.
  intros Hnd Hin. rewrite <-size_dom, <-(size_list_to_set (C:=gset Z) collected) by done.
  apply subseteq_size. intros x Hx%elem_of_list_to_set. destruct (Hin x Hx) as [p (f & Hf & _)%live_children_spec].
  by apply elem_of_dom_2 in Hf.
Qed.

Lemma visit_keeps_walk v collected queue : walk_inv collected (v :: queue) →
  walk_inv (collected ++ live_children d root v) (queue ++ live_children d root v)
  ∧ (size (flows d) - length (collected ++ live_children d root v) + length (queue ++ live_children d root v)
     ≤ size (flows d) - length collected + length queue)%nat.
Proof using Hok Hroot.
  intros (visited & Heq & Hnd & Hall & Hlt).
  assert (NoDup (root :: collected)) as Hnd'.
  { constructor; [|done]. intros Hin. rewrite Forall_forall in Hlt. specialize (Hlt root Hin). lia. }
  assert (v ∉ visited) as Hnew.
  { rewrite Heq in Hnd'. apply NoDup_app in Hnd' as (_ & Hd & _). intros Hv. apply (Hd v Hv). left. }
  assert (root ≤ v) as Hge.
  { assert (v ∈ root :: collected) as [->|Hv]%elem_of_cons by (rewrite Heq; set_solver); [done|].
    rewrite Forall_forall in Hlt. specialize (Hlt v Hv). lia. }
  assert (0 < root) as Hpos by (destruct Hroot as [f Hf]; by apply (ok_positive d Hok root f)).
  assert (NoDup (collected ++ live_children d root v)) as Hnd2.
  { apply NoDup_app. split; [done|]. split; [|apply live_children_NoDup].
    intros x (p & Hp & Hc)%Hall Hx. by rewrite (child_one_parent _ _ _ Hc Hx) in Hp. }
  assert (∀ x, x ∈ collected ++ live_children d root v ↔ ∃ p, p ∈ visited ++ [v] ∧ child p x) as Hall2.
  { intros x. rewrite elem_of_app, Hall. split.
    - intros [(p & Hp & Hc)|Hc]; eexists; (split; [|done]); set_solver.
    - intros (p & [Hp| ->%list_elem_of_singleton]%elem_of_app & Hc); [left; eauto|by right]. }
  split.
  - exists (visited ++ [v]). split_and!; [|done|done|].
    + rewrite app_comm_cons, Heq, <-!app_assoc. done.
    + apply Forall_app. split; [done|]. apply Forall_forall. intros x Hx.
      pose proof (child_older v x Hx ltac:(lia)). lia.
  - pose proof (collected_fits _ Hnd2 (λ x Hx, let '(ex_intro _ p (conj _ Hc)) := proj1 (Hall2 x) Hx in ex_intro _ p Hc)) as Hfit.
    rewrite !length_app in *. lia.
Qed.

Lemma allSubgraphFlows_spec : ∃ visited, root :: allSubgraphFlows d root = visited ∧
  ∀ x, x ∈ allSubgraphFlows d root ↔ ∃ p, p ∈ visited ∧ child p x.
Proof using Hok Hroot.
  unfold allSubgraphFlows.
  pose proof (search_spec (visit_children d root) tt walk_inv (λ _, False) (λ c, size (flows d) - length c)%nat
    (S (size (flows d))) [] [root]) as Hs.
  destruct (search _ _ _ _ _) as [l|e].
  - destruct Hs as (visited & Heq & _ & Hall & _).
    + intros v st queue Hinv. by apply visit_keeps_walk.
    + exists []. split_and!; [done|constructor| |constructor]. intros x. set_solver.
    + simpl. lia.
    + rewrite app_nil_r in Heq. exists visited. by split.
  - exfalso. apply Hs; [|exists []|simpl; lia].
    + intros v st queue Hinv. by apply visit_keeps_walk.
    + split_and!; [done|constructor| |constructor]. intros x. set_solver.
Qed.

Lemma collected_live x : x ∈ allSubgraphFlows d root →
  ∃ f, flows d !! x = Some f ∧ same_tree d root f = true ∧ terminal (tf_status f) = false.
Proof using Hok Hroot.
  destruct allSubgraphFlows_spec as (visited & _ & Hall). intros (p & _ & (f & Hf & Ht & _ & Hl)%live_children_spec)%Hall. eauto.
Qed.

Lemma collected_family x : x ∈ root :: allSubgraphFlows d root →
  ∃ f rf, flows d !! x = Some f ∧ flows d !! root = Some rf ∧ tf_root f = tf_root rf.
Proof using Hok Hroot.
  destruct Hroot as [rf Hrf]. intros [->|Hx]%elem_of_cons; [by eauto|].
  destruct (collected_live x Hx) as (f & Hf & Ht & _). unfold same_tree in Ht. rewrite Hrf in Ht.
  apply bool_decide_eq_true in Ht. eauto.
Qed.

(** The set is closed under live children. *)
Lemma walk_closed p x f : p ∈ root :: allSubgraphFlows d root → flows d !! x = Some f → tf_parent f = p →
  terminal (tf_status f) = false → x ∈ allSubgraphFlows d root.
Proof using Hok Hroot.
  intros Hp Hf Hpar Hl. destruct allSubgraphFlows_spec as (visited & Heq & Hall).
  apply Hall. exists p. split; [by rewrite <-Heq|]. apply live_children_spec. exists f. split_and!; try done.
  destruct (collected_family p Hp) as (pf & rf & Hpf & Hrf & Hroots).
  assert (tf_parent f ≠ 0) as H0 by (pose proof (ok_positive d Hok p pf Hpf); lia).
  destruct (ok_parent d Hok x f Hf H0) as (_ & pf' & Hpf' & Hpr). unfold same_tree. rewrite Hrf.
  apply bool_decide_eq_true. congruence.
Qed.

(** Every live flow of a root's tree is reached. *)
Lemma tree_walk_complete x f : no_orphans d → flows d !! x = Some f → tf_root f = root →
  terminal (tf_status f) = false → x ∈ root :: allSubgraphFlows d root.
Proof using Hok Hroot.
  intros Hno. revert f. induction (Z.lt_wf 0 x) as [x _ IH]. intros f Hf Hr Hl.
  destruct (decide (tf_parent f = 0)) as [Hp|Hp].
  { rewrite (ok_root d Hok x f Hf Hp) in Hr. subst. left. }
  destruct (ok_parent d Hok x f Hf Hp) as (Hlt & p & Hpf & Hpr).
  right. eapply (walk_closed _ x f); [|done|done|done].
  apply (IH (tf_parent f) ltac:(lia) p Hpf); [congruence|by apply (no_orphans_parent d x f p)].
Qed.
End walk.

(** ** What the operations leave of the tree *)

(** Rows stay, links stay, what is settled stays settled, and a flow's status stays one of a flow. *)
Definition settles (st st' : status_t) : Prop :=
  (terminal st = true → terminal st' = true) ∧ (st ≠ StatusPending → st' ≠ StatusPending).

Definition evolves (d d' : db) : Prop :=
  (∀ id, match flows d !! id, flows d' !! id with
         | Some f, Some f' => tf_parent f' = tf_parent f ∧ tf_caller f' = tf_caller f ∧ tf_root f' = tf_root f
             ∧ settles (tf_status f) (tf_status f')
         | None, None => True
         | _, _ => False
         end)
  ∧ (∀ id, fst <$> tsteps d' !! id = fst <$> tsteps d !! id).

#[export] Instance evolves_preorder : PreOrder evolves.
Proof.
  split.
  - intros d. split; [intros id; by destruct (flows d !! id)|done].
  - intros d1 d2 d3 [Hf Hs] [Hf' Hs']. split; [|intros id; by rewrite Hs', Hs].
    intros id. specialize (Hf id). specialize (Hf' id).
    destruct (flows d1 !! id), (flows d2 !! id), (flows d3 !! id); try done.
    destruct Hf as (? & ? & ? & Ht & Hn), Hf' as (? & ? & ? & Ht' & Hn'). split_and!; [congruence..|]. by split; auto.
Qed.

Lemma evolves_steps p stmt d : evolves d (update_steps p stmt d).
Proof.
  split; [intros id; by destruct (flows d !! id) eqn:H; simpl; rewrite H|].
  intros id. rewrite lookup_update_steps. by destruct (tsteps d !! id) as [[f r]|].
Qed.

Definition keeps_links (g : Z → tflow → tflow) : Prop :=
  ∀ id f, tf_parent (g id f) = tf_parent f ∧ tf_caller (g id f) = tf_caller f ∧ tf_root (g id f) = tf_root f.

Lemma evolves_flows p g d : keeps_links g →
  (∀ id f, p id f = true → settles (tf_status f) (tf_status (g id f))) →
  evolves d (update_flows p g d).
Proof.
  intros Hk Ht. split; [|done]. intros id. rewrite lookup_update_flows.
  destruct (flows d !! id) as [f|]; simpl; [|done]. destruct (p id f) eqn:Hp; [|done].
  destruct (Hk id f) as (? & ? & ?). split_and!; by auto.
Qed.

Lemma evolves_tree_ok d d' : evolves d d' → tree_ok d → tree_ok d'.
Proof.
  intros [Hf Hs] Hok.
  assert (∀ id f', flows d' !! id = Some f' → ∃ f, flows d !! id = Some f ∧ tf_parent f' = tf_parent f
    ∧ tf_caller f' = tf_caller f ∧ tf_root f' = tf_root f
    ∧ (tf_status f ≠ StatusPending → tf_status f' ≠ StatusPending)) as Hback.
  { intros id f' Hf'. specialize (Hf id). rewrite Hf' in Hf. destruct (flows d !! id) as [f|]; [|done].
    destruct Hf as (? & ? & ? & Ht & Hn). exists f. by split_and!. }
  destruct Hok as [H1 H2 H3 H4 H5 H7 H6]. split.
  - intros id f' (f & Hi & Hp & Hc & Hr & _)%Hback H0. rewrite Hp, Hr in *.
    destruct (H1 id f Hi H0) as (? & p & Hp' & Hpr). split; [done|]. specialize (Hf (tf_parent f)).
    rewrite Hp' in Hf. destruct (flows d' !! tf_parent f) as [p'|]; [|done]. exists p'. split; [done|].
    destruct Hf as (? & ? & ? & ?). congruence.
  - intros id f' (f & Hi & Hp & Hc & Hr & _)%Hback H0. rewrite Hp, Hr in *. by apply (H2 id f).
  - intros id f' (f & Hi & Hp & Hc & Hr & _)%Hback H0. rewrite Hp, Hc in *.
    destruct (H3 id f Hi H0) as (? & r & Hr'). split; [done|]. specialize (Hs (tf_caller f)). rewrite Hr' in Hs.
    destruct (tsteps d' !! tf_caller f) as [[fl r']|]; [|done]. simpl in Hs. simplify_eq. eauto.
  - intros id f' (f & Hi & Hp & Hc & Hr & _)%Hback H0. rewrite Hp, Hc in *. by apply (H4 id f).
  - intros id f' (f & Hi & _)%Hback. by apply (H5 id f).
  - intros id f' (f & Hi & _ & _ & _ & Hn)%Hback. by apply Hn, (H7 id f).
  - intros s fl r Hr. specialize (Hs s). rewrite Hr in Hs. destruct (tsteps d !! s) as [[fl' r']|] eqn:Hr'; [|done].
    simpl in Hs. simplify_eq. destruct (H6 s fl' r' Hr') as [? [f Hfl]]. split; [done|].
    specialize (Hf fl'). rewrite Hfl in Hf. by destruct (flows d' !! fl').
Qed.

Lemma evolves_then_steps p stmt d d1 : evolves d d1 → evolves d (update_steps p stmt d1).
Proof. intros H. etrans; [exact H|apply evolves_steps]. Qed.
Lemma evolves_then_flows p g d d1 : evolves d d1 → keeps_links g →
  (∀ id f, p id f = true → settles (tf_status f) (tf_status (g id f))) →
  evolves d (update_flows p g d1).
Proof. intros H ? ?. etrans; [exact H|by apply evolves_flows]. Qed.

Lemma evolves_terminateSubtree final root reason c d d' :
  terminateSubtree final root reason c d = Ok d' → evolves d d'.
Proof.
  unfold terminateSubtree. destruct (c && _); [done|]. intros [= <-].
  apply evolves_then_flows; [by apply evolves_then_steps|done|by split].
Qed.

Lemma evolves_handleInterrupt s seq c p d d' : handleInterrupt s seq c p d = Some d' → evolves d d'.
Proof.
  intros ([f r] & _ & H)%bind_Some. destruct (surgraphChain d f) as [fs ss].
  apply bind_Some in H as ([f' r'] & _ & H). destruct (_ && _); [|done]. apply Some_inj in H as <-.
  apply evolves_then_flows; [by do 3 apply evolves_then_steps|done|].
  intros id fl [_ H]%andb_true_iff. by destruct (tf_status fl); split.
Qed.

Lemma evolves_resume_flow d id : evolves d (resume_flow d id).
Proof.
  apply evolves_flows; [done|]. intros i f H. rewrite !andb_true_iff, !bool_decide_eq_true in H.
  destruct H as [[_ H] _]. rewrite H. by split.
Qed.

Lemma evolves_foldl {A} (g : db → A → db) l d : (∀ d x, evolves d (g d x)) → evolves d (foldl g d l).
Proof. intros Hg. revert d. induction l as [|x l IH]; intros d; simpl; [done|]. etrans; [apply Hg|apply IH]. Qed.

Lemma evolves_resume root data d d' : resume root data d = Ok d' → evolves d d'.
Proof.
  unfold resume. destruct (flows d !! root) as [f|]; [|done]. destruct (negb _); [done|]. destruct (negb _); [done|].
  destruct (surgraphChain d root) as [fs ss]. destruct (interruptedSubgraphChain d root) as [[fs' ss']|]; [|done].
  destruct (last ss') as [leaf|]; [|done]. destruct (tsteps d !! leaf) as [[f' r]|]; [|done].
  destruct (negb _); [done|]. intros [= <-].
  etrans; [|apply evolves_foldl, evolves_resume_flow]. by do 3 apply evolves_then_steps.
Qed.

Section sweeps_evolve.
Context (final : db → Z → State) (encode : suberr → string).

Lemma evolves_deliverSubgraphError child s err d : evolves d (deliverSubgraphError final encode child s err d).
Proof using Type.
  unfold deliverSubgraphError, deliverFlowFailureToParent.
  destruct (bool_decide (s = 0)); [|apply evolves_then_steps]; (case_bool_decide; [done|by apply evolves_flows]).
Qed.

Lemma evolves_unwedge s d : evolves d (unwedge final encode s d).
Proof using Type.
  unfold unwedge. destruct (outcome (latest_child d s)); [apply evolves_steps|apply evolves_deliverSubgraphError].
Qed.
End sweeps_evolve.

(** ** Every history *)

(** What may happen to the tables: a flow or a child flow is created, a transition inserts a step row, a
    dispatch or a sweep writes step rows as it likes, a retry discards what the step had called, and the
    operations of this file. *)
Inductive tstep (d : db) : db → Prop :=
| t_tick now : tstep d (mkDb now (flows d) (tsteps d))
| t_create id s budget : 0 < id → (∀ i, is_Some (flows d !! i) → i < id) → s ≠ 0 → tsteps d !! s = None →
    tstep d (insertFlowTx id s 0 0 0 budget d)
| t_call id s parent caller r budget d' : (∀ i, is_Some (flows d !! i) → i < id) → s ≠ 0 → tsteps d !! s = None →
    tsteps d !! caller = Some (parent, r) → createSubgraphFlow id s parent caller budget d = Some d' → tstep d d'
| t_insert s f r : s ≠ 0 → tsteps d !! s = None → is_Some (flows d !! f) →
    tstep d (mkDb (tnow d) (flows d) (<[s := (f, r)]> (tsteps d)))
| t_rows p stmt : tstep d (update_steps p stmt d)
| t_settle p g : keeps_links g → (∀ id f, settles (tf_status f) (tf_status (g id f))) →
    tstep d (update_flows p g d)
| t_retry s d' : is_Some (tsteps d !! s) → deleteSubgraphFlowsRootedAt s d = Some d' → tstep d d'
| t_interrupt s seq c p d' : handleInterrupt s seq c p d = Some d' → tstep d d'
| t_resume f data d' : resume f data d = Ok d' → tstep d d'
| t_terminate final f reason c d' : terminateSubtree final f reason c d = Ok d' → tstep d d'
| t_unwedge final encode s : tstep d (unwedge final encode s d).

Inductive treach : db → Prop :=
| treach_init now : treach (mkDb now ∅ ∅)
| treach_step d d' : treach d → tstep d d' → treach d'.

(** ** What a retry discards *)

Lemma root_children_spec d s x : x ∈ root_children d s ↔ ∃ f, flows d !! x = Some f ∧ tf_caller f = s.
Proof.
  unfold root_children. rewrite list_elem_of_fmap. split.
  - intros ([i f] & -> & [Hc Hin%elem_of_map_to_list]%list_elem_of_filter). eauto.
  - intros (f & Hf & Hc). exists (x, f). rewrite list_elem_of_filter. by rewrite elem_of_map_to_list.
Qed.
Lemma nested_flows_spec d cur x : x ∈ nested_flows d cur ↔ ∃ f, flows d !! x = Some f ∧ tf_parent f ∈ cur.
Proof.
  unfold nested_flows. rewrite list_elem_of_fmap. split.
  - intros ([i f] & -> & [Hc Hin%elem_of_map_to_list]%list_elem_of_filter). eauto.
  - intros (f & Hf & Hc). exists (x, f). rewrite list_elem_of_filter. by rewrite elem_of_map_to_list.
Qed.
Lemma filtered_ids_NoDup (P : Z * tflow → Prop) `{!∀ e, Decision (P e)} d : NoDup (filter P (map_to_list (flows d))).*1.
Proof.
  eapply sublist_NoDup; [apply (NoDup_fst_map_to_list (flows d))|]. apply fmap_sublist, sublist_filter.
Qed.

(** The flows a step called, and everything below them. *)
Inductive beneath (d : db) (s : Z) : Z → Prop :=
| beneath_child x f : flows d !! x = Some f → tf_caller f = s → beneath d s x
| beneath_nested x f : flows d !! x = Some f → beneath d s (tf_parent f) → beneath d s x.

Section discard.
Context (d : db) (s : Z) (Hok : tree_ok d) (Hs : s ≠ 0).

(** The levels done so far have all their children in the list, each once; all are younger than the caller's flow. *)
Definition levels_inv (current all : list Z) : Prop :=
  ∃ visited, all = visited ++ current ∧ NoDup all ∧ Forall (beneath d s) all
    ∧ (∀ x f, flows d !! x = Some f → tf_caller f = s ∨ tf_parent f ∈ visited → x ∈ all)
    ∧ (∀ x, x ∈ all → ∃ f, flows d !! x = Some f ∧ (tf_caller f = s ∨ tf_parent f ∈ visited)).

Lemma beneath_younger flow r x : tsteps d !! s = Some (flow, r) → beneath d s x → flow < x.
Proof using Hok Hs.
  intros Hr. induction 1 as [x f Hf Hc|x f Hf Hb IH].
  - assert (tf_parent f ≠ 0) as H0 by (intros H0; rewrite (ok_root_caller d Hok x f Hf H0) in Hc; congruence).
    destruct (ok_caller d Hok x f Hf H0) as (_ & r' & Hr'). rewrite Hc in Hr'. simplify_eq.
    destruct (ok_parent d Hok x f Hf H0) as [? _]. lia.
  - destruct (decide (tf_parent f = 0)) as [H0|H0].
    + exfalso. inversion Hb as [? g Hg| ? g Hg]; rewrite H0 in Hg;
        pose proof (ok_positive d Hok 0 g Hg); lia.
    + destruct (ok_parent d Hok x f Hf H0) as [? _]. lia.
Qed.

Lemma caller_of_flow x f : flows d !! x = Some f → tf_caller f = s → ∃ r, tsteps d !! s = Some (tf_parent f, r).
Proof using Hok Hs.
  intros Hf Hc. assert (tf_parent f ≠ 0) as H0 by (intros H0; rewrite (ok_root_caller d Hok x f Hf H0) in Hc; congruence).
  destruct (ok_caller d Hok x f Hf H0) as (_ & r' & Hr'). rewrite Hc in Hr'. eauto.
Qed.

Lemma levels_advance current all : levels_inv current all →
  levels_inv (nested_flows d current) (all ++ nested_flows d current).
Proof using Hok Hs.
  intros (visited & -> & Hnd & Hb & Hin & Hout). set (nested := nested_flows d current).
  assert (∀ x, x ∈ nested → x ∉ visited ++ current) as Hnew.
  { intros x (f & Hf & Hp)%nested_flows_spec Hx. destruct (Hout x Hx) as (f' & Hf' & Hor).
    assert (f' = f) as -> by congruence. destruct Hor as [Hc|Hp'].
    - destruct (caller_of_flow x f Hf Hc) as [r Hr].
      rewrite Forall_forall in Hb. pose proof (beneath_younger _ r _ Hr (Hb (tf_parent f) ltac:(set_solver))). lia.
    - apply NoDup_app in Hnd as (_ & Hd & _). by apply (Hd (tf_parent f)). }
  exists (visited ++ current). split_and!.
  - done.
  - apply NoDup_app. split_and!; [done| |apply filtered_ids_NoDup]. intros x Hx Hx'. by apply (Hnew x Hx').
  - apply Forall_app. split; [done|]. apply Forall_forall. intros x (f & Hf & Hp)%nested_flows_spec.
    eapply beneath_nested; [exact Hf|]. rewrite Forall_forall in Hb. apply Hb. set_solver.
  - intros x f Hf [Hc|Hp].
    + apply elem_of_app. left. apply (Hin x f Hf). by left.
    + apply elem_of_app in Hp as [Hp|Hp]; apply elem_of_app.
      * left. apply (Hin x f Hf). by right.
      * right. apply nested_flows_spec. eauto.
  - intros x [Hx|Hx]%elem_of_app.
    + destruct (Hout x Hx) as (f & Hf & [Hc|Hp]); exists f; (split; [done|]); [by left|right; set_solver].
    + apply nested_flows_spec in Hx as (f & Hf & Hp). exists f. split; [done|]. right. set_solver.
Qed.

Lemma levels_fit current all : levels_inv current all → (length all ≤ size (flows d))%nat.
Proof using Type.
  intros (visited & _ & Hnd & _ & _ & Hout). rewrite <-size_dom, <-(size_list_to_set (C:=gset Z) all) by done.
  apply subseteq_size. intros x Hx%elem_of_list_to_set. destruct (Hout x Hx) as (f & Hf & _). by apply elem_of_dom_2 in Hf.
Qed.

Lemma delete_levels_total fuel current all : levels_inv current all →
  (size (flows d) - length all < fuel)%nat →
  ∃ l, delete_levels d fuel current all = Some l ∧ levels_inv [] l.
Proof using Hok Hs.
  revert current all. induction fuel as [|fuel IH]; intros current all Hinv Hfuel; [lia|].
  destruct current as [|c current]; [by eexists|]. cbn [delete_levels].
  pose proof (levels_advance _ _ Hinv) as Hadv. pose proof (levels_fit _ _ Hadv) as Hfit. rewrite length_app in Hfit.
  destruct (nested_flows d (c :: current)) as [|x l] eqn:Hn.
  - exists all. rewrite app_nil_r in *. by destruct fuel.
  - apply IH; [done|]. rewrite length_app. cbn [length] in *. lia.
Qed.

Lemma discard_spec : ∃ all : list Z, deleteSubgraphFlowsRootedAt s d
    = Some (mkDb (tnow d) (filter (λ e, e.1 ∉ all) (flows d)) (filter (λ e, e.2.1 ∉ all) (tsteps d)))
  ∧ ∀ x, x ∈ all ↔ beneath d s x.
Proof using Hok Hs.
  unfold deleteSubgraphFlowsRootedAt.
  destruct (delete_levels_total (S (size (flows d))) (root_children d s) (root_children d s)) as (l & -> & Hl).
  - exists []. split_and!; [done|apply filtered_ids_NoDup| | |].
    + apply Forall_forall. intros x (f & Hf & Hc)%root_children_spec. by eapply beneath_child.
    + intros x f Hf [Hc|Hp]; [|by apply not_elem_of_nil in Hp]. apply root_children_spec. eauto.
    + intros x (f & Hf & Hc)%root_children_spec. eauto.
  - lia.
  - exists l. split; [done|]. destruct Hl as (visited & -> & _ & Hb & Hin & _). rewrite app_nil_r in *.
    intros x. rewrite Forall_forall in Hb. split; [apply Hb|].
    induction 1 as [x f Hf Hc|x f Hf _ IH]; apply (Hin x f Hf); auto.
Qed.
End discard.

(** ** Every reachable tree is well-formed *)

Lemma tree_ok_discard d s d' : tree_ok d → deleteSubgraphFlowsRootedAt s d = Some d' → s ≠ 0 → tree_ok d'.
Proof.
  intros Hok Hdel Hs. destruct (discard_spec d s Hok Hs) as (all & Heq & Hall). rewrite Hdel in Heq. apply Some_inj in Heq as ->.
  destruct Hok as [H1 H2 H3 H4 H5 H7 H6].
  assert (∀ id f, flows d !! id = Some f → id ∉ all → tf_parent f ∉ all) as Hup.
  { intros id f Hf Hn Hp. apply Hn, Hall. eapply beneath_nested; [exact Hf|by apply Hall]. }
  split; simpl.
  - intros id f [Hf Hn]%map_lookup_filter_Some H0. destruct (H1 id f Hf H0) as (Hlt & p & Hp & Hr).
    split; [done|]. exists p. split; [|done]. apply map_lookup_filter_Some. split; [done|by apply (Hup id f)].
  - intros id f [Hf _]%map_lookup_filter_Some. by apply (H2 id f).
  - intros id f [Hf Hn]%map_lookup_filter_Some H0. destruct (H3 id f Hf H0) as (Hc & r & Hr). split; [done|].
    exists r. apply map_lookup_filter_Some. split; [done|by apply (Hup id f)].
  - intros id f [Hf _]%map_lookup_filter_Some. by apply (H4 id f).
  - intros id f [Hf _]%map_lookup_filter_Some. by apply (H5 id f).
  - intros id f [Hf _]%map_lookup_filter_Some. by apply (H7 id f).
  - intros x f r [Hr Hn]%map_lookup_filter_Some. destruct (H6 x f r Hr) as [H0 [g Hg]]. split; [done|].
    exists g. apply map_lookup_filter_Some. by split.
Qed.

Lemma tree_ok_insert_flow d id s parent caller root budget :
  tree_ok d → 0 < id → (∀ i, is_Some (flows d !! i) → i < id) → s ≠ 0 → tsteps d !! s = None →
  (parent = 0 ∧ caller = 0 ∧ root = 0) ∨ (∃ p r, flows d !! parent = Some p ∧ tf_root p = root ∧ root ≠ 0 ∧ tsteps d !! caller = Some (parent, r)) →
  tree_ok (insertFlowTx id s parent caller root budget d).
Proof.
  intros [H1 H2 H3 H4 H5 H7 H6] Hpos Hmax Hs0 Hs Hlink.
  assert (flows d !! id = None) as Hnew.
  { apply eq_None_not_Some. intros H. apply Hmax in H. lia. }
  assert (∀ i f, flows d !! i = Some f → i ≠ id) as Hne by congruence.
  unfold insertFlowTx. split; cbn [flows tsteps].
  - intros i f [(<- & <-)|(Hi & Hf)]%lookup_insert_Some; cbn [tf_parent tf_root]; intros H0.
    + destruct Hlink as [(-> & _)|(p & r & Hp & Hr & Hr0 & Hc)]; [done|].
      pose proof (H5 _ _ Hp). pose proof (Hmax parent ltac:(by eexists)). split; [lia|].
      exists p. rewrite lookup_insert_ne by congruence. split; [done|]. by rewrite bool_decide_eq_false_2.
    + destruct (H1 i f Hf H0) as (Hlt & p & Hp & Hr). split; [done|]. exists p.
      by rewrite lookup_insert_ne by (apply not_eq_sym, (Hne _ p Hp)).
  - intros i f [(<- & <-)|(Hi & Hf)]%lookup_insert_Some; cbn [tf_parent tf_root]; intros H0; [|by apply (H2 i)].
    destruct Hlink as [(_ & _ & ->)|(p & r & Hp & Hr & Hr0 & Hc)]; [by rewrite bool_decide_eq_true_2|].
    pose proof (H5 _ _ Hp). lia.
  - intros i f [(<- & <-)|(Hi & Hf)]%lookup_insert_Some; cbn [tf_parent tf_caller]; intros H0.
    + destruct Hlink as [(-> & _)|(p & r & Hp & Hr & Hr0 & Hc)]; [done|]. split; [by destruct (H6 _ _ _ Hc)|].
      exists r. by rewrite lookup_insert_ne by congruence.
    + destruct (H3 i f Hf H0) as (Hc & r & Hr). split; [done|]. exists r. by rewrite lookup_insert_ne by congruence.
  - intros i f [(<- & <-)|(Hi & Hf)]%lookup_insert_Some; cbn [tf_parent tf_caller]; intros H0; [|by apply (H4 i)].
    destruct Hlink as [(_ & -> & _)|(p & r & Hp & Hr & Hr0 & Hc)]; [done|]. pose proof (H5 _ _ Hp). lia.
  - intros i f [(<- & <-)|(Hi & Hf)]%lookup_insert_Some; [done|by apply (H5 i f)].
  - intros i f [(<- & <-)|(Hi & Hf)]%lookup_insert_Some; [done|by apply (H7 i f)].
  - intros x f r [(<- & [= <- <-])|(Hi & Hf)]%lookup_insert_Some.
    + split; [done|]. by rewrite lookup_insert_eq.
    + destruct (H6 x f r Hf) as [H0 [g Hg]]. split; [done|]. rewrite lookup_insert_ne by (apply not_eq_sym, (Hne _ g Hg)). by eexists.
Qed.

Lemma root_positive d id f : tree_ok d → flows d !! id = Some f → 0 < tf_root f.
Proof.
  intros Hok. revert f. induction (Z.lt_wf 0 id) as [id _ IH]. intros f Hf.
  destruct (decide (tf_parent f = 0)) as [H0|H0].
  - rewrite (ok_root d Hok id f Hf H0). by apply (ok_positive d Hok id f).
  - destruct (ok_parent d Hok id f Hf H0) as (Hlt & p & Hp & <-). by apply (IH (tf_parent f)); [lia|].
Qed.

(** Every history keeps the tree well-formed: *)
Lemma tstep_tree_ok d d' : tree_ok d → tstep d d' → tree_ok d'.
Proof.
  intros Hok Hstep. inversion Hstep as
    [now|id s budget ? Hmax ? Hs|id s parent caller r budget d1 Hmax ? Hs Hc Hcr|s f r Hs0 Hs Hf| | |s d1 [[fl r] Hs] Hd| | | |]; subst.
  - by destruct Hok; split.
  - apply tree_ok_insert_flow; auto.
  - apply bind_Some in Hcr as (p & Hp & [= <-]). pose proof (ok_positive d Hok parent p Hp).
    pose proof (Hmax parent ltac:(by eexists)). apply tree_ok_insert_flow; try done; [lia|]. right.
    pose proof (root_positive d parent p Hok Hp). exists p, r. split_and!; try done. lia.
  - destruct Hok as [H1 H2 H3 H4 H5 H7 H6]. split; cbn [flows tsteps]; auto.
    + intros i g Hg H0. destruct (H3 i g Hg H0) as (? & r' & Hr). split; [done|]. exists r'.
      by rewrite lookup_insert_ne by congruence.
    + intros x g r' [(<- & [= <- <-])|(_ & Hx)]%lookup_insert_Some; [by split|by apply (H6 x g r')].
  - by eapply evolves_tree_ok; [apply evolves_steps|].
  - by eapply evolves_tree_ok; [apply evolves_flows; auto|].
  - eapply tree_ok_discard; [done..|]. by destruct (ok_step d Hok s fl r Hs).
  - by eapply evolves_tree_ok; [eapply evolves_handleInterrupt|].
  - by eapply evolves_tree_ok; [eapply evolves_resume|].
  - by eapply evolves_tree_ok; [eapply evolves_terminateSubtree|].
  - by eapply evolves_tree_ok; [apply evolves_unwedge|].
Qed.

Lemma treach_tree_ok d : treach d → tree_ok d.
Proof.
  induction 1 as [now|d d' _ IH Hstep]; [split; simpl; intros *; by rewrite lookup_empty|].
  by eapply tstep_tree_ok.
Qed.

(** ** The chain of callers *)

(** [chain d cur fs ss]: the flows above [cur] up to the root, and the caller steps that link them. *)
Inductive chain (d : db) : Z → list Z → list Z → Prop :=
| chain_root cur f : flows d !! cur = Some f → tf_parent f = 0 → chain d cur [] []
| chain_call cur f fs ss : flows d !! cur = Some f → tf_parent f ≠ 0 → chain d (tf_parent f) fs ss →
    chain d cur (tf_parent f :: fs) (tf_caller f :: ss).

Section chains.
Context (d : db) (Hok : tree_ok d).

Lemma chain_up_spec tree fuel cur f : flows d !! cur = Some f → same_tree d tree f = true →
  (Z.to_nat cur ≤ fuel)%nat → ∃ fs ss, chain_up d tree fuel cur = (fs, ss) ∧ chain d cur fs ss.
Proof using Hok.
  revert cur f. induction fuel as [|fuel IH]; intros cur f Hf Ht Hfuel.
  - pose proof (ok_positive d Hok cur f Hf). lia.
  - cbn [chain_up]. rewrite Hf, Ht. cbn [negb orb]. case_bool_decide as H0.
    + exists [], []. split; [done|]. by eapply chain_root.
    + destruct (ok_parent d Hok cur f Hf H0) as (Hlt & p & Hp & Hr).
      destruct (IH (tf_parent f) p Hp) as (fs & ss & -> & Hc); [|lia|].
      * unfold same_tree in *. by rewrite Hr.
      * do 2 eexists. split; [done|]. by apply chain_call.
Qed.

Lemma surgraphChain_spec cur f : flows d !! cur = Some f → ∃ fs ss, surgraphChain d cur = (cur :: fs, ss) ∧ chain d cur fs ss.
Proof using Hok.
  intros Hf. unfold surgraphChain. destruct (chain_up_spec cur (Z.to_nat cur) cur f Hf) as (fs & ss & -> & Hc); eauto.
  unfold same_tree. rewrite Hf. by apply bool_decide_eq_true.
Qed.

Lemma chain_exists cur fs ss : chain d cur fs ss → is_Some (flows d !! cur).
Proof using Type. destruct 1; eauto. Qed.

(** Flows above are older; the chain is a path. *)
Lemma chain_older cur fs ss x : chain d cur fs ss → x ∈ fs → x < cur.
Proof using Hok.
  induction 1 as [|cur f fs ss Hf H0 Hc IH]; intros Hx; [by apply not_elem_of_nil in Hx|].
  destruct (ok_parent d Hok cur f Hf H0) as ((_ & Hlt) & _). apply elem_of_cons in Hx as [->|Hx]; [done|].
  specialize (IH Hx). lia.
Qed.
Lemma chain_NoDup cur fs ss : chain d cur fs ss → NoDup (cur :: fs).
Proof using Hok.
  induction 1 as [|cur f fs ss Hf H0 Hc IH]; [apply NoDup_singleton|]. constructor; [|done].
  intros Hin. pose proof (chain_older cur _ _ cur (chain_call d cur f fs ss Hf H0 Hc) Hin). lia.
Qed.
Lemma chain_flows cur fs ss x : chain d cur fs ss → x ∈ cur :: fs → is_Some (flows d !! x).
Proof using Type.
  induction 1 as [cur f Hf|cur f fs ss Hf H0 Hc IH]; intros [->|Hx]%elem_of_cons; eauto. by apply not_elem_of_nil in Hx.
Qed.
Lemma chain_parent_below cur fs ss x f : chain d cur fs ss → x ∈ cur :: fs → flows d !! x = Some f → tf_parent f ≠ 0 →
  tf_parent f ∈ fs ∧ tf_caller f ∈ ss.
Proof using Type.
  induction 1 as [cur g Hg Hp|cur g fs ss Hg H0 Hc IH]; intros Hx Hf Hpf.
  - apply list_elem_of_singleton in Hx as ->. rewrite Hf in Hg. injection Hg as ->. done.
  - apply elem_of_cons in Hx as [->|Hx].
    + rewrite Hf in Hg. injection Hg as ->. split; left.
    + destruct (IH Hx Hf Hpf) as [? ?]. split; by right.
Qed.
(** Only one flow of the chain hangs below a given one. *)
Lemma chain_one_child cur fs ss x y f g : chain d cur fs ss → x ∈ cur :: fs → y ∈ cur :: fs →
  flows d !! x = Some f → flows d !! y = Some g → tf_parent f = tf_parent g → tf_parent f ≠ 0 → x = y.
Proof using Hok.
  intros Hc. revert x y f g. induction Hc as [cur h Hh Hp|cur h fs ss Hh H0 Hc IH]; intros x y f g Hx Hy Hf Hg Heq Hnz.
  { apply list_elem_of_singleton in Hx as ->. by apply list_elem_of_singleton in Hy as ->. }
  assert (∀ z k, z ∈ tf_parent h :: fs → flows d !! z = Some k → tf_parent k ≠ 0 → tf_parent k ≠ tf_parent h) as Hne.
  { intros z k Hz Hk Hkz Hkh. destruct (chain_parent_below _ _ _ z k Hc Hz Hk Hkz) as [Hin _].
    pose proof (chain_older _ _ _ _ Hc Hin). lia. }
  apply elem_of_cons in Hx as [->|Hx]; apply elem_of_cons in Hy as [->|Hy]; [done| | |by eapply IH].
  - exfalso. rewrite Hf in Hh. injection Hh as <-. by apply (Hne y g Hy Hg); [congruence|].
  - exfalso. rewrite Hg in Hh. injection Hh as <-. by apply (Hne x f Hx Hf).
Qed.
(** Every caller of the chain is the caller of one of its flows. *)
Lemma chain_caller cur fs ss c : chain d cur fs ss → c ∈ ss →
  ∃ x f r, x ∈ cur :: fs ∧ flows d !! x = Some f ∧ tf_caller f = c ∧ tf_parent f ≠ 0
    ∧ tf_parent f ∈ fs ∧ tsteps d !! c = Some (tf_parent f, r).
Proof using Hok.
  induction 1 as [|cur f fs ss Hf H0 Hc IH]; intros Hin; [by apply not_elem_of_nil in Hin|].
  apply elem_of_cons in Hin as [->|Hin].
  - destruct (ok_caller d Hok cur f Hf H0) as (_ & r & Hr). exists cur, f, r. split_and!; try done; left.
  - destruct (IH Hin) as (x & g & r & Hx & ?). destruct_and!. exists x, g, r. split_and!; try done; by right.
Qed.
Lemma chain_length cur fs ss : chain d cur fs ss → (length (cur :: fs) ≤ size (flows d))%nat.
Proof using Hok.
  intros Hc. rewrite <-size_dom, <-(size_list_to_set (C:=gset Z) (cur :: fs)) by by eapply chain_NoDup.
  apply subseteq_size. intros x Hx%elem_of_list_to_set. apply elem_of_dom. by eapply chain_flows.
Qed.
Lemma chain_top cur fs ss : chain d cur fs ss →
  ∃ top f, last (cur :: fs) = Some top ∧ flows d !! top = Some f ∧ tf_parent f = 0.
Proof using Type.
  induction 1 as [cur f Hf Hp|cur f fs ss Hf H0 Hc (top & g & Hl & Hg & Hgp)]; [by exists cur, f|by exists top, g].
Qed.
Lemma chain_family cur fs ss root x g : chain d cur fs ss → last (cur :: fs) = Some root → x ∈ cur :: fs →
  flows d !! x = Some g → tf_root g = root.
Proof using Hok.
  intros Hc. revert x g. induction Hc as [cur h Hh Hp|cur h fs ss Hh H0 Hc IH]; intros x g Htop Hx Hg.
  - apply list_elem_of_singleton in Hx as ->. injection Htop as <-. rewrite Hh in Hg. injection Hg as <-.
    by apply (ok_root d Hok cur h).
  - apply elem_of_cons in Hx as [->|Hx]; [|by apply (IH x g)]. rewrite Hh in Hg. injection Hg as <-.
    destruct (ok_parent d Hok cur h Hh H0) as (_ & p & Hp & <-). by apply (IH (tf_parent h) p); [|left|].
Qed.
End chains.

Lemma pick_earliest_unique l x : x ∈ l → (∀ y, y ∈ l → y = x) → pick_earliest l = Some x.
Proof.
  intros Hin Hall. destruct l as [|y l]; [by apply not_elem_of_nil in Hin|]. clear Hin.
  assert (pick_earliest l = None ∨ pick_earliest l = Some x) as Hl.
  { assert (∀ y, y ∈ l → y = x) as Hall' by (intros z Hz; apply Hall; by right). clear Hall.
    induction l as [|z l IH]; [by left|]. right. cbn [pick_earliest foldr]. fold (pick_earliest l).
    rewrite (Hall' z) by left. destruct IH as [->| ->]; [intros w Hw; apply Hall'; by right|done|]. by destruct (earlier x x). }
  cbn [pick_earliest foldr]. fold (pick_earliest l). rewrite (Hall y) by left. destruct Hl as [->| ->]; [done|]. by destruct (earlier x x).
Qed.
Lemma last_unique (l : list Z) x : x ∈ l → (∀ y, y ∈ l → y = x) → last l = Some x.
Proof.
  intros Hin Hall. destruct (last l) as [y|] eqn:Hl; [|apply last_None in Hl as ->; by apply not_elem_of_nil in Hin].
  apply last_Some_elem_of in Hl. by rewrite (Hall y).
Qed.
Lemma elem_of_rev (x : Z) l : x ∈ rev l ↔ x ∈ l.
Proof. by rewrite !list_elem_of_In, <-in_rev. Qed.

(** ** A tree to look at *)

(** A step that was claimed, and one that called a subgraph. *)
Definition claimed_row (r : row) : option row := Some (set_claimed 1 0 (set_status StatusRunning r)).
Definition calling_row (r : row) : option row := Some (set_parked parkedSubgraph (set_claimed 1 0 (set_status StatusRunning r))).
Definition at_step (s : Z) : Z → Z → bool := λ id _, bool_decide (id = s).
Definition calls (s child entry : Z) (d : db) : db :=
  let d := update_steps (at_step s) calling_row d in
  match tsteps d !! s with
  | Some (f, _) => default d (createSubgraphFlow child entry f s 1000 d)
  | None => d
  end.

Lemma treach_calls s child entry d : treach d → entry ≠ 0 → bool_decide (map_Forall (λ i _, i < child) (flows d)) = true →
  bool_decide (tsteps d !! entry = None) = true → treach (calls s child entry d).
Proof.
  intros Hd He Hmax%bool_decide_eq_true Hfresh%bool_decide_eq_true. unfold calls. cbn zeta.
  assert (treach (update_steps (at_step s) calling_row d)) as Hd' by (eapply treach_step; [exact Hd|apply t_rows]).
  destruct (tsteps (update_steps _ _ d) !! s) as [[f r]|] eqn:Hs; [|done].
  destruct (createSubgraphFlow _ _ _ _ _ _) as [d'|] eqn:Hc; [|done]. cbn [default from_option id].
  eapply treach_step; [exact Hd'|]. eapply (t_call _ child entry f s r 1000 d'); [|exact He| |exact Hs|exact Hc].
  - intros i [g Hg]. by apply (Hmax i g).
  - rewrite lookup_update_steps, Hfresh. done.
Qed.

(** A root that has called, whose child has called in turn: flow 1 - step 1 - flow 2 - step 2 - flow 3. *)
Definition sample_root : db := insertFlowTx 1 1 0 0 0 1000 (mkDb 100 ∅ ∅).
Definition sample_tree : db := update_steps (at_step 3) claimed_row (calls 2 3 3 (calls 1 2 2 sample_root)).

Lemma sample_root_reached : treach sample_root.
Proof.
  eapply treach_step; [apply (treach_init 100)|]. apply t_create; [lia| |done|done].
  cbn [flows]. intros i [f Hf]. by apply lookup_empty_Some in Hf.
Qed.
Lemma sample_tree_reached : treach sample_tree.
Proof.
  eapply treach_step; [|apply t_rows].
  apply treach_calls; [|done|by vm_compute|by vm_compute]. apply treach_calls; [|done|by vm_compute|by vm_compute].
  apply sample_root_reached.
Qed.

(** C18. In every reachable state the climb from a flow reaches the root its [root_flow_id] names, through flows
    that are all different, and each caller on the way is a step of the flow above. *)
Theorem every_flow_reaches_its_root d x f : treach d → flows d !! x = Some f →
  ∃ fs ss, surgraphChain d x = (x :: fs, ss) ∧ last (x :: fs) = Some (tf_root f) ∧ NoDup (x :: fs)
    ∧ Forall2 (λ p s, ∃ r, tsteps d !! s = Some (p, r)) fs ss.
Proof.
  intros Hok%treach_tree_ok Hf. destruct (surgraphChain_spec d Hok x f Hf) as (fs & ss & Hsc & Hc).
  exists fs, ss. split; [done|]. destruct (chain_top d x fs ss Hc) as (top & g & Hl & Hg & Hp).
  split_and!; [|by eapply chain_NoDup|].
  - rewrite (chain_family d Hok x fs ss top x f Hc Hl); [done|left|done].
  - clear -Hok Hc. induction Hc as [|cur g fs ss Hg H0 Hc IH]; [constructor|]. constructor; [|done].
    by destruct (ok_caller d Hok cur g Hg H0) as (_ & r & Hr); exists r.
Qed.

Lemma every_flow_reaches_its_root_witness : ∃ fs ss, surgraphChain sample_tree 3 = (3 :: fs, ss) ∧ last (3 :: fs) = Some 1.
Proof.
  destruct (flows sample_tree !! 3) as [f|] eqn:Hf; [|by vm_compute in Hf].
  destruct (every_flow_reaches_its_root sample_tree 3 f sample_tree_reached Hf) as (fs & ss & H1 & H2 & _).
  assert (tf_root f = 1) as Hr by (vm_compute in Hf; by injection Hf as <-). rewrite Hr in H2. by exists fs, ss.
Defined.

(** A retry discards exactly what its step had called: the walk by levels ends, every flow below the step
    is deleted with its steps, however deep, and nothing else is. *)
Theorem retry_discards_its_subtree d s : treach d → is_Some (tsteps d !! s) →
  ∃ d', deleteSubgraphFlowsRootedAt s d = Some d'
    ∧ (∀ x f, flows d' !! x = Some f ↔ flows d !! x = Some f ∧ ¬ beneath d s x)
    ∧ (∀ c x r, tsteps d' !! c = Some (x, r) ↔ tsteps d !! c = Some (x, r) ∧ ¬ beneath d s x).
Proof.
  intros Hok%treach_tree_ok [[f r] Hs]. destruct (ok_step d Hok s f r Hs) as [Hs0 _].
  destruct (discard_spec d s Hok Hs0) as (all & -> & Hall). eexists. split; [done|]. cbn [flows tsteps]. split.
  - intros x g. rewrite map_lookup_filter_Some. cbn [fst]. by rewrite Hall.
  - intros c x q. rewrite map_lookup_filter_Some. cbn [fst snd]. by rewrite Hall.
Qed.

Lemma retry_discards_its_subtree_witness : ∃ d', deleteSubgraphFlowsRootedAt 1 sample_tree = Some d'
  ∧ ∀ x f, flows d' !! x = Some f ↔ flows sample_tree !! x = Some f ∧ ¬ beneath sample_tree 1 x.
Proof.
  destruct (retry_discards_its_subtree sample_tree 1 sample_tree_reached) as (d' & H1 & H2 & _); [by eexists; vm_compute|].
  by exists d'.
Defined.

