(* ===== verification/Loss.v ===== *)
(** * How a flow resolves as a loss ([engine/completion.go], the loss half of the transition of
    [engine/execution.go])

    [failStep]'s transaction over the tables of [Tree]: the step's row, the row of its flow where the
    failure resolves it, and the caller step the flow's error is delivered to.  Whether it resolves the
    flow, and whether as a cancellation, is the count of [Cohort.propagateCohortFailure], which is an
    argument here, as is the resolution by a completing arrival ([resolve_loss] with no last loss).

    [final] is the final state ([FinalState]; the empty state where it cannot be computed) and [encode]
    the errors package's JSON form. *)

From S2P Require Import Prelude State ErrorText StepRow Tree.

#[local] Open Scope Z_scope.

(** [ORDER BY step_id LIMIT 1] of the failed steps that have an error. *)
Definition row_id_le (a b : Z * (Z * row)) : Prop := a.1 ≤ b.1.
#[export] Instance row_id_le_dec a b : Decision (row_id_le a b).
Proof. unfold row_id_le. apply _. Defined.
Definition failed_steps (d : db) (flowID : Z) : list (Z * (Z * row)) :=
  merge_sort row_id_le (filter (λ e, e.2.1 = flowID ∧ r_status e.2.2 = StatusFailed ∧ r_error e.2.2 ≠ "") (map_to_list (tsteps d))).
Definition sample_error (d : db) (flowID : Z) : string :=
  match failed_steps d flowID with [] => "" | e :: _ => r_error e.2.2 end.

Definition flowErrorText (cancelled : bool) (lossErr : suberr) : string :=
  if cancelled then "" else sanitizeErrorMessage (err_msg lossErr).

(** A read of a flow that is gone leaves the variable it scans into empty. *)
Definition flowLossError (d : db) (flowID : Z) (cancelled : bool) (lastLoss : option suberr) : suberr :=
  if cancelled then
    match lastLoss with
    | Some e => if err_cancelled e then e
                else cancelmarker_New (TrimSpace (default "" (tf_reason <$> flows d !! flowID)))
    | None => cancelmarker_New (TrimSpace (default "" (tf_reason <$> flows d !! flowID)))
    end
  else
    let sampled :=
      let sample := TrimSpace (sample_error d flowID) in
      mkErr (if bool_decide (sample = "") then "cohort failed" else sample) false in
    match lastLoss with
    | Some e => if negb (err_cancelled e) then e else sampled
    | None => sampled
    end.

Definition loss_status (cancelled : bool) : status_t := if cancelled then StatusCancelled else StatusFailed.

Section failing.
Context (final : db → Z → State) (encode : suberr → string).

(** The writes of a flow that resolves as a loss: its own row, and the caller step if it has one. *)
Definition resolve_loss (flowID callerStep : Z) (cancelled : bool) (lastLoss : option suberr) (d : db) : db :=
  let lossErr := flowLossError d flowID cancelled lastLoss in
  deliverFlowFailureToParent encode callerStep lossErr
    (update_flows (λ id f, bool_decide (id = flowID) && negb (terminal (tf_status f)))
       (λ id f, settle_flow (loss_status cancelled) (final d id) (flowErrorText cancelled lossErr) (tf_reason f) f) d).

(** [dynamicSubgraphParent]: the step that called this flow, 0 for a flow of its own. *)
Definition dynamicSubgraphParent (d : db) (flowID : Z) : option Z :=
  f ← flows d !! flowID;
  Some (if bool_decide (tf_parent f = 0) || bool_decide (tf_caller f = 0) then 0 else tf_caller f).

(** The transaction.  [cohort] is the answer of the cohort's count: [None] while siblings are under way. *)
Definition failStep (flowID stepID leaseSeq : Z) (taskErr : suberr) (cohort : option bool) (d : db)
    : option (bool * db) :=
  parentStep ← dynamicSubgraphParent d flowID;
  '(_, r) ← tsteps d !! stepID;
  match fail_row (tnow d) (err_cancelled taskErr) (sanitizeErrorMessage (err_msg taskErr)) leaseSeq r with
  | None => Some (true, d)
  | Some r' =>
      let d1 := update_steps (λ id _, bool_decide (id = stepID))
                  (fail_row (tnow d) (err_cancelled taskErr) (sanitizeErrorMessage (err_msg taskErr)) leaseSeq) d in
      Some (false, match cohort with
                   | None => d1
                   | Some cancelled => resolve_loss flowID parentStep cancelled (Some taskErr) d1
                   end)
  end.
End failing.

(** ** The error that is told *)

(** The error is a cancellation exactly when the flow resolves as cancelled. *)
Lemma loss_error_kind d flowID cancelled lastLoss : err_cancelled (flowLossError d flowID cancelled lastLoss) = cancelled.
Proof.
  unfold flowLossError. destruct cancelled, lastLoss as [e|]; try done; by destruct (err_cancelled e) eqn:He.
Qed.

(** A failed flow never tells a cancellation's message: it tells its last real failure, or the oldest one. *)
Lemma loss_error_real d flowID e : err_cancelled e = false → flowLossError d flowID false (Some e) = e.
Proof. unfold flowLossError. by intros ->. Qed.

Lemma failed_steps_elem d flowID s x : (s, x) ∈ failed_steps d flowID ↔
  tsteps d !! s = Some x ∧ x.1 = flowID ∧ r_status x.2 = StatusFailed ∧ r_error x.2 ≠ "".
Proof.
  unfold failed_steps. rewrite merge_sort_Permutation, list_elem_of_filter, elem_of_map_to_list. simpl. tauto.
Qed.

#[export] Instance row_id_le_trans : Transitive row_id_le.
Proof. unfold row_id_le. intros ???. lia. Qed.
#[export] Instance row_id_le_total : Total row_id_le.
Proof. unfold row_id_le. intros ??. lia. Qed.

Lemma sample_error_spec d flowID :
  (sample_error d flowID = "" ∧ ∀ s r, tsteps d !! s = Some (flowID, r) → r_status r = StatusFailed → r_error r = "")
  ∨ ∃ s r, tsteps d !! s = Some (flowID, r) ∧ r_status r = StatusFailed ∧ sample_error d flowID = r_error r ∧ r_error r ≠ ""
      ∧ ∀ s' r', tsteps d !! s' = Some (flowID, r') → r_status r' = StatusFailed → r_error r' ≠ "" → s ≤ s'.
Proof.
  pose proof (failed_steps_elem d flowID) as He. unfold sample_error.
  pose proof (StronglySorted_merge_sort row_id_le
    (filter (λ e, e.2.1 = flowID ∧ r_status e.2.2 = StatusFailed ∧ r_error e.2.2 ≠ "") (map_to_list (tsteps d)))) as Hs.
  fold (failed_steps d flowID) in Hs. destruct (failed_steps d flowID) as [|[s [f r]] l].
  - left. split; [done|]. intros s r Hr Hf. destruct (decide (r_error r = "")) as [|Hn]; [done|].
    by destruct (not_elem_of_nil (s, (flowID, r))); apply He.
  - right. destruct (proj1 (He s (f, r)) (list_elem_of_here _ _)) as (Hr & Hf & Hst & Hne). simpl in Hf. subst f.
    exists s, r. split_and!; try done. intros s' r' Hr' Hst' Hne'.
    assert ((s', (flowID, r')) ∈ (s, (flowID, r)) :: l) as [Heq|Hin]%elem_of_cons by (by apply He); [by simplify_eq|].
    apply StronglySorted_inv in Hs as [_ Hall]. rewrite Forall_forall in Hall. by apply (Hall _ Hin).
Qed.

(** ** The tables afterwards *)

Section told.
Context (final : db → Z → State) (encode : suberr → string).

Lemma lookup_flow_resolved flowID caller c last d id :
  flows (resolve_loss final encode flowID caller c last d) !! id
  = (λ f, if bool_decide (id = flowID) && negb (terminal (tf_status f))
          then settle_flow (loss_status c) (final d id) (flowErrorText c (flowLossError d flowID c last)) (tf_reason f) f
          else f) <$> flows d !! id.
Proof using Type.
  unfold resolve_loss, deliverFlowFailureToParent. destruct (bool_decide (caller = 0)); apply lookup_update_flows.
Qed.

Lemma lookup_step_resolved flowID caller c last d id :
  tsteps (resolve_loss final encode flowID caller c last d) !! id
  = (λ '(f, r), (f, if negb (bool_decide (caller = 0)) && bool_decide (id = caller)
                    then default r (revive_error (tnow d) (encode (flowLossError d flowID c last)) r) else r)) <$> tsteps d !! id.
Proof using Type.
  unfold resolve_loss, deliverFlowFailureToParent. destruct (bool_decide (caller = 0)); simpl.
  - by destruct (tsteps d !! id) as [[]|].
  - apply lookup_update_steps.
Qed.

(** The transaction is one of the histories [Tree] accounts for. *)
Lemma failStep_reached flowID stepID seq taskErr cohort d fenced d' :
  failStep final encode flowID stepID seq taskErr cohort d = Some (fenced, d') → treach d → treach d'.
Proof using Type.
  unfold failStep. destruct (dynamicSubgraphParent d flowID) as [p|]; [|done]. simpl.
  destruct (tsteps d !! stepID) as [[f r]|]; [|done]. simpl.
  destruct (fail_row _ _ _ _ _); intros [= <- <-] Hd; [|done].
  assert (treach (update_steps (λ id _, bool_decide (id = stepID))
    (fail_row (tnow d) (err_cancelled taskErr) (sanitizeErrorMessage (err_msg taskErr)) seq) d)) as H1
    by (eapply treach_step; [done|apply t_rows]).
  destruct cohort as [c|]; [|done]. unfold resolve_loss, deliverFlowFailureToParent.
  destruct (bool_decide (p = 0)); [|eapply treach_step; [|apply t_rows]]; (eapply treach_step; [exact H1|apply t_settle; [done|]]);
    (intros id h; simpl; by destruct c).
Qed.

Lemma failStep_step flowID stepID seq taskErr cohort d d' f p :
  flows d !! flowID = Some f → dynamicSubgraphParent d flowID = Some p →
  failStep final encode flowID stepID seq taskErr cohort d = Some (false, d') →
  ∃ g r r', tsteps d !! stepID = Some (g, r)
    ∧ fail_row (tnow d) (err_cancelled taskErr) (sanitizeErrorMessage (err_msg taskErr)) seq r = Some r'
    ∧ d' = let d1 := update_steps (λ id _, bool_decide (id = stepID))
                       (fail_row (tnow d) (err_cancelled taskErr) (sanitizeErrorMessage (err_msg taskErr)) seq) d in
           match cohort with None => d1 | Some c => resolve_loss final encode flowID p c (Some taskErr) d1 end.
Proof using Type.
  unfold failStep. intros Hf ->. simpl. destruct (tsteps d !! stepID) as [[g r]|] eqn:Hr; [|done]. simpl.
  destruct (fail_row _ _ _ _ r) as [r'|] eqn:Hw; intros H; simplify_eq. by exists g, r, r'.
Qed.
End told.

(** What the sweep that backs up a lost delivery would tell the caller instead: the same kind of error. *)
Lemma outcome_of_loss id f c : tf_status f = loss_status c → ∃ e, outcome (Some (id, f)) = inr e ∧ err_cancelled e = c.
Proof. unfold outcome. intros ->. destruct c; by eexists. Qed.

Lemma lookup_update_other_step p stmt d id : (∀ f, p id f = false) → tsteps (update_steps p stmt d) !! id = tsteps d !! id.
Proof. intros Hp. rewrite lookup_update_steps. destruct (tsteps d !! id) as [[f r]|]; simpl; by rewrite ?Hp. Qed.

Lemma revived_error now err r : parked_caller r = true →
  let r' := default r (revive_error now err r) in
  r_status r' = StatusPending ∧ r_lease_expires r' = now ∧ r_subgraph_done r' = true ∧ r_subgraph_error r' = err.
Proof. unfold revive_error, update_where. by intros ->. Qed.

(** The oldest failure of the flow is the one that is told. *)
Lemma loss_error_sampled d flowID e s r : err_cancelled e = true → tsteps d !! s = Some (flowID, r) →
  r_status r = StatusFailed → r_error r ≠ "" → TrimSpace (r_error r) ≠ "" →
  (∀ s' r', tsteps d !! s' = Some (flowID, r') → s' < s → r_status r' = StatusFailed → r_error r' = "") →
  err_msg (flowLossError d flowID false (Some e)) = TrimSpace (r_error r).
Proof.
  intros He Hr Hst Hne Htrim Hold. unfold flowLossError. rewrite He. simpl.
  destruct (sample_error_spec d flowID) as [[_ H]|(s1 & r1 & Hr1 & Hst1 & -> & Hne1 & Hmin)]; [by destruct Hne; eapply H|].
  pose proof (Hmin s r Hr Hst Hne) as Hle. destruct (decide (s1 = s)) as [->|Hlt].
  - simplify_eq. by rewrite bool_decide_eq_false_2.
  - destruct Hne1. apply (Hold s1 r1); [done|lia|done].
Qed.

Lemma fail_row_status now c msg seq r r' : fail_row now c msg seq r = Some r' →
  r_status r' = (if c then StatusCancelled else StatusFailed).
Proof. unfold fail_row, update_where. destruct (_ && _); [|done]. by intros [= <-]. Qed.

(** C21. A loss is told the same way everywhere.  When a failing step resolves a child flow, the flow is cancelled
    or failed as its cohorts counted; a cancelled flow carries no error text and a failed one the text of the error;
    the step that called it is claimable with that same error, which is a cancellation exactly when the flow is
    cancelled; a failed flow whose last loss was a cancellation tells the oldest real failure instead; the sweep
    that repairs a lost delivery would tell an error of the same kind; and no other row changes, of the
    columns modelled here (the counters of the spawn's row are [Cohort]'s). *)
Theorem a_loss_is_told_one_way final encode d flowID stepID seq taskErr c d' f g rc :
  failStep final encode flowID stepID seq taskErr (Some c) d = Some (false, d') →
  flows d !! flowID = Some f → terminal (tf_status f) = false → tf_parent f ≠ 0 → tf_caller f ≠ 0 → tf_caller f ≠ stepID →
  tsteps d !! tf_caller f = Some (g, rc) → parked_caller rc = true →
  ∃ f' rc' e, flows d' !! flowID = Some f' ∧ tf_status f' = loss_status c
    ∧ tf_error f' = (if c then "" else sanitizeErrorMessage (err_msg e)) ∧ has_control (tf_error f') = false
    ∧ tsteps d' !! tf_caller f = Some (g, rc') ∧ r_status rc' = StatusPending ∧ r_lease_expires rc' = tnow d
    ∧ r_subgraph_done rc' = true ∧ r_subgraph_error rc' = encode e ∧ err_cancelled e = c
    ∧ (if c || err_cancelled taskErr then True else e = taskErr)
    ∧ (c = false → err_cancelled taskErr = true → ∀ s r, tsteps d !! s = Some (flowID, r) → s ≠ stepID →
         r_status r = StatusFailed → r_error r ≠ "" → (∀ s' r', tsteps d !! s' = Some (flowID, r') → s' < s →
           r_status r' = StatusFailed → r_error r' = "") → TrimSpace (r_error r) ≠ "" → err_msg e = TrimSpace (r_error r))
    ∧ (∃ e', outcome (Some (flowID, f')) = inr e' ∧ err_cancelled e' = c)
    ∧ (∀ id, id ≠ flowID → flows d' !! id = flows d !! id)
    ∧ (∀ id, id ≠ stepID → id ≠ tf_caller f → tsteps d' !! id = tsteps d !! id).
Proof.
  intros Hrun Hf Hlive Hp Hc Hne Hcaller Hparked.
  assert (dynamicSubgraphParent d flowID = Some (tf_caller f)) as Hdp
    by (unfold dynamicSubgraphParent; rewrite Hf; simpl; by rewrite !bool_decide_eq_false_2).
  destruct (failStep_step _ _ _ _ _ _ _ _ _ _ _ Hf Hdp Hrun) as (gs & r & r' & Hr & Hw & Hd). cbv zeta in Hd.
  revert Hd. set (d1 := update_steps _ _ _). set (e := flowLossError d1 flowID c (Some taskErr)). intros ->.
  assert (∀ id, id ≠ stepID → tsteps d1 !! id = tsteps d !! id) as Hother
    by (intros id Hid; apply lookup_update_other_step; by rewrite bool_decide_eq_false_2).
  exists (settle_flow (loss_status c) (final d1 flowID) (flowErrorText c e) (tf_reason f) f),
    (default rc (revive_error (tnow d) (encode e) rc)), e.
  split_and!.
  - rewrite lookup_flow_resolved. change (flows d1) with (flows d). rewrite Hf. simpl.
    by rewrite bool_decide_eq_true_2, Hlive by done.
  - done.
  - done.
  - simpl. unfold flowErrorText. destruct c; [done|apply sanitize_clean].
  - rewrite lookup_step_resolved, Hother by done. rewrite Hcaller. simpl.
    by rewrite (bool_decide_eq_true_2 (tf_caller f = tf_caller f)), bool_decide_eq_false_2 by done.
  - by apply revived_error.
  - by apply revived_error.
  - by apply revived_error.
  - by apply revived_error.
  - apply loss_error_kind.
  - destruct c; [done|]. destruct (err_cancelled taskErr) eqn:Ht; [done|]. by apply loss_error_real.
  - intros -> Ht s rs Hs Hsne Hst Her Hold Htrim. apply (loss_error_sampled d1 flowID taskErr s rs); [done|by rewrite Hother|done..|].
    intros s' r1 Hs' Hlt Hst'. destruct (decide (s' = stepID)) as [->|Hn]; [|by apply (Hold s'); rewrite <-?Hother].
    revert Hs'. unfold d1. rewrite lookup_update_steps, Hr. simpl. rewrite bool_decide_eq_true_2, Hw by done. intros [= -> <-].
    apply fail_row_status in Hw. rewrite Ht in Hw. simpl in Hst'. congruence.
  - by apply outcome_of_loss.
  - intros id Hid. rewrite lookup_flow_resolved. change (flows d1) with (flows d).
    rewrite bool_decide_eq_false_2 by done. by destruct (flows d !! id).
  - intros id H1 H2. rewrite lookup_step_resolved, Hother by done. rewrite (bool_decide_eq_false_2 (id = tf_caller f)), andb_false_r by done.
    by destruct (tsteps d !! id) as [[]|].
Qed.

(** A caller parked on its child, and the child's only step at work. *)
Definition called_row (st : status_t) (p : park) : row := mkRow st p 0 0 1000 1 1000 1 1 false false false ∅ ∅ ∅ "" ∅ "".
Definition calling : db :=
  mkDb 7 {[ 1 := mkTFlow StatusRunning 0 0 1 ∅ "" ""; 2 := mkTFlow StatusRunning 1 1 1 ∅ "" "" ]}
    {[ 1 := (1, called_row StatusRunning parkedSubgraph); 2 := (2, called_row StatusRunning parkedNone) ]}.

Lemma a_loss_is_told_one_way_witness : ∃ d' f' rc' e,
  failStep (λ _ _, ∅) err_msg 2 2 1 (mkErr "boom" false) (Some false) calling = Some (false, d')
  ∧ flows d' !! 2 = Some f' ∧ tf_status f' = StatusFailed ∧ tsteps d' !! 1 = Some (1, rc')
  ∧ r_subgraph_error rc' = err_msg e ∧ err_cancelled e = false.
Proof.
  destruct (failStep (λ _ _, ∅) err_msg 2 2 1 (mkErr "boom" false) (Some false) calling) as [[b d']|] eqn:Hrun; [|by vm_compute in Hrun].
  assert (b = false) as -> by (vm_compute in Hrun; congruence).
  destruct (a_loss_is_told_one_way _ _ _ _ _ _ _ _ _ (mkTFlow StatusRunning 1 1 1 ∅ "" "") 1 (called_row StatusRunning parkedSubgraph) Hrun)
    as (f' & rc' & e & H1 & H2 & _ & _ & H3 & _ & _ & _ & H4 & H5 & _); [reflexivity|reflexivity|discriminate..|reflexivity|reflexivity|].
  by exists d', f', rc', e.
Defined.
