(* ===== verification/FinalState.v ===== *)
(** * The final state of a flow ([engine/completion.go])

    [computeFinalState] with [mergeTerminalSteps] and [cohortSpawnTasks], over the payload columns
    of the step rows.  The merge of a cohort that never converged is [FanInState.mergeCohortState],
    the references are [Staterefs]'s, and the rows a reference is read from are the same table. *)

From S2P Require Import Prelude Float64 Graph Reducers State Staterefs FanInState Tree.

#[local] Open Scope Z_scope.

(** The columns of [dwarf_steps] that the final state reads. *)
Record prow := mkPRow {
  pr_flow : Z;
  pr_task : string;
  pr_lineage : Z;
  pr_ordinal : Z;
  pr_depth : Z;
  pr_successor : Z;
  pr_completed : bool;
  pr_state : State;
  pr_changes : entries;
  pr_refs : Refs
}.
Abbreviation prows := (gmap Z prow).

Inductive final_error := ErrRef (e : ref_error) | ErrMerge (e : state_error) | ErrNoGraph.

(** [anchorLoader]: a step row as an anchor. *)
Definition anchorLoader (tab : prows) : anchors :=
  (λ r, mkAnchor (pr_state r) (list_to_map (pr_changes r)) (pr_refs r)) <$> tab.

(** ** The order of a scan *)

(** [ORDER BY step_id]. *)
Definition row_le (x y : Z * prow) : Prop := x.1 ≤ y.1.
#[export] Instance row_le_dec x y : Decision (row_le x y).
Proof. unfold row_le. apply _. Defined.

(** [ORDER BY fan_out_ordinal, step_depth, step_id]. *)
Definition branch_le (x y : Z * prow) : Prop :=
  pr_ordinal x.2 < pr_ordinal y.2 ∨
  pr_ordinal x.2 = pr_ordinal y.2 ∧ (pr_depth x.2 < pr_depth y.2 ∨ pr_depth x.2 = pr_depth y.2 ∧ x.1 ≤ y.1).
#[export] Instance branch_le_dec x y : Decision (branch_le x y).
Proof. unfold branch_le. apply _. Defined.

(** The rows of a flow without a successor; with [done], the completed ones of them. *)
Definition tails (done : bool) (flow : Z) (tab : prows) : list (Z * prow) :=
  merge_sort row_le (filter (λ e, pr_flow e.2 = flow ∧ pr_successor e.2 = 0 ∧ (done = true → pr_completed e.2 = true))
    (map_to_list tab)).

Definition members_of (flow spawn : Z) (tab : prows) : list member :=
  (λ e, mkMember (pr_completed e.2) (pr_changes e.2)) <$>
  merge_sort branch_le (filter (λ e, pr_flow e.2 = flow ∧ pr_lineage e.2 = spawn) (map_to_list tab)).

(** ** The enclosing spawns *)

(** The lineage chain upward, innermost first; [seen] keeps a malformed chain from spinning.  [None]:
    out of fuel. *)
Fixpoint cohortSpawnTasks (fuel : nat) (tab : prows) (seen : gset Z) (lineageID : Z) : option (list string) :=
  if bool_decide (lineageID = 0 ∨ lineageID ∈ seen) then Some [] else
  match fuel with
  | O => None
  | S fuel =>
      match tab !! lineageID with
      | None => Some []
      | Some r => (λ ts, TrimSpace (pr_task r) :: ts) <$> cohortSpawnTasks fuel tab ({[lineageID]} ∪ seen) (pr_lineage r)
      end
  end.

Definition spawn_tasks (tab : prows) (lineageID : Z) : list string :=
  default [] (cohortSpawnTasks (S (base.size tab)) tab ∅ lineageID).

Definition strip_all (g : Graph) (tasks : list string) (s : State) : State :=
  fold_left (λ s t, stripForEachBookkeeping g t s) tasks s.

(** ** The final state *)

Section final.
Context (order : gmap string val → list string) (resolved : cache).

Definition lift_ref {A} (r : result ref_error A) : result final_error A :=
  match r with Ok a => Ok a | Err e => Err (ErrRef e) end.
Definition lift_merge {A} (r : result state_error A) : result final_error A :=
  match r with Ok a => Ok a | Err e => Err (ErrMerge e) end.

(** The closure of [mergeTerminalSteps]: the first row is the base, every row contributes its delta;
    references are materialized.  [None]: no row. *)
Definition merge_tails (g : Graph) (tab : prows) (rows : list (Z * prow)) : result final_error (option (State * Z)) :=
  match rows with
  | [] => Ok None
  | (_, r) :: _ =>
      base ←? lift_ref (Resolve (anchorLoader tab) resolved (pr_state r) (pr_refs r) None);
      match MergeReduceAll (Graph.reducers g) order ((λ e, pr_changes e.2) <$> rows) base with
      | (_, Some e) => Err (ErrMerge e)
      | (merged, None) => Ok (Some (DelNils merged, pr_lineage r))
      end
  end.

Definition mergeTerminalSteps (g : Graph) (flow : Z) (tab : prows) : result final_error (State * Z) :=
  found ←? merge_tails g tab (tails true flow tab);
  match found with
  | Some m => Ok m
  | None => found ←? merge_tails g tab (tails false flow tab); Ok (default (∅, 0) found)
  end.

(** [mergeCohortState] over the rows: the spawn's own row is read by its id alone. *)
Definition cohort_state (g : Graph) (flow spawn : Z) (tab : prows) : result final_error State :=
  match tab !! spawn with
  | None => Ok ∅
  | Some r =>
      state ←? lift_ref (Resolve (anchorLoader tab) resolved (pr_state r) (pr_refs r) None);
      lift_merge (mergeCohortState g order state (pr_changes r) (members_of flow spawn tab))
  end.

(** [graph = None]: the flow's row, or the graph in it, cannot be read. *)
Definition computeFinalState (graph : option Graph) (flow : Z) (tab : prows) : result final_error State :=
  match graph with
  | None => Err ErrNoGraph
  | Some g =>
      '(merged, baseLineageID) ←? mergeTerminalSteps g flow tab;
      merged ←? (if bool_decide (baseLineageID = 0) then Ok merged else cohort_state g flow baseLineageID tab);
      Ok (strip_all g (spawn_tasks tab baseLineageID) merged)
  end.
End final.

(** ** The chain ends *)

Lemma cohortSpawnTasks_fuel fuel tab seen l :
  (base.size (dom tab ∖ seen) < fuel)%nat → is_Some (cohortSpawnTasks fuel tab seen l).
Proof.
  revert seen l. induction fuel as [|fuel IH]; intros seen l Hf; [lia|]. simpl.
  case_bool_decide as Hl; [by eexists|]. destruct (tab !! l) as [r|] eqn:Hr; [|by eexists].
  destruct (IH ({[l]} ∪ seen) (pr_lineage r)) as [ts ->]; [|by eexists].
  assert (base.size (dom tab ∖ ({[l]} ∪ seen)) < base.size (dom tab ∖ seen))%nat; [|lia].
  apply subset_size. split; [set_solver|]. intros Hsub. apply Decidable.not_or in Hl as [_ Hl].
  specialize (Hsub l). apply elem_of_dom_2 in Hr. set_solver.
Qed.

Lemma cohortSpawnTasks_more fuel fuel' tab seen l ts :
  cohortSpawnTasks fuel tab seen l = Some ts → (fuel ≤ fuel')%nat → cohortSpawnTasks fuel' tab seen l = Some ts.
Proof.
  revert fuel' seen l ts. induction fuel as [|fuel IH]; intros fuel' seen l ts H Hle; simpl in H.
  - destruct fuel'; simpl; by case_bool_decide.
  - destruct fuel' as [|fuel']; [lia|]. simpl. case_bool_decide; [done|]. destruct (tab !! l) as [r|]; [|done].
    destruct (cohortSpawnTasks fuel _ _ _) as [ts'|] eqn:E; [|done]. rewrite (IH fuel' _ _ _ E) by lia. done.
Qed.

(** The chain as a relation: [enclosing tab l ts] when the spawns around lineage [l] are [ts]. *)
Inductive enclosing (tab : prows) : gset Z → Z → list string → Prop :=
| enclosing_out seen l : l = 0 ∨ l ∈ seen ∨ tab !! l = None → enclosing tab seen l []
| enclosing_in seen l r ts :
    l ≠ 0 → l ∉ seen → tab !! l = Some r → enclosing tab ({[l]} ∪ seen) (pr_lineage r) ts →
    enclosing tab seen l (TrimSpace (pr_task r) :: ts).

Lemma cohortSpawnTasks_enclosing fuel tab seen l ts :
  cohortSpawnTasks fuel tab seen l = Some ts → enclosing tab seen l ts.
Proof.
  revert seen l ts. induction fuel as [|fuel IH]; intros seen l ts; simpl; case_bool_decide as Hl.
  1,3: intros [= <-]; constructor; tauto.
  - done.
  - apply Decidable.not_or in Hl as [Hl0 Hls]. destruct (tab !! l) as [r|] eqn:Hr; [|intros [= <-]; constructor; tauto].
    intros (ts' & H & ->)%fmap_Some. econstructor; eauto.
Qed.

Lemma spawn_tasks_enclosing tab l : enclosing tab ∅ l (spawn_tasks tab l).
Proof.
  unfold spawn_tasks. destruct (cohortSpawnTasks_fuel (S (base.size tab)) tab ∅ l) as [ts Hts].
  - rewrite difference_empty_L, size_dom. lia.
  - rewrite Hts. simpl. by eapply cohortSpawnTasks_enclosing.
Qed.

(** ** What is stripped *)

(** The names the enclosing cohorts reserve. *)
Definition reserved (g : Graph) (tasks : list string) : list string :=
  tasks ≫= λ t, if bool_decide (t = "") then [] else bookkeeping g t.

Lemma elem_of_reserved_cons g t ts k :
  k ∈ reserved g (t :: ts) ↔ (t ≠ "" ∧ k ∈ bookkeeping g t) ∨ k ∈ reserved g ts.
Proof. unfold reserved. simpl. rewrite elem_of_app. case_bool_decide; set_solver. Qed.

Lemma strip_all_lookup g ts s k :
  strip_all g ts s !! k = if bool_decide (k ∈ reserved g ts) then None else s !! k.
Proof.
  revert s. induction ts as [|t ts IH]; intros s; [done|]. unfold strip_all in *. simpl. rewrite IH.
  rewrite (bool_decide_ext _ _ (elem_of_reserved_cons g t ts k)).
  unfold stripForEachBookkeeping. destruct (decide (t = "")) as [->|Ht].
  - rewrite !(bool_decide_eq_true_2 ("" = "")) by done. repeat case_bool_decide; naive_solver.
  - rewrite !(bool_decide_eq_false_2 (t = "")) by done. rewrite lookup_Del.
    repeat case_bool_decide; naive_solver.
Qed.

(** ** Two bases that agree where the reducers look *)

Section agree.
Context (rd : reducer_map) (A : string → Prop).
Context (A_folds : ∀ k, replaces rd k = false → A k).

Definition agree_on (P : string → Prop) (s s2 : State) : Prop := ∀ k, P k → s !! k = s2 !! k.

Lemma agree_insert P k v s s2 : agree_on P s s2 → agree_on (λ k', P k' ∨ k' = k) (<[k := v]> s) (<[k := v]> s2).
Proof.
  intros H k' Hk. destruct (decide (k = k')) as [<-|Hne]; [by rewrite !lookup_insert_eq|].
  rewrite !lookup_insert_ne by done. apply H. naive_solver.
Qed.

Lemma agree_weaken (P Q : string → Prop) s s2 : agree_on P s s2 → (∀ k, Q k → P k) → agree_on Q s s2.
Proof. intros H Hq k ?. auto. Qed.

Lemma MergeReduce_agree l : ∀ P s s2 t, (∀ k, A k → P k) → agree_on P s s2 →
  MergeReduce rd l s = (t, None) →
  ∃ t2, MergeReduce rd l s2 = (t2, None) ∧ agree_on (λ k, P k ∨ k ∈ l.*1) t t2.
Proof.
  induction l as [|[k v] l IH]; intros P s s2 t HP Hs H; cbn [MergeReduce] in *.
  { injection H as <-. exists s2. split; [done|]. eapply agree_weaken; [done|]. set_solver. }
  destruct (merge_field rd k v s) as [s1|] eqn:Hf; [|done].
  assert (∃ s12, merge_field rd k v s2 = Ok s12 ∧ agree_on (λ k', P k' ∨ k' = k) s1 s12) as (s12 & -> & Hs1).
  { unfold merge_field in *. destruct (replaces rd k) eqn:Hrep.
    { injection Hf as <-. eexists. split; [done|]. by apply agree_insert. }
    pose proof (HP _ (A_folds _ Hrep)) as HAk. rewrite <-(Hs _ HAk). destruct (isCleared v).
    { injection Hf as <-. eexists. split; [done|]. eapply agree_weaken; [done|]. naive_solver. }
    apply rbind_Ok in Hf as (b & -> & Hf). apply rbind_Ok in Hf as (i & -> & Hf).
    apply rbind_Ok in Hf as (w & Hw & Hf). apply rbind_Ok in Hf as (r & Hr & [= <-]).
    cbn [rbind]. rewrite Hw. cbn [rbind]. rewrite Hr. eexists. split; [done|]. by apply agree_insert. }
  destruct (IH (λ k', P k' ∨ k' = k) s1 s12 t) as (t2 & Ht2 & Hag); [auto|done..|].
  exists t2. split; [done|]. eapply agree_weaken; [done|]. set_solver.
Qed.

Lemma all_fields_agree l : ∀ P s s2 acc t acc', (∀ k, A k → P k) → agree_on P s s2 →
  all_fields rd l (s, acc) = (t, acc', None) →
  ∃ t2, all_fields rd l (s2, acc) = (t2, acc', None) ∧ agree_on (λ k, P k ∨ k ∈ l.*1) t t2.
Proof.
  induction l as [|[k v] l IH]; intros P s s2 acc t acc' HP Hs H; cbn [all_fields] in *.
  { injection H as <- <-. exists s2. split; [done|]. eapply agree_weaken; [done|]. set_solver. }
  destruct (all_field rd k v (s, acc)) as [[s1 acc1]|] eqn:Hf; [|done].
  assert (∃ s12, all_field rd k v (s2, acc) = Ok (s12, acc1) ∧ agree_on (λ k', P k' ∨ k' = k) s1 s12) as (s12 & -> & Hs1).
  { unfold all_field in *. destruct (replaces rd k) eqn:Hrep.
    { injection Hf as <- <-. eexists. split; [done|]. by apply agree_insert. }
    pose proof (HP _ (A_folds _ Hrep)) as HAk. rewrite <-(Hs _ HAk). destruct (isCleared v).
    { injection Hf as <- <-. eexists. split; [done|]. eapply agree_weaken; [done|]. naive_solver. }
    apply rbind_Ok in Hf as (b & -> & Hf). apply rbind_Ok in Hf as (i & -> & Hf).
    apply rbind_Ok in Hf as (w & Hw & [= <- <-]).
    cbn [rbind]. rewrite Hw. eexists. split; [done|]. eapply agree_weaken; [done|]. naive_solver. }
  destruct (IH (λ k', P k' ∨ k' = k) s1 s12 acc1 t acc') as (t2 & Ht2 & Hag); [auto|done..|].
  exists t2. split; [done|]. eapply agree_weaken; [done|]. set_solver.
Qed.

Lemma write_back_agree P ks acc : ∀ s s2 t, agree_on P s s2 → write_back ks acc s = (t, None) →
  ∃ t2, write_back ks acc s2 = (t2, None) ∧ agree_on P t t2.
Proof.
  induction ks as [|k ks IH]; intros s s2 t Hs H; simpl in *; [simplify_eq; eauto|].
  destruct (acc !! k) as [v|]; [|by eauto]. destruct (encode k v) as [r|]; [|done].
  eapply IH, H. eapply agree_weaken; [by apply agree_insert|]. naive_solver.
Qed.

Lemma MergeReduceAll_agree order ls P s s2 t : (∀ k, A k → P k) → agree_on P s s2 →
  MergeReduceAll rd order ls s = (t, None) →
  ∃ t2, MergeReduceAll rd order ls s2 = (t2, None) ∧ agree_on (λ k, P k ∨ k ∈ (concat ls).*1) t t2.
Proof.
  intros HP Hs. unfold MergeReduceAll. destruct (all_fields rd (concat ls) (s, ∅)) as [[s1 acc] [e|]] eqn:Hf; [done|].
  destruct (all_fields_agree _ _ _ _ _ _ _ HP Hs Hf) as (s12 & -> & Hag). by apply write_back_agree.
Qed.
End agree.

(** ** A field that is replaced *)

Lemma all_fields_replaced rd l k : ∀ s acc t acc',
  replaces rd k = true → NoDup l.*1 → acc !! k = None → all_fields rd l (s, acc) = (t, acc', None) →
  acc' !! k = None ∧ t !! k = match (list_to_map l : State) !! k with Some v => Some v | None => s !! k end.
Proof.
  induction l as [|[k0 v] l IH]; intros s acc t acc' Hrep Hnd Hacc H; cbn [all_fields] in H.
  { by injection H as <- <-. }
  apply NoDup_cons in Hnd as [Hk0 Hnd]. simpl in Hk0.
  destruct (all_field rd k0 v (s, acc)) as [[s1 acc1]|] eqn:Hf; [|done].
  assert (acc1 !! k = None ∧ s1 !! k = if bool_decide (k0 = k) then Some v else s !! k) as [Ha Hs].
  { unfold all_field in Hf. destruct (replaces rd k0) eqn:Hrep0.
    - injection Hf as <- <-. split; [done|]. rewrite lookup_insert. by repeat case_decide; repeat case_bool_decide.
    - assert (k0 ≠ k) as Hne by congruence. rewrite bool_decide_eq_false_2 by done.
      destruct (isCleared v); [by injection Hf as <- <-|]. split_checks. simplify_eq. by rewrite lookup_insert_ne. }
  destruct (IH _ _ _ _ Hrep Hnd Ha H) as [Ha' Ht]. split; [done|]. rewrite Ht, Hs. simpl.
  destruct (decide (k0 = k)) as [<-|Hne].
  - rewrite lookup_insert_eq, bool_decide_eq_true_2 by done. apply not_elem_of_list_to_map in Hk0. by rewrite Hk0.
  - by rewrite lookup_insert_ne, bool_decide_eq_false_2.
Qed.

Lemma MergeReduceAll_replaced rd order c s t k :
  replaces rd k = true → NoDup c.*1 → MergeReduceAll rd order [c] s = (t, None) →
  t !! k = match (list_to_map c : State) !! k with Some v => Some v | None => s !! k end.
Proof.
  intros Hrep Hnd. unfold MergeReduceAll. simpl. rewrite app_nil_r.
  destruct (all_fields rd c (s, ∅)) as [[s1 acc] [e|]] eqn:Hf; [done|]. intros Hw.
  destruct (all_fields_replaced _ _ _ _ _ _ _ Hrep Hnd (lookup_empty _) Hf) as [Ha Hs].
  by rewrite (write_back_other _ _ _ _ _ _ Hw Ha).
Qed.

Lemma lookup_DelNils s k : DelNils s !! k = match s !! k with Some v => if isCleared v then None else Some v | None => None end.
Proof. unfold DelNils. rewrite map_lookup_filter. destruct (s !! k) as [v|]; simpl; [|done]. by destruct (isCleared v). Qed.

(** The final state of a flow that ran to its end outside any cohort: its one completed step without
    a successor is the base, nothing is stripped from it, every field the reducers leave alone is
    what a further step would have been handed (the references materialized, the step's own delta on
    top, its deletes enacted), and a field the last step did not write keeps its value. *)
Theorem completed_flow_final_state order resolved g flow tab id r S M :
  tails true flow tab = [(id, r)] → pr_lineage r = 0 → NoDup (pr_changes r).*1 →
  Resolve (anchorLoader tab) resolved (pr_state r) (pr_refs r) None = Ok S →
  MergeReduceAll (Graph.reducers g) order [pr_changes r] S = (M, None) →
  ∃ final, computeFinalState order resolved (Some g) flow tab = Ok final ∧
    ∀ k, replaces (Graph.reducers g) k = true ∨ k ∉ (pr_changes r).*1 →
      final !! k = materialize (list_to_map (pr_changes r)) S !! k.
Proof.
  intros Ht Hl Hnd HS HM.
  assert (mergeTerminalSteps order resolved g flow tab = Ok (DelNils M, 0)) as Hm.
  { unfold mergeTerminalSteps, merge_tails. rewrite Ht. simpl. rewrite HS. simpl. rewrite HM. simpl. by rewrite Hl. }
  unfold computeFinalState. rewrite Hm. cbn [rbind]. rewrite bool_decide_eq_true_2 by done. cbn [rbind].
  assert (spawn_tasks tab 0 = []) as ->.
  { unfold spawn_tasks, cohortSpawnTasks. by rewrite bool_decide_eq_true_2 by auto. }
  exists (DelNils M). split; [done|]. intros k Hk.
  unfold materialize, Merge. rewrite !lookup_DelNils, lookup_union.
  assert (M !! k = match (list_to_map (pr_changes r) : State) !! k with Some v => Some v | None => S !! k end) as ->.
  { destruct Hk as [Hk|Hk]; [by eapply MergeReduceAll_replaced|].
    pose proof (MergeReduceAll_other (Graph.reducers g) order [pr_changes r] S k) as Ho. rewrite HM in Ho. simpl in Ho.
    rewrite app_nil_r in Ho. rewrite (Ho Hk). apply not_elem_of_list_to_map in Hk. by rewrite Hk. }
  destruct ((list_to_map (pr_changes r) : State) !! k); [by rewrite union_Some_l|by rewrite (left_id_L None _)].
Qed.

(** ** A cohort that failed *)

Lemma folds_registered (rd : reducer_map) k : replaces rd k = false → is_Some (rd !! k).
Proof.
  unfold replaces, reducer_of. destruct (rd !! k) as [x|]; [by eexists|]. intros H%bool_decide_eq_false.
  exfalso. apply H. by left.
Qed.

Lemma MergeReduce_other rd l s s' : MergeReduce rd l s = (s', None) → ∀ k, k ∉ l.*1 → s' !! k = s !! k.
Proof.
  revert s. induction l as [|[k0 v] l IH]; intros s H k Hk; cbn [MergeReduce] in H; [by injection H as ->|].
  destruct (merge_field rd k0 v s) as [s1|] eqn:Hf; [|done]. apply not_elem_of_cons in Hk as [Hne Hk].
  rewrite (IH _ H _ Hk). by eapply merge_field_other.
Qed.

(** The two merges, one on the state a fan-in resolves and one on the state of its spawn row: they agree on
    every field that is written, and leave the others as they found them. *)
Lemma merges_agree (rd : gmap string string) order (refs : gmap string Z) (value : string → Z → option raw) changes cs S F M :
  (∀ k, S !! k = match refs !! k with Some a => if bool_decide (is_Some (rd !! k)) then value k a else None | None => F !! k end) →
  (∀ k a, refs !! k = Some a → F !! k = value k a) →
  MergeReduce rd changes S = (M, None) → (MergeReduceAll rd order cs M).2 = None →
  ∃ M2 T T2, MergeReduceAll rd order cs M = (T, None) ∧ MergeReduce rd changes F = (M2, None) ∧
    MergeReduceAll rd order cs M2 = (T2, None) ∧
    ∀ k, if bool_decide (k ∈ changes.*1 ∨ k ∈ (concat cs).*1) then T !! k = T2 !! k else T !! k = S !! k ∧ T2 !! k = F !! k.
Proof.
  intros HSk HFk HM HA. set (A := λ k, refs !! k = None ∨ is_Some (rd !! k)).
  assert (∀ k, replaces rd k = false → A k) as HAf by (intros k Hk; right; by apply folds_registered).
  assert (agree_on A S F) as HSF.
  { intros k HA'. rewrite HSk. destruct (refs !! k) as [a|] eqn:Ha; [|done].
    rewrite bool_decide_eq_true_2; [by rewrite (HFk _ _ Ha)|]. destruct HA' as [?|?]; [congruence|done]. }
  destruct (MergeReduce_agree rd A HAf _ _ _ _ _ (λ _ H, H) HSF HM) as (M2 & HM2 & Hag).
  destruct (MergeReduceAll rd order cs M) as [T e] eqn:HT. simpl in HA. subst e.
  destruct (MergeReduceAll_agree rd A HAf order _ _ M M2 T (λ _ H, or_introl H) Hag HT) as (T2 & HT2 & Hag2).
  exists M2, T, T2. split_and!; [done..|]. intros k. case_bool_decide as Hin; [apply Hag2; tauto|].
  apply Decidable.not_or in Hin as [H1 H2].
  pose proof (MergeReduceAll_other rd order cs M k H2) as E1. rewrite HT in E1.
  pose proof (MergeReduceAll_other rd order cs M2 k H2) as E2. rewrite HT2 in E2. simpl in *.
  by rewrite E1, E2, (MergeReduce_other _ _ _ _ HM k H1), (MergeReduce_other _ _ _ _ HM2 k H1).
Qed.

(** What the fan-in writes inline is what the spawn and the branches wrote. *)
Lemma fan_in_inline_written g S changes ms k :
  k ∈ fan_in_inline g S changes ms ∨ k ∈ changes.*1 ↔ k ∈ changes.*1 ∨ k ∈ (concat (contributions ms)).*1.
Proof.
  unfold fan_in_inline. rewrite elem_of_union, elem_of_list_to_set. split; [|tauto].
  intros [[?|Hk]|?]; [by right| |by left]. unfold CombinedReducerFields in Hk.
  apply elem_of_dom in Hk as [v [Hv _]%map_lookup_filter_Some].
  destruct (decide (k ∈ changes.*1)) as [?|Hn]; [by left|]. apply not_elem_of_list_to_map in Hn. congruence.
Qed.

(** The bookkeeping the fan-in strips of its own cohort is among the reserved names. *)
Lemma fan_in_merge_lookup g order tab base r S M T ms k :
  base ≠ 0 → tab !! base = Some r → k ∉ reserved g (spawn_tasks tab base) →
  MergeReduce (Graph.reducers g) (pr_changes r) S = (M, None) →
  MergeReduceAll (Graph.reducers g) order (contributions ms) M = (T, None) →
  fan_in_merge g order (TrimSpace (pr_task r)) S (pr_changes r) ms !! k = DelNils T !! k.
Proof.
  intros Hb Hr Hres HM HT. unfold fan_in_merge. rewrite HM. simpl. rewrite HT. simpl.
  unfold stripForEachBookkeeping. case_bool_decide as Ht; [done|]. rewrite lookup_Del.
  rewrite bool_decide_eq_false_2; [done|]. intros Hk. apply Hres.
  pose proof (spawn_tasks_enclosing tab base) as He. inversion He as [? ? Hout|? ? r' ts ? ? Hr' ? Heq]; subst.
  - destruct Hout as [?|[?|?]]; [done|set_solver|congruence].
  - rewrite Hr in Hr'. injection Hr' as <-. apply elem_of_reserved_cons. auto.
Qed.

(** What the rebuilt state holds, in the terms of the fan-in's merge. *)
Lemma rebuilt_merge order resolved g flow tab base r m S M final :
  coherent (anchorLoader tab) resolved →
  mergeTerminalSteps order resolved g flow tab = Ok (m, base) → base ≠ 0 → tab !! base = Some r →
  step_row (anchorLoader tab) base (pr_state r) (list_to_map (pr_changes r)) (pr_refs r) →
  ResolveReduced (anchorLoader tab) resolved (pr_state r) (pr_refs r) (Graph.reducers g) = Ok S →
  MergeReduce (Graph.reducers g) (pr_changes r) S = (M, None) →
  (MergeReduceAll (Graph.reducers g) order (contributions (members_of flow base tab)) M).2 = None →
  computeFinalState order resolved (Some g) flow tab = Ok final →
  let ms := members_of flow base tab in
  ∀ k, final !! k =
    if bool_decide (k ∈ reserved g (spawn_tasks tab base)) then None else
    match fan_in_merge g order (TrimSpace (pr_task r)) S (pr_changes r) ms !! k with
    | Some v => Some v
    | None => if bool_decide (k ∈ fan_in_inline g S (pr_changes r) ms ∨ k ∈ (pr_changes r).*1) then None
              else a ← pr_refs r !! k; value_at (anchorLoader tab) k a
    end.
Proof.
  intros Hc Hm Hb Hr Hrow HS HM HA Hfin. simpl. intros k. pose proof Hrow as (_ & Hd & Hh).
  destruct (step_row_resolved _ resolved base (pr_state r) _ (pr_refs r) None Hc Hrow) as (F & HF & HFk). simpl in HFk.
  assert (∀ k, S !! k = match pr_refs r !! k with
                        | Some a => if bool_decide (is_Some (Graph.reducers g !! k)) then value_at (anchorLoader tab) k a else None
                        | None => pr_state r !! k
                        end) as HSk by (by eapply resolved_reduced).
  destruct (merges_agree (Graph.reducers g) order (pr_refs r) (value_at (anchorLoader tab)) (pr_changes r) (contributions (members_of flow base tab)) S F M)
    as (M2 & T & T2 & HT & HM2 & HT2 & Hk); [|by intros ? ? Ha; rewrite HFk, Ha|done|done|].
  { intros k'. rewrite HFk. destruct (pr_refs r !! k') eqn:Ha; by rewrite HSk, Ha. }
  assert (final = strip_all g (spawn_tasks tab base) (DelNils T2)) as ->.
  { unfold computeFinalState in Hfin. rewrite Hm in Hfin. cbn [rbind] in Hfin.
    rewrite bool_decide_eq_false_2 in Hfin by done. unfold cohort_state in Hfin. rewrite Hr, HF in Hfin. simpl in Hfin.
    unfold mergeCohortState in Hfin. rewrite HM2, HT2 in Hfin. by injection Hfin as <-. }
  rewrite strip_all_lookup. case_bool_decide as Hres; [done|].
  rewrite (fan_in_merge_lookup _ _ _ _ _ _ _ T _ _ Hb Hr Hres HM HT), !lookup_DelNils.
  rewrite (bool_decide_ext _ _ (fan_in_inline_written _ _ _ _ _)). specialize (Hk k). case_bool_decide as Hin.
  - rewrite <-Hk. destruct (T !! k) as [v|]; [|done]. by destruct (isCleared v).
  - destruct Hk as [-> ->]. rewrite HSk, HFk. destruct (pr_refs r !! k) as [a|] eqn:Ha; simpl.
    + destruct (Hh _ _ Ha) as (v & -> & Hcl). rewrite Hcl. by case_bool_decide; [rewrite Hcl|].
    + by destruct (pr_state r !! k) as [v|]; [destruct (isCleared v)|].
Qed.

(** C38. A fan-out means one thing whether it converged or failed.  When the flow's terminal row is inside a
    cohort that never reached its fan-in, the final state is rebuilt from the spawn: outside the names
    the enclosing cohorts reserve, every field has the value the fan-in's merge of the same completed
    members produces, and where it produces none what the reference the spawn carried stands for.
    Where the spawn did not itself start a combining field with something its reducer rewrites, that is
    what a fan-in step fired with those members would have read: its row, minted against the spawn's,
    resolves to the final state field by field.  Nothing the other branches wrote is lost for being in
    a later row of its branch, and only the enclosing cohorts' names are dropped. *)
Theorem failed_cohort_final_state order resolved g flow tab base r m S M final :
  coherent (anchorLoader tab) resolved →
  mergeTerminalSteps order resolved g flow tab = Ok (m, base) → base ≠ 0 → tab !! base = Some r →
  step_row (anchorLoader tab) base (pr_state r) (list_to_map (pr_changes r)) (pr_refs r) →
  ResolveReduced (anchorLoader tab) resolved (pr_state r) (pr_refs r) (Graph.reducers g) = Ok S →
  MergeReduce (Graph.reducers g) (pr_changes r) S = (M, None) →
  (MergeReduceAll (Graph.reducers g) order (contributions (members_of flow base tab)) M).2 = None →
  computeFinalState order resolved (Some g) flow tab = Ok final →
  let ms := members_of flow base tab in let task := TrimSpace (pr_task r) in
  let names := reserved g (spawn_tasks tab base) in
  (∀ k, final !! k = if bool_decide (k ∈ names) then None else
    match fan_in_merge g order task S (pr_changes r) ms !! k with
    | Some v => Some v
    | None => if bool_decide (k ∈ fan_in_inline g S (pr_changes r) ms ∨ k ∈ (pr_changes r).*1) then None
              else a ← pr_refs r !! k; value_at (anchorLoader tab) k a
    end)
  ∧ (NoDup (pr_changes r).*1 → seeds_verbatim (Graph.reducers g) S (pr_changes r) → ∀ len driver raws' refs',
    insertFanInState g order len driver (anchorLoader tab) resolved base task (pr_state r) (pr_changes r) (pr_refs r) ms = Ok (raws', refs') →
    ∃ full, Resolve (anchorLoader tab) resolved raws' refs' None = Ok full ∧
      ∀ k, final !! k = if bool_decide (k ∈ names) then None else full !! k).
Proof.
  intros Hc Hm Hb Hr Hrow HS HM HA Hfin ms task names.
  pose proof (rebuilt_merge order resolved g flow tab base r m S M final Hc Hm Hb Hr Hrow HS HM HA Hfin) as Hk. split; [exact Hk|].
  intros Hnd Hseed len driver raws' refs' HI.
  destruct (fan_in_resolves len driver g order _ resolved base task _ _ _ ms S M raws' refs' Hc Hrow Hnd HS HM Hseed HI) as (_ & full & Hf & Hfull).
  exists full. split; [done|]. intros k. rewrite Hk, Hfull. done.
Qed.

(** ** Concrete flows *)

Definition docs (l : list string) : raw := Raw (VSlice TAny (VStr <$> l)).

(** [A] fans out to two [B]s and one of them failed; the first one is a tail.  A large [pdf] is
    carried by reference. *)
Definition failed_rows : prows :=
  {[1 := mkPRow 1 "E" 0 0 1 2 true ∅ [("pdf", Raw (VStr "text"))] ∅;
    2 := mkPRow 1 "A" 0 0 2 3 true {["n" := Raw (VBool true)]} [("docs", docs ["a"])] {["pdf" := 1]};
    3 := mkPRow 1 "B" 2 0 3 0 true {["x" := Raw (VStr "e0"); "n" := Raw (VBool true)]} [("docs", Raw (VStr "b"))] {["pdf" := 1; "docs" := 2]};
    4 := mkPRow 1 "B" 2 1 3 0 false {["x" := Raw (VStr "e1"); "n" := Raw (VBool true)]} [("docs", Raw (VStr "lost"))] {["pdf" := 1; "docs" := 2]}]}.

Definition failed_final : State :=
  {["pdf" := Raw (VStr "text"); "n" := Raw (VBool true); "docs" := docs ["a"; "b"]]}.

Lemma coherent_empty rows : coherent rows ∅.
Proof. intros a k v H. by rewrite lookup_empty in H. Qed.

Lemma failed_spawn_row :
  step_row (anchorLoader failed_rows) 2 {["n" := Raw (VBool true)]} (list_to_map [("docs", docs ["a"])]) {["pdf" := 1]}.
Proof.
  split_and!; [by vm_compute| |].
  - by intros k [a [<- <-]%lookup_singleton_Some].
  - intros k a [<- <-]%lookup_singleton_Some. exists (Raw (VStr "text")). by vm_compute.
Qed.

(** The row a fan-in of the same members would have had. *)
Definition fan_in_row : State * Refs := ({["docs" := docs ["a"; "b"]]}, {["pdf" := 1; "n" := 2]}).

Lemma fan_in_row_inserted :
  insertFanInState append_graph by_key big "pgx" (anchorLoader failed_rows) ∅ 2 "A" {["n" := Raw (VBool true)]}
    [("docs", docs ["a"])] {["pdf" := 1]} (members_of 1 2 failed_rows) = Ok fan_in_row.
Proof. vm_compute. reflexivity. Qed.

Lemma failed_spawn_chain : spawn_tasks failed_rows 2 = ["A"].
Proof. vm_compute. reflexivity. Qed.

Lemma failed_cohort_final_state_witness :
  computeFinalState by_key ∅ (Some append_graph) 1 failed_rows = Ok failed_final ∧
  ∃ full, Resolve (anchorLoader failed_rows) ∅ fan_in_row.1 fan_in_row.2 None = Ok full ∧
    ∀ k, failed_final !! k = if bool_decide (k ∈ reserved append_graph ["A"]) then None else full !! k.
Proof.
  split; [vm_compute; reflexivity|]. rewrite <-failed_spawn_chain.
  apply (failed_cohort_final_state by_key ∅ append_graph 1 failed_rows 2
    (mkPRow 1 "A" 0 0 2 3 true {["n" := Raw (VBool true)]} [("docs", docs ["a"])] {["pdf" := 1]})
    (default (∅, 0) (match mergeTerminalSteps by_key ∅ append_graph 1 failed_rows with Ok m => Some m | Err _ => None end)).1
    {["n" := Raw (VBool true)]} {["n" := Raw (VBool true); "docs" := docs ["a"]]} failed_final) with (len := big) (driver := "pgx").
  - apply coherent_empty.
  - vm_compute. reflexivity.
  - done.
  - vm_compute. reflexivity.
  - exact failed_spawn_row.
  - vm_compute. reflexivity.
  - vm_compute. reflexivity.
  - vm_compute. reflexivity.
  - vm_compute. reflexivity.
  - repeat constructor. set_solver.
  - intros k v [= -> ->]%list_elem_of_singleton _ _ _ t. vm_compute. by intros [= <-].
  - exact fan_in_row_inserted.
Defined.

(** The step after the fan-in is the last one. *)
Definition ended_rows (delta : entries) : prows :=
  {[1 := mkPRow 1 "A" 0 0 1 2 true ∅ [] ∅;
    5 := mkPRow 1 "J" 0 0 3 0 true {["n" := Raw (VBool true); "docs" := docs ["a"; "b"]]} delta ∅]}.

Lemma completed_flow_final_state_witness :
  ∃ final, computeFinalState by_key ∅ (Some append_graph) 1 (ended_rows [("n", Raw VNil); ("m", Raw (VStr "new"))]) = Ok final ∧
    final !! "n" = None ∧ final !! "m" = Some (Raw (VStr "new")).
Proof.
  destruct (completed_flow_final_state by_key ∅ append_graph 1 (ended_rows [("n", Raw VNil); ("m", Raw (VStr "new"))]) 5
    (mkPRow 1 "J" 0 0 3 0 true {["n" := Raw (VBool true); "docs" := docs ["a"; "b"]]} [("n", Raw VNil); ("m", Raw (VStr "new"))] ∅)
    {["n" := Raw (VBool true); "docs" := docs ["a"; "b"]]}
    {["n" := Raw VNil; "docs" := docs ["a"; "b"]; "m" := Raw (VStr "new")]}) as (final & Hf & Hk).
  - vm_compute. reflexivity.
  - done.
  - repeat constructor; set_solver.
  - vm_compute. reflexivity.
  - vm_compute. reflexivity.
  - exists final. split; [exact Hf|]. split; (rewrite Hk; [by vm_compute|left; by vm_compute]).
Defined.

(** A reducer is documented as the merge of a fan-in.  The final state also applies it to the delta of
    the last step, which is at no fan-in: where the step were followed by another one, that one would
    be handed the delta in place of the accumulated value. *)
Theorem reducer_folds_the_last_step :
  computeFinalState by_key ∅ (Some append_graph) 1 (ended_rows [("docs", docs ["c"])]) =
    Ok {["n" := Raw (VBool true); "docs" := docs ["a"; "b"; "c"]]} ∧
  materialize {["docs" := docs ["c"]]} {["n" := Raw (VBool true); "docs" := docs ["a"; "b"]]} =
    {["n" := Raw (VBool true); "docs" := docs ["c"]]}.
Proof. split; vm_compute; reflexivity. Qed.

(** [A] fans out to two [B]s, each [B] to two [C]s which converge on [K], and the [K]s on [J]. *)
Definition nested_graph : Graph :=
  SetReducer "docs" ReducerAppend (SetFanIn "J" (SetFanIn "K"
    (AddTransition "K" "J" (AddTransition "C" "K" (AddTransitionForEach "B" "C" "ys" "y"
      (AddTransitionForEach "A" "B" "xs" "x" (NewGraph "w"))))))).

(** The second [C] of the first branch failed; the second branch went through its own fan-in [K] and
    waits for [J].  [c]: the id of the completed [C] of the first branch. *)
Definition nested_rows (c : Z) : prows :=
  <[c := mkPRow 1 "C" 2 0 3 0 true ∅ [("docs", docs ["c"])] ∅]>
  {[1 := mkPRow 1 "A" 0 0 1 2 true ∅ [] ∅;
    2 := mkPRow 1 "B" 1 0 2 c true ∅ [] ∅;
    3 := mkPRow 1 "B" 1 1 2 6 true ∅ [] ∅;
    5 := mkPRow 1 "C" 2 1 3 0 false ∅ [] ∅;
    6 := mkPRow 1 "C" 3 0 3 8 true ∅ [] ∅;
    7 := mkPRow 1 "C" 3 1 3 8 true ∅ [] ∅;
    8 := mkPRow 1 "K" 1 1 4 0 true ∅ [("docs", docs ["k"])] ∅]}.

(** Where fan-outs nest, the final state of the failed flow is the merge of one cohort only: that of the
    completed tail that happens to have the lowest id.  The same run loses the output of the outer
    cohort or that of the inner one, depending on which row was inserted first. *)
Theorem nested_failure_keeps_one_cohort :
  computeFinalState by_key ∅ (Some nested_graph) 1 (nested_rows 4) = Ok {["docs" := docs ["c"]]} ∧
  computeFinalState by_key ∅ (Some nested_graph) 1 (nested_rows 9) = Ok {["docs" := docs ["k"]]}.
Proof. split; vm_compute; reflexivity. Qed.
