(* ===== verification/Settle.v ===== *)
(** * Settling a tree ([engine/completion.go], [engine/operations.go], [engine/wedge.go])

    Terminate reaches every live flow of a tree; the two sweeps repair what is left when a link between a
    caller and its child was lost: a parked caller whose child can no longer revive it, and a live child
    whose parent has settled.  The operations on one flow or one caller are [Tree]'s. *)

From S2P Require Import Prelude Worklist State StepRow Tree.

#[local] Open Scope Z_scope.

(** ** The recovery sweeps *)

Definition not_settled (st : status_t) : bool := bool_decide (st ∈ [StatusCreated; StatusRunning; StatusInterrupted]).

(** A parked caller, long enough so, whose child can no longer revive it. *)
Definition wedged (minAge : Z) (d : db) (id : Z) (r : row) : bool :=
  parked_caller r && bool_decide (r_updated_at r ≤ tnow d - minAge)
  && negb (existsb (λ e, bool_decide (tf_caller e.2 = id) && not_settled (tf_status e.2)) (map_to_list (flows d))).

Section sweep.
Context (final : db → Z → State) (encode : suberr → string).

(** [recoverWedgedSubgraphParks]: the hits are read once, then repaired one by one. *)
Definition wedged_steps (minAge : Z) (d : db) : list Z :=
  (filter (λ e, wedged minAge d e.1 e.2.2 = true) (map_to_list (tsteps d))).*1.
Definition recoverWedgedSubgraphParks (minAge : Z) (d : db) : db :=
  foldl (λ d id, unwedge final encode id d) d (wedged_steps minAge d).
End sweep.


(** A live child, long enough so, whose parent is terminal; [age] is its flow's [updated_at]. *)
Definition orphaned (age : Z → Z) (minAge : Z) (d : db) (id : Z) (f : tflow) : bool :=
  bool_decide (0 < tf_parent f) && not_settled (tf_status f) && bool_decide (age id ≤ tnow d - minAge)
  && match flows d !! tf_parent f with Some p => terminal (tf_status p) | None => false end.

(** [recoverOrphanedSubgraphChildren]. *)
Definition orphans (age : Z → Z) (minAge : Z) (d : db) : list Z :=
  (filter (λ e, orphaned age minAge d e.1 e.2 = true) (map_to_list (flows d))).*1.
Definition terminate_orphan (final : db → Z → State) (d : db) (id : Z) : db :=
  match terminateSubtree final id "parent flow terminated (orphan recovery)" false d with Ok d' => d' | Err _ => d end.
Definition recoverOrphanedSubgraphChildren (final : db → Z → State) (age : Z → Z) (minAge : Z) (d : db) : db :=
  foldl (terminate_orphan final) d (orphans age minAge d).

(** ** Terminate *)

(** A flow of a root's tree that has not settled. *)
Definition live_in_tree (d : db) (root id : Z) : bool :=
  match flows d !! id with Some f => bool_decide (tf_root f = root) && negb (terminal (tf_status f)) | None => false end.

Lemma terminated_set d root rf : tree_ok d → no_orphans d → flows d !! root = Some rf → tf_parent rf = 0 →
  terminal (tf_status rf) = false → ∀ id, one_of (root :: allSubgraphFlows d root) id = live_in_tree d root id.
Proof.
  intros Hok Hno Hrf Hpar Hl id. pose proof (ok_root d Hok root rf Hrf Hpar) as Hroot.
  assert (is_Some (flows d !! root)) as Hsome by eauto.
  apply Bool.eq_iff_eq_true. rewrite one_of_spec. unfold live_in_tree. split.
  - intros [->|Hx]%elem_of_cons.
    + rewrite Hrf. by rewrite bool_decide_eq_true_2, Hl.
    + destruct (collected_live d root Hok Hsome id Hx) as (f & -> & Ht & ->).
      unfold same_tree in Ht. rewrite Hrf in Ht. apply bool_decide_eq_true in Ht.
      rewrite bool_decide_eq_true_2; [done|congruence].
  - destruct (flows d !! id) as [f|] eqn:Hf; [|done]. intros [Hr%bool_decide_eq_true Hlf%negb_true_iff]%andb_true_iff.
    by apply (tree_walk_complete d root Hok Hsome id f).
Qed.

Lemma update_steps_ext p p' stmt d : (∀ id f, p id f = p' id f) → update_steps p stmt d = update_steps p' stmt d.
Proof. intros H. unfold update_steps. f_equal. apply map_imap_ext. intros id. destruct (tsteps d !! id) as [[f r]|]; [|done]. simpl. by rewrite H. Qed.

Lemma existsb_flow (h : Z → tflow → bool) d :
  existsb (λ e, h e.1 e.2) (map_to_list (flows d)) = true ↔ ∃ id f, flows d !! id = Some f ∧ h id f = true.
Proof.
  rewrite existsb_exists. split.
  - intros ([id f] & Hin%list_elem_of_In%elem_of_map_to_list & H). eauto.
  - intros (id & f & Hf & H). exists (id, f). split; [|done]. by apply list_elem_of_In, elem_of_map_to_list.
Qed.

(** C9. Terminate on a root settles its whole tree and nothing else, as long as no flow runs on under a parent that has
    stopped (the orphans a sweep ends): unless it reports the error that fits,
    every flow of the tree that was live is terminated with the reason and a final state computed after its
    steps were stopped, every other flow is as before, and no step of a flow that was live remains active. *)
Theorem terminate_settles_the_tree final root reason d : treach d → no_orphans d →
  match terminate final root reason d with
  | Ok d' =>
      let stopped := update_steps (λ _ f, live_in_tree d root f) (terminate_row (tnow d)) d in
      (∀ id, flows d' !! id = (λ f, if live_in_tree d root id
                                    then settle_flow StatusTerminated (final stopped id) (tf_error f) (TrimSpace reason) f else f)
                              <$> flows d !! id)
      ∧ (∀ id f, flows d' !! id = Some f → tf_root f = root → terminal (tf_status f) = true)
      ∧ (∀ s f r, tsteps d' !! s = Some (f, r) → live_in_tree d root f = true → terminal (r_status r) = true)
      ∧ (∀ s f r, tsteps d !! s = Some (f, r) → live_in_tree d root f = false → tsteps d' !! s = Some (f, r))
  | Err NotFound => flows d !! root = None
  | Err BadRequest => ∃ f, flows d !! root = Some f ∧ tf_parent f ≠ 0
  | Err Conflict => ∃ f, flows d !! root = Some f ∧ terminal (tf_status f) = true
  end.
Proof.
  intros Hok%treach_tree_ok Hno. unfold terminate. destruct (flows d !! root) as [rf|] eqn:Hrf; [|done].
  case_bool_decide as Hpar; cbn [negb]; [|eauto]. destruct (terminal (tf_status rf)) eqn:Hl; [eauto|].
  pose proof (terminated_set d root rf Hok Hno Hrf Hpar Hl) as Hset. unfold terminateSubtree.
  rewrite (update_steps_ext _ (λ _ f, live_in_tree d root f)) by (intros; apply Hset).
  set (stopped := update_steps _ _ d). cbn [andb].
  assert (live_in_tree d root root = true) as Hroot.
  { unfold live_in_tree. rewrite Hrf, Hl. by rewrite bool_decide_eq_true_2 by apply (ok_root d Hok root rf Hrf Hpar). }
  rewrite (proj2 (existsb_flow (λ id f, one_of (root :: allSubgraphFlows d root) id && negb (terminal (tf_status f))) stopped));
    [|exists root, rf; cbn [flows stopped update_steps]; by rewrite Hset, Hroot, Hl].
  cbn [negb]. split_and!.
  - intros id. rewrite lookup_update_flows. cbn [stopped update_steps flows]. rewrite Hset. unfold live_in_tree.
    destruct (flows d !! id) as [f|]; [|done]. cbn [fmap option_fmap option_map].
    by destruct (bool_decide (tf_root f = root)), (terminal (tf_status f)).
  - intros id f. rewrite lookup_update_flows, Hset. cbn [stopped update_steps flows]. unfold live_in_tree.
    destruct (flows d !! id) as [f'|] eqn:Hf; [|done]. cbn [fmap option_fmap option_map]. intros [= <-] Hr.
    destruct (terminal (tf_status f')) eqn:Ht; [by rewrite andb_false_r in *|].
    assert (tf_root f' = root) as Hr' by (by destruct (bool_decide (tf_root f' = root))).
    by rewrite bool_decide_eq_true_2 by done.
  - intros s f r. rewrite tsteps_update_flows. unfold stopped. rewrite lookup_update_steps.
    destruct (tsteps d !! s) as [[f' r']|]; [|done]. intros [= <- <-] Hlive. rewrite Hlive. apply terminal_settled.
  - intros s f r Hr Hlive. rewrite tsteps_update_flows. unfold stopped. rewrite lookup_update_steps, Hr. cbn. by rewrite Hlive.
Qed.

(** ** The orphan sweep *)

Section orphan_sweep.
Context (final : db → Z → State).

(** One orphan: its flow and every flow it reaches is terminated, with the steps. *)
Lemma terminate_orphan_lookup d id x f : flows d !! x = Some f →
  flows (terminate_orphan final d id) !! x = Some f ∨
  ∃ f', flows (terminate_orphan final d id) !! x = Some f' ∧ tf_status f' = StatusTerminated
    ∧ x ∈ id :: allSubgraphFlows d id ∧ terminal (tf_status f) = false.
Proof using Type.
  intros Hf. unfold terminate_orphan, terminateSubtree. cbn [andb]. rewrite lookup_update_flows. cbn [update_steps flows].
  rewrite Hf. cbn [fmap option_fmap option_map]. destruct (one_of _ x && _) eqn:Hc; [|by left].
  apply andb_true_iff in Hc as [Hin%one_of_spec Hl%negb_true_iff]. right. eexists. by split_and!.
Qed.
Lemma terminate_orphan_in d id x f : flows d !! x = Some f → x ∈ id :: allSubgraphFlows d id →
  ∃ f', flows (terminate_orphan final d id) !! x = Some f' ∧ terminal (tf_status f') = true.
Proof using Type.
  intros Hf Hin. unfold terminate_orphan, terminateSubtree. cbn [andb]. rewrite lookup_update_flows. cbn [update_steps flows].
  rewrite Hf. cbn [fmap option_fmap option_map]. rewrite (proj2 (one_of_spec _ _) Hin). cbn [andb].
  destruct (terminal (tf_status f)) eqn:Ht; by eexists.
Qed.

Lemma evolves_terminate_orphan d id : evolves d (terminate_orphan final d id).
Proof using Type.
  unfold terminate_orphan. destruct (terminateSubtree _ _ _ _ _) eqn:H; [|done]. by eapply evolves_terminateSubtree.
Qed.

Lemma evolves_back d d' x f' : evolves d d' → flows d' !! x = Some f' →
  ∃ f, flows d !! x = Some f ∧ tf_parent f' = tf_parent f ∧ settles (tf_status f) (tf_status f').
Proof using Type.
  intros [Hf _] Hx. specialize (Hf x). rewrite Hx in Hf. destruct (flows d !! x) as [f|]; [|done].
  destruct Hf as (? & _ & _ & ?). eauto.
Qed.
Lemma evolves_forth d d' x f : evolves d d' → flows d !! x = Some f →
  ∃ f', flows d' !! x = Some f' ∧ tf_parent f' = tf_parent f ∧ settles (tf_status f) (tf_status f').
Proof using Type.
  intros [Hf _] Hx. specialize (Hf x). rewrite Hx in Hf. destruct (flows d' !! x) as [f'|]; [|done].
  destruct Hf as (? & _ & _ & ?). eauto.
Qed.

Lemma settles_live st st' : settles st st' → terminal st' = false → terminal st = false.
Proof using Type. intros [H _] Ht. destruct (terminal st); [|done]. by rewrite H in Ht. Qed.

(** No flow becomes an orphan, and a flow still live is as it was. *)
Definition orphans_nobody (d d' : db) : Prop :=
  evolves d d' ∧ tnow d' = tnow d
  ∧ (∀ x f', flows d' !! x = Some f' → terminal (tf_status f') = false → flows d !! x = Some f')
  ∧ (∀ x f' p p', flows d' !! x = Some f' → terminal (tf_status f') = false →
       flows d' !! tf_parent f' = Some p' → terminal (tf_status p') = true →
       flows d !! tf_parent f' = Some p → terminal (tf_status p) = true).

Lemma orphans_nobody_trans d1 d2 d3 : orphans_nobody d1 d2 → orphans_nobody d2 d3 → orphans_nobody d1 d3.
Proof using Type.
  intros (He & Hn & Hl & Ho) (He' & Hn' & Hl' & Ho'). split_and!; [by etrans|congruence| |].
  - intros x f Hx Ht. apply Hl; [|done]. by apply Hl'.
  - intros x f p p3 Hx Ht Hp3 Ht3 Hp. pose proof (Hl' x f Hx Ht) as Hx2.
    destruct (evolves_back d2 d3 _ p3 He' Hp3) as (p2 & Hp2 & _).
    apply (Ho x f p p2 Hx2 Ht Hp2); [|done]. by apply (Ho' x f p2 p3).
Qed.

Lemma terminate_orphan_orphans_nobody d id : tree_ok d → is_Some (flows d !! id) →
  orphans_nobody d (terminate_orphan final d id).
Proof using Type.
  intros Hok Hid. pose proof (evolves_terminate_orphan d id) as He. split_and!; [done|done| |].
  - intros x f' Hx Ht. destruct (evolves_back d _ x f' He Hx) as (f & Hf & _).
    destruct (terminate_orphan_lookup d id x f Hf) as [H|(g & H & Hs & _)]; [congruence|].
    rewrite Hx in H. injection H as <-. by rewrite Hs in Ht.
  - intros x f' p p' Hx Ht Hp' Htp' Hp.
    destruct (terminal (tf_status p)) eqn:Htp; [done|]. exfalso.
    destruct (terminate_orphan_lookup d id _ p Hp) as [H|(g & _ & _ & Hin & _)]; [congruence|].
    destruct (evolves_back d _ x f' He Hx) as (f & Hf & Hpar & Hset).
    assert (terminal (tf_status f) = false) as Hlf by by eapply settles_live.
    pose proof (walk_closed d id Hok Hid (tf_parent f') x f Hin Hf (eq_sym Hpar) Hlf) as Hc.
    destruct (terminate_orphan_in d id x f Hf ltac:(by right)) as (g2 & Hg2 & Htg). congruence.
Qed.

Lemma sweep_fold l d : tree_ok d → Forall (λ id, is_Some (flows d !! id)) l →
  orphans_nobody d (foldl (terminate_orphan final) d l)
  ∧ ∀ id f, id ∈ l → flows (foldl (terminate_orphan final) d l) !! id = Some f → terminal (tf_status f) = true.
Proof using Type.
  revert d. induction l as [|id l IH]; intros d Hok Hall; simpl.
  - split; [|intros ? ? H; by apply not_elem_of_nil in H]. split_and!; [done|done|by intros|]. intros x f p p1 _ _ Hp1 Ht1 Hp. congruence.
  - apply Forall_cons in Hall as [Hid Hall]. pose proof (terminate_orphan_orphans_nobody d id Hok Hid) as H1.
    destruct H1 as (He & H1). destruct (IH (terminate_orphan final d id)) as [H2 H3].
    + by eapply evolves_tree_ok.
    + eapply Forall_impl; [exact Hall|]. simpl. intros x [f Hf].
      destruct (evolves_forth _ _ x f He Hf) as (f' & Hf' & _). by exists f'.
    + split; [by eapply orphans_nobody_trans; [split; eauto|]|]. intros x f [->|Hx]%elem_of_cons; [|by apply H3].
      intros Hf. destruct H2 as (He2 & _). destruct Hid as [g Hg].
      destruct (terminate_orphan_in d id id g Hg ltac:(left)) as (g' & Hg' & Ht).
      destruct (evolves_forth _ _ id g' He2 Hg') as (f' & Hf' & _ & [Hs _]). rewrite Hf in Hf'. injection Hf' as <-. auto.
Qed.
End orphan_sweep.

Lemma orphans_spec age minAge d id : id ∈ orphans age minAge d ↔ ∃ f, flows d !! id = Some f ∧ orphaned age minAge d id f = true.
Proof.
  unfold orphans. rewrite list_elem_of_fmap. split.
  - intros ([i f] & -> & [Hc Hin%elem_of_map_to_list]%list_elem_of_filter). eauto.
  - intros (f & Hf & Hc). exists (id, f). rewrite list_elem_of_filter. by rewrite elem_of_map_to_list.
Qed.

(** The orphan sweep leaves no orphan of its age: afterwards no flow past the age limit is live under a
    terminal parent, although every termination makes new parents terminal; a flow that was an orphan is
    terminal, and a flow that is still live was not touched. *)
Theorem orphan_sweep_leaves_none final age minAge d : treach d →
  let d' := recoverOrphanedSubgraphChildren final age minAge d in
  (∀ id f, flows d' !! id = Some f → orphaned age minAge d' id f = false)
  ∧ (∀ id f, flows d !! id = Some f → orphaned age minAge d id f = true →
       ∃ f', flows d' !! id = Some f' ∧ terminal (tf_status f') = true)
  ∧ (∀ id f, flows d' !! id = Some f → terminal (tf_status f) = false → flows d !! id = Some f).
Proof.
  intros Hok%treach_tree_ok d'.
  destruct (sweep_fold final (orphans age minAge d) d Hok) as ((He & Hnow & Hsame & Hno) & Hdone).
  { apply Forall_forall. intros id (f & Hf & _)%orphans_spec. by exists f. }
  fold (recoverOrphanedSubgraphChildren final age minAge d) in He, Hnow, Hsame, Hno, Hdone.
  fold d' in He, Hnow, Hsame, Hno, Hdone. split_and!; [|intros id f Hf Ho|done].
  - intros id f Hf. destruct (orphaned age minAge d' id f) eqn:Ho; [|done]. exfalso.
    unfold orphaned in Ho. rewrite !andb_true_iff in Ho. destruct Ho as (((Hpos & Hns) & Hage) & Hpar).
    assert (terminal (tf_status f) = false) as Hl by (by destruct (tf_status f)).
    destruct (flows d' !! tf_parent f) as [p'|] eqn:Hp'; [|done].
    destruct (evolves_back d d' _ p' He Hp') as (p & Hp & _).
    rewrite (Hdone id f) in Hl; [done| |done]. apply orphans_spec. exists f. split; [by apply Hsame|].
    unfold orphaned. rewrite Hpos, Hns, Hp, (Hno id f p p' Hf Hl Hp' Hpar Hp). rewrite Hnow in Hage. by rewrite Hage.
  - destruct (evolves_forth d d' id f He Hf) as (f' & Hf' & _). exists f'. split; [done|].
    apply (Hdone id f'); [|done]. apply orphans_spec. eauto.
Qed.

(** ** The sweep over wedged callers *)

Lemma latest_child_spec d s c f : latest_child d s = Some (c, f) → flows d !! c = Some f ∧ tf_caller f = s.
Proof.
  unfold latest_child. intros H.
  assert ((c, f) ∈ map_to_list (flows d) ∧ tf_caller f = s) as [Hin ?]; [|by apply elem_of_map_to_list in Hin].
  revert H. induction (map_to_list (flows d)) as [|[i g] l IH]; cbn [foldr]; [done|].
  case_bool_decide as Hc; cbn [snd] in Hc; [|intros H; destruct (IH H); split; [by right|done]].
  destruct (foldr _ _ l) as [b|]; [|intros [= <- <-]; by split; [left|]].
  case_bool_decide; [intros [= <- <-]; by split; [left|]|]. intros [= ->]. destruct (IH eq_refl). by split; [right|].
Qed.

Section wedge_sweep.
Context (final : db → Z → State) (encode : suberr → string).

(** What a caller is revived with. *)
Definition revive (d : db) (s : Z) (r : row) : option row :=
  match outcome (latest_child d s) with
  | inl res => revive_result (tnow d) res r
  | inr err => revive_error (tnow d) (encode err) r
  end.

Lemma revive_same d d0 s r : flows d0 = flows d → tnow d0 = tnow d → revive d0 s r = revive d s r.
Proof using Type. intros Hf Hn. unfold revive, latest_child. by rewrite Hf, Hn. Qed.

Lemma update_flows_none p g d : (∀ id f, flows d !! id = Some f → p id f = false) → update_flows p g d = d.
Proof using Type.
  intros H. unfold update_flows. destruct d as [n fl st]; cbn [flows tnow tsteps] in *. f_equal. apply map_eq. intros id.
  rewrite map_lookup_imap. destruct (fl !! id) as [f|] eqn:Hf; cbn; [|done]. by rewrite (H id f Hf).
Qed.

(** A wedged caller's children have all settled, so the repair writes its row alone. *)
Lemma unwedge_writes_caller d s : s ≠ 0 →
  (∀ id f, flows d !! id = Some f → tf_caller f = s → terminal (tf_status f) = true) →
  unwedge final encode s d = update_steps (λ id _, bool_decide (id = s)) (revive d s) d.
Proof using Type.
  intros Hs Hset. unfold unwedge, revive, completeSurgraphFlow, deliverSubgraphError, deliverFlowFailureToParent.
  destruct (outcome (latest_child d s)) as [res|err]; [done|]. rewrite (bool_decide_eq_false_2 (s = 0)) by done.
  case_bool_decide as Hc; [done|]. rewrite update_flows_none; [done|]. intros id f Hf.
  case_bool_decide as Hid; [|done]. destruct (latest_child d s) as [[c g]|] eqn:Hl; [|done]. cbn in Hid. subst c.
  apply latest_child_spec in Hl as [Hg Hcal]. rewrite Hf in Hg. injection Hg as ->. by rewrite (Hset id g).
Qed.

Lemma wedged_fold l d d0 : flows d0 = flows d → tnow d0 = tnow d → NoDup l → Forall (λ s, s ≠ 0) l →
  (∀ s id f, s ∈ l → flows d !! id = Some f → tf_caller f = s → terminal (tf_status f) = true) →
  let d' := foldl (λ d id, unwedge final encode id d) d0 l in
  flows d' = flows d ∧ tnow d' = tnow d
  ∧ ∀ id, tsteps d' !! id = (λ '(f, r), (f, if one_of l id then default r (revive d id r) else r)) <$> tsteps d0 !! id.
Proof using Type.
  revert d0. induction l as [|s l IH]; intros d0 Hf Hn Hnd Hnz Hset; cbn [foldl].
  - split_and!; try done. intros id. by destruct (tsteps d0 !! id) as [[f r]|].
  - apply NoDup_cons in Hnd as [Hs Hnd]. apply Forall_cons in Hnz as [Hz Hnz].
    assert (∀ id f, flows d0 !! id = Some f → tf_caller f = s → terminal (tf_status f) = true) as Hset0.
    { rewrite Hf. intros id f. apply Hset. by left. }
    pose proof (unwedge_writes_caller d0 s Hz Hset0) as Heq.
    destruct (IH (unwedge final encode s d0)) as (H1 & H2 & H3); try done.
    + by rewrite Heq; cbn; destruct d0; cbn in *; subst; apply map_eq; intros; cbn.
    + by rewrite Heq.
    + intros s' id f Hin. apply Hset. by right.
    + split_and!; [done|done|]. intros id. rewrite H3, Heq, lookup_update_steps.
      destruct (tsteps d0 !! id) as [[f r]|]; [|done]. cbn [fmap option_fmap option_map]. rewrite (revive_same d d0) by done.
      unfold one_of. destruct (decide (id = s)) as [->|Hne].
      * by rewrite (bool_decide_eq_false_2 (s ∈ l)), !bool_decide_eq_true_2 by set_solver.
      * rewrite (bool_decide_eq_false_2 (id = s)) by done.
        by rewrite (bool_decide_ext (id ∈ s :: l) (id ∈ l)) by set_solver.
Qed.

Lemma wedged_steps_spec minAge d s : s ∈ wedged_steps minAge d ↔ ∃ f r, tsteps d !! s = Some (f, r) ∧ wedged minAge d s r = true.
Proof using Type.
  unfold wedged_steps. rewrite list_elem_of_fmap. split.
  - intros ([i [f r]] & -> & [Hc Hin%elem_of_map_to_list]%list_elem_of_filter). eauto.
  - intros (f & r & Hf & Hc). exists (s, (f, r)). rewrite list_elem_of_filter. by rewrite elem_of_map_to_list.
Qed.

Lemma wedged_children minAge d s r : tree_ok d → wedged minAge d s r = true →
  ∀ id f, flows d !! id = Some f → tf_caller f = s → terminal (tf_status f) = true.
Proof using Type.
  intros Hok [_ H%negb_true_iff]%andb_true_iff id f Hf Hc. pose proof (ok_status d Hok id f Hf) as Hn.
  destruct (terminal (tf_status f)) eqn:Ht; [done|]. exfalso. apply not_true_iff_false in H. apply H.
  apply existsb_exists. exists (id, f). split; [by apply list_elem_of_In, elem_of_map_to_list|].
  cbn [snd]. rewrite bool_decide_eq_true_2 by done. by destruct (tf_status f).
Qed.
End wedge_sweep.

(** What a caller is told of a child that did not complete. *)
Definition child_error (c : tflow) : suberr :=
  if bool_decide (tf_status c = StatusCancelled)
  then mkErr (if bool_decide (TrimSpace (tf_reason c) = "") then "flow cancelled" else "flow cancelled: " +:+ TrimSpace (tf_reason c)) true
  else mkErr (if bool_decide (TrimSpace (tf_error c) = "") then "subgraph " +:+ status_name (tf_status c) else TrimSpace (tf_error c)) false.
Lemma outcome_error id c : tf_status c ≠ StatusCompleted → outcome (Some (id, c)) = inr (child_error c).
Proof.
  intros Hc. unfold outcome, child_error, cancelmarker_New. destruct (tf_status c); try done;
    repeat case_bool_decide; first [done|reflexivity].
Qed.

(** C16. The wedge sweep revives every caller whose child can no longer do so, and touches nothing else: the
    caller, parked for at least [minAge], is pending with the outcome of its newest child - the final state of one that
    completed, the cancellation with the reason of one that was cancelled, the error text of one that failed or was
    terminated or its status where there is none, or that there is no child - and that error is never empty; no flow
    changes, no other step changes, and no caller is left wedged. *)
Theorem wedge_sweep_revives final encode minAge d : treach d → (∀ e, encode e ≠ "") →
  let d' := recoverWedgedSubgraphParks final encode minAge d in
  flows d' = flows d
  ∧ (∀ s f r, tsteps d !! s = Some (f, r) →
       if wedged minAge d s r then
         ∃ r', tsteps d' !! s = Some (f, r') ∧ r_status r' = StatusPending ∧ r_parked r' = parkedNone
           ∧ r_lease_expires r' = tnow d ∧ r_subgraph_done r' = true
           ∧ match latest_child d s with
             | Some (_, c) =>
                 if bool_decide (tf_status c = StatusCompleted) then r_subgraph_result r' = tf_final c ∧ r_subgraph_error r' = r_subgraph_error r
                 else r_subgraph_error r' = encode (child_error c) ∧ encode (child_error c) ≠ "" ∧ r_subgraph_result r' = r_subgraph_result r
             | None => r_subgraph_error r' = encode (mkErr "subgraph flow not found (wedge recovery)" false) ∧ r_subgraph_error r' ≠ ""
             end
       else tsteps d' !! s = Some (f, r))
  ∧ (∀ s f r, tsteps d' !! s = Some (f, r) → wedged minAge d' s r = false).
Proof.
  intros Hok%treach_tree_ok Henc d'.
  destruct (wedged_fold final encode (wedged_steps minAge d) d d) as (Hf & Hn & Hs); try done.
  { eapply sublist_NoDup; [apply (NoDup_fst_map_to_list (tsteps d))|]. apply fmap_sublist, sublist_filter. }
  { apply Forall_forall. intros s (f & r & Hr & _)%wedged_steps_spec. by destruct (ok_step d Hok s f r Hr). }
  { intros s id f (f' & r & Hr & Hw)%wedged_steps_spec. by eapply wedged_children. }
  fold (recoverWedgedSubgraphParks final encode minAge d) in Hf, Hn, Hs. fold d' in Hf, Hn, Hs.
  assert (∀ s f r, tsteps d !! s = Some (f, r) → one_of (wedged_steps minAge d) s = wedged minAge d s r) as Hone.
  { intros s f r Hr. apply Bool.eq_iff_eq_true. rewrite one_of_spec, wedged_steps_spec. split; [|eauto].
    intros (f' & r' & Hr' & Hw). by simplify_eq. }
  assert (∀ s r, wedged minAge d s r = true → parked_caller r = true) as Hpk.
  { intros s r [[Hp _]%andb_true_iff _]%andb_true_iff. done. }
  split_and!; [done| |].
  - intros s f r Hr. rewrite Hs, Hr. cbn [fmap option_fmap option_map]. rewrite (Hone s f r Hr).
    destruct (wedged minAge d s r) eqn:Hw; [|done]. unfold revive, revive_result, revive_error, update_where.
    rewrite (Hpk s r Hw). destruct (latest_child d s) as [[c g]|]; [|eexists; split; [done|]; cbn; by auto].
    destruct (decide (tf_status g = StatusCompleted)) as [Hst|Hst].
    + rewrite (bool_decide_eq_true_2 _ Hst). unfold outcome. rewrite Hst. by eexists; split; [done|].
    + rewrite (bool_decide_eq_false_2 _ Hst), (outcome_error c g Hst). eexists; split; [done|]; cbn; by auto.
  - intros s f r. rewrite Hs. destruct (tsteps d !! s) as [[f0 r0]|] eqn:Hr; [|done]. cbn [fmap option_fmap option_map].
    rewrite (Hone s f0 r0 Hr). intros [= <- <-]. destruct (wedged minAge d s r0) eqn:Hw.
    + unfold revive, revive_result, revive_error, update_where, wedged. rewrite (Hpk s r0 Hw).
      by destruct (outcome (latest_child d s)).
    + unfold wedged in *. by rewrite Hn, Hf.
Qed.

Lemma terminate_settles_the_tree_witness :
  match terminate (λ _ _, ∅) 1 "stop" sample_tree with
  | Ok d' => ∀ id f, flows d' !! id = Some f → tf_root f = 1 → terminal (tf_status f) = true
  | Err _ => False
  end.
Proof.
  pose proof (terminate_settles_the_tree (λ _ _, ∅) 1 "stop" sample_tree sample_tree_reached) as H.
  destruct (terminate (λ _ _, ∅) 1 "stop" sample_tree) as [d'|e] eqn:Ht; [|by vm_compute in Ht].
  apply H. apply (bool_decide_unpack _). by vm_compute.
Defined.

(** A child whose parent was terminated without it, and a caller whose child's completion was lost. *)
Definition settled_at (x : Z) (st : status_t) (d : db) : db :=
  update_flows (λ id f, bool_decide (id = x) && bool_decide (tf_status f = StatusRunning)) (λ _, settle_flow st ∅ "" "") d.
Lemma treach_settled_at x st d : treach d → terminal st = true → treach (settled_at x st d).
Proof.
  intros Hd Hst. eapply treach_step; [exact Hd|].
  unfold settled_at. replace (update_flows _ _ d) with
    (update_flows (λ _ _, true) (λ id f, if bool_decide (id = x) && bool_decide (tf_status f = StatusRunning)
                                         then settle_flow st ∅ "" "" f else f) d) by done.
  apply t_settle; intros id f; [by case_match|]. case_match; [|by split]. split; [done|]. by destruct st.
Qed.

Lemma orphan_sweep_leaves_none_witness :
  let d' := recoverOrphanedSubgraphChildren (λ _ _, ∅) (λ _, 0) 0 (settled_at 1 StatusTerminated sample_tree) in
  map_Forall (λ id f, orphaned (λ _, 0) 0 d' id f = false) (flows d').
Proof.
  refine (proj1 (orphan_sweep_leaves_none (λ _ _, ∅) (λ _, 0) 0 (settled_at 1 StatusTerminated sample_tree) _)).
  apply treach_settled_at; [apply sample_tree_reached|done].
Defined.

Lemma wedge_sweep_revives_witness : let d := settled_at 3 StatusCompleted sample_tree in
  let d' := recoverWedgedSubgraphParks (λ _ _, ∅) (λ _, "{}") 0 d in
  flows d' = flows d ∧ ∀ s f r, tsteps d' !! s = Some (f, r) → wedged 0 d' s r = false.
Proof.
  destruct (wedge_sweep_revives (λ _ _, ∅) (λ _, "{}") 0 (settled_at 3 StatusCompleted sample_tree)) as (H1 & _ & H2).
  - apply treach_settled_at; [apply sample_tree_reached|done].
  - done.
  - by split.
Defined.
