(* ===== verification/Resume.v ===== *)
(** * Interrupt and Resume ([engine/execution.go], [engine/completion.go])

    [handleInterrupt] stops a flow and everything above it, [resume] starts it again from the root.  This file
    shows that the two are inverse on a chain of callers of any depth, and what becomes of a second interrupt
    in the same child.  The operations are [Tree]'s. *)

From S2P Require Import Prelude Worklist State StepRow Tree Settle.

#[local] Open Scope Z_scope.

(** ** An interrupt and its Resume *)

Definition at_time (now : Z) (d : db) : db := mkDb now (flows d) (tsteps d).

(** The rows an interrupt leaves on its own step and on its callers. *)
Definition interrupted_row (now : Z) (leaf : option State) (payload : State) (r : row) : row :=
  payload_row payload (default r (interrupt_row now leaf r)).

Section interrupt.
Context (d : db) (s f : Z) (r : row) (fs ss : list Z) (root now : Z) (changes payload : State).
Context (Hok : tree_ok d) (Hr : tsteps d !! s = Some (f, r)) (Hrun : r_status r = StatusRunning).
Context (Hchain : chain d f fs ss) (Htop : last (f :: fs) = Some root).
(** The chain runs, its callers are parked, and nothing else of the tree is interrupted. *)
Context (Hflows : ∀ x g, x ∈ f :: fs → flows d !! x = Some g → tf_status g = StatusRunning).
Context (Hcallers : ∀ c p q, c ∈ ss → tsteps d !! c = Some (p, q) → parked_caller q = true).
Context (Hcalm_steps : ∀ c p q, tsteps d !! c = Some (p, q) → p ∈ f :: fs → r_status q ≠ StatusInterrupted).
Context (Hcalm_flows : ∀ x g, flows d !! x = Some g → tf_root g = root → tf_status g ≠ StatusInterrupted).

(** The state the interrupt commits, read at a later time. *)
Context (d1 : db).
Context (Hd1 : tnow d1 = now).
Context (Hf1 : ∀ x, flows d1 !! x = (λ g, if one_of (f :: fs) x then set_tstatus StatusInterrupted g else g) <$> flows d !! x).
Context (Hs1 : ∀ c, tsteps d1 !! c = (λ '(p, q), (p, if bool_decide (c = s) then interrupted_row (tnow d) (Some changes) payload q
                                                     else if one_of ss c then interrupted_row (tnow d) None payload q else q)) <$> tsteps d !! c).

Lemma leaf_not_caller : s ∉ ss.
Proof using Hok Hr Hchain.
  intros Hin. destruct (chain_caller d Hok f fs ss s Hchain Hin) as (x & g & q & _ & _ & _ & _ & Hp & Hq).
  rewrite Hr in Hq. injection Hq as Hfp _. pose proof (chain_older d Hok f fs ss _ Hchain Hp). lia.
Qed.

Lemma interrupted_row_status leaf q : in_status [StatusRunning; StatusInterrupted] q = true →
  r_status (interrupted_row (tnow d) leaf payload q) = StatusInterrupted.
Proof using Type.
  intros Hq. unfold interrupted_row, interrupt_row, update_where, payload_row. rewrite Hq. cbn [default from_option id].
  destruct leaf; by case_match.
Qed.

Lemma steps_interrupted c p q : tsteps d1 !! c = Some (p, q) → p ∈ f :: fs →
  r_status q = StatusInterrupted ↔ c = s ∨ c ∈ ss.
Proof using Hr Hrun Hcallers Hcalm_steps Hs1.
  rewrite Hs1. destruct (tsteps d !! c) as [[p0 q0]|] eqn:Hc; [|done]. cbn [fmap option_fmap option_map].
  intros [= <- <-] Hp. split.
  - case_bool_decide as Hcs; [by left|]. destruct (one_of ss c) eqn:Ho; [right; by apply one_of_spec|].
    intros Hi. by destruct (Hcalm_steps c p0 q0 Hc Hp).
  - intros Hor. case_bool_decide as Hcs.
    + subst. rewrite Hr in Hc. injection Hc as <- <-. apply interrupted_row_status. unfold in_status. by rewrite Hrun.
    + destruct Hor as [?|Hin]; [done|]. rewrite (proj2 (one_of_spec ss c) Hin). apply interrupted_row_status.
      pose proof (Hcallers c p0 q0 Hin Hc) as Hp'. apply andb_true_iff in Hp' as [Hst _].
      apply bool_decide_eq_true in Hst. apply list_elem_of_singleton in Hst. unfold in_status. by rewrite Hst.
Qed.

Lemma interrupted_steps_spec x c e : (c, e) ∈ interrupted_steps d1 x ↔ tsteps d1 !! c = Some e ∧ e.1 = x ∧ r_status e.2 = StatusInterrupted.
Proof using Type. unfold interrupted_steps. rewrite list_elem_of_filter, elem_of_map_to_list. naive_solver. Qed.

Lemma leaf_unique x c : x ∈ f :: fs → (∃ q, tsteps d1 !! c = Some (x, q)) → c = s ∨ c ∈ ss →
  (∀ c', c' = s ∨ c' ∈ ss → (∃ q, tsteps d1 !! c' = Some (x, q)) → c' = c) → interrupted_leaf d1 x = Some c.
Proof using Hr Hrun Hcallers Hcalm_steps Hs1.
  intros Hx [q Hq] Hc Huniq. unfold interrupted_leaf. rewrite (pick_earliest_unique _ (c, (x, q))); [done| |].
  - apply interrupted_steps_spec. split_and!; [done|done|]. by eapply steps_interrupted.
  - intros [c' [p' q']] (Hq' & Hp' & Hst)%interrupted_steps_spec. cbn in Hp', Hst. subst p'.
    assert (c' = c) as ->; [|congruence]. apply Huniq; [by eapply steps_interrupted|eauto].
Qed.

Lemma d1_flow_of c : fst <$> tsteps d1 !! c = fst <$> tsteps d !! c.
Proof using Hs1. rewrite Hs1. by destruct (tsteps d !! c) as [[p q]|]. Qed.
Lemma d1_step_flow c p q : tsteps d1 !! c = Some (p, q) → ∃ q', tsteps d !! c = Some (p, q').
Proof using Hs1.
  intros Hc. pose proof (d1_flow_of c) as H. rewrite Hc in H. destruct (tsteps d !! c) as [[p' q']|]; [|done]. cbn in H. simplify_eq. eauto.
Qed.

Lemma leaf_of_caller x g : x ∈ f :: fs → flows d !! x = Some g → tf_parent g ≠ 0 →
  interrupted_leaf d1 (tf_parent g) = Some (tf_caller g).
Proof using Hok Hr Hrun Hchain Hcallers Hcalm_steps Hs1.
  intros Hx Hg H0. destruct (chain_parent_below d f fs ss x g Hchain Hx Hg H0) as [Hp Hc].
  destruct (ok_caller d Hok x g Hg H0) as (_ & q & Hq).
  apply leaf_unique; [by right| |by right|].
  - pose proof (d1_flow_of (tf_caller g)) as H. rewrite Hq in H. destruct (tsteps d1 !! tf_caller g) as [[p' q']|]; [|done].
    cbn in H. simplify_eq. eauto.
  - intros c' Hor [q1 Hq1]. destruct (d1_step_flow _ _ _ Hq1) as [q2 Hq2].
    destruct Hor as [->|Hin].
    + rewrite Hr in Hq2. injection Hq2 as Hfp _. pose proof (chain_older d Hok f fs ss _ Hchain Hp). lia.
    + destruct (chain_caller d Hok f fs ss c' Hchain Hin) as (y & h & q3 & Hy & Hh & Hch & Hh0 & _ & Hq3).
      rewrite Hq2 in Hq3. injection Hq3 as Hpar _.
      assert (x = y) as <- by (eapply (chain_one_child d Hok f fs ss x y g h); eauto). congruence.
Qed.

Lemma leaf_of_leaf : interrupted_leaf d1 f = Some s.
Proof using Hok Hr Hrun Hchain Hcallers Hcalm_steps Hs1.
  apply leaf_unique; [by left| |by left|].
  - pose proof (d1_flow_of s) as H. rewrite Hr in H. destruct (tsteps d1 !! s) as [[p' q']|]; [|done].
    cbn in H. simplify_eq. eauto.
  - intros c' [->|Hin] [q1 Hq1]; [done|]. destruct (d1_step_flow _ _ _ Hq1) as [q2 Hq2].
    destruct (chain_caller d Hok f fs ss c' Hchain Hin) as (y & h & q3 & Hy & Hh & Hch & Hh0 & Hp & Hq3).
    rewrite Hq2 in Hq3. injection Hq3 as Hpar _. pose proof (chain_older d Hok f fs ss _ Hchain Hp). lia.
Qed.

Lemma root_flow : ∃ g, flows d !! root = Some g ∧ tf_parent g = 0 ∧ tf_root g = root ∧ root ∈ f :: fs.
Proof using Hok Hchain Htop.
  destruct (chain_top d f fs ss Hchain) as (top & g & Hl & Hg & Hp). rewrite Htop in Hl. injection Hl as <-.
  exists g. split_and!; [done|done|by apply (ok_root d Hok root g)|by apply last_Some_elem_of].
Qed.

(** The interrupted flows of the tree are those of the chain. *)
Lemma tree_interrupted x g1 : (x, g1) ∈ tree_rows d1 root → tf_status g1 = StatusInterrupted →
  ∃ g, flows d !! x = Some g ∧ x ∈ f :: fs ∧ tf_caller g1 = tf_caller g.
Proof using Hok Hchain Htop Hcalm_flows Hf1.
  unfold tree_rows. rewrite list_elem_of_filter, elem_of_map_to_list. cbn [fst snd]. unfold same_tree. rewrite !Hf1.
  destruct root_flow as (h & Hh & _ & Hhr & Hin). rewrite Hh. cbn [fmap option_fmap option_map].
  intros [Hroot Hx] Hst. destruct (flows d !! x) as [g|] eqn:Hg; [|done]. cbn in Hx. injection Hx as <-.
  exists g. split; [done|]. destruct (one_of (f :: fs) x) eqn:Ho; [by apply one_of_spec in Ho|].
  exfalso. apply (Hcalm_flows x g Hg); [|done]. apply bool_decide_eq_true in Hroot. rewrite Hroot. by case_match.
Qed.

Lemma child_of_caller x g : x ∈ f :: fs → flows d !! x = Some g → tf_parent g ≠ 0 → child_of d1 root (tf_caller g) = Some x.
Proof using Hok Hchain Htop Hcalm_flows Hf1.
  intros Hx Hg H0. unfold child_of. destruct (ok_caller d Hok x g Hg H0) as (Hc0 & q & Hq).
  apply last_unique.
  - apply list_elem_of_fmap. exists (x, set_tstatus StatusInterrupted g). split; [done|].
    rewrite list_elem_of_filter. split; [done|]. unfold tree_rows. rewrite list_elem_of_filter, elem_of_map_to_list.
    cbn [fst snd]. unfold same_tree. rewrite !Hf1. destruct root_flow as (h & Hh & _ & Hhr & Hin). rewrite Hh, Hg.
    cbn [fmap option_fmap option_map]. rewrite (proj2 (one_of_spec _ _) Hx). split; [|done].
    apply bool_decide_eq_true. cbn. rewrite (chain_family d Hok f fs ss root x g Hchain Htop Hx Hg). by case_match.
  - intros y ([y' g1] & -> & [(Hcal & _ & Hst) Hin]%list_elem_of_filter)%list_elem_of_fmap. cbn [fst snd] in *.
    destruct (tree_interrupted y' g1 Hin Hst) as (g' & Hg' & Hy & Hcal'). rewrite Hcal in Hcal'.
    assert (tf_parent g' ≠ 0) as H0' by (intros H0'; rewrite (ok_root_caller d Hok y' g' Hg' H0') in Hcal'; congruence).
    destruct (ok_caller d Hok y' g' Hg' H0') as (_ & q' & Hq'). rewrite <-Hcal', Hq in Hq'. injection Hq' as Hpar _.
    symmetry. by eapply (chain_one_child d Hok f fs ss x y' g g').
Qed.

Lemma child_of_leaf : child_of d1 root s = None.
Proof using Hok Hr Hchain Htop Hcalm_flows Hf1.
  unfold child_of. apply last_None. destruct (filter _ _) as [|[y g1] l] eqn:Hl; [done|]. exfalso.
  assert ((y, g1) ∈ filter (λ e : Z * tflow, tf_caller e.2 = s ∧ tf_caller e.2 ≠ 0 ∧ tf_status e.2 = StatusInterrupted) (tree_rows d1 root))
    as [(Hcal & Hnz & Hst) Hin]%list_elem_of_filter by (rewrite Hl; left). cbn [snd] in *.
  destruct (tree_interrupted y g1 Hin Hst) as (g & Hg & Hy & Hcal'). rewrite Hcal in Hcal'.
  assert (tf_parent g ≠ 0) as H0 by (intros H0; rewrite (ok_root_caller d Hok y g Hg H0) in Hcal'; congruence).
  destruct (ok_caller d Hok y g Hg H0) as (_ & q & Hq). rewrite <-Hcal', Hr in Hq. injection Hq as Hfp _.
  destruct (chain_parent_below d f fs ss y g Hchain Hy Hg H0) as [Hp _]. pose proof (chain_older d Hok f fs ss _ Hchain Hp). lia.
Qed.

(** The descent undoes the climb. *)
Lemma chain_down_climb cur cfs css n dfs dss : chain d cur cfs css → (∀ x, x ∈ cur :: cfs → x ∈ f :: fs) →
  chain_down d1 root n cur = Some (dfs, dss) → ∀ top, last (cur :: cfs) = Some top →
  chain_down d1 root (length cfs + n) top = Some (tail (rev (cur :: cfs)) ++ dfs, rev css ++ dss).
Proof using Hok Hr Hrun Hchain Htop Hcallers Hcalm_steps Hcalm_flows Hf1 Hs1.
  intros Hc. revert n dfs dss. induction Hc as [cur h Hh Hp|cur h cfs css Hh H0 Hc IH]; intros n dfs dss Hin Hdown top Hlast.
  - injection Hlast as <-. done.
  - assert (cur ∈ f :: fs) as Hcur by (apply Hin; left).
    replace (length (tf_parent h :: cfs) + n)%nat with (length cfs + S n)%nat by (cbn; lia).
    rewrite (IH (S n) (cur :: dfs) (tf_caller h :: dss)); [|by intros x Hx; apply Hin; right| |done].
    + f_equal. f_equal; [|cbn; by rewrite <-app_assoc]. cbn [rev]. destruct (rev cfs) as [|y l]; cbn; [done|].
      by rewrite <-!app_assoc.
    + cbn [chain_down]. rewrite (leaf_of_caller cur h Hcur Hh H0). cbn [mbind option_bind].
      rewrite (child_of_caller cur h Hcur Hh H0), Hdown. done.
Qed.

Lemma descends : interruptedSubgraphChain d1 root = Some (rev (f :: fs), rev ss ++ [s]).
Proof using Hok Hr Hrun Hchain Htop Hcallers Hcalm_steps Hcalm_flows Hf1 Hs1.
  unfold interruptedSubgraphChain.
  assert (size (flows d1) = size (flows d)) as ->.
  { rewrite <-!size_dom. f_equal. apply set_eq. intros x. rewrite !elem_of_dom, Hf1. by destruct (flows d !! x). }
  pose proof (chain_length d Hok f fs ss Hchain) as Hlen. cbn [length] in Hlen.
  replace (size (flows d)) with (length fs + S (size (flows d) - S (length fs)))%nat by lia.
  rewrite (chain_down_climb f fs ss _ [] [s] Hchain); [|done| |exact Htop].
  - cbn [mbind option_bind]. rewrite app_nil_r. do 2 f_equal.
    destruct (rev (f :: fs)) as [|y l] eqn:Hrev; [by apply (f_equal (@rev Z)) in Hrev; rewrite rev_involutive in Hrev|].
    cbn [tail]. f_equal. rewrite <-(rev_involutive (f :: fs)), Hrev in Htop. cbn [rev] in Htop. rewrite last_snoc in Htop. congruence.
  - cbn [chain_down]. rewrite leaf_of_leaf. cbn [mbind option_bind]. by rewrite child_of_leaf.
Qed.

(** What the interrupt commits is what the lemmas above assume of it. *)
Lemma interrupt_commits leaseSeq : r_lease_seq r = leaseSeq → ∃ d', handleInterrupt s leaseSeq changes payload d = Some d'
  ∧ tnow d' = tnow d
  ∧ (∀ x, flows d' !! x = (λ g, if one_of (f :: fs) x then set_tstatus StatusInterrupted g else g) <$> flows d !! x)
  ∧ (∀ c, tsteps d' !! c = (λ '(p, q), (p, if bool_decide (c = s) then interrupted_row (tnow d) (Some changes) payload q
                                          else if one_of ss c then interrupted_row (tnow d) None payload q else q)) <$> tsteps d !! c).
Proof using Hok Hr Hrun Hchain Hflows.
  intros Hseq. pose proof leaf_not_caller as Hns. unfold handleInterrupt. rewrite Hr. cbn [mbind option_bind].
  destruct (chain_exists d f fs ss Hchain) as [fl Hfl]. destruct (surgraphChain_spec d Hok f fl Hfl) as (fs' & ss' & -> & Hc').
  assert (fs' = fs ∧ ss' = ss) as [-> ->].
  { clear - Hc' Hchain. revert fs' ss' Hc'. induction Hchain as [cur g Hg Hp|cur g fs ss Hg H0 Hc IH]; intros fs' ss' Hc';
      inversion Hc' as [? h Hh|? h ? ? Hh ? Hc2]; subst; rewrite Hg in Hh; injection Hh as <-; try done.
    by destruct (IH Hc _ _ Hc2) as [-> ->]. }
  rewrite !lookup_update_steps, Hr. cbn [fmap option_fmap option_map mbind option_bind].
  rewrite !(bool_decide_eq_true_2 (s = s)) by done. rewrite andb_false_r. cbn [negb].
  assert (in_status [StatusRunning; StatusInterrupted] r = true) as Hin by (unfold in_status; by rewrite Hrun).
  assert (holds_lease leaseSeq (default r (interrupt_row (tnow d) (Some changes) r))
          && in_status [StatusInterrupted] (default r (interrupt_row (tnow d) (Some changes) r)) = true) as ->.
  { unfold interrupt_row, update_where. rewrite Hin. cbn [default from_option id]. apply andb_true_iff. split; [|done].
    apply bool_decide_eq_true. exact Hseq. }
  eexists. split; [done|]. split; [done|]. split.
  - intros x. rewrite lookup_update_flows. cbn [update_steps flows]. destruct (flows d !! x) as [g|] eqn:Hg; [|done].
    cbn. f_equal. destruct (one_of (f :: fs) x) eqn:Ho; [|done].
    rewrite (Hflows x g (proj1 (one_of_spec _ _) Ho) Hg). done.
  - intros c. rewrite tsteps_update_flows, !lookup_update_steps. destruct (tsteps d !! c) as [[p q]|]; [|done]. cbn. f_equal. f_equal.
    unfold interrupted_row, one_of. destruct (decide (c = s)) as [->|Hne].
    + rewrite (bool_decide_eq_true_2 (s = s)), (bool_decide_eq_true_2 (s ∈ s :: ss)) by (done || left). by rewrite andb_false_r.
    + rewrite (bool_decide_eq_false_2 (c = s)) by done. rewrite (bool_decide_ext (c ∈ s :: ss) (c ∈ ss)) by (rewrite elem_of_cons; clear -Hne; tauto).
      cbn [negb]. rewrite andb_true_r. by destruct (bool_decide (c ∈ ss)).
Qed.

Lemma resume_flows_lookup l d0 : (∀ x, x ∈ l → interrupted_steps d0 x = []) →
  tsteps (foldl resume_flow d0 l) = tsteps d0
  ∧ ∀ x, flows (foldl resume_flow d0 l) !! x
         = (λ g, if one_of l x && bool_decide (tf_status g = StatusInterrupted) then set_tstatus StatusRunning g else g) <$> flows d0 !! x.
Proof using Type.
  clear. revert d0. induction l as [|y l IH]; intros d0 Hnone; cbn [foldl].
  { split; [done|]. intros x. by destruct (flows d0 !! x). }
  destruct (IH (resume_flow d0 y)) as [H1 H2].
  { intros x Hx. apply (Hnone x). by right. }
  split; [done|]. intros x. rewrite H2. unfold resume_flow. rewrite lookup_update_flows.
  destruct (flows d0 !! x) as [g|]; [|done]. cbn [fmap option_fmap option_map]. f_equal. unfold one_of.
  rewrite (bool_decide_eq_true_2 (interrupted_steps d0 y = [])) by (apply Hnone; left). rewrite andb_true_r.
  destruct (decide (tf_status g = StatusInterrupted)) as [Hst|Hst].
  - rewrite (bool_decide_eq_true_2 _ Hst), !andb_true_r. destruct (decide (x = y)) as [->|Hne].
    + rewrite (bool_decide_eq_true_2 (y = y)), (bool_decide_eq_true_2 (y ∈ y :: l)) by (done || left). cbn. by rewrite andb_false_r.
    + rewrite (bool_decide_eq_false_2 (x = y)) by done. rewrite (bool_decide_ext (x ∈ y :: l) (x ∈ l)) by set_solver.
      by rewrite (bool_decide_eq_true_2 _ Hst), andb_true_r.
  - rewrite (bool_decide_eq_false_2 _ Hst), !andb_false_r. by rewrite (bool_decide_eq_false_2 _ Hst), andb_false_r.
Qed.

(** The rows after the Resume. *)
Definition resumed_leaf (data : State) (q : row) : row :=
  set_payload ∅ (set_updated now (set_expires now (set_interrupt true data (set_changes changes
    (set_parked parkedNone (set_status StatusPending q)))))).
Definition reparked_caller (expires : Z) (q : row) : row := set_payload ∅ (set_updated now (set_expires expires q)).

(** The row updates of a Resume. *)
Definition resume_steps (data : State) : db :=
  let d := update_steps (λ id _, one_of (s :: rev ss) id) (λ r, Some (clear_payload r)) d1 in
  let d := update_steps (λ id _, one_of (rev ss) id) (resume_caller (tnow d)) d in
  update_steps (λ id _, bool_decide (id = s)) (resume_leaf (tnow d) data) d.

Lemma interrupted_leaf_row q : r_status q = StatusRunning → ∀ data,
  default (clear_payload (interrupted_row (tnow d) (Some changes) payload q))
    (resume_leaf now data (clear_payload (interrupted_row (tnow d) (Some changes) payload q))) = resumed_leaf data q.
Proof using Type.
  intros Hst data. assert (in_status [StatusRunning; StatusInterrupted] q = true) as Hin by (unfold in_status; by rewrite Hst).
  unfold interrupted_row, interrupt_row, payload_row, resume_leaf, update_where, resumed_leaf. rewrite Hin.
  cbn [default from_option id]. by case_match.
Qed.
Lemma interrupted_caller_row q : parked_caller q = true →
  default (clear_payload (interrupted_row (tnow d) None payload q))
    (resume_caller now (clear_payload (interrupted_row (tnow d) None payload q))) = reparked_caller (tnow d) q.
Proof using Type.
  intros Hp. apply andb_true_iff in Hp as [Hst Hpk]. apply bool_decide_eq_true in Hst, Hpk. apply list_elem_of_singleton in Hst.
  assert (in_status [StatusRunning; StatusInterrupted] q = true) as Hq by (unfold in_status; by rewrite Hst).
  unfold interrupted_row, interrupt_row, payload_row, resume_caller, update_where, reparked_caller. rewrite Hq.
  cbn [default from_option id]. clear -Hst Hpk. destruct q; cbn in *; subst. by case_match.
Qed.

Lemma resume_steps_lookup data c : tsteps (resume_steps data) !! c
  = (λ '(p, q), (p, if bool_decide (c = s) then resumed_leaf data q
                    else if one_of ss c then reparked_caller (tnow d) q else q)) <$> tsteps d !! c.
Proof using Hok Hr Hrun Hchain Hcallers Hd1 Hs1.
  pose proof leaf_not_caller as Hns. unfold resume_steps. cbn zeta. rewrite !lookup_update_steps, Hs1.
  destruct (tsteps d !! c) as [[p q]|] eqn:Hc; [|done].
  cbn [fmap option_fmap option_map]. f_equal. f_equal. cbn [tnow update_steps]. rewrite Hd1. unfold one_of.
  destruct (decide (c = s)) as [->|Hne].
  - rewrite Hr in Hc. injection Hc as <- <-. rewrite !(bool_decide_eq_true_2 (s = s)) by done.
    rewrite (bool_decide_eq_true_2 (s ∈ s :: rev ss)) by left.
    rewrite (bool_decide_eq_false_2 (s ∈ rev ss)) by (by rewrite elem_of_rev). by apply interrupted_leaf_row.
  - rewrite !(bool_decide_eq_false_2 (c = s)) by done.
    rewrite (bool_decide_ext (c ∈ s :: rev ss) (c ∈ ss)) by (rewrite elem_of_cons, elem_of_rev; tauto).
    rewrite (bool_decide_ext (c ∈ rev ss) (c ∈ ss)) by apply elem_of_rev. case_bool_decide as Hcs; [|done].
    apply interrupted_caller_row. by eapply Hcallers.
Qed.

Lemma resume_leaves_none data x : x ∈ f :: fs → interrupted_steps (resume_steps data) x = [].
Proof using Hok Hr Hrun Hchain Hcallers Hcalm_steps Hd1 Hs1.
  intros Hx. destruct (interrupted_steps (resume_steps data) x) as [|[c [p q]] l] eqn:Hl; [done|]. exfalso.
  assert ((c, (p, q)) ∈ interrupted_steps (resume_steps data) x) as Hin2 by (rewrite Hl; left).
  unfold interrupted_steps in Hin2. rewrite list_elem_of_filter, elem_of_map_to_list in Hin2. cbn [fst snd] in Hin2.
  destruct Hin2 as [[-> Hst] Hq]. rewrite resume_steps_lookup in Hq. destruct (tsteps d !! c) as [[p0 q0]|] eqn:Hc; [|done].
  cbn [fmap option_fmap option_map] in Hq. injection Hq as -> Hq. case_bool_decide; [by subst|].
  destruct (one_of ss c) eqn:Ho; subst q; [|exact (Hcalm_steps c x q0 Hc Hx Hst)].
  pose proof (Hcallers c x q0 (proj1 (one_of_spec _ _) Ho) Hc) as Hp. apply andb_true_iff in Hp as [Hst2 _].
  apply bool_decide_eq_true in Hst2. apply list_elem_of_singleton in Hst2. cbn in Hst. congruence.
Qed.

Lemma rev_chain : root :: tail (rev (f :: fs)) = rev (f :: fs).
Proof using Htop.
  destruct (rev (f :: fs)) as [|y l] eqn:Hrev; [by apply (f_equal (@rev Z)) in Hrev; rewrite rev_involutive in Hrev|].
  cbn [tail]. f_equal. rewrite <-(rev_involutive (f :: fs)), Hrev in Htop. cbn [rev] in Htop. rewrite last_snoc in Htop. congruence.
Qed.

Lemma resume_undoes data : ∃ d2, resume root data d1 = Ok d2 ∧ flows d2 = flows d
  ∧ ∀ c, tsteps d2 !! c = (λ '(p, q), (p, if bool_decide (c = s) then resumed_leaf data q
                                          else if one_of ss c then reparked_caller (tnow d) q else q)) <$> tsteps d !! c.
Proof using Hok Hr Hrun Hchain Htop Hflows Hcallers Hcalm_steps Hcalm_flows Hd1 Hf1 Hs1.
  destruct root_flow as (g & Hg & Hgp & Hgr & Hrin).
  unfold resume. rewrite Hf1, Hg. cbn [fmap option_fmap option_map]. rewrite (proj2 (one_of_spec _ _) Hrin).
  cbn [set_tstatus tf_parent tf_status]. rewrite (bool_decide_eq_true_2 (tf_parent g = 0)) by done. cbn [negb bool_decide].
  rewrite bool_decide_eq_true_2 by done. cbn [negb].
  assert (surgraphChain d1 root = ([root], [])) as ->.
  { unfold surgraphChain. pose proof (ok_positive d Hok root g Hg). destruct (Z.to_nat root) as [|n] eqn:Hn; [lia|].
    cbn [chain_up]. rewrite Hf1, Hg. cbn [fmap option_fmap option_map]. rewrite (proj2 (one_of_spec _ _) Hrin).
    cbn [set_tstatus tf_parent]. rewrite (bool_decide_eq_true_2 (tf_parent g = 0)) by done. by rewrite orb_true_r. }
  rewrite descends, last_snoc, removelast_last. cbn [app].
  rewrite Hs1, Hr. cbn [fmap option_fmap option_map]. rewrite (bool_decide_eq_true_2 (s = s)) by done.
  assert (r_interrupt_done (interrupted_row (tnow d) (Some changes) payload r) = true) as ->.
  { unfold interrupted_row, interrupt_row, update_where, payload_row, in_status. rewrite Hrun. cbn [default from_option id]. by case_match. }
  cbn [negb]. fold (resume_steps data). rewrite rev_chain.
  destruct (resume_flows_lookup (rev (f :: fs)) (resume_steps data)) as [Ht Hfl].
  { intros x Hx. apply resume_leaves_none. by apply (proj1 (elem_of_rev x (f :: fs))). }
  eexists. split; [done|]. split; [|intros c; rewrite Ht; apply resume_steps_lookup].
  apply map_eq. intros x. rewrite Hfl. unfold resume_steps. cbn [update_steps flows]. rewrite Hf1.
  destruct (flows d !! x) as [h|] eqn:Hh; [|done]. cbn [fmap option_fmap option_map]. f_equal.
  unfold one_of at 1. rewrite (bool_decide_ext (x ∈ rev (f :: fs)) (x ∈ f :: fs)) by apply elem_of_rev. fold (one_of (f :: fs) x).
  destruct (one_of (f :: fs) x) eqn:Ho; [|done]. cbn. pose proof (Hflows x h (proj1 (one_of_spec _ _) Ho) Hh) as Hrun2.
  destruct h; cbn in *. by subst.
Qed.
End interrupt.

(** The chain runs and is parked, and nothing else of its tree is interrupted. *)
Definition calm (d : db) (chainFlows chainSteps : list Z) (root : Z) : Prop :=
  map_Forall (λ x g, (x ∈ chainFlows → tf_status g = StatusRunning) ∧ (tf_root g = root → tf_status g ≠ StatusInterrupted)) (flows d)
  ∧ map_Forall (λ c e, (c ∈ chainSteps → parked_caller e.2 = true) ∧ (e.1 ∈ chainFlows → r_status e.2 ≠ StatusInterrupted)) (tsteps d).
#[export] Instance calm_dec d fs ss root : Decision (calm d fs ss root).
Proof. unfold calm. apply _. Defined.

(** C8. Resume undoes an interrupt that is the only one of its tree.  Let the flows from that of the running step [s] up to
    [root] run, however many they are, each caller parked, with no step of theirs and no flow of the tree interrupted.
    When [s] interrupts, the transaction commits and stops every flow of the chain, and a later Resume of the root
    finds that very step: every flow is as it was, every caller is parked as it was, [s] is pending with its changes and the
    resume data, and no other row of the table has changed. *)
Theorem resume_undoes_interrupt d s f r fs ss root changes payload data now :
  treach d → tsteps d !! s = Some (f, r) → r_status r = StatusRunning →
  surgraphChain d f = (f :: fs, ss) → last (f :: fs) = Some root → calm d (f :: fs) ss root →
  ∃ d1, handleInterrupt s (r_lease_seq r) changes payload d = Some d1
    ∧ (∀ x, x ∈ f :: fs → tf_status <$> flows d1 !! x = Some StatusInterrupted)
    ∧ ∃ d2, resume root data (at_time now d1) = Ok d2 ∧ flows d2 = flows d
      ∧ ∀ c, tsteps d2 !! c = (λ '(p, q), (p, if bool_decide (c = s) then resumed_leaf now changes data q
                                              else if one_of ss c then reparked_caller now (tnow d) q else q)) <$> tsteps d !! c.
Proof.
  intros Hok%treach_tree_ok Hr Hrun Hsc Htop [Hcf Hcs].
  destruct (ok_step d Hok s f r Hr) as (_ & fl & Hfl).
  destruct (surgraphChain_spec d Hok f fl Hfl) as (fs' & ss' & Heq & Hchain). rewrite Hsc in Heq. injection Heq as <- <-.
  assert (∀ x g, x ∈ f :: fs → flows d !! x = Some g → tf_status g = StatusRunning) as H1 by (intros x g Hx Hg; by apply (Hcf x g Hg)).
  assert (∀ c p q, c ∈ ss → tsteps d !! c = Some (p, q) → parked_caller q = true) as H2 by (intros c p q Hx Hg; by apply (Hcs c (p, q) Hg)).
  assert (∀ c p q, tsteps d !! c = Some (p, q) → p ∈ f :: fs → r_status q ≠ StatusInterrupted) as H3 by (intros c p q Hg Hx; by apply (Hcs c (p, q) Hg)).
  assert (∀ x g, flows d !! x = Some g → tf_root g = root → tf_status g ≠ StatusInterrupted) as H4 by (intros x g Hg; by apply (Hcf x g Hg)).
  destruct (interrupt_commits d s f r fs ss changes payload Hok Hr Hrun Hchain H1 (r_lease_seq r) eq_refl) as (d1 & Hint & _ & Hf1 & Hs1).
  exists d1. split; [done|]. split.
  { intros x Hx. rewrite Hf1, (proj2 (one_of_spec _ _) Hx). by destruct (chain_flows d f fs ss x Hchain Hx) as [g ->]. }
  exact (resume_undoes d s f r fs ss root now changes payload Hok Hr Hrun Hchain Htop H1 H2 H3 H4 (at_time now d1) eq_refl Hf1 Hs1 data).
Qed.

Lemma resume_undoes_interrupt_witness : ∃ d1 d2,
  handleInterrupt 3 1 ∅ ∅ sample_tree = Some d1 ∧ resume 1 ∅ (at_time 500 d1) = Ok d2 ∧ flows d2 = flows sample_tree.
Proof.
  destruct (tsteps sample_tree !! 3) as [[f r]|] eqn:Hr; [|by vm_compute in Hr].
  assert (f = 3 ∧ r_status r = StatusRunning ∧ r_lease_seq r = 1) as (-> & Hrun & Hseq)
    by (vm_compute in Hr; by injection Hr as <- <-).
  destruct (resume_undoes_interrupt sample_tree 3 3 r [2; 1] [2; 1] 1 ∅ ∅ ∅ 500 sample_tree_reached Hr Hrun)
    as (d1 & Hi & _ & d2 & Hres & Hfl & _).
  - by vm_compute.
  - done.
  - apply (bool_decide_unpack _). by vm_compute.
  - rewrite Hseq in Hi. by exists d1, d2.
Defined.

(** The caller fans out below: two leaves of one child. *)
Definition leaf_step (s f : Z) (d : db) : db := mkDb (tnow d) (flows d) (<[s := (f, entry_row (tnow d) 1000)]> (tsteps d)).
Definition sample_fan : db :=
  let d := calls 1 2 2 sample_root in
  update_steps (λ id _, one_of [3; 4] id) claimed_row (leaf_step 4 2 (leaf_step 3 2 d)).

Definition fan_state (n : nat) : db :=
  let d1 := default sample_fan (handleInterrupt 3 1 ∅ ∅ sample_fan) in
  let d2 := default d1 (handleInterrupt 4 1 ∅ ∅ d1) in
  match n with O => d1 | 1%nat => d2 | _ => match resume 1 ∅ d2 with Ok d3 => d3 | Err _ => d2 end end.

Lemma treach_leaf s f d : treach d → s ≠ 0 → bool_decide (tsteps d !! s = None) = true → bool_decide (is_Some (flows d !! f)) = true →
  treach (leaf_step s f d).
Proof.
  intros Hd Hs H1%bool_decide_eq_true H2%bool_decide_eq_true. eapply treach_step; [exact Hd|]. by apply t_insert.
Qed.

Lemma sample_fan_reached : treach sample_fan.
Proof.
  unfold sample_fan. cbn zeta. eapply treach_step; [|apply t_rows].
  do 2 (apply treach_leaf; [|done|by vm_compute|by vm_compute]).
  apply treach_calls; [|done|by vm_compute|by vm_compute]. apply sample_root_reached.
Qed.

Lemma fan_state_2_reached : treach (fan_state 2).
Proof.
  destruct (handleInterrupt 3 1 ∅ ∅ sample_fan) as [d1|] eqn:H1; [|by vm_compute in H1].
  destruct (handleInterrupt 4 1 ∅ ∅ d1) as [d2|] eqn:H2; [|by vm_compute in H1; injection H1 as <-; vm_compute in H2].
  destruct (resume 1 ∅ d2) as [d3|e] eqn:H3.
  - assert (fan_state 2 = d3) as ->.
    { unfold fan_state. rewrite H1. cbn [default from_option id]. rewrite H2. cbn [default from_option id]. by rewrite H3. }
    eapply treach_step; [eapply treach_step; [eapply treach_step; [apply sample_fan_reached|]|]|];
      [eapply t_interrupt, H1|eapply t_interrupt, H2|eapply t_resume, H3].
  - exfalso. vm_compute in H1. injection H1 as <-. vm_compute in H2. injection H2 as <-. by vm_compute in H3.
Qed.

(** A sweep without a hit does nothing. *)
Lemma wedge_sweep_idle final encode minAge d s c f : tree_ok d →
  map_Forall (λ s' e, parked_caller e.2 = true → s' = s) (tsteps d) →
  flows d !! c = Some f → tf_caller f = s → terminal (tf_status f) = false →
  recoverWedgedSubgraphParks final encode minAge d = d.
Proof.
  intros Hok Honly Hf Hc Hl. unfold recoverWedgedSubgraphParks.
  destruct (wedged_steps minAge d) as [|s' l] eqn:Hw; [done|]. exfalso.
  destruct (proj1 (wedged_steps_spec minAge d s')) as (p & r & Hr & Hwd); [rewrite Hw; left|].
  assert (parked_caller r = true) as Hp by (by apply andb_true_iff in Hwd as [[? _]%andb_true_iff _]).
  pose proof (Honly s' (p, r) Hr Hp) as ->. by rewrite (wedged_children minAge d s r Hok Hwd c f Hf Hc) in Hl.
Qed.
Lemma orphan_sweep_idle final age minAge d : no_orphans d → recoverOrphanedSubgraphChildren final age minAge d = d.
Proof.
  intros Hno. unfold recoverOrphanedSubgraphChildren. destruct (orphans age minAge d) as [|x l] eqn:Ho; [done|]. exfalso.
  destruct (proj1 (orphans_spec age minAge d x)) as (f & Hf & H); [rewrite Ho; left|].
  specialize (Hno x f Hf). unfold orphaned in H. unfold under_settled in Hno. rewrite !andb_true_iff in H.
  destruct H as (((_ & Hns) & _) & Hp). rewrite Hp, andb_true_r in Hno. by destruct (tf_status f).
Qed.

(** Resume strands an interrupt: when two branches of one child flow interrupt, the first Resume of the
    root resolves one of them and sets the root running although the child stays interrupted at the other;
    from then on Resume answers Conflict for the root and BadRequest for the child, and neither recovery sweep
    changes anything, whatever the time and the ages. *)
Theorem resume_strands_second_interrupt : ∃ d, treach d ∧
  ∃ d1 d2 d3, handleInterrupt 3 1 ∅ ∅ d = Some d1 ∧ handleInterrupt 4 1 ∅ ∅ d1 = Some d2 ∧ resume 1 ∅ d2 = Ok d3
    ∧ tf_status <$> flows d3 !! 1 = Some StatusRunning
    ∧ tf_status <$> flows d3 !! 2 = Some StatusInterrupted
    ∧ r_status ∘ snd <$> tsteps d3 !! 3 = Some StatusPending
    ∧ r_status ∘ snd <$> tsteps d3 !! 4 = Some StatusInterrupted
    ∧ ∀ now, (∀ data, resume 1 data (at_time now d3) = Err Conflict ∧ resume 2 data (at_time now d3) = Err BadRequest)
      ∧ (∀ final encode minAge, recoverWedgedSubgraphParks final encode minAge (at_time now d3) = at_time now d3)
      ∧ (∀ final age minAge, recoverOrphanedSubgraphChildren final age minAge (at_time now d3) = at_time now d3).
Proof.
  exists sample_fan. split; [apply sample_fan_reached|]. exists (fan_state 0), (fan_state 1), (fan_state 2).
  split_and!; [by vm_compute..|]. intros now. split_and!.
  - intros data. split; by vm_compute.
  - intros final encode minAge.
    destruct (flows (at_time now (fan_state 2)) !! 2) as [f|] eqn:Hf; [|by vm_compute in Hf].
    apply (wedge_sweep_idle _ _ _ _ 1 2 f); [| |exact Hf| |].
    + apply treach_tree_ok. eapply treach_step; [apply fan_state_2_reached|apply t_tick].
    + apply (bool_decide_unpack _). by vm_compute.
    + vm_compute in Hf. by injection Hf as <-.
    + vm_compute in Hf. by injection Hf as <-.
  - intros final age minAge. apply orphan_sweep_idle. apply (bool_decide_unpack _). by vm_compute.
Qed.
