(* ===== verification/Caches.v ===== *)
(** * The replica's caches ([internal/claimstracker], [internal/lru])

    Two small structures behind a mutex each.  The claims tracker remembers for a second or two which steps
    a worker of the replica is claiming; the LRU keeps parsed graphs for the steps of one flow.  Both hold
    hints: what matters is how long an entry is sure to be there and when it is sure to be gone. *)

From S2P Require Import Prelude.

#[local] Open Scope Z_scope.

(** ** The claims tracker

    Times are whole Unix seconds. *)
Module Tracker.

(** [key]: the shard and the step. *)
Abbreviation key := (Z * Z)%type.

Record tracker := mk { curr : gset key; prev : gset key; stamp : Z }.

Definition NewTracker (now : Z) : tracker := mk ∅ ∅ now.

Definition rollMaps (now : Z) (x : tracker) : tracker :=
  if bool_decide (now = stamp x) then x
  else if bool_decide (now = stamp x + 1) then mk ∅ (curr x) now
  else mk ∅ ∅ now.

Definition TryClaim (now : Z) (k : key) (x : tracker) : bool * tracker :=
  let x := rollMaps now x in
  if bool_decide (k ∈ curr x) || bool_decide (k ∈ prev x) then (false, x)
  else (true, mk ({[k]} ∪ curr x) (prev x) (stamp x)).

Definition RelinquishClaim (k : key) (x : tracker) : tracker := mk (curr x ∖ {[k]}) (prev x ∖ {[k]}) (stamp x).

(** A history of calls, newest first; a claim carries its second and its answer. *)
Inductive event := Claimed (k : key) (now : Z) (ok : bool) | Relinquished (k : key).

Inductive runs (start : Z) : list event → tracker → Prop :=
| runs_new : runs start [] (NewTracker start)
| runs_claim es x k now ok x' : runs start es x → TryClaim now k x = (ok, x') → runs start (Claimed k now ok :: es) x'
| runs_relinquish es x k : runs start es x → runs start (Relinquished k :: es) (RelinquishClaim k x).

(** The second of the newest reservation of a key, if it was not relinquished. *)
Fixpoint reserved_at (k : key) (es : list event) : option Z :=
  match es with
  | [] => None
  | Claimed k' now true :: es => if bool_decide (k' = k) then Some now else reserved_at k es
  | Claimed _ _ false :: es => reserved_at k es
  | Relinquished k' :: es => if bool_decide (k' = k) then None else reserved_at k es
  end.

(** The clock of a history: the seconds never decrease. *)
Fixpoint latest (start : Z) (es : list event) : Z :=
  match es with
  | [] => start
  | Claimed _ now _ :: _ => now
  | Relinquished _ :: es => latest start es
  end.
Fixpoint steady (start : Z) (es : list event) : Prop :=
  match es with
  | [] => True
  | Claimed _ now _ :: es => latest start es ≤ now ∧ steady start es
  | Relinquished _ :: es => steady start es
  end.

(** The generations are the reservations of this second and of the last. *)
Definition represents (start : Z) (es : list event) (x : tracker) : Prop :=
  stamp x = latest start es
  ∧ (∀ k, k ∈ curr x ↔ reserved_at k es = Some (stamp x))
  ∧ (∀ k, k ∈ prev x ↔ reserved_at k es = Some (stamp x - 1))
  ∧ (∀ k s, reserved_at k es = Some s → s ≤ stamp x).

Lemma roll_represents start es x now : represents start es x → stamp x ≤ now →
  let y := rollMaps now x in
  stamp y = now ∧ (∀ k, k ∈ curr y ↔ reserved_at k es = Some now) ∧ (∀ k, k ∈ prev y ↔ reserved_at k es = Some (now - 1)).
Proof.
  intros (Hs & Hc & Hp & Hle) Hnow. unfold rollMaps. case_bool_decide as H1; [by subst now|].
  case_bool_decide as H2; simpl; split_and!; try done; intros k.
  - split; [set_solver|]. intros H%Hle. lia.
  - rewrite Hc. by replace (now - 1) with (stamp x) by lia.
  - split; [set_solver|]. intros H%Hle. lia.
  - split; [set_solver|]. intros H%Hle. lia.
Qed.

Lemma runs_represents start es x : runs start es x → steady start es → represents start es x.
Proof.
  induction 1 as [|es x k now ok x' _ IH Hc|es x k _ IH]; simpl.
  - intros _. split_and!; simpl; [done|set_solver|set_solver|done].
  - intros [Hle Hst]. specialize (IH Hst). assert (stamp x ≤ now) as Hnow by (destruct IH as [-> _]; done).
    destruct (roll_represents start es x now IH Hnow) as (Hs & Hcu & Hpr). destruct IH as (_ & _ & _ & Hle').
    unfold TryClaim in Hc. destruct (_ || _) eqn:Hin in Hc; injection Hc as <- <-.
    + split_and!; rewrite ?Hs; try done. intros k' s' Hk. specialize (Hle' k' s' Hk). lia.
    + apply orb_false_iff in Hin as [H1%bool_decide_eq_false H2%bool_decide_eq_false].
      split_and!; simpl; [done| | |]; intros k'.
      * rewrite elem_of_union, elem_of_singleton, Hs, Hcu. case_bool_decide; naive_solver.
      * rewrite Hs, Hpr. case_bool_decide as He; [subst k'|done]. rewrite <-Hpr. split; [done|]. intros [=]. lia.
      * intros s'. rewrite Hs. case_bool_decide; [intros [= <-]; lia|]. intros Hk. specialize (Hle' k' s' Hk). lia.
  - intros Hst. specialize (IH Hst). destruct IH as (Hs & Hc & Hp & Hle).
    split_and!; simpl; [done| | |]; intros k'.
    + rewrite elem_of_difference, elem_of_singleton, Hc. case_bool_decide; naive_solver.
    + rewrite elem_of_difference, elem_of_singleton, Hp. case_bool_decide; naive_solver.
    + intros s'. case_bool_decide; [done|]. apply Hle.
Qed.

(** A reservation lasts exactly for the second it was taken in and the next: on a clock that never runs
    back, a claim of a key is refused if and only if its newest reservation that was not relinquished is of
    this second or of the one before - whatever else was claimed or refused in between. *)
Theorem reservation_lasts_two_seconds start es x k now :
  runs start es x → steady start es → latest start es ≤ now →
  (TryClaim now k x).1 = false ↔ ∃ s, reserved_at k es = Some s ∧ now - 1 ≤ s.
Proof.
  intros Hr Hst Hnow. pose proof (runs_represents start es x Hr Hst) as Hrep.
  destruct (roll_represents start es x now Hrep) as (_ & Hc & Hp); [by destruct Hrep as [-> _]|].
  destruct Hrep as (Hs & _ & _ & Hle). unfold TryClaim.
  destruct (bool_decide (k ∈ curr _) || bool_decide (k ∈ prev _)) eqn:Hin; simpl.
  - split; [|done]. intros _. apply orb_true_iff in Hin as [H%bool_decide_eq_true|H%bool_decide_eq_true].
    + exists now. split; [by apply Hc|lia].
    + exists (now - 1). split; [by apply Hp|lia].
  - split; [done|]. intros (s & Hk & Hs'). exfalso.
    apply orb_false_iff in Hin as [H1%bool_decide_eq_false H2%bool_decide_eq_false].
    pose proof (Hle k s Hk). assert (s = now ∨ s = now - 1) as [->| ->] by lia; [by apply H1, Hc|by apply H2, Hp].
Qed.

Lemma reservation_lasts_two_seconds_witness :
  let x1 := (TryClaim 7 (1, 42) (NewTracker 7)).2 in
  (TryClaim 8 (1, 42) x1).1 = false ∧ (TryClaim 8 (2, 42) x1).1 = true ∧ ¬ (TryClaim 9 (1, 42) x1).1 = false.
Proof.
  assert (runs 7 [Claimed (1, 42) 7 true] (TryClaim 7 (1, 42) (NewTracker 7)).2) as Hr by (eapply runs_claim; [apply runs_new|by vm_compute]).
  assert (steady 7 [Claimed (1, 42) 7 true]) as Hst by (simpl; lia).
  split_and!.
  - apply (reservation_lasts_two_seconds 7 _ _ (1, 42) 8 Hr Hst); [simpl; lia|]. exists 7. split; [done|lia].
  - by vm_compute.
  - rewrite (reservation_lasts_two_seconds 7 _ _ (1, 42) 9 Hr Hst) by (simpl; lia). intros (s & [= <-] & Hs). lia.
Defined.

End Tracker.

(** ** The LRU

    [container/list] is a heap of elements and their order, front first; the map points at elements. *)
Module Lru.
Section lru.
Context {K V : Type} `{Countable K}.
Context (maxEntries ttl : Z).

Record lru_entry := mkEntry { e_key : K; e_value : V; e_storedAt : Z }.
Record lru_cache := mkCache { ll : list nat; heap : gmap nat lru_entry; items : gmap K nat; fresh : nat }.

Definition NewCache : lru_cache := mkCache [] ∅ ∅ 0.

(** [list.Remove] and [list.MoveToFront]. *)
Definition unlink (el : nat) (l : list nat) : list nat := filter (λ x, x ≠ el) l.
Definition to_front (el : nat) (l : list nat) : list nat := el :: unlink el l.

Definition expired (now storedAt : Z) : bool := bool_decide (0 < ttl) && bool_decide (ttl < now - storedAt).

Definition Load (now : Z) (k : K) (c : lru_cache) : option V * lru_cache :=
  match items c !! k with
  | None => (None, c)
  | Some el =>
      match heap c !! el with
      | Some ent =>
          if expired now (e_storedAt ent)
          then (None, mkCache (unlink el (ll c)) (delete el (heap c)) (delete k (items c)) (fresh c))
          else (Some (e_value ent), mkCache (to_front el (ll c)) (heap c) (items c) (fresh c))
      | None => (None, c)
      end
  end.

(** The element at the back goes, and its key with it. *)
Definition evict (c : lru_cache) : lru_cache :=
  match last (ll c) with
  | Some oldest =>
      mkCache (unlink oldest (ll c)) (delete oldest (heap c))
        (match heap c !! oldest with Some ent => delete (e_key ent) (items c) | None => items c end) (fresh c)
  | None => c
  end.

Definition Store (now : Z) (k : K) (v : V) (c : lru_cache) : lru_cache :=
  match items c !! k with
  | Some el => mkCache (to_front el (ll c)) (<[el := mkEntry k v now]> (heap c)) (items c) (fresh c)
  | None =>
      let el := fresh c in
      let c := mkCache (el :: ll c) (<[el := mkEntry k v now]> (heap c)) (<[k := el]> (items c)) (S el) in
      if bool_decide (0 < maxEntries) && bool_decide (maxEntries < Z.of_nat (length (ll c))) then evict c else c
  end.

(** *** The recency list: what the two structures stand for *)

Definition drop_key (k : K) (l : list lru_entry) : list lru_entry := filter (λ e, e_key e ≠ k) l.
Definition find_key (k : K) (l : list lru_entry) : option lru_entry := head (filter (λ e, e_key e = k) l).

Definition sLoad (now : Z) (k : K) (l : list lru_entry) : option V * list lru_entry :=
  match find_key k l with
  | None => (None, l)
  | Some ent => if expired now (e_storedAt ent) then (None, drop_key k l) else (Some (e_value ent), ent :: drop_key k l)
  end.
Definition sStore (now : Z) (k : K) (v : V) (l : list lru_entry) : list lru_entry :=
  match find_key k l with
  | Some _ => mkEntry k v now :: drop_key k l
  | None =>
      let l := mkEntry k v now :: l in
      if bool_decide (0 < maxEntries) && bool_decide (maxEntries < Z.of_nat (length l)) then take (length l - 1) l else l
  end.

(** A cache stands for a recency list: the elements in order, each key once, the map exact. *)
Record stands_for (c : lru_cache) (l : list lru_entry) : Prop := mkStands {
  st_view : Forall2 (λ el e, heap c !! el = Some e) (ll c) l;
  st_NoDup : NoDup (ll c);
  st_items : ∀ k el, items c !! k = Some el ↔ el ∈ ll c ∧ ∃ e, heap c !! el = Some e ∧ e_key e = k;
  st_fresh : Forall (λ el, (el < fresh c)%nat) (ll c)
}.

Lemma stands_unlink c l el e : stands_for c l → heap c !! el = Some e → el ∈ ll c →
  Forall2 (λ x y, heap c !! x = Some y) (unlink el (ll c)) (drop_key (e_key e) l).
Proof using Type.
  intros [Hv Hnd Hi _] He Hin. unfold unlink, drop_key.
  assert (∀ x y, x ∈ ll c → heap c !! x = Some y → x ≠ el ↔ e_key y ≠ e_key e) as Hkey.
  { intros x y Hx Hy. split; [|naive_solver]. intros Hne Heq. apply Hne.
    assert (items c !! e_key e = Some x) as H1 by (apply Hi; eauto).
    assert (items c !! e_key e = Some el) as H2 by (apply Hi; eauto). congruence. }
  clear Hnd Hi Hin. induction Hv as [|x y xs ys Hxy _ IH]; [constructor|].
  assert (Forall2 (λ x y, heap c !! x = Some y) (filter (λ x, x ≠ el) xs) (filter (λ y, e_key y ≠ e_key e) ys)) as Hrest.
  { apply IH. intros x' y' Hx'. apply Hkey. by right. }
  specialize (Hkey x y ltac:(left) Hxy). rewrite !filter_cons.
  destruct (decide (x ≠ el)), (decide (e_key y ≠ e_key e)); try tauto. by constructor.
Qed.

Lemma stands_find c l k : stands_for c l →
  match items c !! k with
  | Some el => ∃ e, el ∈ ll c ∧ heap c !! el = Some e ∧ e_key e = k ∧ find_key k l = Some e
  | None => find_key k l = None
  end.
Proof using Type.
  intros [Hv Hnd Hi Hfr]. destruct (items c !! k) as [el|] eqn:Hk.
  - destruct (proj1 (Hi k el) Hk) as (Hin & e & He & Hek). exists e. split_and!; try done.
    assert (∀ x y, x ∈ ll c → heap c !! x = Some y → e_key y = k → x = el) as Huniq.
    { intros x y Hx Hy Hyk. assert (items c !! k = Some x) by (apply Hi; eauto). congruence. }
    unfold find_key. clear Hnd Hi Hfr. induction Hv as [|x y xs ys Hxy _ IH]; [by apply not_elem_of_nil in Hin|].
    rewrite filter_cons. destruct (decide (e_key y = k)) as [Hyk|Hyk]; simpl.
    + rewrite (Huniq x y ltac:(left) Hxy Hyk) in Hxy. congruence.
    + apply elem_of_cons in Hin as [->|Hin]; [congruence|]. apply IH; [done|]. intros x' y' Hx'. apply Huniq. by right.
  - unfold find_key. destruct (filter (λ e, e_key e = k) l) as [|e l'] eqn:Hf; [done|]. exfalso.
    assert (e ∈ filter (λ e, e_key e = k) l) as [Hek Hin]%list_elem_of_filter by (rewrite Hf; left).
    apply list_elem_of_lookup in Hin as [i Hi']. destruct (Forall2_lookup_r _ _ _ _ _ Hv Hi') as (el & Hel & He).
    assert (items c !! k = Some el); [|congruence]. apply Hi. split; [by eapply list_elem_of_lookup_2|eauto].
Qed.

Lemma stands_New : stands_for NewCache [].
Proof using Type.
  split; simpl; [constructor|constructor| |constructor]. intros k el. rewrite lookup_empty. set_solver.
Qed.

Lemma elem_of_unlink x el l : x ∈ unlink el l ↔ x ≠ el ∧ x ∈ l.
Proof using Type. unfold unlink. by rewrite list_elem_of_filter. Qed.

Lemma view_agree (h h' : gmap nat lru_entry) xs l : (∀ x, x ∈ xs → h' !! x = h !! x) →
  Forall2 (λ x e, h !! x = Some e) xs l → Forall2 (λ x e, h' !! x = Some e) xs l.
Proof using Type.
  intros Hag. induction 1 as [|x e xs l Hx _ IH]; [constructor|]. constructor.
  - rewrite Hag; [done|left].
  - apply IH. intros y Hy. apply Hag. by right.
Qed.

Lemma stands_keys c l : stands_for c l → NoDup (e_key <$> l).
Proof using Type.
  intros [Hv Hnd Hi _]. assert (∀ x y e e', x ∈ ll c → y ∈ ll c → heap c !! x = Some e → heap c !! y = Some e' → e_key e = e_key e' → x = y) as Hinj.
  { intros x y e e' Hx Hy He He' Hk. assert (items c !! e_key e = Some x) by (apply Hi; eauto).
    assert (items c !! e_key e = Some y) by (apply Hi; eauto). congruence. }
  clear Hi. induction Hv as [|x e xs l Hx Hv IH]; [constructor|]. apply NoDup_cons in Hnd as [Hnx Hnd]. simpl. constructor.
  - intros (e' & Hk & Hin)%list_elem_of_fmap. apply list_elem_of_lookup in Hin as [i Hi'].
    destruct (Forall2_lookup_r _ _ _ _ _ Hv Hi') as (y & Hy & Hye). apply list_elem_of_lookup_2 in Hy.
    apply Hnx. rewrite (Hinj x y e e'); auto; [left|by right].
  - apply IH; [done|]. intros a b ? ? Ha Hb. apply Hinj; by right.
Qed.

(** An element is used: it moves to the front, its value perhaps replaced. *)
Lemma stands_used c l el e e' : stands_for c l → el ∈ ll c → heap c !! el = Some e → e_key e' = e_key e →
  stands_for (mkCache (to_front el (ll c)) (<[el := e']> (heap c)) (items c) (fresh c)) (e' :: drop_key (e_key e) l).
Proof using Type.
  intros Hst Hin He Hk. pose proof (stands_unlink c l el e Hst He Hin) as Hun. destruct Hst as [Hv Hnd Hi Hfr]. split; simpl.
  - constructor; [apply lookup_insert_eq|]. eapply view_agree; [|exact Hun]. intros x [Hne _]%elem_of_unlink.
    by apply lookup_insert_ne.
  - constructor; [|by apply NoDup_filter]. rewrite elem_of_unlink. tauto.
  - intros k x. rewrite Hi. unfold to_front. rewrite elem_of_cons, elem_of_unlink. destruct (decide (x = el)) as [->|Hne].
    + rewrite lookup_insert_eq. split.
      * intros (_ & e0 & He0 & Hk0). split; [by left|]. exists e'. split; [done|]. congruence.
      * intros (_ & e0 & [= <-] & Hk0). split; [done|]. exists e. split; [done|]. congruence.
    + rewrite lookup_insert_ne by done. naive_solver.
  - constructor; [by eapply Forall_forall in Hfr|]. apply Forall_forall. intros x [_ Hx]%elem_of_unlink. by eapply Forall_forall in Hfr.
Qed.

(** An element is dropped, with its key. *)
Lemma stands_dropped c l el e : stands_for c l → el ∈ ll c → heap c !! el = Some e →
  stands_for (mkCache (unlink el (ll c)) (delete el (heap c)) (delete (e_key e) (items c)) (fresh c)) (drop_key (e_key e) l).
Proof using Type.
  intros Hst Hin He. pose proof (stands_unlink c l el e Hst He Hin) as Hun. destruct Hst as [Hv Hnd Hi Hfr]. split; simpl.
  - eapply view_agree; [|exact Hun]. intros x [Hne _]%elem_of_unlink. by apply lookup_delete_ne.
  - by apply NoDup_filter.
  - intros k x. rewrite lookup_delete_Some, elem_of_unlink, Hi. split.
    + intros (Hk & Hx & e0 & He0 & Hk0). assert (x ≠ el) by congruence. split; [done|]. exists e0. by rewrite lookup_delete_ne.
    + intros ((Hne & Hx) & e0 & He0 & Hk0). rewrite lookup_delete_ne in He0 by done. split; [|by eauto].
      intros Hek. apply Hne. assert (items c !! k = Some x) as H1 by (apply Hi; eauto).
      assert (items c !! k = Some el) as H2 by (apply Hi; eauto). congruence.
  - apply Forall_forall. intros x [_ Hx]%elem_of_unlink. by eapply Forall_forall in Hfr.
Qed.

Lemma stands_pushed c l k v now : stands_for c l → items c !! k = None →
  stands_for (mkCache (fresh c :: ll c) (<[fresh c := mkEntry k v now]> (heap c)) (<[k := fresh c]> (items c)) (S (fresh c)))
    (mkEntry k v now :: l).
Proof using Type.
  intros [Hv Hnd Hi Hfr] Hk. assert (fresh c ∉ ll c) as Hnew.
  { intros Hin. eapply Forall_forall in Hfr; [|exact Hin]. simpl in Hfr. lia. }
  split; simpl.
  - constructor; [apply lookup_insert_eq|]. eapply view_agree; [|exact Hv]. intros x Hx. apply lookup_insert_ne. by intros <-.
  - by constructor.
  - intros k' x. rewrite lookup_insert_Some, elem_of_cons, Hi. destruct (decide (x = fresh c)) as [->|Hne].
    + rewrite lookup_insert_eq. split.
      * intros [[<- _]|(_ & Hin & _)]; [|done]. split; [by left|]. by eexists.
      * intros (_ & e & [= <-] & <-). by left.
    + rewrite lookup_insert_ne by done. split.
      * intros [[_ Heq]|(_ & Hx & He)]; [by rewrite Heq in Hne|]. split; [by right|done].
      * intros ([Heq|Hx] & He); [done|]. right. split; [|done]. intros ->.
        assert (items c !! k' = Some x) by (apply Hi; eauto). congruence.
  - constructor; [lia|]. eapply Forall_impl; [exact Hfr|]. simpl. lia.
Qed.

Lemma drop_last l e : NoDup (e_key <$> l) → last l = Some e → drop_key (e_key e) l = take (length l - 1) l.
Proof using Type.
  intros Hnd Hl. destruct (last_Some l e) as [Hs _]. destruct (Hs Hl) as [l' ->].
  rewrite length_app. simpl. replace (length l' + 1 - 1)%nat with (length l') by lia. rewrite take_app_length.
  rewrite fmap_app in Hnd. apply NoDup_app in Hnd as (_ & Hd & _).
  unfold drop_key. rewrite filter_app, filter_cons. destruct (decide (e_key e ≠ e_key e)) as [?|_]; [done|]. rewrite filter_nil, app_nil_r.
  assert (∀ x, x ∈ l' → e_key x ≠ e_key e) as Hne.
  { intros x Hx Hk. apply (Hd (e_key x)); [by apply list_elem_of_fmap_2|rewrite Hk; by left]. }
  clear -Hne. induction l' as [|x l IH]; [done|]. rewrite filter_cons, decide_True by (apply Hne; left).
  f_equal. apply IH. intros y Hy. apply Hne. by right.
Qed.

Lemma stands_evicted c l : stands_for c l → stands_for (evict c) (take (length l - 1) l).
Proof using Type.
  intros Hst. unfold evict. destruct (last (ll c)) as [el|] eqn:Hl.
  - assert (el ∈ ll c) as Hin by (by apply last_Some_elem_of).
    assert (∃ e, last l = Some e ∧ heap c !! el = Some e) as (e & Hle & He).
    { destruct Hst as [Hv _ _ _]. rewrite last_lookup in Hl. destruct (Forall2_lookup_l _ _ _ _ _ Hv Hl) as (e & Hle & He).
      exists e. split; [|done]. by rewrite last_lookup, <-(Forall2_length _ _ _ Hv). }
    rewrite He, <-(drop_last l e); [by apply stands_dropped|by eapply stands_keys|done].
  - apply last_None in Hl. destruct Hst as [Hv Hnd Hi Hfr]. rewrite Hl in Hv. inversion Hv; subst. simpl.
    split; rewrite ?Hl; simpl; [constructor|constructor| |constructor]. intros k el. by rewrite Hi, Hl.
Qed.

(** The two operations do to the structures what they do to the list. *)
Lemma Load_stands now k c l : stands_for c l →
  (Load now k c).1 = (sLoad now k l).1 ∧ stands_for (Load now k c).2 (sLoad now k l).2.
Proof using Type.
  intros Hst. unfold Load, sLoad. pose proof (stands_find c l k Hst) as Hf.
  destruct (items c !! k) as [el|]; [|by rewrite Hf]. destruct Hf as (e & Hin & He & <- & ->). rewrite He.
  destruct (expired now (e_storedAt e)); simpl; (split; [done|]); [by apply stands_dropped|].
  rewrite <-(insert_id (heap c) el e He) at 1. by apply stands_used.
Qed.
Lemma Store_stands now k v c l : stands_for c l → stands_for (Store now k v c) (sStore now k v l).
Proof using Type.
  intros Hst. unfold Store, sStore. pose proof (stands_find c l k Hst) as Hf. destruct (items c !! k) as [el|] eqn:Hk.
  - destruct Hf as (e & Hin & He & <- & ->). by eapply (stands_used c l el e (mkEntry (e_key e) v now)).
  - rewrite Hf. pose proof (stands_pushed c l k v now Hst Hk) as Hp. cbn zeta.
    pose proof (Forall2_length _ _ _ (st_view _ _ Hp)) as Hlen. cbn [ll] in Hlen |- *. rewrite Hlen.
    destruct (_ && _); [|done]. by apply stands_evicted.
Qed.

(** *** What a history of calls guarantees *)

(** A history, newest first. *)
Inductive event := Stored (k : K) (v : V) (now : Z) | Loaded (k : K) (now : Z) (hit : bool).

Inductive runs : list event → lru_cache → Prop :=
| runs_new : runs [] NewCache
| runs_load es c k now : runs es c → runs (Loaded k now (bool_decide (is_Some (Load now k c).1)) :: es) (Load now k c).2
| runs_store es c k v now : runs es c → runs (Stored k v now :: es) (Store now k v c).

Fixpoint newest_store (k : K) (es : list event) : option (V * Z) :=
  match es with
  | [] => None
  | Stored k' v now :: es => if bool_decide (k' = k) then Some (v, now) else newest_store k es
  | Loaded _ _ _ :: es => newest_store k es
  end.
(** The newest event of a key is a store or a hit. *)
Fixpoint in_use (k : K) (es : list event) : bool :=
  match es with
  | [] => false
  | Stored k' _ _ :: es => bool_decide (k' = k) || in_use k es
  | Loaded k' _ hit :: es => if bool_decide (k' = k) then hit else in_use k es
  end.
(** The other keys stored or hit since a key's own last use. *)
Fixpoint used_since (k : K) (es : list event) : gset K :=
  match es with
  | [] => ∅
  | Stored k' _ _ :: es => if bool_decide (k' = k) then ∅ else {[k']} ∪ used_since k es
  | Loaded k' _ hit :: es => if hit then if bool_decide (k' = k) then ∅ else {[k']} ∪ used_since k es else used_since k es
  end.

Record recency (es : list event) (l : list lru_entry) : Prop := mkRecency {
  rc_keys : NoDup (e_key <$> l);
  rc_stored : ∀ e, e ∈ l → newest_store (e_key e) es = Some (e_value e, e_storedAt e);
  rc_front : ∀ i j e e', l !! i = Some e → l !! j = Some e' → (j < i)%nat → e_key e' ∈ used_since (e_key e) es;
  rc_kept : ∀ k, in_use k es = true → maxEntries ≤ 0 ∨ Z.of_nat (size (used_since k es)) < maxEntries → k ∈ e_key <$> l
}.

Lemma drop_key_keys k l : NoDup (e_key <$> l) → NoDup (e_key <$> drop_key k l).
Proof using Type. intros Hnd. eapply sublist_NoDup; [exact Hnd|]. apply fmap_sublist, sublist_filter. Qed.
Lemma elem_of_drop_key k l e : e ∈ drop_key k l ↔ e_key e ≠ k ∧ e ∈ l.
Proof using Type. unfold drop_key. by rewrite list_elem_of_filter. Qed.
Lemma find_key_Some k l e : find_key k l = Some e → e ∈ l ∧ e_key e = k.
Proof using Type.
  unfold find_key. intros Hh. assert (e ∈ filter (λ e, e_key e = k) l) as [Hk Hin]%list_elem_of_filter; [|done].
  destruct (filter _ l); [done|]. injection Hh as ->. left.
Qed.
Lemma find_key_None k l : find_key k l = None → k ∉ e_key <$> l.
Proof using Type.
  unfold find_key. intros Hf (e & -> & Hin)%list_elem_of_fmap.
  assert (e ∈ filter (λ e', e_key e' = e_key e) l) as Hin' by (by apply list_elem_of_filter).
  destruct (filter _ l); [by apply not_elem_of_nil in Hin'|done].
Qed.
Lemma find_key_unique k l e : NoDup (e_key <$> l) → e ∈ l → e_key e = k → find_key k l = Some e.
Proof using Type.
  intros Hnd Hin <-. destruct (find_key (e_key e) l) as [e'|] eqn:Hf.
  - apply find_key_Some in Hf as [Hin' Hk']. f_equal.
    apply list_elem_of_lookup in Hin as [i Hi], Hin' as [j Hj].
    assert (i = j) as <-; [|congruence]. eapply (NoDup_lookup (e_key <$> l)); [done| |].
    + rewrite list_lookup_fmap, Hi. done.
    + rewrite list_lookup_fmap, Hj. simpl. congruence.
  - apply find_key_None in Hf. exfalso. apply Hf. by apply list_elem_of_fmap_2.
Qed.
(** Order survives dropping. *)
Lemma sublist_order (l1 l2 : list lru_entry) i j e e' : sublist l1 l2 → l1 !! i = Some e → l1 !! j = Some e' → (j < i)%nat →
  ∃ i' j', l2 !! i' = Some e ∧ l2 !! j' = Some e' ∧ (j' < i')%nat.
Proof using Type.
  intros Hs. revert i j. induction Hs as [|x l1 l2 Hs IH|x l1 l2 Hs IH]; intros i j Hi Hj Hlt; [done| |].
  - destruct i as [|i]; [lia|]. destruct j as [|j]; simpl in *.
    + apply list_elem_of_lookup_2 in Hi. assert (e ∈ l2) as Hin by (by eapply elem_of_sublist).
      apply list_elem_of_lookup in Hin as [i' Hi']. exists (S i'), 0%nat. split_and!; [done|done|lia].
    + destruct (IH i j Hi Hj ltac:(lia)) as (i' & j' & ? & ? & ?). exists (S i'), (S j'). split_and!; [done|done|lia].
  - destruct (IH i j Hi Hj Hlt) as (i' & j' & ? & ? & ?). exists (S i'), (S j'). split_and!; [done|done|lia].
Qed.

(** One more use of a key, seen by the others. *)
Definition uses (k : K) (es es' : list event) : Prop :=
  ∀ k', k' ≠ k → newest_store k' es' = newest_store k' es ∧ in_use k' es' = in_use k' es
    ∧ used_since k' es' = {[k]} ∪ used_since k' es.

Lemma recency_used es es' l e : uses (e_key e) es es' → newest_store (e_key e) es' = Some (e_value e, e_storedAt e) →
  recency es l → recency es' (e :: drop_key (e_key e) l).
Proof using Type.
  intros Hu Hn [Hnd Hst Hfr Hk]. split.
  - simpl. constructor; [|by apply drop_key_keys]. intros (x & Hx & [? _]%elem_of_drop_key)%list_elem_of_fmap. congruence.
  - intros x [->|[Hne Hin]%elem_of_drop_key]%elem_of_cons; [done|]. destruct (Hu _ Hne) as (-> & _). by apply Hst.
  - intros i j x y Hi Hj Hlt. destruct i as [|i]; [lia|]. simpl in Hi.
    assert (e_key x ≠ e_key e) as Hne by (by apply list_elem_of_lookup_2, elem_of_drop_key in Hi as [? _]).
    destruct (Hu _ Hne) as (_ & _ & ->). destruct j as [|j]; simpl in Hj; [injection Hj as <-; set_solver|].
    destruct (sublist_order (drop_key (e_key e) l) l i j x y) as (i' & j' & Hi' & Hj' & Hlt'); [apply sublist_filter|done|done|lia|].
    apply elem_of_union_r. by eapply Hfr.
  - intros k Huse Hsz. destruct (decide (k = e_key e)) as [->|Hne]; [simpl; left|]. destruct (Hu _ Hne) as (_ & Hiu & Hus).
    rewrite Hiu in Huse. simpl. right. apply Hk in Huse as (x & -> & Hx)%list_elem_of_fmap.
    + apply list_elem_of_fmap_2. by apply elem_of_drop_key.
    + destruct Hsz as [?|Hsz]; [by left|right]. rewrite Hus in Hsz.
      assert (size (used_since k es) ≤ size ({[e_key e]} ∪ used_since k es))%nat by (apply subseteq_size; set_solver). lia.
Qed.

Lemma recency_evicted es l : recency es l → 0 < maxEntries → Z.of_nat (length l) = maxEntries + 1 →
  recency es (take (length l - 1) l).
Proof using Type.
  intros [Hnd Hst Hfr Hk] Hmax Hlen. assert (sublist (take (length l - 1) l) l) as Hsub by apply sublist_take.
  split.
  - eapply sublist_NoDup; [exact Hnd|]. by apply fmap_sublist.
  - intros x Hx. apply Hst. by eapply elem_of_sublist.
  - intros i j x y Hi Hj Hlt. destruct (sublist_order _ l i j x y Hsub Hi Hj Hlt) as (i' & j' & Hi' & Hj' & Hlt'). by eapply Hfr.
  - intros k Huse Hsz. pose proof (Hk k Huse Hsz) as (x & -> & Hx)%list_elem_of_fmap.
    apply list_elem_of_lookup in Hx as [i Hi]. pose proof (lookup_lt_Some _ _ _ Hi) as Hlt.
    destruct (decide (i = length l - 1)%nat) as [->|Hne].
    + exfalso. destruct Hsz as [?|Hsz]; [lia|].
      assert (length l - 1 ≤ size (used_since (e_key x) es))%nat; [|lia].
      assert (length (e_key <$> take (length l - 1) l) = length l - 1)%nat as <- by (rewrite length_fmap, length_take; lia).
      rewrite <-(size_list_to_set (C:=gset K) (e_key <$> take (length l - 1) l))
        by (eapply sublist_NoDup; [exact Hnd|by apply fmap_sublist]).
      apply subseteq_size. intros k' Hk'%elem_of_list_to_set. apply list_elem_of_fmap in Hk' as (y & -> & Hy).
      apply list_elem_of_lookup in Hy as [j Hj]. apply lookup_take_Some in Hj as [Hj Hjl]. by apply (Hfr (length l - 1)%nat j x y).
    + apply list_elem_of_fmap_2, (list_elem_of_lookup_2 _ i). apply lookup_take_Some. split; [done|]. lia.
Qed.

Lemma recency_missed es l k now : recency es l → recency (Loaded k now false :: es) (drop_key k l).
Proof using Type.
  intros [Hnd Hst Hfr Hk]. split.
  - by apply drop_key_keys.
  - intros x [Hne Hin]%elem_of_drop_key. simpl. by apply Hst.
  - intros i j x y Hi Hj Hlt. simpl.
    destruct (sublist_order (drop_key k l) l i j x y) as (i' & j' & Hi' & Hj' & Hlt'); [apply sublist_filter|done..|]. by eapply Hfr.
  - intros k'. simpl. case_bool_decide as Heq; [done|]. intros Huse Hsz.
    pose proof (Hk k' Huse Hsz) as (x & -> & Hx)%list_elem_of_fmap. apply list_elem_of_fmap_2. by apply elem_of_drop_key.
Qed.

Lemma drop_key_absent k l : k ∉ e_key <$> l → drop_key k l = l.
Proof using Type.
  intros Hk. unfold drop_key. induction l as [|x l IH]; [done|]. rewrite filter_cons, decide_True.
  - f_equal. apply IH. intros Hin. apply Hk. by right.
  - intros Heq. apply Hk. rewrite <-Heq. left.
Qed.
Lemma drop_key_shorter k l : (length (drop_key k l) ≤ length l)%nat ∧ (k ∈ e_key <$> l → length (drop_key k l) < length l)%nat.
Proof using Type.
  unfold drop_key. split; [apply length_filter|]. intros (x & -> & Hx)%list_elem_of_fmap. eapply length_filter_lt; [exact Hx|]. naive_solver.
Qed.

Definition bounded (l : list lru_entry) : Prop := 0 < maxEntries → Z.of_nat (length l) ≤ maxEntries.

Lemma runs_recency es c : runs es c → ∃ l, stands_for c l ∧ recency es l ∧ bounded l.
Proof using Type.
  induction 1 as [|es c k now _ (l & Hst & Hrc & Hb)|es c k v now _ (l & Hst & Hrc & Hb)].
  - exists []. split; [apply stands_New|]. split; [|unfold bounded; simpl; lia].
    split; [constructor|intros e He; by apply not_elem_of_nil in He|done|done].
  - destruct (Load_stands now k c l Hst) as [-> Hst']. exists (sLoad now k l).2. split; [done|].
    unfold sLoad in *. destruct (find_key k l) as [e|] eqn:Hf.
    + apply find_key_Some in Hf as [Hin Hk]. subst k. destruct (drop_key_shorter (e_key e) l) as [Hle Hlt].
      specialize (Hlt (list_elem_of_fmap_2 e_key l e Hin)). destruct (expired _ _); simpl.
      * split; [by apply recency_missed|]. intros Hm. specialize (Hb Hm). lia.
      * split; [|intros Hm; specialize (Hb Hm); simpl; lia].
        eapply recency_used; [| |exact Hrc].
        -- intros k' Hne. simpl. by rewrite !bool_decide_eq_false_2.
        -- simpl. by apply (rc_stored _ _ Hrc).
    + simpl. split; [|done].
      rewrite <-(drop_key_absent k l) by by apply find_key_None. by apply recency_missed.
  - exists (sStore now k v l). split; [by apply Store_stands|].
    assert (recency (Stored k v now :: es) (mkEntry k v now :: drop_key k l)) as Hused.
    { apply (recency_used es _ l (mkEntry k v now)); [|simpl; by rewrite bool_decide_eq_true_2|done].
      intros k' Hne. simpl. by rewrite !bool_decide_eq_false_2. }
    unfold sStore. destruct (find_key k l) as [e|] eqn:Hf.
    + apply find_key_Some in Hf as [Hin Hk]. subst k. destruct (drop_key_shorter (e_key e) l) as [_ Hlt].
      specialize (Hlt (list_elem_of_fmap_2 e_key l e Hin)). split; [done|]. intros Hm. specialize (Hb Hm). simpl. lia.
    + rewrite (drop_key_absent k l) in Hused by by apply find_key_None. cbn [length].
      destruct (decide (0 < maxEntries)) as [Hm|Hm].
      * rewrite (bool_decide_eq_true_2 (0 < maxEntries)) by done. specialize (Hb Hm). case_bool_decide as Hover; cbn [andb].
        -- pose proof (recency_evicted _ _ Hused Hm) as He. cbn [length] in He. split; [apply He; lia|].
           intros _. rewrite length_take. cbn [length]. lia.
        -- split; [done|]. intros _. cbn [length]. lia.
      * rewrite (bool_decide_eq_false_2 (0 < maxEntries)) by done. cbn [andb]. split; [done|]. intros Hm'. lia.
Qed.

(** Of any history of calls: the cache never holds more than its bound; Load answers only what the newest
    Store of the key stored, and only while that has not expired; and it does answer it, if the key was a store
    or a hit when it was last heard of and fewer other keys than the bound were used since. *)
Theorem lru_keeps_what_is_recent es c : runs es c →
  (0 < maxEntries → Z.of_nat (length (ll c)) ≤ maxEntries)
  ∧ (∀ k now v, (Load now k c).1 = Some v → ∃ t, newest_store k es = Some (v, t) ∧ expired now t = false)
  ∧ (∀ k now v t, in_use k es = true → newest_store k es = Some (v, t) → expired now t = false →
       maxEntries ≤ 0 ∨ Z.of_nat (size (used_since k es)) < maxEntries → (Load now k c).1 = Some v).
Proof using Type.
  intros (l & Hst & Hrc & Hb)%runs_recency. split_and!.
  - intros Hm. rewrite (Forall2_length _ _ _ (st_view _ _ Hst)). by apply Hb.
  - intros k now v. destruct (Load_stands now k c l Hst) as [-> _]. unfold sLoad.
    destruct (find_key k l) as [e|] eqn:Hf; [|done]. apply find_key_Some in Hf as [Hin <-].
    destruct (expired now (e_storedAt e)) eqn:He; [done|]. intros [= <-]. exists (e_storedAt e).
    split; [by apply (rc_stored _ _ Hrc)|done].
  - intros k now v t Huse Hn He Hsz. destruct (Load_stands now k c l Hst) as [-> _]. unfold sLoad.
    pose proof (rc_kept _ _ Hrc k Huse Hsz) as (e & Hk & Hin)%list_elem_of_fmap.
    rewrite (find_key_unique k l e (rc_keys _ _ Hrc) Hin) by done.
    pose proof (rc_stored _ _ Hrc e Hin) as Hst'. rewrite <-Hk, Hn in Hst'. injection Hst' as -> ->. by rewrite He.
Qed.
End lru.

Lemma lru_keeps_what_is_recent_witness :
  let c := Store 2 12 3 "c" (Load 5 11 1 (Store 2 10 2 "b" (Store 2 9 1 "a" NewCache))).2 in
  (Load 5 14 1 c).1 = Some "a" ∧ (Load 5 14 2 c).1 = None ∧ (Load 5 15 1 c).1 = None.
Proof.
  set (c2 := Store 2 10 2 "b" (Store 2 9 1 "a" (NewCache (K:=Z)))). cbn zeta.
  assert (runs 2 5 [Stored 2 "b" 10; Stored 1 "a" 9] c2) as H2 by apply runs_store, runs_store, runs_new.
  pose proof (runs_load 2 5 _ c2 1 11 H2) as H3.
  assert (bool_decide (is_Some (Load 5 11 1 c2).1) = true) as Hb by by vm_compute. rewrite Hb in H3.
  pose proof (runs_store 2 5 _ _ 3 "c" 12 H3) as Hr.
  split_and!; [|by vm_compute|by vm_compute].
  destruct (lru_keeps_what_is_recent 2 5 _ _ Hr) as (_ & _ & Hkept).
  apply (Hkept 1 14 "a" 9); [by vm_compute..|]. right. by vm_compute.
Defined.

End Lru.
