(* ===== verification/Doorbell.v ===== *)
(** * The doorbell and the claim skip ([enqueueStep], [enqueueStepDue], the crew's callback)

    A step that becomes due on this replica is offered to the candidate cache at once, so that the next hop of a
    chain does not wait for a cycle of the piston; a worker that pops a candidate skips it where a
    sibling is claiming it already.  The two meet in the claims tracker: a step that is offered again
    still carries the reservation of its first dispatch.  The world is the cache, the tracker and the
    flags that say which shards this replica dispatches; the row is what the lookup of [enqueueStep]
    answers, [None] where it fails or finds nothing.  Log lines, the metric and the fault seam are left out. *)

From S2P Require Import Prelude Candidates.
From S2P Require Caches.

#[local] Open Scope Z_scope.

Import Caches.Tracker.

Record world := mkWorld { w_cache : Cache; w_claims : tracker; w_dispatches : Z → bool }.

(** The columns of the lookup: the priority, and how long until [not_before] where there is one. *)
Record due_row := mkDueRow { du_priority : Z; du_delay : option Z }.

Definition ring (shard stepID priority : Z) (w : world) : bool * world :=
  let '(admitted, c) := Offer (mkJob stepID shard 0) priority (w_cache w) in
  (admitted, mkWorld c (w_claims w) (w_dispatches w)).

Definition enqueueStepDue (shard stepID priority : Z) (w : world) : bool * world :=
  if negb (w_dispatches w shard) then (false, w) else ring shard stepID priority w.

Definition not_due (row : option due_row) : bool :=
  match row ≫= du_delay with Some d => bool_decide (0 < d) | None => false end.

Definition enqueueStep (shard stepID : Z) (row : option due_row) (w : world) : bool * world :=
  let w := mkWorld (w_cache w) (RelinquishClaim (shard, stepID) (w_claims w)) (w_dispatches w) in
  if negb (w_dispatches w shard) then (false, w) else
  if not_due row then (false, w) else
  ring shard stepID (match row with Some r => du_priority r | None => MaxInt end) w.

(** Where a retry without a backoff has put its step back. *)
Definition reoffer (shard stepID priority : Z) (w : world) : bool * world :=
  enqueueStepDue shard stepID priority (mkWorld (w_cache w) (RelinquishClaim (shard, stepID) (w_claims w)) (w_dispatches w)).

(** A worker after its pop: it runs the step, or a sibling has it. *)
Definition crew_callback (now : Z) (j : Job) (w : world) : bool * world :=
  let '(ok, x) := TryClaim now (Shard j, StepID j) (w_claims w) in (ok, mkWorld (w_cache w) x (w_dispatches w)).

(** A worker pops from the shard it took a turn for. *)
Definition take_from (shard : Z) (w : world) : option (Job * world) :=
  match TryPopFrom shard (w_cache w) with Some (j, _, c) => Some (j, mkWorld c (w_claims w) (w_dispatches w)) | None => None end.

(** ** Lemmas *)

Definition free (k : key) (x : tracker) : Prop := (k ∉ curr x) ∧ (k ∉ prev x).

Lemma roll_keeps now' k y : now' = stamp y ∨ now' = stamp y + 1 → k ∈ curr y → k ∈ curr (rollMaps now' y) ∨ k ∈ prev (rollMaps now' y).
Proof.
  intros Hn Hk. unfold rollMaps. case_bool_decide; [by left|]. case_bool_decide; simpl; [by right|]. lia.
Qed.

Lemma roll_free now k x : free k x → free k (rollMaps now x) ∧ stamp (rollMaps now x) = now.
Proof. unfold rollMaps, free. intros [Hc Hp]. repeat case_bool_decide; simpl; split_and!; try done; set_solver. Qed.

(** A key without a reservation is claimed, and refused from then on, this second and the next. *)
Lemma free_claims now k x : free k x → (TryClaim now k x).1 = true ∧
  ∀ now', now' = now ∨ now' = now + 1 → (TryClaim now' k (TryClaim now k x).2).1 = false.
Proof.
  intros [[Hc Hp] Hst]%(roll_free now). unfold TryClaim at 1 3. rewrite !bool_decide_eq_false_2 by done. simpl. split; [done|]. intros now' Hn.
  set (y := mk _ _ _). assert (k ∈ curr y) as Hk by (by apply elem_of_union_l, elem_of_singleton).
  unfold TryClaim. destruct (roll_keeps now' k y) as [H|H]; [simpl; by rewrite Hst|done| |].
  - by rewrite (bool_decide_eq_true_2 (k ∈ curr _)).
  - by rewrite (bool_decide_eq_true_2 (k ∈ prev _)), orb_true_r.
Qed.

Lemma relinquish_free k x : free k (RelinquishClaim k x).
Proof. unfold free, RelinquishClaim. simpl. set_solver. Qed.

Definition ready (shard : Z) (w : world) : Prop :=
  w_dispatches w shard = true ∧ closed (w_cache w) = false ∧ items (part_of shard (w_cache w)) = [].

(** An offer to an empty partition is the next job popped from it. *)
Lemma ring_is_next shard stepID priority w : closed (w_cache w) = false → items (part_of shard (w_cache w)) = [] →
  ∃ w1, ring shard stepID priority w = (true, w1) ∧ w_claims w1 = w_claims w ∧
        ∃ w2, take_from shard w1 = Some (mkJob stepID shard priority, w2) ∧ w_claims w2 = w_claims w ∧ items (part_of shard (w_cache w2)) = [].
Proof.
  intros Hc Hi. unfold ring, Offer. rewrite Hc. simpl. rewrite bool_decide_eq_true_2 by done. eexists. split; [reflexivity|]. split; [done|].
  unfold take_from, TryPopFrom, put_part. simpl. rewrite Hc, lookup_insert_eq. simpl. eexists. split; [reflexivity|]. split; [done|].
  unfold part_of. simpl. by rewrite lookup_insert_eq.
Qed.

(** ** The step that was rung for *)

(** The offer was taken up, the candidate is the next one popped from its shard, the worker that pops it runs it,
    and a sibling that meets the step again this second or the next does not. *)
Definition next_to_run (now shard : Z) (j : Job) (bw : bool * world) : Prop :=
  bw.1 = true ∧ ∃ w2, take_from shard bw.2 = Some (j, w2) ∧ (crew_callback now j w2).1 = true ∧
    ∀ now', now' = now ∨ now' = now + 1 → (crew_callback now' j (crew_callback now j w2).2).1 = false.

Lemma callback_claims now j w : (crew_callback now j w).1 = (TryClaim now (Shard j, StepID j) (w_claims w)).1 ∧
  w_claims (crew_callback now j w).2 = (TryClaim now (Shard j, StepID j) (w_claims w)).2.
Proof. unfold crew_callback. by destruct (TryClaim _ _ _). Qed.

Lemma ring_runs now shard stepID priority w : ready shard w → free (shard, stepID) (w_claims w) →
  next_to_run now shard (mkJob stepID shard priority) (ring shard stepID priority w).
Proof.
  intros (_ & Hc & Hi) Hf. destruct (ring_is_next shard stepID priority w Hc Hi) as (w1 & -> & _ & w2 & Ht & Hcl & _).
  split; [done|]. exists w2. split; [done|]. destruct (callback_claims now (mkJob stepID shard priority) w2) as [-> H2]. simpl in *.
  rewrite Hcl in *. destruct (free_claims now _ _ Hf) as [H3 H4]. split; [done|]. intros now' Hn.
  destruct (callback_claims now' (mkJob stepID shard priority) (crew_callback now (mkJob stepID shard priority) w2).2) as [-> _].
  rewrite H2. by apply H4.
Qed.

(** C22. A step that is rung for runs at once, and once.  On a shard this replica dispatches, while the cache is open and no
    candidate of that shard is waiting in it (behind one that is, an offer takes its turn or is declined), the step that the
    doorbell looks up is the next candidate popped and the worker that pops it runs it, although this replica claimed
    the step a moment ago; its siblings leave it alone for a second at least; and so is the step a retry puts
    back.  Without dropping the reservation the candidate would be popped and skipped.  On a shard this replica does not dispatch, and for a
    step that is not due, the cache stays as it was. *)
Theorem a_rung_step_is_run shard stepID row priority now w :
  (w_dispatches w shard = false ∨ not_due row = true →
     (enqueueStep shard stepID row w).1 = false ∧ w_cache (enqueueStep shard stepID row w).2 = w_cache w) ∧
  (w_dispatches w shard = false → enqueueStepDue shard stepID priority w = (false, w)) ∧
  (ready shard w →
     (not_due row = false →
        next_to_run now shard (mkJob stepID shard (from_option du_priority MaxInt row)) (enqueueStep shard stepID row w)) ∧
     next_to_run now shard (mkJob stepID shard priority) (reoffer shard stepID priority w) ∧
     ((TryClaim now (shard, stepID) (w_claims w)).1 = false →
        ∃ w1 w2, enqueueStepDue shard stepID priority w = (true, w1) ∧ take_from shard w1 = Some (mkJob stepID shard priority, w2) ∧
          items (part_of shard (w_cache w2)) = [] ∧ (crew_callback now (mkJob stepID shard priority) w2).1 = false)).
Proof.
  split; [|split].
  - intros H. unfold enqueueStep. simpl. destruct (w_dispatches w shard); simpl; [|done]. destruct H as [?| ->]; done.
  - intros H. unfold enqueueStepDue. by rewrite H.
  - intros Hr. pose proof Hr as (Hd & Hc & Hi). split; [|split].
    + intros Hn. unfold enqueueStep. simpl. rewrite Hd, Hn. simpl.
      replace (match row with Some r => du_priority r | None => MaxInt end) with (from_option du_priority MaxInt row) by (by destruct row).
      apply ring_runs; [done|apply relinquish_free].
    + unfold reoffer, enqueueStepDue. simpl. rewrite Hd. simpl. apply ring_runs; [done|apply relinquish_free].
    + intros Hk. unfold enqueueStepDue. rewrite Hd. simpl.
      destruct (ring_is_next shard stepID priority w Hc Hi) as (w1 & -> & _ & w2 & Ht & Hcl & Hi2). exists w1, w2. split_and!; [done..|].
      destruct (callback_claims now (mkJob stepID shard priority) w2) as [-> _]. simpl. by rewrite Hcl.
Qed.

(** A replica that dispatches shard 1 and claimed step 42 in second 7. *)
Definition rung : world := mkWorld (Init 4 (mkCache ∅ 0 0 false)) (TryClaim 7 (1, 42) (NewTracker 7)).2 (λ s, bool_decide (s = 1)).

Lemma a_rung_step_is_run_witness : ready 1 rung ∧ not_due (Some (mkDueRow 5 (Some (-3)))) = false ∧ w_dispatches rung 2 = false ∧
  next_to_run 7 1 (mkJob 42 1 5) (enqueueStep 1 42 (Some (mkDueRow 5 (Some (-3)))) rung) ∧ next_to_run 7 1 (mkJob 42 1 5) (reoffer 1 42 5 rung) ∧
  enqueueStepDue 2 42 5 rung = (false, rung) ∧
  ∃ w1 w2, enqueueStepDue 1 42 5 rung = (true, w1) ∧ take_from 1 w1 = Some (mkJob 42 1 5, w2) ∧ (crew_callback 8 (mkJob 42 1 5) w2).1 = false.
Proof.
  assert (ready 1 rung) as Hr by (split_and!; by vm_compute).
  assert (not_due (Some (mkDueRow 5 (Some (-3)))) = false) as Hn by (by vm_compute).
  destruct (a_rung_step_is_run 1 42 (Some (mkDueRow 5 (Some (-3)))) 5 7 rung) as (_ & _ & H).
  destruct (a_rung_step_is_run 1 42 None 5 8 rung) as (_ & _ & H8).
  destruct (a_rung_step_is_run 2 42 None 5 7 rung) as (_ & H2 & _).
  destruct (H Hr) as (Ha & Hb & _). destruct (H8 Hr) as (_ & _ & Hs).
  split_and!; [done|done|by vm_compute|by apply Ha|exact Hb|by apply H2|].
  destruct (Hs ltac:(by vm_compute)) as (w1 & w2 & ? & ? & _ & ?). by exists w1, w2.
Defined.
