(* ===== verification/Fork.v ===== *)
(** * Forking a flow ([engine/fork.go])

    Fork clones the tree of a stopped flow up to a chosen step and runs it again from there.  The rows strictly
    downstream of the step are left out, the cohorts' counters are recomputed for what was kept, and the callers
    above the step are parked again.  The origin is only read.

    A row carries the columns Fork decides about; the payload columns ride the [INSERT ... SELECT], and the
    columns that are copied from the root to every row are left out. *)

From S2P Require Import Prelude StepRow Graph Validate FanInMap Routing Cohort.

#[local] Open Scope Z_scope.

(** ** The rows *)

Record frow := mkFRow {
  fr_flow : Z;
  fr_task : string;
  fr_ordinal : nat;
  fr_depth : nat;
  fr_lineage : Z;
  fr_pred : Z;
  fr_succ : Z;
  fr_status : status_t;
  fr_parked : park;
  fr_size : nat;
  fr_arrivals : nat;
  fr_failures : nat;
  fr_cancellations : nat;
  fr_refs : gmap string Z
}.

Record fflow := mkFFlow {
  ff_status : status_t;
  ff_parent : Z;
  ff_caller : Z;
  ff_root : Z;
  ff_step : Z;
  ff_delete_after : Z
}.

(** The tables, with the next ids the database will give. *)
Record tables := mkTables { t_flows : gmap Z fflow; t_steps : gmap Z frow; next_flow : Z; next_step : Z }.

Inductive fork_error := ForkNotFound | ForkConflict | ForkInterrupted (id : Z) | ForkDangling (id : Z) (field : string) | ForkDiverges.

(** [ORDER BY step_id] over the rows of one flow. *)
Definition by_id (a b : Z * frow) : Prop := a.1 ≤ b.1.
#[export] Instance by_id_dec a b : Decision (by_id a b).
Proof. unfold by_id. apply _. Defined.
Definition flow_steps (t : tables) (flowID : Z) : list (Z * frow) :=
  merge_sort by_id (filter (λ e, fr_flow e.2 = flowID) (map_to_list (t_steps t))).

Definition mem (l : list Z) (x : Z) : bool := bool_decide (x ∈ l).

(** ** What is downstream *)

(** The query of one level: the successors of the frontier, and the rows that name it as predecessor. *)
Definition successors (t : tables) (frontier : list Z) : list Z :=
  omap (λ x, r ← t_steps t !! x; if bool_decide (fr_succ r = 0) then None else Some (fr_succ r)) frontier.
Definition dag_next (t : tables) (rows : list (Z * frow)) (frontier : list Z) : list Z :=
  (filter (λ e, (mem (successors t frontier) e.1 || mem frontier (fr_pred e.2)) = true) rows).*1.

(** [collectDAGSubtree]: breadth first by levels; the start itself is not collected. *)
Fixpoint collect (t : tables) (rows : list (Z * frow)) (fuel : nat) (frontier visited collected : list Z) : option (list Z) :=
  match frontier with
  | [] => Some collected
  | _ =>
      match fuel with
      | O => None
      | S fuel =>
          let new := filter (λ x, mem visited x = false) (dag_next t rows frontier) in
          collect t rows fuel new (new ++ visited) (collected ++ new)
      end
  end.
Definition collectDAGSubtree (t : tables) (flowID start : Z) : option (list Z) :=
  let rows := flow_steps t flowID in collect t rows (S (length rows)) [start] [start] [].

(** ** The cohorts of what was kept *)

Section cohorts.
Context (keep : list (Z * frow)) (rewind : Z).

Definition childrenByPred (x : Z) : list (Z * frow) := filter (λ e, fr_pred e.2 = x) keep.
Definition lineageOf (x : Z) : Z := default 0 (fr_lineage ∘ snd <$> head (filter (λ e, e.1 = x) keep)).

(** [inCohort]: the lineage chain reaches the spawn; a chain that does not end does not. *)
Fixpoint inCohort (fuel : nat) (spawn lineageID : Z) : bool :=
  match fuel with
  | O => false
  | S fuel => if bool_decide (lineageID = 0) then false
              else bool_decide (lineageID = spawn) || inCohort fuel spawn (lineageOf lineageID)
  end.

(** What a branch came to: a failure, a cancellation, the rewound step in it. *)
Record branch := mkBranch { b_failed : bool; b_cancelled : bool; b_rewound : bool }.
Definition visit_row (e : Z * frow) (b : branch) : branch :=
  mkBranch (b_failed b || bool_decide (fr_status e.2 = StatusFailed))
           (b_cancelled b || bool_decide (fr_status e.2 = StatusCancelled))
           (b_rewound b || bool_decide (e.1 = rewind)).

(** The walk of one branch; the stack's top comes first. *)
Fixpoint walk_branch (fuel : nat) (spawn : Z) (stack : list (Z * frow)) (b : branch) : option branch :=
  match stack with
  | [] => Some b
  | n :: stack =>
      match fuel with
      | O => None
      | S fuel =>
          let cs := filter (λ c, inCohort (S (length keep)) spawn (fr_lineage c.2) = true) (childrenByPred n.1) in
          walk_branch fuel spawn (rev cs ++ stack) (visit_row n b)
      end
  end.

(** The counters of one spawn: arrivals, failures, cancellations. *)
Definition count_branch (b : branch) (c : nat * nat * nat) : nat * nat * nat :=
  let '(a, f, x) := c in
  if b_rewound b then c
  else (S a, (if b_failed b || b_cancelled b then S f else f), (if b_cancelled b && negb (b_failed b) then S x else x)).
Definition heads (spawn : Z) : list (Z * frow) := filter (λ e, fr_lineage e.2 = spawn) (childrenByPred spawn).
Fixpoint count_heads (spawn : Z) (hs : list (Z * frow)) (c : nat * nat * nat) : option (nat * nat * nat) :=
  match hs with
  | [] => Some c
  | h :: hs => b ← walk_branch (S (length keep)) spawn [h] (mkBranch false false false); count_heads spawn hs (count_branch b c)
  end.
Definition cohort_counts (spawn : Z) : option (nat * nat * nat) := count_heads spawn (heads spawn) (0, 0, 0)%nat.
End cohorts.

(** ** One flow *)

Definition set_fstatus (st : status_t) (p : park) (r : frow) : frow :=
  mkFRow (fr_flow r) (fr_task r) (fr_ordinal r) (fr_depth r) (fr_lineage r) (fr_pred r) (fr_succ r) st p
    (fr_size r) (fr_arrivals r) (fr_failures r) (fr_cancellations r) (fr_refs r).
Definition set_counts (c : nat * nat * nat) (r : frow) : frow :=
  let '(a, f, x) := c in
  mkFRow (fr_flow r) (fr_task r) (fr_ordinal r) (fr_depth r) (fr_lineage r) (fr_pred r) (fr_succ r) (fr_status r) (fr_parked r)
    (fr_size r) a f x (fr_refs r).

(** A kept step that had not settled is frozen as terminated. *)
Definition straggler (rewind id : Z) (r : frow) : bool := negb (bool_decide (id = rewind)) && negb (terminal (fr_status r)).
Definition normalize (rewind : Z) (e : Z * frow) : Z * frow :=
  (e.1, if straggler rewind e.1 e.2 then set_fstatus StatusTerminated (fr_parked e.2) e.2 else e.2).

(** The references of a row, moved to the clone; an anchor that is not in it is an error. *)
Definition remap (idMap : gmap Z Z) (x : Z) : Z := default 0 (idMap !! x).
Definition dangling (idMap : gmap Z Z) (r : frow) : option string :=
  head (filter (λ e, remap idMap e.2 = 0) (map_to_list (fr_refs r))).*1.
Definition copy_row (idMap : gmap Z Z) (newFlow : Z) (r : frow) : frow :=
  mkFRow newFlow (fr_task r) (fr_ordinal r) (fr_depth r) (remap idMap (fr_lineage r)) (remap idMap (fr_pred r))
    (remap idMap (fr_succ r)) (fr_status r) (fr_parked r) (fr_size r) (fr_arrivals r) (fr_failures r) 0
    (remap idMap <$> fr_refs r).

(** The rewind's row: the fork's own step is gated and cleared, a caller parks again. *)
Definition reset_leaf (r : frow) : frow :=
  mkFRow (fr_flow r) (fr_task r) (fr_ordinal r) (fr_depth r) (fr_lineage r) (fr_pred r) 0 StatusCreated parkedNone 0 0 0 0 ∅.
Definition repark (r : frow) : frow :=
  mkFRow (fr_flow r) (fr_task r) (fr_ordinal r) (fr_depth r) (fr_lineage r) (fr_pred r) 0 StatusRunning parkedSubgraph
    (fr_size r) (fr_arrivals r) (fr_failures r) (fr_cancellations r) (fr_refs r).

Definition clone_row (keep : list (Z * frow)) (idMap : gmap Z Z) (rewind : Z) (leaf : bool) (newFlow : Z) (e : Z * frow)
    : result fork_error frow :=
  let '(id, r) := e in
  match dangling idMap r with
  | Some field => Err (ForkDangling id field)
  | None =>
      let r' := copy_row idMap newFlow r in
      let r' := if straggler rewind id r then set_fstatus StatusTerminated parkedNone r' else r' in
      match if bool_decide (fr_size r = 0%nat) then Some r' else (λ c, set_counts c r') <$> cohort_counts (normalize rewind <$> keep) rewind id with
      | None => Err ForkDiverges
      | Some r' => Ok (if bool_decide (id = rewind) then if leaf then reset_leaf r' else repark r' else r')
      end
  end.

Fixpoint clone_rows (f : Z * frow → result fork_error frow) (next : Z) (l : list (Z * frow)) (m : gmap Z frow)
    : result fork_error (gmap Z frow) :=
  match l with
  | [] => Ok m
  | e :: l => r ←? f e; clone_rows f (next + 1) l (<[next := r]> m)
  end.

(** The ids the inserts return, in the order of the kept rows. *)
Fixpoint number (next : Z) (l : list (Z * frow)) : gmap Z Z :=
  match l with
  | [] => ∅
  | e :: l => <[e.1 := next]> (number (next + 1) l)
  end.

(** ** The tree *)

Record forkClone := mkClone { leafFlowID : Z; leafStepID : Z; rewindByFlow : gmap Z Z; newLeafStepID : Z; newRootFlowID : Z }.
Record forkChild := mkChild { originFlowID : Z; newSurgFlowID : Z; newSurgStepID : Z; isRoot : bool }.

(** The direct children of a flow by caller; the last flow that names a caller wins. *)
Definition childByCaller (t : tables) (flowID caller : Z) : option Z :=
  last (merge_sort Z.le (filter (λ e, ff_parent e.2 = flowID ∧ ff_caller e.2 = caller) (map_to_list (t_flows t))).*1).

(** [cloneOneFlow]. *)
Definition cloneOneFlow (t : tables) (cc : forkClone) (it : forkChild) : result fork_error (tables * forkClone * Z * list forkChild) :=
  let rewind := default 0 (rewindByFlow cc !! originFlowID it) in
  let leaf := bool_decide (originFlowID it = leafFlowID cc) && bool_decide (rewind = leafStepID cc) in
  match if bool_decide (rewind = 0) then Some [] else collectDAGSubtree t (originFlowID it) rewind, t_flows t !! originFlowID it with
  | None, _ => Err ForkDiverges
  | _, None => Err ForkNotFound
  | Some pruned, Some fl =>
      let keep := filter (λ e, mem pruned e.1 = false) (flow_steps t (originFlowID it)) in
      match head (filter (λ e, fr_status e.2 = StatusInterrupted ∧ e.1 ≠ rewind) keep) with
      | Some (id, _) => Err (ForkInterrupted id)
      | None =>
          let newFlow := next_flow t in
          let cc := if isRoot it then mkClone (leafFlowID cc) (leafStepID cc) (rewindByFlow cc) (newLeafStepID cc) newFlow else cc in
          let idMap := number (next_step t) keep in
          steps ←? clone_rows (clone_row keep idMap rewind leaf newFlow) (next_step t) keep (t_steps t);
          let status := if isRoot it || negb (bool_decide (rewind = 0)) then StatusRunning else ff_status fl in
          let current := if isRoot it || negb (bool_decide (rewind = 0)) then remap idMap rewind else remap idMap (ff_step fl) in
          let new := mkFFlow status (newSurgFlowID it) (newSurgStepID it) (newRootFlowID cc) current 0 in
          let children := omap (λ e, if bool_decide (originFlowID it = leafFlowID cc) && bool_decide (e.1 = leafStepID cc) then None
                                     else c ← childByCaller t (originFlowID it) e.1;
                                          Some (mkChild c newFlow (remap idMap e.1) false)) keep in
          let cc := if leaf then mkClone (leafFlowID cc) (leafStepID cc) (rewindByFlow cc) (remap idMap rewind) (newRootFlowID cc) else cc in
          Ok (mkTables (<[newFlow := new]> (t_flows t)) steps (next_flow t + 1) (next_step t + Z.of_nat (length keep)), cc, newFlow, children)
      end
  end.

(** [cloneTree]: an explicit stack, its top first; the children of a flow are popped in their order. *)
Fixpoint cloneTree (fuel : nat) (t : tables) (cc : forkClone) (stack : list forkChild) (root : Z) : result fork_error (tables * forkClone * Z) :=
  match stack with
  | [] => Ok (t, cc, root)
  | it :: stack =>
      match fuel with
      | O => Err ForkDiverges
      | S fuel =>
          '(t, cc, newFlow, children) ←? cloneOneFlow t cc it;
          cloneTree fuel t cc (children ++ stack) (if isRoot it then newFlow else root)
      end
  end.

(** ** [forkFlow] *)

(** The flows above the leaf with the caller step in each. *)
Fixpoint fork_chain (t : tables) (fuel : nat) (cur : Z) : list (Z * Z) :=
  match fuel with
  | O => []
  | S fuel =>
      match t_flows t !! cur with
      | Some fl => if bool_decide (ff_parent fl = 0) then [] else (ff_parent fl, ff_caller fl) :: fork_chain t fuel (ff_parent fl)
      | None => []
      end
  end.

(** The gate opens: the clone runs from its leaf. *)
Definition open_gate (r : frow) : frow :=
  if bool_decide (fr_status r = StatusCreated) then set_fstatus StatusPending (fr_parked r) r else r.

Definition forkFlow (stepID : Z) (t : tables) : result fork_error (tables * Z) :=
  match t_steps t !! stepID with
  | None => Err ForkNotFound
  | Some leaf =>
      let chain := fork_chain t (Z.to_nat (fr_flow leaf)) (fr_flow leaf) in
      let root := default (fr_flow leaf) (fst <$> last chain) in
      match t_flows t !! root with
      | None => Err ForkNotFound
      | Some fl =>
          if negb (terminal (ff_status fl)) then Err ForkConflict
          else if bool_decide (0 < ff_delete_after fl) then Err ForkConflict
          else
            let cc := mkClone (fr_flow leaf) stepID (list_to_map ((fr_flow leaf, stepID) :: chain)) 0 0 in
            '(t', cc', newRoot) ←? cloneTree (S (size (t_flows t))) t cc [mkChild root 0 0 true] 0;
            Ok (mkTables (t_flows t')
                  (alter open_gate (newLeafStepID cc') (t_steps t')) (next_flow t') (next_step t'), newRoot)
      end
  end.

(** ** Forks of a flow without subgraphs *)

Definition of_status (st : step_status) : status_t :=
  match st with Pending => StatusPending | Completed => StatusCompleted | Failed => StatusFailed | Cancelled => StatusCancelled end.
Definition to_status (st : status_t) : step_status :=
  match st with
  | StatusCreated | StatusPending | StatusRunning | StatusInterrupted => Pending
  | StatusFailed => Failed
  | StatusCancelled => Cancelled
  | StatusCompleted | StatusTerminated => Completed
  end.
Definition of_flow_status (st : flow_status) : status_t :=
  match st with FRunning => StatusRunning | FCompleted => StatusCompleted | FFailed => StatusFailed | FCancelled => StatusCancelled end.
Definition of_step (s : step) : frow :=
  mkFRow 1 (task_name s) (fan_out_ordinal s) (step_depth s) (lineage_id s) (predecessor_id s) (successor_id s) (of_status (status s))
    parkedNone (cohort_size s) (cohort_arrivals s) (cohort_failures s) (cohort_cancellations s) ∅.
Definition to_step (r : frow) : step :=
  mkStep (fr_task r) (fr_lineage r) (fr_ordinal r) (fr_depth r) (fr_pred r) (fr_succ r) (to_status (fr_status r))
    (fr_size r) (fr_arrivals r) (fr_failures r) (fr_cancellations r).

(** The tables with that one flow, and the clone as a flow of [Cohort]. *)
Definition stored (f : flow) : tables :=
  mkTables {[1 := mkFFlow (of_flow_status (f_status f)) 0 0 1 0 0]} (of_step <$> steps f) 2 (next_id f).
Definition cloned (t : tables) (root : Z) : flow :=
  mkFlow (to_step <$> filter (λ e, fr_flow e.2 = root) (t_steps t)) (next_step t) FRunning.
Definition fork (stepID : Z) (f : flow) : option flow :=
  match forkFlow stepID (stored f) with Ok (t, root) => Some (cloned t root) | Err _ => None end.

(** A run of a flow: the step, its goto and its successors. *)
Fixpoint run_flow (g : Graph) (l : list (Z * string * list string)) (f : flow) : option flow :=
  match l with
  | [] => Some f
  | (id, goto_, nexts) :: l =>
      f ← complete_step (item:=nat) g (New g) id None goto_ (plain <$> nexts) f; run_flow g l f
  end.
Definition pending_steps (f : flow) : list Z := (filter (λ e, status e.2 = Pending) (map_to_list (steps f))).*1.

(** A fan-out source with an edge straight to the fan-in, and a branch that reaches it by goto. *)
Definition direct_graph : Graph :=
  SetFanIn "J" $ AddTransition "J" END $ AddTransition "B" "J" $ AddTransitionFanOut "S" ["B"; "J"] $ NewGraph "direct".
Definition goto_graph : Graph :=
  SetFanIn "J" $ AddTransition "J" END $ AddTransition "C" "J" $ AddTransitionGoto "B" "J" $
  AddTransitionFanOut "S" ["B"; "C"] $ NewGraph "goto".
Definition direct_run : list (Z * string * list string) := [(1, "", ["B"; "J"]); (2, "", ["J"]); (3, "", [END])].
Definition goto_run : list (Z * string * list string) := [(1, "", ["B"; "C"]); (2, "J", ["J"]); (3, "", ["J"]); (4, "", [END])].

(** ** What Fork loses *)

(** The arrival of an edge straight from the fan-out to the fan-in has no branch of its own: the clone waits for it
    forever. *)
Theorem fork_loses_direct_arrivals :
  Validate (λ _, true) direct_graph = Ok tt
  ∧ (f_status <$> run_flow direct_graph direct_run (start direct_graph)) = Some FCompleted
  ∧ (f ← run_flow direct_graph direct_run (start direct_graph); f ← fork 2 f; f ← run_flow direct_graph [(5, "", ["J"])] f;
     Some (f_status f, pending_steps f)) = Some (FRunning, []).
Proof. split_and!; by vm_compute. Qed.

(** A branch that went to the fan-in by goto carries no successor: the fan-in of the origin is kept, and the clone
    runs it a second time. *)
Theorem fork_runs_fan_in_twice :
  Validate (λ _, true) goto_graph = Ok tt
  ∧ (f_status <$> run_flow goto_graph goto_run (start goto_graph)) = Some FCompleted
  ∧ (f ← run_flow goto_graph goto_run (start goto_graph); f ← fork 2 f; f ← run_flow goto_graph [(6, "J", ["J"])] f;
     Some (status <$> filter (λ e, task_name e.2 = "J") (steps f)))
    = Some {[8 := Completed; 9 := Pending]}.
Proof. split_and!; by vm_compute. Qed.
