(* ===== verification/ForkClone.v ===== *)
(** * What Fork makes

    The walks of [Fork] end on every well-formed pair of tables; the clone of one flow, the worklist of [cloneTree]
    and the whole of [forkFlow] are specified: the origin is untouched, the clone's links stay inside the clone, and
    exactly one of its steps can run. *)

From S2P Require Import Prelude StepRow Graph Validate FanInMap Routing Cohort Fork.

#[local] Open Scope Z_scope.

(** ** Well-formed tables *)

(** Ids are given in order, a predecessor is older than its step, and a child than its parent; a child names a
    step of its parent, and no step has two. *)
Record fork_ok (t : tables) : Prop := mkForkOk {
  fk_next : 0 < next_flow t ∧ 0 < next_step t;
  fk_flow : ∀ id f, t_flows t !! id = Some f → 0 < id < next_flow t ∧ 0 ≤ ff_parent f < id;
  fk_step : ∀ id r, t_steps t !! id = Some r → 0 < id < next_step t ∧ 0 ≤ fr_pred r < id ∧ is_Some (t_flows t !! fr_flow r);
  fk_caller : ∀ id f, t_flows t !! id = Some f → ff_parent f ≠ 0 →
    ∃ r, t_steps t !! ff_caller f = Some r ∧ fr_flow r = ff_parent f;
  fk_one_child : ∀ x y f g, t_flows t !! x = Some f → t_flows t !! y = Some g → ff_parent f ≠ 0 →
    ff_parent g ≠ 0 → ff_caller f = ff_caller g → x = y
}.

Lemma flow_steps_spec t flowID id r : (id, r) ∈ flow_steps t flowID ↔ t_steps t !! id = Some r ∧ fr_flow r = flowID.
Proof.
  unfold flow_steps. rewrite (merge_sort_Permutation by_id), list_elem_of_filter, elem_of_map_to_list. cbn [snd]. tauto.
Qed.
Lemma flow_steps_NoDup t flowID : NoDup (flow_steps t flowID).*1.
Proof.
  unfold flow_steps. rewrite (merge_sort_Permutation by_id). eapply sublist_NoDup; [apply (NoDup_fst_map_to_list (t_steps t))|].
  apply fmap_sublist, sublist_filter.
Qed.
Lemma NoDup_fst_filter {A} (P : Z * A → Prop) `{!∀ x, Decision (P x)} (l : list (Z * A)) : NoDup l.*1 → NoDup (filter P l).*1.
Proof. intros Hnd. eapply sublist_NoDup; [exact Hnd|]. apply fmap_sublist, sublist_filter. Qed.
Lemma NoDup_length_incl (l l' : list Z) : NoDup l → (∀ x, x ∈ l → x ∈ l') → (length l ≤ length l')%nat.
Proof.
  intros Hnd Hin. apply NoDup_incl_length; [by apply NoDup_ListNoDup|]. intros x. rewrite <-!list_elem_of_In. apply Hin.
Qed.
Lemma mem_spec l x : mem l x = true ↔ x ∈ l.
Proof. apply bool_decide_eq_true. Qed.
Lemma mem_false l x : mem l x = false ↔ x ∉ l.
Proof. apply bool_decide_eq_false. Qed.

(** ** The walks end *)

(** Every level of the downstream walk visits rows not seen before. *)
Lemma collect_total t rows fuel frontier visited collected : NoDup rows.*1 →
  (length (filter (λ x, x ∉ visited) rows.*1) < fuel)%nat →
  is_Some (collect t rows fuel frontier visited collected).
Proof.
  intros Hnd. revert frontier visited collected. induction fuel as [|fuel IH]; intros frontier visited collected Hlt; [lia|].
  cbn [collect]. destruct frontier as [|x frontier]; [by eexists|]. cbn zeta.
  set (new := filter (λ y, mem visited y = false) (dag_next t rows (x :: frontier))).
  destruct new as [|y new'] eqn:Hnew; [destruct fuel; by eexists|]. apply IH.
  assert (∀ z, z ∈ new → z ∈ rows.*1 ∧ z ∉ visited) as Hz.
  { intros z [Hm Hz]%list_elem_of_filter. split; [|by apply mem_false]. unfold dag_next in Hz.
    apply list_elem_of_fmap in Hz as (e & -> & [_ He]%list_elem_of_filter). by apply list_elem_of_fmap_2. }
  assert (filter (λ z, z ∉ (y :: new') ++ visited) rows.*1 = filter (λ z, z ∉ y :: new') (filter (λ z, z ∉ visited) rows.*1)) as ->.
  { rewrite list_filter_filter. apply list_filter_iff. intros z. rewrite elem_of_app. tauto. }
  assert (y ∈ filter (λ z, z ∉ visited) rows.*1) as Hy.
  { rewrite Hnew in Hz. apply list_elem_of_filter. by destruct (Hz y ltac:(left)). }
  pose proof (length_filter_lt (λ z, z ∉ y :: new') (filter (λ z, z ∉ visited) rows.*1) y Hy) as Hl.
  enough (length (filter (λ z, z ∉ y :: new') (filter (λ z, z ∉ visited) rows.*1)) < length (filter (λ z, z ∉ visited) rows.*1))%nat by lia.
  apply Hl. intros Hn. apply Hn. left.
Qed.

Lemma collectDAGSubtree_total t flowID start : is_Some (collectDAGSubtree t flowID start).
Proof.
  unfold collectDAGSubtree. apply collect_total; [apply flow_steps_NoDup|].
  pose proof (length_filter (λ x, x ∉ [start]) (flow_steps t flowID).*1) as H. rewrite length_fmap in H. lia.
Qed.

Section branches.
Context (keep : list (Z * frow)) (rewind spawn : Z) (Hnd : NoDup keep.*1).
Context (Hpred : ∀ id r, (id, r) ∈ keep → fr_pred r < id).

Lemma keep_functional id r r' : (id, r) ∈ keep → (id, r') ∈ keep → r = r'.
Proof using Hnd.
  intros H1 H2. apply list_elem_of_lookup in H1 as [i Hi], H2 as [j Hj].
  assert (i = j) as <-; [|congruence]. eapply (NoDup_lookup keep.*1); [done| |].
  - by rewrite list_lookup_fmap, Hi.
  - by rewrite list_lookup_fmap, Hj.
Qed.

(** The rows visited and those on the stack are all different: a row is reached through its predecessor alone. *)
Definition walk_inv (head : Z) (visited : list Z) (stack : list (Z * frow)) : Prop :=
  NoDup (visited ++ stack.*1) ∧ (∀ e, e ∈ stack → e ∈ keep) ∧ (∀ x, x ∈ visited → x ∈ keep.*1)
  ∧ (∀ x r, x ∈ visited ++ stack.*1 → (x, r) ∈ keep → x = head ∨ fr_pred r ∈ visited)
  ∧ Forall (λ x, head ≤ x) (visited ++ stack.*1).

Lemma walk_branch_total head fuel visited stack b : walk_inv head visited stack →
  (length keep < fuel + length visited)%nat → is_Some (walk_branch keep rewind fuel spawn stack b).
Proof using Hnd Hpred.
  revert visited stack b. induction fuel as [|fuel IH]; intros visited stack b (Hnd' & Hs & Hv & Hp & Hge) Hlt.
  - destruct stack as [|n stack]; [by eexists|]. exfalso.
    assert (length visited ≤ length keep)%nat; [|lia]. rewrite <-(length_fmap fst keep).
    apply NoDup_length_incl; [|done]. by apply NoDup_app in Hnd' as [? _].
  - destruct stack as [|[id r] stack]; [by eexists|]. cbn [walk_branch fst]. cbn zeta. apply (IH (visited ++ [id])); [|rewrite length_app; simpl; lia].
    set (cs := filter (λ c, inCohort keep (S (length keep)) spawn (fr_lineage c.2) = true) (childrenByPred keep id)).
    assert (∀ c, c ∈ rev cs ↔ c ∈ cs) as Hrev by (intros c; by rewrite !list_elem_of_In, <-in_rev).
    assert (∀ c, c ∈ cs → c ∈ keep ∧ fr_pred c.2 = id) as Hcs.
    { intros c [_ Hc]%list_elem_of_filter. unfold childrenByPred in Hc. apply list_elem_of_filter in Hc. naive_solver. }
    simpl in Hnd'. rewrite Forall_app in Hge. simpl in Hge. destruct Hge as [Hge1 Hge2]. apply Forall_cons in Hge2 as [Hge2 Hge3].
    assert (id ∉ visited) as Hidv.
    { intros Hin. apply NoDup_app in Hnd' as (_ & Hd & _). apply (Hd id Hin). left. }
    assert (∀ c, c ∈ cs → c.1 ∉ visited ++ id :: stack.*1) as Hnew.
    { intros [x rx] Hc Hin. destruct (Hcs _ Hc) as [Hk Hpx]. cbn [fst snd] in *.
      destruct (Hp x rx Hin Hk) as [->|Hv']; [|by rewrite Hpx in Hv'].
      pose proof (Hpred _ _ Hk). lia. }
    split_and!.
    + rewrite fmap_app, <-app_assoc. simpl.
      assert (visited ++ id :: (rev cs).*1 ++ stack.*1 ≡ₚ (rev cs).*1 ++ (visited ++ id :: stack.*1)) as ->.
      { rewrite !Permutation_middle, (Permutation_app_swap_app visited). done. }
      apply NoDup_app. split_and!; [|intros x (c & -> & Hc%Hrev)%list_elem_of_fmap; by apply Hnew|done].
      assert ((rev cs).*1 ≡ₚ cs.*1) as -> by (by rewrite <-(Permutation_rev cs)). unfold cs, childrenByPred.
      by do 2 apply NoDup_fst_filter.
    + intros e [He%Hrev|He]%elem_of_app; [by destruct (Hcs e He)|]. apply Hs. by right.
    + intros x [Hx| ->%list_elem_of_singleton]%elem_of_app; [by apply Hv|].
      apply (list_elem_of_fmap_2 fst keep (id, r)). apply Hs. left.
    + intros x rx Hx Hk. rewrite fmap_app, !elem_of_app in Hx. destruct Hx as [[Hx|Hx]|[Hx|Hx]].
      * destruct (Hp x rx ltac:(by apply elem_of_app; left) Hk); [by left|right; by apply elem_of_app; left].
      * destruct (Hp x rx ltac:(apply elem_of_app; right; simpl; apply elem_of_cons; left; by apply list_elem_of_singleton in Hx) Hk);
          [by left|right; by apply elem_of_app; left].
      * right. apply list_elem_of_fmap in Hx as (c & -> & Hc%Hrev). destruct (Hcs c Hc) as [Hk' Hpc].
        rewrite (keep_functional c.1 rx c.2 Hk ltac:(by destruct c)), Hpc. apply elem_of_app. right. left.
      * destruct (Hp x rx ltac:(apply elem_of_app; right; by right) Hk); [by left|right; by apply elem_of_app; left].
    + rewrite fmap_app, !Forall_app. split_and!; [done|by constructor| |done].
      apply Forall_forall. intros x (c & -> & Hc%Hrev)%list_elem_of_fmap. destruct (Hcs c Hc) as [Hk' Hpc].
      pose proof (Hpred c.1 c.2 ltac:(by destruct c)). lia.
Qed.

Lemma cohort_counts_total : is_Some (cohort_counts keep rewind spawn).
Proof using Hnd Hpred.
  unfold cohort_counts. assert (∀ h, h ∈ heads keep spawn → h ∈ keep) as Hh.
  { intros h [_ H]%list_elem_of_filter. unfold childrenByPred in H. by apply list_elem_of_filter in H as [_ ?]. }
  generalize (0, 0, 0)%nat. revert Hh. induction (heads keep spawn) as [|[id r] hs IH]; intros Hh c; [by eexists|]. cbn [count_heads].
  destruct (walk_branch_total id (S (length keep)) [] [(id, r)] (mkBranch false false false)) as [b ->].
  - split_and!; simpl; [apply NoDup_singleton| | | |by constructor].
    + intros e ->%list_elem_of_singleton. apply Hh. left.
    + intros x H. by apply not_elem_of_nil in H.
    + intros x rx ->%list_elem_of_singleton _. by left.
  - simpl. lia.
  - cbn [mbind option_bind]. apply IH. intros h Hin. apply Hh. by right.
Qed.
End branches.

(** ** The clone of one flow *)

Lemma number_lookup next l x y : number next l !! x = Some y → ∃ i e, l !! i = Some e ∧ e.1 = x ∧ y = next + Z.of_nat i.
Proof.
  revert next. induction l as [|e l IH]; intros next; simpl; [by rewrite lookup_empty|].
  intros [[<- <-]|[Hne H]]%lookup_insert_Some; [exists 0%nat, e; split_and!; [done|done|lia]|].
  destruct (IH _ H) as (i & e' & ? & ? & ->). exists (S i), e'. split_and!; [done|done|lia].
Qed.
Lemma number_index next l i e : NoDup l.*1 → l !! i = Some e → number next l !! e.1 = Some (next + Z.of_nat i).
Proof.
  revert next i. induction l as [|e' l IH]; intros next i Hnd Hi; [done|]. simpl in *. apply NoDup_cons in Hnd as [Hne Hnd].
  destruct i as [|i]; simpl in *.
  - injection Hi as ->. rewrite lookup_insert_eq. f_equal. lia.
  - rewrite lookup_insert_ne.
    + rewrite (IH (next + 1) i Hnd Hi). f_equal. lia.
    + intros Heq. apply Hne. rewrite Heq. by apply list_elem_of_fmap_2, (list_elem_of_lookup_2 _ i).
Qed.

(** A reference of the clone: none, or a row of the clone. *)
Lemma remap_range next l x : remap (number next l) x = 0 ∨ next ≤ remap (number next l) x < next + Z.of_nat (length l).
Proof.
  unfold remap. destruct (number next l !! x) as [y|] eqn:Hy; simpl; [right|by left].
  destruct (number_lookup _ _ _ _ Hy) as (i & e & Hi & _ & ->). pose proof (lookup_lt_Some _ _ _ Hi). lia.
Qed.

Lemma clone_rows_spec f next l m : match clone_rows f next l m with
  | Ok m' => (∀ i e, l !! i = Some e → ∃ r, f e = Ok r ∧ m' !! (next + Z.of_nat i) = Some r)
      ∧ (∀ id, id < next ∨ next + Z.of_nat (length l) ≤ id → m' !! id = m !! id)
  | Err err => ∃ e, e ∈ l ∧ f e = Err err
  end.
Proof.
  revert next m. induction l as [|e l IH]; intros next m; simpl; [done|].
  destruct (f e) as [r|err] eqn:Hf; simpl; [|exists e; split; [left|done]].
  specialize (IH (next + 1) (<[next := r]> m)). destruct (clone_rows f (next + 1) l (<[next := r]> m)) as [m'|err].
  - destruct IH as [H1 H2]. split.
    + intros [|i] e' Hi; simpl in Hi.
      * injection Hi as <-. exists r. split; [done|]. replace (next + Z.of_nat 0) with next by lia.
        rewrite H2 by lia. apply lookup_insert_eq.
      * destruct (H1 i e' Hi) as (r' & ? & Hr'). exists r'. split; [done|]. rewrite <-Hr'. f_equal. lia.
    + intros id Hid. rewrite H2 by lia. apply lookup_insert_ne. lia.
  - destruct IH as (e' & Hin & He'). exists e'. split; [by right|done].
Qed.

Lemma normalize_fst rewind l : (normalize rewind <$> l).*1 = l.*1.
Proof. rewrite <-list_fmap_compose. by apply list_fmap_ext. Qed.

(** A cloned row: settled, the gated leaf, or a caller that waits again; its links stay in the clone. *)
Definition closed (lo hi x : Z) : Prop := x = 0 ∨ lo ≤ x < hi.
Record row_cloned (flow lo hi : Z) (r : frow) : Prop := mkRowCloned {
  rw_flow : fr_flow r = flow;
  rw_links : closed lo hi (fr_pred r) ∧ closed lo hi (fr_succ r) ∧ closed lo hi (fr_lineage r);
  rw_refs : ∀ k a, fr_refs r !! k = Some a → lo ≤ a < hi;
  rw_status : terminal (fr_status r) = true ∨ fr_status r = StatusCreated
              ∨ fr_status r = StatusRunning ∧ fr_parked r = parkedSubgraph
}.

Lemma copy_row_links idMap next l flow r : idMap = number next l →
  closed next (next + Z.of_nat (length l)) (fr_pred (copy_row idMap flow r))
  ∧ closed next (next + Z.of_nat (length l)) (fr_succ (copy_row idMap flow r))
  ∧ closed next (next + Z.of_nat (length l)) (fr_lineage (copy_row idMap flow r)).
Proof. intros ->. simpl. split_and!; apply remap_range. Qed.

Lemma dangling_None idMap r k a : dangling idMap r = None → fr_refs r !! k = Some a → remap idMap a ≠ 0.
Proof.
  unfold dangling. intros Hd Hk H0. assert (k ∈ (filter (λ e, remap idMap e.2 = 0) (map_to_list (fr_refs r))).*1) as Hin.
  { apply list_elem_of_fmap. exists (k, a). split; [done|]. apply list_elem_of_filter. split; [done|]. by apply elem_of_map_to_list. }
  destruct (_.*1); [by apply not_elem_of_nil in Hin|done].
Qed.
Lemma dangling_Some idMap r k : dangling idMap r = Some k → ∃ a, fr_refs r !! k = Some a ∧ remap idMap a = 0.
Proof.
  unfold dangling. intros Hd. assert (k ∈ (filter (λ e, remap idMap e.2 = 0) (map_to_list (fr_refs r))).*1) as Hin.
  { destruct (_.*1); [done|]. injection Hd as ->. left. }
  apply list_elem_of_fmap in Hin as ([k' a] & -> & [H0 Hin]%list_elem_of_filter). exists a. by apply elem_of_map_to_list in Hin.
Qed.

Lemma clone_row_spec keep next rewind leaf flow id r : NoDup keep.*1 → 0 < next →
  (∀ id r, (id, r) ∈ keep → fr_pred r < id) →
  match clone_row keep (number next keep) rewind leaf flow (id, r) with
  | Ok r' => row_cloned flow next (next + Z.of_nat (length keep)) r'
      ∧ (fr_status r' = StatusCreated ↔ id = rewind ∧ leaf = true) ∧ (id = rewind → leaf = true → fr_parked r' = parkedNone)
  | Err (ForkDangling id' k) => id' = id ∧ ∃ a, fr_refs r !! k = Some a ∧ remap (number next keep) a = 0
  | Err _ => False
  end.
Proof.
  intros Hnd Hpos Hpred. unfold clone_row. destruct (dangling (number next keep) r) as [k|] eqn:Hd.
  { split; [done|]. by apply dangling_Some in Hd. }
  pose proof (copy_row_links (number next keep) next keep flow r eq_refl) as (Hp & Hs & Hl).
  assert (∀ k a, fr_refs (copy_row (number next keep) flow r) !! k = Some a → next ≤ a < next + Z.of_nat (length keep)) as Hrefs.
  { intros k a. cbn [copy_row fr_refs]. rewrite lookup_fmap. intros (b & Hb & ->)%fmap_Some. pose proof (dangling_None _ _ _ _ Hd Hb).
    by destruct (remap_range next keep b). }
  set (c := copy_row _ _ _) in *. cbn zeta.
  set (r1 := if straggler rewind id r then set_fstatus StatusTerminated parkedNone c else c).
  assert (row_cloned flow next (next + Z.of_nat (length keep)) r1 ∨ id = rewind) as Hr1.
  { destruct (decide (id = rewind)) as [|Hne]; [by right|left]. unfold r1, straggler. rewrite (bool_decide_eq_false_2 (id = rewind)) by done.
    cbn [negb andb]. destruct (terminal (fr_status r)) eqn:Ht; cbn [negb]; split; simpl; auto. }
  assert (∃ r2, (if bool_decide (fr_size r = 0%nat) then Some r1 else (λ c, set_counts c r1) <$> cohort_counts (normalize rewind <$> keep) rewind id) = Some r2
    ∧ fr_flow r2 = fr_flow r1 ∧ fr_pred r2 = fr_pred r1 ∧ fr_succ r2 = fr_succ r1 ∧ fr_lineage r2 = fr_lineage r1
    ∧ fr_refs r2 = fr_refs r1 ∧ fr_status r2 = fr_status r1 ∧ fr_parked r2 = fr_parked r1) as (r2 & -> & E1 & E2 & E3 & E4 & E5 & E6 & E7).
  { case_bool_decide; [by exists r1|]. destruct (cohort_counts_total (normalize rewind <$> keep) rewind id) as [[[a b] x] ->].
    - by rewrite normalize_fst.
    - intros x rx Hin. apply list_elem_of_fmap in Hin as ([y ry] & Heq & Hin). unfold normalize in Heq. simpl in Heq.
      injection Heq as -> ->. destruct (straggler rewind y ry); by apply (Hpred y ry).
    - by eexists. }
  assert (fr_flow r1 = flow ∧ fr_pred r1 = fr_pred c ∧ fr_succ r1 = fr_succ c ∧ fr_lineage r1 = fr_lineage c ∧ fr_refs r1 = fr_refs c) as (F1 & F2 & F3 & F4 & F5)
    by (unfold r1; by destruct (straggler rewind id r)).
  case_bool_decide as Hrw; [destruct leaf|].
  - split; [|split; [by split|done]]. split; simpl; [congruence| |by intros ? ?; rewrite lookup_empty|by right; left].
    rewrite E2, E4, F2, F4. split_and!; [done|by left|done].
  - split; [|split; [split; [done|by intros []]|done]]. split; simpl; [congruence| | |by right; right].
    + rewrite E2, E4, F2, F4. split_and!; [done|by left|done].
    + rewrite E5, F5. done.
  - destruct Hr1 as [[R1 R2 R3 R4]|?]; [|done]. split; [split|split; [|done]].
    + congruence.
    + by rewrite E2, E3, E4.
    + by rewrite E5.
    + by rewrite E6, E7.
    + split; [|by intros []]. rewrite E6. unfold r1, straggler. rewrite (bool_decide_eq_false_2 (id = rewind)) by done. cbn [negb andb].
      destruct (terminal (fr_status r)) eqn:Ht; cbn [negb]; simpl; [|done]. intros Hst. by rewrite Hst in Ht.
Qed.

(** The walk never returns where it began. *)
Lemma collect_avoids t rows fuel frontier visited collected l x : collect t rows fuel frontier visited collected = Some l →
  x ∈ visited → x ∉ collected → x ∉ l.
Proof.
  revert frontier visited collected. induction fuel as [|fuel IH]; intros frontier visited collected Hc Hv Hn;
    cbn [collect] in Hc; destruct frontier as [|y frontier]; try (by injection Hc as <-); [done|].
  eapply IH; [exact Hc| |].
  - apply elem_of_app. by right.
  - intros [?|[Hm _]%list_elem_of_filter]%elem_of_app; [done|]. by apply mem_false in Hm.
Qed.
Lemma collectDAGSubtree_start t flowID start l : collectDAGSubtree t flowID start = Some l → start ∉ l.
Proof. intros H. eapply collect_avoids; [exact H|left|apply not_elem_of_nil]. Qed.

Lemma row_cloned_mono flow lo hi lo' hi' r : lo' ≤ lo → hi ≤ hi' → row_cloned flow lo hi r → row_cloned flow lo' hi' r.
Proof.
  intros Hlo Hhi [H1 (Hp & Hs & Hl) H3 H4]. assert (∀ x, closed lo hi x → closed lo' hi' x) as Hc.
  { intros x [->|?]; [by left|right; lia]. }
  split; [done|split_and!; by apply Hc| |done]. intros k a Hk. pose proof (H3 k a Hk). lia.
Qed.

Lemma childByCaller_spec t flowID caller c : childByCaller t flowID caller = Some c →
  ∃ f, t_flows t !! c = Some f ∧ ff_parent f = flowID ∧ ff_caller f = caller.
Proof.
  unfold childByCaller. intros H%last_Some_elem_of. rewrite (merge_sort_Permutation Z.le) in H.
  apply list_elem_of_fmap in H as ([c' f] & -> & [[H1 H2] Hin]%list_elem_of_filter). exists f. by apply elem_of_map_to_list in Hin.
Qed.
Lemma childByCaller_is_Some t flowID caller c f : t_flows t !! c = Some f → ff_parent f = flowID → ff_caller f = caller →
  is_Some (childByCaller t flowID caller).
Proof.
  intros Hc Hp Hcl. unfold childByCaller. apply last_is_Some. intros Hnil.
  assert (c ∈ merge_sort Z.le (filter (λ e, ff_parent e.2 = flowID ∧ ff_caller e.2 = caller) (map_to_list (t_flows t))).*1) as Hin.
  { rewrite (merge_sort_Permutation Z.le). apply (list_elem_of_fmap_2' fst _ (c, f)); [|done]. apply list_elem_of_filter.
    split; [done|]. by apply elem_of_map_to_list. }
  rewrite Hnil in Hin. by apply not_elem_of_nil in Hin.
Qed.

Lemma clone_rows_rows keep next m rewind leaf flow steps : NoDup keep.*1 → 0 < next →
  (∀ id r, (id, r) ∈ keep → fr_pred r < id) →
  clone_rows (clone_row keep (number next keep) rewind leaf flow) next keep m = Ok steps →
  (∀ id, id < next ∨ next + Z.of_nat (length keep) ≤ id → steps !! id = m !! id)
  ∧ (∀ id, next ≤ id < next + Z.of_nat (length keep) → ∃ e r, e ∈ keep ∧ remap (number next keep) e.1 = id ∧ steps !! id = Some r
      ∧ row_cloned flow next (next + Z.of_nat (length keep)) r
      ∧ (fr_status r = StatusCreated ↔ e.1 = rewind ∧ leaf = true) ∧ (fr_status r = StatusCreated → fr_parked r = parkedNone)).
Proof.
  intros Hnd Hpos Hpred Hc. pose proof (clone_rows_spec (clone_row keep (number next keep) rewind leaf flow) next keep m) as Hs.
  rewrite Hc in Hs. destruct Hs as [Hin Hout]. split; [exact Hout|]. intros id Hid.
  destruct (lookup_lt_is_Some_2 keep (Z.to_nat (id - next))) as [[o r0] He]; [lia|].
  destruct (Hin _ _ He) as (r & Hr & Hm). replace (next + Z.of_nat (Z.to_nat (id - next))) with id in Hm by lia.
  exists (o, r0), r. pose proof (clone_row_spec keep next rewind leaf flow o r0 Hnd Hpos Hpred) as Hrow. rewrite Hr in Hrow.
  destruct Hrow as (Hrow & Hst & Hpk). split_and!; [by eapply list_elem_of_lookup_2| |done|done|done|].
  - unfold remap. rewrite (number_index _ _ _ _ Hnd He). simpl. lia.
  - intros [-> ->]%Hst. by apply Hpk.
Qed.

Lemma NoDup_omap_key {A B} (h : Z * A → option B) (g : B → Z) (l : list (Z * A)) : NoDup l.*1 →
  (∀ e e' b b', e ∈ l → e' ∈ l → h e = Some b → h e' = Some b' → g b = g b' → e.1 = e'.1) → NoDup (g <$> omap h l).
Proof.
  induction l as [|e l IH]; intros Hnd Hinj; [apply NoDup_nil_2|]. cbn [omap list_omap fmap list_fmap] in *.
  apply NoDup_cons in Hnd as [Hne Hnd].
  assert (NoDup (g <$> omap h l)) as Hrec by (apply IH; [done|]; intros; eapply Hinj; try done; by right).
  destruct (h e) as [b|] eqn:Hb; [|done]. cbn [fmap list_fmap]. apply NoDup_cons. split; [|done].
  intros (b' & Heq & (e' & He' & Hb')%list_elem_of_omap)%list_elem_of_fmap. apply Hne.
  rewrite (Hinj e e' b b' ltac:(left) ltac:(by right) Hb Hb' Heq). by apply list_elem_of_fmap_2.
Qed.

Section clone.
Context (t0 : tables) (Hok : fork_ok t0).
Context (leafFlow leafStep : Z) (rewinds : gmap Z Z).
Context (Hleaf : ∃ r, t_steps t0 !! leafStep = Some r ∧ fr_flow r = leafFlow).
Context (Hrewind : rewinds !! leafFlow = Some leafStep).

(** The clone so far, beside the origin. *)
Record extends (t : tables) : Prop := mkExtends {
  ex_next : next_flow t0 ≤ next_flow t ∧ next_step t0 ≤ next_step t;
  ex_flows : ∀ id, id < next_flow t0 → t_flows t !! id = t_flows t0 !! id;
  ex_steps : ∀ id, id < next_step t0 → t_steps t !! id = t_steps t0 !! id;
  ex_new_flow : ∀ id f, next_flow t0 ≤ id → t_flows t !! id = Some f →
    id < next_flow t ∧ ff_root f = next_flow t0 ∧ ff_delete_after f = 0
    ∧ (id = next_flow t0 ∧ ff_parent f = 0 ∧ ff_caller f = 0 ∧ ff_status f = StatusRunning
       ∨ next_flow t0 ≤ ff_parent f < id ∧ next_step t0 ≤ ff_caller f
         ∧ ∃ r, t_steps t !! ff_caller f = Some r ∧ fr_flow r = ff_parent f);
  ex_new_step : ∀ id r, next_step t0 ≤ id → t_steps t !! id = Some r →
    id < next_step t ∧ ∃ flow, next_flow t0 ≤ flow < next_flow t ∧ row_cloned flow (next_step t0) (next_step t) r;
  ex_dense : ∀ id, next_flow t0 ≤ id < next_flow t → is_Some (t_flows t !! id)
}.

Lemma extends_origin : extends t0.
Proof using Hok.
  split; [lia|done|done| | |lia].
  - intros id f Hge Hf. pose proof (fk_flow _ Hok _ _ Hf). lia.
  - intros id r Hge Hr. pose proof (fk_step _ Hok _ _ Hr). lia.
Qed.

(** The rows of an origin flow are still those of the origin. *)
Lemma extends_rows t flowID id r : extends t → flowID < next_flow t0 → (id, r) ∈ flow_steps t flowID →
  t_steps t0 !! id = Some r ∧ fr_flow r = flowID ∧ id < next_step t0.
Proof using Type.
  intros He Hlt [Hr Hf]%flow_steps_spec. destruct (decide (id < next_step t0)) as [Hid|Hid].
  - by rewrite (ex_steps _ He) in Hr.
  - destruct (ex_new_step _ He id r ltac:(lia) Hr) as (_ & flow & Hrange & Hc). pose proof (rw_flow _ _ _ _ Hc). lia.
Qed.
Lemma extends_rows_2 t id r : extends t → t_steps t0 !! id = Some r → (id, r) ∈ flow_steps t (fr_flow r).
Proof using Hok.
  intros He Hr. apply flow_steps_spec. split; [|done]. rewrite (ex_steps _ He); [done|]. pose proof (fk_step _ Hok _ _ Hr). lia.
Qed.
Lemma extends_child t flowID caller c : extends t → 0 < flowID < next_flow t0 → childByCaller t flowID caller = Some c →
  ∃ f, t_flows t0 !! c = Some f ∧ ff_parent f = flowID ∧ ff_caller f = caller.
Proof using Type.
  intros He Hlt (f & Hf & Hp & Hc)%childByCaller_spec. exists f. split; [|done].
  destruct (decide (c < next_flow t0)) as [Hid|Hid]; [by rewrite (ex_flows _ He) in Hf|].
  destruct (ex_new_flow _ He c f ltac:(lia) Hf) as (_ & _ & _ & [(_ & ? & _)|(? & _)]); lia.
Qed.

(** What Fork refuses a tree for. *)
Definition refuses (e : fork_error) : Prop :=
  match e with
  | ForkInterrupted id => ∃ r, t_steps t0 !! id = Some r ∧ fr_status r = StatusInterrupted
  | ForkDangling id field => ∃ r a, t_steps t0 !! id = Some r ∧ fr_refs r !! field = Some a
  | _ => False
  end.

Definition cc_at (cc : forkClone) : Prop := leafFlowID cc = leafFlow ∧ leafStepID cc = leafStep ∧ rewindByFlow cc = rewinds.
Definition rewind_of (flowID : Z) : Z := default 0 (rewinds !! flowID).

(** An item of the worklist hangs where its caller was cloned. *)
Definition hangs (t : tables) (cc : forkClone) (it : forkChild) : Prop :=
  is_Some (t_flows t0 !! originFlowID it)
  ∧ if isRoot it then next_flow t = next_flow t0 ∧ newSurgFlowID it = 0 ∧ newSurgStepID it = 0
    else newRootFlowID cc = next_flow t0 ∧ next_flow t0 ≤ newSurgFlowID it < next_flow t ∧ next_step t0 ≤ newSurgStepID it
         ∧ ∃ r, t_steps t !! newSurgStepID it = Some r ∧ fr_flow r = newSurgFlowID it.

(** The gated leaf: there is one once its flow is cloned, and no other row is gated. *)
Definition gate (t : tables) (cc : forkClone) (done : Prop) : Prop :=
  (done → next_step t0 ≤ newLeafStepID cc ∧ ∃ r, t_steps t !! newLeafStepID cc = Some r ∧ fr_status r = StatusCreated ∧ fr_parked r = parkedNone)
  ∧ (∀ id r, next_step t0 ≤ id → t_steps t !! id = Some r → fr_status r = StatusCreated → done ∧ id = newLeafStepID cc).

(** What is cloned below a flow: the flows its kept callers started, the one the rewound caller started among them. *)
Definition descends (t : tables) (it : forkChild) (newFlow : Z) (children : list forkChild) : Prop :=
  NoDup (originFlowID <$> children)
  ∧ (∀ c, c ∈ children → isRoot c = false ∧ newSurgFlowID c = newFlow ∧ next_step t0 ≤ newSurgStepID c
      ∧ (∃ r, t_steps t !! newSurgStepID c = Some r ∧ fr_flow r = newFlow)
      ∧ ∃ f, t_flows t0 !! originFlowID c = Some f ∧ ff_parent f = originFlowID it)
  ∧ (∀ x f, t_flows t0 !! x = Some f → ff_parent f = originFlowID it → ff_caller f = rewind_of (originFlowID it) →
      rewind_of (originFlowID it) ≠ 0 → originFlowID it ≠ leafFlow → x ∈ originFlowID <$> children).

(** The kept rows of a flow. *)
Definition kept (t : tables) (flowID : Z) (pruned : list Z) : list (Z * frow) :=
  filter (λ e, mem pruned e.1 = false) (flow_steps t flowID).
Definition children_of (t : tables) (flowID newFlow : Z) (keep : list (Z * frow)) (idMap : gmap Z Z) : list forkChild :=
  omap (λ e, if bool_decide (flowID = leafFlow) && bool_decide (e.1 = leafStep) then None
             else c ← childByCaller t flowID e.1; Some (mkChild c newFlow (remap idMap e.1) false)) keep.

Lemma kept_NoDup t flowID pruned : NoDup (kept t flowID pruned).*1.
Proof using Type. apply NoDup_fst_filter, flow_steps_NoDup. Qed.
Lemma kept_origin t flowID pruned id r : extends t → flowID < next_flow t0 → (id, r) ∈ kept t flowID pruned →
  t_steps t0 !! id = Some r ∧ fr_flow r = flowID ∧ fr_pred r < id.
Proof using Hok.
  intros He Hlt [_ Hin]%list_elem_of_filter. destruct (extends_rows _ _ _ _ He Hlt Hin) as (H1 & H2 & _).
  split_and!; [done|done|]. pose proof (fk_step _ Hok _ _ H1). lia.
Qed.
Lemma kept_start t flowID pruned r : extends t → t_steps t0 !! rewind_of flowID = Some r → fr_flow r = flowID →
  collectDAGSubtree t flowID (rewind_of flowID) = Some pruned → (rewind_of flowID, r) ∈ kept t flowID pruned.
Proof using Hok.
  intros He Hr <- Hc. apply list_elem_of_filter. split; [|by apply extends_rows_2].
  apply mem_false. by eapply collectDAGSubtree_start.
Qed.

Lemma children_descend t it newFlow keep pruned t' :
  extends t → next_step t0 ≤ next_step t → 0 < originFlowID it < next_flow t0 → keep = kept t (originFlowID it) pruned →
  (rewind_of (originFlowID it) ≠ 0 → collectDAGSubtree t (originFlowID it) (rewind_of (originFlowID it)) = Some pruned) →
  (∀ id, next_step t ≤ id < next_step t + Z.of_nat (length keep) → ∃ r, t_steps t' !! id = Some r ∧ fr_flow r = newFlow) →
  descends t' it newFlow (children_of t (originFlowID it) newFlow keep (number (next_step t) keep)).
Proof using Hok Hleaf Hrewind.
  intros He Hge Hid Hkeep Hpruned Hrows. assert (NoDup keep.*1) as Hnd by (rewrite Hkeep; apply kept_NoDup).
  assert (∀ e b, e ∈ keep → (if bool_decide (originFlowID it = leafFlow) && bool_decide (e.1 = leafStep) then None
      else c ← childByCaller t (originFlowID it) e.1; Some (mkChild c newFlow (remap (number (next_step t) keep) e.1) false)) = Some b →
      (∃ f, t_flows t0 !! originFlowID b = Some f ∧ ff_parent f = originFlowID it ∧ ff_caller f = e.1)
      ∧ b = mkChild (originFlowID b) newFlow (remap (number (next_step t) keep) e.1) false) as Hb.
  { intros e b Hin. destruct (_ && _); [done|]. destruct (childByCaller _ _ _) as [c|] eqn:Hc; [|done]. cbn. intros [= <-].
    split; [|done]. by apply (extends_child t). }
  split_and!.
  - apply NoDup_omap_key; [done|]. intros e e' b b' Hin Hin' He1 He2 Heq.
    destruct (Hb e b Hin He1) as ((f & Hf & _ & <-) & _), (Hb e' b' Hin' He2) as ((f' & Hf' & _ & <-) & _).
    rewrite Heq in Hf. by rewrite Hf in Hf'; injection Hf' as ->.
  - intros c (e & Hin & Hc)%list_elem_of_omap. destruct (Hb e c Hin Hc) as ((f & Hf & Hp & _) & ->). cbn [isRoot newSurgFlowID newSurgStepID originFlowID].
    apply list_elem_of_lookup in Hin as [i Hi]. pose proof (lookup_lt_Some _ _ _ Hi).
    assert (remap (number (next_step t) keep) e.1 = next_step t + Z.of_nat i) as -> by (unfold remap; by rewrite (number_index _ _ _ _ Hnd Hi)).
    split_and!; [done|done|lia|apply Hrows; lia|by exists f].
  - intros x f Hf Hp Hcl Hne Hnl. destruct (fk_caller _ Hok _ _ Hf ltac:(lia)) as (r & Hr & Hfr).
    rewrite Hcl in Hr. rewrite Hp in Hfr.
    assert ((rewind_of (originFlowID it), r) ∈ keep) as Hin by (rewrite Hkeep; apply kept_start; auto).
    assert (t_flows t !! x = Some f) as Hft by (rewrite (ex_flows _ He); [done|]; pose proof (fk_flow _ Hok _ _ Hf); lia).
    destruct (childByCaller_is_Some t _ _ x f Hft Hp Hcl) as [c Hc].
    destruct (extends_child t _ _ c He Hid Hc) as (g & Hg & Hpg & Hcg).
    assert (c = x) as -> by (eapply (fk_one_child _ Hok c x g f); [done|done|lia|lia|congruence]).
    apply list_elem_of_fmap. exists (mkChild x newFlow (remap (number (next_step t) keep) (rewind_of (originFlowID it))) false).
    split; [done|]. apply list_elem_of_omap. exists (rewind_of (originFlowID it), r). split; [done|].
    cbn [fst]. rewrite bool_decide_eq_false_2 by done. cbn [andb]. by rewrite Hc.
Qed.

(** The tables after one more flow. *)
Lemma extends_clone t new steps hi : extends t → next_step t ≤ hi →
  ff_root new = next_flow t0 → ff_delete_after new = 0 →
  (next_flow t = next_flow t0 ∧ ff_parent new = 0 ∧ ff_caller new = 0 ∧ ff_status new = StatusRunning
   ∨ next_flow t0 ≤ ff_parent new < next_flow t ∧ next_step t0 ≤ ff_caller new
     ∧ ∃ r, t_steps t !! ff_caller new = Some r ∧ fr_flow r = ff_parent new) →
  (∀ id, id < next_step t ∨ hi ≤ id → steps !! id = t_steps t !! id) →
  (∀ id r, next_step t ≤ id < hi → steps !! id = Some r → row_cloned (next_flow t) (next_step t) hi r) →
  extends (mkTables (<[next_flow t := new]> (t_flows t)) steps (next_flow t + 1) hi).
Proof using Hok.
  intros He Hhi Hroot Hdel Hnew Hout Hin. pose proof (ex_next _ He) as [Hf Hs].
  assert (∀ id r, t_steps t !! id = Some r → steps !! id = Some r) as Hold.
  { intros id r Hr. rewrite Hout; [done|]. left. destruct (decide (id < next_step t0)) as [|Hge]; [lia|].
    by destruct (ex_new_step _ He id r ltac:(lia) Hr). }
  split; cbn [t_flows t_steps next_flow next_step].
  - lia.
  - intros id Hlt. rewrite lookup_insert_ne by lia. by apply ex_flows.
  - intros id Hlt. rewrite Hout by lia. by apply ex_steps.
  - intros id f Hge [[<- <-]|[Hne Hlk]]%lookup_insert_Some.
    + split_and!; [lia|done|done|]. destruct Hnew as [(-> & ? & ? & ?)|(? & ? & r & Hr & ?)]; [by left|right].
      split_and!; [lia|lia|done|]. exists r. by split; [apply Hold|].
    + destruct (ex_new_flow _ He id f Hge Hlk) as (? & ? & ? & Hor). split_and!; [lia|done|done|].
      destruct Hor as [?|(? & ? & r & Hr & ?)]; [by left|right]. split_and!; [lia|lia|done|]. exists r. by split; [apply Hold|].
  - intros id r Hge Hr. destruct (decide (next_step t ≤ id < hi)) as [Hid|Hid].
    + split; [lia|]. exists (next_flow t). split; [lia|]. eapply row_cloned_mono; [| |by eapply Hin]; lia.
    + rewrite Hout in Hr by lia. destruct (ex_new_step _ He id r Hge Hr) as (? & flow & ? & Hc). split; [lia|].
      exists flow. split; [lia|]. by eapply row_cloned_mono; [| |exact Hc].
  - intros id Hid. destruct (decide (id = next_flow t)) as [->|Hne]; [by rewrite lookup_insert_eq; eexists|].
    rewrite lookup_insert_ne by done. apply ex_dense; [done|lia].
Qed.

Lemma gate_clone t t' cc cc' (done leaf : Prop) : gate t cc done → (leaf → ¬ done) → Decision leaf →
  next_step t0 ≤ next_step t →
  (∀ id, id < next_step t ∨ next_step t' ≤ id → t_steps t' !! id = t_steps t !! id) →
  (∀ id r, next_step t0 ≤ id → t_steps t !! id = Some r → id < next_step t) →
  (∀ id r, next_step t ≤ id < next_step t' → t_steps t' !! id = Some r → fr_status r = StatusCreated → leaf ∧ id = newLeafStepID cc') →
  (leaf → next_step t ≤ newLeafStepID cc' ∧ ∃ r, t_steps t' !! newLeafStepID cc' = Some r ∧ fr_status r = StatusCreated ∧ fr_parked r = parkedNone) →
  (¬ leaf → newLeafStepID cc' = newLeafStepID cc) → gate t' cc' (done ∨ leaf).
Proof using Type.
  intros [Hg1 Hg2] Hnew Hdec Hns Hout Hlt Hc Hleaf' Hsame. split.
  - intros [Hd|Hl]; [|by destruct (Hleaf' Hl) as [? ?]; split; [lia|]].
    assert (¬ leaf) as Hl by (intros Hl; by apply Hnew in Hl). rewrite (Hsame Hl).
    destruct (Hg1 Hd) as (? & r & Hr & ?). split; [done|]. exists r. split; [|done]. rewrite Hout; [done|]. left. by eapply Hlt.
  - intros id r Hge Hr Hst. destruct (decide (next_step t ≤ id < next_step t')) as [Hid|Hid].
    + destruct (Hc id r Hid Hr Hst). by split; [right|].
    + rewrite Hout in Hr by lia. destruct (Hg2 id r Hge Hr Hst) as [Hd ->]. split; [by left|]. symmetry. apply Hsame.
      intros Hl. by apply Hnew in Hl.
Qed.

(** Cloning one flow: its tables extend the clone so far, and its children hang in it. *)
Lemma cloneOneFlow_spec t cc it (done : Prop) : extends t → cc_at cc → hangs t cc it → gate t cc done →
  (originFlowID it = leafFlow → ¬ done) →
  match cloneOneFlow t cc it with
  | Ok (t', cc', newFlow, children) =>
      newFlow = next_flow t ∧ extends t' ∧ next_flow t' = next_flow t + 1
      ∧ (next_step t ≤ next_step t' ∧ ∀ id, id < next_step t → t_steps t' !! id = t_steps t !! id)
      ∧ cc_at cc' ∧ newRootFlowID cc' = next_flow t0
      ∧ gate t' cc' (done ∨ originFlowID it = leafFlow) ∧ descends t' it newFlow children
  | Err e => refuses e
  end.
Proof using Hok Hleaf Hrewind.
  intros He (Hcc1 & Hcc2 & Hcc3) [[fl Hfl] Hhang] Hgate Hnew. pose proof (ex_next _ He) as [Hnf Hns]. pose proof (fk_next _ Hok) as [Hpf Hps].
  destruct (fk_flow _ Hok _ _ Hfl) as [Hid _].
  unfold cloneOneFlow. rewrite Hcc3. fold (rewind_of (originFlowID it)). cbn zeta.
  rewrite (ex_flows _ He), Hfl by lia.
  destruct (collectDAGSubtree_total t (originFlowID it) (rewind_of (originFlowID it))) as [pruned0 Hpr].
  destruct (if bool_decide (rewind_of (originFlowID it) = 0) then Some [] else collectDAGSubtree t (originFlowID it) (rewind_of (originFlowID it)))
    as [pruned|] eqn:Hpruned; [|by case_bool_decide; simplify_eq].
  assert (rewind_of (originFlowID it) ≠ 0 → collectDAGSubtree t (originFlowID it) (rewind_of (originFlowID it)) = Some pruned) as Hprune.
  { intros H0. by rewrite bool_decide_eq_false_2 in Hpruned. }
  clear Hpruned Hpr pruned0. fold (kept t (originFlowID it) pruned). set (keep := kept t (originFlowID it) pruned).
  assert (∀ id r, (id, r) ∈ keep → t_steps t0 !! id = Some r ∧ fr_flow r = originFlowID it ∧ fr_pred r < id) as Hkeep.
  { intros id r. apply kept_origin; [done|lia]. }
  destruct (head (filter _ keep)) as [[sid sr]|] eqn:Hint.
  { assert ((sid, sr) ∈ filter (λ e, fr_status e.2 = StatusInterrupted ∧ e.1 ≠ rewind_of (originFlowID it)) keep) as [[Hst _] Hin]%list_elem_of_filter.
    { destruct (filter _ keep); [done|]. injection Hint as ->. left. }
    exists sr. by destruct (Hkeep _ _ Hin). }
  clear Hint. rewrite Hcc1, Hcc2. set (leaf := bool_decide (originFlowID it = leafFlow) && bool_decide (rewind_of (originFlowID it) = leafStep)).
  assert (leaf = true ↔ originFlowID it = leafFlow) as Hisleaf.
  { unfold leaf. rewrite andb_true_iff, !bool_decide_eq_true. split; [tauto|]. intros Heq. split; [done|]. unfold rewind_of. by rewrite Heq, Hrewind. }
  set (idMap := number (next_step t) keep).
  destruct (clone_rows (clone_row keep idMap (rewind_of (originFlowID it)) leaf (next_flow t)) (next_step t) keep (t_steps t)) as [steps|err] eqn:Hrows.
  2: { pose proof (clone_rows_spec (clone_row keep idMap (rewind_of (originFlowID it)) leaf (next_flow t)) (next_step t) keep (t_steps t)) as Hs.
    rewrite Hrows in Hs. destruct Hs as ([o r] & Hin & Hr). cbn [rbind].
    pose proof (clone_row_spec keep (next_step t) (rewind_of (originFlowID it)) leaf (next_flow t) o r ltac:(apply kept_NoDup) ltac:(lia)
      ltac:(intros; by apply (Hkeep _ _ H))) as Hrow. fold idMap in Hrow. rewrite Hr in Hrow.
    destruct err; try done. destruct Hrow as (-> & a & Ha & _). exists r, a. by destruct (Hkeep _ _ Hin). }
  cbn [rbind]. destruct (clone_rows_rows keep (next_step t) (t_steps t) (rewind_of (originFlowID it)) leaf (next_flow t) steps
    ltac:(apply kept_NoDup) ltac:(lia) ltac:(intros; by apply (Hkeep _ _ H)) Hrows) as [Hout Hin].
  set (hi := next_step t + Z.of_nat (length keep)) in *.
  assert (next_step t ≤ hi) as Hhi by (unfold hi; lia).
  assert (∀ id r, next_step t ≤ id < hi → steps !! id = Some r → row_cloned (next_flow t) (next_step t) hi r) as Hrow.
  { intros id r Hi Hr. destruct (Hin id Hi) as (e & r' & _ & _ & Hr' & Hc & _). by rewrite Hr in Hr'; injection Hr' as ->. }
  split; [done|]. split; [apply extends_clone; try done|].
  { cbn [ff_root]. revert Hhang. destruct (isRoot it); [by intros [-> _]|by intros [? _]]. }
  { cbn [ff_parent ff_caller ff_status]. revert Hhang. destruct (isRoot it); [intros (? & -> & ->); by left|intros (_ & ? & ? & ?); by right]. }
  split; [done|]. split; [split; [done|]; intros id Hlt; by apply Hout; left|].
  split; [by destruct leaf, (isRoot it)|].
  split; [revert Hhang; destruct leaf, (isRoot it); cbn [newRootFlowID]; by intros [? _]|].
  split.
  - eapply gate_clone; [exact Hgate|exact Hnew|apply _|done|exact Hout| | | |].
    + intros id r Hge Hr. by destruct (ex_new_step _ He id r Hge Hr).
    + cbn [next_step t_steps]. intros id r Hi Hr Hst. destruct (Hin id Hi) as (e & r' & He' & Hre & Hr' & _ & Hc & _).
      rewrite Hr in Hr'; injection Hr' as <-. destruct (proj1 Hc Hst) as [Hrw Hl]. split; [by apply Hisleaf|].
      rewrite Hl. cbn [newLeafStepID]. by rewrite <-Hrw.
    + cbn [next_step t_steps]. intros Hl%Hisleaf. rewrite Hl. cbn [newLeafStepID]. destruct Hleaf as (lr & Hlr & Hlf).
      pose proof (proj1 Hisleaf Hl) as Hor.
      assert (rewind_of (originFlowID it) = leafStep) as Hrw by (unfold rewind_of; by rewrite Hor, Hrewind).
      assert ((leafStep, lr) ∈ keep) as Hk.
      { rewrite <-Hrw. apply kept_start; [done|by rewrite Hrw|by rewrite Hor|]. apply Hprune. rewrite Hrw.
        destruct (fk_step _ Hok _ _ Hlr). lia. }
      apply list_elem_of_lookup in Hk as [i Hi]. pose proof (lookup_lt_Some _ _ _ Hi).
      assert (remap idMap (rewind_of (originFlowID it)) = next_step t + Z.of_nat i) as Hrm.
      { unfold remap, idMap. rewrite Hrw. by rewrite (number_index _ _ _ _ (kept_NoDup _ _ _) Hi : _ !! leafStep = _). }
      rewrite Hrm. split; [lia|]. destruct (Hin (next_step t + Z.of_nat i)) as ([o ro] & r & Hk & Hre & Hr & _ & Hc & Hpk); [unfold hi; lia|].
      exists r. split; [done|]. enough (fr_status r = StatusCreated) by (split; [done|]; by apply Hpk).
      apply Hc. split; [|done]. cbn [fst] in *. apply list_elem_of_lookup in Hk as [j Hj].
      unfold remap in Hre. rewrite (number_index _ _ _ _ (kept_NoDup _ _ _) Hj : _ !! o = _) in Hre. cbn in Hre.
      assert (j = i) as -> by lia. rewrite Hi in Hj. injection Hj as <- _. by rewrite Hrw.
    + intros Hl. destruct leaf; [by destruct Hl; apply Hisleaf|]. by destruct (isRoot it).
  - assert (omap _ keep = children_of t (originFlowID it) (next_flow t) keep idMap) as ->.
    { unfold children_of. by destruct (isRoot it); cbn [leafFlowID leafStepID]; rewrite ?Hcc1, ?Hcc2. }
    eapply children_descend; [done|done|lia|reflexivity|exact Hprune|]. intros id Hi. cbn [t_steps].
    destruct (Hin id Hi) as (e & r & _ & _ & Hr & Hc & _). exists r. split; [done|]. by destruct Hc.
Qed.

(** Above the leaf, the rewound caller of a flow started the next flow on the way down. *)
Context (Hchain : ∀ p s, rewinds !! p = Some s → p ≠ leafFlow →
  s ≠ 0 ∧ ∃ c f, t_flows t0 !! c = Some f ∧ ff_parent f = p ∧ ff_caller f = s ∧ is_Some (rewinds !! c)).

(** The worklist: no flow twice, each below one that is done, and the way down to the leaf among them. *)
Record worklist (root : Z) (visited : list Z) (stack : list Z) : Prop := mkWorklist {
  wl_nodup : NoDup (visited ++ stack);
  wl_flows : ∀ x, x ∈ visited ++ stack → ∃ f, t_flows t0 !! x = Some f ∧ (x = root ∨ ff_parent f ∈ visited);
  wl_leaf : leafFlow ∈ visited ∨ ∃ x, x ∈ stack ∧ is_Some (rewinds !! x)
}.

Lemma worklist_step root rf visited x stack t it newFlow children : t_flows t0 !! root = Some rf → ff_parent rf = 0 →
  originFlowID it = x → worklist root visited (x :: stack) →
  descends t it newFlow children → worklist root (visited ++ [x]) ((originFlowID <$> children) ++ stack).
Proof using Hchain Hleaf Hok Hrewind.
  intros Hroot Hrp Hx [Hnd Hfl Hlf] (Hcn & Hcs & Hdown). rewrite Hx in *.
  destruct (Hfl x) as (fx & Hfx & _); [apply elem_of_app; right; left|]. pose proof (fk_flow _ Hok _ _ Hfx) as [Hxid _].
  assert (∀ y, y ∈ originFlowID <$> children → ∃ f, t_flows t0 !! y = Some f ∧ ff_parent f = x) as Hch.
  { intros y (c & -> & Hc)%list_elem_of_fmap. destruct (Hcs c Hc) as (_ & _ & _ & _ & f & ? & ?). by exists f. }
  assert (x ∉ visited) as Hxv.
  { apply NoDup_app in Hnd as (_ & Hd & _). intros Hin. apply (Hd x Hin). left. }
  split.
  - assert ((visited ++ [x]) ++ (originFlowID <$> children) ++ stack ≡ₚ (originFlowID <$> children) ++ (visited ++ x :: stack)) as ->.
    { rewrite <-app_assoc. simpl. rewrite !Permutation_middle, (Permutation_app_swap_app visited). done. }
    apply NoDup_app. split_and!; [done| |done]. intros y Hy Hin. destruct (Hch y Hy) as (f & Hf & Hp).
    destruct (Hfl y Hin) as (g & Hg & Hor). rewrite Hf in Hg. injection Hg as <-.
    destruct Hor as [->|Hv]; [|by rewrite Hp in Hv]. rewrite Hroot in Hf. injection Hf as <-. lia.
  - intros y Hy. rewrite !elem_of_app in Hy.
    assert (y ∈ visited ++ x :: stack ∨ y ∈ originFlowID <$> children) as [Hy'|Hy'].
    { rewrite elem_of_app, elem_of_cons. rewrite list_elem_of_singleton in Hy. tauto. }
    + destruct (Hfl y Hy') as (f & Hf & Hor). exists f. split; [done|]. rewrite elem_of_app. tauto.
    + destruct (Hch y Hy') as (f & Hf & <-). exists f. split; [done|]. right. apply elem_of_app. right. left.
  - destruct (decide (leafFlow = x)) as [->|Hne]; [left; apply elem_of_app; right; left|].
    destruct Hlf as [Hv|(y & Hy & Hr)]; [left; apply elem_of_app; by left|]. right.
    apply elem_of_cons in Hy as [->|Hy]; [|exists y; split; [apply elem_of_app; by right|done]].
    destruct Hr as [s Hs]. destruct (Hchain x s Hs ltac:(done)) as (Hs0 & c & f & Hf & Hp & Hc & Hrc).
    exists c. split; [|done]. apply elem_of_app. left.
    assert (rewind_of x = s) as Hrw by (unfold rewind_of; by rewrite Hs). by apply (Hdown c f); rewrite ?Hrw.
Qed.

Lemma worklist_bound root visited stack : worklist root visited stack → (length visited + length stack ≤ size (t_flows t0))%nat.
Proof using Type.
  intros [Hnd Hfl _]. rewrite <-length_app, <-size_dom, <-(size_list_to_set (C:=gset Z) (visited ++ stack)) by done.
  apply subseteq_size. intros x Hx. apply elem_of_list_to_set, Hfl in Hx as (f & Hf & _). by apply elem_of_dom.
Qed.

Lemma hangs_step t t' cc cc' it : hangs t cc it → isRoot it = false → extends t →
  newRootFlowID cc' = next_flow t0 → next_flow t ≤ next_flow t' →
  (∀ id, id < next_step t → t_steps t' !! id = t_steps t !! id) → hangs t' cc' it.
Proof using Type.
  intros [Hf Hh] Hr He Hroot Hle Hold. split; [done|]. rewrite Hr in *. destruct Hh as (_ & ? & Hge & r & Hlk & ?).
  split_and!; [done|lia|lia|done|]. exists r. split; [|done]. rewrite Hold; [done|]. by destruct (ex_new_step _ He _ r Hge Hlk).
Qed.
Lemma hangs_child t cc it newFlow children c f0 : extends t → descends t it newFlow children → c ∈ children →
  newRootFlowID cc = next_flow t0 → next_flow t0 ≤ newFlow < next_flow t → f0 = originFlowID c → hangs t cc c ∧ isRoot c = false.
Proof using Type.
  intros He (_ & Hcs & _) Hc Hroot Hnew ->. destruct (Hcs c Hc) as (Hr & Hs & Hge & (r & Hlk & Hrf) & f & Hf & _).
  split; [|done]. split; [by exists f|]. rewrite Hr. split_and!; [done|lia|lia|done|]. exists r. by rewrite Hs.
Qed.

Lemma cloneTree_spec root rf fuel t cc visited stack res : t_flows t0 !! root = Some rf → ff_parent rf = 0 →
  (size (t_flows t0) < fuel + length visited)%nat →
  extends t → cc_at cc → newRootFlowID cc = next_flow t0 → gate t cc (leafFlow ∈ visited) → next_flow t0 < next_flow t →
  Forall (λ it, hangs t cc it ∧ isRoot it = false) stack → worklist root visited (originFlowID <$> stack) →
  match cloneTree fuel t cc stack res with
  | Ok (t', cc', newRoot) => newRoot = res ∧ extends t' ∧ next_flow t0 < next_flow t' ∧ gate t' cc' True
  | Err e => refuses e
  end.
Proof using Hchain Hleaf Hok Hrewind.
  intros Hroot Hrp. revert t cc visited stack. induction fuel as [|fuel IH]; intros t cc visited stack Hfuel He Hcc Hr Hg Hlt Hst Hwl;
    (destruct stack as [|it stack]; [cbn [cloneTree]; split_and!; try done; destruct (wl_leaf _ _ _ Hwl) as [Hv|(y & Hy & _)];
      [by destruct Hg as [H1 H2]; split; [intros _; by apply H1|intros id r ? ? ?; by destruct (H2 id r)]|by apply not_elem_of_nil in Hy]|]).
  { pose proof (worklist_bound _ _ _ Hwl) as Hb. simpl in Hb. lia. }
  cbn [cloneTree]. apply Forall_cons in Hst as [[Hh Hnr] Hst]. pose proof (cloneOneFlow_spec t cc it (leafFlow ∈ visited) He Hcc Hh Hg) as Hone.
  assert (originFlowID it = leafFlow → leafFlow ∉ visited) as Hnv.
  { intros <- Hin. pose proof (wl_nodup _ _ _ Hwl) as (_ & Hd & _)%NoDup_app. apply (Hd _ Hin). left. }
  specialize (Hone Hnv). destruct (cloneOneFlow t cc it) as [[[[t' cc'] newFlow] children]|e]; [|done]. cbn [rbind]. rewrite Hnr.
  destruct Hone as (-> & He' & Hnf & [Hns Hold] & Hcc' & Hr' & Hg' & Hd).
  apply (IH t' cc' (visited ++ [originFlowID it]) (children ++ stack)); [rewrite length_app; simpl; lia|done|done|done| |lia| |].
  - destruct Hg' as [H1 H2]. split.
    + intros [?| ->%list_elem_of_singleton]%elem_of_app; apply H1; [by left|by right].
    + intros id r Hge Hlk Hc. destruct (H2 id r Hge Hlk Hc) as [Hor ->]. split; [|done]. apply elem_of_app.
      rewrite list_elem_of_singleton. destruct Hor as [|<-]; [by left|by right].
  - apply Forall_app. split.
    + apply Forall_forall. intros c Hc. eapply hangs_child; [done|done|done|done|lia|done].
    + eapply Forall_impl; [exact Hst|]. intros c [Hhc Hrc]. split; [|done]. eapply hangs_step; [done|done|exact He|done|lia|done].
  - rewrite fmap_app. eapply worklist_step; done.
Qed.
End clone.

(** ** The whole fork *)

Lemma fork_chain_spec t fuel cur f : fork_ok t → t_flows t !! cur = Some f → (Z.to_nat cur ≤ fuel)%nat →
  let chain := fork_chain t fuel cur in
  (∃ rf, t_flows t !! default cur (fst <$> last chain) = Some rf ∧ ff_parent rf = 0)
  ∧ NoDup chain.*1 ∧ (∀ p s, (p, s) ∈ chain → p < cur)
  ∧ (∀ p s, (p, s) ∈ chain → s ≠ 0 ∧ ∃ c g, t_flows t !! c = Some g ∧ ff_parent g = p ∧ ff_caller g = s ∧ (c = cur ∨ c ∈ chain.*1)).
Proof.
  intros Hok. revert cur f. induction fuel as [|fuel IH]; intros cur f Hf Hfuel; destruct (fk_flow _ Hok _ _ Hf) as [Hid Hp]; [lia|].
  cbn [fork_chain]. rewrite Hf. case_bool_decide as H0; cbn zeta.
  { split_and!; [by exists f|apply NoDup_nil_2|intros ? ? H; by apply not_elem_of_nil in H|intros ? ? H; by apply not_elem_of_nil in H]. }
  destruct (fk_caller _ Hok _ _ Hf H0) as (r & Hr & Hrf). destruct (fk_step _ Hok _ _ Hr) as (Hrid & _ & [pf Hpf]). rewrite Hrf in Hpf.
  destruct (IH (ff_parent f) pf Hpf ltac:(lia)) as (Hroot & Hnd & Hlt & Hall). set (rest := fork_chain t fuel (ff_parent f)) in *.
  split_and!.
  - rewrite last_cons. destruct (last rest); exact Hroot.
  - cbn. apply NoDup_cons. split; [|done]. intros ([p s] & Heq & Hin)%list_elem_of_fmap. cbn in Heq. pose proof (Hlt p s Hin). lia.
  - intros p s [[= -> ->]|Hin]%elem_of_cons; [lia|]. pose proof (Hlt p s Hin). lia.
  - intros p s [[= -> ->]|Hin]%elem_of_cons.
    + split; [lia|]. exists cur, f. split_and!; [done|done|done|by left].
    + destruct (Hall p s Hin) as (Hs & c & g & Hg & ? & ? & Hc). split; [done|]. exists c, g. split_and!; [done..|]. right. cbn.
      rewrite elem_of_cons. destruct Hc as [->|Hc]; [by left|by right].
Qed.

(** What Fork made of the tables. *)
Record beside (t t' : tables) (root : Z) : Prop := mkBeside {
  bs_flows : ∀ id, id < next_flow t → t_flows t' !! id = t_flows t !! id;
  bs_steps : ∀ id, id < next_step t → t_steps t' !! id = t_steps t !! id;
  bs_root : root = next_flow t ∧ ∃ f, t_flows t' !! root = Some f ∧ ff_parent f = 0 ∧ ff_status f = StatusRunning;
  bs_tree : ∀ id f, next_flow t ≤ id → t_flows t' !! id = Some f → ff_root f = root ∧ ff_delete_after f = 0
    ∧ (id = root ∨ next_flow t ≤ ff_parent f < id ∧ ∃ r, t_steps t' !! ff_caller f = Some r ∧ fr_flow r = ff_parent f);
  bs_links : ∀ id r, next_step t ≤ id → t_steps t' !! id = Some r → next_flow t ≤ fr_flow r < next_flow t'
    ∧ closed (next_step t) (next_step t') (fr_pred r) ∧ closed (next_step t) (next_step t') (fr_succ r)
    ∧ closed (next_step t) (next_step t') (fr_lineage r)
    ∧ ∀ k a, fr_refs r !! k = Some a → next_step t ≤ a < next_step t';
  bs_pending : ∃ leaf r, next_step t ≤ leaf ∧ t_steps t' !! leaf = Some r ∧ fr_status r = StatusPending ∧ fr_parked r = parkedNone
    ∧ ∀ id r, next_step t ≤ id → t_steps t' !! id = Some r → id ≠ leaf →
        terminal (fr_status r) = true ∨ fr_status r = StatusRunning ∧ fr_parked r = parkedSubgraph
}.


Lemma extends_beside t t' cc : extends t t' → gate t t' cc True → next_flow t < next_flow t' →
  beside t (mkTables (t_flows t') (alter open_gate (newLeafStepID cc) (t_steps t')) (next_flow t') (next_step t')) (next_flow t).
Proof.
  intros He [Hg1 Hg2] Hlt. destruct (Hg1 I) as (Hge & lr & Hlr & Hls & Hlp). clear Hg1.
  assert (∀ id r, alter open_gate (newLeafStepID cc) (t_steps t') !! id = Some r →
    ∃ r0, t_steps t' !! id = Some r0 ∧ r = if bool_decide (id = newLeafStepID cc) then set_fstatus StatusPending parkedNone lr else r0) as Hrow.
  { intros id r. case_bool_decide as Heq.
    - subst id. rewrite lookup_alter_eq, Hlr. cbn. intros [= <-]. exists lr. split; [done|]. unfold open_gate. by rewrite bool_decide_eq_true_2, Hlp.
    - rewrite lookup_alter_ne by done. intros Hr. by exists r. }
  assert (∀ id r, t_steps t' !! id = Some r → ∃ r', alter open_gate (newLeafStepID cc) (t_steps t') !! id = Some r' ∧ fr_flow r' = fr_flow r) as Hrow2.
  { intros id r Hr. destruct (decide (id = newLeafStepID cc)) as [->|Hne].
    - rewrite lookup_alter_eq, Hr. cbn. eexists. split; [done|]. unfold open_gate. by case_bool_decide.
    - exists r. by rewrite lookup_alter_ne. }
  split; cbn [t_flows t_steps next_flow next_step].
  - apply (ex_flows _ _ He).
  - intros id Hid. rewrite lookup_alter_ne by lia. by apply (ex_steps _ _ He).
  - split; [done|]. destruct (ex_dense _ _ He (next_flow t)) as [f Hf]; [lia|]. exists f. split; [done|].
    destruct (ex_new_flow _ _ He (next_flow t) f ltac:(lia) Hf) as (_ & _ & _ & [(_ & ? & _ & ?)|(? & _)]); [done|lia].
  - intros id f Hid Hf. destruct (ex_new_flow _ _ He id f Hid Hf) as (_ & ? & ? & Hor). split_and!; [done|done|].
    destruct Hor as [(-> & _)|(? & _ & r & Hr & Hrf)]; [by left|right]. split; [done|]. destruct (Hrow2 _ _ Hr) as (r' & ? & Hr').
    exists r'. by rewrite Hr'.
  - intros id r Hid (r0 & Hr0 & ->)%Hrow. destruct (ex_new_step _ _ He id r0 Hid Hr0) as (_ & flow & Hfl & [H1 H2 H3 _]).
    assert (next_flow t ≤ fr_flow r0 < next_flow t') as Hfl' by (rewrite H1; lia). destruct H2 as (Hp & Hs & Hl).
    case_bool_decide as Heq.
    + rewrite Heq, Hlr in Hr0. injection Hr0 as ->. cbn [set_fstatus fr_flow fr_pred fr_succ fr_lineage fr_refs].
      exact (conj Hfl' (conj Hp (conj Hs (conj Hl H3)))).
    + exact (conj Hfl' (conj Hp (conj Hs (conj Hl H3)))).
  - exists (newLeafStepID cc), (set_fstatus StatusPending parkedNone lr). split; [done|]. split.
    { rewrite lookup_alter_eq, Hlr. cbn. unfold open_gate. by rewrite bool_decide_eq_true_2, Hlp. }
    split_and!; [done|done|]. intros id r Hid (r0 & Hr0 & ->)%Hrow Hne. rewrite bool_decide_eq_false_2 by done.
    destruct (ex_new_step _ _ He id r0 Hid Hr0) as (_ & flow & _ & [_ _ _ [H4|[H4|H4]]]); [by left| |by right].
    by destruct (Hg2 id r0 Hid Hr0 H4).
Qed.

(** Why a fork is refused. *)
Definition refused (t : tables) (stepID : Z) (e : fork_error) : Prop :=
  match e with
  | ForkNotFound => t_steps t !! stepID = None
  | ForkConflict => ∃ r root f, t_steps t !! stepID = Some r ∧ t_flows t !! root = Some f ∧ ff_parent f = 0
      ∧ (terminal (ff_status f) = false ∨ 0 < ff_delete_after f)
  | e => refuses t e
  end.

(** The rewinds of a fork: the leaf's flow is rewound to the step itself and every flow above it to the
    step that called the one below. *)
Lemma fork_rewinds t stepID leaf chain :
  let lF := fr_flow leaf in let rewinds := list_to_map ((lF, stepID) :: chain) : gmap Z Z in
  (∀ p s, (p, s) ∈ chain → s ≠ 0 ∧ ∃ c f, (c = lF ∨ c ∈ chain.*1) ∧ t_flows t !! c = Some f ∧ ff_parent f = p ∧ ff_caller f = s) →
  rewinds !! lF = Some stepID ∧ (∀ x, x = lF ∨ x ∈ chain.*1 → is_Some (rewinds !! x)) ∧
  (∀ p s, rewinds !! p = Some s → p ≠ lF →
     s ≠ 0 ∧ ∃ c f, t_flows t !! c = Some f ∧ ff_parent f = p ∧ ff_caller f = s ∧ is_Some (rewinds !! c)).
Proof.
  intros lF rewinds Hall.
  assert (∀ x, x = lF ∨ x ∈ chain.*1 → is_Some (rewinds !! x)) as Hdom.
  { intros x Hx. destruct (rewinds !! x) eqn:Hn; [by eexists|]. apply not_elem_of_list_to_map in Hn. destruct Hn. cbn.
    rewrite elem_of_cons. destruct Hx; [by left|by right]. }
  split_and!; [apply lookup_insert_eq|done|].
  intros p s Hps Hne. apply elem_of_list_to_map_2, elem_of_cons in Hps as [[= -> ->]|Hin]; [done|].
  destruct (Hall p s Hin) as (Hs & c & g & Hc & ? & ? & ?). split; [done|]. exists c, g. split_and!; [done..|by apply Hdom].
Qed.

(** C17. On well-formed tables a fork always answers.  It leaves every row of the origin as it was and makes a flow of its
    own: its links, callers and references name rows of the clone only, one step of it is pending and every other one
    is settled or waits for its child; or it refuses, because there is no such step, the tree still runs or is about
    to be deleted, or it holds an interrupted step or a reference out of what is kept. *)
Theorem fork_clones_beside_the_origin t stepID : fork_ok t →
  match forkFlow stepID t with
  | Ok (t', root) => beside t t' root
  | Err e => refused t stepID e
  end.
Proof.
  intros Hok. unfold forkFlow. destruct (t_steps t !! stepID) as [leaf|] eqn:Hleaf; [|done].
  destruct (fk_step _ Hok _ _ Hleaf) as (_ & _ & [lf Hlf]).
  pose proof (fork_chain_spec t (Z.to_nat (fr_flow leaf)) (fr_flow leaf) lf Hok Hlf ltac:(lia)) as (Hroot & Hnd & Hlt & Hall).
  set (chain := fork_chain t _ _) in *. set (root := default (fr_flow leaf) (fst <$> last chain)) in *. cbn zeta.
  destruct Hroot as (rf & Hrf & Hrp). rewrite Hrf.
  destruct (terminal (ff_status rf)) eqn:Hterm; [|by exists leaf, root, rf; split_and!; try done; left]. cbn [negb].
  case_bool_decide as Hdel; [by exists leaf, root, rf; split_and!; try done; right|].
  set (rewinds := list_to_map ((fr_flow leaf, stepID) :: chain) : gmap Z Z). set (cc := mkClone _ _ _ _ _).
  destruct (fork_rewinds t stepID leaf chain) as (Hrw & Hdom & Hchain); [naive_solver|].
  assert (root = fr_flow leaf ∨ root ∈ chain.*1) as Hrin.
  { unfold root. destruct (last chain) as [[p s]|] eqn:Hl; [right|by left]. apply last_Some_elem_of in Hl. by apply (list_elem_of_fmap_2 fst _ (p, s)). }
  fold rewinds in Hrw, Hdom, Hchain.
  set (lF := fr_flow leaf) in *. assert (∃ r, t_steps t !! stepID = Some r ∧ fr_flow r = lF) as Hlr by (by exists leaf).
  set (it := mkChild root 0 0 true).
  assert (hangs t t cc it) as Hh by (split; [by exists rf|done]).
  assert (gate t t cc False) as Hg0.
  { split; [done|]. intros id r Hge Hr. pose proof (fk_step _ Hok _ _ Hr). lia. }
  pose proof (cloneOneFlow_spec t Hok lF stepID rewinds Hlr Hrw t cc it False (extends_origin _ Hok) (conj eq_refl (conj eq_refl eq_refl)) Hh Hg0
    (λ _ H, H)) as Hone.
  cbn [cloneTree]. destruct (cloneOneFlow t cc it) as [[[[t1 cc1] newFlow] children]|e]; cbn [rbind]; [|by destruct e].
  destruct Hone as (-> & He & Hnf & _ & Hcc & Hr & Hg & Hd). cbn [isRoot it].
  assert (worklist t lF rewinds root ([] ++ [root]) ((originFlowID <$> children) ++ [])) as Hwl.
  { eapply (worklist_step t Hok lF stepID rewinds Hlr Hrw Hchain root rf [] root [] t1 it); [done|done|done| |exact Hd].
    split; [apply NoDup_singleton| |right; exists root; split; [left|by apply Hdom]].
    intros x ->%list_elem_of_singleton. exists rf. by split; [|left]. }
  rewrite (app_nil_r (originFlowID <$> children)) in Hwl. rewrite (app_nil_r children).
  pose proof (cloneTree_spec t Hok lF stepID rewinds Hlr Hrw Hchain root rf (size (t_flows t)) t1 cc1 [root] children (next_flow t) Hrf Hrp) as Hall'.
  specialize (Hall' ltac:(simpl; lia) He Hcc Hr).
  assert (gate t t1 cc1 (lF ∈ [root])) as Hg1.
  { destruct Hg as [G1 G2]. split; [intros Hin%list_elem_of_singleton; apply G1; by right|].
    intros id r Hge Hlk Hc. destruct (G2 id r Hge Hlk Hc) as [[[]|Heq] ->]. split; [|done]. by apply list_elem_of_singleton. }
  assert (Forall (λ c, hangs t t1 cc1 c ∧ isRoot c = false) children) as Hhs.
  { apply Forall_forall. intros c Hc. eapply hangs_child; [done|done|done|done|lia|done]. }
  specialize (Hall' Hg1 ltac:(lia) Hhs Hwl).
  destruct (cloneTree (size (t_flows t)) t1 cc1 children (next_flow t)) as [[[t2 cc2] newRoot]|e]; cbn [rbind]; [|by destruct e].
  destruct Hall' as (-> & He2 & Hlt2 & Hg2). by apply (extends_beside t t2 cc2).
Qed.

(** ** A tree to fork *)

Definition fork_okb (t : tables) : bool :=
  bool_decide (0 < next_flow t ∧ 0 < next_step t)
  && bool_decide (map_Forall (λ id f, (0 < id < next_flow t ∧ 0 ≤ ff_parent f < id)
       ∧ (ff_parent f ≠ 0 → (fr_flow <$> t_steps t !! ff_caller f) = Some (ff_parent f))
       ∧ map_Forall (λ id' g, ff_parent f ≠ 0 → ff_parent g ≠ 0 → ff_caller f = ff_caller g → id = id') (t_flows t)) (t_flows t))
  && bool_decide (map_Forall (λ id r, 0 < id < next_step t ∧ 0 ≤ fr_pred r < id ∧ is_Some (t_flows t !! fr_flow r)) (t_steps t)).
Lemma fork_okb_ok t : fork_okb t = true → fork_ok t.
Proof.
  unfold fork_okb. rewrite !andb_true_iff, !bool_decide_eq_true. intros [[Hn Hf] Hs]. split.
  - done.
  - intros id f H. apply (Hf id f H).
  - intros id r H. apply (Hs id r H).
  - intros id f H Hp. destruct (Hf id f H) as (_ & Hc & _). destruct (t_steps t !! ff_caller f) as [r|]; cbn in Hc.
    + exists r. split; [done|]. specialize (Hc Hp). congruence.
    + by specialize (Hc Hp).
  - intros x y f g Hx Hy Hp Hg Hc. destruct (Hf x f Hx) as (_ & _ & H). by apply (H y g Hy).
Qed.

Definition sample_row (flow : Z) (task : string) (depth : nat) (pred succ : Z) (refs : gmap string Z) : frow :=
  mkFRow flow task 0 depth 0 pred succ StatusCompleted parkedNone 0 0 0 0 refs.
(** A root of three steps; the second ran a subgraph of two. *)
Definition sample_tables : tables :=
  mkTables (list_to_map [(1, mkFFlow StatusCompleted 0 0 1 5 0); (2, mkFFlow StatusCompleted 1 2 1 4 0)])
    (list_to_map [(1, sample_row 1 "A" 1 0 2 ∅); (2, sample_row 1 "B" 2 1 5 {["doc" := 1]}); (3, sample_row 2 "X" 1 0 4 ∅);
                  (4, sample_row 2 "Y" 2 3 0 ∅); (5, sample_row 1 "C" 3 2 0 ∅)]) 3 6.

Lemma fork_clones_beside_the_origin_witness :
  fork_ok sample_tables ∧ ∃ t root, forkFlow 4 sample_tables = Ok (t, root) ∧ beside sample_tables t root.
Proof.
  assert (fork_ok sample_tables) as Hok by (apply fork_okb_ok; vm_compute; reflexivity). split; [exact Hok|].
  pose proof (fork_clones_beside_the_origin sample_tables 4 Hok) as H.
  assert (match forkFlow 4 sample_tables with Ok _ => true | Err _ => false end = true) as E by (vm_compute; reflexivity).
  destruct (forkFlow 4 sample_tables) as [[t root]|e]; [|discriminate E].
  exists t, root. split; [reflexivity|exact H].
Defined.
