(* ===== verification/Crew.v ===== *)
(** * The worker crew ([internal/workers])

    The demand side of dispatch: goroutines that park on the candidate cache, take a permit of the gate, pop a
    candidate and hand it to the caller's handler.  The crew grows by one when a take leaves nobody idle and shrinks
    when a worker finds itself surplus.

    Every atomic counter is read and written in a step of its own and [spawn] and [retire] are one step each, as they
    run under [spawnLock]; any number of workers interleave.  What the cache, the gate, the clock, the coin and the
    handler answer is in the labels; the two stop signals are the closing of the cache and of the gate. *)

From S2P Require Import Prelude Float64 Peers.

#[local] Open Scope Z_scope.

(** ** One worker *)

(** Where a worker stands in [work]; a worker that holds a permit says whether it has given it back. *)
Inductive wpc :=
| WTop
| WRetiring
| WParked
| WAcquiring (shard : Z)
| WPopping (shard : Z)
| WTook (shard stepID : Z)
| WGrowing (shard stepID : Z)
| WSpawning (shard stepID : Z)
| WStarting (shard stepID : Z)
| WProcessing (shard stepID held : Z) (released : bool)
| WBack
| WLeaving (counted : bool)
| WLeft
| WGone.
#[export] Instance wpc_eq_dec : EqDecision wpc.
Proof. solve_decision. Defined.

(** The locals of the loop: the start of the window it measures and the time it held a candidate since. *)
Record gopher := mkGopher { g_pc : wpc; g_window : Z; g_busy : Z }.

(** ** The crew *)

Record Crew := mkCrew {
  c_max : Z;
  c_min : Z;
  resident : Z;
  idle : Z;
  spawnClosed : bool;
  gophers : gmap nat gopher;
  next_gopher : nat;
  permits : Z;
  to_start : nat;
  cacheClosed : bool;
  gateClosed : bool
}.

(** Times are in nanoseconds. *)
Definition retireWindow : Z := 120 * 10 ^ 9.
Definition retireThreshold : float64 := fdiv f1 (of_int 2).
Definition retireChance : float64 := fdiv f1 (of_int 4).

(** [Start]: the counters are reset, the floor is set, and the resident set is spawned one by one. *)
Definition Crew_Start (max : Z) (n : nat) : Crew :=
  mkCrew (int32 (Z.max 0 max)) (int32 (Z.of_nat n)) 0 0 false ∅ 0 0 n false false.

Definition set_gopher (i : nat) (g : gopher) (c : Crew) : Crew :=
  mkCrew (c_max c) (c_min c) (resident c) (idle c) (spawnClosed c) (<[i := g]> (gophers c)) (next_gopher c) (permits c)
    (to_start c) (cacheClosed c) (gateClosed c).
Definition at_pc (p : wpc) (g : gopher) : gopher := mkGopher p (g_window g) (g_busy g).
Definition goto (i : nat) (g : gopher) (p : wpc) (c : Crew) : Crew := set_gopher i (at_pc p g) c.
Definition add_counts (r d p : Z) (c : Crew) : Crew :=
  mkCrew (c_max c) (c_min c) (resident c + r) (idle c + d) (spawnClosed c) (gophers c) (next_gopher c) (permits c + p)
    (to_start c) (cacheClosed c) (gateClosed c).

(** [spawn]: nothing while draining or at the ceiling; the new worker is counted idle before it exists. *)
Definition spawn (now : Z) (c : Crew) : Crew :=
  if spawnClosed c || bool_decide (c_max c ≤ resident c) then c
  else mkCrew (c_max c) (c_min c) (resident c + 1) (idle c + 1) (spawnClosed c)
         (<[next_gopher c := mkGopher WTop now 0]> (gophers c)) (S (next_gopher c)) (permits c)
         (to_start c) (cacheClosed c) (gateClosed c).

(** [retire]: one check and one decrement. *)
Definition retire (c : Crew) : Crew * bool :=
  if bool_decide (resident c ≤ c_min c) then (c, false) else (add_counts (-1) 0 0 c, true).

(** [considerRetirement] up to the call of [retire]: the window restarts once it is over, and the worker goes on to
    [retire] when it was busy too little and the coin says so. *)
Definition considerRetirement (now now' : Z) (roll : float64) (g : gopher) : gopher :=
  let elapsed := now - g_window g in
  if bool_decide (elapsed < retireWindow) then at_pc WParked g
  else
    let fraction := fdiv (of_int (g_busy g)) (of_int elapsed) in
    mkGopher (if fle retireThreshold fraction || fle retireChance roll then WParked else WRetiring) now' 0.

(** ** The steps *)

Inductive wlabel :=
| SpawnResident (now : Z)
| AtTop (i : nat) (now now' : Z) (roll : float64)
| DoRetire (i : nat)
| HasWork (i : nat) (shard : Z)
| NoWork (i : nat)
| Permit (i : nat)
| NoPermit (i : nat)
| TryPop (i : nat) (popped : option Z)
| TakeIdle (i : nat)
| CheckIdle (i : nat)
| DoSpawn (i : nat) (now : Z)
| BeginProcess (i : nat) (now : Z)
| ReleasePermit (i : nat)
| EndProcess (i : nat) (now : Z)
| RestoreIdle (i : nat)
| LeaveIdle (i : nat)
| LeaveResident (i : nat)
| SetMax (n : Z)
| CloseCache
| CloseGate
| DrainCrew.

Definition closing (cache gate drain : bool) (c : Crew) : Crew :=
  mkCrew (c_max c) (c_min c) (resident c) (idle c) (spawnClosed c || drain) (gophers c) (next_gopher c) (permits c)
    (to_start c) (cacheClosed c || cache) (gateClosed c || gate).

Definition on_gopher (i : nat) (c : Crew) (f : gopher → option Crew) : option Crew := g ← gophers c !! i; f g.

(** [work], statement by statement. *)
Definition crew_step (l : wlabel) (c : Crew) : option Crew :=
  match l with
  | SpawnResident now =>
      match to_start c with
      | O => None
      | S n => let c := spawn now c in
               Some (mkCrew (c_max c) (c_min c) (resident c) (idle c) (spawnClosed c) (gophers c) (next_gopher c) (permits c)
                       n (cacheClosed c) (gateClosed c))
      end
  | AtTop i now now' roll => on_gopher i c (λ g,
      match g_pc g with WTop => Some (set_gopher i (considerRetirement now now' roll g) c) | _ => None end)
  | DoRetire i => on_gopher i c (λ g,
      match g_pc g with
      | WRetiring => let '(c', gone) := retire c in Some (goto i g (if gone then WLeaving false else WParked) c')
      | _ => None
      end)
  | HasWork i shard => on_gopher i c (λ g,
      match g_pc g with WParked => if cacheClosed c then None else Some (goto i g (WAcquiring shard) c) | _ => None end)
  | NoWork i => on_gopher i c (λ g,
      match g_pc g with WParked => if cacheClosed c then Some (goto i g (WLeaving true) c) else None | _ => None end)
  | Permit i => on_gopher i c (λ g,
      match g_pc g with
      | WAcquiring shard => if gateClosed c then None else Some (goto i g (WPopping shard) (add_counts 0 0 1 c))
      | _ => None
      end)
  | NoPermit i => on_gopher i c (λ g,
      match g_pc g with WAcquiring _ => if gateClosed c then Some (goto i g (WLeaving true) c) else None | _ => None end)
  | TryPop i popped => on_gopher i c (λ g,
      match g_pc g, popped with
      | WPopping shard, Some stepID => Some (goto i g (WTook shard stepID) c)
      | WPopping _, None => Some (goto i g WTop (add_counts 0 0 (-1) c))
      | _, _ => None
      end)
  | TakeIdle i => on_gopher i c (λ g,
      match g_pc g with WTook shard stepID => Some (goto i g (WGrowing shard stepID) (add_counts 0 (-1) 0 c)) | _ => None end)
  | CheckIdle i => on_gopher i c (λ g,
      match g_pc g with
      | WGrowing shard stepID => Some (goto i g (if bool_decide (idle c = 0) then WSpawning shard stepID else WStarting shard stepID) c)
      | _ => None
      end)
  | DoSpawn i now => on_gopher i c (λ g,
      match g_pc g with WSpawning shard stepID => Some (spawn now (goto i g (WStarting shard stepID) c)) | _ => None end)
  | BeginProcess i now => on_gopher i c (λ g,
      match g_pc g with WStarting shard stepID => Some (goto i g (WProcessing shard stepID now false) c) | _ => None end)
  | ReleasePermit i => on_gopher i c (λ g,
      match g_pc g with
      | WProcessing shard stepID held released =>
          Some (goto i g (WProcessing shard stepID held true) (add_counts 0 0 (if released then 0 else -1) c))
      | _ => None
      end)
  | EndProcess i now => on_gopher i c (λ g,
      match g_pc g with
      | WProcessing shard stepID held released =>
          Some (set_gopher i (mkGopher WBack (g_window g) (g_busy g + (now - held)))
                  (add_counts 0 0 (if released then 0 else -1) c))
      | _ => None
      end)
  | RestoreIdle i => on_gopher i c (λ g,
      match g_pc g with WBack => Some (goto i g WTop (add_counts 0 1 0 c)) | _ => None end)
  | LeaveIdle i => on_gopher i c (λ g,
      match g_pc g with
      | WLeaving counted => Some (goto i g (if counted then WLeft else WGone) (add_counts 0 (-1) 0 c))
      | _ => None
      end)
  | LeaveResident i => on_gopher i c (λ g,
      match g_pc g with WLeft => Some (goto i g WGone (add_counts (-1) 0 0 c)) | _ => None end)
  | SetMax n =>
      Some (mkCrew (int32 (Z.max 0 n)) (c_min c) (resident c) (idle c) (spawnClosed c) (gophers c) (next_gopher c) (permits c)
              (to_start c) (cacheClosed c) (gateClosed c))
  | CloseCache => Some (closing true false false c)
  | CloseGate => Some (closing false true false c)
  | DrainCrew => Some (closing false false true c)
  end.

Definition crew_run (ls : list wlabel) (c : Crew) : option Crew := foldl (λ oc l, c ← oc; crew_step l c) (Some c) ls.

(** The crews a history leads to. *)
Inductive crew_steps (c0 : Crew) : list wlabel → Crew → Prop :=
| crew_steps_nil : crew_steps c0 [] c0
| crew_steps_snoc ls l c c' : crew_steps c0 ls c → crew_step l c = Some c' → crew_steps c0 (ls ++ [l]) c'.

(** ** What the counters count *)

Definition counted_idle (p : wpc) : bool :=
  match p with WTop | WRetiring | WParked | WAcquiring _ | WPopping _ | WTook _ _ | WLeaving _ => true | _ => false end.
Definition counted_resident (p : wpc) : bool := match p with WLeaving false | WGone => false | _ => true end.
Definition holds_permit (p : wpc) : bool :=
  match p with
  | WPopping _ | WTook _ _ | WGrowing _ _ | WSpawning _ _ | WStarting _ _ | WProcessing _ _ _ false => true
  | _ => false
  end.
Definition count (f : wpc → bool) (m : gmap nat gopher) : Z := map_sum (λ _ g, if f (g_pc g) then 1 else 0) m.

Record counts_ok (c : Crew) : Prop := mkCountsOk {
  co_idle : idle c = count counted_idle (gophers c);
  co_resident : resident c = count counted_resident (gophers c);
  co_permits : permits c = count holds_permit (gophers c);
  co_fresh : ∀ i, (next_gopher c ≤ i)%nat → gophers c !! i = None
}.

Lemma count_set f m i g g' : m !! i = Some g →
  count f (<[i := g']> m) = count f m - (if f (g_pc g) then 1 else 0) + (if f (g_pc g') then 1 else 0).
Proof. intros Hi. unfold count. by rewrite (map_sum_insert _ _ _ g). Qed.
Lemma count_new f m i g : m !! i = None → count f (<[i := g]> m) = (if f (g_pc g) then 1 else 0) + count f m.
Proof. intros Hi. unfold count. by rewrite map_sum_insert_new. Qed.
Lemma gophers_nonneg f m : 0 ≤ count f m.
Proof. apply map_sum_nonneg. intros _ g. by destruct (f _). Qed.
Lemma count_pos f m : 0 < count f m → ∃ i g, m !! i = Some g ∧ f (g_pc g) = true.
Proof.
  intros (i & g & Hi & Hf)%map_sum_pos; [|intros _ g; by destruct (f _)]. exists i, g. split; [done|]. by destruct (f _).
Qed.

(** A step of worker [i]: the counters move with its place. *)
Lemma counts_move c i g g' r d p : counts_ok c → gophers c !! i = Some g →
  r = (if counted_resident (g_pc g') then 1 else 0) - (if counted_resident (g_pc g) then 1 else 0) →
  d = (if counted_idle (g_pc g') then 1 else 0) - (if counted_idle (g_pc g) then 1 else 0) →
  p = (if holds_permit (g_pc g') then 1 else 0) - (if holds_permit (g_pc g) then 1 else 0) →
  counts_ok (set_gopher i g' (add_counts r d p c)).
Proof.
  intros [H1 H2 H3 H4] Hi -> -> ->. split; cbn; rewrite ?(count_set _ _ _ _ _ Hi); try lia.
  intros j Hj. rewrite lookup_insert_ne; [by apply H4|]. intros <-. by rewrite H4 in Hi.
Qed.
Lemma add_counts_0 c : add_counts 0 0 0 c = c.
Proof. destruct c. unfold add_counts. cbn. f_equal; lia. Qed.
Lemma counts_stay c i g g' : counts_ok c → gophers c !! i = Some g → counted_resident (g_pc g') = counted_resident (g_pc g) →
  counted_idle (g_pc g') = counted_idle (g_pc g) → holds_permit (g_pc g') = holds_permit (g_pc g) →
  counts_ok (set_gopher i g' c).
Proof. intros Hok Hi H1 H2 H3. rewrite <-(add_counts_0 c). eapply counts_move; [done|exact Hi|rewrite ?H1, ?H2, ?H3; lia..]. Qed.
Lemma counts_spawn c now : counts_ok c → counts_ok (spawn now c).
Proof.
  intros [H1 H2 H3 H4]. unfold spawn. destruct (_ || _); [by split|].
  split; cbn; rewrite ?count_new by (apply H4; lia); cbn; try lia.
  intros i Hi. rewrite lookup_insert_ne by lia. apply H4. lia.
Qed.
Lemma counts_ext c c' : counts_ok c → idle c' = idle c → resident c' = resident c → permits c' = permits c →
  gophers c' = gophers c → next_gopher c' = next_gopher c → counts_ok c'.
Proof. intros [H1 H2 H3 H4] E1 E2 E3 E4 E5. split; rewrite ?E1, ?E2, ?E3, ?E4, ?E5; auto. Qed.

(** The step of a worker, by where it stood. *)
Ltac crew_cases H :=
  unfold crew_step, on_gopher in H; cbn [mbind option_bind] in H;
  repeat match type of H with
  | context [gophers ?c !! ?i] => let g := fresh "g" in let Hg := fresh "Hg" in destruct (gophers c !! i) as [g|] eqn:Hg; cbn in H; [|done]
  | context [match g_pc ?g with _ => _ end] => let Hp := fresh "Hp" in destruct (g_pc g) eqn:Hp; try done
  | context [match ?x with _ => _ end] => is_var x; destruct x; try done
  | context [if ?b then None else _] => let Hb := fresh "Hb" in destruct b eqn:Hb; [done|]
  | context [if ?b then _ else None] => let Hb := fresh "Hb" in destruct b eqn:Hb; [|done]
  end.

(** A worker's own step is a move of its place and of the counters; [spawn] and the closings come on top. *)
Ltac move_place Hok Hg Hp :=
  first [eapply counts_stay; [exact Hok|exact Hg|rewrite Hp; reflexivity ..]
        |eapply counts_move; [exact Hok|exact Hg|cbn; rewrite ?Hp; reflexivity ..]].

Lemma considerRetirement_pc now now' roll g :
  g_pc (considerRetirement now now' roll g) = WParked ∨ g_pc (considerRetirement now now' roll g) = WRetiring.
Proof. unfold considerRetirement. case_bool_decide; [by left|]. cbn. destruct (_ || _); auto. Qed.

Lemma counts_step l c c' : counts_ok c → crew_step l c = Some c' → counts_ok c'.
Proof.
  intros Hok Hs. destruct l; crew_cases Hs; try injection Hs as <-;
    try (match goal with Hg : gophers c !! _ = Some ?g, Hp : g_pc ?g = _ |- _ => solve [move_place Hok Hg Hp] end);
    try (by eapply (counts_ext c)).
  - destruct (to_start c) as [|n]; [done|]. injection Hs as <-. by eapply (counts_ext (spawn now c)); [apply counts_spawn|..].
  - destruct (considerRetirement_pc now now' roll g) as [E|E]; (eapply counts_stay; [done|exact Hg|rewrite E, Hp; reflexivity ..]).
  - unfold retire in Hs. case_bool_decide; injection Hs as <-; move_place Hok Hg Hp.
  - case_bool_decide; move_place Hok Hg Hp.
  - apply counts_spawn. move_place Hok Hg Hp.
Qed.

(** ** How the bounds move *)

Definition retired (c : Crew) : Z := Z.of_nat (next_gopher c) - resident c.
Definition is_open (c : Crew) : bool := negb (spawnClosed c || cacheClosed c || gateClosed c).

(** What a step does to the resident set: nothing, one more below the ceiling, or one less. *)
Inductive bounds_move (l : wlabel) (c c' : Crew) : Prop :=
| bm_same : resident c' = resident c → next_gopher c' = next_gopher c → to_start c' = to_start c → bounds_move l c c'
| bm_spawn : resident c < c_max c → spawnClosed c = false → resident c' = resident c + 1 → next_gopher c' = S (next_gopher c) →
    (to_start c' ≤ to_start c ≤ S (to_start c'))%nat → bounds_move l c c'
| bm_refused : c_max c ≤ resident c ∨ spawnClosed c = true → resident c' = resident c → next_gopher c' = next_gopher c →
    (to_start c' ≤ to_start c ≤ S (to_start c'))%nat → bounds_move l c c'
| bm_retired i : l = DoRetire i → c_min c < resident c → resident c' = resident c - 1 → next_gopher c' = next_gopher c →
    to_start c' = to_start c → bounds_move l c c'
| bm_left i g : l = LeaveResident i → gophers c !! i = Some g → g_pc g = WLeft → resident c' = resident c - 1 →
    next_gopher c' = next_gopher c → to_start c' = to_start c → bounds_move l c c'.

Lemma spawn_cases now c :
  (c_max c ≤ resident c ∨ spawnClosed c = true) ∧ spawn now c = c
  ∨ resident c < c_max c ∧ spawnClosed c = false ∧ resident (spawn now c) = resident c + 1
    ∧ next_gopher (spawn now c) = S (next_gopher c) ∧ to_start (spawn now c) = to_start c
    ∧ gophers (spawn now c) = <[next_gopher c := mkGopher WTop now 0]> (gophers c).
Proof.
  unfold spawn. destruct (spawnClosed c) eqn:Hc; cbn [orb]; [left; by split; [right|]|].
  case_bool_decide; [left; by split; [left|]|right]. split_and!; try done; lia.
Qed.

Lemma step_bounds l c c' : crew_step l c = Some c' → bounds_move l c c'.
Proof.
  intros Hs. destruct l; crew_cases Hs; try injection Hs as <-; try (by apply bm_same; cbn; try lia).
  - destruct (to_start c) as [|n] eqn:Hn; [done|]. injection Hs as <-.
    destruct (spawn_cases now c) as [[Hor ->]|(H1 & H2 & H3 & H4 & H5 & _)].
    + apply bm_refused; cbn; [done..|lia].
    + apply bm_spawn; cbn; try done; lia.
  - unfold retire in Hs. case_bool_decide; injection Hs as <-; [by apply bm_same|]. apply (bm_retired _ _ _ i); cbn; try done; lia.
  - destruct (spawn_cases now (goto i g (WStarting shard stepID) c)) as [[Hor ->]|(H1 & H2 & H3 & H4 & H5 & _)].
    + by apply bm_same.
    + apply bm_spawn; try done. rewrite H5. cbn. lia.
  - apply (bm_left _ _ _ i g); cbn; try done; lia.
Qed.

Lemma step_bounds_fixed l c c' : crew_step l c = Some c' →
  c_min c' = c_min c ∧ c_max c' = (match l with SetMax n => int32 (Z.max 0 n) | _ => c_max c end)
  ∧ (is_open c' = true → is_open c = true).
Proof.
  assert (∀ now c, c_min (spawn now c) = c_min c ∧ c_max (spawn now c) = c_max c ∧ is_open (spawn now c) = is_open c) as Hsp.
  { intros now c0. unfold spawn. by destruct (_ || _). }
  intros Hs. destruct l; crew_cases Hs; try injection Hs as <-; try done;
    try (by cbn; unfold is_open; cbn; destruct (spawnClosed c), (cacheClosed c), (gateClosed c)).
  - destruct (to_start c) as [|n]; [done|]. injection Hs as <-. destruct (Hsp now c) as (H1 & H2 & H3). cbn. by rewrite H1, H2, <-H3.
  - unfold retire in Hs. by case_bool_decide; injection Hs as <-.
  - destruct (Hsp now (goto i g (WStarting shard stepID) c)) as (H1 & H2 & H3). rewrite H1, H2, H3. done.
Qed.

(** ** The moves of one worker *)

(** Where a worker goes from where it stands, and when. *)
Inductive pc_next (c : Crew) : wpc → wpc → Prop :=
| nx_keep : pc_next c WTop WParked
| nx_surplus : pc_next c WTop WRetiring
| nx_floor : resident c ≤ c_min c → pc_next c WRetiring WParked
| nx_retire : c_min c < resident c → pc_next c WRetiring (WLeaving false)
| nx_work shard : cacheClosed c = false → pc_next c WParked (WAcquiring shard)
| nx_no_work : cacheClosed c = true → pc_next c WParked (WLeaving true)
| nx_permit shard : gateClosed c = false → pc_next c (WAcquiring shard) (WPopping shard)
| nx_no_permit shard : gateClosed c = true → pc_next c (WAcquiring shard) (WLeaving true)
| nx_popped shard stepID : pc_next c (WPopping shard) (WTook shard stepID)
| nx_lost shard : pc_next c (WPopping shard) WTop
| nx_take shard stepID : pc_next c (WTook shard stepID) (WGrowing shard stepID)
| nx_alone shard stepID : idle c = 0 → pc_next c (WGrowing shard stepID) (WSpawning shard stepID)
| nx_peers shard stepID : idle c ≠ 0 → pc_next c (WGrowing shard stepID) (WStarting shard stepID)
| nx_spawn shard stepID : pc_next c (WSpawning shard stepID) (WStarting shard stepID)
| nx_begin shard stepID held : pc_next c (WStarting shard stepID) (WProcessing shard stepID held false)
| nx_release shard stepID held b : pc_next c (WProcessing shard stepID held b) (WProcessing shard stepID held true)
| nx_end shard stepID held b : pc_next c (WProcessing shard stepID held b) WBack
| nx_restore : pc_next c WBack WTop
| nx_leave : pc_next c (WLeaving true) WLeft
| nx_gone : pc_next c (WLeaving false) WGone
| nx_left : pc_next c WLeft WGone.

(** A step moves one worker, may start one, or only moves the bounds. *)
Inductive shape (c c' : Crew) : Prop :=
| sh_none : gophers c' = gophers c → to_start c' = to_start c → resident c' = resident c → shape c c'
| sh_resident n now : to_start c = S n → to_start c' = n → gophers c' = gophers (spawn now c) → shape c c'
| sh_move i g g' : gophers c !! i = Some g → pc_next c (g_pc g) (g_pc g') → (∀ s x, g_pc g ≠ WSpawning s x) →
    gophers c' = <[i := g']> (gophers c) → to_start c' = to_start c → shape c c'
| sh_spawn i g now s x : gophers c !! i = Some g → g_pc g = WSpawning s x →
    c' = spawn now (goto i g (WStarting s x) c) → shape c c'.

Lemma step_shape l c c' : crew_step l c = Some c' → shape c c'.
Proof.
  assert (∀ i g g' cc, gophers c !! i = Some g → pc_next c (g_pc g) (g_pc g') → (∀ s x, g_pc g ≠ WSpawning s x) →
    gophers cc = gophers c → to_start cc = to_start c → shape c (set_gopher i g' cc)) as Hm.
  { intros i g g' cc Hg Hn Hp Hgc Ht. eapply sh_move; [exact Hg|exact Hn|exact Hp|cbn; by rewrite Hgc|done]. }
  intros Hs. destruct l; crew_cases Hs; try injection Hs as <-; try (by apply sh_none);
    try (eapply Hm; [exact Hg|rewrite Hp; cbn; by constructor|by rewrite Hp|done|done]).
  - destruct (to_start c) as [|n] eqn:Hn; [done|]. injection Hs as <-. by eapply sh_resident.
  - eapply Hm; [exact Hg| |by rewrite Hp|done|done]. rewrite Hp. destruct (considerRetirement_pc now now' roll g) as [-> | ->]; constructor.
  - unfold retire in Hs. case_bool_decide; injection Hs as <-; (eapply Hm; [exact Hg|rewrite Hp; cbn; constructor; lia|by rewrite Hp|done|done]).
  - eapply Hm; [exact Hg| |by rewrite Hp|done|done]. rewrite Hp. case_bool_decide; by constructor.
  - by eapply sh_spawn.
Qed.

(** How a count of places moves. *)
Definition ind (b : bool) : Z := if b then 1 else 0.
Lemma count_zero_inv f m i g : count f m = 0 → m !! i = Some g → f (g_pc g) = false.
Proof.
  intros H0 Hi. pose proof (map_sum_elem (λ _ g, if f (g_pc g) then 1 else 0) m i g) as H. unfold count in H0.
  destruct (f (g_pc g)) eqn:E; [|done]. specialize (H ltac:(intros k g'; cbn; by destruct (f (g_pc g'))) Hi). cbn beta in H. rewrite E in H. lia.
Qed.
Lemma count_spawn f now c : counts_ok c →
  (c_max c ≤ resident c ∨ spawnClosed c = true) ∧ count f (gophers (spawn now c)) = count f (gophers c)
  ∨ count f (gophers (spawn now c)) = ind (f WTop) + count f (gophers c).
Proof.
  intros Hok. destruct (spawn_cases now c) as [[Hor ->]|(_ & _ & _ & _ & _ & ->)]; [by left|right].
  apply (count_new f _ _ (mkGopher WTop now 0)). apply (co_fresh _ Hok). lia.
Qed.

(** Workers on their way out because the cache or the gate closed. *)
Definition on_the_way_out (p : wpc) : bool := match p with WLeaving true | WLeft => true | _ => false end.

(** While the crew is open nobody is on the way out but the retired. *)
Lemma open_stays l c c' : counts_ok c → crew_step l c = Some c' → is_open c' = true →
  count on_the_way_out (gophers c) = 0 → count on_the_way_out (gophers c') = 0.
Proof.
  intros Hok Hs Ho H0. destruct (step_bounds_fixed _ _ _ Hs) as (_ & _ & Hop). specialize (Hop Ho).
  assert (cacheClosed c = false ∧ gateClosed c = false) as [Hc Hg0].
  { unfold is_open in Hop. by destruct (spawnClosed c), (cacheClosed c), (gateClosed c). }
  destruct (step_shape _ _ _ Hs) as [-> _ _|n now _ _ ->|i g g' Hg Hn _ -> _|i g now s x Hg Hp ->].
  - done.
  - destruct (count_spawn on_the_way_out now c Hok) as [[_ E]|E]; rewrite E; cbn; lia.
  - rewrite (count_set _ _ _ _ _ Hg). pose proof (count_zero_inv _ _ _ _ H0 Hg) as Hf.
    destruct Hn; try congruence; cbn in *; try lia; done.
  - assert (counts_ok (goto i g (WStarting s x) c)) as Hok' by (move_place Hok Hg Hp).
    destruct (count_spawn on_the_way_out now _ Hok') as [[_ E]|E]; rewrite E; cbn; rewrite (count_set _ _ _ _ _ Hg), Hp; cbn; lia.
Qed.

(** ** The reserve *)

(** A worker before its growth check: it takes the next candidate, or it is about to find itself alone. *)
Definition in_reserve (p : wpc) : bool :=
  match p with
  | WTop | WRetiring | WParked | WAcquiring _ | WPopping _ | WTook _ _ | WGrowing _ _ | WSpawning _ _ => true
  | _ => false
  end.

Definition reserved (c : Crew) : Prop :=
  (0 < to_start c)%nat ∨ c_max c ≤ resident c ∨ 0 < count in_reserve (gophers c).

Lemma count_elem (f : wpc → bool) (m : gmap nat gopher) i g : m !! i = Some g → (if f (g_pc g) then 1 else 0) ≤ count f m.
Proof. intros Hi. apply (map_sum_elem (λ (_ : nat) g, if f (g_pc g) then 1 else 0) m i g); [|done]. intros k g'. cbn. by destruct (f (g_pc g')). Qed.

Definition gone_for_good (p : wpc) : bool := match p with WLeaving false => true | _ => false end.

Definition committed (p : wpc) : bool := match p with WGrowing _ _ | WSpawning _ _ => true | _ => false end.

(** Idle workers are in reserve, while nobody leaves. *)
Lemma idle_in_reserve m : count on_the_way_out m = 0 → count gone_for_good m = 0 →
  count counted_idle m + count committed m ≤ count in_reserve m.
Proof.
  intros H1 H2. induction m as [|i g m Hi IH] using map_ind; [done|].
  pose proof (gophers_nonneg on_the_way_out m). pose proof (gophers_nonneg gone_for_good m).
  rewrite !count_new in * by done.
  destruct (g_pc g) as [| | | | | | | | | | |[]| |]; cbn in *; lia.
Qed.

Lemma reserve_step l c c' : counts_ok c → crew_step l c = Some c' → (∀ n, l ≠ SetMax n) → is_open c' = true →
  count on_the_way_out (gophers c) = 0 → count gone_for_good (gophers c) = 0 → retired c' = 0 → retired c = 0 →
  reserved c → reserved c' ∧ count gone_for_good (gophers c') = 0.
Proof.
  intros Hok Hs Hl Ho H0 Hr0 Hr' Hr Hres. destruct (step_bounds_fixed _ _ _ Hs) as (_ & Hmax & Hop). specialize (Hop Ho).
  assert (c_max c' = c_max c) as Hm by (destruct l; try done; by destruct (Hl n)). clear Hmax Hl.
  assert (spawnClosed c = false ∧ cacheClosed c = false ∧ gateClosed c = false) as (Hsc & Hc & Hg0).
  { unfold is_open in Hop. by destruct (spawnClosed c), (cacheClosed c), (gateClosed c). }
  unfold retired in *. assert (resident c' = resident c ∨ resident c' = resident c + 1) as Hup.
  { destruct (step_bounds _ _ _ Hs); try lia. }
  pose proof (counts_step _ _ _ Hok Hs) as Hok'. unfold reserved. rewrite Hm. destruct (step_shape _ _ _ Hs) as [-> -> ->|n now Ht Ht' ->|i g g' Hg Hn Hp Hgc ->|i g now s x Hg Hp ->].
  - by split.
  - destruct (count_spawn in_reserve now c Hok) as [[Hor E]|E]; rewrite E.
    + destruct (count_spawn gone_for_good now c Hok) as [[_ E']|E']; rewrite E'; cbn; (split; [|lia]).
      all: right; left; destruct Hor; [lia|congruence].
    + destruct (count_spawn gone_for_good now c Hok) as [[_ E']|E']; rewrite E'; cbn; (split; [|lia]).
      all: right; right; cbn; pose proof (gophers_nonneg in_reserve (gophers c)); lia.
  - pose proof (co_resident _ Hok') as Hres'. rewrite Hgc, !(count_set _ _ _ _ _ Hg) in *. rewrite <-(co_resident _ Hok) in Hres'.
    pose proof (count_zero_inv _ _ _ _ H0 Hg) as Hf. pose proof (count_zero_inv _ _ _ _ Hr0 Hg) as Hf'.
    pose proof (idle_in_reserve _ H0 Hr0) as Hidle. pose proof (co_idle _ Hok) as Hi. pose proof (gophers_nonneg counted_idle (gophers c)).
    pose proof (gophers_nonneg in_reserve (gophers c)).
    pose proof (count_elem committed _ _ _ Hg) as Hcm. pose proof (gophers_nonneg committed (gophers c)).
    unfold reserved in Hres. destruct Hn; cbn in *; try congruence; (split; [|lia]); destruct Hres as [?|[?|?]]; first [by left|right; left; lia|right; right; lia|by exfalso; eapply Hp].
  - assert (counts_ok (goto i g (WStarting s x) c)) as Hok2 by (move_place Hok Hg Hp).
    assert (count gone_for_good (gophers (goto i g (WStarting s x) c)) = 0) as Hz.
    { cbn. rewrite (count_set _ _ _ _ _ Hg), Hp. cbn. lia. }
    split; [|destruct (count_spawn gone_for_good now _ Hok2) as [[_ E]|E]; rewrite E; cbn [ind gone_for_good]; lia].
    destruct (spawn_cases now (goto i g (WStarting s x) c)) as [[Hor ->]|(_ & _ & _ & _ & -> & Hgs)].
    + destruct Hor as [Hor|Hor]; cbn in *; [|congruence]. by right; left.
    + right; right. rewrite Hgs, count_new by (apply (co_fresh _ Hok2); lia). cbn [in_reserve g_pc].
      pose proof (gophers_nonneg in_reserve (gophers (goto i g (WStarting s x) c))). lia.
Qed.

(** ** What holds of every history *)

Lemma crew_reach max n ls c : crew_steps (Crew_Start max n) ls c →
  counts_ok c ∧ (is_open c = true → count on_the_way_out (gophers c) = 0) ∧ c_min c = int32 (Z.of_nat n) ∧ 0 ≤ retired c.
Proof.
  induction 1 as [|ls l c c' Hsteps (Hok & Ho & Hm & Hr) Hs].
  - split_and!; [|done|done|done]. by split; cbn; rewrite ?map_sum_empty.
  - destruct (step_bounds_fixed _ _ _ Hs) as (Hm' & _ & Hop). split_and!.
    + by eapply counts_step.
    + intros Hopen. by eapply open_stays; eauto.
    + by rewrite Hm'.
    + unfold retired in *. destruct (step_bounds _ _ _ Hs); lia.
Qed.

(** What the ceilings set in a history keep to. *)
Definition max_label (P : Z → Prop) (l : wlabel) : Prop := match l with SetMax n => P (int32 (Z.max 0 n)) | _ => True end.

(** The counters count: [idle] the workers that hold no candidate, [resident] those that have not retired or gone, and
    every permit taken is held by one worker or given back, once.  Growth stops at the ceiling, and as long as the
    crew is open retirement leaves the resident set it was started with. *)
Theorem crew_accounts max n ls c : Z.of_nat n < 2 ^ 31 → crew_steps (Crew_Start max n) ls c →
  idle c = count counted_idle (gophers c) ∧ resident c = count counted_resident (gophers c)
  ∧ permits c = count holds_permit (gophers c)
  ∧ (∀ M, 0 ≤ M → int32 (Z.max 0 max) ≤ M → Forall (max_label (λ k, k ≤ M)) ls → resident c ≤ M)
  ∧ (Z.of_nat n ≤ int32 (Z.max 0 max) → Forall (max_label (λ k, Z.of_nat n ≤ k)) ls → is_open c = true →
     Z.of_nat n ≤ resident c + Z.of_nat (to_start c)).
Proof.
  intros Hn Hs. destruct (crew_reach _ _ _ _ Hs) as ([H1 H2 H3 _] & _). split_and!; [done|done|done| |].
  - intros M HM Hmax Hls. enough (resident c ≤ M ∧ c_max c ≤ M) by tauto. clear H1 H2 H3.
    induction Hs as [|ls l c c' Hsteps IH Hs]; [done|]. apply Forall_app in Hls as [Hls Hl]. apply Forall_cons_1 in Hl as [Hl _].
    destruct (IH Hls) as [Hr Hc]. destruct (step_bounds_fixed _ _ _ Hs) as (_ & Hm & _).
    split; [destruct (step_bounds _ _ _ Hs); lia|]. rewrite Hm. destruct l; try done; exact Hl.
  - intros Hmax Hls Ho. enough (Z.of_nat n ≤ resident c + Z.of_nat (to_start c) ∧ Z.of_nat n ≤ c_max c) by tauto. clear H1 H2 H3.
    induction Hs as [|ls l c c' Hsteps IH Hs]; [done|]. apply Forall_app in Hls as [Hls Hl]. apply Forall_cons_1 in Hl as [Hl _].
    destruct (step_bounds_fixed _ _ _ Hs) as (_ & Hm & Hop). specialize (Hop Ho). destruct (IH Hls Hop) as [Hr Hc].
    split; [|rewrite Hm; destruct l; try done; exact Hl].
    assert (spawnClosed c = false) as Hsc by (unfold is_open in Hop; by destruct (spawnClosed c)).
    destruct (crew_reach _ _ _ _ Hsteps) as (Hok & Hw & Hmin & _). unfold int32 in Hmin. rewrite Z.mod_small in Hmin by lia.
    destruct (step_bounds _ _ _ Hs) as [| |[?|?]| |i g -> Hg Hp]; try lia; [congruence|].
    pose proof (count_zero_inv _ _ _ _ (Hw Hop) Hg) as Hf. by rewrite Hp in Hf.
Qed.

(** As long as nobody has retired, the ceiling stays and the crew is open, it never rests without a reserve: once the
    resident set is started, it is at its ceiling, or some worker has not passed its growth check.  So when every
    worker waits or is inside the handler, one of them waits for work or for a permit. *)
Theorem crew_keeps_a_reserve max n ls c : (0 < n)%nat → crew_steps (Crew_Start max n) ls c →
  Forall (max_label (λ _, False)) ls → is_open c = true → retired c = 0 → to_start c = 0%nat →
  c_max c ≤ resident c
  ∨ (∃ i g, gophers c !! i = Some g ∧ in_reserve (g_pc g) = true)
    ∧ ((∀ i g, gophers c !! i = Some g → match g_pc g with WParked | WAcquiring _ | WProcessing _ _ _ _ | WGone => True | _ => False end) →
       ∃ i g, gophers c !! i = Some g ∧ match g_pc g with WParked | WAcquiring _ => True | _ => False end).
Proof.
  intros Hn Hs Hls Ho Hr Ht. assert (reserved c ∧ count gone_for_good (gophers c) = 0) as [[?|[?|Hres]] _].
  - clear Ht. revert Ho Hr. induction Hs as [|ls l c c' Hsteps IH Hs]; intros Ho Hr.
    { by split; [left|]. }
    apply Forall_app in Hls as [Hls Hl]. apply Forall_cons_1 in Hl as [Hl _].
    destruct (crew_reach _ _ _ _ Hsteps) as (Hok & Hw & _ & Hr0). destruct (step_bounds_fixed _ _ _ Hs) as (_ & _ & Hop).
    assert (retired c = 0) as Hr' by (unfold retired in *; destruct (step_bounds _ _ _ Hs); lia).
    destruct (IH Hls (Hop Ho) Hr') as [Hres Hz]. eapply reserve_step; eauto. by intros k ->.
  - lia.
  - by left.
  - right. split; [by apply count_pos|]. intros Hrest. apply count_pos in Hres as (i & g & Hg & Hin). exists i, g. split; [done|].
    specialize (Hrest i g Hg). by destruct (g_pc g).
Qed.

(** ** Draining *)

Definition rank (p : wpc) : Z :=
  match p with
  | WGone => 0
  | WLeft | WLeaving false => 1
  | WLeaving true => 2
  | WParked => 3
  | WRetiring => 4
  | WTop => 5
  | WBack => 6
  | WProcessing _ _ _ true => 7
  | WProcessing _ _ _ false => 8
  | WStarting _ _ => 9
  | WSpawning _ _ => 10
  | WGrowing _ _ => 11
  | WTook _ _ => 12
  | WPopping _ => 13
  | WAcquiring _ => 14
  end.
Definition work_left (c : Crew) : Z := map_sum (λ _ g, rank (g_pc g)) (gophers c) + Z.of_nat (to_start c).
Definition stopped (c : Crew) : bool := spawnClosed c && cacheClosed c && gateClosed c.

(** The labels a worker, or [Start], is the author of, a handler's second release of its permit apart. *)
Definition own_step (l : wlabel) : bool :=
  match l with ReleasePermit _ | SetMax _ | CloseCache | CloseGate | DrainCrew => false | _ => true end.

Lemma rank_nonneg p : 0 ≤ rank p.
Proof. by destruct p as [| | | | | | | | |? ? ? []| |[]| |]. Qed.
Lemma stopped_spawn now c : spawnClosed c = true → spawn now c = c.
Proof. intros H. unfold spawn. by rewrite H. Qed.

Lemma stopped_stays l c c' : stopped c = true → crew_step l c = Some c' → stopped c' = true.
Proof.
  unfold stopped. rewrite !andb_true_iff. intros [[H1 H2] H3] Hs.
  destruct l; crew_cases Hs; try injection Hs as <-; cbn in *; rewrite ?H1, ?H2, ?H3; try done; try congruence.
  - destruct (to_start c); [done|]. injection Hs as <-. cbn. rewrite stopped_spawn by done. by rewrite H1, H2, H3.
  - unfold retire in Hs. case_bool_decide; injection Hs as <-; cbn; by rewrite H1, H2, H3.
  - rewrite stopped_spawn by done. cbn. by rewrite H1, H2, H3.
Qed.

Lemma work_left_step l c c' : stopped c = true → crew_step l c = Some c' →
  work_left c' ≤ work_left c ∧ (own_step l = true → work_left c' < work_left c).
Proof.
  unfold stopped. rewrite !andb_true_iff. intros [[H1 H2] H3] Hs.
  assert (∀ i g g', gophers c !! i = Some g → map_sum (λ _ g, rank (g_pc g)) (<[i:=g']> (gophers c))
    = map_sum (λ _ g, rank (g_pc g)) (gophers c) - rank (g_pc g) + rank (g_pc g')) as Hset.
  { intros i g g' Hg. by rewrite (map_sum_insert _ _ _ g). }
  unfold work_left. destruct l; crew_cases Hs; try injection Hs as <-; try congruence; cbn [own_step];
    try (cbn; rewrite ?(Hset _ _ _ Hg), ?Hp; cbn; split; [lia|intros; lia || done]).
  - destruct (to_start c); [done|]. injection Hs as <-. rewrite stopped_spawn by done. cbn. lia.
  - cbn. rewrite (Hset _ _ _ Hg), Hp. destruct (considerRetirement_pc now now' roll g) as [-> | ->]; cbn; lia.
  - unfold retire in Hs. case_bool_decide; injection Hs as <-; cbn; rewrite (Hset _ _ _ Hg), Hp; cbn; lia.
  - cbn. rewrite (Hset _ _ _ Hg), Hp. case_bool_decide; cbn; lia.
  - rewrite stopped_spawn by done. cbn. rewrite (Hset _ _ _ Hg), Hp. cbn. lia.
Qed.

(** Where a worker of a stopped crew stands, it has a step to make. *)
Definition next_step_of (c : Crew) (i : nat) (p : wpc) : option wlabel :=
  match p with
  | WTop => Some (AtTop i 0 0 f1)
  | WRetiring => Some (DoRetire i)
  | WParked => Some (NoWork i)
  | WAcquiring _ => Some (NoPermit i)
  | WPopping _ => Some (TryPop i None)
  | WTook _ _ => Some (TakeIdle i)
  | WGrowing _ _ => Some (CheckIdle i)
  | WSpawning _ _ => Some (DoSpawn i 0)
  | WStarting _ _ => Some (BeginProcess i 0)
  | WProcessing _ _ _ _ => Some (EndProcess i 0)
  | WBack => Some (RestoreIdle i)
  | WLeaving _ => Some (LeaveIdle i)
  | WLeft => Some (LeaveResident i)
  | WGone => None
  end.
Lemma stopped_moves c i g : stopped c = true → gophers c !! i = Some g → g_pc g ≠ WGone →
  ∃ l c', own_step l = true ∧ crew_step l c = Some c'.
Proof.
  unfold stopped. rewrite !andb_true_iff. intros [[H1 H2] H3] Hg Hp.
  destruct (next_step_of c i (g_pc g)) as [l|] eqn:Hl; [|by destruct (g_pc g)]. exists l.
  destruct (crew_step l c) as [c'|] eqn:Hs; [exists c'; split; [by destruct (g_pc g); simplify_eq/=|done]|].
  exfalso. destruct (g_pc g) eqn:Hpc; simplify_eq/=; unfold on_gopher in Hs; rewrite Hg in Hs; cbn in Hs; rewrite Hpc in Hs; cbn in Hs;
    rewrite ?H2, ?H3 in Hs; try done. by destruct (retire c).
Qed.

(** C23. After [Drain], with the cache and the gate closed, the crew comes to its end: no step takes it back, every step of
    a worker brings it nearer, there is such a step until everybody is gone (the handlers return), and then the
    counters read zero and no permit is out. *)
Theorem crew_drains max n ls c : crew_steps (Crew_Start max n) ls c → stopped c = true →
  (∀ l c', crew_step l c = Some c' → stopped c' = true ∧ work_left c' ≤ work_left c ∧ (own_step l = true → work_left c' < work_left c))
  ∧ (0 < work_left c → ∃ l c', own_step l = true ∧ crew_step l c = Some c')
  ∧ 0 ≤ work_left c ∧ (work_left c = 0 → resident c = 0 ∧ idle c = 0 ∧ permits c = 0).
Proof.
  intros Hs Hst. destruct (crew_reach _ _ _ _ Hs) as ([H1 H2 H3 _] & _). split_and!.
  - intros l c' Hl. split; [by eapply stopped_stays|]. by apply (work_left_step l).
  - intros Hpos. unfold work_left in Hpos. destruct (to_start c) as [|k] eqn:Ht.
    + destruct (map_sum_pos (λ _ g, rank (g_pc g)) (gophers c)) as (i & g & Hg & Hr); [intros; apply rank_nonneg|lia|].
      apply (stopped_moves c i g); [done|done|]. intros Hp. by rewrite Hp in Hr.
    + exists (SpawnResident 0). eexists. split; [done|]. cbn. by rewrite Ht.
  - pose proof (map_sum_nonneg (λ _ g, rank (g_pc g)) (gophers c) ltac:(intros; apply rank_nonneg)). unfold work_left. lia.
  - intros H0. assert (∀ i g, gophers c !! i = Some g → g_pc g = WGone) as Hgone.
    { intros i g Hg. pose proof (map_sum_elem (λ _ g, rank (g_pc g)) (gophers c) i g ltac:(intros; apply rank_nonneg) Hg) as He.
      cbn in He. unfold work_left in H0. pose proof (rank_nonneg (g_pc g)).
      assert (rank (g_pc g) = 0) as Hr by lia. by destruct (g_pc g) as [| | | | | | | | |? ? ? []| |[]| |]. }
    rewrite H1, H2, H3. unfold count.
    split_and!; apply map_sum_zero; intros i g Hg; by rewrite (Hgone i g Hg).
Qed.

(** ** Where the reserve goes *)

(** When every worker is inside its handler, only a handler's return moves the crew. *)
Definition handler_step (l : wlabel) : bool :=
  match l with ReleasePermit _ | EndProcess _ _ | SetMax _ | CloseCache | CloseGate | DrainCrew => true | _ => false end.
Definition inside (p : wpc) : bool := match p with WProcessing _ _ _ _ | WGone => true | _ => false end.
Definition all_inside (c : Crew) : bool :=
  bool_decide (to_start c = 0%nat) && bool_decide (map_Forall (λ _ g, inside (g_pc g) = true) (gophers c)).
Lemma all_inside_waits c l c' : all_inside c = true → crew_step l c = Some c' → handler_step l = true.
Proof.
  unfold all_inside. rewrite andb_true_iff, !bool_decide_eq_true. intros [Ht Hall] Hs.
  destruct l; try done; crew_cases Hs; try (by pose proof (Hall _ _ Hg) as H; cbn in H; rewrite Hp in H). by rewrite Ht in Hs.
Qed.

Lemma crew_run_steps ls c0 c : crew_run ls c0 = Some c → crew_steps c0 ls c.
Proof.
  unfold crew_run. revert c. induction ls as [|l ls IH] using rev_ind; intros c; [intros [= <-]; constructor|].
  rewrite foldl_app. cbn. destruct (foldl _ _ _) as [c1|]; [|done]. cbn. intros Hs. econstructor; [by apply IH|done].
Qed.

Definition seconds (n : Z) : Z := n * 10 ^ 9.
(** A worker takes a candidate at once. *)
Definition takes (i : nat) (stepID : Z) (t : Z) : list wlabel :=
  [HasWork i 1; Permit i; TryPop i (Some stepID); TakeIdle i; CheckIdle i].
(** Two workers take long tasks and a third is in reserve.  When a candidate comes an hour later the reserve is woken,
    but a worker that has just finished is quicker; the reserve finds nothing, finds itself idle, and goes. *)
Definition lost_reserve : list wlabel :=
  [SpawnResident 0; AtTop 0 0 0 f0] ++ takes 0 1 0 ++ [DoSpawn 0 0; BeginProcess 0 0; ReleasePermit 0; AtTop 1 0 0 f0]
  ++ takes 1 2 0 ++ [DoSpawn 1 0; BeginProcess 1 0; ReleasePermit 1; AtTop 2 0 0 f0]
  ++ [HasWork 2 1; EndProcess 1 (seconds 3600); RestoreIdle 1; AtTop 1 (seconds 3600) (seconds 3600) f0]
  ++ takes 1 3 (seconds 3600) ++ [BeginProcess 1 (seconds 3600); ReleasePermit 1]
  ++ [Permit 2; TryPop 2 None; AtTop 2 (seconds 3600) (seconds 3600) f0; DoRetire 2; LeaveIdle 2].

(** Retirement can take the reserve: the crew is left below its ceiling with every worker inside a task and nobody to
    wake, and until a task returns nothing takes the next candidate or adds a worker. *)
Theorem retirement_takes_the_reserve :
  ∃ c, crew_run lost_reserve (Crew_Start 10 1) = Some c ∧ is_open c = true ∧ c_max c = 10 ∧ resident c = 2 ∧ idle c = 0
    ∧ (g_pc <$> gophers c) = {[0%nat := WProcessing 1 1 0 true; 1%nat := WProcessing 1 3 (seconds 3600) true; 2%nat := WGone]}
    ∧ ∀ l c', crew_step l c = Some c' → handler_step l = true.
Proof.
  destruct (crew_run lost_reserve (Crew_Start 10 1)) as [c|] eqn:E; [|by vm_compute in E]. exists c. split; [done|].
  assert (is_open c = true ∧ c_max c = 10 ∧ resident c = 2 ∧ idle c = 0 ∧ all_inside c = true
    ∧ (g_pc <$> gophers c) = {[0%nat := WProcessing 1 1 0 true; 1%nat := WProcessing 1 3 (seconds 3600) true; 2%nat := WGone]})
    as (H1 & H2 & H3 & H4 & H5 & H6) by (vm_compute in E; injection E as <-; by vm_compute).
  do 5 (split; [done|]). intros l c'. by apply all_inside_waits.
Qed.

(** ** Witnesses *)

Definition crew_demo : list wlabel :=
  [SpawnResident 0; AtTop 0 0 0 f0] ++ takes 0 1 0 ++ [DoSpawn 0 0; BeginProcess 0 0; ReleasePermit 0; AtTop 1 0 0 f0; HasWork 1 1].
Definition crew_demo_end : Crew := default (Crew_Start 10 1) (crew_run crew_demo (Crew_Start 10 1)).
Lemma crew_demo_steps : crew_steps (Crew_Start 10 1) crew_demo crew_demo_end.
Proof. apply crew_run_steps. by vm_compute. Qed.
Definition drain_demo : list wlabel := crew_demo ++ [CloseCache; CloseGate; DrainCrew].
Definition drain_demo_end : Crew := default (Crew_Start 10 1) (crew_run drain_demo (Crew_Start 10 1)).
Lemma drain_demo_steps : crew_steps (Crew_Start 10 1) drain_demo drain_demo_end.
Proof. apply crew_run_steps. by vm_compute. Qed.

Lemma crew_accounts_witness : permits crew_demo_end = count holds_permit (gophers crew_demo_end) ∧ resident crew_demo_end ≤ 10.
Proof.
  destruct (crew_accounts 10 1 crew_demo crew_demo_end ltac:(lia) crew_demo_steps) as (_ & _ & H & Hmax & _). split; [exact H|].
  apply Hmax; [lia|by vm_compute|unfold crew_demo, takes; repeat constructor].
Defined.

Lemma crew_keeps_a_reserve_witness : ∃ i g, gophers crew_demo_end !! i = Some g ∧ in_reserve (g_pc g) = true.
Proof.
  assert (c_max crew_demo_end = 10 ∧ resident crew_demo_end = 2) as [Hm Hr] by (split; vm_compute; reflexivity).
  destruct (crew_keeps_a_reserve 10 1 crew_demo crew_demo_end ltac:(lia) crew_demo_steps) as [H|[H _]]; [..|lia|exact H].
  - unfold crew_demo, takes. repeat constructor.
  - vm_compute. reflexivity.
  - vm_compute. reflexivity.
  - vm_compute. reflexivity.
Defined.

Lemma crew_drains_witness : 0 < work_left drain_demo_end ∧ ∃ l c', own_step l = true ∧ crew_step l drain_demo_end = Some c'.
Proof.
  assert (0 < work_left drain_demo_end) as Hpos by (vm_compute; reflexivity). split; [exact Hpos|].
  destruct (crew_drains 10 1 drain_demo drain_demo_end drain_demo_steps ltac:(vm_compute; reflexivity)) as (_ & H & _).
  exact (H Hpos).
Defined.
