(* ===== verification/Query.v ===== *)
(** * Listing, purging, deleting and reaping flows ([engine/history.go], [engine/operations.go], [engine/reaper.go])

    The queries that range over the flows of every shard: the conditions a [Query] turns into, the pages of [List]
    with their cursor, [Purge] and [Delete], which only mark a root, and the reaper, which removes the marked trees.

    A shard is its table of flows and its table of steps; the join a query makes gives a flow the task of its current
    step.  The case folding of Go and of the database, and the database's clock, are parameters. *)

From Stdlib Require Import Ascii.
From S2P Require Import Prelude Keys StepRow Tree.

#[local] Open Scope Z_scope.

(** ** The tables *)

Record qflow := mkQFlow {
  q_token : string;
  q_status : status_t;
  q_parent : Z;
  q_root : Z;
  q_thread : Z;
  q_delete_after : Z;
  q_updated : Z;
  q_url : string;
  q_name : string;
  q_task : option string;
  q_error : string;
  q_reason : string;
  q_fairness : string;
  q_priority : Z
}.

(** Flows by id, and the flow of every step; times in milliseconds. *)
Record shard := mkShard { q_flows : gmap Z qflow; q_steps : gmap Z Z }.
Abbreviation shards := (gmap Z shard).

Inductive q_error_t := QNotFound | QBadShard | QBadStatus | QBadKey | QBadCursor | QNoFilter | QSubgraphs | QChild | QRunning | QDatabase.

(** ** [workflow.Query] *)

Record query := mkQuery {
  Status : string;
  WorkflowURL : string;
  WorkflowName : string;
  ThreadKey : string;
  TaskName : string;
  FairnessKey : string;
  Priority : Z;
  OlderThan : Z;
  NewerThan : Z;
  IncludeSubgraphs : bool;
  OfShard : Z;
  Cursor : string;
  Search : string;
  Limit : Z
}.

(** [IsValidStatus] *)
Definition all_statuses : list status_t :=
  [StatusCreated; StatusPending; StatusRunning; StatusInterrupted; StatusCompleted; StatusFailed; StatusTerminated; StatusCancelled].
Definition parse_status (s : string) : option status_t := head (filter (λ st, status_name st = s) all_statuses).
Definition IsValidStatus (s : string) : bool := bool_decide (is_Some (parse_status s)).

(** ** [LIKE] *)

Definition text := list ascii.
Definition escape_char : ascii := "~"%char.

(** SQL's matching with an [ESCAPE] character. *)
Fixpoint like (p : text) : text → bool :=
  match p with
  | [] => λ t, match t with [] => true | _ => false end
  | c :: p =>
      if bool_decide (c = escape_char) then
        match p with
        | [] => λ t, false
        | d :: p => λ t, match t with [] => false | x :: t => bool_decide (x = d) && like p t end
        end
      else if bool_decide (c = "%"%char) then
        fix skip (t : text) : bool := like p t || match t with [] => false | _ :: t => skip t end
      else λ t, match t with [] => false | x :: t => (bool_decide (c = "_"%char) || bool_decide (x = c)) && like p t end
  end.

(** [likeEscaper] *)
Fixpoint likeEscape (s : text) : text :=
  match s with
  | [] => []
  | c :: s =>
      if bool_decide (c = escape_char) || bool_decide (c = "%"%char) || bool_decide (c = "_"%char)
      then escape_char :: c :: likeEscape s else c :: likeEscape s
  end.

Section folding.
Context (ToLower LOWER : string → string).

Definition searchPattern (search : string) : text :=
  "%"%char :: likeEscape (String.list_ascii_of_string (ToLower search)) ++ ["%"%char].

(** ** The conditions *)

Inductive condition :=
| CAny
| CRootsOnly
| CStatus (st : status_t)
| CUrl (s : string)
| CName (s : string)
| CThread (id : Z)
| CTask (s : string)
| CFairness (s : string)
| CPriority (p : Z)
| CUpdatedBefore (ago : Z)
| CUpdatedSince (ago : Z)
| CSearch (shardIdx : Z) (pattern : text).

Definition like_text (s : string) (pattern : text) : bool := like pattern (String.list_ascii_of_string (LOWER s)).
Definition flowKeyExpr (shardIdx id : Z) (f : qflow) : string := Keys.New shardIdx id (q_token f).

Definition holds (now : Z) (id : Z) (f : qflow) (c : condition) : bool :=
  match c with
  | CAny => true
  | CRootsOnly => bool_decide (q_parent f = 0)
  | CStatus st => bool_decide (q_status f = st)
  | CUrl s => bool_decide (q_url f = s)
  | CName s => bool_decide (q_name f = s)
  | CThread t => bool_decide (q_thread f = t)
  | CTask s => bool_decide (q_task f = Some s)
  | CFairness s => bool_decide (q_fairness f = s)
  | CPriority p => bool_decide (q_priority f = p)
  | CUpdatedBefore ago => bool_decide (q_updated f < now - ago)
  | CUpdatedSince ago => bool_decide (now - ago ≤ q_updated f)
  | CSearch shardIdx pattern =>
      like_text (q_url f) pattern || like_text (q_name f) pattern
      || (match q_task f with Some t => like_text t pattern | None => false end)
      || like_text (q_error f) pattern || like_text (q_reason f) pattern || like_text (flowKeyExpr shardIdx id f) pattern
  end.

Definition subgraphCondition (includeSubgraphs : bool) : condition := if includeSubgraphs then CAny else CRootsOnly.
Definition searchClause (shardIdx : Z) (search : string) : list condition :=
  if bool_decide (search = "") then [] else [CSearch shardIdx (searchPattern search)].

(** Whole milliseconds of a duration in nanoseconds. *)
Definition in_ms (d : Z) : Z := d `quot` 10 ^ 6.

Definition opt_string (s : string) (c : string → condition) : list condition := if bool_decide (s = "") then [] else [c s].

(** [queryClauses]: the conditions and the shard they are restricted to, zero for none. *)
Definition queryClauses (db : shards) (q : query) (subgraphCond : condition) : result q_error_t (list condition * Z) :=
  if negb (bool_decide (OfShard q = 0)) && negb (bool_decide (is_Some (db !! OfShard q))) then Err QBadShard
  else
    status ←? (if bool_decide (Status q = "") then Ok []
               else match parse_status (Status q) with None => Err QBadStatus | Some st => Ok [CStatus st] end);
    '(thread, restrict) ←?
      (if bool_decide (ThreadKey q = "") then Ok ([], OfShard q)
       else match ParseFlowKey (ThreadKey q) with
            | Err _ => Err QBadKey
            | Ok (threadShard, id, token) =>
                match db !! threadShard ≫= (λ s, q_flows s !! id) with
                | Some f => if bool_decide (q_token f = token) then Ok ([CThread (q_thread f)], threadShard) else Err QNotFound
                | None => Err QNotFound
                end
            end);
    Ok ([subgraphCond] ++ status ++ opt_string (WorkflowURL q) CUrl ++ opt_string (WorkflowName q) CName ++ thread
        ++ opt_string (TaskName q) CTask ++ opt_string (FairnessKey q) CFairness
        ++ (if bool_decide (Priority q = 0) then [] else [CPriority (Priority q)])
        ++ (if bool_decide (0 < OlderThan q) then [CUpdatedBefore (in_ms (OlderThan q))] else [])
        ++ (if bool_decide (0 < NewerThan q) then [CUpdatedSince (in_ms (NewerThan q))] else []), restrict).

Definition all_hold (now : Z) (conds : list condition) (e : Z * qflow) : bool := forallb (holds now e.1 e.2) conds.

(** ** Ordered rows *)

Definition id_le (a b : Z * qflow) : Prop := a.1 ≤ b.1.
#[global] Instance id_le_dec a b : Decision (id_le a b).
Proof. unfold id_le. apply _. Defined.
Definition by_flow_id (l : list (Z * qflow)) : list (Z * qflow) := merge_sort id_le l.
Definition newest_first (l : list (Z * qflow)) : list (Z * qflow) := rev (by_flow_id l).

(** The share of a shard: the limit divided by the shards, rounded up. *)
Definition perShardLimit (limit : Z) (db : shards) (restrict : Z) : nat :=
  let n := Z.of_nat (size db) in
  Z.to_nat (if bool_decide (restrict = 0) && bool_decide (0 < n) then Z.max ((limit + n - 1) / n) 1 else limit).

(** ** [list] *)

Definition shard_rows (now : Z) (conds : list condition) (s : shard) : list (Z * qflow) :=
  newest_first (filter (λ e, (all_hold now conds e && bool_decide (q_delete_after e.2 = 0)) = true) (map_to_list (q_flows s))).
Definition list_shard (now : Z) (conds : list condition) (cursor : option Z) (n : nat) (s : shard) : list (Z * qflow) :=
  take n (filter (λ e, match cursor with Some cur => bool_decide (e.1 < cur) | None => true end = true) (shard_rows now conds s)).

(** The page over a parsed cursor: each shard's rows, and where every shard is next; [None] when none moved on. *)
Definition page_rows (now : Z) (db : shards) (q : query) (conds : list condition) (restrict : Z) (cursor : gmap Z Z) : gmap Z (list (Z * qflow)) :=
  let limit := if bool_decide (Limit q ≤ 0) then 100 else Limit q in
  map_imap (λ idx s,
    Some (if negb (bool_decide (restrict = 0)) && negb (bool_decide (idx = restrict)) then []
          else list_shard now (conds ++ searchClause idx (Search q)) (cursor !! idx) (perShardLimit limit db restrict) s)) db.
Definition advance (rows : gmap Z (list (Z * qflow))) (cursor : gmap Z Z) : gmap Z Z :=
  union_with (λ new _, Some new) (omap (λ l, fst <$> last l) rows) cursor.
Definition list_page (now : Z) (db : shards) (q : query) (conds : list condition) (restrict : Z) (cursor : gmap Z Z)
    : gmap Z (list (Z * qflow)) * option (gmap Z Z) :=
  let rows := page_rows now db q conds restrict cursor in
  let next := advance rows cursor in
  (rows, if bool_decide (next = cursor) then None else Some next).

(** *** The cursor's text *)

(** [strings.Cut] and [strings.SplitSeq] at one character. *)
Fixpoint cut_at (c : ascii) (s : string) : option (string * string) :=
  match s with
  | EmptyString => None
  | String x s => if bool_decide (x = c) then Some (""%string, s)
                  else '(a, b) ← cut_at c s; Some (String x a, b)
  end.
Fixpoint split_fuel (c : ascii) (fuel : nat) (s : string) : list string :=
  match fuel with
  | O => [s]
  | S fuel => match cut_at c s with Some (a, b) => a :: split_fuel c fuel b | None => [s] end
  end.
Definition split_at (c : ascii) (s : string) : list string := split_fuel c (String.length s) s.

Definition cursor_part (part : string) : option (Z * Z) :=
  '(s, fid) ← cut_at "="%char part;
  si ← ParseInt s; fi ← ParseInt fid;
  if bool_decide (si < 1) then None else Some (si, fi).
Definition parse_cursor (s : string) : option (gmap Z Z) :=
  if bool_decide (s = "") then Some ∅
  else parts ← mapM cursor_part (split_at ","%char s); Some (foldl (λ m p, <[p.1 := p.2]> m) ∅ parts).

Definition key_le (a b : Z * Z) : Prop := a.1 ≤ b.1.
#[global] Instance key_le_dec a b : Decision (key_le a b).
Proof. unfold key_le. apply _. Defined.
Definition render_part (e : Z * Z) : string := Itoa e.1 +:+ "=" +:+ Itoa e.2.
Fixpoint join_parts (l : list string) : string :=
  match l with [] => "" | [s] => s | s :: l => s +:+ "," +:+ join_parts l end.
Definition render_cursor (m : gmap Z Z) : string := join_parts (render_part <$> merge_sort key_le (map_to_list m)).

Definition shard_le (a b : Z * list (Z * qflow)) : Prop := a.1 ≤ b.1.
#[global] Instance shard_le_dec a b : Decision (shard_le a b).
Proof. unfold shard_le. apply _. Defined.
Definition summaries (rows : gmap Z (list (Z * qflow))) : list (Z * (Z * qflow)) :=
  flat_map (λ e : Z * list (Z * qflow), map (λ r, (e.1, r)) e.2) (merge_sort shard_le (map_to_list rows)).

(** [list]: the summaries shard by shard, and the next cursor. *)
Definition list_flows (now : Z) (db : shards) (q : query) : result q_error_t (list (Z * (Z * qflow)) * string) :=
  '(conds, restrict) ←? queryClauses db q (subgraphCondition (IncludeSubgraphs q));
  match parse_cursor (Cursor q) with
  | None => Err QBadCursor
  | Some cursor =>
      let '(rows, next) := list_page now db q conds restrict cursor in
      Ok (summaries rows,
          match next with None => "" | Some m => render_cursor m end)
  end.

(** ** [purge] and [deleteFlow] *)

(** The stamp: due at once; an interrupted root is terminated with it. *)
Definition stamp (f : qflow) : qflow :=
  mkQFlow (q_token f) (if bool_decide (q_status f = StatusInterrupted) then StatusTerminated else q_status f) (q_parent f) (q_root f)
    (q_thread f) 1 (q_updated f) (q_url f) (q_name f) (q_task f) (q_error f) (q_reason f) (q_fairness f) (q_priority f).
Definition stampable (f : qflow) : bool := negb (bool_decide (q_status f = StatusRunning)) && bool_decide (q_delete_after f = 0).
Definition set_flows (m : gmap Z qflow) (s : shard) : shard := mkShard m (q_steps s).
Definition stamp_all (ids : list Z) (s : shard) : shard :=
  set_flows (map_imap (λ id f, Some (if bool_decide (id ∈ ids) && stampable f then stamp f else f)) (q_flows s)) s.

Definition purgeCap : Z := 4096.
Definition purge_ids (now : Z) (conds : list condition) (n : nat) (s : shard) : list Z :=
  (take n (by_flow_id (filter (λ e, (all_hold now conds e && stampable e.2) = true) (map_to_list (q_flows s))))).*1.
Definition stamp_count (ids : list Z) (s : shard) : nat :=
  length (filter (λ id, match q_flows s !! id with Some f => stampable f | None => false end = true) ids).
(** The ids are read first and stamped in a second statement; [meanwhile] is what others did in between. *)
Definition purge_shard (now : Z) (conds : list condition) (n : nat) (meanwhile : shard → shard) (s : shard) : shard * nat :=
  let ids := purge_ids now conds n s in (stamp_all ids (meanwhile s), stamp_count ids (meanwhile s)).

(** A shard whose statements fail keeps its rows; the others' marks stand although the call answers the error. *)
Definition purge (now : Z) (fails : Z → bool) (meanwhile : Z → shard → shard) (q : query) (db : shards) : shards * result q_error_t nat :=
  if bool_decide (Status q = "" ∧ WorkflowURL q = "" ∧ WorkflowName q = "" ∧ OlderThan q = 0) then (db, Err QNoFilter)
  else if IncludeSubgraphs q then (db, Err QSubgraphs)
  else
    let limit := if bool_decide (Limit q ≤ 0) || bool_decide (purgeCap < Limit q) then purgeCap else Limit q in
    match queryClauses db q CRootsOnly with
    | Err e => (db, Err e)
    | Ok (conds, restrict) =>
        let skipped idx := negb (bool_decide (restrict = 0)) && negb (bool_decide (idx = restrict)) in
        let each idx s := if skipped idx || fails idx then (meanwhile idx s, 0%nat)
                          else purge_shard now (conds ++ searchClause idx (Search q)) (perShardLimit limit db restrict) (meanwhile idx) s in
        (map_imap (λ idx s, Some (each idx s).1) db,
         if existsb (λ e, negb (skipped e.1) && fails e.1) (map_to_list db) then Err QDatabase
         else Ok (sum_list_with (λ e, (each e.1 e.2).2) (map_to_list db)))
    end.

Definition deleteFlow (id : Z) (token : string) (s : shard) : shard * result q_error_t unit :=
  match q_flows s !! id with
  | None => (s, Err QNotFound)
  | Some f =>
      if negb (bool_decide (q_token f = token)) then (s, Err QNotFound)
      else if negb (bool_decide (q_parent f = 0)) then (s, Err QChild)
      else if bool_decide (q_status f = StatusRunning) then (s, Err QRunning)
      else if bool_decide (0 < q_delete_after f) then (s, Ok tt)
      else (stamp_all [id] s, Ok tt)
  end.

(** ** [reapDueFlows], on one shard *)

Definition reapBatch : nat := 4096%nat.
Definition due (now : Z) (e : Z * qflow) : bool :=
  bool_decide (0 < q_delete_after e.2) && bool_decide (q_parent e.2 = 0) && bool_decide (q_updated e.2 + q_delete_after e.2 ≤ now).
Definition due_roots (now : Z) (n : nat) (s : shard) : list Z :=
  (take n (by_flow_id (filter (λ e, due now e = true) (map_to_list (q_flows s))))).*1.
Definition in_trees (roots : list Z) (f : qflow) : bool := bool_decide (q_root f ∈ roots).
Definition delete_trees (roots : list Z) (s : shard) : shard :=
  mkShard (filter (λ e, in_trees roots e.2 = false) (q_flows s))
    (filter (λ e, match q_flows s !! e.2 with Some f => in_trees roots f | None => false end = false) (q_steps s)).

(** What a batch meets: the engine stops, the scan fails, the delete fails, or all goes well. *)
Inductive reap_event := RStop | RScanFails | RDeleteFails | RGoes.
Fixpoint reap (now : Z) (batch : nat) (events : list reap_event) (s : shard) : option shard :=
  match events with
  | [] => None
  | ev :: events =>
      match ev with
      | RStop | RScanFails => Some s
      | _ =>
          let roots := due_roots now batch s in
          match roots, ev with
          | [], _ => Some s
          | _, RDeleteFails => Some s
          | _, _ =>
              let s := delete_trees roots s in
              if bool_decide (length roots < batch)%nat then Some s else reap now batch events s
          end
      end
  end.
End folding.

(** ** Searching *)

Lemma like_skip p t : like ("%"%char :: p) t = true ↔ ∃ t1 t2, t = t1 ++ t2 ∧ like p t2 = true.
Proof.
  assert (like ("%"%char :: p) t = like p t || match t with [] => false | _ :: t => like ("%"%char :: p) t end) as Hunf by by destruct t.
  revert Hunf. induction t as [|x t IH]; intros Hunf; rewrite Hunf, orb_true_iff; clear Hunf.
  - split; [intros [H|H]; [by exists [], []|done]|]. intros ([|? ?] & t2 & Ht & H); [left; by rewrite Ht|done].
  - assert (like ("%"%char :: p) t = like p t || match t with [] => false | _ :: t => like ("%"%char :: p) t end) as Hunf by by destruct t.
    rewrite (IH Hunf). split.
    + intros [H|(t1 & t2 & -> & H)]; [by exists [], (x :: t)|by exists (x :: t1), t2].
    + intros ([|y t1] & t2 & Ht & H); [left; by rewrite Ht|]. injection Ht as -> ->. right. by exists t1, t2.
Qed.

(** An escaped term matches itself and nothing else. *)
Lemma like_escape s p t : like (likeEscape s ++ p) t = true ↔ ∃ t', t = s ++ t' ∧ like p t' = true.
Proof.
  revert t. induction s as [|c s IH]; intros t.
  { split; [by exists t|]. by intros (t' & -> & H). }
  assert (like (likeEscape (c :: s) ++ p) t = match t with [] => false | x :: t => bool_decide (x = c) && like (likeEscape s ++ p) t end) as ->.
  { cbn [likeEscape]. destruct (bool_decide (c = escape_char) || bool_decide (c = "%"%char) || bool_decide (c = "_"%char)) eqn:Hc; [done|].
    apply orb_false_iff in Hc as [[H1 H2]%orb_false_iff H3]. cbn [app like]. rewrite H1, H2. by destruct t as [|x t]; [|rewrite H3]. }
  destruct t as [|x t].
  - split; [done|]. by intros (t' & Ht & _).
  - rewrite andb_true_iff, bool_decide_eq_true, IH. split.
    + intros [-> (t' & -> & H)]. by exists t'.
    + intros (t' & Ht & H). injection Ht as -> ->. split; [done|]. by exists t'.
Qed.

Section folding.
Context (ToLower LOWER : string → string).

(** A search finds exactly the texts that contain the term as it is, per cent signs, underscores and tildes
    included. *)
Theorem search_is_literal search s :
  like_text LOWER s (searchPattern ToLower search) = true
  ↔ ∃ before after, String.list_ascii_of_string (LOWER s) = before ++ String.list_ascii_of_string (ToLower search) ++ after.
Proof.
  unfold like_text, searchPattern. rewrite like_skip. split.
  - intros (t1 & t2 & -> & (t' & -> & _)%like_escape). by exists t1, t'.
  - intros (before & after & ->). exists before, (String.list_ascii_of_string (ToLower search) ++ after). split; [done|].
    apply like_escape. exists after. split; [done|]. apply like_skip. exists after, []. by rewrite app_nil_r.
Qed.
End folding.

(** ** Paging *)

Definition newer (a b : Z * qflow) : Prop := b.1 < a.1.

#[local] Instance id_le_trans : Transitive id_le.
Proof. unfold id_le. intros a b c ? ?. lia. Qed.
#[local] Instance id_le_total : Total id_le.
Proof. unfold id_le. intros a b. lia. Qed.

Lemma by_flow_id_sorted l : NoDup l.*1 → StronglySorted (λ a b, a.1 < b.1) (by_flow_id l).
Proof.
  intros Hnd. pose proof (StronglySorted_merge_sort id_le l) as Hs. fold (by_flow_id l) in Hs.
  assert (NoDup (by_flow_id l).*1) as Hnd' by (unfold by_flow_id; by rewrite merge_sort_Permutation).
  revert Hs Hnd'. generalize (by_flow_id l) as m. induction 1 as [|a m Hs IH Hall]; intros Hnd'; [constructor|].
  cbn in Hnd'. apply NoDup_cons in Hnd' as [Ha Hnd']. constructor; [by apply IH|].
  rewrite Forall_forall in *. intros b Hb. specialize (Hall b Hb). unfold id_le in Hall.
  assert (a.1 ≠ b.1); [|lia]. intros Heq. apply Ha. rewrite Heq. by apply list_elem_of_fmap_2.
Qed.
Lemma newest_first_sorted l : NoDup l.*1 → StronglySorted newer (newest_first l).
Proof.
  intros Hnd. unfold newest_first. induction (by_flow_id_sorted l Hnd) as [|a m Hs IH Hall]; [constructor|]. cbn.
  apply StronglySorted_app_2; [|done|repeat constructor]. intros x y Hx ->%list_elem_of_singleton.
  rewrite list_elem_of_In, <-in_rev, <-list_elem_of_In in Hx. rewrite Forall_forall in Hall. by apply Hall.
Qed.
Lemma newest_first_perm l : newest_first l ≡ₚ l.
Proof. unfold newest_first, by_flow_id. by rewrite <-Permutation_rev, merge_sort_Permutation. Qed.

(** What a cursor leaves of a shard's rows. *)
Definition rest (cur : option Z) (rows : list (Z * qflow)) : list (Z * qflow) :=
  filter (λ e, match cur with Some c => bool_decide (e.1 < c) | None => true end = true) rows.

Lemma filter_none {A} (P : A → Prop) `{!∀ x, Decision (P x)} (l : list A) : (∀ x, x ∈ l → ¬ P x) → filter P l = [].
Proof.
  induction l as [|a l IH]; intros Hn; [done|]. rewrite filter_cons_False; [|apply Hn; left]. apply IH. intros x Hx. apply Hn. by right.
Qed.
Lemma filter_all {A} (P : A → Prop) `{!∀ x, Decision (P x)} (l : list A) : (∀ x, x ∈ l → P x) → filter P l = l.
Proof.
  induction l as [|a l IH]; intros Hn; [done|]. rewrite filter_cons_True; [|apply Hn; left]. f_equal. apply IH. intros x Hx. apply Hn. by right.
Qed.

Lemma rest_split cur rows : StronglySorted newer rows → ∃ pre, rows = pre ++ rest cur rows ∧
  ∀ e, e ∈ pre → match cur with Some c => c ≤ e.1 | None => False end.
Proof.
  intros Hs. destruct cur as [c|]; [|exists []; split; [|by intros e ?%not_elem_of_nil]; cbn; symmetry; by apply filter_all].
  induction Hs as [|a m Hs (pre & Hm & Hpre) Hall]; [exists []; split; [done|by intros e ?%not_elem_of_nil]|].
  unfold rest in *. destruct (decide (a.1 < c)) as [Hlt|Hge].
  - exists []. split; [|by intros e ?%not_elem_of_nil]. cbn [app]. symmetry. apply filter_all. intros x Hx.
    apply bool_decide_eq_true. apply elem_of_cons in Hx as [->|Hx]; [done|]. rewrite Forall_forall in Hall. specialize (Hall x Hx). unfold newer in Hall. lia.
  - exists (a :: pre). rewrite filter_cons_False; [|by rewrite bool_decide_eq_true]. split; [cbn; by f_equal|].
    intros e [->|He]%elem_of_cons; [lia|by apply Hpre].
Qed.
(** A page goes on where the page before it ended. *)
Lemma rest_next cur rows n e : StronglySorted newer rows → last (take n (rest cur rows)) = Some e →
  rest (Some e.1) rows = drop n (rest cur rows) ∧ (∀ c, cur = Some c → e.1 < c).
Proof.
  intros Hs Hl. destruct (rest_split cur rows Hs) as (pre & Hrows & Hpre). set (r := rest cur rows) in *.
  apply last_Some in Hl as [page' Hpage].
  assert (r = page' ++ [e] ++ drop n r) as Hr by (rewrite (app_assoc page'), <-Hpage; symmetry; apply take_drop).
  assert (e ∈ rest cur rows) as He by (fold r; rewrite Hr, !elem_of_app, list_elem_of_singleton; auto).
  assert (∀ c, cur = Some c → e.1 < c) as Hc.
  { intros c ->. apply list_elem_of_filter in He as [He _]. by apply bool_decide_eq_true in He. }
  split; [|done]. rewrite Hrows at 1. unfold rest at 1. rewrite filter_app, (filter_none _ pre).
  - cbn [app]. rewrite Hr at 1. rewrite filter_app, filter_none.
    + cbn [app]. rewrite filter_cons_False; [|rewrite bool_decide_eq_true; lia]. apply filter_all. intros x Hx. apply bool_decide_eq_true.
      rewrite Hrows, Hr in Hs. rewrite <-(app_assoc pre), app_assoc in Hs || rewrite (app_assoc pre) in Hs.
      rewrite (app_assoc (pre ++ page')) in Hs. apply (StronglySorted_app_1_elem_of newer ((pre ++ page') ++ [e]) (drop n r) e x Hs); [|done].
      rewrite !elem_of_app, list_elem_of_singleton. auto.
    + intros x Hx. rewrite bool_decide_eq_true. rewrite Hrows, Hr in Hs. rewrite (app_assoc pre) in Hs.
      assert (newer x e) as Hn; [|unfold newer in Hn; lia]. eapply (StronglySorted_app_1_elem_of newer (pre ++ page') ([e] ++ drop n r)); [exact Hs| |left].
      rewrite elem_of_app. auto.
  - intros x Hx. rewrite bool_decide_eq_true. specialize (Hpre x Hx). destruct cur as [c|]; [|done]. specialize (Hc c eq_refl). lia.
Qed.

(** *** The pages over parsed cursors *)

Section pages.
Context (ToLower LOWER : string → string) (now : Z) (db : shards) (q : query) (conds : list condition) (restrict : Z).

Definition skipped (idx : Z) : bool := negb (bool_decide (restrict = 0)) && negb (bool_decide (idx = restrict)).
(** What [list] is to report of one shard. *)
Definition wanted (idx : Z) (s : shard) : list (Z * qflow) :=
  if skipped idx then [] else shard_rows LOWER now (conds ++ searchClause ToLower idx (Search q)) s.
Definition page_size : nat := perShardLimit (if bool_decide (Limit q ≤ 0) then 100 else Limit q) db restrict.

Lemma page_size_pos : is_Some (head (map_to_list db)) → (0 < page_size)%nat.
Proof.
  intros Hdb. unfold page_size, perShardLimit. case_bool_decide; case_bool_decide; cbn [andb]; try case_bool_decide; lia.
Qed.
Lemma wanted_sorted idx s : StronglySorted newer (wanted idx s).
Proof.
  unfold wanted. destruct (skipped idx); [constructor|]. apply newest_first_sorted.
  eapply sublist_NoDup; [apply (NoDup_fst_map_to_list (q_flows s))|]. apply fmap_sublist, sublist_filter.
Qed.

Abbreviation page := (page_rows ToLower LOWER now db q conds restrict).

Lemma page_lookup cursor idx : page cursor !! idx = (λ s, take page_size (rest (cursor !! idx) (wanted idx s))) <$> db !! idx.
Proof.
  unfold page_rows. rewrite map_lookup_imap. destruct (db !! idx) as [s|]; [|done]. cbn. f_equal. unfold wanted. fold (skipped idx).
  destruct (skipped idx); [|done]. unfold rest. cbn. by rewrite take_nil.
Qed.
Lemma advance_lookup cursor idx : advance (page cursor) cursor !! idx =
  match db !! idx ≫= (λ s, last (take page_size (rest (cursor !! idx) (wanted idx s)))) with Some e => Some e.1 | None => cursor !! idx end.
Proof.
  unfold advance. rewrite lookup_union_with, lookup_omap, page_lookup. destruct (db !! idx) as [s|]; cbn.
  - destruct (last _) as [e|]; cbn; [by destruct (cursor !! idx)|by destruct (cursor !! idx)].
  - by destruct (cursor !! idx).
Qed.

Definition left_over (cursor : gmap Z Z) : Z := map_sum (λ idx s, Z.of_nat (length (rest (cursor !! idx) (wanted idx s)))) db.

Lemma left_over_nonneg cursor : 0 ≤ left_over cursor.
Proof. apply map_sum_nonneg. intros idx s. lia. Qed.
Lemma left_over_elem cursor idx s : db !! idx = Some s → Z.of_nat (length (rest (cursor !! idx) (wanted idx s))) ≤ left_over cursor.
Proof. intros Hs. apply (map_sum_elem (λ idx s, Z.of_nat (length (rest (cursor !! idx) (wanted idx s)))) db idx s); [intros; lia|done]. Qed.

Lemma rest_advance cursor idx s : db !! idx = Some s →
  rest (advance (page cursor) cursor !! idx) (wanted idx s) = drop page_size (rest (cursor !! idx) (wanted idx s)).
Proof.
  intros Hs. rewrite advance_lookup, Hs. cbn. destruct (last _) as [e|] eqn:He.
  - by destruct (rest_next _ _ _ _ (wanted_sorted idx s) He).
  - apply last_None in He. pose proof (page_size_pos) as Hpos. destruct (rest (cursor !! idx) (wanted idx s)) as [|x l]; [by rewrite drop_nil|].
    assert (is_Some (head (map_to_list db))) as Hh.
    { destruct (map_to_list db) as [|y ys] eqn:Hl; [|by eexists]. apply map_to_list_empty_iff in Hl. by rewrite Hl, lookup_empty in Hs. }
    specialize (Hpos Hh). destruct page_size; [lia|done].
Qed.

(** The cursor stays exactly when every page is empty, and then nothing is left. *)
Lemma advance_same cursor : advance (page cursor) cursor = cursor → left_over cursor = 0.
Proof.
  intros Heq. apply map_sum_zero. intros idx s Hs. pose proof (rest_advance cursor idx s Hs) as Hr. rewrite Heq in Hr.
  assert (is_Some (head (map_to_list db))) as Hh.
  { destruct (map_to_list db) as [|y ys] eqn:Hl; [|by eexists]. apply map_to_list_empty_iff in Hl. by rewrite Hl, lookup_empty in Hs. }
  pose proof (page_size_pos Hh). apply (f_equal length) in Hr. rewrite length_drop in Hr. lia.
Qed.
Lemma advance_moves cursor : advance (page cursor) cursor ≠ cursor → left_over (advance (page cursor) cursor) < left_over cursor.
Proof.
  intros Hne. assert (left_over (advance (page cursor) cursor)
    = map_sum (λ idx s, Z.of_nat (length (drop page_size (rest (cursor !! idx) (wanted idx s))))) db) as ->.
  { apply map_sum_ext. intros idx s Hs. by rewrite rest_advance. }
  assert (∃ idx s, db !! idx = Some s ∧ rest (cursor !! idx) (wanted idx s) ≠ []) as (idx & s & Hs & Hr).
  { apply dec_stable. intros Hno. apply Hne. apply map_eq. intros idx. rewrite advance_lookup. destruct (db !! idx) as [s|] eqn:Hs; [|done].
    cbn. destruct (rest (cursor !! idx) (wanted idx s)) as [|x l] eqn:Hr; [by rewrite take_nil|]. destruct Hno. exists idx, s. by rewrite Hr. }
  pose proof (page_size_pos) as Hpos. specialize (Hpos ltac:(
    destruct (map_to_list db) as [|y ys] eqn:Hl; [apply map_to_list_empty_iff in Hl; by rewrite Hl, lookup_empty in Hs|by eexists])).
  unfold left_over. rewrite <-(insert_delete_id db idx s Hs). rewrite !map_sum_insert_new by apply lookup_delete_eq.
  assert (map_sum (λ i s, Z.of_nat (length (drop page_size (rest (cursor !! i) (wanted i s))))) (delete idx db)
    ≤ map_sum (λ i s, Z.of_nat (length (rest (cursor !! i) (wanted i s)))) (delete idx db)).
  { generalize (delete idx db). intros m. induction m as [|k a m Hk IH] using map_ind; [done|]. rewrite !map_sum_insert_new by done.
    rewrite length_drop. lia. }
  rewrite length_drop. destruct (rest (cursor !! idx) (wanted idx s)); [done|]. cbn [length]. lia.
Qed.
End pages.

(** *** The cursor as text *)

Fixpoint free_of (c : ascii) (s : string) : Prop :=
  match s with EmptyString => True | String x s => x ≠ c ∧ free_of c s end.

Lemma digits_free c s : digit_value c = None → all_digits s → free_of c s.
Proof.
  intros Hc. induction s as [|x s IH]; [done|]. intros [[v Hv] Hs]. split; [|by apply IH]. intros ->. by rewrite Hc in Hv.
Qed.
Lemma free_of_app c s t : free_of c s → free_of c t → free_of c (s +:+ t).
Proof. induction s as [|x s IH]; [done|]. intros [? ?] ?. split; [done|by apply IH]. Qed.
Lemma cut_at_app c s t : free_of c s → cut_at c (s +:+ String c t) = Some (s, t).
Proof.
  induction s as [|x s IH]; intros Hs; [simpl; by case_bool_decide|]. destruct Hs as [Hx Hs].
  change (cut_at c (String x (s +:+ String c t)) = Some (String x s, t)). cbn [cut_at].
  rewrite (bool_decide_eq_false_2 (x = c)) by done. by rewrite (IH Hs).
Qed.
Lemma cut_at_free c s : free_of c s → cut_at c s = None.
Proof. induction s as [|x s IH]; intros Hs; [done|]. destruct Hs as [Hx Hs]. cbn [cut_at]. rewrite (bool_decide_eq_false_2 (x = c)) by done. by rewrite IH. Qed.

Lemma split_join l fuel : l ≠ [] → Forall (free_of ","%char) l → (length l ≤ S fuel)%nat → split_fuel ","%char fuel (join_parts l) = l.
Proof.
  revert fuel. induction l as [|s l IH]; [done|]. intros fuel _ Hl Hlen. apply Forall_cons in Hl as [Hs Hl].
  destruct l as [|t l].
  - cbn [join_parts]. destruct fuel; [done|]. cbn. by rewrite cut_at_free.
  - destruct fuel as [|fuel]; [cbn in Hlen; lia|]. cbn [split_fuel].
    change (join_parts (s :: t :: l)) with (s +:+ String ","%char (join_parts (t :: l))). rewrite cut_at_app by done.
    f_equal. apply IH; [done|done|cbn in *; lia].
Qed.
Lemma length_join l : (length l ≤ S (String.length (join_parts l)))%nat.
Proof.
  assert (∀ s t, String.length (s +:+ t) = (String.length s + String.length t)%nat) as Happ.
  { intros s t. induction s as [|x s IH]; [done|].
    change (S (String.length (s +:+ t)) = S (String.length s + String.length t)). by rewrite IH. }
  induction l as [|s l IH]; [cbn; lia|]. destruct l as [|t l]; [cbn; lia|]. cbn [join_parts length] in *. rewrite !Happ.
  change (String.length ",") with 1%nat. lia.
Qed.

Definition in_range (e : Z * Z) : Prop := 1 ≤ e.1 < 2 ^ 63 ∧ 0 ≤ e.2 < 2 ^ 63.
Lemma render_part_free e : in_range e → free_of ","%char (render_part e).
Proof.
  intros [H1 H2]. unfold render_part. apply free_of_app; [apply digits_free; [done|apply Itoa_digits; lia]|].
  apply free_of_app; [done|]. apply digits_free; [done|apply Itoa_digits; lia].
Qed.
Lemma cursor_part_render e : in_range e → cursor_part (render_part e) = Some e.
Proof.
  intros [H1 H2]. unfold cursor_part, render_part.
  change (Itoa e.1 +:+ "=" +:+ Itoa e.2) with (Itoa e.1 +:+ String "="%char (Itoa e.2)).
  rewrite cut_at_app by (apply digits_free; [done|apply Itoa_digits; lia]). cbn.
  rewrite !ParseInt_Itoa by lia. cbn. rewrite bool_decide_eq_false_2 by lia. by destruct e.
Qed.
Lemma foldl_insert_rev (l : list (Z * Z)) : foldl (λ m p, <[p.1 := p.2]> m) ∅ l = list_to_map (rev l) :> gmap Z Z.
Proof.
  induction l as [|[k v] l IH] using rev_ind; [done|]. by rewrite foldl_app, rev_app_distr, IH.
Qed.

Lemma Itoa_cons z : 0 ≤ z → ∃ c s, Itoa z = String c s.
Proof. intros Hz. unfold Itoa. rewrite bool_decide_eq_false_2 by lia. apply (itoa_digits_cons 19). Qed.

Lemma cursor_round_trip m : map_Forall (λ k v, in_range (k, v)) m → parse_cursor (render_cursor m) = Some m.
Proof.
  intros Hm. unfold render_cursor. set (l := merge_sort key_le (map_to_list m)).
  assert (l ≡ₚ map_to_list m) as Hp by apply merge_sort_Permutation.
  assert (Forall in_range l) as Hl.
  { rewrite Hp. apply Forall_forall. intros [k v] Hin%elem_of_map_to_list. by apply Hm. }
  assert (list_to_map (rev l) = m) as Hmap.
  { rewrite <-(list_to_map_to_list m). apply list_to_map_proper; [|by rewrite <-Permutation_rev].
    rewrite <-Permutation_rev, Hp. apply NoDup_fst_map_to_list. }
  unfold parse_cursor. destruct (decide (l = [])) as [Hnil|Hnil].
  { rewrite Hnil in *. cbn. by rewrite <-Hmap. }
  assert (join_parts (render_part <$> l) ≠ "") as Hne.
  { destruct l as [|e l]; [done|]. apply Forall_cons in Hl as [[H1 _] _]. destruct (Itoa_cons e.1 ltac:(lia)) as (c & s & He).
    assert (render_part e = String c (s +:+ "=" +:+ Itoa e.2)) as Hr by (unfold render_part; by rewrite He).
    rewrite fmap_cons, Hr. by destruct (render_part <$> l). }
  rewrite bool_decide_eq_false_2 by done. unfold split_at.
  rewrite split_join.
  - assert (mapM cursor_part (render_part <$> l) = Some l) as ->.
    { clear -Hl. induction Hl as [|e l He Hl IH]; [done|]. cbn. rewrite cursor_part_render by done. cbn. cbn in IH. by rewrite IH. }
    cbn. by rewrite foldl_insert_rev, Hmap.
  - by destruct l.
  - apply Forall_fmap. eapply Forall_impl; [exact Hl|]. intros e. apply render_part_free.
  - pose proof (length_join (render_part <$> l)). lia.
Qed.
Lemma render_nonempty m : m ≠ ∅ → map_Forall (λ k v, in_range (k, v)) m → render_cursor m ≠ "".
Proof.
  intros Hm Hr He. pose proof (cursor_round_trip m Hr) as Hp. rewrite He in Hp. unfold parse_cursor in Hp.
  rewrite bool_decide_eq_true_2 in Hp by done. injection Hp as Hp. by rewrite Hp in Hm.
Qed.

(** *** All the pages *)

Definition with_cursor (c : string) (q : query) : query :=
  mkQuery (Status q) (WorkflowURL q) (WorkflowName q) (ThreadKey q) (TaskName q) (FairnessKey q) (Priority q) (OlderThan q)
    (NewerThan q) (IncludeSubgraphs q) (OfShard q) c (Search q) (Limit q).

Section all_pages.
Context (ToLower LOWER : string → string).

(** A caller that follows the cursor to its end. *)
Fixpoint all_pages (fuel : nat) (now : Z) (db : shards) (q : query) : option (list (list (Z * (Z * qflow)))) :=
  match fuel with
  | O => None
  | S fuel =>
      match list_flows ToLower LOWER now db q with
      | Err _ => None
      | Ok (rows, next) =>
          if bool_decide (next = "") then Some [rows]
          else pages ← all_pages fuel now db (with_cursor next q); Some (rows :: pages)
      end
  end.

(** The identifiers the database and the host give. *)
Definition ids_ok (db : shards) : Prop :=
  map_Forall (λ idx s, 1 ≤ idx < 2 ^ 63 ∧ map_Forall (λ id _, 0 ≤ id < 2 ^ 63) (q_flows s)) db.

Definition of_shard (idx : Z) (rows : list (Z * (Z * qflow))) : list (Z * qflow) := (filter (λ e, e.1 = idx) rows).*2.

#[local] Instance shard_le_trans : Transitive shard_le.
Proof. unfold shard_le. intros a b c ? ?. lia. Qed.

Lemma of_shard_app idx a b : of_shard idx (a ++ b) = of_shard idx a ++ of_shard idx b.
Proof. unfold of_shard. by rewrite filter_app, fmap_app. Qed.
Lemma of_shard_same idx (l : list (Z * qflow)) : of_shard idx (map (λ r, (idx, r)) l) = l.
Proof. induction l as [|r l IH]; [done|]. unfold of_shard in *. cbn [map]. rewrite filter_cons_True by done. cbn. by rewrite IH. Qed.
Lemma of_shard_other idx i (l : list (Z * qflow)) : i ≠ idx → of_shard idx (map (λ r, (i, r)) l) = [].
Proof. intros Hi. induction l as [|r l IH]; [done|]. unfold of_shard in *. cbn [map]. by rewrite filter_cons_False. Qed.
Lemma of_shard_flat idx (l : list (Z * list (Z * qflow))) : NoDup l.*1 →
  of_shard idx (flat_map (λ e, map (λ r, (e.1, r)) e.2) l) = default [] ((list_to_map l : gmap Z (list (Z * qflow))) !! idx).
Proof.
  induction l as [|[i rows] l IH]; intros Hnd; [done|]. cbn in Hnd. apply NoDup_cons in Hnd as [Hi Hnd].
  cbn [flat_map fst snd]. rewrite of_shard_app, IH by done. cbn [list_to_map foldr uncurry]. destruct (decide (i = idx)) as [->|Hne].
  - rewrite of_shard_same, lookup_insert_eq. cbn. apply not_elem_of_list_to_map_1 in Hi. rewrite Hi. cbn. by rewrite app_nil_r.
  - by rewrite of_shard_other, lookup_insert_ne.
Qed.
Lemma of_shard_summaries idx rows : of_shard idx (summaries rows) = default [] (rows !! idx).
Proof.
  unfold summaries. rewrite of_shard_flat.
  - f_equal. f_equal. etransitivity; [|apply list_to_map_to_list]. apply list_to_map_proper; [|apply merge_sort_Permutation].
    rewrite merge_sort_Permutation. apply NoDup_fst_map_to_list.
  - rewrite merge_sort_Permutation. apply NoDup_fst_map_to_list.
Qed.

Lemma list_flows_with_cursor now db q conds restrict c cursor :
  queryClauses db q (subgraphCondition (IncludeSubgraphs q)) = Ok (conds, restrict) → parse_cursor c = Some cursor →
  list_flows ToLower LOWER now db (with_cursor c q) =
    Ok (summaries (page_rows ToLower LOWER now db q conds restrict cursor),
        let next := advance (page_rows ToLower LOWER now db q conds restrict cursor) cursor in
        if bool_decide (next = cursor) then "" else render_cursor next).
Proof.
  intros Hq Hc. unfold list_flows. change (queryClauses db (with_cursor c q)) with (queryClauses db q).
  change (IncludeSubgraphs (with_cursor c q)) with (IncludeSubgraphs q). rewrite Hq. cbn [rbind Cursor with_cursor]. rewrite Hc.
  unfold list_page. change (page_rows ToLower LOWER now db (with_cursor c q)) with (page_rows ToLower LOWER now db q).
  cbn zeta. by case_bool_decide.
Qed.

Section follow.
Context (now : Z) (db : shards) (q : query) (conds : list condition) (restrict : Z) (Hids : ids_ok db).
Context (Hq : queryClauses db q (subgraphCondition (IncludeSubgraphs q)) = Ok (conds, restrict)).

Abbreviation wanted' := (wanted ToLower LOWER now q conds restrict).
Abbreviation page' := (page_rows ToLower LOWER now db q conds restrict).

Lemma wanted_in_range idx s e : db !! idx = Some s → e ∈ wanted' idx s → in_range (idx, e.1).
Proof using Hids.
  intros Hs He. destruct (Hids idx s Hs) as [H1 H2]. split; [done|]. unfold wanted in He.
  destruct (skipped restrict idx); [by apply not_elem_of_nil in He|]. unfold shard_rows in He. rewrite newest_first_perm in He.
  apply list_elem_of_filter in He as [_ He]. destruct e as [id f]. apply elem_of_map_to_list in He. exact (H2 id f He).
Qed.
Lemma advance_in_range cursor : map_Forall (λ k v, in_range (k, v)) cursor →
  map_Forall (λ k v, in_range (k, v)) (advance (page' cursor) cursor).
Proof using Hids.
  intros Hc idx v. rewrite advance_lookup. destruct (db !! idx) as [s|] eqn:Hs; cbn; [|apply Hc].
  destruct (last _) as [e|] eqn:He; [|apply Hc]. intros [= <-]. apply (wanted_in_range idx s); [done|].
  apply last_Some_elem_of in He. apply elem_of_take in He as (i & He & _). apply list_elem_of_lookup_2 in He. by apply list_elem_of_filter in He as [_ ?].
Qed.

Lemma follow_cursor fuel cursor c : left_over ToLower LOWER now db q conds restrict cursor < Z.of_nat fuel →
  parse_cursor c = Some cursor → map_Forall (λ k v, in_range (k, v)) cursor →
  ∃ pages, all_pages fuel now db (with_cursor c q) = Some pages
    ∧ ∀ idx s, db !! idx = Some s → of_shard idx (concat pages) = rest (cursor !! idx) (wanted' idx s).
Proof using Hids Hq.
  revert cursor c. induction fuel as [|fuel IH]; intros cursor c Hlt Hc Hr.
  { pose proof (left_over_nonneg ToLower LOWER now db q conds restrict cursor). lia. }
  cbn [all_pages]. rewrite (list_flows_with_cursor _ _ _ _ _ _ _ Hq Hc). cbn zeta.
  assert (∀ idx s, db !! idx = Some s → of_shard idx (summaries (page' cursor))
    = take (page_size db q restrict) (rest (cursor !! idx) (wanted' idx s))) as Hpage.
  { intros idx s Hs. rewrite of_shard_summaries, page_lookup, Hs. done. }
  destruct (decide (advance (page' cursor) cursor = cursor)) as [Heq|Heq];
    [rewrite (bool_decide_eq_true_2 (advance (page' cursor) cursor = cursor)) by done
    |rewrite (bool_decide_eq_false_2 (advance (page' cursor) cursor = cursor)) by done].
  - rewrite bool_decide_eq_true_2 by done. exists [summaries (page' cursor)]. split; [done|]. intros idx s Hs. cbn [concat]. rewrite app_nil_r, (Hpage idx s Hs).
    apply advance_same in Heq. pose proof (left_over_elem ToLower LOWER now db q conds restrict cursor idx s Hs) as He. rewrite Heq in He.
    destruct (rest (cursor !! idx) (wanted' idx s)); [by rewrite take_nil|cbn in He; lia].
  - pose proof (advance_in_range cursor Hr) as Hr'. rewrite bool_decide_eq_false_2.
    2: { apply render_nonempty; [|done]. intros Hnil. apply Heq. rewrite Hnil. symmetry. apply map_eq. intros idx.
      pose proof (f_equal (lookup idx) Hnil) as Hl. rewrite advance_lookup, lookup_empty in Hl. rewrite lookup_empty.
      destruct (db !! idx ≫= _); [done|]. done. }
    destruct (IH (advance (page' cursor) cursor) (render_cursor (advance (page' cursor) cursor))) as (pages & Hp & Hcov).
    + pose proof (advance_moves ToLower LOWER now db q conds restrict cursor Heq). lia.
    + by apply cursor_round_trip.
    + done.
    + change (with_cursor (render_cursor (advance (page' cursor) cursor)) (with_cursor c q))
        with (with_cursor (render_cursor (advance (page' cursor) cursor)) q). rewrite Hp. eexists. split; [done|].
      intros idx s Hs. cbn [concat]. rewrite of_shard_app, (Hpage idx s Hs), (Hcov idx s Hs), rest_advance by done. apply take_drop.
Qed.
End follow.

(** C29. Following the cursor reports every flow that matches, once and shard by shard newest first, and ends, whatever the
    limit; the tables are taken not to change meanwhile. *)
Theorem list_pages_cover now db q conds restrict : ids_ok db →
  queryClauses db q (subgraphCondition (IncludeSubgraphs q)) = Ok (conds, restrict) →
  ∃ pages, all_pages (S (Z.to_nat (map_sum (λ _ s, Z.of_nat (size (q_flows s))) db))) now db (with_cursor "" q) = Some pages
    ∧ ∀ idx s, db !! idx = Some s → of_shard idx (concat pages) = wanted ToLower LOWER now q conds restrict idx s.
Proof.
  intros Hids Hq. destruct (follow_cursor now db q conds restrict Hids Hq
    (S (Z.to_nat (map_sum (λ _ s, Z.of_nat (size (q_flows s))) db))) ∅ "") as (pages & Hp & Hc).
  - unfold left_over. assert (map_sum (λ idx s, Z.of_nat (length (rest ((∅ : gmap Z Z) !! idx) (wanted ToLower LOWER now q conds restrict idx s)))) db
      ≤ map_sum (λ _ s, Z.of_nat (size (q_flows s))) db); [|lia].
    clear -ToLower. induction db as [|k a m Hk IH] using map_ind; [done|]. rewrite !map_sum_insert_new by done.
    assert (length (rest ((∅ : gmap Z Z) !! k) (wanted ToLower LOWER now q conds restrict k a)) ≤ size (q_flows a))%nat; [|lia].
    rewrite lookup_empty. unfold rest. etransitivity; [apply length_filter|]. unfold wanted. destruct (skipped restrict k); [cbn; lia|].
    unfold shard_rows. rewrite newest_first_perm. etransitivity; [apply length_filter|]. by rewrite length_map_to_list.
  - unfold parse_cursor. by rewrite bool_decide_eq_true_2.
  - intros k v. by rewrite lookup_empty.
  - exists pages. split; [done|]. intros idx s Hs. rewrite (Hc idx s Hs), lookup_empty. apply filter_all. done.
Qed.
End all_pages.

(** ** Purging *)

Lemma stamp_not_stampable f : stampable (stamp f) = false.
Proof. unfold stampable. cbn. apply andb_false_r. Qed.
Lemma by_flow_id_perm l : by_flow_id l ≡ₚ l.
Proof. apply merge_sort_Permutation. Qed.
Lemma set_flows_same s : set_flows (q_flows s) s = s.
Proof. by destruct s. Qed.

Section purging.
Context (ToLower LOWER : string → string) (now : Z).

(** The rows a purge is after, and the table with all of them marked. *)
Definition matches (conds : list condition) (e : Z * qflow) : bool := all_hold LOWER now conds e && stampable e.2.
Definition marked (conds : list condition) (s : shard) : shard :=
  set_flows (map_imap (λ id f, Some (if matches conds (id, f) then stamp f else f)) (q_flows s)) s.
Definition remaining (conds : list condition) (s : shard) : gmap Z qflow := filter (λ e, matches conds e = true) (q_flows s).

Lemma purge_ids_spec conds n s id : id ∈ purge_ids LOWER now conds n s → ∃ f, q_flows s !! id = Some f ∧ matches conds (id, f) = true.
Proof.
  unfold purge_ids. intros ([id' f] & -> & Hin)%list_elem_of_fmap. apply elem_of_take in Hin as (i & Hin & _).
  apply list_elem_of_lookup_2 in Hin. rewrite by_flow_id_perm in Hin. apply list_elem_of_filter in Hin as [Hm Hin].
  apply elem_of_map_to_list in Hin. by exists f.
Qed.
Lemma purge_ids_nil conds n s : (0 < n)%nat → purge_ids LOWER now conds n s = [] → ∀ id f, q_flows s !! id = Some f → matches conds (id, f) = false.
Proof.
  intros Hn Hnil id f Hf. apply not_true_is_false. intros Hm. unfold purge_ids in Hnil. apply fmap_nil_inv in Hnil.
  assert ((id, f) ∈ by_flow_id (filter (λ e, (all_hold LOWER now conds e && stampable e.2) = true) (map_to_list (q_flows s)))) as Hin.
  { rewrite by_flow_id_perm. apply list_elem_of_filter. split; [done|]. by apply elem_of_map_to_list. }
  destruct (by_flow_id _); [by apply not_elem_of_nil in Hin|]. by destruct n; [lia|].
Qed.

Lemma stamp_all_lookup ids s id : q_flows (stamp_all ids s) !! id =
  (λ f, if bool_decide (id ∈ ids) && stampable f then stamp f else f) <$> q_flows s !! id.
Proof. cbn. rewrite map_lookup_imap. by destruct (q_flows s !! id). Qed.
Lemma marked_lookup conds s id : q_flows (marked conds s) !! id = (λ f, if matches conds (id, f) then stamp f else f) <$> q_flows s !! id.
Proof. cbn. rewrite map_lookup_imap. by destruct (q_flows s !! id). Qed.

(** Marking a batch first changes nothing in what marking everything leads to. *)
Lemma marked_stamp_all conds n s : marked conds (stamp_all (purge_ids LOWER now conds n s) s) = marked conds s.
Proof.
  unfold marked at 1 2. unfold set_flows. cbn [q_steps stamp_all set_flows]. f_equal. apply map_eq. intros id.
  rewrite !map_lookup_imap, stamp_all_lookup. destruct (q_flows s !! id) as [f|] eqn:Hf; [|done]. cbn. f_equal.
  destruct (bool_decide (id ∈ purge_ids LOWER now conds n s) && stampable f) eqn:Hb; [|done].
  apply andb_true_iff in Hb as [Hin _]. apply bool_decide_eq_true in Hin. destruct (purge_ids_spec _ _ _ _ Hin) as (f' & Hf' & Hm).
  rewrite Hf in Hf'. injection Hf' as <-. rewrite Hm. unfold matches. cbn [snd]. by rewrite stamp_not_stampable, andb_false_r.
Qed.
Lemma marked_none conds s : (∀ id f, q_flows s !! id = Some f → matches conds (id, f) = false) → marked conds s = s.
Proof.
  intros Hn. rewrite <-(set_flows_same s) at 2. unfold marked. f_equal. apply map_eq. intros id. rewrite map_lookup_imap.
  destruct (q_flows s !! id) as [f|] eqn:Hf; [|done]. cbn. by rewrite (Hn id f Hf).
Qed.
Lemma purge_count conds n s : stamp_count (purge_ids LOWER now conds n s) s = length (purge_ids LOWER now conds n s).
Proof.
  unfold stamp_count. f_equal. apply filter_all. intros id (f & -> & Hm)%purge_ids_spec. by apply andb_true_iff in Hm as [_ ?].
Qed.
Lemma remaining_less conds n s : purge_ids LOWER now conds n s ≠ [] →
  (size (remaining conds (stamp_all (purge_ids LOWER now conds n s) s)) < size (remaining conds s))%nat.
Proof.
  intros Hne. rewrite <-!size_dom. apply subset_size. split.
  - intros id (f & Hf)%elem_of_dom. apply map_lookup_filter_Some in Hf as [Hf Hm]. rewrite stamp_all_lookup in Hf.
    destruct (q_flows s !! id) as [f0|] eqn:Hf0; [|done]. cbn in Hf. injection Hf as <-. apply elem_of_dom. exists f0.
    apply map_lookup_filter_Some. split; [done|]. destruct (bool_decide _ && stampable f0); [|done].
    unfold matches in Hm. cbn [snd] in Hm. by rewrite stamp_not_stampable, andb_false_r in Hm.
  - destruct (purge_ids LOWER now conds n s) as [|id ids] eqn:Hids; [done|].
    destruct (purge_ids_spec conds n s id) as (f & Hf & Hm); [rewrite Hids; left|]. intros Hsub.
    assert (id ∈ dom (remaining conds s)) as Hin by (apply elem_of_dom; exists f; by apply map_lookup_filter_Some).
    apply Hsub, elem_of_dom in Hin as [f' Hf']. apply map_lookup_filter_Some in Hf' as [Hf' Hm']. rewrite stamp_all_lookup, Hf in Hf'.
    cbn in Hf'. rewrite bool_decide_eq_true_2 in Hf' by left. assert (stampable f = true) as Hs by (by apply andb_true_iff in Hm as [_ ?]).
    rewrite Hs in Hf'. injection Hf' as <-. unfold matches in Hm'. cbn [snd] in Hm'. by rewrite stamp_not_stampable, andb_false_r in Hm'.
Qed.
End purging.

(** *** The calls of a purge, one after the other *)

Definition same_identity (f f' : qflow) : Prop := q_token f' = q_token f ∧ q_thread f' = q_thread f.
Definition same_shards (db db' : shards) : Prop :=
  ∀ idx, match db !! idx, db' !! idx with
         | Some s, Some s' => ∀ id, option_relation same_identity (λ _, False) (λ _, False) (q_flows s !! id) (q_flows s' !! id)
         | None, None => True
         | _, _ => False
         end.

Lemma same_shards_dom db db' : same_shards db db' → dom db' = dom db.
Proof.
  intros H. apply set_eq. intros idx. rewrite !elem_of_dom. specialize (H idx).
  destruct (db !! idx), (db' !! idx); try done; split; intros [? ?]; done.
Qed.
Lemma same_shards_limit limit db db' restrict : same_shards db db' → perShardLimit limit db' restrict = perShardLimit limit db restrict.
Proof. intros H%same_shards_dom. unfold perShardLimit. by rewrite <-!size_dom, H. Qed.
Lemma same_shards_clauses db db' q c : same_shards db db' → queryClauses db' q c = queryClauses db q c.
Proof.
  intros H. unfold queryClauses. assert (bool_decide (is_Some (db' !! OfShard q)) = bool_decide (is_Some (db !! OfShard q))) as ->.
  { apply bool_decide_ext. rewrite <-!elem_of_dom. by rewrite (same_shards_dom db db' H). }
  destruct (_ && _); [done|]. destruct (if bool_decide (Status q = "") then _ else _) as [status|]; [|done]. cbn [rbind].
  destruct (bool_decide (ThreadKey q = "")); [done|]. destruct (ParseFlowKey (ThreadKey q)) as [[[threadShard id] token]|]; [|done]. specialize (H threadShard).
  destruct (db !! threadShard) as [s|], (db' !! threadShard) as [s'|]; try done. cbn. specialize (H id).
  destruct (q_flows s !! id) as [f|], (q_flows s' !! id) as [f'|]; try done. destruct H as [-> ->]. done.
Qed.

Section purging_all.
Context (ToLower LOWER : string → string) (now : Z) (q : query).

Definition purge_limit : Z := if bool_decide (Limit q ≤ 0) || bool_decide (purgeCap < Limit q) then purgeCap else Limit q.
Definition purge_conds (conds : list condition) (idx : Z) : list condition := conds ++ searchClause ToLower idx (Search q).
Definition purge_allowed : Prop :=
  ¬ (Status q = "" ∧ WorkflowURL q = "" ∧ WorkflowName q = "" ∧ OlderThan q = 0) ∧ IncludeSubgraphs q = false.

(** A caller that purges until nothing more is marked, as the comment on the cap asks. *)
Fixpoint purge_all (fuel : nat) (db : shards) : option shards :=
  match fuel with
  | O => None
  | S fuel =>
      match purge ToLower LOWER now (λ _, false) (λ _ s, s) q db with
      | (_, Err _) => None
      | (db, Ok n) => if bool_decide (n = 0%nat) then Some db else purge_all fuel db
      end
  end.

Definition purge_step (conds : list condition) (restrict : Z) (n : nat) (idx : Z) (s : shard) : shard * nat :=
  if skipped restrict idx then (s, 0%nat) else purge_shard LOWER now (purge_conds conds idx) n id s.

Lemma purge_alone db conds restrict : purge_allowed → queryClauses db q CRootsOnly = Ok (conds, restrict) →
  purge ToLower LOWER now (λ _, false) (λ _ s, s) q db =
    (map_imap (λ idx s, Some (purge_step conds restrict (perShardLimit purge_limit db restrict) idx s).1) db,
     Ok (sum_list_with (λ e, (purge_step conds restrict (perShardLimit purge_limit db restrict) e.1 e.2).2) (map_to_list db))).
Proof.
  intros [Hf Hs] Hq. unfold purge. rewrite bool_decide_eq_false_2 by done. rewrite Hs, Hq. cbn zeta. fold purge_limit.
  assert (∀ l : list (Z * shard), existsb (λ e, negb (negb (bool_decide (restrict = 0)) && negb (bool_decide (e.1 = restrict))) && false) l = false) as ->.
  { induction l as [|e l IH]; [done|]. cbn [existsb]. by rewrite andb_false_r. }
  f_equal.
  - apply map_eq. intros idx. rewrite !map_lookup_imap. destruct (db !! idx) as [s|]; [|done]. cbn. unfold purge_step, skipped.
    by destruct (negb _ && negb _).
  - f_equal. induction (map_to_list db) as [|[idx s] l IH]; [done|]. cbn [sum_list_with]. rewrite IH. f_equal.
    unfold purge_step, skipped. cbn. by destruct (negb _ && negb _).
Qed.

Section purging_steps.
Context (conds : list condition) (restrict : Z) (n : nat) (Hn : (0 < n)%nat).

Definition purge_next (db : shards) : shards := map_imap (λ idx s, Some (purge_step conds restrict n idx s).1) db.
Definition purge_sum (db : shards) : nat := sum_list_with (λ e, (purge_step conds restrict n e.1 e.2).2) (map_to_list db).
Definition to_mark (idx : Z) (s : shard) : Z :=
  if skipped restrict idx then 0 else Z.of_nat (size (remaining LOWER now (purge_conds conds idx) s)).
Definition purge_left (db : shards) : Z := map_sum to_mark db.
Definition purged (idx : Z) (s : shard) : shard := if skipped restrict idx then s else marked LOWER now (purge_conds conds idx) s.

Lemma purge_next_lookup db idx : purge_next db !! idx = (λ s, (purge_step conds restrict n idx s).1) <$> db !! idx.
Proof. unfold purge_next. rewrite map_lookup_imap. by destruct (db !! idx). Qed.
Lemma stamp_all_identity ids s id : option_relation same_identity (λ _, False) (λ _, False) (q_flows s !! id) (q_flows (stamp_all ids s) !! id).
Proof. rewrite stamp_all_lookup. destruct (q_flows s !! id) as [f|]; [|exact I]. cbn. by destruct (_ && _). Qed.
Lemma purge_next_same db : same_shards db (purge_next db).
Proof.
  intros idx. rewrite purge_next_lookup. destruct (db !! idx) as [s|]; [|done]. cbn. intros id. unfold purge_step.
  destruct (skipped restrict idx); [destruct (q_flows s !! id) as [f|] eqn:Hf; cbn; rewrite Hf; done|]. apply stamp_all_identity.
Qed.
Lemma purged_next idx s : purged idx (purge_step conds restrict n idx s).1 = purged idx s.
Proof. unfold purged, purge_step. destruct (skipped restrict idx); [done|]. apply marked_stamp_all. Qed.

(** A shard the step counts nothing on is as it is to be. *)
Lemma purge_step_nothing idx s : (purge_step conds restrict n idx s).2 = 0%nat → (purge_step conds restrict n idx s).1 = s ∧ purged idx s = s.
Proof using Hn.
  unfold purge_step, purged. destruct (skipped restrict idx); [done|]. unfold purge_shard. cbn [fst snd Datatypes.id]. rewrite purge_count.
  intros Hnil%nil_length_inv. pose proof (purge_ids_nil LOWER now _ _ _ Hn Hnil) as Hno. pose proof (marked_none LOWER now _ _ Hno) as Hm.
  split; [|done]. rewrite Hnil. rewrite <-(set_flows_same s) at 2. unfold stamp_all. f_equal. apply map_eq. intros i. rewrite map_lookup_imap.
  by destruct (q_flows s !! i).
Qed.
Lemma purge_step_less idx s : to_mark idx (purge_step conds restrict n idx s).1 ≤ to_mark idx s
  ∧ ((purge_step conds restrict n idx s).2 ≠ 0%nat → to_mark idx (purge_step conds restrict n idx s).1 < to_mark idx s).
Proof using Hn.
  destruct (decide ((purge_step conds restrict n idx s).2 = 0%nat)) as [Hz|Hz].
  - destruct (purge_step_nothing idx s Hz) as [-> _]. done.
  - assert (to_mark idx (purge_step conds restrict n idx s).1 < to_mark idx s); [|lia]. revert Hz. unfold purge_step, to_mark.
    destruct (skipped restrict idx); [done|]. unfold purge_shard. cbn [fst snd Datatypes.id]. rewrite purge_count. intros Hz.
    assert (purge_ids LOWER now (purge_conds conds idx) n s ≠ []) as Hne by (intros Hnil; by rewrite Hnil in Hz).
    pose proof (remaining_less LOWER now _ _ _ Hne). lia.
Qed.
Lemma purge_next_nothing db : purge_sum db = 0%nat → purge_next db = db ∧ map_Forall (λ idx s, purged idx s = s) db.
Proof using Hn.
  intros Hz. assert (∀ idx s, db !! idx = Some s → (purge_step conds restrict n idx s).2 = 0%nat) as Hall.
  { intros idx s Hs. apply elem_of_map_to_list in Hs. unfold purge_sum in Hz. induction (map_to_list db) as [|e l IH]; [by apply not_elem_of_nil in Hs|].
    cbn in Hz. apply elem_of_cons in Hs as [<-|Hs]; [cbn in Hz; lia|apply IH; [lia|done]]. }
  split.
  - apply map_eq. intros idx. rewrite purge_next_lookup. destruct (db !! idx) as [s|] eqn:Hs; [|done]. cbn.
    by destruct (purge_step_nothing idx s (Hall idx s Hs)) as [-> _].
  - intros idx s Hs. apply (purge_step_nothing idx s (Hall idx s Hs)).
Qed.
Lemma purge_left_less db : purge_sum db ≠ 0%nat → purge_left (purge_next db) < purge_left db.
Proof using Hn.
  unfold purge_sum, purge_left. assert (map_sum to_mark (purge_next db) = map_sum (λ idx s, to_mark idx (purge_step conds restrict n idx s).1) db) as ->.
  { unfold purge_next. induction db as [|k a m Hk IH] using map_ind; [done|]. rewrite map_imap_insert. cbn [fst].
    rewrite !map_sum_insert_new; [by rewrite IH|done|]. by rewrite map_lookup_imap, Hk. }
  induction db as [|k a m Hk IH] using map_ind; [by rewrite map_to_list_empty|]. rewrite map_to_list_insert by done. cbn [sum_list_with fst snd]. intros Hne.
  rewrite !map_sum_insert_new by done. destruct (purge_step_less k a) as [Hle Hlt].
  destruct (decide (sum_list_with (λ e, (purge_step conds restrict n e.1 e.2).2) (map_to_list m) = 0%nat)) as [Hz|Hz].
  - assert (map_sum (λ idx s, to_mark idx (purge_step conds restrict n idx s).1) m ≤ map_sum to_mark m).
    { clear -Hn. induction m as [|i b m Hi IH] using map_ind; [done|]. rewrite !map_sum_insert_new by done. pose proof (purge_step_less i b). lia. }
    specialize (Hlt ltac:(lia)). lia.
  - specialize (IH Hz). lia.
Qed.
End purging_steps.

Lemma purge_limit_pos db restrict : (0 < perShardLimit purge_limit db restrict)%nat.
Proof.
  unfold perShardLimit, purge_limit, purgeCap. destruct (bool_decide (restrict = 0) && _); [lia|].
  destruct (decide (Limit q ≤ 0)); [rewrite bool_decide_eq_true_2 by done; cbn; lia|].
  rewrite (bool_decide_eq_false_2 (Limit q ≤ 0)) by done. cbn [orb]. destruct (bool_decide (4096 < Limit q)); lia.
Qed.

Lemma purge_all_marks fuel db conds restrict : purge_allowed → queryClauses db q CRootsOnly = Ok (conds, restrict) →
  purge_left conds restrict db < Z.of_nat fuel →
  purge_all fuel db = Some (map_imap (λ idx s, Some (purged conds restrict idx s)) db).
Proof.
  intros Ha. revert db. induction fuel as [|fuel IH]; intros db Hq Hlt.
  { assert (0 ≤ purge_left conds restrict db); [|lia]. apply map_sum_nonneg. intros idx s. unfold to_mark. destruct (skipped restrict idx); lia. }
  cbn [purge_all]. rewrite (purge_alone db conds restrict Ha Hq). set (n := perShardLimit purge_limit db restrict).
  fold (purge_next conds restrict n db) (purge_sum conds restrict n db). pose proof (purge_limit_pos db restrict) as Hn. fold n in Hn.
  destruct (decide (purge_sum conds restrict n db = 0%nat)) as [Hz|Hz].
  - rewrite (bool_decide_eq_true_2 (purge_sum _ _ _ _ = _)) by done. destruct (purge_next_nothing conds restrict n Hn db Hz) as [-> Hall].
    f_equal. symmetry. apply map_eq. intros idx. rewrite map_lookup_imap. destruct (db !! idx) as [s|] eqn:Hs; [|done]. cbn. f_equal. exact (Hall idx s Hs).
  - rewrite (bool_decide_eq_false_2 (purge_sum _ _ _ _ = _)) by done. rewrite IH.
    + f_equal. apply map_eq. intros idx. rewrite !map_lookup_imap, purge_next_lookup. destruct (db !! idx) as [s|]; [|done]. cbn. by rewrite purged_next.
    + rewrite <-Hq. apply same_shards_clauses, purge_next_same.
    + pose proof (purge_left_less conds restrict n Hn db Hz). lia.
Qed.
End purging_all.

(** Purging until nothing more is marked ends, and has then marked every root that matches and is not running, whatever
    the limit, and nothing else. *)
Theorem purging_to_zero_marks_all ToLower LOWER now q db conds restrict :
  purge_allowed q → queryClauses db q CRootsOnly = Ok (conds, restrict) →
  purge_all ToLower LOWER now q (S (Z.to_nat (map_sum (λ _ s, Z.of_nat (size (q_flows s))) db))) db
    = Some (map_imap (λ idx s, Some (purged ToLower LOWER now q conds restrict idx s)) db).
Proof.
  intros Ha Hq. apply purge_all_marks; [done|done|].
  assert (purge_left ToLower LOWER now q conds restrict db ≤ map_sum (λ _ s, Z.of_nat (size (q_flows s))) db); [|lia].
  unfold purge_left. clear -q. induction db as [|k a m Hk IH] using map_ind; [done|]. rewrite !map_sum_insert_new by done.
  assert (to_mark ToLower LOWER now q conds restrict k a ≤ Z.of_nat (size (q_flows a))); [|lia]. unfold to_mark.
  destruct (skipped restrict k); [lia|]. unfold remaining. rewrite <-!size_dom. apply inj_le, subseteq_size, dom_filter_subseteq.
Qed.

(** The marks of one call stay on roots that nobody runs, whatever others do between its two statements. *)
Theorem purge_spares_running ToLower LOWER now fails meanwhile q db idx s id f :
  db !! idx = Some s → q_flows (meanwhile idx s) !! id = Some f →
  ∃ s', (purge ToLower LOWER now fails meanwhile q db).1 !! idx = Some s'
    ∧ (s' = s ∨ q_steps s' = q_steps (meanwhile idx s)
       ∧ (q_flows s' !! id = Some f
          ∨ q_flows s' !! id = Some (stamp f) ∧ stampable f = true
            ∧ ∃ f0, q_flows s !! id = Some f0 ∧ q_parent f0 = 0 ∧ stampable f0 = true)).
Proof.
  intros Hs Hf. unfold purge. case_bool_decide; [exists s; auto|]. destruct (IncludeSubgraphs q); [exists s; auto|].
  destruct (queryClauses db q CRootsOnly) as [[conds restrict]|e] eqn:Hq; [|exists s; auto]. cbn [fst].
  rewrite map_lookup_imap, Hs. cbn [option_bind mbind]. destruct (_ || _).
  { eexists. split; [done|]. right. auto. }
  eexists. split; [done|]. right. split; [done|]. unfold purge_shard. cbn [fst]. rewrite stamp_all_lookup, Hf. cbn [fmap option_fmap option_map].
  destruct (bool_decide _ && stampable f) eqn:Hb; [|auto]. right. apply andb_true_iff in Hb as [Hin Hst]. split; [done|]. split; [done|].
  apply bool_decide_eq_true in Hin. apply purge_ids_spec in Hin as (f0 & Hf0 & Hm). exists f0. split; [done|].
  apply andb_true_iff in Hm as [Hm ?]. split; [|done]. unfold all_hold in Hm. rewrite forallb_app in Hm. apply andb_true_iff in Hm as [Hm _].
  enough (holds LOWER now id f0 CRootsOnly = true) as Hr by (cbn in Hr; by apply bool_decide_eq_true in Hr).
  rewrite forallb_forall in Hm. apply (Hm CRootsOnly). revert Hq. unfold queryClauses. clear.
  destruct (_ && _); [done|]. destruct (if bool_decide (Status q = "") then _ else _) as [?|]; [|done]. cbn [rbind].
  destruct (if bool_decide (ThreadKey q = "") then _ else _) as [[??]|]; [|done]. cbn [rbind]. intros [= <- _]. by left.
Qed.

Definition aged (d limit : Z) (search : string) : query := mkQuery "" "" "" "" "" "" 0 d 0 false 0 "" search limit.

(** [Purge] takes a negative [OlderThan] for a filter, but makes no condition of it: with nothing else, it marks what the
    query without any filter would, which it refuses. *)
Theorem purge_of_negative_age d limit search db : d < 0 →
  purge_allowed (aged d limit search) ∧ ¬ purge_allowed (aged 0 limit search)
  ∧ queryClauses db (aged d limit search) CRootsOnly = queryClauses db (aged 0 limit search) CRootsOnly.
Proof.
  intros Hd. split; [|split].
  - split; [|done]. cbn. lia.
  - intros [H _]. by apply H.
  - unfold queryClauses. cbn. by rewrite (bool_decide_eq_false_2 (0 < d)) by lia.
Qed.

(** ** Reaping *)

Section reaping.
Context (now : Z).

(** A root is its own tree's. *)
Definition roots_ok (s : shard) : Prop := map_Forall (λ id f, q_parent f = 0 → q_root f = id) (q_flows s).
Definition due_set (s : shard) : list Z := (by_flow_id (filter (λ e, due now e = true) (map_to_list (q_flows s)))).*1.

Lemma due_roots_take n s : due_roots now n s = take n (due_set s).
Proof. unfold due_roots, due_set. by rewrite fmap_take. Qed.
Lemma elem_of_due_set s id : id ∈ due_set s ↔ ∃ f, q_flows s !! id = Some f ∧ due now (id, f) = true.
Proof.
  unfold due_set. rewrite list_elem_of_fmap. setoid_rewrite by_flow_id_perm. setoid_rewrite list_elem_of_filter.
  setoid_rewrite elem_of_map_to_list'. split.
  - intros ([i f] & -> & Hd & Hf). by exists f.
  - intros (f & Hf & Hd). by exists (id, f).
Qed.

Lemma delete_trees_flow roots s id : q_flows (delete_trees roots s) !! id = f ← q_flows s !! id; if in_trees roots f then None else Some f.
Proof.
  cbn. destruct (q_flows s !! id) as [f|] eqn:Hf; cbn.
  - destruct (in_trees roots f) eqn:Hin; [apply map_lookup_filter_None_2; right; intros ? Hf'; rewrite Hf in Hf'; injection Hf' as <-; by cbn; rewrite Hin|].
    by apply map_lookup_filter_Some_2.
  - by apply map_lookup_filter_None_2; left.
Qed.
Lemma delete_trees_step roots s sid : q_steps (delete_trees roots s) !! sid =
  fid ← q_steps s !! sid; if match q_flows s !! fid with Some f => in_trees roots f | None => false end then None else Some fid.
Proof.
  cbn. destruct (q_steps s !! sid) as [fid|] eqn:Hf; cbn.
  - destruct (match q_flows s !! fid with Some f => in_trees roots f | None => false end) eqn:Hin.
    + apply map_lookup_filter_None_2. right. intros ? Hf'. rewrite Hf in Hf'. injection Hf' as <-. by cbn; rewrite Hin.
    + by apply map_lookup_filter_Some_2.
  - by apply map_lookup_filter_None_2; left.
Qed.
Lemma in_trees_app a b f : in_trees (a ++ b) f = in_trees a f || in_trees b f.
Proof. unfold in_trees. rewrite <-bool_decide_or. apply bool_decide_ext. by rewrite elem_of_app. Qed.

Lemma shard_ext s s' : q_flows s = q_flows s' → q_steps s = q_steps s' → s = s'.
Proof. destruct s, s'. cbn. by intros -> ->. Qed.

(** Trees go one batch after the other as they would all at once. *)
Lemma delete_trees_app a b s : delete_trees b (delete_trees a s) = delete_trees (a ++ b) s.
Proof.
  apply shard_ext; apply map_eq; intros i.
  - rewrite !delete_trees_flow. destruct (q_flows s !! i) as [f|]; [|done]. cbn [mbind option_bind]. rewrite in_trees_app.
    by destruct (in_trees a f).
  - rewrite !delete_trees_step. destruct (q_steps s !! i) as [fid|]; [|done]. cbn [mbind option_bind].
    destruct (q_flows s !! fid) as [f|] eqn:Hf.
    + rewrite in_trees_app. destruct (in_trees a f) eqn:Ha; [done|]. cbn [orb mbind option_bind].
      rewrite delete_trees_flow, Hf. cbn [mbind option_bind]. by rewrite Ha.
    + cbn [mbind option_bind]. by rewrite delete_trees_flow, Hf.
Qed.
Lemma delete_trees_nil s : delete_trees [] s = s.
Proof.
  destruct s as [fs ss]. unfold delete_trees. cbn. f_equal; apply map_eq; intros i; [destruct (fs !! i) eqn:H|destruct (ss !! i) as [j|] eqn:H].
  - by apply map_lookup_filter_Some_2.
  - by apply map_lookup_filter_None_2; left.
  - apply map_lookup_filter_Some_2; [done|]. cbn. by destruct (fs !! j).
  - by apply map_lookup_filter_None_2; left.
Qed.

(** What is left due after a batch. *)
Lemma due_after roots s id : roots_ok s → (∀ r, r ∈ roots → r ∈ due_set s) → id ∈ due_set (delete_trees roots s) ↔ id ∈ due_set s ∧ id ∉ roots.
Proof.
  intros Hok Hsub. rewrite !elem_of_due_set. setoid_rewrite delete_trees_flow. split.
  - intros (f & Hf & Hd). destruct (q_flows s !! id) as [f0|] eqn:Hf0; [|done]. cbn in Hf. destruct (in_trees roots f0) eqn:Hin; [done|].
    injection Hf as ->. split; [by exists f|]. intros Hr. unfold in_trees in Hin. apply bool_decide_eq_false in Hin. apply Hin.
    rewrite (Hok id f Hf0); [done|]. unfold due in Hd. rewrite !andb_true_iff, !bool_decide_eq_true in Hd. by destruct Hd as [[_ ?] _].
  - intros [(f & Hf & Hd) Hn]. exists f. rewrite Hf. cbn. split; [|done]. unfold in_trees. rewrite bool_decide_eq_false_2; [done|].
    intros Hr. apply Hn. rewrite <-(Hok id f Hf); [done|]. unfold due in Hd. rewrite !andb_true_iff, !bool_decide_eq_true in Hd. by destruct Hd as [[_ ?] _].
Qed.
Lemma roots_ok_after roots s : roots_ok s → roots_ok (delete_trees roots s).
Proof.
  intros Hok id f. rewrite delete_trees_flow. destruct (q_flows s !! id) as [f0|] eqn:Hf; [|done]. cbn. destruct (in_trees roots f0); [done|].
  intros [= <-]. exact (Hok id f0 Hf).
Qed.
End reaping.

Section reaped.
Context (now : Z) (batch : nat).

Lemma reap_deletes_due events s s' : roots_ok s → reap now batch events s = Some s' →
  ∃ roots, roots ⊆ due_set now s ∧ s' = delete_trees roots s.
Proof.
  revert s. induction events as [|ev events IH]; intros s Hok; [done|]. assert (∃ roots, roots ⊆ due_set now s ∧ s = delete_trees roots s) as Hsame.
  { exists []. split; [by intros r ?%not_elem_of_nil|by rewrite delete_trees_nil]. }
  set (roots := due_roots now batch s). assert (roots ⊆ due_set now s) as Hsub.
  { intros r. unfold roots. rewrite due_roots_take. intros (i & Hr & _)%elem_of_take. by apply list_elem_of_lookup_2 in Hr. }
  cbn [reap]. fold roots. destruct ev; [by intros [= <-]|by intros [= <-]|by destruct roots; intros [= <-]|].
  destruct roots as [|r l] eqn:Hr; [by intros [= <-]|]. rewrite <-Hr in *. clearbody roots. clear Hr.
  case_bool_decide as Hlen; [intros [= <-]; by exists roots|]. intros (more & Hmore & ->)%IH; [|by apply roots_ok_after].
  exists (roots ++ more). split; [|apply delete_trees_app]. intros x [Hx|Hx]%elem_of_app; [by apply Hsub|].
  apply Hmore, due_after in Hx; [by destruct Hx|done|exact Hsub].
Qed.

Lemma delete_trees_ext a b s : (∀ r, r ∈ a ↔ r ∈ b) → delete_trees a s = delete_trees b s.
Proof.
  intros H. assert (∀ f, in_trees a f = in_trees b f) as Hf by (intros f; by apply bool_decide_ext).
  apply shard_ext; apply map_eq; intros i.
  - rewrite !delete_trees_flow. destruct (q_flows s !! i) as [f|]; [|done]. cbn [mbind option_bind]. by rewrite Hf.
  - rewrite !delete_trees_step. destruct (q_steps s !! i) as [fid|]; [|done]. cbn [mbind option_bind]. destruct (q_flows s !! fid); [|done]. by rewrite Hf.
Qed.
Lemma due_set_NoDup s : NoDup (due_set now s).
Proof.
  unfold due_set. rewrite by_flow_id_perm. eapply sublist_NoDup; [apply (NoDup_fst_map_to_list (q_flows s))|]. apply fmap_sublist, sublist_filter.
Qed.

Lemma reap_goes fuel s : roots_ok s → (0 < batch)%nat → (length (due_set now s) < fuel)%nat →
  reap now batch (replicate fuel RGoes) s = Some (delete_trees (due_set now s) s).
Proof.
  intros Hok Hb. revert s Hok. induction fuel as [|fuel IH]; intros s Hok Hlt; [lia|]. cbn [replicate reap].
  rewrite due_roots_take. set (due := due_set now s) in *. destruct (take batch due) as [|r l] eqn:Hr.
  { assert (due = []) as -> by (destruct due; [done|by destruct batch; [lia|]]). by rewrite delete_trees_nil. }
  rewrite <-Hr. case_bool_decide as Hlen.
  { rewrite length_take in Hlen. by rewrite take_ge by lia. }
  assert (Permutation (due_set now (delete_trees (take batch due) s)) (drop batch due)) as Hp.
  { pose proof (due_set_NoDup s) as Hnd. fold due in Hnd. apply NoDup_Permutation; [apply due_set_NoDup|eapply sublist_NoDup; [exact Hnd|apply sublist_drop]|].
    intros x. rewrite due_after; [|done|]. 2: { intros y (i & Hy & _)%elem_of_take. by apply list_elem_of_lookup_2 in Hy. }
    fold due. rewrite <-(take_drop batch due) in Hnd. apply NoDup_app in Hnd as (_ & Hd & _).
    rewrite <-(take_drop batch due) at 1. rewrite elem_of_app. split; [tauto|]. intros Hx. split; [auto|]. intros Ht. by apply (Hd x). }
  rewrite IH; [|by apply roots_ok_after|].
  - rewrite delete_trees_app. f_equal. apply delete_trees_ext. intros x. rewrite elem_of_app, Hp, <-elem_of_app, take_drop. done.
  - rewrite Hp, length_drop. apply (f_equal length) in Hr. rewrite length_take in Hr. cbn in Hr. lia.
Qed.
End reaped.

(** C28. A pass of the reaper removes nothing but trees of due roots, each whole, however it is cut short; and when nothing cuts
    it short it ends and leaves exactly the flows, and the steps of the flows, whose root is not due. *)
Theorem reaper_removes_due_trees now batch s : roots_ok s → (0 < batch)%nat →
  (∀ events s', reap now batch events s = Some s' → ∃ roots, roots ⊆ due_set now s ∧ s' = delete_trees roots s)
  ∧ ∃ s', reap now batch (replicate (S (length (due_set now s))) RGoes) s = Some s' ∧ due_set now s' = []
      ∧ (∀ id f, q_flows s' !! id = Some f ↔ q_flows s !! id = Some f ∧ q_root f ∉ due_set now s)
      ∧ (∀ sid fid, q_steps s' !! sid = Some fid ↔
           q_steps s !! sid = Some fid ∧ ∀ f, q_flows s !! fid = Some f → q_root f ∉ due_set now s).
Proof.
  intros Hok Hb. split; [intros events s'; by apply reap_deletes_due|]. exists (delete_trees (due_set now s) s). split; [|split; [|split]].
  - by apply reap_goes; [..|lia].
  - apply elem_of_nil_inv. intros x. rewrite due_after by done. tauto.
  - intros id f. rewrite delete_trees_flow. destruct (q_flows s !! id) as [f0|]; [|naive_solver]. cbn [mbind option_bind]. unfold in_trees.
    case_bool_decide; naive_solver.
  - intros sid fid. rewrite delete_trees_step. destruct (q_steps s !! sid) as [fid0|]; [|naive_solver]. cbn [mbind option_bind].
    destruct (q_flows s !! fid0) as [f0|] eqn:Hf; [|naive_solver]. unfold in_trees. case_bool_decide; naive_solver.
Qed.

(** ** Witnesses *)

Definition a_flow (root parent after : Z) (st : status_t) : qflow :=
  mkQFlow "tok" st parent root root after 100 "https://host/flow" "flow" (Some "task") "" "" "tenant" 5.
(** A root with two children, an interrupted root, and a root still running. *)
Definition shard_1 : shard :=
  mkShard (<[1 := a_flow 1 0 0 StatusCompleted]> (<[2 := a_flow 1 1 0 StatusCompleted]> (<[3 := a_flow 1 2 0 StatusFailed]>
          (<[4 := a_flow 4 0 0 StatusInterrupted]> (<[5 := a_flow 5 0 0 StatusRunning]> ∅)))))
    (<[11 := 1]> (<[12 := 3]> (<[13 := 5]> ∅))).
Definition shard_2 : shard := mkShard (<[7 := a_flow 7 0 0 StatusCompleted]> (<[9 := a_flow 9 0 0 StatusCompleted]> ∅)) (<[11 := 9]> ∅).
Definition two_shards : shards := <[1 := shard_1]> (<[2 := shard_2]> ∅).
Definition shard_due : shard :=
  mkShard (<[1 := a_flow 1 0 1 StatusCompleted]> (<[2 := a_flow 1 1 0 StatusRunning]>
          (<[4 := a_flow 4 0 1 StatusTerminated]> (<[5 := a_flow 5 0 5000 StatusCompleted]> ∅))))
    (<[11 := 1]> (<[12 := 2]> (<[13 := 5]> ∅))).
Definition of_url (limit : Z) : query := mkQuery "" "https://host/flow" "" "" "" "" 0 0 0 false 0 "" "HOST" limit.
Definition lower_h (s : string) : string := if bool_decide (s = "HOST") then "host" else s.

Lemma list_pages_cover_witness :
  (∃ pages, all_pages lower_h id 8 200 two_shards (with_cursor "" (of_url 2)) = Some pages
    ∧ ∀ idx s, two_shards !! idx = Some s → of_shard idx (concat pages) = wanted lower_h id 200 (of_url 2) [CRootsOnly; CUrl "https://host/flow"] 0 idx s)
  ∧ (wanted lower_h id 200 (of_url 2) [CRootsOnly; CUrl "https://host/flow"] 0 1 shard_1).*1 = [5; 4; 1].
Proof.
  split; [|by vm_compute]. change 8%nat with (S (Z.to_nat (map_sum (λ _ s, Z.of_nat (size (q_flows s))) two_shards))).
  apply list_pages_cover; [|reflexivity]. intros idx s Hs. unfold two_shards in Hs.
  assert ((idx = 1 ∧ s = shard_1) ∨ (idx = 2 ∧ s = shard_2)) as Hc.
  { apply lookup_insert_Some in Hs as [[<- <-]|[_ Hs]]; [by left|]. apply lookup_insert_Some in Hs as [[<- <-]|[_ Hs]]; [by right|]. by rewrite lookup_empty in Hs. }
  split; [lia|]. assert (map_Forall (λ id _, 0 ≤ id < 2 ^ 63) (q_flows shard_1) ∧ map_Forall (λ id _, 0 ≤ id < 2 ^ 63) (q_flows shard_2)) as [H1 H2].
  { split; apply (bool_decide_unpack _); vm_compute; exact I. }
  by destruct Hc as [[_ ->]|[_ ->]].
Defined.

Lemma purging_to_zero_marks_all_witness :
  purge_all id id 200 (aged 1 2 "") 8 two_shards = Some (map_imap (λ idx s, Some (purged id id 200 (aged 1 2 "") [CRootsOnly; CUpdatedBefore 0] 0 idx s)) two_shards)
  ∧ q_status <$> (q_flows (purged id id 200 (aged 1 2 "") [CRootsOnly; CUpdatedBefore 0] 0 1 shard_1) !! 4) = Some StatusTerminated.
Proof.
  split; [|by vm_compute]. change 8%nat with (S (Z.to_nat (map_sum (λ _ s, Z.of_nat (size (q_flows s))) two_shards))).
  apply purging_to_zero_marks_all; [|reflexivity]. split; [intros (_ & _ & _ & H); discriminate|reflexivity].
Defined.

(** The interrupted root resumes between the two statements. *)
Definition resumed (s : shard) : shard := set_flows (<[4 := a_flow 4 0 0 StatusRunning]> (q_flows s)) s.

Lemma purge_spares_running_witness :
  ∃ s', (purge id id 200 (λ _, false) (λ _, resumed) (aged 1 2 "") two_shards).1 !! 1 = Some s'
    ∧ (s' = shard_1 ∨ q_steps s' = q_steps (resumed shard_1)
       ∧ (q_flows s' !! 4 = Some (a_flow 4 0 0 StatusRunning)
          ∨ q_flows s' !! 4 = Some (stamp (a_flow 4 0 0 StatusRunning)) ∧ stampable (a_flow 4 0 0 StatusRunning) = true
            ∧ ∃ f0, q_flows shard_1 !! 4 = Some f0 ∧ q_parent f0 = 0 ∧ stampable f0 = true)).
Proof. apply (purge_spares_running id id 200 (λ _, false) (λ _, resumed) (aged 1 2 "") two_shards 1 shard_1 4); reflexivity. Defined.

Lemma purge_of_negative_age_witness :
  purge_allowed (aged (-1) 2 "") ∧ ¬ purge_allowed (aged 0 2 "")
  ∧ queryClauses two_shards (aged (-1) 2 "") CRootsOnly = queryClauses two_shards (aged 0 2 "") CRootsOnly.
Proof. apply purge_of_negative_age. lia. Defined.

Lemma reaper_removes_due_trees_witness :
  (∀ events s', reap 200 1 events shard_due = Some s' → ∃ roots, roots ⊆ due_set 200 shard_due ∧ s' = delete_trees roots shard_due)
  ∧ ∃ s', reap 200 1 (replicate (S (length (due_set 200 shard_due))) RGoes) shard_due = Some s' ∧ due_set 200 s' = []
      ∧ (∀ id f, q_flows s' !! id = Some f ↔ q_flows shard_due !! id = Some f ∧ q_root f ∉ due_set 200 shard_due)
      ∧ (∀ sid fid, q_steps s' !! sid = Some fid ↔
           q_steps shard_due !! sid = Some fid ∧ ∀ f, q_flows shard_due !! fid = Some f → q_root f ∉ due_set 200 shard_due).
Proof.
  apply reaper_removes_due_trees; [|lia]. unfold roots_ok. apply (bool_decide_unpack _). vm_compute. exact I.
Defined.
