(* ===== verification/Thread.v ===== *)
(** * Creating and continuing flows ([create], [resolveThread], [insertFlowTx], [createWithGraph] of [engine/operations.go],
    [resolveFlowOptions] of [engine/engine.go], [continueFlow] of [engine/history.go])

    A thread is a chain of flows on one shard that share the id of its first flow, the anchor.  [create] starts or joins
    one; [continueFlow] appends to it a flow that begins from the final state of the latest one.  The second half has the
    statements of any number of [continueFlow]s interleaved with everything else that touches the flows of a shard: what
    the lock on the anchor row gives, and what remains of it once that row is gone.

    The host's [LoadGraph], the tokens that are drawn, the shard that is picked and the engine's defaults are arguments.
    Baggage and states are decoded; a duration is in nanoseconds. *)

From S2P Require Import Prelude Float64 Reducers State Graph Keys StepRow.

#[local] Open Scope Z_scope.

(** ** The tables of a shard *)

Record turn := mkTurn {
  u_token : string;
  u_url : string;
  u_name : string;
  u_graph : Graph;
  u_baggage : State;
  u_status : status_t;
  u_final : State;
  u_surgraph : Z;
  u_caller : Z;
  u_disposable : bool;
  u_priority : Z;
  u_fairness : string;
  u_weight : float64;
  u_budget : Z;
  u_thread : Z;
  u_thread_token : string;
  u_step : Z;
  u_root : Z;
  u_forked : Z;
  u_delete_after : Z
}.
Record estep := mkEstep {
  e_flow : Z;
  e_depth : Z;
  e_token : string;
  e_task : string;
  e_url : string;
  e_state : State;
  e_status : status_t;
  e_budget : Z;
  e_priority : Z;
  e_fairness : string;
  e_weight : float64
}.

(** The flows and steps by id, and the ids the database gives next. *)
Record turn_table := mkTable { t_flows : gmap Z turn; t_steps : gmap Z estep; next_flow : Z; next_step : Z }.

Inductive t_error := TBadRequest | TNotFound | TConflict | TNoShard | TLoad | TState (e : state_error) | TMarshal | TDatabase.

(** ** [insertFlowTx] *)

Record flowSeed := mkSeed {
  s_url : string;
  s_name : string;
  s_graph : Graph;
  s_baggage : State;
  s_state : State;
  s_token : string;
  s_step_token : string;
  s_entry : string;
  s_entry_url : string;
  s_budget : Z;
  s_disposable : bool;
  s_surgraph : Z;
  s_caller : Z;
  s_caller_depth : Z;
  s_thread : Z;
  s_thread_token : string;
  s_root : Z;
  s_priority : Z;
  s_fairness : string;
  s_weight : float64
}.

Definition seeded_flow (newFlowID newStepID : Z) (s : flowSeed) : turn :=
  let '(tid, ttok) := if bool_decide (s_thread s = 0) then (newFlowID, s_token s) else (s_thread s, s_thread_token s) in
  let rfid := if bool_decide (s_root s = 0) then newFlowID else s_root s in
  mkTurn (s_token s) (s_url s) (s_name s) (s_graph s) (s_baggage s) StatusRunning ∅ (s_surgraph s) (s_caller s) (s_disposable s)
    (s_priority s) (s_fairness s) (s_weight s) (s_budget s) tid ttok newStepID rfid 0 0.
Definition seeded_step (newFlowID : Z) (s : flowSeed) : estep :=
  mkEstep newFlowID (s_caller_depth s + 1) (s_step_token s) (s_entry s) (s_entry_url s) (s_state s) StatusPending
    (s_budget s) (s_priority s) (s_fairness s) (s_weight s).
Definition insertFlowTx (s : flowSeed) (d : turn_table) : Z * turn_table :=
  (next_flow d,
   mkTable (<[next_flow d := seeded_flow (next_flow d) (next_step d) s]> (t_flows d))
     (<[next_step d := seeded_step (next_flow d) s]> (t_steps d)) (next_flow d + 1) (next_step d + 1)).

(** ** [create] *)

Record FlowOptions := mkOptions {
  Priority : Z;
  FairnessKey : string;
  FairnessWeight : float64;
  TimeBudget : Z;
  DeleteOnCompletion : bool;
  Baggage : State;
  ThreadKey : string
}.
Definition zero_options : FlowOptions := mkOptions 0 "" f0 0 false ∅ "".

Record defaults := mkDefaults { defaultPriority : Z; timeBudgetMs : Z }.

Definition ns_per_ms : Z := 10 ^ 6.
Definition taskTimeBudget (e : defaults) : Z := timeBudgetMs e * ns_per_ms.
Definition SetTimeBudget (d : Z) (e : defaults) : result t_error defaults :=
  if bool_decide (d < ns_per_ms) then Err TBadRequest else Ok (mkDefaults (defaultPriority e) (d `quot` ns_per_ms)).

Definition resolveFlowOptions (e : defaults) (opts : option FlowOptions) : FlowOptions :=
  match opts with
  | None => mkOptions (defaultPriority e) "" f1 (taskTimeBudget e) false ∅ ""
  | Some o =>
      mkOptions (if bool_decide (0 < Priority o) then Priority o else defaultPriority e) (FairnessKey o)
        (if flt f0 (FairnessWeight o) then FairnessWeight o else f1)
        (if bool_decide (0 < TimeBudget o) then TimeBudget o else taskTimeBudget e)
        (DeleteOnCompletion o) (Baggage o) (ThreadKey o)
  end.

Definition checkOptions (opts : option FlowOptions) : result t_error unit :=
  match opts with
  | None => Ok tt
  | Some o =>
      if bool_decide (Priority o < 0) then Err TBadRequest
      else if flt (FairnessWeight o) f0 then Err TBadRequest
      else if bool_decide (TimeBudget o < 0) || bool_decide (0 < TimeBudget o) && bool_decide (TimeBudget o < ns_per_ms)
      then Err TBadRequest else Ok tt
  end.

Definition resolveThread (shards : gmap Z turn_table) (threadKey : string) : result t_error (Z * Z * string) :=
  match ParseFlowKey threadKey with
  | Err _ => Err TBadRequest
  | Ok (shardNum, flowID, flowToken) =>
      match shards !! shardNum with
      | None => Err TNoShard
      | Some d =>
          match t_flows d !! flowID with
          | None => Err TNotFound
          | Some f => if negb (bool_decide (u_token f = flowToken)) then Err TNotFound
                      else if negb (bool_decide (u_surgraph f = 0)) then Err TBadRequest
                      else Ok (shardNum, u_thread f, u_thread_token f)
          end
      end
  end.

Definition EntryPoint (g : Graph) : string := entryPoint g.
Definition dispatchURLOf (g : Graph) (nm : string) : string :=
  if bool_decide (nm = END) then nm else if bool_decide (URLOf nm g = "") then nm else URLOf nm g.

(** [json.Marshal] of a map of raw messages. *)
Definition marshals_field (r : raw) : bool := match r with Raw v => encodable v | Malformed b => bool_decide (b = "") end.
Definition marshals (s : State) : bool := bool_decide (map_Forall (λ _ r, marshals_field r = true) s).

(** The tokens of the new flow and of its entry step. *)
Definition drawn : Type := string * string.

Definition createWithGraph (e : defaults) (tok : drawn) (shards : gmap Z turn_table) (shardNum : Z) (workflowURL : string) (graph : Graph)
    (initialState : State) (threadID : Z) (threadToken : string) (opts : FlowOptions)
    (surgraphFlowID callerStepDepth surgraphStepID rootFlowID : Z) : gmap Z turn_table * result t_error string :=
  let entry := EntryPoint graph in
  if bool_decide (entry = "") then (shards, Err TBadRequest)
  else if negb (marshals (Baggage opts)) then (shards, Err TBadRequest)
  else if negb (marshals initialState) then (shards, Err TBadRequest)
  else
    let timeBudget := if bool_decide (TimeBudget opts ≤ 0) then taskTimeBudget e else TimeBudget opts in
    match shards !! shardNum with
    | None => (shards, Err TNoShard)
    | Some d =>
        let seed := mkSeed workflowURL (name graph) graph (Baggage opts) initialState tok.1 tok.2 entry (dispatchURLOf graph entry)
                      (timeBudget `quot` ns_per_ms) (DeleteOnCompletion opts) surgraphFlowID surgraphStepID callerStepDepth
                      threadID threadToken rootFlowID (Priority opts) (FairnessKey opts) (FairnessWeight opts) in
        let '(newFlowID, d) := insertFlowTx seed d in
        (<[shardNum := d]> shards, Ok (Keys.New shardNum newFlowID tok.1))
    end.

(** [loadGraph] is the host's, a panic of it being an error; [picked] is what [pickShard] answers; an [initialState] that is
    no object is [None]. *)
Definition create (boolexp_Validate : string → bool) (e : defaults) (loadGraph : State → string → result unit (option Graph)) (picked : option Z) (tok : drawn)
    (workflowURL : string) (initialState : option State) (opts : option FlowOptions) (shards : gmap Z turn_table)
    : gmap Z turn_table * result t_error string :=
  if bool_decide (workflowURL = "") then (shards, Err TBadRequest)
  else match checkOptions opts with
  | Err err => (shards, Err err)
  | Ok _ =>
      let opts := resolveFlowOptions e opts in
      match loadGraph (Baggage opts) workflowURL with
      | Err _ => (shards, Err TLoad)
      | Ok None => (shards, Err TNotFound)
      | Ok (Some graph) =>
          match Graph.Validate boolexp_Validate graph with
          | Err _ => (shards, Err TBadRequest)
          | Ok _ =>
              match (if bool_decide (ThreadKey opts = "") then match picked with Some s => Ok (s, 0, "") | None => Err TNoShard end
                     else resolveThread shards (ThreadKey opts)) with
              | Err err => (shards, Err err)
              | Ok (shardNum, threadID, threadToken) =>
                  match initialState with
                  | None => (shards, Err TBadRequest)
                  | Some st => createWithGraph e tok shards shardNum workflowURL graph st threadID threadToken opts 0 0 0 0
                  end
              end
          end
      end
  end.

(** ** [continueFlow] *)

(** The thread of the flow a key names. *)
Definition continue_resolve (flowID : Z) (flowToken : string) (d : turn_table) : result t_error (Z * string) :=
  match t_flows d !! flowID with
  | None => Err TNotFound
  | Some f => if negb (bool_decide (u_token f = flowToken)) then Err TNotFound
              else if negb (bool_decide (u_surgraph f = 0)) then Err TBadRequest
              else Ok (u_thread f, u_thread_token f)
  end.

(** The newest flow of the thread that is neither a fork nor to be deleted. *)
Definition of_thread (tid : Z) (f : turn) : bool :=
  bool_decide (u_thread f = tid) && bool_decide (u_forked f = 0) && bool_decide (u_delete_after f = 0).
Definition newer_turn (e : Z * turn) (best : option (Z * turn)) : option (Z * turn) :=
  match best with Some b => if bool_decide (b.1 < e.1) then Some e else Some b | None => Some e end.
Definition latest_turn (tid : Z) (d : turn_table) : option (Z * turn) :=
  foldr newer_turn None (filter (λ e, of_thread tid e.2 = true) (map_to_list (t_flows d))).

(** The row that follows [f] in its thread. *)
Definition continue_seed (e : defaults) (tok : drawn) (additional : entries) (tid : Z) (ttok : string) (f : turn) : result t_error flowSeed :=
  if negb (bool_decide (u_status f = StatusCompleted)) then Err TConflict
  else
    let entry := EntryPoint (u_graph f) in
    if bool_decide (entry = "") then Err TBadRequest
    else match MergeReduce (reducers (u_graph f)) additional (u_final f) with
    | (_, Some err) => Err (TState err)
    | (st, None) =>
        let merged := DelNils st in
        if negb (marshals merged) || negb (marshals (u_baggage f)) then Err TMarshal
        else
          let budget := u_budget f * ns_per_ms in
          let timeBudget := if bool_decide (budget ≤ 0) then taskTimeBudget e else budget in
          Ok (mkSeed (u_url f) (name (u_graph f)) (u_graph f) (u_baggage f) merged tok.1 tok.2 entry (dispatchURLOf (u_graph f) entry)
                (timeBudget `quot` ns_per_ms) false 0 0 0 tid ttok 0 (u_priority f) (u_fairness f) (u_weight f))
    end.

(** The transaction, run alone. *)
Definition continue_tx (e : defaults) (tok : drawn) (additional : entries) (tid : Z) (ttok : string) (d : turn_table)
    : turn_table * result t_error (Z * Z) :=
  match latest_turn tid d with
  | None => (d, Err TNotFound)
  | Some (base, f) =>
      match continue_seed e tok additional tid ttok f with
      | Err err => (d, Err err)
      | Ok seed => let '(id, d) := insertFlowTx seed d in (d, Ok (base, id))
      end
  end.

Definition continueFlow (e : defaults) (tok : drawn) (threadKey : string) (additionalState : option entries) (shards : gmap Z turn_table)
    : gmap Z turn_table * result t_error string :=
  match ParseFlowKey threadKey with
  | Err _ => (shards, Err TBadRequest)
  | Ok (shardNum, flowID, flowToken) =>
      match shards !! shardNum with
      | None => (shards, Err TNoShard)
      | Some d =>
          match additionalState with
          | None => (shards, Err TBadRequest)
          | Some additional =>
              match continue_resolve flowID flowToken d with
              | Err err => (shards, Err err)
              | Ok (tid, ttok) =>
                  match continue_tx e tok additional tid ttok d with
                  | (_, Err err) => (shards, Err err)
                  | (d, Ok (_, id)) => (<[shardNum := d]> shards, Ok (Keys.New shardNum id tok.1))
                  end
              end
          end
      end
  end.

(** ** Statement by statement *)

(** Where one [continueFlow] is: it read the thread of its key, it holds the lock on the anchor row (when the row is
    there), it has read the turn it follows, it has answered. *)
Inductive cpc :=
| CResolve
| CLock (tid : Z) (ttok : string)
| CRead (tid : Z) (ttok : string)
| CInsert (tid : Z) (base : Z) (seed : flowSeed)
| CDone (r : result t_error Z).

Record continuer := mkCaller { c_flow : Z; c_token : string; c_add : entries; c_tok : drawn; c_pc : cpc }.
Definition at_cpc (pc : cpc) (c : continuer) : continuer := mkCaller (c_flow c) (c_token c) (c_add c) (c_tok c) pc.

(** The tables, who holds which flow row, the callers, and which turn each continued flow followed. *)
Record tsys := mkTsys { y_db : turn_table; y_locks : gmap Z Z; y_callers : gmap Z continuer; y_made : gmap Z Z }.

Inductive tlabel :=
| TContinue (w flowID : Z) (flowToken : string) (additional : entries) (tok : drawn)
| TStep (w : Z)
| TRetry (w : Z)
| TFail (w : Z)
| TCreate (s : flowSeed)
| TFork (id : Z) (f : turn)
| TStatus (id : Z) (st : status_t) (final : State)
| TMark (id after : Z)
| TReap (ids : list Z).

Definition unlock (w : Z) (locks : gmap Z Z) : gmap Z Z := filter (λ e, e.2 ≠ w) locks.
Definition set_turns (m : gmap Z turn) (d : turn_table) : turn_table := mkTable m (t_steps d) (next_flow d) (next_step d).
Definition set_outcome (st : status_t) (final : State) (f : turn) : turn :=
  mkTurn (u_token f) (u_url f) (u_name f) (u_graph f) (u_baggage f) st final (u_surgraph f) (u_caller f) (u_disposable f) (u_priority f)
    (u_fairness f) (u_weight f) (u_budget f) (u_thread f) (u_thread_token f) (u_step f) (u_root f) (u_forked f) (u_delete_after f).
Definition set_after (after : Z) (f : turn) : turn :=
  mkTurn (u_token f) (u_url f) (u_name f) (u_graph f) (u_baggage f) (u_status f) (u_final f) (u_surgraph f) (u_caller f) (u_disposable f)
    (u_priority f) (u_fairness f) (u_weight f) (u_budget f) (u_thread f) (u_thread_token f) (u_step f) (u_root f) (u_forked f) after.
Definition set_caller (w : Z) (c : continuer) (s : tsys) : tsys := mkTsys (y_db s) (y_locks s) (<[w := c]> (y_callers s)) (y_made s).
Definition release (w : Z) (s : tsys) : tsys := mkTsys (y_db s) (unlock w (y_locks s)) (y_callers s) (y_made s).
Definition lock_free (locks : gmap Z Z) (id : Z) : bool := bool_decide (locks !! id = None).

(** The next statement of a caller; it waits where somebody else holds the row. *)
Definition caller_step (e : defaults) (w : Z) (c : continuer) (s : tsys) : option tsys :=
  let d := y_db s in
  let goto pc s := set_caller w (at_cpc pc c) s in
  match c_pc c with
  | CResolve =>
      match continue_resolve (c_flow c) (c_token c) d with
      | Err err => Some (goto (CDone (Err err)) s)
      | Ok (tid, ttok) => Some (goto (CLock tid ttok) s)
      end
  | CLock tid ttok =>
      match t_flows d !! tid with
      | None => Some (goto (CRead tid ttok) s)
      | Some _ =>
          if lock_free (y_locks s) tid
          then Some (goto (CRead tid ttok) (mkTsys d (<[tid := w]> (y_locks s)) (y_callers s) (y_made s)))
          else None
      end
  | CRead tid ttok =>
      match latest_turn tid d with
      | None => Some (goto (CDone (Err TNotFound)) (release w s))
      | Some (base, f) =>
          match continue_seed e (c_tok c) (c_add c) tid ttok f with
          | Err err => Some (goto (CDone (Err err)) (release w s))
          | Ok seed => Some (goto (CInsert tid base seed) s)
          end
      end
  | CInsert tid base seed =>
      let '(id, d) := insertFlowTx seed d in
      Some (goto (CDone (Ok id)) (release w (mkTsys d (y_locks s) (y_callers s) (<[id := base]> (y_made s)))))
  | CDone _ => None
  end.

(** A failed statement rolls the transaction back; contention runs it once more. *)
Definition in_tx (pc : cpc) : option (Z * string) :=
  match pc with
  | CLock tid ttok | CRead tid ttok => Some (tid, ttok)
  | CInsert tid _ seed => Some (tid, s_thread_token seed)
  | _ => None
  end.

Definition texec (e : defaults) (l : tlabel) (s : tsys) : option tsys :=
  let d := y_db s in
  let with_turns m := mkTsys (set_turns m d) (y_locks s) (y_callers s) (y_made s) in
  match l with
  | TContinue w flowID flowToken additional tok =>
      match y_callers s !! w with
      | Some _ => None
      | None => Some (set_caller w (mkCaller flowID flowToken additional tok CResolve) s)
      end
  | TStep w => c ← y_callers s !! w; caller_step e w c s
  | TRetry w =>
      c ← y_callers s !! w; '(tid, ttok) ← in_tx (c_pc c);
      Some (set_caller w (at_cpc (CLock tid ttok) c) (release w s))
  | TFail w =>
      c ← y_callers s !! w;
      match c_pc c with CDone _ => None | _ => Some (set_caller w (at_cpc (CDone (Err TDatabase)) c) (release w s)) end
  | TCreate seed =>
      if bool_decide (0 ≤ s_thread seed < next_flow d)
      then Some (mkTsys (insertFlowTx seed d).2 (y_locks s) (y_callers s) (y_made s)) else None
  | TFork id f =>
      if bool_decide (id = next_flow d) && bool_decide (0 < u_thread f < next_flow d) && negb (bool_decide (u_forked f = 0))
      then Some (mkTsys (mkTable (<[id := f]> (t_flows d)) (t_steps d) (next_flow d + 1) (next_step d)) (y_locks s) (y_callers s) (y_made s))
      else None
  | TStatus id st final =>
      f ← t_flows d !! id;
      if lock_free (y_locks s) id && negb (terminal (u_status f)) then Some (with_turns (<[id := set_outcome st final f]> (t_flows d))) else None
  | TMark id after =>
      f ← t_flows d !! id;
      if lock_free (y_locks s) id && bool_decide (0 < after) then Some (with_turns (<[id := set_after after f]> (t_flows d))) else None
  | TReap ids =>
      if forallb (lock_free (y_locks s)) ids then Some (with_turns (filter (λ e, e.1 ∉ ids) (t_flows d))) else None
  end.

Fixpoint trun (e : defaults) (ls : list tlabel) (s : tsys) : option tsys :=
  match ls with [] => Some s | l :: ls => texec e l s ≫= trun e ls end.

(** ** Threads stay linear *)

Lemma newer_turn_fold l : match foldr newer_turn None l with
  | Some b => b ∈ l ∧ ∀ e, e ∈ l → e.1 ≤ b.1
  | None => l = [] end.
Proof.
  induction l as [|e l IH]; [done|]. cbn [foldr]. destruct (foldr newer_turn None l) as [b|]; cbn [newer_turn].
  - destruct IH as [Hb Hmax]. case_bool_decide as Hlt.
    + split; [left|]. intros x [->|Hx]%elem_of_cons; [done|]. specialize (Hmax x Hx). lia.
    + split; [by right|]. intros x [->|Hx]%elem_of_cons; [lia|by apply Hmax].
  - rewrite IH. split; [left|]. by intros x ->%list_elem_of_singleton.
Qed.
Lemma latest_turn_spec tid d b f : latest_turn tid d = Some (b, f) →
  t_flows d !! b = Some f ∧ of_thread tid f = true ∧ ∀ n g, t_flows d !! n = Some g → of_thread tid g = true → n ≤ b.
Proof.
  unfold latest_turn. intros H. pose proof (newer_turn_fold (filter (λ e, of_thread tid e.2 = true) (map_to_list (t_flows d)))) as Hf.
  rewrite H in Hf. destruct Hf as [Hb Hmax]. apply list_elem_of_filter in Hb as [Hof Hb]. apply elem_of_map_to_list in Hb.
  split; [done|]. split; [done|]. intros n g Hg Hn. apply (Hmax (n, g)). apply list_elem_of_filter. split; [done|]. by apply elem_of_map_to_list.
Qed.
Lemma latest_turn_none tid d : latest_turn tid d = None ↔ ∀ n g, t_flows d !! n = Some g → of_thread tid g = false.
Proof.
  unfold latest_turn. pose proof (newer_turn_fold (filter (λ e, of_thread tid e.2 = true) (map_to_list (t_flows d)))) as Hf. split.
  - intros H. rewrite H in Hf. intros n g Hg. apply not_true_is_false. intros Hn.
    assert ((n, g) ∈ filter (λ e, of_thread tid e.2 = true) (map_to_list (t_flows d))) as Hin.
    { apply list_elem_of_filter. split; [done|]. by apply elem_of_map_to_list. }
    rewrite Hf in Hin. by apply not_elem_of_nil in Hin.
  - intros H. destruct (foldr newer_turn None _) as [[n g]|]; [|done]. destruct Hf as [Hin _]. apply list_elem_of_filter in Hin as [Hn Hin].
    apply elem_of_map_to_list in Hin. cbn in Hn. by rewrite (H n g Hin) in Hn.
Qed.
Lemma of_thread_true tid f : of_thread tid f = true ↔ u_thread f = tid ∧ u_forked f = 0 ∧ u_delete_after f = 0.
Proof. unfold of_thread. rewrite !andb_true_iff, !bool_decide_eq_true. tauto. Qed.

Definition pc_thread (pc : cpc) : option Z :=
  match pc with CLock tid _ | CRead tid _ | CInsert tid _ _ => Some tid | _ => None end.
Definition pc_locked (pc : cpc) : option Z := match pc with CRead tid _ | CInsert tid _ _ => Some tid | _ => None end.

Definition marked_above (s : tsys) (tid base : Z) : Prop :=
  ∀ n b f, y_made s !! n = Some b → base < n → t_flows (y_db s) !! n = Some f → u_thread f = tid → u_delete_after f ≠ 0.

Definition turns_ok (d : turn_table) : Prop :=
  0 < next_flow d ∧ map_Forall (λ id f, 0 < id < next_flow d ∧ 0 < u_thread f < next_flow d) (t_flows d).

Record thread_inv (s : tsys) : Prop := {
  ti_turns : turns_ok (y_db s);
  ti_thread : ∀ w c tid, y_callers s !! w = Some c → pc_thread (c_pc c) = Some tid → 0 < tid < next_flow (y_db s);
  ti_lock : ∀ w c tid, y_callers s !! w = Some c → pc_locked (c_pc c) = Some tid → is_Some (t_flows (y_db s) !! tid) →
    y_locks s !! tid = Some w;
  ti_seed : ∀ w c tid base seed, y_callers s !! w = Some c → c_pc c = CInsert tid base seed →
    s_thread seed = tid ∧ base < next_flow (y_db s) ∧ (is_Some (t_flows (y_db s) !! tid) → marked_above s tid base);
  ti_made : ∀ n b, y_made s !! n = Some b → b < n < next_flow (y_db s);
  ti_forked : ∀ n b f, y_made s !! n = Some b → t_flows (y_db s) !! n = Some f → u_forked f = 0;
  ti_linear : ∀ n1 n2 b f1 f2, y_made s !! n1 = Some b → y_made s !! n2 = Some b →
    t_flows (y_db s) !! n1 = Some f1 → t_flows (y_db s) !! n2 = Some f2 → u_thread f1 = u_thread f2 →
    u_delete_after f1 = 0 → u_delete_after f2 = 0 → is_Some (t_flows (y_db s) !! u_thread f1) → n1 = n2
}.

(** Rows that stay keep their thread, and a mark stays. *)
Definition turns_frame (m m' : gmap Z turn) : Prop :=
  ∀ id f', m' !! id = Some f' → ∃ f, m !! id = Some f ∧ u_thread f' = u_thread f ∧ u_forked f' = u_forked f
    ∧ (u_delete_after f ≠ 0 → u_delete_after f' ≠ 0).

Lemma frame_refl m : turns_frame m m.
Proof. intros id f H. by exists f. Qed.
Lemma frame_update m id f f' : m !! id = Some f → u_thread f' = u_thread f → u_forked f' = u_forked f →
  (u_delete_after f ≠ 0 → u_delete_after f' ≠ 0) → turns_frame m (<[id := f']> m).
Proof.
  intros Hf Ht Hk Hd i g. destruct (decide (i = id)) as [->|Hne].
  - rewrite lookup_insert_eq. intros [= <-]. by exists f.
  - rewrite lookup_insert_ne by done. by exists g.
Qed.
Lemma frame_filter m (P : Z * turn → Prop) `{!∀ e, Decision (P e)} : turns_frame m (filter P m).
Proof. intros id f [Hf _]%map_lookup_filter_Some. by exists f. Qed.

Section preserved.
Context (s : tsys) (Hinv : thread_inv s).

(** Others change rows; the locks stay. *)
Lemma inv_frame m : turns_frame (t_flows (y_db s)) m →
  thread_inv (mkTsys (set_turns m (y_db s)) (y_locks s) (y_callers s) (y_made s)).
Proof using Hinv.
  intros Hfr. destruct Hinv as [[Hn Hturns] Ht Hl Hs Hm Hk Hlin].
  assert (∀ id, is_Some (m !! id) → is_Some (t_flows (y_db s) !! id)) as Hdom.
  { intros id [f' Hf']. destruct (Hfr id f' Hf') as (f & ? & _). by exists f. }
  split; cbn.
  - split; [done|]. intros id f' Hf'. destruct (Hfr id f' Hf') as (f & Hf & -> & _). exact (Hturns id f Hf).
  - done.
  - intros w c tid Hc Hpc Hin. apply (Hl w c tid Hc Hpc). by apply Hdom.
  - intros w c tid base seed Hc Hpc. destruct (Hs w c tid base seed Hc Hpc) as (? & ? & Hab). split; [done|]. split; [done|].
    intros Hin n b f' Hmade Hlt Hf' Hth. destruct (Hfr n f' Hf') as (f & Hf & Hth' & _ & Hd). apply Hd.
    apply (Hab (Hdom _ Hin) n b f Hmade Hlt Hf). congruence.
  - done.
  - intros n b f' Hmade Hf'. destruct (Hfr n f' Hf') as (f & Hf & _ & -> & _). eauto.
  - intros n1 n2 b f1 f2 H1 H2 Hf1 Hf2 Heq Hd1 Hd2 Hin.
    destruct (Hfr n1 f1 Hf1) as (g1 & Hg1 & Ht1 & _ & Hm1), (Hfr n2 f2 Hf2) as (g2 & Hg2 & Ht2 & _ & Hm2).
    apply (Hlin n1 n2 b g1 g2); [done..| | | |].
    + congruence.
    + destruct (decide (u_delete_after g1 = 0)); [done|]. by destruct Hm1.
    + destruct (decide (u_delete_after g2 = 0)); [done|]. by destruct Hm2.
    + rewrite <-Ht1. by apply Hdom.
Qed.

(** A caller moves on without touching a row. *)
Lemma inv_caller w c pc locks :
  (∀ tid, pc_thread pc = Some tid → 0 < tid < next_flow (y_db s)) →
  (∀ tid, pc_locked pc = Some tid → is_Some (t_flows (y_db s) !! tid) → locks !! tid = Some w) →
  (∀ tid w', w' ≠ w → y_locks s !! tid = Some w' → locks !! tid = Some w') →
  (∀ tid base seed, pc = CInsert tid base seed →
     s_thread seed = tid ∧ base < next_flow (y_db s) ∧ (is_Some (t_flows (y_db s) !! tid) → marked_above s tid base)) →
  thread_inv (set_caller w (at_cpc pc c) (mkTsys (y_db s) locks (y_callers s) (y_made s))).
Proof using Hinv.
  intros Hpt Hpl Hlk Hps. destruct Hinv as [Hturns Ht Hl Hs Hm Hk Hlin]. split; [done| | | |done..]; cbn.
  - intros w' c' tid. destruct (decide (w' = w)) as [->|Hne]; [rewrite lookup_insert_eq|rewrite lookup_insert_ne by done; apply Ht].
    intros [= <-]. apply Hpt.
  - intros w' c' tid. destruct (decide (w' = w)) as [->|Hne]; [rewrite lookup_insert_eq|rewrite lookup_insert_ne by done].
    + intros [= <-]. apply Hpl.
    + intros Hc Hpc Hin. apply Hlk; [done|]. by apply (Hl w' c').
  - intros w' c' tid base seed. destruct (decide (w' = w)) as [->|Hne]; [rewrite lookup_insert_eq|rewrite lookup_insert_ne by done; apply Hs].
    intros [= <-]. apply Hps.
Qed.
End preserved.

Lemma seeded_thread id step seed : 0 < id → 0 ≤ s_thread seed < id →
  0 < u_thread (seeded_flow id step seed) ≤ id ∧ (u_thread (seeded_flow id step seed) = s_thread seed ∨ u_thread (seeded_flow id step seed) = id)
  ∧ (s_thread seed ≠ 0 → u_thread (seeded_flow id step seed) = s_thread seed)
  ∧ u_forked (seeded_flow id step seed) = 0.
Proof. intros Hid Hs. unfold seeded_flow. case_bool_decide; cbn; lia. Qed.

Section inserted.
Context (s : tsys) (Hinv : thread_inv s).

(** A new row that follows no turn of the thread. *)
Lemma inv_insert f steps nstep : 0 < u_thread f ≤ next_flow (y_db s) →
  thread_inv (mkTsys (mkTable (<[next_flow (y_db s) := f]> (t_flows (y_db s))) steps (next_flow (y_db s) + 1) nstep)
    (y_locks s) (y_callers s) (y_made s)).
Proof using Hinv.
  intros Hf. destruct Hinv as [[Hn Hturns] Ht Hl Hs Hm Hk Hlin]. set (new := next_flow (y_db s)) in *.
  assert (∀ tid, tid < new → is_Some (<[new := f]> (t_flows (y_db s)) !! tid) → is_Some (t_flows (y_db s) !! tid)) as Hdom.
  { intros tid Hlt. rewrite lookup_insert_ne by lia. done. }
  split; cbn.
  - split; cbn [next_flow t_flows y_db]; [lia|]. intros id g. destruct (decide (id = new)) as [->|Hne].
    + rewrite lookup_insert_eq. intros [= <-]. lia.
    + rewrite lookup_insert_ne by done. intros Hg. specialize (Hturns id g Hg). cbn in Hturns. lia.
  - intros w c tid Hc Hpc. specialize (Ht w c tid Hc Hpc). lia.
  - intros w c tid Hc Hpc Hin. apply (Hl w c tid Hc Hpc). apply Hdom; [|done]. apply (Ht w c tid Hc). by destruct (c_pc c).
  - intros w c tid base seed Hc Hpc. destruct (Hs w c tid base seed Hc Hpc) as (? & ? & Hab). split; [done|]. split; [lia|].
    intros Hin n b g Hmade Hlt. cbn. specialize (Hm n b Hmade). rewrite lookup_insert_ne by lia. apply (Hab ltac:(apply Hdom; [|done]; apply (Ht w c tid Hc); by rewrite Hpc) n b g Hmade Hlt).
  - intros n b Hmade. specialize (Hm n b Hmade). lia.
  - intros n b g Hmade. specialize (Hm n b Hmade). rewrite lookup_insert_ne by lia. eauto.
  - intros n1 n2 b f1 f2 H1 H2. pose proof (Hm n1 b H1). pose proof (Hm n2 b H2). rewrite !(lookup_insert_ne _ new n1), !(lookup_insert_ne _ new n2) by lia.
    intros Hf1 Hf2 Heq Hd1 Hd2 Hin. apply (Hlin n1 n2 b f1 f2); try done. apply Hdom; [|done]. by apply (Hturns n1 f1).
Qed.

(** A new row that follows [base], by the caller that holds the thread. *)
Lemma inv_continue w c tid base seed : y_callers s !! w = Some c → c_pc c = CInsert tid base seed →
  let id := next_flow (y_db s) in
  thread_inv (set_caller w (at_cpc (CDone (Ok id)) c)
    (release w (mkTsys (insertFlowTx seed (y_db s)).2 (y_locks s) (y_callers s) (<[id := base]> (y_made s))))).
Proof using Hinv.
  intros Hw Hpc0 new. pose proof Hinv as [[Hn Hturns] Ht Hl Hs Hm Hk Hlin]. destruct (Hs w c tid base seed Hw Hpc0) as (Hst & Hb & Hab).
  assert (0 < tid < new) as Htid by (apply (Ht w c tid Hw); by rewrite Hpc0).
  destruct (seeded_thread new (next_step (y_db s)) seed ltac:(unfold new; lia) ltac:(lia)) as (_ & _ & Hth & Hfk). specialize (Hth ltac:(lia)).
  set (f := seeded_flow new (next_step (y_db s)) seed) in *. rewrite Hst in Hth.
  assert (∀ i, i < new → is_Some (<[new := f]> (t_flows (y_db s)) !! i) → is_Some (t_flows (y_db s) !! i)) as Hdom.
  { intros i Hlt. rewrite lookup_insert_ne by lia. done. }
  assert (∀ w' c' i, w' ≠ w → y_callers s !! w' = Some c' → pc_locked (c_pc c') = Some i → is_Some (t_flows (y_db s) !! i) →
    is_Some (t_flows (y_db s) !! tid) → i ≠ tid) as Hother.
  { intros w' c' i Hne Hc Hpc Hi Hin ->. pose proof (Hl w' c' tid Hc Hpc Hin) as H1. pose proof (Hl w c tid Hw ltac:(by rewrite Hpc0) Hin) as H2.
    rewrite H1 in H2. by injection H2. }
  split; cbn.
  - split; cbn [next_flow t_flows y_db insertFlowTx snd release set_caller]; [unfold new in *; lia|]. intros id g. destruct (decide (id = new)) as [->|Hne].
    + rewrite lookup_insert_eq. intros [= <-]. change (seeded_flow (next_flow (y_db s)) (next_step (y_db s)) seed) with f. unfold new in *. lia.
    + rewrite lookup_insert_ne by done. intros Hg. specialize (Hturns id g Hg). cbn in Hturns. unfold new. lia.
  - intros w' c' i. destruct (decide (w' = w)) as [->|Hne]; [rewrite lookup_insert_eq; by intros [= <-]|rewrite lookup_insert_ne by done].
    intros Hc Hpc. specialize (Ht w' c' i Hc Hpc). lia.
  - intros w' c' i. destruct (decide (w' = w)) as [->|Hne]; [rewrite lookup_insert_eq; by intros [= <-]|rewrite lookup_insert_ne by done].
    intros Hc Hpc Hin. apply map_lookup_filter_Some. split; [|done]. apply (Hl w' c' i Hc Hpc). apply Hdom; [|done].
    apply (Ht w' c' i Hc). by destruct (c_pc c').
  - intros w' c' i b' seed'. destruct (decide (w' = w)) as [->|Hne]; [rewrite lookup_insert_eq; by intros [= <-]|rewrite lookup_insert_ne by done].
    intros Hc Hpc. destruct (Hs w' c' i b' seed' Hc Hpc) as (? & ? & Hab'). split; [done|]. split; [lia|]. intros Hin.
    assert (is_Some (t_flows (y_db s) !! i)) as Hin' by (apply Hdom; [|done]; apply (Ht w' c' i Hc); by rewrite Hpc).
    intros n b g. cbn. destruct (decide (n = new)) as [->|Hnn].
    + rewrite !lookup_insert_eq. intros [= <-] _ [= <-] Hgt. change (seeded_flow (next_flow (y_db s)) (next_step (y_db s)) seed) with f in Hgt. rewrite Hth in Hgt. exfalso.
      apply (Hother w' c' i Hne Hc); [by rewrite Hpc|done|by rewrite Hgt|done].
    + rewrite !lookup_insert_ne by done. intros. eapply (Hab' Hin' n b); done.
  - intros n b. destruct (decide (n = new)) as [->|Hnn]; [rewrite lookup_insert_eq; intros [= <-]; unfold new in *; lia|rewrite lookup_insert_ne by done].
    intros Hmade. specialize (Hm n b Hmade). unfold new. lia.
  - intros n b g. destruct (decide (n = new)) as [->|Hnn]; [rewrite !lookup_insert_eq; by intros _ [= <-]|rewrite !lookup_insert_ne by done]. eauto.
  - assert (∀ n f1, y_made s !! n = Some base → t_flows (y_db s) !! n = Some f1 → u_thread f1 = tid → u_delete_after f1 = 0 →
      is_Some (t_flows (y_db s) !! tid) → False) as Hno.
    { intros n f1 Hmade Hf1 Hth1 Hd1 Hin. pose proof (Hm n base Hmade). apply (Hab Hin n base f1 Hmade ltac:(lia) Hf1 Hth1 Hd1). }
    change (<[next_flow (y_db s):=seeded_flow (next_flow (y_db s)) (next_step (y_db s)) seed]> (t_flows (y_db s))) with (<[new:=f]> (t_flows (y_db s))).
    change (<[next_flow (y_db s):=base]> (y_made s)) with (<[new:=base]> (y_made s)).
    intros n1 n2 b f1 f2. destruct (decide (n1 = new)) as [->|H1], (decide (n2 = new)) as [->|H2]; [done| | |];
      rewrite ?lookup_insert_eq; rewrite ?(lookup_insert_ne _ new n1), ?(lookup_insert_ne _ new n2) by done.
    + intros [= <-] Hm2 [= <-] Hf2 Heq _ Hd2 Hin. rewrite Hth in Heq, Hin. destruct (Hno n2 f2 Hm2 Hf2); [done..|]. apply Hdom; [lia|done].
    + intros Hm1 [= <-] Hf1 [= <-] Heq Hd1 _ Hin. rewrite Hth in Heq. destruct (Hno n1 f1 Hm1 Hf1); [done..|]. apply Hdom; [lia|]. by rewrite <-Heq.
    + intros Hm1 Hm2 Hf1 Hf2 Heq Hd1 Hd2 Hin. apply (Hlin n1 n2 b f1 f2); try done. apply Hdom; [|done]. by apply (Hturns n1 f1).
Qed.
End inserted.

Lemma continue_seed_thread e tok additional tid ttok f seed : continue_seed e tok additional tid ttok f = Ok seed →
  s_thread seed = tid ∧ s_thread_token seed = ttok ∧ u_status f = StatusCompleted.
Proof.
  unfold continue_seed. destruct (decide (u_status f = StatusCompleted)) as [Hc|]; [rewrite bool_decide_eq_true_2 by done|by rewrite bool_decide_eq_false_2 by done].
  cbn [negb]. case_bool_decide; [done|]. destruct (MergeReduce _ _ _) as [st [err|]]; [done|]. destruct (_ || _); [done|]. by intros [= <-].
Qed.
Lemma unlock_other w locks tid w' : w' ≠ w → locks !! tid = Some w' → unlock w locks !! tid = Some w'.
Proof. intros Hne Hl. by apply map_lookup_filter_Some. Qed.
Lemma continue_resolve_row flowID tok d tid ttok : continue_resolve flowID tok d = Ok (tid, ttok) →
  ∃ f, t_flows d !! flowID = Some f ∧ u_token f = tok ∧ u_surgraph f = 0 ∧ u_thread f = tid ∧ u_thread_token f = ttok.
Proof.
  unfold continue_resolve. destruct (t_flows d !! flowID) as [f|]; [|done]. intros H. exists f.
  destruct (decide (u_token f = tok)); [rewrite bool_decide_eq_true_2 in H by done|by rewrite bool_decide_eq_false_2 in H by done].
  destruct (decide (u_surgraph f = 0)); [rewrite bool_decide_eq_true_2 in H by done|by rewrite bool_decide_eq_false_2 in H by done].
  by injection H as <- <-.
Qed.

Section step.
Context (e : defaults).

Lemma caller_step_inv w c s s' : y_callers s !! w = Some c → caller_step e w c s = Some s' → thread_inv s → thread_inv s'.
Proof.
  intros Hw Hstep Hinv. pose proof Hinv as [[Hn Hturns] Ht Hl Hs Hm Hk _]. unfold caller_step in Hstep.
  destruct (c_pc c) as [|tid ttok|tid ttok|tid base seed|r] eqn:Hpc.
  - destruct (continue_resolve _ _ _) as [[tid ttok]|err] eqn:Hres; injection Hstep as <-; apply (inv_caller s Hinv w c _ (y_locks s)); try done.
    intros ? [= <-]. apply continue_resolve_row in Hres as (f & Hf & _ & _ & <- & _). exact (proj2 (Hturns _ f Hf)).
  - destruct (t_flows (y_db s) !! tid) as [f|] eqn:Hf.
    + destruct (lock_free (y_locks s) tid) eqn:Hfree; [|done]. apply bool_decide_eq_true in Hfree. injection Hstep as <-.
      apply (inv_caller s Hinv w c (CRead tid ttok) (<[tid := w]> (y_locks s))); try done.
      * intros ? [= <-]. apply (Ht w c tid Hw). by rewrite Hpc.
      * intros ? [= <-] _. apply lookup_insert_eq.
      * intros i w' _ Hi. rewrite lookup_insert_ne; [done|]. intros ->. by rewrite Hi in Hfree.
    + injection Hstep as <-. apply (inv_caller s Hinv w c (CRead tid ttok) (y_locks s)); try done.
      * intros ? [= <-]. apply (Ht w c tid Hw). by rewrite Hpc.
      * intros ? [= <-] [? Hx]. by rewrite Hf in Hx.
  - destruct (latest_turn tid (y_db s)) as [[base f]|] eqn:Hlt.
    + destruct (continue_seed _ _ _ _ _ _) as [seed|err] eqn:Hseed; injection Hstep as <-.
      * apply continue_seed_thread in Hseed as (Hst & _ & _). apply latest_turn_spec in Hlt as (Hf & Hof & Hmax).
        apply (inv_caller s Hinv w c (CInsert tid base seed) (y_locks s)); try done.
        -- intros ? [= <-]. apply (Ht w c tid Hw). by rewrite Hpc.
        -- intros ? [= <-]. apply (Hl w c tid Hw). by rewrite Hpc.
        -- intros ? ? ? [= <- <- <-]. split; [done|]. split; [exact (proj2 (proj1 (Hturns _ f Hf)))|]. intros _ n b g Hmade Hgt Hg Hth Hd.
           assert (n ≤ base); [|lia]. apply (Hmax n g Hg). apply of_thread_true. split; [done|]. split; [|done]. by apply (Hk n b).
      * apply (inv_caller s Hinv w c _ (unlock w (y_locks s))); try done. intros i w'. apply unlock_other.
    + injection Hstep as <-. apply (inv_caller s Hinv w c _ (unlock w (y_locks s))); try done. intros i w'. apply unlock_other.
  - cbn in Hstep. injection Hstep as <-. exact (inv_continue s Hinv w c tid base seed Hw Hpc).
  - done.
Qed.

Lemma texec_inv l s s' : texec e l s = Some s' → thread_inv s → thread_inv s'.
Proof.
  intros Hstep Hinv. pose proof Hinv as [[Hn Hturns] Ht Hl Hs Hm Hk _]. destruct l as [w flowID ftok additional tok|w|w|w|seed|id f|id st final|id after|ids]; cbn in Hstep.
  - destruct (y_callers s !! w); [done|]. injection Hstep as <-.
    apply (inv_caller s Hinv w (mkCaller flowID ftok additional tok CResolve) CResolve (y_locks s)); done.
  - destruct (y_callers s !! w) as [c|] eqn:Hw; [|done]. by apply (caller_step_inv w c s s' Hw).
  - destruct (y_callers s !! w) as [c|] eqn:Hw; [|done]. cbn in Hstep. destruct (in_tx (c_pc c)) as [[tid ttok]|] eqn:Htx; [|done].
    injection Hstep as <-. apply (inv_caller s Hinv w c (CLock tid ttok) (unlock w (y_locks s))); try done.
    + intros ? [= <-]. apply (Ht w c tid Hw). by destruct (c_pc c); try done; injection Htx as <- <-.
    + intros i w'. apply unlock_other.
  - destruct (y_callers s !! w) as [c|] eqn:Hw; [|done]. cbn in Hstep.
    assert (thread_inv (set_caller w (at_cpc (CDone (Err TDatabase)) c) (release w s))) as Hd.
    { apply (inv_caller s Hinv w c (CDone (Err TDatabase)) (unlock w (y_locks s))); try done. intros i w'. apply unlock_other. }
    by destruct (c_pc c); try done; injection Hstep as <-.
  - case_bool_decide as Hth; [|done]. injection Hstep as <-. cbn. apply (inv_insert s Hinv).
    pose proof (seeded_thread (next_flow (y_db s)) (next_step (y_db s)) seed Hn Hth). lia.
  - destruct (_ && _) eqn:Hb; [|done]. rewrite !andb_true_iff, !bool_decide_eq_true in Hb. destruct Hb as [[-> Hth] _]. injection Hstep as <-.
    apply (inv_insert s Hinv). lia.
  - destruct (t_flows (y_db s) !! id) as [f|] eqn:Hf; [|done]. cbn in Hstep. destruct (_ && _); [|done]. injection Hstep as <-.
    apply (inv_frame s Hinv). by apply (frame_update _ id f).
  - destruct (t_flows (y_db s) !! id) as [f|] eqn:Hf; [|done]. cbn in Hstep. destruct (_ && _) eqn:Hb; [|done]. injection Hstep as <-.
    apply andb_true_iff in Hb as [_ Hb]. apply bool_decide_eq_true in Hb. apply (inv_frame s Hinv). apply (frame_update _ id f); try done. cbn. lia.
  - destruct (forallb _ ids); [|done]. injection Hstep as <-. apply (inv_frame s Hinv). apply frame_filter.
Qed.
Lemma trun_inv ls s s' : trun e ls s = Some s' → thread_inv s → thread_inv s'.
Proof.
  revert s. induction ls as [|l ls IH]; intros s; cbn; [by intros [= <-]|]. destruct (texec e l s) as [s1|] eqn:Hs; [|done]. cbn. intros Hr Hinv.
  apply (IH s1 Hr). by apply (texec_inv l s).
Qed.
End step.

(** The start: a table, and nobody at work. *)
Definition at_rest (d : turn_table) : tsys := mkTsys d ∅ ∅ ∅.
Lemma at_rest_inv d : turns_ok d → thread_inv (at_rest d).
Proof. intros Hd. split; cbn; try done; intros; by rewrite lookup_empty in *. Qed.

(** C30. Whatever statements interleave and whichever fail, as long as the first flow of a thread is there no two live turns that
    Continue made follow the same turn, and the turn a Continue is about to follow is followed by no live one. *)
Theorem threads_stay_linear e d ls s tid : turns_ok d → trun e ls (at_rest d) = Some s → is_Some (t_flows (y_db s) !! tid) →
  (∀ n1 n2 b f1 f2, y_made s !! n1 = Some b → y_made s !! n2 = Some b →
     t_flows (y_db s) !! n1 = Some f1 → t_flows (y_db s) !! n2 = Some f2 → u_thread f1 = tid → u_thread f2 = tid →
     u_delete_after f1 = 0 → u_delete_after f2 = 0 → n1 = n2)
  ∧ (∀ w c base seed n b f, y_callers s !! w = Some c → c_pc c = CInsert tid base seed →
       y_locks s !! tid = Some w ∧ (y_made s !! n = Some b → base < n → t_flows (y_db s) !! n = Some f → u_thread f = tid → u_delete_after f ≠ 0)).
Proof.
  intros Hd Hr Hin. pose proof (trun_inv e ls _ _ Hr (at_rest_inv d Hd)) as [_ _ Hl Hs _ _ Hlin]. split.
  - intros n1 n2 b f1 f2 H1 H2 Hf1 Hf2 Ht1 Ht2 Hd1 Hd2. apply (Hlin n1 n2 b f1 f2); try done; congruence.
  - intros w c base seed n b f Hw Hpc. split.
    + apply (Hl w c tid Hw); [by rewrite Hpc|done].
    + destruct (Hs w c tid base seed Hw Hpc) as (_ & _ & Hab). exact (Hab Hin n b f).
Qed.

(** ** What a creation leaves *)

(** A thread is named after its first flow and carries its token. *)
Definition threads_ok (d : turn_table) : Prop :=
  turns_ok d ∧ ∀ id f a, t_flows d !! id = Some f → t_flows d !! u_thread f = Some a → u_thread a = u_thread f ∧ u_token a = u_thread_token f.

Definition seed_joins (d : turn_table) (s : flowSeed) : Prop :=
  s_thread s = 0 ∨ ∃ i g, t_flows d !! i = Some g ∧ u_thread g = s_thread s ∧ u_thread_token g = s_thread_token s.

Lemma threads_ok_insert seed d : threads_ok d → seed_joins d seed → threads_ok (insertFlowTx seed d).2.
Proof.
  intros [[Hn Ht] Ha] Hj. set (new := next_flow d). set (f := seeded_flow new (next_step d) seed).
  assert (0 < u_thread f ≤ new ∧ (u_thread f = new → u_thread_token f = u_token f) ∧
    ∀ a, u_thread f < new → t_flows d !! u_thread f = Some a → u_thread a = u_thread f ∧ u_token a = u_thread_token f) as (Hf & Hself & Hold).
  { unfold f, seeded_flow. case_bool_decide as Hz; cbn; [split; [lia|]; split; [done|lia]|].
    destruct Hj as [?|(i & g & Hg & <- & <-)]; [done|]. pose proof (Ht i g Hg) as [_ Hb]. split; [lia|]. split; [lia|].
    intros a _ Hla. exact (Ha i g a Hg Hla). }
  assert (∀ i, i < new → <[new := f]> (t_flows d) !! i = t_flows d !! i) as Hne by (intros i Hi; by rewrite lookup_insert_ne by lia).
  split; cbn.
  - split; [unfold insertFlowTx; cbn [snd next_flow]; unfold new in *; lia|]. change (map_Forall (λ id g, 0 < id < new + 1 ∧ 0 < u_thread g < new + 1) (<[new := f]> (t_flows d))).
    apply map_Forall_insert_2; [lia|]. intros id g Hg. specialize (Ht id g Hg). cbn in Ht. lia.
  - intros id g a. change (<[next_flow d:=seeded_flow (next_flow d) (next_step d) seed]> (t_flows d)) with (<[new:=f]> (t_flows d)).
    destruct (decide (id = new)) as [->|Hid].
    + rewrite lookup_insert_eq. intros [= <-]. destruct (decide (u_thread f = new)) as [He|He].
      * rewrite He, lookup_insert_eq. intros [= <-]. rewrite He. split; [done|]. symmetry. by apply Hself.
      * rewrite Hne by lia. apply Hold. lia.
    + rewrite lookup_insert_ne by done. intros Hg. pose proof (Ht id g Hg) as [_ Hb]. rewrite Hne by lia. exact (Ha id g a Hg).
Qed.

Lemma resolveThread_row shards key shardNum tid ttok : resolveThread shards key = Ok (shardNum, tid, ttok) →
  ∃ d i g, shards !! shardNum = Some d ∧ t_flows d !! i = Some g ∧ u_surgraph g = 0 ∧ u_thread g = tid ∧ u_thread_token g = ttok
    ∧ ParseFlowKey key = Ok (shardNum, i, u_token g).
Proof.
  unfold resolveThread. destruct (ParseFlowKey key) as [[[sn fid] tok]|]; [|done]. destruct (shards !! sn) as [d|] eqn:Hd; [|done].
  destruct (t_flows d !! fid) as [g|] eqn:Hg; [|done].
  destruct (decide (u_token g = tok)) as [<-|]; [rewrite bool_decide_eq_true_2 by done|by rewrite bool_decide_eq_false_2 by done].
  destruct (decide (u_surgraph g = 0)); [rewrite bool_decide_eq_true_2 by done|by rewrite bool_decide_eq_false_2 by done].
  intros [= <- <- <-]. by exists d, fid, g.
Qed.

Section options.
Context (e : defaults) (Hdefault : 0 < defaultPriority e) (Hbudget : 0 < timeBudgetMs e).

Lemma options_resolved o : checkOptions o = Ok tt →
  0 < Priority (resolveFlowOptions e o) ∧ flt f0 (FairnessWeight (resolveFlowOptions e o)) = true ∧ ns_per_ms ≤ TimeBudget (resolveFlowOptions e o).
Proof using Hdefault Hbudget.
  destruct o as [o|]; cbn -[Z.pow]; unfold taskTimeBudget, ns_per_ms; [|intros _; split; [done|split; [done|lia]]].
  case_bool_decide; [done|]. destruct (flt (FairnessWeight o) f0); [done|].
  destruct (_ || _) eqn:Hb; [done|]. apply orb_false_iff in Hb as [H1 H2]. apply bool_decide_eq_false in H1. intros _.
  split; [destruct (decide (0 < Priority o)); [by rewrite bool_decide_eq_true_2 by done|by rewrite bool_decide_eq_false_2 by done]|]. split; [by destruct (flt f0 (FairnessWeight o)) eqn:Hw|].
  destruct (decide (0 < TimeBudget o)); [rewrite bool_decide_eq_true_2 by done|rewrite bool_decide_eq_false_2 by done; lia].
  rewrite bool_decide_eq_true_2 in H2 by done. apply bool_decide_eq_false in H2. unfold ns_per_ms in H2. lia.
Qed.

(** [Create] either fails and leaves every table as it was, or adds one running root to a new thread of its own or to the
    thread of the root its key names, and one pending step at the entry of a valid graph, with the options of the call or
    the engine's, never a zero priority, weight or budget; threads stay named after their first flow. *)
Theorem create_adds_a_root boolexp loadGraph picked tok url st o shards shards' r :
  create boolexp e loadGraph picked tok url st o shards = (shards', r) →
  (∀ n d, shards !! n = Some d → threads_ok d) →
  match r with
  | Err _ => shards' = shards
  | Ok key =>
      ∃ shardNum d g initial, shards !! shardNum = Some d ∧ st = Some initial ∧ loadGraph (Baggage (resolveFlowOptions e o)) url = Ok (Some g)
        ∧ Graph.Validate boolexp g = Ok tt ∧ key = Keys.New shardNum (next_flow d) tok.1
        ∧ ∃ f step d', shards' = <[shardNum := d']> shards ∧ threads_ok d'
          ∧ t_flows d' = <[next_flow d := f]> (t_flows d) ∧ t_steps d' = <[next_step d := step]> (t_steps d)
          ∧ u_status f = StatusRunning ∧ u_root f = next_flow d ∧ u_surgraph f = 0 ∧ u_step f = next_step d ∧ u_token f = tok.1
          ∧ e_flow step = next_flow d ∧ e_task step = entryPoint g ∧ e_state step = initial ∧ e_status step = StatusPending
          ∧ 0 < u_priority f ∧ e_priority step = u_priority f ∧ flt f0 (u_weight f) = true ∧ 0 < u_budget f ∧ e_budget step = u_budget f
          ∧ (ThreadKey (resolveFlowOptions e o) = "" → u_thread f = next_flow d ∧ picked = Some shardNum)
          ∧ (ThreadKey (resolveFlowOptions e o) ≠ "" → ∃ i g, ParseFlowKey (ThreadKey (resolveFlowOptions e o)) = Ok (shardNum, i, u_token g)
               ∧ t_flows d !! i = Some g ∧ u_surgraph g = 0 ∧ u_thread f = u_thread g)
  end.
Proof using Hdefault Hbudget.
  intros Hc Hok. unfold create in Hc. case_bool_decide; [by simplify_eq|]. destruct (checkOptions o) as [[]|] eqn:Hco; [|by simplify_eq].
  apply options_resolved in Hco as (Hp & Hw & Ht). set (opts := resolveFlowOptions e o) in *. cbn zeta in Hc.
  destruct (loadGraph _ _) as [[g|]|] eqn:Hlg; [|by simplify_eq..]. destruct (Graph.Validate _ g) as [[]|] eqn:Hv; [|by simplify_eq].
  destruct (if bool_decide (ThreadKey opts = "") then _ else _) as [[[sn tid] ttok]|] eqn:Hth; [|by simplify_eq].
  destruct st as [initial|]; [|by simplify_eq]. unfold createWithGraph in Hc. case_bool_decide; [by simplify_eq|].
  destruct (negb (marshals (Baggage opts))); [by simplify_eq|]. destruct (negb (marshals initial)); [by simplify_eq|]. cbn zeta in Hc.
  destruct (shards !! sn) as [d|] eqn:Hd; [|by simplify_eq]. rewrite (bool_decide_eq_false_2 (TimeBudget opts ≤ 0)) in Hc by (unfold ns_per_ms in Ht; lia).
  match type of Hc with context [insertFlowTx ?s d] => set (seed := s) in Hc end.
  assert (seed_joins d seed ∧ (s_thread seed = 0 ∨ 0 < s_thread seed < next_flow d)
    ∧ (ThreadKey opts = "" → s_thread seed = 0 ∧ picked = Some sn)
    ∧ (ThreadKey opts ≠ "" → ∃ i g, ParseFlowKey (ThreadKey opts) = Ok (sn, i, u_token g) ∧ t_flows d !! i = Some g ∧ u_surgraph g = 0
         ∧ s_thread seed = u_thread g ∧ s_thread seed ≠ 0)) as (Hj & Hrange & Hnew & Hjoin).
  { destruct (decide (ThreadKey opts = "")) as [Hk|Hk]; [rewrite bool_decide_eq_true_2 in Hth by done|rewrite bool_decide_eq_false_2 in Hth by done].
    - destruct picked; [|done]. injection Hth as <- <- <-. split; [by left|]. split; [by left|]. done.
    - apply resolveThread_row in Hth as (d0 & i & f & Hd0 & Hf & Hs & <- & <- & Hp'). rewrite Hd in Hd0. injection Hd0 as <-.
      destruct (Hok sn d Hd) as [[_ Hto] _]. pose proof (Hto i f Hf) as [_ Hb]. cbn.
      split; [right; by exists i, f|]. split; [right; lia|]. split; [done|]. intros _. exists i, f. repeat split; try done. lia. }
  cbn in Hc. injection Hc as <- <-. exists sn, d, g, initial. repeat (split; [done|]).
  eexists _, _, (insertFlowTx seed d).2. split; [done|]. split; [by apply threads_ok_insert; [apply (Hok sn)|]|]. split; [done|]. split; [done|].
  pose proof (Hok sn d Hd) as [[Hn _] _].
  pose proof (seeded_thread (next_flow d) (next_step d) seed Hn ltac:(lia)) as (_ & _ & Hnz & _).
  unfold seeded_flow, seeded_step in *. cbn [e_flow e_task e_state e_status e_priority e_budget] in *.
  assert (0 < TimeBudget opts `quot` ns_per_ms) as Hq by (apply Z.quot_str_pos; unfold ns_per_ms in *; lia).
  destruct (decide (s_thread seed = 0)) as [Hz|Hz]; [rewrite (bool_decide_eq_true_2 (s_thread seed = 0)) in * by done|rewrite (bool_decide_eq_false_2 (s_thread seed = 0)) in * by done];
    cbn in *; repeat (split; [done|]); (split; [intros Hk; destruct (Hnew Hk); done|]); intros Hk; destruct (Hjoin Hk) as (i & g' & ? & ? & ? & ? & ?);
    [done|]; by exists i, g'.
Qed.
End options.

(** ** Continuing, alone and together *)

(** A Continue either fails and leaves every table as it was, or follows the newest live turn of its thread, which has
    completed: the new turn starts from that turn's final state merged with the caller's, inherits its policy and its
    thread, and is now the newest, so that until it has completed every further Continue of the thread is refused. *)
Theorem continue_extends_the_latest e tok key additional shards shards' r :
  continueFlow e tok key (Some additional) shards = (shards', r) → (∀ n d, shards !! n = Some d → threads_ok d) →
  match r with
  | Err _ => shards' = shards
  | Ok newKey =>
      ∃ shardNum i tid d d' k base f new step st, ParseFlowKey key = Ok (shardNum, i, k) ∧ shards !! shardNum = Some d
        ∧ shards' = <[shardNum := d']> shards ∧ threads_ok d' ∧ newKey = Keys.New shardNum (next_flow d) tok.1
        ∧ (u_thread <$> t_flows d !! i) = Some tid ∧ latest_turn tid d = Some (base, f) ∧ u_status f = StatusCompleted
        ∧ MergeReduce (reducers (u_graph f)) additional (u_final f) = (st, None)
        ∧ t_flows d' = <[next_flow d := new]> (t_flows d) ∧ t_steps d' = <[next_step d := step]> (t_steps d)
        ∧ e_state step = DelNils st ∧ e_task step = entryPoint (u_graph f)
        ∧ (u_thread new, u_root new, u_surgraph new, u_graph new, u_priority new, u_fairness new, u_disposable new)
            = (tid, next_flow d, 0, u_graph f, u_priority f, u_fairness f, false)
        ∧ latest_turn tid d' = Some (next_flow d, new)
        ∧ ∀ tok' additional' key' j k', ParseFlowKey key' = Ok (shardNum, j, k') → (u_thread <$> t_flows d' !! j) = Some tid →
            ∃ err, continueFlow e tok' key' (Some additional') shards' = (shards', Err err)
  end.
Proof.
  intros Hc Hok. unfold continueFlow in Hc. destruct (ParseFlowKey key) as [[[sn i] k]|]; [|by simplify_eq].
  destruct (shards !! sn) as [d|] eqn:Hd; [|by simplify_eq]. destruct (continue_resolve i k d) as [[tid ttok]|] eqn:Hr; [|by simplify_eq].
  unfold continue_tx in Hc. destruct (latest_turn tid d) as [[base f]|] eqn:Hl; [|by simplify_eq].
  destruct (continue_seed e tok additional tid ttok f) as [seed|] eqn:Hs; [|by simplify_eq].
  assert ((<[sn := (insertFlowTx seed d).2]> shards, Ok (Keys.New sn (next_flow d) tok.1)) = (shards', r)) as Hc' by exact Hc.
  clear Hc. pose proof (f_equal fst Hc') as H1. pose proof (f_equal snd Hc') as H2. cbn [fst snd] in H1, H2. subst shards' r. clear Hc'.
  apply continue_resolve_row in Hr as (g & Hg & _ & _ & Htid & Httok). pose proof (Hok sn d Hd) as Hd'. pose proof Hd' as [[Hn Hturns] _].
  pose proof (continue_seed_thread _ _ _ _ _ _ _ Hs) as (Hst & Hstt & Hcomp).
  assert (0 < tid < next_flow d) as Hrange by (pose proof (Hturns i g Hg) as [_ H]; by rewrite Htid in H).
  set (new := seeded_flow (next_flow d) (next_step d) seed).
  assert (u_thread new = tid ∧ u_status new = StatusRunning ∧ of_thread tid new = true) as (Hth & Hrun & Hof).
  { pose proof (seeded_thread (next_flow d) (next_step d) seed Hn ltac:(lia)) as (_ & _ & H & Hfk). specialize (H ltac:(lia)).
    fold new in H, Hfk. rewrite Hst in H. split; [done|]. unfold new, seeded_flow.
    rewrite (bool_decide_eq_false_2 (s_thread seed = 0)) by lia. split; [done|]. by apply of_thread_true. }
  assert (latest_turn tid (insertFlowTx seed d).2 = Some (next_flow d, new)) as Hlatest.
  { destruct (latest_turn tid (insertFlowTx seed d).2) as [[n h]|] eqn:Hlt.
    - apply latest_turn_spec in Hlt as (Hh & _ & Hmax). cbn [insertFlowTx snd t_flows] in Hh, Hmax.
      specialize (Hmax (next_flow d) new ltac:(apply lookup_insert_eq) Hof). destruct (decide (n = next_flow d)) as [->|Hne].
      + rewrite lookup_insert_eq in Hh. by injection Hh as <-.
      + rewrite lookup_insert_ne in Hh by done. specialize (Hturns n h Hh). cbn in Hturns. lia.
    - rewrite latest_turn_none in Hlt. specialize (Hlt (next_flow d) new ltac:(apply lookup_insert_eq)). by rewrite Hof in Hlt. }
  pose proof Hs as Hs'. unfold continue_seed in Hs'. rewrite bool_decide_eq_true_2 in Hs' by done. cbn [negb] in Hs'.
  case_bool_decide; [done|]. destruct (MergeReduce _ _ _) as [st [err|]] eqn:Hm; [done|]. destruct (_ || _); [done|]. injection Hs' as Hseed.
  exists sn, i, tid, d, (insertFlowTx seed d).2, k, base, f, new, (seeded_step (next_flow d) seed), st.
  do 3 (split; [done|]). split; [apply threads_ok_insert; [done|]; right; exists i, g; by rewrite Hst, Hstt|].
  split; [done|]. split; [by rewrite Hg; cbn; rewrite Htid|]. do 5 (split; [done|]). split; [by rewrite <-Hseed|]. split; [by rewrite <-Hseed|].
  split; [unfold new, seeded_flow; rewrite (bool_decide_eq_false_2 (s_thread seed = 0)) by lia; cbn; rewrite Hst; by rewrite <-Hseed|]. split; [done|].
  intros tok' additional' key' j k' Hkey' Hj. unfold continueFlow. rewrite Hkey', lookup_insert_eq.
  destruct (continue_resolve j k' (insertFlowTx seed d).2) as [[tid' ttok']|err] eqn:Hr'; [|by exists err].
  apply continue_resolve_row in Hr' as (h & Hh & _ & _ & Htid' & _). cbn in Hh. cbn in Hj. rewrite Hh in Hj. injection Hj as Hj. rewrite Hj in Htid'. subst tid'.
  unfold continue_tx. rewrite Hlatest. unfold continue_seed. rewrite bool_decide_eq_false_2; [by eexists|]. by rewrite Hrun.
Qed.

(** A caller that is not disturbed does in its statements what [continueFlow] says. *)
Lemma continue_alone e w c s : y_callers s !! w = Some c → c_pc c = CResolve → y_locks s = ∅ →
  ∃ n s' r, trun e (replicate n (TStep w)) s = Some s' ∧ y_callers s' !! w = Some (at_cpc (CDone r) c) ∧
    match continue_resolve (c_flow c) (c_token c) (y_db s) with
    | Err err => r = Err err ∧ y_db s' = y_db s
    | Ok (tid, ttok) =>
        let '(d, res) := continue_tx e (c_tok c) (c_add c) tid ttok (y_db s) in
        y_db s' = d ∧ r = match res with Ok (_, id) => Ok id | Err err => Err err end
    end.
Proof.
  intros Hw Hpc Hl. destruct (continue_resolve (c_flow c) (c_token c) (y_db s)) as [[tid ttok]|err] eqn:Hr.
  2: { exists 1%nat. cbn. rewrite Hw. cbn. unfold caller_step. rewrite Hpc, Hr. eexists _, _. split; [done|]. cbn. by rewrite lookup_insert_eq. }
  set (s2 := set_caller w (at_cpc (CRead tid ttok) c)
    (match t_flows (y_db s) !! tid with None => s | Some _ => mkTsys (y_db s) (<[tid := w]> (y_locks s)) (y_callers s) (y_made s) end)).
  assert (∀ ls, trun e (TStep w :: TStep w :: ls) s = trun e ls (mkTsys (y_db s2) (y_locks s2) (<[w := at_cpc (CRead tid ttok) c]> (<[w := at_cpc (CLock tid ttok) c]> (y_callers s))) (y_made s2))) as H2.
  { intros ls. cbn. rewrite Hw. cbn. unfold caller_step. rewrite Hpc, Hr. cbn. rewrite lookup_insert_eq. cbn. unfold s2.
    destruct (t_flows (y_db s) !! tid); [|done]. unfold lock_free. rewrite Hl. by rewrite lookup_empty. }
  assert (y_db s2 = y_db s) as Hdb by (unfold s2; by destruct (t_flows (y_db s) !! tid)).
  destruct (continue_tx e (c_tok c) (c_add c) tid ttok (y_db s)) as [d res] eqn:Htx. unfold continue_tx in Htx.
  destruct (latest_turn tid (y_db s)) as [[base f]|] eqn:Hlt.
  - destruct (continue_seed e (c_tok c) (c_add c) tid ttok f) as [seed|err] eqn:Hs.
    + exists 4%nat. cbn [replicate]. rewrite H2. rewrite Hdb. cbn -[insertFlowTx]. rewrite lookup_insert_eq. cbn -[insertFlowTx]. rewrite Hlt, Hs.
      cbn -[insertFlowTx]. rewrite lookup_insert_eq. cbn -[insertFlowTx]. cbn in *. injection Htx as <- <-. eexists _, _. split; [done|]. cbn. by rewrite lookup_insert_eq.
    + exists 3%nat. cbn [replicate]. rewrite H2. rewrite Hdb. cbn. rewrite lookup_insert_eq. cbn. rewrite Hlt, Hs.
      injection Htx as <- <-. eexists _, _. split; [done|]. cbn. by rewrite lookup_insert_eq.
  - exists 3%nat. cbn [replicate]. rewrite H2. rewrite Hdb. cbn. rewrite lookup_insert_eq. cbn. rewrite Hlt.
    injection Htx as <- <-. eexists _, _. split; [done|]. cbn. by rewrite lookup_insert_eq.
Qed.

(** ** When the first flow is gone *)

Definition a_graph : Graph := AddTransition "a" END (SetEntryPoint "a" (SetEndpoint "a" "https://host/a" (NewGraph "g"))).
Definition a_turn (tid after : Z) (st : status_t) : turn :=
  mkTurn "tok" "https://host/g" "g" a_graph ∅ st (<["x" := Raw VNil]> ∅) 0 0 false 5 "tenant" f1 1000 1 "tok" tid tid 0 after.
Definition two_turns : turn_table := mkTable (<[1 := a_turn 1 0 StatusCompleted]> (<[2 := a_turn 2 0 StatusCompleted]> ∅)) ∅ 3 3.
Definition an_engine : defaults := mkDefaults 5 60000.

(** The first flow is deleted and reaped; two callers then continue the second one. *)
Definition race : list tlabel :=
  [TMark 1 1; TReap [1]; TContinue 7 2 "tok" [] ("t7", "s7"); TContinue 8 2 "tok" [] ("t8", "s8")]
  ++ [TStep 7; TStep 8; TStep 7; TStep 8; TStep 7; TStep 8; TStep 7; TStep 8].

Definition one_turn_each (s : tsys) : bool :=
  match t_flows (y_db s) !! 3, t_flows (y_db s) !! 4 with
  | Some f3, Some f4 => bool_decide (t_flows (y_db s) !! 1 = None) && bool_decide (y_made s !! 3 = Some 2) && bool_decide (y_made s !! 4 = Some 2)
      && bool_decide (u_thread f3 = 1) && bool_decide (u_thread f4 = 1) && bool_decide (u_status f3 = StatusRunning) && bool_decide (u_status f4 = StatusRunning)
      && bool_decide (u_delete_after f3 = 0) && bool_decide (u_delete_after f4 = 0)
  | _, _ => false
  end.

(** The lock is an update of the thread's first row.  Once that flow has been deleted and reaped it locks nothing, and two
    Continues of the thread both follow the same turn. *)
Theorem reaped_anchor_splits_the_thread : ∃ s n1 n2 b f1 f2, turns_ok two_turns ∧ trun an_engine race (at_rest two_turns) = Some s
  ∧ n1 ≠ n2 ∧ y_made s !! n1 = Some b ∧ y_made s !! n2 = Some b ∧ t_flows (y_db s) !! n1 = Some f1 ∧ t_flows (y_db s) !! n2 = Some f2
  ∧ u_thread f1 = 1 ∧ u_thread f2 = 1 ∧ u_delete_after f1 = 0 ∧ u_delete_after f2 = 0
  ∧ u_status f1 = StatusRunning ∧ u_status f2 = StatusRunning ∧ t_flows (y_db s) !! 1 = None.
Proof.
  assert (match trun an_engine race (at_rest two_turns) with Some s => one_turn_each s | None => false end = true) as Hrun by (vm_compute; reflexivity).
  destruct (trun an_engine race (at_rest two_turns)) as [s|]; [|done]. unfold one_turn_each in Hrun.
  destruct (t_flows (y_db s) !! 3) as [f3|] eqn:H3; [|done]. destruct (t_flows (y_db s) !! 4) as [f4|] eqn:H4; [|done].
  rewrite !andb_true_iff, !bool_decide_eq_true in Hrun. exists s, 3, 4, 2, f3, f4. split.
  - split; [done|]. apply (bool_decide_unpack _). vm_compute. exact I.
  - destruct_and!. by repeat split.
Qed.

(** ** Witnesses *)

Lemma two_turns_ok : turns_ok two_turns.
Proof. split; [done|]. apply (bool_decide_unpack _). vm_compute. exact I. Qed.
Lemma two_turns_threads : threads_ok two_turns.
Proof.
  split; [apply two_turns_ok|]. intros id f a Hf Ha.
  assert (u_thread f = 1 ∧ u_thread_token f = "tok") as [Ht Htt].
  { unfold two_turns in Hf. cbn [t_flows] in Hf. apply lookup_insert_Some in Hf as [[_ <-]|[_ Hf]]; [done|].
    apply lookup_insert_Some in Hf as [[_ <-]|[_ Hf]]; [done|by rewrite lookup_empty in Hf]. }
  rewrite Ht in Ha. unfold two_turns in Ha. cbn [t_flows] in Ha. rewrite lookup_insert_eq in Ha. injection Ha as <-. by rewrite Ht, Htt.
Qed.

(** The same race while the first flow is there: the second caller waits, and is refused. *)
Definition fair_race : list tlabel :=
  [TContinue 7 2 "tok" [] ("t7", "s7"); TContinue 8 2 "tok" [] ("t8", "s8"); TStep 7; TStep 8; TStep 7; TStep 7; TStep 7; TStep 8; TStep 8].
Lemma threads_stay_linear_witness :
  ∃ s, trun an_engine fair_race (at_rest two_turns) = Some s ∧ y_made s !! 3 = Some 2
    ∧ (c_pc <$> y_callers s !! 8) = Some (CDone (Err TConflict))
    ∧ (∀ n1 n2 b f1 f2, y_made s !! n1 = Some b → y_made s !! n2 = Some b →
         t_flows (y_db s) !! n1 = Some f1 → t_flows (y_db s) !! n2 = Some f2 → u_thread f1 = 1 → u_thread f2 = 1 →
         u_delete_after f1 = 0 → u_delete_after f2 = 0 → n1 = n2)
    ∧ (∀ w c base seed n b f, y_callers s !! w = Some c → c_pc c = CInsert 1 base seed →
         y_locks s !! 1 = Some w ∧ (y_made s !! n = Some b → base < n → t_flows (y_db s) !! n = Some f → u_thread f = 1 → u_delete_after f ≠ 0)).
Proof.
  assert (match trun an_engine fair_race (at_rest two_turns) with
          | Some s => bool_decide (y_made s !! 3 = Some 2) && bool_decide (is_Some (t_flows (y_db s) !! 1))
                      && match y_callers s !! 8 with Some c => match c_pc c with CDone (Err TConflict) => true | _ => false end | None => false end
          | None => false end = true) as Hb by (vm_compute; reflexivity).
  destruct (trun an_engine fair_race (at_rest two_turns)) as [s|] eqn:Hs; [|discriminate]. exists s.
  rewrite !andb_true_iff, !bool_decide_eq_true in Hb. destruct Hb as [[Hm Hi] Hc]. split; [reflexivity|]. split; [exact Hm|].
  split.
  - destruct (y_callers s !! 8) as [c|]; [|discriminate]. cbn. destruct (c_pc c) as [| | | |[?|[]]]; try discriminate. reflexivity.
  - exact (threads_stay_linear an_engine two_turns fair_race s 1 two_turns_ok Hs Hi).
Defined.

Definition one_shard : gmap Z turn_table := <[1 := two_turns]> ∅.
Lemma one_shard_ok n d : one_shard !! n = Some d → threads_ok d.
Proof. unfold one_shard. intros H. apply lookup_insert_Some in H as [[_ <-]|[_ H]]; [apply two_turns_threads|by rewrite lookup_empty in H]. Qed.

Lemma continue_extends_the_latest_witness :
  (continueFlow an_engine ("new", "step") (Keys.New 1 1 "tok") (Some []) one_shard).2 = Ok (Keys.New 1 3 "new")
  ∧ match (continueFlow an_engine ("new", "step") (Keys.New 1 1 "tok") (Some []) one_shard).2 with
    | Err _ => True
    | Ok newKey => ∃ d base f, one_shard !! 1 = Some d ∧ latest_turn 1 d = Some (base, f) ∧ u_status f = StatusCompleted
    end.
Proof.
  split; [vm_compute; reflexivity|].
  pose proof (continue_extends_the_latest an_engine ("new", "step") (Keys.New 1 1 "tok") [] one_shard _ _ (surjective_pairing _) one_shard_ok) as H.
  destruct (continueFlow an_engine ("new", "step") (Keys.New 1 1 "tok") (Some []) one_shard).2 as [newKey|]; [|exact I].
  destruct H as (sn & i & tid & d & d' & k & base & f & new & step & st & Hk & Hd & _ & _ & _ & Ht & Hl & Hc & _).
  assert (sn = 1 ∧ i = 1) as [-> ->].
  { assert (ParseFlowKey (Keys.New 1 1 "tok") = Ok (1, 1, "tok")) as Hp by (vm_compute; reflexivity). rewrite Hp in Hk. by injection Hk as <- <- _. }
  exists d, base, f. split; [exact Hd|]. assert (d = two_turns) as -> by (unfold one_shard in Hd; rewrite lookup_insert_eq in Hd; by injection Hd).
  cbn [two_turns t_flows] in Ht. rewrite lookup_insert_eq in Ht. injection Ht as <-. split; [exact Hl|exact Hc].
Defined.

Lemma create_adds_a_root_witness :
  ∃ shards', create (λ _, true) an_engine (λ _ _, Ok (Some a_graph)) (Some 1) ("new", "step") "https://host/g" (Some ∅) None one_shard
      = (shards', Ok (Keys.New 1 3 "new"))
    ∧ ∃ shardNum d g (initial : State), one_shard !! shardNum = Some d ∧ Some (∅ : State) = Some initial ∧ g = a_graph ∧ Keys.New 1 3 "new" = Keys.New shardNum (next_flow d) "new".
Proof.
  pose proof (create_adds_a_root an_engine ltac:(reflexivity) ltac:(reflexivity) (λ _, true) (λ _ _, Ok (Some a_graph)) (Some 1) ("new", "step") "https://host/g"
    (Some ∅) None one_shard _ _ (surjective_pairing _) one_shard_ok) as H.
  assert ((create (λ _, true) an_engine (λ _ _, Ok (Some a_graph)) (Some 1) ("new", "step") "https://host/g" (Some ∅) None one_shard).2
    = Ok (Keys.New 1 3 "new")) as Hr by (vm_compute; reflexivity).
  rewrite Hr in H. eexists. split; [rewrite (surjective_pairing (create _ _ _ _ _ _ _ _ _)), Hr; reflexivity|].
  destruct H as (sn & d & g & initial & Hd & Hi & Hg & _ & Hk & _). exists sn, d, g, initial. injection Hg as <-. by repeat split.
Defined.
