(* ===== verification/View.v ===== *)
(** * What a caller sees of a flow ([snapshot], [await], [run] of [engine/operations.go], [Await] and [Poll] of
    [engine/engine.go], [history] and [step] of [engine/history.go])

    The outcome of one flow and the calls that wait for it, the nested history of a flow's subgraph tree, and the step
    that comes before and after a step.  The tables are [Tree]'s with the columns the views add; [tree_of] forgets them,
    so that what [Tree] proves of every reachable table is what the views can rely on.

    A waiting call reads the tables twice: the two readings, what the latch board answered in between and whether the
    caller's context had ended are arguments. *)

From S2P Require Import Prelude State Staterefs Keys StepRow Tree.

#[local] Open Scope Z_scope.

Record vflow := mkVFlow { v_row : tflow; v_token : string; v_url : string; v_name : string; v_delete_after : Z }.
Record vstep := mkVStep {
  p_flow : Z;
  p_row : row;
  p_token : string;
  p_depth : Z;
  p_task : string;
  p_state : State;
  p_refs : Refs;
  p_pred : Z;
  p_succ : Z
}.
Record views := mkViews { v_now : Z; v_flows : gmap Z vflow; v_steps : gmap Z vstep }.

Definition tree_of (d : views) : db := mkDb (v_now d) (v_row <$> v_flows d) ((λ p, (p_flow p, p_row p)) <$> v_steps d).
Definition anchor_rows (d : views) : anchors := (λ p, mkAnchor (p_state p) (r_changes (p_row p)) (p_refs p)) <$> v_steps d.

Inductive v_error := VBadKey | VNoShard | VNotFound | VRef (e : ref_error) | VShutdown | VContext | VTimedOut | VDatabase.

(** ** [FlowOutcome] *)

Record FlowOutcome := mkOutcome {
  o_status : status_t;
  o_state : State;
  o_error : string;
  o_interrupt : State;
  o_terminate : string;
  o_cancel : string
}.

Definition Stopped (o : FlowOutcome) : bool := negb (bool_decide (o_status o ∈ [StatusCreated; StatusPending; StatusRunning])).

Definition splitTerminateCancelReason (st : status_t) (reason : string) : string * string :=
  match st with StatusTerminated => (reason, "") | StatusCancelled => ("", reason) | _ => ("", "") end.

Definition outcome_of (resolved : cache) (d : views) (flowID : Z) (f : tflow) : result v_error FlowOutcome :=
  let err := TrimSpace (tf_error f) in
  let reason := TrimSpace (tf_reason f) in
  let '(terminated, cancelled) := splitTerminateCancelReason (tf_status f) reason in
  match tf_status f with
  | StatusCompleted => Ok (mkOutcome StatusCompleted (tf_final f) "" ∅ "" "")
  | StatusFailed => Ok (mkOutcome StatusFailed (tf_final f) err ∅ "" "")
  | StatusTerminated | StatusCancelled => Ok (mkOutcome (tf_status f) (tf_final f) "" ∅ terminated cancelled)
  | StatusInterrupted =>
      match interrupted_leaf (tree_of d) flowID ≫= (λ s, v_steps d !! s) with
      | None => Ok (mkOutcome StatusInterrupted ∅ "" ∅ "" "")
      | Some p =>
          match Resolve (anchor_rows d) resolved (p_state p) (p_refs p) None with
          | Err e => Err (VRef e)
          | Ok st => Ok (mkOutcome StatusInterrupted (materialize (r_changes (p_row p)) st) "" (r_interrupt_payload (p_row p)) "" "")
          end
      end
  | StatusRunning | StatusCreated | StatusPending => Ok (mkOutcome (tf_status f) ∅ "" ∅ "" "")
  end.

Definition snapshot (resolved : cache) (shards : gmap Z views) (flowKey : string) : result v_error FlowOutcome :=
  match ParseFlowKey flowKey with
  | Err _ => Err VBadKey
  | Ok (shardNum, flowID, flowToken) =>
      match shards !! shardNum with
      | None => Err VNoShard
      | Some d =>
          match v_flows d !! flowID with
          | None => Err VNotFound
          | Some f => if bool_decide (v_token f = flowToken) then outcome_of resolved d flowID (v_row f) else Err VNotFound
          end
      end
  end.

(** ** [await] *)

Inductive latched := LReleased | LClosed | LRanOut.

(** The first reading, whether the context had ended when it failed, the board's answer, and the second reading. *)
Definition await (first : result v_error FlowOutcome) (ended : bool) (board : latched) (second : result v_error FlowOutcome)
    : result v_error FlowOutcome :=
  match first with
  | Err e => if ended then Ok (mkOutcome StatusRunning ∅ "" ∅ "" "") else Err e
  | Ok o =>
      if Stopped o then Ok o
      else match board with LClosed => Err VShutdown | LRanOut => Ok o | LReleased => second end
  end.

(** [Await]: [ended] is whether the context the caller passed has an error, which the engine's own budget gives it none. *)
Definition Await (awaited : result v_error FlowOutcome) (ended : bool) : result v_error FlowOutcome :=
  match awaited with
  | Err e => Err e
  | Ok o => if Stopped o then Ok o else Err (if ended then VContext else VTimedOut)
  end.
Definition Poll (awaited : result v_error FlowOutcome) : result v_error FlowOutcome := awaited.

(** [run], given what [create] and [await] answered: a key, an outcome and an error, either of which may be nil. *)
Definition run {E} (created : result E string) (awaited : result v_error FlowOutcome) (ended : bool)
    : string * option FlowOutcome * option (E + v_error) :=
  match created with
  | Err e => ("", None, Some (inl e))
  | Ok flowKey =>
      match awaited with
      | Err e => (flowKey, None, Some (inr e))
      | Ok o =>
          if negb (Stopped o) then (flowKey, None, if ended then Some (inr VContext) else None)
          else (flowKey, Some o, None)
      end
  end.

(** ** [history] *)

Record subgraphChild := mkChild { sc_flow : Z; sc_url : string; sc_name : string }.

Definition same_root (d : views) (flowID : Z) (fid : Z) : bool :=
  match v_flows d !! flowID, v_flows d !! fid with
  | Some f, Some g => bool_decide (tf_root (v_row g) = tf_root (v_row f))
  | _, _ => false
  end.

Definition flow_le (a b : Z * vflow) : Prop := a.1 ≤ b.1.
#[global] Instance flow_le_dec a b : Decision (flow_le a b).
Proof. unfold flow_le. apply _. Defined.
(** By flow, depth and id. *)
Definition step_le (a b : Z * vstep) : Prop :=
  p_flow a.2 < p_flow b.2 ∨ p_flow a.2 = p_flow b.2 ∧ (p_depth a.2 < p_depth b.2 ∨ p_depth a.2 = p_depth b.2 ∧ a.1 ≤ b.1).
#[global] Instance step_le_dec a b : Decision (step_le a b).
Proof. unfold step_le. apply _. Defined.

Definition loadSubgraphChildren (d : views) (flowID : Z) : gmap Z subgraphChild :=
  foldl (λ m e, <[tf_caller (v_row e.2) := mkChild e.1 (TrimSpace (v_url e.2)) (TrimSpace (v_name e.2))]> m) ∅
    (merge_sort flow_le (filter (λ e, same_root d flowID e.1 && bool_decide (0 < tf_caller (v_row e.2)) = true) (map_to_list (v_flows d)))).
Definition loadTreeSteps (d : views) (flowID : Z) : gmap Z (list (Z * vstep)) :=
  foldl (λ m e, <[p_flow e.2 := default [] (m !! p_flow e.2) ++ [e]]> m) ∅
    (merge_sort step_le (filter (λ e, same_root d flowID (p_flow e.2) = true) (map_to_list (v_steps d)))).

(** A step of a history: its row, the subgraph's url and name where it has one, and the subgraph's steps. *)
Inductive hstep := HStep (id : Z) (p : vstep) (sub : option (string * string)) (steps : list hstep).

Section assembling.
Context (childByCaller : gmap Z subgraphChild) (stepsByFlow : gmap Z (list (Z * vstep))).

Fixpoint assembleHistory (fuel : nat) (flowID : Z) : option (list hstep) :=
  match fuel with
  | O => None
  | S fuel =>
      mapM (λ e : Z * vstep,
        match childByCaller !! e.1 with
        | None => Some (HStep e.1 e.2 None [])
        | Some child =>
            sub ← assembleHistory fuel (sc_flow child);
            Some (match sub with
                  | [] => HStep e.1 e.2 None []
                  | _ => HStep e.1 e.2 (Some (sc_url child, sc_name child)) sub
                  end)
        end) (default [] (stepsByFlow !! flowID))
  end.
End assembling.

Definition history (shards : gmap Z views) (flowKey : string) : result v_error (list hstep) :=
  match ParseFlowKey flowKey with
  | Err _ => Err VBadKey
  | Ok (shardNum, flowID, flowToken) =>
      match shards !! shardNum with
      | None => Err VNoShard
      | Some d =>
          match v_flows d !! flowID with
          | None => Err VNotFound
          | Some f =>
              if bool_decide (v_token f = flowToken) && bool_decide (v_delete_after f = 0) then
                match assembleHistory (loadSubgraphChildren d flowID) (loadTreeSteps d flowID) (S (size (v_flows d))) flowID with
                | Some h => Ok h
                | None => Err VDatabase
                end
              else Err VNotFound
          end
      end
  end.

(** ** The neighbours of a step *)

(** The newest child of a step, zero for none. *)
Definition newest_child (d : views) (stepID : Z) : Z :=
  default 0 (last (merge_sort Z.le (filter (λ e, tf_caller (v_row e.2) = stepID) (map_to_list (v_flows d))).*1)).
(** The first step of a flow without a predecessor, and the last completed one without a successor; zero for none. *)
Definition entry_step (d : views) (flowID : Z) : Z :=
  default 0 (head (merge_sort Z.le (filter (λ e, p_flow e.2 = flowID ∧ p_pred e.2 = 0) (map_to_list (v_steps d))).*1)).
Definition exit_step (d : views) (flowID : Z) : Z :=
  default 0 (last (merge_sort Z.le
    (filter (λ e, p_flow e.2 = flowID ∧ p_succ e.2 = 0 ∧ r_status (p_row e.2) = StatusCompleted) (map_to_list (v_steps d))).*1)).

(** [skipSurgraphForward] and [skipSurgraphBackward], down through the wrappers. *)
Fixpoint skip (edge : Z → Z) (d : views) (fuel : nat) (id : Z) : option Z :=
  match fuel with
  | O => None
  | S fuel =>
      if bool_decide (id ≤ 0) then Some id
      else
        let child := newest_child d id in
        if bool_decide (child = 0) then Some id
        else if bool_decide (edge child = 0) then Some id else skip edge d fuel (edge child)
  end.
Definition skipSurgraphForward (d : views) (id : Z) : option Z := skip (entry_step d) d (S (size (v_flows d))) id.
Definition skipSurgraphBackward (d : views) (id : Z) : option Z := skip (exit_step d) d (S (size (v_flows d))) id.

(** The wrapper of the flow a step is in, zero for a root's. *)
Definition wrapper_of (d : views) (p : vstep) : Z := match v_flows d !! p_flow p with Some f => tf_caller (v_row f) | None => 0 end.

(** The neighbours [step] names, zero for none. *)
Definition neighbours (d : views) (stepID : Z) (p : vstep) : option (Z * Z) :=
  let '(pred, succ) :=
    if bool_decide (p_pred p = 0) || bool_decide (p_succ p = 0) then
      let w := wrapper_of d p in
      if bool_decide (0 < w) then
        match v_steps d !! w with
        | Some q => (if bool_decide (p_pred p = 0) && bool_decide (0 < p_pred q) then p_pred q else p_pred p,
                     if bool_decide (p_succ p = 0) && bool_decide (0 < p_succ q) then p_succ q else p_succ p)
        | None => (p_pred p, p_succ p)
        end
      else (p_pred p, p_succ p)
    else (p_pred p, p_succ p) in
  let child := newest_child d stepID in
  let succ := if bool_decide (0 < child) && bool_decide (0 < entry_step d child) then entry_step d child else succ in
  succ ← skipSurgraphForward d succ;
  pred ← skipSurgraphBackward d pred;
  Some (pred, succ).

(** The keys of neighbours whose rows are there. *)
Definition neighbour_key (shardNum : Z) (d : views) (id : Z) : string :=
  match v_steps d !! id with Some q => if bool_decide (0 < id) then Keys.New shardNum id (p_token q) else "" | None => "" end.

Record step_view := mkStepView { sv_id : Z; sv_row : vstep; sv_state : State; sv_prev : string; sv_next : string }.

Definition step (resolved : cache) (shards : gmap Z views) (stepKey : string) : result v_error step_view :=
  match ParseStepKey stepKey with
  | Err _ => Err VBadKey
  | Ok (shardNum, stepID, stepToken) =>
      match shards !! shardNum with
      | None => Err VNoShard
      | Some d =>
          match v_steps d !! stepID with
          | None => Err VNotFound
          | Some p =>
              if negb (bool_decide (p_token p = stepToken)) then Err VNotFound
              else match Resolve (anchor_rows d) resolved (p_state p) (p_refs p) None with
              | Err e => Err (VRef e)
              | Ok st =>
                  match neighbours d stepID p with
                  | None => Err VDatabase
                  | Some (pred, succ) => Ok (mkStepView stepID p st (neighbour_key shardNum d pred) (neighbour_key shardNum d succ))
                  end
              end
          end
      end
  end.

(** ** Waiting *)

(** [Await] answers a stopped outcome or an error. *)
Lemma Await_stopped awaited ended o : Await awaited ended = Ok o → Stopped o = true.
Proof. unfold Await. destruct awaited as [o'|]; [|done]. destruct (Stopped o') eqn:Hs; [|done]. by intros [= <-]. Qed.

(** [Run] answers neither an outcome nor an error when the wait ran out on the engine's own budget, or when the flow was
    resumed between its stop and the second reading. *)
Lemma run_answers_nothing {E} (key : string) first board second o :
  await (Ok first) false board second = Ok o → Stopped o = false → run (Ok key : result E string) (Ok o) false = (key, None, None).
Proof. intros _ Hs. unfold run. by rewrite Hs. Qed.
Lemma run_out_of_budget : ∃ first, await (Ok first) false LRanOut (Err VNotFound) = Ok first
  ∧ run (Ok "1-1-tok" : result unit string) (Ok first) false = ("1-1-tok", None, None) ∧ Await (Ok first) false = Err VTimedOut.
Proof. by exists (mkOutcome StatusRunning ∅ "" ∅ "" ""). Qed.

(** ** The history *)

Section history.
Context (d : views) (Hok : tree_ok (tree_of d)) (root : Z).

#[local] Instance flow_le_trans : Transitive flow_le.
Proof. unfold flow_le. intros a b c ? ?. lia. Qed.
#[local] Instance flow_le_total : Total flow_le.
Proof. unfold flow_le. intros a b. lia. Qed.

(** The child a history shows under a step: the newest one of the tree. *)
Definition shown_child (s c : Z) : Prop :=
  ∃ g, v_flows d !! c = Some g ∧ tf_caller (v_row g) = s ∧ 0 < s ∧ same_root d root c = true
    ∧ ∀ c' g', v_flows d !! c' = Some g' → tf_caller (v_row g') = s → same_root d root c' = true → c' ≤ c.
Inductive shown (flowID : Z) : Z → Prop :=
| shown_self : shown flowID flowID
| shown_below s p c g : v_steps d !! s = Some p → p_flow p = flowID → shown_child s c → shown c g → shown flowID g.

Lemma tree_flow id f : v_flows d !! id = Some f → flows (tree_of d) !! id = Some (v_row f).
Proof. intros Hf. cbn. by rewrite lookup_fmap, Hf. Qed.
Lemma tree_step s p : v_steps d !! s = Some p → tsteps (tree_of d) !! s = Some (p_flow p, p_row p).
Proof. intros Hp. cbn. by rewrite lookup_fmap, Hp. Qed.

(** A flow with a caller is a child of the caller's flow, and younger. *)
Lemma caller_above c g : v_flows d !! c = Some g → tf_caller (v_row g) ≠ 0 →
  ∃ p, v_steps d !! tf_caller (v_row g) = Some p ∧ p_flow p = tf_parent (v_row g) ∧ 0 < tf_parent (v_row g) < c.
Proof using Hok.
  intros Hg Hc. apply tree_flow in Hg. destruct (decide (tf_parent (v_row g) = 0)) as [Hz|Hz].
  - by destruct Hc; apply (ok_root_caller _ Hok c).
  - destruct (ok_parent _ Hok c _ Hg Hz) as [Hlt _]. destruct (ok_caller _ Hok c _ Hg Hz) as (_ & r & Hr). cbn in Hr.
    rewrite lookup_fmap in Hr. destruct (v_steps d !! tf_caller (v_row g)) as [p|]; [|done]. injection Hr as Hp _. by exists p.
Qed.

Lemma StronglySorted_filter {A} (R : A → A → Prop) (P : A → Prop) `{!∀ x, Decision (P x)} l : StronglySorted R l → StronglySorted R (filter P l).
Proof.
  induction 1 as [|x l Hs IH Hall]; [constructor|]. destruct (decide (P x)); [rewrite filter_cons_True by done|by rewrite filter_cons_False by done].
  constructor; [done|]. apply Forall_forall. intros y [_ Hy]%list_elem_of_filter. rewrite Forall_forall in Hall. by apply Hall.
Qed.
Lemma foldl_last_insert (l : list (Z * vflow)) (m : gmap Z subgraphChild) s :
  foldl (λ m e, <[tf_caller (v_row e.2) := mkChild e.1 (TrimSpace (v_url e.2)) (TrimSpace (v_name e.2))]> m) m l !! s
    = match last (filter (λ e, tf_caller (v_row e.2) = s) l) with
      | Some e => Some (mkChild e.1 (TrimSpace (v_url e.2)) (TrimSpace (v_name e.2)))
      | None => m !! s
      end.
Proof.
  induction l as [|e l IH] using rev_ind; [done|]. rewrite foldl_app, filter_app. cbn [foldl]. destruct (decide (tf_caller (v_row e.2) = s)) as [<-|Hne].
  - rewrite lookup_insert_eq, filter_cons_True, filter_nil, last_snoc by done. done.
  - rewrite lookup_insert_ne by done. rewrite IH, filter_cons_False, filter_nil, app_nil_r by done. done.
Qed.
Lemma last_of_sorted (l : list (Z * vflow)) e x : StronglySorted flow_le l → last l = Some e → x ∈ l → x.1 ≤ e.1.
Proof.
  intros Hs Hl Hx. apply last_Some in Hl as [l' ->]. apply elem_of_app in Hx as [Hx|Hx%list_elem_of_singleton]; [|by subst].
  apply (StronglySorted_app_1_elem_of flow_le l' [e] x e Hs Hx). left.
Qed.

Lemma loadSubgraphChildren_spec s ch : loadSubgraphChildren d root !! s = Some ch → shown_child s (sc_flow ch).
Proof.
  unfold loadSubgraphChildren. rewrite foldl_last_insert, lookup_empty. set (l := merge_sort flow_le _).
  destruct (last (filter (λ e : Z * vflow, tf_caller (v_row e.2) = s) l)) as [[c g]|] eqn:Hl; [|done]. intros [= <-]. cbn.
  assert (∀ x, x ∈ filter (λ e : Z * vflow, tf_caller (v_row e.2) = s) l ↔
    tf_caller (v_row x.2) = s ∧ same_root d root x.1 = true ∧ 0 < tf_caller (v_row x.2) ∧ v_flows d !! x.1 = Some x.2) as Hin.
  { intros [i f]. unfold l. rewrite list_elem_of_filter, merge_sort_Permutation, list_elem_of_filter, elem_of_map_to_list.
    rewrite andb_true_iff, bool_decide_eq_true. cbn. tauto. }
  pose proof (last_Some_elem_of _ _ Hl) as Hc. apply Hin in Hc as (Hs & Hr & Hpos & Hf). cbn in *. exists g. rewrite Hs in Hpos.
  repeat (split; [done|]). intros c' g' Hf' Hs' Hr'.
  refine (last_of_sorted _ (c, g) (c', g') _ Hl _); [apply StronglySorted_filter, (StronglySorted_merge_sort flow_le); apply _|].
  apply Hin. cbn. by rewrite Hs'.
Qed.
Lemma loadSubgraphChildren_none s c g : loadSubgraphChildren d root !! s = None → v_flows d !! c = Some g → tf_caller (v_row g) = s → 0 < s →
  same_root d root c = false.
Proof.
  unfold loadSubgraphChildren. rewrite foldl_last_insert, lookup_empty. set (l := merge_sort flow_le _).
  destruct (last (filter (λ e : Z * vflow, tf_caller (v_row e.2) = s) l)) as [[c' g']|] eqn:Hl; [done|]. intros _ Hg Hs Hpos.
  apply last_None in Hl. apply not_true_is_false. intros Hr.
  assert ((c, g) ∈ filter (λ e : Z * vflow, tf_caller (v_row e.2) = s) l) as Hin; [|rewrite Hl in Hin; by apply not_elem_of_nil in Hin].
  unfold l. rewrite list_elem_of_filter, merge_sort_Permutation, list_elem_of_filter, elem_of_map_to_list, andb_true_iff, bool_decide_eq_true. cbn. by rewrite Hs.
Qed.
Lemma shown_child_loaded s c : shown_child s c → ∃ ch, loadSubgraphChildren d root !! s = Some ch ∧ sc_flow ch = c.
Proof.
  intros (g & Hg & Hs & Hpos & Hr & Hmax). destruct (loadSubgraphChildren d root !! s) as [ch|] eqn:Hl.
  - exists ch. split; [done|]. apply loadSubgraphChildren_spec in Hl as (g' & Hg' & Hs' & _ & Hr' & Hmax').
    pose proof (Hmax _ _ Hg' Hs' Hr'). pose proof (Hmax' _ _ Hg Hs Hr). lia.
  - by rewrite (loadSubgraphChildren_none s c g Hl Hg Hs Hpos) in Hr.
Qed.

Lemma foldl_group (l : list (Z * vstep)) (m : gmap Z (list (Z * vstep))) f :
  default [] (foldl (λ m e, <[p_flow e.2 := default [] (m !! p_flow e.2) ++ [e]]> m) m l !! f)
    = default [] (m !! f) ++ filter (λ e, p_flow e.2 = f) l.
Proof.
  revert m. induction l as [|e l IH]; intros m; [by rewrite app_nil_r|]. cbn [foldl]. rewrite IH. destruct (decide (p_flow e.2 = f)) as [<-|Hne].
  - rewrite lookup_insert_eq, filter_cons_True by done. cbn. by rewrite <-app_assoc.
  - by rewrite lookup_insert_ne, filter_cons_False by done.
Qed.
Definition steps_of (f : Z) : list (Z * vstep) := default [] (loadTreeSteps d root !! f).
Lemma steps_of_spec f e : e ∈ steps_of f ↔ v_steps d !! e.1 = Some e.2 ∧ p_flow e.2 = f ∧ same_root d root f = true.
Proof.
  unfold steps_of, loadTreeSteps. rewrite foldl_group, lookup_empty. cbn. destruct e as [s p].
  rewrite list_elem_of_filter, merge_sort_Permutation, list_elem_of_filter, elem_of_map_to_list. cbn. naive_solver.
Qed.
Lemma steps_of_NoDup f : NoDup (steps_of f).*1.
Proof.
  unfold steps_of, loadTreeSteps. rewrite foldl_group, lookup_empty. cbn.
  eapply sublist_NoDup; [|apply fmap_sublist, sublist_filter]. rewrite merge_sort_Permutation.
  eapply sublist_NoDup; [apply (NoDup_fst_map_to_list (v_steps d))|]. apply fmap_sublist, sublist_filter.
Qed.
End history.

Fixpoint hids (h : hstep) : list Z := match h with HStep id _ _ subs => id :: flat_map hids subs end.
Definition all_ids (h : list hstep) : list Z := flat_map hids h.

Lemma elem_of_all_ids x h : x ∈ all_ids h ↔ ∃ y, y ∈ h ∧ x ∈ hids y.
Proof. unfold all_ids. rewrite list_elem_of_In, in_flat_map. setoid_rewrite list_elem_of_In. done. Qed.

Section assembly.
Context (d : views) (Hok : tree_ok (tree_of d)) (root : Z).

Abbreviation kids := (loadSubgraphChildren d root).
Abbreviation assembled := (assembleHistory kids (loadTreeSteps d root)).

Lemma shown_child_above fid s p c : v_steps d !! s = Some p → p_flow p = fid → shown_child d root s c →
  ∃ g, v_flows d !! c = Some g ∧ tf_parent (v_row g) = fid ∧ 0 < fid < c ∧ tf_caller (v_row g) = s ∧ same_root d root c = true.
Proof using Hok.
  intros Hp <- (g & Hg & Hs & Hpos & Hr & _). destruct (caller_above d Hok c g Hg ltac:(lia)) as (q & Hq & Hf & Hlt). rewrite Hs, Hp in Hq.
  injection Hq as <-. exists g. rewrite Hf. done.
Qed.
Lemma shown_up c g : shown d root c g → g = c ∨ ∃ gg, v_flows d !! g = Some gg ∧ c ≤ tf_parent (v_row gg) < g ∧ shown d root c (tf_parent (v_row gg)).
Proof using Hok.
  induction 1 as [c|fid s p c g Hp Hf Hc Hg IH]; [by left|right]. pose proof (shown_child_above fid s p c Hp Hf Hc) as (gg & Hgg & Hpar & Hlt & _).
  destruct IH as [->|(g' & Hg' & Hlt' & Hsh)].
  - exists gg. rewrite Hpar. split; [done|]. split; [lia|]. constructor.
  - exists g'. split; [done|]. split; [lia|]. by apply (shown_below d root fid s p c).
Qed.
Lemma shown_ge c g : shown d root c g → c ≤ g.
Proof using Hok. intros [->|(? & _ & ? & _)]%shown_up; lia. Qed.
Lemma shown_apart fid c1 c2 g1 g2 g : v_flows d !! c1 = Some g1 → v_flows d !! c2 = Some g2 → tf_parent (v_row g1) = fid → tf_parent (v_row g2) = fid →
  fid < c1 → fid < c2 → c1 ≠ c2 → shown d root c1 g → shown d root c2 g → False.
Proof using Hok.
  intros H1 H2 Hp1 Hp2 Hl1 Hl2 Hne Hs1 Hs2. revert Hs1 Hs2. induction (Z.lt_wf 0 g) as [g _ IH]. intros Hs1 Hs2.
  pose proof (shown_ge _ _ Hs1). pose proof (shown_ge _ _ Hs2).
  destruct (shown_up _ _ Hs1) as [->|(a & Ha & Hla & Hua)], (shown_up _ _ Hs2) as [->|(b & Hb & Hlb & Hub)]; [done| | |].
  - rewrite H1 in Hb. injection Hb as <-. rewrite Hp1 in Hlb. lia.
  - rewrite H2 in Ha. injection Ha as <-. rewrite Hp2 in Hla. lia.
  - rewrite Ha in Hb. injection Hb as <-. apply (IH (tf_parent (v_row a))); [|done|done].
    assert (0 < tf_parent (v_row a)); [|lia]. destruct (decide (tf_parent (v_row a) = 0)) as [Hz|Hz].
    + rewrite Hz in Hla, Hlb, Hua, Hub. pose proof (ok_positive _ Hok c1 _ (tree_flow d c1 g1 H1)). lia.
    + destruct (ok_parent _ Hok g _ (tree_flow d g a Ha) Hz) as [? _]. lia.
Qed.

(** What one step of a flow becomes. *)
Definition becomes (fuel : nat) (e : Z * vstep) (y : hstep) : Prop :=
  ∃ sub, hids y = e.1 :: all_ids sub ∧
    match kids !! e.1 with
    | None => sub = [] ∧ y = HStep e.1 e.2 None []
    | Some ch => assembled fuel (sc_flow ch) = Some sub
        ∧ y = match sub with [] => HStep e.1 e.2 None [] | _ => HStep e.1 e.2 (Some (sc_url ch, sc_name ch)) sub end
    end.
Lemma assembled_step fuel fid h : assembled (S fuel) fid = Some h ↔ Forall2 (becomes fuel) (steps_of d root fid) h.
Proof.
  cbn [assembleHistory]. fold (steps_of d root fid). rewrite mapM_Some. split; intros HF; (eapply Forall2_impl; [exact HF|]); intros e y.
  - unfold becomes. destruct (kids !! e.1) as [ch|]; [|intros [= <-]; by exists []]. intros (sub & Hs & [= <-])%bind_Some. exists sub.
    split; [by destruct sub|done].
  - intros (sub & _ & Hs). destruct (kids !! e.1) as [ch|]; [|by destruct Hs as [_ ->]]. destruct Hs as [-> ->]. done.
Qed.

Lemma assembled_total fuel (fid : Z) : (size (filter (λ e : Z * vflow, (fid ≤ e.1)%Z) (v_flows d)) < fuel)%nat → ∃ h, assembled fuel fid = Some h.
Proof using Hok.
  revert fid. induction fuel as [|fuel IH]; intros fid Hlt; [lia|]. cbn [assembleHistory]. apply mapM_is_Some_2. apply Forall_forall. intros e He. unfold compose.
  destruct (kids !! e.1) as [ch|] eqn:Hch; [|by eexists]. fold (steps_of d root fid) in He. apply steps_of_spec in He as (Hs & Hf & Hr).
  apply loadSubgraphChildren_spec in Hch. destruct (shown_child_above fid _ _ _ Hs Hf Hch) as (g & Hg & _ & Hlt' & _).
  destruct (IH (sc_flow ch)) as [sub ->]; [|by eexists]. apply Nat.lt_le_trans with (size (filter (λ e : Z * vflow, (fid ≤ e.1)%Z) (v_flows d))); [|lia].
  rewrite <-!size_dom. apply subset_size. split.
  - intros i (f & [Hi Hle]%map_lookup_filter_Some)%elem_of_dom. apply elem_of_dom. exists f. apply map_lookup_filter_Some. cbn in *. split; [done|lia].
  - unfold same_root in Hr. destruct (v_flows d !! root); [|done]. destruct (v_flows d !! fid) as [gf|] eqn:Hgf; [|done]. intros Hsub.
    assert (fid ∈ dom (filter (λ e : Z * vflow, (fid ≤ e.1)%Z) (v_flows d))) as Hin by (apply elem_of_dom; exists gf; by apply map_lookup_filter_Some).
    apply Hsub, elem_of_dom in Hin as [? [_ Hle]%map_lookup_filter_Some]. cbn in Hle. lia.
Qed.

Definition in_history (fid s : Z) : Prop := ∃ g p, shown d root fid g ∧ v_steps d !! s = Some p ∧ p_flow p = g.

Lemma assembled_ids fuel fid h : same_root d root fid = true → assembled fuel fid = Some h →
  (∀ s, s ∈ all_ids h ↔ in_history fid s) ∧ NoDup (all_ids h).
Proof using Hok.
  revert fid h. induction fuel as [|fuel IH]; intros fid h Hr; [done|]. rewrite assembled_step. intros Hall.
  assert (∀ e y, e ∈ steps_of d root fid → becomes fuel e y →
     (∀ s, s ∈ hids y ↔ s = e.1 ∨ ∃ c, shown_child d root e.1 c ∧ in_history c s) ∧ NoDup (hids y)) as Heach.
  { intros e y (Hp & Hf & _)%steps_of_spec (sub & Hy & Hsub). rewrite Hy. destruct (kids !! e.1) as [ch|] eqn:Hch.
    - destruct Hsub as [Hsub _]. apply loadSubgraphChildren_spec in Hch as Hc. destruct (shown_child_above fid _ _ _ Hp Hf Hc) as (g & Hg & Hpar & Hlt & _ & Hrc).
      destruct (IH _ _ Hrc Hsub) as [Hin Hnd]. split.
      + intros s. rewrite elem_of_cons, Hin. split; [|intros [->|(c & Hc' & Hi)]; [by left|right]].
        * intros [->|Hi]; [by left|right]. by exists (sc_flow ch).
        * apply shown_child_loaded in Hc' as (ch' & Hch' & <-). rewrite Hch in Hch'. by injection Hch' as <-.
      + constructor; [|done]. rewrite Hin. intros (g' & p & Hsh & Hp' & Hf'). rewrite Hp in Hp'. injection Hp' as <-. apply shown_ge in Hsh. lia.
    - destruct Hsub as [-> _]. split; [|apply NoDup_singleton]. intros s. cbn. rewrite list_elem_of_singleton. split; [by left|].
      intros [->|(c & Hc & _)]; [done|]. by apply shown_child_loaded in Hc as (ch & Hch' & _); rewrite Hch in Hch'. }
  assert (∀ s, in_history fid s ↔ ∃ e, e ∈ steps_of d root fid ∧ (s = e.1 ∨ ∃ c, shown_child d root e.1 c ∧ in_history c s)) as Hfid.
  { intros s. split.
    - intros (g & p & Hsh & Hp & Hf). inversion Hsh as [|s' p' c ? Hp' Hf' Hc Hg]; subst.
      + exists (s, p). split; [by apply steps_of_spec|by left].
      + exists (s', p'). split; [by apply steps_of_spec|right]. exists c. split; [done|]. by exists (p_flow p), p.
    - intros ([s' p'] & (Hp' & Hf' & _)%steps_of_spec & [->|(c & Hc & g & p & Hsh & Hp & Hf)]); cbn in *.
      + exists fid, p'. split; [constructor|done].
      + exists g, p. split; [by apply (shown_below d root fid s' p' c)|done]. }
  split.
  - intros s. rewrite Hfid, elem_of_all_ids. clear Hfid. split.
    + intros (y & Hy & Hs). apply list_elem_of_lookup in Hy as [i Hi]. destruct (Forall2_lookup_r _ _ _ _ _ Hall Hi) as (e & He & Hsub).
      apply list_elem_of_lookup_2 in He. exists e. split; [done|]. by apply (Heach e y He Hsub).
    + intros (e & He & Hs). pose proof He as He'. apply list_elem_of_lookup in He as [i Hi]. destruct (Forall2_lookup_l _ _ _ _ _ Hall Hi) as (y & Hy & Hsub).
      exists y. split; [by apply list_elem_of_lookup_2 in Hy|]. by apply (Heach e y He' Hsub).
  - pose proof (steps_of_NoDup d root fid) as Hnd. assert (∀ e, e ∈ steps_of d root fid → v_steps d !! e.1 = Some e.2 ∧ p_flow e.2 = fid) as Hrows
      by (intros e (? & ? & _)%steps_of_spec; done).
    clear Hfid. induction Hall as [|e y l h Hsub Hall IHl]; [constructor|]. cbn [all_ids flat_map]. cbn in Hnd. apply NoDup_cons in Hnd as [He Hnd].
    destruct (Heach e y ltac:(left) Hsub) as [Hin Hy]. apply NoDup_app. split; [done|]. split.
    + intros s Hs (y' & Hy' & Hs')%elem_of_all_ids. apply list_elem_of_lookup in Hy' as [i Hi]. destruct (Forall2_lookup_r _ _ _ _ _ Hall Hi) as (e' & He' & Hsub').
      apply list_elem_of_lookup_2 in He'. destruct (Heach e' y' ltac:(by right) Hsub') as [Hin' _]. apply Hin in Hs. apply Hin' in Hs'.
      assert (e.1 ≠ e'.1) as Hne by (intros Heq; apply He; rewrite Heq; by apply list_elem_of_fmap_2).
      destruct (Hrows e ltac:(left)) as [Hr1 Hf1], (Hrows e' ltac:(by right)) as [Hr2 Hf2].
      destruct Hs as [->|(c & Hc & g & p & Hsh & Hp & Hf)], Hs' as [Heq|(c' & Hc' & g' & p' & Hsh' & Hp' & Hf')]; [done| | |].
      * rewrite Hr1 in Hp'. injection Hp' as <-. destruct (shown_child_above fid _ _ _ Hr2 Hf2 Hc') as (_ & _ & _ & Hlt & _). apply shown_ge in Hsh'. lia.
      * subst s. rewrite Hr2 in Hp. injection Hp as <-. destruct (shown_child_above fid _ _ _ Hr1 Hf1 Hc) as (_ & _ & _ & Hlt & _). apply shown_ge in Hsh. lia.
      * rewrite Hp in Hp'. injection Hp' as <-. rewrite Hf in Hf'. subst g'.
        destruct (shown_child_above fid _ _ _ Hr1 Hf1 Hc) as (g1 & Hg1 & Hp1 & Hl1 & Hs1 & _), (shown_child_above fid _ _ _ Hr2 Hf2 Hc') as (g2 & Hg2 & Hp2 & Hl2 & Hs2 & _).
        apply (shown_apart fid c c' g1 g2 g); try done; [lia|lia|]. intros ->. rewrite Hg1 in Hg2. injection Hg2 as <-. by rewrite Hs1 in Hs2.
    + apply IHl; [|done|]; [intros e' y' He'; apply Heach; by right|intros e' He'; apply Hrows; by right].
Qed.
End assembly.

(** C31. [History] of a flow in a well-formed tree always answers, and its nested steps are exactly the steps of the flow and,
    under each step that called a subgraph, of the newest child it launched, and so on down, each once. *)
Theorem history_shows_each_step_once shards key shardNum flowID d f : ParseFlowKey key = Ok (shardNum, flowID, v_token f) →
  shards !! shardNum = Some d → v_flows d !! flowID = Some f → v_delete_after f = 0 → tree_ok (tree_of d) →
  ∃ h, history shards key = Ok h ∧ NoDup (all_ids h)
    ∧ ∀ s, s ∈ all_ids h ↔ ∃ g p, shown d flowID flowID g ∧ v_steps d !! s = Some p ∧ p_flow p = g.
Proof.
  intros Hkey Hd Hf Hda Hok. unfold history. rewrite Hkey, Hd, Hf, !bool_decide_eq_true_2 by done. cbn [andb].
  destruct (assembled_total d Hok flowID (S (size (v_flows d))) flowID) as [h Hh].
  { rewrite <-!size_dom. apply Nat.lt_succ_r, subseteq_size, dom_filter_subseteq. }
  rewrite Hh. exists h. split; [done|]. assert (same_root d flowID flowID = true) as Hr by (unfold same_root; rewrite Hf; by apply bool_decide_eq_true_2).
  destruct (assembled_ids d Hok flowID _ _ h Hr Hh) as [Hin Hnd]. split; [done|]. intros s. apply Hin.
Qed.

(** ** Walking from step to step *)

Lemma last_sorted (l : list Z) : match last (merge_sort Z.le l) with Some m => m ∈ l ∧ ∀ x, x ∈ l → x ≤ m | None => l = [] end.
Proof.
  pose proof (StronglySorted_merge_sort Z.le l) as Hs. pose proof (merge_sort_Permutation Z.le l) as Hp.
  destruct (last (merge_sort Z.le l)) as [m|] eqn:Hl.
  - apply last_Some in Hl as [l' Hl]. rewrite Hl in Hs, Hp. split; [rewrite <-Hp; apply elem_of_app; right; by left|]. intros x. rewrite <-Hp.
    intros [Hx|Hx%list_elem_of_singleton]%elem_of_app; [|by subst]. apply (StronglySorted_app_1_elem_of Z.le l' [m] x m Hs Hx). left.
  - apply last_None in Hl. rewrite Hl in Hp. by apply Permutation_nil_l in Hp.
Qed.
Lemma head_sorted (l : list Z) : match head (merge_sort Z.le l) with Some m => m ∈ l | None => l = [] end.
Proof.
  pose proof (merge_sort_Permutation Z.le l) as Hp. destruct (merge_sort Z.le l) as [|m l']; cbn.
  - by apply Permutation_nil_l in Hp.
  - rewrite <-Hp. left.
Qed.
Lemma elem_of_filtered_ids {A} (P : Z * A → Prop) `{!∀ e, Decision (P e)} (m : gmap Z A) i :
  i ∈ (filter P (map_to_list m)).*1 ↔ ∃ a, m !! i = Some a ∧ P (i, a).
Proof.
  rewrite list_elem_of_fmap. setoid_rewrite list_elem_of_filter. setoid_rewrite elem_of_map_to_list'. split.
  - intros ([j a] & -> & HP & Hm). by exists a.
  - intros (a & Hm & HP). by exists (i, a).
Qed.

Section navigation.
Context (d : views) (Hok : tree_ok (tree_of d)).

Lemma newest_child_spec s : (newest_child d s = 0 ∧ ∀ c g, v_flows d !! c = Some g → tf_caller (v_row g) ≠ s)
  ∨ ∃ g, v_flows d !! newest_child d s = Some g ∧ tf_caller (v_row g) = s ∧ 0 < newest_child d s.
Proof using Hok.
  unfold newest_child. pose proof (last_sorted (filter (λ e, tf_caller (v_row e.2) = s) (map_to_list (v_flows d))).*1) as Hl.
  destruct (last _) as [c|]; [right|left]; cbn.
  - destruct Hl as [(g & Hg & Hs)%elem_of_filtered_ids _]. exists g. split; [done|]. split; [done|]. apply (ok_positive _ Hok c (v_row g)). by apply tree_flow.
  - split; [done|]. intros c g Hg Hs. assert (c ∈ (filter (λ e : Z * vflow, tf_caller (v_row e.2) = s) (map_to_list (v_flows d))).*1) as Hin
      by (apply elem_of_filtered_ids; by exists g). rewrite Hl in Hin. by apply not_elem_of_nil in Hin.
Qed.
Lemma step_positive s p : v_steps d !! s = Some p → s ≠ 0.
Proof using Hok. intros Hp. by apply (ok_step _ Hok s (p_flow p) (p_row p)), tree_step. Qed.
Lemma entry_step_spec c : (entry_step d c = 0 ∧ ∀ s p, v_steps d !! s = Some p → p_flow p = c → p_pred p ≠ 0)
  ∨ ∃ p, v_steps d !! entry_step d c = Some p ∧ p_flow p = c ∧ p_pred p = 0.
Proof.
  unfold entry_step. pose proof (head_sorted (filter (λ e, p_flow e.2 = c ∧ p_pred e.2 = 0) (map_to_list (v_steps d))).*1) as Hl.
  destruct (head _) as [s|]; [right|left]; cbn.
  - apply elem_of_filtered_ids in Hl as (p & Hp & Hf & Hz). by exists p.
  - split; [done|]. intros s p Hp Hf Hz. assert (s ∈ (filter (λ e : Z * vstep, p_flow e.2 = c ∧ p_pred e.2 = 0) (map_to_list (v_steps d))).*1) as Hin
      by (apply elem_of_filtered_ids; by exists p). rewrite Hl in Hin. by apply not_elem_of_nil in Hin.
Qed.
Definition is_exit (p : vstep) : Prop := p_succ p = 0 ∧ r_status (p_row p) = StatusCompleted.
Lemma exit_step_spec c : (exit_step d c = 0 ∧ ∀ s p, v_steps d !! s = Some p → p_flow p = c → ¬ is_exit p)
  ∨ ∃ p, v_steps d !! exit_step d c = Some p ∧ p_flow p = c ∧ is_exit p.
Proof.
  unfold exit_step. pose proof (last_sorted (filter (λ e, p_flow e.2 = c ∧ p_succ e.2 = 0 ∧ r_status (p_row e.2) = StatusCompleted) (map_to_list (v_steps d))).*1) as Hl.
  destruct (last _) as [s|]; [right|left]; cbn.
  - destruct Hl as [(p & Hp & Hf & Hz)%elem_of_filtered_ids _]. by exists p.
  - split; [done|]. intros s p Hp Hf Hz.
    assert (s ∈ (filter (λ e : Z * vstep, p_flow e.2 = c ∧ p_succ e.2 = 0 ∧ r_status (p_row e.2) = StatusCompleted) (map_to_list (v_steps d))).*1) as Hin
      by (apply elem_of_filtered_ids; by exists p). rewrite Hl in Hin. by apply not_elem_of_nil in Hin.
Qed.

(** *** The loops end *)

Lemma skip_total edge fuel s c : (∀ c, edge c = 0 ∨ ∃ p, v_steps d !! edge c = Some p ∧ p_flow p = c) →
  (∀ x, newest_child d s = x → x ≠ 0 → c < x) → (size (filter (λ e : Z * vflow, (c < e.1)%Z) (v_flows d)) < fuel)%nat →
  is_Some (skip edge d fuel s).
Proof using Hok.
  intros Hedge. revert s c. induction fuel as [|fuel IH]; intros s c Hc Hlt; [lia|]. cbn [skip]. case_bool_decide; [by eexists|].
  destruct (newest_child_spec s) as [[-> _]|(g & Hg & Hs & Hpos)]; [by eexists|]. set (child := newest_child d s) in *.
  destruct (decide (child = 0)); [lia|]. rewrite (bool_decide_eq_false_2 (child = 0)) by done.
  destruct (decide (edge child = 0)) as [Hz|Hz]; [rewrite (bool_decide_eq_true_2 (edge child = 0)) by done; by eexists|].
  rewrite (bool_decide_eq_false_2 (edge child = 0)) by done. destruct (Hedge child) as [?|(p & Hp & Hf)]; [done|].
  apply (IH (edge child) child).
  - intros x Hx Hx0. destruct (newest_child_spec (edge child)) as [[? _]|(gx & Hgx & Hsx & _)]; [congruence|].
    destruct (caller_above d Hok _ gx Hgx) as (q & Hq & Hqf & Hlt'); [by rewrite Hsx; apply (step_positive _ p)|].
    rewrite Hsx, Hp in Hq. injection Hq as <-. rewrite Hx in Hlt'. lia.
  - apply Nat.lt_le_trans with (size (filter (λ e : Z * vflow, (c < e.1)%Z) (v_flows d))); [|lia]. rewrite <-!size_dom. apply subset_size.
    specialize (Hc child eq_refl ltac:(lia)). split.
    + intros i (f & [Hi Hle]%map_lookup_filter_Some)%elem_of_dom. apply elem_of_dom. exists f. apply map_lookup_filter_Some. cbn in *. split; [done|lia].
    + intros Hsub. assert (child ∈ dom (filter (λ e : Z * vflow, (c < e.1)%Z) (v_flows d))) as Hin by (apply elem_of_dom; exists g; by apply map_lookup_filter_Some).
      apply Hsub, elem_of_dom in Hin as [? [_ Hle]%map_lookup_filter_Some]. cbn in Hle. lia.
Qed.
Lemma neighbours_total s p : is_Some (neighbours d s p).
Proof using Hok.
  unfold neighbours. destruct (if bool_decide (p_pred p = 0) || _ then _ else _) as [pred succ].
  assert (∀ edge id, (∀ c, edge c = 0 ∨ ∃ p, v_steps d !! edge c = Some p ∧ p_flow p = c) → is_Some (skip edge d (S (size (v_flows d))) id)) as Hskip.
  { intros edge id He. apply (skip_total edge _ id 0 He).
    - intros x Hx Hx0. destruct (newest_child_spec id) as [[? _]|(_ & _ & _ & Hpos)]; [congruence|]. by rewrite Hx in Hpos.
    - rewrite <-!size_dom. apply Nat.lt_succ_r, subseteq_size, dom_filter_subseteq. }
  unfold skipSurgraphForward, skipSurgraphBackward.
  destruct (Hskip (entry_step d) (if bool_decide (0 < newest_child d s) && bool_decide (0 < entry_step d (newest_child d s)) then entry_step d (newest_child d s) else succ)) as [y Hy].
  { intros c. destruct (entry_step_spec c) as [[? _]|(q & Hq & Hf & _)]; [by left|right]. by exists q. }
  destruct (Hskip (exit_step d) pred) as [z Hz].
  { intros c. destruct (exit_step_spec c) as [[? _]|(q & Hq & Hf & _)]; [by left|right]. by exists q. }
  rewrite Hy, Hz. cbn. by eexists.
Qed.
End navigation.

(** *** Forth and back *)

(** Flows that run one step after the other, each subgraph called by one step, begun by one step and ended by one that
    completed, and no subgraph begins or ends with a step that calls another. *)
Record plain_walk (d : views) : Prop := {
  pw_tree : tree_ok (tree_of d);
  pw_positive : ∀ s p, v_steps d !! s = Some p → 0 < s ∧ 0 ≤ p_pred p ∧ 0 ≤ p_succ p;
  pw_one_child : ∀ c c' g g', v_flows d !! c = Some g → v_flows d !! c' = Some g' → tf_caller (v_row g) = tf_caller (v_row g') →
    tf_caller (v_row g) ≠ 0 → c = c';
  pw_succ : ∀ s p, v_steps d !! s = Some p → p_succ p ≠ 0 → ∃ q, v_steps d !! p_succ p = Some q ∧ p_flow q = p_flow p ∧ p_pred q = s;
  pw_begin : ∀ c g, v_flows d !! c = Some g → tf_caller (v_row g) ≠ 0 → ∃ s p, v_steps d !! s = Some p ∧ p_flow p = c ∧ p_pred p = 0;
  pw_end : ∀ c g, v_flows d !! c = Some g → tf_caller (v_row g) ≠ 0 → ∃ s p, v_steps d !! s = Some p ∧ p_flow p = c ∧ is_exit p
    ∧ ∀ s' p', v_steps d !! s' = Some p' → p_flow p' = c → p_succ p' = 0 → s' = s;
  pw_inside : ∀ c g s p, v_flows d !! c = Some g → tf_caller (v_row g) ≠ 0 → v_steps d !! s = Some p → p_flow p = c →
    newest_child d s ≠ 0 → p_pred p ≠ 0 ∧ p_succ p ≠ 0
}.

Section forth_and_back.
Context (d : views) (Hw : plain_walk d).

Lemma skip_plain edge n s : newest_child d s = 0 → skip edge d (S n) s = Some s.
Proof. intros Hc. cbn [skip]. case_bool_decide; [done|]. by rewrite Hc, bool_decide_eq_true_2. Qed.
Lemma skip_zero : skipSurgraphForward d 0 = Some 0.
Proof. unfold skipSurgraphForward. cbn [skip]. by rewrite bool_decide_eq_true_2 by lia. Qed.
Lemma skip_wrapper edge w c : newest_child d w = c → 0 < c → edge c ≠ 0 → newest_child d (edge c) = 0 →
  0 < w → is_Some (v_flows d !! c) → skip edge d (S (size (v_flows d))) w = Some (edge c).
Proof.
  intros Hc Hpos He Hplain Hwp [g Hg]. destruct (size (v_flows d)) as [|n] eqn:Hn.
  { apply map_size_empty_inv in Hn. by rewrite Hn, lookup_empty in Hg. }
  cbn [skip]. rewrite !(bool_decide_eq_false_2 (w ≤ 0)) by lia. rewrite Hc, (bool_decide_eq_false_2 (c = 0)), (bool_decide_eq_false_2 (edge c = 0)) by lia.
  by apply (skip_plain edge n).
Qed.

(** The one child of a wrapper, with its two ends. *)
Lemma wrapper_child w : 0 < w → newest_child d w ≠ 0 → let c := newest_child d w in
  0 < c ∧ (∃ g, v_flows d !! c = Some g ∧ tf_caller (v_row g) = w)
  ∧ (∃ p, v_steps d !! entry_step d c = Some p ∧ p_flow p = c ∧ p_pred p = 0 ∧ newest_child d (entry_step d c) = 0)
  ∧ (∃ p, v_steps d !! exit_step d c = Some p ∧ newest_child d (exit_step d c) = 0
       ∧ ∀ s' p', v_steps d !! s' = Some p' → p_flow p' = c → p_succ p' = 0 → s' = exit_step d c).
Proof using Hw.
  intros Hw0 Hne c. pose proof (pw_tree _ Hw) as Hok. destruct (newest_child_spec d Hok w) as [[? _]|(g & Hg & Hs & Hpos)]; [done|]. fold c in Hg, Hpos.
  split; [done|]. split; [by exists g|].
  assert (tf_caller (v_row g) ≠ 0) as Hcaller by (by rewrite Hs; lia). split.
  - destruct (entry_step_spec d c) as [[_ Hno]|(p & Hp & Hf & Hz)].
    + destruct (pw_begin _ Hw c g Hg Hcaller) as (s & p & Hp & Hf & Hz). by destruct (Hno s p Hp Hf).
    + exists p. repeat (split; [done|]). destruct (decide (newest_child d (entry_step d c) = 0)) as [|Hn]; [done|].
      by destruct (pw_inside _ Hw c g _ p Hg Hcaller Hp Hf Hn).
  - destruct (pw_end _ Hw c g Hg Hcaller) as (s & q & Hq & Hqf & Hqe & Hone). destruct (exit_step_spec d c) as [[_ Hno]|(p & Hp & Hf & He)].
    + by destruct (Hno s q Hq Hqf).
    + exists p. split; [done|]. split.
      * destruct (decide (newest_child d (exit_step d c) = 0)) as [|Hn]; [done|].
        destruct (pw_inside _ Hw c g _ p Hg Hcaller Hp Hf Hn) as [_ Hs0]. by destruct He.
      * intros s' p' Hs' Hf' Hz'. rewrite (Hone s' p' Hs' Hf' Hz'). symmetry. apply (Hone _ p Hp Hf). by destruct He.
Qed.

(** Where the search for a neighbour sets out. *)
Definition raw_pred (p : vstep) : Z :=
  if bool_decide (p_pred p = 0) then match v_steps d !! wrapper_of d p with Some q => if bool_decide (0 < wrapper_of d p) then p_pred q else 0 | None => 0 end else p_pred p.
Definition raw_succ (p : vstep) : Z :=
  if bool_decide (p_succ p = 0) then match v_steps d !! wrapper_of d p with Some q => if bool_decide (0 < wrapper_of d p) then p_succ q else 0 | None => 0 end else p_succ p.
Lemma neighbours_plain x p : newest_child d x = 0 →
  neighbours d x p = (succ ← skipSurgraphForward d (raw_succ p); pred ← skipSurgraphBackward d (raw_pred p); Some (pred, succ)).
Proof using Hw.
  intros Hc. unfold neighbours. rewrite Hc, (bool_decide_eq_false_2 (0 < 0)) by lia. cbn [andb].
  assert ((if bool_decide (p_pred p = 0) || bool_decide (p_succ p = 0)
           then if bool_decide (0 < wrapper_of d p)
                then match v_steps d !! wrapper_of d p with
                     | Some q => (if bool_decide (p_pred p = 0) && bool_decide (0 < p_pred q) then p_pred q else p_pred p,
                                  if bool_decide (p_succ p = 0) && bool_decide (0 < p_succ q) then p_succ q else p_succ p)
                     | None => (p_pred p, p_succ p)
                     end
                else (p_pred p, p_succ p)
           else (p_pred p, p_succ p)) = (raw_pred p, raw_succ p)) as ->; [|done].
  unfold raw_pred, raw_succ. destruct (v_steps d !! wrapper_of d p) as [q|] eqn:Hq.
  - pose proof (pw_positive _ Hw _ _ Hq) as (_ & H1 & H2).
    destruct (decide (0 < wrapper_of d p)); [rewrite !(bool_decide_eq_true_2 (0 < wrapper_of d p)) by done|rewrite !(bool_decide_eq_false_2 (0 < wrapper_of d p)) by done];
      repeat case_bool_decide; cbn; f_equal; lia.
  - repeat case_bool_decide; cbn; f_equal; lia.
Qed.
Lemma wrapper_of_child c g p : v_flows d !! c = Some g → p_flow p = c → wrapper_of d p = tf_caller (v_row g).
Proof. intros Hg Hf. unfold wrapper_of. by rewrite Hf, Hg. Qed.

(** The step a forward walk arrives at when it sets out from [z], and where the walk back from it sets out. *)
Lemma walk_arrives z qz y : 0 < z → v_steps d !! z = Some qz → skipSurgraphForward d z = Some y → p_pred qz ≠ 0 →
  ∃ q, v_steps d !! y = Some q ∧ newest_child d y = 0 ∧ raw_pred q = p_pred qz.
Proof using Hw.
  intros Hz Hqz Hskip Hpred. unfold skipSurgraphForward in Hskip. destruct (decide (newest_child d z = 0)) as [Hc|Hc].
  - rewrite skip_plain in Hskip by done. injection Hskip as <-. exists qz. split; [done|]. split; [done|]. unfold raw_pred. by rewrite bool_decide_eq_false_2.
  - destruct (wrapper_child z Hz Hc) as (Hpos & (g & Hg & Hs) & (p & Hp & Hf & Hpz & Hplain) & _).
    rewrite (skip_wrapper (entry_step d) z (newest_child d z)) in Hskip; [|done|done| |done|done|by exists g].
    + injection Hskip as <-. exists p. split; [done|]. split; [done|]. unfold raw_pred. rewrite bool_decide_eq_true_2 by done.
      rewrite (wrapper_of_child _ g p Hg Hf), Hs, Hqz. by rewrite bool_decide_eq_true_2.
    + pose proof (pw_positive _ Hw _ _ Hp). lia.
Qed.

Lemma forth_and_back x p pr y : v_steps d !! x = Some p → newest_child d x = 0 → neighbours d x p = Some (pr, y) → y ≠ 0 →
  ∃ q nx, v_steps d !! y = Some q ∧ newest_child d y = 0 ∧ neighbours d y q = Some (x, nx).
Proof using Hw.
  intros Hp Hplain Hn Hy. pose proof (pw_tree _ Hw) as Hok. rewrite neighbours_plain in Hn by done.
  apply bind_Some in Hn as (y' & Hskip & Hn). apply bind_Some in Hn as (pr' & _ & [= <- <-]).
  assert (∃ z qz t, 0 < z ∧ raw_succ p = z ∧ v_steps d !! z = Some qz ∧ p_pred qz = t ∧ 0 < t ∧ skipSurgraphBackward d t = Some x) as (z & qz & t & Hz & Hraw & Hqz & Ht & Htpos & Hback).
  { pose proof (pw_positive _ Hw _ _ Hp) as (Hx & _ & Hs0). unfold raw_succ in *. destruct (decide (p_succ p = 0)) as [Hs|Hs].
    - rewrite bool_decide_eq_true_2 in * by done. destruct (v_steps d !! wrapper_of d p) as [qw|] eqn:Hqw.
      2: { rewrite skip_zero in Hskip. congruence. }
      destruct (decide (0 < wrapper_of d p)) as [Hwp|Hwp]; [rewrite bool_decide_eq_true_2 in * by done|rewrite bool_decide_eq_false_2 in Hskip by done; rewrite skip_zero in Hskip; congruence].
      destruct (decide (p_succ qw = 0)) as [Hs'|Hs']; [rewrite Hs', skip_zero in Hskip; congruence|].
      destruct (pw_succ _ Hw _ _ Hqw Hs') as (qz & Hqz & _ & Hpz). exists (p_succ qw), qz, (wrapper_of d p).
      pose proof (pw_positive _ Hw _ _ Hqw) as (_ & _ & ?). split; [lia|]. split; [done|]. split; [done|]. split; [done|]. split; [done|].
      destruct (v_flows d !! p_flow p) as [g|] eqn:Hg; [|unfold wrapper_of in Hwp; rewrite Hg in Hwp; lia].
      pose proof (wrapper_of_child _ g p Hg eq_refl) as Hwr. assert (newest_child d (wrapper_of d p) = p_flow p) as Hc.
      { destruct (newest_child_spec d Hok (wrapper_of d p)) as [[_ Hno]|(g' & Hg' & Hs'' & _)]; [by destruct (Hno _ g Hg)|].
        apply (pw_one_child _ Hw _ _ g' g Hg' Hg); rewrite Hs''; [done|lia]. }
      assert (newest_child d (wrapper_of d p) ≠ 0) as Hcn by (rewrite Hc; pose proof (ok_positive _ Hok _ _ (tree_flow d _ g Hg)); lia).
      destruct (wrapper_child (wrapper_of d p) Hwp Hcn) as (Hpos & _ & _ & (pe & Hpe & Hple & Hone)). rewrite Hc in *.
      rewrite (Hone x p Hp eq_refl Hs). pose proof (pw_positive _ Hw _ _ Hpe). apply (skip_wrapper (exit_step d)); [done|done|lia|done|done|by exists g].
    - rewrite bool_decide_eq_false_2 in * by done. destruct (pw_succ _ Hw _ _ Hp Hs) as (qz & Hqz & _ & Hpz). exists (p_succ p), qz, x.
      split; [lia|]. do 3 (split; [done|]). split; [done|]. by apply skip_plain. }
  rewrite Hraw in Hskip. destruct (walk_arrives z qz y' Hz Hqz Hskip ltac:(lia)) as (q & Hq & Hqp & Hrp).
  exists q. destruct (neighbours_total d Hok y' q) as [[pr2 nx] Hn2]. exists nx. split; [done|]. split; [done|].
  rewrite neighbours_plain in Hn2 by done. apply bind_Some in Hn2 as (s2 & Hs2 & Hn2). apply bind_Some in Hn2 as (p2 & Hp2 & [= <- <-]).
  rewrite neighbours_plain by done. rewrite Hs2, Hrp, Ht, Hback. done.
Qed.
End forth_and_back.

(** In a plain walk a step that calls no subgraph always has its neighbours found, and when it has a next step, the step
    before that one is the step itself, into a subgraph and out of it too. *)
Theorem navigation_inverts d x p : plain_walk d → v_steps d !! x = Some p → newest_child d x = 0 →
  ∃ pr y, neighbours d x p = Some (pr, y) ∧ (y ≠ 0 → ∃ q nx, v_steps d !! y = Some q ∧ neighbours d y q = Some (x, nx)).
Proof.
  intros Hw Hp Hc. destruct (neighbours_total d (pw_tree _ Hw) x p) as [[pr y] Hn]. exists pr, y. split; [done|]. intros Hy.
  destruct (forth_and_back d Hw x p pr y Hp Hc Hn Hy) as (q & nx & Hq & _ & Hb). by exists q, nx.
Qed.

(** ** Where the walk stops *)

Definition done_row : row := mkRow StatusCompleted parkedNone 1 0 0 1 1000 0 0 false false false ∅ ∅ ∅ "" ∅ "".
Definition a_flow (parent caller : Z) : vflow := mkVFlow (mkTFlow StatusCompleted parent caller 1 ∅ "" "") "tok" "https://host/g" "g" 0.
Definition a_step (flow depth pred succ : Z) : vstep := mkVStep flow done_row "tok" depth "task" ∅ ∅ pred succ.

(** A root that calls a subgraph in the middle; the subgraph calls one as its last step. *)
Definition calls_last : views :=
  mkViews 0 (<[1 := a_flow 0 0]> (<[2 := a_flow 1 2]> (<[3 := a_flow 2 5]> ∅)))
    (<[1 := a_step 1 1 0 2]> (<[2 := a_step 1 2 1 3]> (<[3 := a_step 1 3 2 0]>
    (<[4 := a_step 2 3 0 5]> (<[5 := a_step 2 4 4 0]> (<[6 := a_step 3 5 0 0]> ∅)))))).
(** The same with a step after the inner call. *)
Definition calls_inside : views :=
  mkViews 0 (v_flows calls_last)
    (<[1 := a_step 1 1 0 2]> (<[2 := a_step 1 2 1 3]> (<[3 := a_step 1 3 2 0]>
    (<[4 := a_step 2 3 0 5]> (<[5 := a_step 2 4 4 7]> (<[7 := a_step 2 5 5 0]> (<[6 := a_step 3 5 0 0]> ∅))))))).

Ltac concrete H := first [ apply lookup_insert_Some in H as [[<- <-]|[_ H]]; [|concrete H] | by rewrite lookup_empty in H ].

Lemma tree_ok_views d :
  (∀ id f, v_flows d !! id = Some f → 0 < id ∧ tf_status (v_row f) = StatusCompleted ∧
     (if bool_decide (tf_parent (v_row f) = 0) then tf_root (v_row f) = id ∧ tf_caller (v_row f) = 0
      else 0 < tf_parent (v_row f) < id ∧ (∃ p, v_flows d !! tf_parent (v_row f) = Some p ∧ tf_root (v_row p) = tf_root (v_row f))
        ∧ tf_caller (v_row f) ≠ 0 ∧ ∃ p, v_steps d !! tf_caller (v_row f) = Some p ∧ p_flow p = tf_parent (v_row f))) →
  (∀ s p, v_steps d !! s = Some p → s ≠ 0 ∧ is_Some (v_flows d !! p_flow p)) → tree_ok (tree_of d).
Proof.
  intros Hf Hs. assert (∀ id f, flows (tree_of d) !! id = Some f → ∃ v, v_flows d !! id = Some v ∧ f = v_row v) as Hrow.
  { intros id f H. cbn in H. rewrite lookup_fmap in H. apply fmap_Some in H as (v & Hv & ->). by exists v. }
  split.
  - intros id f (v & Hv & ->)%Hrow Hp. destruct (Hf id v Hv) as (_ & _ & H). rewrite bool_decide_eq_false_2 in H by done.
    destruct H as (H & (p & Hp' & Hr) & _). split; [done|]. exists (v_row p). split; [by apply tree_flow|done].
  - intros id f (v & Hv & ->)%Hrow Hp. destruct (Hf id v Hv) as (_ & _ & H). rewrite bool_decide_eq_true_2 in H by done. apply H.
  - intros id f (v & Hv & ->)%Hrow Hp. destruct (Hf id v Hv) as (_ & _ & H). rewrite bool_decide_eq_false_2 in H by done.
    destruct H as (_ & _ & H & p & Hp' & <-). split; [done|]. exists (p_row p). by apply tree_step.
  - intros id f (v & Hv & ->)%Hrow Hp. destruct (Hf id v Hv) as (_ & _ & H). rewrite bool_decide_eq_true_2 in H by done. apply H.
  - intros id f (v & Hv & ->)%Hrow. apply (Hf id v Hv).
  - intros id f (v & Hv & ->)%Hrow. by destruct (Hf id v Hv) as (_ & -> & _).
  - intros s f r H. cbn in H. rewrite lookup_fmap in H. apply fmap_Some in H as (p & Hp & [= -> ->]). destruct (Hs s p Hp) as [H0 Hi]. split; [done|].
    cbn. by rewrite lookup_fmap, fmap_is_Some.
Qed.

Lemma calls_last_ok : tree_ok (tree_of calls_last).
Proof.
  apply tree_ok_views; intros i x H; unfold calls_last in H; cbn [v_flows v_steps] in H; concrete H; (repeat split; try done);
    first [by eexists|by vm_compute; eexists].
Qed.
Lemma calls_inside_ok : tree_ok (tree_of calls_inside).
Proof.
  apply tree_ok_views; intros i x H; unfold calls_inside, calls_last in H; cbn [v_flows v_steps] in H; concrete H; (repeat split; try done);
    first [by eexists|by vm_compute; eexists].
Qed.

(** The way forward leaves one subgraph only: after the last step of a subgraph that ends its caller's flow there is no next
    step, although the walk backwards enters both at once. *)
Theorem nested_walk_stops : ∃ d p3 p6, tree_ok (tree_of d) ∧ v_steps d !! 3 = Some p3 ∧ v_steps d !! 6 = Some p6
  ∧ neighbours d 3 p3 = Some (6, 0) ∧ neighbours d 6 p6 = Some (4, 0).
Proof.
  exists calls_last, (a_step 1 3 2 0), (a_step 3 5 0 0). split; [apply calls_last_ok|]. split; [done|]. split; [done|]. split; vm_compute; reflexivity.
Qed.

(** ** Witnesses *)

Lemma calls_inside_plain : plain_walk calls_inside.
Proof.
  split; [apply calls_inside_ok| | | | | |].
  - intros s p H. unfold calls_inside in H. cbn [v_steps] in H. concrete H; cbn; lia.
  - intros c c' g g' H H' Heq Hne. unfold calls_inside, calls_last in H, H'. cbn [v_flows] in H, H'. concrete H; concrete H'; cbn in *; congruence.
  - intros s p H Hne. unfold calls_inside in H. cbn [v_steps] in H. concrete H; cbn in *; try done; eexists; split; try (vm_compute; reflexivity); done.
  - intros c g H Hne. unfold calls_inside, calls_last in H. cbn [v_flows] in H. concrete H; cbn in *; try done; [exists 4|exists 6]; eexists; (split; [vm_compute; reflexivity|done]).
  - intros c g H Hne. unfold calls_inside, calls_last in H. cbn [v_flows] in H. concrete H; cbn in *; try done; [exists 7|exists 6]; eexists;
      (split; [vm_compute; reflexivity|]); (split; [done|]); (split; [done|]); intros s' p' H'; unfold calls_inside in H'; cbn [v_steps] in H'; by concrete H'.
  - intros c g s p H Hne Hs Hf Hc. unfold calls_inside, calls_last in H, Hs. cbn [v_flows v_steps] in H, Hs. concrete H; cbn in Hne; try done; concrete Hs; cbn in Hf; try done;
      first [by split|destruct Hc; vm_compute; reflexivity].
Qed.

Lemma navigation_inverts_witness :
  neighbours calls_inside 6 (a_step 3 5 0 0) = Some (4, 7)
  ∧ ∃ pr y, neighbours calls_inside 6 (a_step 3 5 0 0) = Some (pr, y) ∧ (y ≠ 0 → ∃ q nx, v_steps calls_inside !! y = Some q ∧ neighbours calls_inside y q = Some (6, nx)).
Proof. split; [vm_compute; reflexivity|]. apply navigation_inverts; [apply calls_inside_plain|reflexivity|vm_compute; reflexivity]. Defined.

Lemma history_shows_each_step_once_witness :
  ∃ h, history (<[1 := calls_inside]> ∅) (Keys.New 1 1 "tok") = Ok h ∧ all_ids h = [1; 2; 4; 5; 6; 7; 3] ∧ NoDup (all_ids h)
    ∧ ∀ s, s ∈ all_ids h ↔ ∃ g p, shown calls_inside 1 1 g ∧ v_steps calls_inside !! s = Some p ∧ p_flow p = g.
Proof.
  destruct (history_shows_each_step_once (<[1 := calls_inside]> ∅) (Keys.New 1 1 "tok") 1 1 calls_inside (a_flow 0 0)) as (h & Hh & Hnd & Hin);
    [vm_compute; reflexivity|reflexivity|reflexivity|reflexivity|apply calls_inside_ok|].
  exists h. split; [exact Hh|]. split; [|split; [exact Hnd|exact Hin]].
  assert (match history (<[1 := calls_inside]> ∅) (Keys.New 1 1 "tok") with Ok h => all_ids h | Err _ => [] end = [1; 2; 4; 5; 6; 7; 3]) as Hids by (vm_compute; reflexivity).
  rewrite Hh in Hids. exact Hids.
Defined.
