(* ===== verification/Sizing.v ===== *)
(** * Sizing: pools, slots, ceilings and periods ([engine/poolsize.go], [engine/scheduling.go])

    What the engine derives from the facts of a shard, its CPU count and the round trip probed at
    startup: the connections its database takes, how many replicas share them, the share of each, the
    largest crew a completion storm lets it have, the period of its piston and the weight of the shard
    in the placement of new flows.  [math.Log], [math.Exp] and the conversion of a [float64] that no
    [int] holds are parameters.  The compiler may fuse [x*y + z] on some machines; the model rounds
    each operation. *)

From S2P Require Import Prelude Float64 Flow.

#[local] Open Scope Z_scope.

(** ** Constants *)

Definition defaultVirtualCPUs : Z := 2.
Definition workersPerConnBudget : Z := 8.
Definition turnstilePassesPerConn : Z := 8.
Definition completionRoundTrips : float64 := of_int 7.
Definition completionServerMs : float64 := of_int 3.
Definition defaultRTTMs : float64 := dec 3 10.
Definition minDispatcherPool : float64 := of_int 12.
Definition readerIdleConns : Z := 1.
Definition readerOpenConns : Z := 2.
Definition fleetLimitPercent : Z := 80.
Definition workerSafetyFactor : float64 := dec 1 4.
Definition poolSafetyMargin : float64 := dec 12 10.
Definition startupBootstrapConns : Z := 4.

(** [leaseMargin] in milliseconds: [float64(30 * time.Second / time.Millisecond)]. *)
Definition marginMs : float64 := of_int 30000.

Record ShardSpec := mkSpec { Index : Z; VirtualCPUs : Z; Cordoned : bool }.

(** The zero value, what [specs[idx]] yields for the default shard. *)
Definition zero_spec : ShardSpec := mkSpec 0 0 false.

Definition effectiveVirtualCPUs (declared : Z) : Z :=
  if bool_decide (0 < declared) then declared else defaultVirtualCPUs.

(** ** The table of measured pools *)

Definition poolRTTBuckets : list float64 := [dec 25 100; dec 50 100; dec 100 100; dec 150 100; dec 200 100].

Record tierRow := mkTier { t_vcpus : Z; ratios : list float64 }.

Definition poolRatio : list tierRow :=
  [ mkTier 1 [dec 300 100; dec 500 100; dec 700 100; dec 900 100; dec 1100 100];
    mkTier 2 [dec 300 100; dec 600 100; dec 700 100; dec 1000 100; dec 1100 100];
    mkTier 4 [dec 300 100; dec 600 100; dec 600 100; dec 800 100; dec 1000 100];
    mkTier 8 [dec 500 100; dec 800 100; dec 800 100; dec 1100 100; dec 1100 100];
    mkTier 16 [dec 500 100; dec 700 100; dec 700 100; dec 900 100; dec 900 100];
    mkTier 32 [dec 375 100; dec 470 100; dec 560 100; dec 810 100; dec 875 100];
    mkTier 64 [dec 225 100; dec 350 100; dec 500 100; dec 600 100; dec 600 100] ].

(** The columns beyond the first: the blend of the two the distance lies between, the last one past them. *)
Fixpoint blend (b0 r0 : float64) (cols : list (float64 * float64)) (rttMs : float64) : float64 :=
  match cols with
  | [] => r0
  | (b, r) :: cols =>
      if fle rttMs b then
        let f := fdiv (fsub rttMs b0) (fsub b b0) in fadd r0 (fmul f (fsub r r0))
      else blend b r cols rttMs
  end.

Definition ratioAtRTT (ratios : list float64) (rttMs : float64) : float64 :=
  match zip poolRTTBuckets ratios with
  | [] => f0
  | (b, r) :: cols => if fle rttMs b then r else blend b r cols rttMs
  end.

Section sizing.
(** [math.Log], [math.Exp] and [int(x)] where no [int] holds it. *)
Context (Log Exp : float64 → float64) (overflow : float64 → Z).

Fixpoint bracket (lo : tierRow) (rows : list tierRow) (vcpus : Z) : tierRow * tierRow * float64 :=
  match rows with
  | [] => (lo, lo, f0)
  | hi :: rows =>
      if bool_decide (vcpus ≤ t_vcpus hi) then
        (lo, hi, fdiv (fsub (Log (of_int vcpus)) (Log (of_int (t_vcpus lo))))
                      (fsub (Log (of_int (t_vcpus hi))) (Log (of_int (t_vcpus lo)))))
      else bracket hi rows vcpus
  end.

Definition tierBracket (vcpus : Z) : tierRow * tierRow * float64 :=
  match poolRatio with
  | [] => (mkTier 0 [], mkTier 0 [], f0)
  | first :: rows =>
      let last := List.last rows first in
      if bool_decide (vcpus ≤ t_vcpus first) then (first, first, f0)
      else if bool_decide (t_vcpus last ≤ vcpus) then (last, last, f0)
      else bracket first rows vcpus
  end.

Definition connsPerVCPUFor (vcpus : Z) (rttMs : float64) : float64 :=
  let '(lo, hi, f) := tierBracket vcpus in
  let loRatio := ratioAtRTT (ratios lo) rttMs in
  if fle f f0 then fmul loRatio poolSafetyMargin else
  let hiRatio := ratioAtRTT (ratios hi) rttMs in
  let logRatio := fadd (Log loRatio) (fmul f (fsub (Log hiRatio) (Log loRatio))) in
  fmul (Exp logRatio) poolSafetyMargin.

Definition shardBudget (vcpus : Z) (rttMs : float64) : Z :=
  Z.max 2 (to_int64 overflow (fmul (connsPerVCPUFor vcpus rttMs) (of_int vcpus))).

(** [int(math.Round(float64(n) / d))]. *)
Definition round_div (n : Z) (d : float64) : Z := to_int64 overflow (fround (fdiv (of_int n) d)).

(** The idle and the open connections of one shard's pool. *)
Definition shardPool (spec : ShardSpec) (override slots : Z) (rttMs : float64) : Z * Z :=
  if bool_decide (0 < override) then (override, override)
  else if bool_decide (slots ≤ 0) then (readerIdleConns, readerOpenConns)
  else
    let vcpus := effectiveVirtualCPUs (VirtualCPUs spec) in
    let open := Z.max 2 (round_div (shardBudget vcpus rttMs) (of_int slots)) in
    (Z.max 2 (open `quot` 2), open).

Definition dispatcherSlots (spec : ShardSpec) (replicas : Z) : Z :=
  let replicas := Z.max 1 replicas in
  let ref := shardBudget (effectiveVirtualCPUs (VirtualCPUs spec)) defaultRTTMs in
  let want := round_div ref minDispatcherPool in
  Z.min replicas (Z.max want (Z.min 2 replicas)).

Definition workerCeiling (open : Z) (rttMs : float64) : Z :=
  let txTimeMs := fadd (fmul completionRoundTrips rttMs) completionServerMs in
  let txTimeMs := if fle txTimeMs f0 then completionServerMs else txTimeMs in
  Z.max 1 (to_int64 overflow (fmul (fdiv (fmul (of_int open) marginMs) txTimeMs) workerSafetyFactor)).

(** The connections the fleet can hold on one shard, and whether they near the server's limit. *)
Definition fleet_over (spec : ShardSpec) (rttMs : float64) (replicas candidates maxConns : Z) : bool :=
  let budget := shardBudget (effectiveVirtualCPUs (VirtualCPUs spec)) rttMs in
  let held := budget + readerOpenConns * Z.max 0 (replicas - dispatcherSlots spec candidates) in
  bool_decide ((maxConns * fleetLimitPercent) `quot` 100 < held).

(** ** The period of a piston, in nanoseconds *)

Definition sustainedDrainPerVCPU : float64 := of_int 720.
Definition sustainedDrainPerConn : float64 := of_int 120.
Definition refillSupplyHeadroom : float64 := of_int 2.
Definition refillIntervalCap : Z := 1000000000.
Definition supplyGapDivisor : Z := 3.

Definition deriveRefillInterval (bufferShare virtualCPUs poolConns replicas dispatchers : Z) : Z :=
  let drain := fmul sustainedDrainPerConn (of_int (Z.min poolConns (Z.max 1 dispatchers))) in
  let drain := if bool_decide (0 < virtualCPUs)
    then fmin drain (fdiv (fmul sustainedDrainPerVCPU (of_int virtualCPUs)) (of_int (Z.max 1 replicas)))
    else drain in
  if bool_decide (bufferShare ≤ 0) || fle drain f0 then refillIntervalCap else
  let t := fdiv (of_int bufferShare) (fmul refillSupplyHeadroom drain) in
  Z.min (to_int64 overflow (fmul t (of_int 1000000000))) refillIntervalCap.
End sizing.

(** ** Placement *)

Definition capacityWeight (virtualCPUs : Z) : Z :=
  let v := effectiveVirtualCPUs virtualCPUs in
  if bool_decide (v ≤ 2) then 745 else 450 * v.

Inductive pick_error := ErrNotStarted | ErrAllCordoned.
#[export] Instance pick_error_eq_dec : EqDecision pick_error.
Proof. solve_decision. Defined.

Definition weigh (dispatchesOn : Z → bool) (dispatchedOnly : bool) (spec : ShardSpec) : Z :=
  if Cordoned spec || (dispatchedOnly && negb (dispatchesOn (Index spec))) then 0
  else capacityWeight (VirtualCPUs spec).

(** The weights of the first round that finds a shard. *)
Definition placement (dispatchesOn : Z → bool) (specs : list ShardSpec) : list Z :=
  let ws := weigh dispatchesOn true <$> specs in
  if bool_decide (0 < foldr Z.add 0 ws) then ws else weigh dispatchesOn false <$> specs.

Fixpoint draw_shard (specs : list ShardSpec) (ws : list Z) (r : Z) : option Z :=
  match specs, ws with
  | spec :: specs, w :: ws =>
      if bool_decide (w = 0) then draw_shard specs ws r
      else if bool_decide (r < w) then Some (Index spec)
      else draw_shard specs ws (r - w)
  | _, _ => None
  end.

(** [specs] is the map of declared shards in the order it is ranged over, [rand n] the draw of [rand.IntN(n)]. *)
Definition pickShard (dispatchesOn : Z → bool) (specs : list ShardSpec) (indices : list Z) (rand : Z → Z)
  : result pick_error Z :=
  match List.last specs zero_spec, specs with
  | _, [] =>
      match indices with
      | [] => Err ErrNotStarted
      | idx :: _ => Ok (nth (Z.to_nat (rand (Z.of_nat (length indices)))) indices idx)
      end
  | last, _ =>
      let ws := placement dispatchesOn specs in
      let total := foldr Z.add 0 ws in
      if bool_decide (total = 0) then Err ErrAllCordoned else
      match draw_shard specs ws (rand total) with Some idx => Ok idx | None => Ok (Index last) end
  end.

(** ** Shares of a budget *)

Lemma truncate_of_int n : 0 ≤ n < 2 ^ 53 → truncate (of_int n) = Some n.
Proof.
  intros Hn. destruct (decide (n = 0)) as [->|]; [done|]. destruct (of_int_pos n) as (Hd & Hm & ->); [lia|].
  set (d := Zdigits2 n) in *. unfold truncate. rewrite Z2Pos.id by lia. f_equal. destruct (Z.leb_spec 0 (d - 53)).
  - replace d with 53 in * by lia. cbn. lia.
  - replace (- (d - 53)) with (53 - d) by lia. apply Z.div_mul. pose proof (Z.pow_pos_nonneg 2 (53 - d)). lia.
Qed.

Section shares.
Context (Log Exp : float64 → float64) (overflow : float64 → Z).

Abbreviation whole spec rtt := (shardBudget Log Exp overflow (effectiveVirtualCPUs (VirtualCPUs spec)) rtt).
Abbreviation pool := (shardPool Log Exp overflow).
Abbreviation slots_for := (dispatcherSlots Log Exp overflow).

Lemma round_div_int n d : 0 ≤ n < 2 ^ 51 → 0 < d < 2 ^ 53 → round_div overflow n (of_int d) = (2 * n + d) / (2 * d).
Proof.
  intros Hn Hd. unfold round_div, to_int64. rewrite fround_ints by done.
  assert (0 ≤ (2 * n + d) / (2 * d) < 2 ^ 53) as Hb.
  { split; [apply Z.div_pos; lia|]. apply Z.div_lt_upper_bound; nia. }
  rewrite truncate_of_int by done. rewrite bool_decide_eq_true_2; [done|]. unfold MinInt64, MaxInt64. lia.
Qed.

Lemma rounded_share n d : 0 < d → 2 * d * ((2 * n + d) / (2 * d)) ≤ 2 * n + d < 2 * d * ((2 * n + d) / (2 * d) + 1).
Proof.
  intros Hd. pose proof (Z.mul_div_le (2 * n + d) (2 * d)). pose proof (Z.mul_succ_div_gt (2 * n + d) (2 * d)). lia.
Qed.

Lemma shardBudget_ge vcpus rtt : 2 ≤ shardBudget Log Exp overflow vcpus rtt.
Proof. unfold shardBudget. lia. Qed.

(** The pools of one shard's dispatchers: between them they hold at most the budget and half a connection each, or
    two each where the budget does not reach. *)
Lemma pool_share spec slots rtt B : 0 < slots < 2 ^ 53 → whole spec rtt ≤ B → B < 2 ^ 51 →
  let '(idle, open) := pool spec 0 slots rtt in
  2 ≤ idle ≤ open ∧ 2 * (slots * open) ≤ Z.max (4 * slots) (2 * B + slots)
  ∧ (2 * slots ≤ whole spec rtt → 2 * whole spec rtt < 2 * (slots * open) + slots).
Proof.
  intros Hs HB Hlt. unfold shardPool. rewrite bool_decide_eq_false_2 by lia. rewrite bool_decide_eq_false_2 by lia.
  cbv zeta. pose proof (shardBudget_ge (effectiveVirtualCPUs (VirtualCPUs spec)) rtt) as Hge.
  rewrite round_div_int by lia. pose proof (rounded_share (whole spec rtt) slots ltac:(lia)) as Hr.
  set (b := whole spec rtt) in *. set (r := (2 * b + slots) / (2 * slots)) in *.
  rewrite Z.quot_div_nonneg by lia. pose proof (Z.mul_div_le (Z.max 2 r) 2 ltac:(lia)).
  split_and!; [lia|lia|destruct (Z.max_spec 2 r) as [[_ ->]|[_ ->]]; nia|]. intros H2. nia.
Qed.

(** How many replicas dispatch: at least two of two, never more than there are. *)
Lemma slots_bounds spec n : 1 ≤ slots_for spec n ≤ Z.max 1 n ∧ Z.min 2 n ≤ slots_for spec n.
Proof. unfold dispatcherSlots. cbv zeta. lia. Qed.

Lemma slots_mono spec n n' : n ≤ n' → slots_for spec n ≤ slots_for spec n'.
Proof. unfold dispatcherSlots. cbv zeta. lia. Qed.
End shares.

(** ** Placement *)

Lemma capacityWeight_pos v : 0 < capacityWeight v.
Proof. unfold capacityWeight, effectiveVirtualCPUs, defaultVirtualCPUs. repeat case_bool_decide; lia. Qed.

Definition open_for (on : Z → bool) (dispatchedOnly : bool) (s : ShardSpec) : bool :=
  negb (Cordoned s) && (negb dispatchedOnly || on (Index s)).

Lemma weigh_open on only s : weigh on only s = if open_for on only s then capacityWeight (VirtualCPUs s) else 0.
Proof. unfold weigh, open_for. by destruct (Cordoned s), only, (on (Index s)). Qed.

Lemma weigh_nonneg on only s : 0 ≤ weigh on only s.
Proof. rewrite weigh_open. destruct (open_for _ _ _); [|done]. pose proof (capacityWeight_pos (VirtualCPUs s)). lia. Qed.

Lemma total_weight on only specs :
  0 ≤ foldr Z.add 0 (weigh on only <$> specs) ∧
  (0 < foldr Z.add 0 (weigh on only <$> specs) ↔ existsb (open_for on only) specs = true).
Proof.
  induction specs as [|s specs [IH1 IH2]]; cbn [fmap list_fmap foldr existsb]; [by split|].
  rewrite weigh_open. pose proof (capacityWeight_pos (VirtualCPUs s)). destruct (open_for on only s); cbn [orb].
  - split; [lia|]. split; [done|lia].
  - rewrite Z.add_0_l. done.
Qed.

(** Whether a draw is among the dispatched shards. *)
Definition dispatched_round (on : Z → bool) (specs : list ShardSpec) : bool := existsb (open_for on true) specs.

Lemma placement_round on specs : placement on specs = weigh on (dispatched_round on specs) <$> specs.
Proof.
  unfold placement, dispatched_round. destruct (total_weight on true specs) as [_ H].
  destruct (existsb (open_for on true) specs); [rewrite bool_decide_eq_true_2; [done|by apply H]|].
  rewrite bool_decide_eq_false_2; [done|]. intros Hlt. by apply H in Hlt.
Qed.

(** How many of the [n] draws from [lo] on satisfy [f]. *)
Fixpoint hits (f : Z → bool) (lo : Z) (n : nat) : Z :=
  match n with O => 0 | S n => Z.b2z (f lo) + hits f (lo + 1) n end.

Lemma hits_app f lo a b : hits f lo (a + b) = hits f lo a + hits f (lo + Z.of_nat a) b.
Proof.
  revert lo. induction a as [|a IH]; intros lo; cbn [hits Nat.add]; [by rewrite Z.add_0_r|].
  rewrite IH. replace (lo + 1 + Z.of_nat a) with (lo + Z.of_nat (S a)) by lia. lia.
Qed.

Lemma hits_ext f g lo n : (∀ r, lo ≤ r < lo + Z.of_nat n → f r = g r) → hits f lo n = hits g lo n.
Proof.
  revert lo. induction n as [|n IH]; intros lo H; cbn [hits]; [done|].
  rewrite (H lo), IH; [done| |lia]. intros r Hr. apply H. lia.
Qed.

Lemma hits_const b lo n : hits (λ _, b) lo n = Z.of_nat n * Z.b2z b.
Proof. revert lo. induction n as [|n IH]; intros lo; cbn [hits]; [done|]. rewrite IH. lia. Qed.

Lemma hits_shift f lo w n : hits f (lo + w) n = hits (λ r, f (r + w)) lo n.
Proof.
  revert lo. induction n as [|n IH]; intros lo; cbn [hits]; [done|].
  rewrite <-IH. by replace (lo + w + 1) with (lo + 1 + w) by lia.
Qed.

(** The draws that land on one shard, of the [total] there are. *)
Definition lands (specs : list ShardSpec) (ws : list Z) (i : Z) (r : Z) : bool :=
  bool_decide (draw_shard specs ws r = Some i).

Lemma lands_weight on only specs i : NoDup (Index <$> specs) →
  let ws := weigh on only <$> specs in
  hits (lands specs ws i) 0 (Z.to_nat (foldr Z.add 0 ws)) =
    foldr Z.add 0 ((λ s, if bool_decide (Index s = i) then weigh on only s else 0) <$> specs)
  ∧ ∀ r, 0 ≤ r < foldr Z.add 0 ws → ∃ s, s ∈ specs ∧ draw_shard specs ws r = Some (Index s) ∧ open_for on only s = true.
Proof.
  intros Hnd ws. subst ws. induction specs as [|s specs IH]; [split; [done|cbn; lia]|].
  rewrite !fmap_cons in *. cbn [foldr] in *. apply NoDup_cons in Hnd as [Hi Hnd]. specialize (IH Hnd) as [IH Hall].
  pose proof (weigh_nonneg on only s) as Hw. destruct (total_weight on only specs) as [Ht _].
  set (t := foldr Z.add 0 (weigh on only <$> specs)) in *. set (w := weigh on only s) in *.
  assert (∀ r, draw_shard (s :: specs) (w :: (weigh on only <$> specs)) r =
    if bool_decide (r < w) && bool_decide (w ≠ 0) then Some (Index s) else draw_shard specs (weigh on only <$> specs) (r - w)) as Hd.
  { intros r. cbn [draw_shard]. destruct (decide (w = 0)) as [->|Hne].
    - rewrite bool_decide_eq_true_2, andb_comm, bool_decide_eq_false_2 by (done || tauto). cbn. by rewrite Z.sub_0_r.
    - rewrite (bool_decide_eq_false_2 (w = 0)), (bool_decide_eq_true_2 (w ≠ 0)), andb_true_r by done. by case_bool_decide. }
  split.
  - rewrite Z2Nat.inj_add, hits_app, Z2Nat.id by done. f_equal.
    + rewrite (hits_ext _ (λ _, bool_decide (Index s = i))); [rewrite hits_const, Z2Nat.id by done; destruct (bool_decide (Index s = i)); unfold Z.b2z; lia|].
      intros r Hr. unfold lands. rewrite Hd, (bool_decide_eq_true_2 (r < w)), (bool_decide_eq_true_2 (w ≠ 0)) by lia. cbn. by apply bool_decide_ext; split; [intros [= ->]|intros ->].
    + rewrite hits_shift, <-IH. apply hits_ext. intros r Hr. unfold lands. rewrite Hd.
      rewrite (bool_decide_eq_false_2 (r + w < w)) by lia. cbn. by rewrite Z.add_simpl_r.
  - intros r Hr. rewrite Hd. destruct (decide (r < w)) as [Hlt|Hge].
    + rewrite !bool_decide_eq_true_2 by lia. exists s. split_and!; [set_solver|done|].
      subst w. rewrite weigh_open in Hlt. destruct (open_for on only s); [done|lia].
    + rewrite bool_decide_eq_false_2 by done. cbn. destruct (Hall (r - w)) as (s' & Hs' & H1 & H2); [lia|].
      exists s'. split_and!; [set_solver|done..].
Qed.

Lemma one_weight on only specs s : NoDup (Index <$> specs) → s ∈ specs →
  foldr Z.add 0 ((λ s', if bool_decide (Index s' = Index s) then weigh on only s' else 0) <$> specs) = weigh on only s.
Proof.
  assert (∀ l i, i ∉ Index <$> l →
    foldr Z.add 0 ((λ s', if bool_decide (Index s' = i) then weigh on only s' else 0) <$> l) = 0) as Hz.
  { intros l i. induction l as [|s' l IH]; [done|]. rewrite !fmap_cons. intros Hn. cbn [foldr].
    rewrite bool_decide_eq_false_2, IH; [done|set_solver..]. }
  induction specs as [|s' specs IH]; [set_solver|]. rewrite !fmap_cons. cbn [foldr].
  intros [Hi Hnd]%NoDup_cons [->|Hs]%elem_of_cons.
  - rewrite bool_decide_eq_true_2, Hz by done. lia.
  - rewrite bool_decide_eq_false_2, IH; [done|done..|]. intros He. apply Hi. rewrite He. by apply list_elem_of_fmap_2.
Qed.

(** A new flow lands on each shard in proportion to its capacity: of the [total] draws, as many as its weight.  It
    lands on a shard that is not cordoned, and on one this replica dispatches if there is one; there is no
    placement only when every shard is cordoned. *)
Theorem placement_is_proportional on specs indices : specs ≠ [] → NoDup (Index <$> specs) →
  let only := dispatched_round on specs in
  let total := foldr Z.add 0 (placement on specs) in
  let pick r := pickShard on specs indices (λ _, r) in
  (∀ s, s ∈ specs → hits (λ r, bool_decide (pick r = Ok (Index s))) 0 (Z.to_nat total) =
     if total =? 0 then 0 else if Cordoned s || (only && negb (on (Index s))) then 0 else capacityWeight (VirtualCPUs s))
  ∧ (∀ r, 0 ≤ r < total → ∃ s, s ∈ specs ∧ pick r = Ok (Index s) ∧ Cordoned s = false ∧ (only = true → on (Index s) = true))
  ∧ (total = 0 ↔ ∀ s, s ∈ specs → Cordoned s = true)
  ∧ (total = 0 → ∀ r, pick r = Err ErrAllCordoned).
Proof.
  intros Hne Hnd only total pick. subst total only. rewrite placement_round.
  set (only := dispatched_round on specs). destruct (total_weight on only specs) as [Ht Hpos].
  set (ws := weigh on only <$> specs) in *. set (total := foldr Z.add 0 ws) in *.
  assert (∀ r, pick r = if bool_decide (total = 0) then Err ErrAllCordoned else
    match draw_shard specs ws r with Some i => Ok i | None => Ok (Index (List.last specs zero_spec)) end) as Hpick.
  { intros r. subst pick. unfold pickShard. rewrite placement_round. fold only. by destruct specs. }
  destruct (lands_weight on only specs 0 Hnd) as [_ Hall]. fold ws total in Hall. split_and!.
  - intros s Hs. destruct (Z.eqb_spec total 0) as [->|H0]; [done|].
    rewrite (hits_ext _ (lands specs ws (Index s))).
    + destruct (lands_weight on only specs (Index s) Hnd) as [Hh _]. fold ws total in Hh.
      rewrite Hh, one_weight, weigh_open by done. unfold open_for. by destruct (Cordoned s), only, (on (Index s)).
    + intros r Hr. rewrite Hpick. rewrite (bool_decide_eq_false_2 (total = 0)) by done. destruct (Hall r) as (s' & _ & Hd & _); [lia|].
      unfold lands. rewrite Hd. apply bool_decide_ext. split; congruence.
  - intros r Hr. rewrite Hpick, (bool_decide_eq_false_2 (total = 0)) by lia. destruct (Hall r Hr) as (s & Hs & -> & Ho).
    exists s. unfold open_for in Ho. destruct (Cordoned s), only; split_and!; done.
  - split.
    + intros H0 s Hs. destruct only eqn:Honly; [by apply Hpos in Honly; lia|].
      destruct (Cordoned s) eqn:Hc; [done|]. assert (existsb (open_for on false) specs = true) as Hex; [|by apply Hpos in Hex; lia].
      apply existsb_exists. exists s. split; [by apply list_elem_of_In|]. unfold open_for. by rewrite Hc.
    + intros Hall'. destruct (decide (total = 0)) as [|Hn]; [done|]. assert (0 < total) as Hp by lia.
      apply Hpos, existsb_exists in Hp as (s & Hs%list_elem_of_In & Ho). unfold open_for in Ho. by rewrite (Hall' s Hs) in Ho.
  - intros H0 r. by rewrite Hpick, bool_decide_eq_true_2.
Qed.

(** One CPU, sixteen, and eight cordoned: the draws are shared as 745 to 7200. *)
Definition demo_specs : list ShardSpec := [mkSpec 1 1 false; mkSpec 7 16 false; mkSpec 9 8 true].

Lemma demo_specs_distinct : NoDup (Index <$> demo_specs).
Proof. cbn. repeat (apply NoDup_cons; split; [set_solver|]). by apply NoDup_nil. Qed.

Theorem placement_is_proportional_witness :
  hits (λ r, bool_decide (pickShard (λ _, true) demo_specs [] (λ _, r) = Ok 7)) 0
    (Z.to_nat (foldr Z.add 0 (placement (λ _, true) demo_specs))) = 7200.
Proof.
  pose proof (proj1 (placement_is_proportional (λ _, true) demo_specs [] (λ H, ltac:(discriminate H)) demo_specs_distinct)
    (mkSpec 7 16 false) ltac:(by right; left)) as H.
  etransitivity; [exact H|vm_compute; reflexivity].
Defined.
