(* ===== verification/Reconcile.v ===== *)
(** * The roles of a replica and what follows from them ([engine/poolsize.go], [engine/scheduling.go], the sizing
    of [Startup] and the live setters of [engine/engine.go])

    A replica dispatches some shards and only reads the others.  From the role on a shard follow its connection
    pool, the turns of its turnstile, whether its piston turns and whether the doorbell rings for it; from all the
    roles the candidate cache, the periods of the pistons and the ceiling of the crew.  The loop that reconciles
    them is a list of writes computed from what it read: what other goroutines see in between is a prefix.  What
    the writes reach is modelled where it lives: the cache in [Candidates], the planner, the turnstiles, the
    pacers, the crew.  The registry's readings are the [Sonar]s of [Peers].  A pool is what
    [database/sql] keeps of the sizes pushed to it; log lines and metrics are left out. *)

From S2P Require Import Prelude Float64 Flow Planner Pipeline Peers Crew Turnstile Candidates Sizing.

#[local] Open Scope Z_scope.

(** ** State *)

(** What a run of the engine does not change: the open shards, in ascending order, the declared ones, and what
    was probed at startup; and the cap of the test mode, zero outside of it. *)
Record Facts := mkFacts {
  indices : list Z;
  specs : gmap Z ShardSpec;
  rtts : gmap Z float64;
  shardMaxConns : gmap Z Z;
  testConnCap : Z
}.

Record piston := mkPiston { p_idle : bool; p_tally : pacer; p_supply : pacer }.

(** A pool is its bounds on idle and on open connections. *)
Record Engine := mkEngine {
  facts : Facts;
  sonars : gmap Z Sonar;
  started : bool;
  workers : Z;
  workersSet : bool;
  maxOpenConns : Z;
  refillOverride : Z;
  lastApplied : gmap Z Z;
  flags : option (gmap Z bool);
  fleetOver : gmap Z bool;
  pools : gmap Z (Z * Z);
  turnstiles : option Set_;
  cache : Cache;
  planner : Planner;
  pistons : gmap Z piston;
  crew : option Crew;
  workersDispatch : Z
}.

Definition set_sonars (x : gmap Z Sonar) (e : Engine) : Engine :=
  mkEngine (facts e) x (started e) (workers e) (workersSet e) (maxOpenConns e) (refillOverride e) (lastApplied e)
    (flags e) (fleetOver e) (pools e) (turnstiles e) (cache e) (planner e) (pistons e) (crew e) (workersDispatch e).

Definition set_started (x : bool) (e : Engine) : Engine :=
  mkEngine (facts e) (sonars e) x (workers e) (workersSet e) (maxOpenConns e) (refillOverride e) (lastApplied e)
    (flags e) (fleetOver e) (pools e) (turnstiles e) (cache e) (planner e) (pistons e) (crew e) (workersDispatch e).

Definition set_workers (x : Z) (e : Engine) : Engine :=
  mkEngine (facts e) (sonars e) (started e) x (workersSet e) (maxOpenConns e) (refillOverride e) (lastApplied e)
    (flags e) (fleetOver e) (pools e) (turnstiles e) (cache e) (planner e) (pistons e) (crew e) (workersDispatch e).

Definition set_workersSet (x : bool) (e : Engine) : Engine :=
  mkEngine (facts e) (sonars e) (started e) (workers e) x (maxOpenConns e) (refillOverride e) (lastApplied e)
    (flags e) (fleetOver e) (pools e) (turnstiles e) (cache e) (planner e) (pistons e) (crew e) (workersDispatch e).

Definition set_maxOpenConns (x : Z) (e : Engine) : Engine :=
  mkEngine (facts e) (sonars e) (started e) (workers e) (workersSet e) x (refillOverride e) (lastApplied e) (flags e)
    (fleetOver e) (pools e) (turnstiles e) (cache e) (planner e) (pistons e) (crew e) (workersDispatch e).

Definition set_refillOverride (x : Z) (e : Engine) : Engine :=
  mkEngine (facts e) (sonars e) (started e) (workers e) (workersSet e) (maxOpenConns e) x (lastApplied e) (flags e)
    (fleetOver e) (pools e) (turnstiles e) (cache e) (planner e) (pistons e) (crew e) (workersDispatch e).

Definition set_lastApplied (x : gmap Z Z) (e : Engine) : Engine :=
  mkEngine (facts e) (sonars e) (started e) (workers e) (workersSet e) (maxOpenConns e) (refillOverride e) x (flags e)
    (fleetOver e) (pools e) (turnstiles e) (cache e) (planner e) (pistons e) (crew e) (workersDispatch e).

Definition set_flags (x : option (gmap Z bool)) (e : Engine) : Engine :=
  mkEngine (facts e) (sonars e) (started e) (workers e) (workersSet e) (maxOpenConns e) (refillOverride e)
    (lastApplied e) x (fleetOver e) (pools e) (turnstiles e) (cache e) (planner e) (pistons e) (crew e)
    (workersDispatch e).

Definition set_fleetOver (x : gmap Z bool) (e : Engine) : Engine :=
  mkEngine (facts e) (sonars e) (started e) (workers e) (workersSet e) (maxOpenConns e) (refillOverride e)
    (lastApplied e) (flags e) x (pools e) (turnstiles e) (cache e) (planner e) (pistons e) (crew e)
    (workersDispatch e).

Definition set_pools (x : gmap Z (Z * Z)) (e : Engine) : Engine :=
  mkEngine (facts e) (sonars e) (started e) (workers e) (workersSet e) (maxOpenConns e) (refillOverride e)
    (lastApplied e) (flags e) (fleetOver e) x (turnstiles e) (cache e) (planner e) (pistons e) (crew e)
    (workersDispatch e).

Definition set_turnstiles (x : option Set_) (e : Engine) : Engine :=
  mkEngine (facts e) (sonars e) (started e) (workers e) (workersSet e) (maxOpenConns e) (refillOverride e)
    (lastApplied e) (flags e) (fleetOver e) (pools e) x (cache e) (planner e) (pistons e) (crew e) (workersDispatch e).

Definition set_cache (x : Cache) (e : Engine) : Engine :=
  mkEngine (facts e) (sonars e) (started e) (workers e) (workersSet e) (maxOpenConns e) (refillOverride e)
    (lastApplied e) (flags e) (fleetOver e) (pools e) (turnstiles e) x (planner e) (pistons e) (crew e)
    (workersDispatch e).

Definition set_planner (x : Planner) (e : Engine) : Engine :=
  mkEngine (facts e) (sonars e) (started e) (workers e) (workersSet e) (maxOpenConns e) (refillOverride e)
    (lastApplied e) (flags e) (fleetOver e) (pools e) (turnstiles e) (cache e) x (pistons e) (crew e)
    (workersDispatch e).

Definition set_pistons (x : gmap Z piston) (e : Engine) : Engine :=
  mkEngine (facts e) (sonars e) (started e) (workers e) (workersSet e) (maxOpenConns e) (refillOverride e)
    (lastApplied e) (flags e) (fleetOver e) (pools e) (turnstiles e) (cache e) (planner e) x (crew e)
    (workersDispatch e).

Definition set_crew (x : option Crew) (e : Engine) : Engine :=
  mkEngine (facts e) (sonars e) (started e) (workers e) (workersSet e) (maxOpenConns e) (refillOverride e)
    (lastApplied e) (flags e) (fleetOver e) (pools e) (turnstiles e) (cache e) (planner e) (pistons e) x
    (workersDispatch e).

Definition set_workersDispatch (x : Z) (e : Engine) : Engine :=
  mkEngine (facts e) (sonars e) (started e) (workers e) (workersSet e) (maxOpenConns e) (refillOverride e)
    (lastApplied e) (flags e) (fleetOver e) (pools e) (turnstiles e) (cache e) (planner e) (pistons e) (crew e) x.

Definition spec_of (f : Facts) (shard : Z) : ShardSpec := default zero_spec (specs f !! shard).
Definition rtt_of (f : Facts) (shard : Z) : float64 := default f0 (rtts f !! shard).

(** ** Roles *)

Definition zeroWorkers (e : Engine) : bool := bool_decide (workers e = 0).

Definition replicasOn (e : Engine) (shard : Z) : Z :=
  match sonars e !! shard with None => 1 | Some s => Replicas s end.

Definition dispatchFlag (e : Engine) (shard : Z) : option bool := fs ← flags e; fs !! shard.

Definition dispatchesOn (e : Engine) (shard : Z) : bool := default true (dispatchFlag e shard).

(** ** Writes *)

Inductive write :=
| WOverLimit (shard : Z) (over : bool)
| WApplied (observed : gmap Z Z)
| WFlag (shard : Z) (dispatches : bool)
| WPistonIdle (shard : Z) (idle : bool)
| WOpenConns (shard n : Z)
| WIdleConns (shard n : Z)
| WTurns (shard n : Z)
| WCache (n : Z)
| WTallyCadence (shard interval gap : Z)
| WSupplyCadence (shard interval gap : Z)
| WWorkers (n : Z)
| WCrewMax (n : Z).

Definition on_piston (shard : Z) (f : piston → piston) (e : Engine) : Engine :=
  set_pistons (alter f shard (pistons e)) e.

(** [Piston.SetIdle]: going idle withdraws the shard from the planner and empties its partition. *)
Definition SetIdle (shard : Z) (idle : bool) (e : Engine) : Engine :=
  match pistons e !! shard with
  | None => e
  | Some _ =>
      let e := on_piston shard (λ p, mkPiston idle (p_tally p) (p_supply p)) e in
      if idle then set_cache (Candidates.Refill shard [] NoBand (cache e)).2
                     (set_planner (Planner_Clear shard (planner e)) e) else e
  end.

Definition cadence (interval gap : Z) (p : pacer) : pacer := SetMinGap gap (SetInterval interval p).

(** The bounds of a pool of [database/sql]: zero idle connections stand for its default of two, a negative number
    for none; the idle ones are kept within the open ones whenever either is set. *)
Definition maxIdleConnsLocked (idle : Z) : Z := if bool_decide (idle = 0) then 2 else Z.max 0 idle.

Definition exceeds (idle open : Z) : bool := bool_decide (0 < open ∧ open < maxIdleConnsLocked idle).

Definition pool_SetMaxIdleConns (n : Z) (p : Z * Z) : Z * Z :=
  let idle := if bool_decide (0 < n) then n else -1 in
  (if exceeds idle p.2 then p.2 else idle, p.2).

Definition pool_SetMaxOpenConns (n : Z) (p : Z * Z) : Z * Z :=
  let p' := (p.1, Z.max 0 n) in
  if exceeds p'.1 p'.2 then pool_SetMaxIdleConns n p' else p'.

Lemma pool_open_then_idle idle open p : 0 < idle ≤ open →
  pool_SetMaxIdleConns idle (pool_SetMaxOpenConns open p) = (idle, open).
Proof.
  intros H. assert ((pool_SetMaxOpenConns open p).2 = open) as Ho.
  { unfold pool_SetMaxOpenConns. destruct (exceeds _ _); cbn; lia. }
  unfold pool_SetMaxIdleConns. rewrite Ho, bool_decide_eq_true_2 by lia. unfold exceeds, maxIdleConnsLocked.
  by rewrite (bool_decide_eq_false_2 (idle = 0)), bool_decide_eq_false_2 by lia.
Qed.

Lemma pool_idle_then_open n p : 0 < n → 0 < p.2 →
  pool_SetMaxOpenConns n (pool_SetMaxIdleConns n p) = (Z.min n p.2, n).
Proof.
  intros Hn Hp. unfold pool_SetMaxIdleConns at 1. rewrite bool_decide_eq_true_2 by done.
  unfold exceeds, maxIdleConnsLocked. rewrite (bool_decide_eq_false_2 (n = 0)) by lia.
  unfold pool_SetMaxOpenConns. cbn [fst snd]. unfold exceeds, maxIdleConnsLocked.
  destruct (decide (p.2 < n)); [rewrite (bool_decide_eq_true_2 (0 < p.2 ∧ _)) by lia|rewrite (bool_decide_eq_false_2 (0 < p.2 ∧ _)) by lia];
    rewrite (bool_decide_eq_false_2 (_ = 0)), bool_decide_eq_false_2 by lia; f_equal; lia.
Qed.

Lemma pool_idle_open n p : (pool_SetMaxIdleConns n p).2 = p.2.
Proof. done. Qed.

Lemma pool_open_open n p : (pool_SetMaxOpenConns n p).2 = Z.max 0 n.
Proof. unfold pool_SetMaxOpenConns. by destruct (exceeds _ _). Qed.

Definition apply (e : Engine) (w : write) : Engine :=
  match w with
  | WOverLimit i b => set_fleetOver (<[i := b]> (fleetOver e)) e
  | WApplied m => set_lastApplied m e
  | WFlag i b => set_flags (alter (λ _, b) i <$> flags e) e
  | WPistonIdle i b => SetIdle i b e
  | WOpenConns i n => set_pools (alter (pool_SetMaxOpenConns n) i (pools e)) e
  | WIdleConns i n => set_pools (alter (pool_SetMaxIdleConns n) i (pools e)) e
  | WTurns i n => set_turnstiles (Set_Resize i n <$> turnstiles e) e
  | WCache n => set_cache (Candidates.Resize n (cache e)) e
  | WTallyCadence i d g => on_piston i (λ p, mkPiston (p_idle p) (cadence d g (p_tally p)) (p_supply p)) e
  | WSupplyCadence i d g => on_piston i (λ p, mkPiston (p_idle p) (p_tally p) (cadence d g (p_supply p))) e
  | WWorkers n => set_workers (int32 n) e
  | WCrewMax n => set_crew (c ← crew e; crew_step (SetMax n) c) e
  end.

Definition run_writes : list write → Engine → Engine := λ ws e, foldl apply e ws.

(** [applyRole]. *)
Definition applyRole (e : Engine) (shard : Z) (dispatches : bool) : list write :=
  [WFlag shard dispatches; WPistonIdle shard (negb dispatches || zeroWorkers e)].

Section engine.
Context (Log Exp : float64 → float64) (overflow : float64 → Z).

Abbreviation pool := (shardPool Log Exp overflow).

Definition slotsOn (e : Engine) (shard : Z) (spec : ShardSpec) : Z :=
  if zeroWorkers e then 0 else
  match sonars e !! shard with
  | None => 1
  | Some s =>
      let '(rank, candidates) := Rank s in
      if bool_decide (maxOpenConns e ≠ 0) then candidates else
      let slots := dispatcherSlots Log Exp overflow spec candidates in
      if bool_decide (slots ≤ rank) then 0 else slots
  end.

Definition slotsByShard (e : Engine) : gmap Z Z :=
  list_to_map ((λ i, (i, slotsOn e i (spec_of (facts e) i))) <$> indices (facts e)).

Definition checkFleetFits (e : Engine) (shard : Z) : list write :=
  let f := facts e in
  let maxConns := default 0 (shardMaxConns f !! shard) in
  if bool_decide (maxConns ≤ 0) then [] else
  let candidates := match sonars e !! shard with None => 1 | Some s => (Rank s).2 end in
  let over := fleet_over Log Exp overflow (spec_of f shard) (rtt_of f shard) (replicasOn e shard) candidates maxConns in
  if bool_decide (over = default false (fleetOver e !! shard)) then [] else [WOverLimit shard over].

(** ** The ceiling of the crew *)

(** The tightest of the dispatched shards, over the shards that were probed. *)
Fixpoint tightest (f : Facts) (override : Z) (slotsBy : gmap Z Z) (probed : list (Z * float64)) : Z :=
  match probed with
  | [] => MaxInt
  | (idx, rttMs) :: probed =>
      let slots := default 0 (slotsBy !! idx) in
      if bool_decide (slots = 0) then tightest f override slotsBy probed
      else Z.min (tightest f override slotsBy probed)
             (workerCeiling overflow (pool (spec_of f idx) override slots rttMs).2 rttMs)
  end.

Definition ceiling_of (f : Facts) (override : Z) (slotsBy : gmap Z Z) : Z :=
  let ceiling := tightest f override slotsBy (map_to_list (rtts f)) in
  if bool_decide (ceiling = MaxInt) then 64 else ceiling.

Definition recomputeWorkerCeilingWith (e : Engine) (slotsBy : gmap Z Z) : list write :=
  let ceiling := ceiling_of (facts e) (maxOpenConns e) slotsBy in
  if workersSet e then [] else
  WWorkers ceiling :: match crew e with None => [] | Some _ => [WCrewMax ceiling] end.

(** ** The periods of the pistons *)

Definition recomputeRefillIntervalsWith (e : Engine) (slotsBy : gmap Z Z) : list write :=
  let f := facts e in
  let n := Z.max 1 (Z.of_nat (length (filter (λ kv, 0 < kv.2) (map_to_list slotsBy)))) in
  let share := Z.max 1 (Z.of_nat (Capacity (cache e)) `quot` n) in
  let dispatchers := Z.max 1 (share `quot` 2) in
  concat ((λ kv : Z * piston, let idx := kv.1 in
    if bool_decide (0 < refillOverride e) then
      let gap := Z.min DefaultMinGap (refillOverride e) in
      [WTallyCadence idx (refillOverride e) gap; WSupplyCadence idx (refillOverride e) gap]
    else
      let slots := default 0 (slotsBy !! idx) in
      if bool_decide (slots = 0) then [] else
      let derived := deriveRefillInterval overflow share (VirtualCPUs (spec_of f idx))
        (pool (spec_of f idx) (maxOpenConns e) slots (rtt_of f idx)).2 slots dispatchers in
      [WTallyCadence idx derived DefaultMinGap;
       WSupplyCadence idx derived (Z.min DefaultMinGap (derived `quot` supplyGapDivisor))])
  <$> map_to_list (pistons e)).

(** ** [recomputePools] *)

(** What one shard is given, in the order it is written. *)
Definition shard_writes (e : Engine) (observed : gmap Z Z) (idx : Z) : list write :=
  let slots := default 0 (observed !! idx) in
  (if bool_decide (slots = 0) then applyRole e idx false else []) ++
  (if bool_decide (maxOpenConns e ≠ 0) then [] else
     let '(idle, open) := pool (spec_of (facts e) idx) 0 slots (rtt_of (facts e) idx) in
     [WOpenConns idx open; WIdleConns idx idle] ++
     match turnstiles e with None => [] | Some _ => [WTurns idx (turnstilePassesPerConn * open)] end) ++
  (if bool_decide (0 < slots) then applyRole e idx true else []).

(** The connections the replica dispatches through. *)
Definition split_conns (e : Engine) (observed : gmap Z Z) : Z :=
  foldr Z.add 0 ((λ idx, let slots := default 0 (observed !! idx) in
    if bool_decide (0 < slots)
    then (if bool_decide (maxOpenConns e ≠ 0) then maxOpenConns e
          else (pool (spec_of (facts e) idx) 0 slots (rtt_of (facts e) idx)).2)
    else 0) <$> indices (facts e)).

Definition dispatch_count (conns : Z) : Z := Z.max 64 (workersPerConnBudget * conns).

Definition fleet_checks (e : Engine) : list write :=
  if bool_decide (maxOpenConns e = 0) then concat (checkFleetFits e <$> indices (facts e)) else [].

(** No shard's role has moved since the last application. *)
Definition unchanged (e : Engine) (observed : gmap Z Z) : bool :=
  forallb (λ idx, bool_decide (lastApplied e !! idx = observed !! idx)) (indices (facts e))
  && bool_decide (base.size observed = base.size (lastApplied e)).

Definition recomputePools (e : Engine) : list write :=
  if negb (started e) then [] else
  let observed := slotsByShard e in
  let checks := fleet_checks e in
  if unchanged e observed then checks else
  let pushed := checks ++ [WApplied observed] ++ concat (shard_writes e observed <$> indices (facts e)) ++
    [WCache (Z.min (dispatch_count (split_conns e observed)) (workers e))] in
  let e' := run_writes pushed e in
  let cadences := recomputeRefillIntervalsWith e' observed in
  pushed ++ cadences ++ recomputeWorkerCeilingWith (run_writes cadences e') observed.

Definition recompute (e : Engine) : Engine := run_writes (recomputePools e) e.

(** ** The live setters *)

Inductive setter_error := ErrAfterStartup | ErrBadWorkers | ErrBadConns | ErrBadIndex | ErrBadCPUs | ErrShardSet.

Definition SetWorkers (n : Z) (e : Engine) : result setter_error Engine :=
  check (started e) ErrAfterStartup $
  check (bool_decide (n < 0)) ErrBadWorkers $
  Ok (set_workersSet true (set_workers (int32 n) e)).

Definition SetShard (spec : ShardSpec) (declared : gmap Z ShardSpec) (e : Engine) : result setter_error (gmap Z ShardSpec) :=
  check (started e) ErrAfterStartup $
  check (bool_decide (Index spec < 1)) ErrBadIndex $
  check (bool_decide (VirtualCPUs spec < 0)) ErrBadCPUs $
  match declared !! Index spec with
  | Some _ => Err ErrShardSet
  | None => Ok (<[Index spec := spec]> declared)
  end.

(** [ShardSet.SetMaxIdleConns] and [ShardSet.SetMaxOpenConns] clamp what they push in test mode. *)
Definition capped (f : Facts) (n : Z) : Z := if bool_decide (0 < testConnCap f ∧ testConnCap f < n) then testConnCap f else n.

(** The writes of [SetMaxOpenConns] once the override is stored. *)
Definition pin_writes (n : Z) (e : Engine) : list write :=
  let e1 := set_maxOpenConns (int32 n) e in
  let idx := indices (facts e) in
  ((λ i, WIdleConns i (capped (facts e) n)) <$> idx) ++ ((λ i, WOpenConns i (capped (facts e) n)) <$> idx) ++
  (if started e then
     recomputeWorkerCeilingWith e1 (slotsByShard e1) ++
     match turnstiles e with None => [] | Some _ => (λ i, WTurns i (turnstilePassesPerConn * n)) <$> idx end
   else []).

Definition SetMaxOpenConns (n : Z) (e : Engine) : result setter_error Engine :=
  check (bool_decide (n < 1)) ErrBadConns $
  Ok (run_writes (pin_writes n e) (set_maxOpenConns (int32 n) e)).

Definition SetRefillInterval (d : Z) (e : Engine) : Engine :=
  let e := set_refillOverride d e in
  if started e then run_writes (recomputeRefillIntervalsWith e (slotsByShard e)) e else e.

(** ** What [Startup] sizes *)

(** The sizing loop over the open shards, once the registry is read. *)
Definition startup_shard (e : Engine) (idx : Z) : Engine :=
  let slots := slotsOn e idx (spec_of (facts e) idx) in
  let '(idle, open) := pool (spec_of (facts e) idx) (maxOpenConns e) slots (rtt_of (facts e) idx) in
  let e := run_writes [WFlag idx (bool_decide (0 < slots)); WOpenConns idx open; WIdleConns idx idle;
                       WTurns idx (turnstilePassesPerConn * open)] e in
  set_lastApplied (<[idx := slots]> (lastApplied e)) e.

Definition startup_conns (e : Engine) : Z :=
  foldr Z.add 0 ((λ idx, let slots := slotsOn e idx (spec_of (facts e) idx) in
    if bool_decide (0 < slots) then (pool (spec_of (facts e) idx) (maxOpenConns e) slots (rtt_of (facts e) idx)).2 else 0)
    <$> indices (facts e)).

Definition fresh_pacer : pacer := pacer_init (mkPacer 0 0 None None 0).

(** The part of [initRuntime] that sizes: the cache, a piston per shard, their periods, the crew. *)
Definition initRuntime (e : Engine) : Engine :=
  let maxWorkers := workers e in
  let resident := if workersSet e then maxWorkers else Z.min (workersDispatch e) maxWorkers in
  let e := set_cache (Init (Z.min resident (workersDispatch e)) (cache e)) e in
  let e := set_started true (set_planner (Reset (planner e)) e) in
  let e := foldl (λ e idx,
      SetIdle idx (zeroWorkers e || negb (dispatchesOn e idx))
        (set_pistons (<[idx := mkPiston false fresh_pacer fresh_pacer]> (pistons e)) e))
    (set_pistons ∅ e) (indices (facts e)) in
  let e := run_writes (recomputeRefillIntervalsWith e (slotsByShard e)) e in
  set_crew (Some (Crew_Start maxWorkers (Z.to_nat resident))) e.

(** The shards opened at the bootstrap size, nothing dispatched yet, and the sonars joined to the fleet. *)
Definition boot (f : Facts) (joined : gmap Z Sonar) (e : Engine) : Engine :=
  let pools := list_to_map ((λ i, (i, (capped f startupBootstrapConns, capped f startupBootstrapConns))) <$> indices f) in
  let off := list_to_map ((λ i, (i, false)) <$> indices f) in
  mkEngine f joined false (workers e) (workersSet e) (maxOpenConns e) (refillOverride e) (lastApplied e)
    (Some off) ∅ pools (Some NewSet) (cache e) (planner e) (pistons e) None (workersDispatch e).

Definition Startup_sizes (f : Facts) (joined : gmap Z Sonar) (e : Engine) : Engine :=
  let e := boot f joined e in
  let conns := startup_conns e in
  let e := foldl startup_shard e (indices f) in
  let e := set_workersDispatch (dispatch_count conns) e in
  let e := run_writes (recomputeWorkerCeilingWith e (slotsByShard e)) e in
  initRuntime e.
End engine.

(** ** One shard's share of the state *)

Record shard_view := mkShard { sv_pool : option (Z * Z); sv_flag : option bool; sv_turns : option Z; sv_idle : option bool }.

Definition shard_at (e : Engine) (i : Z) : shard_view :=
  mkShard (pools e !! i) (dispatchFlag e i) (s ← turnstiles e; Turnstile.size <$> ts s !! i) (p_idle <$> pistons e !! i).

(** The shard a write is for, if it is for one and not for what is shared. *)
Definition concerns (i : Z) (w : write) : bool :=
  match w with
  | WFlag j _ | WPistonIdle j _ | WOpenConns j _ | WIdleConns j _ | WTurns j _ => bool_decide (j = i)
  | _ => false
  end.

Definition apply_view (i : Z) (v : shard_view) (w : write) : shard_view :=
  if negb (concerns i w) then v else
  let '(mkShard p f t d) := v in
  match w with
  | WFlag _ b => mkShard p ((λ _, b) <$> f) t d
  | WPistonIdle _ b => mkShard p f t ((λ _, b) <$> d)
  | WOpenConns _ n => mkShard (pool_SetMaxOpenConns n <$> p) f t d
  | WIdleConns _ n => mkShard (pool_SetMaxIdleConns n <$> p) f t d
  | WTurns _ n => mkShard p f (Some (Z.max 0 n)) d
  | _ => v
  end.

Definition gates_open (e : Engine) : Prop := ∃ s, turnstiles e = Some s ∧ set_closed s = false.

Lemma grantLocked_size t : Turnstile.size (grantLocked t) = Turnstile.size t.
Proof.
  unfold grantLocked. generalize (length (q t)). intros n. revert t. induction n as [|n IH]; intros t; cbn [grant_loop]; [done|].
  case_bool_decide; [done|]. destruct (heap_pop (q t)) as [[e rest]|]; [|done]. by rewrite IH.
Qed.

Lemma alter_at {A} (f : A → A) (j i : Z) (m : gmap Z A) :
  alter f j m !! i = if bool_decide (j = i) then f <$> m !! i else m !! i.
Proof. case_bool_decide; [subst; apply lookup_alter_eq|by apply lookup_alter_ne]. Qed.

Lemma shard_at_SetIdle e j b i : shard_at (SetIdle j b e) i = apply_view i (shard_at e i) (WPistonIdle j b).
Proof.
  unfold apply_view, concerns, SetIdle. destruct (pistons e !! j) as [p|] eqn:Hp.
  - assert (∀ e0, pistons e0 = alter (λ p, mkPiston b (p_tally p) (p_supply p)) j (pistons e) → pools e0 = pools e →
      flags e0 = flags e → turnstiles e0 = turnstiles e →
      shard_at e0 i = if negb (bool_decide (j = i)) then shard_at e i else
        mkShard (pools e !! i) (dispatchFlag e i) (s ← turnstiles e; Turnstile.size <$> ts s !! i)
          ((λ _, b) <$> (p_idle <$> pistons e !! i))) as H.
    { intros e0 H1 H2 H3 H4. unfold shard_at, dispatchFlag. rewrite H1, H2, H3, H4, alter_at.
      case_bool_decide; cbn [negb]; [subst; by rewrite Hp|done]. }
    destruct b; by apply H.
  - case_bool_decide; cbn [negb]; [|done]. subst. unfold shard_at. by rewrite Hp.
Qed.

Lemma shard_at_apply e w i : gates_open e → shard_at (apply e w) i = apply_view i (shard_at e i) w.
Proof.
  intros (s & Hs & Hc). unfold apply_view. destruct w; cbn [apply concerns]; try done.
  - unfold shard_at, dispatchFlag. cbn. destruct (flags e) as [fs|]; cbn; [|by case_bool_decide].
    rewrite alter_at. by case_bool_decide.
  - rewrite shard_at_SetIdle. unfold apply_view. done.
  - unfold shard_at, dispatchFlag. cbn. rewrite alter_at. by case_bool_decide.
  - unfold shard_at, dispatchFlag. cbn. rewrite alter_at. by case_bool_decide.
  - unfold shard_at, dispatchFlag. cbn. rewrite Hs. cbn. unfold Set_Resize. rewrite Hc. cbn.
    case_bool_decide; cbn [negb]; [subst; rewrite lookup_insert_eq|by rewrite lookup_insert_ne]. cbn.
    f_equal. destruct (ts s !! i) as [t|]; [|done]. f_equal.
    by apply (grantLocked_size (mkTurnstile _ _ _ _ _ _ _)).
  - unfold shard_at, dispatchFlag. cbn. rewrite alter_at. case_bool_decide; [|done]. by destruct (pistons e !! i).
  - unfold shard_at, dispatchFlag. cbn. rewrite alter_at. case_bool_decide; [|done]. by destruct (pistons e !! i).
Qed.

(** What no write of a shard changes. *)
Record frame (e e' : Engine) : Prop := {
  fr_facts : facts e' = facts e;
  fr_sonars : sonars e' = sonars e;
  fr_started : started e' = started e;
  fr_set : workersSet e' = workersSet e;
  fr_pin : maxOpenConns e' = maxOpenConns e;
  fr_interval : refillOverride e' = refillOverride e
}.

Definition sets_workers (w : write) : bool := match w with WWorkers _ => true | _ => false end.

Lemma apply_frame e w : frame e (apply e w).
Proof.
  destruct w; try by constructor. cbn [apply]. unfold SetIdle. destruct (pistons e !! shard); [|by constructor].
  by destruct idle; constructor.
Qed.

Lemma apply_workers e w : sets_workers w = false → workers (apply e w) = workers e.
Proof.
  destruct w; try done. intros _. cbn [apply]. unfold SetIdle. destruct (pistons e !! shard); [|done]. by destruct idle.
Qed.

Lemma apply_gates e w : gates_open e → gates_open (apply e w).
Proof.
  intros (s & Hs & Hc). destruct w; try (by exists s); cbn [apply].
  - unfold SetIdle. destruct (pistons e !! shard); [|by exists s]. by destruct idle; exists s.
  - unfold gates_open. cbn. rewrite Hs. exists (Set_Resize shard n s). split; [done|]. unfold Set_Resize. by rewrite Hc.
Qed.

Lemma frame_trans a b c : frame a b → frame b c → frame a c.
Proof. intros [] []. constructor; congruence. Qed.

Lemma run_writes_cons w ws e : run_writes (w :: ws) e = run_writes ws (apply e w).
Proof. done. Qed.

Lemma run_writes_app a b e : run_writes (a ++ b) e = run_writes b (run_writes a e).
Proof. apply foldl_app. Qed.

Lemma run_frame ws e : frame e (run_writes ws e).
Proof.
  revert e. induction ws as [|w ws IH]; intros e; [by constructor|]. eapply frame_trans; [apply apply_frame|apply IH].
Qed.

Lemma run_gates ws e : gates_open e → gates_open (run_writes ws e).
Proof. revert e. induction ws as [|w ws IH]; intros e He; [done|]. by apply IH, apply_gates. Qed.

Lemma run_workers ws e : Forall (λ w, sets_workers w = false) ws → workers (run_writes ws e) = workers e.
Proof.
  intros H. revert e. induction H as [|w ws Hw _ IH]; intros e; [done|]. rewrite run_writes_cons, IH. by apply apply_workers.
Qed.

Lemma shard_at_run ws e i : gates_open e → shard_at (run_writes ws e) i = foldl (apply_view i) (shard_at e i) ws.
Proof.
  revert e. induction ws as [|w ws IH]; intros e He; [done|]. rewrite run_writes_cons, IH by by apply apply_gates.
  cbn [foldl]. by rewrite shard_at_apply.
Qed.

Lemma view_elsewhere i ws v : Forall (λ w, concerns i w = false) ws → foldl (apply_view i) v ws = v.
Proof. induction 1 as [|w ws Hw _ IH]; [done|]. cbn. unfold apply_view at 2. by rewrite Hw. Qed.

(** Writes to the cache, the pacers and the alarm, and writes to one shard. *)
Definition quiet (w : write) : bool :=
  match w with WOverLimit _ _ | WCache _ | WTallyCadence _ _ _ | WSupplyCadence _ _ _ => true | _ => false end.
Definition of_shard (w : write) : bool :=
  match w with WFlag _ _ | WPistonIdle _ _ | WOpenConns _ _ | WIdleConns _ _ | WTurns _ _ => true | _ => false end.

(** What is shared between the shards. *)
Definition shared (e : Engine) : Z * gmap Z Z * option Crew := (workers e, lastApplied e, crew e).

Lemma apply_shared e w : quiet w || of_shard w = true → shared (apply e w) = shared e.
Proof.
  destruct w; try done; intros _. cbn [apply]. unfold SetIdle. destruct (pistons e !! shard); [|done]. by destruct idle.
Qed.

Lemma run_shared ws e : Forall (λ w, quiet w || of_shard w = true) ws → shared (run_writes ws e) = shared e.
Proof.
  intros H. revert e. induction H as [|w ws Hw _ IH]; intros e; [done|]. rewrite run_writes_cons, IH. by apply apply_shared.
Qed.

Lemma quiet_elsewhere i ws : Forall (λ w, quiet w = true) ws → Forall (λ w, concerns i w = false) ws.
Proof. intros H. eapply Forall_impl; [exact H|]. by intros []. Qed.

Section sizes.
Context (Log Exp : float64 → float64) (overflow : float64 → Z).

Abbreviation pool := (shardPool Log Exp overflow).
Abbreviation slots_on := (slotsOn Log Exp overflow).
Abbreviation slots_by := (slotsByShard Log Exp overflow).

Lemma pool_open spec ov slots rtt : 2 ≤ (pool spec 0 slots rtt).2 ∧ (0 < ov → pool spec ov slots rtt = (ov, ov))
  ∧ (ov ≤ 0 → pool spec ov slots rtt = pool spec 0 slots rtt).
Proof.
  unfold shardPool. rewrite (bool_decide_eq_false_2 (0 < 0)) by lia. split_and!.
  - case_bool_decide; cbn; unfold readerOpenConns; lia.
  - intros H. by rewrite bool_decide_eq_true_2.
  - intros H. by rewrite bool_decide_eq_false_2 by lia.
Qed.

Lemma pool_idles spec slots rtt : 0 < (pool spec 0 slots rtt).1 ≤ (pool spec 0 slots rtt).2.
Proof.
  unfold shardPool. rewrite (bool_decide_eq_false_2 (0 < 0)) by lia. case_bool_decide; cbn; [done|].
  generalize (round_div overflow (shardBudget Log Exp overflow (effectiveVirtualCPUs (VirtualCPUs spec)) rtt) (of_int slots)).
  intros x. rewrite Z.quot_div_nonneg by lia. pose proof (Z.div_le_upper_bound (Z.max 2 x) 2 (Z.max 2 x)). lia.
Qed.

Lemma pool_bounds pin : 0 ≤ pin → ∀ spec slots rtt, let q := pool spec pin slots rtt in 0 < q.1 ≤ q.2 ∧ (pin = 0 → q = pool spec 0 slots rtt).
Proof.
  intros Hp spec slots rtt. destruct (pool_open spec pin slots rtt) as (_ & H1 & _).
  destruct (decide (pin = 0)) as [->|Hn]; [split; [apply pool_idles|done]|]. rewrite H1 by lia. cbn. lia.
Qed.

Lemma slotsOn_nonneg e i spec : 0 ≤ slots_on e i spec.
Proof.
  unfold slotsOn. destruct (zeroWorkers e); [done|]. destruct (sonars e !! i) as [s|]; [|done]. cbn.
  case_bool_decide; [lia|]. case_bool_decide; [done|]. pose proof (slots_bounds Log Exp overflow spec (Z.max 1 (standing s).2)). lia.
Qed.

Lemma slotsOn_zero e i spec : zeroWorkers e = true → slots_on e i spec = 0.
Proof. intros H. unfold slotsOn. by rewrite H. Qed.

Lemma slotsOn_pinned e i spec : zeroWorkers e = false → maxOpenConns e ≠ 0 → 0 < slots_on e i spec.
Proof.
  intros H Hp. unfold slotsOn. rewrite H. destruct (sonars e !! i) as [s|]; [|done]. cbn. rewrite bool_decide_eq_true_2 by done. lia.
Qed.

Lemma slotsOn_frame e e' i spec : frame e e' → zeroWorkers e' = zeroWorkers e → slots_on e' i spec = slots_on e i spec.
Proof. intros Hf Hz. unfold slotsOn. by rewrite Hz, (fr_sonars _ _ Hf), (fr_pin _ _ Hf). Qed.

Lemma slotsBy_frame e e' : frame e e' → zeroWorkers e' = zeroWorkers e → slots_by e' = slots_by e.
Proof.
  intros Hf Hz. unfold slotsByShard. rewrite (fr_facts _ _ Hf). f_equal. apply list_fmap_ext. intros _ i _.
  by rewrite (slotsOn_frame e e').
Qed.

Lemma slotsBy_lookup e i : NoDup (indices (facts e)) →
  slots_by e !! i = if bool_decide (i ∈ indices (facts e)) then Some (slots_on e i (spec_of (facts e) i)) else None.
Proof.
  intros Hnd. unfold slotsByShard. case_bool_decide as Hi.
  - apply elem_of_list_to_map_1; [by rewrite <-list_fmap_compose, list_fmap_id|]. by apply list_elem_of_fmap_2' with i.
  - apply not_elem_of_list_to_map_1. by rewrite <-list_fmap_compose, list_fmap_id.
Qed.

(** The idle connections a pool may keep: those its role asks for, and under an override any number up to the open
    ones. *)
Definition idles (f : Facts) (pin i slots idle : Z) : Prop :=
  let q := pool (spec_of f i) pin slots (rtt_of f i) in 0 < idle ≤ q.2 ∧ (pin = 0 → idle = q.1).

(** What a shard's role makes of it. *)
Definition sized (f : Facts) (pin i slots idle : Z) : shard_view :=
  let q := pool (spec_of f i) pin slots (rtt_of f i) in
  mkShard (Some (idle, q.2)) (Some (bool_decide (0 < slots))) (Some (turnstilePassesPerConn * q.2)) (Some (bool_decide (slots ≤ 0))).

Lemma shard_writes_of_shard e m i : Forall (λ w, of_shard w = true) (shard_writes Log Exp overflow e m i).
Proof.
  unfold shard_writes, applyRole. apply Forall_app. split; [by case_bool_decide; repeat constructor|].
  apply Forall_app. split; [|by case_bool_decide; repeat constructor]. case_bool_decide; [constructor|].
  destruct (pool _ _ _ _) as [a b]. destruct (turnstiles e); repeat constructor.
Qed.

Lemma shard_writes_elsewhere e m i j : i ≠ j → Forall (λ w, concerns i w = false) (shard_writes Log Exp overflow e m j).
Proof.
  intros Hij. unfold shard_writes, applyRole.
  assert (j ≠ i) as Hf by done.
  apply Forall_app. split; [case_bool_decide; repeat first [by apply Forall_nil|apply Forall_cons; split; [by apply bool_decide_eq_false_2|]]|].
  apply Forall_app. split; [|case_bool_decide; repeat first [by apply Forall_nil|apply Forall_cons; split; [by apply bool_decide_eq_false_2|]]]. case_bool_decide; [constructor|].
  destruct (pool _ _ _ _) as [a b]. destruct (turnstiles e); repeat first [by apply Forall_nil|apply Forall_cons; split; [by apply bool_decide_eq_false_2|]].
Qed.

Lemma blocks_at e m i l v : NoDup l →
  foldl (apply_view i) v (concat (shard_writes Log Exp overflow e m <$> l)) =
    if bool_decide (i ∈ l) then foldl (apply_view i) v (shard_writes Log Exp overflow e m i) else v.
Proof.
  revert v. induction l as [|j l IH]; intros v Hnd; [done|]. apply NoDup_cons in Hnd as [Hj Hnd].
  rewrite fmap_cons. cbn [concat]. rewrite foldl_app, IH by done. destruct (decide (i = j)) as [->|Hne].
  - rewrite (bool_decide_eq_true_2 (j ∈ j :: l)) by set_solver. by rewrite (bool_decide_eq_false_2 (j ∈ l)).
  - rewrite (view_elsewhere i (shard_writes _ _ _ e m j)) by by apply shard_writes_elsewhere.
    rewrite (bool_decide_ext (i ∈ j :: l) (i ∈ l)); [done|set_solver].
Qed.

(** One shard's writes give it what its new role makes of it; under an override its pool is left alone. *)
Lemma block_sized e m i s0 d0 slots : gates_open e → 0 ≤ maxOpenConns e → default 0 (m !! i) = slots → 0 ≤ slots →
  (zeroWorkers e = true → slots = 0) → idles (facts e) (maxOpenConns e) i s0 d0 →
  ∃ d, idles (facts e) (maxOpenConns e) i slots d ∧ (maxOpenConns e ≠ 0 → d = d0) ∧
    foldl (apply_view i) (sized (facts e) (maxOpenConns e) i s0 d0) (shard_writes Log Exp overflow e m i) =
    sized (facts e) (maxOpenConns e) i slots d.
Proof.
  intros (g & Hg & _) Hpin Hm Hs Hz Hd. unfold shard_writes, applyRole. rewrite Hm, Hg.
  assert (∀ j : Z, bool_decide (j = j) = true) as Hii by (intros j; by apply bool_decide_eq_true_2).
  assert (0 < slots → zeroWorkers e = false) as Hzw by (intros H; destruct (zeroWorkers e); [specialize (Hz eq_refl); lia|done]).
  destruct (decide (maxOpenConns e = 0)) as [H0|Hn].
  - rewrite H0. exists (pool (spec_of (facts e) i) 0 slots (rtt_of (facts e) i)).1.
    pose proof (pool_idles (spec_of (facts e) i) slots (rtt_of (facts e) i)) as Hq. split; [by unfold idles|]. split; [done|].
    rewrite (bool_decide_eq_false_2 (0 ≠ 0)) by lia. unfold sized. destruct (pool _ 0 slots _) as [a b]. cbn [fst snd] in *.
    destruct (decide (slots = 0)) as [->|Hne].
    + rewrite (bool_decide_eq_true_2 (0 = 0)), (bool_decide_eq_false_2 (0 < 0)), (bool_decide_eq_true_2 (0 ≤ 0)) by lia.
      cbn [app foldl negb orb]. unfold apply_view, concerns. rewrite !Hii. cbn [negb fmap option_fmap option_map].
      rewrite pool_open_then_idle by done. by rewrite Z.max_r by (unfold turnstilePassesPerConn; lia).
    + rewrite (bool_decide_eq_false_2 (slots = 0)), (bool_decide_eq_true_2 (0 < slots)), (bool_decide_eq_false_2 (slots ≤ 0)) by lia.
      rewrite Hzw by lia. cbn [app foldl negb orb]. unfold apply_view, concerns. rewrite !Hii. cbn [negb fmap option_fmap option_map].
      rewrite pool_open_then_idle by done. by rewrite Z.max_r by (unfold turnstilePassesPerConn; lia).
  - exists d0. unfold idles, sized in *. rewrite !(bool_decide_eq_true_2 (maxOpenConns e ≠ 0)) by done.
    destruct (pool_open (spec_of (facts e) i) (maxOpenConns e) slots (rtt_of (facts e) i)) as (_ & -> & _); [|lia].
    destruct (pool_open (spec_of (facts e) i) (maxOpenConns e) s0 (rtt_of (facts e) i)) as (_ & Hp0 & _). rewrite Hp0 in * by lia.
    split; [done|]. split; [done|]. destruct (decide (slots = 0)) as [->|Hne].
    + rewrite (bool_decide_eq_true_2 (0 = 0)), (bool_decide_eq_false_2 (0 < 0)), (bool_decide_eq_true_2 (0 ≤ 0)) by lia.
      cbn [app foldl negb orb]. unfold apply_view, concerns. rewrite !Hii. done.
    + rewrite (bool_decide_eq_false_2 (slots = 0)), (bool_decide_eq_true_2 (0 < slots)), (bool_decide_eq_false_2 (slots ≤ 0)) by lia.
      rewrite Hzw by lia. cbn [app foldl negb orb]. unfold apply_view, concerns. rewrite !Hii. done.
Qed.

(** ** The invariant between operations *)

Record Inv (e : Engine) : Prop := mkInv {
  i_nodup : NoDup (indices (facts e));
  i_rtts : ∀ i, is_Some (rtts (facts e) !! i) → i ∈ indices (facts e);
  i_started : started e = true;
  i_pin : 0 ≤ maxOpenConns e;
  i_cap : testConnCap (facts e) = 0;
  i_gates : gates_open e;
  i_sized : ∀ i, i ∈ indices (facts e) →
    ∃ slots idle, lastApplied e !! i = Some slots ∧ idles (facts e) (maxOpenConns e) i slots idle ∧
      shard_at e i = sized (facts e) (maxOpenConns e) i slots idle;
  i_keys : ∀ i, is_Some (lastApplied e !! i) → i ∈ indices (facts e);
  i_crew : ∃ c, crew e = Some c ∧ (workersSet e = false → c_max c = workers e ∧ ∃ m,
    workers e = ceiling_of Log Exp overflow (facts e) (maxOpenConns e) m ∧
    (m = lastApplied e ∨ 0 < maxOpenConns e ∧ ∀ i, i ∈ indices (facts e) → 0 < default 0 (m !! i)))
}.

Lemma ceiling_pos f pin m : 1 ≤ ceiling_of Log Exp overflow f pin m.
Proof.
  unfold ceiling_of. case_bool_decide; [done|]. clear. induction (map_to_list (rtts f)) as [|[i r] l IH]; [done|].
  cbn [tightest]. case_bool_decide; [done|]. apply Z.min_glb; [done|]. unfold workerCeiling. lia.
Qed.

(** Under an override the pools do not depend on how many replicas dispatch. *)
Lemma ceiling_pinned f pin m m' : 0 < pin → (∀ i, is_Some (rtts f !! i) → i ∈ indices f) →
  (∀ i, i ∈ indices f → 0 < default 0 (m !! i)) → (∀ i, i ∈ indices f → 0 < default 0 (m' !! i)) →
  ceiling_of Log Exp overflow f pin m = ceiling_of Log Exp overflow f pin m'.
Proof.
  intros Hp Hr Hm Hm'. unfold ceiling_of.
  assert (∀ l, (∀ kv, kv ∈ l → kv.1 ∈ indices f) →
    tightest Log Exp overflow f pin m l = tightest Log Exp overflow f pin m' l) as Hl.
  { intros l. induction l as [|[i r] l IH]; intros Hin; [done|]. cbn [tightest].
    assert (i ∈ indices f) as Hi by (apply (Hin (i, r)); set_solver). pose proof (Hm _ Hi). pose proof (Hm' _ Hi).
    rewrite !bool_decide_eq_false_2 by lia.
    destruct (pool_open (spec_of f i) pin (default 0 (m !! i)) r) as (_ & -> & _); [|done].
    destruct (pool_open (spec_of f i) pin (default 0 (m' !! i)) r) as (_ & -> & _); [|done].
    rewrite IH; [done|]. intros kv' Hkv'. apply Hin. set_solver. }
  rewrite Hl; [done|]. intros [i r] Hkv. apply Hr. exists r. by apply elem_of_map_to_list in Hkv.
Qed.

Lemma checks_quiet e : Forall (λ w, quiet w = true) (fleet_checks Log Exp overflow e).
Proof.
  unfold fleet_checks. case_bool_decide; [|constructor]. apply Forall_concat, Forall_fmap, Forall_forall. intros i _. cbn.
  unfold checkFleetFits. case_bool_decide; [constructor|]. case_bool_decide; [constructor|by repeat constructor].
Qed.

Lemma cadences_quiet e m : Forall (λ w, quiet w = true) (recomputeRefillIntervalsWith Log Exp overflow e m).
Proof.
  unfold recomputeRefillIntervalsWith. apply Forall_concat, Forall_fmap, Forall_forall. intros kv _. cbn.
  case_bool_decide; [by repeat constructor|]. case_bool_decide; [constructor|by repeat constructor].
Qed.

Lemma ceiling_elsewhere e m i : Forall (λ w, concerns i w = false) (recomputeWorkerCeilingWith Log Exp overflow e m).
Proof.
  unfold recomputeWorkerCeilingWith. destruct (workersSet e); [constructor|]. destruct (crew e); by repeat constructor.
Qed.

Definition with_max (n : Z) (c : Crew) : Crew := default c (crew_step (SetMax n) c).

Lemma with_max_max n c : c_max (with_max n c) = int32 (Z.max 0 n).
Proof. done. Qed.

Lemma ceiling_shared e m c : crew e = Some c →
  let n := ceiling_of Log Exp overflow (facts e) (maxOpenConns e) m in
  shared (run_writes (recomputeWorkerCeilingWith Log Exp overflow e m) e) =
    if workersSet e then shared e
    else (int32 n, lastApplied e, Some (with_max n c)).
Proof.
  intros Hc n. unfold recomputeWorkerCeilingWith. rewrite Hc. destruct (workersSet e); [done|]. fold n.
  cbn [run_writes foldl apply]. unfold shared. cbn [workers lastApplied crew set_workers set_crew]. by rewrite Hc.
Qed.

Lemma int32_small n : 0 ≤ n < 2 ^ 31 → int32 n = n.
Proof. intros Hn. unfold int32. rewrite Z.mod_small by lia. lia. Qed.

Lemma unchanged_eq e : Inv e → unchanged e (slots_by e) = true → slots_by e = lastApplied e.
Proof.
  intros He. unfold unchanged. rewrite andb_true_iff, forallb_forall. intros [Hall _]. apply map_eq. intros i.
  destruct (decide (i ∈ indices (facts e))) as [Hi|Hi].
  - apply list_elem_of_In in Hi. symmetry. specialize (Hall i Hi). by apply bool_decide_eq_true in Hall.
  - rewrite slotsBy_lookup by apply He. rewrite bool_decide_eq_false_2 by done. symmetry.
    apply eq_None_not_Some. intros H. by apply Hi, (i_keys e He).
Qed.

Lemma Inv_positive e : Inv e → workersSet e = false → zeroWorkers e = false.
Proof.
  intros He Hw. destruct (i_crew e He) as (c & _ & Hm). destruct (Hm Hw) as (_ & m & Hwk & _).
  apply bool_decide_eq_false_2. pose proof (ceiling_pos (facts e) (maxOpenConns e) m). lia.
Qed.

(** The ceiling that the current roles imply. *)
Abbreviation ceiling e := (ceiling_of Log Exp overflow (facts e) (maxOpenConns e) (slots_by e)).

(** Everything but the cache and the pacers is what the current readings imply. *)
Record settled (e : Engine) : Prop := mkSettled {
  s_sized : ∀ i, i ∈ indices (facts e) → let slots := slots_on e i (spec_of (facts e) i) in
    ∃ idle, idles (facts e) (maxOpenConns e) i slots idle ∧ shard_at e i = sized (facts e) (maxOpenConns e) i slots idle;
  s_applied : lastApplied e = slots_by e;
  s_ceiling : workersSet e = false → workers e = ceiling e ∧ c_max <$> crew e = Some (ceiling e)
}.

Lemma settled_Inv e : NoDup (indices (facts e)) → (∀ i, is_Some (rtts (facts e) !! i) → i ∈ indices (facts e)) →
  started e = true → 0 ≤ maxOpenConns e → testConnCap (facts e) = 0 → gates_open e → is_Some (crew e) → settled e → Inv e.
Proof.
  intros H1 H2 H3 H4 Hcap H5 [c Hc] [Hs Ha Hk]. constructor; try done.
  - intros i Hi. destruct (Hs i Hi) as (d & Hd & Hv). exists (slots_on e i (spec_of (facts e) i)), d. split; [|done].
    rewrite Ha, slotsBy_lookup by done. by rewrite bool_decide_eq_true_2.
  - intros i Hi. rewrite Ha, slotsBy_lookup in Hi by done. case_bool_decide; [done|by destruct Hi].
  - exists c. split; [done|]. intros Hw. destruct (Hk Hw) as [Hwk Hm]. rewrite Hc in Hm. injection Hm as Hm.
    split; [congruence|]. exists (slots_by e). split; [done|]. by left.
Qed.

Lemma Inv_unchanged e : Inv e → unchanged e (slots_by e) = true → settled e.
Proof.
  intros He Hun. apply unchanged_eq in Hun; [|done]. constructor.
  - intros i Hi slots. destruct (i_sized e He i Hi) as (s & d & Hl & Hd & Hv). rewrite <-Hun, slotsBy_lookup in Hl by apply He.
    rewrite bool_decide_eq_true_2 in Hl by done. injection Hl as <-. by exists d.
  - done.
  - intros Hw. pose proof (Inv_positive e He Hw) as Hz. destruct (i_crew e He) as (c & Hc & Hm).
    destruct (Hm Hw) as (Hcm & m & Hwk & Hor). rewrite Hc. cbn. rewrite Hcm, Hwk.
    assert (ceiling_of Log Exp overflow (facts e) (maxOpenConns e) m = ceiling e) as ->; [|done].
    destruct Hor as [->|[Hp Hall]]; [by rewrite Hun|]. apply ceiling_pinned; [done|apply He|done|].
    intros i Hi. rewrite slotsBy_lookup by apply He. rewrite bool_decide_eq_true_2 by done. cbn.
    apply slotsOn_pinned; [done|lia].
Qed.

(** A settled engine stays settled through what changes no role. *)
Lemma settled_frame e e' : frame e e' → (∀ i, shard_at e' i = shard_at e i) → shared e' = shared e → settled e → settled e'.
Proof.
  intros Hf Hv Hsh [Hs Ha Hk]. injection Hsh as Hw Hl Hc.
  assert (zeroWorkers e' = zeroWorkers e) as Hz by (unfold zeroWorkers; by rewrite Hw).
  constructor; rewrite ?(slotsBy_frame e e'), ?Hw, ?Hl, ?Hc, ?(fr_facts _ _ Hf), ?(fr_pin _ _ Hf), ?(fr_set _ _ Hf) by done; [|done|done].
  intros i Hi slots. subst slots. rewrite Hv, (slotsOn_frame e e') by done. by apply Hs.
Qed.

(** The writes of a recompute that go to the shards, and what they leave in common. *)
Definition pushes (e : Engine) (obs : gmap Z Z) (n : Z) : list write :=
  fleet_checks Log Exp overflow e ++ [WApplied obs] ++ concat (shard_writes Log Exp overflow e obs <$> indices (facts e)) ++ [WCache n].

Lemma pushes_at e n i : Inv e → i ∈ indices (facts e) → let slots := slots_on e i (spec_of (facts e) i) in
  ∃ d, idles (facts e) (maxOpenConns e) i slots d ∧ (maxOpenConns e ≠ 0 → Some d = fst <$> pools e !! i) ∧
    shard_at (run_writes (pushes e (slots_by e) n) e) i = sized (facts e) (maxOpenConns e) i slots d.
Proof.
  intros He Hi slots. rewrite shard_at_run by apply He. unfold pushes. rewrite !foldl_app.
  rewrite (view_elsewhere i (fleet_checks _ _ _ _)) by apply quiet_elsewhere, checks_quiet.
  rewrite (view_elsewhere i [WApplied _]) by by repeat constructor. rewrite (view_elsewhere i [WCache _]) by by repeat constructor.
  rewrite blocks_at by apply He. rewrite bool_decide_eq_true_2 by done.
  destruct (i_sized e He i Hi) as (s0 & d0 & _ & Hd0 & Hv).
  assert (fst <$> pools e !! i = Some d0) as -> by exact (f_equal (λ v, fst <$> sv_pool v) Hv). rewrite Hv.
  destruct (block_sized e (slots_by e) i s0 d0 slots) as (d & Hd & Hp & ->); [apply He|apply He| |apply slotsOn_nonneg| |done|].
  3: { exists d. split; [done|]. split; [|done]. intros Hn. by rewrite Hp. }
  - rewrite slotsBy_lookup by apply He. by rewrite bool_decide_eq_true_2.
  - intros Hz. by apply slotsOn_zero.
Qed.

Lemma pushes_shared e obs n : shared (run_writes (pushes e obs n) e) = (workers e, obs, crew e).
Proof.
  unfold pushes. rewrite !run_writes_app. rewrite run_shared by by repeat constructor. rewrite run_shared.
  - rewrite run_writes_cons. change (run_writes [] ?x) with x. cbn [apply]. unfold shared. cbn [workers lastApplied crew set_lastApplied].
    assert (shared (run_writes (fleet_checks Log Exp overflow e) e) = shared e) as H.
    { apply run_shared. eapply Forall_impl; [apply checks_quiet|]. by intros w ->. }
    by injection H as -> _ ->.
  - apply Forall_concat, Forall_fmap, Forall_forall. intros i _. eapply Forall_impl; [apply shard_writes_of_shard|].
    cbn. intros w ->. apply orb_true_r.
Qed.

Lemma recompute_settles e : Inv e → ceiling e < 2 ^ 31 → settled (recompute Log Exp overflow e).
Proof.
  intros He Hfit. unfold recompute, recomputePools. rewrite (i_started e He). cbn [negb].
  destruct (unchanged e (slots_by e)) eqn:Hun.
  { apply (settled_frame e); [apply run_frame| | |by apply Inv_unchanged].
    - intros i. rewrite shard_at_run by apply He. apply view_elsewhere, quiet_elsewhere, checks_quiet.
    - apply run_shared. eapply Forall_impl; [apply checks_quiet|]. by intros w ->. }
  set (n := Z.min _ _). fold (pushes e (slots_by e) n). rewrite !run_writes_app.
  set (e1 := run_writes (pushes _ _ _) e). set (cad := recomputeRefillIntervalsWith _ _ _ _ _).
  set (e2 := run_writes cad e1).
  assert (frame e e2) as Hf by (eapply frame_trans; apply run_frame).
  assert (gates_open e1) as Hg1 by apply run_gates, He. assert (gates_open e2) as Hg2 by by apply run_gates.
  assert (shared e2 = (workers e, slots_by e, crew e)) as Hsh.
  { subst e2. rewrite run_shared; [apply pushes_shared|]. eapply Forall_impl; [apply cadences_quiet|]. by intros w ->. }
  injection Hsh as Hw Hl Hc. destruct (i_crew e He) as (c & Hce & _). rewrite Hce in Hc.
  pose proof (ceiling_shared e2 (slots_by e) c Hc) as Hsh. set (e3 := run_writes (recomputeWorkerCeilingWith _ _ _ _ _) e2) in *.
  rewrite (fr_set _ _ Hf), (fr_facts _ _ Hf), (fr_pin _ _ Hf) in Hsh. cbv zeta in Hsh.
  assert (frame e e3) as Hf3 by (eapply frame_trans; [exact Hf|apply run_frame]).
  assert (lastApplied e3 = slots_by e) as Hl3 by (destruct (workersSet e); injection Hsh; congruence).
  pose proof (ceiling_pos (facts e) (maxOpenConns e) (slots_by e)) as Hpos.
  assert (zeroWorkers e3 = zeroWorkers e) as Hz.
  { unfold zeroWorkers. destruct (workersSet e) eqn:Hset; injection Hsh as -> _ _; [by rewrite Hw|].
    pose proof (Inv_positive e He Hset) as H. unfold zeroWorkers in H. rewrite H. rewrite int32_small by lia. apply bool_decide_eq_false_2. lia. }
  constructor; rewrite ?(fr_facts _ _ Hf3), ?(fr_pin _ _ Hf3), ?(fr_set _ _ Hf3), ?(slotsBy_frame e e3) by done.
  - intros i Hi slots. subst slots. rewrite (slotsOn_frame e e3) by done. subst e3. rewrite shard_at_run by done.
    rewrite view_elsewhere by apply ceiling_elsewhere. subst e2. rewrite shard_at_run by done.
    rewrite view_elsewhere by apply quiet_elsewhere, cadences_quiet.
    destruct (pushes_at e n i He Hi) as (d & Hd & _ & Hv). by exists d.
  - done.
  - intros Hset. rewrite Hset in Hsh. injection Hsh as -> _ ->. rewrite int32_small by lia.
    cbn. by rewrite Z.max_r, int32_small by lia.
Qed.

(** ** Operations and runs *)

(** One write for every shard of a list reaches each once. *)
Lemma family_at (g : Z → write) i l v : NoDup l → (∀ j, concerns i (g j) = bool_decide (j = i)) →
  foldl (apply_view i) v (g <$> l) = if bool_decide (i ∈ l) then apply_view i v (g i) else v.
Proof.
  intros Hnd Hg. revert v. induction l as [|j l IH]; intros v; [done|]. apply NoDup_cons in Hnd as [Hj Hnd].
  rewrite fmap_cons. cbn [foldl]. rewrite IH by done. destruct (decide (j = i)) as [->|Hne].
  - rewrite (bool_decide_eq_true_2 (i ∈ i :: l)) by set_solver. by rewrite (bool_decide_eq_false_2 (i ∈ l)).
  - assert (apply_view i v (g j) = v) as -> by (unfold apply_view; by rewrite Hg, bool_decide_eq_false_2).
    rewrite (bool_decide_ext (i ∈ j :: l) (i ∈ l)); [done|set_solver].
Qed.

Lemma family_elsewhere (P : write → Prop) (g : Z → write) l : (∀ j, P (g j)) → Forall P (g <$> l).
Proof. intros H. apply Forall_fmap, Forall_forall. intros j _. apply H. Qed.

(** The other goroutines: they fill and empty the cache, take and return turns, run cycles and workers. *)
Record outside (e e' : Engine) : Prop := mkOutside {
  o_frame : frame e e';
  o_shard : ∀ i, shard_at e' i = shard_at e i;
  o_workers : workers e' = workers e;
  o_applied : lastApplied e' = lastApplied e;
  o_max : c_max <$> crew e' = c_max <$> crew e;
  o_gates : gates_open e'
}.

Lemma outside_Inv e e' : Inv e → outside e e' → Inv e'.
Proof.
  intros He [Hf Hs Hw Hl Hm Hg]. constructor; rewrite ?(fr_facts _ _ Hf), ?(fr_pin _ _ Hf), ?(fr_started _ _ Hf), ?(fr_set _ _ Hf), ?Hl, ?Hw;
    try by apply He.
  - done.
  - intros i Hi. rewrite Hs. by apply He.
  - destruct (i_crew e He) as (c & Hc & Hor). rewrite Hc in Hm. destruct (crew e') as [c'|] eqn:Hc'; [|done].
    injection Hm as Hm. exists c'. split; [done|]. intros H. rewrite Hm. by apply Hor.
Qed.

(** A pin pushes the idle connections first: they stay within the connections that were open before it. *)
Lemma pin_at e n i : Inv e → 0 < n → i ∈ indices (facts e) →
  foldl (apply_view i) (shard_at e i) (pin_writes Log Exp overflow n e) =
    let v := shard_at e i in mkShard ((λ q, (Z.min n q.2, n)) <$> sv_pool v) (sv_flag v) (Some (turnstilePassesPerConn * n)) (sv_idle v).
Proof.
  intros He Hn Hi. unfold pin_writes. rewrite (i_started e He). destruct (i_gates e He) as (g & Hg & _). rewrite Hg.
  rewrite !foldl_app. rewrite !family_at by (apply He || done). rewrite !bool_decide_eq_true_2 by done.
  rewrite (view_elsewhere i (recomputeWorkerCeilingWith _ _ _ _ _)) by apply ceiling_elsewhere.
  unfold capped. rewrite (i_cap e He). rewrite (bool_decide_eq_false_2 (0 < 0 ∧ _)) by lia.
  destruct (i_sized e He i Hi) as (s0 & d0 & _ & Hd & ->). unfold sized, idles in *. unfold apply_view, concerns. rewrite !bool_decide_eq_true_2 by done.
  cbn [negb fmap option_fmap option_map sv_pool sv_flag sv_turns sv_idle]. rewrite pool_idle_then_open by (cbn; lia).
  by rewrite Z.max_r by (unfold turnstilePassesPerConn; lia).
Qed.

Lemma pin_Inv n e e' : Inv e → n < 2 ^ 31 → ceiling (set_maxOpenConns n e) < 2 ^ 31 →
  SetMaxOpenConns Log Exp overflow n e = Ok e' → Inv e' ∧ (∀ i, shard_at e' i = foldl (apply_view i) (shard_at e i) (pin_writes Log Exp overflow n e)).
Proof.
  intros He Hn Hfit. unfold SetMaxOpenConns. intros [H1 [= <-]]%check_Ok. apply bool_decide_eq_false in H1.
  rewrite int32_small by lia. set (e1 := set_maxOpenConns n e) in *.
  assert (gates_open e1) as Hg1 by apply (i_gates e He).
  assert (∀ i, shard_at (run_writes (pin_writes Log Exp overflow n e) e1) i =
    foldl (apply_view i) (shard_at e i) (pin_writes Log Exp overflow n e)) as Hat.
  { intros i. by rewrite shard_at_run. }
  split; [|done]. pose proof (run_frame (pin_writes Log Exp overflow n e) e1) as Hf. set (e2 := run_writes _ e1) in *.
  destruct (i_crew e He) as (c & Hc & Hor). assert (crew e1 = Some c) as Hc1 by done.
  assert (shared e2 = if workersSet e then shared e else (int32 (ceiling e1), lastApplied e, Some (with_max (ceiling e1) c))) as Hsh.
  { subst e2. unfold pin_writes. rewrite int32_small by lia. fold e1. rewrite (i_started e He).
    destruct (i_gates e He) as (g & Hg & _). rewrite Hg. rewrite !run_writes_app.
    rewrite (run_shared (_ <$> _)) by by apply family_elsewhere.
    set (e3 := run_writes (_ <$> _) (run_writes (_ <$> _) e1)).
    assert (shared e3 = shared e1) as Hs3.
    { subst e3. rewrite !run_shared; [done|by apply family_elsewhere|by apply family_elsewhere]. }
    injection Hs3 as Hw3 Hl3 Hc3. rewrite Hc in Hc3.
    assert (frame e1 e3) as Hf3 by (eapply frame_trans; apply run_frame).
    assert (recomputeWorkerCeilingWith Log Exp overflow e1 (slots_by e1) = recomputeWorkerCeilingWith Log Exp overflow e3 (slots_by e1)) as ->.
    { unfold recomputeWorkerCeilingWith. by rewrite (fr_facts _ _ Hf3), (fr_pin _ _ Hf3), (fr_set _ _ Hf3), Hc1, Hc3. }
    rewrite (ceiling_shared e3 _ c Hc3). rewrite (fr_facts _ _ Hf3), (fr_pin _ _ Hf3), (fr_set _ _ Hf3).
    unfold shared. by rewrite Hw3, Hl3, Hc3, Hc. }
  apply mkInv; rewrite ?(fr_facts _ _ Hf), ?(fr_pin _ _ Hf), ?(fr_started _ _ Hf), ?(fr_set _ _ Hf); try by apply He.
  - subst e1. cbn. lia.
  - by apply run_gates.
  - intros i Hi. destruct (i_sized e He i Hi) as (s0 & d0 & Hl & Hd & Hv).
    set (b0 := (pool (spec_of (facts e) i) (maxOpenConns e) s0 (rtt_of (facts e) i)).2) in *. exists s0, (Z.min n b0). split.
    + destruct (workersSet e); injection Hsh as _ -> _; done.
    + rewrite Hat, pin_at by (done || lia). rewrite Hv. unfold sized, idles in *. cbn [maxOpenConns set_maxOpenConns e1 sv_flag sv_idle sv_pool fmap option_fmap option_map].
      change (facts e1) with (facts e). fold b0 in Hd |- *.
      destruct (pool_open (spec_of (facts e) i) n s0 (rtt_of (facts e) i)) as (_ & -> & _); [|lia]. cbn [fst snd]. split; [lia|done].
  - intros i Hi. apply (i_keys e He). destruct (workersSet e); by injection Hsh as _ <- _.
  - destruct (workersSet e) eqn:Hset.
    + injection Hsh as _ _ ->. exists c. split; [done|]. intros H. cbn in H. congruence.
    + injection Hsh as Hw Hl ->. eexists. split; [done|]. intros _.
      pose proof (ceiling_pos (facts e) n (slots_by e1)) as Hpos. assert (ceiling e1 = ceiling_of Log Exp overflow (facts e) n (slots_by e1)) as Hce by done.
      rewrite Hce in *. rewrite Hw, with_max_max, Z.max_r, int32_small by lia. split; [done|]. exists (slots_by e1).
      split; [done|]. right. split; [cbn; lia|]. intros i Hi. rewrite slotsBy_lookup by apply (i_nodup e He).
      rewrite bool_decide_eq_true_2 by done. cbn. apply slotsOn_pinned; [exact (Inv_positive e He Hset)|cbn; lia].
Qed.

(** ** Startup *)

Definition startup_writes (e : Engine) (idx : Z) : list write :=
  let slots := slots_on e idx (spec_of (facts e) idx) in
  let q := pool (spec_of (facts e) idx) (maxOpenConns e) slots (rtt_of (facts e) idx) in
  [WFlag idx (bool_decide (0 < slots)); WOpenConns idx q.2; WIdleConns idx q.1; WTurns idx (turnstilePassesPerConn * q.2)].

Lemma startup_shard_eq e idx : startup_shard Log Exp overflow e idx =
  let e' := run_writes (startup_writes e idx) e in
  set_lastApplied (<[idx := slots_on e idx (spec_of (facts e) idx)]> (lastApplied e')) e'.
Proof. unfold startup_shard, startup_writes. by destruct (pool _ _ _ _). Qed.

Lemma startup_shard_one e idx : gates_open e → let e' := startup_shard Log Exp overflow e idx in
  frame e e' ∧ gates_open e' ∧ workers e' = workers e ∧ crew e' = crew e
  ∧ lastApplied e' = <[idx := slots_on e idx (spec_of (facts e) idx)]> (lastApplied e)
  ∧ ∀ i, shard_at e' i = if bool_decide (i = idx) then foldl (apply_view i) (shard_at e i) (startup_writes e idx) else shard_at e i.
Proof.
  intros Hg e'. subst e'. rewrite startup_shard_eq. cbv zeta. set (e1 := run_writes _ e).
  assert (workers e1 = workers e ∧ lastApplied e1 = lastApplied e ∧ crew e1 = crew e) as (Hw & _ & Hc) by done.
  pose proof (run_frame (startup_writes e idx) e) as Hf. pose proof (run_gates (startup_writes e idx) e Hg) as Hg1.
  split_and!; [|exact Hg1|exact Hw|exact Hc|done|].
  - eapply frame_trans; [exact Hf|by constructor].
  - intros i. transitivity (shard_at e1 i); [done|]. subst e1. rewrite shard_at_run by done. case_bool_decide as Hi; [done|].
    apply view_elsewhere. unfold startup_writes.
    repeat first [by apply Forall_nil|apply Forall_cons; split; [by apply bool_decide_eq_false_2|]].
Qed.

Lemma startup_shards l e : NoDup l → gates_open e → let e' := foldl (startup_shard Log Exp overflow) e l in
  frame e e' ∧ gates_open e' ∧ workers e' = workers e ∧ crew e' = crew e
  ∧ (∀ i, lastApplied e' !! i = if bool_decide (i ∈ l) then Some (slots_on e i (spec_of (facts e) i)) else lastApplied e !! i)
  ∧ ∀ i, shard_at e' i = if bool_decide (i ∈ l) then foldl (apply_view i) (shard_at e i) (startup_writes e i) else shard_at e i.
Proof.
  revert e. induction l as [|j l IH]; intros e Hnd Hg; [by repeat split|]. apply NoDup_cons in Hnd as [Hj Hnd].
  cbn [foldl]. destruct (startup_shard_one e j Hg) as (Hf & Hg1 & Hw & Hc & Hl & Hv). set (e1 := startup_shard _ _ _ e j) in *.
  destruct (IH e1 Hnd Hg1) as (Hf' & Hg' & Hw' & Hc' & Hl' & Hv'). cbv zeta. set (e2 := foldl _ e1 l) in *.
  assert (zeroWorkers e1 = zeroWorkers e) as Hz by (unfold zeroWorkers; by rewrite Hw).
  assert (∀ i, startup_writes e1 i = startup_writes e i) as Hsw.
  { intros i. unfold startup_writes. by rewrite (fr_facts _ _ Hf), (fr_pin _ _ Hf), (slotsOn_frame e e1). }
  split_and!; [by eapply frame_trans|done|congruence|congruence| |].
  - intros i. rewrite Hl', Hl, (fr_facts _ _ Hf), (slotsOn_frame e e1) by done. destruct (decide (i = j)) as [->|Hne].
    + rewrite (bool_decide_eq_false_2 (j ∈ l)), (bool_decide_eq_true_2 (j ∈ j :: l)) by set_solver. by rewrite lookup_insert_eq.
    + rewrite lookup_insert_ne by done. by rewrite (bool_decide_ext (i ∈ j :: l) (i ∈ l)) by set_solver.
  - intros i. rewrite Hv', Hv, Hsw. destruct (decide (i = j)) as [->|Hne].
    + rewrite (bool_decide_eq_false_2 (j ∈ l)), (bool_decide_eq_true_2 (j ∈ j :: l)) by set_solver. by rewrite bool_decide_eq_true_2.
    + rewrite (bool_decide_eq_false_2 (i = j)) by done. by rewrite (bool_decide_ext (i ∈ j :: l) (i ∈ l)) by set_solver.
Qed.

(** The pistons [initRuntime] builds. *)
Definition build_piston (e : Engine) (idx : Z) : Engine :=
  SetIdle idx (zeroWorkers e || negb (dispatchesOn e idx))
    (set_pistons (<[idx := mkPiston false fresh_pacer fresh_pacer]> (pistons e)) e).

Lemma build_one e idx : gates_open e → let e' := build_piston e idx in
  frame e e' ∧ gates_open e' ∧ shared e' = shared e
  ∧ ∀ i, shard_at e' i = if bool_decide (i = idx)
      then mkShard (pools e !! i) (dispatchFlag e i) (sv_turns (shard_at e i)) (Some (zeroWorkers e || negb (dispatchesOn e i)))
      else shard_at e i.
Proof.
  intros Hg e'. subst e'. unfold build_piston. set (b := _ || _). set (e1 := set_pistons _ e).
  split_and!.
  - eapply frame_trans; [|apply (apply_frame e1 (WPistonIdle idx b))]. by constructor.
  - by apply (apply_gates e1 (WPistonIdle idx b)).
  - by apply (apply_shared e1 (WPistonIdle idx b)).
  - intros i. rewrite shard_at_SetIdle. unfold apply_view, concerns. destruct (decide (idx = i)) as [->|Hne].
    + rewrite !bool_decide_eq_true_2 by done. cbn. rewrite lookup_insert_eq. done.
    + rewrite !bool_decide_eq_false_2 by done. unfold shard_at. cbn. by rewrite lookup_insert_ne.
Qed.

Lemma build_pistons l e : NoDup l → gates_open e → let e' := foldl build_piston e l in
  frame e e' ∧ gates_open e' ∧ shared e' = shared e
  ∧ ∀ i, shard_at e' i = if bool_decide (i ∈ l)
      then mkShard (pools e !! i) (dispatchFlag e i) (sv_turns (shard_at e i)) (Some (zeroWorkers e || negb (dispatchesOn e i)))
      else shard_at e i.
Proof.
  revert e. induction l as [|j l IH]; intros e Hnd Hg; [by repeat split|]. apply NoDup_cons in Hnd as [Hj Hnd].
  cbn [foldl]. destruct (build_one e j Hg) as (Hf & Hg1 & Hs & Hv). set (e1 := build_piston e j) in *.
  destruct (IH e1 Hnd Hg1) as (Hf' & Hg' & Hs' & Hv'). cbv zeta. set (e2 := foldl _ e1 l) in *.
  assert (zeroWorkers e1 = zeroWorkers e) as Hz by (injection Hs as Hw _ _; unfold zeroWorkers; by rewrite Hw).
  split_and!; [by eapply frame_trans|done|congruence|]. intros i. rewrite Hv', Hz. pose proof (Hv i) as Hvi. destruct (decide (i = j)) as [->|Hne].
  - rewrite (bool_decide_eq_true_2 (j = j)) in Hvi by done. rewrite (bool_decide_eq_false_2 (j ∈ l)), (bool_decide_eq_true_2 (j ∈ j :: l)) by set_solver. done.
  - rewrite (bool_decide_eq_false_2 (i = j)) in Hvi by done. rewrite (bool_decide_ext (i ∈ j :: l) (i ∈ l)) by set_solver.
    rewrite Hvi. unfold dispatchesOn. assert (dispatchFlag e1 i = dispatchFlag e i ∧ pools e1 !! i = pools e !! i) as [-> ->]; [|done].
    unfold shard_at in Hvi. by injection Hvi.
Qed.

Lemma initRuntime_shape e : NoDup (indices (facts e)) → gates_open e → let e' := initRuntime Log Exp overflow e in
  facts e' = facts e ∧ sonars e' = sonars e ∧ started e' = true ∧ workersSet e' = workersSet e ∧ maxOpenConns e' = maxOpenConns e
  ∧ gates_open e' ∧ workers e' = workers e ∧ lastApplied e' = lastApplied e
  ∧ c_max <$> crew e' = Some (int32 (Z.max 0 (workers e)))
  ∧ ∀ i, i ∈ indices (facts e) → shard_at e' i =
      mkShard (pools e !! i) (dispatchFlag e i) (sv_turns (shard_at e i)) (Some (zeroWorkers e || negb (dispatchesOn e i))).
Proof.
  intros Hnd Hg. unfold initRuntime. set (eB := set_started true _).
  change (foldl _ (set_pistons ∅ eB) (indices (facts eB))) with (foldl build_piston (set_pistons ∅ eB) (indices (facts e))).
  destruct (build_pistons (indices (facts e)) (set_pistons ∅ eB) Hnd) as (Hf & Hg' & Hs & Hv); [exact Hg|].
  set (eC := foldl build_piston _ _) in *. cbv zeta. set (cad := recomputeRefillIntervalsWith _ _ _ eC _).
  pose proof (run_frame cad eC) as Hf'. pose proof (run_gates cad eC Hg') as Hg''.
  assert (shared (run_writes cad eC) = shared eC) as Hs'.
  { apply run_shared. eapply Forall_impl; [apply cadences_quiet|]. by intros w ->. }
  set (eD := run_writes cad eC) in *.
  assert (frame (set_pistons ∅ eB) eD) as HfD by by eapply frame_trans. rewrite Hs in Hs'.
  split_and!; [apply (fr_facts _ _ HfD)|apply (fr_sonars _ _ HfD)|apply (fr_started _ _ HfD)|apply (fr_set _ _ HfD)
    |apply (fr_pin _ _ HfD)|exact Hg''|exact (f_equal (λ x, x.1.1) Hs')|exact (f_equal (λ x, x.1.2) Hs')|done|].
  intros i Hi. transitivity (shard_at eD i); [done|]. subst eD. rewrite shard_at_run by done.
  rewrite view_elsewhere by apply quiet_elsewhere, cadences_quiet. rewrite Hv. by rewrite bool_decide_eq_true_2.
Qed.

Lemma list_to_map_const {A} (x : A) (l : list Z) i : i ∈ l → (list_to_map ((λ j, (j, x)) <$> l) : gmap Z A) !! i = Some x.
Proof.
  induction l as [|j l IH]; [set_solver|]. rewrite fmap_cons. cbn [list_to_map foldr]. intros [->|Hi]%elem_of_cons.
  - by rewrite lookup_insert_eq.
  - destruct (decide (j = i)) as [->|]; [by rewrite lookup_insert_eq|]. rewrite lookup_insert_ne by done. by apply IH.
Qed.

Lemma boot_view f joined e i : i ∈ indices f → let e0 := boot f joined e in
  let slots := slots_on e0 i (spec_of f i) in let q := pool (spec_of f i) (maxOpenConns e) slots (rtt_of f i) in
  0 < q.1 ≤ q.2 →
  foldl (apply_view i) (shard_at e0 i) (startup_writes e0 i) =
    mkShard (Some q) (Some (bool_decide (0 < slots))) (Some (turnstilePassesPerConn * q.2)) (p_idle <$> pistons e !! i).
Proof.
  intros Hi e0 slots q Hq. unfold startup_writes. change (facts e0) with f. change (maxOpenConns e0) with (maxOpenConns e).
  fold slots. fold q. unfold shard_at, dispatchFlag. cbn [foldl pools flags turnstiles pistons e0 boot].
  rewrite list_to_map_const by done. cbn [mbind option_bind]. rewrite list_to_map_const by done.
  unfold apply_view, concerns. rewrite bool_decide_eq_true_2 by done. cbn [negb fmap option_fmap option_map].
  rewrite pool_open_then_idle by done. destruct q as [a b]. cbn in Hq |- *. do 2 f_equal. unfold turnstilePassesPerConn. lia.
Qed.

Lemma Startup_settles f joined e : NoDup (indices f) → (∀ i, is_Some (rtts f !! i) → i ∈ indices f) →
  (∀ i, is_Some (lastApplied e !! i) → i ∈ indices f) → 0 ≤ maxOpenConns e → testConnCap f = 0 → (workersSet e = false → workers e ≠ 0) →
  ceiling (boot f joined e) < 2 ^ 31 →
  let e' := Startup_sizes Log Exp overflow f joined e in settled e' ∧ Inv e'.
Proof.
  intros Hnd Hr Hkeys Hpin Hcap Hwk. unfold Startup_sizes. set (e0 := boot f joined e). intros Hfit.
  assert (gates_open e0) as Hg0 by by exists NewSet.
  destruct (startup_shards (indices f) e0 Hnd Hg0) as (Hf & Hg1 & Hw1 & Hc1 & Hl1 & Hv1).
  set (e1 := foldl (startup_shard Log Exp overflow) e0 (indices f)) in *. cbv zeta.
  set (e2 := set_workersDispatch _ e1). set (e3 := run_writes (recomputeWorkerCeilingWith Log Exp overflow e2 (slots_by e2)) e2).
  assert (crew e2 = None) as Hc2 by exact Hc1.
  assert (workers e3 = if workersSet e then workers e else int32 (ceiling e2)) as Hw3.
  { subst e3. unfold recomputeWorkerCeilingWith. rewrite Hc2. change (workersSet e2) with (workersSet e1). rewrite (fr_set _ _ Hf).
    change (workersSet e0) with (workersSet e). destruct (workersSet e); [exact Hw1|done]. }
  assert (lastApplied e3 = lastApplied e1) as Hl3 by (subst e3; unfold recomputeWorkerCeilingWith; rewrite Hc2; by destruct (workersSet e2)).
  assert (frame e1 e3) as Hf3 by (eapply frame_trans; [|apply run_frame]; by constructor).
  assert (frame e0 e3) as Hf03 by by eapply frame_trans.
  assert (gates_open e3) as Hg3 by by apply run_gates.
  assert (∀ i, shard_at e3 i = shard_at e1 i) as Hv3.
  { intros i. subst e3. rewrite shard_at_run by done. by rewrite view_elsewhere by apply ceiling_elsewhere. }
  destruct (initRuntime_shape e3) as (Ef & Es & Est & Ew & Ep & Hg4 & Hw4 & Hl4 & Hc4 & Hv4);
    [rewrite (fr_facts _ _ Hf03); exact Hnd|exact Hg3|]. set (e4 := initRuntime Log Exp overflow e3) in *.
  rewrite (fr_facts _ _ Hf03) in Ef, Hv4. rewrite (fr_sonars _ _ Hf03) in Es. rewrite (fr_set _ _ Hf03) in Ew. rewrite (fr_pin _ _ Hf03) in Ep.
  change (facts e0) with f in Ef, Hv4. change (sonars e0) with joined in Es. change (workersSet e0) with (workersSet e) in Ew.
  change (maxOpenConns e0) with (maxOpenConns e) in Ep.
  assert (∀ e5 : Engine, facts e5 = f → sonars e5 = joined → maxOpenConns e5 = maxOpenConns e → zeroWorkers e5 = zeroWorkers e0 →
    (∀ i spec, slots_on e5 i spec = slots_on e0 i spec) ∧ slots_by e5 = slots_by e0) as Hslots.
  { intros e5 H1 H2 H3 H4. assert (∀ i spec, slots_on e5 i spec = slots_on e0 i spec) as H5.
    { intros i spec. unfold slotsOn. by rewrite H2, H3, H4. }
    split; [exact H5|]. unfold slotsByShard. rewrite H1. f_equal. apply list_fmap_ext. intros _ i _. by rewrite H5. }
  assert (zeroWorkers e2 = zeroWorkers e0) as Hz2 by (unfold zeroWorkers; by rewrite <-Hw1).
  destruct (Hslots e2) as [_ Hby2]; [apply (fr_facts _ _ Hf)|apply (fr_sonars _ _ Hf)|apply (fr_pin _ _ Hf)|exact Hz2|].
  assert (ceiling e2 = ceiling e0) as Hce2.
  { rewrite Hby2. change (facts e2) with (facts e1). change (maxOpenConns e2) with (maxOpenConns e1).
    by rewrite (fr_facts _ _ Hf), (fr_pin _ _ Hf). }
  pose proof (ceiling_pos (facts e0) (maxOpenConns e0) (slots_by e0)) as Hpos.
  rewrite Hce2, int32_small in Hw3 by lia.
  assert (zeroWorkers e3 = zeroWorkers e0) as Hz3.
  { unfold zeroWorkers. rewrite Hw3. change (workers e0) with (workers e). destruct (workersSet e) eqn:Hset; [done|].
    specialize (Hwk eq_refl). rewrite !bool_decide_eq_false_2 by lia. done. }
  assert (zeroWorkers e4 = zeroWorkers e0) as Hz4 by (unfold zeroWorkers; rewrite Hw4; exact Hz3).
  destruct (Hslots e4 Ef Es Ep Hz4) as [Hso4 Hby4].
  assert (settled e4) as Hset.
  { constructor; rewrite ?Ef, ?Ep, ?Ew, ?Hby4.
    - intros i Hi slots. subst slots. rewrite Hso4, Hv4 by done. pose proof (Hv3 i) as Hvi. rewrite Hv1, bool_decide_eq_true_2 in Hvi by done.
      pose proof (boot_view f joined e i Hi) as Hb. cbv zeta in Hb. fold e0 in Hb. pose proof (λ slots, pool_bounds _ Hpin (spec_of f i) slots (rtt_of f i)) as Hq.
      rewrite Hb in Hvi by apply Hq. clear Hb. exists (pool (spec_of f i) (maxOpenConns e) (slots_on e0 i (spec_of f i)) (rtt_of f i)).1.
      split; [split; [apply Hq|by intros ->]|].
      pose proof (f_equal sv_pool Hvi) as H1. pose proof (f_equal sv_flag Hvi) as H2. pose proof (f_equal sv_turns Hvi) as H3.
      cbn [sv_pool sv_flag sv_turns shard_at] in H1, H2. unfold dispatchesOn. rewrite H1, H2, H3, Hz3. unfold sized. cbn [sv_turns default].
      rewrite <-surjective_pairing. f_equal. f_equal. pose proof (slotsOn_nonneg e0 i (spec_of f i)). destruct (zeroWorkers e0) eqn:Hz0.
      + rewrite slotsOn_zero by done. done.
      + cbn [orb]. case_bool_decide; [rewrite bool_decide_eq_false_2 by lia|rewrite bool_decide_eq_true_2 by lia]; done.
    - apply map_eq. intros i. rewrite Hl4, Hl3, Hl1, slotsBy_lookup by done. change (facts e0) with f. case_bool_decide; [done|].
      apply eq_None_not_Some. intros Hk. by apply Hkeys in Hk.
    - intros Hs. rewrite Hs in Hw3. change (facts e0) with f in Hw3, Hpos, Hfit.
      change (maxOpenConns e0) with (maxOpenConns e) in Hw3, Hpos, Hfit. rewrite Hc4, Hw4, Hw3. split; [done|].
      by rewrite Z.max_r, int32_small by lia. }
  split; [done|]. apply settled_Inv; rewrite ?Ef, ?Ep; try done.
Qed.

(** ** Runs *)

(** What the reconcile loop and the live setters do, as writes. *)
Inductive op := OReconcile | OPin (n : Z) | OInterval (d : Z).

Definition op_writes (o : op) (e : Engine) : list write :=
  match o with
  | OReconcile => recomputePools Log Exp overflow e
  | OPin n => if bool_decide (n < 1) then [] else pin_writes Log Exp overflow n e
  | OInterval d => let e := set_refillOverride d e in
      if started e then recomputeRefillIntervalsWith Log Exp overflow e (slots_by e) else []
  end.

Definition op_start (o : op) (e : Engine) : Engine :=
  match o with
  | OReconcile => e
  | OPin n => if bool_decide (n < 1) then e else set_maxOpenConns (int32 n) e
  | OInterval d => set_refillOverride d e
  end.

Definition op_run (o : op) (e : Engine) : Engine := run_writes (op_writes o e) (op_start o e).

Lemma op_run_is o e : match o with
  | OReconcile => op_run o e = recompute Log Exp overflow e
  | OPin n => SetMaxOpenConns Log Exp overflow n e = if bool_decide (n < 1) then Err ErrBadConns else Ok (op_run o e)
  | OInterval d => op_run o e = SetRefillInterval Log Exp overflow d e
  end.
Proof.
  destruct o as [|n|d]; [done| |].
  - unfold SetMaxOpenConns, op_run, op_writes, op_start. by destruct (bool_decide (n < 1)).
  - unfold op_run, op_writes, op_start, SetRefillInterval. cbn. by destruct (started e).
Qed.

(** A pin and the ceilings it leads to are numbers of an [int32]. *)
Definition fits (o : op) (e : Engine) : Prop :=
  match o with
  | OReconcile => ceiling e < 2 ^ 31
  | OPin n => n < 2 ^ 31 ∧ (1 ≤ n → ceiling (set_maxOpenConns n e) < 2 ^ 31)
  | OInterval _ => True
  end.

(** The engines that come of one that started. *)
Inductive runs (e0 : Engine) : Engine → Prop :=
| runs_start : runs e0 e0
| runs_op o e : runs e0 e → fits o e → runs e0 (op_run o e)
| runs_observe i s e : runs e0 e → runs e0 (set_sonars (<[i := s]> (sonars e)) e)
| runs_outside e e' : runs e0 e → outside e e' → runs e0 e'.

Lemma recompute_frame e : frame e (recompute Log Exp overflow e).
Proof. apply run_frame. Qed.

Lemma recompute_crew e : Inv e → is_Some (crew (recompute Log Exp overflow e)).
Proof.
  intros He. unfold recompute. destruct (i_crew e He) as (c & Hc & _). assert (is_Some (crew e)) as Hs by by exists c.
  clear c Hc He. generalize (recomputePools Log Exp overflow e). intros ws. revert e Hs.
  induction ws as [|w ws IH]; intros e Hs; [done|]. rewrite run_writes_cons. apply IH. destruct w; try done; cbn [apply].
  - unfold SetIdle. destruct (pistons e !! shard); [|done]. by destruct idle.
  - cbn. by destruct Hs as [c ->].
Qed.

Lemma op_Inv o e : Inv e → fits o e → Inv (op_run o e).
Proof.
  intros He Hfit. destruct o as [|n|d].
  - pose proof (recompute_settles e He Hfit) as Hs. pose proof (recompute_frame e) as Hf. change (op_run OReconcile e) with (recompute Log Exp overflow e).
    apply settled_Inv; rewrite ?(fr_facts _ _ Hf), ?(fr_pin _ _ Hf), ?(fr_started _ _ Hf); try by apply He.
    + by apply run_gates, He.
    + by apply recompute_crew.
    + done.
  - pose proof (op_run_is (OPin n) e : SetMaxOpenConns Log Exp overflow n e = _) as H.
    destruct Hfit as [Hn Hc]. destruct (decide (n < 1)) as [Hlt|Hlt].
    + unfold op_run, op_writes, op_start. rewrite !(bool_decide_eq_true_2 (n < 1)) by done. exact He.
    + rewrite (bool_decide_eq_false_2 (n < 1)) in H by done. apply (pin_Inv n e); [done|done|apply Hc; lia|exact H].
  - assert (outside (set_refillOverride d e) (op_run (OInterval d) e)) as Ho.
    { unfold op_run, op_writes, op_start. cbn [started set_refillOverride]. rewrite (i_started e He).
      set (e1 := set_refillOverride d e). set (ws := recomputeRefillIntervalsWith _ _ _ _ _).
      assert (gates_open e1) as Hg by apply (i_gates e He).
      assert (Forall (λ w, quiet w = true) ws) as Hq by apply cadences_quiet.
      assert (shared (run_writes ws e1) = shared e1) as Hsh by (apply run_shared; eapply Forall_impl; [exact Hq|]; by intros w ->).
      constructor; [apply run_frame| |exact (f_equal (λ x, x.1.1) Hsh)|exact (f_equal (λ x, x.1.2) Hsh)
        |exact (f_equal (λ x, c_max <$> x.2) Hsh)|by apply run_gates].
      intros i. rewrite shard_at_run by done. by apply view_elsewhere, quiet_elsewhere. }
    eapply outside_Inv; [|exact Ho]. destruct He. by constructor.
Qed.

Lemma runs_Inv e0 e : Inv e0 → runs e0 e → Inv e.
Proof.
  intros H0. induction 1 as [|o e _ IH Hf|i s e _ IH|e e' _ IH Ho]; [done|by apply op_Inv| |by eapply outside_Inv].
  destruct IH. by constructor.
Qed.

(** ** No shard is dispatched through a pool sized for reading *)

(** The pool of a shard whose doorbell rings is one that a dispatcher's role gave it, of the overrides and the roles
    there are. *)
Section feeding.
Context (pins roles : list Z).

Definition feeds (f : Facts) (i : Z) (v : shard_view) : Prop :=
  sv_flag v = Some true → ∃ pin slots, pin ∈ pins ∧ slots ∈ roles ∧ 0 < slots ∧
    snd <$> sv_pool v = Some (pool (spec_of f i) pin slots (rtt_of f i)).2.

(** A list of writes along which a shard is always fed. *)
Fixpoint fed (f : Facts) (i : Z) (v : shard_view) (ws : list write) : Prop :=
  feeds f i v ∧ match ws with [] => True | w :: ws => fed f i (apply_view i v w) ws end.

Lemma fed_app f i v a b : fed f i v (a ++ b) ↔ fed f i v a ∧ fed f i (foldl (apply_view i) v a) b.
Proof.
  revert v. induction a as [|w a IH]; intros v; cbn [app fed foldl].
  - destruct b; cbn; tauto.
  - rewrite IH. tauto.
Qed.

Lemma fed_prefix f i v a b : fed f i v (a ++ b) → feeds f i (foldl (apply_view i) v a).
Proof. rewrite fed_app. intros [_ H]. by destruct b, H. Qed.

Lemma fed_elsewhere f i v ws : Forall (λ w, concerns i w = false) ws → feeds f i v → fed f i v ws.
Proof.
  induction 1 as [|w ws Hw _ IH]; intros Hv; [by split|]. split; [done|].
  assert (apply_view i v w = v) as -> by (unfold apply_view; by rewrite Hw). by apply IH.
Qed.

(** Only the flag and the open connections matter. *)
Lemma feeds_ext f i v v' : sv_flag v' = sv_flag v → snd <$> sv_pool v' = snd <$> sv_pool v → feeds f i v → feeds f i v'.
Proof. unfold feeds. by intros -> ->. Qed.

Lemma feeds_off f i v : sv_flag v ≠ Some true → feeds f i v.
Proof. by intros H Hf. Qed.

Lemma feeds_new f i v pin slots : pin ∈ pins → slots ∈ roles → 0 < slots →
  snd <$> sv_pool v = Some (pool (spec_of f i) pin slots (rtt_of f i)).2 → feeds f i v.
Proof. intros H1 H2 H3 H4 _. by exists pin, slots. Qed.

Lemma feeds_sized f pin i slots d : pin ∈ pins → slots ∈ roles → feeds f i (sized f pin i slots d).
Proof. intros H1 H2. unfold feeds, sized. cbn. intros [= H]. exists pin, slots. apply bool_decide_eq_true in H. done. Qed.

Lemma block_fed e obs i s0 d0 : let slots := default 0 (obs !! i) in maxOpenConns e ∈ pins → s0 ∈ roles → slots ∈ roles →
  0 ≤ maxOpenConns e → 0 ≤ slots →
  fed (facts e) i (sized (facts e) (maxOpenConns e) i s0 d0) (shard_writes Log Exp overflow e obs i).
Proof.
  intros slots Hp Hs0 Hsl Hpin Hs. pose proof (feeds_sized (facts e) (maxOpenConns e) i s0 d0 Hp Hs0) as H0.
  unfold shard_writes, applyRole. fold slots.
  assert (∀ j : Z, bool_decide (j = j) = true) as Hii by (intros j; by apply bool_decide_eq_true_2).
  destruct (decide (slots = 0)) as [Hz|Hz]; [rewrite (bool_decide_eq_true_2 (slots = 0)), (bool_decide_eq_false_2 (0 < slots)) by lia
    |rewrite (bool_decide_eq_false_2 (slots = 0)), (bool_decide_eq_true_2 (0 < slots)) by lia];
    (destruct (decide (maxOpenConns e ≠ 0)) as [Hn|Hn];
     [rewrite (bool_decide_eq_true_2 (maxOpenConns e ≠ 0)) by done
     |rewrite (bool_decide_eq_false_2 (maxOpenConns e ≠ 0)) by done]).
  - cbn [app fed]. unfold apply_view, concerns. rewrite !Hii. cbn [negb sized].
    repeat (split; [solve [exact H0|by apply feeds_off]|]). done.
  - destruct (pool (spec_of (facts e) i) 0 slots (rtt_of (facts e) i)) as [a b]. destruct (turnstiles e); cbn [app fed];
      unfold apply_view, concerns; rewrite !Hii; cbn [negb sized]; repeat (split; [solve [exact H0|by apply feeds_off]|]); done.
  - cbn [app fed]. unfold apply_view, concerns. rewrite !Hii. cbn [negb sized].
    assert (∀ f t d, feeds (facts e) i (mkShard (Some (d0, (pool (spec_of (facts e) i) (maxOpenConns e) s0 (rtt_of (facts e) i)).2)) f t d)) as Hq.
    { intros f t d. apply (feeds_new _ _ _ (maxOpenConns e) slots); [done|done|lia|]. cbn. do 2 f_equal.
      destruct (pool_open (spec_of (facts e) i) (maxOpenConns e) slots (rtt_of (facts e) i)) as (_ & -> & _); [|lia].
      destruct (pool_open (spec_of (facts e) i) (maxOpenConns e) s0 (rtt_of (facts e) i)) as (_ & -> & _); [done|lia]. }
    repeat (split; [solve [exact H0|apply Hq]|]). done.
  - assert (maxOpenConns e = 0) as Hp0 by lia. rewrite Hp0 in Hp. pose proof (pool_idles (spec_of (facts e) i) slots (rtt_of (facts e) i)) as Hb.
    destruct (pool (spec_of (facts e) i) 0 slots (rtt_of (facts e) i)) as [a b] eqn:Hq. cbn [fst snd] in Hb.
    assert (∀ p f t d, snd <$> p = Some b → feeds (facts e) i (mkShard p f t d)) as Hnew.
    { intros p f t d Hpb. apply (feeds_new _ _ _ 0 slots); [done|done|lia|]. cbn. by rewrite Hpb, Hq. }
    destruct (turnstiles e); cbn [app fed]; unfold apply_view, concerns; rewrite !Hii; cbn [negb sized fmap option_fmap option_map];
      (split; [exact H0|]); repeat (split; [solve [apply Hnew; cbn [fmap option_fmap option_map]; rewrite ?pool_idle_open, pool_open_open; f_equal; lia]|]); done.
Qed.

Lemma fed_blocks e obs i s0 d0 l : let slots := default 0 (obs !! i) in maxOpenConns e ∈ pins → s0 ∈ roles → slots ∈ roles →
  NoDup l → gates_open e → 0 ≤ maxOpenConns e → 0 ≤ slots → (zeroWorkers e = true → slots = 0) →
  idles (facts e) (maxOpenConns e) i s0 d0 →
  fed (facts e) i (sized (facts e) (maxOpenConns e) i s0 d0) (concat (shard_writes Log Exp overflow e obs <$> l)).
Proof.
  intros slots Hpi Hs0 Hsl Hnd Hg Hp Hs Hz. revert s0 d0 Hs0. induction l as [|j l IH]; intros s0 d0 Hs0 Hd; [by split; [apply feeds_sized|]|].
  apply NoDup_cons in Hnd as [Hj Hnd]. rewrite fmap_cons. cbn [concat]. rewrite fed_app.
  destruct (decide (i = j)) as [->|Hne].
  - split; [by apply block_fed|]. destruct (block_sized e obs j s0 d0 slots) as (d & Hd' & _ & ->); [done..|]. by apply IH.
  - pose proof (shard_writes_elsewhere e obs i j Hne) as He. split; [by apply fed_elsewhere, feeds_sized|].
    rewrite view_elsewhere by done. by apply IH.
Qed.

Lemma fed_family f i v (g : Z → write) l : NoDup l → (∀ j, concerns i (g j) = bool_decide (j = i)) →
  feeds f i v → feeds f i (apply_view i v (g i)) → fed f i v (g <$> l).
Proof.
  intros Hnd Hg. revert v. induction l as [|j l IH]; intros v Hv Hv'; [by split|]. apply NoDup_cons in Hnd as [Hj Hnd].
  rewrite fmap_cons. split; [done|]. destruct (decide (j = i)) as [->|Hne].
  - apply fed_elsewhere; [|done]. apply Forall_fmap, Forall_forall. intros k Hk. cbn. rewrite Hg. apply bool_decide_eq_false_2. by intros ->.
  - assert (apply_view i v (g j) = v) as -> by (unfold apply_view; by rewrite Hg, bool_decide_eq_false_2). by apply IH.
Qed.

Lemma pin_fed n e i s0 d0 : NoDup (indices (facts e)) → testConnCap (facts e) = 0 → 1 ≤ n →
  maxOpenConns e ∈ pins → n ∈ pins → s0 ∈ roles →
  fed (facts e) i (sized (facts e) (maxOpenConns e) i s0 d0) (pin_writes Log Exp overflow n e).
Proof.
  intros Hnd Hcap Hn Hp Hp' Hr. pose proof (feeds_sized (facts e) (maxOpenConns e) i s0 d0 Hp Hr) as H0.
  unfold pin_writes, capped. rewrite Hcap, (bool_decide_eq_false_2 (0 < 0 ∧ _)) by lia. set (v0 := sized _ _ _ _ _) in *.
  assert (∀ v, sv_flag v = sv_flag v0 → snd <$> sv_pool v = Some n → feeds (facts e) i v) as Hnew.
  { intros v Hf Hv Hon. rewrite Hf in Hon. unfold v0, sized in Hon. cbn in Hon. injection Hon as Hon. apply bool_decide_eq_true in Hon.
    exists n, s0. rewrite Hv. destruct (pool_open (spec_of (facts e) i) n s0 (rtt_of (facts e) i)) as (_ & -> & _); [done|lia]. }
  assert (∀ v m, sv_flag (apply_view i v (WIdleConns i m)) = sv_flag v ∧ snd <$> sv_pool (apply_view i v (WIdleConns i m)) = snd <$> sv_pool v) as Hidle.
  { intros [[p|] ? ? ?] m; unfold apply_view, concerns; rewrite bool_decide_eq_true_2 by done; by split. }
  assert (∀ v, is_Some (sv_pool v) → sv_flag (apply_view i v (WOpenConns i n)) = sv_flag v ∧
    snd <$> sv_pool (apply_view i v (WOpenConns i n)) = Some n) as Hopen.
  { intros [p ? ? ?] [q Hq]. cbn in Hq. subst p. unfold apply_view, concerns. rewrite bool_decide_eq_true_2 by done. cbn.
    rewrite pool_open_open. split; [done|f_equal; lia]. }
  assert (∀ v m, sv_flag (apply_view i v (WTurns i m)) = sv_flag v ∧ sv_pool (apply_view i v (WTurns i m)) = sv_pool v) as Hturn.
  { intros [? ? ? ?] m. unfold apply_view, concerns. by case_bool_decide. }
  rewrite !fed_app, !family_at by done. set (v1 := if bool_decide _ then apply_view i v0 _ else v0).
  assert (sv_flag v1 = sv_flag v0 ∧ snd <$> sv_pool v1 = snd <$> sv_pool v0) as [Hf1 Hv1] by (subst v1; case_bool_decide; [apply Hidle|done]).
  pose proof (feeds_ext _ _ _ _ Hf1 Hv1 H0) as H1.
  assert (is_Some (sv_pool v1)) as Hs1 by (destruct (sv_pool v1); [by eexists|done]).
  destruct (Hopen v1 Hs1) as [Hf2 Hv2]. rewrite Hf1 in Hf2. pose proof (Hnew _ Hf2 Hv2) as H2.
  split; [|split].
  - apply fed_family; [done|done|done|]. destruct (Hidle v0 n) as [Ha Hb]. by eapply feeds_ext.
  - by apply fed_family.
  - set (v2 := if bool_decide _ then apply_view i v1 _ else v1). assert (feeds (facts e) i v2) as Hv by (subst v2; by destruct (bool_decide _)).
    destruct (started e); [|by split]. rewrite fed_app, view_elsewhere by apply ceiling_elsewhere.
    split; [apply fed_elsewhere; [apply ceiling_elsewhere|done]|]. destruct (turnstiles e); [|by split].
    apply fed_family; [done|done|done|]. destruct (Hturn v2 (turnstilePassesPerConn * n)) as [Ha Hb].
    eapply feeds_ext; [exact Ha|by rewrite Hb|done].
Qed.
End feeding.

(** The overrides and the roles there are while an operation writes: those before it and those it read. *)
Definition pins_during (o : op) (e : Engine) : list Z := [maxOpenConns e; maxOpenConns (op_start o e)].
Definition roles_during (o : op) (e : Engine) (i : Z) : list Z :=
  [default 0 (lastApplied e !! i); slots_on (op_start o e) i (spec_of (facts e) i)].

Lemma op_fed o e i : Inv e → fits o e → i ∈ indices (facts e) →
  fed (pins_during o e) (roles_during o e i) (facts e) i (shard_at (op_start o e) i) (op_writes o e).
Proof.
  intros He Hfit Hi. destruct (i_sized e He i Hi) as (s0 & d0 & Hl & Hd0 & Hv). unfold pins_during, roles_during. rewrite Hl. cbn [default from_option id].
  set (P := [maxOpenConns e; _]). set (R := [s0; _]).
  assert (maxOpenConns e ∈ P ∧ s0 ∈ R) as [HP HR] by (subst P R; set_solver).
  pose proof (feeds_sized P R (facts e) (maxOpenConns e) i s0 d0 HP HR) as H0.
  assert (∀ v ws, feeds P R (facts e) i v → Forall (λ w, quiet w = true) ws → fed P R (facts e) i v ws) as Hquiet.
  { intros v ws H Hq. by apply fed_elsewhere; [apply quiet_elsewhere|]. }
  destruct o as [|n|d]; cbn [op_start op_writes] in *.
  - rewrite Hv. unfold recomputePools. rewrite (i_started e He). cbn [negb].
    destruct (unchanged e (slots_by e)); [apply Hquiet; [done|apply checks_quiet]|].
    assert (default 0 (slots_by e !! i) = slots_on e i (spec_of (facts e) i)) as Hd.
    { rewrite slotsBy_lookup by apply He. by rewrite bool_decide_eq_true_2. }
    assert (slots_on e i (spec_of (facts e) i) ∈ R) as HR' by (subst R; set_solver).
    set (n := Z.min _ _). fold (pushes e (slots_by e) n). rewrite fed_app. split.
    + unfold pushes. rewrite !fed_app. split; [apply Hquiet; [done|apply checks_quiet]|].
      rewrite (view_elsewhere i (fleet_checks _ _ _ _)) by apply quiet_elsewhere, checks_quiet.
      rewrite (view_elsewhere i [WApplied _]) by by repeat constructor.
      split; [apply fed_elsewhere; [by repeat constructor|done]|]. split.
      * apply fed_blocks; [done|done|by rewrite Hd|apply He|apply He|apply He|rewrite Hd; apply slotsOn_nonneg|rewrite Hd; apply slotsOn_zero|done].
      * rewrite blocks_at by apply He. rewrite bool_decide_eq_true_2 by done.
        destruct (block_sized e (slots_by e) i s0 d0 (slots_on e i (spec_of (facts e) i))) as (d & _ & _ & ->);
          [apply He|apply He|done|apply slotsOn_nonneg|apply slotsOn_zero|done|].
        apply Hquiet; [by apply feeds_sized|by repeat constructor].
    + rewrite <-Hv, <-shard_at_run by apply He. destruct (pushes_at e n i He Hi) as (d & _ & _ & ->). apply fed_elsewhere; [|by apply feeds_sized].
      apply Forall_app. split; [apply quiet_elsewhere, cadences_quiet|apply ceiling_elsewhere].
  - case_bool_decide; [rewrite Hv; by split|]. destruct Hfit as [Hfit _].
    change (shard_at (set_maxOpenConns (int32 n) e) i) with (shard_at e i). rewrite Hv.
    apply pin_fed; [apply He|apply He|lia|done|subst P; cbn; rewrite int32_small by lia; set_solver|done].
  - change (shard_at (set_refillOverride d e) i) with (shard_at e i). rewrite Hv. cbn [started set_refillOverride].
    rewrite (i_started e He). apply fed_elsewhere; [apply quiet_elsewhere, cadences_quiet|done].
Qed.

(** What a start is given: the shards opened are distinct, only they are probed or have a role from an earlier run,
    no pin below one was accepted, the test mode is off, and the crew's default is not zero. *)
Record startable (f : Facts) (joined : gmap Z Sonar) (e : Engine) : Prop := mkStartable {
  st_nodup : NoDup (indices f);
  st_rtts : ∀ i, is_Some (rtts f !! i) → i ∈ indices f;
  st_applied : ∀ i, is_Some (lastApplied e !! i) → i ∈ indices f;
  st_pin : 0 ≤ maxOpenConns e;
  st_cap : testConnCap f = 0;
  st_workers : workersSet e = false → workers e ≠ 0;
  st_fits : ceiling (boot f joined e) < 2 ^ 31
}.

Lemma started_Inv f joined e0 e : startable f joined e0 → runs (Startup_sizes Log Exp overflow f joined e0) e → Inv e.
Proof. intros [] Hr. eapply runs_Inv; [|exact Hr]. by apply Startup_settles. Qed.

(** ** Pools under an override *)

Definition sizes_pool (w : write) : bool := match w with WOpenConns _ _ | WIdleConns _ _ => true | _ => false end.

Lemma run_pools ws e : Forall (λ w, sizes_pool w = false) ws → pools (run_writes ws e) = pools e.
Proof.
  intros H. revert e. induction H as [|w ws Hw _ IH]; intros e; [done|]. rewrite run_writes_cons, IH.
  destruct w; try done. cbn [apply]. unfold SetIdle. destruct (pistons e !! shard); [|done]. by destruct idle.
Qed.

Lemma quiet_pools ws : Forall (λ w, quiet w = true) ws → Forall (λ w, sizes_pool w = false) ws.
Proof. intros H. eapply Forall_impl; [exact H|]. by intros []. Qed.

(** A tick pushes no pool under an override. *)
Lemma recompute_pinned e : maxOpenConns e ≠ 0 → pools (recompute Log Exp overflow e) = pools e.
Proof.
  intros Hp. apply run_pools. unfold recomputePools. destruct (started e); cbn [negb]; [|constructor].
  pose proof (quiet_pools _ (checks_quiet e)) as Hc. destruct (unchanged e (slots_by e)); [done|].
  repeat (apply Forall_app; split); try done; try by repeat constructor.
  - apply Forall_concat, Forall_fmap, Forall_forall. intros i _. cbn. unfold shard_writes, applyRole.
    rewrite (bool_decide_eq_true_2 (_ ≠ 0)) by done. repeat case_bool_decide; by repeat constructor.
  - apply quiet_pools, cadences_quiet.
  - unfold recomputeWorkerCeilingWith. destruct (workersSet _); [constructor|]. destruct (crew _); by repeat constructor.
Qed.

(** A live pin raises the open connections of a pool and leaves its idle ones within the open ones from before; no
    tick raises them later. *)
Lemma live_pin_keeps_the_old_idle n e e' i p : Inv e → fits (OPin n) e → i ∈ indices (facts e) → pools e !! i = Some p →
  SetMaxOpenConns Log Exp overflow n e = Ok e' →
  pools e' !! i = Some (Z.min n p.2, n) ∧ pools (recompute Log Exp overflow e') = pools e'.
Proof.
  intros He [Hn Hc] Hi Hp H. assert (1 ≤ n) as H1.
  { unfold SetMaxOpenConns in H. apply check_Ok in H as [H _]. apply bool_decide_eq_false in H. lia. }
  destruct (pin_Inv n e e' He Hn (Hc H1) H) as [He' Hat]. split.
  - specialize (Hat i). rewrite pin_at in Hat by (done || lia). apply (f_equal sv_pool) in Hat. cbn in Hat. by rewrite Hat, Hp.
  - apply recompute_pinned. unfold SetMaxOpenConns in H. apply check_Ok in H as [_ [= <-]].
    rewrite (fr_pin _ _ (run_frame _ _)). cbn. rewrite int32_small by lia. lia.
Qed.

(** ** The cache *)

Definition resizes (w : write) : bool := match w with WCache _ => true | _ => false end.
Definition cache_bound (e : Engine) : nat * bool := (Capacity (cache e), Candidates.closed (cache e)).

Lemma apply_bound e w : resizes w = false → cache_bound (apply e w) = cache_bound e.
Proof.
  destruct w; try done. intros _. cbn [apply]. unfold SetIdle. destruct (pistons e !! shard); [|done]. destruct idle; [|done].
  unfold cache_bound, Capacity. cbn. unfold Candidates.Refill. destruct (Candidates.closed (cache e)) eqn:Hc; cbn; by rewrite ?Hc.
Qed.

Lemma run_bound ws e : Forall (λ w, resizes w = false) ws → cache_bound (run_writes ws e) = cache_bound e.
Proof.
  intros H. revert e. induction H as [|w ws Hw _ IH]; intros e; [done|]. rewrite run_writes_cons, IH. by apply apply_bound.
Qed.

Lemma no_resize ws : Forall (λ w, resizes w = false) ws → ∀ e, cache_bound (run_writes ws e) = cache_bound e.
Proof. intros H e. by apply run_bound. Qed.

Lemma checks_resize e : Forall (λ w, resizes w = false) (fleet_checks Log Exp overflow e).
Proof.
  unfold fleet_checks. case_bool_decide; [|constructor]. apply Forall_concat, Forall_fmap, Forall_forall. intros i _. cbn.
  unfold checkFleetFits. case_bool_decide; [constructor|]. case_bool_decide; [constructor|by repeat constructor].
Qed.

Lemma cadences_resize e m : Forall (λ w, resizes w = false) (recomputeRefillIntervalsWith Log Exp overflow e m).
Proof.
  unfold recomputeRefillIntervalsWith. apply Forall_concat, Forall_fmap, Forall_forall. intros kv _. cbn.
  case_bool_decide; [by repeat constructor|]. case_bool_decide; [constructor|by repeat constructor].
Qed.

Lemma ceiling_resize e m : Forall (λ w, resizes w = false) (recomputeWorkerCeilingWith Log Exp overflow e m).
Proof. unfold recomputeWorkerCeilingWith. destruct (workersSet e); [constructor|]. destruct (crew e); by repeat constructor. Qed.

Lemma blocks_resize e obs l : Forall (λ w, resizes w = false) (concat (shard_writes Log Exp overflow e obs <$> l)).
Proof.
  apply Forall_concat, Forall_fmap, Forall_forall. intros i _. eapply Forall_impl; [apply shard_writes_of_shard|]. by intros [].
Qed.

(** A recompute that is not skipped bounds the cache by the connections it dispatches through and by the crew's
    maximum as it was before. *)
Lemma recompute_bound e : started e = true → Candidates.closed (cache e) = false →
  cache_bound (recompute Log Exp overflow e) =
    (if unchanged e (slots_by e) then Capacity (cache e)
     else bound_of (Z.min (dispatch_count (split_conns Log Exp overflow e (slots_by e))) (workers e)), false).
Proof.
  intros Hst Hcl. unfold recompute, recomputePools. rewrite Hst. cbn [negb].
  destruct (unchanged e (slots_by e)).
  { rewrite no_resize by apply checks_resize. unfold cache_bound. by rewrite Hcl. }
  set (n := Z.min _ _). rewrite !run_writes_app.
  rewrite (no_resize (recomputeWorkerCeilingWith _ _ _ _ _)) by apply ceiling_resize.
  rewrite (no_resize (recomputeRefillIntervalsWith _ _ _ _ _)) by apply cadences_resize.
  set (e1 := run_writes (concat _) _).
  assert (cache_bound e1 = cache_bound e) as Hb.
  { subst e1. rewrite (no_resize (concat _)) by apply blocks_resize. rewrite (no_resize [WApplied _]) by by repeat constructor.
    by rewrite no_resize by apply checks_resize. }
  injection Hb as Hsz Hc1. rewrite Hcl in Hc1. rewrite run_writes_cons. change (run_writes [] ?x) with x. cbn [apply].
  unfold cache_bound, Capacity. cbn [cache set_cache]. unfold Candidates.Resize. rewrite Hc1. by case_decide; cbn; rewrite ?Hc1.
Qed.

Lemma ceiling_reader f pin m : (∀ i, default 0 (m !! i) = 0) → ceiling_of Log Exp overflow f pin m = 64.
Proof.
  intros Hm. unfold ceiling_of. assert (tightest Log Exp overflow f pin m (map_to_list (rtts f)) = MaxInt) as ->; [|done].
  induction (map_to_list (rtts f)) as [|[i r] l IH]; [done|]. cbn [tightest]. by rewrite Hm, bool_decide_eq_true_2.
Qed.

Lemma settled_unchanged e : Inv e → settled e → unchanged e (slots_by e) = true.
Proof.
  intros He [_ Ha _]. unfold unchanged. rewrite Ha. rewrite andb_true_iff, forallb_forall. split; [|by apply bool_decide_eq_true_2].
  intros i _. by apply bool_decide_eq_true_2.
Qed.
End sizes.

(** ** Properties *)

(** A replica of the examples: one shard of 64 CPUs and one of a single CPU, both near. *)
Definition demo_facts : Facts :=
  mkFacts [1; 2] {[1 := mkSpec 1 64 false; 2 := mkSpec 2 1 false]} {[1 := dec 3 10; 2 := dec 3 10]} {[1 := 500]} 0.
Definition demo_engine : Engine :=
  mkEngine demo_facts ∅ false 64 false 0 0 ∅ None ∅ ∅ None (mkCache ∅ 0 0 false) (mkPlanner ∅ (-1) 0) ∅ None 0.

(** What a sonar publishes: its rank among the candidates, of as many replicas. *)
Definition demo_reading (shard rank candidates : Z) : Sonar :=
  mkSonar (default_config 7 shard) candidates (rank, candidates) (mkProfile 0 true) (0, -1) 0 0 false None None (0, 1) None.
Definition demo_sonars (rank candidates : Z) : gmap Z Sonar :=
  {[1 := demo_reading 1 rank candidates; 2 := demo_reading 2 rank candidates]}.

(** Between the tabulated tiers only. *)
Abbreviation demo_fun f := (f (λ x : float64, x) (λ x : float64, x) (λ _ : float64, 0)).

Lemma demo_startable rank candidates :
  demo_fun ceiling_of demo_facts 0 (demo_fun slotsByShard (boot demo_facts (demo_sonars rank candidates) demo_engine)) < 2 ^ 31 →
  demo_fun startable demo_facts (demo_sonars rank candidates) demo_engine.
Proof.
  intros H. constructor; [by apply (bool_decide_unpack _); vm_compute| | |done|done|done|exact H].
  - intros i [x Hx]. cbn in Hx. apply lookup_insert_Some in Hx as [[<- _]|[_ Hx]]; [set_solver|].
    apply lookup_singleton_Some in Hx as [<- _]. set_solver.
  - intros i [x Hx]. exfalso. by apply (lookup_empty_Some i x).
Qed.

Section properties.
Context (Log Exp : float64 → float64) (overflow : float64 → Z).


(** C33. No worker is handed a shard through a pool sized for reading.  At every point between two writes of a
    reconcile tick, of a live pin and of a new interval, a shard whose doorbell rings has the open connections of a
    dispatcher: those that the override in force before the operation or after it, and the number of dispatchers
    recorded before it or read by it, give a replica that is one of them. *)
Theorem dispatching_pools_are_fed f joined e0 e o ws1 ws2 i :
  startable Log Exp overflow f joined e0 → runs Log Exp overflow (Startup_sizes Log Exp overflow f joined e0) e →
  fits Log Exp overflow o e → op_writes Log Exp overflow o e = ws1 ++ ws2 → i ∈ indices (facts e) →
  let now := run_writes ws1 (op_start o e) in
  dispatchFlag now i = Some true →
  ∃ pin slots, (pin = maxOpenConns e ∨ pin = maxOpenConns (op_start o e)) ∧
    (lastApplied e !! i = Some slots ∨ slots = slotsOn Log Exp overflow (op_start o e) i (spec_of (facts e) i)) ∧ 0 < slots ∧
    snd <$> pools now !! i = Some (shardPool Log Exp overflow (spec_of (facts e) i) pin slots (rtt_of (facts e) i)).2.
Proof.
  intros Hs Hr Hfit Hw Hi now Hflag. pose proof (started_Inv _ _ _ _ _ _ _ Hs Hr) as He. pose proof (op_fed _ _ _ o e i He Hfit Hi) as Hfed.
  rewrite Hw in Hfed. apply fed_prefix in Hfed. rewrite <-shard_at_run in Hfed.
  - destruct (Hfed Hflag) as (pin & slots & Hpin & Hslots & Hpos & Hpool). exists pin, slots. unfold pins_during, roles_during in *.
    destruct (i_sized _ _ _ e He i Hi) as (s0 & _ & Hl & _). rewrite Hl in Hslots |- *. cbn in Hslots. set_solver.
  - destruct (i_gates _ _ _ e He) as (g & Hg). destruct o as [|n|d]; cbn [op_start]; [by exists g| |by exists g]. case_bool_decide; by exists g.
Qed.

(** The cache does not follow the first promotion.  A replica that dispatched no shard has the fallback maximum of
    64 workers; when the fleet changes and it is promoted, the recompute bounds the cache by that maximum before it
    raises it, and the ticks that follow see no role move.  The cache keeps its minimum size, whatever the
    connections the replica now dispatches through. *)
Theorem promotion_keeps_the_readers_cache e readings :
  Inv Log Exp overflow e → settled Log Exp overflow e → workersSet e = false → Candidates.closed (cache e) = false →
  (∀ i, i ∈ indices (facts e) → slotsOn Log Exp overflow e i (spec_of (facts e) i) = 0) →
  let promoted := set_sonars readings e in
  unchanged promoted (slotsByShard Log Exp overflow promoted) = false →
  fits Log Exp overflow OReconcile promoted →
  let e1 := recompute Log Exp overflow promoted in
  Capacity (cache e1) = 128%nat ∧ Capacity (cache (recompute Log Exp overflow e1)) = 128%nat
  ∧ workers e1 = ceiling_of Log Exp overflow (facts e) (maxOpenConns e) (slotsByShard Log Exp overflow promoted).
Proof.
  intros He Hset Hws Hcl Hzero promoted Hun Hfit e1.
  assert (Inv Log Exp overflow promoted) as Hp by (destruct He; by constructor).
  assert (workers promoted = 64) as Hw.
  { change (workers promoted) with (workers e). destruct (s_ceiling _ _ _ _ Hset Hws) as [-> _]. apply ceiling_reader. intros i.
    rewrite slotsBy_lookup by apply He. case_bool_decide; [by apply Hzero|done]. }
  pose proof (recompute_bound Log Exp overflow promoted (i_started _ _ _ _ Hp) Hcl) as Hb. rewrite Hun, Hw in Hb.
  rewrite Z.min_r in Hb by (unfold dispatch_count; lia). fold e1 in Hb. injection Hb as Hcap Hcl1.
  pose proof (recompute_settles _ _ _ promoted Hp Hfit) as Hs1. pose proof (op_Inv _ _ _ OReconcile promoted Hp Hfit) as He1.
  change (op_run Log Exp overflow OReconcile promoted) with e1 in He1. fold e1 in Hs1.
  pose proof (recompute_bound Log Exp overflow e1 (i_started _ _ _ _ He1) Hcl1) as Hb1.
  rewrite settled_unchanged in Hb1 by done. injection Hb1 as Hcap1 _. split_and!; [by rewrite Hcap|by rewrite Hcap1, Hcap|].
  pose proof (recompute_frame Log Exp overflow promoted) as Hf. fold e1 in Hf.
  destruct (s_ceiling _ _ _ _ Hs1) as [-> _]; [by rewrite (fr_set _ _ Hf)|].
  rewrite (fr_facts _ _ Hf), (fr_pin _ _ Hf). f_equal. apply slotsBy_frame; [done|].
  rewrite (Inv_positive _ _ _ _ Hp) by done. apply (Inv_positive Log Exp overflow); [done|].
  by rewrite (fr_set _ _ Hf).
Qed.
End properties.

(** A replica that reads both shards and is promoted on the larger. *)
Definition demo_reader : Engine := demo_fun Startup_sizes demo_facts (demo_sonars 20 21) demo_engine.
Definition demo_promoted : Engine := set_sonars (<[1 := demo_reading 1 3 4]> (sonars demo_reader)) demo_reader.

Lemma demo_reader_settles : demo_fun settled demo_reader ∧ demo_fun Inv demo_reader.
Proof.
  destruct (demo_startable 20 21) as [H1 H2 H3 H4 H5 H6 H7]; [vm_compute; reflexivity|].
  exact (Startup_settles _ _ _ demo_facts (demo_sonars 20 21) demo_engine H1 H2 H3 H4 H5 H6 H7).
Qed.


(** The promoted shard grows from two connections to the 48 of one of four dispatchers before it is dispatched. *)
Theorem dispatching_pools_are_fed_witness :
  let ws := demo_fun recomputePools demo_promoted in
  let now := run_writes (take 5 ws) demo_promoted in
  pools demo_promoted !! 1 = Some (1, 2) ∧ dispatchFlag demo_promoted 1 = Some false ∧
  pools now !! 1 = Some (24, 48) ∧ dispatchFlag now 1 = Some true ∧
  ∃ pin slots, (pin = 0 ∨ pin = 0) ∧ (lastApplied demo_promoted !! 1 = Some slots ∨ slots = 4) ∧ 0 < slots ∧
    snd <$> pools now !! 1 = Some (demo_fun shardPool (spec_of demo_facts 1) pin slots (rtt_of demo_facts 1)).2.
Proof.
  intros ws now. assert (dispatchFlag now 1 = Some true) as Hf by (vm_compute; reflexivity).
  split; [vm_compute; reflexivity|]. split; [vm_compute; reflexivity|]. split; [vm_compute; reflexivity|]. split; [exact Hf|].
  apply (dispatching_pools_are_fed (λ x, x) (λ x, x) (λ _, 0) demo_facts (demo_sonars 20 21) demo_engine demo_promoted
    OReconcile (take 5 ws) (drop 5 ws) 1).
  - apply demo_startable. vm_compute. reflexivity.
  - apply runs_observe, runs_start.
  - vm_compute. reflexivity.
  - symmetry. apply take_drop.
  - vm_compute. by left.
  - exact Hf.
Defined.

(** The same fleet at a start: the cache has the size its pool asks for. *)
Theorem promotion_keeps_the_readers_cache_witness :
  let readings := <[1 := demo_reading 1 3 4]> (sonars demo_reader) in
  let e1 := demo_fun recompute (set_sonars readings demo_reader) in
  Capacity (cache e1) = 128%nat ∧ Capacity (cache (demo_fun recompute e1)) = 128%nat ∧ workers e1 = 70588
  ∧ Capacity (cache (demo_fun Startup_sizes demo_facts readings demo_engine)) = 768%nat.
Proof.
  intros readings e1. destruct demo_reader_settles as [Hs Hi].
  destruct (promotion_keeps_the_readers_cache (λ x, x) (λ x, x) (λ _, 0) demo_reader readings Hi Hs) as (H1 & H2 & H3).
  - vm_compute. reflexivity.
  - vm_compute. reflexivity.
  - intros i Hin. assert (indices (facts demo_reader) = [1; 2]) as E by (vm_compute; reflexivity). rewrite E in Hin. clear E Hs Hi.
    apply elem_of_cons in Hin as [->|Hin]; [vm_compute; reflexivity|]. apply list_elem_of_singleton in Hin as ->. vm_compute. reflexivity.
  - vm_compute. reflexivity.
  - vm_compute. reflexivity.
  - split; [exact H1|]. split; [exact H2|]. split; [etransitivity; [exact H3|vm_compute; reflexivity]|vm_compute; reflexivity].
Defined.

(** ** The fleet on one shard *)

Section fleet.
Context (Log Exp : float64 → float64) (overflow : float64 → Z).

Lemma weighted_sum (C : list Z) (g : Z → Z) (good : Z → bool) M k : 0 < k →
  (∀ i, i ∈ C → if good i then k * (2 * g i) ≤ M else g i = 2) →
  k * (2 * foldr Z.add 0 (g <$> C)) ≤
    M * Z.of_nat (length (filter (λ i, good i = true) C)) + 4 * k * (Z.of_nat (length C) - Z.of_nat (length (filter (λ i, good i = true) C))).
Proof.
  intros Hk. induction C as [|i C IH]; intros H; [cbn; lia|]. rewrite fmap_cons. cbn [foldr length]. specialize (IH (λ j Hj, H j ltac:(set_solver))).
  pose proof (H i ltac:(set_solver)) as Hi. destruct (good i) eqn:Hg.
  - rewrite filter_cons_True by done. cbn [length]. lia.
  - rewrite filter_cons_False by congruence. lia.
Qed.

Lemma filter_below (k : Z) n : 0 ≤ k →
  Z.of_nat (length (filter (λ r, bool_decide (r < k) = true) (Z.of_nat <$> seq 0 n))) = Z.min k (Z.of_nat n).
Proof.
  intros Hk. induction n as [|n IH]; [cbn; lia|]. rewrite seq_S, fmap_app, filter_app, length_app, Nat2Z.inj_add, IH. cbn [fmap list_fmap Nat.add].
  destruct (decide (Z.of_nat n < k)).
  - rewrite filter_cons_True by by apply bool_decide_eq_true. cbn; lia.
  - rewrite filter_cons_False by by rewrite bool_decide_eq_true. cbn; lia.
Qed.

Lemma count_fmap (f g : Z → bool) (h : Z → Z) (C : list Z) : (∀ i, i ∈ C → f i = g (h i)) →
  length (filter (λ i, f i = true) C) = length (filter (λ r, g r = true) (h <$> C)).
Proof.
  induction C as [|i C IH]; intros H; [done|]. rewrite fmap_cons. specialize (IH (λ j Hj, H j ltac:(set_solver))).
  pose proof (H i ltac:(set_solver)) as Hi. destruct (g (h i)) eqn:Hg.
  - rewrite !filter_cons_True by done. cbn [length]. by rewrite IH.
  - rewrite !filter_cons_False by congruence. done.
Qed.

(** The replicas of one shard's fleet: each has read the same rows, they agree on the shard's CPUs, and [B] bounds
    the budgets they derive from the distance each has probed. *)
Record one_fleet (rows : list peer) (working_of : Z → bool) (shard : Z) (w : windows) (spec : ShardSpec) (B : Z)
    (engines : Z → Engine) : Prop := mkFleet {
  fl_rows : reading_ok w rows;
  fl_some : 0 < Z.of_nat (length (ids (candidate w) rows)) < 2 ^ 53;
  fl_bound : B < 2 ^ 51;
  fl_engine : ∀ i, i ∈ ids (candidate w) rows →
    zeroWorkers (engines i) = false ∧ maxOpenConns (engines i) = 0 ∧ spec_of (facts (engines i)) shard = spec ∧
    shardBudget Log Exp overflow (effectiveVirtualCPUs (VirtualCPUs spec)) (rtt_of (facts (engines i)) shard) ≤ B ∧
    ∃ s, sonars (engines i) !! shard = Some s ∧
      let v := classify rows i (working_of i) shard w in standing s = (v_rank v, v_candidates v)
}.

(** C34. What the replicas hold on one shard between them, none of them under an override.  When they have read one
    registry, exactly as many dispatch the shard as it has slots for; and the pools of them all together
    stay within the shard's budget and half a connection for each dispatcher, or two connections for each dispatcher
    where the budget does not reach that far, and two connections for each of the others. *)
Theorem fleet_shares_the_budget rows working_of shard w spec B engines :
  one_fleet rows working_of shard w spec B engines →
  let C := ids (candidate w) rows in
  let n := Z.of_nat (length C) in
  let slots := dispatcherSlots Log Exp overflow spec n in
  let role i := slotsOn Log Exp overflow (engines i) shard (spec_of (facts (engines i)) shard) in
  let open i := (shardPool Log Exp overflow (spec_of (facts (engines i)) shard) (maxOpenConns (engines i)) (role i) (rtt_of (facts (engines i)) shard)).2 in
  Z.of_nat (length (filter (λ i, bool_decide (0 < role i) = true) C)) = slots
  ∧ (∀ i, i ∈ C → role i = 0 ∨ role i = slots)
  ∧ 2 * foldr Z.add 0 (open <$> C) ≤ Z.max (4 * slots) (2 * B + slots) + 4 * (n - slots).
Proof.
  intros [Hrows Hn HB He] C n slots role open.
  destruct (ranks_are_agreed rows working_of shard w Hrows) as (Hperm & Hcand & _). fold C in Hperm, Hcand.
  pose proof (slots_bounds Log Exp overflow spec n) as [Hb _]. fold slots in Hb. fold C in Hn. fold n in Hn.
  assert (∀ i, i ∈ C → role i = if bool_decide (v_rank (classify rows i (working_of i) shard w) < slots) then slots else 0) as Hrole.
  { intros i Hi. destruct (He i Hi) as (Hz & Hp & Hsp & _ & s & Hs & Hst). subst role. cbv beta. rewrite Hsp. unfold slotsOn. rewrite Hz, Hs.
    unfold Rank. rewrite Hst. cbn [fst snd]. rewrite (Hcand i Hi), Hp. fold n. rewrite Z.max_r by lia. 
    rewrite (bool_decide_eq_false_2 (0 ≠ 0)) by lia. fold slots. destruct (decide (v_rank (classify rows i (working_of i) shard w) < slots)).
    - rewrite (bool_decide_eq_false_2 (slots ≤ _)), bool_decide_eq_true_2 by lia. done.
    - rewrite (bool_decide_eq_true_2 (slots ≤ _)), bool_decide_eq_false_2 by lia. done. }
  assert (Z.of_nat (length (filter (λ i, bool_decide (0 < role i) = true) C)) = slots) as Hcount.
  { transitivity (Z.of_nat (length (filter (λ r, bool_decide (r < slots) = true) ((λ i, v_rank (classify rows i (working_of i) shard w)) <$> C)))).
    - f_equal. apply count_fmap. intros i Hi. rewrite (Hrole i Hi).
      destruct (decide (v_rank (classify rows i (working_of i) shard w) < slots)) as [Hlt|Hlt];
        [rewrite (bool_decide_eq_true_2 (_ < slots)) by done; apply bool_decide_eq_true_2; lia
        |rewrite (bool_decide_eq_false_2 (_ < slots)) by done; apply bool_decide_eq_false_2; lia].
    - rewrite Hperm, filter_below by lia. lia. }
  split_and!; [done| |].
  - intros i Hi. rewrite (Hrole i Hi). case_bool_decide; auto.
  - pose proof (weighted_sum C open (λ i, bool_decide (0 < role i)) (Z.max (4 * slots) (2 * B + slots)) slots ltac:(lia)) as Hsum.
    cbv beta in Hsum. rewrite Hcount in Hsum. fold n in Hsum.
    assert (slots * (2 * foldr Z.add 0 (open <$> C)) ≤ Z.max (4 * slots) (2 * B + slots) * slots + 4 * slots * (n - slots)); [|nia].
    apply Hsum. intros i Hi. case_bool_decide as Hr.
    + destruct (He i Hi) as (_ & Hp & Hsp & Hbud & _). assert (role i = slots) as Hri.
      { rewrite (Hrole i Hi) in *. by destruct (bool_decide (_ < slots)). }
      pose proof (pool_share Log Exp overflow spec slots (rtt_of (facts (engines i)) shard) B ltac:(lia) Hbud HB) as Hps.
      subst open. cbv beta. rewrite Hri, Hsp, Hp. destruct (shardPool _ _ _ spec 0 slots _) as [a b]. cbn [snd]. lia.
    + pose proof (slotsOn_nonneg Log Exp overflow (engines i) shard (spec_of (facts (engines i)) shard)). fold (role i) in *.
      destruct (He i Hi) as (_ & Hp & _). subst open. cbv beta. rewrite Hp. assert (role i = 0) as -> by lia. done.
Qed.
End fleet.

(** Three replicas on a shard of one CPU: two dispatch it. *)
Definition demo_fleet : list peer := [row_at 3 200 100 true; row_at 5 900 90000 true; row_at 7 300 200 true].
Definition demo_replica (i : Z) : Engine :=
  let v := classify demo_fleet i true 2 demo_windows in set_sonars {[2 := demo_reading 2 (v_rank v) (v_candidates v)]} demo_engine.

Lemma demo_fleet_ok : reading_ok demo_windows demo_fleet.
Proof.
  split; [apply (bool_decide_eq_true_1 _); vm_compute; reflexivity|intros p Hp|intros p Hp|vm_compute; reflexivity].
  - assert (Forall (λ p, 0 < engineID p < 2 ^ 63) demo_fleet) as H by (repeat constructor; vm_compute; reflexivity || (intros ?; done)).
    by apply (proj1 (Forall_forall _ _) H).
  - assert (Forall (λ p, is_nan (seenAgeMs p) = false) demo_fleet) as H by (repeat constructor).
    by apply (proj1 (Forall_forall _ _) H).
Qed.

Lemma demo_one_fleet : demo_fun one_fleet demo_fleet (λ _, true) 2 demo_windows (mkSpec 2 1 false) 4 demo_replica.
Proof.
  constructor; [apply demo_fleet_ok|vm_compute; done|done|]. apply (proj1 (Forall_forall _ _)).
  assert (ids (candidate demo_windows) demo_fleet = [3; 5; 7]) as -> by (vm_compute; reflexivity).
  assert (∀ i, demo_fun shardBudget 1 (rtt_of (facts (demo_replica i)) 2) ≤ 4) as Hb by (intros i; change (facts (demo_replica i)) with demo_facts; vm_compute; by intros).
  repeat (apply Forall_cons; split; [split_and!; [vm_compute; reflexivity|reflexivity|reflexivity|apply Hb|eexists; split; reflexivity]|]).
  by apply Forall_nil.
Qed.

Theorem fleet_shares_the_budget_witness :
  length (filter (λ i, bool_decide (0 < demo_fun slotsOn (demo_replica i) 2 (mkSpec 2 1 false)) = true) [3; 5; 7]) = 2%nat
  ∧ 2 * foldr Z.add 0 ((λ i, (demo_fun shardPool (mkSpec 2 1 false) 0 (demo_fun slotsOn (demo_replica i) 2 (mkSpec 2 1 false)) (dec 3 10)).2)
      <$> [3; 5; 7]) ≤ 10 + 4.
Proof.
  pose proof (fleet_shares_the_budget (λ x, x) (λ x, x) (λ _, 0) demo_fleet (λ _, true) 2 demo_windows (mkSpec 2 1 false) 4 demo_replica
    demo_one_fleet) as (H1 & _ & H3).
  split; [|vm_compute; by intros]. apply Nat2Z.inj. etransitivity; [exact H1|vm_compute; reflexivity].
Defined.
