(* ===== verification/Lifecycle.v ===== *)
(** * The shard set and the engine's life ([internal/database], [engine/engine.go], [engine/peers.go])

    [ShardSet.Open] and [Close] with the handles and the test budget they take from the process, and the
    engine's [Startup], [Shutdown] and [drainRuntime] over what they own: the open handles, the
    registry rows, the metrics callback and the goroutine groups.  What the database, [sequel] and
    the operating system answer is a parameter.  [drainRuntime] is the list of its actions; while it
    runs, the goroutines it waits for exit, and the Sonars repair their rows, at any moment. *)

From Stdlib Require Import Ascii.
From S2P Require Import Prelude Keys.
From S2P Require Sizing.

#[local] Open Scope Z_scope.

(** ** The shard set *)

Record ShardConfig := mkShardConfig { DSN : string; MaxIdleConns : Z; MaxOpenConns : Z }.
Record Config := mkConfig { Shards : gmap Z ShardConfig; TestID : string; TestConnCap : Z }.

(** A [*sequel.DB]: its identity, what it was opened on and its pool. *)
Record handle := mkHandle { h_id : Z; h_dsn : string; h_idle : Z; h_open : Z }.

Record ShardSet := mkShardSet {
  dbs : gmap Z handle;
  indices : list Z;
  testConnCap : Z;
  releaseBudget : Z
}.
Definition no_shards : ShardSet := mkShardSet ∅ [] 0 0.

(** The process: the handles that are open, the identities used up, and the weight reserved from the
    test budget. *)
Record process := mkProcess { live : gset Z; next_id : Z; reserved : Z }.

Inductive open_error :=
| BadShardIndex | BadProbe | SameDSN (i j : Z) | NoTestDatabase (i : Z) | NotOpened (i : Z) | NotMigrated (i : Z).

(** [strings.ReplaceAll(dsn, "%d", by)]. *)
Fixpoint replace_d (by_ : string) (s : string) : string :=
  match s with
  | String "%"%char (String "d"%char s) => by_ +:+ replace_d by_ s
  | String c s => String c (replace_d by_ s)
  | EmptyString => EmptyString
  end.

Definition memory_dsn : string := "file:dwarf_%d?mode=memory&cache=shared".

Definition driverConnCap (driver : string) : Z :=
  if bool_decide (driver = "pgx") then 80 else
  if bool_decide (driver = "mysql") then 120 else
  if bool_decide (driver = "mssql") then 120 else 2 ^ 20.

(** The weight [acquireFrom] takes and gives back. *)
Definition acquired (capacity n : Z) : Z := Z.max 1 (Z.min n capacity).

Section answers.
(** [SEQUEL_TESTING_DSN]; whether [sequel.Open] accepts a DSN, and its driver; the database
    [CreateTestingDatabase] made; whether the migrations run. *)
Context (testing_dsn : string) (opens : string → bool) (driver_of : string → string).
Context (create_test : string → string → option string) (migrates : string → bool).

Definition in_test (cfg : Config) : bool := negb (bool_decide (TestID cfg = "")).

Definition resolveShardDSN (cfg : Config) (idx : Z) (dsn : string) : string :=
  if negb (in_test cfg) then dsn else
  let dsn := if bool_decide (dsn = "") then (if bool_decide (testing_dsn = "") then memory_dsn else testing_dsn) else dsn in
  replace_d (Itoa idx) dsn.

Definition clamp_to (cap n : Z) : Z := if bool_decide (0 < cap) then Z.min n cap else n.

Definition openAndMigrate (cfg : Config) (idx : Z) (dsn : string) (sc : ShardConfig) (o : process)
    : result open_error handle * process :=
  if negb (opens dsn) then (Err (NotOpened idx), o) else
  let cap := if in_test cfg then TestConnCap cfg else 0 in
  let h := mkHandle (next_id o) dsn (clamp_to cap (MaxIdleConns sc)) (clamp_to cap (MaxOpenConns sc)) in
  let o := mkProcess ({[next_id o]} ∪ live o) (next_id o + 1) (reserved o) in
  if migrates dsn then (Ok h, o) else (Err (NotMigrated idx), o).

Definition openShard (cfg : Config) (idx : Z) (dsn : string) (sc : ShardConfig) (o : process)
    : result open_error handle * process :=
  if in_test cfg then
    match create_test dsn (TestID cfg) with
    | None => (Err (NoTestDatabase idx), o)
    | Some dsn => openAndMigrate cfg idx dsn sc o
    end
  else openAndMigrate cfg idx dsn sc o.

Definition handle_ids (hs : gmap Z handle) : gset Z := list_to_set (h_id <$> (map_to_list hs).*2).
Definition close_handles (hs : gmap Z handle) (o : process) : process :=
  mkProcess (live o ∖ handle_ids hs) (next_id o) (reserved o).
Definition release_weight (n : Z) (o : process) : process := mkProcess (live o) (next_id o) (reserved o - n).

(** The loop over the shards; [seen]: which shard each DSN belongs to. *)
Fixpoint open_loop (cfg : Config) (todo : list (Z * ShardConfig)) (seen : gmap string Z) (hs : gmap Z handle) (o : process)
    : option open_error * gmap Z handle * process :=
  match todo with
  | [] => (None, hs, o)
  | (idx, sc) :: todo =>
      let dsn := resolveShardDSN cfg idx (DSN sc) in
      match seen !! dsn with
      | Some prev => (Some (SameDSN prev idx), hs, o)
      | None =>
          match openShard cfg idx dsn sc o with
          | (Err e, o) => (Some e, hs, o)
          | (Ok h, o) => open_loop cfg todo (<[dsn := idx]> seen) (<[idx := h]> hs) o
          end
      end
  end.

Definition index_le (x y : Z * ShardConfig) : Prop := x.1 ≤ y.1.
#[local] Instance index_le_dec x y : Decision (index_le x y).
Proof. unfold index_le. apply _. Defined.

Definition to_open (cfg : Config) : gmap Z ShardConfig :=
  if bool_decide (Shards cfg = ∅) then {[1 := mkShardConfig "" 2 8]} else Shards cfg.

(** What [Open] reserves: nothing outside test mode.  [None]: the throwaway handle that tells the
    driver could not be made. *)
Definition reservation (cfg : Config) (todo : list (Z * ShardConfig)) : option Z :=
  if in_test cfg && bool_decide (0 < TestConnCap cfg) then
    match todo with
    | (idx, sc) :: _ =>
        let dsn := resolveShardDSN cfg idx (DSN sc) in
        if opens dsn then Some (acquired (driverConnCap (driver_of dsn)) (TestConnCap cfg * Z.of_nat (length todo))) else None
    | [] => Some 0
    end
  else Some 0.

Definition Open (cfg : Config) (s : ShardSet) (o : process) : option open_error * ShardSet * process :=
  let todo := merge_sort index_le (map_to_list (to_open cfg)) in
  if existsb (λ e, bool_decide (e.1 < 1)) todo then (Some BadShardIndex, s, o) else
  match reservation cfg todo with
  | None => (Some BadProbe, s, o)
  | Some n =>
      let o := mkProcess (live o) (next_id o) (reserved o + n) in
      match open_loop cfg todo ∅ ∅ o with
      | (Some e, hs, o) => (Some e, s, release_weight n (close_handles hs o))
      | (None, hs, o) => (None, mkShardSet hs todo.*1 (if in_test cfg then TestConnCap cfg else testConnCap s) n, o)
      end
  end.

Definition Shard (n : Z) (s : ShardSet) : option handle := dbs s !! n.

(** [SetMaxOpenConns] and [SetMaxIdleConns] of the set: clamped to the test cap. *)
Definition set_open (n : Z) (h : handle) : handle := mkHandle (h_id h) (h_dsn h) (h_idle h) n.
Definition ShardSet_SetMaxOpenConns (n : Z) (s : ShardSet) : ShardSet :=
  mkShardSet (set_open (clamp_to (testConnCap s) n) <$> dbs s) (indices s) (testConnCap s) (releaseBudget s).
(** The same on one handle, taken out of the set with [Shard]: a push of the engine's own. *)
Definition push_open (idx n : Z) (s : ShardSet) : ShardSet :=
  mkShardSet (alter (set_open n) idx (dbs s)) (indices s) (testConnCap s) (releaseBudget s).

Definition Close (s : ShardSet) (o : process) : ShardSet * process :=
  (no_shards, release_weight (releaseBudget s) (close_handles (dbs s) o)).

(** [OnEach]: every shard is attempted; of several errors the one of the lowest index is returned. *)
Definition OnEach {E} (op : Z → handle → option E) (not_found : E) (s : ShardSet) : option (Z * E) :=
  head (omap (λ idx, pair idx <$> match Shard idx s with Some h => op idx h | None => Some not_found end) (indices s)).

(** ** Opening and closing *)

Definition process_ok (o : process) : Prop := ∀ h, h ∈ live o → h < next_id o.

Lemma elem_of_handle_ids hs h : h ∈ handle_ids hs ↔ ∃ i x, hs !! i = Some x ∧ h_id x = h.
Proof.
  unfold handle_ids. rewrite elem_of_list_to_set, list_elem_of_fmap. split.
  - intros (x & -> & ((i & x') & -> & Hx%elem_of_map_to_list)%list_elem_of_fmap). eauto.
  - intros (i & x & Hx & <-). exists x. split; [done|]. apply list_elem_of_fmap. exists (i, x).
    split; [done|]. by apply elem_of_map_to_list.
Qed.

Lemma handle_ids_empty : handle_ids ∅ = ∅.
Proof. unfold handle_ids. by rewrite map_to_list_empty. Qed.

Lemma handle_ids_insert i h hs : hs !! i = None → handle_ids (<[i := h]> hs) = {[h_id h]} ∪ handle_ids hs.
Proof.
  intros Hi. apply set_eq. intros x. rewrite elem_of_union, elem_of_singleton, !elem_of_handle_ids. split.
  - intros (j & y & [[<- <-]|[Hne Hy]]%lookup_insert_Some & <-); [by left|right; eauto].
  - intros [->|(j & y & Hy & <-)]; [exists i, h; by rewrite lookup_insert_eq|].
    exists j, y. split; [|done]. rewrite lookup_insert_ne; [done|congruence].
Qed.

(** What the loop has taken so far, relative to where [Open] began. *)
Record taken (o0 : process) (hs : gmap Z handle) (o : process) : Prop := {
  tk_live : live o = handle_ids hs ∪ live o0;
  tk_fresh : ∀ x, x ∈ handle_ids hs → next_id o0 ≤ x < next_id o;
  tk_next : next_id o0 ≤ next_id o;
  tk_reserved : reserved o = reserved o0
}.

(** The one handle a failed [Open] does not close. *)
Definition leaked (e : open_error) (o : process) : gset Z :=
  match e with NotMigrated _ => {[next_id o - 1]} | _ => ∅ end.

Lemma openShard_taken cfg idx dsn sc o0 hs o :
  taken o0 hs o → hs !! idx = None →
  match openShard cfg idx dsn sc o with
  | (Ok h, o') => taken o0 (<[idx := h]> hs) o'
  | (Err e, o') =>
      live o' = leaked e o' ∪ live o ∧ (∀ x, x ∈ leaked e o' → next_id o ≤ x) ∧ reserved o' = reserved o ∧
      next_id o ≤ next_id o'
  end.
Proof.
  intros [Hl Hf Hn Hr] Hi.
  assert (∀ dsn, match openAndMigrate cfg idx dsn sc o with
                 | (Ok h, o') => taken o0 (<[idx := h]> hs) o'
                 | (Err e, o') => live o' = leaked e o' ∪ live o ∧ (∀ x, x ∈ leaked e o' → next_id o ≤ x) ∧
                     reserved o' = reserved o ∧ next_id o ≤ next_id o'
                 end) as H.
  { intros d. unfold openAndMigrate. destruct (opens d); simpl; [|split_and!; [set_solver..|done|lia]].
    destruct (migrates d); simpl.
    - split; simpl; rewrite ?handle_ids_insert by done; simpl; [set_solver| |lia|done].
      intros x [->%elem_of_singleton|Hx%Hf]%elem_of_union; lia.
    - replace (next_id o + 1 - 1) with (next_id o) by lia. split_and!; [done| |done|lia].
      intros x ->%elem_of_singleton. lia. }
  unfold openShard. destruct (in_test cfg); [|apply H]. destruct (create_test dsn (TestID cfg)); [apply H|].
  simpl. split_and!; [set_solver..|done|lia].
Qed.

Lemma open_loop_taken cfg o0 todo : ∀ seen hs o,
  taken o0 hs o → NoDup todo.*1 → (∀ i, i ∈ todo.*1 → hs !! i = None) →
  let '(e, hs', o') := open_loop cfg todo seen hs o in
  match e with
  | None =>
      taken o0 hs' o' ∧ dom hs' = dom hs ∪ list_to_set todo.*1 ∧
      NoDup ((λ e, resolveShardDSN cfg e.1 (DSN e.2)) <$> todo) ∧
      (∀ e, e ∈ todo → seen !! resolveShardDSN cfg e.1 (DSN e.2) = None)
  | Some e =>
      live o' = leaked e o' ∪ (handle_ids hs' ∪ live o0) ∧ (∀ x, x ∈ handle_ids hs' ∪ leaked e o' → next_id o0 ≤ x) ∧
      reserved o' = reserved o0 ∧ next_id o0 ≤ next_id o' ∧ leaked e o' ## handle_ids hs'
  end.
Proof.
  induction todo as [|[idx sc] todo IH]; intros seen hs o Ht Hnd Hhs; simpl.
  { split_and!; [done|set_solver|constructor|set_solver]. }
  apply NoDup_cons in Hnd as [Hidx Hnd]. simpl in Hidx.
  destruct (seen !! _) as [prev|] eqn:Hseen.
  { destruct Ht as [Hl Hf Hn Hr]. simpl. split_and!; [set_solver| |done..|set_solver].
    intros x Hx. apply (Hf x). set_solver. }
  pose proof (openShard_taken cfg idx (resolveShardDSN cfg idx (DSN sc)) sc o0 hs o Ht) as Hop.
  specialize (Hop (Hhs idx ltac:(simpl; left))).
  destruct (openShard _ _ _ _ _) as [[h|e] o'].
  - specialize (IH (<[resolveShardDSN cfg idx (DSN sc) := idx]> seen) (<[idx := h]> hs) o' Hop Hnd).
    destruct (open_loop _ _ _ _ _) as [[[e|] hs'] o2]; [apply IH|destruct IH as (Ht2 & Hd & Hn2 & Hs2)].
    + intros i Hi. rewrite lookup_insert_ne by (intros ->; done). apply Hhs. by right.
    + intros i Hi. rewrite lookup_insert_ne by (intros ->; done). apply Hhs. by right.
    + split_and!; [done| | |].
      * rewrite Hd. simpl. rewrite dom_insert_L. set_solver.
      * constructor; [|done]. intros (e & He & Hin)%list_elem_of_fmap. specialize (Hs2 e Hin).
        rewrite <-He in Hs2. by rewrite lookup_insert_eq in Hs2.
      * intros e [->|He]%elem_of_cons; [done|]. specialize (Hs2 e He).
        by apply lookup_insert_None in Hs2 as [? _].
  - destruct Ht as [Hl Hf Hn Hr], Hop as (Hl' & Hlk & Hr' & Hn').
    split_and!; [by rewrite Hl', Hl| |by rewrite Hr'|lia|].
    + intros x [Hx|Hx]%elem_of_union; [apply (Hf x Hx)|]. specialize (Hlk x Hx). lia.
    + intros x Hx1 Hx2. specialize (Hlk x Hx1). specialize (Hf x Hx2). lia.
Qed.

Lemma to_open_sorted cfg : NoDup (merge_sort index_le (map_to_list (to_open cfg))).*1 ∧
  list_to_set (C:=gset Z) (merge_sort index_le (map_to_list (to_open cfg))).*1 = dom (to_open cfg).
Proof.
  assert ((merge_sort index_le (map_to_list (to_open cfg))).*1 ≡ₚ (map_to_list (to_open cfg)).*1) as Hp
    by (by rewrite merge_sort_Permutation).
  split; [rewrite Hp; apply NoDup_fst_map_to_list|]. apply set_eq. intros x.
  rewrite elem_of_list_to_set, Hp, elem_of_dom. unfold is_Some. rewrite list_elem_of_fmap. split.
  - intros ([i c] & -> & Hx%elem_of_map_to_list). eauto.
  - intros [c Hc]. exists (x, c). split; [done|]. by apply elem_of_map_to_list.
Qed.

(** Opening the shards is all or nothing.  A set that opened holds a handle for exactly the shards it
    was given (or the default one), no two on the same DSN, all of them fresh, and closing it gives
    everything back: its handles, its reservation of the test budget and the set itself.  An [Open] that
    fails leaves the set as it was and the budget as it was, and closes every handle it opened, except
    one: where the migrations of a shard fail, that shard's handle stays open for good. *)
Lemma Open_all_or_nothing cfg s o :
  process_ok o →
  let '(e, s', o') := Open cfg s o in
  match e with
  | None =>
      list_to_set (indices s') = dom (dbs s') ∧ dom (dbs s') = dom (to_open cfg) ∧
      live o' = handle_ids (dbs s') ∪ live o ∧ handle_ids (dbs s') ## live o ∧
      NoDup ((λ e, resolveShardDSN cfg e.1 (DSN e.2)) <$> merge_sort index_le (map_to_list (to_open cfg))) ∧
      let '(s2, o2) := Close s' o' in s2 = no_shards ∧ live o2 = live o ∧ reserved o2 = reserved o
  | Some e =>
      s' = s ∧ reserved o' = reserved o ∧ live o' = leaked e o' ∪ live o ∧ (∀ x, x ∈ leaked e o' → x ∉ live o)
  end.
Proof.
  intros Ho. unfold Open. set (todo := merge_sort _ _).
  destruct (existsb _ todo); [simpl; set_solver|]. destruct (reservation cfg todo) as [n|]; [|simpl; set_solver].
  destruct (to_open_sorted cfg) as [Hnd Hset]. fold todo in Hnd, Hset.
  set (o1 := mkProcess (live o) (next_id o) (reserved o + n)).
  pose proof (open_loop_taken cfg o1 todo ∅ ∅ o1) as H.
  destruct (open_loop _ _ _ _ _) as [[[e|] hs] o2].
  - destruct H as (Hl & Hf & Hr & _ & Hdj); [split; simpl; [by rewrite handle_ids_empty; set_solver|by rewrite handle_ids_empty; set_solver|lia|done]|done|by intros; apply lookup_empty|].
    simpl in *. split_and!; [done|rewrite Hr; lia| |].
    + rewrite Hl. assert (handle_ids hs ## live o); [|set_solver].
      intros x Hx Hx'. specialize (Ho x Hx'). specialize (Hf x ltac:(set_solver)). lia.
    + intros x Hx Hx'. specialize (Ho x Hx'). specialize (Hf x ltac:(set_solver)). lia.
  - destruct H as ([Hl Hf Hn Hr] & Hd & Hdsn & _); [split; simpl; [by rewrite handle_ids_empty; set_solver|by rewrite handle_ids_empty; set_solver|lia|done]|done|by intros; apply lookup_empty|].
    simpl in *.
    assert (∀ x, x ∈ handle_ids hs → x ∉ live o) as Hfr by (intros x Hx Hx'; specialize (Ho x Hx'); specialize (Hf x Hx); lia).
    split_and!; [|rewrite Hd, <-Hset; set_solver|done|done|done|done|set_solver|rewrite Hr; lia].
    rewrite Hd, dom_empty_L, (left_id_L ∅ _). done.
Qed.

(** ** The engine: what it owns while it runs *)

(** The goroutines [initRuntime] starts, and the withdrawal [drainRuntime] starts. *)
Inductive group := GReconcile | GWithdrawal | GCrew | GRecovery | GReaper | GLatch | GPistons | GSonars.
#[export] Instance group_eq_dec : EqDecision group.
Proof. solve_decision. Defined.
#[export] Instance group_countable : Countable group.
Proof.
  refine (inj_countable' (λ g, match g with GReconcile => 0 | GWithdrawal => 1 | GCrew => 2 | GRecovery => 3 | GReaper => 4 | GLatch => 5 | GPistons => 6 | GSonars => 7 end%nat)
    (λ n, match n with 0 => GReconcile | 1 => GWithdrawal | 2 => GCrew | 3 => GRecovery | 4 => GReaper | 5 => GLatch | 6 => GPistons | _ => GSonars end%nat) _).
  by intros [].
Defined.

(** Channels closed, contexts cancelled, and the closes that release_weight whoever is parked. *)
Inductive signal :=
| SDrainStop | SReconcileStop | SCacheClosed | STurnstilesClosed | SDrained | SRecoveryStop | SReaperStop | SLatchStop
| SPistonCancel | SSonarCancel | SBoardClosed | SLifetimeCancel.
#[export] Instance signal_eq_dec : EqDecision signal.
Proof. solve_decision. Defined.
#[export] Instance signal_countable : Countable signal.
Proof.
  refine (inj_countable' (λ g, match g with SDrainStop => 0 | SReconcileStop => 1 | SCacheClosed => 2 | STurnstilesClosed => 3 | SDrained => 4 | SRecoveryStop => 5 | SReaperStop => 6 | SLatchStop => 7 | SPistonCancel => 8 | SSonarCancel => 9 | SBoardClosed => 10 | SLifetimeCancel => 11 end%nat)
    (λ n, match n with 0 => SDrainStop | 1 => SReconcileStop | 2 => SCacheClosed | 3 => STurnstilesClosed | 4 => SDrained | 5 => SRecoveryStop | 6 => SReaperStop | 7 => SLatchStop | 8 => SPistonCancel | 9 => SSonarCancel | 10 => SBoardClosed | _ => SLifetimeCancel end%nat) _).
  by intros [].
Defined.

(** What a group's goroutines wait on besides their own work: with all of these given, each returns.
    A worker is parked in the cache or in the turnstiles, so it takes both; the withdrawal returns once
    the crew has drained, or before that when its timer fires ([d_timer] below). *)
Definition exit_on (g : group) : gset signal :=
  match g with
  | GReconcile => {[SReconcileStop]}
  | GWithdrawal => {[SDrained]}
  | GCrew => {[SDrainStop; SCacheClosed; STurnstilesClosed]}
  | GRecovery => {[SRecoveryStop]}
  | GReaper => {[SReaperStop]}
  | GLatch => {[SLatchStop]}
  | GPistons => {[SPistonCancel]}
  | GSonars => {[SSonarCancel]}
  end.

Record engine := mkEngine {
  started : bool;
  has_host : bool;
  en_set : ShardSet;
  (* the shards whose registry holds a row of this replica *)
  rows : gset Z;
  (* the observable-gauge callback is registered *)
  metrics : bool;
  groups : gset group;
  signals : gset signal
}.

Inductive startup_error := AlreadyStarted | HostRequired | OpenFailed (e : open_error) | NoPiston (idx : Z) | NoCrew.

(** What the rest of [Startup] meets: the shards on which the registration went through, those whose
    piston is built, and whether the crew is. *)
Record startup_answers := mkAnswers { registers : Z → bool; builds : Z → bool; crew_ok : bool }.

Definition all_groups : gset group := {[GReconcile; GCrew; GRecovery; GReaper; GLatch; GPistons; GSonars]}.

Definition unwindRuntime (e : engine) : engine :=
  mkEngine false (has_host e) (en_set e) (rows e) false (groups e) (signals e).

(** Fresh channels, contexts, cache, turnstiles and board; [started]; the metrics callback; then the
    pistons, one shard after the other, and the crew. *)
Definition initRuntime (a : startup_answers) (e : engine) : option startup_error * engine :=
  let e := mkEngine true (has_host e) (en_set e) (rows e) true (groups e) ∅ in
  match find (λ idx, negb (builds a idx)) (indices (en_set e)) with
  | Some idx => (Some (NoPiston idx), unwindRuntime e)
  | None =>
      if negb (crew_ok a) then (Some NoCrew, unwindRuntime e)
      else (None, mkEngine true (has_host e) (en_set e) (rows e) true (all_groups ∪ groups e) ∅)
  end.

(** [joinFleet]: an error of one shard's registration is logged. *)
Definition joinFleet (a : startup_answers) (e : engine) : engine :=
  mkEngine (started e) (has_host e) (en_set e)
    (filter (λ i, registers a i = true) (dom (dbs (en_set e))) ∪ rows e) (metrics e) (groups e) (signals e).

(** What [Startup] opens: the registered shards, by their DSN, or the default one, at the bootstrap
    pool; the cap is the engine's own, in test mode only. *)
Definition startup_config (specs : gmap Z string) (testHashedID : string) (cap : Z) : Config :=
  mkConfig (if bool_decide (specs = ∅) then {[1 := mkShardConfig "" Sizing.startupBootstrapConns Sizing.startupBootstrapConns]}
            else (λ dsn, mkShardConfig dsn Sizing.startupBootstrapConns Sizing.startupBootstrapConns) <$> specs)
    testHashedID (if bool_decide (testHashedID = "") then 0 else cap).

(** The lifecycle of [Startup]; the sizes it derives between joining and [initRuntime] are [Reconcile]'s. *)
Definition Startup (specs : gmap Z string) (testHashedID : string) (cap : Z) (a : startup_answers) (e : engine) (o : process)
    : option startup_error * engine * process :=
  if started e then (Some AlreadyStarted, e, o) else
  if negb (has_host e) then (Some HostRequired, e, o) else
  match Open (startup_config specs testHashedID cap) (en_set e) o with
  | (Some err, s, o) => (Some (OpenFailed err), mkEngine (started e) (has_host e) s (rows e) (metrics e) (groups e) (signals e), o)
  | (None, s, o) =>
      let e := mkEngine (started e) (has_host e) s (rows e) (metrics e) (groups e) (signals e) in
      let '(err, e) := initRuntime a (joinFleet a e) in (err, e, o)
  end.
End answers.

(** ** The drain *)

Inductive instr := Signal (s : signal) | Spawn (g : group) | Wait (g : group) | CloseMetrics | LeaveFleet.

Definition drainRuntime : list instr :=
  [Signal SDrainStop; Signal SReconcileStop; Wait GReconcile; Spawn GWithdrawal; CloseMetrics;
   Signal SCacheClosed; Signal STurnstilesClosed; Wait GCrew; Signal SDrained; Wait GWithdrawal;
   Signal SRecoveryStop; Wait GRecovery; Signal SReaperStop; Wait GReaper; Signal SLatchStop; Wait GLatch;
   Signal SPistonCancel; Wait GPistons; Signal SSonarCancel; Wait GSonars; LeaveFleet;
   Signal SBoardClosed; Signal SLifetimeCancel].

Definition set_run (r : gset Z) (m : bool) (gs : gset group) (ss : gset signal) (e : engine) : engine :=
  mkEngine (started e) (has_host e) (en_set e) r m gs ss.

Section drain.
(** The shards whose delete goes through. *)
Context (leaves : Z → bool).

(** One action of the drain; [None]: it waits. *)
Definition perform (i : instr) (e : engine) : option engine :=
  match i with
  | Signal s => Some (set_run (rows e) (metrics e) (groups e) ({[s]} ∪ signals e) e)
  | Spawn g => Some (set_run (rows e) (metrics e) ({[g]} ∪ groups e) (signals e) e)
  | Wait g => if bool_decide (g ∈ groups e) then None else Some e
  | CloseMetrics => Some (set_run (rows e) false (groups e) (signals e) e)
  | LeaveFleet => Some (set_run (rows e ∖ filter (λ i, leaves i = true) (dom (dbs (en_set e)))) (metrics e) (groups e) (signals e) e)
  end.

(** The drain, at the instructions it has left, beside the goroutines: a group returns once it was told
    to, the withdrawal also when its timer fires (what it changes of a row is not of this state), a Sonar that is still running writes its row again where it finds it missing, and a peer prunes
    a row it takes for dead. *)
Inductive dstep : list instr * engine → list instr * engine → Prop :=
| d_perform i pr e e' : perform i e = Some e' → dstep (i :: pr, e) (pr, e')
| d_exit pr e g : g ∈ groups e → exit_on g ⊆ signals e →
    dstep (pr, e) (pr, set_run (rows e) (metrics e) (groups e ∖ {[g]}) (signals e) e)
| d_timer pr e : GWithdrawal ∈ groups e →
    dstep (pr, e) (pr, set_run (rows e) (metrics e) (groups e ∖ {[GWithdrawal]}) (signals e) e)
| d_repair pr e i : GSonars ∈ groups e → i ∈ dom (dbs (en_set e)) →
    dstep (pr, e) (pr, set_run ({[i]} ∪ rows e) (metrics e) (groups e) (signals e) e)
| d_prune pr e i : dstep (pr, e) (pr, set_run (rows e ∖ {[i]}) (metrics e) (groups e) (signals e) e).

(** [Shutdown]: [drainRuntime] on an engine marked stopped, then the handles are closed. *)
Definition begin_drain (e : engine) : list instr * engine :=
  (drainRuntime, mkEngine false (has_host e) (en_set e) (rows e) (metrics e) (groups e) (signals e)).

Definition closed_down (d : engine) (o : process) : engine :=
  mkEngine (started d) (has_host d) (Close (en_set d) o).1 (rows d) (metrics d) (groups d) (signals d).

Inductive shuts (e : engine) (o : process) : engine → process → Prop :=
| shuts_stopped : started e = false → shuts e o e o
| shuts_drained d : started e = true → rtc dstep (begin_drain e) ([], d) →
    shuts e o (closed_down d o) (Close (en_set d) o).2.

(** A running engine, as [initRuntime] leaves it. *)
Definition running (e : engine) : Prop :=
  started e = true ∧ groups e = all_groups ∧ signals e = ∅.

(** *** Where the drain stands *)

Definition signals_before (n : nat) : gset signal :=
  list_to_set (omap (λ i, match i with Signal s => Some s | _ => None end) (take n drainRuntime)).

(** The position of the wait for a group. *)
Definition wait_at (g : group) : nat :=
  match g with
  | GReconcile => 2 | GCrew => 7 | GWithdrawal => 9 | GRecovery => 11 | GReaper => 13 | GLatch => 15
  | GPistons => 17 | GSonars => 19
  end.

(** What keeps the row of a shard: its delete failed, or the shard is not of the set. *)
Definition stays (e : engine) (i : Z) : Prop := leaves i = false ∨ i ∉ dom (dbs (en_set e)).

Record drain_ok (e0 : engine) (n : nat) (e : engine) : Prop := {
  dr_len : (n ≤ length drainRuntime)%nat;
  dr_signals : signals e = signals_before n;
  dr_groups : ∀ g, g ∈ groups e → (n ≤ wait_at g)%nat ∧ (g = GWithdrawal → 4 ≤ n)%nat;
  dr_sonars : (n ≤ 18)%nat → GSonars ∈ groups e;
  dr_metrics : (5 ≤ n)%nat → metrics e = false;
  dr_left : (21 ≤ n)%nat → ∀ i, i ∈ rows e → stays e i;
  dr_set : en_set e = en_set e0;
  dr_stopped : started e = false
}.

Definition drain_inv (e0 : engine) (st : list instr * engine) : Prop :=
  ∃ n, st.1 = drop n drainRuntime ∧ drain_ok e0 n st.2.

Lemma wait_at_lookup g : drainRuntime !! wait_at g = Some (Wait g).
Proof. by destruct g. Qed.

Lemma spawn_at n g : drainRuntime !! n = Some (Spawn g) → n = 3%nat ∧ g = GWithdrawal.
Proof. intros H. do 23 (destruct n as [|n]; [simpl in H; by simplify_eq|]). done. Qed.

Lemma signals_before_S n i : drainRuntime !! n = Some i →
  signals_before (S n) = match i with Signal s => {[s]} | _ => ∅ end ∪ signals_before n.
Proof.
  intros Hi. unfold signals_before. rewrite (take_S_r _ _ _ Hi), omap_app, list_to_set_app_L.
  destruct i; simpl; set_solver.
Qed.

Lemma drop_cons n i (pr : list instr) : drop n drainRuntime = i :: pr → drainRuntime !! n = Some i ∧ pr = drop (S n) drainRuntime.
Proof.
  intros H. assert (drainRuntime !! n = Some i) as Hi.
  { pose proof (lookup_drop drainRuntime n 0) as Hd. rewrite H, Nat.add_0_r in Hd. by rewrite <-Hd. }
  split; [done|]. pose proof (drop_S _ _ _ Hi) as Hd. rewrite H in Hd. by injection Hd.
Qed.

Lemma before_cancel n : (n ≤ 18)%nat → SSonarCancel ∉ signals_before n.
Proof.
  intros Hn. do 19 (destruct n as [|n]; [apply (bool_decide_unpack _); by vm_compute|]). lia.
Qed.

Lemma before_close n : (n ≤ 20)%nat → (SBoardClosed ∉ signals_before n) ∧ (SLifetimeCancel ∉ signals_before n).
Proof.
  intros Hn. do 21 (destruct n as [|n]; [split; apply (bool_decide_unpack _); by vm_compute|]). lia.
Qed.

Lemma wait_unique n g : drainRuntime !! n = Some (Wait g) → n = wait_at g.
Proof. intros H. do 23 (destruct n as [|n]; [simpl in H; by simplify_eq|]). done. Qed.

Lemma told_before g : exit_on g ⊆ signals_before (wait_at g).
Proof. destruct g; apply (bool_decide_unpack _); by vm_compute. Qed.

Lemma drain_step e0 st st' : drain_inv e0 st → dstep st st' → drain_inv e0 st'.
Proof.
  intros (n & Hn & [H1 H2 H3 H4 H5 H6 H7 H8]) Hs. destruct Hs as [i pr e e' Hp|pr e g Hg Hx|pr e Hg|pr e i Hg Hi|pr e i]; simpl in *.
  - symmetry in Hn. apply drop_cons in Hn as [Hi ->]. exists (S n). split; [done|].
    pose proof (signals_before_S _ _ Hi) as HS.
    assert (S n ≤ length drainRuntime)%nat by (apply lookup_lt_Some in Hi; lia).
    assert (∀ g, g ∈ groups e → perform i e ≠ None → (S n ≤ wait_at g)%nat ∧ (g = GWithdrawal → 4 ≤ S n)%nat) as Hw.
    { intros g Hg Hne. destruct (H3 g Hg) as [Hle Hwd]. split; [|intros ?; specialize (Hwd ltac:(done)); lia].
      destruct (decide (n = wait_at g)) as [->|]; [|lia]. rewrite wait_at_lookup in Hi. injection Hi as <-.
      simpl in Hne. by rewrite bool_decide_eq_true_2 in Hne. }
    specialize (λ g Hg, Hw g Hg ltac:(by rewrite Hp)) as Hw'. clear Hw.
    assert (n = 4%nat → i = CloseMetrics) as Hn4 by (intros ->; by injection Hi).
    assert (n = 20%nat → i = LeaveFleet) as Hn20 by (intros ->; by injection Hi).
    assert (5 ≤ S n → i ≠ CloseMetrics → metrics e = false)%nat as Hmet by (intros; apply H5; destruct (decide (n = 4%nat)); [naive_solver|lia]).
    assert (21 ≤ S n → i ≠ LeaveFleet → ∀ i, i ∈ rows e → stays e i)%nat as Hlf
      by (intros ? ?; apply H6; destruct (decide (n = 20%nat)); [naive_solver|lia]).
    assert (S n ≤ 18 → GSonars ∈ groups e)%nat as Hson by (intros; apply H4; lia).
    destruct i as [s|g|g| |]; simpl in Hp; try (case_bool_decide; [done|]); injection Hp as <-; split; simpl;
      try done; try (rewrite HS, H2; set_solver); try (by intros; apply Hmet); try (by intros ?; apply Hlf).
    + apply spawn_at in Hi as [-> ->]. intros g [->%elem_of_singleton|Hg]%elem_of_union; [simpl; lia|by apply Hw'].
    + intros ?. apply elem_of_union_r. by apply Hson.
    + intros _ i [Hr Hnf]%elem_of_difference. unfold stays. simpl. rewrite elem_of_filter in Hnf.
      destruct (leaves i); [right; tauto|by left].
  - exists n. split; [done|]. split; simpl; try done.
    + intros g' [Hg' _]%elem_of_difference. by apply H3.
    + intros Hle. apply elem_of_difference. split; [by apply H4|]. intros <-%elem_of_singleton.
      rewrite H2 in Hx. apply (before_cancel n Hle), Hx. simpl. set_solver.
  - exists n. split; [done|]. split; simpl; try done.
    + intros g' [Hg' _]%elem_of_difference. by apply H3.
    + intros Hle. apply elem_of_difference. split; [by apply H4|]. by rewrite elem_of_singleton.
  - exists n. destruct (H3 _ Hg) as [Hle _]. simpl in Hle. split; [done|]. split; simpl; try done.
    + lia.
  - exists n. split; [done|]. split; simpl; try done. intros Hn' i' [Hi' _]%elem_of_difference. by apply H6.
Qed.

Lemma drain_begins e : running e → drain_inv (begin_drain e).2 (begin_drain e).
Proof.
  intros (Hst & Hg & Hs). exists 0%nat. split; [done|]. split; simpl; rewrite ?Hg, ?Hs; try done; try lia; try (vm_compute; lia).
  - intros g Hgm. split; [lia|]. intros ->. assert (GWithdrawal ∉ all_groups) by (apply (bool_decide_unpack _); by vm_compute). done.
Qed.


(** What is left of a drain: two for each action, one for each group. *)
Definition drain_left (st : list instr * engine) : nat := 2 * length st.1 + size (groups st.2).

(** A row written back or pruned leaves the drain where it was. *)
Definition standing (st st' : list instr * engine) : Prop :=
  st'.1 = st.1 ∧ groups st'.2 = groups st.2 ∧ signals st'.2 = signals st.2 ∧ metrics st'.2 = metrics st.2.

Lemma drain_steps e st : running e → rtc dstep (begin_drain e) st → drain_inv (begin_drain e).2 st.
Proof.
  intros Hr H. pose proof (drain_begins e Hr) as Hi. revert Hi. generalize (begin_drain e).2 as e0. intros e0.
  induction H as [|x y z Hs _ IH]; [done|]. intros Hi. apply IH. by eapply drain_step.
Qed.

Lemma drain_step_left st st' : dstep st st' → standing st st' ∨ (drain_left st' < drain_left st)%nat.
Proof.
  unfold drain_left.
  assert (∀ g (gs : gset group), g ∈ gs → size (gs ∖ {[g]}) < size gs)%nat as Hless.
  { intros g gs Hg. rewrite size_difference by (intros x ->%elem_of_singleton; done). rewrite size_singleton.
    assert (size gs ≠ 0)%nat; [|lia]. intros H0%size_empty_inv. set_solver. }
  intros [i pr e e' Hp|pr e g Hg Hx|pr e Hg|pr e i Hg Hi|pr e i]; simpl.
  - right. enough (size (groups e') ≤ 1 + size (groups e))%nat by lia.
    destruct i as [s|g|g| |]; simpl in Hp; try (case_bool_decide; [done|]); injection Hp as <-; simpl; try lia.
    rewrite size_union_alt, size_singleton. apply le_n_S, subseteq_size. set_solver.
  - right. pose proof (Hless _ _ Hg). lia.
  - right. pose proof (Hless _ _ Hg). lia.
  - by left.
  - by left.
Qed.

Lemma drain_moves e0 i pr e : drain_inv e0 (i :: pr, e) →
  ∃ st', dstep (i :: pr, e) st' ∧ (drain_left st' < drain_left (i :: pr, e))%nat.
Proof.
  intros (n & Hn & Hok). simpl in *. symmetry in Hn. apply drop_cons in Hn as [Hi ->].
  assert (∀ st', dstep (i :: drop (S n) drainRuntime, e) st' → (∃ g, i = Wait g ∧ g ∈ groups e ∧ groups st'.2 = groups e ∖ {[g]}) ∨ st'.1 = drop (S n) drainRuntime →
            drain_left st' < drain_left (i :: drop (S n) drainRuntime, e))%nat as Hless.
  { intros st' Hs Hc. destruct (drain_step_left _ _ Hs) as [(H1 & H2 & _)|?]; [|done]. exfalso. simpl in *.
    destruct Hc as [(g & -> & Hg & Hg')|Hc]; [rewrite H2 in Hg'; set_solver|].
    rewrite Hc in H1. apply (f_equal length) in H1. simpl in H1. lia. }
  destruct (perform i e) as [e'|] eqn:Hp.
  - exists (drop (S n) drainRuntime, e'). pose proof (d_perform _ (drop (S n) drainRuntime) _ _ Hp) as Hd. split; [done|].
    apply Hless; [done|by right].
  - destruct i as [s|g|g| |]; simpl in Hp; try done. case_bool_decide as Hg; [|done].
    pose proof (wait_unique _ _ Hi) as ->.
    assert (exit_on g ⊆ signals e) as Hx by (rewrite (dr_signals _ _ _ Hok); apply told_before).
    pose proof (d_exit (Wait g :: drop (S (wait_at g)) drainRuntime) _ _ Hg Hx) as Hd.
    eexists. split; [exact Hd|]. apply Hless; [done|left]. by exists g.
Qed.

Lemma drain_completes e0 st : drain_inv e0 st → ∃ k d, (k ≤ drain_left st)%nat ∧ nsteps dstep k st ([], d).
Proof.
  remember (drain_left st) as m eqn:Hm. revert st Hm. induction (lt_wf m) as [m _ IH]. intros [[|i pr] e] -> Hi.
  { exists 0%nat, e. split; [lia|constructor]. }
  destruct (drain_moves _ _ _ _ Hi) as (st' & Hs & Hlt).
  destruct (IH _ Hlt _ eq_refl (drain_step _ _ _ Hi Hs)) as (k & d & Hk & Hn).
  exists (S k), d. split; [lia|]. by econstructor.
Qed.

Lemma leave_ahead n : (n ≤ 20)%nat → LeaveFleet ∈ drop n drainRuntime.
Proof. intros Hn. apply list_elem_of_lookup. exists (20 - n)%nat. rewrite lookup_drop. by replace (n + (20 - n))%nat with 20%nat by lia. Qed.

(** The end of a drain. *)
Record drained (e d : engine) : Prop := {
  dn_started : started d = false;
  dn_groups : groups d = ∅;
  dn_metrics : metrics d = false;
  dn_signals : ∀ s, s ∈ signals d;
  dn_rows : ∀ i, i ∈ rows d → stays d i;
  dn_set : en_set d = en_set e
}.

Lemma drain_inv_end e0 d : drain_inv e0 ([], d) → drained e0 d.
Proof.
  intros (n & Hn & Hok). simpl in *. assert (n = length drainRuntime) as ->.
  { pose proof (dr_len _ _ _ Hok). apply (f_equal length) in Hn. rewrite length_drop in Hn. simpl in *. lia. }
  destruct Hok as [H1 H2 H3 H4 H5 H6 H7 H8]. split; [done| |apply H5; simpl; lia| |apply H6; simpl; lia|done].
  - apply set_eq. intros g. split; [|set_solver]. intros Hg%H3. destruct Hg as [Hg _]. destruct g; simpl in Hg; lia.
  - intros s. rewrite H2. destruct s; apply (bool_decide_unpack _); by vm_compute.
Qed.

(** C35. A drain ends, and in the order the engine depends on.  Whatever has happened since it began, the drain is
    not stuck: a bounded number of steps completes it, and every step that any goroutine takes brings it nearer,
    except that a Sonar writes its row back or a peer prunes it.  The withdrawal returns when the crew has drained or
    when its timer fires.  While a worker or the withdrawal is still under way, the
    Sonars run and the replica has yet to leave the fleet; while any group runs, the
    board that callers wait on is open and the lifetime context is live.  When the drain is over no group runs, the metrics
    callback is gone, everything was told, and a row of this replica is left only where its delete
    failed, although the Sonars repaired their rows to the last. *)
Theorem drain_is_ordered_and_ends e st : running e → rtc dstep (begin_drain e) st →
  (∃ k d, (k ≤ drain_left st)%nat ∧ nsteps dstep k st ([], d)) ∧
  (∀ st', dstep st st' → standing st st' ∨ (drain_left st' < drain_left st)%nat) ∧
  (GCrew ∈ groups st.2 ∨ GWithdrawal ∈ groups st.2 →
     GSonars ∈ groups st.2 ∧ LeaveFleet ∈ st.1 ∧ (SSonarCancel ∉ signals st.2)) ∧
  (∀ g, g ∈ groups st.2 → (SBoardClosed ∉ signals st.2) ∧ (SLifetimeCancel ∉ signals st.2)) ∧
  (st.1 = [] → drained e st.2).
Proof.
  intros Hr H. pose proof (drain_steps e st Hr H) as Hi.
  split; [by eapply drain_completes|]. split; [apply drain_step_left|]. split_and!.
  - destruct Hi as (n & -> & Hok). intros Hg.
    assert (n ≤ 9)%nat as Hn by (destruct Hg as [[Hg _]%(dr_groups _ _ _ Hok)|[Hg _]%(dr_groups _ _ _ Hok)]; simpl in Hg; lia).
    split; [apply (dr_sonars _ _ _ Hok); lia|]. split; [by apply leave_ahead; lia|].
    rewrite (dr_signals _ _ _ Hok). apply before_cancel. lia.
  - intros g Hg. destruct Hi as (n & _ & Hok). rewrite (dr_signals _ _ _ Hok). apply before_close.
    destruct (dr_groups _ _ _ Hok _ Hg) as [Hg' _]. destruct g; simpl in Hg'; lia.
  - intros Hnil. destruct st as [pr d]. simpl in Hnil. subst pr. destruct (drain_inv_end _ _ Hi). by split.
Qed.
End drain.

(** ** A run of the engine, from outside *)

Lemma close_taken o0 hs o : process_ok o0 → taken o0 hs o → handle_ids hs ## live o0.
Proof. intros Ho [_ Hf _ _] x Hx Hl. specialize (Ho x Hl). specialize (Hf x Hx). lia. Qed.

Lemma shuts_exists leaves e o : running e → ∃ e' o', shuts leaves e o e' o'.
Proof.
  intros Hr. destruct (drain_completes leaves _ _ (drain_begins leaves e Hr)) as (k & d & _ & Hk).
  exists (closed_down d o), (Close (en_set d) o).2. apply shuts_drained; [by destruct Hr|]. by eapply rtc_nsteps_2.
Qed.

Lemma shuts_running leaves e o e' o' : running e → shuts leaves e o e' o' →
  ∃ d, drained leaves (begin_drain e).2 d ∧ e' = closed_down d o ∧ o' = (Close (en_set e) o).2.
Proof.
  intros Hr Hs. destruct Hs as [Hs|d Hs Hd]; [by destruct Hr as [Hr _]; rewrite Hr in Hs|].
  pose proof (drain_inv_end _ _ _ (drain_steps _ _ _ Hr Hd)) as Hdn. exists d. split_and!; [done..|].
  by rewrite (dn_set _ _ _ Hdn).
Qed.

Lemma shuts_stopped_inv leaves e o e' o' : started e = false → shuts leaves e o e' o' → e' = e ∧ o' = o.
Proof. intros Hs [|]; [done|congruence]. Qed.

Section balance.
Context (testing_dsn : string) (opens : string → bool) (driver_of : string → string).
Context (create_test : string → string → option string) (migrates : string → bool) (leaves : Z → bool).

(** An engine that stopped, or that never ran: nothing is open. *)
Definition at_rest (e : engine) : Prop := started e = false ∧ groups e = ∅ ∧ en_set e = no_shards.

(** What a Shutdown gives back, relative to before the Startup. *)
Definition given_back (o : process) (e2 : engine) (o2 : process) : Prop :=
  at_rest e2 ∧ metrics e2 = false ∧ live o2 = live o ∧ reserved o2 = reserved o.

(** C36. Startup and Shutdown balance, error by error.  A Startup that succeeds leaves a running engine with a handle
    for each registered shard and its row in every registry that took the registration; a Shutdown of it
    can complete, and however it goes it gives back every handle and the whole reservation, and the engine is at rest.
    A Startup that is refused changes nothing (one of an engine at rest is never refused for having started), and one whose shards do not open leaves the engine
    untouched and at most one handle behind, that of a shard whose migrations failed.  One that fails after the shards are open is
    different: the engine counts as stopped, so no Shutdown does anything, yet all its handles are open. *)
Theorem startup_and_shutdown_balance specs testHashedID cap a e o :
  process_ok o → at_rest e →
  let '(err, e1, o1) := Startup testing_dsn opens driver_of create_test migrates specs testHashedID cap a e o in
  match err with
  | None =>
      running e1 ∧ dom (dbs (en_set e1)) = dom (to_open (startup_config specs testHashedID cap)) ∧
      (∀ i, i ∈ dom (dbs (en_set e1)) → registers a i = true → i ∈ rows e1) ∧
      (∃ e2 o2, shuts leaves e1 o1 e2 o2) ∧ (∀ e2 o2, shuts leaves e1 o1 e2 o2 → given_back o e2 o2)
  | Some (OpenFailed err) => e1 = e ∧ reserved o1 = reserved o ∧ live o1 = leaked err o1 ∪ live o
  | Some (NoPiston _) | Some NoCrew =>
      started e1 = false ∧ groups e1 = ∅ ∧ metrics e1 = false ∧
      live o1 = handle_ids (dbs (en_set e1)) ∪ live o ∧ handle_ids (dbs (en_set e1)) ## live o ∧
      ∀ e2 o2, shuts leaves e1 o1 e2 o2 → e2 = e1 ∧ o2 = o1
  | Some AlreadyStarted | Some HostRequired => e1 = e ∧ o1 = o
  end.
Proof.
  intros Ho (Hs & Hg & Hset). unfold Startup. rewrite Hs. destruct (has_host e) eqn:Hh; simpl; [|done].
  pose proof (Open_all_or_nothing testing_dsn opens driver_of create_test migrates (startup_config specs testHashedID cap) (en_set e) o Ho) as HO.
  destruct (Open _ _ _ _ _ _ _ _) as [[[err|] s] o1].
  { destruct HO as (-> & Hr & Hl & _). split_and!; [|done..]. destruct e; simpl in *; by subst. }
  destruct HO as (_ & Hdom & Hl & Hdj & _ & Hclose).
  unfold initRuntime. simpl. destruct (find _ _) as [idx|]; [|destruct (crew_ok a)]; simpl.
  1,3: split_and!; [done..|]; intros e2 o2; by apply shuts_stopped_inv.
  match goal with |- running ?e1 ∧ _ => assert (running e1) as Hr by (unfold running; simpl; rewrite Hg, (right_id_L ∅ _); done) end.
  split; [done|]. split; [done|]. split; [intros i Hi Hreg; simpl; apply elem_of_union_l; by apply elem_of_filter|].
  split; [by apply shuts_exists|]. intros e2 o2 (d & Hd & -> & ->)%shuts_running; [|done]. destruct Hd. simpl in *.
  destruct Hclose as (_ & Hlive & Hres). split_and!; [split; [|split]|..]; simpl; done.
Qed.
End balance.

(** ** Over the shards of a set *)

Lemma OnEach_reports_the_lowest {E} (op : Z → handle → option E) not_found s :
  let run idx := match Shard idx s with Some h => op idx h | None => Some not_found end in
  match OnEach op not_found s with
  | None => ∀ idx, idx ∈ indices s → run idx = None
  | Some (idx, err) => ∃ l1 l2, indices s = l1 ++ idx :: l2 ∧ (∀ j, j ∈ l1 → run j = None) ∧ run idx = Some err
  end.
Proof.
  simpl. unfold OnEach. induction (indices s) as [|i l IH]; simpl; [by intros ? ?%elem_of_nil|].
  destruct (match Shard i s with Some h => op i h | None => Some not_found end) as [err|] eqn:Hi; simpl.
  { exists [], l. split_and!; [done|by intros ? ?%elem_of_nil|done]. }
  destruct (head _) as [[idx err]|].
  - destruct IH as (l1 & l2 & -> & Hl & Hx). exists (i :: l1), l2. split_and!; [done| |done].
    intros j [->|Hj]%elem_of_cons; [done|by apply Hl].
  - intros idx [->|Hj]%elem_of_cons; [done|by apply IH].
Qed.

Lemma set_push_within_cap n s i h :
  0 < testConnCap s → dbs (ShardSet_SetMaxOpenConns n s) !! i = Some h → h_open h ≤ testConnCap s.
Proof.
  intros Hc Hh. simpl in Hh. apply lookup_fmap_Some in Hh as (h' & <- & _). simpl. unfold clamp_to.
  rewrite bool_decide_eq_true_2 by done. lia.
Qed.

(** ** A run *)

Definition two_dsns : gmap Z string := {[1 := "file:a"; 2 := "file:b"]}.
Definition new_engine : engine := mkEngine false true no_shards ∅ false ∅ ∅.
Definition new_process : process := mkProcess ∅ 1 0.
Definition all_well : startup_answers := mkAnswers (λ _, true) (λ _, true) true.
Definition no_test_database (_ _ : string) : option string := None.
Definition start (migrates : string → bool) (a : startup_answers) : engine → process → option startup_error * engine * process :=
  Startup "" (λ _, true) (λ _, "sqlite") no_test_database migrates two_dsns "" 8 a.
Definition started_engine : engine := (start (λ _, true) all_well new_engine new_process).1.2.
Definition started_process : process := (start (λ _, true) all_well new_engine new_process).2.

Lemma started_running : running started_engine.
Proof. split_and!; [done| |done]. apply set_eq. intros g. destruct g; by vm_compute. Qed.

Lemma new_process_is_ok : process_ok new_process.
Proof. intros x Hx. simpl in Hx. set_solver. Qed.

Lemma drain_is_ordered_and_ends_witness : running started_engine ∧
  ∃ d, rtc (dstep (λ i, bool_decide (i = 1))) (begin_drain started_engine) ([], d) ∧ groups d = ∅.
Proof.
  split; [apply started_running|].
  destruct (drain_is_ordered_and_ends (λ i, bool_decide (i = 1)) started_engine (begin_drain started_engine) started_running (rtc_refl _ _))
    as ((k & d & _ & Hk) & _).
  exists d. pose proof (rtc_nsteps_2 _ _ _ Hk) as Hr. split; [done|].
  apply dn_groups with (leaves := λ i, bool_decide (i = 1)) (e := started_engine).
  apply (drain_is_ordered_and_ends _ started_engine ([], d) started_running Hr). done.
Defined.

Lemma startup_and_shutdown_balance_witness : process_ok new_process ∧ at_rest new_engine ∧
  ∃ e2 o2, shuts (λ _, true) started_engine started_process e2 o2 ∧ given_back new_process e2 o2.
Proof.
  split; [apply new_process_is_ok|]. split; [done|].
  destruct (startup_and_shutdown_balance "" (λ _, true) (λ _, "sqlite") no_test_database (λ _, true) (λ _, true) two_dsns "" 8 all_well
    new_engine new_process new_process_is_ok (conj eq_refl (conj eq_refl eq_refl))) as (_ & _ & _ & (e2 & o2 & Hs) & Hg).
  exists e2, o2. split; [exact Hs|]. by apply Hg.
Defined.

(** A shard whose migrations fail keeps its handle: the set closes the others and forgets this one. *)
Theorem failed_migration_leaks_its_handle :
  let '(err, e, o) := start (λ dsn, bool_decide (dsn = "file:a")) all_well new_engine new_process in
  err = Some (OpenFailed (NotMigrated 2)) ∧ e = new_engine ∧ live o = {[2]}.
Proof. vm_compute. done. Qed.

(** A Startup whose crew is not built leaves its shards open and its rows in the registry; the Startup that
    succeeds next takes their place, and no Shutdown closes them any more. *)
Theorem failed_build_leaks_the_shards :
  let '(err, e, o) := start (λ _, true) (mkAnswers (λ _, true) (λ _, true) false) new_engine new_process in
  err = Some NoCrew ∧ rows e = {[1; 2]} ∧ live o = {[1; 2]} ∧
  let '(err, e, o) := start (λ _, true) all_well e o in
  err = None ∧ live (Close (en_set e) o).2 = {[1; 2]}.
Proof. vm_compute. done. Qed.

(** In test mode a push through the set keeps to the cap, and one through a handle taken out of it does not. *)
Theorem pool_push_bypasses_the_cap :
  let s := mkShardSet {[1 := mkHandle 1 "file:a" 4 4]} [1] 8 8 in
  (h_open <$> Shard 1 (ShardSet_SetMaxOpenConns 48 s)) = Some 8 ∧ (h_open <$> Shard 1 (push_open 1 48 s)) = Some 48.
Proof. by vm_compute. Qed.
